(* ===== verification/_CoqProject ===== *)
-Q . S2P
Prelude.v
Utf8.v
Text.v
Wild.v
Util.v
Maps.v
Types.v
Compress.v
Format.v
Crypt.v
Log.v
Hint.v
Cache.v
SecIndex.v
Engine.v
EngineMem.v
EngineOk.v
EngineThm.v
Sample.v
EngineBatch.v
Recovery.v
History.v
Keeps.v
Compact.v
DocNum.v
Floats.v
FloatsThm.v
Kdoc.v
Journal.v
JournalThm.v
JournalSafe.v
JournalSpec.v
Failover.v
Select.v
Ordering.v
Paths.v
PathsThm.v
PathText.v
Lexer.v
Kva.v
Times.v
TimesThm.v
Json.v
JsonThm.v
Numbers.v
Value.v
View.v
Moments.v
DocEq.v
Schema.v
Query.v
Plan.v
PlanThm.v
Auth.v
Moves.v
Proto.v
Repl.v
ReplThm.v
Pubsub.v
Resp.v
RespThm.v
Spec.v
Session.v
SessionThm.v
CompactThm.v
Indexes.v
SortKeys.v
Run.v
RunThm.v
RunSample.v
SchemaThm.v
SchemaSample.v
