(* ===== verification/Prelude.v ===== *)
(** * KivaDB: a model of the database and the theorems that make it correct

    KivaDB is a typed key-value and document database: a process serves
    workspaces, each one an append-only data file with an index in memory.
    This library translates the parts of [src/src/] that decide what is stored,
    recovered, found and told, and proves what they promise.

    ** The program, and the files that model it

    A workspace is an [Engine] ([src/engine.rs]). A write encodes a value
    ([src/value.rs], [src/doc.rs]), compresses it ([src/compress.rs]), seals it
    when the workspace is encrypted ([src/crypt.rs]), frames it as a record
    ([src/format.rs]) and appends it to the data file; then it updates the
    index in memory, the secondary indexes and the cache ([src/cache.rs]).
    Opening a workspace replays the log, from the start or from a snapshot of
    the index ([src/hint.rs]). Compaction rewrites the file with its live
    records. Several servers keep copies, and elect a master
    ([src/failover.rs]); connections listen to channels ([src/pubsub.rs]).

    - [Prelude]: results, machine integers and their bytes, lists, automation.
      [Utf8]: a [String] as its characters. [Maps]: sums over maps, the order
      of texts. [Wild]: matching with one backtracking point, the theory shared
      by the three wildcard matchers of the program. [Text]: the numbers and
      words of texts, their lines.
    - [Util] ([util.rs]): hexadecimal, base64, deadlines, globs, ids.
    - [Types] ([value.rs], [format.rs]): type tags, document encodings, flags.
      [Compress], [Format], [Crypt]: a record from its value to its bytes and
      back. A file is a list of bytes; [Format.encode_record] is
      [format::encode_record], [Crypt.encode_record] is [Engine::encode_record].
    - [Log] ([engine.rs], [scan_log]): the replay of a file, record by record,
      as a step ([scan_step]) and its loop; the marks of a batch.
      [Hint] ([hint.rs]): the snapshot of an index and its reading.
    - [Cache] ([cache.rs]), [SecIndex] ([engine.rs], [SecIndex] and
      [check_unique]).
    - [Engine] ([engine.rs]): the state [Inner], the operations under the lock
      in a state and error monad [M] ([get_], [put_at], [update_with],
      [delete_], [apply_batch_watched], [txn_begin], [purge_expired], [reset]
      ...). [EngineMem]: the accounts kept in memory. [EngineOk]: the
      invariant [inv], the index against the log. [EngineThm]: each operation
      keeps it and means a change of the view. [EngineBatch]: batches.
      [Recovery]: [open_]. [History]: lists of operations by clients, and the
      map they mean. [Keeps]: what operations leave alone. [Sample]: a concrete
      engine for evaluations. [Spec]: the theorems of the engine.
    - [Compact], [CompactThm] ([engine.rs], [compact_impl]): compaction in its
      three phases, with any history of operations between the first and the
      last one.
    - [DocNum], [Kdoc] ([doc.rs]): the exact order of numbers of different
      types; the binary encoding of documents. [Floats]: the arithmetic, the
      texts and the order of [f64], each operation its exact result rounded;
      [FloatsThm]: what the text of a float reads as. [Numbers] ([num.rs]):
      sums and the numbers of texts, without loss. [Paths], [PathsThm], [PathText]
      ([jsonpath.rs]): paths, from their text to reading, writing and deleting
      in a tree. [Times], [TimesThm] ([time.rs]): formats of dates, what they
      write and what they read. [Json], [JsonThm] ([doc.rs]): plain and extended JSON.
      [Value] ([value.rs]): a value and its bytes, whose engine is the
      [Values] of [Engine]; [View] ([view.rs]): what its indexes see.
      [DocEq]: equality of documents, of JSON and of values. [Moments]
      ([time.rs]): the moments that conditions and schemas compare.
    - [Lexer] ([lexer.rs]), [Kva] ([kva.rs]): the words of a command, the
      commands of a file.
    - [Auth] ([auth.rs]): accounts and grants. [Moves] ([instance.rs]): a
      workspace changes its name, the crash included. [Proto] ([proto.rs]):
      frames. [Repl], [ReplThm] ([repl.rs]): a replica follows a master.
    - [Select], [Ordering] ([engine.rs], [engine/ordering.rs], [num.rs]): what
      queries are made of: patterns of [like], the keys of a prefix, sets of
      keys, the order of rows, and the rows a limited query keeps.
      [SortKeys]: what [order by] sorts a value by. [Query] ([query.rs]):
      conditions, from their words to the test of a document. [Plan],
      [PlanThm] ([engine.rs]): the reading of an index that answers a
      condition, and why it holds every answer. [Indexes] ([engine.rs]): a
      unique index is created from the keys that exist. [Run], [RunThm]
      ([engine.rs], [run_query]): a query from the choice of its source to its
      rows. [RunSample]: a workspace of users for evaluations.
    - [Schema], [SchemaThm] ([schema.rs], [conformed] of [engine.rs]): schemas,
      from their JSON to the filling and the check of a document.
      [SchemaSample]: their evaluations.
    - [Session], [SessionThm] ([session.rs]): permissions, the reads and writes
      of keys, transactions as a buffer over the engine with savepoints,
      watched keys.
    - [Resp], [RespThm] ([resp.rs]): the bytes of the Redis port, commands in
      and replies out.
    - [Journal] ([changes.rs]): the journal of changes beside a data file, its
      segments as the files of a directory. [JournalThm]: its records, its
      invariant, reading and writing. [JournalSafe]: retention, opening again,
      what a crash leaves. [JournalSpec]: histories and the theorems.
    - [Failover] ([failover.rs], [repl.rs]): a node, its elections, and the
      group as a step relation, where the decision of a vote and its record
      are two steps. [Pubsub] ([pubsub.rs]): the hub.

    ** What is proved

    - Durability and recovery: what was acknowledged is read back after a
      crash that cuts the file anywhere after it ([crash_durability]); a cut
      log yields the commits it holds whole ([crash_recovery]); opening from
      the hint or from the log is the same ([hint_opens_the_same]); compaction
      changes no answer, during it, after it or after a reopening
      ([compaction_transparent]); recovery ends ([scan_log_ends]). The clients
      of these histories, and of those of the next group, ask for what
      [eop_pre] says: values that their encoding gives back, deadlines that
      the format keeps (in milliseconds, from March 1973 on), a clock that
      does not go back, and batches only when the workspace is not encrypted,
      since [sealed_batch_lost].
    - Refinement: a history of operations, failures of the disk included,
      refines a map of values with deadlines ([engine_refines_map]);
      [update_with] reads and writes in one step ([update_with_atomic]).
    - Indexes and accounts: [check_unique_keeps],
      [purge_all_complete], the cache ([cache_sound]).
    - Codecs: records, sealed or clear, hints, compression, documents
      ([kdoc_roundtrip], [kdoc_bounded]), values ([value_roundtrip]), their
      extended JSON ([ext_json_roundtrip]), dates as a format shows them
      ([shown_is_read]), frames however a socket cuts them ([frame_roundtrip]).
    - Paths: a position written is read back and nothing else changes
      ([path_set_exact]), a position deleted is gone ([path_delete_exact]).
    - Commands: the words are the text ([tokenize_exact], against a grammar of
      its own), a command is asked
      for more exactly when the lexer would refuse it for its brackets
      ([is_open_exact]), a file gives its commands ([split_exact]).
    - Accounts: what an account reaches ([access_exact]); a move interrupted
      anywhere is finished or undone ([rename_crash_safe]), when no grant is
      on the new name already.
    - Queries: a query in key order gives exactly the page of documents that
      its conditions accept, whatever source it reads ([query_exact]); a sorted
      one the first rows in order ([query_sorted]); an index narrows it without
      losing an answer ([index_narrows]); a new unique index agrees with the
      log or is refused ([index_created]). No comparison with a moment is
      answered by an index there, and no key has a star ([query_ok],
      [workspace_ok]): the findings say what the code does otherwise. The
      matchers decide what their
      patterns mean, the walk of a prefix gives each key once
      ([prefix_walk_exact]), a limited query keeps the first rows of the
      sorted ones ([topk_exact]), numbers are compared by value
      ([cmp_num_exact], [num_class_exact]) and summed without rounding
      ([sum_exact]); equality of documents is an equivalence
      ([doc_eq_equivalence]).
    - Schemas: a document that is accepted is the one written with the
      defaults filled in, and it passes ([conform_exact]); one that is not is
      kept only under a key that holds it already ([conformed_exact]); a
      schema that is read accepts its own written defaults
      ([schema_accepts], for JSON).
    - Sessions: a transaction is isolated until its commit, which makes what
      the session saw what everybody sees, or changes nothing
      ([transaction_exact]); the workspace is not encrypted and has no schema.
    - The Redis port: a reply is one frame that says what the reply holds, its
      floats to the last bit ([reply_framed], by the relation [says]); a command is read as it was written
      ([command_read]).
    - The change journal: readers that poll get exactly the acknowledged
      changes, over rotations and retention, and are refused once a failed
      write broke it ([journal_poll_exact]), also after a crash
      ([journal_crash]).
    - Groups: one master per epoch, when each node votes for one candidate at
      a time ([one_master_per_epoch]), and two when it does not
      ([two_masters_of_one_epoch]); a replica that has been sent everything
      has what the master has ([replica_converges]), workspaces being neither
      created nor removed meanwhile; a published message reaches each listener once
      per match ([publish_exact]).
    - Where the code does not keep its word, the theorem says what it does:
      [sealed_batch_lost], [damaged_batch_half_applied],
      [expired_write_not_a_conflict], [journal_failed_append_lost],
      [deep_document_lost], [snapshot_ack_early], [overlapping_schemas],
      [two_masters_of_one_epoch], [old_deadline_revived],
      [registered_again_differs], [accepted_and_refuses].

    ** Conventions

    Machine integers are [Z] with their wrap-around or saturation written out
    where the code has it; lengths of lists in memory are unbounded. The
    clock, random bytes and the outcome of each file operation are arguments.
    The message of an error is its format template. A [BTreeMap] read in order
    is the sorted list of a finite map. What is not under [src/] is a class
    with its documented laws, and an instance for evaluations: [Aead] (the
    cipher), [Crc], [Codecs] (the compressors), [Decimals], [DecimalFrom] and
    [DecimalText] (decimal numbers), [Chrono], [Calendar] and [Rfc3339]
    (dates), [JsonNumbers], [JsonMake] and [Serde] (serde_json), [Lowercase]
    (Unicode), [Pbkdf2], [Regexes] (regex), [NanoText] (chrono). Parts of the
    program that meet at an interface are classes too: [Values] and [Leaves]
    (what the engine stores and indexes, given by [View]), [Tree] (documents
    and JSON as [Paths] walks them), [Fillable] with [FillableLaws] (the trees
    a schema fills).

    Loops have fuel where their recursion is not structural: [scan_log] and
    [read_hint] one unit per byte left and one more, each step consuming at
    least a byte; the wildcard loops [(|text|+2) * (|pattern|+2)], by the
    measure of [Wild.search]; [Kdoc.value] the depth limit of the code;
    [purge_loop] one unit more than the entries due; [Journal.frames] one
    unit per byte; the texts of paths, of formats and of commands one unit per character;
    [JournalSpec.poll] one unit more than the changes; [Resp.read_loop] one
    unit per byte; the shortest digits of a float ([Floats.shortest]) 1800
    digits, more than the exact decimal of any float has. A theorem for each
    says the fuel is enough.

    ** What is not modelled

    Pure input and output: sockets, TLS, HTTP, terminals, the configuration
    and start-up of the process, backups and their archives, what is printed
    for a user. The execution of commands ([exec.rs], [exec_admin.rs]), which
    parses options and calls the operations modelled here, and the commands
    of the Redis port beyond its bytes. Approximate search of vectors
    (distances in single precision, random levels) and the indexes and the
    cache of answers built on it. Scripts, which run in the interpreter of
    another library. In a session: logging in, changing workspace and the
    settings of dates. In the engine: vector indexes, group commit, the
    thread of maintenance, the bound of memory ([check_room], an argument of
    [Session]) and the walk of an index in order, which is an argument of
    [Run]. Writes and batches of [Engine] are those of a workspace without
    schemas and vector indexes: [put_at], [update_with] and
    [apply_batch_watched] leave out the calls to [conformed], which
    [SchemaThm] treats alone, and to [check_vector_room]. A write to the data
    file that fails is cut off again, as [append] asks of the system: the case
    where that fails too is left out. The end of a compaction leaves out the
    mark and the sync of the journal and the saving of the graphs of vector
    indexes. Writing the epoch and the vote of a node to its configuration is
    taken to succeed. The depth of brackets of a command is not bounded to 32
    bits. Durations, and the arithmetic of typed documents, which rests on
    how the library of decimals rounds. *)
From Stdlib Require Export Ascii String ZArith Lia.
From stdpp Require Export prelude gmap list sorting.

#[global] Open Scope Z_scope.
#[global] Set Default Goal Selector "!".

(** ** Results: Rust's [Result<T, E>] *)

Inductive result (E A : Type) : Type :=
| Ok (a : A)
| Err (e : E).
Arguments Ok {E A} a.
Arguments Err {E A} e.

#[export] Instance result_ret {E} : MRet (result E) := fun A a => Ok a.
#[export] Instance result_bind {E} : MBind (result E) :=
  fun A B f m => match m with Ok a => f a | Err e => Err e end.
#[export] Instance result_fmap {E} : FMap (result E) :=
  fun A B f m => match m with Ok a => Ok (f a) | Err e => Err e end.

(** [Option::ok_or] *)
Definition ok_or {E A} (o : option A) (e : E) : result E A :=
  match o with Some a => Ok a | None => Err e end.

Definition is_ok {E A} (r : result E A) : bool :=
  match r with Ok _ => true | Err _ => false end.

Lemma result_bind_ok {E A B} (m : result E A) (f : A → result E B) b :
  m ≫= f = Ok b ↔ ∃ a, m = Ok a ∧ f a = Ok b.
Proof.
  split.
  - destruct m as [a|e]; simpl; [eauto | discriminate].
  - intros (a & -> & ?). done.
Qed.

(** Errors of the engine ([src/error.rs]); the text is the message's format
    template, without the interpolated values. *)
Inductive KivaError : Type :=
| Io (m : String.string)
| Corrupted (m : String.string)
| Locked (m : String.string)
| Format (m : String.string)
| Invalid (m : String.string)
| NotFound (m : String.string)
| Exists_ (m : String.string)
| TypeErr (m : String.string)
| Conflict (m : String.string)
| Denied (m : String.string)
| ReadOnly (m : String.string)
| Unique (m : String.string)
| SchemaErr (m : String.string)
| Script (m : String.string)
| Other (m : String.string).

(** ** Machine integers *)

Definition u8_max : Z := 255.
Definition u16_max : Z := 65535.
Definition u32_max : Z := 4294967295.
Definition u64_max : Z := 18446744073709551615.
Definition i64_min : Z := -9223372036854775808.
Definition i64_max : Z := 9223372036854775807.

(** [x as uN] *)
Definition wrap (w : Z) (x : Z) : Z := x mod 2 ^ w.
(** The signed reading of a [w]-bit word ([x as iN]). *)
Definition sint (w : Z) (x : Z) : Z :=
  let u := wrap w x in if u <? 2 ^ (w - 1) then u else u - 2 ^ w.
(** Saturating arithmetic on [i64] and [u64]. *)
Definition clamp (lo hi x : Z) : Z := Z.max lo (Z.min hi x).
Definition sat_i64 (x : Z) : Z := clamp i64_min i64_max x.
Definition sat_u64 (x : Z) : Z := clamp 0 u64_max x.

Definition in_u (w x : Z) : Prop := 0 ≤ x < 2 ^ w.
Definition in_i64 (x : Z) : Prop := i64_min ≤ x ≤ i64_max.

Lemma Ztestbit_high_small b n i : 0 ≤ n ≤ i → 0 ≤ b < 2 ^ n → Z.testbit b i = false.
Proof.
  intros Hn Hb. destruct (decide (b = 0)) as [->|]; [apply Z.testbit_0_l|].
  apply Z.bits_above_log2; [lia|].
  apply Z.log2_lt_pow2; [lia|]. eapply Z.lt_le_trans; [apply Hb|]. apply Z.pow_le_mono_r; lia.
Qed.
Lemma wrap_in_u w x : 0 ≤ w → in_u w (wrap w x).
Proof. intros. unfold in_u, wrap. apply Z.mod_pos_bound. by apply Z.pow_pos_nonneg. Qed.
Lemma wrap_small w x : in_u w x → wrap w x = x.
Proof. intros. by apply Z.mod_small. Qed.
Lemma sint64_wrap x : in_i64 x → sint 64 (wrap 64 x) = x.
Proof.
  unfold in_i64, i64_min, i64_max, sint, wrap. intros [H1 H2].
  rewrite Z.mod_mod by lia. change (64 - 1) with 63.
  destruct (Z.ltb_spec (x mod 2 ^ 64) (2 ^ 63)) as [Hl|Hl];
    destruct (Z.lt_ge_cases x 0).
  - assert (x mod 2 ^ 64 = x + 2 ^ 64) by (symmetry; apply (Z.mod_unique_pos _ _ (-1)); lia). lia.
  - by rewrite Z.mod_small by lia.
  - assert (x mod 2 ^ 64 = x + 2 ^ 64) by (symmetry; apply (Z.mod_unique_pos _ _ (-1)); lia). lia.
  - rewrite Z.mod_small in Hl by lia. lia.
Qed.
Lemma sat_i64_in x : in_i64 (sat_i64 x).
Proof. unfold sat_i64, in_i64, clamp, i64_min, i64_max. lia. Qed.

(** ** Bytes *)

Abbreviation bytes := (list Z).
Definition is_byte (b : Z) : Prop := 0 ≤ b < 256.
Abbreviation all_bytes := (Forall is_byte).

Definition len {A} (l : list A) : Z := Z.of_nat (length l).
Arguments len {A} l : simpl never.

Lemma len_nonneg {A} (l : list A) : 0 ≤ len l.
Proof. unfold len. lia. Qed.
Lemma len_app {A} (l k : list A) : len (l ++ k) = len l + len k.
Proof. unfold len. rewrite length_app. lia. Qed.
Lemma len_nil {A} : len (@nil A) = 0.
Proof. done. Qed.
Lemma len_cons {A} (x : A) l : len (x :: l) = 1 + len l.
Proof. unfold len. simpl. lia. Qed.

(** Rust's [&b[i..j]] on in-range indices. *)
Definition slice {A} (i j : Z) (l : list A) : list A :=
  take (Z.to_nat (j - i)) (drop (Z.to_nat i) l).

(** Little-endian bytes of an integer, [n] of them ([to_le_bytes]). *)
Fixpoint le_bytes (n : nat) (z : Z) : bytes :=
  match n with
  | O => []
  | S n => (z mod 256) :: le_bytes n (z / 256)
  end.
(** [from_le_bytes] as an unsigned integer. *)
Fixpoint le_val (l : bytes) : Z :=
  match l with
  | [] => 0
  | b :: l => b + 256 * le_val l
  end.
Definition be_bytes (n : nat) (z : Z) : bytes := rev (le_bytes n z).
Definition be_val (l : bytes) : Z := le_val (rev l).

Lemma le_bytes_length n z : length (le_bytes n z) = n.
Proof. revert z; induction n; simpl; intros; by f_equal. Qed.
Lemma le_bytes_all n z : all_bytes (le_bytes n z).
Proof.
  revert z; induction n; simpl; intros; constructor; [|done].
  apply Z.mod_pos_bound; lia.
Qed.
Lemma le_val_le_bytes n z : le_val (le_bytes n z) = z mod 256 ^ Z.of_nat n.
Proof.
  revert z; induction n; intros z; simpl le_bytes; simpl le_val.
  - by rewrite Z.mod_1_r.
  - rewrite IHn, Nat2Z.inj_succ, Z.pow_succ_r by lia.
    rewrite Z.rem_mul_r; lia.
Qed.
Lemma le_val_bound l : all_bytes l → 0 ≤ le_val l < 256 ^ len l.
Proof.
  induction 1 as [|b l Hb Hl IH]; simpl; [done|].
  rewrite len_cons, Z.pow_add_r by (pose proof (len_nonneg l); lia).
  unfold is_byte in Hb. lia.
Qed.
Lemma le_bytes_le_val l : all_bytes l → le_bytes (length l) (le_val l) = l.
Proof.
  induction 1 as [|b l Hb Hl IH]; simpl; [done|].
  unfold is_byte in Hb.
  assert ((b + 256 * le_val l) mod 256 = b) as ->
    by (symmetry; apply (Z.mod_unique_pos _ _ (le_val l)); lia).
  assert ((b + 256 * le_val l) / 256 = le_val l) as ->
    by (symmetry; apply (Z.div_unique_pos _ _ _ b); lia).
  by rewrite IH.
Qed.
Lemma le_val_app l k : le_val (l ++ k) = le_val l + 256 ^ len l * le_val k.
Proof.
  induction l as [|b l IH]; [unfold len; simpl; lia|].
  cbn [app le_val]. rewrite IH, len_cons, Z.pow_add_r by (pose proof (len_nonneg l); lia). lia.
Qed.
Lemma be_bytes_length n z : length (be_bytes n z) = n.
Proof. unfold be_bytes. by rewrite length_rev, le_bytes_length. Qed.
Lemma be_val_be_bytes n z : be_val (be_bytes n z) = z mod 256 ^ Z.of_nat n.
Proof. unfold be_val, be_bytes. by rewrite rev_involutive, le_val_le_bytes. Qed.
Lemma be_bytes_all n z : all_bytes (be_bytes n z).
Proof. unfold be_bytes. apply Forall_rev, le_bytes_all. Qed.

(** Words of 16, 32 and 64 bits. *)
Lemma le_val_u16 z : in_u 16 z → le_val (le_bytes 2 z) = z.
Proof. intros. rewrite le_val_le_bytes. by apply Z.mod_small. Qed.
Lemma le_val_u32 z : in_u 32 z → le_val (le_bytes 4 z) = z.
Proof. intros. rewrite le_val_le_bytes. by apply Z.mod_small. Qed.
Lemma le_val_u64 z : in_u 64 z → le_val (le_bytes 8 z) = z.
Proof. intros. rewrite le_val_le_bytes. by apply Z.mod_small. Qed.
Lemma sint_le_bytes_i64 z : in_i64 z → sint 64 (le_val (le_bytes 8 z)) = z.
Proof.
  intros. rewrite le_val_le_bytes. change (256 ^ Z.of_nat 8) with (2 ^ 64).
  by apply sint64_wrap.
Qed.

(** Taking the front of a concatenation apart. *)
Lemma take_app_len {A} (l k : list A) n : length l = n → take n (l ++ k) = l.
Proof. intros <-. by rewrite take_app_length. Qed.
Lemma drop_app_len {A} (l k : list A) n : length l = n → drop n (l ++ k) = k.
Proof. intros <-. by rewrite drop_app_length. Qed.

(** A field of fixed width inside a concatenation. *)
Lemma slice_field {A} (l f r : list A) i j :
  len l = i → len f = j - i → slice i j (l ++ f ++ r) = f.
Proof.
  intros Hi Hf. unfold slice.
  rewrite drop_app_len by (unfold len in Hi; lia). apply take_app_len. unfold len in Hf. lia.
Qed.
Lemma slice_front {A} (f r : list A) i j : i = 0 → len f = j - i → slice i j (f ++ r) = f.
Proof. intros -> Hf. by apply (slice_field [] f r). Qed.
Lemma slice_drop {A} (h l : list A) i j : len h ≤ i → slice i j (h ++ l) = slice (i - len h) (j - len h) l.
Proof.
  intros Hi. unfold slice. pose proof (len_nonneg h).
  rewrite drop_app_ge by (unfold len in *; lia). unfold len in *. do 2 f_equal; lia.
Qed.
Lemma le_val_1 x : le_val [x] = x.
Proof. simpl. lia. Qed.
Lemma slice_take {A} i j n (l : list A) : 0 ≤ i → j ≤ n → slice i j (take (Z.to_nat n) l) = slice i j l.
Proof. intros. unfold slice. rewrite skipn_firstn_comm, take_take. f_equal. lia. Qed.
Lemma len_le_bytes n z : len (le_bytes n z) = Z.of_nat n.
Proof. unfold len. by rewrite le_bytes_length. Qed.
(** The [n]-th field of a concatenation. *)
Lemma slice_nth {A} (fs : list (list A)) n f i j :
  fs !! n = Some f → i = len (List.concat (take n fs)) → j = i + len f → slice i j (List.concat fs) = f.
Proof.
  intros Hn -> ->. pose proof (take_drop_middle _ _ _ Hn) as E. revert E. generalize (take n fs) (drop (S n) fs).
  intros pre post <-. rewrite List.concat_app. simpl. apply slice_field; lia.
Qed.
Lemma slice_all_bytes i j (l : bytes) : all_bytes l → all_bytes (slice i j l).
Proof. intros. unfold slice. by apply Forall_take, Forall_drop. Qed.

(** A boolean property of every byte, by evaluation. *)
Definition byte_values : list Z := List.map Z.of_nat (List.seq 0 256).
Lemma byte_forall (P : Z → bool) : forallb P byte_values = true → ∀ b, is_byte b → P b = true.
Proof.
  intros H b Hb. unfold is_byte in Hb. rewrite forallb_forall in H. apply H.
  apply in_map_iff. exists (Z.to_nat b). split; [lia|]. apply in_seq. lia.
Qed.

(** Bytes, by evaluation. *)
Definition bytesb (l : bytes) : bool := forallb (fun b => (0 <=? b) && (b <? 256)) l.
Lemma bytesb_all l : bytesb l = true → all_bytes l.
Proof.
  unfold bytesb. rewrite forallb_forall. intros H. apply List.Forall_forall. intros b Hb.
  apply H, andb_true_iff in Hb. rewrite Z.leb_le, Z.ltb_lt in Hb. exact Hb.
Qed.

(** Bit operations as arithmetic. *)
Lemma lor_shiftl_add a b n : 0 ≤ n → 0 ≤ b < 2 ^ n → Z.lor (Z.shiftl a n) b = a * 2 ^ n + b.
Proof.
  intros Hn Hb. rewrite <- Z.shiftl_mul_pow2 by done. symmetry. rewrite Z.add_nocarry_lxor.
  - symmetry. apply Z.bits_inj'. intros i Hi. rewrite Z.lor_spec, Z.lxor_spec.
    destruct (Z.lt_ge_cases i n).
    + rewrite Z.shiftl_spec_low by done. by destruct (Z.testbit b i).
    + rewrite (Ztestbit_high_small b n i) by lia. by rewrite orb_false_r, xorb_false_r.
  - apply Z.bits_inj'. intros i Hi. rewrite Z.land_spec, Z.bits_0.
    destruct (Z.lt_ge_cases i n).
    + by rewrite Z.shiftl_spec_low by done.
    + rewrite (Ztestbit_high_small b n i) by lia. apply andb_false_r.
Qed.
Lemma land_ones_mod a n : 0 ≤ n → Z.land a (Z.shiftl 1 n - 1) = a mod 2 ^ n.
Proof.
  intros. rewrite Z.shiftl_1_l, <- Z.land_ones by done. by rewrite Z.ones_equiv, <- Z.sub_1_r.
Qed.

(** Boolean filters and [take_while] of lists. *)
Fixpoint take_while {A} (f : A → bool) (l : list A) : list A :=
  match l with [] => [] | x :: l => if f x then x :: take_while f l else [] end.
Lemma filter_none {A} (f : A → bool) l : Forall (fun x => f x = false) l → List.filter f l = [].
Proof. induction 1 as [|x l Hx _ IH]; [done|]. simpl. by rewrite Hx. Qed.
Lemma filter_app_ {A} (f : A → bool) l k : List.filter f (l ++ k) = List.filter f l ++ List.filter f k.
Proof. induction l as [|x l IH]; simpl; [done|]. destruct (f x); simpl; by rewrite IH. Qed.
Lemma filter_ext_in {A} (f g : A → bool) l : (∀ x, x ∈ l → f x = g x) → List.filter f l = List.filter g l.
Proof. intros H. apply List.filter_ext_in. intros x Hx. by apply H, list_elem_of_In. Qed.
Lemma filter_filter {A} (f g : A → bool) l : List.filter f (List.filter g l) = List.filter (fun x => g x && f x) l.
Proof. induction l as [|x l IH]; [done|]. cbn [List.filter]. destruct (g x); cbn [andb List.filter]; by rewrite IH. Qed.
Lemma filter_rev_ {A} (f : A → bool) l : List.filter f (rev l) = rev (List.filter f l).
Proof. apply List.filter_rev. Qed.
Lemma take_while_all {A} (f : A → bool) l : Forall (fun x => f x = true) l → take_while f l = l.
Proof. induction 1 as [|x l Hx _ IH]; [done|]. cbn [take_while]. by rewrite Hx, IH. Qed.
Lemma take_while_filter {A} (f : A → bool) (R : A → A → Prop) l : StronglySorted R l → (∀ x y, x ∈ l → y ∈ l → R x y → f y = true → f x = true) →
  take_while f l = List.filter f l.
Proof.
  induction 1 as [|x l Hs IH Hx]; intros Hf; [done|]. cbn [take_while List.filter]. destruct (f x) eqn:E.
  - f_equal. apply IH. intros a b Ha Hb. apply Hf; by right.
  - symmetry. apply filter_none, Forall_forall. intros y Hy. apply not_true_iff_false. intros Hfy.
    rewrite Forall_forall in Hx. rewrite (Hf x y) in E; [done|by left|by right|by apply Hx|done].
Qed.
Lemma sorted_filter {A} (R : A → A → Prop) f l : StronglySorted R l → StronglySorted R (List.filter f l).
Proof.
  induction 1 as [|x l Hs IH Hx]; [constructor|]. cbn [List.filter]. destruct (f x); [|done]. constructor; [done|].
  apply Forall_forall. intros y Hy. apply list_elem_of_In, List.filter_In in Hy as [Hy _]. rewrite Forall_forall in Hx. by apply Hx, list_elem_of_In.
Qed.
Lemma filter_all {A} (f : A → bool) l : Forall (fun x => f x = true) l → List.filter f l = l.
Proof. induction 1 as [|x l Hx _ IH]; [done|]. cbn [List.filter]. by rewrite Hx, IH. Qed.
Lemma NoDup_map_eq {A B} (f : A → B) l x y : NoDup (List.map f l) → x ∈ l → y ∈ l → f x = f y → x = y.
Proof.
  induction l as [|z l IH]; cbn [List.map]; [by intros _ ?%elem_of_nil|]. intros [Hz Hn]%NoDup_cons.
  assert (∀ w, w ∈ l → f w ≠ f z) as Hne by (intros w Hw E; apply Hz; rewrite <- E; by apply list_elem_of_In, in_map, list_elem_of_In).
  intros [->|Hx]%elem_of_cons [->|Hy]%elem_of_cons E; [done|by destruct (Hne y Hy)|by destruct (Hne x Hx)|by apply IH].
Qed.
Lemma list_snoc_cases {A} (l : list A) : l = [] ∨ ∃ k x, l = k ++ [x].
Proof. destruct l as [|x k] using rev_ind; [by left|right; by eexists _, _]. Qed.
Lemma sorted_snoc {A} (R : A → A → Prop) l x : StronglySorted R l → Forall (fun y => R y x) l → StronglySorted R (l ++ [x]).
Proof.
  induction 1 as [|y l Hs IH Hy]; intros Hx; cbn [app]; [repeat constructor|]. apply Forall_cons in Hx as [Hyx Hx].
  constructor; [by apply IH|]. apply Forall_app. split; [done|by constructor].
Qed.
Lemma sorted_rev {A} (R : A → A → Prop) l : StronglySorted R l → StronglySorted (fun a b => R b a) (rev l).
Proof. induction 1 as [|x l Hs IH Hx]; [constructor|]. cbn [rev]. apply sorted_snoc; [done|]. by apply Forall_rev. Qed.
Lemma elem_filter {A} (f : A → bool) l x : x ∈ List.filter f l ↔ x ∈ l ∧ f x = true.
Proof. rewrite !list_elem_of_In. apply List.filter_In. Qed.
Lemma Forall_filter_ {A} (P : A → Prop) (f : A → bool) l : Forall P l → Forall P (List.filter f l).
Proof. induction 1 as [|x l Hx _ IH]; [constructor|]. cbn [List.filter]. destruct (f x); [by constructor|done]. Qed.
Lemma Forall_take_while {A} (P : A → Prop) (f : A → bool) l : Forall P l → Forall P (take_while f l).
Proof. induction 1 as [|x l Hx _ IH]; [constructor|]. cbn [take_while]. destruct (f x); [by constructor|constructor]. Qed.


Create HintDb kiva.
#[export] Hint Resolve len_nonneg le_bytes_all be_bytes_all wrap_in_u sat_i64_in : kiva.
#[export] Hint Rewrite @len_app @len_nil @len_cons @length_app le_bytes_length be_bytes_length : kiva.

(** Case analysis on the boolean tests of the code. *)
Ltac bdestruct_guard :=
  match goal with
  | |- context [if ?a <? ?b then _ else _] => destruct (Z.ltb_spec a b)
  | |- context [if ?a <=? ?b then _ else _] => destruct (Z.leb_spec a b)
  | |- context [if ?a =? ?b then _ else _] => destruct (Z.eqb_spec a b)
  | |- context [if bool_decide ?P then _ else _] => destruct (bool_decide_reflect P)
  end.
(** A decidable proposition on closed terms, by evaluation. *)
Ltac vm_decide := lazymatch goal with |- ?P => refine (bool_decide_eq_true_1 P _); vm_compute; reflexivity end.
Ltac simp_result := repeat match goal with
  | H : Ok _ = Ok _ |- _ => injection H as H; subst
  | H : Err _ = Ok _ |- _ => discriminate H
  | H : Ok _ = Err _ |- _ => discriminate H
  | H : (_ ≫= _) = Ok _ |- _ => apply result_bind_ok in H; destruct H as (? & ? & H)
  end.
