(* ===== verification/Utf8.v ===== *)
(** * Rust strings: sequences of Unicode scalar values and their UTF-8 bytes

    A [String] of the program is a list of scalar values ([str]); its
    [as_bytes] is [utf8 s], its [len()] is [str_len s], and
    [std::str::from_utf8] is [from_utf8]. *)
From S2P Require Import Prelude.
Open Scope Z_scope.

Abbreviation str := (list Z).

(** A [char]: a code point that is not a surrogate. *)
Definition is_scalar (c : Z) : Prop := 0 ≤ c < 0xD800 ∨ 0xE000 ≤ c < 0x110000.
Abbreviation valid_str := (Forall is_scalar).

(** String literals of the source (ASCII). *)
Definition lit (s : String.string) : str :=
  List.map (fun a => Z.of_nat (nat_of_ascii a)) (String.list_ascii_of_string s).
Definition chr (a : ascii) : Z := Z.of_nat (nat_of_ascii a).

Arguments lit s%_string.
Arguments chr a%_char.

Definition encode_char (c : Z) : bytes :=
  if c <? 0x80 then [c]
  else if c <? 0x800 then [0xC0 + c / 64; 0x80 + c mod 64]
  else if c <? 0x10000 then [0xE0 + c / 4096; 0x80 + (c / 64) mod 64; 0x80 + c mod 64]
  else [0xF0 + c / 262144; 0x80 + (c / 4096) mod 64; 0x80 + (c / 64) mod 64; 0x80 + c mod 64].

Definition utf8 (s : str) : bytes := List.flat_map encode_char s.
Definition str_len (s : str) : Z := len (utf8 s).

Definition is_cont (b : Z) : bool := (0x80 <=? b) && (b <? 0xC0).

(** [std::str::from_utf8]: [None] for bytes that are not UTF-8 (stray or
    missing continuation bytes, overlong forms, surrogates, values past
    0x10FFFF). *)
Fixpoint from_utf8 (l : bytes) : option str :=
  match l with
  | [] => Some []
  | b0 :: t0 =>
    if b0 <? 0x80 then cons b0 <$> from_utf8 t0
    else if b0 <? 0xC2 then None
    else
      match t0 with
      | [] => None
      | b1 :: t1 =>
        if negb (is_cont b1) then None
        else if b0 <? 0xE0 then cons ((b0 - 0xC0) * 64 + (b1 - 0x80)) <$> from_utf8 t1
        else
          match t1 with
          | [] => None
          | b2 :: t2 =>
            if negb (is_cont b2) then None
            else if b0 <? 0xF0 then
              let c := (b0 - 0xE0) * 4096 + (b1 - 0x80) * 64 + (b2 - 0x80) in
              if (c <? 0x800) || ((0xD800 <=? c) && (c <? 0xE000)) then None
              else cons c <$> from_utf8 t2
            else
              match t2 with
              | [] => None
              | b3 :: t3 =>
                if negb (is_cont b3) then None
                else
                  let c := (b0 - 0xF0) * 262144 + (b1 - 0x80) * 4096 + (b2 - 0x80) * 64 + (b3 - 0x80) in
                  if (c <? 0x10000) || (0x110000 <=? c) then None
                  else cons c <$> from_utf8 t3
              end
          end
      end
  end.

(** ** Round trips *)

Ltac Zify_dm :=
  Z.to_euclidean_division_equations.

Lemma encode_char_bytes c : is_scalar c → all_bytes (encode_char c).
Proof.
  unfold is_scalar, encode_char, is_byte. intros.
  repeat bdestruct_guard; repeat (constructor; [Zify_dm; lia|]); constructor.
Qed.

Lemma utf8_bytes s : valid_str s → all_bytes (utf8 s).
Proof.
  induction 1; simpl; [constructor|].
  apply Forall_app; split; [by apply encode_char_bytes|done].
Qed.

Lemma utf8_app s t : utf8 (s ++ t) = utf8 s ++ utf8 t.
Proof. apply flat_map_app. Qed.
Lemma utf8_cons c s : utf8 (c :: s) = encode_char c ++ utf8 s.
Proof. done. Qed.

Lemma is_cont_spec b : is_cont b = true ↔ 0x80 ≤ b < 0xC0.
Proof. unfold is_cont. rewrite andb_true_iff, Z.leb_le, Z.ltb_lt. lia. Qed.
Lemma is_cont_mod x : is_cont (0x80 + x mod 64) = true.
Proof. apply is_cont_spec. Zify_dm. lia. Qed.

Ltac bool_lia :=
  repeat match goal with
  | H : _ && _ = true |- _ => apply andb_true_iff in H; destruct H
  | H : _ || _ = false |- _ => apply orb_false_iff in H; destruct H
  | H : (_ <? _) = true |- _ => apply Z.ltb_lt in H
  | H : (_ <? _) = false |- _ => apply Z.ltb_ge in H
  | H : (_ <=? _) = true |- _ => apply Z.leb_le in H
  | H : (_ <=? _) = false |- _ => apply Z.leb_gt in H
  | H : (_ =? _) = true |- _ => apply Z.eqb_eq in H
  | H : (_ =? _) = false |- _ => apply Z.eqb_neq in H
  end.

Lemma ltb_t a b : a < b → (a <? b) = true. Proof. apply Z.ltb_lt. Qed.
Lemma ltb_f a b : b ≤ a → (a <? b) = false. Proof. apply Z.ltb_ge. Qed.
Lemma leb_t a b : a ≤ b → (a <=? b) = true. Proof. apply Z.leb_le. Qed.
Lemma leb_f a b : b < a → (a <=? b) = false. Proof. apply Z.leb_gt. Qed.

Lemma from_utf8_encode c t :
  is_scalar c → from_utf8 (encode_char c ++ t) = cons c <$> from_utf8 t.
Proof.
  intros Hc. unfold is_scalar in Hc. unfold encode_char.
  repeat bdestruct_guard; cbn [app from_utf8].
  - by rewrite ltb_t by lia.
  - rewrite ltb_f, ltb_f, is_cont_mod, ltb_t by (Zify_dm; lia). simpl.
    f_equal. f_equal. Zify_dm; lia.
  - rewrite ltb_f, ltb_f, !is_cont_mod, ltb_f, ltb_t by (Zify_dm; lia). cbn [negb].
    replace ((0xE0 + c / 4096 - 0xE0) * 4096 + (0x80 + (c / 64) mod 64 - 0x80) * 64 + (0x80 + c mod 64 - 0x80))
      with c by (Zify_dm; lia).
    rewrite ltb_f by lia.
    destruct (Z.ltb_spec c 0xE000); [rewrite leb_f by lia|rewrite andb_false_r]; done.
  - rewrite ltb_f, ltb_f, !is_cont_mod, !ltb_f by (Zify_dm; lia). cbn [negb].
    replace ((0xF0 + c / 262144 - 0xF0) * 262144 + (0x80 + (c / 4096) mod 64 - 0x80) * 4096
             + (0x80 + (c / 64) mod 64 - 0x80) * 64 + (0x80 + c mod 64 - 0x80))
      with c by (Zify_dm; lia).
    by rewrite leb_f by lia.
Qed.

(** [String::from_utf8(s.as_bytes())] gives [s] back. *)
Lemma from_utf8_utf8 s : valid_str s → from_utf8 (utf8 s) = Some s.
Proof.
  induction 1 as [|c s Hc Hs IH]; [done|].
  by rewrite utf8_cons, from_utf8_encode, IH.
Qed.

Lemma from_utf8_utf8_app s t : valid_str s → from_utf8 (utf8 s ++ t) = app s <$> from_utf8 t.
Proof.
  induction 1 as [|c s Hc Hs IH]; simpl.
  - by destruct (from_utf8 t).
  - rewrite <- app_assoc, from_utf8_encode, IH by done. by destruct (from_utf8 t).
Qed.

Local Ltac dec_step IH b c :=
  destruct (from_utf8 b) as [s'|] eqn:E; [|discriminate]; simpl in *;
  injection c as <-; destruct (IH b s' ltac:(simpl in *; lia)) as [He Hv]; [done|done|].

(** Decoding accepts only what encoding produces. *)
Lemma utf8_from_utf8 l s : all_bytes l → from_utf8 l = Some s → utf8 s = l ∧ valid_str s.
Proof.
  remember (length l) as n eqn:Hn. revert l s Hn.
  induction n as [n IH] using lt_wf_ind. intros l s -> Hb Hd.
  assert (IH' : ∀ k s, (length k < length l)%nat → all_bytes k → from_utf8 k = Some s →
    utf8 s = k ∧ valid_str s) by (intros; eapply IH; eauto). clear IH.
  destruct l as [|b0 t0]; [by injection Hd as <-|].
  inversion_clear Hb as [|?? Hb0 Ht0]. unfold is_byte in Hb0. cbn [from_utf8] in Hd.
  destruct (Z.ltb_spec b0 0x80).
  { dec_step IH' t0 Hd. split; [|constructor; [left; lia|done]].
    rewrite utf8_cons, He. unfold encode_char. by rewrite ltb_t. }
  destruct (Z.ltb_spec b0 0xC2); [done|].
  destruct t0 as [|b1 t1]; [done|].
  inversion_clear Ht0 as [|?? Hb1 Ht1].
  destruct (is_cont b1) eqn:H1; [|done]. apply is_cont_spec in H1. simpl in Hd.
  destruct (Z.ltb_spec b0 0xE0).
  { dec_step IH' t1 Hd. split; [|constructor; [left; lia|done]].
    rewrite utf8_cons, He. unfold encode_char. rewrite ltb_f, ltb_t by lia.
    simpl; repeat f_equal; Zify_dm; lia. }
  destruct t1 as [|b2 t2]; [done|].
  inversion_clear Ht1 as [|?? Hb2 Ht2].
  destruct (is_cont b2) eqn:H2'; [|done]. apply is_cont_spec in H2'. simpl in Hd.
  destruct (Z.ltb_spec b0 0xF0).
  { destruct (_ || _) eqn:Hc; [done|].
    apply orb_false_iff in Hc as [Hc1 Hc2]. apply Z.ltb_ge in Hc1.
    apply andb_false_iff in Hc2. rewrite Z.leb_gt, Z.ltb_ge in Hc2.
    dec_step IH' t2 Hd.
    split; [|constructor; [unfold is_scalar; lia|done]].
    rewrite utf8_cons, He. unfold encode_char. rewrite ltb_f, ltb_f, ltb_t by lia.
    simpl; repeat f_equal; Zify_dm; lia. }
  destruct t2 as [|b3 t3]; [done|].
  inversion_clear Ht2 as [|?? Hb3 Ht3].
  destruct (is_cont b3) eqn:H3'; [|done]. apply is_cont_spec in H3'. simpl in Hd.
  destruct (_ || _) eqn:Hc; [done|]. bool_lia.
  dec_step IH' t3 Hd.
  split; [|constructor; [unfold is_scalar; lia|done]].
  rewrite utf8_cons, He. unfold encode_char. rewrite ltb_f, ltb_f, ltb_f by lia.
  simpl; repeat f_equal; Zify_dm; lia.
Qed.

Lemma utf8_inj s t : valid_str s → valid_str t → utf8 s = utf8 t → s = t.
Proof.
  intros Hs Ht E. apply from_utf8_utf8 in Hs, Ht. rewrite E in Hs. congruence.
Qed.

Lemma utf8_nil_inv s : utf8 s = [] → s = [].
Proof.
  destruct s as [|c s]; [done|]. rewrite utf8_cons. unfold encode_char.
  repeat bdestruct_guard; done.
Qed.
Lemma str_len_app s t : str_len (s ++ t) = str_len s + str_len t.
Proof. unfold str_len. by rewrite utf8_app, len_app. Qed.

#[export] Hint Resolve utf8_bytes encode_char_bytes : kiva.

(** ** ASCII texts *)
Definition is_ascii (c : Z) : Prop := 0 ≤ c < 128.
Lemma utf8_ascii s : Forall is_ascii s → utf8 s = s.
Proof.
  induction 1 as [|c s Hc Hs IH]; [done|]. unfold is_ascii in Hc.
  rewrite utf8_cons, IH. unfold encode_char. by rewrite ltb_t by lia.
Qed.
Lemma ascii_valid s : Forall is_ascii s → valid_str s.
Proof. intros H. eapply Forall_impl; [exact H|]. unfold is_ascii, is_scalar. simpl. lia. Qed.

(** ** [String::from_utf8_lossy]: U+FFFD for each longest start of a character
    that does not go on *)
Definition REPLACEMENT : Z := 0xFFFD.
(** The bytes that may follow the first one, of three or of four. *)
Definition second_of_three (b0 b1 : Z) : bool :=
  if b0 =? 0xE0 then (0xA0 <=? b1) && (b1 <? 0xC0)
  else if b0 =? 0xED then (0x80 <=? b1) && (b1 <? 0xA0)
  else is_cont b1.
Definition second_of_four (b0 b1 : Z) : bool :=
  if b0 =? 0xF0 then (0x90 <=? b1) && (b1 <? 0xC0)
  else if b0 =? 0xF4 then (0x80 <=? b1) && (b1 <? 0x90)
  else is_cont b1.
Fixpoint from_utf8_lossy (l : bytes) : str :=
  match l with
  | [] => []
  | b0 :: t0 =>
    if b0 <? 0x80 then b0 :: from_utf8_lossy t0
    else if (b0 <? 0xC2) || (0xF5 <=? b0) then REPLACEMENT :: from_utf8_lossy t0
    else
      match t0 with
      | [] => [REPLACEMENT]
      | b1 :: t1 =>
        if b0 <? 0xE0 then
          if is_cont b1 then (b0 - 0xC0) * 64 + (b1 - 0x80) :: from_utf8_lossy t1
          else REPLACEMENT :: from_utf8_lossy t0
        else if b0 <? 0xF0 then
          if second_of_three b0 b1 then
            match t1 with
            | [] => [REPLACEMENT]
            | b2 :: t2 =>
              if is_cont b2 then (b0 - 0xE0) * 4096 + (b1 - 0x80) * 64 + (b2 - 0x80) :: from_utf8_lossy t2
              else REPLACEMENT :: from_utf8_lossy t1
            end
          else REPLACEMENT :: from_utf8_lossy t0
        else if second_of_four b0 b1 then
          match t1 with
          | [] => [REPLACEMENT]
          | b2 :: t2 =>
            if is_cont b2 then
              match t2 with
              | [] => [REPLACEMENT]
              | b3 :: t3 =>
                if is_cont b3 then
                  (b0 - 0xF0) * 262144 + (b1 - 0x80) * 4096 + (b2 - 0x80) * 64 + (b3 - 0x80) :: from_utf8_lossy t3
                else REPLACEMENT :: from_utf8_lossy t2
              end
            else REPLACEMENT :: from_utf8_lossy t1
          end
        else REPLACEMENT :: from_utf8_lossy t0
      end
  end.
Lemma lossy_encode c t : is_scalar c → from_utf8_lossy (encode_char c ++ t) = c :: from_utf8_lossy t.
Proof.
  intros Hc. unfold is_scalar in Hc. unfold encode_char.
  repeat bdestruct_guard; cbn [app from_utf8_lossy].
  - by rewrite ltb_t by lia.
  - assert (2 ≤ c / 64 < 32) by (Zify_dm; lia).
    rewrite (ltb_f (0xC0 + c / 64) 0x80), (ltb_f (0xC0 + c / 64) 0xC2), (leb_f 0xF5 (0xC0 + c / 64)), is_cont_mod, (ltb_t (0xC0 + c / 64) 0xE0) by lia. cbn [orb].
    f_equal. Zify_dm; lia.
  - assert (0 ≤ c / 4096 < 16) by (Zify_dm; lia).
    rewrite (ltb_f (0xE0 + c / 4096) 0x80), (ltb_f (0xE0 + c / 4096) 0xC2), (leb_f 0xF5 (0xE0 + c / 4096)), (ltb_f (0xE0 + c / 4096) 0xE0), (ltb_t (0xE0 + c / 4096) 0xF0), !is_cont_mod by lia. cbn [orb].
    assert (second_of_three (0xE0 + c / 4096) (0x80 + (c / 64) mod 64) = true) as ->.
    { unfold second_of_three. repeat bdestruct_guard; try apply is_cont_mod; apply andb_true_iff; rewrite Z.leb_le, Z.ltb_lt; Zify_dm; lia. }
    f_equal. Zify_dm; lia.
  - assert (0 ≤ c / 262144 < 5) by (Zify_dm; lia).
    rewrite (ltb_f (0xF0 + c / 262144) 0x80), (ltb_f (0xF0 + c / 262144) 0xC2), (leb_f 0xF5 (0xF0 + c / 262144)), (ltb_f (0xF0 + c / 262144) 0xE0), (ltb_f (0xF0 + c / 262144) 0xF0), !is_cont_mod by lia. cbn [orb].
    assert (second_of_four (0xF0 + c / 262144) (0x80 + (c / 4096) mod 64) = true) as ->.
    { unfold second_of_four. repeat bdestruct_guard; try apply is_cont_mod; apply andb_true_iff; rewrite Z.leb_le, Z.ltb_lt; Zify_dm; lia. }
    f_equal. Zify_dm; lia.
Qed.
Lemma lossy_utf8 s : valid_str s → from_utf8_lossy (utf8 s) = s.
Proof. induction 1 as [|c s Hc _ IH]; [done|]. by rewrite utf8_cons, lossy_encode, IH. Qed.

(** ** [str::trim] *)
Definition is_whitespace (c : Z) : bool :=
  ((9 <=? c) && (c <=? 13)) || (c =? 32) || (c =? 0x85) || (c =? 0xA0) || (c =? 0x1680) || ((0x2000 <=? c) && (c <=? 0x200A))
  || (c =? 0x2028) || (c =? 0x2029) || (c =? 0x202F) || (c =? 0x205F) || (c =? 0x3000).
Fixpoint trim_start (s : str) : str :=
  match s with c :: t => if is_whitespace c then trim_start t else s | [] => [] end.
Definition trim_end (s : str) : str := rev (trim_start (rev s)).
Definition trim (s : str) : str := trim_end (trim_start s).
Lemma trim_start_none s : Forall (fun c => is_whitespace c = false) s → trim_start s = s.
Proof. destruct 1 as [|c s Hc _]; [done|]. cbn [trim_start]. by rewrite Hc. Qed.
Lemma trim_none s : Forall (fun c => is_whitespace c = false) s → trim s = s.
Proof.
  intros H. unfold trim, trim_end. rewrite (trim_start_none s H), trim_start_none; [apply rev_involutive|].
  by apply Forall_rev.
Qed.

(** A slice of a concatenation that is its [n]-th field. *)
Ltac field n := etrans; [apply (slice_nth _ n); [reflexivity|cbn [take List.concat]; rewrite ?len_app, ?len_le_bytes; unfold str_len, len; simpl; lia..]|].
