(* ===== verification/Text.v ===== *)
(** * Integers as texts, and the edges of a text: what the standard library
    reads, writes and trims. *)
From S2P Require Import Prelude Utf8.

(** ** Reading: [s.parse::<i64>()] *)
Definition digit (c : Z) : option Z := if (48 <=? c) && (c <=? 57) then Some (c - 48) else None.
Fixpoint read_digits (n : Z) (s : str) : option Z :=
  match s with [] => Some n | c :: s => d ← digit c; read_digits (10 * n + d) s end.
Definition sign_of (s : str) : bool * str :=
  match s with c :: t => if c =? 45 then (true, t) else if c =? 43 then (false, t) else (false, s) | [] => (false, s) end.
Definition parse_i64 (s : str) : option Z :=
  let '(neg, s) := sign_of s in
  match s with
  | [] => None
  | _ => v ← read_digits 0 s; let v := if neg : bool then - v else v in if (i64_min <=? v) && (v <=? i64_max) then Some v else None
  end.

(** [s.parse::<u64>()] *)
Definition parse_u64 (s : str) : option Z :=
  let s := match s with c :: t => if c =? 43 then t else s | [] => [] end in
  match s with [] => None | _ => v ← read_digits 0 s; if v <=? u64_max then Some v else None end.

(** ** Writing: [n.to_string()], and [format!("{n:0w$}")] for [n] not negative *)
Fixpoint digits_loop (fuel : nat) (n : Z) (acc : str) : str :=
  match fuel with
  | O => acc
  | S fuel => let acc := 48 + n mod 10 :: acc in if n <? 10 then acc else digits_loop fuel (n / 10) acc
  end.
(** Forty digits hold 128 bits. *)
Definition nat_text (n : Z) : str := digits_loop 40 n [].
Definition int_text (n : Z) : str := if n <? 0 then 45 :: nat_text (- n) else nat_text n.
Definition pad_text (w : nat) (n : Z) : str := repeat 48 (w - length (nat_text n)) ++ nat_text n.

Definition is_digit (c : Z) : Prop := 48 ≤ c < 58.
Lemma digit_some c : is_digit c → digit c = Some (c - 48).
Proof. unfold is_digit, digit. intros H. by rewrite !leb_t by lia. Qed.
Lemma digit_inv c d : digit c = Some d → is_digit c ∧ d = c - 48.
Proof. unfold digit, is_digit. destruct (Z.leb_spec 48 c), (Z.leb_spec c 57); intros [=]; lia. Qed.
Lemma read_digits_app n s t : read_digits n (s ++ t) = m ← read_digits n s; read_digits m t.
Proof. revert n. induction s as [|c s IH]; intros n; [done|]. cbn [app read_digits]. destruct (digit c); cbn [mbind option_bind]; [apply IH|done]. Qed.
Lemma digits_loop_spec fuel : ∀ n acc, 0 ≤ n < 10 ^ Z.of_nat fuel → (0 < fuel)%nat →
  ∃ ds, digits_loop fuel n acc = ds ++ acc ∧ Forall is_digit ds ∧ read_digits 0 ds = Some n ∧ 0 < len ds ∧
  ∀ w, 1 ≤ w → n < 10 ^ w → len ds ≤ w.
Proof.
  induction fuel as [|fuel IH]; intros n acc Hn Hf; [lia|]. cbn [digits_loop].
  assert (is_digit (48 + n mod 10)) as Hd by (unfold is_digit; pose proof (Z.mod_pos_bound n 10 ltac:(lia)); lia).
  destruct (Z.ltb_spec n 10).
  - exists [48 + n mod 10]. split; [done|]. split; [by apply Forall_singleton|]. split; [|split; [done|]].
    + cbn [read_digits]. rewrite digit_some by done. cbn. f_equal. rewrite Z.mod_small by lia. lia.
    + intros w Hw _. exact Hw.
  - assert (0 < n / 10) by (apply Z.div_str_pos; lia). rewrite Nat2Z.inj_succ, Z.pow_succ_r in Hn by lia.
    assert (n / 10 < 10 ^ Z.of_nat fuel) by (apply Z.div_lt_upper_bound; lia).
    destruct fuel as [|fuel]; [change (10 ^ Z.of_nat 0) with 1 in *; lia|].
    destruct (IH (n / 10) (48 + n mod 10 :: acc)) as (ds & E & Hds & Er & Hl & Hw); [lia|lia|]. exists (ds ++ [48 + n mod 10]).
    rewrite E, <- app_assoc, len_app. change (len [48 + n mod 10]) with 1. split; [done|]. split; [|split; [|split; [lia|]]].
    + apply Forall_app. split; [done|]. by apply Forall_singleton.
    + rewrite read_digits_app, Er. cbn [mbind option_bind read_digits]. rewrite digit_some by done. cbn. f_equal.
      pose proof (Z.div_mod n 10 ltac:(lia)). lia.
    + intros w Hw1 Hw2. destruct (Z.eq_dec w 1) as [->|]; [change (10 ^ 1) with 10 in Hw2; lia|].
      assert (len ds ≤ w - 1); [|lia]. apply Hw; [lia|]. apply Z.div_lt_upper_bound; [lia|].
      rewrite <- Z.pow_succ_r by lia. by replace (Z.succ (w - 1)) with w by lia.
Qed.
Lemma nat_text_spec n : 0 ≤ n < 10 ^ 40 → Forall is_digit (nat_text n) ∧ read_digits 0 (nat_text n) = Some n ∧ 0 < len (nat_text n) ∧
  ∀ w, 1 ≤ w → n < 10 ^ w → len (nat_text n) ≤ w.
Proof.
  intros Hn. destruct (digits_loop_spec 40 n [] Hn ltac:(lia)) as (ds & E & H). unfold nat_text. rewrite E, app_nil_r. exact H.
Qed.
Lemma sign_of_digits s : Forall is_digit s → sign_of s = (false, s).
Proof. destruct 1 as [|c s Hc _]; [done|]. unfold is_digit in Hc. cbn [sign_of]. by rewrite !(proj2 (Z.eqb_neq _ _)) by lia. Qed.
Lemma parse_i64_text n : in_i64 n → parse_i64 (int_text n) = Some n.
Proof.
  unfold in_i64, i64_min, i64_max. intros Hn. unfold int_text, parse_i64.
  destruct (Z.ltb_spec n 0); [destruct (nat_text_spec (- n)) as (Hd & Er & Hl & _)|destruct (nat_text_spec n) as (Hd & Er & Hl & _)]; try lia.
  - cbn [sign_of Z.eqb Pos.eqb]. destruct (nat_text (- n)) as [|c t]; [change (len []) with 0 in Hl; lia|].
    rewrite Er. cbn. unfold i64_min, i64_max. rewrite !leb_t by lia. f_equal. lia.
  - rewrite sign_of_digits by done. destruct (nat_text n) as [|c t]; [change (len []) with 0 in Hl; lia|].
    rewrite Er. cbn. unfold i64_min, i64_max. by rewrite !leb_t by lia.
Qed.
Lemma int_text_chars n : - 10 ^ 40 < n < 10 ^ 40 → Forall (fun c => c = 45 ∨ is_digit c) (int_text n).
Proof.
  intros Hn. unfold int_text. destruct (Z.ltb_spec n 0).
  - constructor; [by left|]. eapply Forall_impl; [apply nat_text_spec; lia|]. by right.
  - eapply Forall_impl; [apply nat_text_spec; lia|]. by right.
Qed.

(** ** Padded numbers *)
Lemma read_digits_zeros k s : read_digits 0 (repeat 48 k ++ s) = read_digits 0 s.
Proof. induction k as [|k IH]; [done|]. cbn [repeat app read_digits]. exact IH. Qed.
Lemma pad_text_spec w n : (0 < w)%nat → 0 ≤ n < 10 ^ Z.of_nat w → (w ≤ 40)%nat →
  length (pad_text w n) = w ∧ Forall is_digit (pad_text w n) ∧ read_digits 0 (pad_text w n) = Some n.
Proof.
  intros Hw Hn Hw40. assert (10 ^ Z.of_nat w ≤ 10 ^ 40) by (apply Z.pow_le_mono_r; lia).
  destruct (nat_text_spec n) as (Hd & Er & _ & Hl); [lia|]. specialize (Hl (Z.of_nat w) ltac:(lia) ltac:(lia)). unfold len in Hl.
  unfold pad_text. split; [rewrite length_app, repeat_length; lia|]. split; [|by rewrite read_digits_zeros].
  apply Forall_app. split; [|done]. apply Forall_forall. intros c Hc. apply list_elem_of_In, repeat_spec in Hc as ->. unfold is_digit. lia.
Qed.

(** ** Edges *)
Lemma trim_start_head c s : is_whitespace c = false → trim_start (c :: s) = c :: s.
Proof. intros H. cbn [trim_start]. by rewrite H. Qed.
Lemma trim_edges c s d t : c :: s = t ++ [d] → is_whitespace c = false → is_whitespace d = false → trim (c :: s) = c :: s.
Proof.
  intros E Hc Hd. unfold trim, trim_end. rewrite trim_start_head by done. rewrite E, rev_app_distr. cbn [rev app].
  rewrite trim_start_head by done. cbn [rev]. by rewrite rev_involutive.
Qed.
Lemma trim_digits s : Forall (fun c => c = 45 ∨ is_digit c) s → trim s = s.
Proof.
  intros H. apply trim_none. eapply Forall_impl; [exact H|]. intros c Hc. unfold is_whitespace.
  assert (45 ≤ c < 58) by (unfold is_digit in Hc; lia).
  repeat (apply orb_false_iff; split); try (apply Z.eqb_neq; lia); apply andb_false_iff; rewrite !Z.leb_gt; lia.
Qed.
Lemma trim_start_suffix s : ∃ a, s = a ++ trim_start s ∧ match trim_start s with c :: _ => is_whitespace c = false | [] => True end.
Proof.
  induction s as [|c s (a & E & H)]; [by exists []|]. cbn [trim_start]. destruct (is_whitespace c) eqn:Ec; [|by exists []].
  exists (c :: a). split; [cbn; by f_equal|done].
Qed.
(** A trimmed text has no blank at its ends. *)
Lemma trim_first s c t : trim s = c :: t → is_whitespace c = false.
Proof.
  unfold trim, trim_end. intros E. destruct (trim_start_suffix s) as (_ & _ & Hh). destruct (trim_start_suffix (rev (trim_start s))) as (b & Eb & _).
  apply (f_equal (@rev Z)) in Eb. rewrite rev_involutive, rev_app_distr, E in Eb. rewrite Eb in Hh. exact Hh.
Qed.
Lemma trim_last s d t : trim s = t ++ [d] → is_whitespace d = false.
Proof.
  unfold trim, trim_end. intros E. destruct (trim_start_suffix (rev (trim_start s))) as (_ & _ & Hh).
  apply (f_equal (@rev Z)) in E. rewrite rev_involutive, rev_app_distr in E. cbn [rev app] in E. by rewrite E in Hh.
Qed.
Lemma trim_solid s x r y l : s = x ++ r → s = l ++ y → x ≠ [] → y ≠ [] →
  Forall (fun c => is_whitespace c = false) x → Forall (fun c => is_whitespace c = false) y → trim s = s.
Proof.
  intros Ex Ey Hx Hy Fx Fy. destruct x as [|c x]; [done|]. destruct y as [|d y _] using rev_ind; [done|].
  apply Forall_inv in Fx. apply Forall_app in Fy as [_ Fy%Forall_inv]. rewrite Ex in *. cbn [app] in *. rewrite app_assoc in Ey. by eapply trim_edges.
Qed.

(** ** [str::to_ascii_lowercase], [eq_ignore_ascii_case] *)
Definition lower (s : str) : str := List.map (fun c => if (65 <=? c) && (c <=? 90) then c + 32 else c) s.
Definition same_word (a b : str) : bool := bool_decide (lower a = lower b).

(** ** Lines *)
(** [str::lines]: what [\n] or [\r\n] ends, and the rest when there is one. *)
Definition strip_cr (l : str) : str := match rev l with c :: r => if c =? 13 then rev r else l | [] => l end.
Fixpoint lines_loop (cur : str) (s : str) : list str :=
  match s with
  | [] => if bool_decide (cur = []) then [] else [cur]
  | c :: s => if c =? 10 then strip_cr cur :: lines_loop [] s else lines_loop (cur ++ [c]) s
  end.
Definition lines (s : str) : list str := lines_loop [] s.
