(* ===== verification/Wild.v ===== *)
(** * Wildcard matching with one backtracking point

    Three routines of the program match a text against a pattern with
    wildcards by the same loop: go forward, remember the last "any run"
    wildcard, and on a mismatch go back to it with one more character taken.
    They are [util::glob_match], [engine::like_match] and [pubsub::glob].
    This file holds the theory they share: a pattern is seen through [view],
    which says what stands at a position; [wmatch] is what a pattern means;
    [search] is the loop; [search_correct] says the loop decides [wmatch] and
    ends within [search_fuel] steps. *)
From S2P Require Import Prelude.
Open Scope nat_scope.

(** What stands at a position of a pattern. *)
Inductive pview : Type :=
| VEnd
| VAny                                       (** any run of characters *)
| VOne (test : Z → bool) (next : nat).       (** one character, then position [next] *)

Section wild.
  Context (view : nat → pview) (plen : nat).

Inductive wmatch : nat → list Z → Prop :=
| wm_end pi : view pi = VEnd → wmatch pi []
| wm_skip pi t : view pi = VAny → wmatch (S pi) t → wmatch pi t
| wm_take pi c t : view pi = VAny → wmatch pi t → wmatch pi (c :: t)
| wm_one pi f nx c t : view pi = VOne f nx → f c = true → wmatch nx t → wmatch pi (c :: t).

(** The loop over the text; [last] is the last wildcard's position and how
    far into the text its run goes. [None]: out of fuel. [finish] is the test
    made once the text is used up. *)
Fixpoint search (finish : nat → bool) (fuel : nat) (t : list Z) (pi ti : nat) (last : option (nat * nat)) : option bool :=
  match fuel with
  | O => None
  | S fuel =>
    match t !! ti with
    | None => Some (finish pi)
    | Some c =>
      let back :=
        match last with
        | Some (ap, at_) => search finish fuel t (S ap) (S at_) (Some (ap, S at_))
        | None => Some false
        end in
      match view pi with
      | VAny => search finish fuel t (S pi) ti (Some (pi, ti))
      | VOne f nx => if f c then search finish fuel t nx (S ti) last else back
      | VEnd => back
      end
    end
  end.

Definition search_fuel (t : list Z) : nat := (length t + 2) * (plen + 2).

  Context (finish : nat → bool).
  Hypothesis view_any_lt : ∀ pi, view pi = VAny → pi < plen.
  Hypothesis view_one_lt : ∀ pi f nx, view pi = VOne f nx → pi < nx ≤ plen.
  Hypothesis finish_spec : ∀ pi, pi ≤ plen → finish pi = true ↔ wmatch pi [].

(** Positions reached from [a] by [n] single characters. *)
Inductive steps : nat → nat → nat → Prop :=
| st_0 a : steps a 0 a
| st_S a n b f nx : steps a n b → view b = VOne f nx → steps a (S n) nx.

Lemma wmatch_any_absorb pi t k : view pi = VAny → wmatch pi (drop k t) → wmatch pi t.
Proof.
  intros Hv. revert t; induction k as [|k IH]; intros t Hm; [done|].
  destruct t as [|c t]; [done|]. simpl in Hm. by apply wm_take, IH.
Qed.

Lemma wmatch_any_iff pi t :
  view pi = VAny → wmatch pi t ↔ ∃ k, k ≤ length t ∧ wmatch (S pi) (drop k t).
Proof.
  intros Hv. split.
  - intros Hm. induction Hm as [? Hv'|? u Hv' Hm _|? c u Hv' Hm IH|? f nx c u Hv']; try congruence.
    + exists 0. split; [lia|done].
    + destruct (IH Hv) as (k & ? & ?). exists (S k). simpl. split; [lia|done].
  - intros (k & ? & Hm). apply (wmatch_any_absorb _ _ k); [done|]. by apply wm_skip.
Qed.

Lemma wmatch_steps a n b t : steps a n b → wmatch a t → n ≤ length t ∧ wmatch b (drop n t).
Proof.
  induction 1 as [|a n b f nx Hst IH Hv]; intros Hm; [split; [lia|done]|].
  destruct (IH Hm) as [Hl Hb]. clear Hm IH.
  inversion Hb as [? E| | |? f' nx' c u Hv' Hf Hu E1 E2]; try congruence.
  rewrite Hv in Hv'. injection Hv' as <- <-.
  apply (f_equal length) in E2 as E3. rewrite length_drop in E3. simpl in E3.
  split; [lia|]. rewrite <- Nat.add_1_r, <- drop_drop, <- E2. done.
Qed.

Definition later (t : list Z) (last : option (nat * nat)) : Prop :=
  match last with
  | None => False
  | Some (s, m) => ∃ k, m < k ≤ length t ∧ wmatch (S s) (drop k t)
  end.

Definition last_ok (t : list Z) (pi ti : nat) (last : option (nat * nat)) : Prop :=
  match last with
  | None => True
  | Some (s, m) => m ≤ ti ∧ S s ≤ plen ∧ steps (S s) (ti - m) pi
  end.

Definition weight (t : list Z) (pi : nat) (last : option (nat * nat)) : nat :=
  match last with
  | None => S (length t)
  | Some (_, m) => length t - m
  end * (plen + 2) + (S plen - pi).

Lemma later_shift t s m :
  m < length t →
  later t (Some (s, m)) ↔ wmatch (S s) (drop (S m) t) ∨ later t (Some (s, S m)).
Proof.
  intros Hm. simpl. split.
  - intros (k & Hk & Hw). destruct (decide (k = S m)) as [->|]; [by left|].
    right. exists k. split; [lia|done].
  - intros [Hw|(k & Hk & Hw)]; [exists (S m)|exists k]; (split; [lia|done]).
Qed.

Lemma later_end t pi last : last_ok t pi (length t) last → ¬ later t last.
Proof.
  destruct last as [[s m]|]; simpl; [|tauto].
  intros (Hm & _ & Hst) (k & Hk & Hw).
  apply (wmatch_steps _ _ _ _ Hst) in Hw as [Hl _]. rewrite length_drop in Hl. lia.
Qed.

Lemma later_absorb t pi ti last :
  view pi = VAny → last_ok t pi ti last → later t last → wmatch pi (drop ti t).
Proof.
  destruct last as [[s m]|]; simpl; [|tauto].
  intros Hv (Hm & _ & Hst) (k & Hk & Hw).
  apply (wmatch_steps _ _ _ _ Hst) in Hw as [_ Hw].
  apply (wmatch_any_absorb _ _ (k - m)); [done|].
  rewrite drop_drop in Hw |- *. by replace (ti + (k - m)) with (k + (ti - m)) by lia.
Qed.

Lemma search_decides fuel t pi ti last :
  ti ≤ length t → pi ≤ plen → last_ok t pi ti last → weight t pi last < fuel →
  ∃ b, search finish fuel t pi ti last = Some b ∧
       (b = true ↔ wmatch pi (drop ti t) ∨ later t last).
Proof.
  revert pi ti last. induction fuel as [|fuel IH]; intros pi ti last Ht Hp Hl Hw; [lia|].
  cbn [search]. destruct (t !! ti) as [c|] eqn:Hc.
  2: { apply lookup_ge_None in Hc. assert (ti = length t) as -> by lia.
    eexists; split; [done|]. rewrite drop_all, finish_spec by done.
    pose proof (later_end _ _ _ Hl). tauto. }
  pose proof (lookup_lt_Some _ _ _ Hc) as Hlt.
  rewrite (drop_S _ _ _ Hc).
  assert (Hback : (∀ u, ¬ wmatch pi (c :: u)) →
    ∃ b, match last with
         | Some (ap, at_) => search finish fuel t (S ap) (S at_) (Some (ap, S at_))
         | None => Some false
         end = Some b ∧ (b = true ↔ wmatch pi (c :: drop (S ti) t) ∨ later t last)).
  { intros Hno. destruct last as [[s m]|]; simpl in Hl; unfold weight in *.
    - destruct Hl as (Hm & Hs & _).
      destruct (IH (S s) (S m) (Some (s, S m))) as (b & -> & Hb); [lia|done| |nia|].
      { simpl. rewrite Nat.sub_diag. split; [lia|]. split; [done|constructor]. }
      exists b. split; [done|]. rewrite Hb, (later_shift _ _ m) by lia.
      pose proof (Hno (drop (S ti) t)). tauto.
    - exists false. split; [done|]. pose proof (Hno (drop (S ti) t)). simpl. intuition done. }
  destruct (view pi) as [| |f nx] eqn:Hv.
  - apply Hback. intros u Hm. inversion Hm; congruence.
  - pose proof (view_any_lt _ Hv) as Hpl.
    destruct (IH (S pi) ti (Some (pi, ti))) as (b & -> & Hb); [lia|lia| | |].
    { simpl. rewrite Nat.sub_diag. split; [lia|]. split; [lia|constructor]. }
    { unfold weight in *. destruct last as [[s m]|]; simpl in Hl; nia. }
    exists b. split; [done|]. rewrite Hb, <- (drop_S _ _ _ Hc).
    rewrite (wmatch_any_iff pi) by done. simpl. split.
    + intros [Hm|(k & Hk & Hm)]; left; [exists 0|exists (k - ti)].
      * split; [lia|]. done.
      * rewrite length_drop, drop_drop. split; [lia|]. by replace (ti + (k - ti)) with k by lia.
    + intros [(k & Hk & Hm)|Hla].
      * rewrite length_drop in Hk. rewrite drop_drop in Hm.
        destruct (decide (k = 0)) as [->|]; [left; by rewrite Nat.add_0_r in Hm|].
        right. exists (ti + k). split; [lia|done].
      * apply (later_absorb _ _ _ _ Hv Hl) in Hla.
        apply wmatch_any_iff in Hla as (k & Hk & Hm); [|done].
        rewrite length_drop in Hk. rewrite drop_drop in Hm.
        destruct (decide (k = 0)) as [->|]; [left; by rewrite Nat.add_0_r in Hm|].
        right. exists (ti + k). split; [lia|done].
  - destruct (view_one_lt _ _ _ Hv) as [Hn1 Hn2].
    destruct (f c) eqn:Hf.
    + destruct (IH nx (S ti) last) as (b & -> & Hb); [lia|done| | |].
      { destruct last as [[s m]|]; simpl in *; [|done].
        destruct Hl as (? & ? & ?). split; [lia|]. split; [done|].
        replace (S ti - m) with (S (ti - m)) by lia. by eapply st_S. }
      { unfold weight in *. destruct last as [[s m]|]; simpl in Hl; nia. }
      exists b. split; [done|]. rewrite Hb.
      assert (wmatch nx (drop (S ti) t) ↔ wmatch pi (c :: drop (S ti) t)) as ->; [|done].
      split; [by eapply wm_one|]. intros Hm. inversion Hm; congruence.
    + apply Hback. intros u Hm. inversion Hm; congruence.
Qed.

(** The loop ends within [search_fuel] steps and decides [wmatch]. *)
Lemma search_correct t :
  ∃ b, search finish (search_fuel t) t 0 0 None = Some b ∧ (b = true ↔ wmatch 0 t).
Proof.
  destruct (search_decides (search_fuel t) t 0 0 None) as (b & E & Hb);
    [lia|lia|done|unfold weight, search_fuel; nia|].
  exists b. split; [done|]. rewrite Hb. simpl. tauto.
Qed.

End wild.

(** ** What a pattern means

    A pattern is a list of elements: any run of characters, or one character
    that passes a test. *)
Inductive wtok := WAny | WOne (test : Z → bool).
Inductive wspec : list wtok → list Z → Prop :=
| ws_nil : wspec [] []
| ws_skip ts t : wspec ts t → wspec (WAny :: ts) t
| ws_take ts c t : wspec (WAny :: ts) t → wspec (WAny :: ts) (c :: t)
| ws_one f ts c t : f c = true → wspec ts t → wspec (WOne f :: ts) (c :: t).
(** The view of a pattern is that of the elements [toks pi] left at [pi]. *)
Definition views (view : nat → pview) (toks : nat → list wtok) : Prop :=
  ∀ pi, match view pi with
        | VEnd => toks pi = []
        | VAny => toks pi = WAny :: toks (S pi)
        | VOne f nx => toks pi = WOne f :: toks nx
        end.
Lemma wmatch_wspec view toks pi t : views view toks → wmatch view pi t ↔ wspec (toks pi) t.
Proof.
  intros Hv. split.
  - induction 1 as [pi E|pi t E _ IH|pi c t E _ IH|pi f nx c t E Hf _ IH]; specialize (Hv pi); rewrite E in Hv; rewrite Hv in *; by constructor.
  - remember (toks pi) as ts eqn:Ets. intros Hm. revert pi Ets.
    induction Hm as [|ts t Hm IH|ts c t Hm IH|f ts c t Hf Hm IH]; intros pi Ets; specialize (Hv pi) as E; rewrite <- Ets in E;
      destruct (view pi) as [| |g nx] eqn:Ev; try discriminate.
    + by apply wm_end.
    + injection E as E. apply wm_skip; auto.
    + apply wm_take; auto.
    + injection E as <- E. eapply wm_one; [exact Ev|done|auto].
Qed.
Lemma wspec_nil ts : wspec ts [] ↔ Forall (fun x => x = WAny) ts.
Proof.
  split.
  - remember [] as t eqn:Et. induction 1; try done; constructor; auto.
  - induction 1 as [|? ts -> _ IH]; by constructor.
Qed.
