(* ===== verification/Util.v ===== *)
(** * [src/util.rs]: hexadecimal and base64 texts, expiries, glob patterns,
    identifiers *)
From S2P Require Import Prelude Utf8 Wild.
Open Scope Z_scope.

(** ** Times and expiries *)

(** The clock is an argument: [now] is what [now_ms()] returned. *)
Definition deadline_in (now ttl : Z) : Z :=
  if 0 <? ttl then sat_i64 (now + sat_i64 (ttl * 1000)) else 0.

Definition secs_left (now expires_at : Z) : Z :=
  Z.quot (sint 64 (Z.max (sint 64 (expires_at - now)) 0 + 999)) 1000.

Definition expiry_to_ms (expires_at : Z) : Z :=
  if (0 <? expires_at) && (expires_at <? 100000000000) then expires_at * 1000 else expires_at.

(** ** Hexadecimal *)

Definition HEX : str := lit "0123456789abcdef".

Definition hex_encode (bs : bytes) : str :=
  List.flat_map (fun b => [nth (Z.to_nat (Z.shiftr b 4)) HEX 0; nth (Z.to_nat (Z.land b 15)) HEX 0]) bs.

Definition nib (c : Z) : option Z :=
  if (48 <=? c) && (c <=? 57) then Some (c - 48)
  else if (97 <=? c) && (c <=? 102) then Some (c - 97 + 10)
  else if (65 <=? c) && (c <=? 70) then Some (c - 65 + 10)
  else None.

(** The [chunks(2)] of an even number of bytes. *)
Fixpoint hex_pairs (b : bytes) : option bytes :=
  match b with
  | x :: y :: rest => hi ← nib x; lo ← nib y; out ← hex_pairs rest; Some (Z.lor (Z.shiftl hi 4) lo :: out)
  | _ => Some []
  end.

Definition hex_decode (s : str) : option bytes :=
  let b := utf8 s in
  if Nat.even (length b) then hex_pairs b else None.

(** ** Base64 *)

Definition B64 : str := lit "ABCDEFGHIJKLMNOPQRSTUVWXYZabcdefghijklmnopqrstuvwxyz0123456789+/".
Definition b64_char (i : Z) : Z := nth (Z.to_nat (Z.land i 63)) B64 0.

Fixpoint b64_encode (bs : bytes) : str :=
  match bs with
  | [] => []
  | [a] =>
    let n := Z.shiftl a 16 in
    [b64_char (Z.shiftr n 18); b64_char (Z.shiftr n 12); chr "="; chr "="]
  | [a; b] =>
    let n := Z.lor (Z.shiftl a 16) (Z.shiftl b 8) in
    [b64_char (Z.shiftr n 18); b64_char (Z.shiftr n 12); b64_char (Z.shiftr n 6); chr "="]
  | a :: b :: c :: rest =>
    let n := Z.lor (Z.lor (Z.shiftl a 16) (Z.shiftl b 8)) c in
    b64_char (Z.shiftr n 18) :: b64_char (Z.shiftr n 12) :: b64_char (Z.shiftr n 6) :: b64_char n :: b64_encode rest
  end.

Inductive b64_class : Type := BVal (v : Z) | BSkip | BBad.
Definition b64_val (c : Z) : b64_class :=
  if (65 <=? c) && (c <=? 90) then BVal (c - 65)
  else if (97 <=? c) && (c <=? 122) then BVal (c - 97 + 26)
  else if (48 <=? c) && (c <=? 57) then BVal (c - 48 + 52)
  else if (c =? 43) || (c =? 45) then BVal 62
  else if (c =? 47) || (c =? 95) then BVal 63
  else if (c =? 61) || (c =? 13) || (c =? 10) || (c =? 32) then BSkip
  else BBad.

(** The loop of [b64_decode]: [acc] (a [u32]) holds [bits] bits not yet given out. *)
Fixpoint b64_loop (acc bits : Z) (l : bytes) : option bytes :=
  match l with
  | [] => Some []
  | c :: l =>
    match b64_val c with
    | BSkip => b64_loop acc bits l
    | BBad => None
    | BVal v =>
      let acc := Z.lor (wrap 32 (Z.shiftl acc 6)) v in
      let bits := bits + 6 in
      if 8 <=? bits then
        let bits := bits - 8 in
        cons (wrap 8 (Z.shiftr acc bits)) <$> b64_loop (Z.land acc (Z.shiftl 1 bits - 1)) bits l
      else b64_loop acc bits l
    end
  end.
Definition b64_decode (s : str) : option bytes := b64_loop 0 0 (utf8 s).

(** ** Glob patterns of keys *)

Definition STAR : Z := chr "*".
Definition QMARK : Z := chr "?".

Fixpoint only_stars (p : str) : bool :=
  match p with [] => true | c :: p => (c =? STAR) && only_stars p end.

Fixpoint glob_loop (fuel : nat) (p t : str) (pi ti : nat) (star : option nat) (mark : nat) : option bool :=
  match fuel with
  | O => None
  | S fuel =>
    match t !! ti with
    | None => Some (only_stars (drop pi p))
    | Some tc =>
      if match p !! pi with Some c => (c =? QMARK) || (c =? tc) | None => false end
      then glob_loop fuel p t (S pi) (S ti) star mark
      else if match p !! pi with Some c => c =? STAR | None => false end
      then glob_loop fuel p t (S pi) ti (Some pi) ti
      else
        match star with
        | Some s => glob_loop fuel p t (S s) (S mark) (Some s) (S mark)
        | None => Some false
        end
    end
  end.

Definition glob_fuel (p t : str) : nat := ((length t + 2) * (length p + 2))%nat.

Definition glob_match (pattern text : str) : bool :=
  match glob_loop (glob_fuel pattern text) pattern text 0 0 None 0 with
  | Some b => b
  | None => false
  end.

Fixpoint glob_prefix (pattern : str) : str :=
  match pattern with
  | [] => []
  | c :: p => if (c =? STAR) || (c =? QMARK) then [] else c :: glob_prefix p
  end.

(** ** Identifiers *)

(** The random part drawn once per process and the 32-bit atomic counter. *)
Record IdGen := { process : bytes; counter : Z }.

(** [new_id] at [secs] seconds since 1970, once the random parts are drawn. *)
Definition new_id (g : IdGen) (secs : Z) : str * IdGen :=
  let n := Z.land (counter g) 0x00ffffff in
  let bs := be_bytes 4 (wrap 32 secs) ++ process g ++ drop 1 (be_bytes 4 n) in
  (hex_encode bs, {| process := process g; counter := wrap 32 (counter g + 1) |}).

Definition is_loopback (bind : str) : bool :=
  bool_decide (bind = lit "localhost") || bool_decide (bind = lit "::1") || bool_decide (take 4 bind = lit "127.").

(** ** Proofs: hexadecimal *)

Lemma hex_digits_ok b : is_byte b →
  nib (nth (Z.to_nat (Z.shiftr b 4)) HEX 0) = Some (Z.shiftr b 4) ∧
  nib (nth (Z.to_nat (Z.land b 15)) HEX 0) = Some (Z.land b 15) ∧
  Z.lor (Z.shiftl (Z.shiftr b 4) 4) (Z.land b 15) = b ∧
  is_ascii (nth (Z.to_nat (Z.shiftr b 4)) HEX 0) ∧ is_ascii (nth (Z.to_nat (Z.land b 15)) HEX 0).
Proof.
  intros Hb.
  set (P := fun b => bool_decide (nib (nth (Z.to_nat (Z.shiftr b 4)) HEX 0) = Some (Z.shiftr b 4) ∧
    nib (nth (Z.to_nat (Z.land b 15)) HEX 0) = Some (Z.land b 15) ∧
    Z.lor (Z.shiftl (Z.shiftr b 4) 4) (Z.land b 15) = b ∧
    (0 ≤ nth (Z.to_nat (Z.shiftr b 4)) HEX 0 ∧ nth (Z.to_nat (Z.shiftr b 4)) HEX 0 < 128) ∧
    (0 ≤ nth (Z.to_nat (Z.land b 15)) HEX 0 ∧ nth (Z.to_nat (Z.land b 15)) HEX 0 < 128))).
  assert (P b = true) as HP by (apply byte_forall; [by vm_compute|done]).
  by apply bool_decide_eq_true in HP.
Qed.

Lemma hex_encode_ascii bs : all_bytes bs → Forall is_ascii (hex_encode bs).
Proof.
  induction 1 as [|b bs Hb Hbs IH]; simpl; [constructor|].
  destruct (hex_digits_ok b Hb) as (_ & _ & _ & ? & ?). constructor; [done|]. by constructor.
Qed.

Lemma hex_encode_cons b bs :
  hex_encode (b :: bs) = nth (Z.to_nat (Z.shiftr b 4)) HEX 0 :: nth (Z.to_nat (Z.land b 15)) HEX 0 :: hex_encode bs.
Proof. done. Qed.
Lemma hex_encode_length bs : length (hex_encode bs) = (2 * length bs)%nat.
Proof. induction bs as [|b bs IH]; [done|]. rewrite hex_encode_cons. cbn [length]. lia. Qed.

(** The hexadecimal text of any bytes is read back as those bytes. *)
Theorem hex_roundtrip bs : all_bytes bs → hex_decode (hex_encode bs) = Some bs.
Proof.
  intros Hb. unfold hex_decode. rewrite utf8_ascii by by apply hex_encode_ascii.
  rewrite hex_encode_length, Nat.even_mul. simpl.
  induction Hb as [|b bs Hb Hbs IH]; [done|].
  destruct (hex_digits_ok b Hb) as (H1 & H2 & H3 & _).
  rewrite hex_encode_cons. cbn [hex_pairs].
  by rewrite H1, H2; cbn [mbind option_bind]; rewrite IH; cbn [mbind option_bind]; rewrite H3.
Qed.

Lemma hex_roundtrip_witness :
  all_bytes [0; 171; 255] ∧ hex_decode (hex_encode [0; 171; 255]) = Some [0; 171; 255].
Proof.
  assert (all_bytes [0; 171; 255]) as H by (by apply bytesb_all).
  exact (conj H (hex_roundtrip _ H)).
Defined.

(** ** Proofs: base64 *)

Lemma b64_table i : 0 ≤ i < 64 →
  b64_val (nth (Z.to_nat i) B64 0) = BVal i ∧ is_ascii (nth (Z.to_nat i) B64 0).
Proof.
  intros Hi.
  assert (∀ b, is_byte b → (if b <? 64 then match b64_val (nth (Z.to_nat b) B64 0) with
    | BVal v => (v =? b) && (0 <=? nth (Z.to_nat b) B64 0) && (nth (Z.to_nat b) B64 0 <? 128) | _ => false end
    else true) = true) as H by (apply byte_forall; by vm_compute).
  specialize (H i ltac:(unfold is_byte; lia)). rewrite ltb_t in H by lia.
  destruct (b64_val _) as [v| |]; [|done|done]. bool_lia. unfold is_ascii. subst. split; [done|lia].
Qed.

Lemma b64_char_val n : b64_val (b64_char n) = BVal (n mod 64) ∧ is_ascii (b64_char n).
Proof.
  unfold b64_char. change 63 with (Z.ones 6). rewrite Z.land_ones by done.
  apply b64_table. apply Z.mod_pos_bound. done.
Qed.

(** One character of the alphabet, as arithmetic: [bits] is 0, 2, 4 or 6. *)
Lemma b64_loop_char acc bits n l :
  0 ≤ bits ≤ 7 → 0 ≤ acc < 2 ^ bits →
  b64_loop acc bits (b64_char n :: l) =
    if 2 <=? bits
    then cons ((acc * 64 + n mod 64) / 2 ^ (bits - 2) mod 256) <$>
         b64_loop ((acc * 64 + n mod 64) mod 2 ^ (bits - 2)) (bits - 2) l
    else b64_loop (acc * 64 + n mod 64) (bits + 6) l.
Proof.
  intros Hb Ha. cbn [b64_loop]. destruct (b64_char_val n) as [-> _].
  pose proof (Z.mod_pos_bound n 64 eq_refl).
  assert (2 ^ bits ≤ 2 ^ 7) by (apply Z.pow_le_mono_r; lia).
  assert (wrap 32 (Z.shiftl acc 6) = Z.shiftl acc 6) as ->.
  { apply wrap_small. rewrite Z.shiftl_mul_pow2 by done. unfold in_u. lia. }
  rewrite lor_shiftl_add by (change (2 ^ 6) with 64; lia). change (2 ^ 6) with 64.
  destruct (Z.leb_spec 2 bits).
  - rewrite leb_t by lia. replace (bits + 6 - 8) with (bits - 2) by lia.
    rewrite Z.shiftr_div_pow2, land_ones_mod by lia. done.
  - by rewrite leb_f by lia.
Qed.

Lemma b64_loop_pad acc bits : b64_loop acc bits [chr "="] = Some [].
Proof. done. Qed.

Lemma b64_group a b c :
  is_byte a → is_byte b → is_byte c →
  Z.lor (Z.shiftl a 16) (Z.shiftl b 8) = a * 65536 + b * 256 ∧
  Z.lor (Z.lor (Z.shiftl a 16) (Z.shiftl b 8)) c = a * 65536 + b * 256 + c.
Proof.
  unfold is_byte. intros Ha Hb Hc.
  assert (Z.lor (Z.shiftl a 16) (Z.shiftl b 8) = a * 65536 + b * 256) as E.
  { rewrite lor_shiftl_add by (rewrite ?Z.shiftl_mul_pow2; lia).
    by rewrite Z.shiftl_mul_pow2 by done. }
  split; [done|]. rewrite E.
  replace (a * 65536 + b * 256 + c) with ((a * 256 + b) * 2 ^ 8 + c) by lia.
  replace (a * 65536 + b * 256) with (Z.shiftl (a * 256 + b) 8) by (rewrite Z.shiftl_mul_pow2 by done; lia).
  by rewrite lor_shiftl_add by lia.
Qed.

Lemma b64_encode_ascii bs : Forall is_ascii (b64_encode bs).
Proof.
  assert (is_ascii (chr "=")) by (unfold is_ascii; change (chr "=") with 61; lia).
  remember (length bs) as k eqn:Hk. revert bs Hk.
  induction k as [k IH] using lt_wf_ind. intros bs ->.
  destruct bs as [|a [|b [|c bs]]]; cbn [b64_encode]; [constructor| | |];
    repeat (constructor; [first [apply b64_char_val|done]|]); try constructor.
  eapply IH; [|done]. simpl. lia.
Qed.

Lemma b64_triple a b c l :
  is_byte a → is_byte b → is_byte c →
  let n := a * 65536 + b * 256 + c in
  b64_loop 0 0 (b64_char (Z.shiftr n 18) :: b64_char (Z.shiftr n 12) :: b64_char (Z.shiftr n 6) :: b64_char n :: l)
  = app [a; b; c] <$> b64_loop 0 0 l.
Proof.
  intros Ha Hb Hc. cbv zeta. unfold is_byte in *. rewrite !Z.shiftr_div_pow2 by done.
  change (2 ^ 18) with 262144. change (2 ^ 12) with 4096. change (2 ^ 6) with 64.
  set (n := a * 65536 + b * 256 + c).
  assert (n / 262144 mod 64 = a / 4) as E0 by (subst n; Zify_dm; lia).
  assert (n / 4096 mod 64 = (a mod 4) * 16 + b / 16) as E1 by (subst n; Zify_dm; lia).
  assert (n / 64 mod 64 = (b mod 16) * 4 + c / 64) as E2 by (subst n; Zify_dm; lia).
  assert (n mod 64 = c mod 64) as E3 by (subst n; Zify_dm; lia).
  clearbody n.
  rewrite b64_loop_char by lia. cbn [Z.leb Z.compare]. rewrite E0.
  rewrite b64_loop_char by (change (2 ^ (0 + 6)) with 64; Zify_dm; lia). rewrite E1.
  change (2 <=? 0 + 6) with true. change (0 + 6 - 2) with 4. change (2 ^ 4) with 16. cbn iota.
  rewrite b64_loop_char by (change (2 ^ 4) with 16; Zify_dm; lia). rewrite E2.
  change (2 <=? 4) with true. change (4 - 2) with 2. change (2 ^ 2) with 4. cbn iota.
  rewrite b64_loop_char by (change (2 ^ 2) with 4; Zify_dm; lia). rewrite E3.
  change (2 <=? 2) with true. change (2 - 2) with 0. change (2 ^ 0) with 1. cbn iota.
  rewrite Z.mod_1_r, Z.div_1_r.
  replace (((0 * 64 + a / 4) * 64 + (a mod 4 * 16 + b / 16)) / 16 mod 256) with a by (Zify_dm; lia).
  replace (((0 * 64 + a / 4) * 64 + (a mod 4 * 16 + b / 16)) mod 16) with (b / 16) by (Zify_dm; lia).
  replace ((b / 16 * 64 + (b mod 16 * 4 + c / 64)) / 4 mod 256) with b by (Zify_dm; lia).
  replace ((b / 16 * 64 + (b mod 16 * 4 + c / 64)) mod 4) with (c / 64) by (Zify_dm; lia).
  replace ((c / 64 * 64 + c mod 64) mod 256) with c by (Zify_dm; lia).
  by destruct (b64_loop 0 0 l).
Qed.

Lemma b64_single a :
  is_byte a →
  let n := a * 65536 in
  b64_loop 0 0 [b64_char (Z.shiftr n 18); b64_char (Z.shiftr n 12); chr "="; chr "="] = Some [a].
Proof.
  intros Ha. cbv zeta. unfold is_byte in *. rewrite !Z.shiftr_div_pow2 by done.
  change (2 ^ 18) with 262144. change (2 ^ 12) with 4096.
  assert (a * 65536 / 262144 mod 64 = a / 4) as E0 by (Zify_dm; lia).
  assert (a * 65536 / 4096 mod 64 = (a mod 4) * 16) as E1 by (Zify_dm; lia).
  rewrite b64_loop_char by lia. cbn [Z.leb Z.compare]. rewrite E0.
  rewrite b64_loop_char by (change (2 ^ (0 + 6)) with 64; Zify_dm; lia). rewrite E1.
  change (2 <=? 0 + 6) with true. change (0 + 6 - 2) with 4. change (2 ^ 4) with 16. cbn iota.
  replace (((0 * 64 + a / 4) * 64 + a mod 4 * 16) / 16 mod 256) with a by (Zify_dm; lia). done.
Qed.

Lemma b64_double a b :
  is_byte a → is_byte b →
  let n := a * 65536 + b * 256 in
  b64_loop 0 0 [b64_char (Z.shiftr n 18); b64_char (Z.shiftr n 12); b64_char (Z.shiftr n 6); chr "="] = Some [a; b].
Proof.
  intros Ha Hb. cbv zeta. unfold is_byte in *. rewrite !Z.shiftr_div_pow2 by done.
  change (2 ^ 18) with 262144. change (2 ^ 12) with 4096. change (2 ^ 6) with 64.
  assert ((a * 65536 + b * 256) / 262144 mod 64 = a / 4) as E0 by (Zify_dm; lia).
  assert ((a * 65536 + b * 256) / 4096 mod 64 = (a mod 4) * 16 + b / 16) as E1 by (Zify_dm; lia).
  assert ((a * 65536 + b * 256) / 64 mod 64 = (b mod 16) * 4) as E2 by (Zify_dm; lia).
  rewrite b64_loop_char by lia. cbn [Z.leb Z.compare]. rewrite E0.
  rewrite b64_loop_char by (change (2 ^ (0 + 6)) with 64; Zify_dm; lia). rewrite E1.
  change (2 <=? 0 + 6) with true. change (0 + 6 - 2) with 4. change (2 ^ 4) with 16. cbn iota.
  rewrite b64_loop_char by (change (2 ^ 4) with 16; Zify_dm; lia). rewrite E2.
  change (2 <=? 4) with true. change (4 - 2) with 2. change (2 ^ 2) with 4. cbn iota.
  replace (((0 * 64 + a / 4) * 64 + (a mod 4 * 16 + b / 16)) / 16 mod 256) with a by (Zify_dm; lia).
  replace (((0 * 64 + a / 4) * 64 + (a mod 4 * 16 + b / 16)) mod 16) with (b / 16) by (Zify_dm; lia).
  replace ((b / 16 * 64 + b mod 16 * 4) / 4 mod 256) with b by (Zify_dm; lia). done.
Qed.

(** Base64 text is read back as the bytes it was made from, whatever
    their number (the [=] padding included). *)
Theorem b64_roundtrip bs : all_bytes bs → b64_decode (b64_encode bs) = Some bs.
Proof.
  intros Hb. unfold b64_decode. rewrite utf8_ascii by apply b64_encode_ascii.
  remember (length bs) as k eqn:Hk. revert bs Hk Hb.
  induction k as [k IH] using lt_wf_ind. intros bs -> Hb.
  destruct bs as [|a [|b [|c bs]]]; cbn [b64_encode]; [done| | |];
    inversion_clear Hb as [|?? Ha Hb1].
  - rewrite (Z.shiftl_mul_pow2 a 16) by done. by apply b64_single.
  - inversion_clear Hb1 as [|?? Hb' _].
    destruct (b64_group a b 0) as [-> _]; [done|done|done|]. by apply b64_double.
  - inversion_clear Hb1 as [|?? Hb' Hb2]. inversion_clear Hb2 as [|?? Hc Hbs].
    destruct (b64_group a b c) as [_ ->]; [done|done|done|].
    rewrite b64_triple by done. rewrite (IH (length bs)); [done|simpl; lia|done|done].
Qed.

Lemma b64_roundtrip_witness :
  all_bytes [1; 250; 3; 77; 0] ∧ b64_decode (b64_encode [1; 250; 3; 77; 0]) = Some [1; 250; 3; 77; 0].
Proof.
  assert (all_bytes [1; 250; 3; 77; 0]) as H by (by apply bytesb_all).
  exact (conj H (b64_roundtrip _ H)).
Defined.

(** ** Proofs: glob patterns *)

(** What a pattern means: [*] is any run of characters, [?] any one
    character, any other character itself. *)
Inductive glob_spec : str → str → Prop :=
| gs_nil : glob_spec [] []
| gs_star_skip p t : glob_spec p t → glob_spec (STAR :: p) t
| gs_star_take p c t : glob_spec (STAR :: p) t → glob_spec (STAR :: p) (c :: t)
| gs_qmark p c t : glob_spec p t → glob_spec (QMARK :: p) (c :: t)
| gs_char p c t : c ≠ STAR → c ≠ QMARK → glob_spec p t → glob_spec (c :: p) (c :: t).

Definition gview (p : str) (pi : nat) : pview :=
  match p !! pi with
  | None => VEnd
  | Some c => if c =? STAR then VAny else VOne (fun x => (c =? QMARK) || (c =? x)) (S pi)
  end.

Lemma wmatch_glob p pi t : wmatch (gview p) pi t ↔ glob_spec (drop pi p) t.
Proof.
  split.
  - induction 1 as [pi Hv|pi t Hv Hm IH|pi c t Hv Hm IH|pi f nx c t Hv Hf Hm IH];
      unfold gview in Hv; destruct (p !! pi) as [x|] eqn:Hx; try done;
      try (destruct (Z.eqb_spec x STAR) as [->|Hs]; [|discriminate || idtac]); try discriminate.
    + apply lookup_ge_None in Hx. rewrite drop_ge by done. constructor.
    + rewrite (drop_S _ _ _ Hx). by constructor.
    + rewrite (drop_S _ _ _ Hx) in IH |- *. by constructor.
    + injection Hv as <- <-. rewrite (drop_S _ _ _ Hx).
      destruct (Z.eqb_spec x QMARK) as [->|Hq]; [by constructor|].
      simpl in Hf. apply Z.eqb_eq in Hf as ->. by constructor.
  - remember (drop pi p) as q eqn:Hq. intros Hm. revert pi Hq.
    induction Hm as [|q t Hm IH|q c t Hm IH|q c t Hm IH|q c t Hs Hc Hm IH]; intros pi Hq.
    + apply wm_end. unfold gview. rewrite lookup_ge_None_2; [done|].
      apply (f_equal length) in Hq. rewrite length_drop in Hq. simpl in Hq. lia.
    + assert (p !! pi = Some STAR) as Hx by (rewrite <- (Nat.add_0_r pi), <- lookup_drop, <- Hq; done).
      apply wm_skip; [unfold gview; by rewrite Hx|]. apply IH.
      rewrite (drop_S _ _ _ Hx) in Hq. congruence.
    + assert (p !! pi = Some STAR) as Hx by (rewrite <- (Nat.add_0_r pi), <- lookup_drop, <- Hq; done).
      apply wm_take; [unfold gview; by rewrite Hx|]. by apply IH.
    + assert (p !! pi = Some QMARK) as Hx by (rewrite <- (Nat.add_0_r pi), <- lookup_drop, <- Hq; done).
      eapply wm_one; [unfold gview; by rewrite Hx|done|]. apply IH.
      rewrite (drop_S _ _ _ Hx) in Hq. congruence.
    + assert (p !! pi = Some c) as Hx by (rewrite <- (Nat.add_0_r pi), <- lookup_drop, <- Hq; done).
      eapply wm_one; [unfold gview; rewrite Hx; by rewrite (proj2 (Z.eqb_neq _ _)) by done| |].
      * simpl. by rewrite Z.eqb_refl, orb_true_r.
      * apply IH. rewrite (drop_S _ _ _ Hx) in Hq. congruence.
Qed.

Lemma gview_any_lt p pi : gview p pi = VAny → (pi < length p)%nat.
Proof. unfold gview. destruct (p !! pi) eqn:E; [|done]. by apply lookup_lt_Some in E. Qed.
Lemma gview_one_lt p pi f nx : gview p pi = VOne f nx → (pi < nx ≤ length p)%nat.
Proof.
  unfold gview. destruct (p !! pi) eqn:E; [|done]. apply lookup_lt_Some in E.
  destruct (_ =? _); [done|]. intros [= _ <-]. lia.
Qed.
Lemma only_stars_spec p : only_stars p = true ↔ glob_spec p [].
Proof.
  split.
  - induction p as [|c p IH]; simpl; [constructor|].
    intros [Hc Hp]%andb_true_iff. apply Z.eqb_eq in Hc as ->. constructor. auto.
  - remember [] as t eqn:Ht. induction 1; try done. simpl. auto.
Qed.

(** On a text without [*] the loop of [glob_match] is the generic one. *)
Lemma glob_loop_search p t :
  STAR ∉ t → ∀ fuel pi ti star mark,
  glob_loop fuel p t pi ti star mark =
  search (gview p) (fun pi => only_stars (drop pi p)) fuel t pi ti ((fun s => (s, mark)) <$> star).
Proof.
  intros Hns. induction fuel as [|fuel IH]; intros pi ti star mark; [done|].
  cbn [glob_loop search]. destruct (t !! ti) as [tc|] eqn:Htc; [|done].
  assert (tc ≠ STAR) by (intros ->; apply Hns; by apply list_elem_of_lookup_2 in Htc).
  unfold gview. destruct (p !! pi) as [c|]; simpl.
  - destruct (Z.eqb_spec c STAR) as [->|Hs].
    + rewrite (proj2 (Z.eqb_neq STAR QMARK)) by done.
      rewrite (proj2 (Z.eqb_neq STAR tc)) by done. simpl. by rewrite IH.
    + destruct (_ || _); rewrite ?IH; [done|]. destruct star; simpl; by rewrite ?IH.
  - destruct star; simpl; by rewrite ?IH.
Qed.

(** On every key that holds no [*], [glob_match] ends and answers exactly
    what the pattern means: [*] any run of characters, [?] any one. *)
Theorem glob_match_correct p t : STAR ∉ t → glob_match p t = true ↔ glob_spec p t.
Proof.
  intros Hns. unfold glob_match. rewrite glob_loop_search by done. simpl.
  destruct (search_correct (gview p) (length p) (fun pi => only_stars (drop pi p))
    (gview_any_lt p) (gview_one_lt p)) with (t := t) as (b & E & Hb).
  { intros pi _. rewrite only_stars_spec. by rewrite wmatch_glob. }
  unfold search_fuel in E. unfold glob_fuel. rewrite E. destruct b; rewrite Hb; by rewrite wmatch_glob.
Qed.

Lemma glob_match_correct_witness :
  (STAR ∉ lit "user:42") ∧ (glob_match (lit "us*:?2") (lit "user:42") = true ↔ glob_spec (lit "us*:?2") (lit "user:42")).
Proof.
  assert (STAR ∉ lit "user:42") as H by (apply (bool_decide_unpack _); by vm_compute).
  exact (conj H (glob_match_correct _ _ H)).
Defined.

(** A key that itself starts with [*] is not matched by the pattern [*],
    which means every key: the loop takes the two stars for equal characters
    before it looks for a wildcard, and then has no wildcard to go back to. *)
Theorem glob_match_literal_star :
  glob_match (lit "*") (lit "*a") = false ∧ glob_spec (lit "*") (lit "*a").
Proof.
  split; [by vm_compute|]. change (lit "*") with [STAR]. change (lit "*a") with [STAR; 97].
  apply gs_star_take, gs_star_take, gs_star_skip, gs_nil.
Qed.

(** The loop ends within its fuel on every text. *)
Lemma glob_loop_ends p t fuel pi ti star mark :
  (ti ≤ length t → pi ≤ length p →
   match star with Some s => mark ≤ ti ∧ S s ≤ length p | None => True end →
   weight (length p) t pi ((fun s => (s, mark)) <$> star) < fuel →
   is_Some (glob_loop fuel p t pi ti star mark))%nat.
Proof.
  revert pi ti star mark. induction fuel as [|fuel IH]; intros pi ti star mark Ht Hp Hs Hw; [lia|].
  cbn [glob_loop]. destruct (t !! ti) as [tc|] eqn:Htc; [|eauto].
  apply lookup_lt_Some in Htc.
  destruct (p !! pi) as [c|] eqn:Hc; [apply lookup_lt_Some in Hc|apply lookup_ge_None in Hc];
    [destruct (_ || _); [|destruct (_ =? _)]|].
  - apply IH; [lia|lia|destruct star; [lia|done]|].
    unfold weight in *. destruct star; simpl in *; nia.
  - apply IH; [lia|lia|lia|]. unfold weight in *. destruct star; simpl in *; nia.
  - destruct star as [s|]; [|eauto]. apply IH; [lia|lia|lia|]. unfold weight in *. simpl in *. nia.
  - destruct star as [s|]; [|eauto]. apply IH; [lia|lia|lia|]. unfold weight in *. simpl in *. nia.
Qed.

Lemma glob_match_ends p t : is_Some (glob_loop (glob_fuel p t) p t 0 0 None 0).
Proof. apply glob_loop_ends; [lia|lia|done|]. unfold weight, glob_fuel. simpl. nia. Qed.

(** What a matching text starts with. *)
Lemma glob_spec_prefix p t : glob_spec p t → take (length (glob_prefix p)) t = glob_prefix p.
Proof.
  induction 1 as [|p t Hm IH|p c t Hm IH|p c t Hm IH|p c t Hs Hq Hm IH]; simpl; try done.
  rewrite (proj2 (Z.eqb_neq c STAR)), (proj2 (Z.eqb_neq c QMARK)) by done. simpl. by f_equal.
Qed.
