(* ===== verification/Maps.v ===== *)
(** * Maps and orders the components share

    Sums over a map, the order of texts and the ordered entries of a map (the
    iteration order of a [BTreeMap]). *)
From S2P Require Import Prelude Utf8.
Open Scope Z_scope.

(** ** Sums over a map *)
Section msum.
  Context {K : Type} `{Countable K} {A : Type} (f : K → A → Z).
Definition msum (m : gmap K A) : Z := map_fold (fun k a n => f k a + n) 0 m.

Lemma msum_empty : msum ∅ = 0.
Proof. apply map_fold_empty. Qed.
Lemma msum_insert m k a : m !! k = None → msum (<[k:=a]> m) = f k a + msum m.
Proof. intros Hm. unfold msum. rewrite map_fold_insert_L; [done| |done]. intros. lia. Qed.
Lemma msum_delete m k a : m !! k = Some a → msum m = f k a + msum (delete k m).
Proof. intros Hm. rewrite <- (insert_delete_id m k a Hm) at 1. apply msum_insert, lookup_delete_eq. Qed.
Lemma msum_insert_any m k a : msum (<[k:=a]> m) = f k a + msum (delete k m).
Proof. rewrite <- insert_delete_eq. apply msum_insert, lookup_delete_eq. Qed.
Lemma msum_delete_any m k : msum (delete k m) = msum m - match m !! k with Some a => f k a | None => 0 end.
Proof.
  destruct (m !! k) as [a|] eqn:E; [rewrite (msum_delete m k a E); lia|].
  rewrite delete_id by done. lia.
Qed.
Lemma msum_insert_over m k a :
  msum (<[k:=a]> m) = msum m + f k a - match m !! k with Some b => f k b | None => 0 end.
Proof. rewrite msum_insert_any, msum_delete_any. lia. Qed.
Lemma msum_ind (P : Z → Prop) m : P 0 → (∀ k a n, m !! k = Some a → P n → P (f k a + n)) → P (msum m).
Proof.
  intros H0 HS. induction m as [|k a m Hk IH] using map_ind; [by rewrite msum_empty|].
  rewrite msum_insert by done. apply HS; [by rewrite lookup_insert_eq|]. apply IH.
  intros k' a' n Hk'. apply HS. rewrite lookup_insert_ne; [done|]. intros ->. congruence.
Qed.
Lemma msum_nonneg m : (∀ k a, m !! k = Some a → 0 ≤ f k a) → 0 ≤ msum m.
Proof. intros Hf. apply msum_ind; [done|]. intros k a n Hk. specialize (Hf k a Hk). lia. Qed.
Lemma msum_zero m : (∀ k a, m !! k = Some a → f k a = 0) → msum m = 0.
Proof. intros Hf. apply (msum_ind (fun n => n = 0)); [done|]. intros k a n Hk ->. rewrite Hf; [lia|done]. Qed.
Lemma msum_le m k a : (∀ k a, m !! k = Some a → 0 ≤ f k a) → m !! k = Some a → f k a ≤ msum m.
Proof.
  intros Hf Hk. rewrite (msum_delete m k a Hk). assert (0 ≤ msum (delete k m)); [|lia].
  apply msum_nonneg. intros k' a'. rewrite lookup_delete_Some. intros []. eauto.
Qed.
End msum.
Lemma msum_ext {A} (f g : str → A → Z) m : (∀ k a, m !! k = Some a → f k a = g k a) → msum f m = msum g m.
Proof.
  intros Hfg. induction m as [|k a m Hk IH] using map_ind; [done|].
  rewrite !msum_insert by done. rewrite (Hfg k a) by (by rewrite lookup_insert_eq). f_equal. apply IH.
  intros k' a' Hk'. apply Hfg. rewrite lookup_insert_ne; [done|]. intros ->. congruence.
Qed.
(** Dropping entries that count for nothing. *)
Lemma msum_filter {A} (f : str → A → Z) (P : str * A → Prop) `{!∀ x, Decision (P x)} m :
  (∀ k a, m !! k = Some a → ¬ P (k, a) → f k a = 0) → msum f (filter P m) = msum f m.
Proof.
  intros Hf. induction m as [|k a m Hk IH] using map_ind; [by rewrite map_filter_empty|].
  assert (msum f (filter P m) = msum f m) as IH'.
  { apply IH. intros k' a' Hk'. apply Hf. rewrite lookup_insert_ne; [done|]. intros ->. congruence. }
  rewrite (msum_insert f m k a Hk). destruct (decide (P (k, a))).
  - rewrite map_filter_insert_True by done. rewrite msum_insert; [by rewrite IH'|].
    apply map_lookup_filter_None. by left.
  - rewrite map_filter_insert_False by done. rewrite (delete_id m k Hk), IH', (Hf k a); [lia|by rewrite lookup_insert_eq|done].
Qed.

(** ** The order of texts: byte by byte *)
Fixpoint bytes_leb (a b : bytes) : bool :=
  match a, b with
  | [], _ => true
  | _ :: _, [] => false
  | x :: a, y :: b => (x <? y) || ((x =? y) && bytes_leb a b)
  end.
Lemma bytes_leb_refl a : bytes_leb a a = true.
Proof. induction a as [|x a IH]; [done|]. simpl. rewrite Z.eqb_refl, IH. by rewrite orb_true_r. Qed.
Lemma bytes_leb_cons x y a b : bytes_leb (x :: a) (y :: b) = true ↔ x < y ∨ (x = y ∧ bytes_leb a b = true).
Proof. simpl. rewrite orb_true_iff, andb_true_iff, Z.ltb_lt, Z.eqb_eq. done. Qed.
Lemma bytes_leb_trans a b c : bytes_leb a b = true → bytes_leb b c = true → bytes_leb a c = true.
Proof.
  revert b c. induction a as [|x a IH]; intros [|y b] [|z c]; try done.
  rewrite !bytes_leb_cons. intros [?|[-> ?]] [?|[-> ?]]; [left; lia|left; lia|left; lia|right; eauto].
Qed.
Lemma bytes_leb_antisym a b : bytes_leb a b = true → bytes_leb b a = true → a = b.
Proof.
  revert b. induction a as [|x a IH]; intros [|y b]; try done.
  rewrite !bytes_leb_cons. intros [?|[-> ?]] [?|[? ?]]; try lia. f_equal. eauto.
Qed.
Lemma bytes_leb_total a b : bytes_leb a b = true ∨ bytes_leb b a = true.
Proof.
  revert b. induction a as [|x a IH]; intros [|y b]; try by (left + right).
  rewrite !bytes_leb_cons. destruct (Z.lt_trichotomy x y) as [|[->|]]; [by left; left| |by right; left].
  destruct (IH b); [left|right]; by right.
Qed.

Definition str_leb (s t : str) : bool := bytes_leb (utf8 s) (utf8 t).
Definition str_le (s t : str) : Prop := str_leb s t = true.
Definition str_ltb (s t : str) : bool := negb (str_leb t s).
#[export] Instance str_le_dec s t : Decision (str_le s t).
Proof. unfold str_le. apply _. Defined.
#[export] Instance str_le_trans : Transitive str_le.
Proof. intros a b c. apply bytes_leb_trans. Qed.
#[export] Instance str_le_total : Total str_le.
Proof. intros a b. apply bytes_leb_total. Qed.

(** ** The entries of a map in the order of its keys *)
Definition entry_le {A} (x y : str * A) : Prop := str_le x.1 y.1.
#[export] Instance entry_le_dec {A} (x y : str * A) : Decision (entry_le x y).
Proof. unfold entry_le. apply _. Defined.
#[export] Instance entry_le_trans {A} : Transitive (@entry_le A).
Proof. intros a b c. apply bytes_leb_trans. Qed.
#[export] Instance entry_le_total {A} : Total (@entry_le A).
Proof. intros a b. apply bytes_leb_total. Qed.
Definition entries {A} (m : gmap str A) : list (str * A) := merge_sort entry_le (map_to_list m).
Definition keys_of {A} (m : gmap str A) : list str := (entries m).*1.

Lemma entries_perm {A} (m : gmap str A) : entries m ≡ₚ map_to_list m.
Proof. apply merge_sort_Permutation. Qed.
Lemma elem_of_entries {A} (m : gmap str A) k a : (k, a) ∈ entries m ↔ m !! k = Some a.
Proof. rewrite entries_perm. apply elem_of_map_to_list. Qed.
Lemma entries_sorted {A} (m : gmap str A) : StronglySorted entry_le (entries m).
Proof. apply StronglySorted_merge_sort; apply _. Qed.
Lemma entries_NoDup {A} (m : gmap str A) : NoDup (keys_of m).
Proof. unfold keys_of. rewrite entries_perm. apply NoDup_fst_map_to_list. Qed.
