(* ===== verification/Types.v ===== *)
(** * [src/value.rs], first part: type tags and document encodings;
      [src/format.rs]: the constants of the data file *)
From S2P Require Import Prelude Utf8.
Open Scope Z_scope.

(** ** Flags and limits ([src/format.rs]) *)
Definition MAGIC : bytes := lit "KIVA".
Definition FORMAT_VERSION : Z := 3.
Definition FORMAT_V1 : Z := 1.
Definition FILE_HEADER_LEN : Z := 16.
Definition REC_HEADER_LEN : Z := 28.
Definition FLAG_COMP_MASK : Z := 0x03.
Definition FLAG_MSGPACK : Z := 0x04.
Definition FLAG_ENCRYPTED : Z := 0x08.
Definition FLAG_KDOC : Z := 0x10.
Definition FLAG_TXN : Z := 0x20.
Definition FLAG_TXN_COMMIT : Z := 0x40.
Definition FLAG_TOMBSTONE : Z := 0x80.
Definition COMPRESS_MIN : Z := 64.
Definition MAX_KEY_LEN : Z := 1024.
Definition MAX_VALUE_LEN : Z := 256 * 1024 * 1024.

(** [flags & mask != 0] *)
Definition has_flag (flags mask : Z) : bool := negb (Z.land flags mask =? 0).

Lemma has_flag_lor a b m : has_flag (Z.lor a b) m = has_flag a m || has_flag b m.
Proof.
  unfold has_flag. rewrite Z.land_lor_distr_l.
  destruct (Z.eqb_spec (Z.land a m) 0) as [->|Ha]; destruct (Z.eqb_spec (Z.land b m) 0) as [->|Hb]; simpl; try done.
  all: apply negb_true_iff, Z.eqb_neq; intros Hz%Z.lor_eq_0_iff; by destruct Hz.
Qed.

(** ** On-disk type tag of a stored value *)
Inductive Type_ : Type :=
| TString | TNumber | TBoolean | TNull | TArray | TObject | TBytes
| TDate     (** a day of the calendar *)
| TDateTime (** an instant, in UTC to the millisecond *)
| TTime     (** a time of day *).

#[export] Instance Type_eq_dec : EqDecision Type_.
Proof. solve_decision. Defined.

(** [ty as u8] *)
Definition Type_code (t : Type_) : Z :=
  match t with
  | TString => 1 | TNumber => 2 | TBoolean => 3 | TNull => 4 | TArray => 5
  | TObject => 6 | TBytes => 7 | TDate => 8 | TDateTime => 9 | TTime => 10
  end.

Definition Type_name (t : Type_) : str :=
  match t with
  | TString => lit "string" | TNumber => lit "number" | TBoolean => lit "boolean"
  | TNull => lit "null" | TArray => lit "array" | TObject => lit "object" | TBytes => lit "bytes"
  | TDate => lit "date" | TDateTime => lit "datetime" | TTime => lit "time"
  end.

Definition Type_from_name (s : str) : option Type_ :=
  if decide (s = lit "string") then Some TString
  else if decide (s = lit "number") then Some TNumber
  else if decide (s = lit "boolean") then Some TBoolean
  else if decide (s = lit "null") then Some TNull
  else if decide (s = lit "array") then Some TArray
  else if decide (s = lit "object") then Some TObject
  else if decide (s = lit "bytes") then Some TBytes
  else if decide (s = lit "date") then Some TDate
  else if decide (s = lit "datetime") then Some TDateTime
  else if decide (s = lit "time") then Some TTime
  else None.

Definition Type_from_u8 (b : Z) : option Type_ :=
  match b with
  | 1 => Some TString | 2 => Some TNumber | 3 => Some TBoolean | 4 => Some TNull
  | 5 => Some TArray | 6 => Some TObject | 7 => Some TBytes | 8 => Some TDate
  | 9 => Some TDateTime | 10 => Some TTime
  | _ => None
  end.

Definition Type_is_doc (t : Type_) : bool := match t with TArray | TObject => true | _ => false end.
Definition Type_is_temporal (t : Type_) : bool := match t with TDate | TDateTime | TTime => true | _ => false end.

(** ** How a document's bytes are written, as the record flags say *)
Inductive DocEnc : Type := EncJson | EncMsgPack | EncKdoc.
#[export] Instance DocEnc_eq_dec : EqDecision DocEnc.
Proof. solve_decision. Defined.

Definition DocEnc_from_flags (flags : Z) : DocEnc :=
  if has_flag flags FLAG_KDOC then EncKdoc
  else if has_flag flags FLAG_MSGPACK then EncMsgPack
  else EncJson.
Definition DocEnc_flags (e : DocEnc) : Z :=
  match e with EncJson => 0 | EncMsgPack => FLAG_MSGPACK | EncKdoc => FLAG_KDOC end.

(** ** Proofs *)
Lemma Type_from_u8_code t : Type_from_u8 (Type_code t) = Some t.
Proof. by destruct t. Qed.
Lemma Type_from_u8_inv b t : Type_from_u8 b = Some t → b = Type_code t.
Proof.
  unfold Type_from_u8. destruct b as [|p|p]; [done| |done].
  do 4 (try (destruct p as [p|p|]; try done)); by intros [= <-].
Qed.
Lemma Type_code_byte t : is_byte (Type_code t).
Proof. unfold is_byte. destruct t; simpl; lia. Qed.
Lemma Type_from_name_name t : Type_from_name (Type_name t) = Some t.
Proof. destruct t; by vm_compute. Qed.
