(* ===== verification/Compress.v ===== *)
(** * [src/compress.rs]: per-record compression

    The two compressors ([lz4_flex], [flate2]) are a parameter, [Codecs]; what
    the code relies on is stated by [CodecsLaws]. *)
From S2P Require Import Prelude Utf8 Types.
Open Scope Z_scope.

Class Codecs := {
  lz4_compress : bytes → bytes;
  (** [lz4_flex::decompress(body, raw_len)] *)
  lz4_decompress : bytes → Z → option bytes;
  (** [None]: the encoder reported an error *)
  zlib_compress : bytes → option bytes;
  (** at most [limit] bytes of the decompressed stream *)
  zlib_read : bytes → Z → option bytes;
}.

Class CodecsLaws `{Codecs} : Prop := {
  lz4_roundtrip raw : lz4_decompress (lz4_compress raw) (len raw) = Some raw;
  zlib_roundtrip raw body n :
    zlib_compress raw = Some body → zlib_read body n = Some (take (Z.to_nat n) raw);
}.

Inductive Compression : Type := CNone | CLz4 | CZlib.
#[export] Instance Compression_eq_dec : EqDecision Compression.
Proof. solve_decision. Defined.

Definition Compression_flag (c : Compression) : Z :=
  match c with CNone => 0 | CLz4 => 1 | CZlib => 2 end.
Definition Compression_from_flag (f : Z) : Compression :=
  match Z.land f 3 with 1 => CLz4 | 2 => CZlib | _ => CNone end.
Definition Compression_name (c : Compression) : str :=
  match c with CNone => lit "none" | CLz4 => lit "lz4" | CZlib => lit "zlib" end.

Section compress.
  Context `{Codecs}.

(** The stored bytes and the flag actually used. *)
Definition pack (raw : bytes) (algo : Compression) : bytes * Z :=
  if bool_decide (algo = CNone) || (len raw <? COMPRESS_MIN) then (raw, 0)
  else
    match (match algo with
           | CLz4 => Some (lz4_compress raw)
           | CZlib => zlib_compress raw
           | CNone => None
           end) with
    | None => (raw, 0)
    | Some body =>
      if len raw <=? len body + 4 then (raw, 0)
      else (le_bytes 4 (wrap 32 (len raw)) ++ body, Compression_flag algo)
    end.

Definition unpack (stored : bytes) (algo : Compression) : result KivaError bytes :=
  match algo with
  | CNone => Ok stored
  | _ =>
    if len stored <? 4 then Err (Corrupted "compressed value is truncated")
    else
      let raw_len := le_val (take 4 stored) in
      if MAX_VALUE_LEN <? raw_len then Err (Corrupted "compressed value declares an absurd size")
      else
        let body := drop 4 stored in
        raw ← match algo with
              | CLz4 => ok_or (lz4_decompress body raw_len) (Corrupted "lz4: {e}")
              | _ => ok_or (zlib_read body (raw_len + 1)) (Corrupted "zlib: {e}")
              end;
        if negb (len raw =? raw_len) then Err (Corrupted "decompressed size mismatch") else Ok raw
  end.

Lemma unpack_of_pack `{!CodecsLaws} raw algo :
  len raw ≤ MAX_VALUE_LEN →
  unpack (fst (pack raw algo)) (Compression_from_flag (snd (pack raw algo))) = Ok raw.
Proof.
  intros Hlen. unfold pack.
  destruct (_ || _); [done|].
  assert (in_u 32 (len raw)) as Hu.
  { unfold in_u. pose proof (len_nonneg raw). unfold MAX_VALUE_LEN in Hlen. lia. }
  assert (∀ body, take 4 (le_bytes 4 (wrap 32 (len raw)) ++ body) = le_bytes 4 (len raw)) as Ht.
  { intros. rewrite wrap_small by done. by apply take_app_len. }
  assert (∀ body, drop 4 (le_bytes 4 (wrap 32 (len raw)) ++ body) = body) as Hd.
  { intros. by apply drop_app_len. }
  assert (∀ body, (len (le_bytes 4 (wrap 32 (len raw)) ++ body) <? 4) = false) as Hl.
  { intros. apply Z.ltb_ge. rewrite len_app. pose proof (len_nonneg body). change (len (le_bytes 4 _)) with 4. lia. }
  assert ((MAX_VALUE_LEN <? len raw) = false) as Hm by by apply Z.ltb_ge.
  destruct algo; [done| |].
  - cbn [Compression_flag]. destruct (len raw <=? _); [done|]. cbn [fst snd].
    change (Compression_from_flag 1) with CLz4. unfold unpack.
    rewrite Hl, Ht, Hd, le_val_u32, Hm by done. rewrite lz4_roundtrip. simpl.
    by rewrite Z.eqb_refl.
  - destruct (zlib_compress raw) as [body|] eqn:E; [|done].
    destruct (len raw <=? _); [done|]. cbn [fst snd Compression_flag].
    change (Compression_from_flag 2) with CZlib. unfold unpack.
    rewrite Hl, Ht, Hd, le_val_u32, Hm by done.
    rewrite (zlib_roundtrip _ _ _ E), take_ge; [|unfold len; lia]. simpl.
    by rewrite Z.eqb_refl.
Qed.
(** What [pack] stores, [unpack] under the flag that [pack] returned gives
    back, whichever algorithm was asked for, for every value the engine
    accepts (256 MB at most). *)
Theorem unpack_pack `{!CodecsLaws} raw algo :
  len raw ≤ MAX_VALUE_LEN →
  unpack (fst (pack raw algo)) (Compression_from_flag (snd (pack raw algo))) = Ok raw.
Proof. apply unpack_of_pack. Qed.

(** What [pack] gives is never larger than what it was given. *)
Lemma pack_len raw algo : len (fst (pack raw algo)) ≤ len raw.
Proof.
  unfold pack. destruct (_ || _); [done|].
  destruct (match algo with CNone => None | CLz4 => _ | CZlib => _ end) as [body|]; [|done].
  destruct (Z.leb_spec (len raw) (len body + 4)); [done|]. simpl.
  unfold len in *. simpl. lia.
Qed.
(** The two forms of what [pack] stores. *)
Lemma pack_stored raw algo :
  pack raw algo = (raw, 0) ∨
  ∃ body c, pack raw algo = (le_bytes 4 (wrap 32 (len raw)) ++ body, c) ∧ (c = 1 ∨ c = 2).
Proof.
  unfold pack. destruct (_ || _) eqn:E; [by left|]. apply orb_false_iff in E as [Ea _].
  destruct algo; [done| |].
  - destruct (_ <=? _); [by left|right; eauto].
  - destruct (zlib_compress raw) as [b|]; [|by left]. destruct (_ <=? _); [by left|right; eauto].
Qed.
Lemma pack_flag raw algo : snd (pack raw algo) = 0 ∨ snd (pack raw algo) = 1 ∨ snd (pack raw algo) = 2.
Proof.
  unfold pack. destruct (_ || _); [tauto|].
  destruct (match algo with CNone => None | CLz4 => _ | CZlib => _ end) as [body|]; [|tauto].
  destruct (_ <=? _); [tauto|]. destruct algo; simpl; tauto.
Qed.
End compress.

(** ** A concrete pair of compressors, for evaluation: runs of one byte. *)
Definition run_compress (raw : bytes) : bytes :=
  match raw with
  | x :: _ => if forallb (Z.eqb x) raw then [x] else raw
  | [] => []
  end.
Definition run_decompress (body : bytes) (n : Z) : option bytes :=
  match body with
  | [x] => Some (replicate (Z.to_nat n) x)
  | _ => Some body
  end.
#[export] Instance run_codecs : Codecs := {
  lz4_compress := run_compress;
  lz4_decompress := run_decompress;
  zlib_compress raw := Some (0 :: raw);
  zlib_read body n := match body with 0 :: raw => Some (take (Z.to_nat n) raw) | _ => None end;
}.

Lemma forallb_replicate x l : forallb (Z.eqb x) l = true → replicate (length l) x = l.
Proof.
  induction l as [|y l IH]; simpl; [done|]. intros [Hy Hl]%andb_true_iff.
  apply Z.eqb_eq in Hy as ->. f_equal. auto.
Qed.

#[export] Instance run_codecs_laws : CodecsLaws.
Proof.
  split; simpl.
  - intros raw. unfold run_decompress, run_compress. destruct raw as [|x raw]; [done|].
    destruct (forallb _ _) eqn:E.
    + unfold len. rewrite Nat2Z.id. f_equal. by apply forallb_replicate.
    + destruct raw; [|done]. simpl in E. by rewrite Z.eqb_refl in E.
  - intros raw body n [= <-]. done.
Qed.

Lemma unpack_pack_witness :
  let raw := replicate 100 7 in
  (len raw ≤ MAX_VALUE_LEN) ∧ pack raw CLz4 = ([100; 0; 0; 0; 7], 1) ∧
  unpack (fst (pack raw CLz4)) (Compression_from_flag (snd (pack raw CLz4))) = Ok raw.
Proof.
  assert (len (replicate 100 7) ≤ MAX_VALUE_LEN) as H by (by vm_compute).
  exact (conj H (conj eq_refl (unpack_pack (replicate 100 7) CLz4 H))).
Defined.
