(* ===== verification/Format.v ===== *)
(** * [src/format.rs]: the binary layout of the data file

    The checksum ([crc32fast]) is a parameter, the class [Crc]; the bitwise
    CRC-32 [crc32_ieee] is the instance used by evaluations. *)
From S2P Require Import Prelude Utf8 Util Types Compress.
Open Scope Z_scope.

Class Crc := {
  crc32 : bytes → Z;
  crc32_u32 : ∀ b, in_u 32 (crc32 b);
}.

(** ** Records *)
Record RecHeader := {
  crc : Z;
  k_size : Z;
  v_size : Z;
  ty : Z;
  flags : Z;
  timestamp : Z;
  expires_at : Z;
}.

Definition total_len (h : RecHeader) : Z := REC_HEADER_LEN + k_size h + v_size h.
Definition compression (h : RecHeader) : Compression := Compression_from_flag (Z.land (flags h) FLAG_COMP_MASK).

(** ** File header *)
Definition file_header (file_id format : Z) : bytes := MAGIC ++ le_bytes 4 format ++ le_bytes 8 file_id.

Definition parse_file_header (h : bytes) : result String.string (Z * Z) :=
  if (len h <? FILE_HEADER_LEN) || negb (bool_decide (take 4 h = MAGIC)) then Err "missing KIVA signature"%string
  else
    let version := le_val (slice 4 8 h) in
    if negb ((FORMAT_V1 <=? version) && (version <=? FORMAT_VERSION))
    then Err "unsupported storage format {version}"%string
    else Ok (le_val (slice 8 16 h), version).

(** Bytes 4 to 28 of a record: its header without the checksum. *)
Definition rec_head (k_size v_size ty flags timestamp expires_at : Z) : bytes :=
  le_bytes 2 (wrap 16 k_size) ++ le_bytes 4 (wrap 32 v_size) ++ [ty] ++ [flags]
  ++ le_bytes 8 (wrap 64 timestamp) ++ le_bytes 8 (wrap 64 expires_at).

(** The checksum in front of everything after it. *)
Definition with_crc `{Crc} (tail : bytes) : bytes := le_bytes 4 (crc32 tail) ++ tail.

(** [None]: an index past the end, which panics. *)
Definition parse_header (b : bytes) : option RecHeader :=
  if len b <? REC_HEADER_LEN then None
  else Some {|
    crc := le_val (slice 0 4 b);
    k_size := le_val (slice 4 6 b);
    v_size := le_val (slice 6 10 b);
    ty := nth 10 b 0;
    flags := nth 11 b 0;
    timestamp := sint 64 (le_val (slice 12 20 b));
    expires_at := expiry_to_ms (sint 64 (le_val (slice 20 28 b)));
  |}.

(** The format a record of type [ty] with [flags] needs. *)
Definition format_for_record (ty flags : Z) : Z :=
  if has_flag flags FLAG_KDOC then 3 else if 8 <=? ty then 2 else FORMAT_V1.

(** The loop of [format_needed] over the bytes left; [None]: out of fuel, or
    a record that runs past the end (a slice out of range, which panics). *)
Fixpoint format_needed_loop (fuel : nat) (rest : bytes) (need : Z) : option Z :=
  match fuel with
  | O => None
  | S fuel =>
    if len rest <? REC_HEADER_LEN then Some need
    else
      h ← parse_header rest;
      if len rest <? total_len h then None
      else format_needed_loop fuel (drop (Z.to_nat (total_len h)) rest) (Z.max need (format_for_record (ty h) (flags h)))
  end.
Definition format_needed (buf : bytes) : option Z := format_needed_loop (S (length buf)) buf FORMAT_V1.

Section format.
  Context `{Crc}.

Definition encode_record (key : str) (value : bytes) (ty flags timestamp expires_at : Z) : bytes :=
  with_crc (rec_head (len (utf8 key)) (len value) ty flags timestamp expires_at ++ utf8 key ++ value).

(** Checks the CRC of a complete record buffer. *)
Definition verify_record (rec : bytes) : bool :=
  if len rec <? REC_HEADER_LEN then false
  else
    match parse_header rec with
    | None => false
    | Some h => (total_len h =? len rec) && (crc32 (drop 4 rec) =? crc h)
    end.

(** ** Frames: a header and the bytes it announces *)
Record Frame := {
  f_klen : Z; f_vlen : Z; f_ty : Z; f_flags : Z; f_ts : Z; f_exp : Z; f_body : bytes;
}.
Definition frame_head (r : Frame) : bytes := rec_head (f_klen r) (f_vlen r) (f_ty r) (f_flags r) (f_ts r) (f_exp r).
Definition frame_bytes (r : Frame) : bytes := with_crc (frame_head r ++ f_body r).
Definition log_bytes (rs : list Frame) : bytes := List.concat (List.map frame_bytes rs).
Definition frame_len (r : Frame) : Z := REC_HEADER_LEN + f_klen r + f_vlen r.
(** The header fields hold what they were given, and the body is as long as they say. *)
Record fits (r : Frame) : Prop := {
  fit_k : in_u 16 (f_klen r);
  fit_v : in_u 32 (f_vlen r);
  fit_ts : in_i64 (f_ts r);
  fit_exp : in_i64 (f_exp r);
  fit_body : len (f_body r) = f_klen r + f_vlen r;
}.
(** The header of [r] as it is read back: an expiry in seconds, as KivaDB 1.5
    wrote them, comes back in milliseconds. *)
Definition frame_header (r : Frame) : RecHeader := {|
  crc := crc32 (frame_head r ++ f_body r);
  k_size := f_klen r; v_size := f_vlen r; ty := f_ty r; flags := f_flags r;
  timestamp := f_ts r; expires_at := expiry_to_ms (f_exp r) |}.

Lemma rec_head_len k v t f ts e : len (rec_head k v t f ts e) = 24.
Proof. unfold rec_head. rewrite !len_app. unfold len. rewrite !le_bytes_length. done. Qed.
Lemma with_crc_len b : len (with_crc b) = 4 + len b.
Proof. unfold with_crc. rewrite len_app. unfold len at 1. by rewrite le_bytes_length. Qed.
Lemma with_crc_drop4 b : drop 4 (with_crc b) = b.
Proof. by apply drop_app_len. Qed.
Lemma frame_bytes_len r : fits r → len (frame_bytes r) = frame_len r.
Proof.
  intros [_ _ _ _ Hb]. unfold frame_bytes, frame_head. rewrite with_crc_len, len_app, rec_head_len, Hb.
  unfold frame_len, REC_HEADER_LEN. lia.
Qed.
Lemma frame_len_ge r : fits r → 28 ≤ frame_len r.
Proof. intros [[? _] [? _] _ _ _]. unfold frame_len, REC_HEADER_LEN. lia. Qed.
Lemma log_bytes_cons r rs : log_bytes (r :: rs) = frame_bytes r ++ log_bytes rs.
Proof. done. Qed.
Lemma log_bytes_app rs rs' : log_bytes (rs ++ rs') = log_bytes rs ++ log_bytes rs'.
Proof. unfold log_bytes. by rewrite List.map_app, List.concat_app. Qed.

(** The header of a frame is read back, whatever follows it. *)
Lemma parse_frame_head r c rest :
  in_u 32 c → fits r →
  parse_header (le_bytes 4 c ++ frame_head r ++ rest) =
  Some {| crc := c; k_size := f_klen r; v_size := f_vlen r; ty := f_ty r; flags := f_flags r;
          timestamp := f_ts r; expires_at := expiry_to_ms (f_exp r) |}.
Proof.
  intros Hc [Hk Hv Hts He _]. unfold parse_header, frame_head.
  rewrite !len_app, rec_head_len. pose proof (len_nonneg rest).
  assert (len (le_bytes 4 c) = 4) as LC by (unfold len; by rewrite le_bytes_length).
  rewrite LC, ltb_f by (unfold REC_HEADER_LEN; lia).
  unfold rec_head. rewrite <- !app_assoc. rewrite (wrap_small 16), (wrap_small 32) by done.
  set (K := le_bytes 2 _). set (V := le_bytes 4 (f_vlen r)). set (C := le_bytes 4 c).
  set (TS := le_bytes 8 _). set (EX := le_bytes 8 _).
  assert (len K = 2 ∧ len V = 4 ∧ len TS = 8 ∧ len EX = 8) as (LK & LV & LTS & LEX)
    by (unfold len; subst K V TS EX; by rewrite !le_bytes_length).
  change (len C = 4) in LC.
  assert (∀ x y (k : bytes), nth 10 (C ++ K ++ V ++ [x] ++ [y] ++ k) 0 = x ∧
                     nth 11 (C ++ K ++ V ++ [x] ++ [y] ++ k) 0 = y) as Hnth.
  { intros. unfold len in *.
    destruct C as [|? [|? [|? [|? [|]]]]]; simpl in LC; try lia.
    destruct K as [|? [|? [|]]]; simpl in LK; try lia.
    destruct V as [|? [|? [|? [|? [|]]]]]; simpl in LV; try lia. done. }
  destruct (Hnth (f_ty r) (f_flags r) (TS ++ EX ++ rest)) as [E1 E2]. rewrite E1, E2. clear Hnth E1 E2.
  assert (len [f_ty r] = 1 ∧ len [f_flags r] = 1) as [L1 L2] by done.
  do 2 f_equal.
  - rewrite (slice_front C) by (done || lia). by apply le_val_u32.
  - rewrite (slice_drop C), LC by lia. rewrite (slice_front K) by (done || lia). by apply le_val_u16.
  - rewrite (slice_drop C), (slice_drop K), LC, LK by lia. rewrite (slice_front V) by (done || lia). by apply le_val_u32.
  - rewrite (slice_drop C), (slice_drop K), (slice_drop V), (slice_drop [_]), (slice_drop [_]), LC, LK, LV, L1, L2 by lia.
    rewrite (slice_front TS) by (done || lia). subst TS.
    rewrite le_val_u64 by (apply wrap_in_u; done). by apply sint64_wrap.
  - f_equal. rewrite (slice_drop C), (slice_drop K), (slice_drop V), (slice_drop [_]), (slice_drop [_]), (slice_drop TS), LC, LK, LV, LTS, L1, L2 by lia.
    rewrite (slice_front EX) by (done || lia). subst EX.
    rewrite le_val_u64 by (apply wrap_in_u; done). by apply sint64_wrap.
Qed.
(** Only the first 28 bytes count. *)
Lemma parse_header_take n b : 28 ≤ n → n ≤ len b → parse_header (take (Z.to_nat n) b) = parse_header b.
Proof.
  intros Hn Hb. assert (len (take (Z.to_nat n) b) = n) as Hl by (unfold len in *; rewrite length_take; lia).
  unfold parse_header, REC_HEADER_LEN. rewrite Hl, !ltb_f by lia.
  assert (∀ i j, 0 ≤ i → j ≤ n → slice i j (take (Z.to_nat n) b) = slice i j b) as Hs.
  { intros i j Hi Hj. unfold slice. rewrite skipn_firstn_comm, take_take. f_equal. lia. }
  rewrite !Hs by lia. f_equal. f_equal; rewrite nth_lookup, lookup_take_lt, <- nth_lookup by lia; done.
Qed.
Lemma parse_frame r rest : fits r → parse_header (frame_bytes r ++ rest) = Some (frame_header r).
Proof.
  intros Hf. unfold frame_bytes, with_crc. rewrite <- !app_assoc. apply parse_frame_head; [apply crc32_u32|done].
Qed.
Lemma frame_header_total r : total_len (frame_header r) = frame_len r.
Proof. done. Qed.

Lemma verify_frame r : fits r → verify_record (frame_bytes r) = true.
Proof.
  intros Hf. unfold verify_record. rewrite frame_bytes_len by done. pose proof (frame_len_ge r Hf).
  rewrite ltb_f by (unfold REC_HEADER_LEN; lia).
  pose proof (parse_frame r [] Hf) as Hp. rewrite app_nil_r in Hp. rewrite Hp, frame_header_total.
  unfold frame_bytes. rewrite with_crc_drop4. by rewrite !Z.eqb_refl.
Qed.

(** The record of an unencrypted key and value. *)
Definition plain_frame (key : str) (value : bytes) (ty flags timestamp expires_at : Z) : Frame :=
  {| f_klen := str_len key; f_vlen := len value; f_ty := ty; f_flags := flags; f_ts := timestamp;
     f_exp := expires_at; f_body := utf8 key ++ value |}.
Lemma encode_frame key value t f ts e : encode_record key value t f ts e = frame_bytes (plain_frame key value t f ts e).
Proof. done. Qed.
Record rec_fits (key : str) (value : bytes) (timestamp expires_at : Z) : Prop := {
  rf_key : in_u 16 (str_len key);
  rf_value : in_u 32 (len value);
  rf_ts : in_i64 timestamp;
  rf_exp : in_i64 expires_at;
}.
Lemma plain_fits key value t f ts e : rec_fits key value ts e → fits (plain_frame key value t f ts e).
Proof. intros [? ? ? ?]. split; simpl; try done. by rewrite len_app. Qed.

(** A record written by [encode_record] passes [verify_record], and its
    header reads back every field (an expiry in seconds, as KivaDB 1.5 wrote
    them, comes back in milliseconds), whatever bytes follow it in the file. *)
Theorem record_roundtrip key value t f ts e rest :
  rec_fits key value ts e →
  verify_record (encode_record key value t f ts e) = true ∧
  ∃ c, parse_header (encode_record key value t f ts e ++ rest) =
  Some {| crc := c; k_size := str_len key; v_size := len value; ty := t; flags := f;
          timestamp := ts; expires_at := expiry_to_ms e |}.
Proof.
  intros Hf. rewrite encode_frame. split; [by apply verify_frame, plain_fits|].
  eexists. by apply parse_frame, plain_fits.
Qed.

(** A record of which the end is missing never passes [verify_record],
    wherever it was cut. *)
Theorem verify_record_cut r n :
  fits r → 0 ≤ n < len (frame_bytes r) → verify_record (take (Z.to_nat n) (frame_bytes r)) = false.
Proof.
  intros Hf Hn. pose proof (parse_frame r [] Hf) as Hp. rewrite app_nil_r in Hp.
  pose proof (frame_bytes_len r Hf) as Hlen. set (b := frame_bytes r) in *. unfold verify_record.
  assert (len (take (Z.to_nat n) b) = n) as Hl by (unfold len in *; rewrite length_take; lia).
  rewrite Hl. destruct (Z.ltb_spec n REC_HEADER_LEN); [done|].
  rewrite parse_header_take by (unfold REC_HEADER_LEN in *; lia).
  rewrite Hp, frame_header_total. replace (_ =? n) with false; [done|]. symmetry. apply Z.eqb_neq. lia.
Qed.

Lemma format_needed_frames rs :
  Forall fits rs →
  format_needed (log_bytes rs) =
  Some (List.fold_left (fun need r => Z.max need (format_for_record (f_ty r) (f_flags r))) rs FORMAT_V1).
Proof.
  intros Hf. unfold format_needed. generalize FORMAT_V1 as need.
  assert (length (log_bytes rs) < S (length (log_bytes rs)))%nat as Hfuel by lia. revert Hfuel.
  generalize (S (length (log_bytes rs))) as fuel.
  induction Hf as [|r rs Hr Hf IH]; intros fuel Hfuel need.
  - destruct fuel; [simpl in Hfuel; lia|]. done.
  - destruct fuel as [|fuel]; [lia|]. rewrite log_bytes_cons in *. cbn [format_needed_loop].
    pose proof (frame_bytes_len r Hr) as Hl. pose proof (frame_len_ge r Hr) as Hg.
    rewrite len_app, Hl. pose proof (len_nonneg (log_bytes rs)).
    rewrite ltb_f by (unfold REC_HEADER_LEN; lia).
    rewrite parse_frame by exact Hr. cbn [mbind option_bind].
    rewrite frame_header_total. cbn [ty flags frame_header]. rewrite ltb_f by lia.
    rewrite drop_app_len by (unfold len in *; lia).
    apply IH. rewrite length_app in Hfuel. unfold len in *. lia.
Qed.
Lemma format_for_record_range t f : 1 ≤ format_for_record t f ≤ 3.
Proof. unfold format_for_record, FORMAT_V1. destruct (has_flag f FLAG_KDOC); [lia|]. destruct (8 <=? t); lia. Qed.
Lemma format_needed_range rs n :
  Forall fits rs → format_needed (log_bytes rs) = Some n → 1 ≤ n ≤ 3.
Proof.
  intros Hf. rewrite format_needed_frames by done. intros [= <-].
  assert (1 ≤ FORMAT_V1 ≤ 3) as H1 by (unfold FORMAT_V1; lia). revert H1. generalize FORMAT_V1 as a. clear Hf.
  induction rs as [|r rs IH]; intros a Ha; [done|]. simpl. apply IH. pose proof (format_for_record_range (f_ty r) (f_flags r)). lia.
Qed.

(** Over whole records, [format_needed] ends and gives the highest format
    that one of them needs, format 1 when none needs more: the format the file
    header is raised to before they are written. *)
Theorem format_needed_records rs :
  Forall fits rs →
  format_needed (log_bytes rs) =
  Some (List.fold_left (fun need r => Z.max need (format_for_record (f_ty r) (f_flags r))) rs FORMAT_V1).
Proof. apply format_needed_frames. Qed.
End format.

Lemma parse_of_file_header file_id format rest :
  in_u 64 file_id → in_u 32 format →
  parse_file_header (file_header file_id format ++ rest) =
  if (FORMAT_V1 <=? format) && (format <=? FORMAT_VERSION) then Ok (file_id, format)
  else Err "unsupported storage format {version}"%string.
Proof.
  intros Hi Hf. unfold parse_file_header, file_header.
  rewrite <- !app_assoc. set (F := le_bytes 4 _). set (I := le_bytes 8 _).
  assert (len F = 4 ∧ len I = 8 ∧ len MAGIC = 4) as (LF & LI & LM)
    by (unfold len; subst F I; by rewrite !le_bytes_length).
  rewrite !len_app, LF, LI, LM. pose proof (len_nonneg rest).
  rewrite ltb_f by (unfold FILE_HEADER_LEN; lia).
  rewrite (take_app_len MAGIC) by done. rewrite bool_decide_true by done. cbn [orb negb].
  rewrite (slice_drop MAGIC), LM by lia. rewrite (slice_front F) by (done || lia).
  rewrite (slice_drop MAGIC), (slice_drop F), LM, LF by lia. rewrite (slice_front I) by (done || lia).
  subst F I. rewrite le_val_u32, le_val_u64 by done. by destruct (_ && _).
Qed.

(** A file header is read back; a format newer than this build's is refused. *)
Theorem file_header_roundtrip file_id format rest :
  in_u 64 file_id → in_u 32 format →
  parse_file_header (file_header file_id format ++ rest) =
  if (FORMAT_V1 <=? format) && (format <=? FORMAT_VERSION) then Ok (file_id, format)
  else Err "unsupported storage format {version}"%string.
Proof. apply parse_of_file_header. Qed.

Lemma file_header_roundtrip_witness :
  in_u 64 77 ∧ in_u 32 3 ∧ parse_file_header (file_header 77 3 ++ [1; 2]) = Ok (77, 3).
Proof.
  assert (in_u 64 77) as H1 by (by vm_compute). assert (in_u 32 3) as H2 by (by vm_compute).
  exact (conj H1 (conj H2 (file_header_roundtrip 77 3 [1; 2] H1 H2))).
Defined.

(** ** The CRC-32 of [crc32fast], bit by bit, for evaluation *)
Fixpoint crc_bits (n : nat) (c : Z) : Z :=
  match n with
  | O => c
  | S n => crc_bits n (if Z.odd c then Z.lxor (Z.shiftr c 1) 0xEDB88320 else Z.shiftr c 1)
  end.
Definition crc32_ieee (b : bytes) : Z :=
  wrap 32 (Z.lxor (List.fold_left (fun c x => crc_bits 8 (Z.lxor c x)) b 0xFFFFFFFF) 0xFFFFFFFF).
#[export] Instance ieee_crc : Crc.
Proof. refine {| crc32 := crc32_ieee |}. intros. by apply wrap_in_u. Defined.

Example crc32_check : crc32_ieee (lit "123456789") = 0xCBF43926.
Proof. by vm_compute. Qed.

Definition sample_rec : Frame := plain_frame (lit "k") [49] 9 0 1700 5.
Lemma sample_fits : fits sample_rec.
Proof. split; by vm_compute. Qed.

Lemma record_roundtrip_witness :
  rec_fits (lit "k") [49] 1700 5 ∧ verify_record (encode_record (lit "k") [49] 9 0 1700 5) = true.
Proof.
  assert (rec_fits (lit "k") [49] 1700 5) as H by (split; by vm_compute).
  exact (conj H (proj1 (record_roundtrip (lit "k") [49] 9 0 1700 5 [] H))).
Defined.

Lemma verify_record_cut_witness :
  fits sample_rec ∧ 0 ≤ 29 < len (frame_bytes sample_rec) ∧
  verify_record (take (Z.to_nat 29) (frame_bytes sample_rec)) = false.
Proof.
  assert (0 ≤ 29 < len (frame_bytes sample_rec)) as H by (by vm_compute).
  exact (conj sample_fits (conj H (verify_record_cut sample_rec 29 sample_fits H))).
Defined.

Lemma format_needed_records_witness :
  Forall fits [sample_rec] ∧ format_needed (log_bytes [sample_rec]) = Some 2.
Proof.
  assert (Forall fits [sample_rec]) as H by (repeat constructor; apply sample_fits).
  exact (conj H (format_needed_records [sample_rec] H)).
Defined.
