(* ===== verification/Crypt.v ===== *)
(** * [src/crypt.rs]: records encrypted at rest

    AES-256-GCM ([ring::aead]) and the key derivation are parameters: the class
    [Aead] gives the two operations, [AeadLaws] the documented behaviour used.
    The random nonce is an argument; [None] when the system generator fails. *)
From S2P Require Import Prelude Utf8 Util Types Compress Format.
Open Scope Z_scope.

Definition TAG_LEN : Z := 16.
Definition NONCE_LEN : Z := 12.
Definition TRAILER : Z := 16 + NONCE_LEN + 4.

Inductive Domain := Record_ | Hint_ | Graphs | Changes.
Definition label (d : Domain) : bytes :=
  match d with
  | Record_ => lit "kivadb record v1"
  | Hint_ => lit "kivadb hint v1"
  | Graphs => lit "kivadb graphs v1"
  | Changes => lit "kivadb changes v1"
  end.

Inductive OpenError := NoKey | UnknownKey (id : bytes) | Tampered.
#[export] Instance OpenError_eq : EqDecision OpenError.
Proof. solve_decision. Defined.

Definition into_error (e : OpenError) : KivaError :=
  match e with
  | NoKey => Denied "{what} is encrypted: start KivaDB with its key in {KEY_ENV} or encryption.key_file"
  | UnknownKey _ => Denied "{what} is encrypted with key {}, which this server does not have (current key: see 'encryption')"
  | Tampered => Corrupted "{what} fails authentication: it was modified or damaged"
  end.

(** [ring::aead]: [seal] gives the ciphertext and its tag. *)
Class Aead := {
  AeadKey : Type;
  aead_seal : AeadKey → bytes → bytes → bytes → bytes * bytes;
  aead_open : AeadKey → bytes → bytes → bytes → bytes → option bytes;
}.
Class AeadLaws `{Aead} := {
  aead_tag_len : ∀ k n a d, len (aead_seal k n a d).2 = TAG_LEN;
  aead_ct_len : ∀ k n a d, len (aead_seal k n a d).1 = len d;
  aead_open_seal : ∀ k n a d, aead_open k n a (aead_seal k n a d).2 (aead_seal k n a d).1 = Some d;
}.

Section crypt.
  Context `{Aead}.

Record Key := { id : bytes; aead : AeadKey }.
Record Keys := { current : Key; old : list Key }.

(** The first key of the chain with that id. *)
Definition find_key (ks : Keys) (i : bytes) : option Key := List.find (fun k => bool_decide (id k = i)) (current ks :: old ks).

Definition aad (domain : Domain) (extra i : bytes) : bytes := label domain ++ extra ++ i.

Definition NONCE_ERR : KivaError := Other "ERR_RANDOM_UNAVAILABLE: the operating system's random generator failed ({why}); nothing was done".

Definition seal (ks : Keys) (domain : Domain) (extra : bytes) (nonce : option bytes) (data : bytes) : result KivaError bytes :=
  n ← ok_or nonce NONCE_ERR;
  let key := current ks in
  let '(ct, tag) := aead_seal (aead key) n (aad domain extra (id key)) data in
  Ok (ct ++ tag ++ n ++ id key).

Definition sealed_key_id (sealed : bytes) : option bytes :=
  if len sealed <? 4 then None else Some (drop (Z.to_nat (len sealed - 4)) sealed).

Definition open_with (ks : option Keys) (domain : Domain) (extra sealed : bytes) : result OpenError bytes :=
  if len sealed <? TRAILER then Err Tampered
  else
    ks ← ok_or ks NoKey;
    let n := len sealed - TRAILER in
    let i := drop (Z.to_nat (n + TAG_LEN + NONCE_LEN)) sealed in
    key ← ok_or (find_key ks i) (UnknownKey i);
    let nonce := slice (n + TAG_LEN) (n + TAG_LEN + NONCE_LEN) sealed in
    let tag := slice n (n + TAG_LEN) sealed in
    ok_or (aead_open (aead key) nonce (aad domain extra i) tag (take (Z.to_nat n) sealed)) Tampered.

Context `{Crc}.

Definition encode_record (ks : option Keys) (key : str) (value : bytes) (ty flags timestamp expires_at : Z)
    (nonce : option bytes) : result KivaError bytes :=
  match ks with
  | None => Ok (Format.encode_record key value ty flags timestamp expires_at)
  | Some ks =>
    let k := utf8 key in
    let flags := Z.lor flags FLAG_ENCRYPTED in
    let head := rec_head (len k) (len value + TRAILER) ty flags timestamp expires_at in
    body ← seal ks Record_ head nonce (k ++ value);
    Ok (with_crc (head ++ body))
  end.

(** The key and stored value of a whole record whose checksum was verified:
    the callers give at least the bytes its header announces, so that no index
    of the code is out of range. *)
Definition open_record (ks : option Keys) (rec : bytes) : result OpenError (bytes * bytes) :=
  match parse_header rec with
  | None => Err Tampered
  | Some h =>
    let k := Z.to_nat (k_size h) in
    let body := drop (Z.to_nat REC_HEADER_LEN) rec in
    if negb (has_flag (flags h) FLAG_ENCRYPTED) then Ok (take k body, drop k body)
    else
      plain ← open_with ks Record_ (slice 4 REC_HEADER_LEN rec) body;
      if len plain <? k_size h then Err Tampered else Ok (take k plain, drop k plain)
  end.

(** ** Opening what was sealed *)
Context `{!AeadLaws}.

(** A sealed piece, apart. *)
Lemma open_with_parts ks d x ct tag n i :
  len tag = TAG_LEN → len n = NONCE_LEN → len i = 4 →
  open_with (Some ks) d x (ct ++ tag ++ n ++ i) =
  (key ← ok_or (find_key ks i) (UnknownKey i); ok_or (aead_open (aead key) n (aad d x i) tag ct) Tampered).
Proof.
  intros Lt Ln Li. unfold open_with. unfold TAG_LEN, NONCE_LEN in Lt, Ln.
  pose proof (len_nonneg ct). rewrite !len_app, Lt, Ln, Li.
  unfold TRAILER, TAG_LEN, NONCE_LEN. rewrite ltb_f by lia. cbn [ok_or mbind result_bind].
  replace (len ct + (16 + (12 + 4)) - (16 + 12 + 4)) with (len ct) by lia.
  assert (drop (Z.to_nat (len ct + 16 + 12)) (ct ++ tag ++ n ++ i) = i) as ->.
  { rewrite !app_assoc. apply drop_app_len. rewrite !length_app. unfold len in *. lia. }
  rewrite !(slice_drop ct) by lia. rewrite (slice_drop tag), Lt by lia.
  rewrite !(slice_front tag), (slice_front n) by lia.
  by rewrite take_app_len by (unfold len; lia).
Qed.

Lemma seal_ok ks d x n data :
  seal ks d x (Some n) data =
  Ok ((aead_seal (aead (current ks)) n (aad d x (id (current ks))) data).1
      ++ (aead_seal (aead (current ks)) n (aad d x (id (current ks))) data).2 ++ n ++ id (current ks)).
Proof. unfold seal. simpl. by destruct (aead_seal _ _ _ _). Qed.

Record nonce_ok (ks : Keys) (n : bytes) : Prop := {
  no_nonce : len n = NONCE_LEN;
  no_id : len (id (current ks)) = 4;
}.

Lemma open_seal ks ks' d x n data sealed :
  nonce_ok ks n → find_key ks' (id (current ks)) = Some (current ks) →
  seal ks d x (Some n) data = Ok sealed → open_with (Some ks') d x sealed = Ok data.
Proof.
  intros [Hn Hi] Hf Hs. rewrite seal_ok in Hs. injection Hs as <-.
  rewrite open_with_parts by (done || apply aead_tag_len). rewrite Hf. simpl. by rewrite aead_open_seal.
Qed.

(** The frame [encode_record] writes. *)
Definition sealed_frame (ks : Keys) (key : str) (value : bytes) (ty fl ts exp : Z) (n : bytes) : Frame :=
  let head := rec_head (str_len key) (len value + TRAILER) ty (Z.lor fl FLAG_ENCRYPTED) ts exp in
  let s := aead_seal (aead (current ks)) n (aad Record_ head (id (current ks))) (utf8 key ++ value) in
  {| f_klen := str_len key; f_vlen := len value + TRAILER; f_ty := ty; f_flags := Z.lor fl FLAG_ENCRYPTED;
     f_ts := ts; f_exp := exp; f_body := s.1 ++ s.2 ++ n ++ id (current ks) |}.
Definition record_frame (ks : option Keys) (key : str) (value : bytes) (ty fl ts exp : Z) (n : bytes) : Frame :=
  match ks with
  | None => plain_frame key value ty fl ts exp
  | Some ks => sealed_frame ks key value ty fl ts exp n
  end.
Definition keys_ok (ks : option Keys) (n : bytes) : Prop := match ks with None => True | Some ks => nonce_ok ks n end.
Record fits_record (key : str) (value : bytes) (ts exp : Z) : Prop := {
  fr_key : in_u 16 (str_len key);
  fr_value : in_u 32 (len value + TRAILER);
  fr_ts : in_i64 ts;
  fr_exp : in_i64 exp;
}.

Lemma encode_record_frame ks key value t f ts e n :
  encode_record ks key value t f ts e (Some n) = Ok (frame_bytes (record_frame ks key value t f ts e n)).
Proof. destruct ks as [ks|]; [|done]. unfold encode_record. by rewrite seal_ok. Qed.

Lemma record_frame_fits ks key value t f ts e n :
  keys_ok ks n → fits_record key value ts e → fits (record_frame ks key value t f ts e n).
Proof.
  intros Hk [Hkey [Hv0 Hv] Hts Hex]. destruct ks as [ks|]; split; simpl; try done.
  - rewrite !len_app, aead_ct_len, aead_tag_len, len_app. destruct Hk as [-> ->].
    unfold str_len, TRAILER, TAG_LEN. lia.
  - unfold in_u, TRAILER, NONCE_LEN in *. pose proof (len_nonneg value). lia.
  - by rewrite len_app.
Qed.

(** The two readings of the header byte. *)
Lemma has_flag_encrypted f : has_flag (Z.lor f FLAG_ENCRYPTED) FLAG_ENCRYPTED = true.
Proof. rewrite has_flag_lor. apply orb_true_r. Qed.

Lemma open_frame_plain ks r :
  fits r → has_flag (f_flags r) FLAG_ENCRYPTED = false →
  open_record ks (frame_bytes r) = Ok (take (Z.to_nat (f_klen r)) (f_body r), drop (Z.to_nat (f_klen r)) (f_body r)).
Proof.
  intros Hf Hp. unfold open_record. pose proof (parse_frame r [] Hf) as E. rewrite app_nil_r in E. rewrite E. cbn [flags frame_header k_size].
  rewrite Hp. simpl negb. cbn iota. unfold frame_bytes, with_crc. rewrite app_assoc, drop_app_len; [done|].
  rewrite length_app, le_bytes_length. pose proof (rec_head_len (f_klen r) (f_vlen r) (f_ty r) (f_flags r) (f_ts r) (f_exp r)) as Hl.
  unfold frame_head, len, REC_HEADER_LEN in *. lia.
Qed.
Lemma open_frame_sealed ks r :
  fits r → has_flag (f_flags r) FLAG_ENCRYPTED = true →
  open_record ks (frame_bytes r) =
  (plain ← open_with ks Record_ (frame_head r) (f_body r);
   if len plain <? f_klen r then Err Tampered
   else Ok (take (Z.to_nat (f_klen r)) plain, drop (Z.to_nat (f_klen r)) plain)).
Proof.
  intros Hf Hp. unfold open_record. pose proof (parse_frame r [] Hf) as E. rewrite app_nil_r in E. rewrite E. cbn [flags frame_header k_size].
  rewrite Hp. simpl negb. cbn iota.
  pose proof (rec_head_len (f_klen r) (f_vlen r) (f_ty r) (f_flags r) (f_ts r) (f_exp r)) as Hl.
  fold (frame_head r) in Hl. unfold frame_bytes, with_crc. set (c := le_bytes 4 _).
  assert (len c = 4) as Hc by (unfold len, c; by rewrite le_bytes_length).
  rewrite (slice_field c) by (unfold REC_HEADER_LEN; lia).
  rewrite app_assoc, drop_app_len; [done|]. rewrite length_app. unfold len, REC_HEADER_LEN in *. lia.
Qed.

Lemma open_record_frame ks ks' key value t f ts e n :
  keys_ok ks n → fits_record key value ts e →
  match ks with
  | None => has_flag f FLAG_ENCRYPTED = false
  | Some k => ∃ k', ks' = Some k' ∧ find_key k' (id (current k)) = Some (current k)
  end →
  open_record ks' (frame_bytes (record_frame ks key value t f ts e n)) = Ok (utf8 key, value).
Proof.
  intros Hk Hf Hks. pose proof (record_frame_fits ks key value t f ts e n Hk Hf) as Hff.
  assert (take (Z.to_nat (str_len key)) (utf8 key ++ value) = utf8 key ∧
          drop (Z.to_nat (str_len key)) (utf8 key ++ value) = value) as [E1 E2].
  { unfold str_len. split; [apply take_app_len|apply drop_app_len]; unfold len; lia. }
  destruct ks as [k|]; simpl in *.
  - destruct Hks as (k' & -> & Hfk). rewrite open_frame_sealed by (done || apply has_flag_encrypted).
    rewrite (open_seal k k' _ _ n (utf8 key ++ value)); [|done|done|by rewrite seal_ok].
    simpl. rewrite E1, E2, len_app. unfold str_len. pose proof (len_nonneg value). by rewrite ltb_f by lia.
  - rewrite open_frame_plain by done. simpl. by rewrite E1, E2.
Qed.

(** Whatever [encode_record] writes, in the clear or encrypted, passes the
    checksum and gives its key and value back to every instance that holds the
    key it was sealed with (as the current key or, after a rotation, an old one). *)
Theorem encode_open_record ks ks' key value t f ts e n rec :
  keys_ok ks n → fits_record key value ts e →
  match ks with
  | None => has_flag f FLAG_ENCRYPTED = false
  | Some k => ∃ k', ks' = Some k' ∧ find_key k' (id (current k)) = Some (current k)
  end →
  encode_record ks key value t f ts e (Some n) = Ok rec →
  verify_record rec = true ∧ open_record ks' rec = Ok (utf8 key, value).
Proof.
  intros Hk Hf Hks. rewrite encode_record_frame. intros [= <-]. split.
  - by apply verify_frame, record_frame_fits.
  - by apply open_record_frame.
Qed.

(** Without a nonce from the system nothing is encrypted and nothing is
    written; and an instance without the key reads none of it: it reports the
    key that is missing. *)
Theorem sealed_needs_key ks key value t f ts e n rec :
  nonce_ok ks n → fits_record key value ts e →
  encode_record (Some ks) key value t f ts e (Some n) = Ok rec →
  encode_record (Some ks) key value t f ts e None = Err NONCE_ERR ∧
  open_record None rec = Err NoKey ∧
  ∀ ks', find_key ks' (id (current ks)) = None → open_record (Some ks') rec = Err (UnknownKey (id (current ks))).
Proof.
  intros Hn Hf. rewrite encode_record_frame. intros [= <-]. split; [done|].
  pose proof (record_frame_fits (Some ks) key value t f ts e n Hn Hf) as Hff. simpl in *.
  rewrite open_frame_sealed by (done || apply has_flag_encrypted). split.
  - unfold open_with. destruct Hff as [? ? ? ? Hb]. simpl in Hb |- *. rewrite Hb.
    unfold str_len. pose proof (len_nonneg (utf8 key)). pose proof (len_nonneg value). by rewrite ltb_f by lia.
  - intros ks' Hno. destruct Hn as [Hn Hi]. rewrite open_frame_sealed by (done || apply has_flag_encrypted).
    simpl. rewrite open_with_parts by (done || apply aead_tag_len). by rewrite Hno.
Qed.
End crypt.

(** ** A transparent cipher, to evaluate: the tag encodes the key, nonce and AAD *)
#[export] Instance toy_aead : Aead := {|
  AeadKey := Z;
  aead_seal := fun k n a d => (List.map (Z.lxor k) d, Z.pos (encode (k, n, a, d)) :: repeat 0 15);
  aead_open := fun k n a t c =>
    let d := List.map (Z.lxor k) c in
    if bool_decide (t = Z.pos (encode (k, n, a, d)) :: repeat 0 15) then Some d else None;
|}.
Lemma map_lxor_twice k d : List.map (Z.lxor k) (List.map (Z.lxor k) d) = d.
Proof.
  rewrite List.map_map. rewrite <- (List.map_id d) at 2. apply List.map_ext. intros x.
  by rewrite <- Z.lxor_assoc, Z.lxor_nilpotent, Z.lxor_0_l.
Qed.
#[export] Instance toy_aead_laws : AeadLaws.
Proof.
  split; simpl; intros; [done|unfold len; by rewrite List.length_map|].
  by rewrite map_lxor_twice, bool_decide_true.
Qed.

Definition toy_keys (k : Z) : Keys := {| current := {| id := [k; 0; 0; 0]; aead := k |}; old := [] |}.
Definition toy_nonce : bytes := repeat 7 12.
Lemma toy_nonce_ok k : nonce_ok (toy_keys k) toy_nonce.
Proof. split; by vm_compute. Qed.

Lemma encode_open_record_witness :
  fits_record (lit "k") [1; 2] 1700 0 ∧
  ∃ rec, encode_record (Some (toy_keys 5)) (lit "k") [1; 2] 9 0 1700 0 (Some toy_nonce) = Ok rec ∧
         open_record (Some (toy_keys 5)) rec = Ok (lit "k", [1; 2]).
Proof.
  assert (fits_record (lit "k") [1; 2] 1700 0) as H by (split; by vm_compute).
  refine (conj H (ex_intro _ _ (conj (encode_record_frame _ _ _ _ _ _ _ _) _))).
  refine (proj2 (encode_open_record (Some (toy_keys 5)) (Some (toy_keys 5)) (lit "k") [1; 2] 9 0 1700 0
    toy_nonce _ (toy_nonce_ok 5) H _ (encode_record_frame _ _ _ _ _ _ _ _))).
  exists (toy_keys 5). by vm_compute.
Defined.

Lemma sealed_needs_key_witness :
  fits_record (lit "k") [1; 2] 1700 0 ∧
  ∃ rec, encode_record (Some (toy_keys 5)) (lit "k") [1; 2] 9 0 1700 0 (Some toy_nonce) = Ok rec ∧
         open_record (Some (toy_keys 6)) rec = Err (UnknownKey [5; 0; 0; 0]).
Proof.
  assert (fits_record (lit "k") [1; 2] 1700 0) as H by (split; by vm_compute).
  refine (conj H (ex_intro _ _ (conj (encode_record_frame _ _ _ _ _ _ _ _) _))).
  refine (proj2 (proj2 (sealed_needs_key (toy_keys 5) (lit "k") [1; 2] 9 0 1700 0
    toy_nonce _ (toy_nonce_ok 5) H (encode_record_frame _ _ _ _ _ _ _ _))) (toy_keys 6) _).
  by vm_compute.
Defined.
