(* ===== verification/Log.v ===== *)
(** * [src/engine.rs], recovery: the log is replayed from the start

    [scan_log] reads the file record by record. The bytes from the current
    position are the argument [rest]; [file_len - pos] is their length. *)
From S2P Require Import Prelude Utf8 Util Types Compress Format Crypt.
Open Scope Z_scope.

(** Where a key's latest record lives. *)
Record Entry := {
  offset : Z;
  ek_size : Z;
  ev_size : Z;
  raw_size : Z;
  e_ty : Type_;
  e_flags : Z;
  e_timestamp : Z;
  e_expires_at : Z;
  version : Z;
}.
#[export] Instance Entry_eq : EqDecision Entry.
Proof. solve_decision. Defined.

Definition rec_len (e : Entry) : Z := REC_HEADER_LEN + ek_size e + ev_size e.
Definition is_expired (e : Entry) (now : Z) : bool := (0 <? e_expires_at e) && (e_expires_at e <=? now).
Definition doc_enc (e : Entry) : DocEnc := DocEnc_from_flags (e_flags e).
Definition set_version (v : Z) (e : Entry) : Entry :=
  {| offset := offset e; ek_size := ek_size e; ev_size := ev_size e; raw_size := raw_size e; e_ty := e_ty e;
     e_flags := e_flags e; e_timestamp := e_timestamp e; e_expires_at := e_expires_at e; version := v |}.

Abbreviation Index := (gmap str Entry).
(** A key and what becomes of it: an entry, or [None] when it is deleted. *)
Definition Change : Type := str * option Entry.

Record ScanState := {
  s_index : Index;
  s_seq : Z;
  s_pos : Z;
  s_corrupted : Z;
  s_pending : list Change;
  s_pending_start : Z;
}.
Inductive ScanStep := Next (s : ScanState) (rest : bytes) | Stop | Fail (e : KivaError).
Record ScanOutcome := { so_index : Index; so_seq : Z; so_end : Z; so_corrupted : Z }.

(** The closure [apply]. *)
Definition apply_change (st : Index * Z) (c : Change) : Index * Z :=
  let '(index, seq) := st in
  let seq := seq + 1 in
  match c.2 with
  | Some e => (<[c.1 := set_version seq e]> index, seq)
  | None => (delete c.1 index, seq)
  end.
Definition apply_changes (st : Index * Z) (cs : list Change) : Index * Z := List.fold_left apply_change cs st.

Section scan.
  Context `{Aead} `{Crc}.
  Variable keys : option Keys.
  Variable require_encryption : bool.

(** The key and the stored value of a record, decrypted if need be. *)
Definition scan_open (h : RecHeader) (hdr body : bytes) : result KivaError (option (bytes * bytes)) :=
  if negb (crc32 (drop 4 hdr ++ body) =? crc h) then Ok None
  else if has_flag (flags h) FLAG_ENCRYPTED then
    match open_record keys (hdr ++ body) with
    | Ok kv => Ok (Some kv)
    | Err Tampered => Ok None
    | Err e => Err (into_error e)
    end
  else if require_encryption then
    Err (Denied "encryption.required is on, but the data file holds an unencrypted record at byte {pos}")
  else
    let k := Z.to_nat (k_size h) in Ok (Some (take k body, drop k body)).

Definition scan_raw_size (h : RecHeader) (stored : bytes) : Z :=
  let comp := has_flag (flags h) FLAG_COMP_MASK in
  if comp && (4 <=? len stored) then le_val (take 4 stored) else wrap 32 (len stored).

Definition scan_entry (h : RecHeader) (pos : Z) (ty : Type_) (stored : bytes) : Entry := {|
  offset := pos; ek_size := k_size h; ev_size := v_size h; raw_size := scan_raw_size h stored; e_ty := ty;
  e_flags := flags h; e_timestamp := timestamp h; e_expires_at := expires_at h; version := 0 |}.

(** A valid record: its change waits for its batch or is applied. *)
Definition scan_accept (s : ScanState) (h : RecHeader) (c : Change) : ScanState :=
  let pos := s_pos s + total_len h in
  if has_flag (flags h) FLAG_TXN then
    let pending_start := match s_pending s with [] => s_pos s | _ => s_pending_start s end in
    let pending := s_pending s ++ [c] in
    if has_flag (flags h) FLAG_TXN_COMMIT then
      let '(index, seq) := apply_changes (s_index s, s_seq s) pending in
      {| s_index := index; s_seq := seq; s_pos := pos; s_corrupted := s_corrupted s;
         s_pending := []; s_pending_start := pending_start |}
    else
      {| s_index := s_index s; s_seq := s_seq s; s_pos := pos; s_corrupted := s_corrupted s;
         s_pending := pending; s_pending_start := pending_start |}
  else
    let '(index, seq) := apply_change (s_index s, s_seq s) c in
    {| s_index := index; s_seq := seq; s_pos := pos; s_corrupted := s_corrupted s;
       s_pending := []; s_pending_start := s_pending_start s |}.

(** A record that does not check out, with more of the file after it. *)
Definition scan_skip (s : ScanState) (h : RecHeader) : ScanState :=
  {| s_index := s_index s; s_seq := s_seq s; s_pos := s_pos s + total_len h; s_corrupted := s_corrupted s + 1;
     s_pending := []; s_pending_start := s_pending_start s |}.

(** The key and change of a record, when it is valid. *)
Definition scan_change (h : RecHeader) (pos : Z) (opened : option (bytes * bytes)) : option Change :=
  kv ← opened;
  key ← from_utf8 (kv.1);
  if has_flag (flags h) FLAG_TOMBSTONE then Some (key, None)
  else ty ← Type_from_u8 (ty h); Some (key, Some (scan_entry h pos ty (kv.2))).

(** One turn of the loop. *)
Definition scan_step (s : ScanState) (rest : bytes) : ScanStep :=
  if len rest <? REC_HEADER_LEN then Stop (* torn header, or the end *)
  else
    match parse_header rest with
    | None => Stop
    | Some h =>
      let total := total_len h in
      if (k_size h =? 0) || (len rest <? total) then Stop (* torn or unframed record *)
      else
        let hdr := take (Z.to_nat REC_HEADER_LEN) rest in
        let body := slice REC_HEADER_LEN total rest in
        let rest' := drop (Z.to_nat total) rest in
        match scan_open h hdr body with
        | Err e => Fail e
        | Ok opened =>
          match scan_change h (s_pos s) opened with
          | Some c => Next (scan_accept s h c) rest'
          | None => if len rest =? total then Stop (* last record: a torn write *) else Next (scan_skip s h) rest'
          end
        end
    end.

(** A batch without its commit record never happened. *)
Definition scan_outcome (s : ScanState) : ScanOutcome := {|
  so_index := s_index s; so_seq := s_seq s;
  so_end := match s_pending s with [] => s_pos s | _ => s_pending_start s end;
  so_corrupted := s_corrupted s |}.

(** [None]: out of fuel. *)
Fixpoint scan_loop (fuel : nat) (s : ScanState) (rest : bytes) : option (result KivaError ScanOutcome) :=
  match fuel with
  | O => None
  | S fuel =>
    match scan_step s rest with
    | Stop => Some (Ok (scan_outcome s))
    | Fail e => Some (Err e)
    | Next s rest => scan_loop fuel s rest
    end
  end.

Definition scan_start (index : Index) (seq start : Z) : ScanState :=
  {| s_index := index; s_seq := seq; s_pos := start; s_corrupted := 0; s_pending := []; s_pending_start := 0 |}.

Definition scan_log (rest : bytes) (start : Z) (index : Index) (seq : Z) : option (result KivaError ScanOutcome) :=
  scan_loop (S (length rest)) (scan_start index seq start) rest.

(** ** The scan ends *)
Lemma parse_header_total b h : all_bytes b → parse_header b = Some h → 28 ≤ total_len h.
Proof.
  intros Hb. unfold parse_header. destruct (_ <? _); [done|]. intros [= <-]. unfold total_len, REC_HEADER_LEN. simpl.
  pose proof (le_val_bound _ (slice_all_bytes 4 6 b Hb)). pose proof (le_val_bound _ (slice_all_bytes 6 10 b Hb)). lia.
Qed.

Lemma scan_accept_pos s h c : s_pos (scan_accept s h c) = s_pos s + total_len h.
Proof.
  unfold scan_accept. destruct (has_flag _ FLAG_TXN).
  - destruct (has_flag _ FLAG_TXN_COMMIT); [|done]. by destruct (apply_changes _ _).
  - by destruct (apply_change _ _).
Qed.

(** [scan_step] goes forward by whole records, inside the file. *)
Lemma scan_step_next s rest s' rest' :
  all_bytes rest → scan_step s rest = Next s' rest' →
  all_bytes rest' ∧ (length rest' < length rest)%nat ∧ s_pos s' + len rest' = s_pos s + len rest ∧
  (s_pending s' = [] ∨ s_pending_start s' = match s_pending s with [] => s_pos s | _ => s_pending_start s end).
Proof.
  intros Hb. unfold scan_step. destruct (Z.ltb_spec (len rest) REC_HEADER_LEN) as [|Hl]; [done|].
  destruct (parse_header rest) as [h|] eqn:Hp; [|done].
  destruct (k_size h =? 0); [done|]. cbn [orb].
  destruct (Z.ltb_spec (len rest) (total_len h)) as [|Ht]; [done|].
  pose proof (parse_header_total _ _ Hb Hp) as Hh.
  assert (len (drop (Z.to_nat (total_len h)) rest) = len rest - total_len h) as L
    by (unfold len in *; rewrite length_drop; lia).
  destruct (scan_open _ _ _) as [o|]; [|done].
  destruct (scan_change _ _ _) as [c|].
  - intros [= <- <-]. rewrite scan_accept_pos, L. split; [by apply Forall_drop|].
    split; [unfold len in *; lia|]. split; [lia|]. unfold scan_accept.
    destruct (has_flag _ FLAG_TXN); [destruct (has_flag _ FLAG_TXN_COMMIT)|].
    + left. by destruct (apply_changes _ _).
    + by right.
    + left. by destruct (apply_change _ _).
  - destruct (_ =? _); [done|]. intros [= <- <-]. simpl. rewrite L. split; [by apply Forall_drop|].
    split; [unfold len in *; lia|]. split; [lia|]. by left.
Qed.

Definition pending_in (s : ScanState) (start : Z) : Prop :=
  start ≤ s_pos s ∧ (s_pending s = [] ∨ start ≤ s_pending_start s ≤ s_pos s).

Lemma scan_loop_ends fuel s rest start :
  (length rest < fuel)%nat → all_bytes rest → pending_in s start →
  ∃ r, scan_loop fuel s rest = Some r ∧ ∀ o, r = Ok o → start ≤ so_end o ≤ s_pos s + len rest.
Proof.
  revert s rest. induction fuel as [|fuel IH]; intros s rest Hf Hb Hs; [lia|].
  cbn [scan_loop]. destruct (scan_step s rest) as [s' rest'| |e] eqn:E.
  - destruct (scan_step_next _ _ _ _ Hb E) as (Hb' & Hlen & Hpos & Hp).
    destruct (IH s' rest') as (r & Hr & Ho); [lia|done| |].
    + unfold pending_in in *. unfold len in Hpos. split; [lia|].
      destruct Hp as [->|Hp]; [by left|right]. rewrite Hp. destruct (s_pending s); [lia|].
      destruct Hs as [? [|]]; [done|]. lia.
    + exists r. split; [done|]. intros o Hro. specialize (Ho o Hro). lia.
  - eexists. split; [done|]. intros o [= <-]. unfold scan_outcome, pending_in in *. pose proof (len_nonneg rest).
    simpl. destruct (s_pending s) eqn:Ep; [lia|]. destruct Hs as [? [|]]; [done|]. lia.
  - eexists. split; [done|]. by intros o [=].
Qed.

(** C23: on any file whatever, recovery ends: it fails with an error or keeps a
    prefix of the file that ends between the start and the end of what it read. *)
Theorem scan_log_ends rest start index seq :
  all_bytes rest → 
  ∃ r, scan_log rest start index seq = Some r ∧ ∀ o, r = Ok o → start ≤ so_end o ≤ start + len rest.
Proof.
  intros Hb. apply scan_loop_ends; [lia|done|]. split; [done|]. by left.
Qed.

(** ** Records that are read back *)
(** A frame on the disk, with its key and what is stored under it. *)
Record Rec := { r_frame : Frame; r_key : str; r_stored : bytes }.
Record readable (r : Rec) : Prop := {
  rd_fits : fits (r_frame r);
  rd_key : 0 < f_klen (r_frame r);
  rd_open : scan_open (frame_header (r_frame r)) (take (Z.to_nat REC_HEADER_LEN) (frame_bytes (r_frame r)))
              (f_body (r_frame r)) = Ok (Some (utf8 (r_key r), r_stored r));
  rd_valid : valid_str (r_key r);
  rd_ty : has_flag (f_flags (r_frame r)) FLAG_TOMBSTONE = true ∨ is_Some (Type_from_u8 (f_ty (r_frame r)));
}.
Definition rec_change (r : Rec) (pos : Z) : Change :=
  (r_key r,
   if has_flag (f_flags (r_frame r)) FLAG_TOMBSTONE then None
   else ty ← Type_from_u8 (f_ty (r_frame r)); Some (scan_entry (frame_header (r_frame r)) pos ty (r_stored r))).
Definition txn (r : Rec) : bool := has_flag (f_flags (r_frame r)) FLAG_TXN.
Definition commit (r : Rec) : bool := has_flag (f_flags (r_frame r)) FLAG_TXN_COMMIT.
Definition recs_bytes (rs : list Rec) : bytes := log_bytes (List.map r_frame rs).
Definition recs_len (rs : list Rec) : Z := len (recs_bytes rs).
(** What the records change, each at its place in the file. *)
Fixpoint rec_changes (pos : Z) (rs : list Rec) : list Change :=
  match rs with
  | [] => []
  | r :: rs => rec_change r pos :: rec_changes (pos + frame_len (r_frame r)) rs
  end.

Lemma frame_body_slice f rest : fits f → slice REC_HEADER_LEN (frame_len f) (frame_bytes f ++ rest) = f_body f.
Proof.
  intros Hf. pose proof (rec_head_len (f_klen f) (f_vlen f) (f_ty f) (f_flags f) (f_ts f) (f_exp f)) as Hl.
  unfold frame_bytes, with_crc. rewrite <- !app_assoc, app_assoc.
  apply slice_field.
  - rewrite len_app. unfold frame_head. rewrite Hl. unfold len. by rewrite le_bytes_length.
  - rewrite (fit_body _ Hf). unfold frame_len. lia.
Qed.

Lemma scan_step_frame s r rest :
  readable r →
  scan_step s (frame_bytes (r_frame r) ++ rest) =
  Next (scan_accept s (frame_header (r_frame r)) (rec_change r (s_pos s))) rest.
Proof.
  intros [Hf Hk Ho Hv Ht]. unfold scan_step. pose proof (frame_len_ge _ Hf) as Hg.
  pose proof (frame_bytes_len _ Hf) as Hl. pose proof (len_nonneg rest) as Hr.
  rewrite len_app, Hl. rewrite ltb_f by (unfold REC_HEADER_LEN; lia).
  rewrite parse_frame by done. rewrite frame_header_total. cbn [k_size frame_header].
  rewrite (proj2 (Z.eqb_neq _ _)) by lia. rewrite ltb_f by lia. cbn [orb].
  rewrite take_app_le by (unfold len, REC_HEADER_LEN in *; lia).
  rewrite frame_body_slice by done. rewrite drop_app_len by (unfold len in *; lia).
  rewrite Ho. unfold scan_change. cbn [mbind option_bind fst snd].
  rewrite from_utf8_utf8 by done. cbn [mbind option_bind flags frame_header ty].
  unfold rec_change. destruct (has_flag (f_flags (r_frame r)) FLAG_TOMBSTONE); [done|].
  destruct Ht as [|[t Ht]]; [done|]. rewrite Ht. done.
Qed.

Lemma scan_step_cut s r n :
  fits (r_frame r) → 0 ≤ n < frame_len (r_frame r) → scan_step s (take (Z.to_nat n) (frame_bytes (r_frame r))) = Stop.
Proof.
  intros Hf Hn. unfold scan_step. pose proof (frame_bytes_len _ Hf) as Hl.
  assert (len (take (Z.to_nat n) (frame_bytes (r_frame r))) = n) as -> by (unfold len in *; rewrite length_take; lia).
  destruct (Z.ltb_spec n REC_HEADER_LEN); [done|].
  rewrite parse_header_take by (unfold REC_HEADER_LEN in *; lia).
  pose proof (parse_frame _ [] Hf) as Hp. rewrite app_nil_r in Hp. rewrite Hp, frame_header_total.
  rewrite (ltb_t n) by lia. by rewrite orb_true_r.
Qed.

(** ** Commits *)
(** A batch: its records carry [FLAG_TXN], the last one the commit mark. *)
Inductive batch : list Rec → Prop :=
| batch_last r : readable r → txn r = true → commit r = true → batch [r]
| batch_cons r rs : readable r → txn r = true → commit r = false → batch rs → batch (r :: rs).
(** What one write appends: a record of its own, or a batch. *)
Definition wf_commit (c : list Rec) : Prop := (∃ r, c = [r] ∧ readable r ∧ txn r = false) ∨ batch c.

Definition after_commit (s : ScanState) (c : list Rec) (pstart : Z) : ScanState :=
  let st := apply_changes (s_index s, s_seq s) (s_pending s ++ rec_changes (s_pos s) c) in
  {| s_index := st.1; s_seq := st.2; s_pos := s_pos s + recs_len c; s_corrupted := s_corrupted s;
     s_pending := []; s_pending_start := pstart |}.

Lemma recs_bytes_cons r rs : recs_bytes (r :: rs) = frame_bytes (r_frame r) ++ recs_bytes rs.
Proof. done. Qed.
Lemma recs_len_cons r rs : fits (r_frame r) → recs_len (r :: rs) = frame_len (r_frame r) + recs_len rs.
Proof. intros. unfold recs_len. by rewrite recs_bytes_cons, len_app, frame_bytes_len. Qed.
Lemma recs_bytes_app rs rs' : recs_bytes (rs ++ rs') = recs_bytes rs ++ recs_bytes rs'.
Proof. unfold recs_bytes. by rewrite List.map_app, log_bytes_app. Qed.
Lemma recs_len_app rs rs' : recs_len (rs ++ rs') = recs_len rs + recs_len rs'.
Proof. unfold recs_len. by rewrite recs_bytes_app, len_app. Qed.
Lemma recs_len_nonneg rs : 0 ≤ recs_len rs.
Proof. apply len_nonneg. Qed.
Lemma rec_changes_app pos rs rs' :
  Forall readable rs → rec_changes pos (rs ++ rs') = rec_changes pos rs ++ rec_changes (pos + recs_len rs) rs'.
Proof.
  intros Hr. revert pos. induction Hr as [|r rs Hr _ IH]; intros pos.
  - simpl. by rewrite Z.add_0_r.
  - simpl. rewrite IH, recs_len_cons by apply Hr. by rewrite Z.add_assoc.
Qed.
Lemma batch_readable c : batch c → Forall readable c.
Proof. induction 1; by constructor. Qed.
Lemma wf_commit_readable c : wf_commit c → Forall readable c.
Proof. intros [(r & -> & ? & _)|?]; [by constructor|by apply batch_readable]. Qed.

(** Accepting a record of a batch, before and at its commit mark. *)
Lemma scan_accept_txn s r :
  txn r = true → commit r = false →
  scan_accept s (frame_header (r_frame r)) (rec_change r (s_pos s)) =
  {| s_index := s_index s; s_seq := s_seq s; s_pos := s_pos s + frame_len (r_frame r); s_corrupted := s_corrupted s;
     s_pending := s_pending s ++ [rec_change r (s_pos s)];
     s_pending_start := match s_pending s with [] => s_pos s | _ => s_pending_start s end |}.
Proof.
  unfold txn, commit, scan_accept. cbn [flags frame_header]. by intros -> ->.
Qed.
Lemma scan_accept_last s r :
  readable r → (txn r = true ∧ commit r = true) ∨ (txn r = false ∧ s_pending s = []) →
  ∃ p, scan_accept s (frame_header (r_frame r)) (rec_change r (s_pos s)) = after_commit s [r] p.
Proof.
  intros Hr. unfold txn, commit, scan_accept, after_commit. cbn [flags frame_header rec_changes].
  rewrite recs_len_cons by apply Hr. replace (recs_len []) with 0 by done. rewrite Z.add_0_r.
  intros [[-> ->]|[-> ->]].
  - destruct (apply_changes _ _) eqn:E. eauto.
  - cbn [apply_changes app List.fold_left]. destruct (apply_change _ _) eqn:E. eauto.
Qed.

Lemma scan_loop_batch c : batch c → ∀ fuel s rest, (length (recs_bytes c ++ rest) < fuel)%nat →
  ∃ fuel' p, (length rest < fuel')%nat ∧ scan_loop fuel s (recs_bytes c ++ rest) = scan_loop fuel' (after_commit s c p) rest.
Proof.
  induction 1 as [r Hr Ht Hc|r rs Hr Ht Hc Hb IH]; intros fuel s rest Hf; rewrite recs_bytes_cons, <- app_assoc in *;
    (destruct fuel as [|fuel]; [lia|]); pose proof (frame_bytes_len _ (rd_fits _ Hr)) as Hl;
    pose proof (frame_len_ge _ (rd_fits _ Hr)) as Hg; rewrite length_app in Hf; cbn [scan_loop];
    rewrite scan_step_frame by done.
  - destruct (scan_accept_last s r Hr) as [p Hp]; [by left|]. rewrite Hp.
    exists fuel, p. split; [|done]. unfold len in *. simpl in *. lia.
  - rewrite scan_accept_txn by done.
    match goal with |- context [scan_loop fuel ?s' _] => destruct (IH fuel s' rest) as (fuel' & p & Hf' & ->) end.
    { unfold len in *. lia. }
    exists fuel', p. split; [done|]. f_equal. unfold after_commit. cbn [s_pending s_pos s_index s_seq s_corrupted rec_changes].
    rewrite <- app_assoc. cbn [app]. by rewrite recs_len_cons, Z.add_assoc by apply Hr.
Qed.
Lemma scan_loop_commit c s fuel rest :
  wf_commit c → s_pending s = [] → (length (recs_bytes c ++ rest) < fuel)%nat →
  ∃ fuel' p, (length rest < fuel')%nat ∧ scan_loop fuel s (recs_bytes c ++ rest) = scan_loop fuel' (after_commit s c p) rest.
Proof.
  intros [(r & -> & Hr & Ht)|Hb] Hs Hf; [|by apply scan_loop_batch].
  destruct fuel as [|fuel]; [lia|]. pose proof (frame_bytes_len _ (rd_fits _ Hr)) as Hl.
  pose proof (frame_len_ge _ (rd_fits _ Hr)) as Hg. rewrite recs_bytes_cons, <- app_assoc, length_app in *.
  cbn [scan_loop]. rewrite scan_step_frame by done.
  destruct (scan_accept_last s r Hr) as [p Hp]; [by right|]. rewrite Hp.
  exists fuel, p. split; [|done]. unfold len in *. simpl in *. lia.
Qed.

(** The end of the file falls inside a commit. *)
Lemma scan_loop_cut c : wf_commit c → ∀ fuel s n,
  (length (take (Z.to_nat n) (recs_bytes c)) < fuel)%nat → 0 ≤ n < recs_len c →
  scan_loop fuel s (take (Z.to_nat n) (recs_bytes c)) = Some (Ok (scan_outcome s)).
Proof.
  assert (∀ r rs fuel s n, readable r → (0 < fuel)%nat → 0 ≤ n < frame_len (r_frame r) →
    scan_loop fuel s (take (Z.to_nat n) (recs_bytes (r :: rs))) = Some (Ok (scan_outcome s))) as Hcut.
  { intros r rs fuel s n Hr Hf Hn. destruct fuel as [|fuel]; [lia|].
    pose proof (frame_bytes_len _ (rd_fits _ Hr)) as Hl. rewrite recs_bytes_cons, take_app_le by (unfold len in *; lia).
    cbn [scan_loop]. by rewrite scan_step_cut by (done || apply Hr). }
  assert (∀ r, readable r → recs_len [r] = frame_len (r_frame r)) as Hone.
  { intros r Hr. rewrite recs_len_cons by apply Hr. unfold recs_len. simpl. unfold len. simpl. lia. }
  intros [(r & -> & Hr & Ht)|Hb] fuel s n Hf Hn.
  { apply Hcut; [done|lia|]. by rewrite <- Hone. }
  revert fuel s n Hf Hn. induction Hb as [r Hr Ht Hc|r rs Hr Ht Hc Hb IH]; intros fuel s n Hf Hn.
  { apply Hcut; [done|lia|]. by rewrite <- Hone. }
  destruct (Z.lt_ge_cases n (frame_len (r_frame r))) as [Hlt|Hge]; [apply Hcut; [done|lia|lia]|].
  destruct fuel as [|fuel]; [lia|]. pose proof (frame_bytes_len _ (rd_fits _ Hr)) as Hl.
  pose proof (frame_len_ge _ (rd_fits _ Hr)) as Hg. rewrite recs_len_cons in Hn by apply Hr. rewrite recs_bytes_cons in *.
  rewrite take_app_ge in * by (unfold len in *; lia).
  replace (Z.to_nat n - length (frame_bytes (r_frame r)))%nat with (Z.to_nat (n - frame_len (r_frame r))) in *
    by (unfold len in *; lia).
  rewrite length_app in Hf. cbn [scan_loop]. rewrite scan_step_frame, scan_accept_txn by done.
  rewrite IH by (unfold len in *; lia). do 2 f_equal. unfold scan_outcome. cbn. f_equal.
  destruct (s_pending s); done.
Qed.

(** The commits that lie wholly in the first [n] bytes. *)
Fixpoint committed (n : Z) (cs : list (list Rec)) : list Rec :=
  match cs with
  | [] => []
  | c :: cs => if recs_len c <=? n then c ++ committed (n - recs_len c) cs else []
  end.

Definition replayed (rs : list Rec) (start : Z) (index : Index) (seq corrupted : Z) : ScanOutcome :=
  let st := apply_changes (index, seq) (rec_changes start rs) in
  {| so_index := st.1; so_seq := st.2; so_end := start + recs_len rs; so_corrupted := corrupted |}.

Lemma apply_changes_app st cs cs' : apply_changes st (cs ++ cs') = apply_changes (apply_changes st cs) cs'.
Proof. unfold apply_changes. by rewrite List.fold_left_app. Qed.

Lemma replayed_app c k start index seq n :
  Forall readable c →
  replayed (c ++ k) start index seq n =
  replayed k (so_end (replayed c start index seq n)) (so_index (replayed c start index seq n))
    (so_seq (replayed c start index seq n)) n.
Proof.
  intros Hc. unfold replayed. simpl. rewrite rec_changes_app, apply_changes_app, recs_len_app by done.
  rewrite <- (surjective_pairing (apply_changes _ (rec_changes _ c))). f_equal. lia.
Qed.

Lemma scan_loop_commits cs : Forall wf_commit cs → ∀ fuel s n, s_pending s = [] → 0 ≤ n →
  (length (take (Z.to_nat n) (recs_bytes (List.concat cs))) < fuel)%nat →
  scan_loop fuel s (take (Z.to_nat n) (recs_bytes (List.concat cs))) =
  Some (Ok (replayed (committed n cs) (s_pos s) (s_index s) (s_seq s) (s_corrupted s))).
Proof.
  induction 1 as [|c cs Hc Hcs IH]; intros fuel s n Hs Hn Hf.
  - destruct fuel as [|fuel]; [simpl in Hf; lia|].
    replace (recs_bytes _) with (@nil Z) by done. rewrite take_nil. unfold replayed. simpl. do 2 f_equal.
    unfold scan_outcome. rewrite Hs. f_equal. unfold recs_len. simpl. unfold len. simpl. lia.
  - simpl List.concat in *. rewrite recs_bytes_app in *. simpl committed.
    destruct (Z.leb_spec (recs_len c) n) as [Hle|Hgt].
    + rewrite take_app_ge in * by (unfold recs_len, len in *; lia).
      replace (Z.to_nat n - length (recs_bytes c))%nat with (Z.to_nat (n - recs_len c)) in *
        by (unfold recs_len, len in *; lia).
      destruct (scan_loop_commit c s fuel _ Hc Hs Hf) as (fuel' & p & Hf' & ->).
      rewrite IH by (done || lia). rewrite replayed_app by (by apply wf_commit_readable).
      unfold after_commit. cbn. by rewrite Hs.
    + rewrite take_app_le in * by (unfold recs_len, len in *; lia).
      rewrite scan_loop_cut by done. unfold scan_outcome, replayed. rewrite Hs. simpl. do 3 f_equal.
      unfold recs_len. simpl. unfold len. simpl. lia.
Qed.

Lemma scan_log_commits cs n start index seq :
  Forall wf_commit cs → 0 ≤ n →
  scan_log (take (Z.to_nat n) (recs_bytes (List.concat cs))) start index seq =
  Some (Ok (replayed (committed n cs) start index seq 0)).
Proof. intros Hcs Hn. unfold scan_log. rewrite scan_loop_commits by (done || lia). done. Qed.

(** C11: crash recovery. Whatever the byte at which the file of a log was cut,
    the recovery rebuilds the index by exactly the commits that lie wholly
    before the cut, in order (a batch all at once or not at all), and the file
    it keeps ends where the last of them ends. *)
Theorem crash_recovery cs n start index seq :
  Forall wf_commit cs → 0 ≤ n →
  scan_log (take (Z.to_nat n) (recs_bytes (List.concat cs))) start index seq =
  Some (Ok (replayed (committed n cs) start index seq 0)).
Proof. apply scan_log_commits. Qed.

Lemma committed_all cs n : recs_len (List.concat cs) ≤ n → committed n cs = List.concat cs.
Proof.
  revert n. induction cs as [|c cs IH]; intros n; [done|]. simpl. rewrite recs_len_app. intros Hn.
  pose proof (recs_len_nonneg (List.concat cs)). rewrite (proj2 (Z.leb_le _ _)) by lia. rewrite IH by lia. done.
Qed.
Lemma committed_prefix cs n : ∃ k, committed n cs = List.concat (take k cs).
Proof.
  revert n. induction cs as [|c cs IH]; intros n; [by exists O|]. simpl.
  destruct (_ <=? _); [|by exists O]. destruct (IH (n - recs_len c)) as [k ->]. by exists (S k).
Qed.

(** A whole log is read in two parts as it is in one: the scan of the rest
    from where a first part ended, with the index rebuilt so far, gives the
    index of the whole log (what the hint file is for). *)
Theorem scan_log_resumes cs cs' start index seq :
  Forall wf_commit cs → Forall wf_commit cs' →
  ∃ mid, scan_log (recs_bytes (List.concat cs)) start index seq = Some (Ok mid) ∧
  scan_log (recs_bytes (List.concat cs')) (so_end mid) (so_index mid) (so_seq mid) =
  scan_log (recs_bytes (List.concat cs) ++ recs_bytes (List.concat cs')) start index seq.
Proof.
  intros Hcs Hcs'.
  assert (∀ l i q st, Forall wf_commit l → scan_log (recs_bytes (List.concat l)) st i q =
            Some (Ok (replayed (List.concat l) st i q 0))) as Hall.
  { intros l i q st Hl. pose proof (scan_log_commits l (recs_len (List.concat l)) st i q Hl (recs_len_nonneg _)) as Hr.
    rewrite committed_all in Hr by lia. rewrite <- Hr. f_equal.
    symmetry. apply take_ge. unfold recs_len, len. lia. }
  exists (replayed (List.concat cs) start index seq 0). split; [by apply Hall|].
  rewrite <- recs_bytes_app, <- List.concat_app, !Hall by (by try apply Forall_app_2).
  rewrite List.concat_app, replayed_app; [done|].
  apply Forall_concat. eapply Forall_impl; [exact Hcs|]. apply wf_commit_readable.
Qed.

(** ** What the engine appends *)
Lemma frame_hdr f : fits f →
  take (Z.to_nat REC_HEADER_LEN) (frame_bytes f) = le_bytes 4 (crc32 (frame_head f ++ f_body f)) ++ frame_head f.
Proof.
  intros _. unfold frame_bytes, with_crc. rewrite app_assoc. apply take_app_len.
  pose proof (rec_head_len (f_klen f) (f_vlen f) (f_ty f) (f_flags f) (f_ts f) (f_exp f)) as Hl.
  rewrite length_app, le_bytes_length. unfold frame_head, len, REC_HEADER_LEN in *. lia.
Qed.
Lemma scan_open_frame f :
  fits f →
  scan_open (frame_header f) (take (Z.to_nat REC_HEADER_LEN) (frame_bytes f)) (f_body f) =
  if has_flag (f_flags f) FLAG_ENCRYPTED then
    match open_record keys (frame_bytes f) with
    | Ok kv => Ok (Some kv)
    | Err Tampered => Ok None
    | Err e => Err (into_error e)
    end
  else if require_encryption then
    Err (Denied "encryption.required is on, but the data file holds an unencrypted record at byte {pos}")
  else Ok (Some (take (Z.to_nat (f_klen f)) (f_body f), drop (Z.to_nat (f_klen f)) (f_body f))).
Proof.
  intros Hf. unfold scan_open. rewrite frame_hdr by done. cbn [flags crc frame_header k_size].
  rewrite (drop_app_len (le_bytes 4 _)) by apply le_bytes_length. rewrite Z.eqb_refl. cbn [negb].
  by rewrite <- app_assoc.
Qed.

(** One record the engine wants in the log. *)
Record Write := {
  w_key : str; w_value : bytes; w_ty : Z; w_flags : Z; w_ts : Z; w_exp : Z; w_nonce : bytes;
}.
Definition write_frame (ks : option Keys) (w : Write) : Frame :=
  record_frame ks (w_key w) (w_value w) (w_ty w) (w_flags w) (w_ts w) (w_exp w) (w_nonce w).
Definition write_bytes (ks : option Keys) (w : Write) : result KivaError bytes :=
  encode_record ks (w_key w) (w_value w) (w_ty w) (w_flags w) (w_ts w) (w_exp w) (Some (w_nonce w)).
Definition write_rec (ks : option Keys) (w : Write) : Rec :=
  {| r_frame := write_frame ks w; r_key := w_key w; r_stored := w_value w |}.
Record writable (ks : option Keys) (w : Write) : Prop := {
  wr_fits : fits_record (w_key w) (w_value w) (w_ts w) (w_exp w);
  wr_key : 0 < str_len (w_key w);
  wr_valid : valid_str (w_key w);
  wr_plain : has_flag (w_flags w) FLAG_ENCRYPTED = false;
  wr_ty : has_flag (w_flags w) FLAG_TOMBSTONE = true ∨ is_Some (Type_from_u8 (w_ty w));
  wr_nonce : keys_ok ks (w_nonce w);
}.
(** The keys of the scan read what [ks] writes. *)
Definition keys_read (ks : option Keys) : Prop :=
  match ks with
  | None => require_encryption = false
  | Some k => ∃ k', keys = Some k' ∧ find_key k' (id (current k)) = Some (current k)
  end.

Lemma write_flag ks w m :
  has_flag FLAG_ENCRYPTED m = false → has_flag (f_flags (write_frame ks w)) m = has_flag (w_flags w) m.
Proof. intros Hm. destruct ks; [|done]. simpl. by rewrite has_flag_lor, Hm, orb_false_r. Qed.

Context `{!AeadLaws}.

Lemma write_readable ks w : keys_read ks → writable ks w → readable (write_rec ks w).
Proof.
  intros Hks [Hf Hk Hv Hp Ht Hn].
  pose proof (record_frame_fits ks (w_key w) (w_value w) (w_ty w) (w_flags w) (w_ts w) (w_exp w) (w_nonce w) Hn Hf) as Hff.
  split; simpl; [done|by destruct ks| |done|].
  - rewrite scan_open_frame by done. unfold write_frame.
    rewrite open_record_frame by (done || destruct ks; done).
    destruct ks as [ks|]; simpl.
    + by rewrite has_flag_encrypted.
    + rewrite Hp, Hks. do 3 f_equal; [apply take_app_len|apply drop_app_len]; unfold str_len, len; lia.
  - rewrite write_flag by done. destruct ks; exact Ht.
Qed.

(** Marking a record as the commit point of its batch: byte 11 and the checksum. *)
Definition stamp_commit (rec : bytes) : bytes :=
  with_crc (drop 4 (alter (fun f => Z.lor f FLAG_TXN_COMMIT) 11%nat rec)).
Fixpoint stamp_last (recs : list bytes) : list bytes :=
  match recs with
  | [] => []
  | [r] => [stamp_commit r]
  | r :: recs => r :: stamp_last recs
  end.

Definition stamped (f : Frame) : Frame := {|
  f_klen := f_klen f; f_vlen := f_vlen f; f_ty := f_ty f; f_flags := Z.lor (f_flags f) FLAG_TXN_COMMIT;
  f_ts := f_ts f; f_exp := f_exp f; f_body := f_body f |}.
Lemma stamped_fits f : fits f → fits (stamped f).
Proof. by intros [? ? ? ? ?]. Qed.
Lemma stamp_frame f : stamp_commit (frame_bytes f) = frame_bytes (stamped f).
Proof. unfold stamp_commit, frame_bytes, stamped. by f_equal. Qed.
Lemma stamp_last_app rs r : stamp_last (rs ++ [r]) = rs ++ [stamp_commit r].
Proof.
  induction rs as [|x rs IH]; [done|]. simpl. rewrite IH. by destruct rs.
Qed.
End scan.

(** In the clear, a record marked as the commit point is that record with the mark. *)
Lemma stamped_readable `{Aead} `{Crc} `{!AeadLaws} keys w :
  writable None w →
  readable keys false {| r_frame := stamped (write_frame None w); r_key := w_key w; r_stored := w_value w |}.
Proof.
  intros Hw. pose proof (write_readable keys false None w eq_refl Hw) as [Hf Hk Ho Hv Ht].
  cbn [r_frame r_key r_stored write_rec] in *.
  split; cbn [r_frame r_key r_stored]; [by apply stamped_fits|done| |done|].
  - rewrite (scan_open_frame _ _ _ (stamped_fits _ Hf)).
    replace (has_flag _ FLAG_ENCRYPTED) with false
      by (symmetry; cbn [stamped f_flags]; rewrite has_flag_lor; apply orb_false_iff; split; [apply Hw|done]).
    cbn [write_frame record_frame plain_frame stamped f_klen f_body].
    do 3 f_equal; [apply take_app_len|apply drop_app_len]; unfold str_len, len; lia.
  - cbn [stamped f_flags f_ty]. rewrite has_flag_lor. destruct Ht as [Ht|Ht]; [left|by right]. by rewrite Ht.
Qed.

Lemma write_bytes_frames `{Aead} `{Crc} ks ws :
  mapM (write_bytes ks) ws = Ok (List.map (fun w => frame_bytes (write_frame ks w)) ws).
Proof.
  assert (∀ w, write_bytes ks w = Ok (frame_bytes (write_frame ks w))) as Hw by (intros; apply encode_record_frame).
  induction ws as [|w ws IH]; [done|]. simpl. rewrite Hw. simpl. by rewrite IH.
Qed.
Lemma write_bytes_all `{Aead} `{Crc} ks ws recs :
  mapM (write_bytes ks) ws = Ok recs → recs = List.map (fun w => frame_bytes (write_frame ks w)) ws.
Proof. rewrite write_bytes_frames. congruence. Qed.
Lemma batch_snoc `{Aead} `{Crc} keys req rs r :
  Forall (fun r => readable keys req r ∧ txn r = true ∧ commit r = false) rs →
  readable keys req r → txn r = true → commit r = true → batch keys req (rs ++ [r]).
Proof. intros Hrs Hr Ht Hc. induction Hrs as [|x rs (? & ? & ?) _ IH]; [by constructor|by constructor]. Qed.

Record batch_write (w : Write) : Prop := {
  bw_txn : has_flag (w_flags w) FLAG_TXN = true;
  bw_commit : has_flag (w_flags w) FLAG_TXN_COMMIT = false;
}.

(** In the clear, what a batch appends (its records one after the other,
    the last one stamped as the commit point) is one commit of the log, of its
    keys in their order: with [crash_recovery], a batch is recovered all at
    once or not at all. *)
Theorem batch_is_commit `{Aead} `{Crc} `{!AeadLaws} keys ws w recs :
  Forall (fun w => writable None w ∧ batch_write w) (ws ++ [w]) →
  mapM (write_bytes None) (ws ++ [w]) = Ok recs →
  ∃ c, wf_commit keys false c ∧ List.concat (stamp_last recs) = recs_bytes c ∧
    List.map r_key c = List.map w_key (ws ++ [w]).
Proof.
  intros [Hws Hw]%Forall_app ->%write_bytes_all.
  inversion Hw as [|? ? [Hw1 [Hw2 Hw3]] _]; subst.
  exists (List.map (write_rec None) ws ++ [{| r_frame := stamped (write_frame None w); r_key := w_key w; r_stored := w_value w |}]).
  split; [|split].
  - right. apply batch_snoc.
    + apply Forall_map. eapply Forall_impl; [exact Hws|]. intros x [Hx [Hx2 Hx3]]. simpl.
      split; [by apply write_readable|]. by unfold txn, commit.
    + by apply stamped_readable.
    + unfold txn. simpl. by rewrite has_flag_lor, Hw2.
    + unfold commit. simpl. rewrite has_flag_lor. apply orb_true_r.
  - rewrite List.map_app. cbn [List.map]. rewrite stamp_last_app, stamp_frame, recs_bytes_app, List.concat_app. f_equal.
    unfold recs_bytes, log_bytes. by rewrite !List.map_map.
  - rewrite !List.map_app, List.map_map. done.
Qed.

(** The authenticated data of AES-GCM is bound to the tag: what was sealed
    with one does not open with another. *)
Definition aead_authentic `{Aead} : Prop :=
  ∀ k n a a' d, a ≠ a' → aead_open k n a' (aead_seal k n a d).2 (aead_seal k n a d).1 = None.

Lemma stamped_sealed_tampered `{Aead} `{Crc} `{!AeadLaws} ks w :
  aead_authentic → writable (Some ks) w → has_flag (w_flags w) FLAG_TXN_COMMIT = false → in_u 8 (w_flags w) →
  open_record (Some ks) (frame_bytes (stamped (write_frame (Some ks) w))) = Err Tampered.
Proof.
  intros Ha [Hf Hk Hv Hp Ht Hn] Hc H8. simpl in Hn.
  pose proof (record_frame_fits (Some ks) (w_key w) (w_value w) (w_ty w) (w_flags w) (w_ts w) (w_exp w) (w_nonce w) Hn Hf) as Hff.
  rewrite open_frame_sealed.
  2: by apply stamped_fits.
  2: { simpl. rewrite has_flag_lor. by rewrite has_flag_encrypted. }
  simpl. rewrite open_with_parts by (done || apply aead_tag_len || apply Hn).
  unfold find_key. simpl. rewrite bool_decide_true by done. simpl. rewrite Ha; [done|].
  intros E%app_inv_head%app_inv_tail.
  apply (f_equal (fun l => has_flag (nth 7 l 0) FLAG_TXN_COMMIT)) in E.
  change (has_flag (Z.lor (w_flags w) FLAG_ENCRYPTED) FLAG_TXN_COMMIT =
          has_flag (Z.lor (Z.lor (w_flags w) FLAG_ENCRYPTED) FLAG_TXN_COMMIT) FLAG_TXN_COMMIT) in E.
  by rewrite !has_flag_lor, Hc in E.
Qed.

(** A batch as [apply_batch] appends it with encryption on: its records, the
    last one stamped after it was sealed. *)
Lemma scan_loop_pending `{Aead} `{Crc} keys req rs :
  Forall (fun r => readable keys req r ∧ txn r = true ∧ commit r = false) rs → ∀ fuel s rest,
  (length (recs_bytes rs ++ rest) < fuel)%nat →
  ∃ fuel' s', (length rest < fuel')%nat ∧ scan_loop keys req fuel s (recs_bytes rs ++ rest) = scan_loop keys req fuel' s' rest ∧
    scan_outcome s' = scan_outcome s.
Proof.
  induction 1 as [|r rs (Hr & Ht & Hc) _ IH]; intros fuel s rest Hf; [by exists fuel, s|].
  rewrite recs_bytes_cons, <- app_assoc in *.
  destruct fuel as [|fuel]; [lia|]. pose proof (frame_bytes_len _ (rd_fits _ _ _ Hr)) as Hl.
  pose proof (frame_len_ge _ (rd_fits _ _ _ Hr)) as Hg. rewrite length_app in Hf. cbn [scan_loop].
  rewrite scan_step_frame, scan_accept_txn by done.
  match goal with |- context [scan_loop _ _ fuel ?s' _] => destruct (IH fuel s' rest) as (fuel' & s'' & Hf' & -> & Ho) end.
  { unfold len in *. lia. }
  exists fuel', s''. split; [done|]. split; [done|]. rewrite Ho. unfold scan_outcome. cbn. f_equal.
  by destruct (s_pending s).
Qed.

(** C3: with encryption on, stamping the commit mark into a record that is
    already sealed breaks its authentication: a batch at the end of the log, as
    [apply_batch] wrote it whole, is thrown away by the recovery. *)
Theorem sealed_batch_lost `{Aead} `{Crc} `{!AeadLaws} ks req ws w recs start index seq :
  aead_authentic →
  Forall (fun w => writable (Some ks) w ∧ batch_write w) (ws ++ [w]) → in_u 8 (w_flags w) →
  mapM (write_bytes (Some ks)) (ws ++ [w]) = Ok recs →
  scan_log (Some ks) req (List.concat (stamp_last recs)) start index seq =
  Some (Ok {| so_index := index; so_seq := seq; so_end := start; so_corrupted := 0 |}).
Proof.
  intros Ha Hall H8 ->%write_bytes_all. apply Forall_app in Hall as [Hws Hw].
  inversion Hw as [|? ? [Hw1 [Hw2 Hw3]] _]; subst.
  assert (Hkr : keys_read (Some ks) req (Some ks)).
  { exists ks. split; [done|]. unfold find_key. simpl. by rewrite bool_decide_true. }
  rewrite List.map_app. cbn [List.map]. rewrite stamp_last_app, stamp_frame, List.concat_app. cbn [List.concat]. rewrite app_nil_r.
  assert (List.concat (List.map (fun w => frame_bytes (write_frame (Some ks) w)) ws) =
          recs_bytes (List.map (write_rec (Some ks)) ws)) as ->
    by (unfold recs_bytes, log_bytes; by rewrite !List.map_map).
  unfold scan_log.
  edestruct (scan_loop_pending (Some ks) req (List.map (write_rec (Some ks)) ws)) as (fuel & s & Hf & -> & Ho).
  { apply Forall_map. eapply Forall_impl; [exact Hws|]. intros x [Hx [Hx2 Hx3]]. simpl.
    split; [by apply write_readable|]. unfold txn, commit. cbn [write_rec r_frame]. by rewrite !write_flag. }
  { apply Nat.lt_succ_diag_r. }
  destruct fuel as [|fuel]; [lia|]. cbn [scan_loop].
  set (f := stamped (write_frame (Some ks) w)) in *.
  assert (fits f) as Hff.
  { apply stamped_fits. apply (write_readable (Some ks) req (Some ks) w); done. }
  assert (scan_step (Some ks) req s (frame_bytes f) = Stop) as ->; [|by rewrite Ho].
  unfold scan_step. pose proof (frame_bytes_len f Hff) as Hl. pose proof (frame_len_ge f Hff) as Hg.
  rewrite ltb_f by (unfold REC_HEADER_LEN; lia).
  pose proof (parse_frame f [] Hff) as Hp. rewrite app_nil_r in Hp. rewrite Hp, frame_header_total.
  destruct (k_size _ =? 0); [done|]. rewrite ltb_f by lia. cbn [orb].
  pose proof (frame_body_slice f [] Hff) as Hb. rewrite app_nil_r in Hb. rewrite Hb.
  rewrite scan_open_frame by done.
  destruct (has_flag (f_flags f) FLAG_ENCRYPTED) eqn:Ef.
  2: { unfold f in Ef. cbn in Ef. rewrite !has_flag_lor in Ef. by rewrite orb_true_r in Ef. }
  unfold f. rewrite stamped_sealed_tampered by done. fold f. unfold scan_change. cbn [mbind option_bind].
  by rewrite Hl, Z.eqb_refl.
Qed.

(** C16: a damaged record inside a batch does not take the batch with it: the
    scan forgets the records of the batch before it, counts it as corrupted,
    and the commit mark then applies the records after it. Here the batch is
    three records of which the second was damaged: the third alone is applied. *)
Theorem damaged_batch_half_applied `{Aead} `{Crc} keys req r1 f2 r3 c start index seq :
  readable keys req r1 → txn r1 = true → commit r1 = false →
  readable keys req r3 → txn r3 = true → commit r3 = true →
  fits f2 → 0 < f_klen f2 → in_u 32 c → c ≠ crc32 (frame_head f2 ++ f_body f2) →
  scan_log keys req (frame_bytes (r_frame r1) ++ (le_bytes 4 c ++ frame_head f2 ++ f_body f2) ++ frame_bytes (r_frame r3))
    start index seq =
  let st := apply_change (index, seq) (rec_change r3 (start + frame_len (r_frame r1) + frame_len f2)) in
  Some (Ok {| so_index := st.1; so_seq := st.2;
              so_end := start + frame_len (r_frame r1) + frame_len f2 + frame_len (r_frame r3); so_corrupted := 1 |}).
Proof.
  intros Hr1 Ht1 Hc1 Hr3 Ht3 Hc3 Hf2 Hk2 Hc Hbad. unfold scan_log.
  set (bad := le_bytes 4 c ++ frame_head f2 ++ f_body f2).
  pose proof (rec_head_len (f_klen f2) (f_vlen f2) (f_ty f2) (f_flags f2) (f_ts f2) (f_exp f2)) as Lh. fold (frame_head f2) in Lh.
  assert (len bad = frame_len f2) as Lb.
  { unfold bad. rewrite !len_app, Lh, (fit_body _ Hf2). unfold len. rewrite le_bytes_length. unfold frame_len, REC_HEADER_LEN. lia. }
  pose proof (frame_len_ge _ (rd_fits _ _ _ Hr1)) as G1. pose proof (frame_len_ge _ Hf2) as G2.
  pose proof (frame_len_ge _ (rd_fits _ _ _ Hr3)) as G3.
  pose proof (frame_bytes_len _ (rd_fits _ _ _ Hr1)) as L1. pose proof (frame_bytes_len _ (rd_fits _ _ _ Hr3)) as L3.
  match goal with |- context [scan_loop _ _ (S ?n) _ _] => assert (3 ≤ n)%nat as Hn; [|set (m := n) in *; clearbody m] end.
  { rewrite !length_app. unfold len in *. lia. }
  destruct m as [|[|[|m]]]; [lia|lia|lia|]. clear Hn.
  cbn [scan_loop]. rewrite scan_step_frame, scan_accept_txn by done.
  match goal with |- context [scan_step _ _ ?s (bad ++ _)] => set (s1 := s) end.
  assert (scan_step keys req s1 (bad ++ frame_bytes (r_frame r3)) =
          Next (scan_skip s1 {| crc := c; k_size := f_klen f2; v_size := f_vlen f2; ty := f_ty f2; flags := f_flags f2;
                                timestamp := f_ts f2; expires_at := expiry_to_ms (f_exp f2) |}) (frame_bytes (r_frame r3))) as ->.
  { unfold scan_step. rewrite len_app, Lb, L3, ltb_f by (unfold REC_HEADER_LEN; lia).
    unfold bad at 1. rewrite <- !app_assoc, parse_frame_head by done. unfold total_len. cbn [k_size v_size].
    fold (frame_len f2). rewrite (proj2 (Z.eqb_neq _ _)), ltb_f by lia. cbn [orb].
    assert (take (Z.to_nat REC_HEADER_LEN) (bad ++ frame_bytes (r_frame r3)) = le_bytes 4 c ++ frame_head f2) as ->.
    { unfold bad. rewrite (app_assoc (le_bytes 4 c)), <- app_assoc. apply take_app_len.
      rewrite length_app, le_bytes_length. unfold len, REC_HEADER_LEN in *. lia. }
    assert (slice REC_HEADER_LEN (frame_len f2) (bad ++ frame_bytes (r_frame r3)) = f_body f2) as ->.
    { unfold bad. rewrite (app_assoc (le_bytes 4 c)), <- app_assoc. apply slice_field.
      - rewrite len_app, Lh. unfold len. by rewrite le_bytes_length.
      - rewrite (fit_body _ Hf2). unfold frame_len. lia. }
    unfold scan_open. rewrite drop_app_len by apply le_bytes_length. cbn [crc].
    rewrite (proj2 (Z.eqb_neq _ _)) by congruence. cbn [negb]. unfold scan_change. cbn [mbind option_bind].
    rewrite (proj2 (Z.eqb_neq _ _)) by lia. rewrite drop_app_len by (unfold len in *; lia). done. }
  set (s2 := scan_skip _ _).
  pose proof (scan_step_frame keys req s2 r3 [] Hr3) as E3. rewrite app_nil_r in E3. rewrite E3.
  destruct (scan_accept_last keys req s2 r3 Hr3) as [p ->]; [by left|].
  assert (s_pos s2 = start + frame_len (r_frame r1) + frame_len f2) as Hpos by done.
  unfold after_commit. rewrite Hpos, recs_len_cons by apply Hr3. replace (recs_len []) with 0 by done. rewrite Z.add_0_r.
  done.
Qed.

(** ** Evaluations *)
Definition sample_write (k : Z) (flags : Z) : Write :=
  {| w_key := [k]; w_value := [49; 50]; w_ty := 1; w_flags := flags; w_ts := 1700; w_exp := 0; w_nonce := toy_nonce |}.
Lemma sample_writable ks k flags :
  0 ≤ k < 128 → has_flag flags FLAG_ENCRYPTED = false → keys_ok ks toy_nonce → writable ks (sample_write k flags).
Proof.
  intros Hk Hf Hn. assert (str_len [k] = 1) as Hl.
  { unfold str_len, utf8. simpl. unfold encode_char. by rewrite ltb_t by lia. }
  split; [split| | | | |done]; cbn [w_key w_value w_ty w_flags w_ts w_exp sample_write]; try (rewrite Hl).
  1-5: by vm_compute.
  - constructor; [unfold is_scalar; lia|constructor].
  - done.
  - right. by eexists.
Qed.
Ltac sample_w := apply sample_writable; [lia|done|done].
Definition sample_stamped (k : Z) (flags : Z) : Rec :=
  {| r_frame := stamped (write_frame None (sample_write k flags)); r_key := [k]; r_stored := [49; 50] |}.
(** A record alone, then a batch of two. *)
Definition sample_commits : list (list Rec) :=
  [[write_rec None (sample_write 97 0)];
   [write_rec None (sample_write 98 FLAG_TXN); sample_stamped 99 FLAG_TXN]].
Lemma sample_commits_wf : Forall (wf_commit None false) sample_commits.
Proof.
  constructor; [|constructor; [|constructor]].
  - left. eexists. split; [done|]. split; [|done]. apply (write_readable None false None); [done|]. sample_w.
  - right. apply (batch_cons None false).
    + apply (write_readable None false None); [done|]. sample_w.
    + by vm_compute.
    + by vm_compute.
    + constructor; [|by vm_compute|by vm_compute].
      apply (stamped_readable None (sample_write 99 FLAG_TXN)). sample_w.
Qed.

(** Cut in the middle of the batch: only the record before it is there. *)
Lemma crash_recovery_witness :
  Forall (wf_commit None false) sample_commits ∧
  scan_log None false (take (Z.to_nat 80) (recs_bytes (List.concat sample_commits))) 16 ∅ 0 =
  Some (Ok (replayed [write_rec None (sample_write 97 0)] 16 ∅ 0 0)).
Proof.
  exact (conj sample_commits_wf
    (crash_recovery None false sample_commits 80 16 ∅ 0 sample_commits_wf (ltac:(lia) : 0 ≤ 80))).
Defined.

Lemma scan_log_ends_witness :
  all_bytes (repeat 1 40) ∧
  ∃ r, scan_log None false (repeat 1 40) 16 ∅ 0 = Some r ∧ ∀ o, r = Ok o → 16 ≤ so_end o ≤ 16 + len (repeat 1 40).
Proof.
  assert (all_bytes (repeat 1 40)) as Hb by (by apply bytesb_all).
  exact (conj Hb (scan_log_ends None false (repeat 1 40) 16 ∅ 0 Hb)).
Defined.

Lemma scan_log_resumes_witness :
  Forall (wf_commit None false) sample_commits ∧
  ∃ mid, scan_log None false (recs_bytes (List.concat sample_commits)) 16 ∅ 0 = Some (Ok mid) ∧
  scan_log None false (recs_bytes (List.concat sample_commits)) (so_end mid) (so_index mid) (so_seq mid) =
  scan_log None false (recs_bytes (List.concat sample_commits) ++ recs_bytes (List.concat sample_commits)) 16 ∅ 0.
Proof.
  exact (conj sample_commits_wf
    (scan_log_resumes None false sample_commits sample_commits 16 ∅ 0 sample_commits_wf sample_commits_wf)).
Defined.

Definition sample_batch : list Write := [sample_write 98 FLAG_TXN].
Lemma sample_batch_ok ks : keys_ok ks toy_nonce →
  Forall (fun w => writable ks w ∧ batch_write w) (sample_batch ++ [sample_write 99 FLAG_TXN]).
Proof. intros. repeat constructor; first [done | sample_w]. Qed.

Lemma batch_is_commit_witness :
  Forall (fun w => writable None w ∧ batch_write w) (sample_batch ++ [sample_write 99 FLAG_TXN]) ∧
  ∃ recs c, wf_commit None false c ∧ List.concat (stamp_last recs) = recs_bytes c ∧
    List.map r_key c = [[98]; [99]].
Proof.
  refine (conj (sample_batch_ok None I) (ex_intro _ _
    (batch_is_commit None sample_batch (sample_write 99 FLAG_TXN) _ (sample_batch_ok None I) (write_bytes_frames _ _)))).
Defined.

Lemma toy_authentic : aead_authentic.
Proof.
  intros k n a a' d Ha. simpl. rewrite map_lxor_twice, bool_decide_false; [done|].
  intros [= E]. apply (inj encode) in E. congruence.
Qed.
Lemma sealed_batch_lost_witness :
  Forall (fun w => writable (Some (toy_keys 5)) w ∧ batch_write w) (sample_batch ++ [sample_write 99 FLAG_TXN]) ∧
  ∃ recs, scan_log (Some (toy_keys 5)) false (List.concat (stamp_last recs)) 16 ∅ 0 =
  Some (Ok {| so_index := ∅; so_seq := 0; so_end := 16; so_corrupted := 0 |}).
Proof.
  assert (in_u 8 (w_flags (sample_write 99 FLAG_TXN))) as H8 by (by vm_compute).
  refine (conj (sample_batch_ok (Some (toy_keys 5)) (toy_nonce_ok 5)) (ex_intro _ _
    (sealed_batch_lost (toy_keys 5) false sample_batch (sample_write 99 FLAG_TXN) _ 16 ∅ 0 toy_authentic
      (sample_batch_ok (Some (toy_keys 5)) (toy_nonce_ok 5)) H8 (write_bytes_frames _ _)))).
Defined.

Lemma damaged_batch_half_applied_witness :
  ∃ o, scan_log None false
    (frame_bytes (r_frame (write_rec None (sample_write 98 FLAG_TXN))) ++
     (le_bytes 4 0 ++ frame_head sample_rec ++ f_body sample_rec) ++ frame_bytes (r_frame (sample_stamped 99 FLAG_TXN)))
    16 ∅ 0 = Some (Ok o) ∧ so_corrupted o = 1.
Proof.
  assert (readable None false (write_rec None (sample_write 98 FLAG_TXN))) as H1
    by (apply (write_readable None false None); [done|]; sample_w).
  assert (readable None false (sample_stamped 99 FLAG_TXN)) as H3
    by (apply (stamped_readable None (sample_write 99 FLAG_TXN)); sample_w).
  refine (ex_intro _ _ (conj (damaged_batch_half_applied None false _ sample_rec _ 0 16 ∅ 0 H1 _ _ H3 _ _
    sample_fits _ _ _) _)); by vm_compute.
Defined.
