(* ===== verification/Hint.v ===== *)
(** * [src/hint.rs]: the snapshot of the index

    A file is its bytes; writing it under a temporary name and renaming it is
    left out. The loop of [read_hint] walks the bytes that are left. *)
From S2P Require Import Prelude Utf8 Util Maps Types Compress Format Crypt Log.
Open Scope Z_scope.

Definition HINT_MAGIC : bytes := lit "KHNT".
Definition HINT_VERSION : Z := 1.
Definition HINT_HEADER_LEN : Z := 44.
Record HintData := {
  h_file_id : Z;
  h_data_len : Z;
  h_compression : Compression;
  h_encrypted : bool;
  h_entries : list (str * Entry);
}.
(** The messages, without their prefix. *)
Definition bad (m : String.string) : KivaError := Corrupted m.

Section hint.
  Context `{Aead} `{Crc} `{Codecs}.

(** ** Writing *)
Definition hint_fields (k : str) (e : Entry) : bytes :=
  le_bytes 2 (wrap 16 (str_len k)) ++ utf8 k ++ le_bytes 8 (offset e) ++ le_bytes 4 (ev_size e) ++ le_bytes 4 (raw_size e)
  ++ [Type_code (e_ty e)] ++ [e_flags e] ++ le_bytes 8 (wrap 64 (e_timestamp e)) ++ le_bytes 8 (wrap 64 (e_expires_at e)).
Definition hint_entry (ke : str * Entry) : bytes :=
  hint_fields ke.1 ke.2 ++ le_bytes 4 (crc32 (hint_fields ke.1 ke.2)).
Definition hint_body (index : Index) : bytes := List.flat_map hint_entry (entries index).
Definition hint_head (file_id data_len count flag : Z) (encrypted : bool) (stored : bytes) : bytes :=
  HINT_MAGIC ++ le_bytes 4 HINT_VERSION ++ le_bytes 8 file_id ++ le_bytes 8 data_len ++ le_bytes 8 count
  ++ [flag] ++ [if encrypted then 1 else 0] ++ [0; 0] ++ le_bytes 4 (crc32 stored).

Definition write_hint (file_id data_len : Z) (index : Index) (compression : Compression) (keys : option Keys) (nonce : option bytes)
    : result KivaError bytes :=
  let '(stored, flag) := pack (hint_body index) compression in
  stored ← match keys with
           | Some keys => seal keys Hint_ (le_bytes 8 file_id) nonce stored
           | None => Ok stored
           end;
  let out := hint_head file_id data_len (Z.of_nat (size index)) flag (match keys with Some _ => true | None => false end) stored in
  Ok (out ++ le_bytes 4 (crc32 out) ++ stored).

(** ** Reading *)
(** The next entry of the body, and what is left. *)
Definition read_entry (data_len : Z) (b : bytes) : result KivaError (str * Entry * bytes) :=
  if len b <? 2 then Err (bad "truncated entry")
  else
    let k := le_val (slice 0 2 b) in
    if len b - 2 <? k + 38 then Err (bad "truncated entry")
    else
      key ← ok_or (from_utf8 (slice 2 (2 + k) b)) (bad "key is not UTF-8");
      let p := 2 + k in
      let offset := le_val (slice p (p + 8) b) in
      let v_size := le_val (slice (p + 8) (p + 12) b) in
      let raw_size := le_val (slice (p + 12) (p + 16) b) in
      ty ← ok_or (Type_from_u8 (le_val (slice (p + 16) (p + 17) b))) (bad "unknown type tag");
      let flags := le_val (slice (p + 17) (p + 18) b) in
      let timestamp := sint 64 (le_val (slice (p + 18) (p + 26) b)) in
      let expires_at := expiry_to_ms (sint 64 (le_val (slice (p + 26) (p + 34) b))) in
      if negb (le_val (slice (p + 34) (p + 38) b) =? crc32 (take (Z.to_nat (p + 34)) b)) then Err (bad "entry checksum mismatch")
      else if (k =? 0) || (data_len <? sat_u64 (offset + (28 + k + v_size))) then Err (bad "entry points outside the data file")
      else
        Ok (key, {| offset := offset; ek_size := k; ev_size := v_size; raw_size := raw_size; e_ty := ty; e_flags := flags;
                    e_timestamp := timestamp; e_expires_at := expires_at; version := 0 |}, drop (Z.to_nat (p + 38)) b).
(** [None]: out of fuel. *)
Fixpoint read_entries (fuel : nat) (data_len : Z) (b : bytes) : option (result KivaError (list (str * Entry))) :=
  match b, fuel with
  | [], _ => Some (Ok [])
  | _, O => None
  | _, S fuel =>
    match read_entry data_len b with
    | Err e => Some (Err e)
    | Ok (key, e, rest) =>
      match read_entries fuel data_len rest with
      | Some (Ok l) => Some (Ok ((key, e) :: l))
      | r => r
      end
    end
  end.

Definition read_hint (data : bytes) (keys : option Keys) : option (result KivaError HintData) :=
  if (len data <? HINT_HEADER_LEN) || negb (bool_decide (take 4 data = HINT_MAGIC)) then Some (Err (bad "missing signature"))
  else if negb (le_val (slice 40 44 data) =? crc32 (take 40 data)) then Some (Err (bad "header checksum mismatch"))
  else if negb (le_val (slice 4 8 data) =? HINT_VERSION) then Some (Err (bad "unsupported version"))
  else
    let file_id := le_val (slice 8 16 data) in
    let data_len := le_val (slice 16 24 data) in
    let count := le_val (slice 24 32 data) in
    let compression := Compression_from_flag (le_val (slice 32 33 data)) in
    let stored := drop 44 data in
    if negb (le_val (slice 36 40 data) =? crc32 stored) then Some (Err (bad "body checksum mismatch"))
    else
      let encrypted := le_val (slice 33 34 data) =? 1 in
      match (if encrypted then
               match open_with keys Hint_ (le_bytes 8 file_id) stored with
               | Ok b => Ok b
               | Err e => Err (into_error e)
               end
             else Ok stored) with
      | Err e => Some (Err e)
      | Ok stored =>
        match unpack stored compression with
        | Err _ => Some (Err (bad "body cannot be decompressed"))
        | Ok body =>
          match read_entries (length body) data_len body with
          | None => None
          | Some (Err e) => Some (Err e)
          | Some (Ok entries) =>
            if negb (len entries =? count) then Some (Err (bad "entry count mismatch"))
            else Some (Ok {| h_file_id := file_id; h_data_len := data_len; h_compression := compression;
                             h_encrypted := encrypted; h_entries := entries |})
          end
        end
      end.

(** ** Reading ends *)
Lemma read_entry_shorter data_len b k e rest :
  all_bytes b → read_entry data_len b = Ok (k, e, rest) → all_bytes rest ∧ (length rest < length b)%nat.
Proof.
  intros Hb. unfold read_entry. destruct (Z.ltb_spec (len b) 2) as [|H2]; [done|].
  pose proof (le_val_bound _ (slice_all_bytes 0 2 _ Hb)) as [Hk _]. set (K := le_val (slice 0 2 b)) in *.
  destruct (Z.ltb_spec (len b - 2) (K + 38)); [done|].
  destruct (from_utf8 _); [|done]. destruct (Type_from_u8 _); [|done]. cbn [ok_or mbind result_bind].
  destruct (negb _); [done|]. destruct (_ || _); [done|]. intros [= _ _ <-].
  split; [by apply Forall_drop|]. rewrite length_drop. unfold len in *. lia.
Qed.
Lemma read_entries_end fuel data_len b : all_bytes b → (length b ≤ fuel)%nat → read_entries fuel data_len b ≠ None.
Proof.
  revert b. induction fuel as [|fuel IH]; intros b Hb Hl; (destruct b as [|x b]; [done|]); [simpl in Hl; lia|].
  cbn [read_entries]. destruct (read_entry data_len (x :: b)) as [[[k e] rest]|] eqn:E; [|done].
  destruct (read_entry_shorter _ _ _ _ _ Hb E) as [Hr Hlt].
  specialize (IH rest Hr ltac:(lia)). by destruct (read_entries fuel data_len rest) as [[]|].
Qed.

(** ** Reading back what was written *)
(** An entry of the index, as the engine makes them. *)
Record hint_entry_ok (data_len : Z) (k : str) (e : Entry) : Prop := {
  he_key : valid_str k;
  he_k : ek_size e = str_len k;
  he_klen : 0 < str_len k;
  he_k16 : in_u 16 (str_len k);
  he_off : in_u 64 (offset e);
  he_v : in_u 32 (ev_size e);
  he_raw : in_u 32 (raw_size e);
  he_flags : is_byte (e_flags e);
  he_ts : in_i64 (e_timestamp e);
  he_exp : in_i64 (e_expires_at e);
  he_ms : expiry_to_ms (e_expires_at e) = e_expires_at e;
  he_in : offset e + Log.rec_len e ≤ data_len;
}.

Lemma hint_fields_len k e : len (hint_fields k e) = 36 + str_len k.
Proof. unfold hint_fields. rewrite !len_app, !len_le_bytes. unfold str_len, len. simpl. lia. Qed.
Lemma read_hint_entry data_len k e rest :
  hint_entry_ok data_len k e → in_u 64 data_len →
  read_entry data_len (hint_entry (k, e) ++ rest) = Ok (k, set_version 0 e, rest).
Proof.
  intros Hok Hdl. destruct Hok as [Hkey Hk Hk0 Hk16 Hoff Hv Hraw Hfl Hts Hexp Hms Hin].
  unfold read_entry. pose proof (hint_fields_len k e) as Lf. pose proof (len_nonneg rest) as Hr.
  assert (len (hint_entry (k, e) ++ rest) = 40 + str_len k + len rest) as L.
  { unfold hint_entry. cbn [fst snd]. rewrite !len_app, Lf, len_le_bytes. simpl. lia. }
  assert (take (Z.to_nat (2 + str_len k + 34)) (hint_entry (k, e) ++ rest) = hint_fields k e) as ET.
  { unfold hint_entry. rewrite <- app_assoc. apply take_app_len. cbn [fst snd]. unfold len in *. lia. }
  assert (drop (Z.to_nat (2 + str_len k + 38)) (hint_entry (k, e) ++ rest) = rest) as ED.
  { apply drop_app_len. unfold hint_entry. cbn [fst snd]. rewrite length_app, le_bytes_length. unfold len in *. lia. }
  rewrite L. set (b := hint_entry (k, e) ++ rest) in *.
  assert (b = List.concat [le_bytes 2 (wrap 16 (str_len k)); utf8 k; le_bytes 8 (offset e); le_bytes 4 (ev_size e);
    le_bytes 4 (raw_size e); [Type_code (e_ty e)]; [e_flags e]; le_bytes 8 (wrap 64 (e_timestamp e));
    le_bytes 8 (wrap 64 (e_expires_at e)); le_bytes 4 (crc32 (hint_fields k e)); rest]) as Eb.
  { subst b. unfold hint_entry, hint_fields. cbn [List.concat fst snd]. rewrite <- !app_assoc. by rewrite app_nil_r. }
  rewrite ltb_f by lia.
  assert (slice 0 2 b = le_bytes 2 (str_len k)) as ->.
  { rewrite Eb. field 0%nat. by rewrite wrap_small. }
  rewrite le_val_u16 by done. rewrite ltb_f by lia.
  assert (slice 2 (2 + str_len k) b = utf8 k) as -> by (rewrite Eb; by field 1%nat).
  rewrite from_utf8_utf8 by done. cbn [ok_or mbind result_bind]. rewrite ET, ED.
  assert (slice (2 + str_len k) (2 + str_len k + 8) b = le_bytes 8 (offset e)) as -> by (rewrite Eb; by field 2%nat).
  assert (slice (2 + str_len k + 8) (2 + str_len k + 12) b = le_bytes 4 (ev_size e)) as -> by (rewrite Eb; by field 3%nat).
  assert (slice (2 + str_len k + 12) (2 + str_len k + 16) b = le_bytes 4 (raw_size e)) as -> by (rewrite Eb; by field 4%nat).
  assert (slice (2 + str_len k + 16) (2 + str_len k + 17) b = [Type_code (e_ty e)]) as -> by (rewrite Eb; by field 5%nat).
  assert (slice (2 + str_len k + 17) (2 + str_len k + 18) b = [e_flags e]) as -> by (rewrite Eb; by field 6%nat).
  assert (slice (2 + str_len k + 18) (2 + str_len k + 26) b = le_bytes 8 (wrap 64 (e_timestamp e))) as -> by (rewrite Eb; by field 7%nat).
  assert (slice (2 + str_len k + 26) (2 + str_len k + 34) b = le_bytes 8 (wrap 64 (e_expires_at e))) as -> by (rewrite Eb; by field 8%nat).
  assert (slice (2 + str_len k + 34) (2 + str_len k + 38) b = le_bytes 4 (crc32 (hint_fields k e))) as -> by (rewrite Eb; by field 9%nat).
  rewrite !le_val_1, Type_from_u8_code. cbn [ok_or mbind result_bind].
  rewrite !(le_val_u32 (crc32 _)) by apply crc32_u32. rewrite Z.eqb_refl. cbn [negb].
  rewrite !le_val_u64 by (apply wrap_in_u || done; done). rewrite !le_val_u32 by done.
  rewrite !sint64_wrap, Hms by done.
  assert (str_len k =? 0 = false) as -> by lia. cbn [orb].
  unfold Log.rec_len, REC_HEADER_LEN in Hin. rewrite Hk in Hin.
  rewrite ltb_f by (unfold sat_u64, clamp, u64_max, in_u in *; lia).
  unfold set_version. by rewrite Hk.
Qed.
Lemma read_hint_entries data_len l : Forall (fun ke => hint_entry_ok data_len ke.1 ke.2) l → in_u 64 data_len → ∀ fuel,
  (length (List.flat_map hint_entry l) ≤ fuel)%nat →
  read_entries fuel data_len (List.flat_map hint_entry l) = Some (Ok (List.map (fun ke => (ke.1, set_version 0 ke.2)) l)).
Proof.
  intros Hl Hdl. induction Hl as [|[k e] l He _ IH]; intros fuel Hf; [by destruct fuel|].
  cbn [List.flat_map] in *. pose proof (hint_fields_len k e) as Lf.
  assert (0 ≤ str_len k) as Hk0 by apply len_nonneg.
  assert (0 < length (hint_entry (k, e)))%nat as Lpos.
  { unfold hint_entry. cbn [fst snd]. rewrite length_app. unfold len in Lf. lia. }
  rewrite length_app in Hf. destruct fuel as [|fuel]; [lia|].
  pose proof (read_hint_entry data_len k e (List.flat_map hint_entry l) He Hdl) as E.
  assert (∃ x y, hint_entry (k, e) ++ List.flat_map hint_entry l = x :: y) as (x & y & Exy).
  { destruct (hint_entry (k, e)); [simpl in Lpos; lia|]. eexists _, _. reflexivity. }
  rewrite Exy in *. cbn [read_entries]. rewrite E, IH by lia. done.
Qed.

Context `{!AeadLaws} `{!CodecsLaws}.

(** What the header fields of a hint read as. *)
Lemma hint_head_len file_id data_len count flag enc stored : len (hint_head file_id data_len count flag enc stored) = 40.
Proof. unfold hint_head. rewrite !len_app, !len_le_bytes. by destruct enc. Qed.
Lemma hint_parts file_id data_len count flag enc stored :
  in_u 64 file_id → in_u 64 data_len → in_u 64 count →
  let out := hint_head file_id data_len count flag enc stored in
  let data := out ++ le_bytes 4 (crc32 out) ++ stored in
  len data <? HINT_HEADER_LEN = false ∧ take 4 data = HINT_MAGIC ∧ le_val (slice 40 44 data) = crc32 (take 40 data) ∧
  le_val (slice 4 8 data) = HINT_VERSION ∧ le_val (slice 8 16 data) = file_id ∧ le_val (slice 16 24 data) = data_len ∧
  le_val (slice 24 32 data) = count ∧ le_val (slice 32 33 data) = flag ∧ le_val (slice 33 34 data) = (if enc then 1 else 0) ∧
  le_val (slice 36 40 data) = crc32 stored ∧ drop 44 data = stored.
Proof.
  intros Hf Hd Hc out data. pose proof (hint_head_len file_id data_len count flag enc stored) as Lo. fold out in Lo.
  pose proof (len_nonneg stored).
  assert (take 40 data = out) as E40 by (apply take_app_len; unfold len in Lo; lia).
  assert (drop 44 data = stored) as E44.
  { subst data. rewrite app_assoc. apply drop_app_len. rewrite length_app, le_bytes_length. unfold len in Lo. lia. }
  assert (len data = 44 + len stored) as L by (subst data; rewrite !len_app, Lo, len_le_bytes; simpl; lia).
  assert (data = List.concat [HINT_MAGIC; le_bytes 4 HINT_VERSION; le_bytes 8 file_id; le_bytes 8 data_len; le_bytes 8 count;
    [flag]; [if enc then 1 else 0]; [0; 0]; le_bytes 4 (crc32 stored); le_bytes 4 (crc32 out); stored]) as Eb.
  { subst data. unfold out at 1, hint_head. cbn [List.concat]. rewrite <- !app_assoc. by rewrite app_nil_r. }
  rewrite L, E40, E44. split; [unfold HINT_HEADER_LEN; apply ltb_f; lia|].
  split; [rewrite Eb; by apply take_app_len|].
  assert (slice 40 44 data = le_bytes 4 (crc32 out)) as -> by (rewrite Eb; by field 9%nat).
  assert (slice 4 8 data = le_bytes 4 HINT_VERSION) as -> by (rewrite Eb; by field 1%nat).
  assert (slice 8 16 data = le_bytes 8 file_id) as -> by (rewrite Eb; by field 2%nat).
  assert (slice 16 24 data = le_bytes 8 data_len) as -> by (rewrite Eb; by field 3%nat).
  assert (slice 24 32 data = le_bytes 8 count) as -> by (rewrite Eb; by field 4%nat).
  assert (slice 32 33 data = [flag]) as -> by (rewrite Eb; by field 5%nat).
  assert (slice 33 34 data = [if enc then 1 else 0]) as -> by (rewrite Eb; by field 6%nat).
  assert (slice 36 40 data = le_bytes 4 (crc32 stored)) as -> by (rewrite Eb; by field 8%nat).
  rewrite !le_val_u32, !le_val_u64, !le_val_1 by (apply crc32_u32 || done). done.
Qed.

(** A hint written of an index is read back as its entries in order. *)
Lemma hint_read ks ks' n file_id data_len index comp :
  in_u 64 file_id → in_u 64 data_len → in_u 64 (Z.of_nat (size index)) →
  map_Forall (hint_entry_ok data_len) index → len (hint_body index) ≤ MAX_VALUE_LEN →
  keys_ok ks n → keys_read ks' false ks →
  ∃ data, write_hint file_id data_len index comp ks (Some n) = Ok data ∧
  ∃ c, read_hint data ks' = Some (Ok {| h_file_id := file_id; h_data_len := data_len; h_compression := c;
    h_encrypted := match ks with Some _ => true | None => false end;
    h_entries := List.map (fun ke => (ke.1, set_version 0 ke.2)) (entries index) |}).
Proof.
  intros Hf Hd Hs Hok Hlen Hn Hread. pose proof (unpack_of_pack (hint_body index) comp Hlen) as Hun.
  unfold write_hint. destruct (pack (hint_body index) comp) as [packed flag]. cbn [fst snd] in Hun.
  set (enc := match ks with Some _ => true | None => false end).
  assert (∃ stored, match ks with Some k => seal k Hint_ (le_bytes 8 file_id) (Some n) packed | None => Ok packed end = Ok stored ∧
    (if enc then open_with ks' Hint_ (le_bytes 8 file_id) stored else Ok stored) = Ok packed) as (stored & -> & Hopen).
  { destruct ks as [k|]; simpl in Hread; [|by eexists]. destruct Hread as (k' & -> & Hk').
    eexists. split; [apply seal_ok|]. eapply open_seal; [exact Hn|exact Hk'|apply seal_ok]. }
  cbn [mbind result_bind]. eexists. split; [reflexivity|].
  destruct (hint_parts file_id data_len (Z.of_nat (size index)) flag enc stored Hf Hd Hs) as (E1 & E2 & E3 & E4 & E5 & E6 & E7 & E8 & E9 & E10 & E11).
  unfold read_hint. rewrite E1, bool_decide_eq_true_2 by exact E2. rewrite E3, E4, E5, E6, E7, E8, E9, E10, E11, !Z.eqb_refl. cbn [negb orb].
  assert (((if enc then 1 else 0) =? 1) = enc) as -> by by destruct enc.
  assert ((if enc then match open_with ks' Hint_ (le_bytes 8 file_id) stored with Ok b => Ok b | Err e => Err (into_error e) end
           else Ok stored) = Ok packed) as ->.
  { destruct enc; [|congruence]. by rewrite Hopen. }
  rewrite Hun. unfold hint_body. rewrite read_hint_entries; [|apply List.Forall_forall|done|lia].
  - assert (len (List.map (fun ke : str * Entry => (ke.1, set_version 0 ke.2)) (entries index)) = Z.of_nat (size index)) as ->.
    { unfold len. rewrite List.length_map, (Permutation_length (entries_perm index)), length_map_to_list. done. }
    rewrite Z.eqb_refl. cbn [negb]. eexists. reflexivity.
  - intros [k e] Hin. apply list_elem_of_In, elem_of_entries in Hin. exact (Hok k e Hin).
Qed.

(** A hint written of an index is read back as that index: the id of the
    data file, the length it covers, and every key with its entry (without the
    version, which is given anew), compressed or not, sealed or not. *)
Theorem hint_roundtrip ks ks' n file_id data_len index comp :
  in_u 64 file_id → in_u 64 data_len → in_u 64 (Z.of_nat (size index)) →
  map_Forall (hint_entry_ok data_len) index → len (hint_body index) ≤ MAX_VALUE_LEN →
  keys_ok ks n → keys_read ks' false ks →
  ∃ data, write_hint file_id data_len index comp ks (Some n) = Ok data ∧
  ∃ c, read_hint data ks' = Some (Ok {| h_file_id := file_id; h_data_len := data_len; h_compression := c;
    h_encrypted := match ks with Some _ => true | None => false end;
    h_entries := List.map (fun ke => (ke.1, set_version 0 ke.2)) (entries index) |}).
Proof. apply hint_read. Qed.
End hint.

(** ** Evaluation: two keys, one of which is deep in the file, sealed *)
Definition sample_entry (off : Z) : Entry :=
  {| offset := off; ek_size := 1; ev_size := 2; raw_size := 2; e_ty := TString; e_flags := 0; e_timestamp := 1700;
     e_expires_at := 0; version := 7 |}.
Definition sample_index : Index := <[[98] := sample_entry 47]> (<[[97] := sample_entry 16]> ∅).
Lemma sample_hint_ok : map_Forall (hint_entry_ok 78) sample_index.
Proof.
  unfold sample_index. apply map_Forall_insert_2; [|apply map_Forall_insert_2; [|apply map_Forall_empty]];
    (split; [repeat constructor|..]; first [reflexivity|vm_decide|unfold is_byte; simpl; lia|unfold in_u, in_i64, i64_min, i64_max; vm_decide|idtac]).
Qed.
Lemma hint_roundtrip_witness :
  map_Forall (hint_entry_ok 78) sample_index ∧
  ∃ data, write_hint 9 78 sample_index CLz4 (Some (toy_keys 5)) (Some toy_nonce) = Ok data ∧
  ∃ c, read_hint data (Some (toy_keys 5)) = Some (Ok {| h_file_id := 9; h_data_len := 78; h_compression := c; h_encrypted := true;
    h_entries := [([97], set_version 0 (sample_entry 16)); ([98], set_version 0 (sample_entry 47))] |}).
Proof.
  split; [exact sample_hint_ok|].
  apply (hint_roundtrip (Some (toy_keys 5)) (Some (toy_keys 5)) toy_nonce 9 78 sample_index CLz4).
  - by split.
  - by split.
  - by split.
  - exact sample_hint_ok.
  - by vm_compute.
  - done.
  - by eexists.
Defined.
