(* ===== verification/Cache.v ===== *)
(** * [src/cache.rs]: the cache of decoded values

    The values are a parameter. [usize] and [u64] counters are unbounded. *)
From S2P Require Import Prelude Utf8 Util Maps.
Open Scope Z_scope.

Section cache.
  Context {V : Type}.

Record Slot := { value : V; s_version : Z; size : Z; used : Z; pinned : bool }.
Record ValueCache := {
  map : gmap str Slot;
  c_bytes : Z;           (* bytes of the evictable values only *)
  pinned_bytes : Z;
  pinned_count : Z;
  patterns : list str;
  limit : Z;
  clock : Z;
  hits : Z;
  misses : Z;
}.

Definition cost (key : str) (raw_size : Z) : Z := raw_size + str_len key + 96.

Definition new (limit : Z) : ValueCache := {|
  map := ∅; c_bytes := 0; pinned_bytes := 0; pinned_count := 0; patterns := []; limit := limit;
  clock := 0; hits := 0; misses := 0 |}.
Definition enabled (c : ValueCache) : bool := 0 <? limit c.
Definition cache_len (c : ValueCache) : Z := Z.of_nat (base.size (map c)) - pinned_count c.
Definition is_pinned (c : ValueCache) (key : str) : bool := existsb (fun p => glob_match p key) (patterns c).

(** Changing some fields, the others kept. *)
Definition with_map (c : ValueCache) m b pb pc := {|
  map := m; c_bytes := b; pinned_bytes := pb; pinned_count := pc; patterns := patterns c; limit := limit c;
  clock := clock c; hits := hits c; misses := misses c |}.
Definition with_patterns (c : ValueCache) ps := {|
  map := map c; c_bytes := c_bytes c; pinned_bytes := pinned_bytes c; pinned_count := pinned_count c; patterns := ps;
  limit := limit c; clock := clock c; hits := hits c; misses := misses c |}.
Definition with_limit (c : ValueCache) l := {|
  map := map c; c_bytes := c_bytes c; pinned_bytes := pinned_bytes c; pinned_count := pinned_count c;
  patterns := patterns c; limit := l; clock := clock c; hits := hits c; misses := misses c |}.
Definition with_stats (c : ValueCache) cl h mi := {|
  map := map c; c_bytes := c_bytes c; pinned_bytes := pinned_bytes c; pinned_count := pinned_count c;
  patterns := patterns c; limit := limit c; clock := cl; hits := h; misses := mi |}.

Definition remove (key : str) (c : ValueCache) : ValueCache :=
  match map c !! key with
  | None => c
  | Some old =>
    let m := delete key (map c) in
    if pinned old then with_map c m (c_bytes c) (pinned_bytes c - size old) (pinned_count c - 1)
    else with_map c m (c_bytes c - size old) (pinned_bytes c) (pinned_count c)
  end.

Definition pin (pattern : str) (c : ValueCache) : bool * ValueCache :=
  if existsb (fun p => bool_decide (p = pattern)) (patterns c) then (false, c)
  else (true, with_patterns c (patterns c ++ [pattern])).

Definition unpin (pattern : str) (c : ValueCache) : bool * ValueCache :=
  let before := length (patterns c) in
  let c := with_patterns c (List.filter (fun p => negb (bool_decide (p = pattern))) (patterns c)) in
  if Nat.eqb (length (patterns c)) before then (false, c)
  else
    let released := (List.filter (fun ks => pinned ks.2 && negb (is_pinned c ks.1)) (map_to_list (map c))).*1 in
    (true, List.fold_left (fun c k => remove k c) released c).

Definition clear (c : ValueCache) : ValueCache := with_map c ∅ 0 0 0.

(** [retain(|_, s| s.pinned)] *)
Definition drop_evictable (c : ValueCache) : ValueCache :=
  with_map c (filter (fun ks => pinned ks.2 = true) (map c)) 0 (pinned_bytes c) (pinned_count c).

(** Older first; the key decides between slots of the same age ([sort_unstable] on pairs). *)
Definition age_le (x y : Z * str) : Prop := x.1 < y.1 ∨ (x.1 = y.1 ∧ str_le x.2 y.2).
#[export] Instance age_le_dec x y : Decision (age_le x y).
Proof. unfold age_le. apply _. Defined.
Definition by_age (c : ValueCache) : list (Z * str) :=
  merge_sort age_le (List.map (fun ks => (used ks.2, ks.1))
    (List.filter (fun ks => negb (pinned ks.2)) (map_to_list (map c)))).
Fixpoint evict_loop (target : Z) (l : list (Z * str)) (c : ValueCache) : ValueCache :=
  match l with
  | [] => c
  | (_, key) :: l => if c_bytes c <=? target then c else evict_loop target l (remove key c)
  end.
Definition evict (c : ValueCache) : ValueCache :=
  if c_bytes c <=? limit c then c else evict_loop (limit c / 4 * 3) (by_age c) c.

Definition set_limit (l : Z) (c : ValueCache) : ValueCache :=
  let c := with_limit c l in if l =? 0 then drop_evictable c else evict c.

Definition get (key : str) (version : Z) (c : ValueCache) : option V * ValueCache :=
  if negb (enabled c) && (pinned_count c =? 0) then (None, c)
  else
    let c := with_stats c (clock c + 1) (hits c) (misses c) in
    match map c !! key with
    | Some slot =>
      if s_version slot =? version then
        let slot' := {| value := value slot; s_version := s_version slot; size := size slot; used := clock c; pinned := pinned slot |} in
        (Some (value slot),
         with_stats (with_map c (<[key := slot']> (map c)) (c_bytes c) (pinned_bytes c) (pinned_count c))
           (clock c) (hits c + 1) (misses c))
      else let c := remove key c in (None, with_stats c (clock c) (hits c) (misses c + 1))
    | None => (None, with_stats c (clock c) (hits c) (misses c + 1))
    end.

Definition put (key : str) (version : Z) (v : V) (raw_size : Z) (c : ValueCache) : ValueCache :=
  let size := cost key raw_size in
  let pinned := is_pinned c key in
  if negb pinned && (negb (enabled c) || (limit c / 8 <? size)) then c
  else
    let c := with_stats c (clock c + 1) (hits c) (misses c) in
    let c := remove key c in
    let m := <[key := {| value := v; s_version := version; size := size; used := clock c; pinned := pinned |}]> (map c) in
    if pinned then with_map c m (c_bytes c) (pinned_bytes c + size) (pinned_count c + 1)
    else evict (with_map c m (c_bytes c + size) (pinned_bytes c) (pinned_count c)).

(** ** The accounts *)
Definition evictable_size (_ : str) (s : Slot) : Z := if pinned s then 0 else size s.
Definition pinned_size (_ : str) (s : Slot) : Z := if pinned s then size s else 0.
Definition pinned_one (_ : str) (s : Slot) : Z := if pinned s then 1 else 0.

Record counted (c : ValueCache) : Prop := {
  ct_bytes : c_bytes c = msum evictable_size (map c);
  ct_pinned : pinned_bytes c = msum pinned_size (map c);
  ct_count : pinned_count c = msum pinned_one (map c);
  ct_sizes : ∀ k s, map c !! k = Some s → 0 < size s;
}.

Lemma counted_nonneg c : counted c → 0 ≤ c_bytes c ∧ 0 ≤ pinned_bytes c ∧ 0 ≤ pinned_count c.
Proof.
  intros [-> -> -> Hs].
  repeat split; apply msum_nonneg; intros k s Hk; specialize (Hs k s Hk);
    unfold evictable_size, pinned_size, pinned_one; destruct (pinned s); lia.
Qed.

Lemma remove_counted key c : counted c → counted (remove key c).
Proof.
  intros [Hb Hp Hc Hs]. unfold remove. destruct (map c !! key) as [old|] eqn:E; [|by split].
  assert (∀ k s, delete key (map c) !! k = Some s → 0 < size s) as Hs'.
  { intros k s. rewrite lookup_delete_Some. intros []. eauto. }
  destruct (pinned old) eqn:Ep; split; simpl; try done;
    rewrite msum_delete_any, E; unfold evictable_size, pinned_size, pinned_one in *; rewrite Ep; lia.
Qed.
Lemma remove_lookup key c k : map (remove key c) !! k = if decide (k = key) then None else map c !! k.
Proof.
  unfold remove. destruct (map c !! key) eqn:E; [destruct (pinned _)|]; simpl;
    destruct (decide (k = key)) as [->|]; by rewrite ?lookup_delete_eq, ?lookup_delete_ne by done.
Qed.
Lemma remove_limit key c : limit (remove key c) = limit c ∧ patterns (remove key c) = patterns c ∧ clock (remove key c) = clock c.
Proof. unfold remove. destruct (map c !! key); [destruct (pinned _)|]; done. Qed.

Lemma evict_loop_counted t l c : counted c → counted (evict_loop t l c).
Proof.
  revert c. induction l as [|[u k] l IH]; intros c Hc; [done|]. simpl.
  destruct (_ <=? _); [done|]. by apply IH, remove_counted.
Qed.
Lemma evict_counted c : counted c → counted (evict c).
Proof. intros. unfold evict. destruct (_ <=? _); [done|]. by apply evict_loop_counted. Qed.
Lemma with_stats_counted c cl h mi : counted c → counted (with_stats c cl h mi).
Proof. by intros []. Qed.
Lemma with_patterns_counted c ps : counted c → counted (with_patterns c ps).
Proof. by intros []. Qed.
Lemma with_limit_counted c l : counted c → counted (with_limit c l).
Proof. by intros []. Qed.
Lemma drop_evictable_counted c : counted c → counted (drop_evictable c).
Proof.
  intros [Hb Hp Hc Hs]. split; simpl.
  - symmetry. apply msum_zero. intros k s. rewrite map_lookup_filter_Some. intros [_ Hps]. simpl in Hps.
    unfold evictable_size. by rewrite Hps.
  - rewrite msum_filter; [done|]. intros k s _ Hps. unfold pinned_size. simpl in Hps. by destruct (pinned s).
  - rewrite msum_filter; [done|]. intros k s _ Hps. unfold pinned_one. simpl in Hps. by destruct (pinned s).
  - intros k s. rewrite map_lookup_filter_Some. intros []. eauto.
Qed.

(** What is evicted first was used before what stays. *)
#[export] Instance age_le_trans : Transitive age_le.
Proof.
  intros x y z [?|[? ?]] [?|[? ?]]; unfold age_le; [left; lia|left; lia|left; lia|right].
  split; [lia|]. by etrans.
Qed.
#[export] Instance age_le_total : Total age_le.
Proof.
  intros x y. unfold age_le. destruct (Z.lt_trichotomy x.1 y.1) as [|[E|]]; [by left; left| |by right; left].
  destruct (str_le_total x.2 y.2); [left|right]; by right.
Qed.

Lemma elem_of_by_age c u k : (u, k) ∈ by_age c ↔ ∃ s, map c !! k = Some s ∧ pinned s = false ∧ used s = u.
Proof.
  unfold by_age. rewrite merge_sort_Permutation, list_elem_of_fmap. split.
  - intros ([k' s] & [= -> ->] & Hin). apply list_elem_of_In, List.filter_In in Hin as [Hin Hp].
    apply list_elem_of_In, elem_of_map_to_list in Hin. simpl in Hp. exists s. by destruct (pinned s).
  - intros (s & Hk & Hp & <-). exists (k, s). split; [done|]. apply list_elem_of_In, List.filter_In. simpl. rewrite Hp.
    split; [|done]. by apply list_elem_of_In, elem_of_map_to_list.
Qed.
Lemma by_age_sorted c : StronglySorted age_le (by_age c).
Proof. apply StronglySorted_merge_sort; apply _. Qed.

Lemma by_age_NoDup c : NoDup (by_age c).*2.
Proof.
  unfold by_age. rewrite merge_sort_Permutation, <- list_fmap_compose.
  change (NoDup (fst <$> List.filter (fun ks => negb (pinned ks.2)) (map_to_list (map c)))).
  assert (∀ (l : list (str * Slot)) f, NoDup l.*1 → NoDup (List.filter f l).*1) as Hf; [|apply Hf, NoDup_fst_map_to_list].
  intros l f. induction l as [|x l IH]; [done|]. simpl. intros [Hx Hl]%NoDup_cons.
  destruct (f x); [|by apply IH]. simpl. apply NoDup_cons. split; [|by apply IH]. intros Hin. apply Hx.
  apply list_elem_of_fmap in Hin as (y & -> & Hy). apply list_elem_of_In, List.filter_In in Hy as [Hy _].
  apply list_elem_of_fmap. exists y. split; [done|]. by apply list_elem_of_In.
Qed.

(** The loop drops a front part of the list, no longer than it must be. *)
Definition remove_all (l : list (Z * str)) (c : ValueCache) : ValueCache :=
  List.fold_left (fun c uk => remove uk.2 c) l c.
Lemma evict_loop_prefix t l c :
  ∃ n, (n ≤ length l)%nat ∧ evict_loop t l c = remove_all (take n l) c ∧
    ((n < length l)%nat → c_bytes (evict_loop t l c) ≤ t) ∧
    (∀ m, (m < n)%nat → t < c_bytes (remove_all (take m l) c)).
Proof.
  revert c. induction l as [|[u k] l IH]; intros c; [exists O; repeat split; simpl; lia|].
  simpl. destruct (Z.leb_spec (c_bytes c) t) as [Hle|Hgt]; [exists O; repeat split; simpl; lia|].
  destruct (IH (remove k c)) as (n & Hl & Hn & Ht & Hm). exists (S n). split; [lia|]. split; [done|]. split; [intros; apply Ht; lia|].
  intros [|m] Hlt; [done|]. apply Hm. lia.
Qed.
Lemma remove_all_lookup l c k : map (remove_all l c) !! k = if decide (k ∈ l.*2) then None else map c !! k.
Proof.
  revert c. induction l as [|[u k'] l IH]; intros c; [done|]. simpl. rewrite IH, remove_lookup.
  destruct (decide (k ∈ l.*2)) as [Hin|Hin]; [by rewrite decide_True by set_solver|].
  destruct (decide (k = k')) as [->|]; [by rewrite decide_True by set_solver|].
  by rewrite decide_False by set_solver.
Qed.
Lemma remove_all_counted l c : counted c → counted (remove_all l c).
Proof. revert c. induction l as [|x l IH]; intros c Hc; [done|]. by apply IH, remove_counted. Qed.
Lemma remove_all_limit l c : limit (remove_all l c) = limit c ∧ clock (remove_all l c) = clock c.
Proof.
  revert c. induction l as [|x l IH]; intros c; [done|]. simpl. destruct (IH (remove x.2 c)) as [-> ->].
  destruct (remove_limit x.2 c) as (-> & _ & ->). done.
Qed.
Lemma evict_removes c : ∃ l, evict c = remove_all l c.
Proof.
  unfold evict. destruct (_ <=? _); [by exists []|].
  destruct (evict_loop_prefix (limit c / 4 * 3) (by_age c) c) as (n & _ & -> & _). by eexists.
Qed.

(** With every evictable slot gone, no byte is left. *)
Lemma counted_none_left c : counted c → (∀ k s, map c !! k = Some s → pinned s = true) → c_bytes c = 0.
Proof. intros Hc Hn. rewrite (ct_bytes _ Hc). apply msum_zero. intros k s Hk. unfold evictable_size. by rewrite (Hn k s Hk). Qed.
Lemma remove_all_evictable c :
  counted c → c_bytes (remove_all (by_age c) c) = 0.
Proof.
  intros Hc. apply counted_none_left; [by apply remove_all_counted|]. intros k s. rewrite remove_all_lookup.
  destruct (decide _) as [|Hn]; [done|]. intros Hk. destruct (pinned s) eqn:Ep; [done|]. exfalso. apply Hn.
  apply list_elem_of_fmap. exists (used s, k). split; [done|]. apply elem_of_by_age. eauto.
Qed.

Lemma evict_drops_oldest c :
  counted c → 0 ≤ limit c → limit c < c_bytes c →
  c_bytes (evict c) ≤ limit c / 4 * 3 ∧
  (∀ k s, map c !! k = Some s → pinned s = true → map (evict c) !! k = Some s) ∧
  (∀ k s k' s', map c !! k = Some s → map (evict c) !! k = None →
     map (evict c) !! k' = Some s' → pinned s' = false → used s ≤ used s').
Proof.
  intros Hc Hl Hover. unfold evict. rewrite leb_f by done.
  destruct (evict_loop_prefix (limit c / 4 * 3) (by_age c) c) as (n & Hlen & E & Ht & _). rewrite E in *.
  split; [|split].
  - destruct (decide (n < length (by_age c))%nat) as [|Hge]; [by apply Ht|].
    rewrite take_ge by lia. rewrite remove_all_evictable by done. pose proof (Z.div_pos (limit c) 4 Hl). lia.
  - intros k s Hk Hp. rewrite remove_all_lookup, decide_False; [done|].
    intros Hin. apply list_elem_of_fmap in Hin as ([u k'] & -> & Hin). apply elem_of_take in Hin as (i & Hi & _).
    apply list_elem_of_lookup_2, elem_of_by_age in Hi as (s' & Hk' & Hp' & _). simpl in *. congruence.
  - intros k s k' s' Hk. rewrite !remove_all_lookup.
    destruct (decide (k ∈ _)) as [Hin|]; [|congruence]. destruct (decide (k' ∈ _)) as [|Hout]; [done|]. intros _ Hk' Hp'.
    apply list_elem_of_fmap in Hin as ([u k1] & E1 & Hin). simpl in E1. subst k1.
    assert ((u, k) ∈ by_age c) as Hin' by (apply elem_of_take in Hin as (i & Hi & _); by apply list_elem_of_lookup_2 in Hi).
    apply elem_of_by_age in Hin' as (s1 & Hk1 & _ & <-). assert (s1 = s) as -> by congruence.
    assert ((used s', k') ∈ drop n (by_age c)) as Hd.
    { assert ((used s', k') ∈ by_age c) as Hall by (apply elem_of_by_age; eauto).
      rewrite <- (take_drop n (by_age c)) in Hall. apply elem_of_app in Hall as [Hall|Hall]; [|done].
      exfalso. apply Hout, list_elem_of_fmap. by exists (used s', k'). }
    pose proof (by_age_sorted c) as Hs. rewrite <- (take_drop n (by_age c)) in Hs.
    destruct (StronglySorted_app_1_elem_of _ _ _ _ _ Hs Hin Hd) as [Hlt|[Heq _]]; simpl in *; lia.
Qed.
(** Eviction gives back a quarter of the budget: it drops the least recently
    used values, no value used after one that stays, never a pinned one, and
    leaves at most three quarters of the budget in use. *)
Theorem evict_lru c :
  counted c → 0 ≤ limit c → limit c < c_bytes c →
  c_bytes (evict c) ≤ limit c / 4 * 3 ∧
  (∀ k s, map c !! k = Some s → pinned s = true → map (evict c) !! k = Some s) ∧
  (∀ k s k' s', map c !! k = Some s → map (evict c) !! k = None →
     map (evict c) !! k' = Some s' → pinned s' = false → used s ≤ used s').
Proof. apply evict_drops_oldest. Qed.

(** ** Every operation, in any order *)
Inductive CacheOp :=
| OpPut (key : str) (version : Z) (v : V) (raw_size : Z)
| OpGet (key : str) (version : Z)
| OpRemove (key : str)
| OpPin (p : str) | OpUnpin (p : str)
| OpSetLimit (l : Z)
| OpClear | OpDropEvictable.
Definition step (c : ValueCache) (o : CacheOp) : ValueCache :=
  match o with
  | OpPut k v x r => put k v x r c
  | OpGet k v => (get k v c).2
  | OpRemove k => remove k c
  | OpPin p => (pin p c).2
  | OpUnpin p => (unpin p c).2
  | OpSetLimit l => set_limit l c
  | OpClear => clear c
  | OpDropEvictable => drop_evictable c
  end.
Definition run (c : ValueCache) (ops : list CacheOp) : ValueCache := List.fold_left step ops c.
(** Sizes are those of machine words. *)
Definition op_ok (o : CacheOp) : Prop :=
  match o with OpPut _ _ _ r => 0 ≤ r | OpSetLimit l => 0 ≤ l | _ => True end.

(** The slots, with what was written: [w k version value]. *)
Record cache_ok (w : str → Z → V → Prop) (c : ValueCache) : Prop := {
  ok_counted : counted c;
  ok_limit : 0 ≤ limit c;
  ok_bytes : c_bytes c ≤ limit c;
  ok_clock : ∀ k s, map c !! k = Some s → used s ≤ clock c;
  ok_from : ∀ k s, map c !! k = Some s → w k (s_version s) (value s);
}.

Lemma cost_pos key r : 0 ≤ r → 0 < cost key r.
Proof. unfold cost, str_len. pose proof (len_nonneg (utf8 key)). lia. Qed.

Lemma cache_remove_ok w key c : cache_ok w c → cache_ok w (remove key c).
Proof.
  intros [Hc Hl Hb Hk Hf]. destruct (remove_limit key c) as (El & _ & Ek). split; rewrite ?El, ?Ek; try done.
  - by apply remove_counted.
  - unfold remove. destruct (map c !! key) as [s|] eqn:E; [|done]. pose proof (ct_sizes _ Hc key s E).
    destruct (pinned s); simpl; lia.
  - intros k s. rewrite remove_lookup. destruct (decide _); [done|]. eauto.
  - intros k s. rewrite remove_lookup. destruct (decide _); [done|]. eauto.
Qed.
Lemma remove_all_ok w l c : cache_ok w c → cache_ok w (remove_all l c).
Proof. revert c. induction l as [|x l IH]; intros c Hc; [done|]. by apply IH, cache_remove_ok. Qed.
(** Eviction brings an overfull cache under its budget. *)
Lemma evict_ok w c :
  counted c → 0 ≤ limit c → (∀ k s, map c !! k = Some s → used s ≤ clock c ∧ w k (s_version s) (value s)) →
  cache_ok w (evict c).
Proof.
  intros Hc Hl Hs. assert (c_bytes (evict c) ≤ limit c) as Hb.
  { destruct (Z.le_gt_cases (c_bytes c) (limit c)) as [Hle|Hgt].
    - unfold evict. by rewrite leb_t by done.
    - destruct (evict_drops_oldest c Hc Hl Hgt) as [Hq _]. pose proof (Z.mul_div_le (limit c) 4). lia. }
  destruct (evict_removes c) as [l E]. rewrite E in *. destruct (remove_all_limit l c) as [El Ek].
  split; rewrite ?El, ?Ek; try done; [by apply remove_all_counted| |];
    intros k s; rewrite remove_all_lookup; destruct (decide _); try done; intros Hk; by destruct (Hs k s Hk).
Qed.

Lemma put_ok (w : str → Z → V → Prop) k v x r c : 0 ≤ r → w k v x → cache_ok w c → cache_ok w (put k v x r c).
Proof.
  intros Hr Hw Hc. unfold put. destruct (negb _ && _); [done|].
  set (c1 := with_stats c _ _ _). assert (cache_ok w c1) as Hc1.
  { destruct Hc as [Hct ? ? Hk ?]. split; try done; [by apply with_stats_counted|].
    intros k' s Hk'. specialize (Hk k' s Hk'). simpl. lia. }
  pose proof (cache_remove_ok w k c1 Hc1) as Hc2. set (c2 := remove k c1) in *.
  assert (map c2 !! k = None) as Hnone by (unfold c2; rewrite remove_lookup; by rewrite decide_True).
  pose proof (cost_pos k r Hr) as Hpos. destruct Hc2 as [[Hb Hp Hn Hs] Hl Hle Hk Hf].
  match goal with |- context [<[k:=?sl]> _] => set (slot := sl) end.
  assert (∀ k' s, <[k:=slot]> (map c2) !! k' = Some s → s = slot ∧ k' = k ∨ map c2 !! k' = Some s) as Hcase.
  { intros k' s. rewrite lookup_insert_Some. naive_solver. }
  destruct (is_pinned c k) eqn:Epin.
  - split; simpl; try done.
    + split; simpl; rewrite ?msum_insert by done; unfold slot, evictable_size, pinned_size, pinned_one in *; simpl; try lia.
      intros k' s [[-> _]|]%Hcase; simpl; eauto.
    + intros k' s [[-> _]|]%Hcase; simpl; [lia|eauto].
    + intros k' s [[-> ->]|]%Hcase; simpl; eauto.
  - apply evict_ok; simpl; try done.
    + split; simpl; rewrite ?msum_insert by done; unfold slot, evictable_size, pinned_size, pinned_one in *; simpl; try lia.
      intros k' s [[-> _]|]%Hcase; simpl; eauto.
    + intros k' s [[-> ->]|]%Hcase; simpl; [split; [lia|done]|eauto].
Qed.

Lemma get_ok w k v c : cache_ok w c → cache_ok w (get k v c).2.
Proof.
  intros Hc. unfold get. destruct (negb _ && _); [done|].
  set (c1 := with_stats c _ _ _). assert (cache_ok w c1) as Hc1.
  { destruct Hc as [Hct ? ? Hk ?]. split; try done; [by apply with_stats_counted|].
    intros k' s Hk'. specialize (Hk k' s Hk'). simpl. lia. }
  assert (∀ c' h m, cache_ok w c' → cache_ok w (with_stats c' (clock c') h m)) as Hst.
  { intros c' h m []. by split; [apply with_stats_counted| | | |]. }
  destruct (map c1 !! k) as [slot|] eqn:E; [|by apply Hst]. destruct (_ =? _); [|by apply Hst, cache_remove_ok].
  destruct Hc1 as [[Hb Hp Hn Hs] Hl Hle Hk Hf]. unfold c1 in *. simpl in *.
  set (slot' := {| used := _ |}).
  assert (∀ k' s, <[k:=slot']> (map c) !! k' = Some s → s = slot' ∧ k' = k ∨ map c !! k' = Some s) as Hcase.
  { intros k' s. rewrite lookup_insert_Some. naive_solver. }
  split; simpl; try done.
  - split; simpl; rewrite ?msum_insert_over, ?E; unfold evictable_size, pinned_size, pinned_one, slot' in *; simpl; try lia.
    intros k' s [[-> _]|]%Hcase; simpl; [by apply (Hs k)|eauto].
  - intros k' s [[-> _]|Hk']%Hcase; simpl; [lia|by apply (Hk k')].
  - intros k' s [[-> ->]|]%Hcase; simpl; [by apply Hf|eauto].
Qed.

Lemma cache_step_ok w c o :
  op_ok o → (∀ k v x r, o = OpPut k v x r → w k v x) → cache_ok w c → cache_ok w (step c o).
Proof.
  intros Ho Hw Hc. destruct o as [k v x r|k v|k|p|p|l| |]; simpl.
  - apply put_ok; [done|by eapply Hw|done].
  - by apply get_ok.
  - by apply cache_remove_ok.
  - unfold pin. destruct (existsb _ _); [done|]. destruct Hc. by split; [apply with_patterns_counted| | | |].
  - unfold unpin. destruct (Nat.eqb _ _); simpl.
    + destruct Hc. by split; [apply with_patterns_counted| | | |].
    + assert (∀ l c, cache_ok w c → cache_ok w (List.fold_left (fun c k => remove k c) l c)) as Hfold.
      { induction l as [|y l IH]; intros c' Hc'; [done|]. by apply IH, cache_remove_ok. }
      apply Hfold. destruct Hc. by split; [apply with_patterns_counted| | | |].
  - unfold set_limit. destruct (Z.eqb_spec l 0) as [->|].
    + destruct Hc as [Hct ? ? Hk Hf]. split; [by apply drop_evictable_counted, with_limit_counted|done|done| |];
        simpl; intros k s; rewrite map_lookup_filter_Some; intros []; eauto.
    + destruct Hc as [Hct ? ? Hk Hf]. apply evict_ok; [by apply with_limit_counted|done|]. simpl. eauto.
  - destruct Hc. split; simpl; try done; try lia.
  - destruct Hc as [Hct ? ? Hk Hf]. split; [by apply drop_evictable_counted|done|simpl; lia| |];
      simpl; intros k s; rewrite map_lookup_filter_Some; intros []; eauto.
Qed.

Lemma cache_run_ok w c ops :
  Forall op_ok ops → (∀ k v x r, OpPut k v x r ∈ ops → w k v x) → cache_ok w c → cache_ok w (run c ops).
Proof.
  intros Ho. revert c. induction Ho as [|o ops Ho _ IH]; intros c Hw Hc; [done|]. simpl. apply IH.
  - intros. apply (Hw k v x r). set_solver.
  - apply cache_step_ok; [done| |done]. intros k v x r ->. apply (Hw k v x r). set_solver.
Qed.
Lemma cache_new_ok w l : 0 ≤ l → cache_ok w (new l).
Proof. intros. by split. Qed.

(** C28: after any operations the accounts of the cache are those of what it
    holds, its evictable values fit the budget, and it gives back only a value
    that was stored for that very key and version: never a stale one. *)
Theorem cache_sound limit0 ops :
  0 ≤ limit0 → Forall op_ok ops →
  counted (run (new limit0) ops) ∧ c_bytes (run (new limit0) ops) ≤ limit (run (new limit0) ops) ∧
  ∀ k v x, (get k v (run (new limit0) ops)).1 = Some x → ∃ r, OpPut k v x r ∈ ops.
Proof.
  intros Hl Ho. set (w := fun k v x => ∃ r, OpPut k v x r ∈ ops).
  destruct (cache_run_ok w (new limit0) ops) as [Hc _ Hb _ Hf]; [done|by intros; eexists|by apply cache_new_ok|].
  split; [done|]. split; [done|]. intros k v x. unfold get. destruct (negb _ && _); [done|].
  simpl. destruct (map (run (new limit0) ops) !! k) as [s|] eqn:E; [|done].
  destruct (Z.eqb_spec (s_version s) v) as [<-|]; [|done]. simpl. intros [= <-]. by apply (Hf k s).
Qed.

Lemma sorted_last (l : list (Z * str)) x :
  StronglySorted age_le l → NoDup l → x ∈ l → (∀ y, y ∈ l → y ≠ x → y.1 < x.1) → ∃ l', l = l' ++ [x].
Proof.
  intros Hs Hd Hx Hmax. apply list_elem_of_split in Hx as (l1 & l2 & ->). exists l1. f_equal. f_equal.
  destruct l2 as [|y l2]; [done|]. exfalso.
  assert (y ≠ x) as Hne.
  { intros ->. apply NoDup_app in Hd as (_ & _ & Hd). apply NoDup_cons in Hd as [Hd _]. set_solver. }
  specialize (Hmax y ltac:(set_solver) Hne).
  rewrite cons_middle, app_assoc in Hs.
  destruct (StronglySorted_app_1_elem_of _ _ _ x y Hs ltac:(set_solver) ltac:(set_solver)) as [|[? _]]; lia.
Qed.
Lemma remove_all_none_left c l u k s :
  counted c → by_age c = l ++ [(u, k)] → map c !! k = Some s → pinned s = false →
  c_bytes (remove_all l c) = size s.
Proof.
  intros Hc E Hk Hp. pose proof (remove_all_evictable c Hc) as H0. rewrite E in H0.
  unfold remove_all in H0. rewrite List.fold_left_app in H0. fold (remove_all l c) in H0. simpl in H0.
  unfold remove in H0. pose proof (by_age_NoDup c) as Hd. rewrite E, fmap_app in Hd.
  apply NoDup_app in Hd as (_ & Hd & _).
  assert (map (remove_all l c) !! k = Some s) as Hk'.
  { rewrite remove_all_lookup, decide_False; [done|]. intros Hin. apply (Hd k Hin). set_solver. }
  rewrite Hk', Hp in H0. simpl in H0. lia.
Qed.

(** What was just stored is served: a value that fits (at most an eighth
    of the budget, or pinned) is there for the next read of that version, and
    a read of another version misses and forgets it. *)
Theorem cache_put_get limit0 ops k v x r :
  0 ≤ limit0 → Forall op_ok ops → 0 ≤ r →
  let c := run (new limit0) ops in
  is_pinned c k = true ∨ (0 < limit c ∧ cost k r ≤ limit c / 8) →
  (get k v (put k v x r c)).1 = Some x ∧
  ∀ v', v' ≠ v → (get k v' (put k v x r c)).1 = None ∧ map (get k v' (put k v x r c)).2 !! k = None.
Proof.
  intros Hl Ho Hr c Hfit.
  assert (cache_ok (fun _ _ _ => True) c) as Hc by (by apply cache_run_ok; [..|by apply cache_new_ok]).
  assert ((∃ s, map (put k v x r c) !! k = Some s ∧ s_version s = v ∧ value s = x) ∧
          (enabled (put k v x r c) = true ∨ 0 < pinned_count (put k v x r c))) as [(s & Hk & Hv & Hx) Hon].
  2:{ assert (negb (enabled (put k v x r c)) && (pinned_count (put k v x r c) =? 0) = false) as E.
      { destruct Hon as [->|Hon]; [done|]. rewrite (proj2 (Z.eqb_neq _ 0)) by lia. apply andb_false_r. }
      unfold get. rewrite E. simpl. rewrite Hk, Hv. split; [by rewrite Z.eqb_refl, Hx|].
      intros v' Hne. rewrite (proj2 (Z.eqb_neq _ _)) by done. simpl. split; [done|].
      rewrite remove_lookup. by rewrite decide_True. }
  unfold put. destruct (is_pinned c k) eqn:Ep; simpl.
  - split; [eexists; split; [apply lookup_insert_eq|done]|]. right.
    assert (counted (remove k (with_stats c (clock c + 1) (hits c) (misses c)))) as Hcr
      by (apply remove_counted, with_stats_counted, Hc).
    apply counted_nonneg in Hcr. lia.
  - destruct Hfit as [|[Hpos Hfit]]; [done|]. assert (enabled c = true) as -> by (by apply ltb_t). rewrite ltb_f by done. simpl.
    set (c1 := with_stats c _ _ _). assert (cache_ok (fun _ _ _ => True) c1) as Hc1.
    { destruct Hc as [Hct ? ? Hk ?]. split; try done; [by apply with_stats_counted|].
      intros k' s Hk'. specialize (Hk k' s Hk'). simpl. lia. }
    assert (∀ k' s, map (remove k c1) !! k' = Some s → used s < clock c1) as Hold.
    { intros k' s. rewrite remove_lookup. destruct (decide _); [done|]. intros Hk'.
      pose proof (ok_clock _ _ Hc k' s Hk'). simpl. lia. }
    destruct (remove_limit k c1) as (El & _ & Ek).
    pose proof (cache_remove_ok _ k c1 Hc1) as Hc2. set (c2 := remove k c1) in *.
    assert (map c2 !! k = None) as Hnone by (unfold c2; rewrite remove_lookup; by rewrite decide_True).
    match goal with |- context [<[k:=?sl]> _] => set (slot := sl) end.
    pose proof (cost_pos k r Hr) as Hcp.
    match goal with |- context [evict ?c'] => set (c3 := c') end.
    assert (counted c3) as Hct3.
    { destruct Hc2 as [[Hb Hp Hn Hs] _ _ _ _]. split; simpl; rewrite ?msum_insert by done;
        unfold slot, evictable_size, pinned_size, pinned_one in *; simpl; try lia.
      intros k' s. rewrite lookup_insert_Some. intros [[-> <-]|[_ ?]]; simpl; eauto. }
    assert (map c3 !! k = Some slot) as Hk3 by apply lookup_insert_eq.
    split.
    2:{ left. unfold enabled. destruct (evict_removes c3) as [l ->]. destruct (remove_all_limit l c3) as [-> _].
        apply ltb_t. simpl. rewrite El. done. }
    exists slot. split; [|done]. unfold evict. destruct (Z.leb_spec (c_bytes c3) (limit c3)) as [|Hover]; [done|].
    destruct (evict_loop_prefix (limit c3 / 4 * 3) (by_age c3) c3) as (n & Hlen & -> & _ & Hm).
    rewrite remove_all_lookup, decide_False; [done|]. intros Hin.
    assert (∃ l, by_age c3 = l ++ [(used slot, k)]) as [l El3].
    { apply sorted_last; [apply by_age_sorted|apply NoDup_fmap_1 with (f := snd), by_age_NoDup| |].
      - apply elem_of_by_age. by exists slot.
      - intros [u' k'] Hy Hne. apply elem_of_by_age in Hy as (s' & Hk' & _ & <-). simpl in Hk' |- *.
        apply lookup_insert_Some in Hk' as [[<- <-]|[_ Hk']]; [done|]. rewrite Ek. by eapply Hold. }
    apply list_elem_of_fmap in Hin as ([u k'] & E' & Hin). simpl in E'. subst k'.
    assert (n = length (by_age c3)) as ->.
    { destruct (decide (n < length (by_age c3))%nat) as [Hlt|]; [|lia]. exfalso.
      rewrite El3, length_app in Hlt. simpl in Hlt. rewrite El3, take_app_le in Hin by lia.
      pose proof (by_age_NoDup c3) as Hd. rewrite El3, fmap_app in Hd. apply NoDup_app in Hd as (_ & Hd & _).
      apply (Hd k); [|set_solver]. apply list_elem_of_fmap. exists (u, k). split; [done|].
      apply elem_of_take in Hin as (i & Hi & _). by apply list_elem_of_lookup_2 in Hi. }
    specialize (Hm (length l)). rewrite El3, length_app in Hm. simpl in Hm. rewrite take_app_length in Hm.
    rewrite (remove_all_none_left c3 l _ k slot) in Hm by done. simpl in Hm. rewrite El in Hm.
    simpl in Hm. specialize (Hm ltac:(lia)). pose proof (Z.mul_div_le (limit c) 8). pose proof (Z.mul_div_le (limit c) 4).
    pose proof (Z.mod_pos_bound (limit c) 4). pose proof (Z.div_mod (limit c) 4). lia.
Qed.
End cache.
Arguments ValueCache : clear implicits.
Arguments Slot : clear implicits.
Arguments CacheOp : clear implicits.

(** ** Evaluations *)
Definition sample_ops : list (CacheOp Z) := [OpPut (lit "a") 1 10 1; OpPin (lit "b*"); OpPut (lit "b1") 1 20 5; OpGet (lit "a") 1].
Lemma sample_ops_ok : Forall op_ok sample_ops.
Proof. repeat constructor; unfold op_ok; lia. Qed.
Definition tight : ValueCache Z := with_limit (run (new 1000) sample_ops) 50.
Lemma tight_counted : counted tight.
Proof.
  apply with_limit_counted. eapply ok_counted, (cache_run_ok (fun _ _ _ => True)); [apply sample_ops_ok|done|by apply cache_new_ok].
Qed.

Lemma evict_lru_witness :
  limit tight < c_bytes tight ∧ c_bytes (evict tight) ≤ 36.
Proof.
  assert (0 ≤ limit tight ∧ limit tight < c_bytes tight) as [H1 H2] by (by vm_compute).
  exact (conj H2 (proj1 (evict_lru tight tight_counted H1 H2))).
Defined.
Lemma cache_sound_witness :
  Forall op_ok sample_ops ∧ c_bytes (run (new 1000) sample_ops) ≤ limit (run (new 1000) sample_ops).
Proof.
  exact (conj sample_ops_ok (proj1 (proj2 (cache_sound 1000 sample_ops (ltac:(lia) : 0 ≤ 1000) sample_ops_ok)))).
Defined.
Lemma cache_put_get_witness :
  Forall op_ok sample_ops ∧ (get (lit "c") 7 (put (lit "c") 7 30 4 (run (new 1000) sample_ops))).1 = Some 30.
Proof.
  refine (conj sample_ops_ok (proj1 (cache_put_get 1000 sample_ops (lit "c") 7 30 4 _ sample_ops_ok _ _))); [lia|lia|].
  right. by vm_compute.
Defined.
