(* ===== verification/SecIndex.v ===== *)
(** * [src/engine.rs]: secondary indexes and unique values

    The documents and the sortable form of their scalar fields are an
    interface, [Leaves]: [leaf] is [DocView::get] followed by [SKey::from_leaf],
    [lower] puts a text key in small letters, [tuple] joins several keys.
    A [BTreeSet] or [HashMap] of keys is a set or a map; the order in which
    [holders] finds a key only shows in the text of the error. *)
From S2P Require Import Prelude Utf8 Util Maps.
Open Scope Z_scope.

Class Leaves := {
  Doc : Type;
  Path : Type;
  SKey : Type;
  SKey_eq :: EqDecision SKey;
  SKey_countable :: Countable SKey;
  leaf : Doc → Path → option SKey;
  lower : SKey → SKey;
  tuple : list SKey → SKey;
}.

Inductive IndexKind := BTree | Hash.
Definition IndexKind_name (k : IndexKind) : str := match k with BTree => lit "btree" | Hash => lit "hash" end.
Definition ascii_lower (c : Z) : Z := if (chr "A" <=? c) && (c <=? chr "Z") then c + 32 else c.
Definition IndexKind_parse (s : str) : option IndexKind :=
  let s := List.map ascii_lower s in
  if decide (s = lit "btree") then Some BTree
  else if decide (s = lit "b-tree") then Some BTree
  else if decide (s = lit "hash") then Some Hash
  else None.

Section sec_index.
  Context `{Leaves}.

(** ** Postings: a value and the keys of the documents that hold it *)
Abbreviation Postings := (gmap SKey (gset str)).
Definition post_get (m : Postings) (sk : SKey) : gset str := default ∅ (m !! sk).
Definition post_add (sk : SKey) (key : str) (m : Postings) : Postings := <[sk := {[key]} ∪ post_get m sk]> m.
Definition post_take (sk : SKey) (key : str) (m : Postings) : Postings :=
  match m !! sk with
  | None => m
  | Some set =>
    let set' := set ∖ {[key]} in
    let emptied := bool_decide (key ∈ set) && bool_decide (set' = ∅) in
    if emptied then delete sk m else <[sk := set']> m
  end.
Definition distinct (m : Postings) : nat := size m.

(** ** One index *)
Record SecIndex := {
  pattern : str;
  field : str;
  paths : list Path;
  kind : IndexKind;
  unique : bool;
  fold : bool;
  map : Postings;
  rev : gmap str SKey;
}.
Definition with_maps (s : SecIndex) (m : Postings) (r : gmap str SKey) : SecIndex :=
  {| pattern := pattern s; field := field s; paths := paths s; kind := kind s; unique := unique s; fold := fold s; map := m; rev := r |}.
Definition new (p fl : str) (ps : list Path) (k : IndexKind) (u f : bool) : SecIndex :=
  {| pattern := p; field := fl; paths := ps; kind := k; unique := u; fold := f; map := ∅; rev := ∅ |}.
Definition clear (s : SecIndex) : SecIndex := with_maps s ∅ ∅.

Definition value_one (s : SecIndex) (doc : Doc) (path : Path) : option SKey :=
  sk ← leaf doc path; Some (if fold s then lower sk else sk).
(** The indexed value of [doc]; on several fields, all of them must be there. *)
Definition value (s : SecIndex) (doc : Doc) : option SKey :=
  match paths s with
  | [path] => value_one s doc path
  | ps => tuple <$> mapM (value_one s doc) ps
  end.

(** The keys other than [key] that hold [sk], when the index is unique. *)
Definition holders (s : SecIndex) (key : str) (sk : SKey) : list str :=
  if unique s then List.filter (fun k => negb (bool_decide (k = key))) (elements (post_get (map s) sk)) else [].

Definition remove (key : str) (s : SecIndex) : SecIndex :=
  match rev s !! key with
  | None => s
  | Some sk => with_maps s (post_take sk key (map s)) (delete key (rev s))
  end.

Definition update (key : str) (doc : option Doc) (s : SecIndex) : SecIndex :=
  if negb (glob_match (pattern s) key) then s
  else
    let sk := doc ≫= value s in
    if bool_decide (rev s !! key = sk) then s
    else
      let s := remove key s in
      match sk with
      | None => s
      | Some sk => with_maps s (post_add sk key (map s)) (<[key := sk]> (rev s))
      end.

(** [check_unique] for one index; [alive] says which keys the index of the
    workspace holds and have not expired. The writes are judged one after the
    other, [taken] by what the writes before hold. *)
Fixpoint check_writes (s : SecIndex) (alive : str → bool) (all writes : list (str * option Doc)) (taken : gmap SKey str)
    : result KivaError unit :=
  match writes with
  | [] => Ok tt
  | (key, doc) :: writes =>
    if negb (glob_match (pattern s) key) then check_writes s alive all writes taken
    else
      match doc ≫= value s with
      | None => check_writes s alive all writes taken
      | Some sk =>
        let other := match taken !! sk with
          | Some k => Some k
          | None => List.find (fun k => negb (existsb (fun w => bool_decide (w.1 = k)) all) && alive k) (holders s key sk)
          end in
        match other with
        | Some _ => Err (Unique "'{key}' not written: '{other}' already holds {} in the unique index on {}")
        | None => check_writes s alive all writes (<[sk := key]> taken)
        end
      end
  end.
Fixpoint check_unique (sec : list SecIndex) (alive : str → bool) (writes : list (str * option Doc)) : result KivaError unit :=
  match sec with
  | [] => Ok tt
  | s :: sec =>
    if unique s then _ ← check_writes s alive writes writes ∅; check_unique sec alive writes
    else check_unique sec alive writes
  end.

(** ** The two maps agree *)
Record sec_ok (s : SecIndex) : Prop := {
  so_map : ∀ sk k, k ∈ post_get (map s) sk ↔ rev s !! k = Some sk;
  so_nonempty : ∀ sk set, map s !! sk = Some set → set ≠ ∅;
  so_pattern : ∀ k, is_Some (rev s !! k) → glob_match (pattern s) k = true;
}.

Lemma sec_new_ok p fl ps k u f : sec_ok (new p fl ps k u f).
Proof. by split; unfold post_get; simpl; intros *; rewrite ?lookup_empty; [set_solver| |intros []]. Qed.

Lemma post_get_add m sk key sk' :
  post_get (post_add sk key m) sk' = if decide (sk' = sk) then {[key]} ∪ post_get m sk else post_get m sk'.
Proof.
  unfold post_add. unfold post_get at 1. destruct (decide (sk' = sk)) as [->|Hne].
  - by rewrite lookup_insert_eq.
  - by rewrite lookup_insert_ne.
Qed.
Lemma post_get_take m sk key sk' :
  post_get (post_take sk key m) sk' = if decide (sk' = sk) then post_get m sk ∖ {[key]} else post_get m sk'.
Proof.
  unfold post_take, post_get. destruct (m !! sk) as [set|] eqn:E; simpl.
  - destruct (bool_decide_reflect (set ∖ {[key]} = ∅)) as [Ee|Hne]; [destruct (bool_decide_reflect (key ∈ set))|rewrite andb_false_r]; simpl.
    + destruct (decide (sk' = sk)) as [->|]; [by rewrite lookup_delete_eq, Ee|by rewrite lookup_delete_ne].
    + destruct (decide (sk' = sk)) as [->|]; [by rewrite lookup_insert_eq|by rewrite lookup_insert_ne].
    + destruct (decide (sk' = sk)) as [->|]; [by rewrite lookup_insert_eq|by rewrite lookup_insert_ne].
  - destruct (decide (sk' = sk)) as [->|]; [|done]. rewrite E. simpl. set_solver.
Qed.

Lemma remove_rev key s : rev (remove key s) = delete key (rev s).
Proof. unfold remove. destruct (rev s !! key) eqn:E; [done|]. by rewrite delete_id. Qed.
Lemma remove_fields key s : pattern (remove key s) = pattern s ∧ value (remove key s) = value s ∧ unique (remove key s) = unique s.
Proof. unfold remove. by destruct (rev s !! key). Qed.
Lemma sec_remove_ok key s : sec_ok s → sec_ok (remove key s).
Proof.
  intros [Hm Hn Hp]. destruct (remove_fields key s) as (Ep & _ & _). unfold remove in *.
  destruct (rev s !! key) as [sk|] eqn:E; [|by split]. split; cbn [map rev pattern with_maps].
  - intros sk' k. rewrite post_get_take. destruct (decide (sk' = sk)) as [->|Hne].
    + rewrite elem_of_difference, Hm, elem_of_singleton. destruct (decide (k = key)) as [->|].
      * rewrite lookup_delete_eq. naive_solver.
      * rewrite lookup_delete_ne by done. naive_solver.
    + rewrite Hm. destruct (decide (k = key)) as [->|].
      * rewrite lookup_delete_eq, E. naive_solver.
      * by rewrite lookup_delete_ne.
  - intros sk' set. unfold post_take. destruct (map s !! sk) as [set0|] eqn:Es; [|apply Hn].
    assert (key ∈ set0) as Hin.
    { pose proof (proj2 (Hm sk key) E) as Hk. unfold post_get in Hk. by rewrite Es in Hk. }
    rewrite (bool_decide_true (key ∈ set0)) by done. simpl. case_bool_decide as He.
    + rewrite lookup_delete_Some. intros []. by eapply Hn.
    + rewrite lookup_insert_Some. intros [[_ <-]|[_ ?]]; [done|by eapply Hn].
  - intros k. destruct (decide (k = key)) as [->|]; [rewrite lookup_delete_eq; by intros []|].
    rewrite lookup_delete_ne by done. apply Hp.
Qed.

Lemma update_rev key doc s :
  rev (update key doc s) =
  if negb (glob_match (pattern s) key) then rev s else partial_alter (fun _ => doc ≫= value s) key (rev s).
Proof.
  unfold update. destruct (negb _); [done|]. case_bool_decide as E.
  - apply map_eq. intros k. destruct (decide (k = key)) as [->|].
    + by rewrite lookup_partial_alter_eq.
    + by rewrite lookup_partial_alter_ne.
  - destruct (doc ≫= value s) as [sk|]; cbn [rev with_maps]; rewrite remove_rev; [|done].
    apply map_eq. intros k. destruct (decide (k = key)) as [->|].
    + by rewrite lookup_partial_alter_eq, lookup_insert_eq.
    + by rewrite lookup_partial_alter_ne, lookup_insert_ne, lookup_delete_ne.
Qed.
Lemma update_fields key doc s :
  pattern (update key doc s) = pattern s ∧ value (update key doc s) = value s ∧ unique (update key doc s) = unique s.
Proof.
  unfold update. destruct (negb _); [done|]. case_bool_decide; [done|].
  destruct (doc ≫= value s); [|apply remove_fields]. unfold value at 1, value_one. cbn. apply (remove_fields key s).
Qed.
Lemma sec_update_ok key doc s : sec_ok s → sec_ok (update key doc s).
Proof.
  intros Hs. unfold update. destruct (glob_match (pattern s) key) eqn:Eg; [|done]. simpl.
  case_bool_decide as E; [done|]. pose proof (sec_remove_ok key s Hs) as Hr.
  destruct (doc ≫= value s) as [sk|]; [|done]. destruct Hr as [Hm Hn Hp].
  assert (rev (remove key s) !! key = None) as Hnone by (by rewrite remove_rev, lookup_delete_eq).
  split; cbn [map rev pattern with_maps].
  - intros sk' k. rewrite post_get_add. destruct (decide (sk' = sk)) as [->|Hne].
    + rewrite elem_of_union, elem_of_singleton, Hm. destruct (decide (k = key)) as [->|].
      * rewrite lookup_insert_eq. naive_solver.
      * rewrite lookup_insert_ne by done. naive_solver.
    + rewrite Hm. destruct (decide (k = key)) as [->|].
      * rewrite lookup_insert_eq, Hnone. naive_solver.
      * by rewrite lookup_insert_ne.
  - intros sk' set. unfold post_add. rewrite lookup_insert_Some. intros [[_ <-]|[_ ?]]; [set_solver|by eapply Hn].
  - intros k. destruct (decide (k = key)) as [->|].
    + intros _. destruct (remove_fields key s) as (-> & _). done.
    + rewrite lookup_insert_ne by done. apply Hp.
Qed.

(** ** Many writes *)
Definition update_all (writes : list (str * option Doc)) (s : SecIndex) : SecIndex :=
  List.fold_left (fun s w => update w.1 w.2 s) writes s.
Lemma update_all_ok writes s : sec_ok s → sec_ok (update_all writes s).
Proof. revert s. induction writes as [|w ws IH]; intros s Hs; [done|]. by apply IH, sec_update_ok. Qed.
(** What the index says of a key, after writes to distinct keys. *)
Lemma update_all_rev writes s k :
  NoDup writes.*1 →
  rev (update_all writes s) !! k =
  match List.find (fun w => bool_decide (w.1 = k)) writes with
  | Some w => if glob_match (pattern s) k then w.2 ≫= value s else rev s !! k
  | None => rev s !! k
  end.
Proof.
  revert s. induction writes as [|[key doc] ws IH]; intros s; [done|]. simpl. intros [Hnin Hd]%NoDup_cons.
  rewrite IH by done. destruct (update_fields key doc s) as (Ep & Ev & _). rewrite update_rev, Ep.
  destruct (decide (key = k)) as [->|Hne].
  - rewrite (bool_decide_true (k = k)) by done.
    assert (List.find (fun w => bool_decide (w.1 = k)) ws = None) as ->.
    { destruct (List.find _ ws) as [w|] eqn:E; [|done]. apply List.find_some in E as [Hin Hk].
      apply bool_decide_eq_true in Hk as <-. exfalso. apply Hnin, list_elem_of_fmap. exists w. split; [done|]. by apply list_elem_of_In. }
    destruct (glob_match (pattern s) k); [|done]. simpl. by rewrite lookup_partial_alter_eq.
  - rewrite (bool_decide_false (key = k)) by done.
    assert (rev (update key doc s) !! k = rev s !! k) as E.
    { rewrite update_rev. destruct (negb _); [done|]. by rewrite lookup_partial_alter_ne. }
    rewrite update_rev in E. rewrite E.
    destruct (List.find _ ws) as [w|]; [|done]. destruct (glob_match _ k); [|done]. by rewrite Ev.
Qed.

(** No two live keys hold the same value. *)
Definition no_duplicates (s : SecIndex) (alive : str → bool) : Prop :=
  ∀ k1 k2 sk, rev s !! k1 = Some sk → rev s !! k2 = Some sk → alive k1 = true → alive k2 = true → k1 = k2.

(** What [check_writes] tested, when it accepts. *)
Lemma check_writes_ok s alive all writes taken :
  check_writes s alive all writes taken = Ok tt →
  (∀ key doc sk, (key, doc) ∈ writes → glob_match (pattern s) key = true → doc ≫= value s = Some sk →
     taken !! sk = None ∧
     ∀ k, k ∈ holders s key sk → (∃ d, (k, d) ∈ all) ∨ alive k = false) ∧
  (∀ i j key1 doc1 key2 doc2 sk, (i < j)%nat → writes !! i = Some (key1, doc1) → writes !! j = Some (key2, doc2) →
     glob_match (pattern s) key1 = true → glob_match (pattern s) key2 = true →
     doc1 ≫= value s = Some sk → doc2 ≫= value s ≠ Some sk).
Proof.
  revert taken. induction writes as [|[key doc] ws IH]; intros taken; [by split; intros *; set_solver|]. simpl.
  destruct (glob_match (pattern s) key) eqn:Eg; simpl.
  2: { intros Hc. destruct (IH taken Hc) as [H1 H2]. split.
       - intros k d sk [[= -> ->]|Hin]%elem_of_cons Hg; [congruence|by eapply H1].
       - intros [|i] [|j] * Hij; simpl; try lia; [intros [= -> ->]; congruence|apply H2; lia]. }
  destruct (doc ≫= value s) as [sk|] eqn:Ev.
  2: { intros Hc. destruct (IH taken Hc) as [H1 H2]. split.
       - intros k d sk [[= -> ->]|Hin]%elem_of_cons Hg; [congruence|by eapply H1].
       - intros [|i] [|j] * Hij; simpl; try lia; [intros [= -> ->]; congruence|apply H2; lia]. }
  destruct (taken !! sk) as [o|] eqn:Et; [done|].
  destruct (List.find _ _) as [o|] eqn:Ef; [done|]. intros Hc. destruct (IH _ Hc) as [H1 H2]. split.
  - intros k d sk' [[= -> ->]|Hin]%elem_of_cons Hg Hsk.
    + assert (sk' = sk) as -> by congruence. split; [done|]. intros k' Hk'.
      pose proof (List.find_none _ _ Ef k') as Hn. rewrite <- list_elem_of_In in Hn. specialize (Hn Hk').
      apply andb_false_iff in Hn as [Hn|Hn]; [left|by right]. apply negb_false_iff, existsb_exists in Hn as ([k2 d2] & Hin & Hk2).
      apply bool_decide_eq_true in Hk2. simpl in Hk2. subst. exists d2. by apply list_elem_of_In.
    + destruct (H1 k d sk' Hin Hg Hsk) as [Ht Hh]. split; [|done].
      apply lookup_insert_None in Ht. tauto.
  - intros [|i] [|j] * Hij; simpl; try lia; [|apply H2; lia].
    intros [= <- <-] Hj Hg1 Hg2 Hs1 Hs2. assert (sk0 = sk) as -> by congruence.
    destruct (H1 key2 doc2 sk) as [Ht _]; [by eapply list_elem_of_lookup_2|done|done|].
    by rewrite lookup_insert_eq in Ht.
Qed.

(** C13: unique indexes. When no two live documents hold the same value in a
    unique index, and [check_unique] accepts a set of writes (to distinct
    keys), then the index after those writes still has no two live documents
    with the same value, whichever of the written keys are alive. *)
Theorem check_unique_keeps sec s alive alive' writes :
  s ∈ sec → unique s = true → sec_ok s → NoDup writes.*1 → no_duplicates s alive →
  (∀ k, k ∉ writes.*1 → alive' k = true → alive k = true) →
  check_unique sec alive writes = Ok tt →
  no_duplicates (update_all writes s) alive' ∧ sec_ok (update_all writes s).
Proof.
  intros Hin Hu Hs Hd Hno Ha Hc. split; [|by apply update_all_ok].
  assert (check_writes s alive writes writes ∅ = Ok tt) as Hw.
  { revert Hin Hc. induction sec as [|s' sec IH]; [set_solver|]. simpl. intros [<-|Hin]%elem_of_cons.
    - rewrite Hu. destruct (check_writes s alive writes writes ∅) as [[]|]; [done|by intros [=]].
    - destruct (unique s'); [|by apply IH]. destruct (check_writes s' _ _ _ _) as [[]|]; [|by intros [=]]. by apply IH. }
  destruct (check_writes_ok _ _ _ _ _ Hw) as [H1 H2]. clear Hc Hin.
  (* an unwritten holder against a written one *)
  assert (∀ k1 k2 w sk, List.find (fun w => bool_decide (w.1 = k1)) writes = Some w → k2 ∉ writes.*1 →
            glob_match (pattern s) k1 = true → w.2 ≫= value s = Some sk → rev s !! k2 = Some sk → alive' k2 = true → False) as Hmix.
  { intros k1 k2 [k1' d] sk Hf Hk2 Hg Hv Hr Hal. apply List.find_some in Hf as [Hf Hk1]. apply bool_decide_eq_true in Hk1.
    simpl in Hk1, Hv. subst k1'. apply list_elem_of_In in Hf. destruct (H1 k1 d sk Hf Hg Hv) as [_ Hh].
    destruct (Hh k2) as [[d2 Hd2]|Hdead].
    - unfold holders. rewrite Hu. apply list_elem_of_In, List.filter_In. split.
      + apply list_elem_of_In, elem_of_elements. by apply (so_map _ Hs).
      + apply negb_true_iff, bool_decide_eq_false. intros ->. apply Hk2, list_elem_of_fmap. by exists (k1, d).
    - apply Hk2, list_elem_of_fmap. by exists (k2, d2).
    - rewrite (Ha k2) in Hdead; [done|done|done]. }
  assert (∀ k, List.find (fun w => bool_decide (w.1 = k)) writes = None → k ∉ writes.*1) as Hnone.
  { intros k Hf ([k' d] & -> & Hin)%list_elem_of_fmap. apply list_elem_of_In in Hin.
    pose proof (List.find_none _ _ Hf _ Hin) as Hn. simpl in Hn. by rewrite bool_decide_true in Hn. }
  assert (∀ k sk, rev s !! k = Some sk → glob_match (pattern s) k = true) as Hg.
  { intros k sk Hk. apply (so_pattern _ Hs). by rewrite Hk. }
  assert (∀ k w, List.find (fun w => bool_decide (w.1 = k)) writes = Some w → ∃ i, writes !! i = Some (k, w.2)) as Hat.
  { intros k [k' d] [Hf Hk]%List.find_some. apply bool_decide_eq_true in Hk. simpl in Hk. subst.
    apply list_elem_of_lookup. by apply list_elem_of_In. }
  assert (∀ k sk (x : option SKey), (if glob_match (pattern s) k then x else rev s !! k) = Some sk →
            glob_match (pattern s) k = true ∧ x = Some sk) as Hif.
  { intros k sk x. destruct (glob_match (pattern s) k) eqn:E; [done|]. intros Hk. apply Hg in Hk. congruence. }
  intros k1 k2 sk. rewrite !update_all_rev by done.
  destruct (List.find (fun w => bool_decide (w.1 = k1)) writes) as [w1|] eqn:F1;
    destruct (List.find (fun w => bool_decide (w.1 = k2)) writes) as [w2|] eqn:F2.
  - intros [G1 V1]%Hif [G2 V2]%Hif _ _.
    destruct (Hat _ _ F1) as [i Hi], (Hat _ _ F2) as [j Hj]. destruct (Nat.lt_trichotomy i j) as [Hij|[->|Hij]].
    + exfalso. by apply (H2 i j _ _ _ _ sk Hij Hi Hj G1 G2 V1).
    + congruence.
    + exfalso. by apply (H2 j i _ _ _ _ sk Hij Hj Hi G2 G1 V2).
  - intros [G1 V1]%Hif R2 _ A2. exfalso. by eapply (Hmix k1 k2); eauto.
  - intros R1 [G2 V2]%Hif A1 _. exfalso. by eapply (Hmix k2 k1); eauto.
  - intros R1 R2 A1 A2. apply (Hno k1 k2 sk); auto.
Qed.

(** Writes and removals, in any order. *)
Inductive SecOp := OpUpdate (key : str) (doc : option Doc) | OpRemove (key : str).
Definition sec_step (s : SecIndex) (o : SecOp) : SecIndex :=
  match o with OpUpdate k d => update k d s | OpRemove k => remove k s end.
(** The document a key holds after the operations. *)
Fixpoint last_doc (ops : list SecOp) (key : str) (d0 : option Doc) : option Doc :=
  match ops with
  | [] => d0
  | OpUpdate k d :: ops => last_doc ops key (if bool_decide (k = key) then d else d0)
  | OpRemove k :: ops => last_doc ops key (if bool_decide (k = key) then None else d0)
  end.

Lemma sec_run ops s (docs : str → option Doc) :
  sec_ok s → (∀ k, rev s !! k = if glob_match (pattern s) k then docs k ≫= value s else None) →
  let s' := List.fold_left sec_step ops s in
  sec_ok s' ∧ pattern s' = pattern s ∧ value s' = value s ∧
  ∀ k, rev s' !! k = if glob_match (pattern s) k then last_doc ops k (docs k) ≫= value s else None.
Proof.
  revert s docs. induction ops as [|o ops IH]; intros s docs Hs Hd; [done|]. simpl.
  destruct o as [key d|key].
  - destruct (update_fields key d s) as (Ep & Ev & _).
    destruct (IH (update key d s) (fun k => if bool_decide (key = k) then d else docs k)) as (H1 & H2 & H3 & H4).
    + by apply sec_update_ok.
    + intros k. rewrite update_rev, Ep, Ev. destruct (glob_match (pattern s) key) eqn:Eg; simpl.
      * destruct (decide (key = k)) as [->|Hne].
        -- by rewrite lookup_partial_alter_eq, bool_decide_true, Eg.
        -- rewrite lookup_partial_alter_ne, bool_decide_false by done. apply Hd.
      * rewrite Hd. case_bool_decide as Ek; [|done]. subst. by rewrite Eg.
    + cbn [sec_step]. split; [done|]. rewrite H2, H3, Ep, Ev. split; [done|]. split; [done|]. intros k. by rewrite H4, Ep, Ev.
  - destruct (remove_fields key s) as (Ep & Ev & _).
    destruct (IH (remove key s) (fun k => if bool_decide (key = k) then None else docs k)) as (H1 & H2 & H3 & H4).
    + by apply sec_remove_ok.
    + intros k. rewrite remove_rev, Ep, Ev. destruct (decide (key = k)) as [->|Hne].
      * rewrite lookup_delete_eq, bool_decide_true by done. simpl. by destruct (glob_match _ _).
      * rewrite lookup_delete_ne, bool_decide_false by done. apply Hd.
    + cbn [sec_step]. split; [done|]. rewrite H2, H3, Ep, Ev. split; [done|]. split; [done|]. intros k. by rewrite H4, Ep, Ev.
Qed.

(** Whatever the writes and removals, a secondary index holds exactly the
    current value of each document of its pattern: a key is among the postings
    of a value when its last write gave it that value, and no empty posting is kept. *)
Theorem sec_index_exact p fl ps kd u f ops :
  let s := List.fold_left sec_step ops (new p fl ps kd u f) in
  (∀ sk k, k ∈ post_get (map s) sk ↔
     glob_match p k = true ∧ last_doc ops k None ≫= value (new p fl ps kd u f) = Some sk) ∧
  (∀ sk set, map s !! sk = Some set → set ≠ ∅).
Proof.
  intros s. destruct (sec_run ops (new p fl ps kd u f) (fun _ => None)) as ([Hm Hn _] & _ & _ & Hr).
  { apply sec_new_ok. }
  { intros k. simpl. by destruct (glob_match p k). }
  fold s in Hm, Hn, Hr. split; [|exact Hn]. intros sk k. rewrite Hm, Hr. simpl.
  destruct (glob_match p k); naive_solver.
Qed.
End sec_index.

(** ** Evaluations: documents of two numbers *)
#[export] Instance pair_leaves : Leaves := {|
  Doc := Z * Z; Path := bool; SKey := list Z; leaf := fun d p => Some [if p then d.1 else d.2];
  lower := fun k => k; tuple := fun l => List.concat l |}.
Definition sample_index : SecIndex := update_all [(lit "u:1", Some (7, 1)); (lit "u:2", Some (8, 1))] (new (lit "u:*") (lit "first") [true] BTree true false).
Example sample_refused :
  check_unique [sample_index] (fun _ => true) [(lit "u:3", Some (7, 5))] =
  Err (Unique "'{key}' not written: '{other}' already holds {} in the unique index on {}").
Proof. by vm_compute. Qed.

Lemma check_unique_keeps_witness :
  check_unique [sample_index] (fun _ => true) [(lit "u:3", Some (9, 5)); (lit "u:1", None)] = Ok tt ∧
  no_duplicates (update_all [(lit "u:3", Some (9, 5)); (lit "u:1", None)] sample_index) (fun _ => true).
Proof.
  assert (check_unique [sample_index] (fun _ => true) [(lit "u:3", Some (9, 5)); (lit "u:1", None)] = Ok tt) as Hc
    by (by vm_compute).
  refine (conj Hc (proj1 (check_unique_keeps [sample_index] sample_index (fun _ => true) (fun _ => true)
    [(lit "u:3", Some (9, 5)); (lit "u:1", None)] _ eq_refl _ _ _ _ Hc))).
  - by left.
  - apply update_all_ok, sec_new_ok.
  - vm_decide.
  - intros k1 k2 sk H1 H2 _ _.
    assert (map_Forall (fun k1 sk1 => map_Forall (fun k2 sk2 => sk1 = sk2 → k1 = k2) (rev sample_index)) (rev sample_index)) as Hf
      by vm_decide.
    exact (Hf k1 sk H1 k2 sk H2 eq_refl).
  - done.
Defined.
