(* ===== verification/Engine.v ===== *)
(** * [src/engine.rs]: the engine of one workspace

    The state [Inner] (the data file, the index in memory and its accounts,
    the transactions), and the operations under the lock. Left out of the
    state: vector indexes, schemas, the change journal, the compaction and
    the maintenance thread; none of the operations below depends on them when
    there are none.
    The clock and the outcome of the file writes are arguments ([Env]). *)
From S2P Require Import Prelude Utf8 Util Maps Types Compress Format Crypt Log Cache SecIndex.
Open Scope Z_scope.

(** The values the engine stores, as the engine uses them. *)
Class Values `{Leaves} := {
  Val : Type;
  v_ty : Val → Type_;
  encode_stored : Val → bool → result KivaError (bytes * DocEnc);
  decode : Type_ → bytes → DocEnc → result KivaError Val;
  as_doc : Val → option Doc;
}.
(** What was stored is read back, for the values the engine is given. *)
Class ValuesLaws `{Values} := {
  val_ok : Val → Prop;
  decode_encode : ∀ v msgpack raw enc, val_ok v →
    encode_stored v msgpack = Ok (raw, enc) → decode (v_ty v) raw enc = Ok v;
  doc_type : ∀ v, is_Some (as_doc v) → Type_is_doc (v_ty v) = true;
  decode_doc : ∀ t raw enc v, decode t raw enc = Ok v → is_Some (as_doc v) → Type_is_doc t = true;
}.

(** The clock in milliseconds, whether a write of the format and of records
    reaches the file, and the nonces the system gives. *)
Record Env := { now_ms : Z; io_format : bool; io_write : bool; nonce : nat → option bytes }.
Definition now_secs (env : Env) : Z := now_ms env / 1000.

Definition PURGE_BATCH : nat := 10000.
(** Sizes of [String] and [Entry] on a 64-bit machine. *)
Definition key_cost (key : str) : Z := str_len key + 24 + 48 + 48.

Definition validate_key (key : str) : result KivaError unit :=
  if bool_decide (key = []) then Err (Invalid "key cannot be empty")
  else if MAX_KEY_LEN <? str_len key then Err (Invalid "key is longer than {MAX_KEY_LEN} bytes")
  else Ok tt.

Section engine.
  Context `{Aead} `{Crc} `{Codecs} `{Leaves} `{!Values}.

(** What listeners are told. *)
Inductive Op :=
| OpSet (key : str) (ty : Type_) (raw : bytes) (enc : DocEnc) (timestamp expires_at : Z) (created : bool)
| OpDel (key : str)
| OpReset.
Inductive BatchOp :=
| Put (key : str) (value : Val) (expires_at : Z) (msgpack : bool)
| Del (key : str).
Definition batch_key (o : BatchOp) : str := match o with Put k _ _ _ | Del k => k end.
Record WatchedKey := { wk_key : str; since : Z; existed : bool }.

Record Disk := { file : bytes; file_id : Z; format : Z; unsynced : bool; closed : bool; corrupted_detected : Z }.
Record Mem := {
  index : Index;
  live_bytes : Z;
  expiry : gset (Z * str);
  key_bytes : Z;
  sec : list SecIndex;
  cache : ValueCache Val;
}.
Record Txns := { eseq : Z; active_txns : Z; tomb_versions : gmap str Z; reset_seq : Z; dirty_ops : Z }.
Record Conf := { conf_comp : Compression; keys : option Keys }.
Record Inner := { disk : Disk; mem : Mem; txns : Txns; conf : Conf; emitted : list Op; expired : list str }.

Definition set_disk (d : Disk) (i : Inner) : Inner :=
  {| disk := d; mem := mem i; txns := txns i; conf := conf i; emitted := emitted i; expired := expired i |}.
Definition set_mem (m : Mem) (i : Inner) : Inner :=
  {| disk := disk i; mem := m; txns := txns i; conf := conf i; emitted := emitted i; expired := expired i |}.
Definition set_txns (t : Txns) (i : Inner) : Inner :=
  {| disk := disk i; mem := mem i; txns := t; conf := conf i; emitted := emitted i; expired := expired i |}.
Definition emit (o : Op) (i : Inner) : Inner :=
  {| disk := disk i; mem := mem i; txns := txns i; conf := conf i; emitted := emitted i ++ [o]; expired := expired i |}.
Definition tell_expired (k : str) (i : Inner) : Inner :=
  {| disk := disk i; mem := mem i; txns := txns i; conf := conf i; emitted := emitted i; expired := expired i ++ [k] |}.
Definition set_cache (c : ValueCache Val) (i : Inner) : Inner :=
  set_mem {| index := index (mem i); live_bytes := live_bytes (mem i); expiry := expiry (mem i);
             key_bytes := key_bytes (mem i); sec := sec (mem i); cache := c |} i.
Definition file_len (i : Inner) : Z := len (file (disk i)).

(** A step under the lock: a result, and the state it leaves, errors included. *)
Definition M (A : Type) : Type := Inner → result KivaError A * Inner.
#[export] Instance M_ret : MRet M := fun A a i => (Ok a, i).
#[export] Instance M_bind : MBind M := fun A B f m i =>
  match m i with (Ok a, i) => f a i | (Err e, i) => (Err e, i) end.
Definition st {A} (f : Inner → result KivaError A * Inner) : M A := f.
Definition lift {A} (r : result KivaError A) : M A := fun i => (r, i).
Definition modify (f : Inner → Inner) : M unit := fun i => (Ok tt, f i).
Definition gets {A} (f : Inner → A) : M A := fun i => (Ok (f i), i).

(** ** The file *)
Definition detect_corrupted (i : Inner) : Inner :=
  let d := disk i in
  set_disk {| file := file d; file_id := file_id d; format := format d; unsynced := unsynced d; closed := closed d;
              corrupted_detected := corrupted_detected d + 1 |} i.
(** [read_exact] at an offset. *)
Definition read_at (offset n : Z) (i : Inner) : option bytes :=
  if file_len i <? offset + n then None else Some (slice offset (offset + n) (file (disk i))).
Definition read_record (key : str) (e : Entry) : M bytes := fun i =>
  match read_at (offset e) (rec_len e) i with
  | None => (Err (Corrupted "record of '{key}' cannot be read"), detect_corrupted i)
  | Some rec =>
    if verify_record rec then (Ok rec, i)
    else (Err (Corrupted "checksum mismatch on key '{key}'"), detect_corrupted i)
  end.
Definition read_raw (key : str) (e : Entry) : M bytes :=
  rec ← read_record key e;
  st (fun i =>
     match open_record (keys (conf i)) rec with
     | Err err => (Err (into_error err), if bool_decide (err = Tampered) then detect_corrupted i else i)
     | Ok (_, stored) => (unpack stored (Compression_from_flag (Z.land (e_flags e) FLAG_COMP_MASK)), i)
     end).
Definition read_value (key : str) (e : Entry) : M Val :=
  raw ← read_raw key e;
  lift (match decode (e_ty e) raw (doc_enc e) with
        | Err (Corrupted why) => Err (Corrupted "the record of '{key}': {why}")
        | r => r
        end).
Definition value_of (key : str) (e : Entry) : M Val := fun i =>
  match get key (version e) (cache (mem i)) with
  | (Some v, c) => (Ok v, set_cache c i)
  | (None, c) =>
    (v ← read_value key e;
     _ ← modify (fun i => set_cache (put key (version e) v (raw_size e) (cache (mem i))) i);
     mret v) (set_cache c i)
  end.

Definition encode (key : str) (value : bytes) (ty flags timestamp expires_at : Z) (n : option bytes) (i : Inner)
    : result KivaError bytes := encode_record (keys (conf i)) key value ty flags timestamp expires_at n.

(** A record that [format_needed] walks past the end of: the code panics there. *)
Definition PANIC : KivaError := Other "index out of range".
Definition append (env : Env) (buf : bytes) : M Z := fun i =>
  let d := disk i in
  if closed d then (Err (Other "database is closed"), i)
  else
    match format_needed buf with
    | None => (Err PANIC, i)
    | Some need =>
      let raise := format d <? need in
      if raise && negb (io_format env) then (Err (Io "{e}"), i)
      else
        let f := if raise then take 4 (file d) ++ le_bytes 4 need ++ drop 8 (file d) else file d in
        let fmt := if raise then need else format d in
        let d' f u := {| file := f; file_id := file_id d; format := fmt; unsynced := u; closed := closed d;
                         corrupted_detected := corrupted_detected d |} in
        if negb (io_write env) then (Err (Io "{e}"), set_disk (d' f (unsynced d)) i)
        else (Ok (len f), set_disk (d' (f ++ buf) true) i)
    end.

(** ** The index *)
Definition expiry_of (key : str) (e : Entry) : gset (Z * str) := if 0 <? e_expires_at e then {[(e_expires_at e, key)]} else ∅.
Definition idx_insert (key : str) (e : Entry) (doc : option Doc) (i : Inner) : Inner :=
  let m := mem i in
  let old := index m !! key in
  set_mem {|
    index := <[key := e]> (index m);
    live_bytes := live_bytes m + Log.rec_len e - match old with Some o => Log.rec_len o | None => 0 end;
    expiry := expiry m ∖ match old with Some o => expiry_of key o | None => ∅ end ∪ expiry_of key e;
    key_bytes := match old with Some _ => key_bytes m | None => key_bytes m + key_cost key end;
    sec := List.map (update key doc) (sec m);
    cache := Cache.remove key (cache m) |} i.
Definition idx_remove (key : str) (i : Inner) : option Entry * Inner :=
  let m := mem i in
  match index m !! key with
  | None => (None, i)
  | Some old =>
    (Some old, set_mem {|
       index := delete key (index m);
       live_bytes := live_bytes m - Log.rec_len old;
       expiry := expiry m ∖ expiry_of key old;
       key_bytes := key_bytes m - key_cost key;
       sec := List.map (SecIndex.remove key) (sec m);
       cache := Cache.remove key (cache m) |} i)
  end.
(** The entry for [key], dropping it first if its time is over. *)
Definition live (key : str) (now : Z) (i : Inner) : option Entry * Inner :=
  match index (mem i) !! key with
  | None => (None, i)
  | Some e =>
    if is_expired e now then (None, tell_expired key (idx_remove key i).2)
    else (Some e, i)
  end.
Definition liveM (key : str) (now : Z) : M (option Entry) := fun i => let '(e, i) := live key now i in (Ok e, i).

Definition recount (i : Inner) : Inner :=
  let m := mem i in
  set_mem {| index := index m; sec := sec m; cache := cache m;
             live_bytes := FILE_HEADER_LEN + msum (fun _ e => Log.rec_len e) (index m);
             expiry := map_fold (fun k e s => expiry_of k e ∪ s) ∅ (index m);
             key_bytes := msum (fun k _ => key_cost k) (index m) |} i.

(** The keys of the expiry tree whose time is over, earliest first. *)
Definition due (now : Z) (i : Inner) : list str :=
  (take PURGE_BATCH (List.filter (fun tk => tk.1 <=? now) (merge_sort age_le (elements (expiry (mem i)))))).*2.
Definition purge_expired (now : Z) (i : Inner) : nat * Inner :=
  let dead := due now i in
  (length dead, List.fold_left (fun i k => tell_expired k (idx_remove k i).2) dead i).

(** ** Reads *)
Definition get_ (env : Env) (key : str) : M (option (Val * Entry)) :=
  e ← liveM key (now_ms env);
  match e with
  | None => mret None
  | Some e => v ← value_of key e; mret (Some (v, e))
  end.
Definition meta (env : Env) (key : str) : M (option Entry) := liveM key (now_ms env).

(** Entries of the index between two bounds, in the order of the keys. *)
Definition in_bounds (lo hi : option str) (k : str) : bool :=
  match lo with Some a => str_leb a k | None => true end && match hi with Some b => str_leb k b | None => true end.
Definition take_limit {A} (limit : nat) (l : list A) : list A := if Nat.eqb limit 0 then l else take limit l.
Definition range (env : Env) (from to : option str) (reverse : bool) (limit : nat) (i : Inner) : list (str * Entry) :=
  let '(lo, hi) := match from, to with
    | Some a, Some b => if str_ltb b a then (Some b, Some a) else (from, to)
    | _, _ => (from, to)
    end in
  let it := List.filter (fun ke => in_bounds lo hi ke.1 && negb (is_expired ke.2 (now_ms env))) (entries (index (mem i))) in
  take_limit limit (if reverse then List.rev it else it).
Definition starts_with (p k : str) : bool := bool_decide (take (length p) k = p).
Definition keys_matching (env : Env) (pattern : str) (limit : nat) (i : Inner) : list (str * Entry) :=
  let prefix := glob_prefix pattern in
  let from := List.filter (fun ke => str_leb prefix ke.1) (entries (index (mem i))) in
  let it := List.filter (fun ke => negb (is_expired ke.2 (now_ms env)) && glob_match pattern ke.1)
              (take_while (fun ke => starts_with prefix ke.1) from) in
  take_limit limit it.

(** ** Writes *)
(** A put as a full record, the index entry (its place left at 0) and the payload. *)
Definition build_put (i : Inner) (key : str) (value : Val) (expires_at : Z) (msgpack : bool) (timestamp extra_flags : Z)
    (n : option bytes) : result KivaError (bytes * Entry * bytes) :=
  _ ← validate_key key;
  let ty := v_ty value in
  '(raw, enc) ← encode_stored value (msgpack && Type_is_doc ty);
  if MAX_VALUE_LEN <? len raw then Err (Invalid "value is larger than 256 MB")
  else
    let '(stored, cflag) := pack raw (conf_comp (conf i)) in
    let flags := Z.lor (Z.lor cflag extra_flags) (DocEnc_flags enc) in
    rec ← encode key stored (Type_code ty) flags timestamp expires_at n i;
    match parse_header rec with
    | None => Err PANIC
    | Some h =>
      Ok (rec, {| offset := 0; ek_size := k_size h; ev_size := v_size h; raw_size := wrap 32 (len raw); e_ty := ty;
                  e_flags := Format.flags h; e_timestamp := timestamp; e_expires_at := expires_at; version := 0 |}, raw)
    end.

Definition at_ (off ver : Z) (e : Entry) : Entry := {|
  offset := off; ek_size := ek_size e; ev_size := ev_size e; raw_size := raw_size e; e_ty := e_ty e; e_flags := e_flags e;
  e_timestamp := e_timestamp e; e_expires_at := e_expires_at e; version := ver |}.
Definition next_seq (i : Inner) : Inner :=
  let t := txns i in
  set_txns {| eseq := eseq t + 1; active_txns := active_txns t; tomb_versions := tomb_versions t; reset_seq := reset_seq t;
              dirty_ops := dirty_ops t |} i.
Definition dirty (i : Inner) : Inner :=
  let t := txns i in
  set_txns {| eseq := eseq t; active_txns := active_txns t; tomb_versions := tomb_versions t; reset_seq := reset_seq t;
              dirty_ops := dirty_ops t + 1 |} i.
Definition bury (key : str) (i : Inner) : Inner :=
  let t := txns i in
  if 0 <? active_txns t then
    set_txns {| eseq := eseq t; active_txns := active_txns t; tomb_versions := <[key := eseq t]> (tomb_versions t);
                reset_seq := reset_seq t; dirty_ops := dirty_ops t |} i
  else i.

(** The write of a value in memory, once its record is in the file: its entry,
    and its value when it is pinned. *)
Definition store (key : str) (e : Entry) (doc : option Doc) (v : result KivaError Val) (raw : bytes) (i : Inner) : Inner :=
  let i := idx_insert key e doc i in
  if is_pinned (cache (mem i)) key then
    match v with
    | Ok v => set_cache (Cache.put key (version e) v (len raw) (cache (mem i))) i
    | Err _ => i
    end
  else i.

Definition put_locked (env : Env) (key : str) (value : Val) (expires_at : Z) (msgpack : bool) (timestamp : Z) : M bool :=
  fun i =>
  (b ← lift (build_put i key value expires_at msgpack timestamp 0 (nonce env 0));
   let '(rec, entry, raw) := b in
   old ← liveM key (now_ms env);
   let created := match old with None => true | Some _ => false end in
   off ← append env rec;
   _ ← modify next_seq;
   ver ← gets (fun i => eseq (txns i));
   let entry := at_ off ver entry in
   _ ← modify (store key entry (as_doc value) (Ok value) raw);
   _ ← modify dirty;
   _ ← modify (emit (OpSet key (v_ty value) raw (doc_enc entry) timestamp expires_at created));
   mret created) i.

(** Whether the index holds [k] and its time is not over. *)
Definition alive (now : Z) (i : Inner) (k : str) : bool :=
  match index (mem i) !! k with Some e => negb (is_expired e now) | None => false end.

Definition put_at (env : Env) (key : str) (value : Val) (expires_at : Z) (msgpack : bool) (timestamp : Z) (check : bool) : M bool :=
  fun i =>
  (_ ← lift (if check then check_unique (sec (mem i)) (alive (now_ms env) i) [(key, as_doc value)] else Ok tt);
   put_locked env key value expires_at msgpack timestamp) i.
Definition put_ (env : Env) (key : str) (value : Val) (expires_at : Z) (msgpack : bool) : M bool :=
  put_at env key value expires_at msgpack (now_secs env) true.

(** Reads a key, lets [f] compute its new value and writes it. *)
Definition update_with {T} (env : Env) (key : str) (f : Val → result KivaError (option Val * T)) : M (option (T * bool)) :=
  e ← liveM key (now_ms env);
  match e with
  | None => mret None
  | Some e =>
    current ← value_of key e;
    r ← lift (f current);
    let '(new, out) := r in
    match new with
    | None => mret (Some (out, false))
    | Some new =>
      _ ← st (fun i => (check_unique (sec (mem i)) (alive (now_ms env) i) [(key, as_doc new)], i));
      _ ← put_locked env key new (e_expires_at e) (has_flag (e_flags e) FLAG_MSGPACK) (now_secs env);
      mret (Some (out, true))
    end
  end.

Definition delete_ (env : Env) (key : str) : M bool :=
  e ← liveM key (now_ms env);
  match e with
  | None => mret false
  | Some _ =>
    rec ← st (fun i => (encode key [] 0 FLAG_TOMBSTONE (now_secs env) 0 (nonce env 0) i, i));
    _ ← append env rec;
    _ ← modify next_seq;
    _ ← modify (fun i => (idx_remove key i).2);
    _ ← modify (bury key);
    _ ← modify dirty;
    _ ← modify (emit (OpDel key));
    mret true
  end.

(** ** Transactions *)
Definition version_of (i : Inner) (key : str) : Z :=
  match index (mem i) !! key with
  | Some e => version e
  | None => default 0 (tomb_versions (txns i) !! key)
  end.
Definition set_active (n : Z) (i : Inner) : Inner :=
  let t := txns i in
  set_txns {| eseq := eseq t; active_txns := n; tomb_versions := tomb_versions t; reset_seq := reset_seq t; dirty_ops := dirty_ops t |} i.
Definition txn_begin (i : Inner) : Z * Inner := (eseq (txns i), set_active (active_txns (txns i) + 1) i).
Definition txn_end (i : Inner) : Inner :=
  let n := Z.max 0 (active_txns (txns i) - 1) in
  let i := set_active n i in
  if n =? 0 then
    let t := txns i in
    set_txns {| eseq := eseq t; active_txns := n; tomb_versions := ∅; reset_seq := reset_seq t; dirty_ops := dirty_ops t |} i
  else i.
Fixpoint watch_all (now since : Z) (ks : list str) (i : Inner) : list WatchedKey * Inner :=
  match ks with
  | [] => ([], i)
  | k :: ks =>
    let '(e, i) := live k now i in
    let '(l, i) := watch_all now since ks i in
    ({| wk_key := k; since := since; existed := match e with Some _ => true | None => false end |} :: l, i)
  end.
Definition watch (now : Z) (ks : list str) (i : Inner) : list WatchedKey * Inner :=
  let i := set_active (active_txns (txns i) + 1) i in watch_all now (eseq (txns i)) ks i.
(** The first watched key that changed. *)
Fixpoint changed (now : Z) (ws : list WatchedKey) (i : Inner) : option str * Inner :=
  match ws with
  | [] => (None, i)
  | w :: ws =>
    if (since w <? version_of i (wk_key w)) || (since w <? reset_seq (txns i)) then (Some (wk_key w), i)
    else if existed w then
      match live (wk_key w) now i with
      | (None, i) => (Some (wk_key w), i)
      | (Some _, i) => changed now ws i
      end
    else changed now ws i
  end.

(** *** A batch *)
Inductive Staged :=
| SPut (key : str) (entry : Entry) (raw : bytes) (doc : option Val) (ty : Type_) (created : bool)
| SDel (key : str).
(** What each key holds once the whole batch is applied, in the order of first writes. *)
Fixpoint last_docs (ops : list BatchOp) (last : list (str * option Doc)) : list (str * option Doc) :=
  match ops with
  | [] => last
  | o :: ops =>
    let '(key, doc) := match o with Put k v _ _ => (k, as_doc v) | Del k => (k, None) end in
    last_docs ops
      (if existsb (fun w => bool_decide (w.1 = key)) last
       then List.map (fun w => if bool_decide (w.1 = key) then (key, doc) else w) last
       else last ++ [(key, doc)])
  end.
(** Whether [key] exists, as the operations before it in the batch leave it. *)
Definition exists_now (now : Z) (shadow : gmap str bool) (key : str) : M bool :=
  match shadow !! key with
  | Some e => mret e
  | None => e ← liveM key now; mret (match e with Some _ => true | None => false end)
  end.
Fixpoint stage (env : Env) (ops : list BatchOp) (n : nat) (shadow : gmap str bool) : M (list (Staged * bytes)) :=
  match ops with
  | [] => mret []
  | Put key value expires_at msgpack :: ops =>
    b ← st (fun i => (build_put i key value expires_at msgpack (now_ms env / 1000) FLAG_TXN (nonce env n), i));
    let '(rec, entry, raw) := b in
    ex ← exists_now (now_ms env) shadow key;
    rest ← stage env ops (S n) (<[key := true]> shadow);
    mret ((SPut key entry raw (if Type_is_doc (v_ty value) then Some value else None) (e_ty entry) (negb ex), rec) :: rest)
  | Del key :: ops =>
    ex ← exists_now (now_ms env) shadow key;
    if negb ex then stage env ops n shadow
    else
      rec ← st (fun i => (encode key [] 0 (Z.lor FLAG_TOMBSTONE FLAG_TXN) (now_ms env) 0 (nonce env n) i, i));
      rest ← stage env ops (S n) (<[key := false]> shadow);
      mret ((SDel key, rec) :: rest)
  end.
(** The commit mark of the last entry, as of the last record. *)
Definition mark_commit (e : Entry) : Entry := {|
  offset := offset e; ek_size := ek_size e; ev_size := ev_size e; raw_size := raw_size e; e_ty := e_ty e;
  e_flags := Z.lor (e_flags e) FLAG_TXN_COMMIT; e_timestamp := e_timestamp e; e_expires_at := e_expires_at e; version := version e |}.
(** In memory, one staged operation after the other, each at its place in the file. *)
Fixpoint apply_staged (base : Z) (staged : list (Staged * bytes)) (i : Inner) : Inner :=
  match staged with
  | [] => i
  | (s, rec) :: rest =>
    let i := next_seq i in
    let seq := eseq (txns i) in
    let i := match s with
      | SPut key entry raw doc ty created =>
        let entry := if Nat.eqb (length rest) 0 then mark_commit entry else entry in
        let entry := at_ base seq entry in
        let i := store key entry (doc ≫= as_doc) (decode ty raw (doc_enc entry)) raw i in
        emit (OpSet key ty raw (doc_enc entry) (e_timestamp entry) (e_expires_at entry) created) i
      | SDel key => emit (OpDel key) (bury key (idx_remove key i).2)
      end in
    apply_staged (base + len rec) rest (dirty i)
  end.

Definition apply_batch_watched (env : Env) (ops : list BatchOp) (begin_seq : option Z) (watched : list WatchedKey) : M unit :=
  c ← st (fun i => let '(c, i) := changed (now_ms env) watched i in (Ok c, i));
  match c with
  | Some _ => lift (Err (Conflict "the watched key '{key}' changed"))
  | None =>
    _ ← st (fun i =>
      (match begin_seq with
       | None => Ok tt
       | Some begin =>
         if begin <? reset_seq (txns i) then Err (Conflict "the database was reset during the transaction")
         else if existsb (fun o => begin <? version_of i (batch_key o)) ops
              then Err (Conflict "key '{key}' was modified by another session") else Ok tt
       end, i));
    _ ← st (fun i =>
      (if existsb unique (sec (mem i)) then check_unique (sec (mem i)) (alive (now_ms env) i) (last_docs ops []) else Ok tt, i));
    staged ← stage env ops 0 ∅;
    match staged with
    | [] => mret tt
    | _ =>
      let recs := stamp_last staged.*2 in
      base ← append env (List.concat recs);
      modify (apply_staged base (zip staged.*1 recs))
    end
  end.

(** [apply_batch] *)
Definition apply_batch (env : Env) (ops : list BatchOp) (begin_seq : option Z) : M unit := apply_batch_watched env ops begin_seq [].

(** Wipes every key; [new_id] is the random id of the new file. *)
Definition reset (new_id : option Z) : M unit := fun i =>
  if closed (disk i) then (Err (Other "database is closed"), i)
  else
    match new_id with
    | None => (Err NONCE_ERR, i)
    | Some id =>
      let d := disk i in let m := mem i in let t := txns i in
      let i := set_disk {| file := file_header id FORMAT_V1; file_id := id; format := FORMAT_V1; unsynced := unsynced d;
                           closed := closed d; corrupted_detected := corrupted_detected d |} i in
      let i := set_mem {| index := ∅; live_bytes := live_bytes m; expiry := expiry m; key_bytes := key_bytes m;
                          sec := List.map SecIndex.clear (sec m); cache := Cache.clear (cache m) |} i in
      let i := recount i in
      let i := set_txns {| eseq := eseq t + 1; active_txns := active_txns t; tomb_versions := ∅; reset_seq := eseq t + 1;
                           dirty_ops := 0 |} i in
      (Ok tt, emit OpReset i)
    end.
End engine.
