(* ===== verification/EngineMem.v ===== *)
(** * The engine in memory: its accounts, and what each primitive does to them *)
From S2P Require Import Prelude Utf8 Util Maps Types Compress Format Crypt Log Cache SecIndex Engine.
Open Scope Z_scope.

Section engine_mem.
  Context `{Aead} `{Crc} `{Codecs} `{Leaves} `{!Values}.

(** What the counters count. *)
Record mem_ok (m : Mem) : Prop := {
  mo_live : live_bytes m = FILE_HEADER_LEN + msum (fun _ e => Log.rec_len e) (index m);
  mo_keys : key_bytes m = msum (fun k _ => key_cost k) (index m);
  mo_expiry : ∀ t k, (t, k) ∈ expiry m ↔ ∃ e, index m !! k = Some e ∧ e_expires_at e = t ∧ 0 < t;
  mo_sec : Forall sec_ok (sec m);
  mo_cache : cache_ok (fun _ _ _ => True) (cache m);
}.

Lemma elem_of_expiry_of t k key e : (t, k) ∈ expiry_of key e ↔ k = key ∧ e_expires_at e = t ∧ 0 < t.
Proof. unfold expiry_of. destruct (Z.ltb_spec 0 (e_expires_at e)); [rewrite elem_of_singleton|rewrite elem_of_empty]; naive_solver lia. Qed.

Lemma idx_insert_ok key e doc i : mem_ok (mem i) → mem_ok (mem (idx_insert key e doc i)).
Proof.
  intros [Hl Hk He Hs Hc]. split; simpl.
  - rewrite msum_insert_over, Hl. destruct (index (mem i) !! key); lia.
  - rewrite msum_insert_over, Hk. destruct (index (mem i) !! key); lia.
  - intros t k. rewrite elem_of_union, elem_of_difference, elem_of_expiry_of, He.
    destruct (decide (k = key)) as [->|Hne].
    + rewrite lookup_insert_eq. destruct (index (mem i) !! key) as [o|] eqn:E; [rewrite elem_of_expiry_of|]; naive_solver.
    + rewrite lookup_insert_ne by done. destruct (index (mem i) !! key) as [o|] eqn:E; [rewrite elem_of_expiry_of|]; set_solver.
  - apply Forall_map. eapply Forall_impl; [exact Hs|]. intros s. apply sec_update_ok.
  - by apply cache_remove_ok.
Qed.
Lemma idx_remove_ok key i : mem_ok (mem i) → mem_ok (mem (idx_remove key i).2).
Proof.
  intros [Hl Hk He Hs Hc]. unfold idx_remove. destruct (index (mem i) !! key) as [old|] eqn:E; [|by split]. split; simpl.
  - rewrite msum_delete_any, E, Hl. lia.
  - rewrite msum_delete_any, E, Hk. lia.
  - intros t k. rewrite elem_of_difference, elem_of_expiry_of, He. destruct (decide (k = key)) as [->|Hne].
    + rewrite lookup_delete_eq. naive_solver.
    + rewrite lookup_delete_ne by done. naive_solver.
  - apply Forall_map. eapply Forall_impl; [exact Hs|]. intros s. apply sec_remove_ok.
  - by apply cache_remove_ok.
Qed.
Lemma set_cache_ok c i : mem_ok (mem i) → cache_ok (fun _ _ _ => True) c → mem_ok (mem (set_cache c i)).
Proof. intros [? ? ? ? ?] Hc. by split. Qed.

(** [recount] computes the same counts from the index alone. *)
Lemma recount_expiry m t k :
  (t, k) ∈ map_fold (fun k e s => expiry_of k e ∪ s) (∅ : gset (Z * str)) m ↔
  ∃ e, m !! k = Some e ∧ e_expires_at e = t ∧ 0 < t.
Proof.
  induction m as [|key e m Hm IH] using map_ind.
  - rewrite map_fold_empty. setoid_rewrite lookup_empty. set_solver.
  - rewrite map_fold_insert_L; [|set_solver|done]. rewrite elem_of_union, elem_of_expiry_of, IH.
    destruct (decide (k = key)) as [->|Hne].
    + rewrite lookup_insert_eq, Hm. naive_solver.
    + rewrite lookup_insert_ne by done. naive_solver.
Qed.
Lemma recount_ok i : Forall sec_ok (sec (mem i)) → cache_ok (fun _ _ _ => True) (cache (mem i)) → mem_ok (mem (recount i)).
Proof. intros Hs Hc. split; simpl; try done. intros t k. apply recount_expiry. Qed.
Lemma recount_id i : mem_ok (mem i) → mem (recount i) = mem i.
Proof.
  intros [Hl Hk He Hs Hc]. unfold recount, set_mem. simpl. destruct (mem i) as [ix lb ex kb sc ca]. simpl in *. subst.
  f_equal. apply set_eq. intros [t k]. rewrite recount_expiry. by rewrite He.
Qed.

(** The fields each primitive leaves alone. *)
Lemma idx_remove_index key i : index (mem (idx_remove key i).2) = delete key (index (mem i)).
Proof. unfold idx_remove. destruct (index (mem i) !! key) eqn:E; [done|]. by rewrite delete_id. Qed.
Lemma idx_remove_rest key i :
  disk (idx_remove key i).2 = disk i ∧ txns (idx_remove key i).2 = txns i ∧ conf (idx_remove key i).2 = conf i.
Proof. unfold idx_remove. by destruct (index (mem i) !! key). Qed.

(** [live], by cases. *)
Lemma live_cases key now i :
  (∃ e, live key now i = (Some e, i) ∧ index (mem i) !! key = Some e ∧ is_expired e now = false) ∨
  (live key now i = (None, i) ∧ index (mem i) !! key = None) ∨
  (∃ e, live key now i = (None, tell_expired key (idx_remove key i).2) ∧ index (mem i) !! key = Some e ∧ is_expired e now = true).
Proof.
  unfold live. destruct (index (mem i) !! key) as [e|]; [|by right; left].
  destruct (is_expired e now) eqn:Ex; [right; right|left]; eauto.
Qed.

Lemma due_spec now i k :
  mem_ok (mem i) → k ∈ due now i → ∃ e, index (mem i) !! k = Some e ∧ is_expired e now = true.
Proof.
  intros Hm. unfold due. intros ([t k'] & -> & Hin)%list_elem_of_fmap.
  apply elem_of_take in Hin as (n & Hin & _). apply list_elem_of_lookup_2, list_elem_of_In, List.filter_In in Hin as [Hin Ht].
  apply list_elem_of_In in Hin. rewrite merge_sort_Permutation, elem_of_elements in Hin.
  apply (mo_expiry _ Hm) in Hin as (e & He & Hexp & Hpos). exists e. split; [done|]. simpl in Ht.
  unfold is_expired. rewrite Hexp. apply Z.leb_le in Ht. by rewrite ltb_t, leb_t.
Qed.
Lemma due_length now i : (length (due now i) ≤ PURGE_BATCH)%nat.
Proof. unfold due. rewrite length_fmap, length_take. lia. Qed.
Lemma due_all now i k e :
  mem_ok (mem i) → index (mem i) !! k = Some e → is_expired e now = true → (length (due now i) < PURGE_BATCH)%nat → k ∈ due now i.
Proof.
  intros Hm He Hx. unfold due. rewrite length_fmap, length_take. intros Hlen.
  rewrite take_ge by lia. apply list_elem_of_fmap. unfold is_expired in Hx. apply andb_true_iff in Hx as [Hp Ht].
  exists (e_expires_at e, k). split; [done|]. apply list_elem_of_In, List.filter_In. split; [|done].
  apply list_elem_of_In. rewrite merge_sort_Permutation, elem_of_elements. apply (mo_expiry _ Hm). exists e.
  split; [done|]. split; [done|]. by apply Z.ltb_lt.
Qed.
Lemma purge_fold l i :
  let i' := List.fold_left (fun i k => tell_expired k (idx_remove k i).2) l i in
  (mem_ok (mem i) → mem_ok (mem i')) ∧ disk i' = disk i ∧ txns i' = txns i ∧ conf i' = conf i ∧
  ∀ k, index (mem i') !! k = if decide (k ∈ l) then None else index (mem i) !! k.
Proof.
  revert i. induction l as [|x l IH]; intros i; [done|]. simpl.
  destruct (IH (tell_expired x (idx_remove x i).2)) as (P1 & P2 & P3 & P4 & P5).
  destruct (idx_remove_rest x i) as (E1 & E2 & E3).
  split; [intros; apply P1; by apply idx_remove_ok|]. rewrite P2, P3, P4. simpl. rewrite E1, E2, E3.
  do 3 (split; [done|]). intros k. rewrite P5. simpl. rewrite idx_remove_index.
  destruct (decide (k ∈ l)); [by rewrite decide_True by set_solver|].
  destruct (decide (k = x)) as [->|]; [by rewrite lookup_delete_eq, decide_True by set_solver|].
  by rewrite lookup_delete_ne, decide_False by set_solver.
Qed.

Lemma purge_pass now i :
  mem_ok (mem i) →
  let i' := (purge_expired now i).2 in
  mem_ok (mem i') ∧ mem (recount i') = mem i' ∧
  (∀ k e, index (mem i') !! k = Some e → index (mem i) !! k = Some e) ∧
  (∀ k e, index (mem i) !! k = Some e → is_expired e now = false → index (mem i') !! k = Some e) ∧
  (((purge_expired now i).1 < PURGE_BATCH)%nat → ∀ k e, index (mem i') !! k = Some e → is_expired e now = false).
Proof.
  intros Hm i'. destruct (purge_fold (due now i) i) as (Hok & _ & _ & _ & Hix). fold i' in Hok, Hix.
  split; [by apply Hok|]. split; [by apply recount_id, Hok|]. split; [|split].
  - intros k e. rewrite Hix. by destruct (decide _).
  - intros k e Hk Hx. rewrite Hix. destruct (decide _) as [Hd|]; [|done].
    destruct (due_spec _ _ _ Hm Hd) as (e' & He' & Hx'). congruence.
  - intros Hlen k e. rewrite Hix. destruct (decide _) as [|Hd]; [done|]. intros Hk.
    destruct (is_expired e now) eqn:Hx; [|done]. exfalso. apply Hd. by eapply due_all.
Qed.
(** A purge pass removes only keys whose time is over, and all of them
    unless they are more than one pass removes ([PURGE_BATCH]); the accounts
    of the index stay those of its keys, so that [recount] changes nothing. *)
Theorem purge_expired_exact now i :
  mem_ok (mem i) →
  let i' := (purge_expired now i).2 in
  mem_ok (mem i') ∧ mem (recount i') = mem i' ∧
  (∀ k e, index (mem i') !! k = Some e → index (mem i) !! k = Some e) ∧
  (∀ k e, index (mem i) !! k = Some e → is_expired e now = false → index (mem i') !! k = Some e) ∧
  (((purge_expired now i).1 < PURGE_BATCH)%nat → ∀ k e, index (mem i') !! k = Some e → is_expired e now = false).
Proof. apply purge_pass. Qed.
End engine_mem.
