(* ===== verification/EngineOk.v ===== *)
(** * The engine against its log: what the index says is what the file holds *)
From S2P Require Import Prelude Utf8 Util Maps Types Compress Format Crypt Log Cache SecIndex Engine EngineMem.
Open Scope Z_scope.

(** Two indexes that differ by the versions of their entries, and by entries
    of which the time is over at [t] that the first no longer has. *)
Definition agrees (t : Z) (idx scanned : Index) : Prop :=
  ∀ k, match idx !! k, scanned !! k with
       | Some e, Some e' => set_version 0 e = set_version 0 e'
       | None, Some e' => is_expired e' t = true
       | Some _, None => False
       | None, None => True
       end.
Lemma agrees_insert t m s k e e' :
  agrees t m s → set_version 0 e = set_version 0 e' → agrees t (<[k:=e]> m) (<[k:=e']> s).
Proof.
  intros Ha He k'. destruct (decide (k = k')) as [->|]; [by rewrite !lookup_insert_eq|by rewrite !lookup_insert_ne; [apply Ha|..]].
Qed.
Lemma agrees_delete t m s k : agrees t m s → agrees t (delete k m) (delete k s).
Proof.
  intros Ha k'. destruct (decide (k = k')) as [->|]; [by rewrite !lookup_delete_eq|by rewrite !lookup_delete_ne; [apply Ha|..]].
Qed.
Lemma set_version_expires e e' : set_version 0 e = set_version 0 e' → e_expires_at e = e_expires_at e'.
Proof. by intros [= ? ? ? ? ? ? ? ?]. Qed.
Lemma set_version_len e e' : set_version 0 e = set_version 0 e' → Log.rec_len e = Log.rec_len e'.
Proof. intros E. by apply (f_equal Log.rec_len) in E. Qed.
Lemma is_expired_mono e t t' : t ≤ t' → is_expired e t = true → is_expired e t' = true.
Proof. unfold is_expired. rewrite !andb_true_iff, !Z.leb_le. intros ? [? ?]. split; [done|lia]. Qed.
Lemma agrees_expire t m s k e : agrees t m s → m !! k = Some e → is_expired e t = true → agrees t (delete k m) s.
Proof.
  intros Ha Hk Hx k'. specialize (Ha k'). destruct (decide (k = k')) as [->|]; [|by rewrite lookup_delete_ne].
  rewrite lookup_delete_eq. rewrite Hk in Ha. destruct (s !! k'); [|done].
  unfold is_expired in *. by rewrite <- (set_version_expires _ _ Ha).
Qed.
Lemma agrees_mono t t' m s : t ≤ t' → agrees t m s → agrees t' m s.
Proof.
  intros Ht Ha k. specialize (Ha k). destruct (m !! k), (s !! k); try done. by eapply is_expired_mono.
Qed.

Section engine_ok.
  Context `{Aead} `{Crc} `{Codecs} `{Leaves} `{!Values}.
  Context `{!AeadLaws} `{!CodecsLaws} `{!ValuesLaws}.

(** The value an entry leads to, in a file. *)
Definition value_in (ks : option Keys) (f : bytes) (e : Entry) : option Val :=
  if len f <? offset e + Log.rec_len e then None
  else
    let rec := slice (offset e) (offset e + Log.rec_len e) f in
    if negb (verify_record rec) then None
    else
      match open_record ks rec with
      | Err _ => None
      | Ok (_, stored) =>
        match unpack stored (Compression_from_flag (Z.land (e_flags e) FLAG_COMP_MASK)) with
        | Err _ => None
        | Ok raw => match decode (e_ty e) raw (doc_enc e) with Err _ => None | Ok v => Some v end
        end
      end.
Lemma read_value_in key e i v :
  value_in (keys (conf i)) (file (disk i)) e = Some v → read_value key e i = (Ok v, i).
Proof.
  unfold value_in, read_value, read_raw, read_record, read_at, file_len, mbind, M_bind.
  destruct (_ <? _); [done|]. destruct (verify_record _); [|done]. simpl. unfold st.
  destruct (open_record _ _) as [[k stored]|]; [|done]. destruct (unpack _ _) as [raw|]; [|done].
  destruct (decode _ _ _) as [v'|]; [|done]. by intros [= ->].
Qed.
(** It does not depend on what follows, nor on the header of the file. *)
Lemma slice_app_l {A} i j (l k : list A) : 0 ≤ i → j ≤ len l → slice i j (l ++ k) = slice i j l.
Proof.
  intros Hi Hj. unfold slice. destruct (Z.le_gt_cases j i) as [|Hlt].
  { replace (Z.to_nat (j - i)) with O by lia. by rewrite !firstn_O. }
  rewrite drop_app_le by (unfold len in *; lia). rewrite take_app_le; [done|]. rewrite length_drop. unfold len in *. lia.
Qed.
Lemma value_in_app ks f x e v : 0 ≤ offset e → value_in ks f e = Some v → value_in ks (f ++ x) e = Some v.
Proof.
  intros Ho. unfold value_in. rewrite len_app. pose proof (len_nonneg x).
  destruct (Z.ltb_spec (len f) (offset e + Log.rec_len e)); [done|].
  rewrite ltb_f by lia. by rewrite slice_app_l by lia.
Qed.
Lemma value_in_header ks h h' r e :
  len h = len h' → len h ≤ offset e → value_in ks (h ++ r) e = value_in ks (h' ++ r) e.
Proof. intros Hh Ho. unfold value_in. rewrite !len_app, Hh, !(slice_drop _ r), Hh by lia. done. Qed.
Lemma value_in_version ks f e v : value_in ks f (set_version v e) = value_in ks f e.
Proof. done. Qed.

(** What a key holds, as reading it gives. *)
Definition stored_value (i : Inner) (k : str) : option Val :=
  match index (mem i) !! k with Some e => value_in (keys (conf i)) (file (disk i)) e | None => None end.
(** What an index says of a key that holds [v]. *)
Definition indexed (s : SecIndex) (k : str) (v : option Val) : option SKey :=
  if glob_match (pattern s) k then
    match v with Some v => match as_doc v with Some d => value s d | None => None end | None => None end
  else None.
(** An index and the documents at [t]: it may lack those whose time is over. *)
Definition sec_agrees (t : Z) (i : Inner) (s : SecIndex) : Prop :=
  ∀ k, rev s !! k = indexed s k (stored_value i k) ∨ (rev s !! k = None ∧ ∃ e, index (mem i) !! k = Some e ∧ is_expired e t = true).

(** The engine and its log: [rs] are the records the index accounts for,
    [todo] those already in the file and not yet in the index. *)
Record inv (req : bool) (t : Z) (rs todo : list Rec) (i : Inner) : Prop := {
  iv_mem : mem_ok (mem i);
  iv_file : file (disk i) = file_header (file_id (disk i)) (format (disk i)) ++ recs_bytes (rs ++ todo);
  iv_id : in_u 64 (file_id (disk i));
  iv_fmt : 1 ≤ format (disk i) ≤ 3;
  iv_read : Forall (readable (keys (conf i)) req) (rs ++ todo);
  iv_agree : agrees t (index (mem i)) (apply_changes (∅, 0) (rec_changes FILE_HEADER_LEN rs)).1;
  iv_vals : ∀ k e, index (mem i) !! k = Some e → FILE_HEADER_LEN ≤ offset e ∧ version e ≤ eseq (txns i) ∧
              is_Some (value_in (keys (conf i)) (file (disk i)) e);
  iv_raw : ∀ k e, index (mem i) !! k = Some e → 0 ≤ raw_size e;
  iv_sec : Forall (sec_agrees t i) (sec (mem i));
  iv_cache : ∀ k s, Cache.map (cache (mem i)) !! k = Some s → ∀ e, index (mem i) !! k = Some e → version e = s_version s →
               value_in (keys (conf i)) (file (disk i)) e = Some (Cache.value s);
}.

Lemma inv_mono req t t' rs todo i : t ≤ t' → inv req t rs todo i → inv req t' rs todo i.
Proof.
  intros Ht [? ? ? ? ? Ha ? ? Hs ?]. split; try done; [by eapply agrees_mono|]. eapply Forall_impl; [exact Hs|].
  intros s Hk k. destruct (Hk k) as [?|(? & e & ? & ?)]; [by left|right]. split; [done|]. exists e. split; [done|]. by eapply is_expired_mono.
Qed.

Lemma file_header_len id fmt : len (file_header id fmt) = FILE_HEADER_LEN.
Proof. unfold file_header. rewrite !len_app. unfold len. rewrite !le_bytes_length. done. Qed.

(** Dropping a key whose time is over. *)
Lemma stored_value_remove k i k' :
  stored_value (tell_expired k (idx_remove k i).2) k' = if decide (k = k') then None else stored_value i k'.
Proof.
  destruct (idx_remove_rest k i) as (E1 & _ & E3). unfold stored_value. simpl. rewrite E1, E3, idx_remove_index.
  destruct (decide (k = k')) as [->|]; [by rewrite lookup_delete_eq|by rewrite lookup_delete_ne].
Qed.
Lemma sec_agrees_same t i i' s : (∀ k, stored_value i' k = stored_value i k) →
  (∀ k e, index (mem i) !! k = Some e → is_expired e t = true → ∃ e', index (mem i') !! k = Some e' ∧ is_expired e' t = true) →
  sec_agrees t i s → sec_agrees t i' s.
Proof. intros Hsv Hx Hs k. rewrite Hsv. destruct (Hs k) as [?|(? & e & He & Hxe)]; [by left|right]. split; [done|]. by eapply Hx. Qed.
Lemma sec_remove t k i : Forall (sec_agrees t i) (sec (mem i)) → Forall (sec_agrees t (idx_remove k i).2) (sec (mem (idx_remove k i).2)).
Proof.
  intros Hs. pose proof (stored_value_remove k i) as Hsv. pose proof (idx_remove_index k i) as Hix.
  assert (sec (mem (idx_remove k i).2) = if index (mem i) !! k then List.map (remove k) (sec (mem i)) else sec (mem i)) as ->
    by (unfold idx_remove; by destruct (index (mem i) !! k)).
  destruct (index (mem i) !! k) as [e|] eqn:E.
  - apply Forall_map. eapply Forall_impl; [exact Hs|]. intros s Hk k'. cbn beta.
    destruct (SecIndex.remove_fields k s) as (Ep & Ev & _). rewrite remove_rev, Hix. unfold indexed in *. rewrite Ep, Ev.
    change (stored_value (idx_remove k i).2 k') with (stored_value (tell_expired k (idx_remove k i).2) k'). rewrite Hsv. destruct (decide (k = k')) as [->|].
    + left. rewrite lookup_delete_eq. by destruct (glob_match _ _).
    + rewrite !lookup_delete_ne by done. apply Hk.
  - eapply Forall_impl; [exact Hs|]. intros s. apply sec_agrees_same.
    + intros k'. change (stored_value (idx_remove k i).2 k') with (stored_value (tell_expired k (idx_remove k i).2) k'). rewrite Hsv.
      destruct (decide (k = k')) as [->|]; [|done]. unfold stored_value. by rewrite E.
    + intros k' e He Hx. exists e. split; [|done]. rewrite Hix, lookup_delete_ne; [done|]. intros ->. congruence.
Qed.
Lemma cache_remove_lookup k i k' s :
  Cache.map (cache (mem (idx_remove k i).2)) !! k' = Some s → Cache.map (cache (mem i)) !! k' = Some s.
Proof.
  unfold idx_remove. destruct (index (mem i) !! k); [|done]. simpl. rewrite remove_lookup. by destruct (decide _).
Qed.
Lemma inv_expire req t rs todo i k e :
  inv req t rs todo i → index (mem i) !! k = Some e → is_expired e t = true →
  inv req t rs todo (tell_expired k (idx_remove k i).2).
Proof.
  intros [Hm Hf Hid Hfmt Hr Ha Hv Hraw Hs Hc] Hk Hx. destruct (idx_remove_rest k i) as (E1 & E2 & E3).
  split; simpl; rewrite ?E1, ?E2, ?E3; try done.
  - by apply idx_remove_ok.
  - rewrite idx_remove_index. by eapply agrees_expire.
  - intros k' e'. rewrite idx_remove_index, lookup_delete_Some. intros [_ ?]. by eapply Hv.
  - intros k' e'. rewrite idx_remove_index, lookup_delete_Some. intros [_ ?]. by eapply Hraw.
  - by apply (sec_remove t k i).
  - intros k' s Hs' e'. rewrite idx_remove_index, lookup_delete_Some. intros [_ ?]. eapply Hc; [|done].
    by eapply cache_remove_lookup.
Qed.

Lemma inv_live req t rs todo i k : inv req t rs todo i → inv req t rs todo (live k t i).2.
Proof.
  intros Hi. destruct (live_cases k t i) as [(e & -> & _)|[[-> _]|(e & -> & Hk & Hx)]]; [done|done|]. by eapply inv_expire.
Qed.
Lemma inv_purge req t rs todo i : inv req t rs todo i → inv req t rs todo (purge_expired t i).2.
Proof.
  intros Hi. unfold purge_expired. simpl.
  assert (∀ l i, inv req t rs todo i → (∀ k, k ∈ l → ∀ e, index (mem i) !! k = Some e → is_expired e t = true) →
    inv req t rs todo (List.fold_left (fun i k => tell_expired k (idx_remove k i).2) l i)) as Hfold.
  { clear i Hi. induction l as [|k l IH]; intros i Hi Hl; [done|]. simpl. apply IH.
    - destruct (index (mem i) !! k) as [e|] eqn:E; [eapply inv_expire; [done|exact E|]; by eapply (Hl k); [left|]|].
      unfold idx_remove. rewrite E. by destruct Hi.
    - intros k' Hk' e. simpl. rewrite idx_remove_index, lookup_delete_Some. intros [_ ?]. eapply Hl; [by right|done]. }
  apply Hfold; [done|]. intros k Hk e He. destruct (due_spec _ _ _ (iv_mem _ _ _ _ _ Hi) Hk) as (e' & He' & ?). congruence.
Qed.

(** ** The file grows *)
Lemma file_header_raise id a b r :
  take 4 (file_header id a ++ r) ++ le_bytes 4 b ++ drop 8 (file_header id a ++ r) = file_header id b ++ r.
Proof. done. Qed.

Lemma stored_value_disk i i' :
  mem i' = mem i → conf i' = conf i →
  (∀ k e v, index (mem i) !! k = Some e → value_in (keys (conf i)) (file (disk i)) e = Some v →
     value_in (keys (conf i)) (file (disk i')) e = Some v) →
  (∀ k e, index (mem i) !! k = Some e → is_Some (value_in (keys (conf i)) (file (disk i)) e)) →
  ∀ k, stored_value i' k = stored_value i k.
Proof.
  intros Em Ec Hv Hs k. unfold stored_value. rewrite Em, Ec. destruct (index (mem i) !! k) as [e|] eqn:E; [|done].
  destruct (Hs k e E) as [v Hv']. rewrite Hv'. by eapply Hv.
Qed.

(** Records are appended (or nothing is), and the rest of the state is as it was. *)
Record same_but_disk (i i' : Inner) : Prop := {
  sd_mem : mem i' = mem i; sd_txns : txns i' = txns i; sd_conf : conf i' = conf i;
  sd_emitted : emitted i' = emitted i; sd_expired : expired i' = expired i;
  sd_values : ∀ k, stored_value i' k = stored_value i k;
}.
Lemma append_ok env c i req t rs :
  inv req t rs [] i → Forall (readable (keys (conf i)) req) c →
  match append env (recs_bytes c) i with
  | (Ok off, i') => off = FILE_HEADER_LEN + recs_len rs ∧ inv req t rs c i' ∧ same_but_disk i i'
  | (Err _, i') => inv req t rs [] i' ∧ same_but_disk i i'
  end.
Proof.
  intros [Hm Hf Hid Hfmt Hr Ha Hv Hraw Hs Hc] Hrc. rewrite app_nil_r in Hf, Hr.
  unfold append. destruct (closed (disk i)).
  { split; [|by split]. split; rewrite ?app_nil_r; done. }
  destruct (format_needed (recs_bytes c)) as [need|] eqn:En.
  2: { split; [|by split]. split; rewrite ?app_nil_r; done. }
  assert (1 ≤ need ≤ 3) as Hneed.
  { eapply format_needed_range; [|exact En]. apply Forall_map. eapply Forall_impl; [exact Hrc|]. intros r. apply rd_fits. }
  destruct (_ && _) eqn:Eio.
  { split; [|by split]. split; rewrite ?app_nil_r; done. }
  clear Eio. set (fmt := if format (disk i) <? need then need else format (disk i)).
  assert ((if format (disk i) <? need then take 4 (file (disk i)) ++ le_bytes 4 need ++ drop 8 (file (disk i)) else file (disk i))
          = file_header (file_id (disk i)) fmt ++ recs_bytes rs) as Ef.
  { unfold fmt. rewrite Hf. destruct (_ <? _); [apply file_header_raise|done]. }
  assert (1 ≤ fmt ≤ 3) as Hfmt' by (unfold fmt; destruct (_ <? _); lia).
  assert (∀ x k e v, index (mem i) !! k = Some e → value_in (keys (conf i)) (file (disk i)) e = Some v →
     value_in (keys (conf i)) ((file_header (file_id (disk i)) fmt ++ recs_bytes rs) ++ x) e = Some v) as Hstable.
  { intros x k e v Hk Hval. destruct (Hv k e Hk) as (Ho & _). unfold FILE_HEADER_LEN in Ho. apply value_in_app; [lia|].
    rewrite Hf in Hval. rewrite <- Hval. apply value_in_header; rewrite !file_header_len; done. }
  assert (∀ x, ∀ d', d' = file_header (file_id (disk i)) fmt ++ recs_bytes rs ++ x →
    ∀ k e v, index (mem i) !! k = Some e → value_in (keys (conf i)) (file (disk i)) e = Some v →
     value_in (keys (conf i)) d' e = Some v) as Hst by (intros x d' ->; rewrite app_assoc; apply Hstable).
  assert (∀ i' x, mem i' = mem i → conf i' = conf i →
            file (disk i') = file_header (file_id (disk i)) fmt ++ recs_bytes rs ++ x → ∀ k, stored_value i' k = stored_value i k) as Hsv.
  { intros i' x E1 E2 E3. apply stored_value_disk; [done|done| |].
    - by apply (Hst x).
    - intros k e Hk. by destruct (Hv k e Hk) as (_ & _ & ?). }
  assert (∀ i' x todo, mem i' = mem i → conf i' = conf i → txns i' = txns i → file_id (disk i') = file_id (disk i) →
            format (disk i') = fmt → recs_bytes todo = x → Forall (readable (keys (conf i)) req) todo →
            file (disk i') = file_header (file_id (disk i)) fmt ++ recs_bytes rs ++ x → inv req t rs todo i') as Hinv.
  { intros i' x todo E1 E2 E3 E4 E5 E6 E7 E8. split; rewrite ?E1, ?E2, ?E3, ?E4, ?E5, ?E8; try done.
    - rewrite recs_bytes_app, E6. done.
    - by apply Forall_app_2.
    - intros k e Hk. destruct (Hv k e Hk) as (? & ? & [v Hval]). split; [done|]. split; [done|].
      exists v. by apply (Hst x _ eq_refl k).
    - eapply Forall_impl; [exact Hs|]. intros s. apply sec_agrees_same; [by apply (Hsv i' x)|]. rewrite E1. intros k e ? ?. by exists e.
    - intros k s Hk e He Hver. apply (Hst x _ eq_refl k); [done|]. by apply (Hc k s). }
  rewrite Ef. destruct (io_write env); cbn [negb].
  - split; [|split].
    + unfold len at 1. rewrite length_app, Nat2Z.inj_add. fold (len (file_header (file_id (disk i)) fmt)).
      by rewrite file_header_len.
    + by eapply Hinv.
    + split; try done. by eapply Hsv.
  - split.
    + eapply Hinv; try done. simpl. by rewrite app_nil_r.
    + split; try done. eapply Hsv; try done. simpl. by rewrite app_nil_r.
Qed.

(** ** The index catches up *)
Lemma readable_open ks req r :
  readable ks req r → open_record ks (frame_bytes (r_frame r)) = Ok (utf8 (r_key r), r_stored r).
Proof.
  intros [Hf Hk Ho Hv Ht]. rewrite scan_open_frame in Ho by done. destruct (has_flag _ FLAG_ENCRYPTED) eqn:E.
  - destruct (open_record ks _) as [kv|[]]; try done. congruence.
  - destruct req; [done|]. rewrite open_frame_plain by done. injection Ho as H1' H2'. congruence.
Qed.

(** The record at its place in the file is read as its value. *)
Lemma value_at_place req t rs r todo i e raw v :
  inv req t rs (r :: todo) i → offset e = FILE_HEADER_LEN + recs_len rs → Log.rec_len e = frame_len (r_frame r) →
  unpack (r_stored r) (Compression_from_flag (Z.land (e_flags e) FLAG_COMP_MASK)) = Ok raw →
  decode (e_ty e) raw (doc_enc e) = Ok v →
  value_in (keys (conf i)) (file (disk i)) e = Some v.
Proof.
  intros Hi Ho Hl Hu Hd. destruct Hi as [_ Hf _ _ Hr _ _ _ _ _].
  apply Forall_app in Hr as [_ Hr]. apply Forall_cons in Hr as [Hr _].
  pose proof (frame_bytes_len _ (rd_fits _ _ _ Hr)) as Hfl.
  unfold value_in. rewrite Hf, recs_bytes_app, recs_bytes_cons, Ho, Hl.
  rewrite !len_app, file_header_len, Hfl. fold (recs_len rs). fold (recs_len todo). pose proof (recs_len_nonneg todo).
  rewrite ltb_f by lia. rewrite (app_assoc (file_header _ _)).
  rewrite slice_field by (rewrite ?len_app, ?file_header_len; unfold recs_len; lia).
  rewrite verify_frame by apply Hr. cbn [negb]. by rewrite (readable_open _ _ _ Hr), Hu, Hd.
Qed.

Lemma rec_changes_snoc pos rs r :
  Forall (fun r => fits (r_frame r)) rs → rec_changes pos (rs ++ [r]) = rec_changes pos rs ++ [rec_change r (pos + recs_len rs)].
Proof.
  intros Hr. revert pos. induction Hr as [|x rs Hx _ IH]; intros pos; simpl.
  - by rewrite Z.add_0_r.
  - rewrite IH, recs_len_cons by done. by rewrite Z.add_assoc.
Qed.
Lemma inv_fits req t rs todo i : inv req t rs todo i → Forall (fun r => fits (r_frame r)) rs.
Proof. intros Hi. pose proof (iv_read _ _ _ _ _ Hi) as Hr. apply Forall_app in Hr as [Hr _]. eapply Forall_impl; [exact Hr|]. intros r. apply rd_fits. Qed.

(** A cache filled with [w], and a slot more. *)
Lemma cache_ok_slots (c : ValueCache Val) (w : str → Z → Val → Prop) :
  cache_ok (fun _ _ _ => True) c → (∀ k s, Cache.map c !! k = Some s → w k (s_version s) (Cache.value s)) → cache_ok w c.
Proof. intros [? ? ? ? _] Hw. by split. Qed.

Lemma idx_insert_index key e doc i : index (mem (idx_insert key e doc i)) = <[key := e]> (index (mem i)).
Proof. done. Qed.
Lemma store_rest key e doc rv raw i :
  disk (store key e doc rv raw i) = disk i ∧ txns (store key e doc rv raw i) = txns i ∧ conf (store key e doc rv raw i) = conf i ∧
  index (mem (store key e doc rv raw i)) = <[key := e]> (index (mem i)) ∧ sec (mem (store key e doc rv raw i)) = List.map (update key doc) (sec (mem i)).
Proof. unfold store. destruct (is_pinned _ _); [destruct rv|]; done. Qed.
Lemma store_mem_ok key e doc rv raw i : 0 ≤ len raw → mem_ok (mem i) → mem_ok (mem (store key e doc rv raw i)).
Proof.
  intros Hl Hm. unfold store. pose proof (idx_insert_ok key e doc i Hm) as Hm'. destruct (is_pinned _ _); [|done].
  destruct rv as [v|]; [|done]. apply set_cache_ok; [done|]. apply put_ok; [done|done|apply Hm'].
Qed.
Lemma store_cache key e doc v raw i k s :
  0 ≤ len raw → mem_ok (mem i) → Cache.map (cache (mem (store key e doc (Ok v) raw i))) !! k = Some s →
  (k = key ∧ s_version s = version e ∧ Cache.value s = v) ∨ (k ≠ key ∧ ∃ s0, Cache.map (cache (mem i)) !! k = Some s0 ∧
     s_version s0 = s_version s ∧ Cache.value s0 = Cache.value s).
Proof.
  intros Hl Hm. set (w := fun k ver (x : Val) => (k = key ∧ ver = version e ∧ x = v) ∨
    (k ≠ key ∧ ∃ s0, Cache.map (cache (mem i)) !! k = Some s0 ∧ s_version s0 = ver ∧ Cache.value s0 = x)).
  assert (cache_ok w (cache (mem (store key e doc (Ok v) raw i)))) as Hc; [|intros Hk; exact (ok_from _ _ Hc k s Hk)].
  assert (cache_ok w (Cache.remove key (cache (mem i)))) as Hrem.
  { apply cache_ok_slots; [apply cache_remove_ok, Hm|]. intros k' s'. rewrite remove_lookup. destruct (decide _) as [|Hne]; [done|].
    intros Hs'. right. split; [done|]. eauto. }
  unfold store. destruct (is_pinned _ _); [|exact Hrem]. simpl. apply put_ok; [done|by left|exact Hrem].
Qed.

Lemma stored_value_insert i i' key e v :
  disk i' = disk i → conf i' = conf i → index (mem i') = <[key := e]> (index (mem i)) →
  value_in (keys (conf i)) (file (disk i)) e = Some v →
  ∀ k, stored_value i' k = if decide (key = k) then Some v else stored_value i k.
Proof.
  intros E1 E2 E3 Hv k. unfold stored_value. rewrite E1, E2, E3. destruct (decide (key = k)) as [->|].
  - by rewrite lookup_insert_eq.
  - by rewrite lookup_insert_ne.
Qed.

Lemma store_inv req t rs r todo i ty e raw v :
  inv req t rs (r :: todo) i →
  has_flag (f_flags (r_frame r)) FLAG_TOMBSTONE = false → Type_from_u8 (f_ty (r_frame r)) = Some ty →
  set_version 0 e = set_version 0 (scan_entry (frame_header (r_frame r)) (FILE_HEADER_LEN + recs_len rs) ty (r_stored r)) →
  version e ≤ eseq (txns i) → 0 ≤ raw_size e →
  (∀ k e', index (mem i) !! k = Some e' → version e' ≤ eseq (txns i)) →
  unpack (r_stored r) (Compression_from_flag (Z.land (e_flags e) FLAG_COMP_MASK)) = Ok raw →
  decode (e_ty e) raw (doc_enc e) = Ok v →
  let i' := store (r_key r) e (as_doc v) (Ok v) raw i in
  inv req t (rs ++ [r]) todo i' ∧ ∀ k, stored_value i' k = if decide (r_key r = k) then Some v else stored_value i k.
Proof.
  intros Hi Htomb Hty He Hver Hrw Hvers Hu Hd i'.
  destruct (store_rest (r_key r) e (as_doc v) (Ok v) raw i) as (E1 & E2 & E3 & E4 & E5). fold i' in E1, E2, E3, E4, E5.
  assert (offset e = FILE_HEADER_LEN + recs_len rs) as Ho by (by injection He).
  assert (Log.rec_len e = frame_len (r_frame r)) as Hl by (by rewrite (set_version_len _ _ He)).
  pose proof (value_at_place req t rs r todo i e raw v Hi Ho Hl Hu Hd) as Hval.
  pose proof (stored_value_insert i i' (r_key r) e v E1 E3 E4 Hval) as Hsv. split; [|exact Hsv].
  pose proof (inv_fits _ _ _ _ _ Hi) as Hfits.
  destruct Hi as [Hm Hf Hid Hfmt Hr Ha Hv Hraw Hs Hc]. split; rewrite ?E1, ?E2, ?E3; try done.
  - apply store_mem_ok; [apply len_nonneg|done].
  - by rewrite <- app_assoc.
  - by rewrite <- app_assoc.
  - rewrite E4, rec_changes_snoc, apply_changes_app by done.
    destruct (apply_changes (∅, 0) (rec_changes FILE_HEADER_LEN rs)) as [sc sq]. simpl in Ha |- *.
    unfold rec_change. rewrite Htomb, Hty. simpl. apply agrees_insert; [done|exact He].
  - intros k e' . rewrite E4, lookup_insert_Some. intros [[<- <-]|[_ Hk]].
    + rewrite Ho. pose proof (recs_len_nonneg rs). split; [lia|]. split; [done|]. by eexists.
    + by apply (Hv k).
  - intros k e'. rewrite E4, lookup_insert_Some. intros [[<- <-]|[_ Hk]]; [done|by eapply Hraw].
  - rewrite E5. apply Forall_map. eapply Forall_impl; [exact Hs|]. intros s Hrev k. simpl.
    destruct (update_fields (r_key r) (as_doc v) s) as (Ep & Ev & _). rewrite Hsv, E4. unfold indexed in *.
    rewrite update_rev, Ep, Ev. destruct (decide (r_key r = k)) as [<-|Hne].
    + left. destruct (glob_match (pattern s) (r_key r)) eqn:Eg; simpl; [rewrite lookup_partial_alter_eq; by destruct (as_doc v)|].
      destruct (Hrev (r_key r)) as [->|[-> _]]; [|done]. unfold indexed; by rewrite Eg.
    + rewrite lookup_insert_ne by done. destruct (glob_match (pattern s) (r_key r)); simpl; [rewrite lookup_partial_alter_ne by done|]; apply Hrev.
  - intros k s Hks e'. rewrite E4. destruct (store_cache _ _ _ _ _ _ _ _ (len_nonneg raw) Hm Hks) as [(-> & Hsv1 & Hsv2)|(Hne & s0 & Hs0 & Hv0 & Hx0)].
    + rewrite lookup_insert_eq. intros [= <-] _. by rewrite Hsv2.
    + rewrite lookup_insert_ne by done. intros He' Hver'. rewrite <- Hx0. apply (Hc k s0 Hs0); [done|congruence].
Qed.

Lemma remove_inv req t rs r todo i :
  inv req t rs (r :: todo) i → has_flag (f_flags (r_frame r)) FLAG_TOMBSTONE = true →
  let i' := (idx_remove (r_key r) i).2 in
  inv req t (rs ++ [r]) todo i' ∧ ∀ k, stored_value i' k = if decide (r_key r = k) then None else stored_value i k.
Proof.
  intros Hi Htomb i'. destruct (idx_remove_rest (r_key r) i) as (E1 & E2 & E3). fold i' in E1, E2, E3.
  pose proof (stored_value_remove (r_key r) i) as Hsv.
  change (∀ k, stored_value i' k = if decide (r_key r = k) then None else stored_value i k) in Hsv. split; [|exact Hsv].
  pose proof (inv_fits _ _ _ _ _ Hi) as Hfits.
  destruct Hi as [Hm Hf Hid Hfmt Hr Ha Hv Hraw Hs Hc]. split; rewrite ?E1, ?E2, ?E3; try done.
  - by apply idx_remove_ok.
  - by rewrite <- app_assoc.
  - by rewrite <- app_assoc.
  - unfold i'. rewrite idx_remove_index, rec_changes_snoc, apply_changes_app by done.
    destruct (apply_changes (∅, 0) (rec_changes FILE_HEADER_LEN rs)) as [sc sq]. simpl in Ha |- *.
    unfold rec_change. rewrite Htomb. simpl. by apply agrees_delete.
  - intros k e'. unfold i'. rewrite idx_remove_index, lookup_delete_Some. intros [_ Hk]. by apply (Hv k).
  - intros k e'. unfold i'. rewrite idx_remove_index, lookup_delete_Some. intros [_ Hk]. by eapply Hraw.
  - by apply (sec_remove t (r_key r) i).
  - intros k s Hks e'. unfold i'. rewrite idx_remove_index, lookup_delete_Some. intros [_ He'].
    eapply Hc; [|done]. by eapply cache_remove_lookup.
Qed.
End engine_ok.
