(* ===== verification/EngineThm.v ===== *)
(** * The operations of the engine: what they promise *)
From S2P Require Import Prelude Utf8 Util Maps Types Compress Format Crypt Log Cache SecIndex Engine EngineMem EngineOk.
Open Scope Z_scope.

(** The flags of a put, read back. *)
Lemma put_flags c x en E :
  (c = 0 ∨ c = 1 ∨ c = 2) → (x = 0 ∨ x = FLAG_TXN ∨ x = Z.lor FLAG_TXN FLAG_TXN_COMMIT) → (E = 0 ∨ E = FLAG_ENCRYPTED) →
  let f := Z.lor (Z.lor (Z.lor c x) (DocEnc_flags en)) E in
  has_flag f FLAG_TOMBSTONE = false ∧ DocEnc_from_flags f = en ∧
  Compression_from_flag (Z.land f FLAG_COMP_MASK) = Compression_from_flag c ∧ has_flag f FLAG_COMP_MASK = negb (c =? 0) ∧
  has_flag f FLAG_TXN = has_flag x FLAG_TXN ∧ has_flag f FLAG_TXN_COMMIT = has_flag x FLAG_TXN_COMMIT ∧
  has_flag f FLAG_ENCRYPTED = negb (E =? 0) ∧ Z.land f FLAG_COMP_MASK = c.
Proof. intros [->|[->| ->]] [->|[->| ->]] [->| ->]; by destruct en. Qed.

(** What the engine writes: compressed in one of the known ways, no larger
    than a value may be, its deadline in milliseconds. *)
Record movable (r : Rec) : Prop := {
  mv_size : len (r_stored r) ≤ MAX_VALUE_LEN;
  mv_comp : Z.land (f_flags (r_frame r)) FLAG_COMP_MASK ≠ 3;
  mv_ms : expiry_to_ms (expiry_to_ms (f_exp (r_frame r))) = expiry_to_ms (f_exp (r_frame r));
}.
Section engine_thm.
  Context `{Aead} `{Crc} `{Codecs} `{Leaves} `{!Values}.
  Context `{!AeadLaws} `{!CodecsLaws} `{!ValuesLaws}.

(** What the engine may be asked to store. *)
Record put_pre (key : str) (v : Val) (expires_at timestamp : Z) : Prop := {
  pp_val : val_ok v;
  pp_key : valid_str key;
  pp_exp : in_i64 expires_at;
  pp_ms : expiry_to_ms expires_at = expires_at;
  pp_ts : in_i64 timestamp;
}.
Definition nonce_pre (ks : option Keys) (n : option bytes) : Prop := ∀ x, n = Some x → keys_ok ks x.

(** A record built for a put: what reading it back from the log gives. *)
Record built (ks : option Keys) (req : bool) (r : Rec) (key : str) (v : Val) (exp : Z) (txn_ commit_ : bool) (e : Entry) (raw : bytes) : Prop := {
  bt_readable : readable ks req r;
  bt_key : r_key r = key;
  bt_tomb : has_flag (f_flags (r_frame r)) FLAG_TOMBSTONE = false;
  bt_ty : Type_from_u8 (f_ty (r_frame r)) = Some (v_ty v);
  bt_txn : txn r = txn_;
  bt_commit : commit r = commit_;
  bt_entry : ∀ off ver, set_version 0 (at_ off ver e) = set_version 0 (scan_entry (frame_header (r_frame r)) off (v_ty v) (r_stored r));
  bt_unpack : unpack (r_stored r) (Compression_from_flag (Z.land (e_flags e) FLAG_COMP_MASK)) = Ok raw;
  bt_decode : decode (e_ty e) raw (doc_enc e) = Ok v;
  bt_e_ty : e_ty e = v_ty v;
  bt_e_exp : e_expires_at e = exp;
  bt_raw : 0 ≤ raw_size e;
  bt_movable : movable r;
}.

Lemma scan_raw_size_pack raw algo h :
  has_flag (Format.flags h) FLAG_COMP_MASK = negb ((pack raw algo).2 =? 0) →
  scan_raw_size h (pack raw algo).1 = wrap 32 (len raw).
Proof.
  intros Hf. unfold scan_raw_size. rewrite Hf. destruct (pack_stored raw algo) as [->|(body & c & -> & Hc)]; [done|].
  cbn [fst snd]. assert ((c =? 0) = false) as -> by (destruct Hc as [->| ->]; done). cbn [negb andb].
  rewrite len_app. pose proof (len_nonneg body). assert (len (le_bytes 4 (wrap 32 (len raw))) = 4) as E by done.
  rewrite E, leb_t by lia. rewrite take_app_len by done. apply le_val_u32, wrap_in_u. lia.
Qed.

Lemma build_put_ok req i key v exp mp ts x n rec e raw :
  keys_read (keys (conf i)) req (keys (conf i)) → nonce_pre (keys (conf i)) n → put_pre key v exp ts →
  x = 0 ∨ x = FLAG_TXN →
  build_put i key v exp mp ts x n = Ok (rec, e, raw) →
  ∃ r, rec = frame_bytes (r_frame r) ∧ built (keys (conf i)) req r key v exp (has_flag x FLAG_TXN) false e raw ∧
    encode_stored v (mp && Type_is_doc (v_ty v)) = Ok (raw, doc_enc e) ∧ key ≠ [] ∧
    (keys (conf i) = None → ∃ w, r = write_rec None w ∧ writable None w).
Proof.
  intros Hkr Hn [Hval Hkey Hexp Hms Hts] Hx. unfold build_put, validate_key.
  case_bool_decide as Hne; [done|]. destruct (Z.ltb_spec MAX_KEY_LEN (str_len key)) as [|Hklen]; [done|]. cbn [mbind result_bind].
  destruct (encode_stored v _) as [[raw' enc]|] eqn:Eenc; [|done]. cbn [mbind result_bind].
  destruct (Z.ltb_spec MAX_VALUE_LEN (len raw')) as [|Hlen]; [done|].
  pose proof (pack_len raw' (conf_comp (conf i))) as Hpl. pose proof (pack_flag raw' (conf_comp (conf i))) as Hpf.
  pose proof (unpack_of_pack raw' (conf_comp (conf i)) Hlen) as Hup.
  pose proof (fun h => scan_raw_size_pack raw' (conf_comp (conf i)) h) as Hraw.
  destruct (pack raw' (conf_comp (conf i))) as [stored cflag]. simpl fst in *. simpl snd in *.
  set (fl := Z.lor (Z.lor cflag x) (DocEnc_flags enc)).
  unfold encode. set (ks := keys (conf i)) in *.
  assert (∃ nn, encode_record ks key stored (Type_code (v_ty v)) fl ts exp n =
            Ok (frame_bytes (record_frame ks key stored (Type_code (v_ty v)) fl ts exp nn)) ∧ keys_ok ks nn
          ∨ ∃ err, encode_record ks key stored (Type_code (v_ty v)) fl ts exp n = Err err) as [nn [[-> Hnn]|[err ->]]]; [| |done].
  { destruct n as [nn|].
    - exists nn. left. rewrite encode_record_frame. split; [done|]. by apply Hn.
    - exists []. destruct ks as [k|]; [right; by eexists|left; done]. }
  cbn [mbind result_bind].
  set (w := {| w_key := key; w_value := stored; w_ty := Type_code (v_ty v); w_flags := fl; w_ts := ts; w_exp := exp; w_nonce := nn |}).
  change (record_frame ks key stored (Type_code (v_ty v)) fl ts exp nn) with (write_frame ks w).
  assert (fl = Z.lor fl 0) as Hfl0 by (by rewrite Z.lor_0_r).
  assert (x = 0 ∨ x = FLAG_TXN ∨ x = Z.lor FLAG_TXN FLAG_TXN_COMMIT) as Hx' by tauto.
  destruct (put_flags cflag x enc 0 Hpf Hx' ltac:(by left)) as (F1 & F2 & F3 & F4 & F5 & F6 & F7 & _).
  fold fl in F1, F2, F3, F4, F5, F6, F7. rewrite <- Hfl0 in F1, F2, F3, F4, F5, F6, F7. simpl in F7.
  assert (writable ks w) as Hw.
  { split; simpl; try done.
    - split; simpl; [unfold in_u, MAX_KEY_LEN, str_len in *; pose proof (len_nonneg (utf8 key)); lia| |done|done].
      unfold in_u, TRAILER, NONCE_LEN, MAX_VALUE_LEN in *. pose proof (len_nonneg stored). lia.
    - unfold str_len. destruct (decide (utf8 key = [])) as [E|E]; [by apply utf8_nil_inv in E|].
      destruct (utf8 key); [done|]. rewrite len_cons. pose proof (len_nonneg l). lia.
    - right. rewrite Type_from_u8_code. by eexists. }
  pose proof (write_readable ks req ks w Hkr Hw) as Hread.
  pose proof (parse_frame _ [] (rd_fits _ _ _ Hread)) as Hp. rewrite app_nil_r in Hp. simpl r_frame in Hp. rewrite Hp.
  intros [= <- <- <-]. exists (write_rec ks w). split; [done|].
  assert (∃ E, (E = 0 ∨ E = FLAG_ENCRYPTED) ∧ f_flags (write_frame ks w) = Z.lor fl E) as (E & HE & Ef).
  { destruct ks; [exists FLAG_ENCRYPTED|exists 0]; (split; [tauto|]); [done|exact Hfl0]. }
  destruct (put_flags cflag x enc E Hpf Hx' HE) as (G1 & G2 & G3 & G4 & G5 & G6 & G7 & G8).
  fold fl in G1, G2, G3, G4, G5, G6, G7, G8. rewrite <- Ef in G1, G2, G3, G4, G5, G6, G7, G8.
  assert (f_ts (write_frame ks w) = ts ∧ f_exp (write_frame ks w) = exp ∧ f_ty (write_frame ks w) = Type_code (v_ty v)) as (T1 & T2 & T3)
    by (by destruct ks).
  split; [|split; [|split; [exact Hne|]]].
  - split; cbn [e_ty e_flags e_expires_at doc_enc raw_size]; try done; [..|by apply wrap_in_u|].
    + unfold write_rec. cbn [r_frame]. rewrite T3. apply Type_from_u8_code.
    + unfold commit. cbn [r_frame write_rec]. rewrite G6. by destruct Hx as [->| ->].
    + intros off ver. unfold at_, scan_entry, set_version. cbn [offset ek_size ev_size raw_size e_ty e_flags e_timestamp e_expires_at version k_size v_size Format.flags timestamp expires_at frame_header r_frame r_stored write_rec].
      rewrite Hraw by exact G4. rewrite T1, T2, Hms. done.
    + cbn [r_stored write_rec Format.flags frame_header]. rewrite G3. exact Hup.
    + unfold doc_enc. cbn [e_flags Format.flags frame_header r_frame write_rec]. rewrite G2. by eapply decode_encode.
    + split; cbn [r_frame r_stored write_rec]; [unfold w; cbn [w_value]; lia| |by rewrite T2, !Hms].
      rewrite G8. destruct Hpf as [->|[->| ->]]; done.
  - unfold doc_enc. cbn [e_flags Format.flags frame_header r_frame write_rec]. by rewrite G2.
  - intros E0. exists w. rewrite E0 in Hw. rewrite E0. done.
Qed.

(** ** What a client sees at time [t] *)
Definition look (t : Z) (i : Inner) (k : str) : option (Val * Z) :=
  match index (mem i) !! k with
  | Some e => if is_expired e t then None
              else match stored_value i k with Some v => Some (v, e_expires_at e) | None => None end
  | None => None
  end.
(** The same, of a value that has just been stored. *)
Definition fresh (t : Z) (v : Val) (exp : Z) : option (Val * Z) :=
  if (0 <? exp) && (exp <=? t) then None else Some (v, exp).

Lemma look_remove t k i k' :
  look t (tell_expired k (idx_remove k i).2) k' = if decide (k = k') then None else look t i k'.
Proof.
  unfold look. rewrite stored_value_remove. simpl. rewrite idx_remove_index.
  destruct (decide (k = k')) as [->|]; [by rewrite lookup_delete_eq|by rewrite lookup_delete_ne].
Qed.
Lemma look_expire t t' k i e k' :
  t ≤ t' → index (mem i) !! k = Some e → is_expired e t = true →
  look t' (tell_expired k (idx_remove k i).2) k' = look t' i k'.
Proof.
  intros Ht Hk Hx. rewrite look_remove. destruct (decide (k = k')) as [->|]; [|done].
  unfold look. by rewrite Hk, (is_expired_mono _ _ _ Ht Hx).
Qed.
Lemma look_live t t' k i k' : t ≤ t' → look t' (live k t i).2 k' = look t' i k'.
Proof.
  intros Ht. destruct (live_cases k t i) as [(e & -> & _)|[[-> _]|(e & -> & Hk & Hx)]]; [done|done|]. by eapply look_expire.
Qed.
Lemma look_same t i i' k : same_but_disk i i' → look t i' k = look t i k.
Proof. intros [Em _ _ _ _ Hv]. unfold look. by rewrite Em, Hv. Qed.
Lemma look_none req t rs todo i k : inv req t rs todo i → look t i k = None ↔ (live k t i).1 = None.
Proof.
  intros Hi. unfold look, live, stored_value. destruct (index (mem i) !! k) as [e|] eqn:E; [|done].
  destruct (is_expired e t); [done|]. destruct (iv_vals _ _ _ _ _ Hi k e E) as (_ & _ & [v ->]). done.
Qed.
Lemma live_frame k t i : conf (live k t i).2 = conf i ∧ disk (live k t i).2 = disk i ∧ txns (live k t i).2 = txns i.
Proof.
  destruct (live_cases k t i) as [(e & -> & _)|[[-> _]|(e & -> & _ & _)]]; [done|done|]. simpl.
  by destruct (idx_remove_rest k i) as (-> & -> & ->).
Qed.

(** Changing what the cache holds, for values that are those of the file. *)
Definition cached_right (i : Inner) (k : str) (ver : Z) (x : Val) : Prop :=
  ∀ e, index (mem i) !! k = Some e → version e = ver → value_in (keys (conf i)) (file (disk i)) e = Some x.
Lemma inv_cached req t rs todo i : inv req t rs todo i → cache_ok (cached_right i) (cache (mem i)).
Proof. intros Hi. apply cache_ok_slots; [apply Hi|]. intros k s Hk e. by apply (iv_cache _ _ _ _ _ Hi k s Hk). Qed.
Lemma inv_set_cache req t rs todo i c : inv req t rs todo i → cache_ok (cached_right i) c → inv req t rs todo (set_cache c i).
Proof.
  intros [Hm Hf Hid Hfmt Hr Ha Hv Hs Hc] Hok. split; try done.
  - apply set_cache_ok; [done|]. destruct Hok as [? ? ? ? _]. by split.
  - intros k s Hk e. by apply (ok_from _ _ Hok k s Hk).
Qed.

Lemma value_of_ok req t rs todo i k e :
  inv req t rs todo i → index (mem i) !! k = Some e →
  ∃ v i', value_of k e i = (Ok v, i') ∧ stored_value i k = Some v ∧ inv req t rs todo i' ∧
    (∀ k', look t i' k' = look t i k') ∧ index (mem i') = index (mem i) ∧ conf i' = conf i ∧ disk i' = disk i ∧ txns i' = txns i ∧
    (∀ k', stored_value i' k' = stored_value i k') ∧ sec (mem i') = sec (mem i).
Proof.
  intros Hi Hk. destruct (iv_vals _ _ _ _ _ Hi k e Hk) as (_ & _ & [v Hv]).
  assert (stored_value i k = Some v) as Hsv by (unfold stored_value; by rewrite Hk).
  unfold value_of. pose proof (get_ok _ k (version e) _ (inv_cached _ _ _ _ _ Hi)) as Hget.
  destruct (get k (version e) (cache (mem i))) as [[x|] c] eqn:Eg; simpl in Hget.
  - exists x, (set_cache c i). split; [done|]. assert (x = v) as ->.
    { unfold get in Eg. destruct (negb _ && _); [done|]. simpl in Eg.
      destruct (Cache.map (cache (mem i)) !! k) as [s|] eqn:Es; [|done]. destruct (Z.eqb_spec (s_version s) (version e)) as [Ev|]; [|done].
      injection Eg as <- _. pose proof (iv_cache _ _ _ _ _ Hi k s Es e Hk (eq_sym Ev)) as Hc. congruence. }
    split; [done|]. split; [by apply inv_set_cache|]. done.
  - unfold mbind, M_bind, mret, M_ret, modify.
    rewrite (read_value_in k e (set_cache c i) v Hv). exists v. eexists. split; [done|]. split; [done|].
    split; [|done]. apply (inv_set_cache req t rs todo i); [done|]. simpl.
    destruct (Z.le_gt_cases 0 (raw_size e)) as [Hr|Hr].
    + apply put_ok; [done| |done]. intros e' He' _. simpl in He'. congruence.
    + exfalso. (* a stored size is a machine word *)
      pose proof (iv_raw _ _ _ _ _ Hi k e Hk). lia.
Qed.

(** Counters and listeners change nothing the client sees. *)
Record same_but_counts (i i' : Inner) : Prop := {
  sc_mem : mem i' = mem i; sc_disk : disk i' = disk i; sc_conf : conf i' = conf i; sc_seq : eseq (txns i) ≤ eseq (txns i');
}.
Lemma inv_counts req t rs todo i i' : same_but_counts i i' → inv req t rs todo i → inv req t rs todo i'.
Proof.
  intros [Em Ed Ec Es] [Hm Hf Hid Hfmt Hr Ha Hv Hraw Hs Hc].
  split; rewrite ?Em, ?Ed, ?Ec; try done.
  - intros k e Hk. destruct (Hv k e Hk) as (? & ? & ?). split; [done|]. split; [lia|done].
  - eapply Forall_impl; [exact Hs|]. intros s. apply sec_agrees_same; [intros k; unfold stored_value; by rewrite Em, Ed, Ec|].
    rewrite Em. intros k e ? ?. by exists e.
Qed.
Lemma look_counts t i i' k : same_but_counts i i' → look t i' k = look t i k.
Proof. intros [Em Ed Ec _]. unfold look, stored_value. by rewrite Em, Ed, Ec. Qed.
Lemma bury_counts key i : same_but_counts i (bury key i).
Proof. unfold bury. destruct (_ <? _); split; simpl; lia || done. Qed.

(** [put_locked], the error paths apart. *)
Definition stored_put (env : Env) (key : str) (value : Val) (exp ts : Z) (e : Entry) (raw : bytes) (created : bool) (off : Z) (i : Inner) : Inner :=
  let i := next_seq i in
  let e := at_ off (eseq (txns i)) e in
  emit (OpSet key (v_ty value) raw (doc_enc e) ts exp created) (dirty (store key e (as_doc value) (Ok value) raw i)).
Lemma put_locked_eq env key value exp mp ts i :
  put_locked env key value exp mp ts i =
  match build_put i key value exp mp ts 0 (nonce env 0) with
  | Err e => (Err e, i)
  | Ok (rec, e, raw) =>
    let '(old, i1) := live key (now_ms env) i in
    let created := match old with None => true | Some _ => false end in
    match append env rec i1 with
    | (Err e, i2) => (Err e, i2)
    | (Ok off, i2) => (Ok created, stored_put env key value exp ts e raw created off i2)
    end
  end.
Proof.
  unfold put_locked, mbind, M_bind, lift, liveM, modify, gets, mret, M_ret.
  destruct (build_put _ _ _ _ _ _ _ _) as [[[rec e] raw]|]; [|done]. destruct (live _ _ _) as [old i1].
  destruct (append _ _ _) as [[off|] i2]; done.
Qed.

(** Storing one built record, once it is in the file. *)
Lemma store_built req t rs r todo i key v exp tx cm e raw :
  inv req t rs (r :: todo) i → built (keys (conf i)) req r key v exp tx cm e raw →
  let i1 := next_seq i in
  let i' := store key (at_ (FILE_HEADER_LEN + recs_len rs) (eseq (txns i1)) e) (as_doc v) (Ok v) raw i1 in
  inv req t (rs ++ [r]) todo i' ∧ conf i' = conf i ∧ txns i' = txns i1 ∧
  ∀ t' k, look t' i' k = if decide (key = k) then fresh t' v exp else look t' i k.
Proof.
  intros Hi Hb i1 i'. assert (same_but_counts i i1) as Hc by (split; simpl; done || lia).
  pose proof (inv_counts _ _ _ _ _ _ Hc Hi) as Hi1. destruct Hb as [B1 B2 B3 B4 B5 B6 B7 B8 B9 B10 B11 B12 B13].
  destruct (store_inv req t rs r todo i1 (v_ty v) (at_ (FILE_HEADER_LEN + recs_len rs) (eseq (txns i1)) e) raw v) as [Hinv Hsv];
    try done.
  { intros k e' Hk. by destruct (iv_vals _ _ _ _ _ Hi1 k e' Hk) as (_ & ? & _). }
  rewrite B2 in Hinv, Hsv. fold i' in Hinv, Hsv. destruct (store_rest key (at_ (FILE_HEADER_LEN + recs_len rs) (eseq (txns i1)) e) (as_doc v) (Ok v) raw i1) as (E1 & E2 & E3 & E4 & _).
  fold i' in E1, E2, E3, E4. split; [done|]. split; [done|]. split; [done|]. intros t' k. unfold look. rewrite Hsv, E4.
  destruct (decide (key = k)) as [->|].
  - rewrite lookup_insert_eq. unfold fresh, is_expired. cbn [at_ e_expires_at]. by rewrite B11.
  - by rewrite lookup_insert_ne.
Qed.

(** One commit of the log, or none. *)
Definition committed_by (ks : option Keys) (req : bool) (c : list Rec) : Prop := (c = [] ∨ wf_commit ks req c) ∧ Forall movable c.
Lemma committed_nil ks req : committed_by ks req [].
Proof. split; [by left|apply List.Forall_nil]. Qed.

Lemma put_locked_ok req t rs env i key v exp mp ts :
  inv req t rs [] i → t ≤ now_ms env → keys_read (keys (conf i)) req (keys (conf i)) →
  nonce_pre (keys (conf i)) (nonce env 0) → put_pre key v exp ts →
  ∃ c, committed_by (keys (conf i)) req c ∧
  let '(res, i') := put_locked env key v exp mp ts i in
  inv req (now_ms env) (rs ++ c) [] i' ∧ conf i' = conf i ∧
  match res with
  | Ok created => (created = true ↔ look (now_ms env) i key = None) ∧
      ∀ t' k, now_ms env ≤ t' → look t' i' k = if decide (key = k) then fresh t' v exp else look t' i k
  | Err _ => c = [] ∧ ∀ t' k, now_ms env ≤ t' → look t' i' k = look t' i k
  end.
Proof.
  intros Hi Ht Hkr Hn Hp. apply (inv_mono _ _ (now_ms env)) in Hi; [|done]. rewrite put_locked_eq.
  destruct (build_put _ _ _ _ _ _ _ _) as [[[rec e] raw]|err] eqn:Eb.
  2: { exists []. rewrite app_nil_r. split; [apply committed_nil|]. done. }
  apply (build_put_ok req) in Eb as (r & -> & Hb & _ & _ & _); [|done..|by left]. simpl in Hb.
  pose proof (inv_live _ _ _ _ _ key Hi) as Hi1. pose proof (look_none _ _ _ _ _ key Hi) as Hnone.
  pose proof (fun t' k H => look_live (now_ms env) t' key i k H) as Hlook. destruct (live_frame key (now_ms env) i) as (Ec & _ & _).
  destruct (live key (now_ms env) i) as [old i1]. simpl in Hi1, Hnone, Hlook, Ec.
  assert (Forall (readable (keys (conf i1)) req) [r]) as Hrc by (rewrite Ec; constructor; [apply Hb|done]).
  pose proof (append_ok env [r] i1 req (now_ms env) rs Hi1 Hrc) as Happ.
  replace (frame_bytes (r_frame r)) with (recs_bytes [r]) by (unfold recs_bytes, log_bytes; simpl; by rewrite app_nil_r).
  destruct (append env (recs_bytes [r]) i1) as [[off|err] i2].
  - destruct Happ as (-> & Hi2 & Hsd). exists [r]. split.
    { split; [|apply Forall_singleton, Hb]. right. left. exists r. split; [done|]. split; [apply Hb|apply (bt_txn _ _ _ _ _ _ _ _ _ _ Hb)]. }
    assert (conf i2 = conf i) as Ec2 by (by rewrite (sd_conf _ _ Hsd)).
    rewrite <- Ec2 in Hb. destruct (store_built _ _ _ _ _ _ _ _ _ _ _ _ _ Hi2 Hb) as (Hi3 & Ec3 & Et3 & Hl3).
    unfold stored_put. set (i3 := store _ _ _ _ _ _) in *.
    match goal with |- inv _ _ _ _ ?x ∧ _ => assert (same_but_counts i3 x) as Hcnt by (split; simpl; done || lia) end.
    split; [by eapply inv_counts|]. split; [by rewrite (sc_conf _ _ Hcnt), Ec3|]. split.
    + rewrite Hnone. by destruct old.
    + intros t' k Ht'. rewrite (look_counts _ _ _ _ Hcnt), Hl3. destruct (decide (key = k)); [done|].
      rewrite (look_same _ _ _ _ Hsd). by apply Hlook.
  - destruct Happ as (Hi2 & Hsd). exists []. rewrite app_nil_r. split; [apply committed_nil|]. split; [done|].
    split; [by rewrite (sd_conf _ _ Hsd)|]. split; [done|]. intros t' k Ht'. rewrite (look_same _ _ _ _ Hsd). by apply Hlook.
Qed.

Lemma put_at_ok req t rs env i key v exp mp ts check :
  inv req t rs [] i → t ≤ now_ms env → keys_read (keys (conf i)) req (keys (conf i)) →
  nonce_pre (keys (conf i)) (nonce env 0) → put_pre key v exp ts →
  ∃ c, committed_by (keys (conf i)) req c ∧
  let '(res, i') := put_at env key v exp mp ts check i in
  inv req (now_ms env) (rs ++ c) [] i' ∧ conf i' = conf i ∧
  match res with
  | Ok created => (created = true ↔ look (now_ms env) i key = None) ∧
      ∀ t' k, now_ms env ≤ t' → look t' i' k = if decide (key = k) then fresh t' v exp else look t' i k
  | Err _ => c = [] ∧ ∀ t' k, now_ms env ≤ t' → look t' i' k = look t' i k
  end.
Proof.
  intros Hi Ht Hkr Hn Hp. unfold put_at, mbind, M_bind, lift.
  destruct (if check then _ else _) as [[]|err]; [by eapply put_locked_ok|].
  exists []. rewrite app_nil_r. split; [apply committed_nil|]. split; [by eapply inv_mono|]. done.
Qed.

Lemma get_ok_ req t rs env i key :
  inv req t rs [] i → t ≤ now_ms env →
  let '(res, i') := get_ env key i in
  inv req (now_ms env) rs [] i' ∧ conf i' = conf i ∧ (∀ t' k, now_ms env ≤ t' → look t' i' k = look t' i k) ∧
  match res with
  | Ok (Some (v, e)) => look (now_ms env) i key = Some (v, e_expires_at e)
  | Ok None => look (now_ms env) i key = None
  | Err _ => False
  end.
Proof.
  intros Hi Ht. apply (inv_mono _ _ (now_ms env)) in Hi; [|done]. unfold get_, mbind, M_bind, liveM, mret, M_ret.
  destruct (live_cases key (now_ms env) i) as [(e & -> & Hk & Hx)|[[-> Hk]|(e & -> & Hk & Hx)]].
  - destruct (value_of_ok _ _ _ _ _ _ _ Hi Hk) as (v & i' & -> & Hv & Hi' & Hl & Ex & Ec & Ed & Et & Hsv & _).
    split; [done|]. split; [done|]. split.
    + intros t' k _. unfold look. by rewrite Hsv, Ex.
    + unfold look. by rewrite Hk, Hx, Hv.
  - split; [done|]. split; [done|]. split; [done|]. unfold look. by rewrite Hk.
  - split; [by eapply inv_expire|]. split; [simpl; by destruct (idx_remove_rest key i) as (_ & _ & ->)|]. split.
    + intros t' k Ht'. by eapply look_expire.
    + unfold look. by rewrite Hk, Hx.
Qed.

Record key_pre (key : str) : Prop := {
  kp_valid : valid_str key;
  kp_nonempty : 0 < str_len key;
  kp_len : in_u 16 (str_len key);
}.
Lemma put_pre_key key v exp ts : put_pre key v exp ts → key ≠ [] → str_len key ≤ MAX_KEY_LEN → key_pre key.
Proof.
  intros [_ Hv _ _ _] Hne Hl. unfold MAX_KEY_LEN in Hl. split; [done| |].
  - unfold str_len. destruct (utf8 key) eqn:E; [by apply utf8_nil_inv in E|]. rewrite len_cons. pose proof (len_nonneg l). lia.
  - unfold in_u, str_len in *. pose proof (len_nonneg (utf8 key)). lia.
Qed.
(** The record of a deletion. *)
Lemma tomb_built req i key fl ts n rec :
  keys_read (keys (conf i)) req (keys (conf i)) → nonce_pre (keys (conf i)) n → key_pre key → in_i64 ts →
  fl = FLAG_TOMBSTONE ∨ fl = Z.lor FLAG_TOMBSTONE FLAG_TXN →
  encode key [] 0 fl ts 0 n i = Ok rec →
  ∃ r, rec = frame_bytes (r_frame r) ∧ readable (keys (conf i)) req r ∧ r_key r = key ∧
    has_flag (f_flags (r_frame r)) FLAG_TOMBSTONE = true ∧ txn r = has_flag fl FLAG_TXN ∧ commit r = false ∧
    (keys (conf i) = None → ∃ w, r = write_rec None w ∧ writable None w) ∧ movable r.
Proof.
  intros Hkr Hn [Hv Hne Hlen] Hts Hfl. unfold encode. set (ks := keys (conf i)) in *.
  assert (∃ nn, encode_record ks key [] 0 fl ts 0 n = Ok (frame_bytes (record_frame ks key [] 0 fl ts 0 nn)) ∧ keys_ok ks nn
          ∨ ∃ err, encode_record ks key [] 0 fl ts 0 n = Err err) as [nn [[-> Hnn]|[err ->]]]; [| |done].
  { destruct n as [nn|].
    - exists nn. left. rewrite encode_record_frame. split; [done|]. by apply Hn.
    - exists []. destruct ks as [k|]; [right; by eexists|left; done]. }
  intros [= <-].
  set (w := {| w_key := key; w_value := []; w_ty := 0; w_flags := fl; w_ts := ts; w_exp := 0; w_nonce := nn |}).
  assert (writable ks w) as Hw.
  { split; simpl; try done.
    - by destruct Hfl as [->| ->].
    - left. by destruct Hfl as [->| ->]. }
  pose proof (write_readable ks req ks w Hkr Hw) as Hread.
  exists (write_rec ks w). split; [done|]. split; [exact Hread|]. split; [done|].
  unfold txn, commit. cbn [r_frame write_rec].
  assert (Z.land (f_flags (write_frame ks w)) FLAG_COMP_MASK = 0) as Hcomp by (destruct ks; simpl; by destruct Hfl as [->| ->]).
  rewrite !write_flag by done. cbn [w_flags w]. split; [|split; [done|split; [|split]]].
  - by destruct Hfl as [->| ->].
  - by destruct Hfl as [->| ->].
  - intros E0. exists w. rewrite E0 in Hw |- *. done.
  - split; cbn [r_frame r_stored write_rec]; [done|by rewrite Hcomp|by destruct ks].
Qed.

Lemma remove_built req t rs r todo i :
  inv req t rs (r :: todo) i → has_flag (f_flags (r_frame r)) FLAG_TOMBSTONE = true →
  let i' := (idx_remove (r_key r) i).2 in
  inv req t (rs ++ [r]) todo i' ∧ ∀ t' k, look t' i' k = if decide (r_key r = k) then None else look t' i k.
Proof.
  intros Hi Htomb i'. destruct (remove_inv _ _ _ _ _ _ Hi Htomb) as [Hinv _]. split; [done|]. intros t' k.
  apply (look_remove t' (r_key r) i k).
Qed.

Lemma delete_ok_ req t rs env i key :
  inv req t rs [] i → t ≤ now_ms env → keys_read (keys (conf i)) req (keys (conf i)) →
  nonce_pre (keys (conf i)) (nonce env 0) → key_pre key → in_i64 (now_secs env) →
  ∃ c, committed_by (keys (conf i)) req c ∧
  let '(res, i') := delete_ env key i in
  inv req (now_ms env) (rs ++ c) [] i' ∧ conf i' = conf i ∧
  match res with
  | Ok found => (found = true ↔ look (now_ms env) i key ≠ None) ∧
      ∀ t' k, now_ms env ≤ t' → look t' i' k = if decide (key = k) then None else look t' i k
  | Err _ => c = [] ∧ ∀ t' k, now_ms env ≤ t' → look t' i' k = look t' i k
  end.
Proof.
  intros Hi Ht Hkr Hn Hk Hts. apply (inv_mono _ _ (now_ms env)) in Hi; [|done].
  pose proof (inv_live _ _ _ _ _ key Hi) as Hi1. pose proof (look_none _ _ _ _ _ key Hi) as Hnone.
  pose proof (fun t' k H => look_live (now_ms env) t' key i k H) as Hlook. destruct (live_frame key (now_ms env) i) as (Ec & _ & _).
  unfold delete_, mbind at 1, M_bind at 1, liveM. destruct (live key (now_ms env) i) as [old i1]. simpl in Hi1, Hnone, Hlook, Ec.
  destruct old as [e|].
  2: { exists []. rewrite app_nil_r. split; [apply committed_nil|]. simpl. split; [done|]. split; [done|]. split.
       - split; [done|]. intros Hne. exfalso. tauto.
       - intros t' k Ht'. rewrite Hlook by done. destruct (decide (key = k)) as [<-|]; [|done].
         assert (look (now_ms env) i key = None) as Hl by tauto. unfold look in *.
         destruct (index (mem i) !! key) as [e|] eqn:E; [|done]. destruct (is_expired e (now_ms env)) eqn:Hx.
         + by rewrite (is_expired_mono _ _ _ Ht' Hx).
         + unfold stored_value in *. rewrite E in *. destruct (iv_vals _ _ _ _ _ Hi key e E) as (_ & _ & [v Hv]). rewrite Hv in Hl. done. }
  unfold st, mbind, M_bind, modify, mret, M_ret.
  destruct (encode key [] 0 FLAG_TOMBSTONE (now_secs env) 0 (nonce env 0) i1) as [rec|err] eqn:Ee.
  2: { exists []. rewrite app_nil_r. split; [apply committed_nil|]. done. }
  rewrite <- Ec in Hkr, Hn. apply (tomb_built req) in Ee as (r & -> & Hr & Hkey & Htomb & Htx & Hcm & _ & Hmv); try done; [|by left].
  assert (Forall (readable (keys (conf i1)) req) [r]) as Hrc by by constructor.
  pose proof (append_ok env [r] i1 req (now_ms env) rs Hi1 Hrc) as Happ.
  replace (frame_bytes (r_frame r)) with (recs_bytes [r]) by (unfold recs_bytes, log_bytes; simpl; by rewrite app_nil_r).
  destruct (append env (recs_bytes [r]) i1) as [[off|err] i2].
  - destruct Happ as (-> & Hi2 & Hsd). exists [r]. split.
    { split; [|by apply Forall_singleton]. right. left. exists r. rewrite <- Ec. split; [done|]. split; [done|]. by rewrite Htx. }
    assert (same_but_counts i2 (next_seq i2)) as Hc1 by (split; simpl; done || lia).
    apply (inv_counts _ _ _ _ _ _ Hc1) in Hi2. destruct (remove_built _ _ _ _ _ _ Hi2 Htomb) as [Hi3 Hl3]. rewrite Hkey in Hi3, Hl3.
    destruct (idx_remove_rest key (next_seq i2)) as (_ & _ & Ec3). set (i3 := (idx_remove key (next_seq i2)).2) in *.
    match goal with |- inv _ _ _ _ ?x ∧ _ => assert (same_but_counts i3 x) as Hcnt end.
    { pose proof (bury_counts key i3) as []. split; simpl; done. }
    split; [by eapply inv_counts|]. split.
    { rewrite (sc_conf _ _ Hcnt), Ec3. simpl. by rewrite (sd_conf _ _ Hsd). }
    split; [split; [intros _ Hno; by apply Hnone in Hno|done]|].
    intros t' k Ht'. rewrite (look_counts _ _ _ _ Hcnt), Hl3. destruct (decide (key = k)); [done|].
    rewrite (look_counts _ _ _ _ Hc1), (look_same _ _ _ _ Hsd). by apply Hlook.
  - destruct Happ as (Hi2 & Hsd). exists []. rewrite app_nil_r. split; [apply committed_nil|]. split; [done|].
    split; [by rewrite (sd_conf _ _ Hsd)|]. split; [done|]. intros t' k Ht'. rewrite (look_same _ _ _ _ Hsd). by apply Hlook.
Qed.
End engine_thm.
