(* ===== verification/Sample.v ===== *)
(** * A concrete engine, for evaluations

    Texts, and documents of two bytes that [pair_leaves] indexes; the clear
    and a toy cipher; runs for compression. *)
From S2P Require Import Prelude Utf8 Util Maps Types Compress Format Crypt Log Hint Cache SecIndex Engine EngineMem EngineOk EngineThm.
Open Scope Z_scope.

Inductive SampleVal := SText (s : str) | SPair (a b : Z).
Definition sample_encode (v : SampleVal) (msgpack : bool) : result KivaError (bytes * DocEnc) :=
  match v with
  | SText s => Ok (utf8 s, EncJson)
  | SPair a b => Ok ([a; b], if msgpack then EncMsgPack else EncJson)
  end.
Definition sample_decode (t : Type_) (raw : bytes) (e : DocEnc) : result KivaError SampleVal :=
  match t, raw with
  | TString, raw => s ← ok_or (from_utf8 raw) (Corrupted "value is not valid UTF-8"); Ok (SText s)
  | TArray, [a; b] => Ok (SPair a b)
  | _, _ => Err (Corrupted "document does not match its type tag")
  end.
#[export] Instance sample_values : Values := {|
  Val := SampleVal;
  v_ty v := match v with SText _ => TString | SPair _ _ => TArray end;
  encode_stored := sample_encode;
  decode := sample_decode;
  as_doc v := match v with SText _ => None | SPair a b => Some (a, b) end;
|}.
#[export] Instance sample_values_laws : ValuesLaws.
Proof.
  refine {| val_ok v := match v with SText s => valid_str s | SPair _ _ => True end |}.
  - intros [s|a b] m raw enc Hv; simpl; intros [= <- <-]; simpl; [by rewrite from_utf8_utf8|done].
  - intros [s|a b]; simpl; [by intros [? ?]|done].
  - intros t raw e v Hd [d Hv]. destruct t; cbn [decode sample_values sample_decode] in Hd; try done. by simp_result.
Defined.

Definition at_ms (t : Z) : Env := {| now_ms := t; io_format := true; io_write := true; nonce := fun _ => Some toy_nonce |}.
Definition full_disk (t : Z) : Env := {| now_ms := t; io_format := true; io_write := false; nonce := fun _ => Some toy_nonce |}.
Definition T0 : Z := 1700000000000.

Lemma sample_put_pre k v exp ts :
  Forall is_ascii k → (match v with SText s => Forall is_ascii s | SPair _ _ => True end) → in_i64 exp → expiry_to_ms exp = exp → in_i64 ts →
  put_pre k v exp ts.
Proof. intros Hk Hv He Hm Ht. split; try done; [|by apply ascii_valid]. destruct v; [by apply ascii_valid|done]. Qed.
Ltac ascii := repeat (apply List.Forall_cons; [unfold is_ascii; vm_decide|]); apply List.Forall_nil.
