(* ===== verification/EngineBatch.v ===== *)
(** * Batches: all at once, in memory and in the log *)
From S2P Require Import Prelude Utf8 Util Maps Types Compress Format Crypt Log Cache SecIndex Engine EngineMem EngineOk EngineThm.
Open Scope Z_scope.

Section engine_batch.
  Context `{Aead} `{Crc} `{Codecs} `{Leaves} `{!Values}.
  Context `{!AeadLaws} `{!CodecsLaws} `{!ValuesLaws}.

(** ** What a batch means: its operations one after the other *)
Definition View : Type := Z → str → option (Val * Z).
Definition view_set (key : str) (x : option (Val * Z)) (w : View) : View := fun t k =>
  if decide (key = k) then match x with Some (v, exp) => fresh t v exp | None => None end else w t k.
Definition op_effect (o : BatchOp) : str * option (Val * Z) :=
  match o with Put k v e _ => (k, Some (v, e)) | Del k => (k, None) end.
Definition apply_effects (l : list (str * option (Val * Z))) (w : View) : View :=
  List.fold_left (fun w e => view_set e.1 e.2 w) l w.
Definition batch_view (ops : list BatchOp) (w : View) : View := apply_effects (List.map op_effect ops) w.

Lemma apply_effects_ext l w w' t k : (∀ k, w t k = w' t k) → apply_effects l w t k = apply_effects l w' t k.
Proof.
  revert w w'. induction l as [|[key x] l IH]; intros w w' Hw; [apply Hw|]. simpl. apply IH. intros k'. unfold view_set.
  by destruct (decide _).
Qed.

(** ** Staged operations and their records *)
Definition srel (s : Staged) (r : Rec) (eff : str * option (Val * Z)) : Prop :=
  (∃ w, r = write_rec None w ∧ writable None w) ∧ movable r ∧ txn r = true ∧ commit r = false ∧
  match s with
  | SPut key e raw doc ty _ => ∃ v exp, eff = (key, Some (v, exp)) ∧ built None false r key v exp true false e raw ∧
      match doc with Some d => as_doc d | None => None end = as_doc v ∧ ty = v_ty v
  | SDel key => eff = (key, None) ∧ readable None false r ∧ r_key r = key ∧ has_flag (f_flags (r_frame r)) FLAG_TOMBSTONE = true
  end.
Definition stamp_rec (r : Rec) : Rec := {| r_frame := stamped (r_frame r); r_key := r_key r; r_stored := r_stored r |}.
Fixpoint stamp_recs (l : list Rec) : list Rec :=
  match l with [] => [] | [r] => [stamp_rec r] | r :: l => r :: stamp_recs l end.
Definition recs_of (l : list Rec) : list bytes := List.map (fun r => frame_bytes (r_frame r)) l.

Lemma stamp_recs_bytes l : List.concat (stamp_last (recs_of l)) = recs_bytes (stamp_recs l).
Proof.
  induction l as [|r [|r' l] IH]; [done| |].
  - unfold recs_bytes, log_bytes. cbn [recs_of stamp_last stamp_recs List.map List.concat stamp_rec r_frame]. by rewrite stamp_frame.
  - change (recs_of (r :: r' :: l)) with (frame_bytes (r_frame r) :: recs_of (r' :: l)).
    change (stamp_last (frame_bytes (r_frame r) :: recs_of (r' :: l))) with (frame_bytes (r_frame r) :: stamp_last (recs_of (r' :: l))).
    change (stamp_recs (r :: r' :: l)) with (r :: stamp_recs (r' :: l)). rewrite recs_bytes_cons, <- IH. done.
Qed.
Lemma srel_readable s r e : srel s r e → readable None false r ∧ readable None false (stamp_rec r).
Proof.
  intros ((w & -> & Hw) & _). split; [by apply write_readable|]. by apply (stamped_readable None w).
Qed.
Lemma srel_movable sl rl el : Forall3 srel sl rl el → Forall movable rl.
Proof. induction 1 as [|s r e sl rl el (_ & Hm & _) _ IH]; [apply List.Forall_nil|by apply Forall_cons]. Qed.
Lemma stamp_recs_batch sl rl el : Forall3 srel sl rl el → rl ≠ [] → batch None false (stamp_recs rl).
Proof.
  induction 1 as [|s r e sl rl el Hs Hl IH]; [done|]. intros _. destruct (srel_readable _ _ _ Hs) as [Hr Hr'].
  destruct Hs as (_ & _ & Ht & Hc & _). destruct rl as [|r' rl].
  - simpl. constructor; [done| |]; unfold txn, commit in *; simpl; rewrite has_flag_lor; [by rewrite Ht|apply orb_true_r].
  - change (stamp_recs (r :: r' :: rl)) with (r :: stamp_recs (r' :: rl)). constructor; [done|done|done|]. by apply IH.
Qed.

(** The commit mark changes nothing else that is read back. *)
Lemma commit_flag_rest f :
  has_flag (Z.lor f FLAG_TXN_COMMIT) FLAG_TOMBSTONE = has_flag f FLAG_TOMBSTONE ∧
  has_flag (Z.lor f FLAG_TXN_COMMIT) FLAG_COMP_MASK = has_flag f FLAG_COMP_MASK ∧
  DocEnc_from_flags (Z.lor f FLAG_TXN_COMMIT) = DocEnc_from_flags f ∧
  Z.land (Z.lor f FLAG_TXN_COMMIT) FLAG_COMP_MASK = Z.land f FLAG_COMP_MASK.
Proof.
  unfold DocEnc_from_flags. rewrite !has_flag_lor. rewrite !(orb_false_r (has_flag f _)) by done.
  repeat split; try (simpl; by rewrite !orb_false_r).
  rewrite Z.land_lor_distr_l. change (Z.land FLAG_TXN_COMMIT FLAG_COMP_MASK) with 0. apply Z.lor_0_r.
Qed.
Lemma movable_stamped r : movable r → movable (stamp_rec r).
Proof.
  intros [M1 M2 M3]. destruct (commit_flag_rest (f_flags (r_frame r))) as (_ & _ & _ & F4).
  split; cbn [stamp_rec r_frame r_stored stamped f_flags f_exp]; [done|by rewrite F4|done].
Qed.
Lemma stamp_recs_movable l : Forall movable l → Forall movable (stamp_recs l).
Proof.
  induction 1 as [|r l Hr Hl IH]; [apply List.Forall_nil|]. destruct l; [by apply Forall_singleton, movable_stamped|by apply Forall_cons].
Qed.
Lemma built_stamped r key v exp e raw :
  (∃ w, r = write_rec None w ∧ writable None w) → built None false r key v exp true false e raw →
  built None false (stamp_rec r) key v exp true true (mark_commit e) raw.
Proof.
  intros (w & Er & Hw) [B1 B2 B3 B4 B5 B6 B7 B8 B9 B10 B11 B12 B13].
  destruct (commit_flag_rest (f_flags (r_frame r))) as (F1 & F2 & F3 & F4).
  destruct (commit_flag_rest (e_flags e)) as (G1 & G2 & G3 & G4).
  split; cbn [stamp_rec r_frame r_key r_stored stamped f_flags f_ty]; try done.
  - subst r. by apply (stamped_readable None w).
  - by rewrite F1.
  - unfold txn in *. cbn [stamp_rec r_frame stamped f_flags]. rewrite has_flag_lor, B5. done.
  - unfold commit. cbn [stamp_rec r_frame stamped f_flags]. rewrite has_flag_lor. apply orb_true_r.
  - intros off ver. specialize (B7 off ver). unfold at_, scan_entry, set_version, mark_commit in *.
    cbn [offset ek_size ev_size raw_size e_ty e_flags e_timestamp e_expires_at version k_size v_size Format.flags timestamp expires_at frame_header stamped f_klen f_vlen f_flags f_ts f_exp] in *.
    injection B7 as E1 E2 E3 E4 E5 E6 E7. rewrite E1, E2, E4, E5, E6, E7. f_equal. rewrite E3. unfold scan_raw_size.
    cbn [Format.flags frame_header stamped f_flags]. by rewrite F2.
  - cbn [mark_commit e_flags]. by rewrite G4.
  - unfold doc_enc in *. cbn [mark_commit e_flags e_ty]. by rewrite G3.
  - by apply movable_stamped.
Qed.

Lemma stamped_len f : frame_len (stamped f) = frame_len f.
Proof. done. Qed.

(** One staged operation. *)
Lemma apply_one t rs r todo i s eff (last : bool) (created : bool) :
  keys (conf i) = None → srel s r eff →
  inv false t rs ((if last then stamp_rec r else r) :: todo) i →
  let base := FILE_HEADER_LEN + recs_len rs in
  let i1 := next_seq i in
  let i2 := match s with
      | SPut key entry raw doc ty created =>
        let entry := if last then mark_commit entry else entry in
        let entry := at_ base (eseq (txns i1)) entry in
        let i := store key entry (match doc with Some d => as_doc d | None => None end) (decode ty raw (doc_enc entry)) raw i1 in
        emit (OpSet key ty raw (doc_enc entry) (e_timestamp entry) (e_expires_at entry) created) i
      | SDel key => emit (OpDel key) (bury key (idx_remove key i1).2)
      end in
  inv false t (rs ++ [if last then stamp_rec r else r]) todo (dirty i2) ∧ conf (dirty i2) = conf i ∧
  ∀ t' k, look t' (dirty i2) k = view_set eff.1 eff.2 (fun t => look t i) t' k.
Proof.
  intros Hk (Hw & _ & Htx & Hcm & Hs) Hi base i1 i2. destruct s as [key e raw doc ty cr|key].
  - destruct Hs as (v & exp & -> & Hb & Hdoc & ->).
    assert (built (keys (conf i)) false (if last then stamp_rec r else r) key v exp true last (if last then mark_commit e else e) raw) as Hb'.
    { rewrite Hk. destruct last; [by apply built_stamped|done]. }
    destruct (store_built _ _ _ _ _ _ _ _ _ _ _ _ _ Hi Hb') as (Hi3 & Ec3 & Et3 & Hl3).
    unfold i2. rewrite Hdoc.
    set (entry := at_ _ _ _). assert (decode (v_ty v) raw (doc_enc entry) = Ok v) as ->.
    { pose proof (bt_decode _ _ _ _ _ _ _ _ _ _ Hb') as Hd. rewrite (bt_e_ty _ _ _ _ _ _ _ _ _ _ Hb') in Hd. exact Hd. }
    fold i1 in Hi3, Ec3, Et3, Hl3. fold base in Hi3, Ec3, Et3, Hl3. fold entry in Hi3, Ec3, Et3, Hl3.
    set (i3 := store _ _ _ _ _ _) in *.
    match goal with |- inv _ _ _ _ ?x ∧ _ => assert (same_but_counts i3 x) as Hcnt by (split; simpl; done || lia) end.
    split; [by eapply inv_counts|]. split; [done|]. intros t' k. rewrite (look_counts _ _ _ _ Hcnt), Hl3. done.
  - destruct Hs as (-> & Hr & Hkey & Htomb).
    assert (same_but_counts i i1) as Hc1 by (split; simpl; done || lia).
    apply (inv_counts _ _ _ _ _ _ Hc1) in Hi.
    assert (has_flag (f_flags (r_frame (if last then stamp_rec r else r))) FLAG_TOMBSTONE = true) as Htomb'.
    { destruct last; [|done]. cbn [stamp_rec r_frame stamped f_flags]. rewrite has_flag_lor. by rewrite Htomb. }
    assert (r_key (if last then stamp_rec r else r) = key) as Hkey' by (by destruct last).
    destruct (remove_built _ _ _ _ _ _ Hi Htomb') as [Hi3 Hl3]. rewrite Hkey' in Hi3, Hl3.
    destruct (idx_remove_rest key i1) as (_ & _ & Ec3). unfold i2. set (i3 := (idx_remove key i1).2) in *.
    match goal with |- inv _ _ _ _ ?x ∧ _ => assert (same_but_counts i3 x) as Hcnt end.
    { pose proof (bury_counts key i3) as []. split; simpl; done. }
    split; [by eapply inv_counts|]. split; [by rewrite (sc_conf _ _ Hcnt), Ec3|].
    intros t' k. rewrite (look_counts _ _ _ _ Hcnt), Hl3. simpl. unfold view_set. destruct (decide (key = k)); [done|].
    by rewrite (look_counts _ _ _ _ Hc1).
Qed.

Lemma zip_nil_length {A B} (l : list A) (k : list B) : length l = length k → Nat.eqb (length (zip l k)) 0 = Nat.eqb (length l) 0.
Proof. destruct l, k; done. Qed.
Lemma stamp_last_length l : length (stamp_last l) = length l.
Proof. induction l as [|x [|y l] IH]; [done|done|]. simpl in *. by rewrite IH. Qed.

Lemma apply_staged_ok t sl rl el : Forall3 srel sl rl el → ∀ rs i,
  keys (conf i) = None → inv false t rs (stamp_recs rl) i →
  let i' := apply_staged (FILE_HEADER_LEN + recs_len rs) (zip sl (stamp_last (recs_of rl))) i in
  inv false t (rs ++ stamp_recs rl) [] i' ∧ conf i' = conf i ∧
  ∀ t' k, look t' i' k = apply_effects el (fun t => look t i) t' k.
Proof.
  induction 1 as [|s r e sl rl el Hs Hl IH]; intros rs i Hk Hi.
  { simpl in *. by rewrite app_nil_r. }
  destruct (srel_readable _ _ _ Hs) as [Hr Hr'].
  destruct rl as [|r' rl].
  - inversion Hl; subst. simpl in Hi.
    destruct (apply_one t rs r [] i s e true true Hk Hs Hi) as (Hi2 & Ec2 & Hl2). done.
  - change (stamp_recs (r :: r' :: rl)) with (r :: stamp_recs (r' :: rl)) in Hi |- *.
    change (stamp_last (recs_of (r :: r' :: rl))) with (frame_bytes (r_frame r) :: stamp_last (recs_of (r' :: rl))).
    cbn [zip zip_with apply_staged].
    rewrite zip_nil_length.
    2: { rewrite stamp_last_length. unfold recs_of. rewrite List.length_map. by apply Forall3_length_lm in Hl. }
    assert (Nat.eqb (length sl) 0 = false) as E0 by (inversion Hl; subst; done). rewrite E0.
    destruct (apply_one t rs r (stamp_recs (r' :: rl)) i s e false true Hk Hs Hi) as (Hi2 & Ec2 & Hl2).
    set (i2 := dirty _) in Hi2, Ec2, Hl2.
    destruct (IH (rs ++ [r]) i2) as (Hi3 & Ec3 & Hl3); [by rewrite Ec2|exact Hi2|].
    rewrite (frame_bytes_len _ (rd_fits _ _ _ Hr)).
    replace (FILE_HEADER_LEN + recs_len rs + frame_len (r_frame r)) with (FILE_HEADER_LEN + recs_len (rs ++ [r])).
    2: { rewrite recs_len_app, recs_len_cons by apply Hr. replace (recs_len []) with 0 by done. lia. }
    rewrite <- app_assoc in Hi3. split; [exact Hi3|]. split; [by rewrite <- Ec2|].
    intros t' k. etrans; [exact (Hl3 t' k)|]. simpl. apply apply_effects_ext. intros k'. apply Hl2.
Qed.

(** ** Staging *)
Definition op_pre (now : Z) (o : BatchOp) : Prop :=
  match o with Put k v e _ => put_pre k v e (now / 1000) | Del k => key_pre k end.
(** Nothing a client sees changed. *)
Record unseen (now : Z) (i i' : Inner) : Prop := {
  us_conf : conf i' = conf i;
  us_look : ∀ t k, now ≤ t → look t i' k = look t i k;
}.
Lemma unseen_refl now i : unseen now i i.
Proof. by split. Qed.
Lemma unseen_trans now i1 i2 i3 : unseen now i1 i2 → unseen now i2 i3 → unseen now i1 i3.
Proof. intros [E1 L1] [E2 L2]. split; [congruence|]. intros t k Ht. by rewrite L2, L1. Qed.
Lemma unseen_live now k i : unseen now i (live k now i).2.
Proof. split; [apply (live_frame k now i)|]. intros t k' Ht. by apply look_live. Qed.

(** What a shadow says of a view. *)
Definition shadows (now : Z) (shadow : gmap str bool) (i : Inner) (w : View) : Prop :=
  ∀ k t, now ≤ t → match shadow !! k with
                   | None => w t k = look t i k
                   | Some false => w t k = None
                   | Some true => True
                   end.
Lemma shadows_unseen now shadow i i' w : unseen now i i' → shadows now shadow i w → shadows now shadow i' w.
Proof. intros [_ Hl] Hs k t Ht. specialize (Hs k t Ht). destruct (shadow !! k) as [[]|]; [done|done|]. by rewrite Hl. Qed.
Lemma shadows_insert now shadow i w key x :
  shadows now shadow i w → shadows now (<[key := match x with Some _ => true | None => false end]> shadow) i (view_set key x w).
Proof.
  intros Hs k t Ht. destruct (decide (key = k)) as [->|Hne].
  - rewrite lookup_insert_eq. unfold view_set. destruct x; [done|]. by destruct (decide (k = k)).
  - rewrite lookup_insert_ne by done. specialize (Hs k t Ht). unfold view_set. by destruct (decide (key = k)).
Qed.

Lemma exists_now_ok rs now shadow key i w :
  inv false now rs [] i → shadows now shadow i w →
  ∃ b i', exists_now now shadow key i = (Ok b, i') ∧ inv false now rs [] i' ∧ unseen now i i' ∧
    (b = false → ∀ t, now ≤ t → w t key = None).
Proof.
  intros Hi Hs. unfold exists_now. destruct (shadow !! key) as [b|] eqn:E.
  - exists b, i. split; [done|]. split; [done|]. split; [apply unseen_refl|]. intros -> t Ht. specialize (Hs key t Ht). by rewrite E in Hs.
  - unfold mbind, M_bind, liveM, mret, M_ret. pose proof (inv_live _ _ _ _ _ key Hi) as Hi'. pose proof (unseen_live now key i) as Hu.
    pose proof (look_none _ _ _ _ _ key Hi) as Hn. pose proof (inv_live _ _ _ _ _ key Hi) as Hi1.
    destruct (live_cases key now i) as [(e & El & Hk & Hx)|[[El Hk]|(e & El & Hk & Hx)]]; rewrite El in *; simpl in *.
    + exists true, i. done.
    + eexists false, i. split; [done|]. split; [done|]. split; [done|]. intros _ t Ht. specialize (Hs key t Ht). rewrite E in Hs. rewrite Hs.
      unfold look. by rewrite Hk.
    + eexists false, _. split; [done|]. split; [done|]. split; [done|]. intros _ t Ht. specialize (Hs key t Ht). rewrite E in Hs. rewrite Hs.
      unfold look. by rewrite Hk, (is_expired_mono _ _ _ Ht Hx).
Qed.

Lemma stage_ok env rs ops : ∀ n shadow i w,
  keys (conf i) = None → inv false (now_ms env) rs [] i → Forall (op_pre (now_ms env)) ops → in_i64 (now_ms env) →
  shadows (now_ms env) shadow i w →
  match stage env ops n shadow i with
  | (Err _, i') => inv false (now_ms env) rs [] i' ∧ unseen (now_ms env) i i'
  | (Ok staged, i') => inv false (now_ms env) rs [] i' ∧ unseen (now_ms env) i i' ∧
      ∃ rl el, Forall3 srel staged.*1 rl el ∧ staged.*2 = recs_of rl ∧
        ∀ t k, now_ms env ≤ t → apply_effects el w t k = batch_view ops w t k
  end.
Proof.
  induction ops as [|o ops IH]; intros n shadow i w Hk Hi Hpre Hnow Hs.
  { simpl. split; [done|]. split; [apply unseen_refl|]. exists [], []. split; [constructor|done]. }
  apply Forall_cons in Hpre as [Ho Hpre]. destruct o as [key v exp mp|key]; simpl in Ho; cbn [stage].
  - unfold mbind at 1, M_bind at 1, st at 1.
    destruct (build_put i key v exp mp (now_ms env / 1000) FLAG_TXN (nonce env n)) as [[[rec e] raw]|err] eqn:Eb.
    2: { split; [done|apply unseen_refl]. }
    apply (build_put_ok false) in Eb as (r & -> & Hb & _ & _ & Hw); [|by rewrite Hk|by rewrite Hk|done|by right].
    specialize (Hw Hk). rewrite Hk in Hb.
    unfold mbind at 1, M_bind at 1. destruct (exists_now_ok rs _ _ key _ _ Hi Hs) as (b & i1 & -> & Hi1 & Hu1 & _).
    unfold mbind at 1, M_bind at 1.
    specialize (IH (S n) (<[key:=true]> shadow) i1 (view_set key (Some (v, exp)) w)).
    destruct (stage env ops (S n) (<[key:=true]> shadow) i1) as [[staged|err] i2].
    + destruct IH as (Hi2 & Hu2 & rl & el & Hrel & Hrecs & Hv); [by rewrite (us_conf _ _ _ Hu1)|done|done|done| |].
      { apply (shadows_insert _ _ _ _ key (Some (v, exp))). by eapply shadows_unseen. }
      split; [done|]. split; [by eapply unseen_trans|]. exists (r :: rl), ((key, Some (v, exp)) :: el). split; [|split; [|exact Hv]].
      * constructor; [|exact Hrel]. split; [done|]. split; [apply Hb|]. split; [apply (bt_txn _ _ _ _ _ _ _ _ _ _ Hb)|].
        split; [apply (bt_commit _ _ _ _ _ _ _ _ _ _ Hb)|]. exists v, exp. split; [done|]. split; [done|].
        split; [|apply (bt_e_ty _ _ _ _ _ _ _ _ _ _ Hb)].
        destruct (Type_is_doc (v_ty v)) eqn:Et; [done|]. destruct (as_doc v) eqn:Ed; [|done].
        pose proof (doc_type v) as Hd. rewrite Ed, Et in Hd. by discriminate Hd.
      * change (frame_bytes (r_frame r) :: staged.*2 = recs_of (r :: rl)). by rewrite Hrecs.
    + destruct IH as (Hi2 & Hu2); [by rewrite (us_conf _ _ _ Hu1)|done|done|done| |].
      { apply (shadows_insert _ _ _ _ key (Some (v, exp))). by eapply shadows_unseen. }
      split; [done|]. by eapply unseen_trans.
  - unfold mbind at 1, M_bind at 1. destruct (exists_now_ok rs _ _ key _ _ Hi Hs) as (b & i1 & -> & Hi1 & Hu1 & Hb).
    destruct b; cbn [negb].
    + unfold mbind at 1, M_bind at 1, st at 1.
      destruct (encode key [] 0 (Z.lor FLAG_TOMBSTONE FLAG_TXN) (now_ms env) 0 (nonce env n) i1) as [rec|err] eqn:Ee; [|done].
      assert (keys (conf i1) = None) as Hk1 by (by rewrite (us_conf _ _ _ Hu1)).
      apply (tomb_built false) in Ee as (r & -> & Hr & Hkey & Htomb & Htx & Hcm & Hw & Hmv); [|by rewrite Hk1|by rewrite Hk1|done|done|by right].
      rewrite Hk1 in Hr. specialize (Hw Hk1). unfold mbind at 1, M_bind at 1.
      specialize (IH (S n) (<[key:=false]> shadow) i1 (view_set key None w)).
      destruct (stage env ops (S n) (<[key:=false]> shadow) i1) as [[staged|err] i2].
      * destruct IH as (Hi2 & Hu2 & rl & el & Hrel & Hrecs & Hv); [done|done|done|done| |].
        { apply (shadows_insert _ _ _ _ key None). by eapply shadows_unseen. }
        split; [done|]. split; [by eapply unseen_trans|]. exists (r :: rl), ((key, None) :: el). split; [|split; [|exact Hv]].
        -- constructor; [|exact Hrel]. split; [done|]. split; [done|]. split; [done|]. done.
        -- change (frame_bytes (r_frame r) :: staged.*2 = recs_of (r :: rl)). by rewrite Hrecs.
      * destruct IH as (Hi2 & Hu2); [done|done|done|done| |].
        { apply (shadows_insert _ _ _ _ key None). by eapply shadows_unseen. }
        split; [done|]. by eapply unseen_trans.
    + specialize (IH n shadow i1 w). destruct (stage env ops n shadow i1) as [[staged|err] i2].
      * destruct IH as (Hi2 & Hu2 & rl & el & Hrel & Hrecs & Hv); [by rewrite (us_conf _ _ _ Hu1)|done|done|done|by eapply shadows_unseen|].
        split; [done|]. split; [by eapply unseen_trans|]. exists rl, el. split; [done|]. split; [done|].
        intros t k Ht. rewrite Hv by done. unfold batch_view. simpl. apply apply_effects_ext. intros k'.
        unfold view_set. destruct (decide (key = k')) as [<-|]; [|done]. by apply Hb.
      * destruct IH as (Hi2 & Hu2); [by rewrite (us_conf _ _ _ Hu1)|done|done|done|by eapply shadows_unseen|].
        split; [done|]. by eapply unseen_trans.
Qed.

Lemma changed_ok rs now ws i :
  inv false now rs [] i → inv false now rs [] (changed now ws i).2 ∧ unseen now i (changed now ws i).2.
Proof.
  revert i. induction ws as [|w ws IH]; intros i Hi; simpl; [split; [done|apply unseen_refl]|].
  destruct (_ || _); [split; [done|apply unseen_refl]|]. destruct (existed w); [|by apply IH].
  pose proof (inv_live _ _ _ _ _ (wk_key w) Hi) as Hi'. pose proof (unseen_live now (wk_key w) i) as Hu.
  destruct (live (wk_key w) now i) as [[e|] i1]; simpl in *; [|done].
  destruct (IH i1 Hi') as [Hi2 Hu2]. split; [done|]. by eapply unseen_trans.
Qed.

Lemma apply_batch_ok rs t env ops begin_seq ws i :
  keys (conf i) = None → inv false t rs [] i → t ≤ now_ms env → Forall (op_pre (now_ms env)) ops → in_i64 (now_ms env) →
  ∃ c, committed_by None false c ∧
  let '(res, i') := apply_batch_watched env ops begin_seq ws i in
  inv false (now_ms env) (rs ++ c) [] i' ∧ conf i' = conf i ∧
  match res with
  | Ok tt => ∀ t' k, now_ms env ≤ t' → look t' i' k = batch_view ops (fun t => look t i) t' k
  | Err _ => c = [] ∧ ∀ t' k, now_ms env ≤ t' → look t' i' k = look t' i k
  end.
Proof.
  intros Hk Hi Ht Hpre Hnow. apply (inv_mono _ _ (now_ms env)) in Hi; [|done].
  assert (∀ i', inv false (now_ms env) rs [] i' → unseen (now_ms env) i i' → ∀ err : KivaError,
    ∃ c, committed_by None false c ∧ inv false (now_ms env) (rs ++ c) [] i' ∧ conf i' = conf i ∧
      (c = [] ∧ ∀ t' k, now_ms env ≤ t' → look t' i' k = look t' i k)) as Herr.
  { intros i' Hi' [Hc Hl] _. exists []. rewrite app_nil_r. split; [apply committed_nil|]. done. }
  unfold apply_batch_watched, mbind at 1, M_bind at 1, st at 1.
  destruct (changed_ok rs (now_ms env) ws i Hi) as [Hi1 Hu1].
  destruct (changed (now_ms env) ws i) as [ch i1]. simpl in Hi1, Hu1.
  destruct ch as [key|]; [by apply (Herr i1 Hi1 Hu1 (Conflict ""))|].
  unfold mbind at 1, M_bind at 1, st at 1.
  match goal with |- context [match ?m with Ok a => _ | Err e => _ end] => destruct m as [[]|err] end; [|by apply Herr].
  unfold mbind at 1, M_bind at 1, st at 1.
  match goal with |- context [match ?m with Ok a => _ | Err e => _ end] => destruct m as [[]|err] end; [|by apply Herr].
  unfold mbind at 1, M_bind at 1.
  assert (keys (conf i1) = None) as Hk1 by (by rewrite (us_conf _ _ _ Hu1)).
  pose proof (stage_ok env rs ops 0 ∅ i1 (fun t => look t i1) Hk1 Hi1 Hpre Hnow) as Hst.
  destruct (stage env ops 0 ∅ i1) as [[staged|err] i2].
  2: { destruct Hst as [Hi2 Hu2]; [intros k t' _; by rewrite lookup_empty|]. apply (Herr i2 Hi2); [by eapply unseen_trans|done]. }
  destruct Hst as (Hi2 & Hu2 & rl & el & Hrel & Hrecs & Hv); [intros k t' _; by rewrite lookup_empty|].
  assert (unseen (now_ms env) i i2) as Hu by by eapply unseen_trans.
  assert (∀ t' k, now_ms env ≤ t' → apply_effects el (fun t => look t i2) t' k = batch_view ops (fun t => look t i) t' k) as Heff.
  { intros t' k Ht'. etrans; [|etrans; [exact (Hv t' k Ht')|]].
    - apply apply_effects_ext. intros k'. by rewrite (us_look _ _ _ Hu2).
    - unfold batch_view. apply apply_effects_ext. intros k'. by rewrite (us_look _ _ _ Hu1). }
  assert (staged = [] ∨ rl ≠ []) as [->|Hne].
  { destruct staged; [by left|right]. inversion Hrel; subst; done. }
  { inversion Hrel; subst. exists []. rewrite app_nil_r. split; [apply committed_nil|]. simpl. split; [done|]. split; [apply Hu|].
    intros t' k Ht'. rewrite <- Heff by done. done. }
  assert (∀ A (x y : A), match staged with [] => x | _ => y end = y) as Hcons.
  { intros A x y. destruct staged; [|done]. inversion Hrel; subst. done. }
  rewrite Hcons. unfold mbind at 1, M_bind at 1, modify. rewrite Hrecs, stamp_recs_bytes.
  assert (keys (conf i2) = None) as Hk2 by (by rewrite (us_conf _ _ _ Hu)).
  pose proof (stamp_recs_batch _ _ _ Hrel Hne) as Hbatch.
  assert (Forall (readable (keys (conf i2)) false) (stamp_recs rl)) as Hrc by (rewrite Hk2; by apply batch_readable).
  pose proof (append_ok env (stamp_recs rl) i2 false (now_ms env) rs Hi2 Hrc) as Happ.
  destruct (append env (recs_bytes (stamp_recs rl)) i2) as [[off|err] i3].
  - destruct Happ as (-> & Hi3 & Hsd). assert (keys (conf i3) = None) as Hk3 by (by rewrite (sd_conf _ _ Hsd)).
    destruct (apply_staged_ok _ _ _ _ Hrel rs i3 Hk3 Hi3) as (Hi4 & Ec4 & Hl4).
    exists (stamp_recs rl). split; [split; [right; by right|by apply stamp_recs_movable, (srel_movable _ _ _ Hrel)]|]. split; [exact Hi4|]. split.
    { by rewrite Ec4, (sd_conf _ _ Hsd), (us_conf _ _ _ Hu). }
    intros t' k Ht'. rewrite <- Heff by done. etrans; [exact (Hl4 t' k)|]. apply apply_effects_ext. intros k'.
    by apply look_same.
  - destruct Happ as (Hi3 & Hsd). exists []. rewrite app_nil_r. split; [apply committed_nil|]. split; [done|]. split.
    { by rewrite (sd_conf _ _ Hsd), (us_conf _ _ _ Hu). }
    split; [done|]. intros t' k Ht'. rewrite (look_same _ _ _ _ Hsd). by apply Hu.
Qed.
End engine_batch.
