(* ===== verification/Recovery.v ===== *)
(** * Opening a workspace, and what survives a crash

    [open_] is [Engine::open] up to the sidecar files of indexes, schemas and
    journal: the bytes of the data file and of the hint come in, the engine's
    state comes out. The lock file and the copy kept before a large cut are
    left out. *)
From S2P Require Import Prelude Utf8 Util Maps Types Compress Format Crypt Log Hint Cache SecIndex Engine EngineMem EngineOk EngineThm EngineBatch.
Open Scope Z_scope.

Section open.
  Context `{Aead} `{Crc} `{Codecs} `{Leaves} `{!Values}.

(** The options of [EngineOptions] the code below reads. *)
Record EngineOptions := { o_compression : Compression; o_cache_bytes : Z; o_keys : option Keys; o_require : bool }.

Definition hint_trusted (o : EngineOptions) (hd : HintData) : bool :=
  negb (o_require o) || (h_encrypted hd && forallb (fun ke => has_flag (e_flags ke.2) FLAG_ENCRYPTED) (h_entries hd)).
Definition load_hint (st : Index * Z) (l : list (str * Entry)) : Index * Z :=
  List.fold_left (fun st ke => (<[ke.1 := set_version (st.2 + 1) ke.2]> st.1, st.2 + 1)) l st.
(** Where the scan starts, and with what. *)
Definition scan_from (o : EngineOptions) (f : bytes) (file_id : Z) (hint : option bytes) : option (Index * Z * Z) :=
  match hint with
  | None => Some (∅, 0, FILE_HEADER_LEN)
  | Some data =>
    match read_hint data (o_keys o) with
    | None => None
    | Some (Err _) => Some (∅, 0, FILE_HEADER_LEN)
    | Some (Ok hd) =>
      if hint_trusted o hd && (h_file_id hd =? file_id) && (h_data_len hd <=? len f) && (FILE_HEADER_LEN <=? h_data_len hd)
      then Some (load_hint (∅, 0) (h_entries hd), h_data_len hd) else Some (∅, 0, FILE_HEADER_LEN)
    end
  end.
(** A missing or wrong key shows now: the first encrypted record is read. *)
Definition first_encrypted (index : Index) : option (str * Entry) :=
  List.find (fun ke => has_flag (e_flags ke.2) FLAG_ENCRYPTED) (entries index).
Definition check_key (o : EngineOptions) (f : bytes) (index : Index) : result KivaError unit :=
  match first_encrypted index with
  | None => Ok tt
  | Some (k, e) =>
    if len f <? offset e + Log.rec_len e then Err (Io "failed to fill whole buffer")
    else
      match open_record (o_keys o) (slice (offset e) (offset e + Log.rec_len e) f) with
      | Ok _ | Err Tampered => Ok tt
      | Err err => Err (into_error err)
      end
  end.
Definition start (o : EngineOptions) (f : bytes) (file_id format : Z) (index : Index) (seq corrupted : Z) : Inner :=
  recount {|
    disk := {| file := f; file_id := file_id; format := format; unsynced := false; closed := false; corrupted_detected := corrupted |};
    mem := {| index := index; live_bytes := 0; expiry := ∅; key_bytes := 0; sec := []; cache := Cache.new (o_cache_bytes o) |};
    txns := {| eseq := seq; active_txns := 0; tomb_versions := ∅; reset_seq := 0; dirty_ops := 0 |};
    conf := {| conf_comp := o_compression o; keys := o_keys o |};
    emitted := []; expired := [] |}.
Definition retain_live (now : Z) (index : Index) : Index := filter (fun ke => is_expired ke.2 now = false) index.

(** [new_id] is the random id a new file is given. [None]: out of fuel. *)
Definition open_ (o : EngineOptions) (now : Z) (new_id : option Z) (f : bytes) (hint : option bytes) : option (result KivaError Inner) :=
  if len f =? 0 then
    match new_id with
    | None => Some (Err NONCE_ERR)
    | Some id => Some (Ok (start o (file_header id FORMAT_V1) id FORMAT_V1 ∅ 0 0))
    end
  else if len f <? FILE_HEADER_LEN then Some (Err (Format "file header is truncated"))
  else
    match parse_file_header (take (Z.to_nat FILE_HEADER_LEN) f) with
    | Err m => Some (Err (Format m))
    | Ok (file_id, format) =>
      match scan_from o f file_id hint with
      | None => None
      | Some (index, seq, from) =>
        match scan_log (o_keys o) (o_require o) (drop (Z.to_nat from) f) from index seq with
        | None => None
        | Some (Err e) => Some (Err e)
        | Some (Ok out) =>
          let f := if so_end out <? len f then take (Z.to_nat (so_end out)) f else f in
          let index := retain_live now (so_index out) in
          match check_key o f index with
          | Err e => Some (Err e)
          | Ok _ => Some (Ok (start o f file_id format index (so_seq out) (so_corrupted out)))
          end
        end
      end
    end.
End open.

Section recovery.
  Context `{Aead} `{Crc} `{Codecs} `{Leaves} `{!Values}.
  Context `{!AeadLaws} `{!CodecsLaws} `{!ValuesLaws}.

(** ** Replaying changes *)
Lemma agrees_changes t cs : ∀ a b s s', agrees t a b → agrees t (apply_changes (a, s) cs).1 (apply_changes (b, s') cs).1.
Proof.
  unfold apply_changes. induction cs as [|[k [e|]] cs IH]; intros a b s s' Ha; simpl; [done|apply IH; by apply agrees_insert|].
  apply IH. by apply agrees_delete.
Qed.
Definition versions_le (st : Index * Z) : Prop := ∀ k e, st.1 !! k = Some e → version e ≤ st.2.
Lemma versions_changes cs : ∀ st, versions_le st → versions_le (apply_changes st cs).
Proof.
  unfold apply_changes. induction cs as [|[k [e|]] cs IH]; intros [a s] Ha; simpl; [done|apply IH..].
  - intros k' e'. simpl. rewrite lookup_insert_Some. intros [[_ <-]|[_ E]]; [simpl; lia|]. specialize (Ha k' e' E). simpl in Ha. lia.
  - intros k' e'. simpl. rewrite lookup_delete_Some. intros [_ E]. specialize (Ha k' e' E). simpl in Ha. lia.
Qed.
Lemma committed_take n cs : 0 ≤ n → ∃ rest, take (Z.to_nat n) (recs_bytes (List.concat cs)) = recs_bytes (committed n cs) ++ rest.
Proof.
  revert n. induction cs as [|c cs IH]; intros n Hn; simpl; [exists []; change (recs_bytes []) with (@nil Z); by rewrite take_nil|].
  rewrite recs_bytes_app. destruct (Z.leb_spec (recs_len c) n) as [Hc|Hc]; [|by eexists].
  unfold recs_len, len in Hc. rewrite take_app_ge by lia. destruct (IH (n - recs_len c)) as [rest E]; [unfold recs_len, len; lia|].
  exists rest. rewrite recs_bytes_app, <- app_assoc, <- E. do 2 f_equal. unfold recs_len, len. lia.
Qed.

(** ** Opening a file *)
Lemma value_in_parts ks f e v : value_in ks f e = Some v →
  len f <? offset e + Log.rec_len e = false ∧ ∃ kv, open_record ks (slice (offset e) (offset e + Log.rec_len e) f) = Ok kv.
Proof.
  unfold value_in. destruct (_ <? _); [done|]. destruct (negb _); [done|]. destruct (open_record _ _) as [kv|]; [|done]. eauto.
Qed.
Lemma check_key_ok o f index :
  (∀ k e, index !! k = Some e → is_Some (value_in (o_keys o) f e)) → check_key o f index = Ok tt.
Proof.
  intros Hv. unfold check_key, first_encrypted. destruct (List.find _ _) as [[k e]|] eqn:E; [|done].
  apply List.find_some in E as [Hin _]. apply list_elem_of_In, elem_of_entries in Hin.
  destruct (Hv k e Hin) as [v Hval]. apply value_in_parts in Hval as [-> [kv ->]]. done.
Qed.

(** The entries a replay keeps, as the engine that wrote the log had them. *)
Lemma replay_entry req t rs i scanned t' k e :
  inv req t rs [] i → t ≤ t' → agrees t scanned (apply_changes (∅, 0) (rec_changes FILE_HEADER_LEN rs)).1 →
  scanned !! k = Some e → is_expired e t' = false →
  ∃ e0, index (mem i) !! k = Some e0 ∧ set_version 0 e = set_version 0 e0.
Proof.
  intros Hi Ht Ha Hk Hx. pose proof (iv_agree _ _ _ _ _ Hi k) as Hik. specialize (Ha k). rewrite Hk in Ha.
  destruct (_ !! k) as [e1|] eqn:E1 in Ha; [|done]. rewrite E1 in Hik.
  destruct (index (mem i) !! k) as [e0|]; [exists e0; split; [done|]; congruence|].
  apply (is_expired_mono _ t t') in Hik; [|done]. unfold is_expired in *.
  rewrite <- (set_version_expires _ _ Ha) in Hik. congruence.
Qed.

Lemma reopen o req t rs0 n cs i0 fid fmt idx0 seq0 hint now new_id :
  inv req t (rs0 ++ committed n cs) [] i0 → keys (conf i0) = o_keys o → req = o_require o → 0 ≤ o_cache_bytes o →
  Forall (wf_commit (o_keys o) req) cs → 0 ≤ n → in_u 64 fid → 1 ≤ fmt ≤ 3 → t ≤ now →
  let f := file_header fid fmt ++ recs_bytes rs0 ++ take (Z.to_nat n) (recs_bytes (List.concat cs)) in
  scan_from o f fid hint = Some (idx0, seq0, FILE_HEADER_LEN + recs_len rs0) →
  agrees t idx0 (apply_changes (∅, 0) (rec_changes FILE_HEADER_LEN rs0)).1 → versions_le (idx0, seq0) →
  ∃ i', open_ o now new_id f hint = Some (Ok i') ∧ inv req now (rs0 ++ committed n cs) [] i' ∧
    conf i' = {| conf_comp := o_compression o; keys := o_keys o |}.
Proof.
  intros Hi Hks Hreq Hcb Hcs Hn Hid Hfmt Ht f Hsf Ha Hver.
  pose proof (file_header_len fid fmt) as Lh. pose proof (recs_len_nonneg rs0) as Lr.
  destruct (committed_take n cs Hn) as [cut Ecut]. set (rs := committed n cs) in *.
  assert (FILE_HEADER_LEN ≤ len f) as Lf by (subst f; rewrite len_app, Lh; pose proof (len_nonneg (recs_bytes rs0 ++ take (Z.to_nat n) (recs_bytes (List.concat cs)))); lia).
  unfold open_. replace (len f =? 0) with false by (symmetry; apply Z.eqb_neq; unfold FILE_HEADER_LEN in Lf; lia).
  rewrite ltb_f by done.
  assert (take (Z.to_nat FILE_HEADER_LEN) f = file_header fid fmt) as -> by (apply take_app_len; unfold len in Lh; lia).
  pose proof (parse_of_file_header fid fmt [] Hid) as Hp. rewrite app_nil_r in Hp.
  rewrite Hp by (unfold in_u; lia). rewrite !leb_t by (unfold FORMAT_V1, FORMAT_VERSION; lia). cbn [andb].
  rewrite Hsf. assert (drop (Z.to_nat (FILE_HEADER_LEN + recs_len rs0)) f = take (Z.to_nat n) (recs_bytes (List.concat cs))) as ->.
  { subst f. rewrite app_assoc. apply drop_app_len. rewrite length_app. unfold recs_len, len in *. lia. }
  rewrite <- Hreq, scan_log_commits by done. fold rs. unfold replayed. cbn [so_end so_index so_seq so_corrupted].
  set (F := if _ <? len f then _ else f).
  assert (F = file_header fid fmt ++ recs_bytes (rs0 ++ rs)) as EF.
  { assert (take (Z.to_nat (FILE_HEADER_LEN + recs_len rs0 + recs_len rs)) f = file_header fid fmt ++ recs_bytes (rs0 ++ rs)) as ET.
    { subst f. rewrite Ecut, recs_bytes_app, !app_assoc. apply take_app_len.
      rewrite !length_app. unfold recs_len, len in *. lia. }
    subst F. destruct (Z.ltb_spec (FILE_HEADER_LEN + recs_len rs0 + recs_len rs) (len f)); [done|].
    rewrite <- ET. symmetry. apply take_ge. unfold len in *. lia. }
  set (idx := (apply_changes (idx0, seq0) (rec_changes (FILE_HEADER_LEN + recs_len rs0) rs)).1).
  set (seq := (apply_changes (idx0, seq0) (rec_changes (FILE_HEADER_LEN + recs_len rs0) rs)).2).
  pose proof (iv_read _ _ _ _ _ Hi) as Hread. rewrite app_nil_r in Hread.
  pose proof (proj1 (Forall_app _ _ _) Hread) as [Hread0 _].
  assert (agrees t idx (apply_changes (∅, 0) (rec_changes FILE_HEADER_LEN (rs0 ++ rs))).1) as Hag.
  { rewrite (rec_changes_app (keys (conf i0)) req) by done. rewrite apply_changes_app.
    subst idx. destruct (apply_changes (∅, 0) (rec_changes FILE_HEADER_LEN rs0)) as [a s]. by apply agrees_changes. }
  assert (∀ k e, retain_live now idx !! k = Some e → FILE_HEADER_LEN ≤ offset e ∧ version e ≤ seq ∧
    is_Some (value_in (o_keys o) F e) ∧ 0 ≤ raw_size e) as Hent.
  { intros k e. unfold retain_live. rewrite map_lookup_filter_Some. intros [Hk Hx]. cbn [snd] in Hx.
    destruct (replay_entry _ _ _ _ _ now _ _ Hi Ht Hag Hk Hx) as (e0 & Hk0 & Ee).
    destruct (iv_vals _ _ _ _ _ Hi k e0 Hk0) as (Ho & _ & Hv). pose proof (iv_raw _ _ _ _ _ Hi k e0 Hk0) as Hr0.
    assert (offset e = offset e0 ∧ raw_size e = raw_size e0) as [Eo Er] by (by injection Ee).
    rewrite Eo, Er. split; [done|]. split; [exact (versions_changes _ _ Hver k e Hk)|]. split; [|done].
    rewrite <- (value_in_version _ _ _ 0), Ee, value_in_version. rewrite EF, <- Hks.
    rewrite (value_in_header _ _ (file_header (file_id (disk i0)) (format (disk i0)))) by (rewrite !file_header_len; done).
    pose proof (iv_file _ _ _ _ _ Hi) as Hf0. rewrite app_nil_r in Hf0. by rewrite <- Hf0. }
  rewrite check_key_ok by (intros k e Hk; apply (Hent k e Hk)).
  eexists. split; [reflexivity|]. split; [|done].
  split; try done; [unfold start|simpl..].
  - apply recount_ok; simpl; [apply List.Forall_nil|by apply cache_new_ok].
  - by rewrite app_nil_r.
  - rewrite app_nil_r. by rewrite <- Hks.
  - revert Hag. generalize (apply_changes (∅, 0) (rec_changes FILE_HEADER_LEN (rs0 ++ rs))).1. intros scn Hag k.
    specialize (Hag k). destruct (retain_live now idx !! k) as [e|] eqn:E; unfold retain_live in E.
    + apply map_lookup_filter_Some in E as [E _]. by rewrite E in Hag.
    + rewrite map_lookup_filter_None in E. destruct (scn !! k) as [e'|]; [|done].
      destruct (idx !! k) as [e|]; [|by eapply is_expired_mono].
      destruct E as [E|E]; [done|]. specialize (E e eq_refl). cbn [snd] in E. apply not_false_iff_true in E.
      unfold is_expired in *. by rewrite <- (set_version_expires _ _ Hag).
  - intros k e Hk. by destruct (Hent k e Hk) as (? & ? & ? & _).
  - intros k e Hk. by destruct (Hent k e Hk) as (_ & _ & _ & ?).
Qed.
End recovery.
