(* ===== verification/History.v ===== *)
(** * Histories of a workspace

    What clients do to a workspace is a list of operations with their clock
    and the outcome of their writes. The engine is compared with the view its
    operations mean ([run_view]): a map of values with deadlines. *)
From S2P Require Import Prelude Utf8 Util Maps Types Compress Format Crypt Log Hint Cache SecIndex Engine EngineMem EngineOk EngineThm EngineBatch Recovery.
Open Scope Z_scope.

Section history.
  Context `{Aead} `{Crc} `{Codecs} `{Leaves} `{!Values}.

Inductive EOp :=
| EPut (key : str) (value : Val) (expires_at : Z) (msgpack : bool) (timestamp : Z) (check : bool)
| EDelete (key : str)
| EGet (key : str)
| EBatch (ops : list BatchOp) (begin_seq : option Z) (watched : list WatchedKey)
| EWatch (ks : list str)
| ETxnBegin
| ETxnEnd
| EPurge.

(** Whether it succeeded, and the state after it. *)
Definition step (env : Env) (o : EOp) (i : Inner) : bool * Inner :=
  match o with
  | EPut key v exp mp ts check => let '(r, i) := put_at env key v exp mp ts check i in (is_ok r, i)
  | EDelete key => let '(r, i) := delete_ env key i in (is_ok r, i)
  | EGet key => let '(r, i) := get_ env key i in (is_ok r, i)
  | EBatch ops begin_seq watched => let '(r, i) := apply_batch_watched env ops begin_seq watched i in (is_ok r, i)
  | EWatch ks => (true, (watch (now_ms env) ks i).2)
  | ETxnBegin => (true, (txn_begin i).2)
  | ETxnEnd => (true, txn_end i)
  | EPurge => (true, (purge_expired (now_ms env) i).2)
  end.
(** What it means, when it succeeded. *)
Definition eop_view (o : EOp) (w : View) : View :=
  match o with
  | EPut key v exp _ _ _ => view_set key (Some (v, exp)) w
  | EDelete key => view_set key None w
  | EBatch ops _ _ => batch_view ops w
  | _ => w
  end.
Fixpoint run (h : list (Env * EOp)) (i : Inner) : Inner :=
  match h with [] => i | (env, o) :: h => run h (step env o i).2 end.
Fixpoint run_view (h : list (Env * EOp)) (i : Inner) (w : View) : View :=
  match h with
  | [] => w
  | (env, o) :: h => let '(ok, i') := step env o i in run_view h i' (if ok then eop_view o w else w)
  end.

Fixpoint last_clock (t : Z) (h : list (Env * EOp)) : Z :=
  match h with [] => t | (env, _) :: h => last_clock (now_ms env) h end.
(** A clock that does not go back. *)
Fixpoint clocks (t : Z) (h : list (Env * EOp)) : Prop :=
  match h with [] => True | (env, _) :: h => t ≤ now_ms env ∧ clocks (now_ms env) h end.

Context `{!AeadLaws} `{!CodecsLaws} `{!ValuesLaws}.

(** What clients may ask. Batches of an encrypted workspace are left out: see
    [sealed_batch_lost]. *)
Definition eop_pre (ks : option Keys) (eo : Env * EOp) : Prop :=
  let '(env, o) := eo in
  match o with
  | EPut key v exp _ ts _ => nonce_pre ks (nonce env 0) ∧ put_pre key v exp ts
  | EDelete key => nonce_pre ks (nonce env 0) ∧ key_pre key ∧ in_i64 (now_secs env)
  | EBatch ops _ _ => ks = None ∧ Forall (op_pre (now_ms env)) ops ∧ in_i64 (now_ms env)
  | _ => True
  end.

Lemma look_purge t t' i k : mem_ok (mem i) → t ≤ t' → look t' (purge_expired t i).2 k = look t' i k.
Proof.
  intros Hm Ht. unfold purge_expired. cbn [snd].
  assert (∀ l i, (∀ k e, k ∈ l → index (mem i) !! k = Some e → is_expired e t = true) →
    look t' (List.fold_left (fun i k => tell_expired k (idx_remove k i).2) l i) k = look t' i k) as Hfold.
  { clear i Hm. induction l as [|k0 l IH]; intros i Hl; [done|]. simpl. rewrite IH.
    - destruct (index (mem i) !! k0) as [e|] eqn:E.
      + eapply look_expire; [exact Ht|exact E|]. eapply Hl; [left|done].
      + rewrite look_remove. destruct (decide (k0 = k)) as [->|]; [|done]. unfold look. by rewrite E.
    - intros k1 e Hin Hk. cbn [tell_expired mem] in Hk. rewrite idx_remove_index in Hk.
      apply lookup_delete_Some in Hk as [_ Hk]. eapply Hl; [right; exact Hin|done]. }
  apply Hfold. intros k0 e Hin Hk. destruct (due_spec t i k0 Hm Hin) as (e' & Hk' & Hx). congruence.
Qed.
Lemma watch_all_ok req t rs since ks : ∀ i, inv req t rs [] i →
  inv req t rs [] (watch_all t since ks i).2 ∧ conf (watch_all t since ks i).2 = conf i ∧
  ∀ t' k, t ≤ t' → look t' (watch_all t since ks i).2 k = look t' i k.
Proof.
  induction ks as [|k ks IH]; intros i Hi; [done|]. cbn [watch_all].
  pose proof (inv_live _ _ _ _ _ k Hi) as Hl. destruct (live_frame k t i) as (Ec & _). pose proof (look_live t) as Hlook.
  destruct (live k t i) as [e i1] eqn:E. cbn [snd] in *. destruct (IH i1 Hl) as (Hi2 & Ec2 & Hl2).
  destruct (watch_all t since ks i1) as [l i2]. cbn [snd] in *. split; [done|]. split; [congruence|].
  intros t' k' Ht. rewrite Hl2 by done. specialize (Hlook t' k i k' Ht). by rewrite E in Hlook.
Qed.

Lemma step_ok req t rs env o i :
  inv req t rs [] i → t ≤ now_ms env → keys_read (keys (conf i)) req (keys (conf i)) → eop_pre (keys (conf i)) (env, o) →
  ∃ c, committed_by (keys (conf i)) req c ∧
  let '(ok, i') := step env o i in
  inv req (now_ms env) (rs ++ c) [] i' ∧ conf i' = conf i ∧
  ∀ t' k, now_ms env ≤ t' → look t' i' k = (if ok then eop_view o (fun t => look t i) else fun t => look t i) t' k.
Proof.
  intros Hi Ht Hks Hpre. pose proof (inv_mono _ _ _ _ _ _ Ht Hi) as Hi'.
  assert (∀ i', same_but_counts i i' → ∃ c, committed_by (keys (conf i)) req c ∧ inv req (now_ms env) (rs ++ c) [] i' ∧ conf i' = conf i ∧
    ∀ t' k, now_ms env ≤ t' → look t' i' k = look t' i k) as Hcount.
  { intros i' Hc. exists []. rewrite app_nil_r. split; [apply committed_nil|]. split; [by eapply inv_counts|]. split; [apply Hc|].
    intros. by apply look_counts. }
  destruct o as [key v exp mp ts check|key|key|ops bs ws|ks| | |]; cbn [step eop_pre eop_view] in *.
  - destruct Hpre as [Hn Hp]. destruct (put_at_ok req t rs env i key v exp mp ts check Hi Ht Hks Hn Hp) as (c & Hc & Hput).
    exists c. split; [done|]. destruct (put_at _ _ _ _ _ _ _ _) as [[cr|err] i']; destruct Hput as (? & ? & Hres); (split; [done|split; [done|]]);
      destruct Hres as [_ Hl]; intros t' k Ht'; rewrite Hl by done; done.
  - destruct Hpre as (Hn & Hp & Hs). destruct (delete_ok_ req t rs env i key Hi Ht Hks Hn Hp Hs) as (c & Hc & Hd).
    exists c. split; [done|]. destruct (delete_ _ _ _) as [[cr|err] i']; destruct Hd as (? & ? & Hres); (split; [done|split; [done|]]);
      destruct Hres as [_ Hl]; intros t' k Ht'; rewrite Hl by done; done.
  - exists []. split; [apply committed_nil|]. rewrite app_nil_r. pose proof (get_ok_ req t rs env i key Hi Ht) as Hg.
    destruct (get_ env key i) as [r i']; destruct Hg as (? & ? & Hl & _). split; [done|]. split; [done|]. intros. rewrite Hl by done. by destruct (is_ok r).
  - destruct Hpre as (Hk & Hops & Hi64). rewrite Hk in Hks. assert (req = false) as -> by apply Hks.
    destruct (apply_batch_ok rs t env ops bs ws i Hk Hi Ht Hops Hi64) as (c & Hc & Hb). exists c. rewrite Hk. split; [done|].
    destruct (apply_batch_watched _ _ _ _ _) as [[[]|err] i']; destruct Hb as (? & ? & Hres); (split; [done|split; [done|]]); [done|].
    by destruct Hres.
  - exists []. split; [apply committed_nil|]. rewrite app_nil_r. unfold watch. cbn [snd].
    set (i1 := set_active _ i). assert (same_but_counts i i1) as Hc by (by split; try done; simpl; lia).
    destruct (watch_all_ok req (now_ms env) rs (eseq (txns i1)) ks i1) as (? & E & Hl); [by eapply inv_counts|].
    split; [done|]. split; [rewrite E; apply Hc|]. intros t' k Ht'. rewrite Hl by done. by apply look_counts.
  - apply Hcount. by split.
  - apply Hcount. unfold txn_end. destruct (_ =? 0); split; try done; simpl; lia.
  - exists []. split; [apply committed_nil|]. rewrite app_nil_r. split; [by apply inv_purge|].
    destruct (purge_fold (due (now_ms env) i) i) as (_ & _ & _ & Ec & _). split; [exact Ec|].
    intros t' k Ht'. apply look_purge; [apply Hi|done].
Qed.

Lemma last_clock_ge h : ∀ t, clocks t h → t ≤ last_clock t h.
Proof. induction h as [|[e o] h IH]; intros t Hc; simpl; [done|]. destruct Hc as [Ht Hc]. specialize (IH _ Hc). lia. Qed.
Lemma last_clock_take m h : ∀ t, clocks t h → last_clock t (take m h) ≤ last_clock t h.
Proof.
  revert m. induction h as [|[e o] h IH]; intros [|m] t Hc; simpl; try done.
  - by apply (last_clock_ge ((e, o) :: h)).
  - apply IH, Hc.
Qed.
Lemma clocks_take m h : ∀ t, clocks t h → clocks t (take m h).
Proof. revert m. induction h as [|[e o] h IH]; intros [|m] t Hc; simpl; try done. destruct Hc as [Ht Hc]. split; [done|by apply IH]. Qed.

(** Two engines of one log show the same. *)
Lemma look_of_log req t1 t2 rs i1 i2 t k :
  inv req t1 rs [] i1 → inv req t2 rs [] i2 → keys (conf i1) = keys (conf i2) → t1 ≤ t → t2 ≤ t → look t i1 k = look t i2 k.
Proof.
  intros Hi1 Hi2 Hk Ht1 Ht2. pose proof (iv_agree _ _ _ _ _ Hi1 k) as Ha1. pose proof (iv_agree _ _ _ _ _ Hi2 k) as Ha2.
  revert Ha1 Ha2. generalize (apply_changes (∅, 0) (rec_changes FILE_HEADER_LEN rs)).1. intros scn Ha1 Ha2.
  unfold look, stored_value. destruct (scn !! k) as [e|].
  - destruct (index (mem i1) !! k) as [e1|] eqn:E1, (index (mem i2) !! k) as [e2|] eqn:E2.
    + assert (set_version 0 e1 = set_version 0 e2) as Ee by congruence.
      assert (value_in (keys (conf i1)) (file (disk i1)) e1 = value_in (keys (conf i2)) (file (disk i2)) e2) as ->.
      { rewrite <- (value_in_version _ _ e1 0), Ee, value_in_version, Hk, (iv_file _ _ _ _ _ Hi1), (iv_file _ _ _ _ _ Hi2).
        apply value_in_header; [by rewrite !file_header_len|]. rewrite file_header_len. by apply (iv_vals _ _ _ _ _ Hi2 k). }
      unfold is_expired. by rewrite (set_version_expires _ _ Ee).
    + apply (is_expired_mono _ _ t) in Ha2; [|done]. unfold is_expired in *. by rewrite (set_version_expires _ _ Ha1), Ha2.
    + apply (is_expired_mono _ _ t) in Ha1; [|done]. unfold is_expired in *. by rewrite (set_version_expires _ _ Ha2), Ha1.
    + done.
  - destruct (index (mem i1) !! k), (index (mem i2) !! k); done.
Qed.

Lemma run_view_ext h i : ∀ w w' t, clocks t h → (∀ t' k, t ≤ t' → w t' k = w' t' k) →
  ∀ t' k, last_clock t h ≤ t' → run_view h i w t' k = run_view h i w' t' k.
Proof.
  revert i. induction h as [|[env o] h IH]; intros i w w' t Hc Hw t' k Ht'; [by apply Hw|].
  cbn [clocks run_view last_clock] in *. destruct Hc as [Ht Hc]. destruct (step env o i) as [ok i'].
  eapply IH; [exact Hc| |done]. intros t1 k1 Ht1. destruct ok; [|apply Hw; lia].
  destruct o; simpl; try (apply Hw; lia); try (unfold view_set; destruct (decide _); [done|apply Hw; lia]).
  unfold batch_view. apply apply_effects_ext. intros k2. apply Hw. lia.
Qed.

(** The commits of a history, one or none for each operation: at every point
    of it the engine and its file are in step, and clients see the view. *)
Lemma run_ok req h : ∀ t rs i,
  inv req t rs [] i → clocks t h → keys_read (keys (conf i)) req (keys (conf i)) → Forall (eop_pre (keys (conf i))) h →
  ∃ cs, length cs = length h ∧ Forall (committed_by (keys (conf i)) req) cs ∧ ∀ m, (m ≤ length h)%nat →
    let i' := run (take m h) i in
    inv req (last_clock t (take m h)) (rs ++ List.concat (take m cs)) [] i' ∧ conf i' = conf i ∧
    ∀ t' k, last_clock t (take m h) ≤ t' → look t' i' k = run_view (take m h) i (fun t => look t i) t' k.
Proof.
  induction h as [|[env o] h IH]; intros t rs i Hi Hc Hks Hpre.
  - exists []. split; [done|]. split; [constructor|]. intros m _. rewrite !take_nil. simpl. by rewrite app_nil_r.
  - destruct Hc as [Ht Hc]. inversion_clear Hpre as [|? ? Ho Hh].
    destruct (step_ok req t rs env o i Hi Ht Hks Ho) as (c & Hcb & Hstep).
    destruct (step env o i) as [ok i'] eqn:E. destruct Hstep as (Hi' & Ecf & Hl).
    destruct (IH (now_ms env) (rs ++ c) i' Hi' Hc) as (cs & Lcs & Hcs & Hm); [by rewrite Ecf..|].
    exists (c :: cs). split; [by f_equal/=|]. split; [constructor; [done|by rewrite <- Ecf]|].
    intros [|m] Hlm; cbn [take run run_view last_clock List.concat].
    { rewrite app_nil_r. by split. }
    rewrite E. cbn [snd]. destruct (Hm m ltac:(simpl in Hlm; lia)) as (H1m & H2m & H3m).
    rewrite <- app_assoc in H1m. split; [exact H1m|]. split; [congruence|].
    intros t' k Ht'. rewrite H3m by done. eapply run_view_ext; [| |exact Ht'].
    + by apply clocks_take.
    + intros t1 k1 Ht1. rewrite Hl by done. by destruct ok.
Qed.

Lemma inv_file_len req t rs i : inv req t rs [] i → file_len i = FILE_HEADER_LEN + recs_len rs.
Proof. intros Hi. unfold file_len. rewrite (iv_file _ _ _ _ _ Hi), len_app, file_header_len, app_nil_r. done. Qed.

(** Where a cut of [n] bytes falls. *)
Definition nonempty (c : list Rec) : bool := match c with [] => false | _ => true end.
Lemma concat_nonempty cs : List.concat (List.filter nonempty cs) = List.concat cs.
Proof. induction cs as [|[|r c] cs IH]; simpl; [done|done|]. by rewrite IH. Qed.
Lemma nonempty_commits ks req cs : Forall (committed_by ks req) cs → Forall (wf_commit ks req) (List.filter nonempty cs).
Proof.
  induction 1 as [|c cs Hc _ IH]; simpl; [constructor|]. destruct c as [|r c]; [done|]. constructor; [|done].
  destruct Hc as [[Hc|Hc] _]; [discriminate|done].
Qed.
Lemma cut_point n cs : 0 ≤ n →
  ∃ j, (j ≤ length cs)%nat ∧ committed n (List.filter nonempty cs) = List.concat (take j cs) ∧
    ∀ m, (m ≤ length cs)%nat → recs_len (List.concat (take m cs)) ≤ n → (m ≤ j)%nat.
Proof.
  revert n. induction cs as [|c cs IH]; intros n Hn; [exists O; repeat split; simpl; lia|].
  assert (∀ m, recs_len (List.concat (take (S m) (c :: cs))) = recs_len c + recs_len (List.concat (take m cs))) as Hlen.
  { intros m. cbn [take List.concat]. by rewrite recs_len_app. }
  destruct c as [|r c].
  - destruct (IH n Hn) as (j & Hj & Ej & Hm). exists (S j). split; [simpl; lia|]. split; [done|].
    intros [|m] Lm Hmn; [lia|]. rewrite Hlen in Hmn. simpl in Lm. change (recs_len []) with 0 in Hmn.
    specialize (Hm m ltac:(lia) ltac:(lia)). lia.
  - cbn [List.filter nonempty committed]. destruct (Z.leb_spec (recs_len (r :: c)) n) as [Hc|Hc].
    + assert (0 ≤ n - recs_len (r :: c)) as Hn' by lia.
      destruct (IH _ Hn') as (j & Hj & Ej & Hm). exists (S j). split; [simpl; lia|].
      split; [simpl; by rewrite Ej|]. intros [|m] Lm Hmn; [lia|]. rewrite Hlen in Hmn.
      simpl in Lm. specialize (Hm m ltac:(lia) ltac:(lia)). lia.
    + exists O. split; [lia|]. split; [done|]. intros [|m] Lm Hmn; [lia|]. rewrite Hlen in Hmn.
      pose proof (recs_len_nonneg (List.concat (take m cs))). lia.
Qed.

(** ** From a new workspace *)
Record opts_ok (o : EngineOptions) : Prop := {
  oo_cache : 0 ≤ o_cache_bytes o;
  oo_keys : keys_read (o_keys o) (o_require o) (o_keys o);
}.
Definition created (o : EngineOptions) (id : Z) : Inner := start o (file_header id FORMAT_V1) id FORMAT_V1 ∅ 0 0.
Lemma created_open o now id hint : open_ o now (Some id) [] hint = Some (Ok (created o id)).
Proof. done. Qed.
Lemma created_inv o id t : opts_ok o → in_u 64 id → inv (o_require o) t [] [] (created o id).
Proof.
  intros [Hc _] Hid. split; try done; [unfold created, start; apply recount_ok; [apply List.Forall_nil|by apply cache_new_ok]].
Qed.
Definition nothing : View := fun _ _ => None.
Lemma created_look o id t k : look t (created o id) k = None.
Proof. done. Qed.

(** The commits of a history of a new workspace, one or none for each operation. *)
Record history_log (o : EngineOptions) (id t : Z) (h : list (Env * EOp)) (cs : list (list Rec)) : Prop := {
  hl_len : length cs = length h;
  hl_commits : Forall (committed_by (o_keys o) (o_require o)) cs;
  hl_inv : ∀ m, (m ≤ length h)%nat →
    inv (o_require o) (last_clock t (take m h)) (List.concat (take m cs)) [] (run (take m h) (created o id));
  hl_conf : ∀ m, (m ≤ length h)%nat → conf (run (take m h) (created o id)) = conf (created o id);
  hl_look : ∀ m, (m ≤ length h)%nat → ∀ t' k, last_clock t (take m h) ≤ t' →
    look t' (run (take m h) (created o id)) k = run_view (take m h) (created o id) nothing t' k;
}.
Lemma history_ok o id t h :
  opts_ok o → in_u 64 id → clocks t h → Forall (eop_pre (o_keys o)) h → ∃ cs, history_log o id t h cs.
Proof.
  intros Ho Hid Hc Hp. pose proof (created_inv o id t Ho Hid) as Hi. destruct Ho as [_ Hk].
  destruct (run_ok (o_require o) h t [] (created o id) Hi Hc Hk Hp) as (cs & Lcs & Hcs & Hm).
  exists cs. split; [done|done|intros m Hlm; by destruct (Hm m Hlm) as (? & ? & ?)..].
Qed.
Lemma history_all o id t h cs : history_log o id t h cs →
  inv (o_require o) (last_clock t h) (List.concat cs) [] (run h (created o id)).
Proof. intros Hl. pose proof (hl_inv _ _ _ _ _ Hl (length h) (le_n _)) as Hi. by rewrite firstn_all, <- (hl_len _ _ _ _ _ Hl), firstn_all in Hi. Qed.
Lemma history_engine o id t h :
  opts_ok o → in_u 64 id → clocks t h → Forall (eop_pre (o_keys o)) h →
  ∀ t' k, last_clock t h ≤ t' → look t' (run h (created o id)) k = run_view h (created o id) nothing t' k.
Proof.
  intros Ho Hid Hc Hp. destruct (history_ok o id t h Ho Hid Hc Hp) as (cs & Hl).
  pose proof (hl_look _ _ _ _ _ Hl (length h) (le_n _)) as Hlk. by rewrite firstn_all in Hlk.
Qed.
End history.
