(* ===== verification/Keeps.v ===== *)
(** * What every operation leaves alone

    No operation of a history changes the id of the data file, shortens the
    file, or brings back an entry of its older part: the index only gains
    entries of records that were just appended. *)
From S2P Require Import Prelude Utf8 Util Maps Types Compress Format Crypt Log Cache SecIndex Engine EngineMem EngineOk EngineThm EngineBatch History.
Open Scope Z_scope.

Section keeps.
  Context `{Aead} `{Crc} `{Codecs} `{Leaves} `{!Values}.

(** From [i] to [i'], the first [n] bytes of the file gained no entry. *)
Record grows (n : Z) (i i' : Inner) : Prop := {
  gr_id : file_id (disk i') = file_id (disk i);
  gr_closed : closed (disk i') = closed (disk i);
  gr_len : n ≤ file_len i → n ≤ file_len i';
  gr_old : n ≤ file_len i → ∀ k e, index (mem i') !! k = Some e → offset e < n → index (mem i) !! k = Some e;
}.
Lemma grows_refl n i : grows n i i.
Proof. by split. Qed.
Lemma grows_trans n i1 i2 i3 : grows n i1 i2 → grows n i2 i3 → grows n i1 i3.
Proof.
  intros [E1 C1 L1 O1] [E2 C2 L2 O2]. split; [congruence|congruence|auto|]. intros Hn k e Hk Ho. eauto.
Qed.
Lemma grows_same n i i' : file_id (disk i') = file_id (disk i) → closed (disk i') = closed (disk i) → file (disk i') = file (disk i) →
  index (mem i') = index (mem i) → grows n i i'.
Proof. intros E1 E0 E2 E3. split; [done|done|unfold file_len; by rewrite E2|by rewrite E3]. Qed.
Lemma grows_remove n key i : grows n i (idx_remove key i).2.
Proof.
  destruct (idx_remove_rest key i) as (E & _). split; [by rewrite E|by rewrite E|unfold file_len; by rewrite E|].
  intros _ k e. rewrite idx_remove_index, lookup_delete_Some. by intros [_ ?].
Qed.
Lemma grows_expire n key i : grows n i (tell_expired key (idx_remove key i).2).
Proof. eapply grows_trans; [apply grows_remove|by apply grows_same]. Qed.
Lemma grows_store n key e doc rv raw i : n ≤ offset e → grows n i (store key e doc rv raw i).
Proof.
  intros Ho. destruct (store_rest key e doc rv raw i) as (E1 & _ & _ & E4 & _). split; [by rewrite E1|by rewrite E1|unfold file_len; by rewrite E1|].
  intros _ k e'. rewrite E4, lookup_insert_Some. intros [[_ <-]|[_ ?]] ?; [lia|done].
Qed.
Lemma grows_live n key now i : grows n i (live key now i).2.
Proof.
  destruct (live_cases key now i) as [(e & -> & _)|[[-> _]|(e & -> & _)]]; [apply grows_refl..|apply grows_expire].
Qed.

Definition keeps {A} (m : M A) : Prop := ∀ n i, grows n i (m i).2.
Lemma keeps_bind {A B} (m : M A) (f : A → M B) : keeps m → (∀ a, keeps (f a)) → keeps (m ≫= f).
Proof.
  intros Hm Hf n i. unfold mbind, M_bind. specialize (Hm n i). destruct (m i) as [[a|e] i']; [|done]. eapply grows_trans; [exact Hm|apply Hf].
Qed.
Lemma keeps_ret {A} (a : A) : keeps (mret a).
Proof. intros n i. apply grows_refl. Qed.
Lemma keeps_lift {A} (r : result KivaError A) : keeps (lift r).
Proof. intros n i. apply grows_refl. Qed.
Lemma keeps_st {A} (f : Inner → result KivaError A) : keeps (st (fun i => (f i, i))).
Proof. intros n i. apply grows_refl. Qed.
Lemma keeps_live key now : keeps (liveM key now).
Proof. intros n i. unfold liveM. pose proof (grows_live n key now i) as Hl. by destruct (live key now i). Qed.
Lemma raised_len (b : bool) need (f : bytes) : len f ≤ len (if b then take 4 f ++ le_bytes 4 need ++ drop 8 f else f).
Proof. destruct b; [|done]. rewrite !len_app. unfold len. rewrite le_bytes_length, length_take, length_drop. lia. Qed.
Lemma keeps_append env buf : keeps (append env buf).
Proof.
  intros n i. unfold append. destruct (closed (disk i)) eqn:Ecl; [apply grows_refl|]. destruct (format_needed buf) as [need|]; [|apply grows_refl].
  destruct (_ && _); [apply grows_refl|].
  assert (∀ f' i', file_id (disk i') = file_id (disk i) → closed (disk i') = false → mem i' = mem i → file (disk i') = f' →
    len (file (disk i)) ≤ len f' → grows n i i') as Hg.
  { intros f' i' E1 E0 E2 E3 Hl. split; [done|congruence|unfold file_len; rewrite E3; lia|by rewrite E2]. }
  set (f := if format (disk i) <? need then _ else _).
  assert (len (file (disk i)) ≤ len f) as Hf.
  { subst f. destruct (_ <? _); [|done]. rewrite !len_app. unfold len. rewrite le_bytes_length, length_take, length_drop. lia. }
  destruct (io_write env); cbn [negb snd]; [apply (Hg (f ++ buf)); try done|by apply (Hg f)].
  rewrite len_app. pose proof (len_nonneg buf). lia.
Qed.
(** Where a record goes: at the end of the file. *)
Lemma append_off env buf i off i' : append env buf i = (Ok off, i') → file_len i ≤ off.
Proof.
  unfold append. destruct (closed _); [done|]. destruct (format_needed buf) as [need|]; [|done]. destruct (_ && _); [done|].
  destruct (io_write env); [|done]. simpl. intros [= <- _]. apply raised_len.
Qed.
Lemma keeps_read_raw key e : keeps (read_raw key e).
Proof.
  apply keeps_bind.
  - intros n i. unfold read_record. destruct (read_at _ _ _); [|by apply grows_same]. destruct (verify_record _); [apply grows_refl|by apply grows_same].
  - intros rec n i. unfold st. destruct (open_record _ _) as [[k v]|err]; [apply grows_refl|]. destruct (bool_decide _); [by apply grows_same|apply grows_refl].
Qed.
Lemma keeps_value_of key e : keeps (value_of key e).
Proof.
  intros n i. unfold value_of. destruct (get key (version e) (cache (mem i))) as [[v|] c]; [by apply grows_same|].
  eapply grows_trans; [by apply (grows_same n i (set_cache c i))|]. apply keeps_bind.
  - apply keeps_bind; [apply keeps_read_raw|intros; apply keeps_lift].
  - intros v. apply keeps_bind; [intros m j; by apply grows_same|intros; apply keeps_ret].
Qed.
Lemma keeps_put_locked env key v exp mp ts : keeps (put_locked env key v exp mp ts).
Proof.
  intros n i. rewrite put_locked_eq. destruct (build_put _ _ _ _ _ _ _ _) as [[[rec e] raw]|]; [|apply grows_refl].
  pose proof (grows_live n key (now_ms env) i) as Hl. destruct (live key (now_ms env) i) as [old i1].
  pose proof (keeps_append env rec n i1) as Ha. pose proof (append_off env rec i1) as Hoff. destruct (append env rec i1) as [[off|] i2];
    (eapply grows_trans; [exact Hl|]); [|exact Ha]. specialize (Hoff off i2 eq_refl). cbn [snd] in *.
  destruct (Z.le_gt_cases n (file_len i1)) as [Hn|Hn].
  - eapply grows_trans; [exact Ha|]. unfold stored_put. eapply grows_trans; [by apply (grows_same n i2 (next_seq i2))|].
    eapply grows_trans; [apply (grows_store n key (at_ off (eseq (txns (next_seq i2))) e)); simpl; lia|]. by apply grows_same.
  - destruct Ha as [E C _ _]. unfold stored_put. split; [| |lia|lia]; cbn [emit dirty set_txns disk];
      rewrite (proj1 (store_rest _ _ _ _ _ _)); [exact E|exact C].
Qed.
Lemma keeps_delete env key : keeps (delete_ env key).
Proof.
  apply keeps_bind; [apply keeps_live|]. intros [e|]; [|apply keeps_ret].
  apply keeps_bind; [apply keeps_st|]. intros rec. apply keeps_bind; [apply keeps_append|]. intros off.
  repeat (apply keeps_bind; [intros n i; first [by apply grows_same|apply grows_remove|unfold modify, bury; simpl; destruct (_ <? _); by apply grows_same]|intros _]).
  apply keeps_ret.
Qed.
Lemma keeps_stage env ops : ∀ n shadow, keeps (stage env ops n shadow).
Proof.
  assert (∀ shadow key, keeps (exists_now (now_ms env) shadow key)) as Hex.
  { intros. unfold exists_now. destruct (shadow !! key); [apply keeps_ret|]. apply keeps_bind; [apply keeps_live|intros; apply keeps_ret]. }
  induction ops as [|[key v exp mp|key] ops IH]; intros n shadow; cbn [stage]; [apply keeps_ret|..].
  - apply keeps_bind; [apply keeps_st|]. intros [[rec e] raw]. apply keeps_bind; [apply Hex|]. intros ex.
    apply keeps_bind; [apply IH|intros; apply keeps_ret].
  - apply keeps_bind; [apply Hex|]. intros []; simpl; [|apply IH].
    apply keeps_bind; [apply keeps_st|]. intros rec. apply keeps_bind; [apply IH|intros; apply keeps_ret].
Qed.
Lemma grows_apply_staged n l : ∀ base i, n ≤ base → grows n i (apply_staged base l i).
Proof.
  induction l as [|[s rec] l IH]; intros base i Hb; [apply grows_refl|]. cbn [apply_staged]. eapply grows_trans; [|apply IH; pose proof (len_nonneg rec); lia].
  eapply grows_trans; [by apply (grows_same n i (next_seq i))|]. destruct s as [key e raw doc ty cr|key].
  - set (e' := at_ _ _ _). eapply grows_trans; [apply (grows_store n key e' (doc ≫= as_doc) (decode ty raw (doc_enc e')) raw); simpl; lia|].
    by apply grows_same.
  - eapply grows_trans; [apply (grows_remove n key)|]. unfold bury. destruct (_ <? _); by apply grows_same.
Qed.
Lemma grows_changed n now ws : ∀ i, grows n i (changed now ws i).2.
Proof.
  induction ws as [|w ws IH]; intros i; [apply grows_refl|]. cbn [changed]. destruct (_ || _); [apply grows_refl|]. destruct (existed w); [|apply IH].
  pose proof (grows_live n (wk_key w) now i) as Hl. destruct (live (wk_key w) now i) as [[e|] i1]; [|exact Hl].
  eapply grows_trans; [exact Hl|apply IH].
Qed.
Lemma keeps_batch env ops bs ws : keeps (apply_batch_watched env ops bs ws).
Proof.
  apply keeps_bind.
  { intros n i. unfold st. pose proof (grows_changed n (now_ms env) ws i) as Hc. by destruct (changed (now_ms env) ws i). }
  intros [k|]; [apply keeps_lift|]. apply keeps_bind; [apply keeps_st|intros _]. apply keeps_bind; [apply keeps_st|intros _].
  apply keeps_bind; [apply keeps_stage|]. intros [|s staged]; [apply keeps_ret|]. intros n i. unfold mbind, M_bind.
  pose proof (keeps_append env (List.concat (stamp_last (s :: staged).*2)) n i) as Ha.
  pose proof (append_off env (List.concat (stamp_last (s :: staged).*2)) i) as Hoff.
  destruct (append _ _ _) as [[off|] i2]; [|exact Ha]. specialize (Hoff off i2 eq_refl). unfold modify. cbn [snd] in *.
  destruct (Z.le_gt_cases n (file_len i)).
  - eapply grows_trans; [exact Ha|]. apply grows_apply_staged. lia.
  - split; [rewrite <- (gr_id _ _ _ Ha)|rewrite <- (gr_closed _ _ _ Ha)|lia|lia]; by apply (grows_apply_staged off).
Qed.
Lemma grows_watch_all n now since ks : ∀ i, grows n i (watch_all now since ks i).2.
Proof.
  induction ks as [|k ks IH]; intros i; [apply grows_refl|]. cbn [watch_all].
  pose proof (grows_live n k now i) as Hl. destruct (live k now i) as [e i1].
  specialize (IH i1). destruct (watch_all now since ks i1) as [l i2]. eapply grows_trans; [exact Hl|exact IH].
Qed.
Lemma grows_purge n now i : grows n i (purge_expired now i).2.
Proof.
  unfold purge_expired. cbn [snd]. generalize (due now i). intros l. revert i. induction l as [|k l IH]; intros i; [apply grows_refl|].
  cbn [List.fold_left]. eapply grows_trans; [apply (grows_expire n k)|apply IH].
Qed.
Lemma grows_step n env o i : grows n i (step env o i).2.
Proof.
  destruct o as [key v exp mp ts check|key|key|ops bs ws|ks| | |]; cbn [step].
  - assert (keeps (put_at env key v exp mp ts check)) as Hk.
    { intros m j. unfold put_at. apply (keeps_bind (lift _)); [apply keeps_lift|]. intros _. apply keeps_put_locked. }
    specialize (Hk n i). by destruct (put_at _ _ _ _ _ _ _ _).
  - pose proof (keeps_delete env key n i) as Hk. by destruct (delete_ _ _ _).
  - assert (keeps (get_ env key)) as Hk.
    { apply keeps_bind; [apply keeps_live|]. intros [e|]; [|apply keeps_ret].
      apply keeps_bind; [apply keeps_value_of|intros; apply keeps_ret]. }
    specialize (Hk n i). by destruct (get_ _ _ _).
  - pose proof (keeps_batch env ops bs ws n i) as Hk. by destruct (apply_batch_watched _ _ _ _ _).
  - unfold watch. cbn [snd]. eapply grows_trans; [|apply grows_watch_all]. by apply grows_same.
  - by apply grows_same.
  - unfold txn_end. cbn [snd]. destruct (_ =? 0); by apply grows_same.
  - apply grows_purge.
Qed.
Lemma grows_run n h : ∀ i, grows n i (run h i).
Proof. induction h as [|[env o] h IH]; intros i; [apply grows_refl|]. cbn [run]. eapply grows_trans; [apply grows_step|apply IH]. Qed.
Lemma keeps_run h i : file_id (disk (run h i)) = file_id (disk i).
Proof. apply (gr_id 0), grows_run. Qed.
End keeps.
