(* ===== verification/Compact.v ===== *)
(** * [src/engine.rs], compaction: the data file rewritten with its live records

    [compact_impl] holds the lock for its first and last phases only: the
    operations of other sessions run while the records are copied, and what
    they appended is brought over at the end. *)
From S2P Require Import Prelude Utf8 Util Maps Types Compress Format Crypt Log Hint Cache SecIndex Engine EngineMem EngineOk EngineThm EngineBatch Recovery History.
Open Scope Z_scope.

(** The random id of the new file, and what the system answers. *)
Record CompactIo := { io_new_id : option Z; io_nonce : nat → option bytes; io_copy : bool; io_sync : bool; io_rename : bool; io_hint : bool }.
Record CompactReport := { before_bytes : Z; after_bytes : Z; records : Z; dropped_corrupted : Z; aborted : bool }.
(** What the first phase takes of the state. *)
Record Snapshot := { snap : list (str * Entry); snap_len : Z; old_id : Z }.
(** The new file as it is written: where each key was, and its entry there. *)
Record Copy := { c_out : bytes; c_pos : Z; c_moved : gmap str (Z * Entry); c_dropped : Z; c_nonce : nat }.

Section compact.
  Context `{Aead} `{Crc} `{Codecs} `{Leaves} `{!Values}.

(** One pass more than there are full ones ends the loop. *)
Fixpoint purge_loop (fuel : nat) (now : Z) (i : Inner) : Inner :=
  match fuel with
  | O => i
  | S fuel =>
    let '(n, i) := purge_expired now i in
    if Nat.eqb n PURGE_BATCH then purge_loop fuel now i else i
  end.
Definition purge_all_expired (now : Z) (i : Inner) : Inner := purge_loop (S (map_size (index (mem i)))) now i.

(** Phase 1, under the lock. *)
Definition compact_begin (env : Env) (recompress : option Compression) : M Snapshot := fun i =>
  if closed (disk i) then (Err (Other "database is closed"), i)
  else
    let i := purge_all_expired (now_ms env) i in
    let i := match recompress with
      | Some c => {| disk := disk i; mem := mem i; txns := txns i; conf := {| conf_comp := c; keys := keys (conf i) |};
                     emitted := emitted i; expired := expired i |}
      | None => i
      end in
    (Ok {| snap := entries (index (mem i)); snap_len := file_len i; old_id := file_id (disk i) |}, i).

(** The key a record is sealed with. *)
Definition record_key_id (rec : bytes) : option bytes :=
  match parse_header rec with
  | Some h => if has_flag (Format.flags h) FLAG_ENCRYPTED then sealed_key_id rec else None
  | None => None
  end.
Definition entry_compression (e : Entry) : Compression := Compression_from_flag (Z.land (e_flags e) FLAG_COMP_MASK).
(** A live record, as it goes into the new file at [pos]; [None] when it
    cannot be read. *)
Definition rewrite_record (ks : option Keys) (recompress : option Compression) (buf : bytes) (pos : Z) (nonce : option bytes)
    (key : str) (e : Entry) (wrong_algo : bool) : result KivaError (option (bytes * Entry)) :=
  match open_record ks buf with
  | Err _ => Ok None
  | Ok (_, stored) =>
    let packed := if wrong_algo then
        match unpack stored (entry_compression e) with
        | Ok raw => Some (pack raw (default CNone recompress))
        | Err _ => None
        end
      else Some (stored, Z.land (e_flags e) FLAG_COMP_MASK) in
    match packed with
    | None => Ok None
    | Some (stored2, cflag) =>
      let flags := Z.lor (Z.land (e_flags e) (Z.lor FLAG_MSGPACK FLAG_KDOC)) cflag in
      rec ← encode_record ks key stored2 (Type_code (e_ty e)) flags (e_timestamp e) (e_expires_at e) nonce;
      match parse_header rec with
      | None => Err PANIC
      | Some h =>
        Ok (Some (rec, {| offset := pos; ek_size := ek_size e; ev_size := v_size h; raw_size := raw_size e; e_ty := e_ty e;
                          e_flags := Format.flags h; e_timestamp := e_timestamp e; e_expires_at := e_expires_at e; version := version e |}))
      end
    end
  end.
Definition rewrites (ks : option Keys) (recompress : option Compression) (buf : bytes) (e : Entry) : bool * bool :=
  let wrong_algo := match recompress with Some c => negb (bool_decide (c = entry_compression e)) | None => false end in
  let wrong_key := negb (bool_decide (record_key_id buf = (fun k => id (current k)) <$> ks)) in
  (has_flag (e_flags e) (Z.lor FLAG_TXN FLAG_TXN_COMMIT) || wrong_algo || wrong_key, wrong_algo).
Definition copy_record (ks : option Keys) (recompress : option Compression) (f : bytes) (pos : Z) (nonce : option bytes)
    (key : str) (e : Entry) : result KivaError (option (bytes * Entry)) :=
  if len f <? offset e + Log.rec_len e then Ok None
  else
    let buf := slice (offset e) (offset e + Log.rec_len e) f in
    if negb (verify_record buf) then Ok None
    else
      let '(again, wrong_algo) := rewrites ks recompress buf e in
      if again then rewrite_record ks recompress buf pos nonce key e wrong_algo
      else Ok (Some (buf, at_ pos (version e) e)).
(** Phase 2, without the lock: [f] is the data file as it is then. *)
Fixpoint copy_records (ks : option Keys) (recompress : option Compression) (f : bytes) (io : CompactIo)
    (l : list (str * Entry)) (c : Copy) : result KivaError Copy :=
  match l with
  | [] => Ok c
  | (key, e) :: l =>
    r ← copy_record ks recompress f (c_pos c) (io_nonce io (c_nonce c)) key e;
    copy_records ks recompress f io l
      match r with
      | None => {| c_out := c_out c; c_pos := c_pos c; c_moved := c_moved c; c_dropped := c_dropped c + 1; c_nonce := S (c_nonce c) |}
      | Some (rec, ne) =>
        {| c_out := c_out c ++ rec; c_pos := c_pos c + len rec; c_moved := <[key := (offset e, ne)]> (c_moved c);
           c_dropped := c_dropped c; c_nonce := S (c_nonce c) |}
      end
  end.
Definition compact_copy (ks : option Keys) (recompress : option Compression) (f : bytes) (io : CompactIo) (new_id : Z) (s : Snapshot)
    : result KivaError Copy :=
  if negb (io_copy io) then Err (Io "{e}")
  else copy_records ks recompress f io (snap s)
         {| c_out := file_header new_id FORMAT_V1; c_pos := FILE_HEADER_LEN; c_moved := ∅; c_dropped := 0; c_nonce := 0 |}.

(** Where a key of the index is in the new file; none when it is lost. *)
Definition relocate (s : Snapshot) (c : Copy) (k : str) (cur : Entry) : option Entry :=
  if snap_len s <=? offset cur then Some (at_ (offset cur - snap_len s + c_pos c) (version cur) cur)
  else
    match c_moved c !! k with
    | Some (o, ne) => if o =? offset cur then Some (set_version (version cur) ne) else None
    | None => None
    end.
(** Phase 3, under the lock. *)
Definition compact_end (io : CompactIo) (new_id : Z) (s : Snapshot) (c : Copy) : M CompactReport := fun i =>
  let before := file_len i in
  if negb (file_id (disk i) =? old_id s) || closed (disk i) then
    (Ok {| before_bytes := before; after_bytes := before; records := 0; dropped_corrupted := 0; aborted := true |}, i)
  else
    match (if snap_len s <? before then read_at (snap_len s) (before - snap_len s) i else Some []) with
    | None => (Err (Io "{e}"), i)
    | Some tail =>
      let pos := c_pos c + len tail in
      let out := c_out c ++ tail in
      let out := if FORMAT_V1 <? format (disk i) then take 4 out ++ le_bytes 4 (format (disk i)) ++ drop 8 out else out in
      if negb (io_sync io && io_rename io) then (Err (Io "{e}"), i)
      else
        let new_index := map_imap (relocate s c) (index (mem i)) in
        let lost := List.filter (fun k => match new_index !! k with None => true | Some _ => false end) (keys_of (index (mem i))) in
        let i := List.fold_left (fun i k => (idx_remove k i).2) lost i in
        let d := disk i in let m := mem i in let t := txns i in
        let i := set_mem {| index := new_index; live_bytes := live_bytes m; expiry := expiry m; key_bytes := key_bytes m;
                            sec := sec m; cache := cache m |} i in
        let i := set_disk {| file := out; file_id := new_id; format := format d; unsynced := if io_hint io then false else unsynced d;
                             closed := closed d; corrupted_detected := corrupted_detected d + c_dropped c |} i in
        let i := recount i in
        let i := if io_hint io then
            set_txns {| eseq := eseq t; active_txns := active_txns t; tomb_versions := tomb_versions t; reset_seq := reset_seq t; dirty_ops := 0 |} i
          else i in
        (Ok {| before_bytes := before; after_bytes := pos; records := Z.of_nat (map_size new_index); dropped_corrupted := c_dropped c;
               aborted := false |}, i)
    end.

Context `{LA : !AeadLaws} `{LC : !CodecsLaws} `{LV : !ValuesLaws}.

(** ** Scanned records and their places *)
Definition scanned (base : Z) (rs : list Rec) : Index := (apply_changes (∅, 0) (rec_changes base rs)).1.
Definition tomb (r : Rec) : bool := has_flag (f_flags (r_frame r)) FLAG_TOMBSTONE.
(** The record [r], at [pos], is what [e] says. *)
Record describes (r : Rec) (pos : Z) (e : Entry) : Prop := {
  ds_tomb : tomb r = false;
  ds_ty : Type_from_u8 (f_ty (r_frame r)) = Some (e_ty e);
  ds_entry : set_version 0 e = set_version 0 (scan_entry (frame_header (r_frame r)) pos (e_ty e) (r_stored r));
}.
Lemma describes_offset r pos e : describes r pos e → offset e = pos.
Proof. intros [_ _ E]. by injection E. Qed.
Lemma describes_len r pos e : describes r pos e → Log.rec_len e = frame_len (r_frame r).
Proof. intros [_ _ E]. by rewrite (set_version_len _ _ E). Qed.
Lemma describes_flags r pos e : describes r pos e → e_flags e = f_flags (r_frame r).
Proof. intros [_ _ E]. by injection E. Qed.
Lemma describes_same r pos e e' : set_version 0 e = set_version 0 e' → describes r pos e → describes r pos e'.
Proof.
  intros Ee [T1 T2 T3]. assert (e_ty e = e_ty e') as Et by (by injection Ee). split; [done|by rewrite <- Et|]. rewrite <- Ee, T3. by rewrite Et.
Qed.
Lemma rec_change_describes r pos e : (rec_change r pos).2 = Some e → describes r pos e.
Proof.
  unfold rec_change. cbn [snd]. fold (tomb r). destruct (tomb r) eqn:Et; [done|]. destruct (Type_from_u8 _) as [ty|] eqn:Ety; [|done].
  intros [= <-]. by split.
Qed.
Lemma scanned_snoc base rs r : Forall (fun r => fits (r_frame r)) rs →
  scanned base (rs ++ [r]) = match (rec_change r (base + recs_len rs)).2 with
    | Some e => <[r_key r := set_version ((apply_changes (∅, 0) (rec_changes base rs)).2 + 1) e]> (scanned base rs)
    | None => delete (r_key r) (scanned base rs) end.
Proof.
  intros Hf. unfold scanned. rewrite rec_changes_snoc, apply_changes_app by done. destruct (apply_changes (∅, 0) (rec_changes base rs)) as [s q].
  cbn [apply_changes List.fold_left apply_change fst snd]. unfold apply_changes, apply_change. simpl. by destruct (if has_flag _ _ then _ else _).
Qed.
Lemma scanned_located base rs k e : Forall (fun r => fits (r_frame r)) rs → scanned base rs !! k = Some e →
  ∃ pre r post, rs = pre ++ r :: post ∧ r_key r = k ∧ describes r (base + recs_len pre) e.
Proof.
  revert e. induction rs as [|r rs IH] using rev_ind; intros e Hf; [done|]. apply Forall_app in Hf as [Hf _]. rewrite scanned_snoc by done.
  assert (scanned base rs !! k = Some e → ∃ pre r0 post, rs ++ [r] = pre ++ r0 :: post ∧ r_key r0 = k ∧ describes r0 (base + recs_len pre) e) as Hold.
  { intros Hk. destruct (IH e Hf Hk) as (pre & r0 & post & -> & E1 & E2). exists pre, r0, (post ++ [r]). by rewrite <- app_assoc. }
  destruct (rec_change r _).2 as [e0|] eqn:Ec.
  - rewrite lookup_insert_Some. intros [[Ek <-]|[_ Hk]]; [|by apply Hold]. exists rs, r, []. split; [done|]. split; [done|].
    apply rec_change_describes in Ec. by apply (describes_same _ _ e0).
  - rewrite lookup_delete_Some. intros [_ Hk]. by apply Hold.
Qed.

(** The same records after others: only their places change. *)
Definition moved_by (d : Z) (e : Entry) : Entry := at_ (offset e + d) (version e) e.
Lemma moved_by_version d e v : set_version 0 (moved_by d (set_version v e)) = set_version 0 (moved_by d e).
Proof. done. Qed.
Lemma rec_change_moved r pos d : (rec_change r (pos + d)).2 = moved_by d <$> (rec_change r pos).2.
Proof. unfold rec_change. cbn [snd]. destruct (has_flag _ _); [done|]. by destruct (Type_from_u8 _). Qed.
Lemma apply_changes_cons st c cs : apply_changes st (c :: cs) = apply_changes (apply_change st c) cs.
Proof. done. Qed.
Lemma scan_tail tl k : Forall (fun r => fits (r_frame r)) tl → ∀ base d st st',
  let a := (apply_changes st (rec_changes base tl)).1 !! k in
  let b := (apply_changes st' (rec_changes (base + d) tl)).1 !! k in
  (a = st.1 !! k ∧ b = st'.1 !! k) ∨ (a = None ∧ b = None) ∨
  (∃ e e', a = Some e ∧ b = Some e' ∧ base ≤ offset e ∧ set_version 0 e' = set_version 0 (moved_by d e)).
Proof.
  induction 1 as [|r tl Hr _ IH]; intros base d [s q] [s' q']; [by left|]. cbn [rec_changes]. cbv zeta. rewrite !apply_changes_cons.
  pose proof (rec_change_moved r base d) as Em. pose proof (frame_len_ge _ Hr) as Hlen.
  pose proof (fun e => rec_change_describes r base e) as Hd.
  specialize (IH (base + frame_len (r_frame r)) d (apply_change (s, q) (rec_change r base)) (apply_change (s', q') (rec_change r (base + d)))).
  replace (base + frame_len (r_frame r) + d) with (base + d + frame_len (r_frame r)) in IH by lia. cbn [fst].
  destruct IH as [[-> ->]|[[-> ->]|(e & e' & -> & -> & Ho & Ee)]]; [|by right; left|right; right; exists e, e'; do 2 (split; [done|]); split; [lia|done]].
  unfold apply_change. rewrite Em. change (rec_change r (base + d)).1 with (r_key r). change (rec_change r base).1 with (r_key r).
  destruct ((rec_change r base).2) as [e|]; cbn [option_fmap option_map fmap fst]; destruct (decide (r_key r = k)) as [->|Hne].
  - right. right. rewrite !lookup_insert_eq. eexists _, _. do 2 (split; [reflexivity|]). split; [|done].
    pose proof (describes_offset _ _ _ (Hd e eq_refl)) as Ho. simpl. lia.
  - left. by rewrite !lookup_insert_ne.
  - right. left. by rewrite !lookup_delete_eq.
  - left. by rewrite !lookup_delete_ne.
Qed.

(** ** Values in the new file *)
Lemma value_in_moved ks h h' r e : len h ≤ offset e → value_in ks (h' ++ r) (moved_by (len h' - len h) e) = value_in ks (h ++ r) e.
Proof.
  intros Ho. unfold value_in. rewrite !len_app. change (Log.rec_len (moved_by _ e)) with (Log.rec_len e).
  change (offset (moved_by (len h' - len h) e)) with (offset e + (len h' - len h)). rewrite !(slice_drop _ r) by lia.
  replace (offset e + (len h' - len h) - len h') with (offset e - len h) by lia.
  replace (offset e + (len h' - len h) + Log.rec_len e - len h') with (offset e + Log.rec_len e - len h) by lia.
  replace (len h' + len r <? offset e + (len h' - len h) + Log.rec_len e) with (len h + len r <? offset e + Log.rec_len e); [done|].
  destruct (Z.ltb_spec (len h + len r) (offset e + Log.rec_len e)), (Z.ltb_spec (len h' + len r) (offset e + (len h' - len h) + Log.rec_len e)); lia || done.
Qed.
Lemma value_placed ks req h rs r rest e raw v :
  readable ks req r → len h = FILE_HEADER_LEN → describes r (FILE_HEADER_LEN + recs_len rs) e →
  unpack (r_stored r) (entry_compression e) = Ok raw → decode (e_ty e) raw (doc_enc e) = Ok v →
  value_in ks (h ++ recs_bytes rs ++ frame_bytes (r_frame r) ++ rest) e = Some v.
Proof.
  intros Hr Hh Hd Hu Hv. pose proof (frame_bytes_len _ (rd_fits _ _ _ Hr)) as Hfl. unfold value_in.
  rewrite (describes_offset _ _ _ Hd), (describes_len _ _ _ Hd), !len_app, Hfl, Hh. fold (recs_len rs). pose proof (len_nonneg rest).
  rewrite ltb_f by lia. rewrite (app_assoc h). rewrite slice_field by (rewrite ?len_app; unfold recs_len; lia).
  rewrite verify_frame by apply Hr. cbn [negb]. unfold entry_compression in Hu. by rewrite (readable_open _ _ _ Hr), Hu, Hv.
Qed.
(** The record an entry leads to, and what it stores. *)
Lemma value_located ks req h rs r rest e v :
  readable ks req r → len h = FILE_HEADER_LEN → describes r (FILE_HEADER_LEN + recs_len rs) e →
  value_in ks (h ++ recs_bytes rs ++ frame_bytes (r_frame r) ++ rest) e = Some v →
  ∃ raw, unpack (r_stored r) (entry_compression e) = Ok raw ∧ decode (e_ty e) raw (doc_enc e) = Ok v.
Proof.
  intros Hr Hh Hd. pose proof (frame_bytes_len _ (rd_fits _ _ _ Hr)) as Hfl. unfold value_in.
  rewrite (describes_offset _ _ _ Hd), (describes_len _ _ _ Hd), !len_app, Hfl, Hh. fold (recs_len rs). pose proof (len_nonneg rest).
  rewrite ltb_f by lia. rewrite (app_assoc h). rewrite slice_field by (rewrite ?len_app; unfold recs_len; lia).
  rewrite verify_frame by apply Hr. cbn [negb]. fold (entry_compression e). rewrite (readable_open _ _ _ Hr).
  destruct (unpack _ _) as [raw|]; [|done]. destruct (decode _ _ _) as [v'|] eqn:E; [|done]. intros [= ->]. by exists raw.
Qed.

(** ** Copying a record *)
(** The record [r'], at [pos], holds for [key] what [e] led to. *)
Record carries (ks : option Keys) (req : bool) (key : str) (e : Entry) (raw : bytes) (pos : Z) (r' : Rec) (ne : Entry) : Prop := {
  cr_readable : readable ks req r';
  cr_key : r_key r' = key;
  cr_txn : txn r' = false;
  cr_describes : describes r' pos ne;
  cr_unpack : unpack (r_stored r') (entry_compression ne) = Ok raw;
  cr_ty : e_ty ne = e_ty e;
  cr_enc : doc_enc ne = doc_enc e;
  cr_exp : e_expires_at ne = e_expires_at e;
  cr_raw : raw_size ne = raw_size e;
}.
Lemma comp_cases f : Z.land f FLAG_COMP_MASK ≠ 3 → Z.land f FLAG_COMP_MASK = 0 ∨ Z.land f FLAG_COMP_MASK = 1 ∨ Z.land f FLAG_COMP_MASK = 2.
Proof.
  intros Hf. change FLAG_COMP_MASK with (Z.shiftl 1 2 - 1) in *. rewrite land_ones_mod in * by lia. pose proof (Z.mod_pos_bound f (2 ^ 2) ltac:(lia)). simpl in *. lia.
Qed.
Lemma scan_raw_size_unpack h stored raw :
  Z.land (Format.flags h) FLAG_COMP_MASK ≠ 3 → len stored ≤ MAX_VALUE_LEN →
  unpack stored (Compression_from_flag (Z.land (Format.flags h) FLAG_COMP_MASK)) = Ok raw →
  scan_raw_size h stored = wrap 32 (len raw) ∧ len raw ≤ MAX_VALUE_LEN.
Proof.
  intros Hf Hl Hu. unfold scan_raw_size, has_flag. unfold unpack in Hu.
  destruct (comp_cases _ Hf) as [E|[E|E]]; rewrite E in Hu |- *; cbn [Compression_from_flag Z.land] in Hu; cbn [Z.eqb negb andb].
  - injection Hu as <-. split; [done|done].
  - change (Compression_from_flag 1) with CLz4 in Hu. destruct (Z.ltb_spec (len stored) 4); [done|]. rewrite leb_t by lia.
    destruct (Z.ltb_spec MAX_VALUE_LEN (le_val (take 4 stored))); [done|]. apply result_bind_ok in Hu as (x & _ & Hu).
    destruct (Z.eqb_spec (len x) (le_val (take 4 stored))) as [Ex|]; [|done]. injection Hu as <-. split; [|lia].
    rewrite Ex, wrap_small; [done|]. pose proof (len_nonneg x). unfold in_u, MAX_VALUE_LEN in *. lia.
  - change (Compression_from_flag 2) with CZlib in Hu. destruct (Z.ltb_spec (len stored) 4); [done|]. rewrite leb_t by lia.
    destruct (Z.ltb_spec MAX_VALUE_LEN (le_val (take 4 stored))); [done|]. apply result_bind_ok in Hu as (x & _ & Hu).
    destruct (Z.eqb_spec (len x) (le_val (take 4 stored))) as [Ex|]; [|done]. injection Hu as <-. split; [|lia].
    rewrite Ex, wrap_small; [done|]. pose proof (len_nonneg x). unfold in_u, MAX_VALUE_LEN in *. lia.
Qed.
Lemma describes_raw r pos e raw : describes r pos e → movable r → unpack (r_stored r) (entry_compression e) = Ok raw →
  raw_size e = wrap 32 (len raw) ∧ len raw ≤ MAX_VALUE_LEN.
Proof.
  intros Hd Hm Hu. unfold entry_compression in Hu. rewrite (describes_flags _ _ _ Hd) in Hu.
  destruct (scan_raw_size_unpack (frame_header (r_frame r)) (r_stored r) raw) as [Er Hr]; [apply Hm|apply Hm|exact Hu|].
  split; [|done]. rewrite <- Er. destruct Hd as [_ _ Ee]. by injection Ee.
Qed.
(** The flags of a record that is written again. *)
Lemma moved_flags a c E : (c = 0 ∨ c = 1 ∨ c = 2) → (E = 0 ∨ E = FLAG_ENCRYPTED) →
  let fl := Z.lor (Z.land a (Z.lor FLAG_MSGPACK FLAG_KDOC)) c in
  has_flag fl FLAG_ENCRYPTED = false ∧ has_flag fl FLAG_TOMBSTONE = false ∧ has_flag fl FLAG_TXN = false ∧
  Z.land (Z.lor fl E) FLAG_COMP_MASK = c ∧ DocEnc_from_flags (Z.lor fl E) = DocEnc_from_flags a.
Proof.
  intros Hc HE fl. assert (DocEnc_from_flags a = DocEnc_from_flags (Z.land a (Z.lor FLAG_MSGPACK FLAG_KDOC))) as ->.
  { unfold DocEnc_from_flags, has_flag. by rewrite <- !Z.land_assoc. }
  assert (Z.land a (Z.lor FLAG_MSGPACK FLAG_KDOC) = Z.land (a mod 32) (Z.lor FLAG_MSGPACK FLAG_KDOC)) as Ea.
  { change 32 with (2 ^ 5). rewrite <- land_ones_mod by lia. rewrite <- Z.land_assoc. done. }
  subst fl. rewrite Ea. pose proof (Z.mod_pos_bound a 32 ltac:(lia)) as Hb. revert Hb. generalize (a mod 32). intros x Hx.
  assert (Z.land x (Z.lor FLAG_MSGPACK FLAG_KDOC) ∈ [0; 4; 16; 20]) as Hin.
  { assert (In x (List.map Z.of_nat (List.seq 0 32))) as Hi by (apply in_map_iff; exists (Z.to_nat x); split; [lia|apply in_seq; lia]).
    assert (forallb (fun x => bool_decide (Z.land x (Z.lor FLAG_MSGPACK FLAG_KDOC) ∈ [0; 4; 16; 20])) (List.map Z.of_nat (List.seq 0 32)) = true) as Hall by done.
    rewrite forallb_forall in Hall. by apply Hall, bool_decide_eq_true_1 in Hi. }
  revert Hin. generalize (Z.land x (Z.lor FLAG_MSGPACK FLAG_KDOC)). intros y Hy. rewrite !list_elem_of_In in Hy.
  destruct Hc as [->|[->| ->]], HE as [->| ->]; destruct Hy as [<-|[<-|[<-|[<-|[]]]]]; done.
Qed.
Lemma expiry_to_ms_i64 x : in_i64 x → in_i64 (expiry_to_ms x).
Proof. unfold expiry_to_ms, in_i64, i64_min, i64_max. intros Hx. destruct (Z.ltb_spec 0 x), (Z.ltb_spec x 100000000000); cbn [andb]; lia. Qed.
Lemma open_key_len ks f k v : fits f → open_record ks (frame_bytes f) = Ok (k, v) → len k = f_klen f.
Proof.
  intros Hf. pose proof (fit_body _ Hf) as Hb. destruct (fit_k _ Hf) as [Hk _]. destruct (fit_v _ Hf) as [Hv _].
  assert (∀ l : bytes, f_klen f ≤ len l → len (take (Z.to_nat (f_klen f)) l) = f_klen f) as Ht by (intros l Hl; unfold len in *; rewrite length_take; lia).
  destruct (has_flag (f_flags f) FLAG_ENCRYPTED) eqn:E.
  - rewrite open_frame_sealed by done. destruct (open_with _ _ _ _) as [plain|]; [|done]. cbn [mbind result_bind].
    destruct (Z.ltb_spec (len plain) (f_klen f)); [done|]. intros [= <- _]. by apply Ht.
  - rewrite open_frame_plain by done. intros [= <- _]. apply Ht. lia.
Qed.
(** Writing it again. *)
Lemma carries_written ks req key e raw pos r r' pos' fl stored2 n c E :
  describes r pos e → movable r → readable ks req r → r_key r = key → unpack (r_stored r) (entry_compression e) = Ok raw →
  (c = 0 ∨ c = 1 ∨ c = 2) → (E = 0 ∨ E = FLAG_ENCRYPTED) →
  fl = Z.lor (Z.land (e_flags e) (Z.lor FLAG_MSGPACK FLAG_KDOC)) c →
  r' = write_rec ks {| w_key := key; w_value := stored2; w_ty := Type_code (e_ty e); w_flags := fl; w_ts := e_timestamp e;
                       w_exp := e_expires_at e; w_nonce := n |} →
  f_flags (r_frame r') = Z.lor fl E → keys_read ks req ks → keys_ok ks n →
  len stored2 ≤ MAX_VALUE_LEN → unpack stored2 (Compression_from_flag c) = Ok raw →
  carries ks req key e raw pos' r' {| offset := pos'; ek_size := ek_size e; ev_size := f_vlen (r_frame r'); raw_size := raw_size e; e_ty := e_ty e;
    e_flags := f_flags (r_frame r'); e_timestamp := e_timestamp e; e_expires_at := e_expires_at e; version := version e |}.
Proof.
  intros Hd Hm Hr Hkey Hu Hc HE Efl Er Ef Hkr Hnn Hlen Hu2. destruct (moved_flags (e_flags e) c E Hc HE) as (F1 & F2 & F3 & F4 & F5).
  rewrite <- Efl in *. pose proof (rd_fits _ _ _ Hr) as Hfits.
  assert (ek_size e = f_klen (r_frame r) ∧ e_timestamp e = f_ts (r_frame r) ∧ e_expires_at e = expiry_to_ms (f_exp (r_frame r))) as (Ek & Ets & Eexp).
  { destruct Hd as [_ _ Ee]. by injection Ee. }
  assert (str_len key = f_klen (r_frame r)) as Elen.
  { rewrite <- Hkey. by apply (open_key_len _ _ _ _ Hfits (readable_open _ _ _ Hr)). }
  assert (readable ks req r') as Hr'.
  { subst r'. apply (write_readable ks req ks _ Hkr). split; cbn; try done.
    - split; cbn; [rewrite Elen; apply Hfits| |rewrite Ets; apply Hfits|rewrite Eexp; by apply expiry_to_ms_i64, Hfits].
      unfold in_u, TRAILER, NONCE_LEN, MAX_VALUE_LEN in *. pose proof (len_nonneg stored2). lia.
    - rewrite Elen. apply Hr.
    - rewrite <- Hkey. apply Hr.
    - right. rewrite Type_from_u8_code. by eexists. }
  assert (r_key r' = key ∧ r_stored r' = stored2 ∧ f_klen (r_frame r') = str_len key ∧ f_ts (r_frame r') = e_timestamp e ∧
    f_exp (r_frame r') = e_expires_at e ∧ f_ty (r_frame r') = Type_code (e_ty e)) as (W1 & W2 & W3 & W4 & W5 & W6) by (subst r'; by destruct ks).
  assert (∀ m, has_flag FLAG_ENCRYPTED m = false → has_flag (f_flags (r_frame r')) m = has_flag fl m) as Hfl.
  { intros m Hm'. rewrite Ef, has_flag_lor. destruct HE as [->| ->]; [|rewrite Hm']; unfold has_flag at 2; by rewrite orb_false_r. }
  assert (Z.land (f_flags (r_frame r')) FLAG_COMP_MASK = c) as Ec by (by rewrite Ef). destruct (describes_raw _ _ _ _ Hd Hm Hu) as [Eraw Hraw].
  split; cbn [entry_compression e_flags e_ty doc_enc e_expires_at raw_size]; try done.
  - unfold txn. by rewrite Hfl.
  - split; cbn [e_ty].
    + unfold tomb. by rewrite Hfl.
    + rewrite W6. apply Type_from_u8_code.
    + destruct (scan_raw_size_unpack (frame_header (r_frame r')) stored2 raw) as [Es _]; cbn [Format.flags frame_header]; rewrite ?Ec; [lia|done|done|].
      unfold set_version, scan_entry. cbn [offset ek_size ev_size raw_size e_ty e_flags e_timestamp e_expires_at k_size v_size Format.flags timestamp expires_at frame_header].
      rewrite W2, Es, <- Eraw, W3, Elen, <- Ek, W4, W5. by rewrite Eexp, (mv_ms _ Hm).
  - unfold entry_compression. cbn [e_flags]. by rewrite W2, Ec.
  - unfold doc_enc. cbn [e_flags]. by rewrite Ef.
Qed.
Lemma rewrite_record_ok ks req rc key e raw pos r pos' nonce wrong :
  describes r pos e → movable r → readable ks req r → r_key r = key → unpack (r_stored r) (entry_compression e) = Ok raw →
  keys_read ks req ks → nonce_pre ks nonce →
  match rewrite_record ks rc (frame_bytes (r_frame r)) pos' nonce key e wrong with
  | Ok (Some (rec, ne)) => ∃ r', rec = frame_bytes (r_frame r') ∧ carries ks req key e raw pos' r' ne
  | Ok None => False
  | Err _ => True
  end.
Proof.
  intros Hd Hm Hr Hkey Hu Hkr Hn. unfold rewrite_record. rewrite (readable_open _ _ _ Hr). destruct (describes_raw _ _ _ _ Hd Hm Hu) as [_ Hraw].
  set (packed := if wrong then _ else _).
  assert (∃ stored2 c, packed = Some (stored2, c) ∧ (c = 0 ∨ c = 1 ∨ c = 2) ∧ len stored2 ≤ MAX_VALUE_LEN ∧
    unpack stored2 (Compression_from_flag c) = Ok raw) as (stored2 & c & -> & Hc & Hl & Hu2).
  { subst packed. destruct wrong.
    - rewrite Hu. destruct (pack raw (default CNone rc)) as [s c] eqn:Ep. exists s, c. split; [done|].
      pose proof (pack_flag raw (default CNone rc)) as Hpf. pose proof (pack_len raw (default CNone rc)) as Hpl. pose proof (unpack_of_pack raw (default CNone rc) Hraw) as Hpu.
      rewrite Ep in *. cbn [fst snd] in *. split; [done|]. split; [lia|done].
    - eexists _, _. split; [reflexivity|]. split; [|split; [apply Hm|exact Hu]]. rewrite (describes_flags _ _ _ Hd). apply comp_cases, Hm. }
  set (fl := Z.lor _ c).
  assert (∃ nn, keys_ok ks nn ∧ encode_record ks key stored2 (Type_code (e_ty e)) fl (e_timestamp e) (e_expires_at e) nonce =
            Ok (frame_bytes (record_frame ks key stored2 (Type_code (e_ty e)) fl (e_timestamp e) (e_expires_at e) nn))
          ∨ ∃ err, encode_record ks key stored2 (Type_code (e_ty e)) fl (e_timestamp e) (e_expires_at e) nonce = Err err) as [nn [[Hnn ->]|[err ->]]]; [| |done].
  { destruct nonce as [nn|].
    - exists nn. left. rewrite encode_record_frame. split; [by apply Hn|done].
    - exists []. destruct ks as [k|]; [right; by eexists|left; done]. }
  cbn [mbind result_bind].
  set (w := {| w_key := key; w_value := stored2; w_ty := Type_code (e_ty e); w_flags := fl; w_ts := e_timestamp e; w_exp := e_expires_at e; w_nonce := nn |}).
  change (record_frame ks key stored2 (Type_code (e_ty e)) fl (e_timestamp e) (e_expires_at e) nn) with (r_frame (write_rec ks w)).
  assert (∃ E, (E = 0 ∨ E = FLAG_ENCRYPTED) ∧ f_flags (r_frame (write_rec ks w)) = Z.lor fl E) as (E & HE & Ef).
  { destruct ks; [exists FLAG_ENCRYPTED|exists 0]; (split; [tauto|]); [done|by rewrite Z.lor_0_r]. }
  pose proof (carries_written ks req key e raw pos r (write_rec ks w) pos' fl stored2 nn c E Hd Hm Hr Hkey Hu Hc HE eq_refl eq_refl Ef Hkr Hnn Hl Hu2) as Hcar.
  pose proof (parse_frame _ [] (rd_fits _ _ _ (cr_readable _ _ _ _ _ _ _ _ Hcar))) as Hp. rewrite app_nil_r in Hp. rewrite Hp.
  exists (write_rec ks w). split; [done|exact Hcar].
Qed.
Lemma copy_record_ok ks req rc h pre r rest key e v pos' nonce :
  len h = FILE_HEADER_LEN → describes r (FILE_HEADER_LEN + recs_len pre) e → movable r → readable ks req r → r_key r = key →
  keys_read ks req ks → nonce_pre ks nonce →
  let f := h ++ recs_bytes pre ++ frame_bytes (r_frame r) ++ rest in
  value_in ks f e = Some v →
  match copy_record ks rc f pos' nonce key e with
  | Ok (Some (rec, ne)) => ∃ r' raw, rec = frame_bytes (r_frame r') ∧ carries ks req key e raw pos' r' ne ∧ decode (e_ty e) raw (doc_enc e) = Ok v
  | Ok None => False
  | Err _ => True
  end.
Proof.
  intros Hh Hd Hm Hr Hkey Hkr Hn f Hv. destruct (value_located ks req h pre r rest e v Hr Hh Hd Hv) as (raw & Hu & Hdec).
  pose proof (frame_bytes_len _ (rd_fits _ _ _ Hr)) as Hfl. unfold copy_record.
  assert (slice (offset e) (offset e + Log.rec_len e) f = frame_bytes (r_frame r)) as ->.
  { rewrite (describes_offset _ _ _ Hd), (describes_len _ _ _ Hd). subst f. rewrite app_assoc.
    apply slice_field; rewrite ?len_app; unfold recs_len; lia. }
  rewrite ltb_f by (rewrite (describes_offset _ _ _ Hd), (describes_len _ _ _ Hd); subst f; rewrite !len_app; pose proof (len_nonneg rest); unfold recs_len; lia).
  rewrite verify_frame by apply Hr. cbn [negb]. unfold rewrites. destruct (_ || _) eqn:Eagain.
  - pose proof (rewrite_record_ok ks req rc key e raw _ r pos' nonce (match rc with Some c => negb (bool_decide (c = entry_compression e)) | None => false end)
      Hd Hm Hr Hkey Hu Hkr Hn) as Hw. destruct (rewrite_record _ _ _ _ _ _ _ _) as [[[rec ne]|]|]; [|done..].
    destruct Hw as (r' & -> & Hc). by exists r', raw.
  - exists r, raw. split; [done|]. split; [|done]. rewrite !orb_false_iff in Eagain. destruct Eagain as [[Etx _] _].
    split; try done.
    + unfold txn. rewrite <- (describes_flags _ _ _ Hd). unfold has_flag in *. apply negb_false_iff, Z.eqb_eq in Etx.
      rewrite Z.land_lor_distr_r in Etx. apply Z.lor_eq_0_iff in Etx as [-> _]. done.
    + destruct Hd as [D1 D2 D3]. split; [done..|]. injection D3 as E1 E2 E3 E4 E5 E6 E7. unfold set_version, at_, scan_entry in *. cbn in *. congruence.
Qed.

(** The copy of the records of [l], which are now [ms]. *)
Record copied (ks : option Keys) (req : bool) (f : bytes) (new_id : Z) (l : list (str * Entry)) (ms : list Rec) (c : Copy) : Prop := {
  cp_out : c_out c = file_header new_id FORMAT_V1 ++ recs_bytes ms;
  cp_pos : c_pos c = FILE_HEADER_LEN + recs_len ms;
  cp_dropped : c_dropped c = 0;
  cp_recs : Forall (fun r => readable ks req r ∧ txn r = false) ms;
  cp_none : ∀ k, k ∉ l.*1 → c_moved c !! k = None ∧ scanned FILE_HEADER_LEN ms !! k = None;
  cp_some : ∀ k e, (k, e) ∈ l → ∃ ne s, c_moved c !! k = Some (offset e, ne) ∧ scanned FILE_HEADER_LEN ms !! k = Some s ∧
    set_version 0 ne = set_version 0 s ∧ e_expires_at ne = e_expires_at e ∧ FILE_HEADER_LEN ≤ offset ne ∧ raw_size ne = raw_size e ∧
    is_Some (value_in ks f e) ∧ value_in ks (c_out c) ne = value_in ks f e;
}.
Lemma copied_fits ks req f id l ms c : copied ks req f id l ms c → Forall (fun r => fits (r_frame r)) ms.
Proof. intros Hc. eapply Forall_impl; [apply (cp_recs _ _ _ _ _ _ _ Hc)|]. intros r [Hr _]. apply Hr. Qed.
Lemma copied_step ks req f id l ms c key e raw v r' ne :
  copied ks req f id l ms c → key ∉ l.*1 → value_in ks f e = Some v →
  carries ks req key e raw (c_pos c) r' ne → decode (e_ty e) raw (doc_enc e) = Ok v →
  copied ks req f id (l ++ [(key, e)]) (ms ++ [r'])
    {| c_out := c_out c ++ frame_bytes (r_frame r'); c_pos := c_pos c + len (frame_bytes (r_frame r'));
       c_moved := <[key := (offset e, ne)]> (c_moved c); c_dropped := c_dropped c; c_nonce := S (c_nonce c) |}.
Proof.
  intros Hc Hfresh Hv Hcar Hdec. pose proof (copied_fits _ _ _ _ _ _ _ Hc) as Hfits. destruct Hc as [Ho Hp Hdr Hr Hnone Hsome].
  destruct Hcar as [C1 C2 C3 C4 C5 C6 C7 C8 C9]. pose proof (recs_len_nonneg ms) as Hms.
  assert ((rec_change r' (FILE_HEADER_LEN + recs_len ms)).2 = Some (scan_entry (frame_header (r_frame r')) (c_pos c) (e_ty ne) (r_stored r'))) as Echange.
  { unfold rec_change. cbn [snd]. pose proof (ds_tomb _ _ _ C4) as Ht. unfold tomb in Ht. rewrite Ht, (ds_ty _ _ _ C4), <- Hp. done. }
  assert (recs_bytes (ms ++ [r']) = recs_bytes ms ++ frame_bytes (r_frame r')) as Eb.
  { rewrite recs_bytes_app, recs_bytes_cons. change (recs_bytes []) with (@nil Z). by rewrite app_nil_r. }
  split; cbn [c_out c_pos c_moved c_dropped].
  - by rewrite Ho, Eb, <- app_assoc.
  - unfold recs_len in *. rewrite Eb, len_app, Hp. lia.
  - done.
  - apply Forall_app. split; [done|]. by apply Forall_singleton.
  - intros k Hk. rewrite fmap_app, elem_of_app in Hk. cbn [fmap list_fmap fst] in Hk. destruct (Hnone k) as [N1 N2]; [tauto|].
    rewrite scanned_snoc, Echange, C2 by done. assert (key ≠ k) as Hne by (intros ->; apply Hk; right; by left). by rewrite !lookup_insert_ne.
  - intros k e' Hin. apply elem_of_app in Hin as [Hin|Hin].
    + destruct (Hsome k e' Hin) as (ne' & s & M1 & M2 & M3 & M4 & M5 & M6 & [x M7] & M8).
      assert (key ≠ k) as Hne by (intros ->; apply Hfresh, list_elem_of_fmap; by exists (k, e')).
      exists ne', s. rewrite scanned_snoc, Echange, C2, !lookup_insert_ne by done. do 6 (split; [done|]). split; [by exists x|].
      rewrite M7 in M8 |- *. apply value_in_app; [unfold FILE_HEADER_LEN in M5; lia|done].
    + apply list_elem_of_singleton in Hin as [= -> ->].
      exists ne, (set_version ((apply_changes (∅, 0) (rec_changes FILE_HEADER_LEN ms)).2 + 1) (scan_entry (frame_header (r_frame r')) (c_pos c) (e_ty ne) (r_stored r'))).
      rewrite scanned_snoc, Echange, C2, !lookup_insert_eq by done. do 2 (split; [done|]). split; [apply C4|]. split; [done|].
      rewrite (describes_offset _ _ _ C4). split; [lia|]. split; [done|]. split; [by exists v|].
      rewrite Hv, Ho, <- app_assoc. pose proof (value_placed ks req (file_header id FORMAT_V1) ms r' [] ne raw v) as Hpl.
      rewrite app_nil_r in Hpl. apply Hpl; [done|apply file_header_len|by rewrite <- Hp|done|]. by rewrite C6, C7.
Qed.
Lemma copy_records_ok ks req rc fid fmt rs x io id : ∀ l2 l1 ms c,
  let f := file_header fid fmt ++ recs_bytes rs ++ x in
  NoDup (l1 ++ l2).*1 → Forall (readable ks req) rs → Forall movable rs → keys_read ks req ks → (∀ n, nonce_pre ks (io_nonce io n)) →
  (∀ k e, (k, e) ∈ l2 → is_Some (value_in ks f e) ∧ ∃ pre r post, rs = pre ++ r :: post ∧ r_key r = k ∧ describes r (FILE_HEADER_LEN + recs_len pre) e) →
  copied ks req f id l1 ms c →
  match copy_records ks rc f io l2 c with
  | Ok c' => ∃ ms', copied ks req f id (l1 ++ l2) ms' c'
  | Err _ => True
  end.
Proof.
  induction l2 as [|[key e] l2 IH]; intros l1 ms c f Hnd Hr Hm Hkr Hn Hl2 Hc; cbn [copy_records].
  - rewrite app_nil_r. by exists ms.
  - destruct (Hl2 key e) as ([v Hv] & pre & r & post & Ers & Hkey & Hd); [left|].
    assert (f = file_header fid fmt ++ recs_bytes pre ++ frame_bytes (r_frame r) ++ recs_bytes post ++ x) as Ef.
    { subst f. rewrite Ers, recs_bytes_app, recs_bytes_cons, <- !app_assoc. done. }
    assert (readable ks req r ∧ movable r) as [Hr0 Hm0].
    { rewrite Forall_forall in Hr, Hm. assert (r ∈ rs) as Hin by (rewrite Ers; apply elem_of_app; right; left). split; [by apply Hr|by apply Hm]. }
    pose proof (copy_record_ok ks req rc (file_header fid fmt) pre r (recs_bytes post ++ x) key e v (c_pos c) (io_nonce io (c_nonce c))
      (file_header_len _ _) Hd Hm0 Hr0 Hkey Hkr (Hn _)) as Hcopy. rewrite <- Ef in Hcopy. specialize (Hcopy Hv).
    destruct (copy_record _ _ _ _ _ _ _) as [[[rec ne]|]|]; [|done..]. destruct Hcopy as (r' & raw & -> & Hcar & Hdec).
    cbn [mbind result_bind]. rewrite cons_middle, app_assoc in Hnd |- *.
    assert (key ∉ l1.*1) as Hfresh.
    { rewrite fmap_app in Hnd. apply NoDup_app in Hnd as (Hnd & _). rewrite fmap_app in Hnd. apply NoDup_app in Hnd as (_ & Hdis & _). intros Hin. apply (Hdis key Hin). by left. }
    eapply IH; [exact Hnd|done..| |].
    + intros k e' Hin. apply Hl2. by right.
    + by eapply copied_step.
Qed.

(** ** Bringing over the rest *)
(** What the operations that ran during the copy leave: a state [i2] of a
    longer log, of which the older part gained nothing. *)
Record went_on (req : bool) (t1 t2 : Z) (rs tl : list Rec) (i1 i2 : Inner) : Prop := {
  wo_before : inv req t1 rs [] i1;
  wo_after : inv req t2 (rs ++ tl) [] i2;
  wo_time : t1 ≤ t2;
  wo_keys : keys (conf i2) = keys (conf i1);
  wo_old : ∀ k e, index (mem i2) !! k = Some e → offset e < FILE_HEADER_LEN + recs_len rs → index (mem i1) !! k = Some e;
}.
Definition snapshot_of (i : Inner) : Snapshot := {| snap := entries (index (mem i)); snap_len := file_len i; old_id := file_id (disk i) |}.
(** Every key of the index is found in the new file, as the scan of it says. *)
Lemma relocate_ok req t1 t2 rs tl i1 i2 id ms c k :
  went_on req t1 t2 rs tl i1 i2 → copied (keys (conf i1)) req (file (disk i1)) id (snap (snapshot_of i1)) ms c →
  let d := recs_len ms - recs_len rs in
  match index (mem i2) !! k, scanned FILE_HEADER_LEN (ms ++ tl) !! k with
  | Some cur, Some s => ∃ ne, relocate (snapshot_of i1) c k cur = Some ne ∧ set_version 0 ne = set_version 0 s ∧
      e_expires_at ne = e_expires_at cur ∧ version ne = version cur ∧ raw_size ne = raw_size cur ∧ FILE_HEADER_LEN ≤ offset ne ∧
      ((FILE_HEADER_LEN + recs_len rs ≤ offset cur ∧ ne = moved_by d cur) ∨
       (offset cur < FILE_HEADER_LEN + recs_len rs ∧ index (mem i1) !! k = Some cur ∧ is_Some (value_in (keys (conf i1)) (file (disk i1)) cur) ∧
        value_in (keys (conf i1)) (c_out c) ne = value_in (keys (conf i1)) (file (disk i1)) cur))
  | None, Some s => is_expired s t2 = true
  | Some _, None => False
  | None, None => True
  end.
Proof.
  intros [Hi1 Hi2 Ht Hk Hold] Hc d. pose proof (copied_fits _ _ _ _ _ _ _ Hc) as Hfm.
  assert (Forall (fun r => fits (r_frame r)) tl ∧ Forall (readable (keys (conf i1)) req) ms ∧ Forall (readable (keys (conf i2)) req) rs) as (Hft & Hrm & Hrr).
  { pose proof (inv_fits _ _ _ _ _ Hi2) as Hf. apply Forall_app in Hf as [_ ?]. split; [done|]. split.
    - eapply Forall_impl; [apply (cp_recs _ _ _ _ _ _ _ Hc)|]. by intros r [? _].
    - pose proof (iv_read _ _ _ _ _ Hi2) as Hr. rewrite app_nil_r in Hr. by apply Forall_app in Hr as [? _]. }
  pose proof (iv_agree _ _ _ _ _ Hi2 k) as Ha2. pose proof (iv_agree _ _ _ _ _ Hi1 k) as Ha1. pose proof (inv_file_len _ _ _ _ Hi1) as Hlen.
  unfold scanned. rewrite (rec_changes_app (keys (conf i1)) req) by done. rewrite (rec_changes_app (keys (conf i2)) req) in Ha2 by done.
  rewrite apply_changes_app in Ha2 |- *.
  pose proof (scan_tail tl k Hft (FILE_HEADER_LEN + recs_len rs) d (apply_changes (∅, 0) (rec_changes FILE_HEADER_LEN rs))
    (apply_changes (∅, 0) (rec_changes FILE_HEADER_LEN ms))) as Htail. cbv zeta in Htail.
  replace (FILE_HEADER_LEN + recs_len rs + d) with (FILE_HEADER_LEN + recs_len ms) in Htail by lia.
  pose proof (scanned_located FILE_HEADER_LEN rs k) as Hloc. fold (scanned FILE_HEADER_LEN rs) in *. fold (scanned FILE_HEADER_LEN ms) in *.
  revert Ha2 Htail. generalize ((apply_changes (apply_changes (∅, 0) (rec_changes FILE_HEADER_LEN rs)) (rec_changes (FILE_HEADER_LEN + recs_len rs) tl)).1 !! k).
  generalize ((apply_changes (apply_changes (∅, 0) (rec_changes FILE_HEADER_LEN ms)) (rec_changes (FILE_HEADER_LEN + recs_len ms) tl)).1 !! k).
  intros b a Ha2 [[-> ->]|[[-> ->]|(es & s & -> & -> & Ho & Es)]].
  - destruct (index (mem i2) !! k) as [cur|] eqn:E2.
    + destruct (scanned FILE_HEADER_LEN rs !! k) as [es|] eqn:E1; [|done].
      destruct (Hloc es (Forall_impl _ _ _ Hrr (fun r H => rd_fits _ _ _ H)) eq_refl) as (pre & r & post & Ers & _ & Hd).
      assert (offset cur = FILE_HEADER_LEN + recs_len pre) as Eo by (rewrite <- (describes_offset _ _ _ Hd); by injection Ha2).
      assert (recs_len pre < recs_len rs) as Hlt.
      { rewrite Ers in Hrr |- *. apply Forall_app in Hrr as [_ Hrr]. apply Forall_cons in Hrr as [Hr _]. rewrite recs_len_app, recs_len_cons by apply Hr.
        pose proof (frame_len_ge _ (rd_fits _ _ _ Hr)). pose proof (recs_len_nonneg post). lia. }
      pose proof (Hold k cur E2 ltac:(lia)) as E1'. destruct (cp_some _ _ _ _ _ _ _ Hc k cur) as (ne & s & M1 & M2 & M3 & M4 & M5 & M6 & M7 & M8);
        [by apply elem_of_entries|]. rewrite M2. exists (set_version (version cur) ne). unfold relocate. cbn [snap_len snapshot_of].
      rewrite leb_f by lia. rewrite M1, Z.eqb_refl. do 6 (split; [done|]). right. split; [lia|]. split; [done|]. split; done.
    + destruct (scanned FILE_HEADER_LEN ms !! k) as [s|] eqn:Es; [|done].
      destruct (decide (k ∈ (snap (snapshot_of i1)).*1)) as [Hin|Hnin]; [|destruct (cp_none _ _ _ _ _ _ _ Hc k Hnin); congruence].
      apply list_elem_of_fmap in Hin as ([k' e1] & Ek & Hin). cbn [fst] in Ek. subst k'. pose proof (proj1 (elem_of_entries _ _ _) Hin) as E1. rewrite E1 in Ha1.
      destruct (cp_some _ _ _ _ _ _ _ Hc k e1 Hin) as (ne & s' & _ & M2 & M3 & M4 & _). rewrite Es in M2. injection M2 as <-.
      destruct (scanned FILE_HEADER_LEN rs !! k) as [es|]; [|done]. unfold is_expired in *.
      by rewrite <- (set_version_expires _ _ M3), M4, (set_version_expires _ _ Ha1).
  - by destruct (index (mem i2) !! k).
  - destruct (index (mem i2) !! k) as [cur|] eqn:E2.
    + assert (offset cur = offset es) as Eo by (by injection Ha2). exists (moved_by d cur). unfold relocate. cbn [snap_len snapshot_of].
      rewrite leb_t by lia. split.
      { unfold moved_by. do 2 f_equal. rewrite Hlen, (cp_pos _ _ _ _ _ _ _ Hc). lia. }
      split; [rewrite Es; clear - Ha2; unfold moved_by, set_version, at_ in *; injection Ha2; intros; cbn in *; congruence|].
      do 3 (split; [done|]). split; [unfold moved_by; cbn; pose proof (recs_len_nonneg ms); lia|]. left. split; [lia|done].
    + unfold is_expired in *. by rewrite (set_version_expires _ _ Es).
Qed.
(** Its value there is the one it had. *)
Lemma relocate_value req t1 t2 rs tl i1 i2 id ms c fmt k cur ne :
  went_on req t1 t2 rs tl i1 i2 → copied (keys (conf i1)) req (file (disk i1)) id (snap (snapshot_of i1)) ms c →
  index (mem i2) !! k = Some cur → relocate (snapshot_of i1) c k cur = Some ne →
  value_in (keys (conf i2)) (file_header id fmt ++ recs_bytes (ms ++ tl)) ne = value_in (keys (conf i2)) (file (disk i2)) cur.
Proof.
  intros Hw Hc Hk Hre. pose proof (relocate_ok _ _ _ _ _ _ _ _ _ _ k Hw Hc) as Hr. cbv zeta in Hr. rewrite Hk in Hr.
  destruct (scanned _ _ !! k) as [s|]; [|done]. destruct Hr as (ne' & E & _ & _ & _ & _ & Hof & Hcase). rewrite Hre in E. injection E as <-.
  destruct Hw as [Hi1 Hi2 _ Hks _]. rewrite (iv_file _ _ _ _ _ Hi2), !app_nil_r, !recs_bytes_app, Hks.
  destruct Hcase as [[Ho ->]|(Ho & Hk1 & [v Hv] & Hval)].
  - rewrite !app_assoc. set (h := file_header (file_id (disk i2)) (format (disk i2)) ++ recs_bytes rs).
    set (h' := file_header id fmt ++ recs_bytes ms).
    assert (len h = FILE_HEADER_LEN + recs_len rs ∧ len h' = FILE_HEADER_LEN + recs_len ms) as [L1 L2] by (subst h h'; by rewrite !len_app, !file_header_len).
    replace (recs_len ms - recs_len rs) with (len h' - len h) by lia. apply value_in_moved. lia.
  - rewrite Hv in Hval. pose proof (iv_vals _ _ _ _ _ Hi1 k cur Hk1) as (Ho1 & _).
    assert (∀ a b h h' r x e, len h = FILE_HEADER_LEN → len h' = FILE_HEADER_LEN → FILE_HEADER_LEN ≤ offset e → b = h ++ r →
      value_in a b e = Some x → ∀ y, value_in a (h' ++ r ++ y) e = Some x) as Happ.
    { intros a b h h' r x e Lh Lh' Hoe -> Hx y. rewrite app_assoc. apply value_in_app; [unfold FILE_HEADER_LEN in Hoe; lia|].
      rewrite (value_in_header _ _ h) by lia. done. }
    rewrite (Happ _ _ (file_header id FORMAT_V1) (file_header id fmt) (recs_bytes ms) v ne (file_header_len _ _) (file_header_len _ _) Hof (cp_out _ _ _ _ _ _ _ Hc) Hval).
    symmetry. pose proof (iv_file _ _ _ _ _ Hi1) as Hf1. rewrite app_nil_r in Hf1.
    by apply (Happ _ _ _ _ _ v cur (file_header_len _ _) (file_header_len _ _) Ho1 Hf1 Hv).
Qed.
(** The state that holds the new file and the new index. *)
Definition swapped (io : CompactIo) (id : Z) (s : Snapshot) (c : Copy) (out : bytes) (i : Inner) : Inner :=
  let d := disk i in let m := mem i in let t := txns i in
  let i := set_mem {| index := map_imap (relocate s c) (index m); live_bytes := live_bytes m; expiry := expiry m; key_bytes := key_bytes m;
                      sec := sec m; cache := cache m |} i in
  let i := set_disk {| file := out; file_id := id; format := format d; unsynced := if io_hint io then false else unsynced d;
                       closed := closed d; corrupted_detected := corrupted_detected d + c_dropped c |} i in
  let i := recount i in
  if io_hint io then
    set_txns {| eseq := eseq t; active_txns := active_txns t; tomb_versions := tomb_versions t; reset_seq := reset_seq t; dirty_ops := 0 |} i
  else i.
Lemma swapped_fields io id s c out i :
  file (disk (swapped io id s c out i)) = out ∧ file_id (disk (swapped io id s c out i)) = id ∧ format (disk (swapped io id s c out i)) = format (disk i) ∧
  index (mem (swapped io id s c out i)) = map_imap (relocate s c) (index (mem i)) ∧ sec (mem (swapped io id s c out i)) = sec (mem i) ∧
  cache (mem (swapped io id s c out i)) = cache (mem i) ∧ conf (swapped io id s c out i) = conf i ∧
  eseq (txns (swapped io id s c out i)) = eseq (txns i).
Proof. unfold swapped. by destruct (io_hint io). Qed.
Lemma swapped_mem_ok io id s c out i : mem_ok (mem i) → mem_ok (mem (swapped io id s c out i)).
Proof. intros [_ _ _ Hs Hc]. unfold swapped. destruct (io_hint io); by apply recount_ok. Qed.
Lemma compact_end_eq req t1 t2 rs tl i1 i2 io id ms c :
  went_on req t1 t2 rs tl i1 i2 → copied (keys (conf i1)) req (file (disk i1)) id (snap (snapshot_of i1)) ms c →
  file_id (disk i2) = file_id (disk i1) →
  match compact_end io id (snapshot_of i1) c i2 with
  | (Ok r, i3) => (closed (disk i2) = true ∧ aborted r = true ∧ i3 = i2) ∨
      (aborted r = false ∧ dropped_corrupted r = 0 ∧ after_bytes r = FILE_HEADER_LEN + recs_len (ms ++ tl) ∧
       i3 = swapped io id (snapshot_of i1) c (file_header id (format (disk i2)) ++ recs_bytes (ms ++ tl)) i2)
  | (Err _, i3) => i3 = i2
  end.
Proof.
  intros Hw Hc Hfid. pose proof (fun k => relocate_ok _ _ _ _ _ _ _ _ _ _ k Hw Hc) as Hre. cbv zeta in Hre.
  destruct Hw as [Hi1 Hi2 Ht Hks Hold]. pose proof (inv_file_len _ _ _ _ Hi1) as L1. pose proof (inv_file_len _ _ _ _ Hi2) as L2.
  rewrite recs_len_app in L2. pose proof (recs_len_nonneg tl) as Ltl. unfold compact_end. cbn [old_id snapshot_of snap_len].
  rewrite Hfid, Z.eqb_refl. cbn [negb orb]. destruct (closed (disk i2)) eqn:Ecl; [by left|].
  assert ((if file_len i1 <? file_len i2 then read_at (file_len i1) (file_len i2 - file_len i1) i2 else Some []) = Some (recs_bytes tl)) as ->.
  { rewrite L1, L2. destruct (Z.ltb_spec (FILE_HEADER_LEN + recs_len rs) (FILE_HEADER_LEN + (recs_len rs + recs_len tl))).
    - unfold read_at. rewrite L2, ltb_f by lia. f_equal. rewrite (iv_file _ _ _ _ _ Hi2), app_nil_r, recs_bytes_app, app_assoc.
      rewrite <- (app_nil_r (recs_bytes tl)) at 1. apply slice_field; rewrite ?len_app, ?file_header_len; unfold recs_len; lia.
    - assert (recs_len tl = 0) as E by lia. unfold recs_len, len in E. by destruct (recs_bytes tl). }
  destruct (negb (io_sync io && io_rename io)); [done|]. right.
  rewrite (filter_none _ (keys_of (index (mem i2)))).
  2: { apply Forall_forall. intros k Hk. apply list_elem_of_fmap in Hk as ([k' e] & -> & Hin). apply elem_of_entries in Hin. cbn [fst].
    rewrite map_lookup_imap, Hin. cbn [option_bind mbind]. specialize (Hre k').
    rewrite Hin in Hre. destruct (scanned _ _ !! k'); [|done]. by destruct Hre as (ne & -> & _). }
  cbn [List.fold_left aborted dropped_corrupted after_bytes]. split; [done|]. split; [apply Hc|].
  split; [rewrite (cp_pos _ _ _ _ _ _ _ Hc), recs_len_app; unfold recs_len; lia|]. unfold swapped.
  assert ((if FORMAT_V1 <? format (disk i2) then take 4 (c_out c ++ recs_bytes tl) ++ le_bytes 4 (format (disk i2)) ++ drop 8 (c_out c ++ recs_bytes tl)
           else c_out c ++ recs_bytes tl) = file_header id (format (disk i2)) ++ recs_bytes (ms ++ tl)) as ->; [|done].
  rewrite (cp_out _ _ _ _ _ _ _ Hc), recs_bytes_app, <- app_assoc. destruct (Z.ltb_spec FORMAT_V1 (format (disk i2))); [apply file_header_raise|].
  pose proof (iv_fmt _ _ _ _ _ Hi2). replace (format (disk i2)) with FORMAT_V1 by (unfold FORMAT_V1 in *; lia). done.
Qed.
Lemma swapped_ok req t1 t2 rs tl i1 i2 io id ms c :
  went_on req t1 t2 rs tl i1 i2 → copied (keys (conf i1)) req (file (disk i1)) id (snap (snapshot_of i1)) ms c → in_u 64 id →
  let i3 := swapped io id (snapshot_of i1) c (file_header id (format (disk i2)) ++ recs_bytes (ms ++ tl)) i2 in
  inv req t2 (ms ++ tl) [] i3 ∧ conf i3 = conf i2 ∧ ∀ t k, look t i3 k = look t i2 k ∧ version <$> index (mem i3) !! k = version <$> index (mem i2) !! k.
Proof.
  intros Hw Hc Hid i3. destruct (swapped_fields io id (snapshot_of i1) c (file_header id (format (disk i2)) ++ recs_bytes (ms ++ tl)) i2)
    as (E1 & E2 & E3 & E4 & E5 & E6 & E7 & E8). fold i3 in E1, E2, E3, E4, E5, E6, E7, E8.
  pose proof (fun k => relocate_ok _ _ _ _ _ _ _ _ _ _ k Hw Hc) as Hre. cbv zeta in Hre.
  pose proof (fun k cur ne => relocate_value _ _ _ _ _ _ _ _ _ _ (format (disk i2)) k cur ne Hw Hc) as Hval.
  pose proof (wo_after _ _ _ _ _ _ _ Hw) as Hi2. pose proof (wo_keys _ _ _ _ _ _ _ Hw) as Hks.
  assert (∀ k, (index (mem i2) !! k = None ∧ index (mem i3) !! k = None) ∨ ∃ cur ne, index (mem i2) !! k = Some cur ∧ index (mem i3) !! k = Some ne ∧
    relocate (snapshot_of i1) c k cur = Some ne ∧ e_expires_at ne = e_expires_at cur ∧ version ne = version cur ∧ raw_size ne = raw_size cur ∧
    FILE_HEADER_LEN ≤ offset ne) as Hix.
  { intros k. rewrite E4, map_lookup_imap. specialize (Hre k). destruct (index (mem i2) !! k) as [cur|]; [right|by left].
    destruct (scanned _ _ !! k); [|done]. destruct Hre as (ne & R1 & _ & R3 & R4 & R5 & R6 & _). exists cur, ne. cbn [mbind option_bind]. rewrite R1. done. }
  assert (∀ k, stored_value i3 k = stored_value i2 k) as Hsv.
  { intros k. unfold stored_value. rewrite E1, E7. destruct (Hix k) as [[-> ->]|(cur & ne & Hk & -> & R & _)]; [done|]. rewrite Hk. by apply (Hval k). }
  split; [|split; [done|]].
  - split; rewrite ?E1, ?E2, ?E3, ?E5, ?E6, ?E7, ?E8, ?app_nil_r; try done.
    + apply swapped_mem_ok, Hi2.
    + apply (iv_fmt _ _ _ _ _ Hi2).
    + apply Forall_app. split; [rewrite Hks; eapply Forall_impl; [apply (cp_recs _ _ _ _ _ _ _ Hc)|]; by intros r [? _]|].
      pose proof (iv_read _ _ _ _ _ Hi2) as Hr. rewrite app_nil_r in Hr. by apply Forall_app in Hr as [_ ?].
    + intros k. specialize (Hre k). fold (scanned FILE_HEADER_LEN (ms ++ tl)). rewrite E4, map_lookup_imap. destruct (index (mem i2) !! k) as [cur|]; cbn [mbind option_bind].
      * destruct (scanned _ _ !! k); [|done]. by destruct Hre as (ne & -> & ? & _).
      * by destruct (scanned _ _ !! k).
    + intros k ne Hk. destruct (Hix k) as [[_ E]|(cur & ne' & Hk2 & Hk3 & R & _ & Rv & _ & Ro)]; [congruence|]. rewrite Hk in Hk3. injection Hk3 as <-.
      destruct (iv_vals _ _ _ _ _ Hi2 k cur Hk2) as (_ & Hv & Hs). split; [done|]. split; [lia|]. by rewrite (Hval k cur ne).
    + intros k ne Hk. destruct (Hix k) as [[_ E]|(cur & ne' & Hk2 & Hk3 & _ & _ & _ & Rr & _)]; [congruence|]. rewrite Hk in Hk3. injection Hk3 as <-.
      rewrite Rr. by apply (iv_raw _ _ _ _ _ Hi2 k).
    + eapply Forall_impl; [apply (iv_sec _ _ _ _ _ Hi2)|]. intros sx. apply sec_agrees_same; [exact Hsv|]. intros k e Hk Hx.
      destruct (Hix k) as [[E _]|(cur & ne & Hk2 & Hk3 & _ & Re & _)]; [congruence|]. exists ne. split; [done|]. rewrite Hk in Hk2. injection Hk2 as <-.
      unfold is_expired. by rewrite Re.
    + intros k s Hs ne Hk Hver. destruct (Hix k) as [[_ E]|(cur & ne' & Hk2 & Hk3 & R & _ & Rv & _)]; [congruence|]. rewrite Hk in Hk3. injection Hk3 as <-.
      rewrite (Hval k cur ne Hk2 R). apply (iv_cache _ _ _ _ _ Hi2 k s Hs cur Hk2). congruence.
  - intros t k. unfold look. rewrite Hsv. destruct (Hix k) as [[-> ->]|(cur & ne & -> & -> & _ & Re & Rv & _)]; [done|].
    unfold is_expired. rewrite Re. split; [done|]. cbn [fmap option_fmap option_map]. by rewrite Rv.
Qed.
End compact.
