(* ===== verification/DocNum.v ===== *)
(** * [src/doc.rs], numbers: the exact order of integers, floats and decimals

    A float is its 64 bits; what the language does with one (its parts,
    comparison, truncation, absolute value) is by its exact value, a fraction.
    The decimals of [rust_decimal] are a parameter. *)
From Stdlib Require Import QArith_base Qabs.
From S2P Require Import Prelude Utf8.
Open Scope Z_scope.

Class Decimals := {
  Decimal : Type;
  mantissa : Decimal → Z;
  scale : Decimal → Z;
  normalize : Decimal → Decimal;
}.
Definition MAX_SCALE : Z := 28.
(** Documented: a 96-bit mantissa with its sign, a scale of 28 at most;
    normalizing keeps the value and leaves no trailing zero in a fraction. *)
Class DecimalsLaws `{Decimals} : Prop := {
  mantissa_bound d : Z.abs (mantissa d) < 2 ^ 96;
  scale_bound d : 0 ≤ scale d ≤ MAX_SCALE;
  normalize_value d : mantissa (normalize d) * 10 ^ scale d = mantissa d * 10 ^ scale (normalize d);
  normalize_zeros d : scale (normalize d) = 0 ∨ mantissa (normalize d) mod 10 ≠ 0;
}.

(** ** Floats *)
Definition f_exp_bits (b : Z) : Z := Z.land (Z.shiftr b 52) 0x7ff.
Definition f_frac_bits (b : Z) : Z := Z.land b (Z.shiftl 1 52 - 1).
Definition f_sign (b : Z) : bool := Z.shiftr b 63 =? 1.
Definition f_finite (b : Z) : bool := negb (f_exp_bits b =? 0x7ff).
(** The magnitude of a finite float: [m * 2^e]. *)
Definition f_parts (b : Z) : Z * Z :=
  if f_exp_bits b =? 0 then (f_frac_bits b, -1074) else (Z.lor (f_frac_bits b) (Z.shiftl 1 52), f_exp_bits b - 1075).
Definition pow_pos (b n : Z) : positive := Z.to_pos (b ^ n).
(** Its exact value. *)
Definition f_value (b : Z) : Q :=
  let '(m, e) := f_parts b in
  let m := if f_sign b then - m else m in
  if 0 <=? e then Qmake (m * 2 ^ e) 1 else Qmake m (pow_pos 2 (- e)).
Definition f_lt (a b : Z) : bool := match Qcompare (f_value a) (f_value b) with Lt => true | _ => false end.
Definition f_abs (b : Z) : Z := Z.land b (Z.shiftl 1 63 - 1).
(** [f.trunc()] *)
Definition f_trunc (b : Z) : Z :=
  let '(m, e) := f_parts b in
  let w := if 0 <=? e then Z.shiftl m e else Z.shiftr m (- e) in
  if f_sign b then - w else w.
(** [f - f.trunc()]: the bits of the mantissa below the unit, which a float
    of the same exponent holds: the subtraction does not round. *)
Definition f_fract (b : Z) : Q :=
  let '(m, e) := f_parts b in
  let r := if 0 <=? e then 0 else m mod 2 ^ (- e) in
  let r := if f_sign b then - r else r in
  Qmake r (if 0 <=? e then 1 else pow_pos 2 (- e)).

(** ** Big integers: little-endian limbs of 32 bits *)
Abbreviation Big := (list Z) (only parsing).
Fixpoint from_u128_loop (fuel : nat) (n : Z) : Big :=
  match fuel with
  | O => []
  | S fuel => if 0 <? n then wrap 32 n :: from_u128_loop fuel (Z.shiftr n 32) else []
  end.
(** A [u128] has four limbs. *)
Definition from_u128 (n : Z) : Big := from_u128_loop 4 n.
Fixpoint trim (b : Big) : Big :=
  match b with
  | [] => []
  | x :: b => match trim b with [] => if x =? 0 then [] else [x] | b => x :: b end
  end.
Fixpoint mul_loop (m : Z) (b : Big) (carry : Z) : Big :=
  match b with
  | [] => if 0 <? carry then [carry] else []
  | limb :: b => let p := wrap 64 (limb * m + carry) in wrap 32 p :: mul_loop m b (Z.shiftr p 32)
  end.
Definition mul_small (b : Big) (m : Z) : Big := trim (mul_loop m b 0).
Fixpoint mul_pow10 (b : Big) (n : nat) : Big := match n with O => b | S n => mul_pow10 (mul_small b 10) n end.
Fixpoint shl_loop (rest : Z) (b : Big) (carry : Z) : Big :=
  match b with
  | [] => if 0 <? carry then [carry] else []
  | limb :: b =>
    Z.lor (wrap 32 (Z.shiftl limb rest)) carry :: shl_loop rest b (if rest =? 0 then 0 else Z.shiftr limb (32 - rest))
  end.
Definition shl (b : Big) (bits : Z) : Big := trim (repeat 0 (Z.to_nat (bits / 32)) ++ shl_loop (bits mod 32) b 0).
(** The order of iterators over limbs. *)
Fixpoint lex_cmp (a b : list Z) : comparison :=
  match a, b with
  | [], [] => Eq
  | [], _ => Lt
  | _, [] => Gt
  | x :: a, y :: b => match x ?= y with Eq => lex_cmp a b | c => c end
  end.
Definition then_with (a b : comparison) : comparison := match a with Eq => b | _ => a end.
Definition big_cmp (a b : Big) : comparison :=
  let a := trim a in let b := trim b in
  then_with (len a ?= len b) (lex_cmp (rev a) (rev b)).

(** ** Fractions *)
Record Ratio := { negative : bool; num : Big; pow10 : Z; pow2 : Z }.
Definition of_int (i : Z) : Ratio := {| negative := i <? 0; num := from_u128 (Z.abs i); pow10 := 0; pow2 := 0 |}.
Definition f_is_zero (b : Z) : bool := f_abs b =? 0.
Definition of_float (f : Z) : Ratio :=
  let negative := f_sign f && negb (f_is_zero f) in
  let '(m, e) := f_parts f in
  if 0 <=? e then {| negative := negative; num := shl (from_u128 m) e; pow10 := 0; pow2 := 0 |}
  else {| negative := negative; num := from_u128 m; pow10 := 0; pow2 := - e |}.
Definition ratio_is_zero (r : Ratio) : bool := forallb (fun l => l =? 0) (num r).
Definition cmp_magnitude (r o : Ratio) : comparison :=
  big_cmp (shl (mul_pow10 (num r) (Z.to_nat (pow10 o))) (pow2 o)) (shl (mul_pow10 (num o) (Z.to_nat (pow10 r))) (pow2 r)).
Definition ratio_sign (r : Ratio) : Z := if ratio_is_zero r then 0 else if negative r then -1 else 1.
Definition ratio_cmp (r o : Ratio) : comparison :=
  match ratio_sign r ?= ratio_sign o with
  | Eq => if ratio_sign r =? 0 then Eq else if 0 <? ratio_sign r then cmp_magnitude r o else cmp_magnitude o r
  | other => other
  end.

Section numbers.
  Context `{Decimals}.

Definition of_decimal (d : Decimal) : Ratio :=
  let m := mantissa d in {| negative := m <? 0; num := from_u128 (Z.abs m); pow10 := scale d; pow2 := 0 |}.
Inductive Num := NInt (i : Z) | NFloat (f : Z) | NDecimal (d : Decimal).
Definition ratio (n : Num) : Ratio :=
  match n with NInt i => of_int i | NFloat f => of_float f | NDecimal d => of_decimal d end.

(** 2^63 and 1e38, as floats. *)
Definition TWO_63 : Z := 0x43E0000000000000.
Definition F_1E38 : Z := 0x47D2CED32A16A1B1.

(** An integer against a float: below 2^63, without big numbers. *)
Definition cmp_int_float (i f : Z) : comparison :=
  if f_lt (f_abs f) TWO_63 then then_with (i ?= sat_i64 (f_trunc f)) (Qcompare 0 (f_fract f))
  else ratio_cmp (ratio (NInt i)) (ratio (NFloat f)).
Definition cmp_num (a b : Num) : comparison :=
  match a, b with
  | NInt x, NInt y => x ?= y
  | NFloat x, NFloat y => Qcompare (f_value x) (f_value y)
  | NInt i, NFloat f => cmp_int_float i f
  | NFloat f, NInt i => CompOpp (cmp_int_float i f)
  | _, _ => ratio_cmp (ratio a) (ratio b)
  end.

(** ** What numbers hash as *)
Inductive NumClass := CInteger (i : Z) | CDecimal (mantissa scale : Z) | CFloat (bits : Z).
Fixpoint strip_twos (fuel : nat) (m e : Z) : Z * Z :=
  match fuel with
  | O => (m, e)
  | S fuel => if (m mod 2 =? 0) && negb (m =? 0) then strip_twos fuel (m / 2) (e + 1) else (m, e)
  end.
Definition float_as_decimal (f : Z) : option NumClass :=
  let '(m, e) := f_parts f in
  let '(m, e) := strip_twos 64 m e in
  let k := - e in
  if (1 <=? k) && (k <=? MAX_SCALE) then
    let mantissa := m * 5 ^ k in
    if 2 ^ 128 <=? mantissa then None
    else if Z.shiftl 1 96 <=? mantissa then None
    else Some (CDecimal (if f_sign f && negb (f_is_zero f) then - mantissa else mantissa) k)
  else None.
Definition num_class (n : Num) : NumClass :=
  match n with
  | NInt i => CInteger i
  | NDecimal d =>
    let d := normalize d in
    if scale d =? 0 then CInteger (mantissa d) else CDecimal (mantissa d) (scale d)
  | NFloat f =>
    if bool_decide (Qnum (f_fract f) = 0) && f_lt (f_abs f) F_1E38 then CInteger (clamp (- 2 ^ 127) (2 ^ 127 - 1) (f_trunc f))
    else default (CFloat f) (float_as_decimal f)
  end.

(** The exact value of a number. *)
Definition num_value (n : Num) : Q :=
  match n with
  | NInt i => Qmake i 1
  | NFloat f => f_value f
  | NDecimal d => Qmake (mantissa d) (pow_pos 10 (scale d))
  end.
Definition num_ok (n : Num) : Prop :=
  match n with
  | NInt i => in_i64 i
  | NFloat f => in_u 64 f ∧ f_finite f = true
  | NDecimal _ => True
  end.
End numbers.

(** ** Big integers compute *)
Definition big_val (b : Big) : Z := foldr (fun x acc => x + 2 ^ 32 * acc) 0 b.
Abbreviation limbs := (Forall (in_u 32)).
Lemma big_val_cons x b : big_val (x :: b) = x + 2 ^ 32 * big_val b.
Proof. done. Qed.
Lemma pow_limb {A} (x : A) l : 2 ^ (32 * len (x :: l)) = 2 ^ 32 * 2 ^ (32 * len l).
Proof. rewrite len_cons, <- Z.pow_add_r by (pose proof (len_nonneg l); lia). f_equal. lia. Qed.
Lemma big_val_app a b : big_val (a ++ b) = big_val a + 2 ^ (32 * len a) * big_val b.
Proof.
  induction a as [|x a IH]; [simpl; change (2 ^ (32 * len [])) with 1; lia|].
  cbn [app]. rewrite !big_val_cons, IH, pow_limb. lia.
Qed.
Lemma big_val_range b : limbs b → 0 ≤ big_val b < 2 ^ (32 * len b).
Proof.
  induction 1 as [|x b Hx _ IH]; [done|]. unfold in_u in Hx. rewrite big_val_cons, pow_limb. lia.
Qed.
Lemma wrap_shiftr w x : 0 ≤ w → wrap w x + 2 ^ w * Z.shiftr x w = x.
Proof. intros. unfold wrap. rewrite Z.shiftr_div_pow2 by done. pose proof (Z.div_mod x (2 ^ w)). lia. Qed.
Lemma from_u128_val n : in_u 128 n → big_val (from_u128 n) = n ∧ limbs (from_u128 n).
Proof.
  intros [H0 H1]. assert (∀ fuel n, 0 ≤ n < 2 ^ (32 * Z.of_nat fuel) →
    big_val (from_u128_loop fuel n) = n ∧ limbs (from_u128_loop fuel n)) as Hl; [|by apply Hl].
  clear n H0 H1. induction fuel as [|fuel IH]; intros n Hn; [simpl in *; split; [lia|constructor]|].
  cbn [from_u128_loop]. destruct (Z.ltb_spec 0 n); [|split; [simpl; lia|constructor]].
  destruct (IH (Z.shiftr n 32)) as [Hv Hb].
  { rewrite Z.shiftr_div_pow2 by lia. replace (32 * Z.of_nat (S fuel)) with (32 + 32 * Z.of_nat fuel) in Hn by lia.
    rewrite Z.pow_add_r in Hn by lia. split; [apply Z.div_pos; lia|apply Z.div_lt_upper_bound; lia]. }
  rewrite big_val_cons, Hv. split; [by apply wrap_shiftr|]. constructor; [apply wrap_in_u; lia|done].
Qed.
Lemma trim_val b : big_val (trim b) = big_val b.
Proof.
  induction b as [|x b IH]; [done|]. cbn [trim]. rewrite big_val_cons, <- IH. destruct (trim b) as [|y t]; [|done].
  destruct (Z.eqb_spec x 0) as [->|]; done.
Qed.
Lemma trim_limbs b : limbs b → limbs (trim b).
Proof.
  induction 1 as [|x b Hx _ IH]; [constructor|]. cbn [trim]. destruct (trim b); [|by constructor].
  destruct (x =? 0); repeat constructor; apply Hx.
Qed.
Lemma trim_top b : limbs b → trim b ≠ [] → 2 ^ (32 * (len (trim b) - 1)) ≤ big_val (trim b).
Proof.
  induction 1 as [|x b Hx Hb IH]; [done|]. cbn [trim]. pose proof (trim_limbs b Hb) as Ht. unfold in_u in Hx.
  destruct (trim b) as [|y t] eqn:E.
  - destruct (Z.eqb_spec x 0); [done|]. intros _. change (len [x] - 1) with 0. simpl. lia.
  - intros _. specialize (IH ltac:(done)). rewrite big_val_cons.
    assert (1 ≤ len (y :: t)) as Hl by (rewrite len_cons; pose proof (len_nonneg t); lia).
    revert IH Hl. generalize (y :: t). intros l IH Hl. rewrite len_cons.
    replace (32 * (1 + len l - 1)) with (32 + 32 * (len l - 1)) by lia.
    rewrite Z.pow_add_r by lia. lia.
Qed.

Lemma mul_loop_val m b : in_u 32 m → limbs b → ∀ c, in_u 32 c →
  big_val (mul_loop m b c) = big_val b * m + c ∧ limbs (mul_loop m b c).
Proof.
  intros Hm Hb. induction Hb as [|x b Hx _ IH]; intros c Hc; cbn [mul_loop]; unfold in_u in *.
  - destruct (Z.ltb_spec 0 c); simpl; (split; [lia|]); repeat constructor; lia.
  - assert (wrap 64 (x * m + c) = x * m + c) as -> by (apply wrap_small; unfold in_u; nia).
    destruct (IH (Z.shiftr (x * m + c) 32)) as [Hv Hl].
    { rewrite Z.shiftr_div_pow2 by lia. split; [apply Z.div_pos; nia|apply Z.div_lt_upper_bound; nia]. }
    rewrite !big_val_cons, Hv. split; [|constructor; [apply wrap_in_u; lia|done]].
    pose proof (wrap_shiftr 32 (x * m + c)). nia.
Qed.
Lemma mul_small_val b m : in_u 32 m → limbs b → big_val (mul_small b m) = big_val b * m ∧ limbs (mul_small b m).
Proof.
  intros Hm Hb. destruct (mul_loop_val m b Hm Hb 0) as [Hv Hl]; [done|]. unfold mul_small.
  rewrite trim_val, Hv. split; [lia|by apply trim_limbs].
Qed.
Lemma mul_pow10_val n : ∀ b, limbs b → big_val (mul_pow10 b n) = big_val b * 10 ^ Z.of_nat n ∧ limbs (mul_pow10 b n).
Proof.
  induction n as [|n IH]; intros b Hb; cbn [mul_pow10]; [split; [simpl; lia|done]|].
  destruct (mul_small_val b 10) as [Hv Hl]; [done|done|]. destruct (IH _ Hl) as [Hv' Hl']. split; [|done].
  rewrite Hv', Hv, Nat2Z.inj_succ, Z.pow_succ_r by lia. lia.
Qed.
Lemma shl_loop_val r b : 0 ≤ r < 32 → limbs b → ∀ c, 0 ≤ c < 2 ^ r →
  big_val (shl_loop r b c) = big_val b * 2 ^ r + c ∧ limbs (shl_loop r b c).
Proof.
  intros Hr Hb. assert (2 ^ r < 2 ^ 32) as Hp by (apply Z.pow_lt_mono_r; lia).
  assert (2 ^ 32 = 2 ^ r * 2 ^ (32 - r)) as Es by (rewrite <- Z.pow_add_r by lia; f_equal; lia).
  assert (0 < 2 ^ r) as Hpos by (apply Z.pow_pos_nonneg; lia).
  induction Hb as [|x b Hx _ IH]; intros c Hc; cbn [shl_loop]; unfold in_u in *.
  - destruct (Z.ltb_spec 0 c); simpl; (split; [lia|]); repeat constructor; lia.
  - set (k := if r =? 0 then 0 else Z.shiftr x (32 - r)).
    assert (k = x / 2 ^ (32 - r)) as Ek.
    { subst k. destruct (Z.eqb_spec r 0) as [->|]; [|by rewrite Z.shiftr_div_pow2 by lia]. symmetry. apply Z.div_small. simpl. lia. }
    assert (wrap 32 (Z.shiftl x r) = Z.shiftl (x mod 2 ^ (32 - r)) r) as Ew.
    { unfold wrap. rewrite !Z.shiftl_mul_pow2 by lia. rewrite Es, (Z.mul_comm (2 ^ r)).
      rewrite Z.mul_mod_distr_r; [done| |lia]. pose proof (Z.pow_pos_nonneg 2 (32 - r)). lia. }
    pose proof (Z.pow_pos_nonneg 2 (32 - r)) as Hq. pose proof (Z.mod_pos_bound x (2 ^ (32 - r))) as Hmod.
    rewrite Ew, lor_shiftl_add by lia.
    destruct (IH k) as [Hv Hl].
    { rewrite Ek. split; [apply Z.div_pos; lia|apply Z.div_lt_upper_bound; nia]. }
    rewrite !big_val_cons, Hv. pose proof (Z.div_mod x (2 ^ (32 - r))) as Hdm. rewrite <- Ek in Hdm. split; [nia|].
    constructor; [|done]. nia.
Qed.
Lemma shl_val b n : 0 ≤ n → limbs b → big_val (shl b n) = big_val b * 2 ^ n ∧ limbs (shl b n).
Proof.
  intros Hn Hb. pose proof (Z.mod_pos_bound n 32 ltac:(lia)) as Hr. pose proof (Z.div_pos n 32 Hn ltac:(lia)) as Hd.
  destruct (shl_loop_val (n mod 32) b Hr Hb 0) as [Hv Hl]; [split; [done|apply Z.pow_pos_nonneg; lia]|].
  assert (∀ k, big_val (repeat 0 k) = 0 ∧ limbs (repeat 0 k)) as Hz.
  { induction k as [|k [IH1 IH2]]; simpl; [split; [done|constructor]|]. split; [lia|]. constructor; [done|done]. }
  unfold shl. rewrite trim_val, big_val_app, Hv, (proj1 (Hz _)). split.
  - unfold len. rewrite List.repeat_length, Z2Nat.id by done. rewrite (Z.div_mod n 32) at 3 by lia.
    rewrite Z.pow_add_r by lia. lia.
  - apply trim_limbs, Forall_app. split; [apply Hz|done].
Qed.

Lemma lex_cmp_snoc a b x y : length a = length b →
  lex_cmp (a ++ [x]) (b ++ [y]) = then_with (lex_cmp a b) (x ?= y).
Proof.
  revert b. induction a as [|u a IH]; intros [|v b] Hl; try discriminate; simpl; [by destruct (x ?= y)|].
  destruct (u ?= v); [|done..]. apply IH. simpl in Hl. lia.
Qed.
Lemma lex_cmp_rev a : ∀ b, limbs a → limbs b → length a = length b → lex_cmp (rev a) (rev b) = (big_val a ?= big_val b).
Proof.
  induction a as [|x a IH]; intros [|y b] Ha Hb Hl; try discriminate; [done|].
  inversion_clear Ha as [|? ? Hx Ha']. inversion_clear Hb as [|? ? Hy Hb']. unfold in_u in *.
  cbn [rev]. rewrite lex_cmp_snoc by (rewrite !length_rev; simpl in Hl; lia).
  rewrite IH by (done || simpl in Hl; lia). rewrite !big_val_cons.
  destruct (Z.compare_spec (big_val a) (big_val b)) as [E|E|E]; simpl.
  - rewrite E. destruct (Z.compare_spec x y); symmetry; [apply Z.compare_eq_iff|apply Z.compare_lt_iff|apply Z.compare_gt_iff]; lia.
  - symmetry. apply Z.compare_lt_iff. lia.
  - symmetry. apply Z.compare_gt_iff. lia.
Qed.
Lemma big_cmp_val a b : limbs a → limbs b → big_cmp a b = (big_val a ?= big_val b).
Proof.
  intros Ha Hb. unfold big_cmp. rewrite <- (trim_val a), <- (trim_val b).
  pose proof (trim_top a Ha) as Ta. pose proof (trim_top b Hb) as Tb. apply trim_limbs in Ha, Hb.
  revert Ha Hb Ta Tb. generalize (trim a) (trim b). clear a b. intros a b Ha Hb Ta Tb.
  pose proof (big_val_range a Ha) as Ra. pose proof (big_val_range b Hb) as Rb.
  destruct (Z.compare_spec (len a) (len b)) as [E|E|E]; simpl.
  - apply lex_cmp_rev; [done|done|]. unfold len in E. lia.
  - symmetry. apply Z.compare_lt_iff. eapply Z.lt_le_trans; [apply Ra|]. etrans; [|apply Tb].
    + apply Z.pow_le_mono_r; lia.
    + intros ->. pose proof (len_nonneg a). change (len []) with 0 in E. lia.
  - symmetry. apply Z.compare_gt_iff. eapply Z.lt_le_trans; [apply Rb|]. etrans; [|apply Ta].
    + apply Z.pow_le_mono_r; lia.
    + intros ->. pose proof (len_nonneg b). change (len []) with 0 in E. lia.
Qed.

(** ** The parts of a float *)
Lemma f_bits b : f_exp_bits b = (b / 2 ^ 52) mod 2 ^ 11 ∧ f_frac_bits b = b mod 2 ^ 52 ∧ f_abs b = b mod 2 ^ 63.
Proof.
  unfold f_exp_bits, f_frac_bits, f_abs. rewrite !land_ones_mod by lia. rewrite <- Z.shiftr_div_pow2 by lia.
  split; [|done]. change 0x7ff with (Z.shiftl 1 11 - 1). by rewrite land_ones_mod by lia.
Qed.
Lemma f_parts_alt b : f_parts b = if f_exp_bits b =? 0 then (f_frac_bits b, -1074) else (2 ^ 52 + f_frac_bits b, f_exp_bits b - 1075).
Proof.
  unfold f_parts. destruct (f_bits b) as (_ & Ef & _). pose proof (Z.mod_pos_bound b (2 ^ 52) ltac:(lia)).
  destruct (_ =? 0); [done|]. rewrite Z.lor_comm, lor_shiftl_add by lia. do 2 f_equal.
Qed.
Lemma f_parts_range b m e : f_parts b = (m, e) → f_finite b = true → 0 ≤ m < 2 ^ 53 ∧ -1074 ≤ e ≤ 971.
Proof.
  rewrite f_parts_alt. unfold f_finite. destruct (f_bits b) as (Ee & Ef & _).
  pose proof (Z.mod_pos_bound b (2 ^ 52) ltac:(lia)). pose proof (Z.mod_pos_bound (b / 2 ^ 52) (2 ^ 11) ltac:(lia)).
  rewrite negb_true_iff, Z.eqb_neq. destruct (Z.eqb_spec (f_exp_bits b) 0); intros [= <- <-] Hf; lia.
Qed.
Lemma f_parts_abs b : f_parts (f_abs b) = f_parts b.
Proof.
  rewrite !f_parts_alt. destruct (f_bits b) as (Ee & Ef & Ea). destruct (f_bits (f_abs b)) as (Ee' & Ef' & _).
  assert (f_exp_bits (f_abs b) = f_exp_bits b ∧ f_frac_bits (f_abs b) = f_frac_bits b) as [-> ->]; [|done].
  rewrite Ee, Ef, Ee', Ef', Ea. change (2 ^ 63) with (2 ^ 52 * 2 ^ 11). split.
  - rewrite Z.rem_mul_r by lia. rewrite Z.mul_comm, Z.div_add, Z.div_small by (lia || apply Z.mod_pos_bound; lia). by rewrite Z.add_0_l, Z.mod_mod by lia.
  - rewrite Z.rem_mul_r by lia. rewrite Z.mul_comm, Z.mod_add by lia. by rewrite Z.mod_mod by lia.
Qed.
Lemma f_sign_abs b : f_sign (f_abs b) = false.
Proof.
  unfold f_sign. destruct (f_bits b) as (_ & _ & ->). pose proof (Z.mod_pos_bound b (2 ^ 63) ltac:(lia)).
  rewrite Z.shiftr_div_pow2 by lia. by rewrite Z.div_small by lia.
Qed.
Lemma f_zero_parts b : f_is_zero b = true → (f_parts b).1 = 0.
Proof.
  unfold f_is_zero. rewrite Z.eqb_eq. intros Hz. rewrite <- f_parts_abs, Hz. by vm_compute.
Qed.

(** ** Fractions compare exactly *)
Record ratio_ok (r : Ratio) : Prop := { ra_num : limbs (num r); ra_10 : 0 ≤ pow10 r; ra_2 : 0 ≤ pow2 r }.
Definition den (r : Ratio) : Z := 10 ^ pow10 r * 2 ^ pow2 r.
Definition ratio_value (r : Ratio) : Q :=
  Qmake (if negative r then - big_val (num r) else big_val (num r)) (Z.to_pos (den r)).
Lemma den_pos r : ratio_ok r → 0 < den r.
Proof. intros [_ H1 H2]. unfold den. pose proof (Z.pow_pos_nonneg 10 (pow10 r)). pose proof (Z.pow_pos_nonneg 2 (pow2 r)). lia. Qed.
Lemma ratio_is_zero_val r : ratio_ok r → ratio_is_zero r = (big_val (num r) =? 0).
Proof.
  intros [Hl _ _]. unfold ratio_is_zero. induction Hl as [|x b Hx Hb IH]; [done|]. cbn [forallb]. rewrite IH, big_val_cons.
  pose proof (big_val_range b Hb). unfold in_u in Hx. destruct (Z.eqb_spec x 0), (Z.eqb_spec (big_val b) 0); simpl; symmetry; (apply Z.eqb_eq || apply Z.eqb_neq); lia.
Qed.
Lemma cmp_magnitude_val r o : ratio_ok r → ratio_ok o →
  cmp_magnitude r o = (big_val (num r) * den o ?= big_val (num o) * den r).
Proof.
  intros [H1 H2 H3] [H4 H5 H6]. unfold cmp_magnitude, den.
  destruct (mul_pow10_val (Z.to_nat (pow10 o)) (num r) H1) as [V1 L1]. destruct (mul_pow10_val (Z.to_nat (pow10 r)) (num o) H4) as [V2 L2].
  destruct (shl_val _ (pow2 o) H6 L1) as [V3 L3]. destruct (shl_val _ (pow2 r) H3 L2) as [V4 L4].
  rewrite big_cmp_val, V3, V4, V1, V2, !Z2Nat.id by done. by rewrite !Z.mul_assoc.
Qed.
Lemma ratio_cmp_val r o : ratio_ok r → ratio_ok o → ratio_cmp r o = Qcompare (ratio_value r) (ratio_value o).
Proof.
  intros Hr Ho. unfold ratio_cmp, ratio_sign, Qcompare, ratio_value. cbn [Qnum Qden].
  rewrite !ratio_is_zero_val, !cmp_magnitude_val by done.
  pose proof (den_pos r Hr) as Dr. pose proof (den_pos o Ho) as Do. rewrite !Z2Pos.id by done.
  pose proof (big_val_range _ (ra_num _ Hr)) as [Br _]. pose proof (big_val_range _ (ra_num _ Ho)) as [Bo _].
  revert Dr Do Br Bo. generalize (den r) (den o) (big_val (num r)) (big_val (num o)). intros d1 d2 n1 n2 Dr Do Br Bo.
  destruct (Z.eqb_spec n1 0) as [->|], (Z.eqb_spec n2 0) as [->|], (negative r), (negative o); cbn -[Z.mul];
    rewrite ?Z.mul_0_l; try done; symmetry; rewrite ?Z.compare_lt_iff, ?Z.compare_gt_iff; try nia.
  rewrite !Z.mul_opp_l. apply Z.compare_opp.
Qed.

Section exact.
  Context `{!Decimals} `{!DecimalsLaws}.

Lemma pow_pos_val b n : 0 < b → 0 ≤ n → Z.pos (pow_pos b n) = b ^ n.
Proof. intros. unfold pow_pos. rewrite Z2Pos.id; [done|]. by apply Z.pow_pos_nonneg. Qed.
Lemma ratio_exact n : num_ok n → ratio_ok (ratio n) ∧ ratio_value (ratio n) = num_value n.
Proof.
  destruct n as [i|f|d]; cbn [num_ok ratio num_value]; intros Hok.
  - unfold in_i64, i64_min, i64_max in Hok. destruct (from_u128_val (Z.abs i)) as [Hv Hl]; [unfold in_u; lia|].
    split; [split; simpl; [done|lia|lia]|]. unfold ratio_value. cbn [of_int negative num]. rewrite Hv.
    change (den (of_int i)) with 1. simpl. f_equal. destruct (Z.ltb_spec i 0); lia.
  - destruct Hok as [_ Hfin]. pose proof (f_zero_parts f) as Hz. unfold of_float, f_value.
    destruct (f_parts f) as [m e] eqn:E. destruct (f_parts_range f m e E Hfin) as [Hm He]. cbn [fst] in Hz.
    destruct (from_u128_val m) as [Hv Hl]; [unfold in_u; lia|].
    assert (∀ x, (if f_sign f && negb (f_is_zero f) then - (m * x) else m * x) = (if f_sign f then - m else m) * x) as Hs.
    { intros x. destruct (f_is_zero f); [rewrite Hz by done|]; destruct (f_sign f); simpl; lia. }
    destruct (Z.leb_spec 0 e) as [He0|He0].
    + destruct (shl_val (from_u128 m) e He0 Hl) as [Hv' Hl']. split; [split; simpl; [done|lia|lia]|].
      unfold ratio_value. cbn [negative num]. rewrite Hv', Hv. unfold den. cbn [DocNum.pow10 pow2]. change (Z.to_pos (10 ^ 0 * 2 ^ 0)) with 1%positive.
      by rewrite Hs.
    + split; [split; simpl; [done|lia|lia]|]. unfold ratio_value, den. cbn [negative num DocNum.pow10 pow2]. rewrite Hv.
      change (10 ^ 0) with 1. rewrite Z.mul_1_l. specialize (Hs 1). rewrite !Z.mul_1_r in Hs. by rewrite Hs.
  - pose proof (mantissa_bound d). pose proof (scale_bound d). destruct (from_u128_val (Z.abs (mantissa d))) as [Hv Hl]; [unfold in_u; lia|].
    split; [split; simpl; [done|lia|lia]|]. unfold ratio_value, den. cbn [of_decimal negative num DocNum.pow10 pow2]. rewrite Hv.
    change (2 ^ 0) with 1. rewrite Z.mul_1_r. unfold pow_pos. f_equal. destruct (Z.ltb_spec (mantissa d) 0); lia.
Qed.

(** A float in two parts, the whole one [t] and the rest, [r] over [D]. *)
Lemma f_split f m e : f_parts f = (m, e) → f_finite f = true → ∃ D t r,
  (0 ≤ e ∧ D = 1 ∧ t = m * 2 ^ e ∧ r = 0 ∨ e < 0 ∧ D = 2 ^ (- e) ∧ r = m mod D ∧ m = t * D + r) ∧
  0 < D ∧ 0 ≤ t ∧ 0 ≤ r < D ∧
  f_trunc f = (if f_sign f then - t else t) ∧ f_fract f = Qmake (if f_sign f then - r else r) (Z.to_pos D) ∧
  f_value f = Qmake (if f_sign f then - (t * D + r) else t * D + r) (Z.to_pos D) ∧
  f_value (f_abs f) = Qmake (t * D + r) (Z.to_pos D).
Proof.
  intros E Hfin. destruct (f_parts_range f m e E Hfin) as [Hm He].
  unfold f_trunc, f_fract, f_value. rewrite f_parts_abs, f_sign_abs, E. unfold pow_pos.
  destruct (Z.leb_spec 0 e) as [He0|He0].
  - exists 1, (m * 2 ^ e), 0. pose proof (Z.pow_pos_nonneg 2 e). rewrite Z.shiftl_mul_pow2 by done. change (Z.to_pos 1) with 1%positive.
    split_and!; [lia|lia|nia|lia|lia|done|by destruct (f_sign f)|..]; [f_equal; destruct (f_sign f); lia|f_equal; lia].
  - exists (2 ^ (- e)), (m / 2 ^ (- e)), (m mod 2 ^ (- e)). pose proof (Z.pow_pos_nonneg 2 (- e)) as HD. rewrite Z.shiftr_div_pow2 by lia.
    pose proof (Z.mod_pos_bound m (2 ^ (- e))). pose proof (Z.div_mod m (2 ^ (- e))). pose proof (Z.div_pos m (2 ^ (- e))).
    split_and!; [right; split_and!; [lia|done|done|lia]|lia|lia|lia|lia|done|by destruct (f_sign f)|..]; [f_equal; destruct (f_sign f); lia|f_equal; lia].
Qed.

Lemma Qcompare_pos a b p q : 0 < p → 0 < q → Qcompare (Qmake a (Z.to_pos p)) (Qmake b (Z.to_pos q)) = (a * q ?= b * p).
Proof. intros. unfold Qcompare. cbn [Qnum Qden]. by rewrite !Z2Pos.id. Qed.
Lemma f_lt_below f D n x c : 0 < D → f_value (f_abs f) = Qmake n (Z.to_pos D) → f_value x = Qmake c 1 →
  f_lt (f_abs f) x = (n <? c * D).
Proof.
  intros HD E Ec. unfold f_lt. rewrite E, Ec. change 1%positive with (Z.to_pos 1). rewrite Qcompare_pos by lia. by rewrite Z.mul_1_r.
Qed.
(** An integer against the whole part, then 0 against the rest. *)
Lemma whole_fract_cmp i f D t r : 0 < D → 0 ≤ r < D →
  f_fract f = Qmake (if f_sign f then - r else r) (Z.to_pos D) → f_value f = Qmake (if f_sign f then - (t * D + r) else t * D + r) (Z.to_pos D) →
  then_with (i ?= if f_sign f then - t else t) (Qcompare 0 (f_fract f)) = Qcompare (Qmake i 1) (f_value f).
Proof.
  intros HD Hr -> ->. change (Qmake i 1) with (Qmake i (Z.to_pos 1)). change 0%Q with (Qmake 0 (Z.to_pos 1)).
  rewrite !Qcompare_pos by lia. rewrite !Z.mul_1_r, Z.mul_0_l. destruct (f_sign f).
  - destruct (Z.compare_spec i (- t)) as [->|Hlt|Hgt]; cbn [then_with]; symmetry.
    + destruct (Z.compare_spec 0 (- r)) as [Hc|Hc|Hc]; [apply Z.compare_eq_iff|apply Z.compare_lt_iff|apply Z.compare_gt_iff]; nia.
    + apply Z.compare_lt_iff. nia.
    + apply Z.compare_gt_iff. nia.
  - destruct (Z.compare_spec i t) as [->|Hlt|Hgt]; cbn [then_with]; symmetry.
    + destruct (Z.compare_spec 0 r) as [Hc|Hc|Hc]; [apply Z.compare_eq_iff|apply Z.compare_lt_iff|apply Z.compare_gt_iff]; nia.
    + apply Z.compare_lt_iff. nia.
    + apply Z.compare_gt_iff. nia.
Qed.
Lemma cmp_int_float_exact i f : in_i64 i → num_ok (NFloat f) → cmp_int_float i f = Qcompare (Qmake i 1) (f_value f).
Proof.
  intros Hi Hf. unfold cmp_int_float. destruct (f_lt _ _) eqn:El.
  2: { destruct (ratio_exact (NInt i) Hi) as [O1 E1]. destruct (ratio_exact (NFloat f) Hf) as [O2 E2]. by rewrite ratio_cmp_val, E1, E2. }
  destruct Hf as [_ Hfin]. destruct (f_parts f) as [m e] eqn:E. destruct (f_split f m e E Hfin) as (D & t & r & _ & HD & Ht & Hr & Et & Efr & Ev & Ea).
  rewrite (f_lt_below f D (t * D + r) TWO_63 (2 ^ 63) HD Ea), Z.ltb_lt in El by by vm_compute.
  assert (t < 2 ^ 63) as Htl by nia. rewrite Et.
  assert (sat_i64 (if f_sign f then - t else t) = if f_sign f then - t else t) as ->
    by (unfold sat_i64, clamp, i64_min, i64_max; destruct (f_sign f); lia).
  by apply (whole_fract_cmp i f D t r).
Qed.
Lemma cmp_num_value a b : num_ok a → num_ok b → cmp_num a b = Qcompare (num_value a) (num_value b).
Proof.
  intros Ha Hb. assert (ratio_cmp (ratio a) (ratio b) = Qcompare (num_value a) (num_value b)) as Hr.
  { destruct (ratio_exact a Ha) as [O1 E1]. destruct (ratio_exact b Hb) as [O2 E2]. by rewrite ratio_cmp_val, E1, E2. }
  destruct a as [x|x|x], b as [y|y|y]; cbn [cmp_num]; try exact Hr.
  - unfold Qcompare. simpl. by rewrite !Z.mul_1_r.
  - by apply cmp_int_float_exact.
  - rewrite cmp_int_float_exact by done. apply Qcompare_antisym.
  - done.
Qed.

(** Numbers of the three kinds are ordered by their exact value: whatever
    the kinds of two numbers, [cmp_num] is the order of the fractions they
    are, without any rounding, through the big integers or the fast paths. *)
Theorem cmp_num_exact a b : num_ok a → num_ok b → cmp_num a b = Qcompare (num_value a) (num_value b).
Proof. apply cmp_num_value. Qed.

(** ** Classes *)
Definition class_value (c : NumClass) : Q :=
  match c with CInteger i => Qmake i 1 | CDecimal m s => Qmake m (pow_pos 10 s) | CFloat f => f_value f end.
(** 1e38, exactly. *)
Definition C38 : Z := 99999999999999997748809823456034029568.
Definition class_ok (c : NumClass) : Prop :=
  match c with
  | CInteger i => Z.abs i < C38
  | CDecimal m s => 1 ≤ s ≤ MAX_SCALE ∧ Z.abs m < 2 ^ 96 ∧ m mod 10 ≠ 0
  | CFloat f => f_finite f = true ∧ in_u 64 f ∧ (f_parts f).1 ≠ 0 ∧
      (C38 * Z.pos (Qden (f_value f)) ≤ Z.abs (Qnum (f_value f)) ∨
       (∀ i, ¬ Qeq (f_value f) (Qmake i 1)) ∧ ∀ m s, 0 ≤ s ≤ MAX_SCALE → Z.abs m < 2 ^ 96 → ¬ Qeq (f_value f) (Qmake m (pow_pos 10 s)))
  end.
Lemma strip_twos_ok fuel : ∀ m e, 0 < m < 2 ^ Z.of_nat fuel →
  ∃ j m', strip_twos fuel m e = (m', e + j) ∧ 0 ≤ j ∧ m = m' * 2 ^ j ∧ Z.odd m' = true ∧ 0 < m'.
Proof.
  induction fuel as [|fuel IH]; intros m e Hm; [simpl in Hm; lia|]. cbn [strip_twos].
  assert ((m =? 0) = false) as -> by (apply Z.eqb_neq; lia). cbn [negb]. rewrite andb_true_r.
  destruct (Z.eqb_spec (m mod 2) 0) as [Hev|Hodd].
  - pose proof (Z.div_mod m 2 ltac:(lia)) as Hdm. destruct (IH (m / 2) (e + 1)) as (j & m' & E & Hj & Em & Ho & Hp).
    { rewrite Nat2Z.inj_succ, Z.pow_succ_r in Hm by lia. lia. }
    exists (j + 1), m'. rewrite E. split; [f_equal; lia|]. split; [lia|]. split; [|done].
    rewrite Z.pow_add_r by lia. change (2 ^ 1) with 2. lia.
  - exists 0, m. split; [f_equal; lia|]. split; [lia|]. split; [change (2 ^ 0) with 1; lia|]. split; [|lia].
    rewrite Zmod_odd in Hodd. by destruct (Z.odd m).
Qed.
Lemma odd_pow5 n : 0 ≤ n → Z.odd (5 ^ n) = true.
Proof. intros. destruct (decide (n = 0)) as [->|]; [done|]. rewrite Z.odd_pow; [done|lia]. Qed.
Lemma pow10_split n : 0 ≤ n → 10 ^ n = 5 ^ n * 2 ^ n.
Proof. intros. by rewrite <- Z.pow_mul_l. Qed.
(** An odd number over a power of two, written over a power of ten. *)
Lemma odd_fraction m k n s : Z.odd m = true → 0 ≤ k → 0 ≤ s → m * 10 ^ s = n * 2 ^ k → k ≤ s ∧ n = m * 5 ^ s * 2 ^ (s - k).
Proof.
  intros Ho Hk Hs E. rewrite pow10_split in E by done. destruct (Z.le_gt_cases k s) as [Hle|Hgt].
  - split; [done|]. replace (2 ^ s) with (2 ^ (s - k) * 2 ^ k) in E by (rewrite <- Z.pow_add_r by lia; f_equal; lia).
    pose proof (Z.pow_pos_nonneg 2 k). nia.
  - exfalso. replace (2 ^ k) with (2 ^ (k - s) * 2 ^ s) in E by (rewrite <- Z.pow_add_r by lia; f_equal; lia).
    pose proof (Z.pow_pos_nonneg 2 s). assert (m * 5 ^ s = n * 2 ^ (k - s)) as E2 by nia.
    apply (f_equal Z.odd) in E2. rewrite !Z.odd_mul, Ho, odd_pow5, Z.odd_pow in E2 by lia. simpl in E2. by rewrite andb_false_r in E2.
Qed.
Lemma odd_mod10 m k : Z.odd m = true → 0 ≤ k → (m * 5 ^ k) mod 10 ≠ 0.
Proof.
  intros Ho Hk E. apply Z.mod_divide in E; [|done]. destruct E as [c E]. apply (f_equal Z.odd) in E.
  rewrite !Z.odd_mul, Ho, odd_pow5 in E by done. simpl in E. by rewrite andb_false_r in E.
Qed.

(** The decimal a fractional float is, or none. *)
Lemma float_as_decimal_ok f m e : f_parts f = (m, e) → f_finite f = true → e < 0 → m mod 2 ^ (- e) ≠ 0 →
  match float_as_decimal f with
  | Some c => class_ok c ∧ Qeq (class_value c) (f_value f)
  | None => ∀ n s, 0 ≤ s ≤ MAX_SCALE → Z.abs n < 2 ^ 96 → m * 10 ^ s ≠ Z.abs n * 2 ^ (- e)
  end.
Proof.
  intros E Hfin He Hr. destruct (f_parts_range f m e E Hfin) as [Hm He'].
  assert (0 < m) as Hm0 by (destruct (decide (m = 0)) as [->|]; [by rewrite Z.mod_0_l in Hr by (apply Z.pow_nonzero; lia)|lia]).
  destruct (strip_twos_ok 64 m e) as (j & m' & Es & Hj & Em & Ho & Hm'); [change (2 ^ Z.of_nat 64) with (2 ^ 64); lia|].
  unfold float_as_decimal. rewrite E, Es. set (k := - (e + j)).
  assert (1 ≤ k) as Hk.
  { destruct (Z.le_gt_cases 1 k); [done|]. exfalso. apply Hr. rewrite Em.
    replace j with (- e + (j + e)) by lia. rewrite Z.pow_add_r by lia. rewrite Z.mul_assoc, (Z.mul_comm m'), <- Z.mul_assoc, Z.mul_comm.
    apply Z.mod_mul, Z.pow_nonzero; lia. }
  assert (2 ^ (- e) = 2 ^ j * 2 ^ k) as ED by (rewrite <- Z.pow_add_r by lia; f_equal; lia).
  pose proof (Z.pow_pos_nonneg 2 j) as P2j. pose proof (Z.pow_pos_nonneg 5 k) as P5k. pose proof (Z.pow_pos_nonneg 2 k) as P2k.
  assert (∀ n s, 0 ≤ s ≤ MAX_SCALE → m * 10 ^ s = Z.abs n * 2 ^ (- e) → k ≤ MAX_SCALE ∧ m' * 5 ^ k ≤ Z.abs n) as Hdec.
  { intros n s Hs Heq. rewrite ED, Em in Heq. destruct (odd_fraction m' k (Z.abs n) s Ho) as [Hks En]; [lia|lia|nia|].
    split; [lia|]. rewrite En. replace s with (k + (s - k)) at 1 by lia. rewrite Z.pow_add_r by lia.
    pose proof (Z.pow_pos_nonneg 5 (s - k)). pose proof (Z.pow_pos_nonneg 2 (s - k)).
    assert (1 ≤ 5 ^ (s - k) * 2 ^ (s - k)) as HB by nia. assert (0 < m' * 5 ^ k) as HA by nia.
    replace (m' * (5 ^ k * 5 ^ (s - k)) * 2 ^ (s - k)) with ((m' * 5 ^ k) * (5 ^ (s - k) * 2 ^ (s - k))) by ring. nia. }
  destruct (Z.leb_spec 1 k) as [_|]; [|lia]. cbn [andb].
  destruct (Z.leb_spec k MAX_SCALE) as [Hk28|Hk28]; [|intros n s Hs Hn Heq; destruct (Hdec n s Hs Heq); lia].
  destruct (Z.leb_spec (2 ^ 128) (m' * 5 ^ k)); [intros n s Hs Hn Heq; destruct (Hdec n s Hs Heq); lia|].
  change (Z.shiftl 1 96) with (2 ^ 96). destruct (Z.leb_spec (2 ^ 96) (m' * 5 ^ k)); [intros n s Hs Hn Heq; destruct (Hdec n s Hs Heq); lia|].
  assert (f_is_zero f = false) as Hz.
  { destruct (f_is_zero f) eqn:Ez; [|done]. apply f_zero_parts in Ez. rewrite E in Ez. simpl in Ez. lia. }
  rewrite Hz. cbn [negb]. rewrite andb_true_r. pose proof (odd_mod10 m' k Ho ltac:(lia)) as H10. split.
  - split; [done|]. split; [destruct (f_sign f); lia|]. destruct (f_sign f); [|done]. rewrite Z.mod_opp_l_nz by done.
    pose proof (Z.mod_pos_bound (m' * 5 ^ k) 10). lia.
  - unfold Qeq, class_value, f_value. rewrite E. destruct (Z.leb_spec 0 e); [lia|]. cbn [Qnum Qden]. rewrite !pow_pos_val by lia.
    rewrite ED, pow10_split by lia. destruct (f_sign f); nia.
Qed.
Lemma class_exact n : num_ok n → class_ok (num_class n) ∧ Qeq (class_value (num_class n)) (num_value n).
Proof.
  destruct n as [i|f|d]; cbn [num_class num_value num_ok]; intros Hok.
  - split; [|done]. unfold in_i64, i64_min, i64_max in Hok. simpl. unfold C38. lia.
  - destruct Hok as [Hu Hfin]. destruct (f_parts f) as [m e] eqn:E.
    destruct (f_split f m e E Hfin) as (D & t & r & Hcase & HD & Ht & Hr & Et & Efr & Ev & Ea).
    pose proof (float_as_decimal_ok f m e E Hfin) as Hdec. pose proof (f_parts_range f m e E Hfin) as [Hm He].
    pose proof (f_lt_below f D (t * D + r) F_1E38 C38 HD Ea ltac:(by vm_compute)) as Hlt.
    rewrite Et, Efr. cbn [Qnum].
    destruct (bool_decide_reflect ((if f_sign f then - r else r) = 0)) as [Hr0|Hr0]; cbn [andb].
    + assert (r = 0) as Er by (destruct (f_sign f); lia). rewrite Hlt, Er in *. destruct (Z.ltb_spec (t * D + 0) (C38 * D)) as [Hs|Hbig].
      * assert (t < C38) as Htl by nia.
        assert (clamp (- 2 ^ 127) (2 ^ 127 - 1) (if f_sign f then - t else t) = if f_sign f then - t else t) as ->
          by (unfold clamp, C38 in *; destruct (f_sign f); lia).
        split; [cbn [class_ok]; destruct (f_sign f); lia|]. rewrite Ev. unfold Qeq. cbn [class_value Qnum Qden].
        rewrite Z2Pos.id by done. destruct (f_sign f); lia.
      * assert (class_ok (CFloat f)) as Hcf.
        { split; [done|]. split; [done|]. rewrite E. cbn [fst]. unfold C38 in *. split; [intros ->; destruct Hcase; nia|].
          left. rewrite Ev. cbn [Qnum Qden]. rewrite Z2Pos.id by done. destruct (f_sign f); lia. }
        assert (float_as_decimal f = None) as ->; [|by split].
        destruct Hcase as [(He0 & ED & Em & _)|(_ & _ & _ & Em)]; [|unfold C38 in *; nia].
        assert (0 < m) as Hm0 by (unfold C38 in *; destruct (decide (m = 0)); [subst m|]; nia).
        destruct (strip_twos_ok 64 m e) as (j & m' & Es & Hj & _); [change (2 ^ Z.of_nat 64) with (2 ^ 64); lia|].
        unfold float_as_decimal. rewrite E, Es. by destruct (Z.leb_spec 1 (- (e + j))); [lia|].
    + destruct Hcase as [(_ & _ & _ & Er)|(He0 & ED & Er & Em)]; [destruct (f_sign f); lia|].
      assert (r ≠ 0) as Hrn by (intros E0; apply Hr0; rewrite E0; by destruct (f_sign f)). rewrite <- ED in Hdec.
      specialize (Hdec He0 ltac:(congruence)). destruct (float_as_decimal f) as [c|]; cbn [default]; [done|]. split; [|done].
      split; [done|]. split; [done|]. rewrite E. cbn [fst]. split; [intros ->; nia|]. right. rewrite Ev. unfold Qeq. cbn [Qnum Qden]. rewrite Z2Pos.id by done.
      rewrite <- Em. split.
      * intros i Hi. apply Hrn. rewrite Er. apply Z.mod_divide; [lia|]. destruct (f_sign f); [exists (- i)|exists i]; lia.
      * intros n s Hs Hn Hq. rewrite pow_pos_val in Hq by lia. apply (Hdec n s Hs Hn). pose proof (Z.pow_pos_nonneg 10 s). destruct (f_sign f), (Z.abs_spec n); nia.
  - pose proof (normalize_value d) as Hv. pose proof (normalize_zeros d) as Hz. pose proof (mantissa_bound (normalize d)). pose proof (scale_bound (normalize d)).
    pose proof (scale_bound d). destruct (Z.eqb_spec (scale (normalize d)) 0) as [Es|Es]; cbn [class_ok class_value].
    + rewrite Es in Hv. change (10 ^ 0) with 1 in Hv. split; [unfold C38; lia|]. unfold Qeq. cbn [Qnum Qden]. rewrite pow_pos_val by lia. lia.
    + split; [split; [lia|]; split; [done|by destruct Hz]|]. unfold Qeq. cbn [Qnum Qden]. rewrite !pow_pos_val by lia. lia.
Qed.

(** A float that is not zero is the only one of its value. *)
Lemma f_parts_normal f m e : f_parts f = (m, e) → f_finite f = true → e = -1074 ∨ 2 ^ 52 ≤ m.
Proof.
  rewrite f_parts_alt. destruct (f_bits f) as (_ & Ef & _). pose proof (Z.mod_pos_bound f (2 ^ 52)).
  destruct (_ =? 0); intros [= <- <-] _; [by left|right; lia].
Qed.
Lemma f_rebuild f : in_u 64 f → f = (if f_sign f then 2 ^ 63 else 0) + f_exp_bits f * 2 ^ 52 + f_frac_bits f.
Proof.
  intros Hu. unfold in_u in Hu. destruct (f_bits f) as (Ee & Ef & _). rewrite Ee, Ef. unfold f_sign. rewrite Z.shiftr_div_pow2 by lia.
  pose proof (Z.div_mod f (2 ^ 52) ltac:(lia)). pose proof (Z.div_mod (f / 2 ^ 52) (2 ^ 11) ltac:(lia)) as H11.
  rewrite Z.div_div in H11 by lia. change (2 ^ 52 * 2 ^ 11) with (2 ^ 63) in H11.
  assert (0 ≤ f / 2 ^ 63 < 2) as Hq by (split; [apply Z.div_pos; lia|apply Z.div_lt_upper_bound; lia]).
  destruct (Z.eqb_spec (f / 2 ^ 63) 1) as [E|E]; [rewrite E in H11; lia|]. assert (f / 2 ^ 63 = 0) as E0 by lia. rewrite E0 in H11. lia.
Qed.
Lemma parts_determine f g : in_u 64 f → in_u 64 g → f_sign f = f_sign g → f_parts f = f_parts g → f = g.
Proof.
  intros Hf Hg Hs Hp. rewrite (f_rebuild f), (f_rebuild g), Hs by done. rewrite !f_parts_alt in Hp.
  destruct (f_bits f) as (_ & Ef & _). destruct (f_bits g) as (_ & Eg & _).
  pose proof (Z.mod_pos_bound f (2 ^ 52)). pose proof (Z.mod_pos_bound g (2 ^ 52)).
  destruct (Z.eqb_spec (f_exp_bits f) 0), (Z.eqb_spec (f_exp_bits g) 0); inversion Hp; lia.
Qed.
Lemma same_value_parts f g m1 e1 m2 e2 :
  f_parts f = (m1, e1) → f_parts g = (m2, e2) → f_finite f = true → f_finite g = true → m1 ≠ 0 → m2 ≠ 0 →
  Qeq (f_value f) (f_value g) → e1 ≤ e2 → f_sign f = f_sign g ∧ m1 = m2 ∧ e1 = e2.
Proof.
  intros E1 E2 F1 F2 Hm1 Hm2 Hq Hle. destruct (f_parts_range f m1 e1 E1 F1) as [R1 _]. destruct (f_parts_range g m2 e2 E2 F2) as [R2 _].
  pose proof (f_parts_normal f m1 e1 E1 F1) as N1. pose proof (f_parts_normal g m2 e2 E2 F2) as N2.
  destruct (f_parts_range f m1 e1 E1 F1) as [_ Re1].
  assert (f_sign f = f_sign g ∧ m1 = m2 * 2 ^ (e2 - e1)) as [Es Em].
  { unfold f_value, Qeq in Hq. rewrite E1, E2 in Hq. pose proof (Z.pow_pos_nonneg 2 (e2 - e1)).
    destruct (Z.leb_spec 0 e1), (Z.leb_spec 0 e2); cbn [Qnum Qden] in Hq; rewrite ?pow_pos_val in Hq by lia; try lia.
    - pose proof (Z.pow_pos_nonneg 2 e1). replace e2 with (e1 + (e2 - e1)) in Hq by lia. rewrite Z.pow_add_r in Hq by lia. destruct (f_sign f), (f_sign g); split; try done; nia.
    - replace (2 ^ (e2 - e1)) with (2 ^ e2 * 2 ^ (- e1)) by (rewrite <- Z.pow_add_r by lia; f_equal; lia).
      pose proof (Z.pow_pos_nonneg 2 e2). pose proof (Z.pow_pos_nonneg 2 (- e1)). assert (0 < 2 ^ e2 * 2 ^ (- e1)) by nia.
      destruct (f_sign f), (f_sign g); split; try done; nia.
    - replace (2 ^ (- e1)) with (2 ^ (e2 - e1) * 2 ^ (- e2)) in Hq by (rewrite <- Z.pow_add_r by lia; f_equal; lia).
      pose proof (Z.pow_pos_nonneg 2 (- e2)). destruct (f_sign f), (f_sign g); split; try done; nia. }
  split; [done|]. destruct (decide (e1 = e2)) as [->|Hne]; [split; [|done]; rewrite Z.sub_diag in Em; lia|]. exfalso.
  assert (2 ^ 1 ≤ 2 ^ (e2 - e1)) by (apply Z.pow_le_mono_r; lia). lia.
Qed.
Lemma same_value f g : in_u 64 f → in_u 64 g → f_finite f = true → f_finite g = true →
  (f_parts f).1 ≠ 0 → (f_parts g).1 ≠ 0 → Qeq (f_value f) (f_value g) → f = g.
Proof.
  intros U1 U2 F1 F2 M1 M2 Hq. destruct (f_parts f) as [m1 e1] eqn:E1, (f_parts g) as [m2 e2] eqn:E2. cbn [fst] in *.
  destruct (Z.le_ge_cases e1 e2).
  - destruct (same_value_parts f g m1 e1 m2 e2) as (? & ? & ?); try done. apply parts_determine; [done..|congruence].
  - destruct (same_value_parts g f m2 e2 m1 e1) as (? & ? & ?); try done. apply parts_determine; [done..|congruence].
Qed.

(** Fractions of powers of ten in lowest terms. *)
Lemma dec_lowest m1 s1 m2 s2 : 0 ≤ s1 ≤ s2 → m2 mod 10 ≠ 0 → m1 * 10 ^ s2 = m2 * 10 ^ s1 → s1 = s2 ∧ m1 = m2.
Proof.
  intros Hs H10 E. replace (10 ^ s2) with (10 ^ (s2 - s1) * 10 ^ s1) in E by (rewrite <- Z.pow_add_r by lia; f_equal; lia).
  pose proof (Z.pow_pos_nonneg 10 s1). assert (m2 = m1 * 10 ^ (s2 - s1)) as Em by nia.
  destruct (decide (s1 = s2)) as [->|]; [rewrite Z.sub_diag in Em; split; [done|lia]|]. exfalso. apply H10.
  rewrite Em. replace (s2 - s1) with (1 + (s2 - s1 - 1)) by lia. rewrite Z.pow_add_r by lia. change (10 ^ 1) with 10.
  replace (m1 * (10 * 10 ^ (s2 - s1 - 1))) with ((m1 * 10 ^ (s2 - s1 - 1)) * 10) by ring. by apply Z.mod_mul.
Qed.
Lemma float_not_int f i : class_ok (CFloat f) → Z.abs i < C38 → ¬ Qeq (f_value f) (Qmake i 1).
Proof.
  intros (_ & _ & _ & [Hbig|[Hi _]]) Hs; [|apply Hi]. unfold Qeq. cbn [Qnum Qden]. nia.
Qed.
Lemma float_not_dec f m s : class_ok (CFloat f) → 1 ≤ s ≤ MAX_SCALE → Z.abs m < 2 ^ 96 → ¬ Qeq (f_value f) (Qmake m (pow_pos 10 s)).
Proof.
  intros (_ & _ & _ & [Hbig|[_ Hd]]) Hs Hm; [|apply Hd; [lia|done]]. unfold Qeq. cbn [Qnum Qden]. rewrite pow_pos_val by lia.
  intros E. apply (f_equal Z.abs) in E. rewrite !Z.abs_mul in E. pose proof (Z.pow_pos_nonneg 10 s).
  assert (C38 * Z.pos (Qden (f_value f)) * 10 ^ s ≤ Z.abs (Qnum (f_value f)) * 10 ^ s) as Hc1 by nia.
  rewrite (Z.abs_eq (10 ^ s)) in E by lia. unfold C38 in *. nia.
Qed.
Lemma class_inj c1 c2 : class_ok c1 → class_ok c2 → Qeq (class_value c1) (class_value c2) → c1 = c2.
Proof.
  destruct c1 as [i|m s|f], c2 as [j|n t|g]; intros Hc1 Hc2 E; cbn [class_value] in E.
  - unfold Qeq in E. simpl in E. f_equal. lia.
  - destruct Hc2 as (Ht & _ & Hn). unfold Qeq in E. cbn [Qnum Qden] in E. rewrite pow_pos_val in E by lia.
    destruct (dec_lowest i 0 n t); [lia|done|rewrite Z.pow_0_r; lia|lia].
  - symmetry in E. by apply float_not_int in E.
  - destruct Hc1 as (Hs & _ & Hm). unfold Qeq in E. cbn [Qnum Qden] in E. rewrite pow_pos_val in E by lia.
    destruct (dec_lowest j 0 m s); [lia|done|rewrite Z.pow_0_r; lia|lia].
  - destruct Hc1 as (Hs & _ & Hm), Hc2 as (Ht & _ & Hn). unfold Qeq in E. cbn [Qnum Qden] in E. rewrite !pow_pos_val in E by lia.
    destruct (Z.le_ge_cases s t); [destruct (dec_lowest m s n t)|destruct (dec_lowest n t m s)]; by subst || lia || done.
  - symmetry in E. destruct Hc1 as (? & ? & ?). by apply float_not_dec in E.
  - by apply float_not_int in E.
  - destruct Hc2 as (? & ? & ?). by apply float_not_dec in E.
  - f_equal. destruct Hc1 as (? & ? & ? & _), Hc2 as (? & ? & ? & _). by apply same_value.
Qed.

(** Two numbers hash alike exactly when they are equal: an integer, a
    float and a decimal of one value have one class, and numbers of different
    values never share a class, so that an index keyed by classes finds a
    number whatever kind it was written with. *)
Theorem num_class_exact a b : num_ok a → num_ok b → num_class a = num_class b ↔ cmp_num a b = Eq.
Proof.
  intros Ha Hb. rewrite cmp_num_value by done. rewrite <- Qeq_alt. destruct (class_exact a Ha) as [O1 V1], (class_exact b Hb) as [O2 V2].
  split; intros E.
  - by rewrite <- V1, E, V2.
  - apply class_inj; [done..|]. by rewrite V1, E, V2.
Qed.
End exact.

(** ** A concrete decimal: its sign, its 96-bit magnitude, its scale. *)
Definition dec_okb (mag scale : Z) : bool := (0 <=? mag) && (mag <? 2 ^ 96) && (0 <=? scale) && (scale <=? MAX_SCALE).
Record sample_dec := SampleDec { dec_neg : bool; dec_mag : Z; dec_scale : Z; dec_valid : dec_okb dec_mag dec_scale = true }.
Definition dec_mantissa (d : sample_dec) : Z := if dec_neg d then - dec_mag d else dec_mag d.
Definition dec_make (neg : bool) (mag scale : Z) : sample_dec :=
  match Bool.bool_dec (dec_okb mag scale) true with
  | left H => SampleDec neg mag scale H
  | right _ => SampleDec neg 0 0 eq_refl
  end.
Fixpoint dec_strip (fuel : nat) (mag scale : Z) : Z * Z :=
  match fuel with
  | O => (mag, scale)
  | S fuel => if (0 <? scale) && (mag mod 10 =? 0) then dec_strip fuel (mag / 10) (scale - 1) else (mag, scale)
  end.
Definition dec_normalize (d : sample_dec) : sample_dec :=
  let '(mag, scale) := dec_strip 28 (dec_mag d) (dec_scale d) in dec_make (dec_neg d) mag scale.
#[export] Instance sample_decimals : Decimals :=
  {| Decimal := sample_dec; mantissa := dec_mantissa; scale := dec_scale; normalize := dec_normalize |}.
Lemma dec_okb_spec mag scale : dec_okb mag scale = true ↔ 0 ≤ mag < 2 ^ 96 ∧ 0 ≤ scale ≤ MAX_SCALE.
Proof. unfold dec_okb. rewrite !andb_true_iff, !Z.leb_le, Z.ltb_lt. tauto. Qed.
Lemma dec_ok d : 0 ≤ dec_mag d < 2 ^ 96 ∧ 0 ≤ dec_scale d ≤ MAX_SCALE.
Proof. apply dec_okb_spec, dec_valid. Qed.
Lemma dec_make_ok neg mag scale : dec_okb mag scale = true →
  dec_neg (dec_make neg mag scale) = neg ∧ dec_mag (dec_make neg mag scale) = mag ∧ dec_scale (dec_make neg mag scale) = scale.
Proof. intros H. unfold dec_make. by destruct (Bool.bool_dec _ _). Qed.
Lemma dec_strip_ok fuel : ∀ mag scale, 0 ≤ mag < 2 ^ 96 → 0 ≤ scale ≤ Z.of_nat fuel → scale ≤ MAX_SCALE →
  ∃ m s, dec_strip fuel mag scale = (m, s) ∧ 0 ≤ m < 2 ^ 96 ∧ 0 ≤ s ≤ scale ∧ mag * 10 ^ s = m * 10 ^ scale ∧ (s = 0 ∨ m mod 10 ≠ 0).
Proof.
  induction fuel as [|fuel IH]; intros mag scale Hm Hs Hl; cbn [dec_strip].
  - exists mag, scale. split; [done|]. split; [done|]. split; [lia|]. split; [done|left; lia].
  - destruct (Z.ltb_spec 0 scale), (Z.eqb_spec (mag mod 10) 0); cbn [andb].
    2-4: exists mag, scale; (split; [done|]); (split; [done|]); (split; [lia|]); (split; [done|]); first [by right|left; lia].
    pose proof (Z.div_mod mag 10 ltac:(lia)). destruct (IH (mag / 10) (scale - 1)) as (m & s & -> & ? & ? & E & ?); [lia..|].
    exists m, s. split; [done|]. split; [done|]. split; [lia|]. split; [|done].
    replace scale with (1 + (scale - 1)) by lia. rewrite Z.pow_add_r by lia. change (10 ^ 1) with 10. lia.
Qed.
#[export] Instance sample_decimals_laws : DecimalsLaws.
Proof.
  split.
  - intros d. pose proof (dec_ok d). cbn. unfold dec_mantissa. destruct (dec_neg d); lia.
  - intros d. apply dec_ok.
  - intros d. pose proof (dec_ok d) as [Hm Hs].
    destruct (dec_strip_ok 28 (dec_mag d) (dec_scale d)) as (m & s & E & Hm' & Hs' & Ev & _); [done|unfold MAX_SCALE in Hs; lia|lia|].
    cbn. unfold dec_mantissa, dec_normalize. rewrite E. destruct (dec_make_ok (dec_neg d) m s) as (-> & -> & ->);
      [apply dec_okb_spec; lia|]. destruct (dec_neg d); lia.
  - intros d. pose proof (dec_ok d) as [Hm Hs].
    destruct (dec_strip_ok 28 (dec_mag d) (dec_scale d)) as (m & s & E & Hm' & Hs' & _ & Hz); [done|unfold MAX_SCALE in Hs; lia|lia|].
    cbn. unfold dec_mantissa, dec_normalize. rewrite E. destruct (dec_make_ok (dec_neg d) m s) as (-> & -> & ->);
      [apply dec_okb_spec; lia|]. destruct Hz as [|Hz]; [by left|right]. destruct (dec_neg d); [|done].
    rewrite Z.mod_opp_l_nz by done. pose proof (Z.mod_pos_bound m 10). lia.
Qed.

(** [2^53 + 1] is no float: it is above the float [2^53], which a division
    of both by a float would not see. *)
Lemma cmp_num_exact_witness :
  (num_ok (NInt 9007199254740993) ∧ num_ok (NFloat 0x4340000000000000)) ∧
  cmp_num (NInt 9007199254740993) (NFloat 0x4340000000000000) = Gt ∧
  Qcompare (num_value (NInt 9007199254740993)) (num_value (NFloat 0x4340000000000000)) = Gt.
Proof.
  assert (num_ok (NInt 9007199254740993) ∧ num_ok (NFloat 0x4340000000000000)) as [H1 H2].
  { split; [unfold num_ok, in_i64, i64_min, i64_max; lia|]. split; [unfold in_u; lia|by vm_compute]. }
  pose proof (cmp_num_exact _ _ H1 H2) as E. split; [by split|]. split; [rewrite E|]; by vm_compute.
Defined.
(** [0.5], [0.50] and the float [0.5]. *)
Lemma num_class_exact_witness :
  num_ok (NFloat 0x3FE0000000000000) ∧
  cmp_num (NDecimal (dec_make false 50 2)) (NFloat 0x3FE0000000000000) = Eq ∧
  num_class (NDecimal (dec_make false 50 2)) = num_class (NFloat 0x3FE0000000000000).
Proof.
  assert (num_ok (NFloat 0x3FE0000000000000)) as H by (split; [unfold in_u; lia|by vm_compute]).
  assert (cmp_num (NDecimal (dec_make false 50 2)) (NFloat 0x3FE0000000000000) = Eq) as E by by vm_compute.
  split; [exact H|]. split; [exact E|]. apply num_class_exact; [exact I|exact H|exact E].
Defined.
