(* ===== verification/Floats.v ===== *)
(** * The floats of the language: [f64] arithmetic, texts and comparison

    A float is its 64 bits ([DocNum]). The result of an operation is its exact
    value, a fraction, rounded to the nearest float, ties to even. A NaN is
    [NAN]: its payload is not followed. *)
From Stdlib Require Import QArith_base Qabs.
From S2P Require Import Prelude Utf8 Text DocNum.
Open Scope Z_scope.

(** ** Rounding *)
Definition INF : Z := 0x7FF0000000000000.
Definition NEG_INF : Z := 0xFFF0000000000000.
Definition NAN : Z := 0x7FF8000000000000.
Definition ONE : Z := 0x3FF0000000000000.
(** 9.0e15 *)
Definition F_9E15 : Z := 0x433FF973CAFA8000.
Definition with_sign (neg : bool) (b : Z) : Z := if neg then 2 ^ 63 + b else b.
(** The power of two of the unit in the last place, for the magnitude [n/d]. *)
Definition ulp_exp (n d : Z) : Z :=
  let e := Z.log2 n - Z.log2 d - 53 in
  let e := if n * 2 ^ Z.max 0 (- e) <? 2 ^ 53 * d * 2 ^ Z.max 0 e then e else e + 1 in
  Z.max (-1074) e.
(** The nearest integer to [n/d], the even one of two. *)
Definition round_even (n d : Z) : Z :=
  let q := n / d in
  match 2 * (n mod d) ?= d with Lt => q | Gt => q + 1 | Eq => if Z.even q then q else q + 1 end.
(** The float nearest to [n/d], positive. A carry of the fraction goes to the
    exponent by itself. *)
Definition round_pos (n d : Z) : Z :=
  let e := ulp_exp n d in
  let q := round_even (n * 2 ^ Z.max 0 (- e)) (d * 2 ^ Z.max 0 e) in
  Z.min INF ((e + 1074) * 2 ^ 52 + q).
Definition round_q (q : Q) : Z :=
  match Qnum q with Z0 => 0 | n => with_sign (n <? 0) (round_pos (Z.abs n) (Zpos (Qden q))) end.

(** ** Arithmetic *)
Definition f_is_nan (b : Z) : bool := (f_exp_bits b =? 0x7ff) && negb (f_frac_bits b =? 0).
Definition f_is_inf (b : Z) : bool := (f_exp_bits b =? 0x7ff) && (f_frac_bits b =? 0).
Definition f_neg (b : Z) : Z := Z.lxor b (2 ^ 63).
Definition f_add (a b : Z) : Z :=
  if f_is_nan a || f_is_nan b then NAN
  else if f_is_inf a then if f_is_inf b && negb (eqb (f_sign a) (f_sign b)) then NAN else a
  else if f_is_inf b then b
  else
    let q := Qplus (f_value a) (f_value b) in
    if Qnum q =? 0 then with_sign (f_sign a && f_sign b) 0 else round_q q.
Definition f_sub (a b : Z) : Z := f_add a (f_neg b).
Definition f_mul (a b : Z) : Z :=
  let s := xorb (f_sign a) (f_sign b) in
  if f_is_nan a || f_is_nan b then NAN
  else if f_is_inf a || f_is_inf b then if f_is_zero a || f_is_zero b then NAN else with_sign s INF
  else
    let q := Qmult (f_value a) (f_value b) in
    if Qnum q =? 0 then with_sign s 0 else round_q q.
Definition f_div (a b : Z) : Z :=
  let s := xorb (f_sign a) (f_sign b) in
  if f_is_nan a || f_is_nan b then NAN
  else if f_is_inf a then if f_is_inf b then NAN else with_sign s INF
  else if f_is_inf b then with_sign s 0
  else if f_is_zero b then if f_is_zero a then NAN else with_sign s INF
  else
    let q := Qdiv (f_value a) (f_value b) in
    if Qnum q =? 0 then with_sign s 0 else round_q q.
(** [i as f64] *)
Definition f_of_int (i : Z) : Z := round_q (Qmake i 1).

(** ** Comparison *)
(** [==], [<] and [<=] of floats; an infinity has a value above all others. *)
Definition f_eq (a b : Z) : bool := negb (f_is_nan a || f_is_nan b) && match Qcompare (f_value a) (f_value b) with Eq => true | _ => false end.
Definition f_ltb (a b : Z) : bool := negb (f_is_nan a || f_is_nan b) && f_lt a b.
Definition f_leb (a b : Z) : bool := f_ltb a b || f_eq a b.
(** [f64::total_cmp]: the bits as a sign and a magnitude. *)
Definition total_key (b : Z) : Z := if f_sign b then - 1 - f_abs b else b.
Definition total_cmp (a b : Z) : comparison := total_key a ?= total_key b.
Definition f_min (a b : Z) : Z := if f_is_nan a then b else if f_is_nan b then a else if f_ltb b a then b else a.
Definition f_max (a b : Z) : Z := if f_is_nan a then b else if f_is_nan b then a else if f_ltb a b then b else a.
Definition f_whole (f : Z) : bool := f_finite f && (Qnum (f_fract f) =? 0).

(** ** Texts *)
(** The float nearest to [m * 10^e]. *)
Definition of_decimal_parts (m e digits : Z) : Z :=
  if m =? 0 then 0
  else if 400 <? e then INF
  else if e + digits <? -400 then 0
  else if 0 <=? e then round_pos (m * 10 ^ e) 1 else round_pos m (10 ^ (- e)).
Definition is_digitb (c : Z) : bool := (48 <=? c) && (c <=? 57).
Fixpoint digit_span (s : str) : str * str :=
  match s with
  | c :: t => if is_digitb c then let '(d, r) := digit_span t in (c :: d, r) else ([], s)
  | [] => ([], [])
  end.
(** An exponent, all of the text: [e] or [E], a sign, digits. *)
Definition read_exp (s : str) : option Z :=
  match s with
  | [] => Some 0
  | c :: t =>
    if (c =? 101) || (c =? 69) then
      let '(neg, t) := sign_of t in
      match digit_span t with
      | ((_ :: _) as d, []) => n ← read_digits 0 d; Some (if neg : bool then - n else n)
      | _ => None
      end
    else None
  end.
Definition parse_magnitude (s : str) : option Z :=
  if bool_decide (lower s = lit "inf") || bool_decide (lower s = lit "infinity") then Some INF
  else if bool_decide (lower s = lit "nan") then Some NAN
  else
    let '(whole, r) := digit_span s in
    let '(frac, r) := match r with c :: t => if c =? 46 then digit_span t else ([], r) | [] => ([], []) end in
    if bool_decide (whole ++ frac = []) then None
    else
      e ← read_exp r;
      m ← read_digits 0 (whole ++ frac);
      Some (of_decimal_parts m (e - len frac) (len whole + len frac)).
(** [s.parse::<f64>()] *)
Definition parse_f64 (s : str) : option Z := let '(neg, t) := sign_of s in with_sign neg <$> parse_magnitude t.

(** The power of ten of the first digit of [n/d]. *)
Fixpoint log10 (fuel : nat) (n d : Z) : Z :=
  match fuel with
  | O => 0
  | S fuel => if n <? d then log10 fuel (10 * n) d - 1 else if 10 * d <=? n then log10 fuel n (10 * d) + 1 else 0
  end.
(** [k] digits that read back as the float of magnitude [b], the nearest to
    its value [n/d]: they mean [c * 10^x]. *)
Definition digits_of_length (b n d x : Z) : option Z :=
  let n1 := n * 10 ^ Z.max 0 (- x) in
  let d1 := d * 10 ^ Z.max 0 x in
  let c := n1 / d1 in
  let ok c := of_decimal_parts c x (Z.max 0 (- x)) =? b in
  match ok c, ok (c + 1) with
  | true, true => Some (if 2 * (n1 mod d1) <=? d1 then c else c + 1)
  | true, false => Some c
  | false, true => Some (c + 1)
  | false, false => None
  end.
Fixpoint shortest_loop (fuel : nat) (b n d p k : Z) : Z * Z :=
  match fuel with
  | O => (0, 0)
  | S fuel =>
    let x := p + 1 - k in
    match digits_of_length b n d x with
    | Some c => (c, x)
    | None => shortest_loop fuel b n d p (k + 1)
    end
  end.
Fixpoint strip_zeros (fuel : nat) (c x : Z) : Z * Z :=
  match fuel with
  | O => (c, x)
  | S fuel => if (c mod 10 =? 0) && negb (c =? 0) then strip_zeros fuel (c / 10) (x + 1) else (c, x)
  end.
(** The shortest decimal that reads back as a finite float: [c * 10^x]. It has
    seventeen digits at most; with [1800] of them the decimal is the float
    itself, so that the search always ends with one. *)
Definition shortest (b : Z) : Z * Z :=
  if b =? 0 then (0, 0)
  else
    let q := f_value b in
    let n := Qnum q in
    let d := Zpos (Qden q) in
    let '(c, x) := shortest_loop 1800 b n d (log10 700 n d) 1 in
    strip_zeros 20 c x.
(** As many digits as it takes: [nat_text] stops at forty. *)
Definition long_text (n : Z) : str := digits_loop (S (Z.to_nat (Z.log2 n))) n [].
(** The digits of [c * 10^x], with their point. *)
Definition decimal_text (c x : Z) : str :=
  let ds := long_text c in
  if 0 <=? x then ds ++ (if c =? 0 then [] else repeat 48 (Z.to_nat x))
  else
    let k := Z.to_nat (- x) in
    if Nat.ltb k (length ds) then take (length ds - k) ds ++ [46] ++ drop (length ds - k) ds
    else [48; 46] ++ repeat 48 (k - length ds) ++ ds.
(** [format!("{f}")]: no exponent, whatever the size. *)
Definition float_text (f : Z) : str :=
  if f_is_nan f then lit "NaN"
  else
    let sign := if f_sign f then [45] else [] in
    if f_is_inf f then sign ++ lit "inf"
    else let '(c, x) := shortest (f_abs f) in sign ++ decimal_text c x.

(** ** Whole numbers are exact *)
Lemma float_bits u q : -1074 ≤ u ≤ 971 → 2 ^ 52 ≤ q < 2 ^ 53 →
  let b := (u + 1074) * 2 ^ 52 + q in
  0 ≤ b < INF ∧ f_parts b = (q, u) ∧ f_sign b = false ∧ f_finite b = true.
Proof.
  intros Hu Hq. set (b := (u + 1074) * 2 ^ 52 + q). cbv zeta.
  assert (0 ≤ b < INF) as Hb by (unfold b, INF; lia).
  assert (Z.shiftr b 52 = u + 1075) as He.
  { rewrite Z.shiftr_div_pow2 by lia. unfold b. replace ((u + 1074) * 2 ^ 52 + q) with (q - 2 ^ 52 + (u + 1075) * 2 ^ 52) by lia.
    rewrite Z.div_add by lia. rewrite Z.div_small; lia. }
  assert (f_exp_bits b = u + 1075) as Hx.
  { unfold f_exp_bits. rewrite He. change 0x7ff with (Z.ones 11). rewrite Z.land_ones, Z.mod_small by lia. done. }
  assert (f_frac_bits b = q - 2 ^ 52) as Hf.
  { unfold f_frac_bits. change (Z.shiftl 1 52 - 1) with (Z.ones 52). rewrite Z.land_ones by lia. unfold b.
    replace ((u + 1074) * 2 ^ 52 + q) with (q - 2 ^ 52 + (u + 1075) * 2 ^ 52) by lia. rewrite Z.mod_add by lia. apply Z.mod_small. lia. }
  split; [done|]. split; [|split].
  - unfold f_parts. rewrite Hx, Hf. destruct (Z.eqb_spec (u + 1075) 0); [lia|]. f_equal; [|lia].
    rewrite <- Z.add_nocarry_lor, Z.shiftl_1_l; [lia|]. apply Z.bits_inj'. intros k Hk. rewrite Z.land_spec, Z.shiftl_1_l, Z.pow2_bits_eqb, Z.bits_0 by lia.
    destruct (Z.eqb_spec 52 k) as [<-|]; [|by rewrite andb_false_r]. rewrite andb_true_r. apply (Ztestbit_high_small _ 52); lia.
  - unfold f_sign. rewrite Z.shiftr_div_pow2 by lia. unfold INF in Hb. rewrite Z.div_small by lia. done.
  - unfold f_finite. rewrite Hx. apply negb_true_iff, Z.eqb_neq. lia.
Qed.
Lemma round_pos_int n : 0 < n < 2 ^ 53 →
  0 ≤ round_pos n 1 < INF ∧ f_sign (round_pos n 1) = false ∧ f_finite (round_pos n 1) = true ∧ Qeq (f_value (round_pos n 1)) (inject_Z n).
Proof.
  intros Hn. set (l := Z.log2 n). assert (0 ≤ l ≤ 52) as Hl.
  { split; [apply Z.log2_nonneg|]. assert (l < 53); [|lia]. apply Z.log2_lt_pow2; lia. }
  pose proof (Z.log2_spec n ltac:(lia)) as [Hlo Hhi]. fold l in Hlo, Hhi. rewrite Z.pow_succ_r in Hhi by lia.
  assert (2 ^ l * 2 ^ (52 - l) = 2 ^ 52) as Hp by (rewrite <- Z.pow_add_r by lia; f_equal; lia).
  assert (0 < 2 ^ (52 - l)) as Hpos by (apply Z.pow_pos_nonneg; lia).
  assert (2 ^ (53 - l) = 2 * 2 ^ (52 - l)) as Hp1 by (rewrite <- Z.pow_succ_r by lia; f_equal; lia).
  assert (ulp_exp n 1 = l - 52) as Hu.
  { unfold ulp_exp. fold l. change (Z.log2 1) with 0. replace (l - 0 - 53) with (l - 53) by lia.
    replace (Z.max 0 (- (l - 53))) with (53 - l) by lia. replace (Z.max 0 (l - 53)) with 0 by lia. rewrite Hp1.
    destruct (Z.ltb_spec (n * (2 * 2 ^ (52 - l))) (2 ^ 53 * 1 * 2 ^ 0)) as [H|_]; [|lia].
    change (2 ^ 53 * 1 * 2 ^ 0) with (2 * 2 ^ 52) in H. rewrite <- Hp in H. nia. }
  set (q := n * 2 ^ (52 - l)). assert (2 ^ 52 ≤ q < 2 ^ 53) as Hq.
  { unfold q. change (2 ^ 53) with (2 * 2 ^ 52). rewrite <- Hp. nia. }
  destruct (float_bits (l - 52) q) as (Hb & Hparts & Hs & Hf); [lia|done|].
  assert (round_pos n 1 = (l - 52 + 1074) * 2 ^ 52 + q) as ->.
  { unfold round_pos. rewrite Hu. replace (Z.max 0 (- (l - 52))) with (52 - l) by lia. replace (Z.max 0 (l - 52)) with 0 by lia.
    fold q. unfold round_even. rewrite Z.div_1_r, Z.mod_1_r. change (2 * 0 ?= 1 * 2 ^ 0) with Lt. cbv iota. lia. }
  split; [done|]. split; [done|]. split; [done|]. unfold f_value. rewrite Hparts, Hs.
  destruct (Z.leb_spec 0 (l - 52)) as [H|H].
  - assert (l = 52) as -> by lia. unfold Qeq, inject_Z, q. simpl. lia.
  - unfold Qeq, inject_Z, q, pow_pos. cbn [Qnum Qden]. rewrite Z2Pos.id by (apply Z.pow_pos_nonneg; lia).
    replace (- (l - 52)) with (52 - l) by lia. lia.
Qed.
Lemma sign_bit b : 0 ≤ b < 2 ^ 63 → f_sign (2 ^ 63 + b) = true ∧ f_parts (2 ^ 63 + b) = f_parts b ∧ f_finite (2 ^ 63 + b) = f_finite b.
Proof.
  intros Hb. assert (Z.shiftr (2 ^ 63 + b) 63 = 1) as Hs.
  { rewrite Z.shiftr_div_pow2 by lia. replace (2 ^ 63 + b) with (b + 1 * 2 ^ 63) by lia. rewrite Z.div_add, Z.div_small by lia. done. }
  assert (f_exp_bits (2 ^ 63 + b) = f_exp_bits b) as He.
  { unfold f_exp_bits. rewrite !Z.shiftr_div_pow2 by lia. replace (2 ^ 63 + b) with (b + 2 ^ 11 * 2 ^ 52) by lia. rewrite Z.div_add by lia.
    change 0x7ff with (Z.ones 11). rewrite !Z.land_ones by lia. replace (b / 2 ^ 52 + 2 ^ 11) with (b / 2 ^ 52 + 1 * 2 ^ 11) by lia. by rewrite Z.mod_add by lia. }
  assert (f_frac_bits (2 ^ 63 + b) = f_frac_bits b) as Hf.
  { unfold f_frac_bits. change (Z.shiftl 1 52 - 1) with (Z.ones 52). rewrite !Z.land_ones by lia.
    replace (2 ^ 63 + b) with (b + 2 ^ 11 * 2 ^ 52) by lia. by rewrite Z.mod_add by lia. }
  unfold f_sign, f_parts, f_finite. by rewrite Hs, He, Hf.
Qed.
(** An integer below 2^53 is a float exactly. *)
Lemma f_of_int_exact i : Z.abs i < 2 ^ 53 → in_u 64 (f_of_int i) ∧ f_finite (f_of_int i) = true ∧ Qeq (f_value (f_of_int i)) (inject_Z i).
Proof.
  intros Hi. destruct i as [|n|n]; [vm_compute; done| |].
  - destruct (round_pos_int (Zpos n)) as (Hb & _ & Hf & Hv); [lia|]. change (f_of_int (Zpos n)) with (round_pos (Zpos n) 1).
    unfold INF in Hb. split; [unfold in_u; lia|done].
  - destruct (round_pos_int (Zpos n)) as (Hb & Hs & Hf & Hv); [lia|]. change (f_of_int (Zneg n)) with (2 ^ 63 + round_pos (Zpos n) 1). unfold INF in Hb.
    destruct (sign_bit (round_pos (Zpos n) 1)) as (Hs' & Hp' & Hf'); [lia|]. rewrite Hf'. split; [unfold in_u; lia|]. split; [done|].
    revert Hv. unfold f_value. rewrite Hp', Hs, Hs'. destruct (f_parts (round_pos (Zpos n) 1)) as [m e].
    change (Zneg n) with (- Zpos n). generalize (Zpos n). intros z. unfold Qeq, inject_Z. destruct (Z.leb 0 e); cbn [Qnum Qden]; intros Hv; rewrite ?Z.mul_opp_l, Hv; lia.
Qed.
