(* ===== verification/FloatsThm.v ===== *)
(** * Floats written and read back

    The float nearest to a value that is a float is that float, in whatever
    fraction the value comes; so the decimal that is written of a float reads
    back as the same float. *)
From Stdlib Require Import QArith_base.
From S2P Require Import Prelude Utf8 Text DocNum Floats.
Open Scope Z_scope.

(** ** The unit in the last place *)
(** Powers of two of which the exponents have one sum. *)
Lemma pow2_sum a b c d : 0 ≤ a → 0 ≤ b → 0 ≤ c → 0 ≤ d → a + b = c + d → 2 ^ a * 2 ^ b = 2 ^ c * 2 ^ d.
Proof. intros ???? E. rewrite <- !Z.pow_add_r by done. by rewrite E. Qed.
Lemma pow2_pos a : 0 ≤ a → 0 < 2 ^ a.
Proof. intros. by apply Z.pow_pos_nonneg. Qed.
(** [n/d], in units of [2^e], has 53 bits. *)
Definition scaled (n d e : Z) : Prop :=
  2 ^ 52 * d * 2 ^ Z.max 0 e ≤ n * 2 ^ Z.max 0 (- e) ∧ n * 2 ^ Z.max 0 (- e) < 2 ^ 53 * d * 2 ^ Z.max 0 e.
Lemma scaled_le n d e e' : 0 < n → 0 < d → scaled n d e → scaled n d e' → e' ≤ e.
Proof.
  intros Hn Hd [_ Hu] [Hl _]. destruct (Z.le_gt_cases e' e) as [|Hlt]; [done|]. exfalso.
  pose proof (pow2_pos (Z.max 0 (- e)) ltac:(lia)) as HA. pose proof (pow2_pos (Z.max 0 (- e')) ltac:(lia)) as HA'.
  pose proof (pow2_pos (Z.max 0 e) ltac:(lia)) as HB. pose proof (pow2_pos (Z.max 0 e') ltac:(lia)) as HB'.
  assert (2 ^ Z.max 0 e' * 2 ^ Z.max 0 (- e) = 2 ^ (e' - e) * (2 ^ Z.max 0 e * 2 ^ Z.max 0 (- e'))) as E.
  { rewrite <- !Z.pow_add_r by lia. f_equal. lia. }
  assert (2 * 1 ≤ 2 ^ (e' - e)) as H2 by (replace (e' - e) with (Z.succ (e' - e - 1)) by lia; rewrite Z.pow_succ_r by lia; pose proof (pow2_pos (e' - e - 1) ltac:(lia)); lia).
  set (A := 2 ^ Z.max 0 (- e)) in *. set (A' := 2 ^ Z.max 0 (- e')) in *. set (B := 2 ^ Z.max 0 e) in *. set (B' := 2 ^ Z.max 0 e') in *.
  assert (2 ^ 52 * d * (B' * A) ≤ n * A * A') as H3 by (replace (2 ^ 52 * d * (B' * A)) with (2 ^ 52 * d * B' * A) by ring; replace (n * A * A') with (n * A' * A) by ring; by apply Z.mul_le_mono_nonneg_r; [lia|]).
  assert (n * A * A' < 2 ^ 53 * d * B * A') as H4 by (by apply Z.mul_lt_mono_pos_r).
  rewrite E in H3. assert (0 < d * (B * A')) as Hp by (apply Z.mul_pos_pos; [done|by apply Z.mul_pos_pos]).
  assert (2 ^ 52 * (2 * (d * (B * A'))) ≤ 2 ^ 52 * d * (2 ^ (e' - e) * (B * A'))) as H5.
  { replace (2 ^ 52 * d * (2 ^ (e' - e) * (B * A'))) with (2 ^ 52 * (2 ^ (e' - e) * (d * (B * A')))) by ring.
    apply Z.mul_le_mono_nonneg_l; [lia|]. apply Z.mul_le_mono_nonneg_r; lia. }
  replace (2 ^ 53 * d * B * A') with (2 ^ 52 * (2 * (d * (B * A')))) in H4 by (change (2 ^ 53) with (2 ^ 52 * 2); ring). lia.
Qed.
Lemma scaled_unique n d e e' : 0 < n → 0 < d → scaled n d e → scaled n d e' → e = e'.
Proof. intros Hn Hd H1 H2. pose proof (scaled_le n d e e' Hn Hd H1 H2). pose proof (scaled_le n d e' e Hn Hd H2 H1). lia. Qed.
(** [ulp_exp] before it is held to what floats have. *)
Definition ulp_free (n d : Z) : Z :=
  let e := Z.log2 n - Z.log2 d - 53 in
  if n * 2 ^ Z.max 0 (- e) <? 2 ^ 53 * d * 2 ^ Z.max 0 e then e else e + 1.
Lemma ulp_free_scaled n d : 0 < n → 0 < d → scaled n d (ulp_free n d).
Proof.
  intros Hn Hd. unfold ulp_free. set (a := Z.log2 n). set (b := Z.log2 d). set (e := a - b - 53).
  pose proof (Z.log2_spec n Hn) as [Hn1 Hn2]. pose proof (Z.log2_spec d Hd) as [Hd1 Hd2]. fold a in Hn1, Hn2. fold b in Hd1, Hd2.
  pose proof (Z.log2_nonneg n) as Ha. pose proof (Z.log2_nonneg d) as Hb. fold a in Ha. fold b in Hb.
  pose proof (pow2_pos (Z.max 0 (- e)) ltac:(lia)) as HA. pose proof (pow2_pos (Z.max 0 e) ltac:(lia)) as HB.
  destruct (Z.ltb_spec (n * 2 ^ Z.max 0 (- e)) (2 ^ 53 * d * 2 ^ Z.max 0 e)) as [Hlt|Hge]; (split; [|try done]).
  - assert (2 ^ 52 * 2 ^ Z.succ b * 2 ^ Z.max 0 e = 2 ^ a * 2 ^ Z.max 0 (- e)) as E by (rewrite <- !Z.pow_add_r by lia; f_equal; lia).
    etrans; [|apply Z.mul_le_mono_nonneg_r; [lia|exact Hn1]]. rewrite <- E. apply Z.mul_le_mono_nonneg_r; [lia|]. lia.
  - pose proof (pow2_pos (Z.max 0 (- (e + 1))) ltac:(lia)) as HA'. apply (Z.mul_le_mono_pos_r _ _ (2 ^ Z.max 0 (- e))); [done|].
    assert (2 ^ Z.max 0 (e + 1) * 2 ^ Z.max 0 (- e) = 2 * (2 ^ Z.max 0 e * 2 ^ Z.max 0 (- (e + 1)))) as E.
    { change 2 with (2 ^ 1) at 3. rewrite <- !Z.pow_add_r by lia. f_equal. lia. }
    replace (2 ^ 52 * d * 2 ^ Z.max 0 (e + 1) * 2 ^ Z.max 0 (- e)) with (2 ^ 53 * d * 2 ^ Z.max 0 e * 2 ^ Z.max 0 (- (e + 1)))
      by (rewrite <- (Z.mul_assoc _ (2 ^ Z.max 0 (e + 1))), E; change (2 ^ 53) with (2 ^ 52 * 2); ring).
    replace (n * 2 ^ Z.max 0 (- (e + 1)) * 2 ^ Z.max 0 (- e)) with (n * 2 ^ Z.max 0 (- e) * 2 ^ Z.max 0 (- (e + 1))) by ring.
    apply Z.mul_le_mono_nonneg_r; [lia|done].
  - pose proof (pow2_pos (Z.max 0 (- (e + 1))) ltac:(lia)) as HA'. pose proof (pow2_pos (Z.max 0 (e + 1)) ltac:(lia)) as HB'.
    assert (2 ^ Z.succ a * 2 ^ Z.max 0 (- (e + 1)) = 2 ^ 53 * 2 ^ b * 2 ^ Z.max 0 (e + 1)) as E by (rewrite <- !Z.pow_add_r by lia; f_equal; lia).
    eapply Z.lt_le_trans; [apply Z.mul_lt_mono_pos_r; [done|exact Hn2]|]. rewrite E. apply Z.mul_le_mono_nonneg_r; [lia|]. apply Z.mul_le_mono_nonneg_l; lia.
Qed.
Lemma ulp_exp_free n d : ulp_exp n d = Z.max (-1074) (ulp_free n d).
Proof. done. Qed.

(** ** One value, one float *)
Lemma round_even_scale n d k : 0 < d → 0 < k → round_even (n * k) (d * k) = round_even n d.
Proof.
  intros Hd Hk. unfold round_even. rewrite Z.div_mul_cancel_r, Z.mul_mod_distr_r by lia.
  rewrite Z.mul_assoc. by rewrite (Zmult_compare_compat_r (2 * (n mod d)) d k) by lia.
Qed.
Lemma scaled_mul n d k e : 0 < k → scaled n d e → scaled (n * k) (d * k) e.
Proof.
  intros Hk [H1 H2]. split.
  - replace (2 ^ 52 * (d * k) * 2 ^ Z.max 0 e) with (2 ^ 52 * d * 2 ^ Z.max 0 e * k) by ring.
    replace (n * k * 2 ^ Z.max 0 (- e)) with (n * 2 ^ Z.max 0 (- e) * k) by ring. by apply Z.mul_le_mono_pos_r.
  - replace (2 ^ 53 * (d * k) * 2 ^ Z.max 0 e) with (2 ^ 53 * d * 2 ^ Z.max 0 e * k) by ring.
    replace (n * k * 2 ^ Z.max 0 (- e)) with (n * 2 ^ Z.max 0 (- e) * k) by ring. by apply Z.mul_lt_mono_pos_r.
Qed.
Lemma round_pos_scale n d k : 0 < n → 0 < d → 0 < k → round_pos (n * k) (d * k) = round_pos n d.
Proof.
  intros Hn Hd Hk. unfold round_pos. rewrite !ulp_exp_free.
  assert (ulp_free (n * k) (d * k) = ulp_free n d) as ->.
  { apply (scaled_unique (n * k) (d * k)); [nia|nia|apply ulp_free_scaled; nia|]. by apply scaled_mul, ulp_free_scaled. }
  set (e := Z.max (-1074) (ulp_free n d)). pose proof (pow2_pos (Z.max 0 e) ltac:(lia)).
  replace (n * k * 2 ^ Z.max 0 (- e)) with (n * 2 ^ Z.max 0 (- e) * k) by ring. replace (d * k * 2 ^ Z.max 0 e) with (d * 2 ^ Z.max 0 e * k) by ring.
  rewrite round_even_scale by nia. done.
Qed.
Lemma round_pos_ratio n d n' d' : 0 < n → 0 < d → 0 < n' → 0 < d' → n * d' = n' * d → round_pos n d = round_pos n' d'.
Proof.
  intros Hn Hd Hn' Hd' E. rewrite <- (round_pos_scale n d d'), <- (round_pos_scale n' d' d) by done. by rewrite E, (Z.mul_comm d d').
Qed.
Lemma round_even_exact m d : 0 < d → round_even (m * d) d = m.
Proof. intros Hd. unfold round_even. rewrite Z.div_mul, Z.mod_mul by lia. change (2 * 0) with 0. by rewrite (proj2 (Z.compare_lt_iff 0 d)) by done. Qed.

(** The bits of a positive float from its parts. *)
Lemma f_bits_parts b : 0 < b < INF → ∃ m u, f_parts b = (m, u) ∧ 0 < m < 2 ^ 53 ∧ -1074 ≤ u ≤ 971 ∧ (2 ^ 52 ≤ m ∨ u = -1074) ∧ b = (u + 1074) * 2 ^ 52 + m ∧ f_sign b = false ∧ f_finite b = true.
Proof.
  unfold INF. intros Hb. rewrite f_parts_alt. destruct (f_bits b) as (Ee & Ef & Ea). pose proof (Z.div_mod b (2 ^ 52) ltac:(lia)) as Hdm.
  pose proof (Z.mod_pos_bound b (2 ^ 52) ltac:(lia)). assert (0 ≤ b / 2 ^ 52 < 2047) as Hq by (split; [apply Z.div_pos; lia|apply Z.div_lt_upper_bound; lia]).
  rewrite Z.mod_small in Ee by lia. assert (f_sign b = false) as Hs by (unfold f_sign; rewrite Z.shiftr_div_pow2, Z.div_small by lia; done).
  assert (f_finite b = true) as Hfin by (unfold f_finite; apply negb_true_iff, Z.eqb_neq; lia).
  destruct (Z.eqb_spec (f_exp_bits b) 0) as [E0|E0].
  - exists (f_frac_bits b), (-1074). rewrite Ef in *. split_and!; try done; try lia.
  - exists (2 ^ 52 + f_frac_bits b), (f_exp_bits b - 1075). rewrite Ef in *. split_and!; try done; try lia.
Qed.
(** Its value, as a fraction of whole numbers. *)
Lemma f_value_parts b m u : f_parts b = (m, u) → f_sign b = false → f_value b = Qmake (m * 2 ^ Z.max 0 u) (Z.to_pos (2 ^ Z.max 0 (- u))).
Proof.
  intros E Hs. unfold f_value, pow_pos. rewrite E, Hs. destruct (Z.leb_spec 0 u).
  - replace (Z.max 0 u) with u by lia. by replace (Z.max 0 (- u)) with 0 by lia.
  - replace (Z.max 0 u) with 0 by lia. replace (Z.max 0 (- u)) with (- u) by lia. by rewrite Z.mul_1_r.
Qed.
(** The float nearest to the value of a float is that float. *)
Lemma round_pos_value b : 0 < b < INF → 0 < Qnum (f_value b) ∧ round_pos (Qnum (f_value b)) (Zpos (Qden (f_value b))) = b.
Proof.
  intros Hb. destruct (f_bits_parts b Hb) as (m & u & E & Hm & Hu & Hn & Eb & Hs & _). rewrite (f_value_parts b m u E Hs). cbn [Qnum Qden].
  pose proof (pow2_pos (Z.max 0 u) ltac:(lia)) as HB. pose proof (pow2_pos (Z.max 0 (- u)) ltac:(lia)) as HA. rewrite Z2Pos.id by done. split; [nia|].
  set (n := m * 2 ^ Z.max 0 u). set (d := 2 ^ Z.max 0 (- u)). assert (0 < n) as Hn0 by (unfold n; nia).
  assert (∀ e, e ≤ u → n * 2 ^ Z.max 0 (- e) = m * 2 ^ (u - e) * (d * 2 ^ Z.max 0 e)) as Hval.
  { intros e He. unfold n, d. rewrite <- !Z.mul_assoc. f_equal. rewrite <- !Z.pow_add_r by lia. f_equal. lia. }
  assert (ulp_exp n d = u) as Hulp.
  { rewrite ulp_exp_free. pose proof (ulp_free_scaled n d Hn0 HA) as Hsc. destruct (Z.le_gt_cases (2 ^ 52) m) as [Hlarge|Hsmall].
    - assert (ulp_free n d = u) as ->; [|lia]. apply (scaled_unique n d); try done. unfold scaled. rewrite (Hval u) by lia.
      rewrite Z.sub_diag. change (2 ^ 0) with 1. rewrite Z.mul_1_r. pose proof (pow2_pos (Z.max 0 u) ltac:(lia)). unfold d in *.
      rewrite <- !(Z.mul_assoc _ (2 ^ Z.max 0 (- u))). split; [apply Z.mul_le_mono_nonneg_r; nia|apply Z.mul_lt_mono_pos_r; nia].
    - destruct Hn as [|Hu0]; [lia|]. destruct Hsc as [Hlow _]. generalize dependent (ulp_free n d). intros v Hlow. destruct (Z.le_gt_cases v u) as [|Hgt]; [lia|]. exfalso.
      assert (d * 2 ^ Z.max 0 v = 2 ^ (v - u) * (2 ^ Z.max 0 u * 2 ^ Z.max 0 (- v))) as E1 by (unfold d; rewrite <- !Z.pow_add_r by lia; f_equal; lia).
      rewrite <- Z.mul_assoc, E1 in Hlow. unfold n in Hlow. rewrite <- (Z.mul_assoc m) in Hlow. pose proof (pow2_pos (Z.max 0 (- v)) ltac:(lia)). pose proof (pow2_pos (v - u) ltac:(lia)).
      set (Y := 2 ^ Z.max 0 u * 2 ^ Z.max 0 (- v)) in *. assert (0 < Y) by (unfold Y; nia). set (X := 2 ^ (v - u)) in *. nia. }
  unfold round_pos. rewrite Hulp, (Hval u), Z.sub_diag by lia. change (2 ^ 0) with 1. rewrite Z.mul_1_r, round_even_exact; [|unfold d; nia]. lia.
Qed.
(** Any fraction of that value. *)
Lemma round_pos_exact b n d : 0 < b < INF → 0 < n → 0 < d → n * Zpos (Qden (f_value b)) = Qnum (f_value b) * d → round_pos n d = b.
Proof.
  intros Hb Hn Hd E. destruct (round_pos_value b Hb) as [Hq Er]. rewrite <- Er. by apply round_pos_ratio.
Qed.

(** ** The decimal that is written *)
(** What the text of [c * 10^x] reads as. *)
Definition reads_as (c x : Z) : Z := if 0 <=? x then round_pos (c * 10 ^ x) 1 else round_pos c (10 ^ (- x)).
Lemma pow10_pos a : 0 ≤ a → 0 < 10 ^ a.
Proof. intros. by apply Z.pow_pos_nonneg. Qed.
Lemma decimal_reads_as c x b : 0 ≤ c → 0 < b < INF → of_decimal_parts c x (Z.max 0 (- x)) = b → 0 < c ∧ reads_as c x = b.
Proof.
  intros Hc Hb. unfold of_decimal_parts, reads_as. destruct (Z.eqb_spec c 0); [lia|]. destruct (Z.ltb_spec 400 x); [lia|].
  rewrite ltb_f by lia. destruct (0 <=? x); (split; [lia|done]).
Qed.
(** What the digits of some length give, when they read back. *)
Lemma digits_read_back b n d x c : 0 < n → 0 < d → 0 < b < INF → digits_of_length b n d x = Some c →
  0 < c ∧ reads_as c x = b ∧ c ≤ n * 10 ^ Z.max 0 (- x) + 1.
Proof.
  intros Hn Hd Hb. unfold digits_of_length. set (n1 := n * 10 ^ Z.max 0 (- x)). set (d1 := d * 10 ^ Z.max 0 x). set (q := n1 / d1).
  pose proof (pow10_pos (Z.max 0 (- x)) ltac:(lia)). pose proof (pow10_pos (Z.max 0 x) ltac:(lia)).
  assert (0 < n1) by (unfold n1; nia). assert (1 ≤ d1) by (unfold d1; nia).
  assert (0 ≤ q ≤ n1) as Hq by (split; [apply Z.div_pos; lia|apply Z.div_le_upper_bound; nia]).
  intros E. assert ((c = q ∨ c = q + 1) ∧ of_decimal_parts c x (Z.max 0 (- x)) = b) as [Hc Hr].
  { destruct (Z.eqb_spec (of_decimal_parts q x (Z.max 0 (- x))) b) as [E1|_], (Z.eqb_spec (of_decimal_parts (q + 1) x (Z.max 0 (- x))) b) as [E2|_]; try done.
    - destruct (_ <=? _); injection E as <-; auto.
    - injection E as <-; auto.
    - injection E as <-; auto. }
  apply decimal_reads_as in Hr as [Hcp Hrd]; [|lia|done]. split; [done|]. split; [done|]. lia.
Qed.
(** Enough digits are the value itself. *)
Lemma digits_found b x : 0 < b < INF → x ≤ -1074 → is_Some (digits_of_length b (Qnum (f_value b)) (Zpos (Qden (f_value b))) x).
Proof.
  intros Hb Hx. destruct (f_bits_parts b Hb) as (m & u & E & Hm & Hu & _ & _ & Hs & _). destruct (round_pos_value b Hb) as [Hn _].
  set (n := Qnum (f_value b)) in *. set (d := Zpos (Qden (f_value b))). unfold digits_of_length.
  replace (Z.max 0 (- x)) with (- x) by lia. replace (Z.max 0 x) with 0 by lia. change (10 ^ 0) with 1. rewrite Z.mul_1_r.
  assert (∃ k, 0 < k ∧ 10 ^ (- x) = k * d) as (k & Hk & Ek).
  { assert (d = 2 ^ Z.max 0 (- u)) as -> by (unfold d; rewrite (f_value_parts b m u E Hs); cbn [Qden]; rewrite Z2Pos.id by (apply pow2_pos; lia); done).
    exists (5 ^ (- x) * 2 ^ (- x - Z.max 0 (- u))). split; [apply Z.mul_pos_pos; apply Z.pow_pos_nonneg; lia|].
    change 10 with (5 * 2). rewrite Z.pow_mul_l, <- Z.mul_assoc, <- Z.pow_add_r by lia. do 2 f_equal. lia. }
  assert (n * 10 ^ (- x) / d = n * k) as -> by (rewrite Ek, Z.mul_assoc; by apply Z.div_mul).
  assert (of_decimal_parts (n * k) x (- x) =? b = true) as ->; [|by destruct (_ =? b); [destruct (_ <=? _)|]; eexists].
  apply Z.eqb_eq. unfold of_decimal_parts. rewrite (proj2 (Z.eqb_neq (n * k) 0)) by nia. rewrite !ltb_f by lia. rewrite (proj2 (Z.leb_gt 0 x)) by lia.
  apply round_pos_exact; [done|nia|apply pow10_pos; lia|]. fold n d. rewrite Ek. ring.
Qed.
Lemma shortest_loop_found b p : 0 < b < INF → let n := Qnum (f_value b) in let d := Zpos (Qden (f_value b)) in
  ∀ fuel k c x, (0 < fuel)%nat → p + 1 - k - (Z.of_nat fuel - 1) ≤ -1074 → shortest_loop fuel b n d p k = (c, x) →
  digits_of_length b n d x = Some c ∧ p + 1 - k - Z.of_nat fuel ≤ x ≤ p + 1 - k.
Proof.
  intros Hb n d. induction fuel as [|fuel IH]; intros k c x Hf Hx; [lia|]. cbn [shortest_loop].
  destruct (digits_of_length b n d (p + 1 - k)) as [c0|] eqn:E; [intros [= <- <-]; split; [done|lia]|].
  destruct fuel as [|fuel].
  - exfalso. destruct (digits_found b (p + 1 - k) Hb) as [c0 Hc]; [lia|]. unfold n, d in E. congruence.
  - intros H. apply IH in H as [H1 H2]; [|lia|lia]. split; [done|lia].
Qed.
Lemma strip_zeros_value fuel : ∀ c x c' x', 0 < c → strip_zeros fuel c x = (c', x') → 0 < c' ∧ x ≤ x' ∧ c = c' * 10 ^ (x' - x).
Proof.
  induction fuel as [|fuel IH]; intros c x c' x' Hc; cbn [strip_zeros]; [intros [= <- <-]; split; [done|]; split; [lia|]; rewrite Z.sub_diag; change (10 ^ 0) with 1; lia|].
  destruct (Z.eqb_spec (c mod 10) 0) as [Em|]; cbn [andb]; [|intros [= <- <-]; split; [done|]; split; [lia|]; rewrite Z.sub_diag; change (10 ^ 0) with 1; lia].
  rewrite (proj2 (Z.eqb_neq c 0)) by lia. cbn [negb]. pose proof (Z.div_mod c 10 ltac:(lia)) as Hdm.
  intros H. apply IH in H as (H1 & H2 & H3); [|lia]. split; [done|]. split; [lia|].
  replace (x' - x) with (Z.succ (x' - (x + 1))) by lia. rewrite Z.pow_succ_r by lia. rewrite Hdm, Em, H3. ring.
Qed.
Lemma strip_zeros_bound fuel : ∀ c x c' x', strip_zeros fuel c x = (c', x') → x ≤ x' ≤ x + Z.of_nat fuel.
Proof.
  induction fuel as [|fuel IH]; intros c x c' x'; cbn [strip_zeros]; [intros [= <- <-]; lia|].
  destruct (_ && _); [intros H; apply IH in H; lia|intros [= <- <-]; lia].
Qed.
Lemma reads_as_stripped c x c' x' : 0 < c' → x ≤ x' → c = c' * 10 ^ (x' - x) → reads_as c x = reads_as c' x'.
Proof.
  intros Hc' Hx ->. pose proof (pow10_pos (x' - x) ltac:(lia)). unfold reads_as. destruct (Z.leb_spec 0 x) as [H0|H0], (Z.leb_spec 0 x') as [H0'|H0']; try lia.
  - f_equal. rewrite <- Z.mul_assoc, <- Z.pow_add_r by lia. f_equal; f_equal; lia.
  - pose proof (pow10_pos (- x) ltac:(lia)). pose proof (pow10_pos x' ltac:(lia)). apply round_pos_ratio; [nia|lia|nia|lia|].
    rewrite <- !Z.mul_assoc, Z.mul_1_r, <- Z.pow_add_r by lia. f_equal; f_equal; lia.
  - pose proof (pow10_pos (- x) ltac:(lia)). pose proof (pow10_pos (- x') ltac:(lia)). apply round_pos_ratio; [nia|lia|lia|lia|].
    rewrite <- !Z.mul_assoc, <- Z.pow_add_r by lia. f_equal; f_equal; lia.
Qed.
(** The decimal of a float reads back as the float; its digits are so many at most. *)
Lemma shortest_reads b c x : 0 < b < INF → shortest b = (c, x) → 0 < c ∧ reads_as c x = b ∧ c ≤ 2 ^ 1024 * 10 ^ 2600 + 1 ∧ Z.abs x ≤ 2600.
Proof.
  intros Hb. unfold shortest. rewrite (proj2 (Z.eqb_neq b 0)) by lia. set (p := log10 700 _ _).
  assert (Z.abs p ≤ 700) as Hp.
  { unfold p. generalize (Qnum (f_value b)), (Zpos (Qden (f_value b))). change 700 with (Z.of_nat 700). generalize 700%nat. induction n as [|n IH]; intros a d; [done|]. cbn [log10].
    destruct (a <? d); [specialize (IH (10 * a) d); lia|]. destruct (10 * d <=? a); [specialize (IH a (10 * d)); lia|lia]. }
  destruct (shortest_loop _ _ _ _ _ _) as [c0 x0] eqn:E. apply (shortest_loop_found b p Hb) in E as [E Hx]; [|lia|lia].
  destruct (round_pos_value b Hb) as [Hn _]. apply digits_read_back in E as (Hc & Hr & Hl); [|done|done|done].
  intros H. pose proof (strip_zeros_bound _ _ _ _ _ H) as Hxb. apply strip_zeros_value in H as (Hc' & Hx' & Ec); [|done]. split; [done|].
  split; [by rewrite <- (reads_as_stripped _ _ _ _ Hc' Hx' Ec)|]. split; [|lia].
  assert (c ≤ c0) as Hle by (pose proof (pow10_pos (x - x0) ltac:(lia)); nia). etrans; [exact Hle|]. etrans; [exact Hl|]. apply Z.add_le_mono_r.
  apply Z.mul_le_mono_nonneg; [lia| |pose proof (pow10_pos (Z.max 0 (- x0)) ltac:(lia)); lia|apply Z.pow_le_mono_r; lia].
  destruct (f_bits_parts b Hb) as (m & u & Ep & Hm & Hu & _ & _ & Hs & _). rewrite (f_value_parts b m u Ep Hs). cbn [Qnum].
  change 1024 with (53 + 971). rewrite Z.pow_add_r by lia. apply Z.mul_le_mono_nonneg; [lia|lia|pose proof (pow2_pos (Z.max 0 u) ltac:(lia)); lia|apply Z.pow_le_mono_r; lia].
Qed.

(** ** The text that is written *)
Lemma long_text_spec n : 0 ≤ n → ∃ c t, long_text n = c :: t ∧ Forall is_digit (c :: t) ∧ read_digits 0 (c :: t) = Some n.
Proof.
  intros Hn. unfold long_text. destruct (digits_loop_spec (S (Z.to_nat (Z.log2 n))) n []) as (ds & -> & Hd & Hr & Hl & _); [|lia|].
  - split; [done|]. destruct (Z.eq_dec n 0) as [->|]; [by apply Z.pow_pos_nonneg|]. pose proof (Z.log2_spec n ltac:(lia)) as [_ Hu]. pose proof (Z.log2_nonneg n).
    rewrite Nat2Z.inj_succ, Z2Nat.id by done. eapply Z.lt_le_trans; [exact Hu|]. apply Z.pow_le_mono_l. lia.
  - rewrite app_nil_r. destruct ds as [|c t]; [change (len []) with 0 in Hl; lia|]. by exists c, t.
Qed.
Lemma digits_app_zeros k : ∀ n, read_digits n (repeat 48 k) = Some (n * 10 ^ Z.of_nat k).
Proof.
  induction k as [|k IH]; intros n; [cbn; f_equal; lia|]. cbn [repeat read_digits]. change (digit 48) with (Some 0). cbn [mbind option_bind]. rewrite IH. f_equal.
  rewrite Nat2Z.inj_succ, Z.pow_succ_r by lia. ring.
Qed.
Lemma digit_span_digits ds r : Forall is_digit ds → match r with c :: _ => is_digitb c = false | [] => True end → digit_span (ds ++ r) = (ds, r).
Proof.
  intros Hd Hr. induction Hd as [|c ds Hc _ IH]; cbn [app].
  - destruct r as [|c r]; [done|]. cbn [digit_span]. by rewrite Hr.
  - cbn [digit_span]. unfold is_digitb. unfold is_digit in Hc. rewrite !leb_t by lia. cbn [andb]. by rewrite IH.
Qed.
(** A number in digits, whole or with a point, is not a word. *)
Lemma digit_not_word c t x w : is_digit c → 58 ≤ x → bool_decide (lower (c :: t) = x :: w) = false.
Proof.
  intros Hc Hw. apply bool_decide_eq_false. intros E. unfold lower in E. cbn [List.map] in E. unfold is_digit in Hc. rewrite leb_f in E by lia. cbn [andb] in E.
  injection E as -> _. lia.
Qed.
Lemma magnitude_number c t : is_digit c → parse_magnitude (c :: t) =
  (let '(whole, r) := digit_span (c :: t) in
   let '(frac, r) := match r with c :: t => if c =? 46 then digit_span t else ([], r) | [] => ([], []) end in
   if bool_decide (whole ++ frac = []) then None
   else e ← read_exp r; m ← read_digits 0 (whole ++ frac); Some (of_decimal_parts m (e - len frac) (len whole + len frac))).
Proof.
  intros Hc. unfold parse_magnitude. change (lit "inf") with [105; 110; 102]. change (lit "infinity") with (105 :: lit "nfinity"). change (lit "nan") with [110; 97; 110].
  by rewrite !digit_not_word by (done || lia).
Qed.
Lemma whole_text c t m : Forall is_digit (c :: t) → read_digits 0 (c :: t) = Some m → 0 < m → parse_magnitude (c :: t) = Some (round_pos m 1).
Proof.
  intros Hd Hr Hm. pose proof (Forall_inv Hd) as Hc. rewrite magnitude_number by done. rewrite <- (app_nil_r (c :: t)) at 1. rewrite digit_span_digits by done.
  rewrite app_nil_r. cbn [read_exp mbind option_bind]. rewrite bool_decide_eq_false_2, Hr by done. cbn [mbind option_bind]. f_equal.
  unfold of_decimal_parts. pose proof (len_nonneg (c :: t)). change (len []) with 0. rewrite (proj2 (Z.eqb_neq m 0)), !ltb_f by lia. change (0 <=? 0 - 0) with true. cbv iota.
  change (10 ^ (0 - 0)) with 1. by rewrite Z.mul_1_r.
Qed.
Lemma point_text c t fr m : Forall is_digit (c :: t) → Forall is_digit fr → read_digits 0 ((c :: t) ++ fr) = Some m → 0 < m → 0 < len fr →
  parse_magnitude ((c :: t) ++ [46] ++ fr) = Some (round_pos m (10 ^ len fr)).
Proof.
  intros Hd Hf Hr Hm Hl. pose proof (Forall_inv Hd) as Hc. change ((c :: t) ++ [46] ++ fr) with (c :: t ++ [46] ++ fr). rewrite magnitude_number by done.
  change (c :: t ++ [46] ++ fr) with ((c :: t) ++ [46] ++ fr). rewrite digit_span_digits by done. cbn [app]. change (46 =? 46) with true. cbv iota.
  pose proof (digit_span_digits fr [] Hf I) as Es. rewrite app_nil_r in Es. rewrite Es. cbn [read_exp mbind option_bind]. rewrite bool_decide_eq_false_2 by done.
  change (c :: t ++ fr) with ((c :: t) ++ fr). rewrite Hr. cbn [mbind option_bind]. f_equal. unfold of_decimal_parts. pose proof (len_nonneg (c :: t)).
  rewrite (proj2 (Z.eqb_neq m 0)), !ltb_f by lia. rewrite (proj2 (Z.leb_gt 0 (0 - len fr))) by lia. by replace (- (0 - len fr)) with (len fr) by lia.
Qed.
Lemma zeros_digits k : Forall is_digit (repeat 48 k).
Proof. apply Forall_forall. intros c Hc. apply list_elem_of_In, repeat_spec in Hc as ->. unfold is_digit. lia. Qed.
Lemma decimal_text_first c x : 0 ≤ c → ∃ d t, decimal_text c x = d :: t ∧ is_digit d.
Proof.
  intros Hc. unfold decimal_text. destruct (long_text_spec c Hc) as (d & t & -> & Hd & _). pose proof (Forall_inv Hd) as Hd0. destruct (0 <=? x); [by exists d, (t ++ if c =? 0 then [] else repeat 48 (Z.to_nat x))|].
  destruct (Nat.ltb_spec (Z.to_nat (- x)) (length (d :: t))) as [H|H]; [|eexists 48, _; split; [reflexivity|unfold is_digit; lia]].
  destruct (length (d :: t) - Z.to_nat (- x))%nat as [|n] eqn:E; [lia|]. cbn [take app]. by eexists d, _.
Qed.
Lemma decimal_text_reads c x : 0 < c → parse_magnitude (decimal_text c x) = Some (reads_as c x).
Proof.
  intros Hc. unfold decimal_text, reads_as. destruct (long_text_spec c ltac:(lia)) as (d & t & E & Hd & Hr). rewrite E. destruct (Z.leb_spec 0 x) as [Hx|Hx].
  - rewrite (proj2 (Z.eqb_neq c 0)) by lia. change ((d :: t) ++ repeat 48 (Z.to_nat x)) with (d :: t ++ repeat 48 (Z.to_nat x)). pose proof (pow10_pos x Hx).
    apply whole_text; [| |nia].
    + change (d :: t ++ repeat 48 (Z.to_nat x)) with ((d :: t) ++ repeat 48 (Z.to_nat x)). apply Forall_app. split; [done|apply zeros_digits].
    + change (d :: t ++ repeat 48 (Z.to_nat x)) with ((d :: t) ++ repeat 48 (Z.to_nat x)). rewrite read_digits_app, Hr. cbn [mbind option_bind]. rewrite digits_app_zeros, Z2Nat.id by done. done.
  - set (ds := d :: t) in *. destruct (Nat.ltb_spec (Z.to_nat (- x)) (length ds)) as [Hk|Hk].
    + set (n := (length ds - Z.to_nat (- x))%nat). assert (0 < n ≤ length ds)%nat as Hn by lia. pose proof (take_drop n ds) as Etd.
      assert (len (drop n ds) = - x) as El by (unfold len; rewrite length_drop; lia). rewrite <- El.
      destruct (take n ds) as [|c0 t0] eqn:Et; [exfalso; assert (length (take n ds) = 0%nat) as E0 by (by rewrite Et); rewrite length_take in E0; lia|].
      rewrite <- Etd in Hd. apply Forall_app in Hd as [Hd1 Hd2]. apply point_text; [done|done|by rewrite Etd|done|lia].
    + set (fr := repeat 48 (Z.to_nat (- x) - length ds) ++ ds).
      assert (len fr = - x) as El by (unfold fr; rewrite len_app; unfold len; rewrite repeat_length; lia). rewrite <- El.
      apply (point_text 48 []); [by repeat constructor|apply Forall_app; split; [apply zeros_digits|done]| |done|lia].
      cbn [app read_digits]. change (digit 48) with (Some 0). cbn [mbind option_bind]. change (10 * 0 + 0) with 0. unfold fr. by rewrite read_digits_zeros.
Qed.

(** ** The signs, and the floats that are not numbers *)
Lemma with_sign_abs f : in_u 64 f → with_sign (f_sign f) (f_abs f) = f.
Proof.
  unfold in_u. intros Hf. unfold with_sign, f_sign. destruct (f_bits f) as (_ & _ & ->). rewrite Z.shiftr_div_pow2 by lia. pose proof (Z.div_mod f (2 ^ 63) ltac:(lia)).
  pose proof (Z.mod_pos_bound f (2 ^ 63) ltac:(lia)). assert (0 ≤ f / 2 ^ 63 < 2) by (split; [apply Z.div_pos; lia|apply Z.div_lt_upper_bound; lia]).
  destruct (Z.eqb_spec (f / 2 ^ 63) 1); lia.
Qed.
Lemma abs_split f : f_abs f = f_exp_bits f * 2 ^ 52 + f_frac_bits f ∧ 0 ≤ f_exp_bits f < 2 ^ 11 ∧ 0 ≤ f_frac_bits f < 2 ^ 52.
Proof.
  destruct (f_bits f) as (-> & -> & ->). pose proof (Z.mod_pos_bound f (2 ^ 52) ltac:(lia)). pose proof (Z.mod_pos_bound (f / 2 ^ 52) (2 ^ 11) ltac:(lia)).
  change (2 ^ 63) with (2 ^ 52 * 2 ^ 11). rewrite Z.rem_mul_r by lia. split; [ring|done].
Qed.
Lemma sign_of_text (neg : bool) c t : is_digit c ∨ 58 ≤ c → sign_of ((if neg then [45] else []) ++ c :: t) = (neg, c :: t).
Proof. intros Hc. unfold is_digit in Hc. destruct neg; [done|]. cbn [app sign_of]. by rewrite !(proj2 (Z.eqb_neq c _)) by lia. Qed.
Lemma abs_finite f : f_is_nan f = false → f_is_inf f = false → 0 ≤ f_abs f < INF.
Proof.
  intros En Ei. destruct (abs_split f) as (Ea & He & Hfr). unfold f_is_nan, f_is_inf in *. unfold INF.
  destruct (Z.eqb_spec (f_exp_bits f) 0x7ff) as [E|E]; cbn [andb] in *; [destruct (f_frac_bits f =? 0); done|lia].
Qed.
Lemma shortest_of f c x : f_is_nan f = false → f_is_inf f = false → shortest (f_abs f) = (c, x) →
  0 ≤ c ∧ parse_magnitude (decimal_text c x) = Some (f_abs f) ∧ c ≤ 2 ^ 1024 * 10 ^ 2600 + 1 ∧ Z.abs x ≤ 2600.
Proof.
  intros En Ei Es. pose proof (abs_finite f En Ei) as Hb. destruct (Z.eq_dec (f_abs f) 0) as [E0|].
  - rewrite E0 in *. unfold shortest in Es. cbn in Es. injection Es as <- <-. split; [done|]. split; [by vm_compute|]. split; [by apply Z.leb_le; vm_compute|lia].
  - destruct (shortest_reads (f_abs f) c x ltac:(lia) Es) as (Hc & Hr & Hl). split; [lia|]. split; [|done]. rewrite decimal_text_reads by done. by rewrite Hr.
Qed.
(** The text that is written of a float reads back as it, bit for bit; that of
    a NaN as one. *)
Lemma float_text_read f : in_u 64 f → parse_f64 (float_text f) = Some (if f_is_nan f then NAN else f).
Proof.
  intros Hf. pose proof (with_sign_abs f Hf) as Hsign. destruct (abs_split f) as (Ea & He & Hfr). unfold float_text, parse_f64.
  destruct (f_is_nan f) eqn:En; [by vm_compute|]. destruct (f_is_inf f) eqn:Ei.
  - unfold f_is_inf in Ei. apply andb_true_iff in Ei as [E1%Z.eqb_eq E2%Z.eqb_eq]. change (lit "inf") with [105; 110; 102]. rewrite sign_of_text by lia.
    assert (parse_magnitude [105; 110; 102] = Some INF) as -> by by vm_compute. cbn [fmap option_fmap option_map]. f_equal. rewrite <- Hsign at 2. f_equal. unfold INF. lia.
  - destruct (shortest (f_abs f)) as [c x] eqn:Es. destruct (shortest_of f c x) as (Hc & Hr & _); [done..|].
    destruct (decimal_text_first c x Hc) as (d & t & Ed & Hd). rewrite Ed in *. rewrite sign_of_text by auto. rewrite Hr. cbn [fmap option_fmap option_map]. by rewrite Hsign.
Qed.
(** How long the text is. *)
Lemma digits_loop_length fuel : ∀ n acc, (length (digits_loop fuel n acc) ≤ fuel + length acc)%nat.
Proof.
  induction fuel as [|fuel IH]; intros n acc; [done|]. cbn [digits_loop]. destruct (n <? 10); [simpl; lia|].
  etransitivity; [apply IH|simpl; lia].
Qed.
Lemma long_text_length n : n ≤ 2 ^ 1024 * 10 ^ 2600 + 1 → len (long_text n) ≤ 10000.
Proof.
  intros Hn. unfold long_text, len. pose proof (digits_loop_length (S (Z.to_nat (Z.log2 n))) n []) as Hd. apply Z.log2_le_mono in Hn.
  assert (Z.log2 (2 ^ 1024 * 10 ^ 2600 + 1) ≤ 9990) as Hl by (apply Z.leb_le; by vm_compute). pose proof (Z.log2_nonneg n).
  cbn [length] in Hd. lia.
Qed.

(** ** Whole numbers below 9.0e15 are written as integers *)
Lemma f_eq_refl f : f_is_nan f = false → f_eq f f = true.
Proof. intros Hn. unfold f_eq. rewrite Hn. unfold Qcompare. by rewrite Z.compare_refl. Qed.
Lemma int_text_sign n : n ≠ 0 → int_text n = (if n <? 0 then [45] else []) ++ nat_text (Z.abs n).
Proof. intros Hn. unfold int_text. destruct (Z.ltb_spec n 0); [by rewrite Z.abs_neq by lia|by rewrite Z.abs_eq by lia]. Qed.
Lemma zero_value : Qnum (f_value 0) = 0.
Proof. by vm_compute. Qed.
Lemma whole_number_read f : in_u 64 f → f_whole f = true → f_lt (f_abs f) F_9E15 = true →
  ∃ g, parse_f64 (int_text (f_trunc f)) = Some g ∧ f_eq f g = true.
Proof.
  intros Hf Hw Hlt. unfold f_whole in Hw. apply andb_true_iff in Hw as [Hfin Hz]. destruct (f_parts f) as [m e] eqn:Ep.
  destruct (f_split f m e Ep Hfin) as (D & t & r & _ & HD & Ht & Hr & Etr & Efr & Ev & Eva).
  assert (r = 0) as -> by (rewrite Efr in Hz; cbn [Qnum] in Hz; apply Z.eqb_eq in Hz; destruct (f_sign f); lia). rewrite Z.add_0_r in *.
  assert (t < 9000000000000000) as Hsmall.
  { rewrite (f_lt_below f D (t * D) F_9E15 9000000000000000 HD Eva ltac:(by vm_compute)) in Hlt. apply Z.ltb_lt in Hlt. nia. }
  assert (f_is_nan f = false ∧ f_is_inf f = false) as [Hnan Hinf].
  { unfold f_finite in Hfin. apply negb_true_iff in Hfin. unfold f_is_nan, f_is_inf. by rewrite Hfin. }
  destruct (Z.eq_dec t 0) as [->|Ht0].
  - exists 0. assert (f_trunc f = 0) as -> by (rewrite Etr; by destruct (f_sign f)). split; [by vm_compute|]. unfold f_eq. rewrite Hnan, Ev.
    change (f_is_nan 0) with false. unfold Qcompare. rewrite zero_value. cbn [Qnum Qden negb orb andb]. by destruct (f_sign f).
  - exists f. split; [|by apply f_eq_refl]. assert (f_trunc f ≠ 0 ∧ Z.abs (f_trunc f) = t ∧ (f_trunc f <? 0) = f_sign f) as (Hn0 & Ha & Hs).
    { rewrite Etr. destruct (f_sign f); (split; [lia|]); (split; [lia|]); [apply ltb_t|apply ltb_f]; lia. }
    rewrite int_text_sign, Ha, Hs by done. destruct (nat_text_spec t) as (Hd & Er & Hl & _); [lia|].
    destruct (nat_text t) as [|c s]; [change (len []) with 0 in Hl; lia|]. unfold parse_f64. rewrite sign_of_text by (left; by apply (Forall_inv Hd)).
    rewrite (whole_text c s t) by (done || lia). pose proof (abs_finite f Hnan Hinf) as Hb.
    assert (0 < f_abs f) as Hb0.
    { destruct (Z.eq_dec (f_abs f) 0) as [E0|]; [|lia]. exfalso. pose proof zero_value as Ez. rewrite E0 in Eva. rewrite Eva in Ez. cbn [Qnum] in Ez. nia. }
    rewrite (round_pos_exact (f_abs f) t 1); [cbn [fmap option_fmap option_map]; by rewrite with_sign_abs|lia|lia|lia|]. rewrite Eva. cbn [Qnum Qden].
    rewrite Z2Pos.id by done. ring.
Qed.
