(* ===== verification/Kdoc.v ===== *)
(** * [src/doc.rs], documents: the [Doc] tree and its binary encoding [KDOC]

    The dates, times and decimals of [chrono] and [rust_decimal] are
    parameters, with their documented conversions. A text is its characters,
    written as UTF-8; an object is its members in the order they were
    written. *)
From S2P Require Import Prelude Utf8 DocNum.
Open Scope Z_scope.

(** ** Days, instants, times of day and the bytes of decimals *)
Class Chrono := {
  NaiveDate : Type;
  days_from_epoch : NaiveDate → Z;
  epoch_plus_days : Z → option NaiveDate;
  DateTime : Type;
  timestamp_millis : DateTime → Z;
  dt_nanosecond : DateTime → Z;
  from_timestamp_millis : Z → option DateTime;
  NaiveTime : Type;
  num_seconds_from_midnight : NaiveTime → Z;
  t_nanosecond : NaiveTime → Z;
  from_num_seconds : Z → Z → option NaiveTime;
}.
(** Documented: the conversions undo each other; a date is within 262,142
    years of the epoch, an instant in milliseconds is an [i64], a time of day
    has less than 86,400 seconds. *)
Class ChronoLaws `{Chrono} : Prop := {
  days_range d : - 2 ^ 31 ≤ days_from_epoch d < 2 ^ 31;
  plus_days d : epoch_plus_days (days_from_epoch d) = Some d;
  millis_range t : in_i64 (timestamp_millis t);
  dt_nanos_range t : 0 ≤ dt_nanosecond t;
  from_millis t : 0 ≤ dt_nanosecond t < 1000000000 → dt_nanosecond t mod 1000000 = 0 →
    from_timestamp_millis (timestamp_millis t) = Some t;
  from_millis_whole z t : from_timestamp_millis z = Some t →
    0 ≤ dt_nanosecond t < 1000000000 ∧ dt_nanosecond t mod 1000000 = 0;
  seconds_range t : 0 ≤ num_seconds_from_midnight t < 86400;
  t_nanos_range t : 0 ≤ t_nanosecond t < 2000000000;
  from_seconds t : from_num_seconds (num_seconds_from_midnight t) (t_nanosecond t) = Some t;
  from_seconds_inv s n t : from_num_seconds s n = Some t → num_seconds_from_midnight t = s ∧ t_nanosecond t = n;
}.
Class DecimalBytes `{Decimals} := {
  dec_serialize : Decimal → bytes;
  dec_deserialize : bytes → Decimal;
}.
(** The bits of the flags that mean nothing. *)
Definition unused_flags (flags : Z) : Z := Z.land flags (Z.lxor u32_max 0x801F0000).
Definition flags_scale (flags : Z) : Z := Z.land (Z.shiftr flags 16) 0xFF.
(** Documented: sixteen bytes, of which the first four are the flags: the
    scale in bits 16 to 23, the sign in bit 31. *)
Class DecimalBytesLaws `{DecimalBytes} : Prop := {
  dec_bytes_len d : length (dec_serialize d) = 16%nat;
  dec_flags d : unused_flags (le_val (take 4 (dec_serialize d))) = 0 ∧ flags_scale (le_val (take 4 (dec_serialize d))) ≤ MAX_SCALE;
  dec_bytes_all d : all_bytes (dec_serialize d);
  dec_read d : dec_deserialize (dec_serialize d) = d;
}.

Abbreviation msg := String.string (only parsing).
Definition MAX_DEPTH : Z := 128.
Definition KDOC_VERSION : Z := 1.
Definition T_NULL : Z := 0x00.
Definition T_FALSE : Z := 0x01.
Definition T_TRUE : Z := 0x02.
Definition T_INT : Z := 0x03.
Definition T_FLOAT : Z := 0x04.
Definition T_DECIMAL : Z := 0x05.
Definition T_STRING : Z := 0x06.
Definition T_DATE : Z := 0x07.
Definition T_DATETIME : Z := 0x08.
Definition T_TIME : Z := 0x09.
Definition T_ARRAY : Z := 0x0A.
Definition T_OBJECT : Z := 0x0B.

Section doc.
  Context `{HD : Decimals} `{HC : Chrono} `{HB : !DecimalBytes}.

Inductive Doc :=
| DNull
| DBool (b : bool)
| DInt (i : Z)
| DFloat (f : Z)
| DDecimal (d : Decimal)
| DStr (s : str)
| DDate (d : NaiveDate)
| DDateTime (t : DateTime)
| DTime (t : NaiveTime)
| DArray (items : list Doc)
| DObject (m : list (str * Doc)).
Abbreviation Members := (list (str * Doc)).

Section ind.
  Context (P : Doc → Prop).
  Context (Pleaf : ∀ d, match d with DArray _ | DObject _ => False | _ => True end → P d).
  Context (Parray : ∀ items, Forall P items → P (DArray items)).
  Context (Pobject : ∀ m, Forall (fun kv => P kv.2) m → P (DObject m)).
Fixpoint doc_ind' (d : Doc) : P d :=
    match d with
    | DArray items =>
      Parray items ((fix go l : Forall P l :=
        match l with [] => @List.Forall_nil _ _ | x :: l => @List.Forall_cons _ _ x l (doc_ind' x) (go l) end) items)
    | DObject m =>
      Pobject m ((fix go l : Forall (fun kv => P kv.2) l :=
        match l with [] => @List.Forall_nil _ _ | (k, x) :: l => @List.Forall_cons _ _ (k, x) l (doc_ind' x) (go l) end) m)
    | d => Pleaf d I
    end.
End ind.

Definition type_name (d : Doc) : str :=
  match d with
  | DNull => lit "null" | DBool _ => lit "boolean" | DInt _ => lit "int" | DFloat _ => lit "float"
  | DDecimal _ => lit "decimal" | DStr _ => lit "string" | DDate _ => lit "date" | DDateTime _ => lit "datetime"
  | DTime _ => lit "time" | DArray _ => lit "array" | DObject _ => lit "object"
  end.
Definition u64_beyond_i64 (d : Decimal) : option Z :=
  if negb (scale (normalize d) =? 0) then None
  else let m := mantissa (normalize d) in
    if (0 <=? m) && (m <=? u64_max) && (i64_max <? m) then Some m else None.
Fixpoint json_encodable (d : Doc) : bool :=
  match d with
  | DDecimal d => match u64_beyond_i64 d with Some _ => true | None => false end
  | DDate _ | DDateTime _ | DTime _ => false
  | DArray items => forallb json_encodable items
  | DObject m => forallb (fun kv => json_encodable kv.2) m
  | _ => true
  end.

(** ** What can be written *)
Definition whole_ms (nanos : Z) : bool := (nanos mod 1000000 =? 0) && (nanos <? 1000000000).
Definition try_for_each {A} (f : A → result msg unit) : list A → result msg unit :=
  fix go l := match l with [] => Ok tt | x :: l => f x ≫= fun _ => go l end.
Fixpoint check_at (doc : Doc) (depth : Z) : result msg unit :=
  if MAX_DEPTH <? depth then Err "a document nested deeper than {MAX_DEPTH} levels"%string else
  match doc with
  | DFloat f => if negb (f_finite f) then Err "{f} is not a finite number"%string else Ok tt
  | DTime t => if negb (whole_ms (t_nanosecond t)) then Err "the time {t} is finer than the millisecond, or a leap second"%string else Ok tt
  | DDateTime t => if negb (whole_ms (dt_nanosecond t)) then Err "the datetime {t} is finer than the millisecond, or a leap second"%string else Ok tt
  | DArray items => try_for_each (fun v => check_at v (depth + 1)) items
  | DObject m => try_for_each (fun kv => check_at kv.2 (depth + 1)) m
  | _ => Ok tt
  end.
Definition check (doc : Doc) : result msg unit := check_at doc 1.

(** ** Writing *)
(** A [u64] takes ten bytes at most. *)
Fixpoint put_varint_loop (fuel : nat) (n : Z) : bytes :=
  match fuel with
  | O => []
  | S fuel =>
    if 0x80 <=? n then Z.lor (wrap 8 n) 0x80 :: put_varint_loop fuel (Z.shiftr n 7) else [wrap 8 n]
  end.
Definition put_varint (n : Z) : bytes := put_varint_loop 10 n.
(** [((i << 1) ^ (i >> 63)) as u64] *)
Definition zigzag (i : Z) : Z := wrap 64 (Z.lxor (sint 64 (Z.shiftl i 1)) (Z.shiftr i 63)).
Fixpoint encode_value (doc : Doc) : bytes :=
  match doc with
  | DNull => [T_NULL]
  | DBool false => [T_FALSE]
  | DBool true => [T_TRUE]
  | DInt i => T_INT :: put_varint (zigzag i)
  | DFloat f => T_FLOAT :: le_bytes 8 f
  | DDecimal d => T_DECIMAL :: dec_serialize d
  | DStr s => T_STRING :: put_varint (str_len s) ++ utf8 s
  | DDate d => T_DATE :: le_bytes 4 (sint 32 (days_from_epoch d))
  | DDateTime t => T_DATETIME :: le_bytes 8 (timestamp_millis t)
  | DTime t => T_TIME :: le_bytes 4 (num_seconds_from_midnight t * 1000 + t_nanosecond t / 1000000)
  | DArray items => T_ARRAY :: put_varint (len items) ++ List.flat_map encode_value items
  | DObject m =>
    T_OBJECT :: put_varint (len m) ++
      List.flat_map (fun kv => put_varint (str_len kv.1) ++ utf8 kv.1 ++ encode_value kv.2) m
  end.
Definition encode (doc : Doc) : bytes := KDOC_VERSION :: encode_value doc.

(** ** Reading: the bytes, and the position in them *)
Definition Reader (A : Type) : Type := bytes → Z → result msg (A * Z).
#[local] Instance reader_ret : MRet Reader := fun A a b pos => Ok (a, pos).
#[local] Instance reader_bind : MBind Reader := fun A B f r b pos => r b pos ≫= fun p => f p.1 b p.2.
Definition bad {A} (why : msg) : Reader A := fun b pos => Err why.
Definition take_n (n : Z) : Reader bytes := fun b pos =>
  let e := pos + n in
  if (e <=? u64_max) && (e <=? len b) then Ok (slice pos e b, e) else Err "cut short"%string.
Definition byte : Reader Z := s ← take_n 1; mret (hd 0 s).
Fixpoint varint_loop (k : nat) (i n : Z) : Reader Z :=
  match k with
  | O => bad "a number too large"%string
  | S k =>
    c ← byte;
    if (i =? 9) && (1 <? c) then bad "a number too large"%string else
    let n := Z.lor n (wrap 64 (Z.shiftl (Z.land c 0x7f) (7 * i))) in
    if Z.land c 0x80 =? 0 then mret n else varint_loop k (i + 1) n
  end.
Definition varint : Reader Z := varint_loop 10 0 0.
Definition left_bytes : Reader Z := fun b pos => Ok (len b - pos, pos).
Definition count : Reader Z :=
  n ← varint;
  rest ← left_bytes;
  if n <=? rest then mret n else bad "a length past the end"%string.
Definition text : Reader str :=
  n ← count;
  bs ← take_n n;
  match from_utf8 bs with Some s => mret s | None => bad "a text that is not UTF-8"%string end.
Definition of_option {A} (o : option A) (why : msg) : Reader A :=
  match o with Some a => mret a | None => bad why end.
(** [for _ in 0..n], pushing what is read. *)
Fixpoint read_items {A} (r : Reader A) (n : nat) : Reader (list A) :=
  match n with
  | O => mret []
  | S n => x ← r; l ← read_items r n; mret (x :: l)
  end.
(** [m.insert(k, v)]: an object keeps the place of a key it has. *)
Fixpoint read_members (v : Reader Doc) (n : nat) (m : Members) : Reader Members :=
  match n with
  | O => mret m
  | S n =>
    k ← text; d ← v;
    if bool_decide (k ∈ m.*1) then bad "a member given twice"%string else read_members v n (m ++ [(k, d)])
  end.
(** The fuel bounds the depth: [MAX_DEPTH] of it is never used up. *)
Fixpoint value (fuel : nat) (depth : Z) : Reader Doc :=
  match fuel with
  | O => bad "nesting deeper than {MAX_DEPTH}"%string
  | S fuel =>
    if MAX_DEPTH <? depth then bad "nesting deeper than {MAX_DEPTH}"%string else
    tag ← byte;
    if tag =? T_NULL then mret DNull
    else if tag =? T_FALSE then mret (DBool false)
    else if tag =? T_TRUE then mret (DBool true)
    else if tag =? T_INT then
      z ← varint; mret (DInt (Z.lxor (sint 64 (Z.shiftr z 1)) (- Z.land z 1)))
    else if tag =? T_FLOAT then
      raw ← take_n 8;
      if negb (f_finite (le_val raw)) then bad "a float that is not finite"%string else mret (DFloat (le_val raw))
    else if tag =? T_DECIMAL then
      raw ← take_n 16;
      let flags := le_val (take 4 raw) in
      if negb (unused_flags flags =? 0) || (MAX_SCALE <? flags_scale flags) then bad "a decimal with a wrong scale"%string
      else mret (DDecimal (dec_deserialize raw))
    else if tag =? T_STRING then s ← text; mret (DStr s)
    else if tag =? T_DATE then
      raw ← take_n 4; d ← of_option (epoch_plus_days (sint 32 (le_val raw))) "a date out of range"%string; mret (DDate d)
    else if tag =? T_DATETIME then
      raw ← take_n 8; t ← of_option (from_timestamp_millis (sint 64 (le_val raw))) "a datetime out of range"%string; mret (DDateTime t)
    else if tag =? T_TIME then
      raw ← take_n 4;
      let ms := le_val raw in
      t ← of_option (t ← from_num_seconds (ms / 1000) (ms mod 1000 * 1000000); if ms <? 86400000 then Some t else None)
            "a time out of range"%string;
      mret (DTime t)
    else if tag =? T_ARRAY then
      n ← count; items ← read_items (value fuel (depth + 1)) (Z.to_nat n); mret (DArray items)
    else if tag =? T_OBJECT then
      n ← count; m ← read_members (value fuel (depth + 1)) (Z.to_nat n) []; mret (DObject m)
    else bad "an unknown type"%string
  end.
Definition decode (b : bytes) : result msg Doc :=
  match byte b 0 with
  | Err _ => Err "an empty document"%string
  | Ok (version, pos) =>
    if negb (version =? KDOC_VERSION) then Err "a document of encoding version {version}, which this KivaDB does not read"%string else
    '(doc, pos) ← value (Z.to_nat MAX_DEPTH) 1 b pos;
    if negb (pos =? len b) then Err "bytes after the document"%string else Ok doc
  end.

(** ** Well-formed documents *)
Definition all {A} (P : A → Prop) : list A → Prop :=
  fix go l := match l with [] => True | x :: l => P x ∧ go l end.
Lemma all_Forall {A} (P : A → Prop) l : all P l ↔ Forall P l.
Proof. induction l as [|x l IH]; simpl; [by split|]. rewrite Forall_cons. tauto. Qed.
(** What the types of Rust say: an [i64], the bits of an [f64], texts of
    characters, an object with one member a key. *)
Fixpoint doc_ok (d : Doc) : Prop :=
  match d with
  | DInt i => in_i64 i
  | DFloat f => in_u 64 f
  | DStr s => valid_str s
  | DArray items => all doc_ok items
  | DObject m => NoDup m.*1 ∧ all (fun kv => valid_str kv.1 ∧ doc_ok kv.2) m
  | _ => True
  end.
(** The values a document has and the bytes of its texts. *)
Fixpoint footprint (d : Doc) : Z :=
  match d with
  | DStr s => 1 + str_len s
  | DArray items => 1 + foldr (fun v n => footprint v + n) 0 items
  | DObject m => 1 + foldr (fun kv n => str_len kv.1 + footprint kv.2 + n) 0 m
  | _ => 1
  end.

(** ** Numbers *)
Lemma zigzag_spec i : in_i64 i → zigzag i = if 0 <=? i then 2 * i else - 2 * i - 1.
Proof.
  unfold in_i64, i64_min, i64_max, zigzag. intros Hi. rewrite Z.shiftl_mul_pow2, Z.shiftr_div_pow2 by lia. change (2 ^ 1) with 2.
  assert (∃ k, sint 64 (i * 2) = i * 2 + k * 2 ^ 64) as [k ->].
  { unfold sint, wrap. pose proof (Z.div_mod (i * 2) (2 ^ 64)).
    destruct (_ <? _); [exists (- (i * 2 / 2 ^ 64))|exists (- (i * 2 / 2 ^ 64) - 1)]; lia. }
  destruct (Z.leb_spec 0 i).
  - rewrite Z.div_small, Z.lxor_0_r by lia. unfold wrap. rewrite Z.mod_add by lia. rewrite Z.mod_small; lia.
  - assert (i / 2 ^ 63 = -1) as -> by (symmetry; apply (Z.div_unique_pos _ _ _ (i + 2 ^ 63)); lia).
    rewrite Z.lxor_m1_r. unfold Z.lnot, wrap. replace (Z.pred (- (i * 2 + k * 2 ^ 64))) with (- 2 * i - 1 + (- k) * 2 ^ 64) by lia.
    rewrite Z.mod_add by lia. rewrite Z.mod_small; lia.
Qed.
Lemma zigzag_in i : in_i64 i → in_u 64 (zigzag i).
Proof. intros Hi. unfold zigzag. apply wrap_in_u. lia. Qed.
Definition unzigzag (z : Z) : Z := Z.lxor (sint 64 (Z.shiftr z 1)) (- Z.land z 1).
Lemma sint_small x : 0 ≤ x < 2 ^ 63 → sint 64 x = x.
Proof. intros. unfold sint. rewrite wrap_small by (unfold in_u; lia). destruct (Z.ltb_spec x (2 ^ (64 - 1))); simpl in *; lia. Qed.
Lemma sint32_small x : - 2 ^ 31 ≤ x < 2 ^ 31 → sint 32 x = x.
Proof.
  intros. unfold sint, wrap. destruct (Z.lt_ge_cases x 0).
  - assert (x mod 2 ^ 32 = x + 2 ^ 32) as -> by (symmetry; apply (Z.mod_unique_pos _ _ (-1)); lia).
    destruct (Z.ltb_spec (x + 2 ^ 32) (2 ^ (32 - 1))); simpl in *; lia.
  - rewrite Z.mod_small by lia. destruct (Z.ltb_spec x (2 ^ (32 - 1))); simpl in *; lia.
Qed.
Lemma sint32_le_bytes x : - 2 ^ 31 ≤ x < 2 ^ 31 → sint 32 (le_val (le_bytes 4 x)) = x.
Proof.
  intros. rewrite le_val_le_bytes. change (256 ^ Z.of_nat 4) with (2 ^ 32). rewrite <- (sint32_small x) at 2 by done.
  unfold sint, wrap. by rewrite Z.mod_mod by lia.
Qed.
Lemma unzigzag_spec z : in_u 64 z → unzigzag z = if Z.even z then z / 2 else - (z / 2) - 1.
Proof.
  unfold in_u. intros Hz. unfold unzigzag. rewrite Z.shiftr_div_pow2 by lia. change (2 ^ 1) with 2.
  rewrite sint_small by (split; [apply Z.div_pos; lia|apply Z.div_lt_upper_bound; lia]).
  change 1 with (Z.ones 1) at 1. rewrite Z.land_ones by lia. change (2 ^ 1) with 2. rewrite Zmod_even.
  destruct (Z.even z); [apply Z.lxor_0_r|]. change (- (1)) with (-1). rewrite Z.lxor_m1_r. unfold Z.lnot. lia.
Qed.
Lemma unzigzag_zigzag i : in_i64 i → unzigzag (zigzag i) = i.
Proof.
  intros Hi. rewrite unzigzag_spec by by apply zigzag_in. rewrite zigzag_spec by done. destruct (Z.leb_spec 0 i).
  - rewrite Z.even_mul. cbn [Z.even orb]. rewrite Z.mul_comm. by apply Z.div_mul.
  - replace (- 2 * i - 1) with (1 + 2 * (- i - 1)) by lia. rewrite Z.even_add_mul_2. cbn [Z.even].
    replace (1 + 2 * (- i - 1)) with (1 + (- i - 1) * 2) by lia. rewrite Z.div_add by lia. change (1 / 2) with 0. lia.
Qed.
Lemma unzigzag_in z : in_u 64 z → in_i64 (unzigzag z).
Proof.
  intros Hz. rewrite unzigzag_spec by done. unfold in_u in Hz. unfold in_i64, i64_min, i64_max.
  assert (0 ≤ z / 2 < 2 ^ 63) by (split; [apply Z.div_pos; lia|apply Z.div_lt_upper_bound; lia]). destruct (Z.even z); lia.
Qed.

(** ** What a reader takes for what *)
(** The reader [r] finds [x] wherever the bytes [bs] are. *)
Definition reads {A} (r : Reader A) (bs : bytes) (x : A) : Prop :=
  ∀ pre post, len (pre ++ bs ++ post) ≤ u64_max → r (pre ++ bs ++ post) (len pre) = Ok (x, len pre + len bs).
Lemma reads_ret {A} (x : A) : reads (mret x) [] x.
Proof. intros pre post _. rewrite len_nil, Z.add_0_r. done. Qed.
Lemma reads_bind {A B} (r : Reader A) (f : A → Reader B) bs1 bs2 x y :
  reads r bs1 x → reads (f x) bs2 y → reads (r ≫= f) (bs1 ++ bs2) y.
Proof.
  intros H1 H2 pre post Hl. unfold mbind, reader_bind. rewrite <- !app_assoc in *. rewrite H1 by done. cbn.
  specialize (H2 (pre ++ bs1) post). rewrite <- !app_assoc in H2. rewrite (len_app pre bs1) in H2. rewrite H2 by done.
  by rewrite !len_app, Z.add_assoc.
Qed.
Lemma reads_bind_nil {A B} (r : Reader A) (f : A → Reader B) bs x y : reads r bs x → reads (f x) [] y → reads (r ≫= f) bs y.
Proof. intros. rewrite <- (app_nil_r bs). by eapply reads_bind. Qed.
Lemma reads_take n bs : len bs = n → reads (take_n n) bs bs.
Proof.
  intros <- pre post Hl. unfold take_n. pose proof (len_nonneg post). rewrite !len_app in *.
  rewrite !leb_t by lia. cbn [andb]. do 3 f_equal. unfold slice. replace (len pre + len bs - len pre) with (len bs) by lia.
  unfold len. rewrite !Nat2Z.id. by rewrite drop_app_length, take_app_length.
Qed.
Lemma reads_some {A B} (x : A) why (f : A → Reader B) y : reads (f x) [] y → reads (of_option (Some x) why ≫= f) [] y.
Proof. intros. eapply reads_bind_nil; [apply reads_ret|done]. Qed.
Lemma reads_byte c : reads byte [c] c.
Proof. unfold byte. eapply reads_bind_nil; [by apply reads_take|]. apply reads_ret. Qed.

Lemma reads_cons {B} c (f : Z → Reader B) bs y : reads (f c) bs y → reads (byte ≫= f) (c :: bs) y.
Proof. apply (reads_bind byte f [c] bs), reads_byte. Qed.

Lemma byte_low : ∀ w, is_byte w → Z.land (Z.lor w 0x80) 0x7f = w mod 128 ∧ Z.land (Z.lor w 0x80) 0x80 = 128 ∧ Z.lor w 0x80 < 256.
Proof.
  intros w Hw. pose proof (byte_forall (fun w => (Z.land (Z.lor w 0x80) 0x7f =? w mod 128) && (Z.land (Z.lor w 0x80) 0x80 =? 128) &&
    (Z.lor w 0x80 <? 256)) eq_refl w Hw) as E. rewrite !andb_true_iff, !Z.eqb_eq, Z.ltb_lt in E. tauto.
Qed.
Lemma byte_high : ∀ w, is_byte w → Z.land w 0x7f = w mod 128 ∧ (Z.land w 0x80 = 0 ↔ w < 128).
Proof.
  intros w Hw. pose proof (byte_forall (fun w => (Z.land w 0x7f =? w mod 128) && eqb (Z.land w 0x80 =? 0) (w <? 128)) eq_refl w Hw) as E.
  rewrite andb_true_iff, Z.eqb_eq, eqb_true_iff in E. destruct E as [E1 E2]. split; [done|].
  rewrite <- Z.eqb_eq, <- Z.ltb_lt, E2. done.
Qed.
(** Seven bits more of a number. *)
Lemma varint_step i n c : 0 ≤ i ≤ 9 → 0 ≤ n < 2 ^ (7 * i) → 0 ≤ c < 128 → c * 2 ^ (7 * i) < 2 ^ 64 →
  Z.lor n (wrap 64 (Z.shiftl c (7 * i))) = n + c * 2 ^ (7 * i) ∧ n + c * 2 ^ (7 * i) < 2 ^ (7 * (i + 1)).
Proof.
  intros Hi Hn Hc Hlt. pose proof (Z.pow_pos_nonneg 2 (7 * i)). assert (wrap 64 (Z.shiftl c (7 * i)) = Z.shiftl c (7 * i)) as ->.
  { apply wrap_small. rewrite Z.shiftl_mul_pow2 by lia. unfold in_u. nia. }
  rewrite Z.lor_comm, lor_shiftl_add by lia. split; [lia|]. replace (7 * (i + 1)) with (7 * i + 7) by lia.
  rewrite Z.pow_add_r by lia. change (2 ^ 7) with 128. nia.
Qed.
Lemma reads_varint_loop k : ∀ i n v, i = 10 - Z.of_nat k → 0 ≤ i → 0 ≤ n < 2 ^ (7 * i) → 0 ≤ v < 2 ^ (64 - 7 * i) → (0 < k)%nat →
  reads (varint_loop k i n) (put_varint_loop k v) (n + v * 2 ^ (7 * i)).
Proof.
  induction k as [|k IH]; intros i n v Ei Hi Hn Hv Hk; [lia|]. clear Hk. cbn [varint_loop put_varint_loop].
  assert (2 ^ (64 - 7 * i) * 2 ^ (7 * i) = 2 ^ 64) as E64 by (rewrite <- Z.pow_add_r by lia; f_equal; lia).
  assert (i = 9 → v < 2) as H9 by (intros ->; exact (proj2 Hv)). pose proof (Z.pow_pos_nonneg 2 (7 * i)) as Hp.
  pose proof (wrap_in_u 8 v ltac:(lia)) as Hw. destruct (Z.leb_spec 0x80 v) as [Hbig|Hsmall].
  - destruct (byte_low (wrap 8 v) Hw) as (El & Eh & _). apply reads_cons.
    assert (i ≠ 9) as Hi9 by lia. apply Z.eqb_neq in Hi9. rewrite Hi9. cbn [andb]. rewrite El, Eh. cbn [Z.eqb].
    assert (wrap 8 v mod 128 = v mod 128) as ->.
    { unfold wrap. change (2 ^ 8) with (128 * 2). rewrite Z.rem_mul_r by lia. rewrite Z.mul_comm, Z.mod_add, Z.mod_mod by lia. done. }
    apply Z.eqb_neq in Hi9. pose proof (Z.mod_pos_bound v 128 ltac:(lia)). pose proof (Z.div_mod v 128 ltac:(lia)) as Hdm.
    assert (0 ≤ v / 128) by (apply Z.div_pos; lia).
    destruct (varint_step i n (v mod 128)) as [E1 E2]; [lia|done|done|nia|]. rewrite E1. rewrite Z.shiftr_div_pow2 by lia. change (2 ^ 7) with 128.
    assert (2 ^ (7 * (i + 1)) = 128 * 2 ^ (7 * i)) as E7 by (replace (7 * (i + 1)) with (7 + 7 * i) by lia; by rewrite Z.pow_add_r by lia).
    replace (n + v * 2 ^ (7 * i)) with (n + v mod 128 * 2 ^ (7 * i) + v / 128 * 2 ^ (7 * (i + 1))) by (rewrite E7; nia).
    apply IH; [lia|lia|nia| |lia]. split; [done|]. apply Z.div_lt_upper_bound; [lia|]. change 128 with (2 ^ 7).
    rewrite <- Z.pow_add_r by lia. replace (7 + (64 - 7 * (i + 1))) with (64 - 7 * i) by lia. lia.
  - assert (wrap 8 v = v) as -> by (apply wrap_small; unfold in_u; lia). apply reads_cons.
    assert ((i =? 9) && (1 <? v) = false) as -> by (destruct (Z.eqb_spec i 9), (Z.ltb_spec 1 v); simpl; lia).
    destruct (byte_high v) as [El Eh]; [unfold is_byte; lia|]. rewrite El, (proj2 Eh), Z.mod_small by lia. cbn [Z.eqb].
    destruct (varint_step i n v) as [E1 _]; [lia|done|lia|nia|]. rewrite E1. apply reads_ret.
Qed.
Lemma reads_varint n : in_u 64 n → reads varint (put_varint n) n.
Proof.
  intros Hn. pose proof (reads_varint_loop 10 0 0 n) as Hr. change (2 ^ (7 * 0)) with 1 in Hr. rewrite Z.mul_1_r in Hr.
  apply Hr; [done|lia|lia|exact Hn|lia].
Qed.

(** ** What was written is read *)
(** Only bytes that memory holds are read. *)
Lemma reads_bound {A} (r : Reader A) bs x : (len bs ≤ u64_max → reads r bs x) → reads r bs x.
Proof. intros Hr pre post Hl. apply Hr; [|done]. rewrite !len_app in Hl. pose proof (len_nonneg pre). pose proof (len_nonneg post). lia. Qed.
Lemma reads_count {B} n (f : Z → Reader B) bs y : 0 ≤ n ≤ len bs → reads (f n) bs y → reads (count ≫= f) (put_varint n ++ bs) y.
Proof.
  intros Hn Hf. apply reads_bound. intros Hb. rewrite len_app in Hb. pose proof (len_nonneg (put_varint n)).
  assert (in_u 64 n) as Hu by (unfold in_u, u64_max in *; lia). intros pre post Hl. pose proof (reads_varint n Hu pre (bs ++ post)) as Hv.
  specialize (Hf (pre ++ put_varint n) post). rewrite <- !app_assoc in *. rewrite (len_app pre (put_varint n)) in Hf.
  unfold count, left_bytes, mbind, reader_bind, mbind, result_bind. rewrite Hv by done. cbn [fst snd]. rewrite leb_t by (rewrite !len_app; pose proof (len_nonneg post); lia).
  cbn [mret reader_ret fst snd]. rewrite Hf by done. by rewrite len_app, Z.add_assoc.
Qed.
Lemma reads_text s : valid_str s → reads text (put_varint (str_len s) ++ utf8 s) s.
Proof.
  intros Hs. apply reads_count; [unfold str_len; pose proof (len_nonneg (utf8 s)); lia|].
  eapply reads_bind_nil; [by apply reads_take|]. rewrite from_utf8_utf8 by done. apply reads_ret.
Qed.
Lemma reads_items {A} (r : Reader A) (e : A → bytes) l : Forall (fun x => reads r (e x) x) l →
  reads (read_items r (length l)) (List.flat_map e l) l.
Proof.
  induction 1 as [|x l Hx _ IH]; cbn [read_items List.flat_map length]; [apply reads_ret|].
  eapply reads_bind; [exact Hx|]. eapply reads_bind_nil; [exact IH|]. apply reads_ret.
Qed.
Definition member_bytes (kv : str * Doc) : bytes := put_varint (str_len kv.1) ++ utf8 kv.1 ++ encode_value kv.2.
Lemma reads_members r l : ∀ m, NoDup (m ++ l).*1 → Forall (fun kv => valid_str kv.1 ∧ reads r (encode_value kv.2) kv.2) l →
  reads (read_members r (length l) m) (List.flat_map member_bytes l) (m ++ l).
Proof.
  induction l as [|[k d] l IH]; intros m Hnd Hl; cbn [read_members List.flat_map length].
  - rewrite app_nil_r. apply reads_ret.
  - apply Forall_cons in Hl as [[Hk Hd] Hl]. unfold member_bytes at 1. cbn [fst snd] in *. rewrite (app_assoc (put_varint _)), <- app_assoc.
    eapply reads_bind; [by apply reads_text|]. eapply reads_bind; [exact Hd|].
    assert (k ∉ m.*1) as Hfresh.
    { rewrite fmap_app, fmap_cons in Hnd. apply NoDup_app in Hnd as (_ & Hdis & _). intros Hin. apply (Hdis k Hin). left. }
    rewrite bool_decide_eq_false_2 by done. specialize (IH (m ++ [(k, d)])). rewrite <- app_assoc in IH. by apply IH.
Qed.
Lemma flat_map_len {A} (e : A → bytes) l : Forall (fun x => 1 ≤ len (e x)) l → len l ≤ len (List.flat_map e l).
Proof. induction 1 as [|x l Hx _ IH]; [done|]. cbn [List.flat_map]. rewrite len_cons, len_app. lia. Qed.
Lemma encode_value_len d : 1 ≤ len (encode_value d).
Proof. destruct d as [|[]|i|f|d|s|d|t|t|l|m]; cbn [encode_value]; rewrite len_cons; match goal with |- _ ≤ 1 + len ?l => pose proof (len_nonneg l) end; lia. Qed.

Lemma try_for_each_ok {A} (f : A → result msg unit) l : try_for_each f l = Ok tt ↔ Forall (fun x => f x = Ok tt) l.
Proof.
  induction l as [|x l IH]; simpl; [by split; [intros; apply List.Forall_nil|]|]. rewrite Forall_cons, <- IH.
  destruct (f x) as [[]|e]; simpl; split; [by split|by intros [_ ?]|discriminate|intros [? _]; discriminate].
Qed.
Context `{LD : !DecimalsLaws} `{LC : !ChronoLaws} `{LB : !DecimalBytesLaws}.

Lemma whole_ms_spec n : 0 ≤ n → whole_ms n = true ↔ 0 ≤ n < 1000000000 ∧ n mod 1000000 = 0.
Proof. intros. unfold whole_ms. rewrite andb_true_iff, Z.eqb_eq, Z.ltb_lt. lia. Qed.
Ltac tag_is := repeat match goal with |- context [if ?a =? ?b then _ else _] =>
  let e := eval vm_compute in (a =? b) in change (a =? b) with e; cbn iota end.
Ltac fixed n := eapply (reads_bind_nil (take_n n)); [apply reads_take; by rewrite ?le_bytes_length|].
Lemma reads_value_step d fuel depth : depth ≤ MAX_DEPTH → doc_ok d → check_at d depth = Ok tt →
  match d with
  | DArray items => Forall (fun v => reads (value fuel (depth + 1)) (encode_value v) v) items
  | DObject m => Forall (fun kv => reads (value fuel (depth + 1)) (encode_value kv.2) kv.2) m
  | _ => True
  end → reads (value (S fuel) depth) (encode_value d) d.
Proof.
  intros Hd Hok Hc Hsub. assert ((MAX_DEPTH <? depth) = false) as Hdb by by apply Z.ltb_ge.
  destruct d as [|[]|i|f|d|s|d|t|t|items|m]; cbn [encode_value value check_at doc_ok] in *; rewrite Hdb in *; apply reads_cons; tag_is.
  - apply reads_ret.
  - apply reads_ret.
  - apply reads_ret.
  - eapply reads_bind_nil; [by apply reads_varint, zigzag_in|]. fold (unzigzag (zigzag i)). rewrite unzigzag_zigzag by done. apply reads_ret.
  - fixed 8. rewrite le_val_u64 by done. destruct (f_finite f); [apply reads_ret|discriminate].
  - eapply (reads_bind_nil (take_n 16)); [apply reads_take; unfold len; by rewrite dec_bytes_len|]. destruct (dec_flags d) as [-> Hs].
    assert ((MAX_SCALE <? flags_scale (le_val (take 4 (dec_serialize d)))) = false) as -> by by apply Z.ltb_ge.
    rewrite dec_read. apply reads_ret.
  - eapply reads_bind_nil; [by apply reads_text|]. apply reads_ret.
  - fixed 4. pose proof (days_range d). rewrite sint32_le_bytes, sint32_small, plus_days by (rewrite ?sint32_small; done).
    apply reads_some, reads_ret.
  - fixed 8. rewrite sint_le_bytes_i64 by apply millis_range. destruct (whole_ms (dt_nanosecond t)) eqn:Hw; [|discriminate].
    apply whole_ms_spec in Hw as [? ?]; [|apply dt_nanos_range]. rewrite from_millis by done. apply reads_some, reads_ret.
  - destruct (whole_ms (t_nanosecond t)) eqn:Hw; [|discriminate]. pose proof (t_nanos_range t). pose proof (seconds_range t).
    apply whole_ms_spec in Hw as [Hlt Hw]; [|lia]. pose proof (Z.div_mod (t_nanosecond t) 1000000 ltac:(lia)).
    assert (0 ≤ t_nanosecond t / 1000000 < 1000) as Hms by (split; [apply Z.div_pos; lia|apply Z.div_lt_upper_bound; lia]).
    set (q := t_nanosecond t / 1000000) in *. set (secs := num_seconds_from_midnight t) in *.
    fixed 4. rewrite le_val_u32 by (unfold in_u; lia).
    assert ((secs * 1000 + q) / 1000 = secs) as -> by (symmetry; apply (Z.div_unique_pos _ _ _ q); lia).
    assert ((secs * 1000 + q) mod 1000 = q) as -> by (symmetry; apply (Z.mod_unique_pos _ _ secs); lia).
    replace (q * 1000000) with (t_nanosecond t) by lia. subst secs. rewrite from_seconds. cbn [mbind option_bind].
    rewrite ltb_t by lia. apply reads_some, reads_ret.
  - rewrite Forall_forall in Hsub. eapply reads_count; [pose proof (len_nonneg items); split; [done|apply flat_map_len; apply Forall_true; intros; apply encode_value_len]|].
    eapply reads_bind_nil; [|apply reads_ret]. unfold len. rewrite Nat2Z.id. apply reads_items. by apply Forall_forall.
  - destruct Hok as [Hnd Hall]. apply all_Forall in Hall. apply reads_count.
    { pose proof (len_nonneg m). split; [done|]. apply flat_map_len, Forall_true. intros kv. rewrite !len_app.
      pose proof (encode_value_len kv.2). pose proof (len_nonneg (put_varint (str_len kv.1))). pose proof (len_nonneg (utf8 kv.1)). lia. }
    eapply reads_bind_nil; [|apply reads_ret]. unfold len. rewrite Nat2Z.id. apply reads_members; [done|].
    rewrite Forall_forall in *. intros kv Hin. split; [by apply Hall|by apply Hsub].
Qed.
Lemma reads_value d : ∀ fuel depth, Z.of_nat fuel + depth = MAX_DEPTH + 1 → doc_ok d → check_at d depth = Ok tt →
  reads (value fuel depth) (encode_value d) d.
Proof.
  induction d as [d Hl|items IH|m IH] using doc_ind'; intros fuel depth Hf Hok Hc.
  all: assert (depth ≤ MAX_DEPTH) as Hd by (apply Z.nlt_ge; intros Hn%Z.ltb_lt; destruct d || idtac; cbn [check_at] in Hc; rewrite Hn in Hc; discriminate).
  all: assert ((MAX_DEPTH <? depth) = false) as Hdb by (by apply Z.ltb_ge); destruct fuel as [|fuel]; [lia|].
  all: apply reads_value_step; [done..|].
  - by destruct d.
  - cbn [check_at doc_ok] in *. rewrite Hdb in Hc. apply try_for_each_ok in Hc. apply all_Forall in Hok. rewrite Forall_forall in *.
    intros v Hv. apply IH; [done|lia|by apply Hok|by apply Hc].
  - cbn [check_at doc_ok] in *. rewrite Hdb in Hc. apply try_for_each_ok in Hc. destruct Hok as [_ Hok]. apply all_Forall in Hok. rewrite Forall_forall in *.
    intros kv Hv. apply IH; [done|lia|by apply Hok|by apply Hc].
Qed.
Lemma decode_encode d : doc_ok d → check d = Ok tt → len (encode d) ≤ u64_max → decode (encode d) = Ok d.
Proof.
  intros Hok Hc Hl. unfold decode, encode in *. pose proof (reads_byte KDOC_VERSION [] (encode_value d)) as Hb. cbn [app] in Hb.
  change (len []) with 0 in Hb. rewrite Hb by done. cbn [Z.eqb negb]. 
  pose proof (reads_value d (Z.to_nat MAX_DEPTH) 1 ltac:(done) Hok Hc [KDOC_VERSION] []) as Hv. rewrite app_nil_r in Hv. cbn [app] in Hv.
  change (len [KDOC_VERSION]) with 1 in Hv. change (0 + len [KDOC_VERSION]) with 1. change (negb (KDOC_VERSION =? KDOC_VERSION)) with false. cbn iota.
  rewrite Hv by done. cbn [mbind result_bind]. by rewrite len_cons, Z.eqb_refl.
Qed.

(** ** What is read is a document *)
(** Whatever [r] gives, from [n] bytes, is as [Q] says, and inside the bytes. *)
Definition gives {A} (r : Reader A) (Q : Z → A → Prop) : Prop :=
  ∀ b pos x e, all_bytes b → 0 ≤ pos ≤ len b → r b pos = Ok (x, e) → pos ≤ e ≤ len b ∧ Q (e - pos) x.
Lemma gives_ret {A} (x : A) (Q : Z → A → Prop) : Q 0 x → gives (mret x) Q.
Proof. intros HQ b pos y e _ Hp [= <- <-]. split; [lia|]. by rewrite Z.sub_diag. Qed.
Lemma gives_bad {A} why (Q : Z → A → Prop) : gives (bad why) Q.
Proof. done. Qed.
Lemma gives_bind {A B} (r : Reader A) (f : A → Reader B) (Q1 : Z → A → Prop) (Q : Z → B → Prop) :
  gives r Q1 → (∀ n x, 0 ≤ n → Q1 n x → gives (f x) (fun k y => Q (n + k) y)) → gives (r ≫= f) Q.
Proof.
  intros H1 H2 b pos y e Hb Hp E. unfold mbind, reader_bind in E. apply result_bind_ok in E as ([x m] & Hx & Hy).
  destruct (H1 b pos x m Hb Hp Hx) as [Hm HQ1]. destruct (H2 (m - pos) x ltac:(lia) HQ1 b m y e Hb ltac:(lia) Hy) as [He HQ].
  split; [lia|]. by replace (e - pos) with (m - pos + (e - m)) by lia.
Qed.
Lemma gives_weaken {A} (r : Reader A) (Q1 Q : Z → A → Prop) : gives r Q1 → (∀ n x, 0 ≤ n → Q1 n x → Q n x) → gives r Q.
Proof. intros H1 Hw b pos x e Hb Hp E. destruct (H1 b pos x e Hb Hp E). split; [done|]. apply Hw; [lia|done]. Qed.
Lemma slice_ok {A} (P : A → Prop) i j (l : list A) : Forall P l → Forall P (slice i j l).
Proof. intros. unfold slice. by apply Forall_take, Forall_drop. Qed.
Lemma slice_len {A} i j (l : list A) : 0 ≤ i ≤ j → j ≤ len l → len (slice i j l) = j - i.
Proof. unfold slice, len. intros. rewrite length_take, length_drop. lia. Qed.
Lemma gives_take n : 0 ≤ n → gives (take_n n) (fun k bs => k = n ∧ len bs = n ∧ all_bytes bs).
Proof.
  intros Hn b pos x e Hb Hp E. unfold take_n in E. destruct (Z.leb_spec (pos + n) u64_max), (Z.leb_spec (pos + n) (len b)); cbn [andb] in E; try discriminate.
  injection E as <- <-. split; [lia|]. split; [lia|]. split; [rewrite slice_len; lia|by apply slice_ok].
Qed.
Lemma gives_byte : gives byte (fun k c => k = 1 ∧ is_byte c).
Proof.
  unfold byte. eapply gives_bind; [by apply gives_take|]. intros n bs Hn (-> & Hl & Hb). apply gives_ret. split; [done|].
  destruct bs as [|c bs]; [done|]. by apply Forall_cons in Hb as [? _].
Qed.
Lemma gives_varint : gives varint (fun k n => 1 ≤ k ∧ in_u 64 n).
Proof.
  assert (∀ k i n, i = 10 - Z.of_nat k → 0 ≤ i → 0 ≤ n < 2 ^ (7 * i) → (0 < k)%nat →
    gives (varint_loop k i n) (fun j m => 1 ≤ j ∧ in_u 64 m)) as Hl; [|apply Hl; done || lia].
  induction k as [|k IH]; intros i n Ei Hi Hn Hk; [lia|]. cbn [varint_loop]. eapply gives_bind; [apply gives_byte|].
  intros j c Hj [-> Hc]. destruct ((i =? 9) && (1 <? c)) eqn:E9; [apply gives_bad|]. destruct (byte_high c Hc) as [El Eh]. rewrite El.
  pose proof (Z.mod_pos_bound c 128 ltac:(lia)) as Hm. pose proof (Z.pow_pos_nonneg 2 (7 * i)).
  assert (2 ^ (64 - 7 * i) * 2 ^ (7 * i) = 2 ^ 64) as E64 by (rewrite <- Z.pow_add_r by lia; f_equal; lia).
  assert (c mod 128 * 2 ^ (7 * i) + 2 ^ (7 * i) ≤ 2 ^ 64) as Hfit.
  { destruct (Z.eqb_spec i 9) as [->|]; cbn [andb] in E9.
    - apply Z.ltb_ge in E9. unfold is_byte in Hc. rewrite Z.mod_small by lia. change (2 ^ (7 * 9)) with (2 ^ 63). lia.
    - assert (2 ^ 7 ≤ 2 ^ (64 - 7 * i)) by (apply Z.pow_le_mono_r; lia). nia. }
  destruct (varint_step i n (c mod 128)) as [-> Hlt]; [lia|done|done|nia|]. destruct (Z.eqb_spec (Z.land c 0x80) 0) as [E0|E0].
  - apply gives_ret. split; [lia|]. unfold in_u. nia.
  - destruct k as [|k]; [apply gives_bad|]. eapply gives_weaken; [apply IH; [lia|lia|nia|lia]|]. intros m x Hm' [? ?]. split; [lia|done].
Qed.
Lemma gives_count : gives count (fun k n => 1 ≤ k ∧ 0 ≤ n).
Proof.
  unfold count. eapply gives_bind; [apply gives_varint|]. intros k n Hk [Hk1 Hn].
  eapply (gives_bind left_bytes _ (fun _ _ => True)).
  - intros b pos x e _ Hp [= <- <-]. split; [lia|done].
  - intros j rest Hj _. destruct (n <=? rest); [|apply gives_bad]. apply gives_ret. unfold in_u in Hn. lia.
Qed.
Lemma gives_text : gives text (fun k s => valid_str s ∧ 1 + str_len s ≤ k).
Proof.
  unfold text. eapply gives_bind; [apply gives_count|]. intros k n Hk [Hk1 Hn]. eapply gives_bind; [by apply gives_take|].
  intros j bs Hj (-> & Hl & Hb). destruct (from_utf8 bs) as [s|] eqn:E; [|apply gives_bad]. apply utf8_from_utf8 in E as [<- Hs]; [|done].
  apply gives_ret. split; [done|]. unfold str_len. lia.
Qed.
Lemma gives_items {A} (r : Reader A) (P : A → Prop) (w : A → Z) n : gives r (fun k x => P x ∧ w x ≤ k) →
  gives (read_items r n) (fun k l => Forall P l ∧ foldr (fun x a => w x + a) 0 l ≤ k).
Proof.
  intros Hr. induction n as [|n IH]; cbn [read_items]; [apply gives_ret; split; [apply List.Forall_nil|done]|].
  eapply gives_bind; [exact Hr|]. intros k x Hk [HP Hw]. eapply gives_bind; [exact IH|]. intros j l Hj [HF Hs]. apply gives_ret.
  split; [by apply Forall_cons|]. cbn [foldr]. lia.
Qed.
Definition weight (m : list (str * Doc)) : Z := foldr (fun kv n => str_len kv.1 + footprint kv.2 + n) 0 m.
Lemma weight_snoc m kv : weight (m ++ [kv]) = weight m + (str_len kv.1 + footprint kv.2).
Proof. unfold weight. induction m as [|x m IH]; cbn [foldr app]; [lia|rewrite IH; lia]. Qed.
Lemma gives_members r (P : Doc → Prop) n : gives r (fun k d => P d ∧ footprint d ≤ k) → ∀ m,
  NoDup m.*1 → Forall (fun kv => valid_str kv.1 ∧ P kv.2) m →
  gives (read_members r n m) (fun k m' => NoDup m'.*1 ∧ Forall (fun kv => valid_str kv.1 ∧ P kv.2) m' ∧ weight m' ≤ weight m + k).
Proof.
  intros Hr. induction n as [|n IH]; intros m Hnd Hm; cbn [read_members]; [apply gives_ret; split; [done|]; split; [done|lia]|].
  eapply gives_bind; [apply gives_text|]. intros k s Hk [Hs Hks]. eapply gives_bind; [exact Hr|]. intros j d Hj [HP Hw].
  destruct (bool_decide_reflect (s ∈ m.*1)) as [|Hfresh]; [apply gives_bad|]. eapply gives_weaken; [apply IH|].
  - rewrite fmap_app. apply NoDup_app. split; [done|]. split; [|by apply NoDup_singleton].
    intros x Hx Hin. apply list_elem_of_singleton in Hin as ->. done.
  - apply Forall_app. split; [done|]. apply Forall_singleton. by split.
  - intros i m' Hi (? & ? & Hw'). rewrite weight_snoc in Hw'. cbn [fst snd] in Hw'. split; [done|]. split; [done|lia].
Qed.
Definition readable (depth : Z) (d : Doc) : Prop := doc_ok d ∧ check_at d depth = Ok tt.
Lemma le_val_in n x : all_bytes x → len x = n → in_u (8 * n) (le_val x).
Proof.
  intros Hx <-. pose proof (le_val_bound x Hx) as Hv. unfold in_u. rewrite Z.pow_mul_r by (pose proof (len_nonneg x); lia). exact Hv.
Qed.
Lemma gives_option {A} (o : option A) why : gives (of_option o why) (fun k x => k = 0 ∧ o = Some x).
Proof. destruct o; [by apply gives_ret|apply gives_bad]. Qed.
Ltac gives_step t := eapply gives_bind; [by apply t|]; cbv beta; intros ? ? ? ?; destruct_and?.
Lemma gives_value fuel : ∀ depth, gives (value fuel depth) (fun k d => readable depth d ∧ footprint d ≤ k).
Proof.
  induction fuel as [|fuel IH]; intros depth; cbn [value]; [apply gives_bad|]. destruct (Z.ltb_spec MAX_DEPTH depth) as [|Hd]; [apply gives_bad|].
  assert (∀ d, match d with DNull | DBool _ => True | DInt i => in_i64 i | DFloat f => f_finite f = true ∧ in_u 64 f | DDecimal _ | DDate _ => True
    | DStr s => valid_str s | DTime t => whole_ms (t_nanosecond t) = true | DDateTime t => whole_ms (dt_nanosecond t) = true | _ => False end → readable depth d) as Hleaf.
  { intros d Hok. apply Z.ltb_ge in Hd. destruct d; unfold readable; cbn [doc_ok check_at]; rewrite Hd; try by split.
    - destruct Hok as [-> ?]. by split.
    - by rewrite Hok.
    - by rewrite Hok. }
  gives_step gives_byte. repeat case_match; subst; try apply gives_bad.
  all: try (apply gives_ret; cbn [footprint]; split; [by apply Hleaf|lia]).
  - gives_step gives_varint. apply gives_ret. split; [apply Hleaf; by apply unzigzag_in|cbn [footprint]; lia].
  - gives_step (gives_take 8). destruct (f_finite (le_val _)) eqn:Hf; cbn [negb]; [|apply gives_bad]. apply gives_ret.
    split; [apply Hleaf; split; [done|]|cbn [footprint]; lia]. by apply (le_val_in 8).
  - gives_step (gives_take 16). destruct (_ || _); [apply gives_bad|]. apply gives_ret. cbn [footprint]. split; [by apply Hleaf|lia].
  - gives_step gives_text. apply gives_ret. split; [by apply Hleaf|cbn [footprint]; lia].
  - gives_step (gives_take 4). gives_step @gives_option. apply gives_ret. split; [by apply Hleaf|cbn [footprint]; lia].
  - gives_step (gives_take 8). gives_step @gives_option. apply gives_ret. split; [|cbn [footprint]; lia].
    apply Hleaf, whole_ms_spec; [apply dt_nanos_range|]. by eapply from_millis_whole.
  - gives_step (gives_take 4). gives_step @gives_option. apply gives_ret. split; [|cbn [footprint]; lia]. apply Hleaf.
    apply whole_ms_spec; [apply t_nanos_range|].
    destruct (from_num_seconds _ _) eqn:Et; [|discriminate]. cbn in *. case_match; simplify_eq. apply from_seconds_inv in Et as [_ ->].
    pose proof (Z.mod_pos_bound (le_val x0) 1000 ltac:(lia)). split; [lia|]. by apply Z.mod_mul.
  - gives_step gives_count. eapply gives_bind; [apply (gives_items _ (readable (depth + 1)) footprint), IH|]. intros j l Hj [HF Hw]. apply gives_ret.
    cbn [footprint]. split; [|lia]. apply Z.ltb_ge in Hd. split; cbn [doc_ok check_at]; [apply all_Forall|rewrite Hd; apply try_for_each_ok];
      (eapply Forall_impl; [exact HF|]); by intros d [? ?].
  - gives_step gives_count. eapply gives_bind; [apply (gives_members _ (readable (depth + 1))); [apply IH|apply NoDup_nil_2|apply List.Forall_nil]|].
    intros j m Hj (Hnd & HF & Hw). apply gives_ret. cbn [footprint]. fold (weight m). change (weight []) with 0 in Hw. split; [|lia]. apply Z.ltb_ge in Hd.
    split; cbn [doc_ok check_at]; [split; [done|]; apply all_Forall|rewrite Hd; apply try_for_each_ok];
      (eapply Forall_impl; [exact HF|]); intros kv (? & ? & ?); by try split.
Qed.
Lemma decode_readable b d : all_bytes b → decode b = Ok d → readable 1 d ∧ 1 + footprint d ≤ len b.
Proof.
  intros Hb E. unfold decode in E. destruct (byte b 0) as [[v pos]|] eqn:Ev; [|discriminate].
  destruct (gives_byte b 0 v pos Hb ltac:(pose proof (len_nonneg b); lia) Ev) as [Hp [Hp1 _]].
  destruct (negb (v =? _)); [discriminate|]. apply result_bind_ok in E as ([d' e] & Hv & E). apply gives_value in Hv as (He & Hr & Hf); [|done|lia].
  destruct (negb (e =? len b)); [discriminate|]. simplify_eq. split; [done|lia].
Qed.

(** C25: a document that passes [check] is read back from its encoding as it
    was written: its types, the bits of its floats, its decimals with their
    scale, the order of its members, at every level. *)
Theorem kdoc_roundtrip d : doc_ok d → check d = Ok tt → len (encode d) ≤ u64_max → decode (encode d) = Ok d.
Proof. apply decode_encode. Qed.
(** C26: whatever bytes [decode] accepts, what it gives is a document of the
    types of the program: integers of 64 bits, finite floats, texts of
    characters, members with distinct keys, times to the millisecond, 128
    levels at most; so that [check] lets it be written again. *)
Theorem kdoc_decoded_type b d : all_bytes b → decode b = Ok d → doc_ok d ∧ check d = Ok tt.
Proof. intros Hb E. exact (proj1 (decode_readable b d Hb E)). Qed.
Lemma count_bounded b pos n e : all_bytes b → 0 ≤ pos ≤ len b → count b pos = Ok (n, e) → pos < e ≤ len b ∧ 0 ≤ n ≤ len b - e.
Proof.
  intros Hb Hpos E. unfold count in E. apply result_bind_ok in E as ([m p] & Hv & E). cbn [fst snd] in E.
  destruct (gives_varint b pos m p Hb Hpos Hv) as [Hp [Hp1 Hm]].
  apply result_bind_ok in E as ([rest p'] & Hl & E). cbn [fst snd] in E. unfold left_bytes in Hl. injection Hl as <- <-.
  destruct (Z.leb_spec m (len b - p)) as [Hle|]; [|discriminate]. injection E as <- <-. unfold in_u in Hm. lia.
Qed.
(** C27: a document never takes more than the payload it is read from,
    whatever lengths and counts a damaged payload claims. Each length of a text
    and each count of items or members that is accepted, wherever it is read
    and whether or not the whole is a document in the end, is at most the
    number of bytes left after it: it is what memory is reserved for before
    anything of it is read. And the values of a document that is read and the
    bytes of its texts are fewer than the bytes of the payload. *)
Theorem kdoc_bounded b : all_bytes b →
  (∀ pos n e, 0 ≤ pos ≤ len b → count b pos = Ok (n, e) → pos < e ≤ len b ∧ 0 ≤ n ≤ len b - e) ∧
  ∀ d, decode b = Ok d → footprint d < len b.
Proof.
  intros Hb. split; [intros pos n e; by apply count_bounded|]. intros d E. pose proof (proj2 (decode_readable b d Hb E)). lia.
Qed.
End doc.

(** Closed terms of one value, compared without normalizing their types. *)
Ltac vm_same := match goal with |- ?a = ?b => exact (@eq_refl _ a <: a = b) end.
(** ** A concrete calendar *)
Definition in_rangeb (lo hi z : Z) : bool := (lo <=? z) && (z <? hi).
Record bounded (lo hi : Z) := Bounded { bz : Z; bz_ok : in_rangeb lo hi bz = true }.
Arguments Bounded {lo hi}. Arguments bz {lo hi}. Arguments bz_ok {lo hi}.
Definition of_Z (lo hi z : Z) : option (bounded lo hi) :=
  match Bool.bool_dec (in_rangeb lo hi z) true with left H => Some (Bounded z H) | right _ => None end.
Lemma bounded_eq lo hi (x y : bounded lo hi) : bz x = bz y → x = y.
Proof. destruct x as [x Hx], y as [y Hy]. cbn. intros ->. f_equal. apply Eqdep_dec.UIP_dec, Bool.bool_dec. Qed.
Lemma bounded_range lo hi (x : bounded lo hi) : lo ≤ bz x < hi.
Proof. destruct x as [x Hx]. cbn. unfold in_rangeb in Hx. rewrite andb_true_iff, Z.leb_le, Z.ltb_lt in Hx. done. Qed.
Lemma of_Z_bz lo hi (x : bounded lo hi) : of_Z lo hi (bz x) = Some x.
Proof.
  unfold of_Z. destruct (Bool.bool_dec _ _) as [H|H]; [f_equal; by apply bounded_eq|]. destruct x as [x Hx]. by destruct H.
Qed.
Lemma of_Z_inv lo hi z x : of_Z lo hi z = Some x → bz x = z.
Proof. unfold of_Z. destruct (Bool.bool_dec _ _); [|done]. by intros [= <-]. Qed.
Definition NANOS2 : Z := 2000000000.
#[export] Instance sample_chrono : Chrono := {|
  NaiveDate := bounded (- 2 ^ 31) (2 ^ 31); days_from_epoch := bz; epoch_plus_days := of_Z _ _;
  DateTime := bounded (- 2 ^ 63) (2 ^ 63); timestamp_millis := bz; dt_nanosecond t := bz t mod 1000 * 1000000; from_timestamp_millis := of_Z _ _;
  NaiveTime := bounded 0 (86400 * NANOS2); num_seconds_from_midnight t := bz t / NANOS2; t_nanosecond t := bz t mod NANOS2;
  from_num_seconds s n := if (0 <=? n) && (n <? NANOS2) then of_Z _ _ (s * NANOS2 + n) else None;
|}.
#[export] Instance sample_chrono_laws : ChronoLaws.
Proof.
  assert (∀ t, 0 ≤ dt_nanosecond t < 1000000000 ∧ dt_nanosecond t mod 1000000 = 0) as Hn.
  { intros t. cbn [dt_nanosecond timestamp_millis num_seconds_from_midnight t_nanosecond from_num_seconds sample_chrono]. pose proof (Z.mod_pos_bound (bz t) 1000 ltac:(lia)). split; [lia|by apply Z.mod_mul]. }
  split; try apply bounded_range; try apply of_Z_bz.
  - intros t. pose proof (bounded_range _ _ t). cbn [dt_nanosecond timestamp_millis num_seconds_from_midnight t_nanosecond from_num_seconds sample_chrono]. unfold in_i64, i64_min, i64_max. lia.
  - intros t. apply Hn.
  - intros t _ _. apply of_Z_bz.
  - intros z t _. apply Hn.
  - intros t. change (0 ≤ bz t / NANOS2 < 86400). generalize (bounded_range 0 (86400 * NANOS2) t). generalize (bz t). unfold NANOS2. intros z Hz.
    split; [apply Z.div_pos; lia|apply Z.div_lt_upper_bound; lia].
  - intros t. apply Z.mod_pos_bound. done.
  - intros t. cbn [dt_nanosecond timestamp_millis num_seconds_from_midnight t_nanosecond from_num_seconds sample_chrono]. pose proof (Z.mod_pos_bound (bz t) NANOS2 ltac:(done)). rewrite leb_t, ltb_t by lia. cbn [andb].
    replace (bz t / NANOS2 * NANOS2 + bz t mod NANOS2) with (bz t) by (rewrite (Z.div_mod (bz t) NANOS2) at 1; [lia|done]). apply of_Z_bz.
  - intros s n t. cbn [dt_nanosecond timestamp_millis num_seconds_from_midnight t_nanosecond from_num_seconds sample_chrono]. destruct (Z.leb_spec 0 n), (Z.ltb_spec n NANOS2); cbn [andb]; try done. intros ->%of_Z_inv.
    split; [symmetry; apply (Z.div_unique_pos _ _ _ n)|symmetry; apply (Z.mod_unique_pos _ _ s)]; lia.
Qed.
#[export] Instance sample_dec_bytes : DecimalBytes := {|
  dec_serialize d := le_bytes 4 (dec_scale d * 2 ^ 16 + (if dec_neg d then 2 ^ 31 else 0)) ++ le_bytes 12 (dec_mag d);
  dec_deserialize b := let flags := le_val (take 4 b) in dec_make (2 ^ 31 <=? flags) (le_val (drop 4 b)) (flags mod 2 ^ 31 / 2 ^ 16);
|}.
#[export] Instance sample_dec_bytes_laws : DecimalBytesLaws.
Proof.
  assert (∀ d : sample_dec, le_val (take 4 (dec_serialize d)) = dec_scale d * 2 ^ 16 + (if dec_neg d then 2 ^ 31 else 0)) as Hf.
  { intros d. cbn [dec_serialize sample_dec_bytes]. rewrite take_app_len by apply le_bytes_length. apply le_val_u32.
    pose proof (dec_ok d) as [_ Hs]. unfold MAX_SCALE in Hs. unfold in_u. destruct (dec_neg d); lia. }
  split; intros d.
  - cbn [dec_serialize sample_dec_bytes]. by rewrite length_app, !le_bytes_length.
  - rewrite Hf. pose proof (dec_ok d) as [_ Hs]. revert Hs. generalize (dec_scale d). intros k Hs.
    assert (forallb (fun k => bool_decide (∀ b : bool, unused_flags (k * 2 ^ 16 + (if b then 2 ^ 31 else 0)) = 0 ∧
      flags_scale (k * 2 ^ 16 + (if b then 2 ^ 31 else 0)) ≤ MAX_SCALE)) (List.map Z.of_nat (List.seq 0 29)) = true) as Hall by by vm_compute.
    rewrite forallb_forall in Hall. assert (In k (List.map Z.of_nat (List.seq 0 29))) as Hin.
    { apply in_map_iff. exists (Z.to_nat k). split; [lia|]. apply in_seq. unfold MAX_SCALE in *. lia. }
    apply Hall, bool_decide_eq_true_1 in Hin. apply Hin.
  - cbn [dec_serialize sample_dec_bytes]. apply Forall_app. split; apply le_bytes_all.
  - cbn [dec_deserialize sample_dec_bytes]. rewrite Hf. cbn [dec_serialize sample_dec_bytes]. rewrite drop_app_len by apply le_bytes_length.
    pose proof (dec_ok d) as [Hm Hs]. rewrite le_val_le_bytes, Z.mod_small by exact Hm. unfold MAX_SCALE in Hs.
    destruct d as [neg mag sc Hv]. cbn [dec_neg dec_mag dec_scale] in *.
    assert ((2 ^ 31 <=? sc * 2 ^ 16 + (if neg then 2 ^ 31 else 0)) = neg) as -> by (destruct neg; [apply leb_t|apply leb_f]; lia).
    assert ((sc * 2 ^ 16 + (if neg then 2 ^ 31 else 0)) mod 2 ^ 31 = sc * 2 ^ 16) as ->
      by (symmetry; destruct neg; [apply (Z.mod_unique_pos _ _ 1)|apply (Z.mod_unique_pos _ _ 0)]; lia).
    rewrite Z.div_mul by done. unfold dec_make. destruct (Bool.bool_dec _ _) as [Hb|]; [|done]. f_equal. apply Eqdep_dec.UIP_dec, Bool.bool_dec.
Qed.

(** [{"n": [-1, 0.5, 1.50], "t": "a"}] *)
Definition sample_doc : Doc :=
  DObject [(lit "n", DArray [DInt (-1); DFloat 0x3FE0000000000000; DDecimal (dec_make false 150 2 : @Decimal sample_decimals)]); (lit "t", DStr (lit "a"))].
Lemma sample_doc_ok : doc_ok sample_doc ∧ check sample_doc = Ok tt ∧ len (encode sample_doc) ≤ u64_max.
Proof.
  split; [|split; [by vm_compute|by vm_compute]]. cbn [doc_ok sample_doc all].
  split; [vm_decide|]. repeat split; unfold in_i64, in_u, i64_min, i64_max; try lia; vm_decide.
Qed.
Lemma kdoc_roundtrip_witness :
  (doc_ok sample_doc ∧ check sample_doc = Ok tt ∧ len (encode sample_doc) ≤ u64_max) ∧ decode (encode sample_doc) = Ok sample_doc.
Proof. pose proof sample_doc_ok as (Hok & Hc & Hl). split; [exact sample_doc_ok|exact (kdoc_roundtrip sample_doc Hok Hc Hl)]. Defined.
Lemma kdoc_decoded_type_witness :
  all_bytes [1; 10; 1; 3; 1] ∧ decode [1; 10; 1; 3; 1] = Ok (DArray [DInt (-1)]) ∧
  doc_ok (DArray [DInt (-1)]) ∧ check (DArray [DInt (-1)]) = Ok tt.
Proof.
  assert (all_bytes [1; 10; 1; 3; 1]) as Hb by by apply bytesb_all.
  assert (decode [1; 10; 1; 3; 1] = Ok (DArray [DInt (-1)])) as E by vm_same.
  split; [exact Hb|]. split; [exact E|]. exact (kdoc_decoded_type _ _ Hb E).
Defined.
Lemma kdoc_bounded_witness :
  all_bytes [1; 6; 1; 97] ∧ decode [1; 6; 1; 97] = Ok (DStr (lit "a")) ∧ footprint (DStr (lit "a")) < len [1; 6; 1; 97].
Proof.
  assert (all_bytes [1; 6; 1; 97]) as Hb by by apply bytesb_all.
  assert (decode [1; 6; 1; 97] = Ok (DStr (lit "a"))) as E by vm_same.
  split; [exact Hb|]. split; [exact E|]. exact (proj2 (kdoc_bounded _ Hb) _ E).
Defined.
