(* ===== verification/Journal.v ===== *)
(** * [src/changes.rs]: the change journal of a workspace

    Every committed write, numbered, in segment files named by their first
    number. The folder is the content of each segment file by its number, and
    the content of [consumers.json]; reads of files succeed when the file is
    there and long enough, and a segment that cannot be created leaves no
    file. [JIo] says how the writes of an operation end. The [segments] of the
    code are [older ++ [active]]: it makes sure there is one, and its [file] is
    the file of the last. *)
From S2P Require Import Prelude Utf8 Util Maps Types Compress Format Crypt.
Open Scope Z_scope.

Definition MAGIC : bytes := lit "KCDC".
Definition VERSION : Z := 1.
Definition HEADER_LEN : Z := 24.
Definition BODY_FIXED : Z := 8 * 4 + 3 + 8 * 2 + 2.
Definition MAX_RECORD : Z := 300 * 1024 * 1024.
Definition MAX_READ : Z := 1000.
Definition MAX_SCAN : Z := 20000.
Definition INDEX_EVERY : Z := 256.
Definition KIND_MARK : Z := 0.
Definition KIND_SET : Z := 1.
Definition KIND_DEL : Z := 2.
Definition KIND_RESET : Z := 3.
Definition F_TXN_END : Z := 1.
Definition F_MSGPACK : Z := 2.
Definition F_VALUE : Z := 4.
Definition F_CREATED : Z := 8.
Definition F_REBUILT : Z := 16.
Definition F_KDOC : Z := 32.

Record Settings := { values : bool; retain_secs : Z; max_bytes : Z }.
Definition segment_bytes (s : Settings) : Z := clamp (Z.shiftl 1 20) (Z.shiftl 64 20) (max_bytes s / 8).

Inductive ChangeKind := KSet | KDel | KReset.
#[export] Instance ChangeKind_eq : EqDecision ChangeKind.
Proof. solve_decision. Defined.
Record NewChange := {
  n_kind : ChangeKind; n_key : str; n_ty : Z; n_raw : bytes; n_enc : DocEnc; n_timestamp : Z; n_expires_at : Z;
  n_created : option bool; n_data_end : Z;
}.
Record Change := {
  c_seq : Z; c_kind : ChangeKind; c_key : str; c_ty : Z; c_value : option bytes; c_enc : DocEnc; c_timestamp : Z;
  c_expires_at : Z; c_created : option bool; c_txn : option Z; c_txn_end : bool;
}.
(** [Body], and [Parsed] that has the same fields. *)
Record Parsed := {
  p_seq : Z; p_file_id : Z; p_data_end : Z; p_txn : Z; p_kind : Z; p_flags : Z; p_ty : Z; p_timestamp : Z; p_expires_at : Z;
  p_key : str; p_value : bytes;
}.
Record Segment := { first_seq : Z; s_len : Z; last_ts : Z; s_index : list (Z * Z); records : Z }.
Record Dir := { d_segs : gmap Z bytes; d_consumers : option (gmap str (Z * Z)) }.
Record JIo := {
  io_id : option Z;            (* the random id of a new journal *)
  io_nonce : nat → option bytes;
  io_sync : bool;
  io_create : bool;            (* a new segment is created *)
  io_write : option bytes;     (* [Some junk]: the write fails and leaves [junk] where it began *)
}.

Inductive ReadError := Expired (oldest : Z) | RInvalid (m : String.string) | ROther (e : KivaError).
Record Batch := { b_changes : list Change; b_next : Z; b_more : bool }.

(** ** Bodies and frames *)
Definition body (b : Parsed) : bytes :=
  le_bytes 8 (p_seq b) ++ le_bytes 8 (p_file_id b) ++ le_bytes 8 (p_data_end b) ++ le_bytes 8 (p_txn b)
  ++ [p_kind b; p_flags b; p_ty b] ++ le_bytes 8 (wrap 64 (p_timestamp b)) ++ le_bytes 8 (wrap 64 (p_expires_at b))
  ++ le_bytes 2 (wrap 16 (str_len (p_key b))) ++ utf8 (p_key b) ++ p_value b.
Definition parse_body (b : bytes) : option Parsed :=
  if len b <? BODY_FIXED then None
  else
    let klen := le_val (slice (BODY_FIXED - 2) BODY_FIXED b) in
    if len b <? BODY_FIXED + klen then None
    else Some {|
      p_seq := le_val (slice 0 8 b); p_file_id := le_val (slice 8 16 b); p_data_end := le_val (slice 16 24 b);
      p_txn := le_val (slice 24 32 b); p_kind := le_val (slice 32 33 b); p_flags := le_val (slice 33 34 b);
      p_ty := le_val (slice 34 35 b); p_timestamp := sint 64 (le_val (slice 35 43 b));
      p_expires_at := sint 64 (le_val (slice 43 51 b));
      p_key := from_utf8_lossy (slice BODY_FIXED (BODY_FIXED + klen) b);
      p_value := drop (Z.to_nat (BODY_FIXED + klen)) b |}.
Definition into_change (p : Parsed) : Change := {|
  c_seq := p_seq p;
  c_kind := if p_kind p =? KIND_DEL then KDel else if p_kind p =? KIND_RESET then KReset else KSet;
  c_key := p_key p; c_ty := p_ty p;
  c_value := if has_flag (p_flags p) F_VALUE then Some (p_value p) else None;
  c_enc := if has_flag (p_flags p) F_KDOC then EncKdoc else if has_flag (p_flags p) F_MSGPACK then EncMsgPack else EncJson;
  c_timestamp := p_timestamp p; c_expires_at := p_expires_at p;
  c_created := if has_flag (p_flags p) F_REBUILT then None else Some (has_flag (p_flags p) F_CREATED);
  c_txn := if p_txn p =? 0 then None else Some (p_txn p);
  c_txn_end := has_flag (p_flags p) F_TXN_END |}.

Definition seg_header (id first : Z) : bytes := MAGIC ++ le_bytes 4 VERSION ++ le_bytes 8 id ++ le_bytes 8 first.
Definition new_seg (first : Z) : Segment := {| first_seq := first; s_len := HEADER_LEN; last_ts := 0; s_index := []; records := 0 |}.
Definition parse_header (data : bytes) (first : Z) : option Z :=
  if (len data <? HEADER_LEN) || negb (bool_decide (take 4 data = MAGIC)) || negb (le_val (slice 4 8 data) =? VERSION) then None
  else if le_val (slice 16 24 data) =? first then Some (le_val (slice 8 16 data)) else None.

Section journal.
  Context `{Aead} `{Crc}.

(** The body of the record that starts here, and the size of the record. *)
Definition frame (data : bytes) : option (bytes * Z) :=
  if len data <? 8 then None
  else
    let n := le_val (slice 0 4 data) in
    if (MAX_RECORD <? n) || (len data <? 8 + n) then None
    else
      let b := slice 8 (8 + n) data in
      if crc32 b =? le_val (slice 4 8 data) then Some (b, 8 + n) else None.
(** [while pos < data.len() { let Some((body, end)) = frame(..) else break; .. }]:
    the bodies such a loop goes through, with the size of each record. *)
Fixpoint frames (fuel : nat) (data : bytes) : list (bytes * Z) :=
  match fuel with
  | O => []
  | S fuel => match frame data with None => [] | Some (b, n) => (b, n) :: frames fuel (drop (Z.to_nat n) data) end
  end.
Definition records_of (data : bytes) : list (bytes * Z) := frames (length data) data.

Definition open_body (ks : option Keys) (id : Z) (sealed : bytes) : result KivaError bytes :=
  match ks with
  | Some k => match open_with (Some k) Changes (le_bytes 8 id) sealed with Ok b => Ok b | Err e => Err (into_error e) end
  | None => Ok sealed
  end.

Record Journal := {
  dir : Dir;
  j_id : Z;
  settings : Settings;
  j_keys : option Keys;
  older : list Segment;
  active : Segment;
  last_seq : Z;
  dirty : bool;
  last_pos : option (Z * Z);
  consumers : gmap str (Z * Z);
  broken : option String.string;
  written : Z;
  read_synced : Z;
}.
Definition segments (j : Journal) : list Segment := older j ++ [active j].
Definition seg_file (j : Journal) (s : Segment) : bytes := default [] (d_segs (dir j) !! first_seq s).
Definition put_file (first : Z) (b : bytes) (d : Dir) : Dir := {| d_segs := <[first := b]> (d_segs d); d_consumers := d_consumers d |}.
Definition drop_file (first : Z) (d : Dir) : Dir := {| d_segs := delete first (d_segs d); d_consumers := d_consumers d |}.

(** ** Opening *)
Fixpoint load_records (ks : option Keys) (id : Z) (rs : list (bytes * Z)) (seg : Segment) (last_seq : Z) (last_pos : option (Z * Z))
    : Segment * Z * option (Z * Z) :=
  match rs with
  | [] => (seg, last_seq, last_pos)
  | (b, n) :: rs =>
    match open_body ks id b with
    | Err _ => (seg, last_seq, last_pos)
    | Ok body =>
      match parse_body body with
      | None => (seg, last_seq, last_pos)
      | Some r =>
        let change := negb (p_kind r =? KIND_MARK) in
        let seg' := {|
          first_seq := first_seq seg; s_len := s_len seg + n;
          last_ts := if change then p_timestamp r else last_ts seg;
          s_index := if change && (records seg mod INDEX_EVERY =? 0) then s_index seg ++ [(p_seq r, s_len seg)] else s_index seg;
          records := if change then records seg + 1 else records seg |} in
        load_records ks id rs seg' (if change then p_seq r else last_seq) (Some (p_file_id r, p_data_end r))
      end
    end
  end.
Fixpoint open_segments (ks : option Keys) (names : list Z) (id : option Z) (segs : list Segment) (last_seq : Z) (last_pos : option (Z * Z)) (d : Dir)
    : result KivaError (option Z * list Segment * Z * option (Z * Z) * Dir) :=
  match names with
  | [] => Ok (id, segs, last_seq, last_pos, d)
  | first :: names =>
    let newest := bool_decide (names = []) in
    let data := default [] (d_segs d !! first) in
    match parse_header data first with
    | None =>
      if newest then open_segments ks names id segs last_seq last_pos (drop_file first d)
      else Err (Corrupted "{} is not a change journal segment")
    | Some seg_id =>
      if negb (default seg_id id =? seg_id) then Err (Corrupted "{} belongs to another change journal")
      else
        let '(seg, last_seq, last_pos) :=
          load_records ks seg_id (records_of (drop (Z.to_nat HEADER_LEN) data)) (new_seg first) last_seq last_pos in
        if s_len seg <? len data then
          if newest then
            open_segments ks names (Some seg_id) (segs ++ [seg]) last_seq last_pos (put_file first (take (Z.to_nat (s_len seg)) data) d)
          else Err (Corrupted "{} is damaged at byte {}: remove the folder {} to start a new change journal")
        else open_segments ks names (Some seg_id) (segs ++ [seg]) last_seq last_pos d
    end
  end.
Definition new_segment (io : JIo) (id first : Z) (d : Dir) : result KivaError (Segment * Dir) :=
  if io_create io then Ok (new_seg first, put_file first (seg_header id first) d) else Err (Io "{e}").
Definition seg_names (d : Dir) : list Z := merge_sort Z.le (map_to_list (d_segs d)).*1.
Definition open_ (io : JIo) (d : Dir) (ks : option Keys) (s : Settings) : result KivaError Journal :=
  '(id, segs, last_seq, last_pos, d) ← open_segments ks (seg_names d) None [] 0 None d;
  id ← match id with Some id => Ok id | None => ok_or (io_id io) NONCE_ERR end;
  '(segs, d) ← (if bool_decide (segs = []) then '(seg, d) ← new_segment io id (last_seq + 1) d; Ok ([seg], d) else Ok (segs, d));
  active ← ok_or (last segs) (Other "one segment");
  Ok {| dir := d; j_id := id; settings := s; j_keys := ks; older := removelast segs; active := active; last_seq := last_seq;
        dirty := false; last_pos := last_pos; consumers := default ∅ (d_consumers d); broken := None; written := 0; read_synced := 0 |}.

Definition oldest_seq (j : Journal) : Z := match segments j with s :: _ => first_seq s | [] => 1 end.
Definition total_bytes (segs : list Segment) : Z := foldr (fun s n => s_len s + n) 0 segs.
Definition retained (segs : list Segment) : Z := foldr (fun s n => records s + n) 0 segs.

(** ** Writing *)
Definition set_segs (d : Dir) (o : list Segment) (a : Segment) (dirty' : bool) (j : Journal) : Journal := {|
  dir := d; j_id := j_id j; settings := settings j; j_keys := j_keys j; older := o; active := a; last_seq := last_seq j;
  dirty := dirty'; last_pos := last_pos j; consumers := consumers j; broken := broken j; written := written j;
  read_synced := read_synced j |}.
Definition set_pos (n : Z) (pos : option (Z * Z)) (more : Z) (j : Journal) : Journal := {|
  dir := dir j; j_id := j_id j; settings := settings j; j_keys := j_keys j; older := older j; active := active j; last_seq := n;
  dirty := dirty j; last_pos := pos; consumers := consumers j; broken := broken j; written := written j + more;
  read_synced := read_synced j |}.
Definition set_broken (why : String.string) (j : Journal) : Journal := {|
  dir := dir j; j_id := j_id j; settings := settings j; j_keys := j_keys j; older := older j; active := active j; last_seq := last_seq j;
  dirty := dirty j; last_pos := last_pos j; consumers := consumers j; broken := Some why; written := written j;
  read_synced := read_synced j |}.
Definition set_consumers (d : Dir) (c : gmap str (Z * Z)) (j : Journal) : Journal := {|
  dir := d; j_id := j_id j; settings := settings j; j_keys := j_keys j; older := older j; active := active j; last_seq := last_seq j;
  dirty := dirty j; last_pos := last_pos j; consumers := c; broken := broken j; written := written j;
  read_synced := read_synced j |}.

Definition sync (io : JIo) (j : Journal) : result KivaError unit * Journal :=
  if dirty j then if io_sync io then (Ok tt, set_segs (dir j) (older j) (active j) false j) else (Err (Io "{e}"), j)
  else (Ok tt, j).
Definition rotate (io : JIo) (j : Journal) : result KivaError unit * Journal :=
  match sync io j with
  | (Err e, j) => (Err e, j)
  | (Ok _, j) =>
    match new_segment io (j_id j) (last_seq j + 1) (dir j) with
    | Err e => (Err e, j)
    | Ok (seg, d) => (Ok tt, set_segs d (segments j) seg (dirty j) j)
    end
  end.

(** The record added to the buffer. *)
Definition push_record (j : Journal) (nonce : option bytes) (b : bytes) : result KivaError bytes :=
  b ← match j_keys j with Some k => seal k Changes (le_bytes 8 (j_id j)) nonce b | None => Ok b end;
  Ok (le_bytes 4 (wrap 32 (len b)) ++ le_bytes 4 (crc32 b) ++ b).
Definition index_record (at_ : Z) (seg : Segment) (o : Z * Z * Z) : Segment :=
  let '(seq, off, ts) := o in {|
  first_seq := first_seq seg; s_len := s_len seg; last_ts := ts;
  s_index := if records seg mod INDEX_EVERY =? 0 then s_index seg ++ [(seq, at_ + off)] else s_index seg;
  records := records seg + 1 |}.
Definition write (io : JIo) (buf : bytes) (offsets : list (Z * Z * Z)) (j : Journal) : result KivaError unit * Journal :=
  match (if (segment_bytes (settings j) <=? s_len (active j)) && (0 <? records (active j)) then rotate io j else (Ok tt, j)) with
  | (Err e, j) => (Err e, j)
  | (Ok _, j) =>
    let seg := active j in
    let at_ := s_len seg in
    let f := seg_file j seg in
    match io_write io with
    | Some junk =>
      (Err (Io "{e}"), set_broken "{e}" (set_segs (put_file (first_seq seg) (take (Z.to_nat at_) f ++ junk) (dir j)) (older j) seg (dirty j) j))
    | None =>
      let f := take (Z.to_nat at_) f ++ buf ++ drop (Z.to_nat (at_ + len buf)) f in
      let grown := {| first_seq := first_seq seg; s_len := at_ + len buf; last_ts := last_ts seg; s_index := s_index seg; records := records seg |} in
      (Ok tt, set_segs (put_file (first_seq seg) f (dir j)) (older j) (fold_left (index_record at_) offsets grown) true j)
    end
  end.

Definition change_flags (s : Settings) (closes : bool) (c : NewChange) : Z :=
  let f := match n_enc c with EncJson => 0 | EncMsgPack => F_MSGPACK | EncKdoc => F_KDOC end in
  let f := match n_created c with Some true => Z.lor f F_CREATED | Some false => f | None => Z.lor f F_REBUILT end in
  let f := if closes then Z.lor f F_TXN_END else f in
  if values s && bool_decide (n_kind c = KSet) then Z.lor f F_VALUE else f.
Definition new_body (s : Settings) (file_id seq txn : Z) (closes : bool) (c : NewChange) : Parsed := {|
  p_seq := seq; p_file_id := file_id; p_data_end := n_data_end c; p_txn := txn;
  p_kind := match n_kind c with KSet => KIND_SET | KDel => KIND_DEL | KReset => KIND_RESET end;
  p_flags := change_flags s closes c; p_ty := n_ty c; p_timestamp := n_timestamp c; p_expires_at := n_expires_at c;
  p_key := n_key c; p_value := if values s && bool_decide (n_kind c = KSet) then n_raw c else [] |}.
(** The loop of [append]: the changes numbered from [seq] on. *)
Fixpoint push_changes (j : Journal) (io : JIo) (file_id first : Z) (txn : bool) (i : nat) (cs : list NewChange) (buf : bytes) (offsets : list (Z * Z * Z))
    : result KivaError (bytes * list (Z * Z * Z)) :=
  match cs with
  | [] => Ok (buf, offsets)
  | c :: cs =>
    let seq := first + Z.of_nat i in
    let b := new_body (settings j) file_id seq (if txn then first else 0) (txn && bool_decide (cs = [])) c in
    rec ← push_record j (io_nonce io i) (body b);
    push_changes j io file_id first txn (S i) cs (buf ++ rec) (offsets ++ [(seq, len buf, n_timestamp c)])
  end.
Definition append (io : JIo) (file_id : Z) (changes : list NewChange) (txn : bool) (j : Journal) : result KivaError unit * Journal :=
  match last changes with
  | None => (Ok tt, j)
  | Some last =>
    let first := last_seq j + 1 in
    match push_changes j io file_id first txn 0 changes [] [] with
    | Err e => (Err e, j)
    | Ok (buf, offsets) =>
      match write io buf offsets j with
      | (Err e, j) => (Err e, j)
      | (Ok _, j) => (Ok tt, set_pos (first + len changes - 1) (Some (file_id, n_data_end last)) (len changes) j)
      end
    end
  end.
Definition mark_body (seq file_id data_end : Z) : Parsed := {|
  p_seq := seq; p_file_id := file_id; p_data_end := data_end; p_txn := 0; p_kind := KIND_MARK; p_flags := 0; p_ty := 0;
  p_timestamp := 0; p_expires_at := 0; p_key := []; p_value := [] |}.
Definition mark (io : JIo) (file_id data_end : Z) (j : Journal) : result KivaError unit * Journal :=
  match push_record j (io_nonce io 0) (body (mark_body (last_seq j) file_id data_end)) with
  | Err e => (Err e, j)
  | Ok buf =>
    match write io buf [] j with
    | (Err e, j) => (Err e, j)
    | (Ok _, j) => (Ok tt, set_pos (last_seq j) (Some (file_id, data_end)) 0 j)
    end
  end.

(** ** Retention *)
Fixpoint trim_loop (s : Settings) (now_secs : Z) (o : list Segment) (a : Segment) (d : Dir) (removed : Z) : list Segment * Dir * Z :=
  match o with
  | [] => (o, d, removed)
  | old :: o' =>
    let too_old := (0 <? last_ts old) && (last_ts old <? sint 64 (now_secs - sint 64 (retain_secs s))) in
    let too_big := max_bytes s <? total_bytes (o ++ [a]) in
    if negb (too_old || too_big) then (o, d, removed)
    else trim_loop s now_secs o' a (drop_file (first_seq old) d) (removed + records old)
  end.
Definition trim (now_secs : Z) (j : Journal) : Z * Journal :=
  let '(o, d, removed) := trim_loop (settings j) now_secs (older j) (active j) (dir j) 0 in
  (removed, set_segs d o (active j) (dirty j) j).

(** ** Cursors *)
Definition cursor (id seq : Z) : str := hex_encode (be_bytes 8 id) ++ hex_encode (be_bytes 8 seq).
Definition is_ascii_hexdigit (c : Z) : bool := bool_decide (is_Some (nib c)).
(** [u64::from_str_radix(_, 16)] of sixteen digits. *)
Definition hex_value (s : str) : Z := fold_left (fun n c => n * 16 + default 0 (nib c)) s 0.
Definition parse_cursor (j : Journal) (cursor : str) : result ReadError Z :=
  let c := Utf8.trim cursor in
  if negb (str_len c =? 32) || negb (forallb is_ascii_hexdigit c) then Err (RInvalid "'{cursor}' is not a cursor of this change journal")
  else
    let id := hex_value (take 16 c) in
    let seq := hex_value (drop 16 c) in
    if negb (id =? j_id j) then Err (RInvalid "this cursor comes from another change journal")
    else if last_seq j <? seq then Err (RInvalid "this cursor is ahead of the journal (number {seq}, the last is {})")
    else Ok seq.

(** ** Reading *)
(** The changes kept, the position after the last one looked at, and how many
    were looked at. *)
Definition Acc : Type := list Change * Z * Z.
Definition wanted (pattern : option str) (r : Parsed) : bool :=
  match pattern with None => true | Some p => glob_match p (p_key r) || (p_kind r =? KIND_RESET) end.
Definition take_change (pattern : option str) (r : Parsed) (acc : Acc) : Acc :=
  let '(changes, _, scanned) := acc in
  (if wanted pattern r then changes ++ [into_change r] else changes, p_seq r, scanned + 1).
Definition enough (limit : Z) (acc : Acc) : bool := let '(changes, _, scanned) := acc in (limit <=? len changes) || (MAX_SCAN <=? scanned).
(** [true]: the outer loop ends too. *)
Fixpoint read_records (ks : option Keys) (id after limit : Z) (pattern : option str) (rs : list (bytes * Z)) (acc : Acc)
    : result ReadError (bool * Acc) :=
  match rs with
  | [] => Ok (false, acc)
  | (b, _) :: rs =>
    match open_body ks id b with
    | Err e => Err (ROther e)
    | Ok body =>
      match parse_body body with
      | None => Ok (false, acc)
      | Some r =>
        if (p_kind r =? KIND_MARK) || (p_seq r <=? after) then read_records ks id after limit pattern rs acc
        else
          let acc := take_change pattern r acc in
          if enough limit acc then Ok (true, acc) else read_records ks id after limit pattern rs acc
      end
    end
  end.
Definition seek (after : Z) (seg : Segment) : Z :=
  match List.find (fun x => x.1 <=? after + 1) (rev (s_index seg)) with Some (_, o) => o | None => HEADER_LEN end.
Fixpoint read_segments (j : Journal) (after limit : Z) (pattern : option str) (segs : list Segment) (acc : Acc) : result ReadError Acc :=
  match segs with
  | [] => Ok acc
  | seg :: segs =>
    let from := seek after seg in
    if s_len seg <=? from then read_segments j after limit pattern segs acc
    else
      match d_segs (dir j) !! first_seq seg with
      | None => Err (ROther (Io "{e}"))
      | Some f =>
        if len f <? s_len seg then Err (ROther (Io "{e}"))
        else
          '(stop, acc) ← read_records (j_keys j) (j_id j) after limit pattern (records_of (slice from (s_len seg) f)) acc;
          if stop : bool then Ok acc else read_segments j after limit pattern segs acc
      end
  end.
(** From the last segment that begins at [after + 1] or before, else from the first. *)
Fixpoint start_from (after : Z) (segs : list Segment) : list Segment :=
  match segs with
  | [] => []
  | _ :: rest => if existsb (fun s => first_seq s <=? after + 1) rest then start_from after rest else segs
  end.
Definition read (after limit : Z) (pattern : option str) (j : Journal) : result ReadError Batch :=
  match broken j with
  | Some _ => Err (ROther (Other "the change journal could not be written ({why}): restart KivaDB, which rebuilds it from the data"))
  | None =>
    if after + 1 <? oldest_seq j then Err (Expired (oldest_seq j))
    else
      '(changes, next, _) ← read_segments j after (clamp 1 MAX_READ limit) pattern (start_from after (segments j)) ([], after, 0);
      Ok {| b_changes := changes; b_next := next; b_more := next <? last_seq j |}
  end.

(** ** Consumers. The flags: the file is written, renamed. *)
Definition ack (write_ok rename_ok : bool) (name : str) (seq now_secs : Z) (j : Journal) : result KivaError unit * Journal :=
  if bool_decide (fst <$> consumers j !! name = Some seq) then (Ok tt, j)
  else
    let c := <[name := (seq, now_secs)]> (consumers j) in
    let j' := set_consumers (dir j) c j in
    if write_ok && rename_ok then (Ok tt, set_consumers {| d_segs := d_segs (dir j); d_consumers := Some c |} c j)
    else (Err (Io "{e}"), j').
Definition consumer (j : Journal) (name : str) : option Z := fst <$> consumers j !! name.
Definition consumer_list (j : Journal) : list (str * Z * Z) := List.map (fun e => (e.1, e.2.1, e.2.2)) (entries (consumers j)).
Definition remove_consumer (write_ok : bool) (name : str) (j : Journal) : result KivaError bool * Journal :=
  if bool_decide (consumers j !! name = None) then (Ok false, j)
  else
    let c := delete name (consumers j) in
    if write_ok then (Ok true, set_consumers {| d_segs := d_segs (dir j); d_consumers := Some c |} c j)
    else (Err (Io "{e}"), set_consumers (dir j) c j).

(** ** After a crash of the data *)
Record Kept := { k_len : Z; k_seq : Z; k_pos : option (Z * Z); k_cut : bool }.
(** The loop over one segment: what is kept of it. *)
Fixpoint keep_records (ks : option Keys) (id file_id data_len : Z) (rs : list (bytes * Z)) (k : Kept) : result KivaError Kept :=
  match rs with
  | [] => Ok k
  | (b, n) :: rs =>
    body ← open_body ks id b;
    match parse_body body with
    | None => Ok k
    | Some r =>
      if (p_file_id r =? file_id) && (data_len <? p_data_end r) then
        Ok {| k_len := k_len k; k_seq := k_seq k; k_pos := k_pos k; k_cut := true |}
      else
        keep_records ks id file_id data_len rs {|
          k_len := k_len k + n; k_seq := if p_kind r =? KIND_MARK then k_seq k else p_seq r;
          k_pos := Some (p_file_id r, p_data_end r); k_cut := false |}
    end
  end.
Definition cut_segment (k : Kept) (seg : Segment) : Segment := {|
  first_seq := first_seq seg; s_len := k_len k; last_ts := last_ts seg;
  s_index := List.filter (fun x => x.1 <=? k_seq k) (s_index seg); records := k_seq k + 1 - first_seq seg |}.
Definition body_bytes (f : bytes) : bytes := drop (Z.to_nat HEADER_LEN) f.
(** [ro]: the segments before the last, the last of them first. *)
Fixpoint drop_loop (file_id data_len : Z) (ro : list Segment) (j : Journal) (dropped : Z) : result KivaError Z * Journal :=
  let seg := active j in
  match keep_records (j_keys j) (j_id j) file_id data_len (records_of (body_bytes (seg_file j seg)))
          {| k_len := HEADER_LEN; k_seq := Z.max 0 (first_seq seg - 1); k_pos := None; k_cut := false |} with
  | Err e => (Err e, j)
  | Ok k =>
    if negb (k_cut k) then (Ok dropped, j)
    else
      let f := take (Z.to_nat (k_len k)) (seg_file j seg) in
      let dropped := dropped + (last_seq j - k_seq k) in
      let pos := match k_pos k with Some p => Some p | None => last_pos j end in
      let j := set_pos (k_seq k) pos 0 (set_segs (put_file (first_seq seg) f (dir j)) (older j) (cut_segment k seg) (dirty j) j) in
      match ro with
      | s :: ro =>
        if k_len k =? HEADER_LEN then
          drop_loop file_id data_len ro (set_segs (drop_file (first_seq seg) (dir j)) (rev ro) s (dirty j) j) dropped
        else (Ok dropped, j)
      | [] => (Ok dropped, j)
      end
  end.
Definition drop_after (file_id data_len : Z) (j : Journal) : result KivaError Z * Journal :=
  drop_loop file_id data_len (rev (older j)) j 0.

Fixpoint find_position (ks : option Keys) (id file_id : Z) (rs : list (bytes * Z)) (found : option Z) : result KivaError (option Z) :=
  match rs with
  | [] => Ok found
  | (b, _) :: rs =>
    body ← open_body ks id b;
    match parse_body body with
    | None => Ok found
    | Some r => find_position ks id file_id rs (if p_file_id r =? file_id then Some (p_data_end r) else found)
    end
  end.
(** [ro]: the segments, the last first. *)
Fixpoint position_in (j : Journal) (file_id : Z) (ro : list Segment) : result KivaError (option Z) :=
  match ro with
  | [] => Ok None
  | s :: ro =>
    found ← find_position (j_keys j) (j_id j) file_id (records_of (body_bytes (seg_file j s))) None;
    match found with Some e => Ok (Some e) | None => position_in j file_id ro end
  end.
Definition position_for (file_id : Z) (j : Journal) : result KivaError (option Z) := position_in j file_id (rev (segments j)).
Definition destroy (j : Journal) : Dir := {| d_segs := ∅; d_consumers := None |}.
End journal.
