(* ===== verification/JournalThm.v ===== *)
(** * The change journal: what is read is what was written *)
From S2P Require Import Prelude Utf8 Util Maps Types Compress Format Crypt Journal.
Open Scope Z_scope.

(** ** Bodies *)
Record body_fits (p : Parsed) : Prop := {
  bf_seq : in_u 64 (p_seq p); bf_file : in_u 64 (p_file_id p); bf_end : in_u 64 (p_data_end p); bf_txn : in_u 64 (p_txn p);
  bf_ts : in_i64 (p_timestamp p); bf_exp : in_i64 (p_expires_at p); bf_key : in_u 16 (str_len (p_key p)); bf_str : valid_str (p_key p);
}.
Lemma body_fields p :
  body p = List.concat [le_bytes 8 (p_seq p); le_bytes 8 (p_file_id p); le_bytes 8 (p_data_end p); le_bytes 8 (p_txn p);
    [p_kind p]; [p_flags p]; [p_ty p]; le_bytes 8 (wrap 64 (p_timestamp p)); le_bytes 8 (wrap 64 (p_expires_at p));
    le_bytes 2 (wrap 16 (str_len (p_key p))); utf8 (p_key p); p_value p].
Proof. unfold body. cbn [List.concat app]. by rewrite app_nil_r. Qed.
Lemma body_len p : len (body p) = BODY_FIXED + str_len (p_key p) + len (p_value p).
Proof. unfold body. rewrite !len_app, !len_le_bytes. unfold str_len, BODY_FIXED, len. simpl. lia. Qed.
Lemma parse_body_ok p : body_fits p → parse_body (body p) = Some p.
Proof.
  intros [Hs Hf He Ht Hts Hex Hk Hv]. unfold parse_body. rewrite body_len. change BODY_FIXED with 53.
  pose proof (len_nonneg (p_value p)). pose proof (proj1 Hk). rewrite ltb_f by lia.
  assert (slice (53 - 2) 53 (body p) = le_bytes 2 (wrap 16 (str_len (p_key p)))) as ->
    by (rewrite body_fields; by field 9%nat).
  rewrite (wrap_small 16), le_val_u16 by done. rewrite ltb_f by lia.
  assert (slice 0 8 (body p) = le_bytes 8 (p_seq p)) as -> by (rewrite body_fields; by field 0%nat).
  assert (slice 8 16 (body p) = le_bytes 8 (p_file_id p)) as -> by (rewrite body_fields; by field 1%nat).
  assert (slice 16 24 (body p) = le_bytes 8 (p_data_end p)) as -> by (rewrite body_fields; by field 2%nat).
  assert (slice 24 32 (body p) = le_bytes 8 (p_txn p)) as -> by (rewrite body_fields; by field 3%nat).
  assert (slice 32 33 (body p) = [p_kind p]) as -> by (rewrite body_fields; by field 4%nat).
  assert (slice 33 34 (body p) = [p_flags p]) as -> by (rewrite body_fields; by field 5%nat).
  assert (slice 34 35 (body p) = [p_ty p]) as -> by (rewrite body_fields; by field 6%nat).
  assert (slice 35 43 (body p) = le_bytes 8 (wrap 64 (p_timestamp p))) as -> by (rewrite body_fields; by field 7%nat).
  assert (slice 43 51 (body p) = le_bytes 8 (wrap 64 (p_expires_at p))) as -> by (rewrite body_fields; by field 8%nat).
  assert (slice 53 (53 + str_len (p_key p)) (body p) = utf8 (p_key p)) as -> by (rewrite body_fields; by field 10%nat).
  assert (drop (Z.to_nat (53 + str_len (p_key p))) (body p) = p_value p) as ->.
  { unfold body. rewrite !app_assoc. apply drop_app_len. rewrite !length_app, !le_bytes_length. unfold str_len, len. simpl. lia. }
  rewrite !le_val_u64, !le_val_1 by (done || by apply wrap_in_u). rewrite !sint64_wrap, lossy_utf8 by done. by destruct p.
Qed.

(** ** Frames *)
Section frames.
  Context `{Crc}.
Definition framed (b : bytes) : bytes := le_bytes 4 (len b) ++ le_bytes 4 (crc32 b) ++ b.
Lemma framed_len b : len (framed b) = 8 + len b.
Proof. unfold framed. rewrite !len_app, !len_le_bytes. lia. Qed.
Lemma max_record_u32 (b : bytes) : len b ≤ MAX_RECORD → in_u 32 (len b).
Proof. unfold MAX_RECORD, in_u. pose proof (len_nonneg b). lia. Qed.
Lemma frame_framed b rest : len b ≤ MAX_RECORD → frame (framed b ++ rest) = Some (b, 8 + len b).
Proof.
  intros Hb. unfold frame. rewrite len_app, framed_len. pose proof (len_nonneg b). pose proof (len_nonneg rest).
  rewrite ltb_f by lia. unfold framed. rewrite <- !app_assoc.
  rewrite (slice_front (le_bytes 4 (len b))) by (done || by rewrite len_le_bytes).
  rewrite le_val_u32 by by apply max_record_u32. rewrite (ltb_f MAX_RECORD), (ltb_f _ (8 + len b)) by lia. cbn [orb].
  rewrite (slice_field (le_bytes 4 (len b)) _ _ 4 8) by (by rewrite len_le_bytes).
  rewrite app_assoc, slice_drop, (slice_front b) by (rewrite ?len_app, ?len_le_bytes; lia).
  rewrite le_val_u32 by apply crc32_u32. by rewrite Z.eqb_refl.
Qed.
(** A record cut short is no record. *)
Lemma frame_cut b n : len b ≤ MAX_RECORD → n < 8 + len b → frame (take (Z.to_nat n) (framed b)) = None.
Proof.
  intros Hb Hn. pose proof (len_nonneg b). unfold frame.
  assert (len (take (Z.to_nat n) (framed b)) = Z.max 0 n) as L.
  { pose proof (framed_len b). unfold len in *. rewrite length_take. lia. }
  rewrite L. destruct (Z.ltb_spec (Z.max 0 n) 8) as [|Hn8]; [done|].
  rewrite slice_take by lia. unfold framed. rewrite (slice_front (le_bytes 4 (len b))) by (done || by rewrite len_le_bytes).
  rewrite le_val_u32 by by apply max_record_u32. by rewrite (ltb_t (Z.max 0 n)), orb_true_r by lia.
Qed.
Lemma frame_nil : frame [] = None.
Proof. done. Qed.
Lemma frame_size data b n : all_bytes data → frame data = Some (b, n) → 8 ≤ n ≤ len data.
Proof.
  intros Hb. unfold frame. destruct (Z.ltb_spec (len data) 8); [done|].
  pose proof (le_val_bound _ (slice_all_bytes 0 4 _ Hb)) as [Hm _]. set (m := le_val _) in *.
  destruct (Z.ltb_spec MAX_RECORD m); [done|]. destruct (Z.ltb_spec (len data) (8 + m)); [done|]. cbn [orb].
  destruct (_ =? _); [|done]. intros [= <- <-]. lia.
Qed.
(** The loops over records end: a record takes eight bytes or more. *)
Lemma frames_end fuel data : all_bytes data → (length data ≤ fuel)%nat → frames fuel data = records_of data.
Proof.
  unfold records_of. revert data. enough (∀ m fuel data, all_bytes data → (length data ≤ m)%nat → (length data ≤ fuel)%nat →
    frames m data = frames fuel data) as E by (intros data Hb Hf; by apply E).
  induction m as [|m IH]; intros [|f] data Hb Hm Hf; cbn [frames]; try done.
  - destruct data; [done|simpl in *; lia].
  - destruct data; [done|simpl in *; lia].
  - destruct (frame data) as [[b n]|] eqn:E; [|done]. apply frame_size in E; [|done]. f_equal.
    unfold len in E. apply IH; [by apply Forall_drop|rewrite length_drop; lia..].
Qed.
Definition frames_bytes (bs : list bytes) : bytes := List.concat (List.map framed bs).
Lemma frames_ok bs tail : Forall (fun b => len b ≤ MAX_RECORD) bs → frame tail = None →
  records_of (frames_bytes bs ++ tail) = List.map (fun b => (b, 8 + len b)) bs.
Proof.
  intros Hb Ht. unfold records_of. remember (length (frames_bytes bs ++ tail)) as fuel eqn:Ef.
  assert (length (frames_bytes bs ++ tail) ≤ fuel)%nat as Hf by lia. clear Ef. revert fuel Hf.
  induction Hb as [|b bs Hb _ IH]; intros fuel Hf; cbn [frames_bytes List.map List.concat app] in *.
  - destruct fuel; [done|]. cbn [frames]. by rewrite Ht.
  - rewrite <- app_assoc in *. pose proof (framed_len b) as Hl. rewrite length_app in Hf. unfold len in Hl.
    destruct fuel as [|fuel]; [lia|]. cbn [frames]. rewrite frame_framed by done. f_equal.
    rewrite drop_app_len by (unfold len; lia). apply IH. unfold frames_bytes. lia.
Qed.
End frames.

(** ** The content of a journal: the records of each segment *)
Fixpoint numbered (n : Z) (l : list Parsed) : Prop :=
  match l with [] => True | r :: l => p_seq r = n ∧ numbered (n + 1) l end.
Lemma numbered_app n l k : numbered n (l ++ k) ↔ numbered n l ∧ numbered (n + len l) k.
Proof.
  revert n. induction l as [|r l IH]; intros n; cbn [app numbered].
  - rewrite len_nil, Z.add_0_r. tauto.
  - rewrite IH, len_cons, Z.add_assoc. tauto.
Qed.
Lemma numbered_bounds n l : numbered n l → Forall (fun r => n ≤ p_seq r < n + len l) l.
Proof.
  revert n. induction l as [|r l IH]; intros n; cbn [numbered]; [constructor|]. intros [<- Hl]. rewrite len_cons.
  pose proof (len_nonneg l). constructor; [lia|]. eapply Forall_impl; [apply IH, Hl|]. cbn. lia.
Qed.
(** The changes after [after], when they are numbered on. *)
Lemma numbered_after n l after : numbered n l → n ≤ after + 1 → after < n + len l →
  ∃ a b, l = a ++ b ∧ List.filter (fun r => after <? p_seq r) l = b ∧ len a = after + 1 - n ∧ numbered (after + 1) b.
Proof.
  intros Hl Hn Ha. exists (take (Z.to_nat (after + 1 - n)) l), (drop (Z.to_nat (after + 1 - n)) l).
  assert (len (take (Z.to_nat (after + 1 - n)) l) = after + 1 - n) as L by (unfold len in *; rewrite length_take; lia).
  rewrite <- (take_drop (Z.to_nat (after + 1 - n)) l) in Hl. apply numbered_app in Hl as [H1 H2].
  rewrite L in H2. replace (n + (after + 1 - n)) with (after + 1) in H2 by lia.
  split; [by rewrite take_drop|]. split; [|done].
  rewrite <- (take_drop (Z.to_nat (after + 1 - n)) l) at 1. rewrite filter_app_, filter_none, filter_all; [done| |].
  - eapply Forall_impl; [apply numbered_bounds, H2|]. cbn. intros r Hr. apply Z.ltb_lt. lia.
  - eapply Forall_impl; [apply numbered_bounds, H1|]. cbn. intros r Hr. apply Z.ltb_ge. lia.
Qed.

Section log.
  Context `{Aead} `{Crc}.

(** A record: its body as it is in the file, and what it says. *)
Definition LogRec : Type := bytes * Parsed.
Definition good (ks : option Keys) (id : Z) (x : LogRec) : Prop :=
  len x.1 ≤ MAX_RECORD ∧ ∃ b, open_body ks id x.1 = Ok b ∧ parse_body b = Some x.2.
(** The record as the loops over a file see it. *)
Definition fr (x : LogRec) : bytes * Z := (x.1, 8 + len x.1).
Definition seg_bytes (rs : list LogRec) : bytes := frames_bytes rs.*1.
Definition is_change (r : Parsed) : bool := negb (p_kind r =? KIND_MARK).
Definition changes (rs : list LogRec) : list Parsed := List.filter is_change rs.*2.
Definition jlog (L : list (list LogRec)) : list Parsed := List.concat (List.map changes L).
Definition index_ok (first : Z) (rs : list LogRec) (x : Z * Z) : Prop :=
  first ≤ x.1 ∧ ∃ a b, rs = a ++ b ∧ x.2 = HEADER_LEN + len (seg_bytes a) ∧ Forall (fun r => p_seq r < x.1) (changes a).
Record indexed (s : Segment) (rs : list LogRec) : Prop := {
  sk_records : records s = len (changes rs);
  sk_seqs : numbered (first_seq s) (changes rs);
  sk_index : Forall (index_ok (first_seq s) rs) (s_index s);
}.
Record seg_ok (s : Segment) (rs : list LogRec) : Prop := {
  sk_len : s_len s = HEADER_LEN + len (seg_bytes rs);
  sk_indexed : indexed s rs;
}.
Fixpoint chain (d : gmap Z bytes) (ks : option Keys) (id n : Z) (segs : list Segment) (L : list (list LogRec)) : Prop :=
  match segs, L with
  | [], [] => True
  | s :: segs, rs :: L =>
    first_seq s = n ∧ d !! n = Some (seg_header id n ++ seg_bytes rs) ∧ seg_ok s rs ∧ Forall (good ks id) rs
    ∧ chain d ks id (n + records s) segs L
  | _, _ => False
  end.
Record jinv (j : Journal) (L : list (list LogRec)) : Prop := {
  ji_chain : chain (d_segs (dir j)) (j_keys j) (j_id j) (oldest_seq j) (segments j) L;
  ji_last : last_seq j = oldest_seq j + len (jlog L) - 1;
  ji_dir : ∀ k, is_Some (d_segs (dir j) !! k) → k ∈ List.map first_seq (segments j);
  ji_older : Forall (fun s => 0 < records s) (older j);
  ji_first : 1 ≤ oldest_seq j;
  ji_id : in_u 64 (j_id j);
}.

Lemma seg_bytes_app a b : seg_bytes (a ++ b) = seg_bytes a ++ seg_bytes b.
Proof. unfold seg_bytes, frames_bytes. by rewrite fmap_app, List.map_app, List.concat_app. Qed.
Lemma seg_bytes_cons x l : seg_bytes (x :: l) = framed x.1 ++ seg_bytes l.
Proof. done. Qed.
Lemma changes_app a b : changes (a ++ b) = changes a ++ changes b.
Proof. unfold changes. by rewrite fmap_app, filter_app_. Qed.
Lemma jlog_app a b : jlog (a ++ b) = jlog a ++ jlog b.
Proof. unfold jlog. by rewrite List.map_app, List.concat_app. Qed.
Lemma jlog_one rs : jlog [rs] = changes rs.
Proof. unfold jlog. cbn. apply app_nil_r. Qed.
Lemma seg_bytes_nil rs : len (seg_bytes rs) ≤ 0 → rs = [].
Proof.
  destruct rs as [|x rs]; [done|]. rewrite seg_bytes_cons, len_app, framed_len.
  pose proof (len_nonneg x.1). pose proof (len_nonneg (seg_bytes rs)). lia.
Qed.
Lemma records_of_seg ks id rs tail : Forall (good ks id) rs → frame tail = None →
  records_of (seg_bytes rs ++ tail) = List.map fr rs.
Proof.
  intros Hg Ht. unfold seg_bytes. rewrite frames_ok; [|apply Forall_fmap; by eapply Forall_impl; [exact Hg|intros ? []]|done].
  by apply List.map_map.
Qed.
Lemma index_ok_app n rs rs' x : index_ok n rs x → index_ok n (rs ++ rs') x.
Proof. intros (Hn & a & b & -> & Hx & Ha). split; [done|]. exists a, (b ++ rs'). by rewrite app_assoc. Qed.

(** ** Reading: one log, whatever the segments and their indexes *)
Fixpoint read_log (limit : Z) (pattern : option str) (todo : list Parsed) (acc : Acc) : bool * Acc :=
  match todo with
  | [] => (false, acc)
  | r :: todo =>
    let acc := take_change pattern r acc in
    if enough limit acc then (true, acc) else read_log limit pattern todo acc
  end.
Definition todo (after : Z) (l : list Parsed) : list Parsed := List.filter (fun r => after <? p_seq r) l.
Lemma todo_app after a b : todo after (a ++ b) = todo after a ++ todo after b.
Proof. apply filter_app_. Qed.
Lemma todo_none after l : Forall (fun r => p_seq r ≤ after) l → todo after l = [].
Proof. intros Hl. apply filter_none. eapply Forall_impl; [exact Hl|]. cbn. intros r Hr. by apply Z.ltb_ge. Qed.
Lemma read_log_app limit pattern a b acc :
  read_log limit pattern (a ++ b) acc =
  (let '(stop, acc) := read_log limit pattern a acc in if stop : bool then (true, acc) else read_log limit pattern b acc).
Proof.
  revert acc. induction a as [|r a IH]; intros acc; cbn [app read_log]; [done|]. by destruct (enough _ _).
Qed.
Lemma read_records_ok ks id after limit pattern rs acc : Forall (good ks id) rs →
  read_records ks id after limit pattern (List.map fr rs) acc =
  Ok (read_log limit pattern (todo after (changes rs)) acc).
Proof.
  intros Hg. revert acc. induction Hg as [|[s r] rs (_ & b & Hb & Hp) _ IH]; intros acc; [done|].
  cbn [List.map read_records fr fst snd] in *. rewrite Hb, Hp. unfold changes. cbn [fmap list_fmap List.filter snd].
  unfold is_change at 1. destruct (p_kind r =? KIND_MARK); cbn [negb orb]; [apply IH|].
  unfold todo. cbn [List.filter]. rewrite (Z.ltb_antisym (p_seq r)). destruct (p_seq r <=? after); cbn [negb]; [apply IH|].
  cbn [read_log]. destruct (enough _ _); [done|apply IH].
Qed.

(** Where the reading of a segment begins, nothing that is wanted was passed. *)
Lemma seek_ok after s rs : seg_ok s rs →
  ∃ a b, rs = a ++ b ∧ seek after s = HEADER_LEN + len (seg_bytes a) ∧ todo after (changes a) = [].
Proof.
  intros Hs. unfold seek. destruct (List.find _ _) as [[q o]|] eqn:E.
  - apply List.find_some in E as [Hin Hq]. apply List.in_rev, list_elem_of_In in Hin.
    pose proof (proj1 (Forall_forall _ _) (sk_index _ _ (sk_indexed _ _ Hs)) _ Hin) as (_ & a & b & Hr & Ho & Ha). exists a, b. split; [done|]. split; [done|].
    cbn [fst] in *. apply Z.leb_le in Hq. apply todo_none. eapply Forall_impl; [exact Ha|]. cbn. lia.
  - exists [], rs. done.
Qed.
Lemma seg_header_len id n : len (seg_header id n) = HEADER_LEN.
Proof. unfold seg_header. rewrite !len_app, !len_le_bytes. done. Qed.
Lemma read_segments_ok j after limit pattern n segs L acc :
  chain (d_segs (dir j)) (j_keys j) (j_id j) n segs L →
  read_segments j after limit pattern segs acc = Ok (read_log limit pattern (todo after (jlog L)) acc).2.
Proof.
  revert n L acc. induction segs as [|s segs IH]; intros n [|rs L] acc; cbn [chain]; try done.
  intros (Hn & Hf & Hs & Hg & Hc). destruct (seek_ok after s rs Hs) as (a & b & -> & Hk & Ha).
  change (jlog ((a ++ b) :: L)) with (changes (a ++ b) ++ jlog L). rewrite changes_app, !todo_app, Ha. cbn [app].
  cbn [read_segments]. rewrite Hk. pose proof (sk_len _ _ Hs) as Hl. rewrite seg_bytes_app, len_app in Hl.
  destruct (Z.leb_spec (s_len s) (HEADER_LEN + len (seg_bytes a))).
  { assert (b = []) as -> by (apply seg_bytes_nil; lia). by apply (IH (n + records s)). }
  rewrite Hn, Hf, len_app, seg_header_len, seg_bytes_app, len_app, ltb_f by lia.
  assert (slice (HEADER_LEN + len (seg_bytes a)) (s_len s) (seg_header (j_id j) n ++ seg_bytes a ++ seg_bytes b) = seg_bytes b ++ []) as ->.
  { rewrite app_assoc, app_nil_r. rewrite slice_drop by (rewrite len_app, seg_header_len; lia). rewrite len_app, seg_header_len, Hl.
    rewrite <- (app_nil_r (seg_bytes b)) at 2. apply slice_front; lia. }
  apply Forall_app in Hg as [_ Hg]. rewrite (records_of_seg _ _ _ _ Hg frame_nil), read_records_ok by done. rewrite read_log_app.
  destruct (read_log limit pattern (todo after (changes b)) acc) as [stop acc']. cbn [mbind result_bind]. destruct stop; [done|].
  by apply (IH (n + records s)).
Qed.
(** The segments skipped hold nothing after [after]. *)
Lemma chain_log d ks id n segs L : chain d ks id n segs L → numbered n (jlog L) ∧ len (jlog L) = retained segs.
Proof.
  revert n L. induction segs as [|s segs IH]; intros n [|rs L]; cbn [chain]; try done.
  intros (Hn & _ & Hs & _ & Hc). apply IH in Hc as [Hc Hl]. change (jlog (rs :: L)) with (changes rs ++ jlog L).
  destruct Hs as [_ [Hr Hq _]]. subst n. rewrite len_app, numbered_app, Hl, <- Hr. by cbn [retained foldr].
Qed.
Lemma chain_first d ks id n segs L s : chain d ks id n segs L → s ∈ segs → n ≤ first_seq s.
Proof.
  revert n L. induction segs as [|s' segs IH]; intros n [|rs L]; cbn [chain]; try done; [by intros _ ?%elem_of_nil|].
  intros (Hn & _ & Hs & _ & Hc) [->|Hin]%elem_of_cons; [lia|]. apply (IH _ _ Hc) in Hin.
  rewrite (sk_records _ _ (sk_indexed _ _ Hs)) in Hin. pose proof (len_nonneg (changes rs)). lia.
Qed.
Lemma start_from_ok d ks id after n segs L : chain d ks id n segs L →
  ∃ m L', chain d ks id m (start_from after segs) L' ∧ todo after (jlog L) = todo after (jlog L').
Proof.
  revert n L. induction segs as [|s segs IH]; intros n [|rs L]; cbn [chain]; try done; [by exists n, []|].
  intros (Hn & Hf & Hs & Hg & Hc). cbn [start_from]. destruct (existsb _ _) eqn:E.
  - apply existsb_exists in E as (s' & Hin & Hle). apply list_elem_of_In in Hin. apply Z.leb_le in Hle.
    pose proof (chain_first _ _ _ _ _ _ _ Hc Hin) as Hb. destruct (IH _ _ Hc) as (m & L' & Hc' & HL). exists m, L'. split; [done|].
    change (jlog (rs :: L)) with (changes rs ++ jlog L). rewrite todo_app, HL, todo_none; [done|].
    eapply Forall_impl; [apply (numbered_bounds _ _ (sk_seqs _ _ (sk_indexed _ _ Hs)))|]. cbn. intros r Hr.
    rewrite (sk_records _ _ (sk_indexed _ _ Hs)) in Hb. lia.
  - exists n, (rs :: L). split; [by cbn [chain]|done].
Qed.
Lemma read_ok j L after limit pattern : jinv j L → broken j = None → oldest_seq j ≤ after + 1 →
  read after limit pattern j =
  (let '(changes, next, _) := (read_log (Prelude.clamp 1 MAX_READ limit) pattern (todo after (jlog L)) ([], after, 0)).2 in
   Ok {| b_changes := changes; b_next := next; b_more := next <? last_seq j |}).
Proof.
  intros Hj Hb Ho. unfold read. rewrite Hb, ltb_f by lia.
  destruct (start_from_ok _ _ _ after _ _ _ (ji_chain _ _ Hj)) as (m & L' & Hc & HL).
  rewrite (read_segments_ok _ _ _ _ _ _ _ _ Hc), HL. cbn [mbind result_bind].
  by destruct (read_log _ _ _ _) as [? [[? ?] ?]].
Qed.

(** ** Polling *)
Lemma read_log_split limit pattern l cs nx k : numbered (nx + 1) l →
  ∃ a b, l = a ++ b ∧ (a = [] → l = []) ∧
    (read_log limit pattern l (cs, nx, k)).2 = (cs ++ List.map into_change (List.filter (wanted pattern) a), nx + len a, k + len a).
Proof.
  revert cs nx k. induction l as [|r l IH]; intros cs nx k; cbn [numbered read_log].
  { intros _. exists [], []. cbn. by rewrite app_nil_r, len_nil, !Z.add_0_r. }
  intros [Hr Hl]. unfold take_change. rewrite Hr. destruct (enough _ _).
  - exists [r], l. split; [done|]. split; [done|]. cbn [snd List.filter]. by destruct (wanted pattern r); rewrite ?app_nil_r.
  - destruct (IH (if wanted pattern r then cs ++ [into_change r] else cs) (nx + 1) (k + 1) Hl) as (a & b & -> & _ & ->).
    exists (r :: a), b. split; [done|]. split; [done|]. rewrite len_cons. cbn [List.filter].
    destruct (wanted pattern r); cbn [List.map]; rewrite <- ?app_assoc; (apply f_equal2; [apply f_equal2; [done|lia]|lia]).
Qed.
(** Reading again from where the last read ended, while there is more. *)
Fixpoint poll (fuel : nat) (j : Journal) (after limit : Z) (pattern : option str) : option (result ReadError (list Change)) :=
  match fuel with
  | O => None
  | S fuel =>
    match read after limit pattern j with
    | Err e => Some (Err e)
    | Ok b =>
      if b_more b then
        match poll fuel j (b_next b) limit pattern with
        | Some (Ok l) => Some (Ok (b_changes b ++ l))
        | r => r
        end
      else Some (Ok (b_changes b))
    end
  end.
Lemma jinv_log j L : jinv j L → numbered (oldest_seq j) (jlog L) ∧ len (jlog L) = retained (segments j).
Proof. intros Hj. eapply chain_log, ji_chain, Hj. Qed.
Lemma poll_ok j L limit pattern fuel : jinv j L → broken j = None → ∀ after, oldest_seq j ≤ after + 1 → after ≤ last_seq j →
  (length (todo after (jlog L)) < fuel)%nat →
  poll fuel j after limit pattern = Some (Ok (List.map into_change (List.filter (wanted pattern) (todo after (jlog L))))).
Proof.
  intros Hj Hb. induction fuel as [|fuel IH]; intros after Ho Ha Hf; [lia|]. cbn [poll].
  rewrite (read_ok _ _ _ _ _ Hj Hb Ho). destruct (jinv_log _ _ Hj) as [Hn _]. pose proof (ji_last _ _ Hj) as Hlast.
  destruct (numbered_after _ _ after Hn Ho ltac:(lia)) as (l0 & l & El & Et & L0 & Hl). unfold todo in *. rewrite Et in *.
  destruct (read_log_split (Prelude.clamp 1 MAX_READ limit) pattern l [] after 0 Hl) as (a & b & -> & Hne & ->). cbn [b_more b_next b_changes].
  rewrite El, !len_app in Hlast. destruct (Z.ltb_spec (after + len a) (last_seq j)) as [Hm|Hm].
  - assert (len (l0 ++ a) = after + len a + 1 - oldest_seq j) as La by (rewrite len_app; lia).
    assert (List.filter (fun r => after + len a <? p_seq r) (jlog L) = b) as Eb.
    { rewrite El, app_assoc in Hn |- *. apply numbered_app in Hn as [H1 H2]. rewrite filter_app_, filter_none, filter_all; [done| |].
      - eapply Forall_impl; [apply numbered_bounds, H2|]. cbn. intros r Hr. apply Z.ltb_lt. lia.
      - eapply Forall_impl; [apply numbered_bounds, H1|]. cbn. intros r Hr. apply Z.ltb_ge. lia. }
    assert (a ≠ []) as Hna.
    { intros ->. pose proof (Hne eq_refl) as E. cbn in E. rewrite E in Hlast.
      change (len (@nil Parsed)) with 0 in *. lia. }
    pose proof (len_nonneg a). rewrite IH; [|lia|lia|].
    + rewrite Eb, filter_app_, List.map_app. done.
    + rewrite Eb. rewrite length_app in Hf. destruct a; [done|simpl in Hf; lia].
  - assert (b = []) as -> by (destruct b as [|x b]; [done|]; rewrite len_cons in Hlast; pose proof (len_nonneg b); lia).
    by rewrite app_nil_r.
Qed.

(** ** Writing *)
Fixpoint offs (pos : Z) (recs : list LogRec) : list (Z * Z * Z) :=
  match recs with
  | [] => []
  | x :: recs => (if is_change x.2 then [(p_seq x.2, pos, p_timestamp x.2)] else []) ++ offs (pos + (8 + len x.1)) recs
  end.
Lemma changes_snoc rs x : changes (rs ++ [x]) = changes rs ++ if is_change x.2 then [x.2] else [].
Proof. rewrite changes_app. unfold changes. cbn. by destruct (is_change x.2). Qed.
(** One more record: a change that is counted, or a mark. *)
Lemma indexed_change s s' rs x o : indexed s rs → is_change x.2 = true → p_seq x.2 = first_seq s + len (changes rs) →
  o = HEADER_LEN + len (seg_bytes rs) → first_seq s' = first_seq s → records s' = records s + 1 →
  (s_index s' = s_index s ∨ s_index s' = s_index s ++ [(p_seq x.2, o)]) → indexed s' (rs ++ [x]).
Proof.
  intros [Hr Hs Hi] Hx Hq -> Hf Hr' Hi'. split; rewrite ?changes_snoc, ?Hx.
  - rewrite Hr', Hr, len_app. done.
  - rewrite Hf. apply numbered_app. by split.
  - rewrite Hf. assert (Forall (index_ok (first_seq s) (rs ++ [x])) (s_index s)) as Ho by (eapply Forall_impl; [exact Hi|intros ?; apply index_ok_app]).
    destruct Hi' as [->| ->]; [done|]. apply Forall_app. split; [done|]. constructor; [|done]. pose proof (len_nonneg (changes rs)). split; [cbn; lia|]. exists rs, [x].
    split; [done|]. split; [done|]. eapply Forall_impl; [apply numbered_bounds, Hs|]. cbn. lia.
Qed.
Lemma indexed_mark s s' rs x : indexed s rs → is_change x.2 = false → first_seq s' = first_seq s → records s' = records s →
  s_index s' = s_index s → indexed s' (rs ++ [x]).
Proof.
  intros [Hr Hs Hi] Hx Hf Hr' Hi'. split; rewrite ?changes_snoc, ?Hx, ?app_nil_r, ?Hf, ?Hr', ?Hi'; [done|done|].
  eapply Forall_impl; [exact Hi|intros ?; apply index_ok_app].
Qed.
Lemma seg_bytes_snoc rs x : len (seg_bytes (rs ++ [x])) = len (seg_bytes rs) + (8 + len x.1).
Proof. rewrite seg_bytes_app, len_app. change (seg_bytes [x]) with (framed x.1 ++ []). by rewrite app_nil_r, framed_len. Qed.
Lemma index_fold at_ recs : ∀ s rs pos, indexed s rs → at_ + pos = HEADER_LEN + len (seg_bytes rs) →
  numbered (first_seq s + len (changes rs)) (changes recs) →
  indexed (fold_left (index_record at_) (offs pos recs) s) (rs ++ recs) ∧
  s_len (fold_left (index_record at_) (offs pos recs) s) = s_len s ∧
  first_seq (fold_left (index_record at_) (offs pos recs) s) = first_seq s.
Proof.
  induction recs as [|x recs IH]; intros s rs pos Hs Hp Hn; cbn [offs]; [by rewrite app_nil_r|].
  change (x :: recs) with ([x] ++ recs) in Hn |- *. rewrite changes_app in Hn. apply numbered_app in Hn as [Hx Hn].
  rewrite app_assoc. unfold changes in Hx, Hn at 2. cbn [fmap list_fmap List.filter snd] in Hx, Hn.
  assert (∀ s', indexed s' (rs ++ [x]) → s_len s' = s_len s → first_seq s' = first_seq s →
    indexed (fold_left (index_record at_) (offs (pos + (8 + len x.1)) recs) s') ((rs ++ [x]) ++ recs) ∧
    s_len (fold_left (index_record at_) (offs (pos + (8 + len x.1)) recs) s') = s_len s ∧
    first_seq (fold_left (index_record at_) (offs (pos + (8 + len x.1)) recs) s') = first_seq s) as Hgo.
  { intros s' Hs' El Ef. rewrite <- El, <- Ef. apply IH; [done|rewrite seg_bytes_snoc; lia|].
    rewrite changes_snoc, len_app, Ef, Z.add_assoc. by destruct (is_change x.2). }
  destruct (is_change x.2) eqn:Ec; cbn [app fold_left].
  - apply Hgo; [|done|done]. destruct Hx as [Hx _]. eapply (indexed_change s); try done. cbn [s_index index_record].
    destruct (_ =? 0); [right|by left]. by rewrite Hp.
  - apply Hgo; [|done|done]. by eapply (indexed_mark s).
Qed.

(** The last segment, apart. *)
Lemma chain_snoc d ks id n segs s L : chain d ks id n (segs ++ [s]) L ↔
  ∃ Lo rs, L = Lo ++ [rs] ∧ chain d ks id n segs Lo ∧ chain d ks id (n + retained segs) [s] [rs].
Proof.
  revert n L. induction segs as [|s' segs IH]; intros n L; cbn [app retained foldr].
  - rewrite Z.add_0_r. split.
    + destruct L as [|rs [|rs' L]]; [done| |intros (_ & _ & _ & _ & [])]. intros Hc. by exists [], rs.
    + intros (Lo & rs & -> & Hl & Hc). by destruct Lo.
  - split.
    + destruct L as [|rs' L]; [done|]. cbn [chain]. intros (Hn & Hf & Hs & Hg & Hc). apply IH in Hc as (Lo & rs & -> & H1 & H2).
      exists (rs' :: Lo), rs. split; [done|]. split; [done|]. by rewrite Z.add_assoc.
    + intros (Lo & rs & -> & Hl & Hc). destruct Lo as [|rs' Lo]; [done|]. cbn [chain app] in *. destruct Hl as (Hn & Hf & Hs & Hg & Hl).
      split; [done|]. split; [done|]. split; [done|]. split; [done|]. apply IH. exists Lo, rs. rewrite <- Z.add_assoc. by destruct Hc.
Qed.
Lemma chain_below d ks id n segs L s : chain d ks id n segs L → Forall (fun s => 0 < records s) segs → s ∈ segs → first_seq s < n + retained segs.
Proof.
  revert n L. induction segs as [|s' segs IH]; intros n [|rs L]; cbn [chain]; try done; [by intros _ _ ?%elem_of_nil|].
  intros (Hn & _ & _ & _ & Hc) [Hp Hf]%Forall_cons Hin. cbn [retained foldr]. fold (retained segs).
  assert (0 ≤ retained segs) by (apply chain_log in Hc as [_ <-]; apply len_nonneg).
  apply elem_of_cons in Hin as [->|Hin]; [lia|]. apply (IH _ _ Hc Hf) in Hin. lia.
Qed.
Lemma chain_ext d d' ks id n segs L : (∀ s, s ∈ segs → d !! first_seq s = d' !! first_seq s) → chain d ks id n segs L → chain d' ks id n segs L.
Proof.
  revert n L. induction segs as [|s segs IH]; intros n [|rs L] Hk; cbn [chain]; try done. intros (Hn & Hf & Hs & Hg & Hc).
  split; [done|]. split; [rewrite <- Hf, <- Hn; symmetry; apply Hk; by left|]. split; [done|]. split; [done|].
  apply IH; [|done]. intros s' Hs'. apply Hk. by right.
Qed.
Lemma chain_other d ks id n segs L k v : (∀ s, s ∈ segs → first_seq s ≠ k) → chain d ks id n segs L → chain (<[k:=v]> d) ks id n segs L.
Proof. intros Hk. apply chain_ext. intros s Hs. rewrite lookup_insert_ne; [done|]. intros E. by apply (Hk s Hs). Qed.

(** What [write] leaves alone. *)
Record same (j j' : Journal) : Prop := {
  sm_id : j_id j' = j_id j; sm_keys : j_keys j' = j_keys j; sm_set : settings j' = settings j; sm_last : last_seq j' = last_seq j;
}.
Record same_conf (j j' : Journal) : Prop := {
  sc_id : j_id j' = j_id j; sc_keys : j_keys j' = j_keys j; sc_set : settings j' = settings j;
}.
Lemma oldest_older j : older j ≠ [] → oldest_seq j = match older j with s :: _ => first_seq s | [] => 1 end.
Proof. unfold oldest_seq, segments. by destruct (older j). Qed.
Lemma oldest_app j j' s : segments j' = segments j ++ [s] → oldest_seq j' = oldest_seq j.
Proof. unfold oldest_seq. intros ->. unfold segments. by destruct (older j). Qed.
Lemma jinv_dirty j L b : jinv j L → jinv (set_segs (dir j) (older j) (active j) b j) L.
Proof. intros []. by split. Qed.
Lemma jinv_last j Lo rs : jinv j (Lo ++ [rs]) →
  first_seq (active j) = oldest_seq j + retained (older j) ∧
  d_segs (dir j) !! first_seq (active j) = Some (seg_header (j_id j) (first_seq (active j)) ++ seg_bytes rs) ∧
  seg_ok (active j) rs ∧ Forall (good (j_keys j) (j_id j)) rs ∧
  chain (d_segs (dir j)) (j_keys j) (j_id j) (oldest_seq j) (older j) Lo ∧
  last_seq j = first_seq (active j) + records (active j) - 1.
Proof.
  intros Hj. pose proof (ji_chain _ _ Hj) as Hc. unfold segments in Hc.
  apply chain_snoc in Hc as (Lo' & rs' & E & Ho & Ha). apply app_inj_tail in E as [<- <-]. cbn [chain] in Ha. destruct Ha as (Hn & Hf & Hs & Hg & _).
  rewrite <- Hn in Hf. split; [done|]. split; [done|]. split; [done|]. split; [done|]. split; [done|].
  rewrite (ji_last _ _ Hj), jlog_app, jlog_one, len_app, Hn. apply chain_log in Ho as [_ ->].
  rewrite (sk_records _ _ (sk_indexed _ _ Hs)). lia.
Qed.
Lemma jinv_snoc j L : jinv j L → ∃ Lo rs, L = Lo ++ [rs].
Proof. intros Hj. pose proof (ji_chain _ _ Hj) as Hc. unfold segments in Hc. apply chain_snoc in Hc as (Lo & rs & -> & _). eauto. Qed.

Lemma sync_ok io j L r j' : jinv j L → sync io j = (r, j') → jinv j' L ∧ same j j' ∧ segments j' = segments j ∧ broken j' = broken j.
Proof.
  unfold sync. intros Hj. destruct (dirty j); [destruct (io_sync io)|]; intros [= <- <-]; (split; [done || by apply jinv_dirty|]); done.
Qed.
Lemma seg_ok_new n : seg_ok (new_seg n) [].
Proof. split; [done|]. split; [done|done|constructor]. Qed.
Lemma rotate_ok io j L r j' : jinv j L → 0 < records (active j) → rotate io j = (r, j') →
  same j j' ∧ broken j' = broken j ∧
  match r with
  | Err _ => jinv j' L ∧ active j' = active j
  | Ok _ => jinv j' (L ++ [[]]) ∧ active j' = new_seg (last_seq j + 1)
  end.
Proof.
  intros Hj Hr. unfold rotate. destruct (sync io j) as [rs js] eqn:Es.
  destruct (sync_ok _ _ _ _ _ Hj Es) as (Hjs & [Hi Hk Hset Hl] & Eseg & Eb). assert (active js = active j) as Ea by (unfold segments in Eseg; by apply app_inj_tail in Eseg as [_ ->]).
  destruct rs as [[]|e]; [|by intros [= <- <-]].
  unfold new_segment. destruct (io_create io); [|by intros [= <- <-]]. intros [= <- <-]. split; [by split|]. split; [done|].
  rewrite <- Hl. split; [|done]. destruct (jinv_snoc _ _ Hjs) as (Lo & rs & ->). pose proof Hjs as [Hc Hlast Hdir Hold H1 Hid].
  set (j' := set_segs _ _ _ _ _). assert (segments j' = segments js ++ [new_seg (last_seq js + 1)]) as Es' by done.
  pose proof (oldest_app js j' _ Es') as Eold. pose proof (chain_log _ _ _ _ _ _ Hc) as [_ Hlen].
  assert (last_seq js + 1 = oldest_seq js + retained (segments js)) as En by lia.
  assert (∀ s, s ∈ segments js → first_seq s ≠ last_seq js + 1) as Hne.
  { intros s Hs. rewrite En. eapply Z.lt_neq, chain_below; [exact Hc| |exact Hs]. unfold segments. apply Forall_app. split; [done|].
    rewrite Ea. by constructor. }
  split; rewrite ?Es', ?Eold; try done.
  - apply chain_snoc. exists (Lo ++ [rs]), []. split; [done|]. split; [by apply chain_other|]. rewrite <- En. cbn [chain first_seq new_seg].
    split; [done|]. split; [cbn; by rewrite lookup_insert_eq|]. split; [apply seg_ok_new|]. split; [constructor|done].
  - cbn [last_seq j' set_segs]. rewrite jlog_app, jlog_one, Hlast. cbn. by rewrite app_nil_r.
  - cbn [d_segs dir j' set_segs put_file]. intros k. rewrite List.map_app. destruct (decide (k = last_seq js + 1)) as [->|Hkn].
    + intros _. apply elem_of_app. right. by left.
    + rewrite lookup_insert_ne by done. intros Hx. apply elem_of_app. left. by apply Hdir.
  - cbn [older j' set_segs]. unfold segments. apply Forall_app. split; [done|]. rewrite Ea. by constructor.
Qed.

(** The last segment replaced by one of the same number. *)
Lemma jinv_active j Lo rs rs' seg' dt n pos more : jinv j (Lo ++ [rs]) → first_seq seg' = first_seq (active j) → seg_ok seg' rs' →
  Forall (good (j_keys j) (j_id j)) rs' → n = first_seq (active j) + records seg' - 1 →
  jinv (set_pos n pos more (set_segs (put_file (first_seq (active j)) (seg_header (j_id j) (first_seq (active j)) ++ seg_bytes rs') (dir j))
    (older j) seg' dt j)) (Lo ++ [rs']).
Proof.
  intros Hj Hf Hs Hg ->. destruct (jinv_last _ _ _ Hj) as (Hn & _ & _ & _ & Hc & _). pose proof Hj as [_ _ Hdir Hold H1 Hid].
  set (j' := set_pos _ _ _ _). assert (oldest_seq j' = oldest_seq j) as Eo by (unfold oldest_seq, segments; cbn; by destruct (older j)).
  assert (∀ s, s ∈ older j → first_seq s ≠ first_seq (active j)) as Hne.
  { intros s Hs'. rewrite Hn. eapply Z.lt_neq, chain_below; [exact Hc|done|done]. }
  split; rewrite ?Eo; try done.
  - apply chain_snoc. exists Lo, rs'. split; [done|]. split; [by apply chain_other|]. cbn [chain].
    change (retained (older j')) with (retained (older j)). rewrite <- Hn.
    split; [done|]. split; [cbn; by rewrite lookup_insert_eq|]. split; [done|]. split; [done|done].
  - cbn [last_seq j' set_pos]. rewrite jlog_app, jlog_one, len_app, (sk_records _ _ (sk_indexed _ _ Hs)), Hn.
    apply chain_log in Hc as [_ ->]. lia.
  - unfold segments. cbn [d_segs dir j' set_segs set_pos put_file older active]. intros k. rewrite List.map_app. cbn [List.map]. rewrite Hf.
    destruct (decide (k = first_seq (active j))) as [->|Hk]; [intros _; apply elem_of_app; right; by left|].
    rewrite lookup_insert_ne by done. intros Hx. apply Hdir in Hx. unfold segments in Hx. by rewrite List.map_app in Hx.
Qed.
(** Put back as it was, where a write failed. *)
Lemma jinv_rewritten j Lo rs junk : jinv j (Lo ++ [rs]) → junk = [] → ∀ why,
  jinv (set_broken why (set_segs (put_file (first_seq (active j)) (take (Z.to_nat (s_len (active j))) (seg_file j (active j)) ++ junk) (dir j))
    (older j) (active j) (dirty j) j)) (Lo ++ [rs]).
Proof.
  intros Hj -> why. destruct (jinv_last _ _ _ Hj) as (Hn & Hf & Hs & Hg & _ & Hl). unfold seg_file. rewrite Hf, app_nil_r. cbn [from_option Datatypes.id]. rewrite take_ge.
  - pose proof (jinv_active _ _ rs rs (active j) (dirty j) (last_seq j) (last_pos j) 0 Hj eq_refl Hs Hg Hl) as []. by split.
  - pose proof (sk_len _ _ Hs) as E. pose proof (seg_header_len (j_id j) (first_seq (active j))). rewrite length_app. unfold len in *. lia.
Qed.
(** From [j] to [j']: the segment being written only grew, or another one was
    started after what [j] holds. *)
Definition evolves (j : Journal) (L : list (list LogRec)) (j' : Journal) (L' : list (list LogRec)) : Prop :=
  last_seq j ≤ last_seq j' ∧ ∃ Lo rs Lo' rs', L = Lo ++ [rs] ∧ L' = Lo' ++ [rs'] ∧
  ((first_seq (active j') = first_seq (active j) ∧ ∃ more, rs' = rs ++ more) ∨ last_seq j < first_seq (active j')).
Lemma evolves_refl j L j' : jinv j L → active j' = active j → last_seq j' = last_seq j → evolves j L j' L.
Proof.
  intros Hj Ea El. destruct (jinv_snoc _ _ Hj) as (Lo & rs & ->). split; [lia|]. exists Lo, rs, Lo, rs. split; [done|]. split; [done|]. left.
  rewrite Ea. split; [done|]. exists []. by rewrite app_nil_r.
Qed.
Lemma evolves_trans j1 L1 j2 L2 j3 L3 : evolves j1 L1 j2 L2 → evolves j2 L2 j3 L3 → evolves j1 L1 j3 L3.
Proof.
  intros (H1 & Lo & rs & Lo2 & rs2 & -> & -> & Hc) (H2 & Lo2' & rs2' & Lo3 & rs3 & E & -> & Hc'). apply app_inj_tail in E as [<- <-].
  split; [lia|]. exists Lo, rs, Lo3, rs3. split; [done|]. split; [done|].
  destruct Hc as [[E1 [m1 ->]]|Hc], Hc' as [[E2 [m2 ->]]|Hc']; [left|right; lia..].
  split; [congruence|]. exists (m1 ++ m2). by rewrite app_assoc.
Qed.
Lemma write_ok io j L recs r j' : jinv j L → Forall (good (j_keys j) (j_id j)) recs → numbered (last_seq j + 1) (changes recs) →
  (∀ junk, io_write io = Some junk → junk = []) → write io (seg_bytes recs) (offs 0 recs) j = (r, j') →
  same j j' ∧
  match r with
  | Ok _ => broken j' = broken j ∧
     ∀ pos more, ∃ L', jinv (set_pos (last_seq j + len (changes recs)) pos more j') L' ∧ jlog L' = jlog L ++ changes recs ∧
       evolves j L (set_pos (last_seq j + len (changes recs)) pos more j') L'
  | Err _ => ∃ L', jinv j' L' ∧ jlog L' = jlog L ∧ evolves j L j' L'
  end.
Proof.
  intros Hj Hg Hn Hio. unfold write.
  set (rot := if _ : bool then rotate io j else _). destruct rot as [rr j1] eqn:Er.
  assert (same j j1 ∧ broken j1 = broken j ∧ ∃ L1, jinv j1 L1 ∧ jlog L1 = jlog L ∧ evolves j L j1 L1) as ([Hi Hk Hset Hl] & Hb & L1 & Hj1 & Hlog & Hev).
  { subst rot. destruct (_ && _) eqn:E; [|injection Er as <- <-; split; [by split|]; split; [done|]; exists L; by eauto using evolves_refl].
    apply andb_true_iff in E as [_ E%Z.ltb_lt]. destruct (rotate_ok _ _ _ _ _ Hj E Er) as (Hs & Hb & Hr). split; [done|]. split; [done|].
    destruct rr; [destruct Hr as [Hr Ha]; exists (L ++ [[]]); split; [done|]; split; [by rewrite jlog_app, app_nil_r|]|].
    - split; [rewrite (sm_last _ _ Hs); lia|]. destruct (jinv_snoc _ _ Hj) as (Lo & rs & ->). exists Lo, rs, (Lo ++ [rs]), [].
      split; [done|]. split; [done|]. right. rewrite Ha. cbn. lia.
    - destruct Hr as [Hr Ha]. exists L. split; [done|]. split; [done|]. by apply evolves_refl; [| |apply (sm_last _ _ Hs)]. }
  clear rot Er. destruct rr as [[]|e]; [|intros [= <- <-]; split; [by split|eauto]].
  destruct (jinv_snoc _ _ Hj1) as (Lo & rs & ->). destruct (jinv_last _ _ _ Hj1) as (Ha & Hf & Hs & Hgs & Hc & Hlast).
  pose proof (sk_len _ _ Hs) as Hsl. destruct (io_write io) as [junk|].
  { intros [= <- <-]. split; [by split|]. exists (Lo ++ [rs]). split; [|done]. apply jinv_rewritten; [done|by apply Hio]. }
  intros [= <- <-]. split; [by split|]. split; [done|]. intros pos more.
  pose proof (seg_header_len (j_id j1) (first_seq (active j1))) as Hh. unfold seg_file. rewrite Hf. cbn [from_option Datatypes.id].
  assert (length (seg_header (j_id j1) (first_seq (active j1)) ++ seg_bytes rs) = Z.to_nat (s_len (active j1))) as Lf
    by (rewrite length_app; unfold len in *; lia).
  rewrite take_ge, drop_ge, app_nil_r by (unfold len; lia). rewrite <- app_assoc, <- seg_bytes_app.
  set (s0 := {| first_seq := _ |}). pose proof (sk_indexed _ _ Hs) as Hx.
  destruct (index_fold (s_len (active j1)) recs s0 rs 0) as (Hx' & Hl' & Hf').
  { destruct Hx. by split. }
  { lia. }
  { cbn [first_seq s0]. rewrite <- (sk_records _ _ Hx). replace (_ + _) with (last_seq j + 1) by lia. done. }
  exists (Lo ++ [rs ++ recs]). split.
  - apply jinv_active with rs; [done|done| |by rewrite Forall_app, Hi, Hk in *|].
    + split; [|done]. rewrite Hl'. cbn [s_len s0]. rewrite seg_bytes_app, len_app. lia.
    + rewrite (sk_records _ _ Hx'), changes_app, len_app, <- (sk_records _ _ Hx), <- Hl, Hlast. lia.
  - rewrite <- Hlog at 1. rewrite !jlog_app, !jlog_one, changes_app, app_assoc. split; [done|]. eapply evolves_trans; [exact Hev|].
    split; [cbn; pose proof (len_nonneg (changes recs)); lia|]. exists Lo, rs, Lo, (rs ++ recs). split; [done|]. split; [done|]. left. split; [done|by exists recs].
Qed.

(** ** Appending *)
Fixpoint new_bodies (s : Settings) (file_id first : Z) (txn : bool) (i : nat) (cs : list NewChange) : list Parsed :=
  match cs with
  | [] => []
  | c :: cs =>
    new_body s file_id (first + Z.of_nat i) (if txn then first else 0) (txn && bool_decide (cs = [])) c :: new_bodies s file_id first txn (S i) cs
  end.
Record change_ok (c : NewChange) : Prop := {
  ch_key : in_u 16 (str_len (n_key c)); ch_str : valid_str (n_key c); ch_ts : in_i64 (n_timestamp c); ch_exp : in_i64 (n_expires_at c);
  ch_end : in_u 64 (n_data_end c); ch_raw : len (n_raw c) ≤ MAX_VALUE_LEN;
}.
Definition nonces_ok (ks : option Keys) (io : JIo) : Prop :=
  ∀ k i n, ks = Some k → io_nonce io i = Some n → nonce_ok k n.

Context `{HL : !AeadLaws}.
Lemma find_key_own k : find_key k (id (current k)) = Some (current k).
Proof. unfold find_key. cbn [List.find]. by rewrite bool_decide_true. Qed.
Lemma push_record_ok j nonce p b : body_fits p → len (body p) + TRAILER ≤ MAX_RECORD →
  (∀ k n, j_keys j = Some k → nonce = Some n → nonce_ok k n) → push_record j nonce (body p) = Ok b →
  ∃ s, b = framed s ∧ good (j_keys j) (j_id j) (s, p).
Proof.
  intros Hp Hl Hn. unfold push_record. destruct (j_keys j) as [k|] eqn:Ek.
  - destruct nonce as [n|]; [|done]. rewrite seal_ok. cbn [mbind result_bind]. intros [= <-].
    set (s := _.1 ++ _). exists s. assert (seal k Changes (le_bytes 8 (j_id j)) (Some n) (body p) = Ok s) as Es by apply seal_ok.
    assert (len s = len (body p) + TRAILER) as Ls.
    { subst s. rewrite !len_app, aead_ct_len, aead_tag_len. destruct (Hn k n eq_refl eq_refl) as [-> ->]. unfold TRAILER, TAG_LEN. lia. }
    split; [unfold framed; by rewrite wrap_small by (apply max_record_u32; lia)|]. split; [cbn; lia|]. exists (body p).
    split; [|by apply parse_body_ok]. cbn [open_body fst]. by rewrite (open_seal k k _ _ n (body p) s (Hn k n eq_refl eq_refl) (find_key_own k) Es).
  - cbn [mbind result_bind]. intros [= <-]. exists (body p). assert (len (body p) ≤ MAX_RECORD) by (unfold TRAILER, NONCE_LEN in Hl; lia).
    split; [unfold framed; by rewrite wrap_small by by apply max_record_u32|]. split; [done|]. exists (body p). split; [done|by apply parse_body_ok].
Qed.
Lemma new_body_fits s file_id first txn closes seq c : change_ok c → in_u 64 file_id → in_u 64 seq → in_u 64 first →
  body_fits (new_body s file_id seq (if txn : bool then first else 0) closes c) ∧
  len (body (new_body s file_id seq (if txn then first else 0) closes c)) + TRAILER ≤ MAX_RECORD.
Proof.
  intros [Hk Hv Ht He Hd Hr] Hf Hs H1. split; [split; try done; by destruct txn|]. rewrite body_len. cbn [p_key p_value new_body].
  unfold in_u, BODY_FIXED, TRAILER, NONCE_LEN, MAX_RECORD, MAX_VALUE_LEN in *. destruct (values s && _); [|change (len []) with 0]; lia.
Qed.
Lemma new_body_change s file_id seq txn closes c : is_change (new_body s file_id seq txn closes c) = true.
Proof. unfold is_change. cbn. by destruct (n_kind c). Qed.
Lemma push_changes_ok j io file_id first txn cs : Forall change_ok cs → in_u 64 file_id → 0 ≤ first → nonces_ok (j_keys j) io →
  ∀ i buf offsets buf' offsets', first + Z.of_nat i + len cs ≤ 2 ^ 64 → push_changes j io file_id first txn i cs buf offsets = Ok (buf', offsets') →
  ∃ recs, buf' = buf ++ seg_bytes recs ∧ offsets' = offsets ++ offs (len buf) recs ∧ Forall (good (j_keys j) (j_id j)) recs ∧
    recs.*2 = new_bodies (settings j) file_id first txn i cs.
Proof.
  intros Hc Hf H1 Hn. induction Hc as [|c cs Hc _ IH]; intros i buf offsets buf' offsets' Hb; cbn [push_changes new_bodies].
  { intros [= <- <-]. exists []. cbn. by rewrite !app_nil_r. }
  rewrite len_cons in Hb. pose proof (len_nonneg cs). rewrite result_bind_ok. intros (b & Hpush & Hrest).
  set (p := new_body _ _ _ _ _ _) in *. destruct (new_body_fits (settings j) file_id first txn (txn && bool_decide (cs = [])) (first + Z.of_nat i) c) as [Hfit Hlen];
    [done|done|unfold in_u; lia|unfold in_u; lia|]. fold p in Hfit, Hlen.
  apply push_record_ok in Hpush as (s & -> & Hg); [|done|done|intros k n Hk Hnn; by eapply Hn].
  apply IH in Hrest as (recs & -> & -> & Hgs & Hp); [|lia]. exists ((s, p) :: recs). rewrite seg_bytes_cons, app_assoc. split; [done|].
  split; [|split; [by constructor|cbn; by rewrite Hp]]. cbn [offs fst snd]. subst p. rewrite new_body_change. cbn [app p_seq p_timestamp new_body].
  by rewrite <- app_assoc, len_app, framed_len.
Qed.
Lemma new_bodies_numbered s file_id first txn cs : ∀ i, numbered (first + Z.of_nat i) (new_bodies s file_id first txn i cs).
Proof.
  induction cs as [|c cs IH]; intros i; cbn [new_bodies numbered]; [done|]. split; [done|].
  replace (first + Z.of_nat i + 1) with (first + Z.of_nat (S i)) by lia. apply IH.
Qed.
Lemma new_bodies_changes s file_id first txn cs : ∀ i, List.filter is_change (new_bodies s file_id first txn i cs) = new_bodies s file_id first txn i cs.
Proof. induction cs as [|c cs IH]; intros i; cbn [new_bodies List.filter]; [done|]. by rewrite new_body_change, IH. Qed.
Lemma new_bodies_len s file_id first txn cs : ∀ i, len (new_bodies s file_id first txn i cs) = len cs.
Proof. induction cs as [|c cs IH]; intros i; cbn [new_bodies]; [done|]. by rewrite !len_cons, IH. Qed.

Definition io_ok (io : JIo) : Prop := ∀ junk, io_write io = Some junk → junk = [].
Lemma journal_append_ok io file_id cs txn j L r j' : jinv j L → Forall change_ok cs → in_u 64 file_id → nonces_ok (j_keys j) io → io_ok io →
  last_seq j + 1 + len cs ≤ 2 ^ 64 → append io file_id cs txn j = (r, j') → same_conf j j' ∧
  ∃ L', jinv j' L' ∧ evolves j L j' L' ∧
    match r with
    | Ok _ => broken j' = broken j ∧ jlog L' = jlog L ++ new_bodies (settings j) file_id (last_seq j + 1) txn 0 cs ∧ last_seq j' = last_seq j + len cs
    | Err _ => jlog L' = jlog L ∧ last_seq j' = last_seq j
    end.
Proof.
  intros Hj Hc Hf Hn Hio Hb. unfold append. destruct (last cs) as [c|] eqn:El.
  2: { apply last_None in El as ->. intros [= <- <-]. split; [by split|]. exists L. cbn [new_bodies]. rewrite app_nil_r, Z.add_0_r. split; [done|]. split; [by apply evolves_refl|done]. }
  destruct (push_changes _ _ _ _ _ _ _ _ _) as [[buf offsets]|e] eqn:Ep; [|intros [= <- <-]; split; [by split|]; exists L; split; [done|]; split; [by apply evolves_refl|done]].
  pose proof (ji_first _ _ Hj) as Hfirst. pose proof (ji_last _ _ Hj) as Hlast. pose proof (len_nonneg (jlog L)).
  apply push_changes_ok in Ep as (recs & -> & -> & Hg & Hp); [|done|done|lia|done|lia]. cbn [app]. change (len []) with 0.
  assert (changes recs = new_bodies (settings j) file_id (last_seq j + 1) txn 0 cs) as Ech by (unfold changes; by rewrite Hp, new_bodies_changes).
  destruct (write io (seg_bytes recs) (offs 0 recs) j) as [r1 j1] eqn:Ew. apply (write_ok _ _ _ _ _ _ Hj Hg) in Ew as [[Hi Hk Hs Hl] Hw]; [|rewrite Ech|done].
  2: { pose proof (new_bodies_numbered (settings j) file_id (last_seq j + 1) txn cs 0) as Hnum. by rewrite Z.add_0_r in Hnum. }
  destruct r1 as [[]|e]; intros [= <- <-]; (split; [by split|]); [|destruct Hw as (L' & ? & ? & ?); by exists L']. destruct Hw as [Hbr Hw].
  destruct (Hw (Some (file_id, n_data_end c)) (len cs)) as (L' & Hj' & Hlog & Hev). exists L'.
  rewrite <- Ech. rewrite Ech, new_bodies_len in Hj', Hev.
  replace (last_seq j + 1 + len cs - 1) with (last_seq j + len cs) by lia. done.
Qed.
Lemma mark_ok io file_id data_end j L r j' : jinv j L → in_u 64 file_id → in_u 64 data_end → nonces_ok (j_keys j) io → io_ok io →
  last_seq j < 2 ^ 64 → mark io file_id data_end j = (r, j') → same j j' ∧
  ∃ L', jinv j' L' ∧ jlog L' = jlog L ∧ evolves j L j' L' ∧ (is_ok r = true → broken j' = broken j).
Proof.
  intros Hj Hf He Hn Hio Hb. unfold mark. pose proof (ji_first _ _ Hj) as Hfirst. pose proof (ji_last _ _ Hj) as Hlast.
  pose proof (len_nonneg (jlog L)). set (p := mark_body _ _ _). destruct (push_record _ _ _) as [b|e] eqn:Ep; [|intros [= <- <-]; split; [by split|]; exists L; split; [done|]; split; [done|]; split; [by apply evolves_refl|done]].
  apply push_record_ok in Ep as (s & -> & Hg); [|split; try done; unfold in_u; cbn; lia|by vm_compute|intros k n Hk Hnn; by eapply Hn].
  assert (changes [(s, p)] = []) as Ech by done. assert (framed s = seg_bytes [(s, p)]) as -> by (unfold seg_bytes, frames_bytes; cbn; by rewrite app_nil_r).
  change (write io (seg_bytes [(s, p)]) [] j) with (write io (seg_bytes [(s, p)]) (offs 0 [(s, p)]) j). destruct (write _ _ _ _) as [r1 j1] eqn:Ew.
  apply (write_ok _ _ _ _ _ _ Hj) in Ew as [[Hi Hk Hs Hl] Hw]; [|by constructor|by rewrite Ech|done].
  destruct r1 as [[]|e]; intros [= <- <-].
  - split; [by split|]. destruct Hw as [Hbr Hw]. destruct (Hw (Some (file_id, data_end)) 0) as (L' & Hj' & Hlog & Hev). exists L'.
    rewrite Ech, Z.add_0_r, <- Hl in Hj', Hev. rewrite Ech, app_nil_r in Hlog. done.
  - split; [by split|]. destruct Hw as (L' & ? & ? & ?). by exists L'.
Qed.
End log.
