(* ===== verification/JournalSafe.v ===== *)
(** * The change journal: retention, restarts and crashes *)
From S2P Require Import Prelude Utf8 Util Maps Types Compress Format Crypt Journal JournalThm.
Open Scope Z_scope.

Section safe.
  Context `{Aead} `{Crc} `{HL : !AeadLaws}.

(** ** Retention *)
Lemma chain_delete d ks id n segs L k : (∀ s, s ∈ segs → first_seq s ≠ k) → chain d ks id n segs L → chain (delete k d) ks id n segs L.
Proof. intros Hk. apply chain_ext. intros s Hs. rewrite lookup_delete_ne; [done|]. intros E. by apply (Hk s Hs). Qed.
Definition with_segs (o : list Segment) (d : Dir) (j : Journal) : Journal := set_segs d o (active j) (dirty j) j.
Lemma jinv_drop_first j old o d rs L : jinv (with_segs (old :: o) d j) (rs :: L) → jinv (with_segs o (drop_file (first_seq old) d) j) L.
Proof.
  intros [Hc Hl Hd Ho H1 Hi]. cbn [segments older with_segs set_segs active] in *. apply Forall_cons in Ho as [Hold Ho].
  unfold segments in Hc, Hd. cbn [older with_segs set_segs active app chain oldest_seq List.map dir j_keys j_id] in *.
  destruct Hc as (Hn & Hf & Hs & Hg & Hc). unfold oldest_seq, segments in Hn, Hl, H1, Hc. cbn [older with_segs set_segs active app last_seq] in *.
  assert (oldest_seq (with_segs o (drop_file (first_seq old) d) j) = first_seq old + records old) as Eo.
  { unfold oldest_seq, segments. cbn [older with_segs set_segs active]. destruct o as [|s o], L as [|rs' L]; try done; cbn [app chain] in *; by destruct Hc. }
  assert (∀ s, s ∈ o ++ [active j] → first_seq s ≠ first_seq old) as Hne.
  { intros s Hs'. pose proof (chain_first _ _ _ _ _ _ _ Hc Hs'). lia. }
  split; rewrite ?Eo; try done.
  - unfold segments. cbn [older with_segs set_segs active dir j_keys j_id drop_file d_segs]. by apply chain_delete.
  - cbn [last_seq with_segs set_segs] in *. change (jlog (rs :: L)) with (changes rs ++ jlog L) in Hl. rewrite len_app in Hl.
    rewrite (sk_records _ _ (sk_indexed _ _ Hs)). lia.
  - intros k. unfold segments. cbn [older with_segs set_segs active dir drop_file d_segs]. intros [f [Hk Hx]%lookup_delete_Some].
    assert (is_Some (d_segs d !! k)) as Hx' by eauto. apply Hd, elem_of_cons in Hx' as [->|Hx']; done.
  - lia.
Qed.
Lemma trim_ok now j L n j' : jinv j L → trim now j = (n, j') → same j j' ∧ broken j' = broken j ∧
  ∃ gone L', jinv j' L' ∧ jlog L = gone ++ jlog L' ∧ n = len gone ∧ evolves j L j' L'.
Proof.
  intros Hj. unfold trim. destruct (trim_loop _ _ _ _ _ _) as [[o d] m] eqn:E. intros [= <- <-]. split; [by split|]. split; [done|].
  fold (with_segs o d j). assert (jinv (with_segs (older j) (dir j) j) L) as Hj' by by apply jinv_dirty. clear Hj.
  enough (∀ o0 d0 r L, jinv (with_segs o0 d0 j) L → trim_loop (settings j) now o0 (active j) d0 r = (o, d, m) →
    ∃ pre L', jinv (with_segs o d j) L' ∧ L = pre ++ L' ∧ m = r + len (jlog pre)) as Hgo.
  { destruct (Hgo _ _ _ _ Hj' E) as (pre & L' & Hj1 & -> & ->). exists (jlog pre), L'. split; [done|]. split; [apply jlog_app|]. split; [lia|].
    destruct (jinv_snoc _ _ Hj1) as (Lo & rs & ->). split; [done|]. exists (pre ++ Lo), rs, Lo, rs. split; [by rewrite app_assoc|]. split; [done|].
    left. split; [done|]. exists []. by rewrite app_nil_r. }
  clear. induction o0 as [|old o0 IH]; intros d0 r L Hj; cbn [trim_loop].
  - intros [= <- <- <-]. exists [], L. change (len (jlog [])) with 0. split; [done|]. split; [done|lia].
  - destruct (negb _).
    + intros [= <- <- <-]. exists [], L. change (len (jlog [])) with 0. split; [done|]. split; [done|lia].
    + destruct L as [|rs L]; [by destruct (ji_chain _ _ Hj)|]. pose proof (ji_chain _ _ Hj) as Hc. cbn in Hc. destruct Hc as (_ & _ & Hs & _).
      intros E. apply IH with (L := L) in E as (pre & L' & Hj' & -> & ->); [|by apply jinv_drop_first in Hj].
      exists (rs :: pre), L'. split; [done|]. split; [done|]. change (jlog (rs :: pre)) with (changes rs ++ jlog pre).
      rewrite len_app, (sk_records _ _ (sk_indexed _ _ Hs)). lia.
Qed.

(** ** Opening what is on disk *)
Definition last_number (n : Z) (l : list Parsed) : Z := match last l with Some r => p_seq r | None => n end.
Lemma last_number_app n a b : last_number n (a ++ b) = last_number (last_number n a) b.
Proof. unfold last_number. rewrite last_app. by destruct (last b). Qed.
Lemma last_number_numbered n m l : numbered m l → last_number n l = if bool_decide (l = []) then n else m + len l - 1.
Proof.
  intros Hl. destruct (list_snoc_cases l) as [->|(k & x & ->)]; [done|]. apply numbered_app in Hl as [_ [Hx _]].
  rewrite bool_decide_false by (by destruct k). unfold last_number. rewrite last_snoc, len_app. change (len [x]) with 1. lia.
Qed.
Lemma load_ok ks id rs : Forall (good ks id) rs → ∀ s rs0 ls lp, seg_ok s rs0 → numbered (first_seq s + len (changes rs0)) (changes rs) →
  ∃ s' lp', load_records ks id (List.map fr rs) s ls lp = (s', last_number ls (changes rs), lp') ∧ seg_ok s' (rs0 ++ rs) ∧ first_seq s' = first_seq s.
Proof.
  induction 1 as [|x rs (_ & b & Hb & Hp) _ IH]; intros s rs0 ls lp Hs Hn; cbn [List.map load_records fr].
  { exists s, lp. by rewrite app_nil_r. }
  rewrite Hb, Hp. change (x :: rs) with ([x] ++ rs) in Hn |- *. rewrite changes_app in Hn. apply numbered_app in Hn as [Hx Hn].
  rewrite changes_app, app_assoc, last_number_app. change (changes [x]) with (if is_change x.2 then [x.2] else []) in *.
  fold (is_change x.2). set (s1 := {| first_seq := first_seq s |}). pose proof Hs as [Hlen Hi].
  assert (seg_ok s1 (rs0 ++ [x])) as Hs1.
  { split; [cbn [s_len s1]; rewrite seg_bytes_snoc; lia|]. subst s1. destruct (is_change x.2) eqn:Ec.
    - destruct Hx as [Hx _]. apply (indexed_change s _ _ _ (s_len s)); try done. cbn [s_index andb]. destruct (_ =? 0); [by right|by left].
    - by apply (indexed_mark s). }
  destruct (IH s1 (rs0 ++ [x]) (if is_change x.2 then p_seq x.2 else ls) (Some (p_file_id x.2, p_data_end x.2)) Hs1) as (s' & lp' & E & Hs' & Hf).
  { rewrite changes_snoc, len_app, Z.add_assoc. exact Hn. }
  exists s', lp'. unfold is_change in E |- *. rewrite E. split; [|done]. by destruct (p_kind x.2 =? KIND_MARK).
Qed.
Lemma parse_header_ok id n rest : in_u 64 id → in_u 64 n → parse_header (seg_header id n ++ rest) n = Some id.
Proof.
  intros Hi Hn. unfold parse_header. rewrite len_app, seg_header_len. pose proof (len_nonneg rest). rewrite ltb_f by lia.
  assert (seg_header id n ++ rest = List.concat [MAGIC; le_bytes 4 VERSION; le_bytes 8 id; le_bytes 8 n; rest]) as E
    by (unfold seg_header; cbn [List.concat]; by rewrite <- !app_assoc, app_nil_r).
  assert (take 4 (seg_header id n ++ rest) = MAGIC) as -> by done.
  assert (slice 4 8 (seg_header id n ++ rest) = le_bytes 4 VERSION) as -> by (rewrite E; by field 1%nat).
  assert (slice 16 24 (seg_header id n ++ rest) = le_bytes 8 n) as -> by (rewrite E; by field 3%nat).
  assert (slice 8 16 (seg_header id n ++ rest) = le_bytes 8 id) as -> by (rewrite E; by field 2%nat).
  rewrite !le_val_u64 by done. rewrite (Z.eqb_refl n), bool_decide_true by done.
  by change (le_val (le_bytes 4 VERSION) =? VERSION) with true.
Qed.
Lemma drop_header id n rest : drop (Z.to_nat HEADER_LEN) (seg_header id n ++ rest) = rest.
Proof. apply drop_app_len. pose proof (seg_header_len id n). unfold len in *. lia. Qed.

(** A segment whose file holds its records, then a record cut short. *)
Lemma open_one ks names id0 segs ls lp d n id rs tail : d_segs d !! n = Some (seg_header id n ++ seg_bytes rs ++ tail) →
  in_u 64 id → in_u 64 n → Forall (good ks id) rs → numbered n (changes rs) → frame tail = None →
  (id0 = None ∨ id0 = Some id) → (tail = [] ∨ names = []) →
  ∃ s lp', seg_ok s rs ∧ first_seq s = n ∧ open_segments ks (n :: names) id0 segs ls lp d =
    open_segments ks names (Some id) (segs ++ [s]) (last_number ls (changes rs)) lp'
      (if bool_decide (tail = []) then d else put_file n (seg_header id n ++ seg_bytes rs) d).
Proof.
  intros Hf Hi Hn Hg Hc Ht Hid Hend. cbn [open_segments]. rewrite Hf. cbn [from_option Datatypes.id]. rewrite parse_header_ok by done.
  assert (default id id0 =? id = true) as -> by (apply Z.eqb_eq; by destruct Hid as [->| ->]). cbn [negb].
  rewrite drop_header, (records_of_seg ks id) by done.
  destruct (load_ok ks id rs Hg (new_seg n) [] ls lp (seg_ok_new n)) as (s & lp' & E & Hs & Hfs); [by rewrite Z.add_0_r|].
  rewrite E. exists s, lp'. split; [done|]. split; [done|].
  assert (s_len s = len (seg_header id n ++ seg_bytes rs)) as Ls by (rewrite len_app, seg_header_len; apply (sk_len _ _ Hs)).
  rewrite app_assoc, len_app, <- Ls. destruct tail as [|b tail].
  - change (len []) with 0. rewrite ltb_f by lia. by rewrite bool_decide_true.
  - rewrite (bool_decide_false (b :: tail = [])) by done. destruct Hend as [| ->]; [done|]. rewrite len_cons. pose proof (len_nonneg tail).
    rewrite ltb_t by lia. rewrite bool_decide_true by done. do 2 f_equal. rewrite take_app_len; [done|]. unfold len in Ls. lia.
Qed.

Lemma open_older ks id (d : Dir) names : names ≠ [] → in_u 64 id → ∀ segs n Lo id0 segs0 ls lp, chain (d_segs d) ks id n segs Lo → 0 ≤ n → n + retained segs < 2 ^ 64 →
  (id0 = None ∨ id0 = Some id) →
  ∃ segs' lp' id1, (id1 = None ∨ id1 = Some id) ∧ chain (d_segs d) ks id n segs' Lo ∧ List.map first_seq segs' = List.map first_seq segs ∧
    List.map records segs' = List.map records segs ∧
    open_segments ks (List.map first_seq segs ++ names) id0 segs0 ls lp d =
    open_segments ks names id1 (segs0 ++ segs') (last_number ls (jlog Lo)) lp' d.
Proof.
  intros Hne Hid. induction segs as [|s segs IH]; intros n [|rs Lo] id0 segs0 ls lp; cbn [chain]; try done.
  { intros _ _ _ Hi0. exists [], lp, id0. by rewrite app_nil_r. }
  intros (Hn & Hf & Hs & Hg & Hc) H1 H2 Hi0. pose proof (sk_indexed _ _ Hs) as [Hr Hq _]. rewrite Hn in Hq.
  cbn [retained foldr List.map app] in *. fold (retained segs) in H2.
  assert (0 ≤ retained segs) by (apply chain_log in Hc as [_ <-]; apply len_nonneg). pose proof (len_nonneg (changes rs)).
  rewrite <- (app_nil_r (seg_bytes rs)) in Hf. rewrite Hn.
  destruct (open_one ks (List.map first_seq segs ++ names) id0 segs0 ls lp d n id rs [] Hf Hid) as (s' & lp1 & Hs' & Hfs & ->);
    [unfold in_u; lia|done|done|done|done|by left|]. rewrite bool_decide_true by done.
  destruct (IH _ _ (Some id) (segs0 ++ [s']) (last_number ls (changes rs)) lp1 Hc) as (segs' & lp' & id1 & Hi1 & Hc' & Ef & Er & ->); [lia|lia|by right|].
  assert (records s' = records s) as Er' by (rewrite (sk_records _ _ (sk_indexed _ _ Hs')); done).
  exists (s' :: segs'), lp', id1. split; [done|]. split; [|split; [|split]].
  - cbn [chain]. rewrite Er'. rewrite app_nil_r in Hf. done.
  - cbn [List.map]. by rewrite Ef, Hfs.
  - cbn [List.map]. by rewrite Er, Er'.
  - rewrite <- app_assoc. change (jlog (rs :: Lo)) with (changes rs ++ jlog Lo). by rewrite last_number_app.
Qed.
Lemma names_sorted d ks id s segs : ∀ n L, chain d ks id n (segs ++ [s]) L → Forall (fun s => 0 < records s) segs →
  StronglySorted Z.lt (List.map first_seq (segs ++ [s])).
Proof.
  induction segs as [|s' segs IH]; intros n [|rs L]; cbn [app chain List.map]; try done; [intros _ _; repeat constructor|].
  intros (Hn & _ & _ & _ & Hc) [Hp Hf]%Forall_cons. constructor; [by eapply IH|]. apply Forall_forall. intros k Hk.
  apply list_elem_of_In, in_map_iff in Hk as (s1 & <- & Hs1). apply list_elem_of_In in Hs1. apply (chain_first _ _ _ _ _ _ _ Hc) in Hs1. lia.
Qed.
Lemma seg_names_ok (d : Dir) l : StronglySorted Z.lt l → (∀ k, is_Some (d_segs d !! k) ↔ k ∈ l) → seg_names d = l.
Proof.
  intros Hs Hk. unfold seg_names. apply (StronglySorted_unique Z.le).
  - apply StronglySorted_merge_sort; apply _.
  - clear Hk. induction Hs as [|x l Hs IH Hx]; constructor; [done|]. eapply Forall_impl; [exact Hx|]. cbn. lia.
  - rewrite merge_sort_Permutation. apply NoDup_Permutation.
    + apply NoDup_fst_map_to_list.
    + clear Hk. induction Hs as [|x l Hs IH Hx]; constructor; [|done]. intros Hin. rewrite Forall_forall in Hx. apply Hx in Hin. lia.
    + intros k. rewrite <- Hk. split.
      * intros [[k' f] [-> Hin]]%list_elem_of_fmap. apply elem_of_map_to_list in Hin. by exists f.
      * intros [f Hf]. apply list_elem_of_fmap. exists (k, f). split; [done|]. by apply elem_of_map_to_list.
Qed.

(** The records that are whole in the first [n] bytes. *)
Lemma cut_records ks id rs n : Forall (good ks id) rs → 0 ≤ n → ∃ whole rest tail, rs = whole ++ rest ∧
  take (Z.to_nat n) (seg_bytes rs) = seg_bytes whole ++ tail ∧ frame tail = None ∧
  ∀ a b, rs = a ++ b → len (seg_bytes a) ≤ n → ∃ c, whole = a ++ c.
Proof.
  intros Hg. revert n. induction Hg as [|x rs [Hx _] _ IH]; intros n Hn.
  { exists [], [], []. split; [done|]. split; [exact (take_nil _)|]. split; [done|]. intros a b E _. symmetry in E. apply app_eq_nil in E as [-> ->]. by exists []. }
  rewrite seg_bytes_cons. pose proof (framed_len x.1) as Lx. pose proof (len_nonneg x.1). destruct (Z.lt_ge_cases n (8 + len x.1)) as [Hl|Hl].
  - exists [], (x :: rs), (take (Z.to_nat n) (framed x.1)). split; [done|]. split; [|split; [by apply frame_cut|]].
    + rewrite take_app_le; [done|]. unfold len in *. lia.
    + intros [|y a] b E Ha; [by exists []|]. exfalso. injection E as -> _. rewrite seg_bytes_cons, len_app, framed_len in Ha.
      pose proof (len_nonneg (seg_bytes a)). lia.
  - destruct (IH (n - (8 + len x.1))) as (whole & rest & tail & -> & Et & Hf & Hmax); [lia|]. exists (x :: whole), rest, tail.
    split; [done|]. split; [|split; [done|]].
    + rewrite seg_bytes_cons, <- app_assoc, <- Et. rewrite take_app_ge by (unfold len in *; lia). do 2 f_equal. unfold len in *. lia.
    + intros [|y a] b E Ha; [by exists (x :: whole)|]. injection E as <- E. rewrite seg_bytes_cons, len_app, framed_len in Ha.
      destruct (Hmax a b E) as [c ->]; [lia|]. by exists c.
Qed.

(** The folder after a crash that left [n] bytes of the file being written:
    the segments before it were synced when it was started. *)
Definition crashed (n : Z) (j : Journal) : Dir := put_file (first_seq (active j)) (take (Z.to_nat n) (seg_file j (active j))) (dir j).
Lemma crashed_names j L n : jinv j L → seg_names (crashed n j) = List.map first_seq (segments j).
Proof.
  intros Hj. destruct (jinv_snoc _ _ Hj) as (Lo & rs & ->). apply seg_names_ok.
  - eapply names_sorted; [apply (ji_chain _ _ Hj)|apply (ji_older _ _ Hj)].
  - intros k. cbn [crashed put_file d_segs]. destruct (decide (k = first_seq (active j))) as [->|Hk].
    + rewrite lookup_insert_eq. split; [|by eexists]. intros _. unfold segments. rewrite List.map_app. apply elem_of_app. right. by left.
    + rewrite lookup_insert_ne by done. split; [apply (ji_dir _ _ Hj)|]. unfold segments. rewrite List.map_app.
      intros [Hin|Hin]%elem_of_app; [|by apply list_elem_of_singleton in Hin]. destruct (jinv_last _ _ _ Hj) as (_ & _ & _ & _ & Hc & _).
      apply list_elem_of_In, in_map_iff in Hin as (s & <- & Hs). apply list_elem_of_In in Hs. clear Hk.
      revert Hc Hs. generalize (oldest_seq j) (older j) Lo. intros m o. revert m. induction o as [|s' o IH]; intros m [|rs' L]; cbn [chain]; try done; [by intros _ ?%elem_of_nil|].
      intros (Hn & Hf & _ & _ & Hc) [->|Hs]%elem_of_cons; [rewrite Hn; by eexists|by eapply IH].
Qed.
Lemma reopened_jinv j Lo rs whole s segs' d' id0 : jinv j (Lo ++ [rs]) → seg_ok s whole → Forall (good (j_keys j) (j_id j)) whole →
  first_seq s = first_seq (active j) → chain (d_segs (dir j)) (j_keys j) (j_id j) (oldest_seq j) segs' Lo →
  List.map first_seq segs' = List.map first_seq (older j) → List.map records segs' = List.map records (older j) →
  d_segs d' = <[first_seq (active j) := seg_header (j_id j) (first_seq (active j)) ++ seg_bytes whole]> (d_segs (dir j)) →
  dir id0 = d' → older id0 = segs' → active id0 = s → j_id id0 = j_id j → j_keys id0 = j_keys j →
  last_seq id0 = oldest_seq j + len (jlog (Lo ++ [whole])) - 1 → oldest_seq id0 = oldest_seq j ∧ jinv id0 (Lo ++ [whole]).
Proof.
  intros Hj Hs Hg Hf Hc Ef Er Ed Edir Eo Ea Ei Ek El. destruct (jinv_last _ _ _ Hj) as (Hn & _ & _ & _ & Hcj & _). pose proof Hj as [_ _ Hdir Hold H1 Hid].
  assert (List.map first_seq (segments id0) = List.map first_seq (segments j)) as Efs.
  { unfold segments. rewrite !List.map_app, Eo, Ef, Ea. cbn [List.map]. by rewrite Hf. }
  assert (oldest_seq id0 = oldest_seq j) as Eold.
  { unfold oldest_seq. revert Efs. unfold segments. destruct (older id0), (older j); cbn [app List.map]; congruence. }
  assert (retained segs' = retained (older j)) as Eret.
  { apply chain_log in Hc as [_ <-]. by apply chain_log in Hcj as [_ <-]. }
  split; [done|]. split; rewrite ?Eold, ?Ei, ?Ek, ?Edir, ?Ed; try done.
  - unfold segments. apply chain_snoc. exists Lo, whole. rewrite Eo, Ea, Eret, <- Hn. split; [done|]. split.
    + apply chain_other; [|done]. intros s' Hs'. pose proof (in_map first_seq _ _ (proj1 (list_elem_of_In _ _) Hs')) as Hin. rewrite Ef in Hin.
      apply in_map_iff in Hin as (s1 & <- & Hs1). apply list_elem_of_In in Hs1. rewrite Hn. eapply Z.lt_neq, chain_below; [exact Hcj|done|done].
    + cbn [chain]. split; [done|]. split; [by rewrite lookup_insert_eq|]. done.
  - intros k. rewrite Efs. destruct (decide (k = first_seq (active j))) as [->|Hk].
    + intros _. unfold segments. rewrite List.map_app. apply elem_of_app. right. by left.
    + rewrite lookup_insert_ne by done. apply Hdir.
  - rewrite Eo. clear -Er Hold. revert Er. generalize (older j) Hold. induction segs' as [|s' o IH]; intros [|s1 o1] Ho; cbn [List.map]; try done.
    intros [= E1 E2]. apply Forall_cons in Ho as [Hp Ho]. constructor; [lia|by eapply IH].
Qed.
Record reopened (j j' : Journal) : Prop := {
  ro_id : j_id j' = j_id j; ro_keys : j_keys j' = j_keys j; ro_oldest : oldest_seq j' = oldest_seq j; ro_broken : broken j' = None;
}.
(** What opening makes of the segments it read. *)
Lemma reopened_state j Lo whole rest s segs' n : jinv j (Lo ++ [whole ++ rest]) → seg_ok s whole → first_seq s = first_seq (active j) →
  chain (d_segs (crashed n j)) (j_keys j) (j_id j) (oldest_seq j) segs' Lo →
  List.map first_seq segs' = List.map first_seq (older j) → List.map records segs' = List.map records (older j) →
  (jlog (Lo ++ [whole]) ≠ [] ∨ oldest_seq j = 1) → ∀ j',
  d_segs (dir j') = <[first_seq (active j) := seg_header (j_id j) (first_seq (active j)) ++ seg_bytes whole]> (d_segs (dir j)) →
  older j' = segs' → active j' = s → j_id j' = j_id j → j_keys j' = j_keys j → broken j' = None →
  last_seq j' = last_number (last_number 0 (jlog Lo)) (changes whole) → jinv j' (Lo ++ [whole]) ∧ reopened j j'.
Proof.
  intros Hj Hsok Hfs Hcs Efs Ers Hlog j' Ed E2 E3 E4 E5 E6 E7. destruct (jinv_last _ _ _ Hj) as (Hf & _ & Hs & Hg & Hc & _).
  destruct (chain_log _ _ _ _ _ _ Hc) as [Hnum Hret]. pose proof Hs as [_ [_ Hq _]]. rewrite changes_app in Hq.
  apply numbered_app in Hq as [Hq _]. apply Forall_app in Hg as [Hg _].
  rewrite <- last_number_app, <- jlog_one, <- jlog_app in E7.
  assert (numbered (oldest_seq j) (jlog (Lo ++ [whole]))) as Hnum'.
  { rewrite jlog_app, jlog_one. apply numbered_app. split; [done|]. by rewrite Hret, <- Hf. }
  rewrite (last_number_numbered _ _ _ Hnum') in E7.
  destruct (reopened_jinv j Lo (whole ++ rest) whole s segs' (dir j') j' Hj Hsok Hg Hfs) as [Eo Hj']; try done.
  - eapply chain_ext; [|exact Hcs]. intros s' Hs'. cbn [crashed put_file d_segs]. rewrite lookup_insert_ne; [done|].
    pose proof (in_map first_seq _ _ (proj1 (list_elem_of_In _ _) Hs')) as Hin. rewrite Efs in Hin.
    apply in_map_iff in Hin as (s1 & <- & Hs1). apply list_elem_of_In in Hs1. rewrite Hf.
    intros E. symmetry in E. revert E. eapply Z.lt_neq, chain_below; [exact Hc|apply (ji_older _ _ Hj)|done].
  - rewrite E7. case_bool_decide as Hnil; [|done]. destruct Hlog as [Hlog| ->]; [done|]. by rewrite Hnil.
Qed.
Lemma reopen_ok io j Lo rs n conf : jinv j (Lo ++ [rs]) → last_seq j + 1 < 2 ^ 64 → HEADER_LEN ≤ n → ∃ whole rest, rs = whole ++ rest ∧
  (∀ a b, rs = a ++ b → HEADER_LEN + len (seg_bytes a) ≤ n → ∃ c, whole = a ++ c) ∧
  (jlog (Lo ++ [whole]) ≠ [] ∨ oldest_seq j = 1 →
   ∃ j', open_ io (crashed n j) (j_keys j) conf = Ok j' ∧ jinv j' (Lo ++ [whole]) ∧ reopened j j').
Proof.
  intros Hj Hb Hn. destruct (jinv_last _ _ _ Hj) as (Hf & Hfile & Hs & Hg & Hc & Hl). pose proof (ji_first _ _ Hj) as H1.
  destruct (chain_log _ _ _ _ _ _ Hc) as [Hnum Hret]. pose proof (len_nonneg (jlog Lo)).
  destruct (cut_records _ _ rs (n - HEADER_LEN) Hg) as (whole & rest & tail & -> & Et & Htail & Hmax); [lia|].
  exists whole, rest. split; [done|]. split; [intros a b E Ha; apply (Hmax a b E); lia|]. intros Hlog.
  pose proof Hs as [_ [Hr Hq _]]. rewrite changes_app in Hq, Hr. apply numbered_app in Hq as [Hq _]. rewrite len_app in Hr.
  pose proof (len_nonneg (changes rest)). pose proof (len_nonneg (changes whole)). apply Forall_app in Hg as [Hg _].
  assert (d_segs (crashed n j) !! first_seq (active j) = Some (seg_header (j_id j) (first_seq (active j)) ++ seg_bytes whole ++ tail)) as Hd.
  { cbn [crashed put_file d_segs]. rewrite lookup_insert_eq. unfold seg_file. rewrite Hfile. cbn [from_option Datatypes.id]. f_equal.
    pose proof (seg_header_len (j_id j) (first_seq (active j))). rewrite take_app_ge by (unfold len in *; lia). rewrite <- Et. do 2 f_equal. unfold len in *. lia. }
  assert (chain (d_segs (crashed n j)) (j_keys j) (j_id j) (oldest_seq j) (older j) Lo) as Hc'.
  { apply chain_other; [|done]. intros s' Hs'. rewrite Hf. eapply Z.lt_neq, chain_below; [exact Hc|apply (ji_older _ _ Hj)|done]. }
  unfold open_. rewrite (crashed_names _ _ _ Hj). unfold segments. rewrite List.map_app. cbn [List.map].
  destruct (open_older (j_keys j) (j_id j) (crashed n j) [first_seq (active j)] ltac:(done) (ji_id _ _ Hj) (older j) (oldest_seq j) Lo None [] 0 None Hc')
    as (segs' & lp' & id1 & Hi1 & Hcs & Efs & Ers & ->); [lia|lia|by left|].
  destruct (open_one (j_keys j) [] id1 ([] ++ segs') (last_number 0 (jlog Lo)) lp' (crashed n j) (first_seq (active j)) (j_id j) whole tail Hd
    (ji_id _ _ Hj)) as (s & lp2 & Hsok & Hfs & ->); [unfold in_u; lia|done|done|done|done|by right|].
  cbn [open_segments mbind result_bind mret app]. rewrite (bool_decide_false (segs' ++ [s] = [])) by by destruct segs'.
  cbn [mbind result_bind]. rewrite last_snoc, removelast_last. cbn [ok_or mbind result_bind]. eexists. split; [done|].
  match goal with |- jinv ?j1 _ ∧ _ => refine (reopened_state j Lo whole rest s segs' n Hj Hsok Hfs Hcs Efs Ers Hlog j1 _ eq_refl eq_refl eq_refl eq_refl eq_refl eq_refl) end.
  cbn [dir].
  destruct (decide (tail = [])) as [->|Ht].
  - rewrite bool_decide_true by done. rewrite app_nil_r in Hd. cbn [crashed put_file d_segs] in Hd |- *. rewrite lookup_insert_eq in Hd. by injection Hd as ->.
  - rewrite bool_decide_false by done. cbn [crashed put_file d_segs]. apply insert_insert_eq.
Qed.

(** ** Changes whose data was lost *)
(** The record describes data of that file past its end. *)
Definition ahead (file_id data_len : Z) (r : Parsed) : bool := (p_file_id r =? file_id) && (data_len <? p_data_end r).
Definition kept (file_id data_len : Z) (x : LogRec) : bool := negb (ahead file_id data_len x.2).
Lemma keep_records_ok ks id file_id data_len rs k : Forall (good ks id) rs → k_cut k = false → ∃ a b pos,
  rs = a ++ b ∧ Forall (fun x => kept file_id data_len x = true) a ∧ match b with [] => True | x :: _ => kept file_id data_len x = false end ∧
  keep_records ks id file_id data_len (List.map fr rs) k =
  Ok {| k_len := k_len k + len (seg_bytes a); k_seq := last_number (k_seq k) (changes a); k_pos := pos; k_cut := negb (bool_decide (b = [])) |}.
Proof.
  intros Hg. revert k. induction Hg as [|x rs (_ & b & Hb & Hp) _ IH]; intros k Hk; cbn [List.map keep_records fr].
  { exists [], [], (k_pos k). split; [done|]. split; [constructor|]. split; [done|]. cbn. rewrite Z.add_0_r. destruct k. cbn in *. by rewrite Hk. }
  rewrite Hb. cbn [mbind result_bind]. rewrite Hp. fold (ahead file_id data_len x.2). destruct (ahead file_id data_len x.2) eqn:Ea.
  - exists [], (x :: rs), (k_pos k). split; [done|]. split; [constructor|]. split; [by unfold kept; rewrite Ea|]. cbn. by rewrite Z.add_0_r.
  - edestruct IH as (a & c & pos & -> & Ha & Hc & ->); [done|]. exists (x :: a), c, pos. split; [done|].
    split; [constructor; [by unfold kept; rewrite Ea|done]|]. split; [done|]. cbn [k_len k_seq]. rewrite seg_bytes_cons, len_app, framed_len.
    do 2 f_equal; [lia|]. change (x :: a) with ([x] ++ a). rewrite changes_app, last_number_app. f_equal.
    change (changes [x]) with (if is_change x.2 then [x.2] else []). unfold is_change. by destruct (_ =? KIND_MARK).
Qed.
Lemma indexed_cut s a b : indexed s (a ++ b) → 1 ≤ first_seq s →
  indexed (cut_segment {| k_len := HEADER_LEN + len (seg_bytes a); k_seq := last_number (Z.max 0 (first_seq s - 1)) (changes a); k_pos := None; k_cut := true |} s) a.
Proof.
  intros [_ Hq Hi] H1. rewrite changes_app in Hq. apply numbered_app in Hq as [Hq _].
  assert (last_number (Z.max 0 (first_seq s - 1)) (changes a) = first_seq s + len (changes a) - 1) as El.
  { rewrite (last_number_numbered _ _ _ Hq). case_bool_decide as Hn; [rewrite Hn; change (len []) with 0|]; lia. }
  split; cbn [records cut_segment first_seq k_seq s_index]; rewrite ?El; [lia|done|].
  apply Forall_forall. intros [q o] [Hin Hle]%elem_filter. cbn [fst] in Hle. apply Z.leb_le in Hle.
  rewrite Forall_forall in Hi. destruct (Hi _ Hin) as (Hge & a1 & b1 & E & Ho & Hlt). cbn [fst snd] in *. split; [done|].
  apply app_eq_app in E as [l [[-> Eb]|[-> Eb]]]; [by exists a1, l|]. exists a, []. rewrite app_nil_r. split; [done|].
  destruct (list_snoc_cases (changes a)) as [En|(c & r & En)]; [rewrite En in Hle; change (len []) with 0 in Hle; lia|].
  rewrite changes_app in Hlt. apply Forall_app in Hlt as [Hlt _]. exfalso. rewrite En in Hlt, Hq, Hle. apply numbered_app in Hq as [_ [Hr _]].
  apply Forall_app in Hlt as [_ Hlt%Forall_inv]. cbn in Hlt. rewrite len_app in Hle. change (len [r]) with 1 in Hle. lia.
Qed.

Lemma jinv_pop j o s Lo rs0 rs1 : jinv j ((Lo ++ [rs0]) ++ [rs1]) → older j = o ++ [s] → changes rs1 = [] →
  jinv (set_segs (drop_file (first_seq (active j)) (dir j)) o s (dirty j) j) (Lo ++ [rs0]) ∧
  oldest_seq (set_segs (drop_file (first_seq (active j)) (dir j)) o s (dirty j) j) = oldest_seq j.
Proof.
  intros Hj Eo E1. destruct (jinv_last _ _ _ Hj) as (Hf & _ & _ & _ & Hc & _). pose proof Hj as [_ Hl Hdir Hold H1 Hid].
  set (j' := set_segs _ _ _ _ _). assert (segments j' = older j) as Es by (unfold segments; cbn; by rewrite Eo).
  assert (oldest_seq j' = oldest_seq j) as Eold by (unfold oldest_seq; rewrite Es; unfold segments; rewrite Eo; by destruct o).
  rewrite Eo in Hold. apply Forall_app in Hold as [Ho Hs].
  assert (∀ s', s' ∈ older j → first_seq s' ≠ first_seq (active j)) as Hne.
  { intros s' Hs'. rewrite Hf. eapply Z.lt_neq, chain_below; [exact Hc| |exact Hs']. rewrite Eo. apply Forall_app. by split. }
  split; [|done]. split; rewrite ?Es, ?Eold; try done.
  - cbn [dir j' set_segs drop_file d_segs j_keys j_id]. by apply chain_delete.
  - cbn [last_seq j' set_segs]. rewrite Hl, jlog_app, (jlog_one rs1), E1, app_nil_r. done.
  - intros k [f Hk]. cbn [dir j' set_segs drop_file d_segs] in Hk. apply lookup_delete_Some in Hk as [Hk Hx].
    assert (is_Some (d_segs (dir j) !! k)) as Hx' by eauto. apply Hdir in Hx'. unfold segments in Hx'. rewrite List.map_app in Hx'.
    apply elem_of_app in Hx' as [Hx'|Hx']; [done|]. by apply list_elem_of_singleton in Hx'.
Qed.
(** Once a record describes lost data, those after it do too. *)
Definition lost_suffix (file_id data_len : Z) (l : list LogRec) : Prop :=
  ∀ a x b, l = a ++ x :: b → kept file_id data_len x = false → Forall (fun y => kept file_id data_len y = false) b.
Lemma lost_suffix_prefix file_id data_len a b : lost_suffix file_id data_len (a ++ b) → lost_suffix file_id data_len a.
Proof.
  intros Hl c x d -> Hx. specialize (Hl c x (d ++ b)). rewrite <- app_assoc in Hl. by apply Hl, Forall_app in Hx as [Hx _].
Qed.
Lemma lost_suffix_kept file_id data_len a x b : lost_suffix file_id data_len (a ++ x :: b) → kept file_id data_len x = true →
  Forall (fun y => kept file_id data_len y = true) a.
Proof.
  intros Hl Hx. apply Forall_forall. intros y Hy. apply list_elem_of_split in Hy as (a1 & a2 & ->).
  destruct (kept file_id data_len y) eqn:Ey; [done|]. rewrite <- app_assoc in Hl. apply (Hl a1 y (a2 ++ x :: b)) in Ey; [|done].
  apply Forall_app in Ey as [_ Ey%Forall_inv]. congruence.
Qed.
(** The segment being written, cut where the lost data begins. *)
Lemma cut_active j Lo a b : jinv j (Lo ++ [a ++ b]) → ∀ k, k_len k = HEADER_LEN + len (seg_bytes a) → k_seq k = last_number (Z.max 0 (first_seq (active j) - 1)) (changes a) →
  ∀ pos, jinv (set_pos (k_seq k) pos 0 (set_segs (put_file (first_seq (active j)) (take (Z.to_nat (k_len k)) (seg_file j (active j))) (dir j)) (older j)
    (cut_segment k (active j)) (dirty j) j)) (Lo ++ [a]) ∧ last_seq j - k_seq k = len (changes b).
Proof.
  intros Hj k El Ek pos. destruct (jinv_last _ _ _ Hj) as (Hf & Hfile & Hs & Hg & Hc & Hl). pose proof (ji_first _ _ Hj).
  destruct (chain_log _ _ _ _ _ _ Hc) as [_ Hret]. pose proof (len_nonneg (jlog Lo)).
  pose proof (sk_indexed _ _ Hs) as Hi. pose proof (indexed_cut _ _ _ Hi ltac:(lia)) as Hcut.
  assert (cut_segment k (active j) = cut_segment {| k_len := HEADER_LEN + len (seg_bytes a); k_seq := last_number (Z.max 0 (first_seq (active j) - 1)) (changes a);
    k_pos := None; k_cut := true |} (active j)) as Ec by (unfold cut_segment; cbn; by rewrite El, Ek).
  assert (take (Z.to_nat (k_len k)) (seg_file j (active j)) = seg_header (j_id j) (first_seq (active j)) ++ seg_bytes a) as ->.
  { unfold seg_file. rewrite Hfile, El. cbn [from_option Datatypes.id]. rewrite seg_bytes_app, app_assoc. apply take_app_len.
    pose proof (seg_header_len (j_id j) (first_seq (active j))). rewrite length_app. unfold len in *. lia. }
  pose proof (sk_records _ _ Hi) as Hr. rewrite changes_app, len_app in Hr. rewrite Ec. pose proof (sk_records _ _ Hcut) as Hr'. cbn [records cut_segment k_seq] in Hr'.
  rewrite <- Ek in Hr'. split; [|lia]. apply jinv_active with (rs := a ++ b); [done|done| | |].
  - split; [done|exact Hcut].
  - by apply Forall_app in Hg as [Hg _].
  - cbn [records cut_segment k_seq]. rewrite <- Ek. lia.
Qed.

Lemma body_bytes_ok j Lo rs : jinv j (Lo ++ [rs]) → records_of (body_bytes (seg_file j (active j))) = List.map fr rs ∧ Forall (good (j_keys j) (j_id j)) rs.
Proof.
  intros Hj. destruct (jinv_last _ _ _ Hj) as (_ & Hfile & _ & Hg & _). unfold seg_file. rewrite Hfile. cbn [from_option Datatypes.id].
  unfold body_bytes. rewrite drop_header. split; [|done]. rewrite <- (app_nil_r (seg_bytes rs)). by eapply records_of_seg.
Qed.
Lemma chain_length d ks id n segs L : chain d ks id n segs L → length segs = length L.
Proof. revert n L. induction segs as [|s segs IH]; intros n [|rs L]; cbn [chain]; try done. intros (_ & _ & _ & _ & Hc). cbn. f_equal. by eapply IH. Qed.
Record kin (j j' : Journal) : Prop := {
  kn_conf : same_conf j j'; kn_broken : broken j' = broken j; kn_oldest : oldest_seq j' = oldest_seq j;
}.
(** One turn of the loop. *)
Lemma drop_step file_id data_len ro j Lo rs dropped : jinv j (Lo ++ [rs]) → lost_suffix file_id data_len rs →
  (Forall (fun x => kept file_id data_len x = true) rs ∧ drop_loop file_id data_len ro j dropped = (Ok dropped, j)) ∨
  ∃ a b j1, rs = a ++ b ∧ Forall (fun x => kept file_id data_len x = true) a ∧ b ≠ [] ∧ Forall (fun x => kept file_id data_len x = false) b ∧
    jinv j1 (Lo ++ [a]) ∧ older j1 = older j ∧ kin j j1 ∧
    drop_loop file_id data_len ro j dropped =
    match ro with
    | s :: ro =>
      if bool_decide (a = []) then
        drop_loop file_id data_len ro (set_segs (drop_file (first_seq (active j1)) (dir j1)) (rev ro) s (dirty j1) j1) (dropped + len (changes b))
      else (Ok (dropped + len (changes b)), j1)
    | [] => (Ok (dropped + len (changes b)), j1)
    end.
Proof.
  intros Hj Hlost. destruct (body_bytes_ok _ _ _ Hj) as [Eb Hg].
  edestruct (keep_records_ok (j_keys j) (j_id j) file_id data_len rs {| k_len := HEADER_LEN; k_seq := Z.max 0 (first_seq (active j) - 1); k_pos := None; k_cut := false |})
    as (a & b & pos & -> & Ha & Hb & E); [exact Hg|done|].
  destruct b as [|x b].
  - left. rewrite app_nil_r in *. split; [done|]. destruct ro; cbn [drop_loop]; rewrite Eb, E; done.
  - right. destruct (cut_active j Lo a (x :: b) Hj {| k_len := HEADER_LEN + len (seg_bytes a); k_seq := last_number (Z.max 0 (first_seq (active j) - 1)) (changes a);
      k_pos := pos; k_cut := true |} eq_refl eq_refl (match pos with Some p => Some p | None => last_pos j end)) as [Hj' Hlen].
    eexists a, (x :: b), _. split; [done|]. split; [done|]. split; [done|]. split; [constructor; [done|by apply (Hlost a x b)]|].
    split; [exact Hj'|]. split; [done|]. split.
    { split; [by split|done|]. unfold oldest_seq, segments. cbn. by destruct (older j). }
    assert ((HEADER_LEN + len (seg_bytes a) =? HEADER_LEN) = bool_decide (a = [])) as Ebd.
    { destruct (bool_decide_reflect (a = [])) as [->|Hn]; [done|]. apply Z.eqb_neq. intros El. apply Hn, seg_bytes_nil. lia. }
    destruct ro as [|s ro]; cbn [drop_loop]; rewrite Eb, E; cbn [k_cut negb bool_decide]; rewrite (bool_decide_false (x :: b = [])) by done;
      cbn [negb k_len k_seq k_pos] in *; rewrite Hlen; [done|]. rewrite Ebd. by destruct (bool_decide (a = [])).
Qed.
Lemma kin_refl j : kin j j.
Proof. by split. Qed.
Lemma kin_trans j1 j2 j3 : kin j1 j2 → kin j2 j3 → kin j1 j3.
Proof. intros [[] ? ?] [[] ? ?]. split; [split|..]; congruence. Qed.
Lemma lost_suffix_suffix file_id data_len a b : lost_suffix file_id data_len (a ++ b) → lost_suffix file_id data_len b.
Proof. intros Hl c x d -> Hx. by apply (Hl (a ++ c) x d); [rewrite app_assoc|]. Qed.
Lemma older_nil j Lo rs : jinv j (Lo ++ [rs]) → older j = [] → Lo = [].
Proof. intros Hj Ho. destruct (jinv_last _ _ _ Hj) as (_ & _ & _ & _ & Hc & _). rewrite Ho in Hc. by destruct Lo. Qed.
Lemma older_snoc j Lo rs o s : jinv j (Lo ++ [rs]) → older j = o ++ [s] → ∃ Lo' rs0, Lo = Lo' ++ [rs0] ∧ rs0 ≠ [].
Proof.
  intros Hj Ho. destruct (jinv_last _ _ _ Hj) as (_ & _ & _ & _ & Hc & _). pose proof (ji_older _ _ Hj) as Hp. rewrite Ho in Hc, Hp.
  apply chain_snoc in Hc as (Lo' & rs0 & -> & _ & Hs). exists Lo', rs0. split; [done|]. intros ->. apply Forall_app in Hp as [_ Hp%Forall_inv].
  cbn [chain] in Hs. destruct Hs as (_ & _ & Hs & _). rewrite (sk_records _ _ (sk_indexed _ _ Hs)) in Hp. by vm_compute in Hp.
Qed.
Lemma keep_all file_id data_len l x rs : lost_suffix file_id data_len (l ++ x :: rs) → Forall (fun x => kept file_id data_len x = true) (x :: rs) →
  List.filter (kept file_id data_len) l = l.
Proof. intros Hl Hk. apply Forall_inv in Hk. apply filter_all. by eapply lost_suffix_kept. Qed.
Lemma drop_loop_ok file_id data_len ro : ∀ j Lo rs dropped, jinv j (Lo ++ [rs]) → older j = rev ro → (rs ≠ [] ∨ ro = []) →
  lost_suffix file_id data_len (List.concat Lo ++ rs) → ∃ j' L',
  drop_loop file_id data_len ro j dropped = (Ok (dropped + (len (jlog (Lo ++ [rs])) - len (jlog L'))), j') ∧ jinv j' L' ∧
  List.concat L' = List.filter (kept file_id data_len) (List.concat Lo ++ rs) ∧ kin j j'.
Proof.
  assert (∀ (Lo : list (list LogRec)) a, List.concat (Lo ++ [a]) = List.concat Lo ++ a) as Ecat by (intros; rewrite List.concat_app; cbn; by rewrite app_nil_r).
  induction ro as [|s ro IH]; intros j Lo rs dropped Hj Ho Hne Hlost; rewrite filter_app_;
    match goal with |- context [drop_loop _ _ ?r j _] => destruct (drop_step file_id data_len r j Lo rs dropped Hj (lost_suffix_suffix _ _ _ _ Hlost))
      as [[Hk E]|(a & b & j1 & -> & Ha & Hb & Hnk & Hj1 & Ho1 & Hkin & E)] end; rewrite E; clear E.
  - pose proof (older_nil _ _ _ Hj Ho) as En. subst Lo. exists j, [rs]. rewrite (filter_all _ rs) by done. split; [do 2 f_equal; cbn; lia|].
    split; [done|]. split; [apply (Ecat [])|apply kin_refl].
  - pose proof (older_nil _ _ _ Hj Ho) as En. subst Lo. exists j1, [a]. rewrite filter_app_, (filter_all _ a), (filter_none _ b), app_nil_r by done.
    split; [|split; [done|split; [apply (Ecat [])|done]]]. cbn [app]. rewrite !jlog_one, changes_app, len_app. do 2 f_equal. lia.
  - destruct Hne as [Hne|]; [|done]. destruct rs as [|x rs]; [done|]. exists j, (Lo ++ [x :: rs]).
    rewrite (keep_all _ _ _ _ _ Hlost Hk), filter_all by done. split; [do 2 f_equal; lia|]. split; [done|]. split; [apply Ecat|apply kin_refl].
  - rewrite filter_app_, (filter_all _ a), (filter_none _ b), app_nil_r by done. rewrite app_assoc in Hlost. apply lost_suffix_prefix in Hlost.
    assert (len (jlog (Lo ++ [a ++ b])) = len (jlog (Lo ++ [a])) + len (changes b)) as El
      by (rewrite !jlog_app, !jlog_one, changes_app, !len_app; lia).
    destruct (bool_decide_reflect (a = [])) as [->|Hna].
    + cbn [rev] in Ho. destruct (older_snoc _ _ _ _ _ Hj Ho) as (Lo' & rs0 & -> & Hrs0).
      destruct (jinv_pop j1 (rev ro) s Lo' rs0 [] Hj1) as [Hj2 Eo2]; [by rewrite Ho1|done|]. rewrite app_nil_r, Ecat in Hlost.
      edestruct (IH _ Lo' rs0 (dropped + len (changes b)) Hj2 eq_refl (or_introl Hrs0) Hlost) as (j' & L' & -> & Hj' & Hc & Hk).
      exists j', L'. split; [|split; [done|split]].
      * rewrite El, (jlog_app _ [[]]). change (jlog [[]]) with (@nil Parsed). rewrite app_nil_r. do 2 f_equal. lia.
      * by rewrite app_nil_r, Ecat.
      * eapply kin_trans; [exact Hkin|]. eapply kin_trans; [|exact Hk]. split; [by split|done|done].
    + exists j1, (Lo ++ [a]). destruct a as [|x a]; [done|]. rewrite (keep_all _ _ _ _ _ Hlost Ha).
      split; [rewrite El; do 2 f_equal; lia|]. split; [done|]. split; [apply Ecat|done].
Qed.

(** ** Where the data file stood after the last record that names it *)
Definition names_file (file_id : Z) (x : LogRec) : bool := p_file_id x.2 =? file_id.
Definition last_end (file_id : Z) (l : list LogRec) : option Z := (fun x => p_data_end x.2) <$> last (List.filter (names_file file_id) l).
Lemma last_end_app file_id a b : last_end file_id (a ++ b) = match last_end file_id b with Some e => Some e | None => last_end file_id a end.
Proof. unfold last_end. rewrite filter_app_, last_app. by destruct (last (List.filter _ b)). Qed.
Lemma find_position_ok ks id file_id rs : Forall (good ks id) rs → ∀ found, find_position ks id file_id (List.map fr rs) found =
  Ok (match last_end file_id rs with Some e => Some e | None => found end).
Proof.
  induction 1 as [|x rs (_ & b & Hb & Hp) _ IH]; intros found; [done|]. cbn [List.map find_position fr]. rewrite Hb. cbn [mbind result_bind].
  rewrite Hp, IH. change (x :: rs) with ([x] ++ rs). rewrite last_end_app. destruct (last_end file_id rs); [done|].
  unfold last_end, names_file. cbn [List.filter]. by destruct (p_file_id x.2 =? file_id).
Qed.
Lemma chain_position j n o Lo : chain (d_segs (dir j)) (j_keys j) (j_id j) n o Lo → ∀ file_id, position_in j file_id (rev o) = Ok (last_end file_id (List.concat Lo)).
Proof.
  intros Hc file_id. revert Lo Hc. induction o as [|s o IH] using rev_ind; intros Lo Hc; [by destruct Lo|].
  apply chain_snoc in Hc as (L1 & rs & -> & Hc & Hn & Hf & _ & Hg & _). rewrite rev_app_distr. cbn [rev app position_in].
  unfold seg_file. rewrite Hn, Hf. cbn [from_option Datatypes.id]. unfold body_bytes. rewrite drop_header, <- (app_nil_r (seg_bytes rs)).
  rewrite (records_of_seg _ _ _ _ Hg frame_nil), find_position_ok by done. cbn [mbind result_bind].
  rewrite List.concat_app, last_end_app. cbn [List.concat]. rewrite app_nil_r. destruct (last_end file_id rs); [done|]. by apply IH.
Qed.
Lemma position_ok j L file_id : jinv j L → position_for file_id j = Ok (last_end file_id (List.concat L)).
Proof. intros Hj. eapply chain_position, ji_chain, Hj. Qed.
Lemma last_end_kept file_id data_len l e : last_end file_id (List.filter (kept file_id data_len) l) = Some e → e ≤ data_len.
Proof.
  unfold last_end. rewrite fmap_Some. intros (x & Hx & ->). apply last_Some_elem_of in Hx.
  apply elem_filter in Hx as [Hx Hn]. apply elem_filter in Hx as [_ Hk]. unfold kept, ahead, names_file in *. rewrite Hn in Hk.
  apply negb_true_iff in Hk. cbn [andb] in Hk. by apply Z.ltb_ge in Hk.
Qed.

(** The case that [reopen_ok] leaves out: the retention removed every change,
    the segment left holds marks only. Opened again, the journal numbers its
    changes from 1, although its only segment is named after a later number:
    the positions its readers hold are refused, and what is appended next has
    numbers below the oldest one it says it keeps. *)
Lemma restart_renumbers io j rs conf : jinv j ([] ++ [rs]) → changes rs = [] → 1 < oldest_seq j → last_seq j + 1 < 2 ^ 64 →
  ∃ j', open_ io (dir j) (j_keys j) conf = Ok j' ∧ last_seq j' = 0 ∧ oldest_seq j' = oldest_seq j ∧ 0 < last_seq j.
Proof.
  intros Hj Hc H1 Hb. destruct (jinv_last _ _ _ Hj) as (Hf & Hfile & Hs & Hg & Ho & Hl). pose proof (ji_chain _ _ Hj) as Hch.
  assert (older j = []) as Eo by (by destruct (older j)). rewrite Eo in Hf. cbn [retained foldr] in Hf. rewrite Z.add_0_r in Hf.
  assert (seg_names (dir j) = [first_seq (active j)]) as En.
  { apply seg_names_ok; [repeat constructor|]. intros k. pose proof (ji_dir _ _ Hj k) as Hd. unfold segments in Hd. rewrite Eo in Hd. split; [done|].
    intros Hk. apply list_elem_of_singleton in Hk as ->. by eexists. }
  pose proof (sk_records _ _ (sk_indexed _ _ Hs)) as Hr. rewrite Hc in Hr. change (len []) with 0 in Hr. rewrite <- (app_nil_r (seg_bytes rs)) in Hfile.
  destruct (open_one (j_keys j) [] None [] 0 None (dir j) _ (j_id j) rs [] Hfile (ji_id _ _ Hj)) as (s & lp & _ & Hfs & E);
    [unfold in_u; lia|done|by rewrite Hc|done|by left|by left|].
  unfold open_. rewrite En, E, bool_decide_true by done. cbn [open_segments mbind result_bind mret app].
  rewrite (bool_decide_false ([s] = [])) by done. cbn [last removelast ok_or mbind result_bind]. eexists. split; [done|].
  cbn [last_seq]. rewrite Hc. split; [done|]. split; [|lia]. change (first_seq s = oldest_seq j). by rewrite Hfs.
Qed.
End safe.
