(* ===== verification/JournalSpec.v ===== *)
(** * The change journal: what its readers are promised

    Histories of a journal, from its creation: appends, marks, syncs, the
    retention and the consumers, with writes that may fail. A reader that
    polls from a cursor gets the changes acknowledged after it, each once and
    in order; so it does after a crash and a restart, up to the records the
    crash cut. The two concrete runs at the end are what the code does when a
    write of the journal fails, and when the retention leaves no change. *)
From S2P Require Import Prelude Utf8 Util Maps Types Compress Format Crypt Journal JournalThm JournalSafe.
Open Scope Z_scope.

Inductive JOp :=
| JAppend (file_id : Z) (changes : list NewChange) (txn : bool)
| JMark (file_id data_end : Z)
| JSync
| JTrim (now_secs : Z)
| JAck (name : str) (seq now_secs : Z) (write_ok rename_ok : bool)
| JForget (name : str) (write_ok : bool).

Section spec.
  Context `{Aead} `{Crc}.

(** The changes an operation acknowledges, and the journal it leaves. *)
Definition jstep (io : JIo) (op : JOp) (j : Journal) : list Parsed * Journal :=
  match op with
  | JAppend file_id cs txn =>
    let '(r, j') := append io file_id cs txn j in
    (if is_ok r then new_bodies (settings j) file_id (last_seq j + 1) txn 0 cs else [], j')
  | JMark file_id data_end => ([], (mark io file_id data_end j).2)
  | JSync => ([], (sync io j).2)
  | JTrim now => ([], (trim now j).2)
  | JAck name seq now w r => ([], (ack w r name seq now j).2)
  | JForget name w => ([], (remove_consumer w name j).2)
  end.
Fixpoint jrun (h : list (JIo * JOp)) (j : Journal) : list Parsed * Journal :=
  match h with
  | [] => ([], j)
  | (io, op) :: h => let '(new, j) := jstep io op j in let '(more, j) := jrun h j in (new ++ more, j)
  end.

(** Arguments in the range of their types; a write that fails is undone. *)
Definition jop_ok (ks : option Keys) (x : JIo * JOp) : Prop :=
  io_ok x.1 ∧ nonces_ok ks x.1 ∧
  match x.2 with
  | JAppend file_id cs _ => in_u 64 file_id ∧ Forall change_ok cs
  | JMark file_id data_end => in_u 64 file_id ∧ in_u 64 data_end
  | _ => True
  end.
Definition jop_size (x : JIo * JOp) : Z := match x.2 with JAppend _ cs _ => len cs | _ => 0 end.
Definition jhist_size (h : list (JIo * JOp)) : Z := foldr (fun x n => jop_size x + n) 0 h.
Lemma jhist_size_nonneg h : 0 ≤ jhist_size h.
Proof. induction h as [|x h IH]; [done|]. cbn [jhist_size foldr]. fold (jhist_size h). unfold jop_size. destruct x.2; try lia. pose proof (len_nonneg changes). lia. Qed.

Context `{HL : !AeadLaws}.

(** The journal stands for the changes acknowledged so far, less those the
    retention removed. *)
Record stands (j : Journal) (ks : option Keys) (l : list Parsed) (L : list (list LogRec)) : Prop := {
  sd_inv : jinv j L;
  sd_keys : j_keys j = ks;
  sd_log : ∃ gone, l = gone ++ jlog L;
  sd_len : last_seq j = len l;
  sd_num : numbered 1 l;
}.
Lemma jinv_consumers d c j L : d_segs d = d_segs (dir j) → jinv j L → jinv (set_consumers d c j) L.
Proof. intros Ed []. split; cbn [set_consumers dir]; rewrite ?Ed; done. Qed.
Lemma jstep_ok ks io op j l L : stands j ks l L → jop_ok ks (io, op) → last_seq j + 1 + jop_size (io, op) ≤ 2 ^ 64 →
  ∃ L', stands (jstep io op j).2 ks (l ++ (jstep io op j).1) L' ∧ len (jstep io op j).1 ≤ jop_size (io, op) ∧ evolves j L (jstep io op j).2 L'.
Proof.
  intros [Hj Hk [gone Hl] Hn Hnum] (Hio & Hno & Hop) Hb. cbn [fst snd] in *. unfold jop_size in *. cbn [snd] in *.
  assert (∀ j', jinv j' L → j_keys j' = j_keys j → last_seq j' = last_seq j → active j' = active j →
    ∃ L', stands j' ks (l ++ []) L' ∧ len (@nil Parsed) ≤ 0 ∧ evolves j L j' L') as Hsame.
  { intros j' Hj' Ek El Ea. exists L. rewrite app_nil_r. split; [split; [done|congruence|eauto|congruence|done]|]. split; [done|by apply evolves_refl]. }
  destruct op as [file_id cs txn|file_id data_end| |now|name seq now w r|name w]; cbn [jstep].
  - destruct (append io file_id cs txn j) as [r j'] eqn:E. destruct Hop as [Hf Hc].
    destruct (journal_append_ok io file_id cs txn j L r j' Hj Hc Hf) as [[_ Ek _] (L' & Hj' & Hev & Hr)]; [by rewrite Hk|done|done|done|].
    exists L'. destruct r as [[]|e]; cbn [is_ok fst snd].
    + destruct Hr as (_ & Hlog & Hlast). split; [|by rewrite new_bodies_len]. rewrite Hl in *.
      split; [done|congruence|exists gone; by rewrite Hlog, app_assoc| |].
      * rewrite Hlast, Hn, !len_app, new_bodies_len. lia.
      * apply numbered_app. split; [done|]. pose proof (new_bodies_numbered (settings j) file_id (last_seq j + 1) txn cs 0) as Hnb.
        by rewrite Z.add_0_r, Hn, Z.add_comm in Hnb at 1.
    + destruct Hr as [Hlog Hlast]. rewrite app_nil_r. split; [|split; [apply len_nonneg|done]]. split; [done|congruence|exists gone; by rewrite Hlog|congruence|done].
  - destruct Hop as [Hf He]. destruct (mark io file_id data_end j) as [r j'] eqn:E.
    destruct (mark_ok _ _ _ _ _ _ _ Hj Hf He ltac:(by rewrite Hk) Hio ltac:(lia) E) as ([_ Ek _ Elast] & L' & Hj' & Hlog & Hev & _).
    exists L'. cbn [fst snd]. rewrite app_nil_r. split; [|done]. split; [done|congruence|exists gone; by rewrite Hlog|congruence|done].
  - destruct (sync io j) as [r j'] eqn:E. destruct (sync_ok _ _ _ _ _ Hj E) as (Hj' & [_ Ek _ Elast] & Es & _).
    unfold segments in Es. apply app_inj_tail in Es as [_ Ea]. by apply Hsame.
  - destruct (trim now j) as [n j'] eqn:E. destruct (trim_ok _ _ _ _ _ Hj E) as ([_ Ek _ Elast] & _ & more & L' & Hj' & Hlog & _ & Hev).
    exists L'. cbn [fst snd]. rewrite app_nil_r. split; [|done]. split; [done|congruence| |congruence|done]. exists (gone ++ more). by rewrite Hl, Hlog, app_assoc.
  - unfold ack. destruct (bool_decide _); [by apply Hsame|]. destruct (w && r); cbn [fst snd]; apply Hsame; try done; by apply jinv_consumers.
  - unfold remove_consumer. destruct (bool_decide _); [by apply Hsame|]. destruct w; cbn [fst snd]; apply Hsame; try done; by apply jinv_consumers.
Qed.
Lemma jrun_ok ks h : ∀ j l L, stands j ks l L → Forall (jop_ok ks) h → len l + 1 + jhist_size h ≤ 2 ^ 64 →
  ∃ L', stands (jrun h j).2 ks (l ++ (jrun h j).1) L' ∧ len (jrun h j).1 ≤ jhist_size h ∧ evolves j L (jrun h j).2 L'.
Proof.
  induction h as [|[io op] h IH]; intros j l L Hj Hh Hb; cbn [jrun jhist_size foldr] in *.
  { exists L. rewrite app_nil_r. split; [done|]. split; [done|]. by apply evolves_refl; [apply (sd_inv _ _ _ _ Hj)|..]. }
  fold (jhist_size h) in *. pose proof (jhist_size_nonneg h). apply Forall_cons in Hh as [Hop Hh].
  destruct (jstep_ok ks io op j l L Hj Hop) as (L1 & Hj1 & Hl1 & He1); [rewrite (sd_len _ _ _ _ Hj); lia|].
  destruct (jstep io op j) as [new j1]. cbn [fst snd] in *. destruct (IH j1 (l ++ new) L1 Hj1 Hh) as (L2 & Hj2 & Hl2 & He2); [rewrite len_app; lia|].
  destruct (jrun h j1) as [more j2]. cbn [fst snd] in *. exists L2. rewrite app_assoc, len_app. split; [done|]. split; [lia|]. by eapply evolves_trans.
Qed.

(** A new journal, in an empty folder. *)
Definition no_dir : Dir := {| d_segs := ∅; d_consumers := None |}.
Lemma new_journal io ks s id : io_id io = Some id → io_create io = true → in_u 64 id → ∃ j, open_ io no_dir ks s = Ok j ∧ stands j ks [] [[]] ∧ broken j = None.
Proof.
  intros Hid Hc Hu. unfold open_. change (seg_names no_dir) with (@nil Z). cbn [open_segments mbind result_bind]. rewrite Hid.
  cbn [ok_or mbind result_bind]. rewrite bool_decide_true by done. unfold new_segment. rewrite Hc. cbn [mbind result_bind ok_or last removelast].
  eexists. split; [reflexivity|]. split; [|done]. change (0 + 1) with 1. split; [|done|by exists []|done|done].
  split; [|done| |constructor|done|done].
  - unfold segments, oldest_seq, segments. cbn [older active app dir d_segs put_file no_dir chain j_id j_keys first_seq new_seg].
    split; [done|]. split; [by rewrite lookup_insert_eq, app_nil_r|]. split; [apply seg_ok_new|]. split; [constructor|done].
  - intros k [f Hf]. cbn [dir d_segs put_file no_dir] in Hf. apply lookup_insert_Some in Hf as [[<- _]|[_ Hf]]; [by left|done].
Qed.

Lemma stands_gone j ks l L : stands j ks l L → ∃ gone, l = gone ++ jlog L ∧ oldest_seq j = 1 + len gone.
Proof.
  intros [Hj _ [gone ->] Hn _]. exists gone. split; [done|]. pose proof (ji_last _ _ Hj) as Hl. rewrite len_app in Hn. lia.
Qed.
(** What is after a position that can still be read. *)
Lemma stands_todo j ks l L after : stands j ks l L → oldest_seq j ≤ after + 1 → todo after l = todo after (jlog L).
Proof.
  intros Hs Ho. destruct (stands_gone _ _ _ _ Hs) as (gone & -> & Eo). pose proof (sd_num _ _ _ _ Hs) as Hn.
  apply numbered_app in Hn as [Hn _]. rewrite todo_app, todo_none; [done|]. eapply Forall_impl; [apply numbered_bounds, Hn|]. cbn. lia.
Qed.
Lemma stands_poll j ks l L limit pattern after fuel : stands j ks l L → broken j = None → oldest_seq j ≤ after + 1 → after ≤ last_seq j →
  (length l < fuel)%nat → poll fuel j after limit pattern = Some (Ok (List.map into_change (List.filter (wanted pattern) (todo after l)))).
Proof.
  intros Hs Hb Ho Ha Hf. rewrite (stands_todo _ _ _ _ _ Hs Ho). apply poll_ok; try done; [apply Hs|].
  destruct (stands_gone _ _ _ _ Hs) as (gone & -> & _). rewrite length_app in Hf. unfold todo.
  assert (∀ (f : Parsed → bool) k, (length (List.filter f k) ≤ length k)%nat) as Hle.
  { intros f k. induction k as [|x k IH]; [done|]. cbn. destruct (f x); cbn; lia. }
  specialize (Hle (fun r => after <? p_seq r) (jlog L)). lia.
Qed.

Definition started (io : JIo) (ks : option Keys) (s : Settings) (j : Journal) : Prop :=
  io_create io = true ∧ (∃ id, io_id io = Some id ∧ in_u 64 id) ∧ open_ io no_dir ks s = Ok j.
Lemma started_stands io ks s j : started io ks s j → stands j ks [] [[]] ∧ broken j = None.
Proof. intros (Hc & (id & Hid & Hu) & E). destruct (new_journal io ks s id Hid Hc Hu) as (j' & E' & Hs). rewrite E in E'. by injection E' as <-. Qed.

(** Only a write of the journal that fails breaks it. *)
Lemma sync_broken io j : broken (sync io j).2 = broken j.
Proof. unfold sync. destruct (dirty j); [destruct (io_sync io)|]; done. Qed.
Lemma write_broken io buf offsets j : io_write io = None → broken (write io buf offsets j).2 = broken j.
Proof.
  intros Hw. unfold write. rewrite Hw. pose proof (sync_broken io j) as Hs. unfold rotate. destruct (_ && _); [|done].
  destruct (sync io j) as [[[]|e] j1]; [|exact Hs]. destruct (new_segment _ _ _ _) as [[seg d]|e]; exact Hs.
Qed.
Lemma jstep_broken io op j : io_write io = None → broken (jstep io op j).2 = broken j.
Proof.
  intros Hw. destruct op as [file_id cs txn|file_id e| |now|name seq now w r|name w]; cbn [jstep].
  - unfold append. destruct (last cs); [|done]. destruct (push_changes _ _ _ _ _ _ _ _ _) as [[buf offs]|]; [|done].
    pose proof (write_broken io buf offs j Hw) as Hb. destruct (write _ _ _ _) as [[[]|] j1]; exact Hb.
  - unfold mark. destruct (push_record _ _ _) as [buf|]; [|done].
    pose proof (write_broken io buf [] j Hw) as Hb. destruct (write _ _ _ _) as [[[]|] j1]; exact Hb.
  - apply sync_broken.
  - unfold trim. by destruct (trim_loop _ _ _ _ _ _) as [[o d] n].
  - unfold ack. destruct (bool_decide _); [done|]. by destruct (w && r).
  - unfold remove_consumer. destruct (bool_decide _); [done|]. by destruct w.
Qed.
Lemma jrun_broken h j : Forall (fun x => io_write x.1 = None) h → broken (jrun h j).2 = broken j.
Proof.
  intros Hh. revert j. induction Hh as [|[io op] h Hw _ IH]; intros j; [done|]. cbn [jrun]. pose proof (jstep_broken io op j Hw) as Hb.
  destruct (jstep io op j) as [new j1]. specialize (IH j1). destruct (jrun h j1) as [more j2]. cbn [snd] in *. congruence.
Qed.

(** C9: a reader of the change journal gets every change once. Take any
    history of appends, marks, syncs, removals by the retention and consumers
    since the journal was created, of storable changes, in which any operation
    may fail and a write that fails leaves nothing in the file (it is cut off).
    As long as no write of the journal failed, reading from a position that is
    still kept, then again from where each read ended until there is no more,
    gives exactly the changes the journal acknowledged after that position that
    match the pattern, in order; and it ends. Once a write failed the journal
    may be broken, and then every read is refused; failures of another kind (a
    sync, a new segment, the sealing of a record) do not break it. The changes
    acknowledged are numbered from 1 on, without a gap. *)
Theorem journal_poll_exact io ks s j0 h acked j after limit pattern :
  started io ks s j0 → Forall (jop_ok ks) h → 1 + jhist_size h ≤ 2 ^ 64 → jrun h j0 = (acked, j) →
  numbered 1 acked ∧ last_seq j = len acked ∧
  (Forall (fun x => io_write x.1 = None) h → broken j = None) ∧
  match broken j with
  | Some _ => ∃ why, read after limit pattern j = Err (ROther (Other why))
  | None =>
    oldest_seq j ≤ after + 1 → after ≤ last_seq j →
    poll (S (length acked)) j after limit pattern = Some (Ok (List.map into_change (List.filter (wanted pattern) (todo after acked))))
  end.
Proof.
  intros Hst Hh Hb E. destruct (started_stands _ _ _ _ Hst) as [Hs Hb0].
  destruct (jrun_ok ks h j0 [] [[]] Hs Hh ltac:(change (len []) with 0; lia)) as (L & Hj & _). rewrite E in Hj. cbn [fst snd app] in Hj.
  split; [apply Hj|]. split; [apply Hj|]. split; [intros Hw; pose proof (jrun_broken h j0 Hw) as Hk; rewrite E in Hk; cbn [snd] in Hk; congruence|].
  destruct (broken j) as [why|] eqn:Eb; [unfold read; rewrite Eb; by eexists|]. intros Ho Ha. eapply stands_poll; [exact Hj|done..|lia].
Qed.

Lemma crash_keeps ks j1 l1 Lo1 rs1 j2 Lo2 whole rest gone n : stands j1 ks l1 (Lo1 ++ [rs1]) → jinv j2 (Lo2 ++ [whole ++ rest]) →
  oldest_seq j2 = 1 + len gone → (first_seq (active j2) = first_seq (active j1) → s_len (active j1) ≤ n) →
  (∀ a b, whole ++ rest = a ++ b → HEADER_LEN + len (seg_bytes a) ≤ n → ∃ c, whole = a ++ c) →
  ((first_seq (active j2) = first_seq (active j1) ∧ ∃ more, whole ++ rest = rs1 ++ more) ∨ last_seq j1 < first_seq (active j2)) →
  len l1 ≤ len (gone ++ jlog Lo2 ++ changes whole).
Proof.
  intros Hs1 Hj2 Eo Hsync Hmax Hev. pose proof (sd_inv _ _ _ _ Hs1) as Hj1.
  destruct (jinv_last _ _ _ Hj1) as (_ & _ & Hok1 & _ & _ & Hl1). destruct (jinv_last _ _ _ Hj2) as (Hf2 & _ & _ & _ & Hc2 & _).
  apply chain_log in Hc2 as [_ Hret]. rewrite !len_app. pose proof (sd_len _ _ _ _ Hs1) as Hlen1. pose proof (len_nonneg (changes whole)).
  destruct Hev as [[Ef [more Em]]|Hlt]; [|lia]. destruct (Hmax rs1 more Em) as [c ->].
  { rewrite <- (sk_len _ _ Hok1). by apply Hsync. }
  rewrite changes_app, len_app. pose proof (sk_records _ _ (sk_indexed _ _ Hok1)). pose proof (len_nonneg (changes c)). lia.
Qed.
(** C10: the changes of a journal survive a crash. Let [j1] be the journal at
    some moment, and [j2] after more operations; a crash then leaves [n] bytes
    of the segment being written, at least those it had at [j1] if it is the
    same (they had been synced; the segments before it are synced when another
    is started). Opening the journal again gives all the changes acknowledged
    up to [j1], and of those after it the first ones, to a reader that polls:
    unless no change at all is left in a journal whose first ones were removed. *)
Theorem journal_crash io ks s j0 h1 h2 acked1 acked2 j1 j2 n io' s' :
  started io ks s j0 → Forall (jop_ok ks) (h1 ++ h2) → 2 + jhist_size (h1 ++ h2) ≤ 2 ^ 64 →
  jrun h1 j0 = (acked1, j1) → jrun h2 j1 = (acked2, j2) →
  HEADER_LEN ≤ n → (first_seq (active j2) = first_seq (active j1) → s_len (active j1) ≤ n) →
  ∃ kept lost, acked1 ++ acked2 = kept ++ lost ∧ len acked1 ≤ len kept ∧
  (oldest_seq j2 ≤ len kept ∨ oldest_seq j2 = 1 →
   ∃ j', open_ io' (crashed n j2) ks s' = Ok j' ∧ last_seq j' = len kept ∧ oldest_seq j' = oldest_seq j2 ∧
   ∀ after limit pattern, oldest_seq j2 ≤ after + 1 → after ≤ len kept →
   poll (S (length kept)) j' after limit pattern = Some (Ok (List.map into_change (List.filter (wanted pattern) (todo after kept))))).
Proof.
  intros Hst Hh Hb E1 E2 Hn Hsync. apply Forall_app in Hh as [Hh1 Hh2]. destruct (started_stands _ _ _ _ Hst) as [Hs _].
  assert (jhist_size (h1 ++ h2) = jhist_size h1 + jhist_size h2) as Eh.
  { unfold jhist_size. clear. induction h1 as [|x h1 IH]; [done|]. cbn [app foldr]. rewrite IH. lia. }
  pose proof (jhist_size_nonneg h1). pose proof (jhist_size_nonneg h2).
  destruct (jrun_ok ks h1 j0 [] [[]] Hs Hh1 ltac:(change (len []) with 0; lia)) as (L1 & Hj1 & Hl1 & _). rewrite E1 in Hj1, Hl1. cbn [fst snd app] in Hj1, Hl1.
  destruct (jrun_ok ks h2 j1 acked1 L1 Hj1 Hh2 ltac:(lia)) as (L2 & Hj2 & Hl2 & Hev). rewrite E2 in Hj2, Hl2, Hev. cbn [fst snd] in Hj2, Hl2, Hev.
  destruct Hev as (Hle & Lo1 & rs1 & Lo2 & rs2 & -> & -> & Hev). pose proof (sd_inv _ _ _ _ Hj2) as Hi2. pose proof (sd_inv _ _ _ _ Hj1) as Hi1.
  destruct (stands_gone _ _ _ _ Hj2) as (gone & El & Eo). pose proof (sd_len _ _ _ _ Hj2) as Hlen2. rewrite len_app in Hlen2.
  destruct (reopen_ok io' j2 Lo2 rs2 n s' Hi2 ltac:(lia) Hn) as (whole & rest & -> & Hmax & Hopen).
  exists (gone ++ jlog (Lo2 ++ [whole])), (changes rest). rewrite !jlog_app, !jlog_one, changes_app in El. rewrite (jlog_app Lo2), (jlog_one whole).
  split; [by rewrite El, <- !app_assoc|]. split; [by eapply crash_keeps|].
  intros Hk. pose proof (ji_first _ _ Hi2) as Hfirst. destruct Hopen as (j' & Ej & Hj' & [Hid Hks Hold Hbr]).
  { destruct Hk as [Hk|Hk]; [left|by right]. rewrite jlog_app, jlog_one. intros En. rewrite En, app_nil_r in Hk. lia. }
  exists j'. rewrite (sd_keys _ _ _ _ Hj2) in Ej. split; [done|].
  assert (stands j' ks (gone ++ jlog (Lo2 ++ [whole])) (Lo2 ++ [whole])) as Hs'.
  { split; [done|by rewrite Hks, (sd_keys _ _ _ _ Hj2)|by exists gone| |].
    - rewrite (ji_last _ _ Hj'), Hold, Eo, len_app. lia.
    - pose proof (sd_num _ _ _ _ Hj2) as Hnum. rewrite El, !app_assoc in Hnum. apply numbered_app in Hnum as [Hnum _].
      by rewrite jlog_app, jlog_one, app_assoc. }
  rewrite jlog_app, jlog_one in Hs'. pose proof (sd_len _ _ _ _ Hs') as Hlen'.
  split; [done|]. split; [done|]. intros after limit pattern Ho Ha. eapply stands_poll; [exact Hs'|done|lia|lia|lia].
Qed.

(** ** Cursors *)
Lemma hex_value_encode bs : all_bytes bs → hex_value (hex_encode bs) = be_val bs.
Proof.
  intros Hb. unfold hex_value. induction bs as [|b bs IH] using rev_ind; [done|]. apply Forall_app in Hb as [Hbs Hb%Forall_inv].
  unfold hex_encode in *. rewrite flat_map_app, fold_left_app, IH by done. cbn [flat_map app fold_left].
  destruct (hex_digits_ok b Hb) as (H1 & H2 & H3 & _). rewrite H1, H2. cbn [default from_option].
  unfold be_val. rewrite rev_app_distr. cbn [rev app le_val].
  rewrite lor_shiftl_add in H3 by (lia || (change 15 with (Z.ones 4); rewrite Z.land_ones by lia; apply Z.mod_pos_bound; lia)).
  change (2 ^ 4) with 16 in H3. cbn [Datatypes.id]. lia.
Qed.
Lemma hex_chars bs : all_bytes bs → Forall (fun c => is_whitespace c = false ∧ is_ascii_hexdigit c = true) (hex_encode bs).
Proof.
  induction 1 as [|b bs Hb _ IH]; [constructor|]. rewrite hex_encode_cons. destruct (hex_digits_ok b Hb) as (H1 & H2 & _).
  assert (∀ i, is_byte i → is_whitespace (nth (Z.to_nat (Z.land i 15)) HEX 0) = false ∧ is_whitespace (nth (Z.to_nat (Z.shiftr i 4)) HEX 0) = false) as Hw.
  { intros i Hi. assert (negb (is_whitespace (nth (Z.to_nat (Z.land i 15)) HEX 0)) && negb (is_whitespace (nth (Z.to_nat (Z.shiftr i 4)) HEX 0)) = true) as Hall.
    { apply (byte_forall (fun i => negb (is_whitespace (nth (Z.to_nat (Z.land i 15)) HEX 0)) && negb (is_whitespace (nth (Z.to_nat (Z.shiftr i 4)) HEX 0)))); [by vm_compute|done]. }
    apply andb_true_iff in Hall as [?%negb_true_iff ?%negb_true_iff]. done. }
  destruct (Hw b Hb). constructor; [|constructor; [|done]]; (split; [done|]); unfold is_ascii_hexdigit; apply bool_decide_eq_true; [rewrite H1|rewrite H2]; eauto.
Qed.
(** A cursor given out by a journal is read back by it as the position it
    stands for, and by no other journal. *)
Theorem cursor_roundtrip j j' seq : in_u 64 (j_id j) → in_u 64 seq → seq ≤ last_seq j' →
  parse_cursor j' (cursor (j_id j) seq) = Ok seq ↔ j_id j' = j_id j.
Proof.
  intros Hi Hs Hl. unfold parse_cursor, cursor. set (a := hex_encode (be_bytes 8 (j_id j))). set (b := hex_encode (be_bytes 8 seq)).
  pose proof (hex_chars _ (be_bytes_all 8 (j_id j))) as Ha. pose proof (hex_chars _ (be_bytes_all 8 seq)) as Hb. fold a in Ha. fold b in Hb.
  assert (Forall (fun c => is_whitespace c = false ∧ is_ascii_hexdigit c = true) (a ++ b)) as Hab by by apply Forall_app.
  rewrite trim_none by (eapply Forall_impl; [exact Hab|by intros ? []]).
  assert (length a = 16%nat ∧ length b = 16%nat) as [La Lb] by (unfold a, b; by rewrite !hex_encode_length, !be_bytes_length).
  assert (str_len (a ++ b) = 32) as ->.
  { unfold str_len. rewrite utf8_ascii; [unfold len; rewrite length_app; lia|]. apply Forall_app. split; apply hex_encode_ascii, be_bytes_all. }
  assert (forallb is_ascii_hexdigit (a ++ b) = true) as -> by (apply forallb_forall; intros c Hc; rewrite List.Forall_forall in Hab; by apply Hab).
  cbn [negb orb Z.eqb Pos.eqb]. rewrite take_app_len, drop_app_len by done. unfold a, b. rewrite !hex_value_encode by apply be_bytes_all.
  rewrite !be_val_be_bytes. change (256 ^ Z.of_nat 8) with (2 ^ 64). rewrite !Z.mod_small by done.
  destruct (Z.eqb_spec (j_id j) (j_id j')) as [E|E]; cbn [negb]; [|by split; [|intros]]. rewrite ltb_f by done. by split.
Qed.

(** Once the data file was found to end at [data_len], the journal keeps
    exactly the records that do not describe data past that end, over as many
    segments as it takes, and says how many changes it dropped; what it then
    gives as the position to rebuild from is within the data file. The records
    that describe lost data are the last ones, and the segment being written
    holds one record at least. *)
Theorem drop_after_exact j Lo rs file_id data_len : jinv j (Lo ++ [rs]) → (rs ≠ [] ∨ older j = []) →
  lost_suffix file_id data_len (List.concat (Lo ++ [rs])) →
  ∃ n j' L', drop_after file_id data_len j = (Ok n, j') ∧ jinv j' L' ∧
  List.concat L' = List.filter (kept file_id data_len) (List.concat (Lo ++ [rs])) ∧ n = len (jlog (Lo ++ [rs])) - len (jlog L') ∧
  oldest_seq j' = oldest_seq j ∧ ∃ pos, position_for file_id j' = Ok pos ∧ ∀ e, pos = Some e → e ≤ data_len.
Proof.
  intros Hj Hne Hlost. assert (List.concat (Lo ++ [rs]) = List.concat Lo ++ rs) as Ec by (rewrite List.concat_app; cbn; by rewrite app_nil_r).
  rewrite Ec in *. destruct (drop_loop_ok file_id data_len (rev (older j)) j Lo rs 0 Hj) as (j' & L' & E & Hj' & Hc & [_ _ Ho]); [by rewrite rev_involutive| |done|].
  { destruct Hne as [?| ->]; [by left|by right]. }
  eexists _, j', L'. split; [exact E|]. split; [done|]. split; [done|]. split; [lia|]. split; [done|].
  rewrite (position_ok _ _ _ Hj'). eexists. split; [done|]. intros e He. rewrite Hc in He. by eapply last_end_kept.
Qed.
End spec.

(** ** A journal to evaluate *)
Definition sample_settings : Settings := {| values := true; retain_secs := 3600; max_bytes := 4096 |}.
Definition sample_io : JIo := {| io_id := Some 77; io_nonce := fun _ => None; io_sync := true; io_create := true; io_write := None |}.
Definition failing_io : JIo := {| io_id := Some 77; io_nonce := fun _ => None; io_sync := true; io_create := true; io_write := Some [] |}.
Definition sample_change (key : String.string) (data_end : Z) : NewChange := {|
  n_kind := KSet; n_key := lit key; n_ty := 1; n_raw := [49]; n_enc := EncJson; n_timestamp := 100; n_expires_at := 0;
  n_created := Some true; n_data_end := data_end |}.
Lemma sample_change_ok key data_end : Forall is_ascii (lit key) → in_u 16 (len (lit key)) → in_u 64 data_end → change_ok (sample_change key data_end).
Proof.
  intros Ha Hk Hd. split; cbn [n_key n_timestamp n_expires_at n_data_end n_raw sample_change]; try done.
  - unfold str_len. by rewrite utf8_ascii.
  - by apply ascii_valid.
Qed.
Definition sample_journal : Journal :=
  match open_ sample_io no_dir None sample_settings with
  | Ok j => j
  | Err _ => {| dir := no_dir; j_id := 0; settings := sample_settings; j_keys := None; older := []; active := new_seg 1; last_seq := 0;
                dirty := false; last_pos := None; consumers := ∅; broken := None; written := 0; read_synced := 0 |}
  end.
Lemma sample_started : started sample_io None sample_settings sample_journal.
Proof. split; [done|]. split; [by exists 77|]. by vm_compute. Qed.
Definition sample_history : list (JIo * JOp) :=
  [(sample_io, JMark 7 16); (sample_io, JAppend 7 [sample_change "a" 40] false);
   (sample_io, JAppend 7 [sample_change "b" 60; sample_change "c" 80] true); (sample_io, JSync); (sample_io, JTrim 200)].
Definition later_history : list (JIo * JOp) := [(sample_io, JAppend 7 [sample_change "d" 95] false)].
Lemma sample_op io file_id cs txn : io_ok io → nonces_ok None io → in_u 64 file_id → Forall change_ok cs → jop_ok None (io, JAppend file_id cs txn).
Proof. done. Qed.
Ltac sample_changes := repeat (constructor; [apply sample_change_ok; [repeat constructor; by vm_compute|by vm_compute|by vm_compute]|]); constructor.
Lemma sample_history_ok : Forall (jop_ok None) (sample_history ++ later_history).
Proof. repeat constructor; try done; try (by vm_compute); sample_changes. Qed.

Lemma journal_poll_exact_witness :
  Forall (jop_ok None) sample_history ∧
  List.map c_key <$> (poll 4 (jrun sample_history sample_journal).2 1 1 None ≫= fun r => match r with Ok l => Some l | Err _ => None end)
  = Some [lit "b"; lit "c"].
Proof.
  assert (Forall (jop_ok None) sample_history) as Hh by (apply (Forall_app _ _ later_history), sample_history_ok). split; [done|].
  pose proof (journal_poll_exact sample_io None sample_settings sample_journal sample_history (jrun sample_history sample_journal).1
    (jrun sample_history sample_journal).2 1 1 None sample_started Hh ltac:(by vm_compute) (surjective_pairing _)) as (_ & _ & _ & E).
  assert (broken (jrun sample_history sample_journal).2 = None) as Eb by by vm_compute. rewrite Eb in E. specialize (E ltac:(by vm_compute) ltac:(by vm_compute)).
  assert (length (jrun sample_history sample_journal).1 = 3%nat) as El by by vm_compute. rewrite El in E. rewrite E. by vm_compute.
Defined.

(** The crash leaves the last record cut. *)
Lemma journal_crash_witness :
  Forall (jop_ok None) (sample_history ++ later_history) ∧
  ∃ j', open_ sample_io (crashed 300 (jrun later_history (jrun sample_history sample_journal).2).2) None sample_settings = Ok j' ∧ 3 ≤ last_seq j'.
Proof.
  split; [apply sample_history_ok|].
  destruct (journal_crash sample_io None sample_settings sample_journal sample_history later_history (jrun sample_history sample_journal).1
    (jrun later_history (jrun sample_history sample_journal).2).1 (jrun sample_history sample_journal).2
    (jrun later_history (jrun sample_history sample_journal).2).2 300 sample_io sample_settings sample_started sample_history_ok ltac:(by vm_compute)
    (surjective_pairing _) (surjective_pairing _) ltac:(by vm_compute) ltac:(by vm_compute)) as (kept & lost & _ & Hl & Hk).
  destruct Hk as (j' & Ho & Hn & _); [right; by vm_compute|]. exists j'. split; [exact Ho|]. rewrite Hn. revert Hl.
  assert (len (jrun sample_history sample_journal).1 = 3) as -> by by vm_compute. done.
Defined.

Definition other_journal : Journal := {| dir := no_dir; j_id := 78; settings := sample_settings; j_keys := None; older := []; active := new_seg 1; last_seq := 9;
  dirty := false; last_pos := None; consumers := ∅; broken := None; written := 0; read_synced := 0 |}.
Lemma cursor_roundtrip_witness :
  in_u 64 (j_id sample_journal) ∧ in_u 64 5 ∧ 5 ≤ last_seq other_journal ∧ parse_cursor other_journal (cursor (j_id sample_journal) 5) ≠ Ok 5.
Proof.
  assert (in_u 64 (j_id sample_journal)) as H1 by by vm_compute. assert (in_u 64 5) as H2 by by vm_compute.
  assert (5 ≤ last_seq other_journal) as H3 by by vm_compute. split; [exact H1|]. split; [exact H2|]. split; [exact H3|].
  intros E. apply (cursor_roundtrip sample_journal other_journal 5 H1 H2 H3) in E. by vm_compute in E.
Defined.

(** Four records of one segment: where the journal began, then three changes. *)
Definition sample_records : list LogRec := List.map (fun p => (body p, p))
  (mark_body 0 7 16 :: new_bodies sample_settings 7 1 false 0 [sample_change "a" 40] ++
   new_bodies sample_settings 7 2 true 0 [sample_change "b" 60; sample_change "c" 80]).
Definition filled_journal : Journal := (jrun sample_history sample_journal).2.
Lemma filled_inv : jinv filled_journal ([] ++ [sample_records]).
Proof.
  split; [|by vm_compute| |by vm_compute|by vm_compute|by vm_compute].
  - split; [by vm_compute|]. split; [by vm_compute|]. split.
    + split; [by vm_compute|]. split; [by vm_compute|by vm_compute|].
      assert (s_index (active filled_journal) = [(1, 24 + 61)]) as -> by by vm_compute. constructor; [|constructor]. split; [by vm_compute|].
      exists (take 1 sample_records), (drop 1 sample_records). split; [by rewrite take_drop|]. split; [by vm_compute|constructor].
    + split; [|done]. repeat (constructor; [split; [by vm_compute|eexists; split; [reflexivity|by vm_compute]]|]). constructor.
  - intros k. assert (dom (d_segs (dir filled_journal)) = {[1]}) as Ed by by vm_compute.
    intros Hk. apply elem_of_dom in Hk. rewrite Ed in Hk. apply elem_of_singleton in Hk as ->. by left.
Qed.
Lemma drop_after_exact_witness :
  lost_suffix 7 50 (List.concat ([] ++ [sample_records])) ∧ ∃ n j', drop_after 7 50 filled_journal = (Ok n, j') ∧ oldest_seq j' = 1.
Proof.
  assert (lost_suffix 7 50 (List.concat ([] ++ [sample_records]))) as Hl.
  { intros a x b E Hx. do 4 (destruct a as [|? a]; [injection E as <- <-; try (by vm_compute in Hx); repeat constructor; by vm_compute|]; injection E as <- E).
    by destruct a. }
  assert (older filled_journal = []) as Ho by by vm_compute. split; [exact Hl|].
  destruct (drop_after_exact filled_journal [] sample_records 7 50 filled_inv (or_intror Ho) Hl) as (n & j' & L' & E & _ & _ & _ & Hold & _).
  exists n, j'. split; [exact E|]. rewrite Hold. by vm_compute.
Defined.

(** A change that the journal could not write is never seen by its readers,
    whereas the journal says it refuses reads until a restart rebuilds it. The
    write of [b] fails; [c] is then written, which nothing prevents, and says
    that the journal is up to the end of its data. After a restart the journal
    is read again, [c] follows [a], and the position to rebuild from is past
    the data of [b]. *)
Theorem journal_failed_append_lost :
  let h := [(sample_io, JAppend 7 [sample_change "a" 40] false); (failing_io, JAppend 7 [sample_change "b" 60] false);
            (sample_io, JAppend 7 [sample_change "c" 80] false)] in
  let j := (jrun h sample_journal).2 in
  broken j = Some "{e}"%string ∧
  match open_ sample_io (dir j) None sample_settings with
  | Ok j' =>
    broken j' = None ∧ position_for 7 j' = Ok (Some 80) ∧
    match read 0 10 None j' with
    | Ok b => List.map (fun c => (c_key c, c_seq c)) (b_changes b) = [(lit "a", 1); (lit "c", 2)] ∧ b_more b = false
    | Err _ => False
    end
  | Err _ => False
  end.
Proof. split; by vm_compute. Qed.
