(* ===== verification/Failover.v ===== *)
(** * [src/failover.rs]: automatic failover

    One node: its answers to the other nodes ([handle]) and its attempt to
    replace a silent master ([elect]), with what the other nodes answer as an
    argument. Then the group: elections, votes and promotions as a step
    relation, in which a vote is decided and recorded in two steps, the safety
    of the election when a node votes one at a time, and the two masters of
    one epoch that votes which overlap allow.
    Time is an input: [n_quiet] says that nothing was heard from the master for
    [failover.down_after_ms]. *)
From stdpp Require Import pretty.
From S2P Require Import Prelude Utf8 Util Maps.
Open Scope Z_scope.

(** A majority of [nodes], unless [configured] says otherwise. *)
Definition needed (nodes configured : Z) : Z := if 0 <? configured then configured else nodes / 2 + 1.

(** ** The candidates *)
Record Candidate := { addr : str; seq : Z; priority : Z }.
#[export] Instance Candidate_eq : EqDecision Candidate.
Proof. solve_decision. Defined.

(** The order of [best]: the stream position, then the priority, then the smallest address. *)
Definition cand_leb (a b : Candidate) : bool :=
  (seq a <? seq b) || ((seq a =? seq b) &&
    ((priority a <? priority b) || ((priority a =? priority b) && str_leb (addr b) (addr a)))).
(** [max_by]: the last of the greatest. *)
Definition max_by (best : option Candidate) (c : Candidate) : option Candidate :=
  match best with
  | None => Some c
  | Some b => if cand_leb b c then Some c else Some b
  end.
Definition best (candidates : list Candidate) : option Candidate :=
  List.fold_left max_by (List.filter (fun c => 0 <? priority c) candidates) None.

(** Whether a node grants its vote. *)
Definition grants (epoch voted request_epoch : Z) (master_down : bool) (own_seq candidate_seq : Z) : bool :=
  (epoch <? request_epoch) && (voted <? request_epoch) && master_down && (own_seq <=? candidate_seq).

(** ** Addresses *)
Fixpoint rsplit_once (c : Z) (s : str) : option (str * str) :=
  match s with
  | [] => None
  | x :: s' =>
    match rsplit_once c s' with
    | Some (a, b) => Some (x :: a, b)
    | None => if x =? c then Some ([], s') else None
    end
  end.
Definition is_bracket (c : Z) : bool := (c =? chr "[") || (c =? chr "]").
Fixpoint trim_start (f : Z → bool) (s : str) : str :=
  match s with [] => [] | c :: s' => if f c then trim_start f s' else s end.
Definition trim_matches (f : Z → bool) (s : str) : str := rev (trim_start f (rev (trim_start f s))).
(** [u16::from_str] *)
Fixpoint digits_value (acc : Z) (s : str) : option Z :=
  match s with
  | [] => Some acc
  | c :: s => if (chr "0" <=? c) && (c <=? chr "9") then digits_value (acc * 10 + (c - chr "0")) s else None
  end.
Definition parse_u16 (s : str) : option Z :=
  let d := match s with c :: s' => if c =? chr "+" then s' else s | [] => [] end in
  match d with
  | [] => None
  | _ => n ← digits_value 0 d; if n <=? u16_max then Some n else None
  end.
Definition host_port (a : str) : option (str * Z) :=
  '(h, p) ← rsplit_once (chr ":") a;
  port ← parse_u16 p;
  if port =? 0 then None else Some (trim_matches is_bracket h, port).
Definition show_addr (host : str) (port : Z) : str := host ++ lit ":" ++ lit (pretty (Z.to_N port)).

(** ** One node *)
Record Node := {
  n_id : str;
  n_addr : str;          (* advertised *)
  n_epoch : Z;
  n_voted : Z;
  n_replica : bool;
  n_master : str;        (* of the link *)
  n_running : bool;      (* of the link *)
  n_applied : Z;         (* of the link: the master's stream applied so far *)
  n_seq : Z;             (* its own stream *)
  n_quiet : bool;
  n_auto : bool;
  n_quorum : Z;
  n_priority : Z;
  n_peers : list str;
}.

Definition set_epoch (e : Z) (n : Node) : Node := {|
  n_id := n_id n; n_addr := n_addr n; n_epoch := Z.max (n_epoch n) e; n_voted := n_voted n; n_replica := n_replica n;
  n_master := n_master n; n_running := n_running n; n_applied := n_applied n; n_seq := n_seq n; n_quiet := n_quiet n;
  n_auto := n_auto n; n_quorum := n_quorum n; n_priority := n_priority n; n_peers := n_peers n |}.
Definition set_voted (e : Z) (n : Node) : Node := {|
  n_id := n_id n; n_addr := n_addr n; n_epoch := n_epoch n; n_voted := e; n_replica := n_replica n;
  n_master := n_master n; n_running := n_running n; n_applied := n_applied n; n_seq := n_seq n; n_quiet := n_quiet n;
  n_auto := n_auto n; n_quorum := n_quorum n; n_priority := n_priority n; n_peers := n_peers n |}.
(** [start_replica]: a new link, of which nothing was applied yet. *)
Definition start_replica (host : str) (port : Z) (n : Node) : Node := {|
  n_id := n_id n; n_addr := n_addr n; n_epoch := n_epoch n; n_voted := n_voted n; n_replica := true;
  n_master := show_addr host port; n_running := true; n_applied := 0; n_seq := n_seq n; n_quiet := n_quiet n;
  n_auto := n_auto n; n_quorum := n_quorum n; n_priority := n_priority n; n_peers := n_peers n |}.
(** [promote]: the link stops, the node takes writes. *)
Definition promote (n : Node) : Node := {|
  n_id := n_id n; n_addr := n_addr n; n_epoch := n_epoch n; n_voted := n_voted n; n_replica := false;
  n_master := n_master n; n_running := false; n_applied := n_applied n; n_seq := n_seq n; n_quiet := n_quiet n;
  n_auto := n_auto n; n_quorum := n_quorum n; n_priority := n_priority n; n_peers := n_peers n |}.

(** Whether this replica has not heard from its master for too long. *)
Definition master_silent (n : Node) : bool := n_replica n && n_running n && n_quiet n.

Definition follow_new_master (master : str) (epoch : Z) (n : Node) : Node :=
  match host_port master with
  | None => n
  | Some (host, port) =>
    let n := set_epoch epoch n in
    if n_replica n && bool_decide (n_master n = master) then n else start_replica host port n
  end.

(** *** Requests of the other nodes *)
Inductive Request :=
| Probe
| Vote (epoch s : Z) (candidate : str)
| Announce (epoch : Z) (master : str)
| UnknownOp.
Record ProbeAnswer := {
  a_node : str; a_is_replica : bool; a_master : str; a_down : bool; a_seq : Z; a_epoch : Z; a_priority : Z; a_auto : bool;
}.
Inductive Answer :=
| Probed (p : ProbeAnswer)
| Voted (granted : bool) (epoch : Z)
| Announced (epoch : Z)
| Unknown.

Definition probe_answer (n : Node) : ProbeAnswer := {|
  a_node := n_id n; a_is_replica := n_replica n; a_master := if n_replica n then n_master n else [];
  a_down := master_silent n; a_seq := if n_replica n then n_applied n else n_seq n; a_epoch := n_epoch n;
  a_priority := n_priority n; a_auto := n_auto n |}.

(** The vote on a request: decided here, recorded by [set_voted]. *)
Definition decide_vote (n : Node) (request s : Z) : bool :=
  n_auto n && grants (n_epoch n) (n_voted n) request (master_silent n) (n_applied n) s.
(** A request answered with nothing in between; [gstep] below has the decision
    and the record of a vote as two steps. *)
Definition handle (req : Request) (n : Node) : Answer * Node :=
  match req with
  | Probe => (Probed (probe_answer n), n)
  | Vote request s _ =>
    let granted := decide_vote n request s in
    let n := if granted then set_voted request n else n in
    (Voted granted (n_epoch n), n)
  | Announce epoch master =>
    let n := if (n_epoch n <=? epoch) && negb (bool_decide (master = [])) then follow_new_master master epoch n else n in
    (Announced (n_epoch n), n)
  | UnknownOp => (Unknown, n)
  end.

(** *** An election, with the answers of the other nodes *)
(** What the probes of the peers gave: the highest epoch and those that agree,
    or a node that already took over. *)
Inductive Probes := Agree (highest : Z) (agree : list Candidate) | TakenOver (by_ : str) (epoch : Z).
Fixpoint probe_peers (n : Node) (probe : str → option ProbeAnswer) (peers : list str) (highest : Z) (agree : list Candidate) : Probes :=
  match peers with
  | [] => Agree highest agree
  | p :: peers =>
    match probe p with
    | None => probe_peers n probe peers highest agree
    | Some r =>
      let highest := Z.max highest (a_epoch r) in
      if negb (a_is_replica r) && (n_epoch n <=? a_epoch r) then TakenOver p (a_epoch r)
      else if a_down r && a_auto r && bool_decide (a_master r = n_master n)
      then probe_peers n probe peers highest (agree ++ [{| addr := p; seq := a_seq r; priority := a_priority r |}])
      else probe_peers n probe peers highest agree
    end
  end.

(** A master that lost its replicas looks for a newer epoch. *)
Fixpoint check_replaced (n : Node) (probe : str → option ProbeAnswer) (known : list str) : Node :=
  match known with
  | [] => n
  | a :: known =>
    match probe a with
    | None => check_replaced n probe known
    | Some r =>
      if bool_decide (a_node r = n_id n) || (a_epoch r <=? n_epoch n) then check_replaced n probe known
      else
        let master := if negb (a_is_replica r) then a else a_master r in
        if negb (bool_decide (master = [])) then follow_new_master master (a_epoch r) n
        else check_replaced n probe known
    end
  end.

(** ** The group *)
(** The nodes by address, with the votes (voter, candidate, epoch) that are
    decided and not recorded yet, those recorded, and the promotions
    (node, epoch) so far. *)
Record Group := {
  nodes : gmap str Node;
  pending : list (str * str * Z);
  votes : list (str * str * Z);
  leaders : list (str * Z);
}.
Definition update (a : str) (n : Node) (g : Group) : Group :=
  {| nodes := <[a := n]> (nodes g); pending := pending g; votes := votes g; leaders := leaders g |}.
Definition decided (x : str * str * Z) (g : Group) : Group :=
  {| nodes := nodes g; pending := x :: pending g; votes := votes g; leaders := leaders g |}.
(** [set_voted] at the voter; [ps]: what is still pending. *)
Definition recorded (v c : str) (e : Z) (n : Node) (ps : list (str * str * Z)) (g : Group) : Group :=
  {| nodes := <[v := set_voted e n]> (nodes g); pending := ps; votes := (v, c, e) :: votes g; leaders := leaders g |}.
Definition lead (c : str) (e : Z) (n : Node) (g : Group) : Group :=
  {| nodes := <[c := set_epoch e (promote n)]> (nodes g); pending := pending g; votes := votes g;
     leaders := (c, e) :: leaders g |}.

(** [call]: the node at [a] answers, when it can be reached. *)
Definition call (reach : str → bool) (a : str) (req : Request) (g : Group) : option Answer * Group :=
  if negb (reach a) then (None, g)
  else
    match nodes g !! a with
    | None => (None, g)
    | Some n =>
      let '(ans, n') := handle req n in
      (Some ans, {| nodes := <[a := n']> (nodes g); pending := pending g;
                    votes := match req, ans with Vote e _ c, Voted true _ => (a, c, e) :: votes g | _, _ => votes g end;
                    leaders := leaders g |})
    end.
Definition probe (reach : str → bool) (g : Group) (a : str) : option ProbeAnswer :=
  match call reach a Probe g with (Some (Probed p), _) => Some p | _ => None end.

Inductive Election :=
| StillAnswers                          (* only the link was down *)
| Followed                              (* someone already took over *)
| TooFew (agree : Z)
| NoneMayLead
| Waiting (winner : str)
| NotElected (epoch votes : Z)
| Elected (epoch : Z).

Definition peers_of (n : Node) : list str := List.filter (fun p => negb (bool_decide (p = n_addr n))) (n_peers n).
Definition ask_vote (reach : str → bool) (me : str) (epoch s : Z) (vg : Z * Group) (c : Candidate) : Z * Group :=
  match call reach (addr c) (Vote epoch s me) vg.2 with
  | (Some (Voted true _), g) => (vg.1 + 1, g)
  | (_, g) => (vg.1, g)
  end.
Definition ask_votes (reach : str → bool) (me : str) (epoch s : Z) (voters : list Candidate) (g : Group) : Z * Group :=
  List.fold_left (ask_vote reach me epoch s) voters (1, g).
Definition tell (reach : str → bool) (epoch : Z) (me : str) (l : list str) (g : Group) : Group :=
  List.fold_left (fun g a => (call reach a (Announce epoch me) g).2) l g.

(** The node [n] at [me] tries to replace its silent master. *)
Definition elect (reach : str → bool) (me : str) (n : Node) (g : Group) : Election * Group :=
  match probe reach g (n_master n) with
  | Some _ => (StillAnswers, g)
  | None =>
    let peers := peers_of n in
    let needed := needed (len peers + 2) (n_quorum n) in
    let self := {| addr := n_addr n; seq := n_applied n; priority := n_priority n |} in
    match probe_peers n (probe reach g) peers (n_epoch n) [self] with
    | TakenOver p epoch => (Followed, update me (follow_new_master p epoch n) g)
    | Agree highest_epoch agree =>
      if len agree <? needed then (TooFew (len agree), g)
      else
        match best agree with
        | None => (NoneMayLead, g)
        | Some winner =>
          if negb (bool_decide (addr winner = n_addr n)) then (Waiting (addr winner), g)
          else
            let epoch := Z.max highest_epoch (n_voted n) + 1 in
            let g := recorded me me epoch n (pending g) g in
            let n := set_voted epoch n in
            let voters := List.filter (fun c => negb (bool_decide (addr c = n_addr n))) agree in
            let '(votes_, g) := ask_votes reach (n_addr n) epoch (n_applied n) voters g in
            if votes_ <? needed then (NotElected epoch votes_, g)
            else
              (Elected epoch, tell reach epoch (n_addr n) (peers ++ [n_master n]) (lead me epoch n g))
        end
    end
  end.

(** ** Every interleaving *)
(** How the node sees its group: a majority is asked for, of all of it. *)
Definition view_ok (size : nat) (n : Node) : Prop := n_quorum n = 0 ∧ Z.of_nat size ≤ len (peers_of n) + 2.

(** The steps of the group. [handle] and [elect] read [epoch()] and [voted()]
    under locks of their own and call [set_voted] later: deciding a vote and
    recording it are two steps, with any step of any node in between. With
    [turns] a node decides no vote before the one it decided is recorded or
    given up; without, as the code is, the votes of a node may overlap. *)
Definition free_to_decide (turns : bool) (v : str) (g : Group) : Prop :=
  turns = true → v ∉ (pending g).*1.*1.

Inductive gstep (turns : bool) : Group → Group → Prop :=
(** A candidate decides to stand in a new epoch; it knew the epoch [ep] when it looked. *)
| g_stand g c n ep e :
    nodes g !! c = Some n → ep ≤ n_epoch n → ep < e → n_voted n < e → free_to_decide turns c g →
    gstep turns g (decided (c, c, e) g)
(** A node decides to grant a request of [c], whoever sent it and however late;
    of what it looks at, [voted()] is what it is now, and the epoch, the
    settings and the silence of the master may have been read at other moments. *)
| g_grant g v c n ep auto silent applied e s :
    nodes g !! v = Some n → ep ≤ n_epoch n → auto && grants ep (n_voted n) e silent applied s = true →
    free_to_decide turns v g → gstep turns g (decided (v, c, e) g)
(** [set_voted]: the vote is recorded, and the answer is sent. *)
| g_record g v c e n ps :
    pending g ≡ₚ (v, c, e) :: ps → nodes g !! v = Some n → gstep turns g (recorded v c e n ps g)
(** The node stops before it recorded its vote. *)
| g_give_up g x ps :
    pending g ≡ₚ x :: ps →
    gstep turns g {| nodes := nodes g; pending := ps; votes := votes g; leaders := leaders g |}
(** A node answers any other request, whoever sent it and however late. *)
| g_call g v req : (∀ e s c, req ≠ Vote e s c) → gstep turns g (call (fun _ => true) v req g).2
(** A candidate that got the votes it needs takes over. *)
| g_lead g c n e (vs : list str) :
    nodes g !! c = Some n → NoDup vs → (∀ v, v ∈ vs → (v, c, e) ∈ votes g) →
    needed (len (peers_of n) + 2) (n_quorum n) ≤ len vs →
    gstep turns g (lead c e n g)
(** Anything else that happens to a node: the stream advances, the master is
    heard or not, it follows a master, its settings change; the epochs it
    keeps do not go back, a restart included ([set_voted] and [set_epoch] write
    them to the configuration, and that write is taken to succeed). *)
| g_other g c n n' :
    nodes g !! c = Some n → n_epoch n ≤ n_epoch n' → n_voted n ≤ n_voted n' →
    view_ok (size (nodes g)) n' → gstep turns g (update c n' g).

(** ** The choice of the best candidate *)
Lemma cand_leb_spec a b : cand_leb a b = true ↔
  seq a < seq b ∨ (seq a = seq b ∧ (priority a < priority b ∨ (priority a = priority b ∧ str_leb (addr b) (addr a) = true))).
Proof. unfold cand_leb. rewrite !orb_true_iff, !andb_true_iff, !orb_true_iff, !andb_true_iff, !Z.ltb_lt, !Z.eqb_eq. done. Qed.
Lemma cand_leb_refl a : cand_leb a a = true.
Proof. apply cand_leb_spec. right. split; [done|]. right. split; [done|]. apply bytes_leb_refl. Qed.
Lemma cand_leb_trans a b c : cand_leb a b = true → cand_leb b c = true → cand_leb a c = true.
Proof.
  rewrite !cand_leb_spec. intros [?|[? [?|[? H1]]]] [?|[? [?|[? H2]]]]; try (left; lia); right; (split; [lia|]); try (left; lia).
  right. split; [lia|]. by eapply bytes_leb_trans.
Qed.
Lemma cand_leb_total a b : cand_leb a b = false → cand_leb b a = true.
Proof.
  intros Hn. apply cand_leb_spec. apply not_true_iff_false in Hn. rewrite cand_leb_spec in Hn.
  destruct (Z.lt_trichotomy (seq a) (seq b)) as [|[|]]; [tauto| |left; lia]. right. split; [done|].
  destruct (Z.lt_trichotomy (priority a) (priority b)) as [|[|]]; [tauto| |left; lia]. right. split; [done|].
  destruct (bytes_leb_total (utf8 (addr b)) (utf8 (addr a))) as [Hl|Hl]; [|done]. exfalso. unfold str_leb in *. tauto.
Qed.

Lemma best_fold l b0 : (∀ c, c ∈ l → 0 < priority c) →
  match List.fold_left max_by l b0 with
  | None => b0 = None ∧ l = []
  | Some b => (b0 = Some b ∨ b ∈ l) ∧ (∀ c, b0 = Some c ∨ c ∈ l → cand_leb c b = true)
  end.
Proof.
  revert b0. induction l as [|c l IH]; intros b0 Hl; simpl.
  - destruct b0 as [b|]; [|done]. split; [by left|]. intros c [[= ->]|Hc]; [apply cand_leb_refl|set_solver].
  - specialize (IH (max_by b0 c) ltac:(set_solver)). destruct (List.fold_left max_by l (max_by b0 c)) as [b|].
    + destruct IH as [Hb Hall]. destruct b0 as [b0|]; simpl in *.
      * destruct (cand_leb b0 c) eqn:E.
        -- split; [destruct Hb as [[= ->]|]; [right; set_solver|right; set_solver]|].
           intros x [[= <-]|[->|Hx]%elem_of_cons]; [|by apply Hall; left|by apply Hall; right].
           eapply cand_leb_trans; [exact E|]. by apply Hall; left.
        -- split; [destruct Hb as [[= ->]|]; [by left|right; set_solver]|].
           intros x [[= <-]|[->|Hx]%elem_of_cons]; [by apply Hall; left| |by apply Hall; right].
           eapply cand_leb_trans; [by apply cand_leb_total|]. by apply Hall; left.
      * split; [destruct Hb as [[= ->]|]; right; set_solver|].
        intros x [[=]|[->|Hx]%elem_of_cons]; [by apply Hall; left|by apply Hall; right].
    + destruct IH as [IH _]. destruct b0; simpl in IH; [destruct (cand_leb _ _)|]; done.
Qed.
Lemma elem_of_able l c : c ∈ List.filter (fun c => 0 <? priority c) l ↔ c ∈ l ∧ 0 < priority c.
Proof. rewrite !list_elem_of_In, List.filter_In, Z.ltb_lt. done. Qed.
Lemma best_spec l :
  match best l with
  | None => ∀ c, c ∈ l → ¬ 0 < priority c
  | Some b => b ∈ l ∧ 0 < priority b ∧ ∀ c, c ∈ l → 0 < priority c → cand_leb c b = true
  end.
Proof.
  unfold best. pose proof (best_fold (List.filter (fun c => 0 <? priority c) l) None) as Hf.
  destruct (List.fold_left _ _ _) as [b|].
  - destruct Hf as [[|Hb] Hall]; [by intros c [??]%elem_of_able|done|]. apply elem_of_able in Hb as [? ?].
    split; [done|]. split; [done|]. intros c ? ?. apply Hall. right. by apply elem_of_able.
  - destruct Hf as [_ Hf]; [by intros c [??]%elem_of_able|]. intros c Hc Hp.
    assert (c ∈ List.filter (fun c => 0 <? priority c) l) as Hin by by apply elem_of_able. rewrite Hf in Hin. set_solver.
Qed.

(** Every node picks the same successor from the same candidates, in
    whatever order it learnt of them: the most advanced one that may lead, then
    the highest priority, then the smallest address; and one is picked as soon
    as one candidate may lead. *)
Theorem best_agreed l l' :
  l ≡ₚ l' → NoDup (addr <$> l) → Forall (fun c => valid_str (addr c)) l →
  best l = best l' ∧
  match best l with
  | None => ∀ c, c ∈ l → ¬ 0 < priority c
  | Some b => b ∈ l ∧ 0 < priority b ∧ ∀ c, c ∈ l → 0 < priority c → cand_leb c b = true
  end.
Proof.
  intros Hp Hd Hv. split; [|apply best_spec]. pose proof (best_spec l) as H1. pose proof (best_spec l') as H2.
  destruct (best l) as [b|], (best l') as [b'|]; [|destruct H1 as (Hb & ? & _)|destruct H2 as (Hb & ? & _)|done].
  - destruct H1 as (Hb & Hpos & Hall), H2 as (Hb' & Hpos' & Hall'). f_equal.
    rewrite <- Hp in Hb'. specialize (Hall b' Hb' Hpos'). rewrite Hp in Hb. specialize (Hall' b Hb Hpos). rewrite <- Hp in Hb.
    apply cand_leb_spec in Hall, Hall'.
    assert (addr b = addr b') as Ha.
    { rewrite Forall_forall in Hv. apply utf8_inj; [by apply Hv|by apply Hv|].
      destruct Hall as [|[? [|[? ?]]]], Hall' as [|[? [|[? ?]]]]; try lia. by apply bytes_leb_antisym. }
    apply list_elem_of_lookup in Hb as [i Hi], Hb' as [j Hj].
    assert (i = j) as ->; [|congruence]. eapply NoDup_lookup; [exact Hd| |]; rewrite list_lookup_fmap.
    + by rewrite Hi.
    + rewrite Hj. simpl. by rewrite Ha.
  - rewrite Hp in Hb. by destruct (H2 b).
  - rewrite <- Hp in Hb. by destruct (H1 b').
Qed.

(** ** Safety of the election *)
Record group_ok (sz : nat) (g : Group) : Prop := {
  go_size : size (nodes g) = sz;
  go_view : ∀ a n, nodes g !! a = Some n → view_ok sz n;
  go_voted : ∀ v c e, (v, c, e) ∈ votes g → ∃ n, nodes g !! v = Some n ∧ e ≤ n_voted n;
  go_once : ∀ v c c' e, (v, c, e) ∈ votes g → (v, c', e) ∈ votes g → c = c';
  go_turns : NoDup (pending g).*1.*1;
  go_pending : ∀ v c e c' e', (v, c, e) ∈ pending g → (v, c', e') ∈ votes g → e' < e;
  go_leaders : ∀ c e, (c, e) ∈ leaders g →
    ∃ vs, NoDup vs ∧ (∀ v, v ∈ vs → (v, c, e) ∈ votes g) ∧ Z.of_nat sz / 2 + 1 ≤ len vs;
}.

Lemma size_insert_over (m : gmap str Node) a n n' : m !! a = Some n → size (<[a := n']> m) = size m.
Proof. intros E. rewrite map_size_insert. by rewrite E. Qed.

(** A node of the group moves on without going back. *)
Lemma update_ok sz g a n n' : group_ok sz g → nodes g !! a = Some n → n_voted n ≤ n_voted n' → view_ok sz n' →
  group_ok sz (update a n' g).
Proof.
  intros [Hs Hview Hvoted Honce Hturns Hpend Hlead] Ha Hle Hv. split; simpl; try done.
  - by rewrite (size_insert_over _ _ n).
  - intros b m. rewrite lookup_insert_Some. intros [[<- <-]|[_ ?]]; eauto.
  - intros v c e Hin. destruct (Hvoted v c e Hin) as (m & Hm & ?). destruct (decide (a = v)) as [->|].
    + rewrite lookup_insert_eq. eexists. split; [done|]. assert (m = n) as -> by congruence. lia.
    + rewrite lookup_insert_ne by done. eauto.
Qed.

Lemma follow_keeps m e n :
  n_voted (follow_new_master m e n) = n_voted n ∧ n_epoch n ≤ n_epoch (follow_new_master m e n) ∧
  n_quorum (follow_new_master m e n) = n_quorum n ∧ peers_of (follow_new_master m e n) = peers_of n.
Proof.
  unfold follow_new_master. destruct (host_port m) as [[h p]|]; [|done]. destruct (_ && _); simpl; repeat split; lia.
Qed.

(** What a request that is not a vote does is an update of the node. *)
Lemma call_other reach a req g : (∀ e s c, req ≠ Vote e s c) →
  (call reach a req g).2 = g ∨
  ∃ n n', nodes g !! a = Some n ∧ (call reach a req g).2 = update a n' g ∧
    n_epoch n ≤ n_epoch n' ∧ n_voted n' = n_voted n ∧ n_quorum n' = n_quorum n ∧ peers_of n' = peers_of n.
Proof.
  intros Hreq. unfold call. destruct (negb _); [by left|]. destruct (nodes g !! a) as [n|]; [|by left]. right.
  destruct req as [|e s c|e m|]; simpl; [exists n, n; done|by destruct (Hreq e s c)| |exists n, n; done].
  destruct (_ && _); [|exists n, n; done]. destruct (follow_keeps m e n) as (?&?&?&?).
  by exists n, (follow_new_master m e n).
Qed.

Lemma decided_ok sz g v c e n : group_ok sz g → nodes g !! v = Some n → n_voted n < e → free_to_decide true v g →
  group_ok sz (decided (v, c, e) g).
Proof.
  intros [Hs Hview Hvoted Honce Hturns Hpend Hlead] Hn He Hfree. split; simpl; try done.
  - apply NoDup_cons. split; [by apply Hfree|done].
  - intros v' d e' c' e'' [[= -> -> ->]|Hin]%elem_of_cons Hv; [|by eapply Hpend].
    destruct (Hvoted _ _ _ Hv) as (m & Hm & ?). assert (m = n) as -> by congruence. lia.
Qed.

Lemma recorded_ok sz g v c e n ps : group_ok sz g → pending g ≡ₚ (v, c, e) :: ps → nodes g !! v = Some n →
  group_ok sz (recorded v c e n ps g).
Proof.
  intros [Hs Hview Hvoted Honce Hturns Hpend Hlead] Hps Hn.
  assert ((v, c, e) ∈ pending g) as Hin by (rewrite Hps; by left).
  assert (NoDup (v :: ps.*1.*1)) as [Hv Hnd]%NoDup_cons.
  { assert ((pending g).*1.*1 ≡ₚ v :: ps.*1.*1) as <- by (by rewrite Hps). done. }
  split; simpl; try done.
  - by rewrite (size_insert_over _ _ n).
  - intros b m. rewrite lookup_insert_Some. intros [[<- <-]|[_ ?]]; [|eauto]. exact (Hview v n Hn).
  - intros v' c' e'. rewrite elem_of_cons. intros Hc. destruct (decide (v = v')) as [<-|Hne].
    + rewrite lookup_insert_eq. eexists. split; [done|]. simpl.
      destruct Hc as [[= -> ->]|Hc]; [lia|]. specialize (Hpend _ _ _ _ _ Hin Hc). lia.
    + rewrite lookup_insert_ne by done. destruct Hc as [[= ? ? ?]|Hc]; [done|eauto].
  - intros v' c1 c2 e'. rewrite !elem_of_cons. intros [[= -> -> ->]|H1] [[= ->]|H2]; try done.
    + specialize (Hpend _ _ _ _ _ Hin H2). lia.
    + subst. specialize (Hpend _ _ _ _ _ Hin H1). lia.
    + by eapply Honce.
  - intros v' c1 e1 c2 e2 H1 [[= -> -> ->]|H2]%elem_of_cons.
    + destruct Hv. apply list_elem_of_fmap. exists (v, c1). split; [done|]. apply list_elem_of_fmap. by exists (v, c1, e1).
    + eapply Hpend; [|exact H2]. rewrite Hps. by right.
  - intros c' e' Hl. destruct (Hlead c' e' Hl) as (l & ? & Hl' & ?). exists l. split; [done|]. split; [|done].
    intros v' Hv'. right. by apply Hl'.
Qed.

Lemma gstep_ok sz g g' : group_ok sz g → gstep true g g' → group_ok sz g'.
Proof.
  intros Hg. destruct 1 as [g c n ep e Hn Hep He Hv Hf|g v c n ep auto silent applied e s Hn Hep Hgr Hf|g v c e n ps Hps Hn|
    g x ps Hps|g v req Hreq|g c n e vs Hn Hd Hvs Hq|g c n n' Hn He Hv Hvw].
  - by eapply decided_ok.
  - apply andb_true_iff in Hgr as [_ Hgr]. unfold grants in Hgr. rewrite !andb_true_iff, !Z.ltb_lt in Hgr.
    eapply decided_ok; [done..| |done]. apply Hgr.
  - by apply recorded_ok.
  - destruct Hg as [Hs Hview Hvoted Honce Hturns Hpend Hlead]. split; simpl; try done.
    + assert ((pending g).*1.*1 ≡ₚ x.1.1 :: ps.*1.*1) as E by (by rewrite Hps). rewrite E in Hturns.
      by apply NoDup_cons in Hturns as [_ ?].
    + intros v c e c' e' Hin. apply Hpend with (c := c). rewrite Hps. by right.
  - destruct (call_other (fun _ => true) v req g Hreq) as [->|(n & n' & Hn & -> & He & E1 & E2 & E3)]; [done|].
    eapply update_ok; [done..|lia|]. unfold view_ok. rewrite E2, E3. exact (go_view _ _ Hg v n Hn).
  - destruct (go_view _ _ Hg c n Hn) as [Hquorum Hsz].
    destruct (update_ok sz g c n (set_epoch e (promote n)) Hg Hn ltac:(simpl; lia) ltac:(by split))
      as [Hs Hview Hvoted Honce Hturns Hpend Hlead]. split; try done. simpl.
    intros c' e' [[= -> ->]|Hl]%elem_of_cons; [|by apply Hlead]. exists vs. split; [done|]. split; [done|].
    unfold needed in Hq. rewrite Hquorum in Hq. simpl in Hq.
    pose proof (Z.div_le_mono (Z.of_nat sz) (len (peers_of n) + 2) 2 ltac:(lia) Hsz). lia.
  - rewrite (go_size _ _ Hg) in Hvw. by eapply update_ok.
Qed.

(** Two majorities have a node in common. *)
Lemma majorities_meet (m : gmap str Node) (l k : list str) :
  NoDup l → NoDup k → (∀ v, v ∈ l → is_Some (m !! v)) → (∀ v, v ∈ k → is_Some (m !! v)) →
  Z.of_nat (size m) / 2 + 1 ≤ len l → Z.of_nat (size m) / 2 + 1 ≤ len k → ∃ v, v ∈ l ∧ v ∈ k.
Proof.
  intros Hl Hk Hlm Hkm Hcl Hck.
  destruct (decide (list_to_set l ∩ list_to_set k = (∅ : gset str))) as [E|[v Hv]%set_choose_L].
  2: { exists v. set_solver. }
  exfalso. assert (size (list_to_set l ∪ list_to_set k : gset str) ≤ size (dom m))%nat as Hle.
  { apply subseteq_size. intros v. rewrite elem_of_union, !elem_of_list_to_set, elem_of_dom. intros [|]; eauto. }
  rewrite size_union in Hle by set_solver. rewrite !size_list_to_set in Hle by done. rewrite size_dom in Hle.
  unfold len in *. pose proof (Z.mod_pos_bound (Z.of_nat (size m)) 2). pose proof (Z.div_mod (Z.of_nat (size m)) 2). lia.
Qed.

Lemma gsteps_ok sz g g' : group_ok sz g → rtc (gstep true) g g' → group_ok sz g'.
Proof. intros H0 Hsteps. induction Hsteps as [|g1 g2 g3 Hs _ IH]; [done|]. apply IH. by eapply gstep_ok. Qed.

(** C8: election safety, for nodes that vote one at a time. In a group where
    every node sees the whole group and asks for its majority (no quorum of its
    own is configured), where a node decides no vote before the one it decided
    is recorded (the code does not make sure of it: two_masters_of_one_epoch),
    and where the vote a node recorded survives a restart, no two nodes ever
    become master in the same epoch, whatever the order of elections, requests,
    late messages, votes decided and never recorded, restarts and stream
    progress, and whatever happens to any node between the decision of a vote
    and its record. *)
Theorem one_master_per_epoch g0 g c c' e :
  pending g0 = [] → votes g0 = [] → leaders g0 = [] →
  (∀ a n, nodes g0 !! a = Some n → view_ok (size (nodes g0)) n) →
  rtc (gstep true) g0 g → (c, e) ∈ leaders g → (c', e) ∈ leaders g → c = c'.
Proof.
  intros Hp Hv Hl Hview Hsteps Hc Hc'.
  assert (group_ok (size (nodes g0)) g) as Hg.
  { eapply gsteps_ok; [|done]. split; [done|done|..]; rewrite ?Hp, ?Hv, ?Hl; try set_solver. constructor. }
  destruct (go_leaders _ _ Hg c e Hc) as (l & Hdl & Hvl & Hsl).
  destruct (go_leaders _ _ Hg c' e Hc') as (k & Hdk & Hvk & Hsk).
  rewrite <- (go_size _ _ Hg) in *.
  destruct (majorities_meet (nodes g) l k Hdl Hdk) as (v & H1 & H2); [..|eapply (go_once _ _ Hg); eauto]; try done.
  - intros v Hin. destruct (go_voted _ _ Hg _ _ _ (Hvl v Hin)) as (n & -> & _). by eexists.
  - intros v Hin. destruct (go_voted _ _ Hg _ _ _ (Hvk v Hin)) as (n & -> & _). by eexists.
Qed.

(** ** An election is made of such steps *)
Lemma pending_call reach a req g : pending (call reach a req g).2 = pending g.
Proof. unfold call. destruct (negb _); [done|]. destruct (nodes g !! a); [|done]. by destruct (handle _ _). Qed.
Lemma update_same a n g : nodes g !! a = Some n → update a n g = g.
Proof. intros Hn. unfold update. rewrite insert_id by done. by destruct g. Qed.
(** A vote answered with nothing in between is its two steps, one after the other. *)
Lemma vote_steps a e s me g n turns : pending g = [] → nodes g !! a = Some n → decide_vote n e s = true →
  rtc (gstep turns) g (recorded a me e n (pending g) g).
Proof.
  intros Hp Hn Hd. eapply rtc_l.
  - eapply (g_grant turns g a me n (n_epoch n)) with (s := s); [done|lia|exact Hd|]. intros _. rewrite Hp. set_solver.
  - apply rtc_once. exact (g_record turns (decided (a, me, e) g) a me e n (pending g) ltac:(done) Hn).
Qed.
Lemma call_reached reach a req g : reach a = true → call reach a req g = call (fun _ => true) a req g.
Proof. intros E. unfold call. by rewrite E. Qed.
Lemma call_unreached reach a req g : reach a = false → call reach a req g = (None, g).
Proof. intros E. unfold call. by rewrite E. Qed.
Lemma call_steps turns reach a req g : pending g = [] → rtc (gstep turns) g (call reach a req g).2.
Proof.
  intros Hp. destruct (reach a) eqn:Er; [|by rewrite call_unreached]. rewrite call_reached by done.
  destruct req as [|e s c|e m|]; [by apply rtc_once, g_call| |by apply rtc_once, g_call..].
  unfold call. simpl. destruct (nodes g !! a) as [n|] eqn:Hn; [|done]. destruct (decide_vote n e s) eqn:E; simpl.
  - by eapply vote_steps.
  - by rewrite (update_same a n g Hn : {| nodes := _; pending := _; votes := _; leaders := _ |} = g).
Qed.
Lemma tell_steps turns reach e me l g : pending g = [] → rtc (gstep turns) g (tell reach e me l g).
Proof.
  revert g. induction l as [|a l IH]; intros g Hp; [done|]. simpl. etrans; [by apply call_steps|]. apply IH.
  by rewrite pending_call.
Qed.
Lemma tell_leaders reach e me l g : leaders (tell reach e me l g) = leaders g.
Proof.
  revert g. induction l as [|a l IH]; intros g; [done|]. simpl. rewrite IH. unfold call.
  destruct (negb _); [done|]. destruct (nodes g !! a); [|done]. by destruct (handle _ _).
Qed.

(** The votes of an election so far: distinct voters, that will not vote again in it. *)
Record voted_for (me : str) (e : Z) (vs : list str) (g : Group) : Prop := {
  vf_dup : NoDup vs;
  vf_votes : ∀ v, v ∈ vs → (v, me, e) ∈ votes g;
  vf_voted : ∀ v, v ∈ vs → ∃ n, nodes g !! v = Some n ∧ e ≤ n_voted n;
  vf_pending : pending g = [];
}.

Lemma ask_one reach me e s a vs g :
  voted_for me e vs g → a ≠ me →
  rtc (gstep true) g (call reach a (Vote e s me) g).2 ∧ nodes (call reach a (Vote e s me) g).2 !! me = nodes g !! me ∧
  match call reach a (Vote e s me) g with
  | (Some (Voted true _), g') => voted_for me e (a :: vs) g'
  | (_, g') => voted_for me e vs g'
  end.
Proof.
  intros [Hd Hv Hn Hp] Ha. split; [by apply call_steps|]. unfold call. destruct (negb (reach a)); [done|].
  destruct (nodes g !! a) as [n|] eqn:En; [|done]. simpl.
  destruct (decide_vote n e s) eqn:E; simpl; (split; [by rewrite lookup_insert_ne|]).
  - unfold decide_vote in E. apply andb_true_iff in E as [_ E]. unfold grants in E. rewrite !andb_true_iff, !Z.ltb_lt in E. destruct E as [[[_ E] _] _].
    split; simpl.
    + apply NoDup_cons. split; [|done]. intros Hin. destruct (Hn a Hin) as (n' & Hn' & ?).
      assert (n' = n) as -> by congruence. lia.
    + intros v [->|Hin]%elem_of_cons; [by left|]. right. by apply Hv.
    + intros v. destruct (decide (v = a)) as [->|Hne].
      * rewrite lookup_insert_eq. eexists. split; [done|]. simpl. lia.
      * rewrite lookup_insert_ne by done. intros [->|Hin]%elem_of_cons; [done|]. by apply Hn.
    + done.
  - split; simpl; try done. intros v Hin. destruct (decide (v = a)) as [->|Hne].
    + rewrite lookup_insert_eq. destruct (Hn a Hin) as (n' & Hn' & ?). exists n. split; [done|].
      assert (n' = n) as -> by congruence. done.
    + rewrite lookup_insert_ne by done. by apply Hn.
Qed.

Lemma ask_votes_steps reach me e s l vs g :
  voted_for me e vs g → (∀ c, c ∈ l → addr c ≠ me) →
  ∃ vs', let r := List.fold_left (ask_vote reach me e s) l (len vs, g) in
    rtc (gstep true) g r.2 ∧ r.1 = len vs' ∧ voted_for me e vs' r.2 ∧ nodes r.2 !! me = nodes g !! me.
Proof.
  revert vs g. induction l as [|c l IH]; intros vs g Hvf Hl; [by exists vs|]. simpl.
  destruct (ask_one reach me e s (addr c) vs g Hvf ltac:(apply Hl; set_solver)) as (Hstep & Hme & Hcase).
  unfold ask_vote at 2 4 6 8. cbn [fst snd].
  destruct (call reach (addr c) (Vote e s me) g) as [ans g'] eqn:Ec. simpl in Hstep, Hme.
  assert (∀ vs1, voted_for me e vs1 g' → ∃ vs' : list str,
    let r := List.fold_left (ask_vote reach me e s) l (len vs1, g') in
    rtc (gstep true) g r.2 ∧ r.1 = len vs' ∧ voted_for me e vs' r.2 ∧ nodes r.2 !! me = nodes g !! me) as Hgo.
  { intros vs1 Hvf1. destruct (IH vs1 g' Hvf1 ltac:(set_solver)) as (vs' & H1 & H2 & H3 & H4).
    exists vs'. split; [etrans; [exact Hstep|exact H1]|]. split; [exact H2|]. split; [exact H3|]. by rewrite H4. }
  destruct ans as [[p|[] e'|e'|]|]; try (exact (Hgo vs Hcase)).
  replace (len vs + 1) with (len (addr c :: vs)) by (rewrite len_cons; lia). exact (Hgo _ Hcase).
Qed.

Lemma elect_steps reach me n g :
  pending g = [] → nodes g !! me = Some n → n_addr n = me → view_ok (size (nodes g)) n →
  rtc (gstep true) g (elect reach me n g).2 ∧
  ∀ e, (elect reach me n g).1 = Elected e → n_epoch n < e ∧ n_voted n < e ∧ (me, e) ∈ leaders (elect reach me n g).2.
Proof.
  intros Hp Hn Hme Hview. unfold elect. destruct (probe reach g (n_master n)); [done|].
  assert (∀ peers h agree, n_epoch n ≤ h → match probe_peers n (probe reach g) peers h agree with
            | Agree h' _ => n_epoch n ≤ h' | TakenOver _ _ => True end) as Hpp.
  { induction peers as [|p peers IH]; intros h agree Hh; simpl; [done|].
    destruct (probe reach g p) as [r|]; [|by apply IH]. destruct (_ && _); [done|].
    destruct (_ && _); apply IH; lia. }
  specialize (Hpp (peers_of n) (n_epoch n) [{| addr := n_addr n; seq := n_applied n; priority := n_priority n |}] ltac:(lia)).
  destruct (probe_peers _ _ _ _ _) as [h agree|p e].
  2: { simpl. split; [|done]. apply rtc_once. destruct (follow_keeps p e n) as (E1 & E2 & E3 & E4).
       eapply g_other; [done|done|lia|]. unfold view_ok. by rewrite E3, E4. }
  destruct (_ <? _); [done|]. destruct (best agree) as [w|]; [|done].
  destruct (negb (bool_decide (addr w = n_addr n))); [done|].
  set (e := Z.max h (n_voted n) + 1). set (g1 := recorded me me e n (pending g) g).
  assert (rtc (gstep true) g g1) as Hstand.
  { eapply rtc_l; [eapply (g_stand true g me n (n_epoch n) e); [done|lia|lia|lia|]|].
    - intros _. rewrite Hp. set_solver.
    - apply rtc_once. exact (g_record true (decided (me, me, e) g) me me e n (pending g) ltac:(done) Hn). }
  assert (voted_for me e [me] g1) as Hvf.
  { split; simpl; [apply NoDup_singleton|set_solver| |done]. intros v ->%list_elem_of_singleton. rewrite lookup_insert_eq.
    eexists. split; [done|]. simpl. lia. }
  change (n_addr (set_voted e n)) with (n_addr n). rewrite Hme. set (voters := List.filter _ agree).
  assert (∀ c, c ∈ voters → addr c ≠ me) as Hvoters.
  { intros c Hc. apply list_elem_of_In, List.filter_In in Hc as [_ Hc]. by case_bool_decide. }
  destruct (ask_votes_steps reach me e (n_applied n) voters [me] g1 Hvf Hvoters) as (vs & Hs & Hcount & Hvf' & Hme').
  unfold ask_votes. change 1 with (len [me]). destruct (List.fold_left _ voters (len [me], g1)) as [vn g2].
  simpl in Hs, Hcount, Hvf', Hme'. rewrite lookup_insert_eq in Hme'.
  destruct (Z.ltb_spec vn (needed (len (peers_of n) + 2) (n_quorum n))) as [|Hq]; simpl.
  { split; [|done]. by etrans. }
  split.
  - etrans; [exact Hstand|]. etrans; [exact Hs|]. eapply rtc_l; [|apply tell_steps; exact (vf_pending _ _ _ _ Hvf')].
    eapply g_lead with (vs := vs); [exact Hme'|apply Hvf'|apply Hvf'|]. rewrite <- Hcount. exact Hq.
  - intros e' [= <-]. split; [lia|]. split; [lia|]. rewrite tell_leaders. simpl. by left.
Qed.

(** [elect], with the whole exchange of probes, votes and announcements it
    makes and nothing in between, does nothing that is not steps of the group
    whose nodes vote one at a time: the safety of the election covers it. When it promotes the node, it is in an epoch newer than
    every one the node knew or voted in, recorded as the leader of that epoch. *)
Theorem elect_refines reach me n g :
  pending g = [] → nodes g !! me = Some n → n_addr n = me → view_ok (size (nodes g)) n →
  rtc (gstep true) g (elect reach me n g).2 ∧
  ∀ e, (elect reach me n g).1 = Elected e → n_epoch n < e ∧ n_voted n < e ∧ (me, e) ∈ leaders (elect reach me n g).2.
Proof. apply elect_steps. Qed.

(** ** Votes that overlap *)
(** Only what the votes of the code do, each node deciding on what it holds at
    that moment: fewer steps than [gstep false] has. *)
Inductive vote_step : Group → Group → Prop :=
| v_stand g c n e : nodes g !! c = Some n → n_epoch n < e → n_voted n < e → vote_step g (decided (c, c, e) g)
| v_grant g v c n e s : nodes g !! v = Some n → decide_vote n e s = true → vote_step g (decided (v, c, e) g)
| v_record g v c e n ps :
    pending g ≡ₚ (v, c, e) :: ps → nodes g !! v = Some n → vote_step g (recorded v c e n ps g)
| v_lead g c n e (vs : list str) :
    nodes g !! c = Some n → NoDup vs → (∀ v, v ∈ vs → (v, c, e) ∈ votes g) →
    needed (len (peers_of n) + 2) (n_quorum n) ≤ len vs → vote_step g (lead c e n g).
Lemma vote_step_gstep g g' : vote_step g g' → gstep false g g'.
Proof.
  destruct 1.
  - eapply g_stand; [done|reflexivity|done|done|done].
  - eapply g_grant; [done|reflexivity|done|done].
  - by apply g_record.
  - by eapply g_lead.
Qed.

(** One node gives its vote to both candidates. *)
Lemma votes_twice g v c c' e s s' n :
  pending g = [] → nodes g !! v = Some n → decide_vote n e s = true → decide_vote n e s' = true →
  rtc vote_step g {| nodes := <[v := set_voted e n]> (nodes g); pending := [];
                     votes := (v, c', e) :: (v, c, e) :: votes g; leaders := leaders g |}.
Proof.
  intros Hp Hn Hd Hd'. eapply rtc_l; [by apply (v_grant g v c n e s)|].
  eapply rtc_l; [by apply (v_grant (decided (v, c, e) g) v c' n e s')|].
  eapply rtc_l; [eapply (v_record _ v c e n [(v, c', e)]); [|done]; simpl; rewrite Hp; apply perm_swap|].
  apply rtc_once. pose proof (v_record (recorded v c e n [(v, c', e)] (decided (v, c', e) (decided (v, c, e) g))) v c' e
    (set_voted e n) [] ltac:(done) ltac:(simpl; by rewrite lookup_insert_eq)) as Hs.
  unfold recorded in Hs. simpl in Hs. by rewrite insert_insert_eq in Hs.
Qed.
Lemma all_vote_twice c c' e s s' vs g :
  pending g = [] → NoDup vs →
  (∀ v, v ∈ vs → ∃ n, nodes g !! v = Some n ∧ decide_vote n e s = true ∧ decide_vote n e s' = true) →
  ∃ g', rtc vote_step g g' ∧ pending g' = [] ∧ (∀ x, x ∈ votes g → x ∈ votes g') ∧
    (∀ v, v ∈ vs → (v, c, e) ∈ votes g' ∧ (v, c', e) ∈ votes g') ∧ (∀ a, a ∉ vs → nodes g' !! a = nodes g !! a).
Proof.
  revert g. induction vs as [|v vs IH]; intros g Hp Hd Hg; [exists g; set_solver|].
  apply NoDup_cons in Hd as [Hv Hd]. destruct (Hg v ltac:(by left)) as (n & Hn & H1 & H2).
  pose proof (votes_twice g v c c' e s s' n Hp Hn H1 H2) as Hs.
  match type of Hs with rtc _ _ ?x => set (g1 := x) in *; destruct (IH g1 ltac:(done) Hd) as (g' & Hs' & Hp' & Hk & Hvs & Ho) end.
  - intros w Hw. simpl. rewrite lookup_insert_ne by set_solver. apply Hg. by right.
  - exists g'. split; [by etrans|]. split; [done|]. split; [intros x Hx; apply Hk; simpl; set_solver|]. split.
    + intros w [->|Hw]%elem_of_cons; [|by apply Hvs]. split; apply Hk; simpl; set_solver.
    + intros a Ha. rewrite Ho by set_solver. simpl. rewrite lookup_insert_ne by set_solver. done.
Qed.
(** A candidate stands and records the vote for itself. *)
Lemma stands g c e n : pending g = [] → nodes g !! c = Some n → n_epoch n < e → n_voted n < e →
  rtc vote_step g (recorded c c e n [] g).
Proof.
  intros Hp Hn He Hv. eapply rtc_l; [by eapply v_stand|]. apply rtc_once.
  refine (v_record (decided (c, c, e) g) c c e n [] _ Hn). simpl. by rewrite Hp.
Qed.

(** C14: what the vote of the code does not exclude. Two candidates of the same
    epoch that no node voted for yet, and as many other nodes as either needs
    that would grant both requests: when the two answers of each of these nodes
    overlap, each deciding before the other is recorded, both candidates become
    master in that epoch. The steps are those of the votes alone, every node
    deciding on what it holds at that moment. *)
Theorem two_masters_of_one_epoch g c c' e n n' vs :
  pending g = [] → c ≠ c' → c ∉ vs → c' ∉ vs → NoDup vs →
  nodes g !! c = Some n → n_epoch n < e → n_voted n < e →
  nodes g !! c' = Some n' → n_epoch n' < e → n_voted n' < e →
  (∀ v, v ∈ vs → ∃ m, nodes g !! v = Some m ∧ decide_vote m e (n_applied n) = true ∧ decide_vote m e (n_applied n') = true) →
  needed (len (peers_of n) + 2) (n_quorum n) ≤ len vs + 1 → needed (len (peers_of n') + 2) (n_quorum n') ≤ len vs + 1 →
  ∃ g', rtc vote_step g g' ∧ (c, e) ∈ leaders g' ∧ (c', e) ∈ leaders g'.
Proof.
  intros Hp Hne Hc Hc' Hd Hn He Hv Hn' He' Hv' Hvs Hq Hq'.
  set (g1 := recorded c c e n [] g). set (g2 := recorded c' c' e n' [] g1).
  assert (rtc vote_step g g2) as H12.
  { transitivity g1; [exact (stands g c e n Hp Hn He Hv)|]. apply (stands g1); [done| |done|done]. simpl. by rewrite lookup_insert_ne. }
  destruct (all_vote_twice c c' e (n_applied n) (n_applied n') vs g2) as (g3 & H3 & Hp3 & Hk & Hvotes & Ho); [done|done| |].
  { intros v Hin. simpl. rewrite !lookup_insert_ne by set_solver. by apply Hvs. }
  assert (nodes g3 !! c = Some (set_voted e n)) as Hc3.
  { rewrite Ho by done. simpl. rewrite lookup_insert_ne by done. by rewrite lookup_insert_eq. }
  assert (nodes g3 !! c' = Some (set_voted e n')) as Hc3'.
  { rewrite Ho by done. simpl. by rewrite lookup_insert_eq. }
  set (g4 := lead c e (set_voted e n) g3). exists (lead c' e (set_voted e n') g4).
  split; [|split; simpl; [by right; left|by left]].
  etrans; [exact H12|]. etrans; [exact H3|]. eapply rtc_l; [|apply rtc_once].
  - apply (v_lead g3 c (set_voted e n) e (c :: vs)); [done|by apply NoDup_cons| |eapply Z.le_trans; [exact Hq|rewrite len_cons; lia]].
    intros v [->|Hin]%elem_of_cons; [|by apply Hvotes]. apply Hk. simpl. set_solver.
  - apply (v_lead g4 c' (set_voted e n') e (c' :: vs)); [simpl; by rewrite lookup_insert_ne|by apply NoDup_cons| |eapply Z.le_trans; [exact Hq'|rewrite len_cons; lia]].
    intros v [->|Hin]%elem_of_cons; [|by apply Hvotes]. apply Hk. simpl. set_solver.
Qed.

(** ** Evaluations: a master [a] that went away, and its replicas [b] and [c] *)
Definition sample_node (me : String.string) (replica : bool) (applied : Z) (peers : list str) : Node := {|
  n_id := lit me; n_addr := lit me; n_epoch := 3; n_voted := 3; n_replica := replica; n_master := lit "a:1";
  n_running := true; n_applied := applied; n_seq := 0; n_quiet := true; n_auto := true; n_quorum := 0; n_priority := 100;
  n_peers := peers |}.
Definition sample_group : Group := {|
  nodes := {[ lit "a:1" := sample_node "a:1" false 0 [lit "b:1"; lit "c:1"];
              lit "b:1" := sample_node "b:1" true 90 [lit "b:1"; lit "c:1"];
              lit "c:1" := sample_node "c:1" true 70 [lit "b:1"; lit "c:1"] ]};
  pending := []; votes := []; leaders := [] |}.
Definition sample_reach (a : str) : bool := negb (bool_decide (a = lit "a:1")).
Definition sample_b : Node := sample_node "b:1" true 90 [lit "b:1"; lit "c:1"].
Definition sample_after : Group := (elect sample_reach (lit "b:1") sample_b sample_group).2.

Example sample_elected : (elect sample_reach (lit "b:1") sample_b sample_group).1 = Elected 4.
Proof. by vm_compute. Qed.
Example sample_not_c :
  (elect sample_reach (lit "c:1") (sample_node "c:1" true 70 [lit "b:1"; lit "c:1"]) sample_group).1 = Waiting (lit "b:1").
Proof. by vm_compute. Qed.

Lemma sample_view a n : nodes sample_group !! a = Some n → view_ok (size (nodes sample_group)) n.
Proof.
  intros Hn. assert (map_Forall (fun _ n => n_quorum n = 0 ∧ 3 ≤ len (peers_of n) + 2) (nodes sample_group)) as Hf
    by vm_decide.
  by apply (Hf a n).
Qed.

Lemma elect_refines_witness :
  nodes sample_group !! lit "b:1" = Some sample_b ∧ rtc (gstep true) sample_group sample_after.
Proof.
  assert (nodes sample_group !! lit "b:1" = Some sample_b) as Hn by (by vm_compute).
  exact (conj Hn (proj1 (elect_refines sample_reach (lit "b:1") sample_b sample_group eq_refl Hn eq_refl (sample_view _ _ Hn)))).
Defined.

Lemma sample_steps : rtc (gstep true) sample_group sample_after.
Proof. by apply elect_steps; [|vm_compute| |apply (sample_view (lit "b:1")); vm_compute]. Qed.
Lemma one_master_per_epoch_witness :
  rtc (gstep true) sample_group sample_after ∧ (lit "b:1", 4) ∈ leaders sample_after ∧
  ∀ c, (c, 4) ∈ leaders sample_after → lit "b:1" = c.
Proof.
  assert ((lit "b:1", 4) ∈ leaders sample_after) as Hl by vm_decide.
  exact (conj sample_steps (conj Hl (fun c Hc =>
    one_master_per_epoch sample_group sample_after (lit "b:1") c 4 eq_refl eq_refl eq_refl sample_view sample_steps Hl Hc))).
Defined.

Lemma best_agreed_witness :
  let l := [{| addr := lit "b:1"; seq := 5; priority := 100 |}; {| addr := lit "a:1"; seq := 5; priority := 100 |}] in
  NoDup (addr <$> l) ∧ best l = best (rev l) ∧ addr <$> best l = Some (lit "a:1").
Proof.
  intros l. assert (NoDup (addr <$> l)) as Hd by vm_decide.
  refine (conj Hd (conj (proj1 (best_agreed l (rev l) _ Hd _)) _)); [apply Permutation_rev| |by vm_compute].
  repeat constructor; unfold is_scalar; lia.
Defined.

(** Four replicas of [a]: [b] and [c] stand, and the votes of [d] and [e] overlap. *)
Definition sample_five (me : String.string) (applied : Z) : Node :=
  sample_node me true applied [lit "b:1"; lit "c:1"; lit "d:1"; lit "e:1"].
Definition sample_split : Group := {|
  nodes := {[ lit "b:1" := sample_five "b:1" 90; lit "c:1" := sample_five "c:1" 90;
              lit "d:1" := sample_five "d:1" 80; lit "e:1" := sample_five "e:1" 70 ]};
  pending := []; votes := []; leaders := [] |}.
Lemma two_masters_of_one_epoch_witness :
  ∃ g', rtc vote_step sample_split g' ∧ (lit "b:1", 4) ∈ leaders g' ∧ (lit "c:1", 4) ∈ leaders g'.
Proof.
  refine (two_masters_of_one_epoch sample_split (lit "b:1") (lit "c:1") 4 (sample_five "b:1" 90) (sample_five "c:1" 90)
    [lit "d:1"; lit "e:1"] eq_refl _ _ _ _ _ _ _ _ _ _ _ _ _); try vm_decide; try by vm_compute.
  intros v [->|[->|Hn]%elem_of_cons]%elem_of_cons; [..|by apply not_elem_of_nil in Hn].
  - exists (sample_five "d:1" 80). by vm_compute.
  - exists (sample_five "e:1" 70). by vm_compute.
Defined.
