(* ===== verification/Select.v ===== *)
(** * [src/engine.rs], what queries are made of: [like] patterns, the keys of
    a prefix, sets of keys

    [like_match] and [like_prefix]; [prefix_successor] and [prefix_chunk], by
    which the keys that start with a prefix are read a few at a time in either
    direction; [intersect_sorted] and [union_sorted], by which the keys given
    by several indexes are merged. *)
From S2P Require Import Prelude Utf8 Wild Maps.
Open Scope Z_scope.

(** ** [like] patterns *)
Inductive LikePart := Any | One | Char (c : Z).
Definition PERCENT : Z := chr "%".
Definition UNDERSCORE : Z := chr "_".
Definition BACKSLASH : Z := 92.
Fixpoint like_parts (pattern : str) : list LikePart :=
  match pattern with
  | [] => []
  | c :: p =>
    if c =? PERCENT then Any :: like_parts p
    else if c =? UNDERSCORE then One :: like_parts p
    else if c =? BACKSLASH then
      match p with
      | [] => [Char BACKSLASH]
      | d :: p => Char d :: like_parts p
      end
    else Char c :: like_parts p
  end.
Definition is_any (x : LikePart) : bool := match x with Any => true | _ => false end.

Fixpoint like_loop (fuel : nat) (t : str) (p : list LikePart) (pi ti : nat) (last_any : option (nat * nat)) : option bool :=
  match fuel with
  | O => None
  | S fuel =>
    match t !! ti with
    | None => Some (forallb is_any (drop pi p))
    | Some c =>
      let back :=
        match last_any with
        | Some (ap, at_) => like_loop fuel t p (S ap) (S at_) (Some (ap, S at_))
        | None => Some false
        end in
      match p !! pi with
      | Some Any => like_loop fuel t p (S pi) ti (Some (pi, ti))
      | Some One => like_loop fuel t p (S pi) (S ti) last_any
      | Some (Char x) => if x =? c then like_loop fuel t p (S pi) (S ti) last_any else back
      | None => back
      end
    end
  end.
(** At most so many steps. *)
Definition like_fuel (t : str) (p : list LikePart) : nat := search_fuel (length p) t.
(** [lowercase] is [str::to_lowercase]. *)
Definition like_match (lowercase : str → str) (text pattern : str) (fold : bool) : bool :=
  let '(text, pattern) := if fold then (lowercase text, lowercase pattern) else (text, pattern) in
  let p := like_parts pattern in
  match like_loop (like_fuel text p) text p 0 0 None with
  | Some b => b
  | None => false
  end.
Fixpoint leading_chars (p : list LikePart) : str :=
  match p with Char c :: p => c :: leading_chars p | _ => [] end.
Definition like_prefix (pattern : str) : str := leading_chars (like_parts pattern).

(** What a pattern means. *)
Definition part_tok (x : LikePart) : wtok :=
  match x with
  | Any => WAny
  | One => WOne (fun _ => true)
  | Char c => WOne (fun x => c =? x)
  end.
Definition like_spec (pattern text : str) : Prop := wspec (List.map part_tok (like_parts pattern)) text.
Definition like_view (p : list LikePart) (pi : nat) : pview :=
  match p !! pi with
  | None => VEnd
  | Some Any => VAny
  | Some One => VOne (fun _ => true) (S pi)
  | Some (Char c) => VOne (fun x => c =? x) (S pi)
  end.
Lemma like_views p : views (like_view p) (fun pi => List.map part_tok (drop pi p)).
Proof.
  intros pi. unfold like_view. destruct (p !! pi) as [x|] eqn:E.
  - rewrite (drop_S _ _ _ E). by destruct x.
  - apply lookup_ge_None in E. by rewrite drop_ge.
Qed.
Lemma like_loop_search t p : ∀ fuel pi ti last,
  like_loop fuel t p pi ti last = search (like_view p) (fun pi => forallb is_any (drop pi p)) fuel t pi ti last.
Proof.
  induction fuel as [|fuel IH]; intros pi ti last; [done|]. cbn [like_loop search]. destruct (t !! ti) as [c|]; [|done].
  unfold like_view. destruct last as [[s m]|]; destruct (p !! pi) as [[]|]; rewrite ?IH; try done.
Qed.
Lemma all_any p : forallb is_any p = true ↔ wspec (List.map part_tok p) [].
Proof.
  rewrite wspec_nil. induction p as [|x p IH]; simpl; [split; [constructor|done]|].
  rewrite andb_true_iff, IH, Forall_cons. destruct x; naive_solver.
Qed.
Lemma like_decides p t : ∃ b, like_loop (like_fuel t p) t p 0 0 None = Some b ∧ (b = true ↔ wspec (List.map part_tok p) t).
Proof.
  destruct (search_correct (like_view p) (length p) (fun pi => forallb is_any (drop pi p))) with (t := t) as (b & E & Hb).
  - intros pi. unfold like_view. destruct (p !! pi) as [[]|] eqn:E; try done. intros _. by apply lookup_lt_Some in E.
  - intros pi f nx. unfold like_view. destruct (p !! pi) as [[]|] eqn:E; try done; intros [= _ <-]; apply lookup_lt_Some in E; lia.
  - intros pi _. rewrite (wmatch_wspec _ _ _ _ (like_views p)). apply all_any.
  - exists b. rewrite like_loop_search. split; [exact E|]. by rewrite Hb, (wmatch_wspec _ _ _ _ (like_views p)).
Qed.
(** A [like] pattern is matched, after at most so many steps, exactly by
    the texts it means: [%] any run of characters, [_] any one, a character
    after a backslash, or any other, itself; for [ilike], of the texts in small
    letters. *)
Theorem like_match_correct lowercase text pattern fold :
  like_match lowercase text pattern fold = true ↔
  if fold then like_spec (lowercase pattern) (lowercase text) else like_spec pattern text.
Proof.
  unfold like_match, like_spec. destruct fold.
  - destruct (like_decides (like_parts (lowercase pattern)) (lowercase text)) as (b & -> & Hb). exact Hb.
  - destruct (like_decides (like_parts pattern) text) as (b & -> & Hb). exact Hb.
Qed.
(** The characters before the first wildcard start every text of a pattern. *)
Lemma like_prefix_sound pattern text : like_spec pattern text → take (length (like_prefix pattern)) text = like_prefix pattern.
Proof.
  unfold like_spec, like_prefix. revert text. induction (like_parts pattern) as [|x p IH]; intros text Hm; [done|].
  destruct x as [| |c]; [done..|]. cbn [List.map part_tok leading_chars length] in *.
  inversion Hm as [| | |f ts d t Hf Ht E1 E2]; subst. apply Z.eqb_eq in Hf as ->. cbn [take]. f_equal. by apply IH.
Qed.

(** ** The order of texts is that of their characters *)
Lemma encode_char_lt a b x y : is_scalar a → is_scalar b → a < b →
  bytes_leb (encode_char a ++ x) (encode_char b ++ y) = true ∧ bytes_leb (encode_char b ++ y) (encode_char a ++ x) = false.
Proof.
  intros Ha Hb Hab. rewrite <- not_true_iff_false. unfold is_scalar in *. unfold encode_char.
  repeat bdestruct_guard; try lia; cbn [app]; rewrite !bytes_leb_cons; Zify_dm; split; lia.
Qed.
Lemma bytes_leb_same p a b : bytes_leb (p ++ a) (p ++ b) = bytes_leb a b.
Proof. induction p as [|x p IH]; [done|]. cbn [app bytes_leb]. by rewrite IH, Z.ltb_irrefl, Z.eqb_refl. Qed.
(** The order of the bytes is that of the characters. *)
Lemma str_leb_chars s : ∀ t, valid_str s → valid_str t → str_leb s t = bytes_leb s t.
Proof.
  unfold str_leb. induction s as [|a s IH]; intros [|b t] Hs Ht; [done..| |].
  - rewrite utf8_cons. destruct (encode_char a ++ utf8 s) as [|z l] eqn:E; [|done]. rewrite <- utf8_cons in E. by apply utf8_nil_inv in E.
  - apply Forall_cons in Hs as [Ha Hs], Ht as [Hb Ht]. rewrite !utf8_cons. cbn [bytes_leb].
    destruct (Z.lt_trichotomy a b) as [Hab|[->|Hab]].
    + rewrite ltb_t by done. by apply encode_char_lt.
    + by rewrite bytes_leb_same, Z.ltb_irrefl, Z.eqb_refl, IH.
    + rewrite ltb_f by lia. replace (a =? b) with false by (symmetry; apply Z.eqb_neq; lia). by apply encode_char_lt.
Qed.
Lemma char_order s t : valid_str s → valid_str t → str_le s t ↔ bytes_leb s t = true.
Proof. intros. unfold str_le. by rewrite str_leb_chars. Qed.

(** ** The keys that start with a prefix *)
Definition CHAR_MAX : Z := 0x10FFFF.
(** [char::from_u32] *)
Definition char_from_u32 (x : Z) : option Z :=
  if ((0 <=? x) && (x <? 0xD800)) || ((0xE000 <=? x) && (x <=? CHAR_MAX)) then Some x else None.
(** [(c + 1 ..= char::MAX).find_map(char::from_u32)]: no more than the 2048
    surrogates are passed over. *)
Fixpoint find_char (fuel : nat) (x : Z) : option Z :=
  match fuel with
  | O => None
  | S fuel =>
    if CHAR_MAX <? x then None
    else match char_from_u32 x with Some c => Some c | None => find_char fuel (x + 1) end
  end.
Definition next_char (c : Z) : option Z := find_char 2049 (c + 1).
(** The characters of a prefix from the last one. *)
Fixpoint successor_rev (chars : list Z) : option str :=
  match chars with
  | [] => None
  | c :: chars => match next_char c with Some n => Some (rev (n :: chars)) | None => successor_rev chars end
  end.
Definition prefix_successor (prefix : str) : option str := successor_rev (rev prefix).

Definition starts_with (k prefix : str) : bool := bool_decide (take (length prefix) k = prefix).
Definition CHUNK : nat := 256.
(** [ks]: the keys of the index in order; [prefix]: that of the pattern. *)
Definition prefix_chunk (ks : list str) (prefix : str) (from : option str) (reverse : bool) : list str :=
  if reverse then
    if match from with Some f => str_leb f prefix | None => false end then []
    else
      let below k :=
        match from, prefix_successor prefix with
        | Some f, Some e => if str_ltb e f then str_ltb k e else str_ltb k f
        | Some f, None => str_ltb k f
        | None, Some e => str_ltb k e
        | None, None => true
        end in
      take CHUNK (take_while (fun k => starts_with k prefix) (rev (List.filter (fun k => str_leb prefix k && below k) ks)))
  else
    let above k :=
      match from with
      | Some f => if str_leb prefix f then str_ltb f k else str_leb prefix k
      | None => str_leb prefix k
      end in
    take CHUNK (take_while (fun k => starts_with k prefix) (List.filter above ks)).
(** The loop of the readers: from the last key of a chunk to the next one. *)
Fixpoint walk_prefix (fuel : nat) (ks : list str) (prefix : str) (from : option str) (reverse : bool) : option (list str) :=
  match fuel with
  | O => None
  | S fuel =>
    let chunk := prefix_chunk ks prefix from reverse in
    match last chunk with
    | None => Some []
    | Some k => (app chunk) <$> walk_prefix fuel ks prefix (Some k) reverse
    end
  end.

(** *** What a prefix bounds *)
Lemma bytes_leb_prefix p r : bytes_leb p (p ++ r) = true.
Proof. induction p as [|x p IH]; [done|]. cbn [app]. rewrite bytes_leb_cons. by right. Qed.
Lemma starts_with_app k p : starts_with k p = true ↔ ∃ r, k = p ++ r.
Proof.
  unfold starts_with. rewrite bool_decide_eq_true. split.
  - intros E. exists (drop (length p) k). by rewrite <- E at 1; rewrite take_drop.
  - intros [r ->]. by rewrite take_app_length.
Qed.
Lemma starts_with_ge k p : starts_with k p = true → bytes_leb p k = true.
Proof. rewrite starts_with_app. intros [r ->]. apply bytes_leb_prefix. Qed.
Lemma starts_with_between p : ∀ a b, bytes_leb p a = true → bytes_leb a b = true → starts_with b p = true → starts_with a p = true.
Proof.
  intros a b Hpa Hab Hb. rewrite starts_with_app in *. destruct Hb as [r ->]. revert a Hpa Hab.
  induction p as [|x p IH]; intros a Hpa Hab; [by exists a|]. destruct a as [|y a]; [done|]. cbn [app] in Hab. rewrite bytes_leb_cons in Hpa, Hab.
  destruct Hpa as [|[-> Hpa]], Hab as [|[? Hab]]; try lia. destruct (IH a Hpa Hab) as [r' ->]. by exists r'.
Qed.
Lemma scalar_from_u32 x : (char_from_u32 x = Some x ∧ is_scalar x) ∨ (char_from_u32 x = None ∧ ¬ is_scalar x).
Proof.
  unfold char_from_u32, CHAR_MAX, is_scalar.
  destruct (Z.leb_spec 0 x), (Z.ltb_spec x 0xD800), (Z.leb_spec 0xE000 x), (Z.leb_spec x 0x10FFFF); cbn [andb orb];
    first [exfalso; lia|left; split; [done|lia]|right; split; [done|lia]].
Qed.
(** Below [x] only surrogates are passed over. *)
Lemma find_char_spec fuel : ∀ x, match find_char fuel x with
  | Some n => x ≤ n ∧ is_scalar n ∧ ∀ d, is_scalar d → x ≤ d → n ≤ d
  | None => (∀ d, is_scalar d → ¬ x ≤ d) ∨ ∃ j, x + Z.of_nat fuel = j ∧ ∀ d, x ≤ d < j → ¬ is_scalar d
  end.
Proof.
  induction fuel as [|fuel IH]; intros x; cbn [find_char]; [right; exists x; split; lia|].
  destruct (Z.ltb_spec CHAR_MAX x) as [Hx|Hx]; [left; intros d Hd ?; unfold is_scalar, CHAR_MAX in *; lia|].
  destruct (scalar_from_u32 x) as [[-> Hs]|[-> Hs]]; [split; [lia|]; split; [done|]; auto|].
  specialize (IH (x + 1)). destruct (find_char fuel (x + 1)) as [n|].
  - destruct IH as (? & ? & Hn). split; [lia|]. split; [done|]. intros d Hd Hxd. apply Hn; [done|].
    destruct (decide (d = x)) as [->|]; [done|lia].
  - destruct IH as [Hn|(j & Ej & Hj)].
    + left. intros d Hd Hxd. apply (Hn d Hd). destruct (decide (d = x)) as [->|]; [done|lia].
    + right. exists j. split; [lia|]. intros d Hd. destruct (decide (d = x)) as [->|]; [done|]. apply Hj. lia.
Qed.
Lemma next_char_spec c : is_scalar c → match next_char c with
  | Some n => c < n ∧ is_scalar n ∧ ∀ d, is_scalar d → c < d → n ≤ d
  | None => ∀ d, is_scalar d → d ≤ c
  end.
Proof.
  intros Hc. unfold next_char. pose proof (find_char_spec 2049 (c + 1)) as H_. destruct (find_char 2049 (c + 1)) as [n|].
  - destruct H_ as (? & ? & Hn). split; [lia|]. split; [done|]. intros d Hd ?. apply Hn; [done|lia].
  - intros d Hd. destruct H_ as [Hn|(j & Ej & Hj)]; [specialize (Hn d Hd); lia|].
    pose proof (Hj (c + 1) ltac:(lia)) as N1. pose proof (Hj (c + 2049) ltac:(lia)) as N2. unfold is_scalar in *. lia.
Qed.
Lemma prefix_successor_snoc q c : prefix_successor (q ++ [c]) =
  match next_char c with Some n => Some (q ++ [n]) | None => prefix_successor q end.
Proof. unfold prefix_successor. rewrite rev_app_distr. cbn [rev app successor_rev]. destruct (next_char c); [|done]. cbn [rev]. by rewrite rev_involutive. Qed.
Lemma prefix_successor_ok p : valid_str p → ∀ k, valid_str k → bytes_leb p k = true →
  match prefix_successor p with
  | Some e => starts_with k p = true ↔ bytes_leb e k = false
  | None => starts_with k p = true
  end.
Proof.
  induction p as [|c q IH] using rev_ind; intros Hp k Hk Hle; [done|]. apply Forall_app in Hp as [Hq Hc]. apply Forall_cons in Hc as [Hc _].
  rewrite prefix_successor_snoc. pose proof (next_char_spec c Hc) as Hn.
  assert (bytes_leb q k = true) as Hqk by (eapply bytes_leb_trans; [apply (bytes_leb_prefix q [c])|done]).
  assert (∀ r, k = q ++ r → ∃ d r', r = d :: r' ∧ is_scalar d ∧ c ≤ d) as Hr.
  { intros r ->. rewrite bytes_leb_same in Hle. destruct r as [|d r']; [done|]. exists d, r'. split; [done|].
    apply Forall_app in Hk as [_ Hk]. apply Forall_cons in Hk as [Hd _]. split; [done|]. apply bytes_leb_cons in Hle. lia. }
  assert ((∀ r d, k = q ++ d :: r → is_scalar d → c ≤ d → d = c) → starts_with k q = true → starts_with k (q ++ [c]) = true) as Hsw.
  { rewrite !starts_with_app. intros Hd [r Er]. destruct (Hr r Er) as (d & r' & -> & Hsd & Hcd). exists r'. rewrite <- app_assoc. cbn [app].
    by rewrite <- (Hd r' d Er Hsd Hcd). }
  destruct (next_char c) as [n|].
  - destruct Hn as (Hcn & Hsn & Hmin). split.
    + rewrite starts_with_app. intros [r ->]. rewrite <- app_assoc, bytes_leb_same. apply not_true_iff_false. cbn [app]. rewrite bytes_leb_cons. lia.
    + intros Hlt. apply Hsw.
      * intros r d -> Hd Hcd. rewrite bytes_leb_same in Hlt. apply not_true_iff_false in Hlt. rewrite bytes_leb_cons in Hlt.
        destruct (decide (d = c)); [done|]. specialize (Hmin d Hd ltac:(lia)). destruct Hlt. destruct (decide (n = d)); [by right|left; lia].
      * apply (starts_with_between q k (q ++ [n])); [done| |by apply starts_with_app; exists [n]].
        destruct (bytes_leb_total (q ++ [n]) k) as [E|]; [congruence|done].
  - assert (starts_with k (q ++ [c]) = true ↔ starts_with k q = true) as Hiff.
    { split; [|apply Hsw; intros r d _ Hd Hcd; specialize (Hn d Hd); lia]. rewrite !starts_with_app. intros [r ->]. exists (c :: r). by rewrite <- app_assoc. }
    specialize (IH Hq k Hk Hqk). destruct (prefix_successor q); [by rewrite Hiff|by apply Hiff].
Qed.

Lemma successor_valid p : valid_str p → match prefix_successor p with Some e => valid_str e | None => True end.
Proof.
  induction p as [|c q IH] using rev_ind; intros Hp; [done|]. apply Forall_app in Hp as [Hq Hc]. apply Forall_cons in Hc as [Hc _].
  rewrite prefix_successor_snoc. pose proof (next_char_spec c Hc) as Hn. destruct (next_char c) as [n|]; [|by apply IH].
  apply Forall_app. split; [done|]. apply List.Forall_cons; [apply Hn|apply List.Forall_nil].
Qed.

(** *** Chunks *)
Definition str_lt (a b : str) : Prop := str_ltb a b = true.
(** The order of a walk. *)
Definition ahead (reverse : bool) (a b : str) : bool := if reverse then str_ltb b a else str_ltb a b.
(** What is left of the keys of a prefix after [from]. *)
Definition beyond (from : option str) (reverse : bool) (k : str) : bool :=
  match from with Some f => ahead reverse f k | None => true end.
Definition keys_beyond (ks : list str) (prefix : str) (from : option str) (reverse : bool) : list str :=
  let l := List.filter (fun k => starts_with k prefix && beyond from reverse k) ks in
  if reverse then rev l else l.

Lemma str_ltb_iff a b : valid_str a → valid_str b → str_ltb a b = true ↔ bytes_leb b a = false.
Proof. intros. unfold str_ltb. rewrite str_leb_chars by done. by rewrite negb_true_iff. Qed.
Lemma not_leb a b : bytes_leb a b = false → bytes_leb b a = true.
Proof. destruct (bytes_leb_total a b); congruence. Qed.
Lemma str_ltb_false a b : valid_str a → valid_str b → str_ltb a b = false ↔ bytes_leb b a = true.
Proof. intros. unfold str_ltb. rewrite str_leb_chars by done. by rewrite negb_false_iff. Qed.
Lemma str_ltb_le_trans a b c : valid_str a → valid_str b → valid_str c → str_ltb a b = true → str_ltb c b = false → str_ltb a c = true.
Proof.
  intros ? ? ?. rewrite !str_ltb_iff, str_ltb_false by done. intros Hab Hcb. apply not_true_iff_false. intros ?.
  assert (bytes_leb b a = true) by (by eapply bytes_leb_trans). congruence.
Qed.
Lemma str_ltb_trans a b c : valid_str a → valid_str b → valid_str c → str_ltb a b = true → str_ltb b c = true → str_ltb a c = true.
Proof.
  intros ? ? ? Hab Hbc. apply (str_ltb_le_trans a b c); [done..|]. rewrite str_ltb_false by done. apply str_ltb_iff in Hbc; [|done..]. by apply not_leb.
Qed.
Lemma ahead_trans reverse a b c : valid_str a → valid_str b → valid_str c → ahead reverse a b = true → ahead reverse b c = true → ahead reverse a c = true.
Proof. unfold ahead. intros Ha Hb Hc H1_ H2_. destruct reverse; [by apply (str_ltb_trans c b a)|by apply (str_ltb_trans a b c)]. Qed.
Lemma ahead_irrefl reverse a : valid_str a → ahead reverse a a = false.
Proof. intros. assert (str_ltb a a = false) as E by (rewrite str_ltb_false by done; apply bytes_leb_refl). unfold ahead. by destruct reverse. Qed.
Section chunks.
  Context (ks : list str) (prefix : str).
  Hypothesis ks_sorted : StronglySorted str_lt ks.
  Hypothesis ks_valid : Forall valid_str ks.
  Hypothesis prefix_valid : valid_str prefix.
Lemma key_valid k : k ∈ ks → valid_str k.
Proof. intros Hk. rewrite Forall_forall in ks_valid. by apply ks_valid. Qed.
Lemma prefix_chunk_forward from : (match from with Some f => valid_str f | None => True end) →
  prefix_chunk ks prefix from false = take CHUNK (keys_beyond ks prefix from false).
Proof.
  intros Hf. unfold prefix_chunk, keys_beyond. f_equal.
  assert (∀ ab, (∀ k, k ∈ ks → ab k = true → bytes_leb prefix k = true) → take_while (fun k => starts_with k prefix) (List.filter ab ks) =
    List.filter (fun k => ab k && starts_with k prefix) ks) as Htw.
  { intros ab Hab. rewrite (take_while_filter _ str_lt), filter_filter; [done|by apply sorted_filter|].
    intros x y [Hx Hax]%elem_filter [Hy _]%elem_filter Hlt. apply starts_with_between; [by apply Hab|].
    apply not_leb, str_ltb_iff; [by apply key_valid..|done]. }
  rewrite Htw.
  - apply filter_ext_in. intros k Hk. pose proof (key_valid k Hk) as Hvk. rewrite andb_comm. destruct (starts_with k prefix) eqn:Es; [|done]. cbn [andb].
    apply starts_with_ge in Es. unfold beyond. destruct from as [f|]; [|by rewrite str_leb_chars].
    rewrite !str_leb_chars by done. destruct (bytes_leb prefix f) eqn:E; [done|]. rewrite Es. symmetry. apply str_ltb_iff; [done..|].
    apply not_true_iff_false. intros Hkf. assert (bytes_leb prefix f = true) by (by eapply bytes_leb_trans). congruence.
  - intros k Hk. pose proof (key_valid k Hk) as Hvk. destruct from as [f|]; [|by rewrite str_leb_chars]. rewrite !str_leb_chars by done.
    destruct (bytes_leb prefix f) eqn:E; [|done]. intros Hlt. apply str_ltb_iff in Hlt; [|done..]. apply not_leb in Hlt. by eapply bytes_leb_trans.
Qed.
Lemma prefix_chunk_reverse from : (match from with Some f => valid_str f | None => True end) →
  prefix_chunk ks prefix from true = take CHUNK (keys_beyond ks prefix from true).
Proof.
  intros Hf. unfold prefix_chunk, keys_beyond.
  destruct (match from with Some f => str_leb f prefix | None => false end) eqn:E0.
  - destruct from as [f|]; [|done]. rewrite filter_none; [done|]. apply Forall_forall. intros k Hk. apply not_true_iff_false.
    rewrite andb_true_iff. unfold beyond. intros [Hs Hb]. apply starts_with_ge in Hs. pose proof (key_valid k Hk). rewrite str_leb_chars in E0 by done.
    apply str_ltb_iff in Hb; [|done..]. assert (bytes_leb f k = true) by (by eapply bytes_leb_trans). congruence.
  - rewrite take_while_all.
    + f_equal. f_equal. apply filter_ext_in. intros k Hk. pose proof (key_valid k Hk) as Hvk. rewrite str_leb_chars by done.
      pose proof (prefix_successor_ok prefix prefix_valid k Hvk) as Hsucc. pose proof (successor_valid prefix prefix_valid) as Hve.
      destruct (bytes_leb prefix k) eqn:Epk; cbn [andb].
      2: { symmetry. apply not_true_iff_false. rewrite andb_true_iff. intros [Hs _]. apply starts_with_ge in Hs. congruence. }
      specialize (Hsucc eq_refl). unfold beyond. destruct (prefix_successor prefix) as [e|].
      * rewrite <- str_ltb_iff in Hsucc by done. apply Bool.eq_iff_eq_true in Hsucc as ->. destruct from as [f|]; [|by rewrite andb_true_r].
        destruct (str_ltb e f) eqn:Eef; apply Bool.eq_iff_eq_true; rewrite andb_true_iff; (split; [|tauto]); intros Hk'; split; try done.
        -- by apply (str_ltb_trans k e f).
        -- by apply (str_ltb_le_trans k f e).
      * rewrite Hsucc. by destruct from.
    + apply Forall_forall. intros k Hk. apply list_elem_of_In, List.in_rev, list_elem_of_In, elem_filter in Hk as [Hk Hb].
      apply andb_true_iff in Hb as [Hpk Hb]. pose proof (key_valid k Hk) as Hvk. rewrite str_leb_chars in Hpk by done.
      pose proof (prefix_successor_ok prefix prefix_valid k Hvk Hpk) as Hsucc. pose proof (successor_valid prefix prefix_valid) as Hve.
      destruct (prefix_successor prefix) as [e|]; [|done]. apply Hsucc. rewrite <- str_ltb_iff by done. destruct from as [f|]; [|done].
      destruct (str_ltb e f) eqn:Eef; [done|]. by apply (str_ltb_le_trans k f e).
Qed.

Lemma keys_beyond_sorted from reverse : StronglySorted (fun a b => ahead reverse a b = true) (keys_beyond ks prefix from reverse).
Proof.
  unfold keys_beyond, ahead. destruct reverse; [|by apply sorted_filter]. apply sorted_rev. by apply sorted_filter.
Qed.
Lemma elem_keys_beyond from reverse k : k ∈ keys_beyond ks prefix from reverse ↔ k ∈ ks ∧ starts_with k prefix = true ∧ beyond from reverse k = true.
Proof.
  unfold keys_beyond. assert (k ∈ List.filter (fun k => starts_with k prefix && beyond from reverse k) ks ↔
    k ∈ ks ∧ starts_with k prefix = true ∧ beyond from reverse k = true) as <- by (by rewrite elem_filter, andb_true_iff).
  destruct reverse; [|done]. by rewrite !list_elem_of_In, <- List.in_rev.
Qed.
(** What is left after one of the keys that are left. *)
Lemma keys_beyond_next from reverse c1 k c2 : (match from with Some f => valid_str f | None => True end) →
  keys_beyond ks prefix from reverse = c1 ++ k :: c2 → keys_beyond ks prefix (Some k) reverse = c2.
Proof.
  intros Hf E. pose proof (keys_beyond_sorted from reverse) as Hs. rewrite E in Hs.
  assert (k ∈ ks ∧ starts_with k prefix = true ∧ beyond from reverse k = true) as (Hk & _ & Hkf)
    by (apply elem_keys_beyond; rewrite E; apply elem_of_app; right; left).
  assert (keys_beyond ks prefix (Some k) reverse = List.filter (beyond (Some k) reverse) (keys_beyond ks prefix from reverse)) as ->.
  { unfold keys_beyond. assert (List.filter (beyond (Some k) reverse) (List.filter (fun k0 => starts_with k0 prefix && beyond from reverse k0) ks) =
      List.filter (fun k0 => starts_with k0 prefix && beyond (Some k) reverse k0) ks) as E1.
    { rewrite filter_filter. apply filter_ext_in. intros x Hx. destruct (starts_with x prefix); [|done]. cbn [andb].
      destruct (beyond (Some k) reverse x) eqn:Ex; [|by rewrite andb_false_r]. rewrite andb_true_r. unfold beyond in *. destruct from as [f|]; [|done].
      eapply (ahead_trans reverse f k x); try done; by apply key_valid. }
    destruct reverse; [by rewrite filter_rev_, E1|done]. }
  rewrite E, filter_app_. cbn [List.filter].
  cbn [beyond]. rewrite (ahead_irrefl reverse k) by (by apply key_valid). apply StronglySorted_app in Hs as (Hlt & _ & Hs2).
  apply StronglySorted_inv in Hs2 as [_ Hs2]. rewrite (filter_none _ c1), filter_all; [done|done|].
  apply Forall_forall. intros x Hx. apply not_true_iff_false. intros Hkx. specialize (Hlt x k Hx ltac:(by left)).
  assert (x ∈ ks) as Hxk by (apply (elem_keys_beyond from reverse); rewrite E; apply elem_of_app; by left).
  pose proof (ahead_trans reverse k x k (key_valid k Hk) (key_valid x Hxk) (key_valid k Hk) Hkx Hlt) as Hkk.
  rewrite (ahead_irrefl reverse k) in Hkk by (by apply key_valid). done.
Qed.
Lemma keys_beyond_len from reverse : (length (keys_beyond ks prefix from reverse) ≤ length ks)%nat.
Proof. unfold keys_beyond. destruct reverse; rewrite ?length_rev; apply List.filter_length_le. Qed.
Lemma walk_prefix_all fuel reverse : ∀ from, (match from with Some f => valid_str f | None => True end) →
  (length (keys_beyond ks prefix from reverse) < fuel)%nat → walk_prefix fuel ks prefix from reverse = Some (keys_beyond ks prefix from reverse).
Proof.
  induction fuel as [|fuel IH]; intros from Hf Hlen; [lia|]. cbn [walk_prefix].
  assert (prefix_chunk ks prefix from reverse = take CHUNK (keys_beyond ks prefix from reverse)) as ->
    by (destruct reverse; [by apply prefix_chunk_reverse|by apply prefix_chunk_forward]).
  pose proof (take_drop CHUNK (keys_beyond ks prefix from reverse)) as Etd.
  destruct (list_snoc_cases (take CHUNK (keys_beyond ks prefix from reverse))) as [E|(c & k & E)].
  - rewrite E. cbn [last]. f_equal. destruct (keys_beyond ks prefix from reverse); [done|]. by apply (f_equal length) in E.
  - rewrite E, last_snoc. rewrite E, <- app_assoc in Etd. cbn [app] in Etd. symmetry in Etd.
    pose proof (keys_beyond_next from reverse _ k _ Hf Etd) as En.
    assert (k ∈ keys_beyond ks prefix from reverse) as Hk by (rewrite Etd; apply elem_of_app; right; left).
    apply elem_keys_beyond in Hk as [Hk _]. rewrite IH, En.
    + cbn [fmap option_fmap option_map]. f_equal. rewrite <- app_assoc. symmetry. exact Etd.
    + by apply key_valid.
    + rewrite En. apply (f_equal length) in Etd. rewrite length_app in Etd. cbn [length] in Etd. lia.
Qed.
End chunks.

(** The readers of a query see every key. The keys that start with a
    prefix, read a few at a time from the last key of the step before, in
    either direction and from any key on, are all of them, in order, each
    once; the loop ends within one step more than there are keys. *)
Theorem prefix_walk_exact ks prefix from reverse :
  StronglySorted str_lt ks → Forall valid_str ks → valid_str prefix → (match from with Some f => valid_str f | None => True end) →
  walk_prefix (S (length ks)) ks prefix from reverse = Some (keys_beyond ks prefix from reverse).
Proof. intros Hs Hv Hp Hf. apply walk_prefix_all; try done. pose proof (keys_beyond_len ks prefix from reverse). lia. Qed.
Lemma prefix_walk_exact_witness :
  let ks := [lit "a"; lit "user:1"; lit "user:2"; lit "user:3"; lit "v"] in
  StronglySorted str_lt ks ∧
  walk_prefix (S (length ks)) ks (lit "user:") (Some (lit "user:3")) true = Some [lit "user:2"; lit "user:1"].
Proof.
  intros ks. assert (StronglySorted str_lt ks) as Hs.
  { subst ks. repeat (apply SSorted_cons; [|repeat (apply List.Forall_cons; [vm_compute; reflexivity|]); apply List.Forall_nil]). apply SSorted_nil. }
  split; [exact Hs|]. assert (Forall valid_str ks) as Hv.
  { subst ks. repeat (apply List.Forall_cons; [apply ascii_valid; repeat (apply List.Forall_cons; [unfold is_ascii; vm_decide|]); apply List.Forall_nil|]). apply List.Forall_nil. }
  assert (∀ s, Forall is_ascii s → valid_str s) as Ha by exact ascii_valid.
  rewrite (prefix_walk_exact ks (lit "user:") (Some (lit "user:3")) true Hs Hv); [vm_compute; reflexivity|..];
    apply Ha; repeat (apply List.Forall_cons; [unfold is_ascii; vm_decide|]); apply List.Forall_nil.
Defined.

(** ** Sets of keys *)
Fixpoint intersect_sorted (a : list str) : list str → list str :=
  fix go (b : list str) : list str :=
    match a, b with
    | x :: a', y :: b' =>
      if bool_decide (x = y) then x :: intersect_sorted a' b'
      else if str_ltb x y then intersect_sorted a' b
      else go b'
    | _, _ => []
    end.
Fixpoint union_sorted (a : list str) : list str → list str :=
  fix go (b : list str) : list str :=
    match a, b with
    | x :: a', y :: b' =>
      if bool_decide (x = y) then x :: union_sorted a' b'
      else if str_ltb x y then x :: union_sorted a' b
      else y :: go b'
    | x :: a', [] => x :: union_sorted a' []
    | [], y :: b' => y :: go b'
    | [], [] => []
    end.
Lemma intersect_cons x a y b : intersect_sorted (x :: a) (y :: b) =
  if bool_decide (x = y) then x :: intersect_sorted a b else if str_ltb x y then intersect_sorted a (y :: b) else intersect_sorted (x :: a) b.
Proof. done. Qed.
Lemma union_cons x a y b : union_sorted (x :: a) (y :: b) =
  if bool_decide (x = y) then x :: union_sorted a b else if str_ltb x y then x :: union_sorted a (y :: b) else y :: union_sorted (x :: a) b.
Proof. done. Qed.
Lemma union_nil_r a : union_sorted a [] = a.
Proof. induction a as [|x a IH]; [done|]. change (x :: union_sorted a [] = x :: a). by rewrite IH. Qed.
Lemma union_nil_l b : union_sorted [] b = b.
Proof. induction b as [|x b IH]; [done|]. change (x :: union_sorted [] b = x :: b). by rewrite IH. Qed.
(** The order of two different texts. *)
Lemma str_lt_total a b : valid_str a → valid_str b → a ≠ b → str_ltb a b = false → str_lt b a.
Proof.
  intros Ha Hb Hne. unfold str_lt. rewrite str_ltb_false, str_ltb_iff by done. intros Hba. apply not_true_iff_false. intros Hab.
  apply Hne. by apply bytes_leb_antisym.
Qed.
Lemma str_lt_irrefl a : valid_str a → ¬ str_lt a a.
Proof. intros Ha. unfold str_lt. pose proof (ahead_irrefl false a Ha) as E. unfold ahead in E. by rewrite E. Qed.

(** Texts in order, each once. *)
Definition key_set (l : list str) : Prop := StronglySorted str_lt l ∧ Forall valid_str l.
Lemma key_set_cons x l : key_set (x :: l) ↔ valid_str x ∧ key_set l ∧ ∀ y, y ∈ l → str_lt x y.
Proof.
  unfold key_set. rewrite StronglySorted_cons, Forall_cons, Forall_forall. tauto.
Qed.
Lemma key_set_valid l x : key_set l → x ∈ l → valid_str x.
Proof. intros [_ Hv] Hx. rewrite Forall_forall in Hv. by apply Hv. Qed.
Lemma str_lt_trans a b c : valid_str a → valid_str b → valid_str c → str_lt a b → str_lt b c → str_lt a c.
Proof. apply str_ltb_trans. Qed.
(** A text before all of a set is not in it. *)
Lemma key_set_before x l : valid_str x → key_set l → (∀ y, y ∈ l → str_lt x y) → x ∉ l.
Proof. intros Hx Hl Hlt Hin. by apply (str_lt_irrefl x Hx), Hlt. Qed.
Lemma intersect_exact a : ∀ b, key_set a → key_set b →
  key_set (intersect_sorted a b) ∧ ∀ k, k ∈ intersect_sorted a b ↔ k ∈ a ∧ k ∈ b.
Proof.
  induction a as [|x a IHa]; intros b Ha Hb.
  { assert (intersect_sorted [] b = []) as -> by (by destruct b). split; [done|]. intros k. rewrite elem_of_nil. tauto. }
  induction b as [|y b IHb]; [split; [done|]; intros k; rewrite !elem_of_nil; tauto|].
  apply key_set_cons in Ha as (Hx & Ha & Hxa). pose proof Hb as Hb0. apply key_set_cons in Hb as (Hy & Hb & Hyb). rewrite intersect_cons.
  assert (str_lt x y → ∀ z, z ∈ y :: b → str_lt x z) as Hxb.
  { intros Hxy z [->|Hz]%elem_of_cons; [done|]. apply (str_lt_trans x y z); [done|done|by apply (key_set_valid b)|done|by apply Hyb]. }
  case_bool_decide as Exy; [|destruct (str_ltb x y) eqn:E].
  - subst y. destruct (IHa b Ha Hb) as [Hi Hk]. split.
    + apply key_set_cons. split; [done|]. split; [done|]. intros z Hz. apply Hk in Hz as [? _]. by apply Hxa.
    + intros k. rewrite !elem_of_cons, Hk. pose proof (key_set_before x a Hx Ha Hxa). pose proof (key_set_before x b Hx Hb Hyb). naive_solver.
  - destruct (IHa (y :: b) Ha Hb0) as [Hi Hk]. split; [done|]. intros k. rewrite Hk. rewrite (elem_of_cons a).
    pose proof (key_set_before x (y :: b) Hx Hb0 (Hxb E)). naive_solver.
  - pose proof (str_lt_total x y Hx Hy Exy E) as Hyx. destruct IHb as [Hi Hk]; [done|]. split; [done|].
    intros k. rewrite Hk. rewrite (elem_of_cons b). assert (y ∉ x :: a) as Hn.
    { apply key_set_before; [done|by apply key_set_cons|]. intros z [->|Hz]%elem_of_cons; [done|].
      apply (str_lt_trans y x z); [done|done|by apply (key_set_valid a)|done|by apply Hxa]. }
    naive_solver.
Qed.
Lemma union_exact a : ∀ b, key_set a → key_set b →
  key_set (union_sorted a b) ∧ ∀ k, k ∈ union_sorted a b ↔ k ∈ a ∨ k ∈ b.
Proof.
  induction a as [|x a IHa]; intros b Ha Hb; [rewrite union_nil_l; split; [done|]; intros k; rewrite elem_of_nil; tauto|].
  induction b as [|y b IHb]; [rewrite union_nil_r; split; [done|]; intros k; rewrite elem_of_nil; tauto|].
  pose proof Ha as Ha0. apply key_set_cons in Ha as (Hx & Ha & Hxa). pose proof Hb as Hb0. apply key_set_cons in Hb as (Hy & Hb & Hyb). rewrite union_cons.
  case_bool_decide as Exy; [|destruct (str_ltb x y) eqn:E].
  - subst y. destruct (IHa b Ha Hb) as [Hi Hk]. split.
    + apply key_set_cons. split; [done|]. split; [done|]. intros z [?|?]%Hk; auto.
    + intros k. rewrite !elem_of_cons, Hk. tauto.
  - destruct (IHa (y :: b) Ha Hb0) as [Hi Hk]. split.
    + apply key_set_cons. split; [done|]. split; [done|]. intros z [?|[->|Hz]%elem_of_cons]%Hk; [auto|done|].
      apply (str_lt_trans x y z); [done|done|by apply (key_set_valid b)|done|by apply Hyb].
    + intros k. rewrite !elem_of_cons, Hk, elem_of_cons. tauto.
  - pose proof (str_lt_total x y Hx Hy Exy E) as Hyx. destruct IHb as [Hi Hk]; [done|]. split.
    + apply key_set_cons. split; [done|]. split; [done|]. intros z [[->|Hz]%elem_of_cons|?]%Hk; [done| |auto].
      apply (str_lt_trans y x z); [done|done|by apply (key_set_valid a)|done|by apply Hxa].
    + intros k. rewrite !elem_of_cons, Hk, elem_of_cons. tauto.
Qed.
(** What is sorted, each once, is a set in order. *)
Lemma key_set_sorted l : StronglySorted str_le l → NoDup l → Forall valid_str l → key_set l.
Proof.
  intros Hs Hn Hf. split; [|done]. induction Hs as [|x l Hs IH Hx]; [constructor|]. apply NoDup_cons in Hn as [Hnx Hn]. apply Forall_cons in Hf as [Hvx Hf].
  constructor; [by apply IH|]. apply Forall_forall. intros y Hy. rewrite Forall_forall in Hx, Hf. unfold str_lt. specialize (Hx y Hy). unfold str_le, str_leb in Hx.
  destruct (str_ltb x y) eqn:E; [done|]. unfold str_ltb in E. apply negb_false_iff in E.
  assert (x = y) as ->; [|done]. apply utf8_inj; [done|by apply Hf|]. by apply bytes_leb_antisym.
Qed.
Lemma keys_of_set {A} (m : gmap str A) : (∀ k, is_Some (m !! k) → valid_str k) → key_set (keys_of m).
Proof.
  intros Hv. apply key_set_sorted; [|apply entries_NoDup|].
  - unfold keys_of. induction (entries_sorted m) as [|x l _ IH Hx]; [constructor|]. cbn [fmap list_fmap]. constructor; [exact IH|]. by apply Forall_fmap.
  - apply Forall_forall. intros k ([k' a] & -> & Hk)%list_elem_of_fmap. apply Hv. exists a. by apply elem_of_entries.
Qed.
Lemma elem_keys_of {A} (m : gmap str A) k : k ∈ keys_of m ↔ is_Some (m !! k).
Proof.
  unfold keys_of. rewrite list_elem_of_fmap. split; [intros ([k' a] & -> & Hk%elem_of_entries); by exists a|]. intros [a Ha]. exists (k, a). split; [done|]. by apply elem_of_entries.
Qed.
Lemma ahead_NoDup reverse l : Forall valid_str l → StronglySorted (fun a b => ahead reverse a b = true) l → NoDup l.
Proof.
  intros Hv Hs. induction Hs as [|x l Hs IH Hx]; [constructor|]. apply Forall_cons in Hv as [Hvx Hv]. constructor; [|by apply IH]. intros Hxl.
  rewrite Forall_forall in Hx. specialize (Hx x Hxl). by rewrite (ahead_irrefl reverse x Hvx) in Hx.
Qed.
(** Lists in one order, with the same keys, are equal. *)
Lemma ahead_unique reverse l1 l2 : Forall valid_str l1 → StronglySorted (fun a b => ahead reverse a b = true) l1 →
  StronglySorted (fun a b => ahead reverse a b = true) l2 → (∀ k, k ∈ l1 ↔ k ∈ l2) → l1 = l2.
Proof.
  intros Hv H1_ H2_ Heq. assert (Forall valid_str l2) as Hv2 by (rewrite Forall_forall in *; intros k Hk; by apply Hv, Heq).
  apply (StronglySorted_unique_strong (fun a b => ahead reverse a b = true)); [|done|done|].
  - intros x y Hx Hy%Heq Hxy Hyx. rewrite Forall_forall in Hv. pose proof (ahead_trans reverse x y x (Hv x Hx) (Hv y Hy) (Hv x Hx) Hxy Hyx) as E.
    rewrite (ahead_irrefl reverse x) in E by (by apply Hv). done.
  - apply NoDup_Permutation; [by eapply ahead_NoDup..|done].
Qed.
