(* ===== verification/Ordering.v ===== *)
(** * [src/num.rs] and [src/engine/ordering.rs]: the order of JSON numbers, of
    index values and of rows; the rows a limited query keeps

    A JSON number ([serde_json::Number]) is a parameter: an [i64], a [u64] or
    a float. A [BinaryHeap] is the list of what it holds; its top is the
    greatest. *)
From Stdlib Require Import QArith_base.
From S2P Require Import Prelude Utf8 Maps DocNum Floats.
Open Scope Z_scope.

Class JsonNumbers := {
  Number : Type;
  as_i64 : Number → option Z;
  as_u64 : Number → option Z;
  as_f64 : Number → option Z;
}.
(** Documented: a number is held by one of the three; an integer by [i64]
    when it fits; no float of a JSON number is infinite or NaN. *)
Class JsonNumbersLaws `{JsonNumbers} : Prop := {
  number_cases n :
    (∃ i, as_i64 n = Some i ∧ in_i64 i) ∨
    (as_i64 n = None ∧ ∃ u, as_u64 n = Some u ∧ i64_max < u ≤ u64_max) ∨
    (as_i64 n = None ∧ as_u64 n = None ∧ ∃ f, as_f64 n = Some f ∧ in_u 64 f ∧ f_finite f = true);
}.
(** [Decimal::from(u64)] *)
Class DecimalFrom `{Decimals} := { dec_from_u64 : Z → Decimal }.
Class DecimalFromLaws `{DecimalFrom} : Prop := {
  dec_from_mantissa u : 0 ≤ u ≤ u64_max → mantissa (dec_from_u64 u) = u;
  dec_from_scale u : 0 ≤ u ≤ u64_max → scale (dec_from_u64 u) = 0;
}.

(** ** Numbers *)
(** -2^63 and 2^64, as floats. *)
Definition NEG_TWO_63 : Z := 0xC3E0000000000000.
Definition TWO_64 : Z := 0x43F0000000000000.
Definition ZERO : Z := 0.

Section numbers.
  Context `{JsonNumbers} `{DecimalFrom}.

Inductive Exact := XInt (i : Z) | XFloat (f : Z).
Definition exact (n : Number) : Exact :=
  match as_i64 n, as_u64 n with
  | Some i, _ => XInt i
  | None, Some u => XInt u
  | None, None => XFloat (default ZERO (as_f64 n))
  end.
Definition int_float (i f : Z) : comparison :=
  if negb (f_lt f TWO_64) then Lt
  else if f_lt f NEG_TWO_63 then Gt
  else then_with (i ?= clamp (- 2 ^ 127) (2 ^ 127 - 1) (f_trunc f)) (Qcompare 0 (f_fract f)).
Definition cmp (a b : Number) : comparison :=
  match exact a, exact b with
  | XInt x, XInt y => x ?= y
  | XInt x, XFloat y => int_float x y
  | XFloat x, XInt y => CompOpp (int_float y x)
  | XFloat x, XFloat y => Qcompare (f_value x) (f_value y)
  end.

Inductive NumKey := KJson (n : Number) | KDecimal (d : Decimal).
Definition with_num (k : NumKey) : Num :=
  match k with
  | KDecimal d => NDecimal d
  | KJson n =>
    match as_i64 n, as_u64 n with
    | Some i, _ => NInt i
    | None, Some u => NDecimal (dec_from_u64 u)
    | None, None => NFloat (default ZERO (as_f64 n))
    end
  end.
Definition numkey_cmp (a b : NumKey) : comparison :=
  match a, b with
  | KJson x, KJson y => cmp x y
  | _, _ => cmp_num (with_num a) (with_num b)
  end.
Definition cmp_json (k : NumKey) (n : Number) : comparison :=
  match k with KJson m => cmp m n | KDecimal _ => numkey_cmp k (KJson n) end.

(** The exact value. *)
Definition key_value (k : NumKey) : Q := num_value (with_num k).

Context `{DL : !DecimalsLaws} `{JL : !JsonNumbersLaws} `{FL : !DecimalFromLaws}.

Lemma with_num_ok k : num_ok (with_num k).
Proof.
  destruct k as [n|d]; [|done]. unfold with_num. destruct (number_cases n) as [(i & -> & Hi)|[(-> & u & -> & Hu)|(-> & -> & f & -> & Hf)]]; done.
Qed.
Lemma int_float_exact i f : - 2 ^ 63 ≤ i ≤ u64_max → in_u 64 f → f_finite f = true → int_float i f = Qcompare (Qmake i 1) (f_value f).
Proof.
  intros Hi Hf Hfin. unfold int_float. destruct (f_parts f) as [m e] eqn:E.
  destruct (f_split f m e E Hfin) as (D & t & r & _ & HD & Ht & Hr & Et & Efr & Ev & _).
  assert (∀ x c, f_value x = Qmake c 1 → f_lt f x = ((if f_sign f then - (t * D + r) else t * D + r) <? c * D)) as Hlt.
  { intros x c Ex. unfold f_lt. rewrite Ev, Ex. change 1%positive with (Z.to_pos 1). rewrite Qcompare_pos by lia. by rewrite Z.mul_1_r. }
  rewrite (Hlt TWO_64 (2 ^ 64)), (Hlt NEG_TWO_63 (- 2 ^ 63)) by (vm_compute; reflexivity).
  assert (Qcompare (Qmake i 1) (f_value f) = (i * D ?= if f_sign f then - (t * D + r) else t * D + r)) as Ecmp.
  { rewrite Ev. change (Qmake i 1) with (Qmake i (Z.to_pos 1)). rewrite Qcompare_pos by lia. by rewrite Z.mul_1_r. }
  unfold u64_max in Hi. destruct (Z.ltb_spec (if f_sign f then - (t * D + r) else t * D + r) (2 ^ 64 * D)) as [H64|H64]; cbn [negb].
  2: { rewrite Ecmp. symmetry. apply Z.compare_lt_iff. nia. }
  destruct (Z.ltb_spec (if f_sign f then - (t * D + r) else t * D + r) (- 2 ^ 63 * D)) as [H63|H63].
  { rewrite Ecmp. symmetry. apply Z.compare_gt_iff. nia. }
  assert (clamp (- 2 ^ 127) (2 ^ 127 - 1) (f_trunc f) = if f_sign f then - t else t) as ->.
  { rewrite Et. unfold clamp. destruct (f_sign f); nia. }
  by apply (whole_fract_cmp i f D t r).
Qed.
Lemma cmp_exact a b : cmp a b = Qcompare (key_value (KJson a)) (key_value (KJson b)).
Proof.
  assert (∀ u, i64_max < u ≤ u64_max → num_value (NDecimal (dec_from_u64 u)) = Qmake u 1) as Hdec.
  { intros u Hu. unfold i64_max, u64_max in *. cbn [num_value]. rewrite dec_from_mantissa, dec_from_scale by (unfold u64_max; lia). done. }
  assert (∀ x y, (x ?= y) = Qcompare (Qmake x 1) (Qmake y 1)) as Hz by (intros; unfold Qcompare; cbn [Qnum Qden]; by rewrite !Z.mul_1_r).
  assert (∀ i, in_i64 i → - 2 ^ 63 ≤ i ≤ u64_max) as Hi64 by (unfold in_i64, i64_min, i64_max, u64_max; lia).
  assert (∀ u, i64_max < u ≤ u64_max → - 2 ^ 63 ≤ u ≤ u64_max) as Hu64 by (unfold i64_max, u64_max; lia).
  unfold cmp, exact, key_value, with_num.
  destruct (number_cases a) as [(i & -> & Hi)|[(-> & u & -> & Hu)|(-> & -> & f & -> & Hf & Hff)]];
    destruct (number_cases b) as [(j & -> & Hj)|[(-> & v & -> & Hv)|(-> & -> & g & -> & Hg & Hgf)]]; rewrite ?Hdec by done; cbn [num_value default];
    first [apply Hz|apply int_float_exact; auto|rewrite int_float_exact by auto; apply Qcompare_antisym|done].
Qed.
Lemma numkey_cmp_exact a b : numkey_cmp a b = Qcompare (key_value a) (key_value b).
Proof.
  destruct a as [a|a], b as [b|b]; cbn [numkey_cmp]; [apply cmp_exact|..]; apply cmp_num_value; apply with_num_ok.
Qed.
Lemma cmp_json_exact k n : cmp_json k n = Qcompare (key_value k) (key_value (KJson n)).
Proof. destruct k; [apply cmp_exact|apply numkey_cmp_exact]. Qed.
End numbers.

(** ** Orders as comparisons *)
(** A total order up to [Eq] of the values of [P]: what [Ord] promises. *)
Record ord_on {A} (P : A → Prop) (f : A → A → comparison) : Prop := {
  oo_opp a b : P a → P b → f b a = CompOpp (f a b);
  oo_trans a b c : P a → P b → P c → f a b ≠ Gt → f b c ≠ Gt → f a c ≠ Gt;
}.
Abbreviation ord_laws := (ord_on (fun _ => True)).
Lemma Q_ord {A} P (v : A → Q) (f : A → A → comparison) : (∀ a b, f a b = Qcompare (v a) (v b)) → ord_on P f.
Proof.
  intros E. split.
  - intros a b _ _. rewrite !E. symmetry. apply Qcompare_antisym.
  - intros a b c _ _ _. rewrite !E, <- !Qle_alt. apply Qle_trans.
Qed.
Lemma Z_ord P : ord_on P Z.compare.
Proof. split; [intros; apply Z.compare_antisym|]. intros a b c _ _ _. rewrite !Z.compare_ngt_iff. lia. Qed.
Lemma map_ord {A B} (P : A → Prop) (Q : B → Prop) (v : A → B) f : (∀ a, P a → Q (v a)) → ord_on Q f → ord_on P (fun a b => f (v a) (v b)).
Proof. intros HQ [Ho Ht]. split; [intros; apply Ho; auto|intros a b c Ha Hb Hc; apply Ht; auto]. Qed.
Lemma opp_ord {A} (P : A → Prop) f : ord_on P f → ord_on P (fun a b => CompOpp (f a b)).
Proof.
  intros [Ho Ht]. split; [intros a b Ha Hb; by rewrite (Ho a b)|]. intros a b c Ha Hb Hc. rewrite <- !Ho by done. intros. by apply (Ht _ b).
Qed.

Section ord.
  Context {A : Type} (P : A → Prop) (f : A → A → comparison).
  Hypothesis Hf : ord_on P f.
Lemma ord_refl a : P a → f a a = Eq.
Proof. intros Ha. pose proof (oo_opp P f Hf a a Ha Ha) as Ho. by destruct (f a a). Qed.
(** Equal values compare alike. *)
Lemma ord_eq a b c : P a → P b → P c → f a b = Eq → f a c = f b c.
Proof.
  intros Ha Hb Hc E. assert (f b a = Eq) as E' by (by rewrite (oo_opp P f Hf), E).
  pose proof (oo_trans P f Hf a b c) as T1. pose proof (oo_trans P f Hf b a c) as T2.
  pose proof (oo_trans P f Hf c a b) as T3. pose proof (oo_trans P f Hf c b a) as T4.
  rewrite (oo_opp P f Hf a c), (oo_opp P f Hf b c) in * by done. rewrite E in *. rewrite E' in *.
  destruct (f a c), (f b c); cbn [CompOpp] in *; try done; exfalso; first [by apply T1|by apply T2|by apply T3|by apply T4].
Qed.
Lemma ord_lt_le a b c : P a → P b → P c → f a b = Lt → f b c ≠ Gt → f a c = Lt.
Proof.
  intros Ha Hb Hc Hab Hbc. pose proof (oo_trans P f Hf a b c Ha Hb Hc) as T. rewrite Hab in T. destruct (f a c) eqn:E; [|done|by destruct T].
  pose proof (ord_eq a c b Ha Hc Hb E) as Ecb. rewrite Hab in Ecb. rewrite (oo_opp P f Hf b c) in Ecb by done. by destruct (f b c).
Qed.
(** First one order, then another. *)
Lemma then_ord g : ord_on P g → ord_on P (fun a b => then_with (f a b) (g a b)).
Proof.
  intros Hg. split.
  - intros a b Ha Hb. rewrite (oo_opp P f Hf a b), (oo_opp P g Hg a b) by done. by destruct (f a b).
  - intros a b c Ha Hb Hc. destruct (f a b) eqn:Eab; cbn [then_with]; [| |done].
    + rewrite (ord_eq a b c Ha Hb Hc Eab). destruct (f b c); cbn [then_with]; [by apply (oo_trans P g Hg)|done|done].
    + intros _ Hbc. rewrite (ord_lt_le a b c Ha Hb Hc Eab); [done|]. by destruct (f b c).
Qed.
(** Lists, element by element. *)
Fixpoint list_cmp (l m : list A) : comparison :=
  match l, m with
  | [], [] => Eq
  | [], _ => Lt
  | _, [] => Gt
  | x :: l, y :: m => then_with (f x y) (list_cmp l m)
  end.
Lemma list_ord : ord_on (Forall P) list_cmp.
Proof.
  split.
  - intros l. induction l as [|x l IH]; intros [|y m] Hl Hm; [done..|]. apply Forall_cons in Hl as [Hx Hl], Hm as [Hy Hm].
    cbn [list_cmp]. rewrite IH, (oo_opp P f Hf x y) by done. by destruct (f x y).
  - intros l. induction l as [|x l IH]; intros [|y m] [|z n] Hl Hm Hn; try done.
    apply Forall_cons in Hl as [Hx Hl], Hm as [Hy Hm], Hn as [Hz Hn]. cbn [list_cmp]. destruct (f x y) eqn:Exy; cbn [then_with]; [| |done].
    + rewrite (ord_eq x y z Hx Hy Hz Exy). destruct (f y z); cbn [then_with]; [by apply IH|done|done].
    + intros _ Hyz. rewrite (ord_lt_le x y z Hx Hy Hz Exy); [done|]. by destruct (f y z).
Qed.
End ord.
Arguments list_cmp {A} f l m.
Definition str_cmp (s t : str) : comparison := list_cmp Z.compare (utf8 s) (utf8 t).
Lemma str_ord P : ord_on P str_cmp.
Proof.
  apply (map_ord P (Forall (fun _ => True)) utf8); [|apply list_ord, Z_ord]. intros s _. by apply Forall_true.
Qed.
Lemma list_cmp_eq l : ∀ m, list_cmp Z.compare l m = Eq → l = m.
Proof.
  induction l as [|x l IH]; intros [|y m]; try done. cbn [list_cmp]. destruct (x ?= y) eqn:E; cbn [then_with]; [|done|done].
  apply Z.compare_eq_iff in E as ->. intros Hl. f_equal. by apply IH.
Qed.
Lemma str_cmp_eq s t : valid_str s → valid_str t → str_cmp s t = Eq → s = t.
Proof. intros Hs Ht E. apply utf8_inj; [done..|]. by apply list_cmp_eq. Qed.

(** ** Index values and rows *)
Section ordering.
  Context `{JsonNumbers} `{DecimalFrom} {V : Type}.

Inductive SKey := KNull | KBool (b : bool) | KNum (n : NumKey) | KStr (s : str) | KTuple (parts : list SKey).
(** The order of the variants. *)
Definition skey_kind (k : SKey) : Z := match k with KNull => 0 | KBool _ => 1 | KNum _ => 2 | KStr _ => 3 | KTuple _ => 4 end.
(** The derived order. *)
Fixpoint skey_cmp (a b : SKey) : comparison :=
  match a, b with
  | KBool x, KBool y => Z.b2z x ?= Z.b2z y
  | KNum x, KNum y => numkey_cmp x y
  | KStr x, KStr y => str_cmp x y
  | KTuple x, KTuple y => list_cmp skey_cmp x y
  | _, _ => skey_kind a ?= skey_kind b
  end.
Definition same_kind (a b : SKey) : bool := skey_kind a =? skey_kind b.

(** How two rows compare: by their sort keys, [None] last, then by key. *)
Definition compare (a : option SKey) (a_key : str) (b : option SKey) (b_key : str) (desc : bool) : comparison :=
  match a, b with
  | Some x, Some y =>
    let o := skey_cmp x y in
    then_with (if desc then CompOpp o else o) (str_cmp a_key b_key)
  | Some _, None => Lt
  | None, Some _ => Gt
  | None, None => str_cmp a_key b_key
  end.
Record Row := { sk : option SKey; rkey : str; rdoc : V }.
Definition row_cmp (desc : bool) (r o : Row) : comparison := compare (sk r) (rkey r) (sk o) (rkey o) desc.

Record TopK := { limit : nat; topk_desc : bool; heap : list Row; all : list Row; offered : Z }.
Definition TopK_new (limit : nat) (desc : bool) : TopK := {| limit := limit; topk_desc := desc; heap := []; all := []; offered := 0 |}.
(** The greatest of a heap, and the others. *)
Fixpoint heap_pop (desc : bool) (l : list Row) : option (Row * list Row) :=
  match l with
  | [] => None
  | r :: l =>
    match heap_pop desc l with
    | None => Some (r, [])
    | Some (m, rest) => match row_cmp desc r m with Gt => Some (r, m :: rest) | _ => Some (m, r :: rest) end
    end
  end.
Definition heap_peek (desc : bool) (l : list Row) : option Row := fst <$> heap_pop desc l.
Definition offer (t : TopK) (k : option SKey) (key : str) (doc : V) : TopK :=
  let row := {| sk := k; rkey := key; rdoc := doc |} in
  let with_ h a := {| limit := limit t; topk_desc := topk_desc t; heap := h; all := a; offered := offered t + 1 |} in
  if Nat.eqb (limit t) 0 then with_ (heap t) (all t ++ [row])
  else if Nat.ltb (length (heap t)) (limit t) then with_ (row :: heap t) (all t)
  else
    match heap_peek (topk_desc t) (heap t) with
    | Some last =>
      match row_cmp (topk_desc t) row last, heap_pop (topk_desc t) (heap t) with
      | Lt, Some (_, rest) => with_ (row :: rest) (all t)
      | _, _ => with_ (heap t) (all t)
      end
    | None => with_ (heap t) (all t)
    end.
Definition topk_len (t : TopK) : nat := (length (heap t) + length (all t))%nat.
Definition last_kept (t : TopK) : option Row :=
  if negb (Nat.eqb (limit t) 0) && Nat.leb (limit t) (length (heap t)) then heap_peek (topk_desc t) (heap t) else None.
Definition would_keep (t : TopK) (k : option SKey) (key : str) : bool :=
  match last_kept t with
  | None => true
  | Some last => match compare k key (sk last) (rkey last) (topk_desc t) with Lt => true | _ => false end
  end.
Definition row_le (desc : bool) (r o : Row) : Prop := row_cmp desc r o ≠ Gt.
#[export] Instance row_le_dec desc r o : Decision (row_le desc r o).
Proof. unfold row_le. destruct (row_cmp desc r o); [left|left|right]; naive_solver. Defined.
Definition into_sorted (t : TopK) : list Row :=
  merge_sort (row_le (topk_desc t)) (if Nat.eqb (limit t) 0 then all t else heap t).

(** The first rows, by sorting them all. *)
Definition first_rows (limit : nat) (desc : bool) (rows : list Row) : list Row :=
  let l := merge_sort (row_le desc) rows in
  if Nat.eqb limit 0 then l else take limit l.
Definition offer_all (t : TopK) (rows : list Row) : TopK := List.fold_left (fun t r => offer t (sk r) (rkey r) (rdoc r)) rows t.

Context `{DL : !DecimalsLaws} `{JL : !JsonNumbersLaws} `{FL : !DecimalFromLaws}.

(** *** The order *)
Fixpoint depth (k : SKey) : nat := match k with KTuple l => S (foldr (fun x n => Nat.max (depth x) n) 0%nat l) | _ => 0 end.
Lemma parts_depth n l : (foldr (fun x n => Nat.max (depth x) n) 0%nat l ≤ n)%nat → Forall (fun k => (depth k ≤ n)%nat) l.
Proof. induction l as [|x l IH]; cbn [foldr]; intros Hl; [constructor|]. constructor; [lia|]. apply IH. lia. Qed.
Lemma skey_ord_depth n : ord_on (fun k => (depth k ≤ n)%nat) skey_cmp.
Proof.
  pose proof (Q_ord (fun _ => True) key_value numkey_cmp numkey_cmp_exact) as Hq. pose proof (str_ord (fun _ => True)) as Hs.
  pose proof (Z_ord (fun _ => True)) as Hz.
  induction n as [|n IH].
  - split.
    + intros [] []; cbn [depth]; try lia; intros _ _; try done; [by apply (oo_opp _ _ Hz)|by apply (oo_opp _ _ Hq)|by apply (oo_opp _ _ Hs)].
    + intros [] [] []; cbn [depth]; try lia; intros _ _ _; try done; [by apply (oo_trans _ _ Hz)|by apply (oo_trans _ _ Hq)|by apply (oo_trans _ _ Hs)].
  - pose proof (list_ord _ skey_cmp IH) as Hl. split.
    + intros [] []; cbn [depth]; intros Ha Hb; try done;
        [by apply (oo_opp _ _ Hz)|by apply (oo_opp _ _ Hq)|by apply (oo_opp _ _ Hs)|].
      apply (oo_opp _ _ Hl); apply parts_depth; lia.
    + intros [] [] []; cbn [depth]; intros Ha Hb Hc; try done;
        [by apply (oo_trans _ _ Hz)|by apply (oo_trans _ _ Hq)|by apply (oo_trans _ _ Hs)|].
      apply (oo_trans _ _ Hl); apply parts_depth; lia.
Qed.
Lemma skey_ord : ord_laws skey_cmp.
Proof.
  split.
  - intros a b _ _. apply (oo_opp _ _ (skey_ord_depth (depth a + depth b))); lia.
  - intros a b c _ _ _. apply (oo_trans _ _ (skey_ord_depth (depth a + depth b + depth c))); lia.
Qed.
Definition opt_cmp (desc : bool) (a b : option SKey) : comparison :=
  match a, b with
  | Some x, Some y => if desc then CompOpp (skey_cmp x y) else skey_cmp x y
  | Some _, None => Lt
  | None, Some _ => Gt
  | None, None => Eq
  end.
Lemma opt_ord desc : ord_laws (opt_cmp desc).
Proof.
  assert (ord_laws (fun x y => if desc then CompOpp (skey_cmp x y) else skey_cmp x y)) as Hs
    by (destruct desc; [apply opp_ord|]; apply skey_ord).
  split; [intros [] []|intros [] [] []]; cbn [opt_cmp]; try done; [apply (oo_opp _ _ Hs)|apply (oo_trans _ _ Hs)].
Qed.
Lemma row_cmp_then desc r o : row_cmp desc r o = then_with (opt_cmp desc (sk r) (sk o)) (str_cmp (rkey r) (rkey o)).
Proof. unfold row_cmp, compare. by destruct (sk r), (sk o). Qed.
Lemma row_ord desc : ord_laws (row_cmp desc).
Proof.
  pose proof (then_ord _ _ (map_ord (fun _ => True) (fun _ => True) sk _ (fun _ _ => I) (opt_ord desc)) _
    (map_ord (fun _ => True) (fun _ => True) rkey _ (fun _ _ => I) (str_ord _))) as Hl.
  split; [intros a b Ha Hb|intros a b c Ha Hb Hc]; rewrite !row_cmp_then; [by apply (oo_opp _ _ Hl)|by apply (oo_trans _ _ Hl a b c)].
Qed.
#[export] Instance row_le_trans desc : Transitive (row_le desc).
Proof. intros a b c. by apply (oo_trans _ _ (row_ord desc)). Qed.
#[export] Instance row_le_total desc : Total (row_le desc).
Proof. intros a b. unfold row_le. rewrite (oo_opp _ _ (row_ord desc) a b) by done. destruct (row_cmp desc a b); [left|left|right]; done. Qed.
(** Rows of different keys never compare equal. *)
Lemma row_le_antisym desc r o : valid_str (rkey r) → valid_str (rkey o) → row_le desc r o → row_le desc o r → rkey r = rkey o.
Proof.
  intros Hr Ho. unfold row_le. rewrite (oo_opp _ _ (row_ord desc) r o) by done. rewrite row_cmp_then.
  destruct (opt_cmp desc (sk r) (sk o)); cbn [then_with]; [|done|done]. destruct (str_cmp (rkey r) (rkey o)) eqn:E; [|done|done].
  intros _ _. by apply str_cmp_eq.
Qed.

(** *** The heap *)
Lemma heap_pop_spec desc l : match heap_pop desc l with
  | None => l = []
  | Some (m, rest) => l ≡ₚ m :: rest ∧ Forall (fun r => row_le desc r m) rest
  end.
Proof.
  induction l as [|r l IH]; [done|]. cbn [heap_pop]. destruct (heap_pop desc l) as [[m rest]|]; [|subst; by split; [|constructor]].
  destruct IH as [Hp Hle]. assert (row_cmp desc r m ≠ Gt → r :: l ≡ₚ m :: r :: rest ∧ Forall (fun x => row_le desc x m) (r :: rest)) as Hkeep.
  { intros E. split; [rewrite Hp; apply Permutation_swap|]. by constructor. }
  destruct (row_cmp desc r m) eqn:E; [by apply Hkeep..|]. split; [by rewrite Hp|].
  assert (row_le desc m r) as Hmr by (unfold row_le; rewrite (oo_opp _ _ (row_ord desc) r m), E by done; done).
  constructor; [done|]. eapply Forall_impl; [exact Hle|]. intros x Hx. by apply (row_le_trans desc x m r).
Qed.

(** The rows kept are the first ones: the others come after them all. *)
Record keeps_first (t : TopK) (rows dropped : list Row) : Prop := {
  kf_rows : heap t ++ dropped ≡ₚ rows;
  kf_order : ∀ r o, r ∈ heap t → o ∈ dropped → row_le (topk_desc t) r o;
  kf_len : (length (heap t) ≤ limit t)%nat;
  kf_full : dropped = [] ∨ length (heap t) = limit t;
}.
Lemma offer_keeps t rows dropped r : limit t ≠ 0%nat → keeps_first t rows dropped →
  ∃ dropped', keeps_first (offer t (sk r) (rkey r) (rdoc r)) (rows ++ [r]) dropped' ∧
    limit (offer t (sk r) (rkey r) (rdoc r)) = limit t ∧ topk_desc (offer t (sk r) (rkey r) (rdoc r)) = topk_desc t.
Proof.
  intros Hk [Hr Ho Hl Hf]. unfold offer, heap_peek. destruct (Nat.eqb_spec (limit t) 0) as [|_]; [done|].
  replace {| sk := sk r; rkey := rkey r; rdoc := rdoc r |} with r by (by destruct r).
  destruct (Nat.ltb_spec (length (heap t)) (limit t)) as [Hlt|Hge].
  { destruct Hf as [->|]; [|lia]. exists []. split; [|done]. split; cbn [heap limit topk_desc length]; [|by intros ? ? _ ?%elem_of_nil|lia|by left].
    rewrite app_nil_r in Hr |- *. rewrite Hr. apply Permutation_cons_append. }
  pose proof (heap_pop_spec (topk_desc t) (heap t)) as Hp. destruct (heap_pop (topk_desc t) (heap t)) as [[m rest]|]; cbn [fmap option_fmap option_map fst].
  2: { rewrite Hp in Hge. cbn [length] in Hge. lia. }
  destruct Hp as [Hp Hle].
  assert (row_le (topk_desc t) m r → ∃ dropped', keeps_first {| limit := limit t; topk_desc := topk_desc t; heap := heap t; all := all t; offered := offered t + 1 |} (rows ++ [r]) dropped') as Hdrop.
  { intros Hmr. exists (r :: dropped). split; cbn [heap limit topk_desc]; [|..|done|right; lia].
    - rewrite <- Hr, <- Permutation_middle. rewrite (Permutation_app_comm (heap t ++ dropped) [r]). done.
    - intros x o Hx [->|Hin]%elem_of_cons; [|by apply Ho]. rewrite Hp in Hx. apply elem_of_cons in Hx as [->|Hx]; [done|].
      rewrite Forall_forall in Hle. apply (row_le_trans _ x m r); [by apply Hle|done]. }
  pose proof (oo_opp _ _ (row_ord (topk_desc t)) r m I I) as Hopp.
  destruct (row_cmp (topk_desc t) r m) eqn:E; [|clear Hdrop|].
  1,3: destruct Hdrop as [d Hd]; [unfold row_le; rewrite Hopp; done|exists d; done].
  exists (m :: dropped). split; [|done]. apply Permutation_length in Hp as Hpl. cbn [length] in Hpl. split; cbn [heap limit topk_desc length]; [|..|lia|right; lia].
  - rewrite <- Hr, Hp. cbn [app]. rewrite <- (Permutation_middle rest dropped m), <- (Permutation_cons_append (m :: rest ++ dropped) r). done.
  - assert (row_le (topk_desc t) r m) as Hrm by (unfold row_le; by rewrite E).
    assert (m ∈ heap t) as Hmh by (rewrite Hp; by left).
    rewrite Forall_forall in Hle. intros x o [->|Hx]%elem_of_cons [->|Hin]%elem_of_cons.
    + done.
    + apply (row_le_trans _ r m o); [done|by apply Ho].
    + by apply Hle.
    + apply Ho; [rewrite Hp; by right|done].
Qed.
Lemma offer_all_keeps rows : ∀ t seen dropped, limit t ≠ 0%nat → keeps_first t seen dropped →
  ∃ dropped', keeps_first (offer_all t rows) (seen ++ rows) dropped' ∧ limit (offer_all t rows) = limit t ∧ topk_desc (offer_all t rows) = topk_desc t.
Proof.
  induction rows as [|r rows IH]; intros t seen dropped Hk Hf; [rewrite app_nil_r; by exists dropped|].
  destruct (offer_keeps t seen dropped r Hk Hf) as (d & Hf' & El & Ed). destruct (IH _ _ d ltac:(by rewrite El) Hf') as (d' & Hf'' & El' & Ed').
  exists d'. rewrite <- app_assoc in Hf''. split; [exact Hf''|]. split; [by rewrite <- El|by rewrite <- Ed].
Qed.
Lemma offer_all_unlimited rows : ∀ t, limit t = 0%nat → all (offer_all t rows) = all t ++ rows ∧ limit (offer_all t rows) = 0%nat ∧ topk_desc (offer_all t rows) = topk_desc t.
Proof.
  induction rows as [|r rows IH]; intros t Hk; [rewrite app_nil_r; done|]. cbn [offer_all List.fold_left].
  set (t' := offer t (sk r) (rkey r) (rdoc r)). assert (limit t' = 0%nat ∧ topk_desc t' = topk_desc t ∧ all t' = all t ++ [r]) as (E1 & E2 & E3).
  { subst t'. unfold offer. rewrite Hk. cbn [Nat.eqb limit topk_desc all]. by destruct r. }
  destruct (IH t' E1) as (A1 & A2 & A3). unfold offer_all in *. rewrite A1, A2, A3, E2, E3, <- app_assoc. done.
Qed.

(** A row that [would_keep] refuses before its document is read changes
    nothing when it is offered. *)
Lemma would_keep_sound t r : would_keep t (sk r) (rkey r) = false →
  heap (offer t (sk r) (rkey r) (rdoc r)) = heap t ∧ all (offer t (sk r) (rkey r) (rdoc r)) = all t.
Proof.
  unfold would_keep, last_kept, offer, row_cmp. destruct (Nat.eqb_spec (limit t) 0), (Nat.leb_spec (limit t) (length (heap t))); cbn [negb andb]; [done..| |done].
  rewrite (proj2 (Nat.ltb_ge _ _)) by done. destruct (heap_peek (topk_desc t) (heap t)) as [m|]; [|done]. cbn [sk rkey].
  destruct (compare _ _ _ _ _); done.
Qed.

(** What the bounded heap keeps. *)
Lemma into_sorted_offers k desc rows :
  NoDup (List.map rkey rows) → Forall (fun r => valid_str (rkey r)) rows →
  into_sorted (offer_all (TopK_new k desc) rows) = first_rows k desc rows.
Proof.
  intros Hnd Hv. unfold into_sorted, first_rows. destruct (Nat.eqb_spec k 0) as [->|Hk].
  { destruct (offer_all_unlimited rows (TopK_new 0 desc) eq_refl) as (-> & -> & ->). done. }
  destruct (offer_all_keeps rows (TopK_new k desc) [] []) as (d & [Hr Ho Hl Hf] & El & Ed); [done|by split; [|intros ? ? ?%elem_of_nil|cbn; lia|left]|].
  set (t := offer_all _ _) in *. rewrite El, Ed in *. cbn [TopK_new limit topk_desc app] in *.
  destruct (Nat.eqb_spec k 0) as [|_]; [done|].
  assert (merge_sort (row_le desc) rows = merge_sort (row_le desc) (heap t) ++ merge_sort (row_le desc) d) as ->.
  { apply (StronglySorted_unique_strong (row_le desc)); [|apply StronglySorted_merge_sort; apply _| |by rewrite !merge_sort_Permutation].
    - intros r o Hr1 Ho1 Hro Hor. rewrite merge_sort_Permutation in Hr1. rewrite !merge_sort_Permutation, Hr in Ho1.
      rewrite Forall_forall in Hv. pose proof (row_le_antisym desc r o (Hv r Hr1) (Hv o Ho1) Hro Hor) as Ek.
      by apply (NoDup_map_eq rkey rows).
    - apply StronglySorted_app. split; [|split; apply StronglySorted_merge_sort; apply _].
      intros x o. rewrite !merge_sort_Permutation. apply Ho. }
  destruct Hf as [->|Hf].
  - assert (merge_sort (row_le desc) (@nil Row) = []) as -> by done. rewrite app_nil_r, take_ge; [done|]. by rewrite merge_sort_Permutation.
  - rewrite take_app_le, take_ge; [done|..]; by rewrite merge_sort_Permutation, Hf.
Qed.

(** C21: a limited query keeps the right rows. Whatever the order in which rows
    of different keys are offered, the rows kept are, in order, the first
    [k] of all of them sorted by value, then by key ([desc] turning the
    values around, rows without a value last); with no limit they are all. *)
Theorem topk_exact k desc rows :
  NoDup (List.map rkey rows) → Forall (fun r => valid_str (rkey r)) rows →
  into_sorted (offer_all (TopK_new k desc) rows) = first_rows k desc rows.
Proof. apply into_sorted_offers. Qed.
End ordering.

(** ** Concrete JSON numbers: integers of 65 bits and finite floats *)
Definition json_okb (n : Z + Z) : bool :=
  match n with inl z => (i64_min <=? z) && (z <=? u64_max) | inr f => (0 <=? f) && (f <? 2 ^ 64) && f_finite f end.
Record sample_number := SampleNumber { sn_value : Z + Z; sn_valid : json_okb sn_value = true }.
#[export] Instance sample_numbers : JsonNumbers := {|
  Number := sample_number;
  as_i64 n := match sn_value n with inl z => if z <=? i64_max then Some z else None | inr _ => None end;
  as_u64 n := match sn_value n with inl z => if 0 <=? z then Some z else None | inr _ => None end;
  as_f64 n := match sn_value n with inl z => Some (f_of_int z) | inr f => Some f end;
|}.
#[export] Instance sample_numbers_laws : JsonNumbersLaws.
Proof.
  split. intros [[z|f] Hv]; cbn [as_i64 as_u64 as_f64 sample_numbers sn_value json_okb] in *.
  - apply andb_true_iff in Hv as [H1_ H2_]. apply Z.leb_le in H1_, H2_. destruct (Z.leb_spec z i64_max).
    + left. exists z. done.
    + right. left. split; [done|]. exists z. rewrite leb_t by (unfold i64_max in *; lia). done.
  - rewrite !andb_true_iff, Z.leb_le, Z.ltb_lt in Hv. right. right. split; [done|]. split; [done|]. exists f. split; [done|]. split; [unfold in_u|]; tauto.
Qed.
#[export] Instance sample_dec_from : DecimalFrom := {| dec_from_u64 u := dec_make false u 0 |}.
#[export] Instance sample_dec_from_laws : DecimalFromLaws.
Proof.
  split; intros u Hu; cbn [mantissa scale sample_decimals dec_from_u64 sample_dec_from];
    destruct (dec_make_ok false u 0) as (E1 & E2 & E3); try (apply dec_okb_spec; unfold u64_max, MAX_SCALE in *; lia); [|done].
  unfold dec_mantissa. by rewrite E1.
Qed.
Definition sample_int (z : Z) (H : json_okb (inl z) = true) : SKey := KNum (KJson (SampleNumber (inl z) H)).
Definition sample_row (k : option SKey) (key : str) : Row := {| sk := k; rkey := key; rdoc := tt |}.
(** Five rows, of which the first two from the greatest value down are kept. *)
Definition sample_rows : list Row :=
  [ sample_row (Some (sample_int 1 eq_refl)) (lit "a"); sample_row (Some (sample_int 5 eq_refl)) (lit "b");
    sample_row (Some (sample_int 3 eq_refl)) (lit "c"); sample_row (Some (sample_int 5 eq_refl)) (lit "d"); sample_row None (lit "e") ].
Lemma topk_exact_witness :
  (NoDup (List.map rkey sample_rows) ∧ Forall (fun r => valid_str (rkey r)) sample_rows) ∧
  List.map rkey (into_sorted (offer_all (TopK_new 2 true) sample_rows)) = [lit "b"; lit "d"].
Proof.
  assert (NoDup (List.map rkey sample_rows)) as Hn by vm_decide.
  assert (Forall (fun r : Row => valid_str (rkey r)) sample_rows) as Hv.
  { unfold sample_rows. repeat (apply List.Forall_cons; [apply ascii_valid; apply List.Forall_cons; [unfold is_ascii; vm_decide|apply List.Forall_nil]|]).
    apply List.Forall_nil. }
  split; [exact (conj Hn Hv)|]. rewrite (topk_exact 2 true sample_rows Hn Hv). vm_compute. reflexivity.
Defined.
