(* ===== verification/Paths.v ===== *)
(** * [src/jsonpath.rs], [src/docpath.rs]: paths into documents

    The two files make the same changes, one on the JSON of [serde_json], one
    on the typed documents of [doc.rs]. They are written here once, for any
    tree of objects, arrays and scalars; [DocPath] says which trees. A
    reference into a document, through which the code changes it in place, is
    a function from what is there to its answer and to what it leaves there. *)
From S2P Require Import Prelude Utf8 Text.

Abbreviation msg := String.string (only parsing).
(** An array position; a negative one counts from the end. *)
Inductive Seg := Key (k : str) | Idx (i : Z).
#[export] Instance seg_eq_dec : EqDecision Seg.
Proof. solve_decision. Defined.

(** ** Reading a path *)
Definition DOT : Z := 46.
Definition OPEN : Z := 91.
Definition CLOSE : Z := 93.
Definition is_quote (c : Z) : bool := (c =? 34) || (c =? 39).
(** What precedes the first [c], and what follows it. *)
Fixpoint cut_at (c : Z) (l : str) : option (str * str) :=
  match l with
  | [] => None
  | x :: l => if x =? c then Some ([], l) else '(a, b) ← cut_at c l; Some (x :: a, b)
  end.
Definition in_name (c : Z) : bool := negb ((c =? DOT) || (c =? OPEN) || (c =? CLOSE)).
Fixpoint span (p : Z → bool) (l : str) : str * str :=
  match l with
  | x :: l' => if p x then let '(a, b) := span p l' in (x :: a, b) else ([], l)
  | [] => ([], [])
  end.
Lemma cut_at_length c l a b : cut_at c l = Some (a, b) → (length b < length l)%nat.
Proof.
  revert a b. induction l as [|x l IH]; intros a b; [done|]. cbn [cut_at]. destruct (x =? c); [intros [= <- <-]; cbn; lia|].
  destruct (cut_at c l) as [[a' b']|] eqn:E; [|done]. cbn. intros [= <- <-]. specialize (IH _ _ eq_refl). lia.
Qed.
Lemma cut_at_split c l a b : cut_at c l = Some (a, b) → l = a ++ c :: b ∧ c ∉ a.
Proof.
  revert a. induction l as [|x l IH]; intros a; [done|]. cbn [cut_at]. destruct (Z.eqb_spec x c) as [->|Hx]; [intros [= <- <-]; split; [done|apply not_elem_of_nil]|].
  destruct (cut_at c l) as [[a' b']|] eqn:E; [|done]. intros [= <- <-]. destruct (IH _ eq_refl) as [-> Hn]. split; [done|]. apply not_elem_of_cons. by split.
Qed.
Lemma span_length p l : (length (span p l).2 ≤ length l)%nat.
Proof. induction l as [|x l IH]; [done|]. cbn [span]. destruct (p x); [|done]. destruct (span p l) as [a b]. cbn in *. lia. Qed.
Lemma cut_at_app c a b : c ∉ a → cut_at c (a ++ c :: b) = Some (a, b).
Proof.
  induction a as [|x a IH]; intros Hc; cbn [app cut_at]; [by rewrite Z.eqb_refl|]. apply not_elem_of_cons in Hc as [Hx Ha].
  rewrite (proj2 (Z.eqb_neq x c)) by done. by rewrite IH.
Qed.
Lemma span_app p a b : Forall (fun c => p c = true) a → match b with [] => True | c :: _ => p c = false end → span p (a ++ b) = (a, b).
Proof.
  intros Ha Hb. induction Ha as [|c a Hc _ IH]; cbn [app].
  - destruct b as [|c b]; [done|]. cbn [span]. by rewrite Hb.
  - cbn [span]. by rewrite Hc, IH.
Qed.
(** What follows an opening bracket: a field in quotes, or a position. *)
Definition bracket (t : str) : result msg (Seg * str) :=
  let quoted := match t with q :: u => if is_quote q then Some (q, u) else None | [] => None end in
  match quoted with
  | Some (q, u) =>
    match cut_at q u with
    | None => Err "invalid path '{path}': unclosed quote"%string
    | Some (k, c :: rest) => if c =? CLOSE then Ok (Key k, rest) else Err "invalid path '{path}': missing ']'"%string
    | Some (_, []) => Err "invalid path '{path}': missing ']'"%string
    end
  | None =>
    match cut_at CLOSE t with
    | None => Err "invalid path '{path}': missing ']'"%string
    | Some (text, rest) =>
      match parse_i64 (Utf8.trim text) with
      | Some n => Ok (Idx n, rest)
      | None => Err "invalid path '{path}': an array index must be an integer"%string
      end
    end
  end.
(** The loop over the characters left; a unit of fuel a segment or a dot.
    [None]: out of fuel. *)
Fixpoint parse_loop (fuel : nat) (rest : str) (segs : list Seg) (need_name : bool) : option (result msg (list Seg)) :=
  match rest with
  | [] => Some (if need_name then Err "invalid path '{path}': empty segment"%string else Ok segs)
  | c :: t =>
    match fuel with
    | O => None
    | S fuel =>
      if c =? OPEN then
        match bracket t with Err e => Some (Err e) | Ok (s, rest) => parse_loop fuel rest (segs ++ [s]) false end
      else if c =? DOT then
        if need_name || bool_decide (t = []) then Some (Err "invalid path '{path}': empty segment"%string)
        else parse_loop fuel t segs true
      else if c =? CLOSE then Some (Err "invalid path '{path}': unexpected ']'"%string)
      else if negb (bool_decide (segs = [])) && negb need_name then
        Some (Err "invalid path '{path}': expected '.' or '[' between segments"%string)
      else let '(name, rest) := span in_name rest in parse_loop fuel rest (segs ++ [Key name]) false
    end
  end.
Definition parse_path (path : str) : option (result msg (list Seg)) :=
  match Utf8.trim path with
  | c :: t =>
    if c =? DOT then if bool_decide (t = []) then Some (Ok []) else parse_loop (length t) t [] true
    else parse_loop (length (c :: t)) (c :: t) [] false
  | [] => Some (Ok [])
  end.

(** ** Positions *)
Definition position (seg : Seg) (alen : Z) (append : bool) : option Z :=
  n ← match seg with Idx i => Some i | Key k => parse_i64 k end;
  let at_ := if n <? 0 then alen + n else n in
  let max := if append && (0 <=? n) then alen else alen - 1 in
  if (0 <=? at_) && (at_ <=? max) then Some at_ else None.
Definition out_of_range (seg : Seg) : msg :=
  match seg with
  | Idx _ => "array index {i} is out of range (length {len})"%string
  | Key _ => "array elements are addressed by index, not by '{k}'"%string
  end.

(** ** Objects: the members in the order they were written *)
Section members.
  Context {T : Type}.
Fixpoint m_get (k : str) (m : list (str * T)) : option T :=
  match m with [] => None | (k', v) :: m => if decide (k' = k) then Some v else m_get k m end.
(** The place of a key the object has is kept. *)
Fixpoint m_insert (k : str) (v : T) (m : list (str * T)) : list (str * T) :=
  match m with [] => [(k, v)] | (k', v') :: m => if decide (k' = k) then (k, v) :: m else (k', v') :: m_insert k v m end.
Definition m_remove (k : str) (m : list (str * T)) : list (str * T) := List.filter (fun kv => negb (bool_decide (kv.1 = k))) m.

Lemma m_get_insert k v m k' : m_get k' (m_insert k v m) = if decide (k = k') then Some v else m_get k' m.
Proof. induction m as [|[k1 v1] m IH]; cbn [m_insert m_get]; [done|]. repeat (case_decide || cbn [m_get]); congruence. Qed.
Lemma m_get_remove k m k' : m_get k' (m_remove k m) = if decide (k = k') then None else m_get k' m.
Proof.
  induction m as [|[k1 v1] m IH]; cbn [m_remove List.filter m_get fst]; [by case_decide|]. unfold m_remove in *.
  case_bool_decide; cbn [negb m_get]; repeat case_decide; congruence.
Qed.
(** The keys stay in their order, a new one goes last. *)
Lemma m_insert_keys k v m : List.map fst (m_insert k v m) = if m_get k m then List.map fst m else List.map fst m ++ [k].
Proof.
  induction m as [|[k1 v1] m IH]; cbn [m_insert m_get List.map fst]; [done|]. case_decide; [by subst|].
  cbn [List.map fst]. rewrite IH. by destruct (m_get k m).
Qed.
End members.

(** ** Trees *)
Inductive node (T : Type) := NObject (m : list (str * T)) | NArray (a : list T) | NScalar.
Arguments NObject {T} m.
Arguments NArray {T} a.
Arguments NScalar {T}.
Class Tree (T : Type) := {
  view : T → node T;
  object : list (str * T) → T;
  array : list T → T;
  view_object m : view (object m) = NObject m;
  view_array a : view (array a) = NArray a;
  object_view t m : view t = NObject m → t = object m;
  array_view t a : view t = NArray a → t = array a;
}.

Section tree.
  Context `{Tree T}.

Fixpoint get (doc : T) (path : list Seg) : option T :=
  match path with
  | [] => Some doc
  | seg :: path =>
    match view doc with
    | NObject m => match seg with Key k => d ← m_get k m; get d path | Idx _ => None end
    | NArray a => i ← position seg (len a) false; d ← a !! Z.to_nat i; get d path
    | NScalar => None
    end
  end.
(** [f] on the reference that [get_mut] gives. *)
Fixpoint get_mut {R} (f : T → R * T) (path : list Seg) (doc : T) : option (R * T) :=
  match path with
  | [] => Some (f doc)
  | seg :: path =>
    match view doc with
    | NObject m =>
      match seg with
      | Key k => d ← m_get k m; '(r, d) ← get_mut f path d; Some (r, object (m_insert k d m))
      | Idx _ => None
      end
    | NArray a =>
      i ← position seg (len a) false; d ← a !! Z.to_nat i; '(r, d) ← get_mut f path d;
      Some (r, array (<[Z.to_nat i := d]> a))
    | NScalar => None
    end
  end.
(** [f] on the parent of the last segment. What was created on the way stays
    when a later segment is refused. *)
Fixpoint parent_mut {R} (f : T → result msg R * T) (parents : list Seg) (doc : T) : result msg R * T :=
  match parents with
  | [] => f doc
  | seg :: parents =>
    match view doc with
    | NObject m =>
      match seg with
      | Key k =>
        let '(r, d) := parent_mut f parents (default (object []) (m_get k m)) in (r, object (m_insert k d m))
      | Idx _ => (Err "cannot index an object with [n]"%string, doc)
      end
    | NArray a =>
      match i ← position seg (len a) false; (fun d => (i, d)) <$> a !! Z.to_nat i with
      | Some (i, d) => let '(r, d) := parent_mut f parents d in (r, array (<[Z.to_nat i := d]> a))
      | None => (Err (out_of_range seg), doc)
      end
    | NScalar => (Err "path traverses a scalar value"%string, doc)
    end
  end.
Definition set_last (seg : Seg) (value : T) (doc : T) : result msg unit * T :=
  match view doc with
  | NObject m =>
    match seg with
    | Key k => (Ok tt, object (m_insert k value m))
    | Idx _ => (Err "cannot index an object with [n]"%string, doc)
    end
  | NArray a =>
    match position seg (len a) true with
    | Some i => (Ok tt, array (if i =? len a then a ++ [value] else <[Z.to_nat i := value]> a))
    | None => (Err (out_of_range seg), doc)
    end
  | NScalar => (Err "path traverses a scalar value"%string, doc)
  end.
Definition split_last (path : list Seg) : option (Seg * list Seg) := (fun l => (l, removelast path)) <$> last path.
Definition set (doc : T) (path : list Seg) (value : T) : result msg unit * T :=
  match split_last path with
  | None => (Ok tt, value)
  | Some (last, parents) => parent_mut (set_last last value) parents doc
  end.
Definition delete_last (seg : Seg) (doc : T) : bool * T :=
  match view doc with
  | NObject m =>
    match seg with
    | Key k => (if m_get k m then true else false, object (m_remove k m))
    | Idx _ => (false, doc)
    end
  | NArray a =>
    match position seg (len a) false with
    | Some i => (true, array (delete (Z.to_nat i) a))
    | None => (false, doc)
    end
  | NScalar => (false, doc)
  end.
Definition delete (doc : T) (path : list Seg) : bool * T :=
  match split_last path with
  | None => (false, doc)
  | Some (last, parents) => default (false, doc) (get_mut (delete_last last) parents doc)
  end.
Definition extend (values : list T) (doc : T) : result msg Z * T :=
  match view doc with
  | NArray a => (Ok (len (a ++ values)), array (a ++ values))
  | _ => (Err "the value at this path is not an array"%string, doc)
  end.
Definition append (doc : T) (path : list Seg) (values : list T) : result msg Z * T :=
  let '(r, doc) := match get doc path with None => set doc path (array []) | Some _ => (Ok tt, doc) end in
  match r with
  | Err e => (Err e, doc)
  | Ok _ => default (Err "the value at this path is not an array"%string, doc) (get_mut (extend values) path doc)
  end.
Definition insert_last (seg : Seg) (value : T) (doc : T) : result msg Z * T :=
  match view doc with
  | NArray a =>
    match position seg (len a) true with
    | Some i => let a := take (Z.to_nat i) a ++ value :: drop (Z.to_nat i) a in (Ok (len a), array a)
    | None => (Err (out_of_range seg), doc)
    end
  | _ => (Err "insert works on arrays; the parent of this path is not an array"%string, doc)
  end.
Definition insert (doc : T) (path : list Seg) (value : T) : result msg Z * T :=
  match split_last path with
  | None => (Err "insert needs a path ending with an array position, such as .tags[0]"%string, doc)
  | Some (last, parents) => default (Err "the array at this path does not exist"%string, doc) (get_mut (insert_last last value) parents doc)
  end.
End tree.
