(* ===== verification/PathsThm.v ===== *)
(** * What a change through a path does to a document

    A place of a document is the keys and the positions that lead to it. A
    path means at most one place; a change through it is seen there, and
    nowhere else. *)
From S2P Require Import Prelude Utf8 Text Paths.

Inductive Step := At (k : str) | Nth (i : nat).
#[export] Instance step_eq_dec : EqDecision Step.
Proof. solve_decision. Defined.

Section places.
  Context `{Tree T}.

Fixpoint at_ (d : T) (ss : list Step) : option T :=
  match ss with
  | [] => Some d
  | s :: ss =>
    match view d, s with
    | NObject m, At k => d ← m_get k m; at_ d ss
    | NArray a, Nth i => d ← a !! i; at_ d ss
    | _, _ => None
    end
  end.
(** The place a path means in a document that has it. *)
Fixpoint resolve (d : T) (path : list Seg) : option (list Step) :=
  match path with
  | [] => Some []
  | seg :: path =>
    match view d with
    | NObject m => match seg with Key k => d ← m_get k m; cons (At k) <$> resolve d path | Idx _ => None end
    | NArray a => i ← position seg (len a) false; d ← a !! Z.to_nat i; cons (Nth (Z.to_nat i)) <$> resolve d path
    | NScalar => None
    end
  end.
(** The place where a value may be put: members that are missing are made,
    and an array has a place after its last element. *)
Fixpoint target (d : T) (parents : list Seg) (last : Seg) : option (list Step) :=
  match parents with
  | [] =>
    match view d with
    | NObject _ => match last with Key k => Some [At k] | Idx _ => None end
    | NArray a => (fun i => [Nth (Z.to_nat i)]) <$> position last (len a) true
    | NScalar => None
    end
  | seg :: parents =>
    match view d with
    | NObject m =>
      match seg with
      | Key k => cons (At k) <$> target (default (object []) (m_get k m)) parents last
      | Idx _ => None
      end
    | NArray a => i ← position seg (len a) false; d ← a !! Z.to_nat i; cons (Nth (Z.to_nat i)) <$> target d parents last
    | NScalar => None
    end
  end.
Definition place (d : T) (path : list Seg) : option (list Step) :=
  match split_last path with None => Some [] | Some (last, parents) => target d parents last end.

(** Two documents agree at all places that [ss] neither holds nor is in. *)
Definition same_outside (ss : list Step) (d d' : T) : Prop :=
  ∀ ss', ¬ ss `prefix_of` ss' → ¬ ss' `prefix_of` ss → at_ d' ss' = at_ d ss'.
(** What was at [ss] is now [x], and nothing else changed. *)
Definition written (ss : list Step) (x : T) (d d' : T) : Prop := at_ d' ss = Some x ∧ same_outside ss d d'.
(** Every place is still there, with its value if that is a scalar. *)
Definition keeps (d d' : T) : Prop :=
  ∀ ss x, at_ d ss = Some x → ∃ x', at_ d' ss = Some x' ∧ (view x = NScalar → x' = x).

Lemma at_app d ss ss' : at_ d (ss ++ ss') = x ← at_ d ss; at_ x ss'.
Proof.
  revert d. induction ss as [|s ss IH]; intros d; [done|]. cbn [app at_].
  destruct (view d) as [m|a|], s as [k|i]; try done; [destruct (m_get k m)|destruct (a !! i)]; cbn [mbind option_bind]; auto.
Qed.
Lemma at_object m k ss : at_ (object m) (At k :: ss) = d ← m_get k m; at_ d ss.
Proof. cbn [at_]. by rewrite view_object. Qed.
Lemma at_array a i ss : at_ (array a) (Nth i :: ss) = d ← a !! i; at_ d ss.
Proof. cbn [at_]. by rewrite view_array. Qed.
Lemma at_empty s ss : at_ (object []) (s :: ss) = None.
Proof. cbn [at_]. rewrite view_object. by destruct s. Qed.

Lemma same_refl ss d : same_outside ss d d.
Proof. by intros ss' _ _. Qed.
Lemma keeps_refl d : keeps d d.
Proof. intros ss x ->. eauto. Qed.
Lemma keeps_scalar d d' : view d = NScalar → d' = d → keeps d d'.
Proof. intros _ ->. apply keeps_refl. Qed.

(** Under a member, that is there or is made. *)
Lemma same_member t m k d' ss : view t = NObject m → same_outside ss (default (object []) (m_get k m)) d' →
  same_outside (At k :: ss) t (object (m_insert k d' m)).
Proof.
  intros Ev Hs [|[k'|i] ss'] H1 H2; [destruct H2; apply prefix_nil| |].
  - cbn [at_]. rewrite view_object, Ev, m_get_insert. destruct (decide (k = k')) as [<-|]; [|done].
    assert (¬ ss `prefix_of` ss') as H1' by (intros ?; apply H1; by apply prefix_cons).
    assert (¬ ss' `prefix_of` ss) as H2' by (intros ?; apply H2; by apply prefix_cons).
    cbn [mbind option_bind]. rewrite (Hs ss' H1' H2'). destruct (m_get k m); cbn [default from_option mbind option_bind]; [done|].
    destruct ss'; [destruct H2'; apply prefix_nil|apply at_empty].
  - cbn [at_]. by rewrite view_object, Ev.
Qed.
Lemma same_element t a i d d' ss : view t = NArray a → a !! i = Some d → same_outside ss d d' →
  same_outside (Nth i :: ss) t (array (<[i := d']> a)).
Proof.
  intros Ev Ei Hs [|[k|j] ss'] H1 H2; [destruct H2; apply prefix_nil| |].
  - cbn [at_]. by rewrite view_array, Ev.
  - cbn [at_]. rewrite view_array, Ev. destruct (decide (i = j)) as [<-|]; [|by rewrite list_lookup_insert_ne].
    rewrite list_lookup_insert_eq by by eapply lookup_lt_Some. rewrite Ei. cbn [mbind option_bind]. apply Hs.
    + intros ?. apply H1. by apply prefix_cons.
    + intros ?. apply H2. by apply prefix_cons.
Qed.
Lemma keeps_member t m k d' : view t = NObject m → (∀ d, m_get k m = Some d → keeps d d') → keeps t (object (m_insert k d' m)).
Proof.
  intros Ev Hk [|[k'|i] ss] x.
  - intros [= <-]. eexists. split; [done|]. rewrite Ev. done.
  - cbn [at_]. rewrite view_object, Ev, m_get_insert. destruct (decide (k = k')) as [<-|]; [|intros ->; eauto].
    destruct (m_get k m) as [d|]; [|done]. cbn [mbind option_bind]. by apply Hk.
  - cbn [at_]. by rewrite Ev.
Qed.
Lemma keeps_element t a i d d' : view t = NArray a → a !! i = Some d → keeps d d' → keeps t (array (<[i := d']> a)).
Proof.
  intros Ev Ei Hk [|[k|j] ss] x.
  - intros [= <-]. eexists. split; [done|]. rewrite Ev. done.
  - cbn [at_]. by rewrite Ev.
  - cbn [at_]. rewrite view_array, Ev. destruct (decide (i = j)) as [<-|]; [|rewrite list_lookup_insert_ne by done; intros ->; eauto].
    rewrite list_lookup_insert_eq by by eapply lookup_lt_Some. rewrite Ei. cbn [mbind option_bind]. by apply Hk.
Qed.

(** ** Positions *)
Lemma position_range seg n app i : position seg n app = Some i → 0 ≤ i ≤ n ∧ (app = false → i < n).
Proof.
  unfold position. destruct (match seg with Idx i => Some i | Key k => parse_i64 k end) as [x|]; [|done]. cbn [mbind option_bind].
  destruct (Z.leb_spec 0 (if x <? 0 then n + x else x)); cbn [andb]; [|done].
  destruct (Z.leb_spec (if x <? 0 then n + x else x) (if app && (0 <=? x) then n else n - 1)); intros [= <-].
  destruct app, (0 <=? x); cbn [andb] in *; split; intros; lia || done.
Qed.
(** The place after the last one is a position of the longer array. *)
Lemma position_after seg n i : position seg n true = Some i → position seg (if i =? n then n + 1 else n) false = Some i.
Proof.
  unfold position. destruct (match seg with Idx i => Some i | Key k => parse_i64 k end) as [x|]; [|done]. cbn [mbind option_bind andb].
  destruct (Z.ltb_spec x 0).
  - rewrite (leb_f 0 x) by done. destruct (Z.leb_spec 0 (n + x)), (Z.leb_spec (n + x) (n - 1)); cbn [andb]; intros [= <-].
    rewrite (proj2 (Z.eqb_neq (n + x) n)) by lia. by rewrite !leb_t by lia.
  - rewrite (leb_t 0 x) by done. destruct (Z.leb_spec x n); cbn [andb]; intros [= <-]. destruct (Z.eqb_spec x n).
    + by rewrite leb_t by lia.
    + by rewrite leb_t by lia.
Qed.
Lemma position_lookup seg (a : list T) i : position seg (len a) false = Some i → ∃ d, a !! Z.to_nat i = Some d.
Proof. intros [? Hi]%position_range. apply lookup_lt_is_Some. unfold len in *. specialize (Hi eq_refl). lia. Qed.

(** ** Reading *)
Lemma get_resolve d p : get d p = ss ← resolve d p; at_ d ss.
Proof.
  revert d. induction p as [|seg p IH]; intros d; [done|]. cbn [get resolve]. destruct (view d) as [m|a|] eqn:Ev; [|..|done].
  - destruct seg as [k|]; [|done]. destruct (m_get k m) as [x|] eqn:Em; cbn [mbind option_bind]; [|done]. rewrite IH.
    destruct (resolve x p) as [ss|]; cbn [mbind option_bind fmap option_fmap option_map]; [|done]. cbn [at_]. by rewrite Ev, Em.
  - destruct (position seg (len a) false) as [i|]; cbn [mbind option_bind]; [|done].
    destruct (a !! Z.to_nat i) as [x|] eqn:Ea; cbn [mbind option_bind]; [|done]. rewrite IH.
    destruct (resolve x p) as [ss|]; cbn [mbind option_bind fmap option_fmap option_map]; [|done]. cbn [at_]. by rewrite Ev, Ea.
Qed.
Lemma get_mut_none {R} (f : T → R * T) p d : get_mut f p d = None ↔ get d p = None.
Proof.
  revert d. induction p as [|seg p IH]; intros d; [done|]. cbn [get get_mut]. destruct (view d) as [m|a|]; [|..|done].
  - destruct seg as [k|]; [|done]. destruct (m_get k m) as [x|]; cbn [mbind option_bind]; [|done]. rewrite <- IH.
    destruct (get_mut f p x) as [[r d']|]; cbn [mbind option_bind]; done.
  - destruct (position seg (len a) false) as [i|]; cbn [mbind option_bind]; [|done].
    destruct (a !! Z.to_nat i) as [x|]; cbn [mbind option_bind]; [|done]. rewrite <- IH.
    destruct (get_mut f p x) as [[r d']|]; cbn [mbind option_bind]; done.
Qed.
(** A change in place is made at the place of the path. *)
Lemma get_mut_ok {R} (f : T → R * T) p : ∀ d r d', get_mut f p d = Some (r, d') →
  ∃ ss x, resolve d p = Some ss ∧ at_ d ss = Some x ∧ r = (f x).1 ∧ written ss (f x).2 d d' ∧ get d' p = Some (f x).2.
Proof.
  induction p as [|seg p IH]; intros d r d'.
  { cbn [get_mut]. intros [= E]. exists [], d. rewrite E. repeat split; try done. intros ss' []. apply prefix_nil. }
  cbn [get_mut get resolve]. destruct (view d) as [m|a|] eqn:Ev; [|..|done].
  - destruct seg as [k|]; [|done]. destruct (m_get k m) as [x|] eqn:Em; cbn [mbind option_bind]; [|done].
    destruct (get_mut f p x) as [[r' x']|] eqn:Ex; cbn [mbind option_bind]; [|done]. intros [= <- <-].
    destruct (IH _ _ _ Ex) as (ss & y & Er & Ey & -> & [Hat Hs] & Eg). rewrite view_object, m_get_insert, decide_True by done.
    cbn [mbind option_bind]. rewrite Er. exists (At k :: ss), y. split; [done|]. split; [cbn [at_]; by rewrite Ev, Em|]. split; [done|].
    split; [|done]. split; [by rewrite at_object, m_get_insert, decide_True by done|]. apply same_member; [done|by rewrite Em].
  - destruct (position seg (len a) false) as [i|] eqn:Ep; cbn [mbind option_bind]; [|done].
    destruct (a !! Z.to_nat i) as [x|] eqn:Ea; cbn [mbind option_bind]; [|done].
    destruct (get_mut f p x) as [[r' x']|] eqn:Ex; cbn [mbind option_bind]; [|done]. intros [= <- <-].
    destruct (IH _ _ _ Ex) as (ss & y & Er & Ey & -> & [Hat Hs] & Eg). rewrite view_array.
    assert (len (<[Z.to_nat i:=x']> a) = len a) as -> by (unfold len; by rewrite length_insert).
    rewrite Ep. cbn [mbind option_bind]. rewrite list_lookup_insert_eq by by eapply lookup_lt_Some. cbn [mbind option_bind].
    rewrite Er. exists (Nth (Z.to_nat i) :: ss), y. split; [done|]. split; [cbn [at_]; by rewrite Ev, Ea|]. split; [done|].
    split; [|done]. split; [|by eapply same_element]. rewrite at_array, list_lookup_insert_eq by by eapply lookup_lt_Some. done.
Qed.

(** ** Setting *)
Lemma set_last_ok last v d : let '(r, d') := set_last last v d in
  match r with
  | Ok _ => ∃ s, target d [] last = Some [s] ∧ written [s] v d d' ∧ resolve d' [last] = Some [s]
  | Err _ => target d [] last = None ∧ d' = d
  end.
Proof.
  unfold set_last. cbn [target]. destruct (view d) as [m|a|] eqn:Ev; [destruct last as [k|]; [|done]| |done].
  - exists (At k). split; [done|]. split; [split|].
    + by rewrite at_object, m_get_insert, decide_True by done.
    + apply same_member; [done|]. intros ss' [] _. apply prefix_nil.
    + cbn [resolve]. by rewrite view_object, m_get_insert, decide_True by done.
  - destruct (position last (len a) true) as [i|] eqn:Ep; [|done]. exists (Nth (Z.to_nat i)). split; [done|].
    pose proof (position_range _ _ _ _ Ep) as [Hi _]. apply position_after in Ep. destruct (Z.eqb_spec i (len a)) as [E|Hne].
    + assert (Z.to_nat i = length a) as El by (unfold len in *; lia).
      assert ((a ++ [v]) !! length a = Some v) as Ea by by apply list_lookup_middle.
      split; [split|].
      * by rewrite El, at_array, Ea.
      * intros [|[k|j] ss'] H1 H2; [destruct H2; apply prefix_nil|cbn [at_]; by rewrite view_array, Ev|].
        cbn [at_]. rewrite view_array, Ev. destruct (decide (j = length a)) as [->|Hj].
        { destruct H1. rewrite El. apply prefix_cons, prefix_nil. }
        destruct (decide (j < length a)%nat) as [Hlt|]; [by rewrite lookup_app_l by done|].
        rewrite !(proj2 (lookup_ge_None _ _)); [done|lia|rewrite length_app; cbn [length]; lia].
      * cbn [resolve]. rewrite view_array, len_app. change (len [v]) with 1. rewrite Ep. cbn [mbind option_bind]. by rewrite El, Ea.
    + assert (Z.to_nat i < length a)%nat as Hlt by (unfold len in *; lia). destruct (lookup_lt_is_Some_2 _ _ Hlt) as [x Hx].
      split; [split|].
      * by rewrite at_array, list_lookup_insert_eq by done.
      * eapply same_element; [done|exact Hx|]. intros ss' [] _. apply prefix_nil.
      * cbn [resolve]. rewrite view_array. assert (len (<[Z.to_nat i:=v]> a) = len a) as -> by (unfold len; by rewrite length_insert).
        rewrite Ep. cbn [mbind option_bind]. by rewrite list_lookup_insert_eq by done.
Qed.
Lemma parent_mut_ok last v parents : ∀ d, let '(r, d') := parent_mut (set_last last v) parents d in
  match r with
  | Ok _ => ∃ ss, target d parents last = Some ss ∧ written ss v d d' ∧ resolve d' (parents ++ [last]) = Some ss
  | Err _ => target d parents last = None ∧ keeps d d'
  end.
Proof.
  induction parents as [|seg parents IH]; intros d; cbn [parent_mut target app].
  { pose proof (set_last_ok last v d) as Hl. destruct (set_last last v d) as [[[]|e] d'].
    - destruct Hl as (s & E & Hw & Hg). exists [s]. done.
    - destruct Hl as [E ->]. split; [done|apply keeps_refl]. }
  cbn [resolve]. destruct (view d) as [m|a|] eqn:Ev; [..|by split; [|apply keeps_refl]].
  - destruct seg as [k|]; [|by split; [|apply keeps_refl]]. specialize (IH (default (object []) (m_get k m))).
    destruct (parent_mut _ _ _) as [[[]|e] d'].
    + destruct IH as (ss & -> & [Hat Hs] & Hg). exists (At k :: ss). split; [done|]. split; [split|].
      * by rewrite at_object, m_get_insert, decide_True by done.
      * by apply same_member.
      * rewrite view_object, m_get_insert, decide_True by done. cbn [mbind option_bind]. by rewrite Hg.
    + destruct IH as [-> Hk]. split; [done|]. apply keeps_member; [done|]. intros x Ex. by rewrite Ex in Hk.
  - destruct (position seg (len a) false) as [i|] eqn:Ep; cbn [mbind option_bind]; [|by split; [|apply keeps_refl]].
    destruct (position_lookup _ _ _ Ep) as [x Ea]. rewrite Ea. cbn [fmap option_fmap option_map mbind option_bind]. specialize (IH x).
    destruct (parent_mut _ _ _) as [[[]|e] d'].
    + destruct IH as (ss & -> & [Hat Hs] & Hg). exists (Nth (Z.to_nat i) :: ss). split; [done|].
      assert (<[Z.to_nat i:=d']> a !! Z.to_nat i = Some d') as El by by apply list_lookup_insert_eq; eapply lookup_lt_Some.
      split; [split|].
      * by rewrite at_array, El.
      * by eapply same_element.
      * rewrite view_array. assert (len (<[Z.to_nat i:=d']> a) = len a) as -> by (unfold len; by rewrite length_insert).
        rewrite Ep. cbn [mbind option_bind]. rewrite El. cbn [mbind option_bind]. by rewrite Hg.
    + destruct IH as [-> Hk]. split; [done|]. by eapply keeps_element.
Qed.
Lemma split_last_some path last parents : split_last path = Some (last, parents) ↔ path = parents ++ [last].
Proof.
  unfold split_last. split.
  - destruct path as [|x path] using rev_ind; [done|]. rewrite last_snoc, removelast_last. cbn. by intros [= -> ->].
  - intros ->. by rewrite last_snoc, removelast_last.
Qed.
Lemma split_last_none path : split_last path = None ↔ path = [].
Proof. destruct path as [|x path] using rev_ind; [done|]. unfold split_last. rewrite last_snoc. cbn. split; [done|]. intros []%app_nil. done. Qed.

(** C29: [set] puts a value at the place of its path and nowhere else: the same
    path then gives it, and every other place holds what it held, over the
    members made on the way and the place after the end of an array. When the
    path has no place [set] says so; members made before the segment that is
    refused stay, empty, and no value that was there is lost. *)
Theorem path_set_exact d path v : let '(r, d') := set d path v in
  match r with
  | Ok _ => get d' path = Some v ∧ ∃ ss, place d path = Some ss ∧ written ss v d d'
  | Err _ => place d path = None ∧ keeps d d'
  end.
Proof.
  unfold set, place. destruct (split_last path) as [[last parents]|] eqn:E.
  - apply split_last_some in E as ->. pose proof (parent_mut_ok last v parents d) as Hp.
    destruct (parent_mut _ _ _) as [[[]|e] d']; [|done]. destruct Hp as (ss & Et & Hw & Hr). split; [|eauto]. rewrite get_resolve, Hr. apply Hw.
  - apply split_last_none in E as ->. split; [done|]. exists []. split; [done|]. split; [done|]. intros ss' []. apply prefix_nil.
Qed.

(** ** Deleting *)
(** The member, or the element, at [s] of what is at [ss] is gone; the
    elements after it are one place before. *)
Definition removed (ss : list Step) (s : Step) (d d' : T) : Prop :=
  match s with
  | At k => (∀ r, at_ d' (ss ++ At k :: r) = None) ∧ same_outside (ss ++ [At k]) d d'
  | Nth i =>
    (∀ j r, at_ d' (ss ++ Nth j :: r) = at_ d (ss ++ Nth (if decide (j < i)%nat then j else S j) :: r)) ∧ same_outside ss d d'
  end.
Lemma m_remove_none {A} k (m : list (str * A)) : m_get k m = None → m_remove k m = m.
Proof.
  induction m as [|[k1 v1] m IH]; [done|]. cbn [m_get m_remove List.filter fst]. unfold m_remove in IH. case_decide; [done|].
  intros E. rewrite bool_decide_eq_false_2 by done. cbn [negb]. by rewrite IH.
Qed.
(** What is left alone is given back the same. *)
Lemma m_insert_same {A} k (v : A) m : m_get k m = Some v → m_insert k v m = m.
Proof. induction m as [|[k1 v1] m IH]; [done|]. cbn [m_get m_insert]. case_decide; [intros [= ->]; by subst|]. intros E. by rewrite IH. Qed.
Lemma get_mut_same {R} (f : T → R * T) p : ∀ d r d', get_mut f p d = Some (r, d') → (∀ x, get d p = Some x → (f x).2 = x) → d' = d.
Proof.
  induction p as [|seg p IH]; intros d r d'; cbn [get_mut get].
  { intros [= E] Hf. specialize (Hf d eq_refl). by rewrite E in Hf. }
  destruct (view d) as [m|a|] eqn:Ev; [..|done].
  - destruct seg as [k|]; [|done]. destruct (m_get k m) as [x|] eqn:Em; cbn [mbind option_bind]; [|done].
    destruct (get_mut f p x) as [[r' x']|] eqn:Ex; cbn [mbind option_bind]; [|done]. intros [= <- <-] Hf.
    rewrite (IH _ _ _ Ex Hf), m_insert_same by done. symmetry. by apply object_view.
  - destruct (position seg (len a) false) as [i|]; cbn [mbind option_bind]; [|done].
    destruct (a !! Z.to_nat i) as [x|] eqn:Ea; cbn [mbind option_bind]; [|done].
    destruct (get_mut f p x) as [[r' x']|] eqn:Ex; cbn [mbind option_bind]; [|done]. intros [= <- <-] Hf.
    rewrite (IH _ _ _ Ex Hf), list_insert_id by done. symmetry. by apply array_view.
Qed.
Lemma get_app d p q : get d (p ++ q) = x ← get d p; get x q.
Proof.
  revert d. induction p as [|seg p IH]; intros d; [done|]. cbn [app get]. destruct (view d) as [m|a|]; [..|done].
  - destruct seg as [k|]; [|done]. by destruct (m_get k m); cbn [mbind option_bind].
  - destruct (position seg (len a) false) as [i|]; cbn [mbind option_bind]; [|done]. by destruct (a !! Z.to_nat i); cbn [mbind option_bind].
Qed.
Lemma resolve_app d p q : resolve d (p ++ q) = ss ← resolve d p; x ← at_ d ss; app ss <$> resolve x q.
Proof.
  revert d. induction p as [|seg p IH]; intros d.
  { cbn [app resolve mbind option_bind at_]. by destruct (resolve d q). }
  cbn [app resolve]. destruct (view d) as [m|a|] eqn:Ev; [..|done].
  - destruct seg as [k|]; [|done]. destruct (m_get k m) as [x|] eqn:Em; cbn [mbind option_bind]; [|done]. rewrite IH.
    destruct (resolve x p) as [ss|]; cbn [fmap option_fmap option_map mbind option_bind]; [|done]. cbn [at_]. rewrite Ev, Em. cbn [mbind option_bind].
    destruct (at_ x ss) as [y|]; cbn [mbind option_bind]; [|done]. by destruct (resolve y q).
  - destruct (position seg (len a) false) as [i|]; cbn [mbind option_bind]; [|done].
    destruct (a !! Z.to_nat i) as [x|] eqn:Ea; cbn [mbind option_bind]; [|done]. rewrite IH.
    destruct (resolve x p) as [ss|]; cbn [fmap option_fmap option_map mbind option_bind]; [|done]. cbn [at_]. rewrite Ev, Ea. cbn [mbind option_bind].
    destruct (at_ x ss) as [y|]; cbn [mbind option_bind]; [|done]. by destruct (resolve y q).
Qed.
(** A change inside what is at [ss] is a change outside of what it leaves. *)
Lemma same_inside ss s x x' d d' : at_ d ss = Some x → written ss x' d d' → same_outside [s] x x' → same_outside (ss ++ [s]) d d'.
Proof.
  intros Ex [Ex' Hs] Hi ss' H1 H2. destruct (decide (ss `prefix_of` ss')) as [[r ->]|Hn].
  - rewrite !at_app, Ex, Ex'. cbn [mbind option_bind]. apply Hi.
    + intros [q ->]. apply H1. exists q. by rewrite app_assoc.
    + intros [q E]. apply H2. exists q. by rewrite <- app_assoc, <- E.
  - apply Hs; [done|]. intros [q ->]. apply H2. exists (q ++ [s]). by rewrite app_assoc.
Qed.
Lemma get_one d last : get d [last] = ss ← resolve d [last]; at_ d ss.
Proof. apply get_resolve. Qed.
Lemma delete_last_ok last d : let '(b, d') := delete_last last d in
  if b : bool then ∃ s, resolve d [last] = Some [s] ∧ is_Some (get d [last]) ∧ removed [] s d d' else get d [last] = None ∧ d' = d.
Proof.
  unfold delete_last. cbn [resolve get]. destruct (view d) as [m|a|] eqn:Ev; [destruct last as [k|]; [|done]| |done].
  - destruct (m_get k m) as [x|] eqn:Em; cbn [mbind option_bind fmap option_fmap option_map].
    2: { split; [done|]. rewrite m_remove_none by done. symmetry. by apply object_view. }
    exists (At k). split; [done|]. split; [done|]. split.
    + intros r. cbn [app]. by rewrite at_object, m_get_remove, decide_True by done.
    + cbn [app]. intros [|[k'|i] r] H1 H2; [destruct H2; apply prefix_nil| |cbn [at_]; by rewrite view_object, Ev].
      cbn [at_]. rewrite view_object, Ev, m_get_remove, decide_False; [done|]. intros ->. apply H1, prefix_cons, prefix_nil.
  - destruct (position last (len a) false) as [i|] eqn:Ep; cbn [mbind option_bind]; [|done].
    destruct (position_lookup _ _ _ Ep) as [x Ea]. rewrite Ea. cbn [fmap option_fmap option_map mbind option_bind].
    exists (Nth (Z.to_nat i)). split; [done|]. split; [done|]. split; [|intros ss' []; apply prefix_nil].
    intros j r. cbn [app at_]. rewrite view_array, Ev. case_decide; [by rewrite list_lookup_delete_lt|by rewrite list_lookup_delete_ge by lia].
Qed.
(** [delete] says whether there was a value at the path, the root apart,
    and takes away that value alone: a member with all it holds, or an element,
    those after it moving one place down. Otherwise the document is the same. *)
Theorem path_delete_exact d path : let '(b, d') := delete d path in
  (b = true ↔ path ≠ [] ∧ is_Some (get d path)) ∧
  if b then ∃ ss s, resolve d path = Some (ss ++ [s]) ∧ removed ss s d d' else d' = d.
Proof.
  unfold delete. destruct (split_last path) as [[last parents]|] eqn:E.
  2: { apply split_last_none in E as ->. split; [|done]. by split; [|intros []]. }
  apply split_last_some in E as ->. assert (parents ++ [last] ≠ []) as Hne by (intros []%app_nil; done).
  rewrite get_app, resolve_app. destruct (get_mut (delete_last last) parents d) as [[b d']|] eqn:Em; cbn [default from_option].
  2: { apply get_mut_none in Em as ->. cbn. split; [|done]. split; [done|]. by intros [_ []]. }
  destruct (get_mut_ok _ _ _ _ _ Em) as (ss & x & Er & Ex & -> & Hw & Hg'). rewrite get_resolve, Er. cbn [mbind option_bind]. rewrite Ex. cbn [mbind option_bind].
  pose proof (delete_last_ok last x) as Hl. pose proof (get_mut_same _ _ _ _ _ Em) as Hsame. rewrite get_resolve, Er in Hsame. cbn [mbind option_bind] in Hsame.
  destruct (delete_last last x) as [[] x'] eqn:El; cbn [fst snd] in *.
  - destruct Hl as (s & -> & Hg & Hr). split; [done|]. exists ss, s. split; [done|]. destruct Hw as [Ex' Hs]. destruct s as [k|i]; cbn [removed] in *; destruct Hr as [Hr1 Hr2].
    + split; [|by eapply same_inside]. intros r. rewrite at_app, Ex'. apply Hr1.
    + split; [|done]. intros j r. rewrite !at_app, Ex, Ex'. cbn [mbind option_bind]. apply Hr1.
  - destruct Hl as [-> ->]. split; [split; [done|by intros [_ []]]|]. apply Hsame. intros y. rewrite Ex. intros [= <-]. by rewrite El.
Qed.

(** ** Arrays *)
Lemma set_resolve d path v d' : set d path v = (Ok tt, d') → ∃ ss, place d path = Some ss ∧ written ss v d d' ∧ resolve d' path = Some ss.
Proof.
  unfold set, place. destruct (split_last path) as [[last parents]|] eqn:E.
  - apply split_last_some in E as ->. intros Es. pose proof (parent_mut_ok last v parents d) as Hp. by rewrite Es in Hp.
  - apply split_last_none in E as ->. intros [= <-]. exists []. split; [done|]. split; [|done]. split; [done|]. intros ss' []. apply prefix_nil.
Qed.
Lemma written_trans ss x y d d1 d' : written ss x d d1 → written ss y d1 d' → written ss y d d'.
Proof. intros [_ H1] [Hy H2]. split; [done|]. intros ss' Ha Hb. rewrite H2 by done. by apply H1. Qed.
(** [append] puts the values after those of the array, which it makes when
    the path gives nothing. *)
Lemma append_exact d path values n d' : append d path values = (Ok n, d') →
  ∃ a ss, (match get d path with Some x => view x = NArray a ∧ resolve d path = Some ss | None => a = [] ∧ place d path = Some ss end) ∧
  written ss (array (a ++ values)) d d' ∧ get d' path = Some (array (a ++ values)) ∧ n = len (a ++ values).
Proof.
  unfold append. destruct (get d path) as [x|] eqn:Eg.
  - destruct (get_mut (extend values) path d) as [[r d1]|] eqn:Em; cbn [default from_option]; [|done]. intros [= -> <-].
    destruct (get_mut_ok _ _ _ _ _ Em) as (ss & y & Er & Ey & En & Hw & Hg). rewrite get_resolve, Er in Eg. cbn [mbind option_bind] in Eg.
    rewrite Ey in Eg. injection Eg as ->. revert En Hg Hw. unfold extend. destruct (view x) as [m|a|]; try done. cbn [fst snd]. intros [= ->] Hg Hw.
    exists a, ss. done.
  - destruct (set d path (array [])) as [[[]|e] d1] eqn:Es; [|done]. destruct (set_resolve _ _ _ _ Es) as (ss & Ess & Hw1 & Er1).
    destruct (get_mut (extend values) path d1) as [[r d2]|] eqn:Em; cbn [default from_option]; [|done]. intros [= -> <-].
    destruct (get_mut_ok _ _ _ _ _ Em) as (ss' & y & Er & Ey & En & Hw & Hg). rewrite Er1 in Er. injection Er as <-.
    rewrite (proj1 Hw1) in Ey. injection Ey as <-. revert En Hg Hw. unfold extend. rewrite view_array. cbn [fst snd]. intros [= ->] Hg Hw.
    exists [], ss. split; [done|]. split; [by eapply written_trans|done].
Qed.
(** [insert] puts the value before the element of the path, and the elements
    from it on move one place up; a refusal changes nothing. *)
Lemma insert_exact d path v : let '(r, d') := insert d path v in
  match r with
  | Ok n => ∃ parents last ss a i, path = parents ++ [last] ∧ resolve d parents = Some ss ∧ position last (len a) true = Some i ∧
    at_ d ss = Some (array a) ∧ written ss (array (take (Z.to_nat i) a ++ v :: drop (Z.to_nat i) a)) d d' ∧ n = len a + 1
  | Err _ => d' = d
  end.
Proof.
  unfold insert. destruct (split_last path) as [[last parents]|] eqn:E; [|done]. apply split_last_some in E as ->.
  destruct (get_mut (insert_last last v) parents d) as [[r d']|] eqn:Em; cbn [default from_option]; [|done].
  pose proof (get_mut_same _ _ _ _ _ Em) as Hsame. destruct (get_mut_ok _ _ _ _ _ Em) as (ss & x & Er & Ex & -> & Hw & _).
  rewrite get_resolve, Er in Hsame. cbn [mbind option_bind] in Hsame. rewrite Ex in Hsame. revert Hw Hsame. unfold insert_last.
  destruct (view x) as [m|a|] eqn:Ev; cbn [fst snd].
  - intros _ Hs. apply Hs. intros ? [= <-]. by rewrite ?Ev, ?Ep.
  - destruct (position last (len a) true) as [i|] eqn:Ep; cbn [fst snd].
    + intros Hw _. apply array_view in Ev as ->. exists parents, last, ss, a, i. repeat (split; [done|]).
      pose proof (position_range _ _ _ _ Ep) as [Hi _]. unfold len in *. rewrite length_app. cbn [length]. rewrite length_take, length_drop. lia.
    + intros _ Hs. apply Hs. intros ? [= <-]. by rewrite ?Ev, ?Ep.
  - intros _ Hs. apply Hs. intros ? [= <-]. by rewrite ?Ev, ?Ep.
Qed.
End places.
