(* ===== verification/PathText.v ===== *)
(** * Reading a path ends, and reads back what a path may be written as. *)
From S2P Require Import Prelude Utf8 Text Paths.

(** ** The reader ends *)
Lemma bracket_length t s rest : bracket t = Ok (s, rest) → (length rest < length t)%nat.
Proof.
  unfold bracket. destruct (match t with q :: u => if is_quote q then Some (q, u) else None | [] => None end) as [[q u]|] eqn:Eq.
  - assert (length t = S (length u)) as -> by (destruct t as [|x t]; [done|]; destruct (is_quote x); [|done]; by injection Eq as <- <-).
    destruct (cut_at q u) as [[k [|c r]]|] eqn:Ec; [done| |done]. destruct (c =? CLOSE); [|done]. intros [= <- <-].
    apply cut_at_length in Ec. cbn in Ec. lia.
  - destruct (cut_at CLOSE t) as [[text r]|] eqn:Ec; [|done]. destruct (parse_i64 _); [|done]. intros [= <- <-]. by eapply cut_at_length.
Qed.
Lemma parse_loop_ends fuel : ∀ rest segs need, (length rest ≤ fuel)%nat → is_Some (parse_loop fuel rest segs need).
Proof.
  induction fuel as [|fuel IH]; intros [|c t] segs need Hl; cbn [length] in Hl; try lia; [by eexists..|]. cbn [parse_loop].
  destruct (c =? OPEN) eqn:Eo.
  { destruct (bracket t) as [[s rest]|e] eqn:Eb; [|by eexists]. apply bracket_length in Eb. apply IH. lia. }
  destruct (c =? DOT) eqn:Ed; [destruct (need || bool_decide (t = [])); [by eexists|apply IH; lia]|].
  destruct (c =? CLOSE) eqn:Ec; [by eexists|]. destruct (negb _ && negb need); [by eexists|].
  assert (in_name c = true) as En by (unfold in_name; by rewrite Eo, Ed, Ec). cbn [span]. rewrite En.
  pose proof (span_length in_name t). destruct (span in_name t) as [a b]. apply IH. cbn in *. lia.
Qed.
(** Reading a path always ends. *)
Lemma parse_path_ends s : is_Some (parse_path s).
Proof.
  unfold parse_path. destruct (Utf8.trim s) as [|c t]; [by eexists|]. destruct (c =? DOT).
  - case_bool_decide; [by eexists|]. by apply parse_loop_ends.
  - by apply parse_loop_ends.
Qed.

(** ** A path as a text: [.name], [[3]], and a name in quotes when it holds
    what would end it *)
Definition plain (k : str) : bool := negb (bool_decide (k = [])) && forallb (fun c => in_name c && negb (is_whitespace c)) k.
Definition seg_text (s : Seg) : str :=
  match s with
  | Idx n => OPEN :: int_text n ++ [CLOSE]
  | Key k =>
    if plain k then DOT :: k
    else let q := if bool_decide (34 ∈ k) then 39 else 34 in OPEN :: q :: k ++ [q; CLOSE]
  end.
Definition segs_text (segs : list Seg) : str := List.flat_map seg_text segs.
Definition path_text (segs : list Seg) : str := match segs with [] => [DOT] | _ => segs_text segs end.
(** A path says an index of 64 bits, and a name without both quotes. *)
Definition writable (s : Seg) : Prop :=
  match s with Idx n => in_i64 n | Key k => plain k = true ∨ 34 ∉ k ∨ 39 ∉ k end.

Lemma plain_spec k : plain k = true ↔ k ≠ [] ∧ Forall (fun c => in_name c = true ∧ is_whitespace c = false) k.
Proof.
  unfold plain. rewrite andb_true_iff, negb_true_iff, bool_decide_eq_false, forallb_forall, List.Forall_forall.
  by setoid_rewrite andb_true_iff; setoid_rewrite negb_true_iff.
Qed.
Definition starts_segment (t : str) : Prop := match t with [] => True | c :: _ => in_name c = false end.
Lemma seg_text_starts s t : starts_segment (seg_text s ++ t).
Proof. destruct s as [k|n]; cbn [seg_text]; [destruct (plain k)|]; done. Qed.
Lemma segs_text_starts segs : starts_segment (segs_text segs).
Proof. destruct segs as [|s segs]; [done|]. apply seg_text_starts. Qed.
Lemma int_text_in n c : in_i64 n → c ∈ int_text n → c = 45 ∨ is_digit c.
Proof. intros Hn Hc. assert (- 10 ^ 40 < n < 10 ^ 40) as H by (unfold in_i64, i64_min, i64_max in Hn; lia). by apply (proj1 (Forall_forall _ _) (int_text_chars n H)). Qed.
Lemma bracket_index n t : in_i64 n → bracket (int_text n ++ CLOSE :: t) = Ok (Idx n, t).
Proof.
  intros Hn. assert (CLOSE ∉ int_text n) as Hc by (intros [|[]]%int_text_in; unfold CLOSE in *; [done|lia|done]).
  unfold bracket. assert ((match int_text n ++ CLOSE :: t with q :: u => if is_quote q then Some (q, u) else None | [] => None end) = None) as ->.
  { destruct (int_text n) as [|c l] eqn:E; [done|]. cbn [app]. assert (c ∈ int_text n) as Hin by (rewrite E; left). apply int_text_in in Hin; [|done].
    unfold is_quote. unfold is_digit in Hin. by rewrite !(proj2 (Z.eqb_neq _ _)) by lia. }
  rewrite cut_at_app by done. rewrite trim_digits, parse_i64_text; [done..|]. apply int_text_chars. unfold in_i64, i64_min, i64_max in Hn. lia.
Qed.
Lemma bracket_quoted q k t : is_quote q = true → q ∉ k → bracket (q :: k ++ q :: CLOSE :: t) = Ok (Key k, t).
Proof. intros Hq Hk. unfold bracket. by rewrite Hq, cut_at_app, Z.eqb_refl by done. Qed.

(** ** Each segment is read back, whatever follows it *)
Lemma parse_name k t fuel segs : plain k = true → starts_segment t →
  parse_loop (S fuel) (k ++ t) segs true = parse_loop fuel t (segs ++ [Key k]) false.
Proof.
  intros [Hk Hc]%plain_spec Ht. destruct k as [|c k]; [done|].
  assert (in_name c = true) as Hn by by apply Forall_inv in Hc as [? _].
  unfold in_name in Hn. apply negb_true_iff, orb_false_iff in Hn as [[Hd Ho]%orb_false_iff Hcl]. cbn [app parse_loop].
  rewrite Ho, Hd, Hcl, andb_false_r. change (c :: k ++ t) with ((c :: k) ++ t).
  rewrite span_app; [done| |exact Ht]. eapply Forall_impl; [exact Hc|]. by intros ? [].
Qed.
Lemma parse_segment s t fuel segs : writable s → starts_segment t →
  ∃ fuel', (fuel ≤ fuel')%nat ∧ parse_loop (S (S fuel)) (seg_text s ++ t) segs false = parse_loop fuel' t (segs ++ [s]) false.
Proof.
  intros Hw Ht. destruct s as [k|n]; cbn [seg_text writable] in *.
  - destruct (plain k) eqn:Ep.
    + exists fuel. split; [done|]. cbn [app]. rewrite <- (parse_name k t fuel segs Ep Ht). cbn [parse_loop].
      change (DOT =? OPEN) with false. change (DOT =? DOT) with true. cbn [orb]. by destruct k.
    + set (q := if bool_decide (34 ∈ k) then 39 else 34). assert (is_quote q = true ∧ q ∉ k) as [Hq Hk].
      { unfold q. case_bool_decide; [|done]. split; [done|]. destruct Hw as [|[|]]; done. }
      exists (S fuel). split; [lia|]. cbn [app parse_loop]. rewrite Z.eqb_refl. rewrite <- app_assoc. cbn [app]. by rewrite bracket_quoted.
  - exists (S fuel). split; [lia|]. cbn [app parse_loop]. rewrite Z.eqb_refl, <- app_assoc. cbn [app]. by rewrite bracket_index.
Qed.
Lemma seg_text_length s : (2 ≤ length (seg_text s))%nat.
Proof.
  destruct s as [k|n]; cbn [seg_text]; [|cbn [length]; rewrite length_app; cbn [length]; lia].
  destruct (plain k) eqn:Ep; [|cbn [length]; lia]. apply plain_spec in Ep as [? _]. destruct k; [done|cbn [length]; lia].
Qed.
Lemma parse_segments segs : ∀ fuel acc, Forall writable segs → (length (segs_text segs) ≤ fuel)%nat →
  parse_loop fuel (segs_text segs) acc false = Some (Ok (acc ++ segs)).
Proof.
  induction segs as [|s segs IH]; intros fuel acc Hw Hf.
  { cbn [segs_text List.flat_map]. rewrite app_nil_r. by destruct fuel. }
  apply Forall_cons in Hw as [Hs Hw]. cbn [segs_text List.flat_map] in *. rewrite length_app in Hf. pose proof (seg_text_length s).
  destruct fuel as [|[|fuel]]; [lia..|]. destruct (parse_segment s (segs_text segs) fuel acc Hs (segs_text_starts segs)) as (fuel' & Hf' & E).
  unfold segs_text in *. rewrite E, IH by (done || lia). by rewrite <- app_assoc.
Qed.

(** ** A written path has no blanks at its ends *)
Lemma seg_text_edges s : ∃ c t d u, seg_text s = c :: t ∧ seg_text s = u ++ [d] ∧ is_whitespace c = false ∧ is_whitespace d = false.
Proof.
  destruct s as [k|n]; cbn [seg_text].
  - destruct (plain k) eqn:Ep.
    + apply plain_spec in Ep as [Hk Hc]. destruct k as [|d k _] using rev_ind; [done|]. apply Forall_app in Hc as [_ [_ Hd]%Forall_inv].
      exists DOT, (k ++ [d]), d, (DOT :: k). done.
    + exists OPEN. do 2 eexists. eexists. split; [done|]. split.
      { match goal with |- _ :: ?q :: k ++ _ = _ => exact (app_assoc (OPEN :: q :: k) [q] [CLOSE]) end. }
      done.
  - exists OPEN, (int_text n ++ [CLOSE]), CLOSE, (OPEN :: int_text n). done.
Qed.
Lemma path_text_trim segs : Utf8.trim (path_text segs) = path_text segs.
Proof.
  destruct segs as [|s segs]; [done|]. cbn [path_text segs_text List.flat_map].
  destruct (seg_text_edges s) as (c & t & d0 & u0 & E & _ & Hc & _).
  assert (∃ d u, seg_text s ++ List.flat_map seg_text segs = u ++ [d] ∧ is_whitespace d = false) as (d & u & Ed & Hd).
  { destruct segs as [|s' segs _] using rev_ind.
    - destruct (seg_text_edges s) as (_ & _ & d & u & _ & Ed & _ & Hd). exists d, u. by rewrite app_nil_r.
    - destruct (seg_text_edges s') as (_ & _ & d & u & _ & Ed & _ & Hd). exists d, (seg_text s ++ List.flat_map seg_text segs ++ u).
      by rewrite flat_map_app; cbn [List.flat_map]; rewrite app_nil_r, Ed, <- !app_assoc. }
  rewrite E in *. cbn [app] in *. by eapply trim_edges.
Qed.

(** A path that is written is read back: every list of positions of 64
    bits and of names that do not hold both kinds of quotes has a text, which
    [parse_path] reads as that list. *)
Theorem path_text_roundtrip segs : Forall writable segs → parse_path (path_text segs) = Some (Ok segs).
Proof.
  intros Hw. unfold parse_path. rewrite path_text_trim. destruct segs as [|s segs]; [done|]. cbn [path_text].
  destruct (segs_text (s :: segs)) as [|c t] eqn:Et.
  { apply (f_equal length) in Et. cbn [segs_text List.flat_map] in Et. rewrite length_app in Et. pose proof (seg_text_length s). cbn [length] in Et. lia. }
  destruct (Z.eqb_spec c DOT) as [->|Hc].
  - apply Forall_cons in Hw as [Hs Hw]. cbn [segs_text List.flat_map] in Et. destruct s as [k|n]; cbn [seg_text] in Et; [|done].
    destruct (plain k) eqn:Ep; [|done]. injection Et as <-. pose proof Ep as [Hk _]%plain_spec. rewrite bool_decide_eq_false_2 by by destruct k.
    assert (∃ n, length (k ++ segs_text segs) = S n ∧ (length (segs_text segs) ≤ n)%nat) as (n & En & Hn).
    { destruct k; [done|]. eexists. cbn [app length]. split; [done|]. rewrite length_app. lia. }
    unfold segs_text in *. rewrite En, parse_name by (done || apply segs_text_starts). by rewrite parse_segments.
  - rewrite <- Et. by rewrite parse_segments.
Qed.
Lemma path_text_roundtrip_witness :
  Forall writable [Key (lit "a.b"); Idx (-1); Key (lit "it's")] ∧
  parse_path (path_text [Key (lit "a.b"); Idx (-1); Key (lit "it's")]) = Some (Ok [Key (lit "a.b"); Idx (-1); Key (lit "it's")]).
Proof.
  assert (Forall writable [Key (lit "a.b"); Idx (-1); Key (lit "it's")]) as H.
  { apply Forall_cons; split; [right; left; vm_decide|]. apply Forall_cons; split; [by vm_compute|]. apply Forall_singleton. right; left; vm_decide. }
  split; [exact H|]. exact (path_text_roundtrip _ H).
Defined.
