(* ===== verification/Lexer.v ===== *)
(** * [src/lexer.rs]: the words of a command

    The text of a command is a list of characters; positions are in bytes, as
    the code has them. The loop takes one unit of fuel per character. *)
From S2P Require Import Prelude Utf8 Text Paths.

Inductive Kind := Bare | DQuote | SQuote | Backtick | JsonText | Comma | LParen | RParen.
#[export] Instance kind_eq_dec : EqDecision Kind.
Proof. solve_decision. Defined.
Record Token := { t_text : str; kind : Kind; t_start : Z; t_end : Z }.

Definition is_quoted (t : Token) : bool := match kind t with DQuote | SQuote => true | _ => false end.
Definition is_bare (t : Token) : bool := bool_decide (kind t = Bare).
Definition is_kw (kw : str) (t : Token) : bool := is_bare t && same_word (t_text t) kw.

(** ** The characters *)
Definition any_quote (c : Z) : bool := (c =? 34) || (c =? 39) || (c =? 96).
Definition opens (c : Z) : bool := (c =? 91) || (c =? 123).
Definition closes (c : Z) : bool := (c =? 93) || (c =? 125).
Definition separator (c : Z) : bool := (c =? 44) || (c =? 40) || (c =? 41).
Definition quote_kind (c : Z) : Kind := if c =? 34 then DQuote else if c =? 39 then SQuote else Backtick.
Definition sep_kind (c : Z) : Kind := if c =? 44 then Comma else if c =? 40 then LParen else RParen.

(** What the scan of a JSON literal has seen: its open brackets (counted in an
    [i32], whose end is not reached), whether it is in a text, and after a
    backslash. *)
Record Scan := { depth : Z; in_str : bool; escaped : bool }.
Definition scan_char (s : Scan) (ch : Z) : Scan :=
  if in_str s then
    if escaped s then {| depth := depth s; in_str := true; escaped := false |}
    else if ch =? 92 then {| depth := depth s; in_str := true; escaped := true |}
    else {| depth := depth s; in_str := negb (ch =? 34); escaped := false |}
  else
    {| depth := depth s + (if opens ch then 1 else if closes ch then -1 else 0);
       in_str := ch =? 34; escaped := escaped s |}.
(** The scan stops at the bracket that closes the first one. *)
Definition scan_ends (s : Scan) (ch : Z) : bool := negb (in_str s) && closes ch && (depth (scan_char s ch) =? 0).
Fixpoint scan_json (s : Scan) (l : str) : option (str * str) :=
  match l with
  | [] => None
  | ch :: l => if scan_ends s ch then Some ([ch], l) else '(a, b) ← scan_json (scan_char s ch) l; Some (ch :: a, b)
  end.
Definition scan0 : Scan := {| depth := 0; in_str := false; escaped := false |}.

(** ** Reading *)
Definition flush (current : str) (start end_ : Z) (tokens : list Token) : list Token :=
  if bool_decide (current = []) then tokens
  else tokens ++ [{| t_text := current; kind := Bare; t_start := start; t_end := end_ |}].
Definition UNCLOSED_QUOTE : msg := "Syntax Error: Unclosed quote detected ({c})."%string.
Definition UNCLOSED_BRACKET : msg := "Syntax Error: Unclosed bracket detected ({c})."%string.
Definition char_len (c : Z) : Z := len (encode_char c).

Fixpoint lex_loop (fuel : nat) (rest : str) (pos : Z) (current : str) (cur_start : Z) (tokens : list Token)
  : option (result msg (list Token)) :=
  match rest with
  | [] => Some (Ok (flush current cur_start pos tokens))
  | c :: t =>
    match fuel with
    | O => None
    | S fuel =>
      if any_quote c then
        let tokens := flush current cur_start pos tokens in
        match cut_at c t with
        | None => Some (Err UNCLOSED_QUOTE)
        | Some (text, rest) =>
          let end_ := pos + 1 + str_len text + 1 in
          lex_loop fuel rest end_ [] cur_start (tokens ++ [{| t_text := text; kind := quote_kind c; t_start := pos; t_end := end_ |}])
        end
      else if opens c && bool_decide (current = []) then
        match scan_json scan0 rest with
        | None => Some (Err UNCLOSED_BRACKET)
        | Some (text, rest) =>
          let end_ := pos + str_len text in
          lex_loop fuel rest end_ [] cur_start (tokens ++ [{| t_text := text; kind := JsonText; t_start := pos; t_end := end_ |}])
        end
      else if separator c then
        let tokens := flush current cur_start pos tokens in
        lex_loop fuel t (pos + 1) [] cur_start (tokens ++ [{| t_text := [c]; kind := sep_kind c; t_start := pos; t_end := pos + 1 |}])
      else if is_whitespace c then lex_loop fuel t (pos + char_len c) [] cur_start (flush current cur_start pos tokens)
      else lex_loop fuel t (pos + char_len c) (current ++ [c]) (if bool_decide (current = []) then pos else cur_start) tokens
    end
  end.
Definition tokenize (input : str) : option (result msg (list Token)) := lex_loop (length input) input 0 [] 0 [].

(** Commands in a chain. *)
Fixpoint split_loop (tokens : list Token) (cur : list Token) (groups : list (list Token)) : list (list Token) :=
  match tokens with
  | [] => if bool_decide (cur = []) then groups else groups ++ [cur]
  | t :: tokens =>
    if is_kw (lit "and") t then split_loop tokens [] (if bool_decide (cur = []) then groups else groups ++ [cur])
    else split_loop tokens (cur ++ [t]) groups
  end.
Definition split_by_and (tokens : list Token) : list (list Token) := split_loop tokens [] [].

(** ** What a reading is *)
(** The characters of the command a token stands for. *)
Definition quote_of (k : Kind) : str := match k with DQuote => [34] | SQuote => [39] | Backtick => [96] | _ => [] end.
Definition source (t : Token) : str := quote_of (kind t) ++ t_text t ++ quote_of (kind t).
Definition word_char (c : Z) : Prop := c ∉ [34; 39; 96] ∧ c ∉ lit ",()" ∧ is_whitespace c = false.
(** The rest of a JSON text after its quote, up to the quote that ends it: a
    backslash takes the character after it, whatever it is. *)
Inductive text_rest : str → Prop :=
| tr_end : text_rest [34]
| tr_char c s : c ≠ 34 → c ≠ 92 → text_rest s → text_rest (c :: s)
| tr_escape c s : text_rest s → text_rest (92 :: c :: s).
(** What is between two brackets that match: brackets are balanced, those in
    texts do not count, and a bracket of either form closes either. *)
Inductive inside : str → Prop :=
| in_nil : inside []
| in_char c s : c ∉ 34 :: lit "[]{}" → inside s → inside (c :: s)
| in_text a s : text_rest a → inside s → inside (34 :: a ++ s)
| in_nest o a c s : o ∈ lit "[{" → inside a → c ∈ lit "]}" → inside s → inside (o :: a ++ c :: s).
Definition json_literal (s : str) : Prop := ∃ o a c, s = o :: a ++ [c] ∧ o ∈ lit "[{" ∧ inside a ∧ c ∈ lit "]}".
Definition token_ok (t : Token) : Prop :=
  match kind t with
  | Bare => Forall word_char (t_text t) ∧ match t_text t with c :: _ => c ∉ lit "[{" | [] => False end
  | DQuote => 34 ∉ t_text t
  | SQuote => 39 ∉ t_text t
  | Backtick => 96 ∉ t_text t
  | JsonText => json_literal (t_text t)
  | Comma => t_text t = lit ","
  | LParen => t_text t = lit "("
  | RParen => t_text t = lit ")"
  end.
(** What may follow a word that is not quoted. *)
Definition word_ends (s : str) : Prop := match s with c :: _ => ¬ word_char c | [] => True end.
Definition blank (s : str) : Prop := Forall (fun c => is_whitespace c = true) s.
(** The text [s], from the byte [pos] of the command, is the tokens [ts] in
    their order, with blanks around them. *)
Inductive reads : Z → str → list Token → Prop :=
| reads_end pos s : blank s → reads pos s []
| reads_token pos gap t rest ts :
    blank gap → token_ok t → t_start t = pos + str_len gap → t_end t = t_start t + str_len (source t) →
    (kind t = Bare → word_ends rest) → reads (t_end t) rest ts → reads pos (gap ++ source t ++ rest) (t :: ts).

Lemma scan_json_split s l a b : scan_json s l = Some (a, b) → l = a ++ b.
Proof.
  revert s a. induction l as [|ch l IH]; intros s a; [done|]. cbn [scan_json]. destruct (scan_ends s ch); [by intros [= <- <-]|].
  destruct (scan_json _ l) as [[a' b']|] eqn:E; [|done]. intros [= <- <-]. cbn [app]. f_equal. by eapply IH.
Qed.
Lemma quote_cases c : any_quote c = true → c = 34 ∨ c = 39 ∨ c = 96.
Proof. unfold any_quote. rewrite !orb_true_iff, !Z.eqb_eq. tauto. Qed.
Lemma sep_cases c : separator c = true → c = 44 ∨ c = 40 ∨ c = 41.
Proof. unfold separator. rewrite !orb_true_iff, !Z.eqb_eq. tauto. Qed.
Lemma opens_cases c : opens c = true → c = 91 ∨ c = 123.
Proof. unfold opens. rewrite !orb_true_iff, !Z.eqb_eq. tauto. Qed.
Lemma quote_in c : any_quote c = true ↔ c ∈ [34; 39; 96].
Proof. unfold any_quote. rewrite !orb_true_iff, !Z.eqb_eq, !elem_of_cons, elem_of_nil. tauto. Qed.
Lemma sep_in c : separator c = true ↔ c ∈ lit ",()".
Proof. change (lit ",()") with [44; 40; 41]. unfold separator. rewrite !orb_true_iff, !Z.eqb_eq, !elem_of_cons, elem_of_nil. tauto. Qed.
Lemma opens_in c : opens c = true ↔ c ∈ lit "[{".
Proof. change (lit "[{") with [91; 123]. unfold opens. rewrite !orb_true_iff, !Z.eqb_eq, !elem_of_cons, elem_of_nil. tauto. Qed.
Lemma closes_in c : closes c = true ↔ c ∈ lit "]}".
Proof. change (lit "]}") with [93; 125]. unfold closes. rewrite !orb_true_iff, !Z.eqb_eq, !elem_of_cons, elem_of_nil. tauto. Qed.
Lemma not_true_in (b : bool) P : (b = true ↔ P) → (b = false ↔ ¬ P).
Proof. intros <-. by rewrite not_true_iff_false. Qed.
Lemma word_tests c : word_char c ↔ any_quote c = false ∧ separator c = false ∧ is_whitespace c = false.
Proof. unfold word_char. by rewrite (not_true_in _ _ (quote_in c)), (not_true_in _ _ (sep_in c)). Qed.
Lemma not_opens c : opens c = false ↔ c ∉ lit "[{".
Proof. apply not_true_in, opens_in. Qed.

(** *** The scan of a JSON literal ends at the bracket that closes its first *)
Definition at_depth (d : Z) : Scan := {| depth := d; in_str := false; escaped := false |}.
Definition in_text_at (d : Z) (e : bool) : Scan := {| depth := d; in_str := true; escaped := e |}.
Definition prefixed (a : str) (o : option (str * str)) : option (str * str) := '(x, y) ← o; Some (a ++ x, y).
Lemma prefixed_app a b o : prefixed a (prefixed b o) = prefixed (a ++ b) o.
Proof. destruct o as [[x y]|]; [|done]. cbn. by rewrite app_assoc. Qed.
Lemma scan_step s c l : scan_ends s c = false → scan_json s (c :: l) = prefixed [c] (scan_json (scan_char s c) l).
Proof. intros E. cbn [scan_json]. rewrite E. by destruct (scan_json (scan_char s c) l) as [[x y]|]. Qed.
Lemma scan_stop s c l : scan_ends s c = true → scan_json s (c :: l) = Some ([c], l).
Proof. intros E. cbn [scan_json]. by rewrite E. Qed.
Lemma text_ends d e c : scan_ends (in_text_at d e) c = false.
Proof. done. Qed.
Lemma text_char d c : c ≠ 34 → c ≠ 92 → scan_char (in_text_at d false) c = in_text_at d false.
Proof. intros H1 H2. unfold scan_char. cbn [in_text_at in_str escaped depth]. by rewrite (proj2 (Z.eqb_neq c 92) H2), (proj2 (Z.eqb_neq c 34) H1). Qed.
Lemma opens_tests c : opens c = true → closes c = false ∧ c ≠ 34.
Proof. by intros [-> | ->]%opens_cases. Qed.
Lemma closes_tests c : closes c = true → opens c = false ∧ c ≠ 34.
Proof. unfold closes. rewrite orb_true_iff, !Z.eqb_eq. by intros [-> | ->]. Qed.
Lemma open_char d c : opens c = true → scan_char (at_depth d) c = at_depth (d + 1) ∧ scan_ends (at_depth d) c = false.
Proof.
  intros Ho. destruct (opens_tests c Ho) as [Hc Hn]. unfold scan_ends, scan_char, at_depth. cbn [in_str escaped depth negb andb].
  by rewrite Ho, Hc, (proj2 (Z.eqb_neq c 34) Hn).
Qed.
Lemma close_char d c : closes c = true → scan_char (at_depth d) c = at_depth (d - 1) ∧ scan_ends (at_depth d) c = (d =? 1).
Proof.
  intros Hc. destruct (closes_tests c Hc) as [Ho Hn]. unfold scan_ends, scan_char, at_depth. cbn [in_str escaped depth negb andb].
  rewrite Ho, Hc, (proj2 (Z.eqb_neq c 34) Hn). cbn [andb]. split; [done|]. destruct (Z.eqb_spec (d + -1) 0), (Z.eqb_spec d 1); lia || done.
Qed.
Lemma plain_char d c : opens c = false → closes c = false → scan_char (at_depth d) c = (if c =? 34 then in_text_at d false else at_depth d) ∧ scan_ends (at_depth d) c = false.
Proof.
  intros Ho Hc. unfold scan_ends, scan_char, at_depth. cbn [in_str escaped depth negb andb]. rewrite Ho, Hc, Z.add_0_r. by destruct (c =? 34).
Qed.
Lemma plain_in c : c ∉ 34 :: lit "[]{}" ↔ c ≠ 34 ∧ opens c = false ∧ closes c = false.
Proof.
  rewrite not_opens, (not_true_in _ _ (closes_in c)). change (lit "[]{}") with [91; 93; 123; 125]. change (lit "[{") with [91; 123]. change (lit "]}") with [93; 125].
  set_solver.
Qed.
Lemma scan_text d a rest : text_rest a → scan_json (in_text_at d false) (a ++ rest) = prefixed a (scan_json (at_depth d) rest).
Proof.
  induction 1 as [|c s H1 H2 _ IH|c s _ IH]; cbn [app].
  - by rewrite scan_step.
  - by rewrite scan_step, text_char, IH, prefixed_app.
  - rewrite scan_step by done. change (scan_char (in_text_at d false) 92) with (in_text_at d true). rewrite scan_step by done.
    change (scan_char (in_text_at d true) c) with (in_text_at d false). by rewrite IH, !prefixed_app.
Qed.
Lemma scan_inside a : inside a → ∀ d rest, 1 ≤ d → scan_json (at_depth d) (a ++ rest) = prefixed a (scan_json (at_depth d) rest).
Proof.
  induction 1 as [|c s Hc _ IH|x s Hx _ IH|o x c s Ho _ IHx Hc _ IH]; intros d rest Hd; cbn [app].
  - by destruct (scan_json (at_depth d) rest) as [[x y]|].
  - apply plain_in in Hc as (H34 & Ho & Hc). destruct (plain_char d c Ho Hc) as [E1 E2]. rewrite scan_step, E1, (proj2 (Z.eqb_neq c 34) H34), IH, prefixed_app by done. done.
  - rewrite scan_step by done. change (scan_char (at_depth d) 34) with {| depth := d + 0; in_str := true; escaped := false |}. rewrite Z.add_0_r. fold (in_text_at d false).
    by rewrite <- app_assoc, scan_text, IH, !prefixed_app.
  - apply opens_in in Ho. apply closes_in in Hc. destruct (open_char d o Ho) as [E1 E2]. destruct (close_char (d + 1) c Hc) as [E3 E4].
    rewrite scan_step, E1, <- app_assoc, IHx by (done || lia). cbn [app]. rewrite scan_step, E3 by (rewrite E4; apply Z.eqb_neq; lia).
    replace (d + 1 - 1) with d by lia. rewrite IH, !prefixed_app by done. f_equal. cbn [app]. by rewrite <- app_assoc.
Qed.
Lemma scan_literal a r : json_literal a → scan_json scan0 (a ++ r) = Some (a, r).
Proof.
  intros (o & x & c & -> & Ho & Hx & Hc). apply opens_in in Ho. apply closes_in in Hc. change scan0 with (at_depth 0).
  destruct (open_char 0 o Ho) as [E1 E2]. destruct (close_char 1 c Hc) as [_ E4]. cbn [app]. rewrite scan_step, E1, <- app_assoc, scan_inside by done.
  cbn [app]. by rewrite scan_stop.
Qed.
(** What is read under [n] open brackets: they are closed one after the other. *)
Fixpoint closing (n : nat) (s : str) : Prop :=
  match n with O => s = [] | S n => ∃ p c q, s = p ++ c :: q ∧ inside p ∧ c ∈ lit "]}" ∧ closing n q end.
Lemma closing_last c : closes c = true → closing 1 [c].
Proof. intros Hc. exists [], c, []. split; [done|]. split; [constructor|]. split; [by apply closes_in|done]. Qed.
Lemma closing_char d c a : c ≠ 34 → opens c = false → closes c = false → 1 ≤ d → closing (Z.to_nat d) a → closing (Z.to_nat d) (c :: a).
Proof.
  intros H34 Ho Hc Hd. replace (Z.to_nat d) with (S (Z.to_nat (d - 1))) by lia. intros (p & k & q & -> & Hp & Hk & Hq). exists (c :: p), k, q.
  split; [done|]. split; [|done]. constructor; [by apply plain_in|done].
Qed.
Lemma closing_text d x a : text_rest x → 1 ≤ d → closing (Z.to_nat d) a → closing (Z.to_nat d) (34 :: x ++ a).
Proof.
  intros Hx Hd. replace (Z.to_nat d) with (S (Z.to_nat (d - 1))) by lia. intros (p & k & q & -> & Hp & Hk & Hq). exists (34 :: x ++ p), k, q.
  split; [cbn; by rewrite <- app_assoc|]. split; [by constructor|done].
Qed.
Lemma closing_open d o a : opens o = true → 1 ≤ d → closing (Z.to_nat (d + 1)) a → closing (Z.to_nat d) (o :: a).
Proof.
  intros Ho Hd. replace (Z.to_nat (d + 1)) with (S (S (Z.to_nat (d - 1)))) by lia. replace (Z.to_nat d) with (S (Z.to_nat (d - 1))) by lia.
  intros (p & c & q & -> & Hp & Hc & p2 & c2 & q2 & -> & Hp2 & Hc2 & Hq2). exists (o :: p ++ c :: p2), c2, q2.
  split; [cbn; by rewrite <- app_assoc|]. split; [|done]. constructor; [by apply opens_in|done..].
Qed.
Lemma closing_close d c a : closes c = true → 1 < d → closing (Z.to_nat (d - 1)) a → closing (Z.to_nat d) (c :: a).
Proof.
  intros Hc Hd Ha. replace (Z.to_nat d) with (S (Z.to_nat (d - 1))) by lia. exists [], c, a. split; [done|]. split; [constructor|]. split; [by apply closes_in|done].
Qed.
(** What a scan reads, from each of its states. *)
Lemma scan_shape l : ∀ d a b, 1 ≤ d →
  (scan_json (at_depth d) l = Some (a, b) → closing (Z.to_nat d) a) ∧
  (scan_json (in_text_at d false) l = Some (a, b) → ∃ x y, a = x ++ y ∧ text_rest x ∧ closing (Z.to_nat d) y) ∧
  (scan_json (in_text_at d true) l = Some (a, b) → ∃ c x y, a = c :: x ++ y ∧ text_rest x ∧ closing (Z.to_nat d) y).
Proof.
  induction l as [|ch l IH]; intros d a b Hd; [done|].
  assert (∀ s, prefixed [ch] (scan_json s l) = Some (a, b) → ∃ a', a = ch :: a' ∧ scan_json s l = Some (a', b)) as Hp.
  { intros s. destruct (scan_json s l) as [[x y]|]; [|done]. intros [= <- <-]. by exists x. }
  split; [|split].
  - destruct (opens ch) eqn:Eo; [|destruct (closes ch) eqn:Ec].
    + destruct (open_char d ch Eo) as [E1 E2]. rewrite scan_step, E1 by done. intros (a' & -> & E)%Hp. apply (IH (d + 1)) in E; [|lia]. by apply closing_open.
    + destruct (close_char d ch Ec) as [E1 E2]. destruct (Z.eqb_spec d 1) as [-> |].
      * rewrite scan_stop by done. intros [= <- <-]. by apply closing_last.
      * rewrite scan_step, E1 by done. intros (a' & -> & E)%Hp. apply (IH (d - 1)) in E; [|lia]. apply closing_close; [done|lia|done].
    + destruct (plain_char d ch Eo Ec) as [E1 E2]. rewrite scan_step, E1 by done. intros (a' & -> & E)%Hp. destruct (Z.eqb_spec ch 34) as [-> |].
      * apply IH in E as (x & y & -> & Hx & Hy); [|done]. by apply closing_text.
      * apply IH in E; [|done]. by apply closing_char.
  - rewrite scan_step by done. intros (a' & -> & E)%Hp. destruct (decide (ch = 92)) as [-> |H92]; [|destruct (decide (ch = 34)) as [-> |H34]].
    + apply (IH d) in E as (c & x & y & -> & Hx & Hy); [|done]. exists (92 :: c :: x), y. split; [done|]. split; [by constructor|done].
    + apply (IH d) in E; [|done]. exists [34], a'. split; [done|]. split; [constructor|done].
    + rewrite text_char in E by done. apply IH in E as (x & y & -> & Hx & Hy); [|done]. exists (ch :: x), y. split; [done|]. split; [by constructor|done].
  - rewrite scan_step by done. intros (a' & -> & E)%Hp. apply (IH d) in E as (x & y & -> & Hx & Hy); [|done]. by exists ch, x, y.
Qed.
Lemma literal_scanned c t text r : opens c = true → scan_json scan0 (c :: t) = Some (text, r) → json_literal text.
Proof.
  intros Ho. change scan0 with (at_depth 0). destruct (open_char 0 c Ho) as [E1 E2]. rewrite scan_step, E1 by done.
  destruct (scan_json _ t) as [[a b]|] eqn:E; [|done]. intros [= <- <-]. apply (scan_shape t 1) in E as (p & k & q & -> & Hp & Hk & ->); [|done].
  exists c, p, k. split; [done|]. split; [by apply opens_in|done].
Qed.

Lemma str_len_cons c s : str_len (c :: s) = char_len c + str_len s.
Proof. unfold str_len, char_len. by rewrite utf8_cons, len_app. Qed.
Lemma reads_blank pos c s ts : is_whitespace c = true → reads (pos + char_len c) s ts → reads pos (c :: s) ts.
Proof.
  intros Hc H. inversion H as [? ? Hb|? gap t rest ts' Hg Ht Hs He Hw Hr]; subst.
  - apply reads_end. by constructor.
  - change (c :: gap ++ source t ++ rest) with ((c :: gap) ++ source t ++ rest). constructor; [by constructor|done| |done|done|done].
    rewrite str_len_cons. lia.
Qed.
Lemma reads_here pos t rest ts : token_ok t → t_start t = pos → t_end t = pos + str_len (source t) → (kind t = Bare → word_ends rest) →
  reads (t_end t) rest ts → reads pos (source t ++ rest) (t :: ts).
Proof. intros Ht Hs He Hw Hr. apply (reads_token pos [] t rest ts); [constructor|done|change (str_len []) with 0; lia|lia|done|done]. Qed.

(** A word that goes on, and the reading of what follows it. *)
Definition pending (cur : str) : Prop := Forall word_char cur ∧ match cur with c :: _ => opens c = false | [] => True end.
Definition from_word (cur : str) (cur_start pos : Z) (rest : str) (ts : list Token) : Prop :=
  if bool_decide (cur = []) then reads pos rest ts else reads cur_start (cur ++ rest) ts.
Definition word_token (cur : str) (start : Z) : Token := {| t_text := cur; kind := Bare; t_start := start; t_end := start + str_len cur |}.
(** The word ends where something else starts. *)
Lemma flush_reads cur cs pos rest ts toks : pending cur → (cur ≠ [] → pos = cs + str_len cur) → word_ends rest → reads pos rest ts →
  ∃ ts', flush cur cs pos toks ++ ts = toks ++ ts' ∧ from_word cur cs pos rest ts'.
Proof.
  intros [Hc Hf] Hp Hw Hr. unfold flush, from_word. case_bool_decide as Hn; [by exists ts|]. specialize (Hp Hn). subst pos.
  exists (word_token cur cs :: ts). rewrite <- app_assoc. split; [done|].
  pose proof (reads_here cs (word_token cur cs) rest ts) as H. unfold source in H. cbn [kind quote_of t_text word_token app] in H. rewrite app_nil_r in H.
  apply H; [|done|done|done|done]. split; [done|]. destruct cur; [done|]. by apply not_opens.
Qed.
Lemma quote_not_word c s : any_quote c = true → word_ends (c :: s).
Proof. intros Hc (H & _)%word_tests. congruence. Qed.
Lemma sep_not_word c s : separator c = true → word_ends (c :: s).
Proof. intros Hc (_ & H & _)%word_tests. congruence. Qed.
Lemma blank_not_word c s : is_whitespace c = true → word_ends (c :: s).
Proof. intros Hc (_ & _ & H)%word_tests. congruence. Qed.
(** The tokens the loop makes. *)
Definition quoted (c : Z) (text : str) (pos : Z) : Token :=
  {| t_text := text; kind := quote_kind c; t_start := pos; t_end := pos + 1 + str_len text + 1 |}.
Definition json_text (text : str) (pos : Z) : Token := {| t_text := text; kind := JsonText; t_start := pos; t_end := pos + str_len text |}.
Definition sep_token (c pos : Z) : Token := {| t_text := [c]; kind := sep_kind c; t_start := pos; t_end := pos + 1 |}.
Lemma quoted_reads c text pos r ts : any_quote c = true → c ∉ text → reads (pos + 1 + str_len text + 1) r ts →
  reads pos (c :: text ++ c :: r) (quoted c text pos :: ts).
Proof.
  intros Hq Hn H. assert (c :: text ++ c :: r = source (quoted c text pos) ++ r) as ->
    by (unfold source; destruct (quote_cases c Hq) as [-> | [-> | ->]]; cbn; by rewrite <- app_assoc).
  apply reads_here; [|done| |by destruct (quote_cases c Hq) as [-> | [-> | ->]]|done].
  - unfold token_ok. by destruct (quote_cases c Hq) as [-> | [-> | ->]].
  - unfold source. destruct (quote_cases c Hq) as [-> | [-> | ->]]; cbn [kind quoted quote_kind Z.eqb Pos.eqb quote_of t_text t_end];
      rewrite !str_len_app; [change (str_len [34]) with 1|change (str_len [39]) with 1|change (str_len [96]) with 1]; lia.
Qed.
Lemma json_reads text pos r ts c t : opens c = true → scan_json scan0 (c :: t) = Some (text, r) → reads (pos + str_len text) r ts →
  reads pos (c :: t) (json_text text pos :: ts).
Proof.
  intros Ho Es H. rewrite (scan_json_split _ _ _ _ Es). pose proof (reads_here pos (json_text text pos) r ts) as Hr.
  unfold source in Hr. cbn [kind json_text quote_of t_text app] in Hr. rewrite app_nil_r in Hr. apply Hr; [|done..].
  by eapply literal_scanned.
Qed.
Lemma sep_reads c pos r ts : separator c = true → reads (pos + 1) r ts → reads pos (c :: r) (sep_token c pos :: ts).
Proof.
  intros Hc H. assert (c :: r = source (sep_token c pos) ++ r) as -> by (by destruct (sep_cases c Hc) as [-> | [-> | ->]]).
  apply reads_here; [..|done]; by destruct (sep_cases c Hc) as [-> | [-> | ->]].
Qed.
Lemma from_nil cs pos rest ts : from_word [] cs pos rest ts ↔ reads pos rest ts.
Proof. unfold from_word. by rewrite bool_decide_eq_true_2. Qed.
Lemma pending_nil : pending [].
Proof. by split; [constructor|]. Qed.
(** What starts something else ends the word, then is read. *)
Lemma flush_then cur cs pos rest ts toks t : pending cur → (cur ≠ [] → pos = cs + str_len cur) → word_ends rest → reads pos rest (t :: ts) →
  ∃ ts', (flush cur cs pos toks ++ [t]) ++ ts = toks ++ ts' ∧ from_word cur cs pos rest ts'.
Proof. intros Hc Hp Hw Hr. destruct (flush_reads cur cs pos rest _ toks Hc Hp Hw Hr) as (ts' & E & H). exists ts'. by rewrite <- app_assoc. Qed.
Lemma pending_snoc cur cs pos c : pending cur → (cur ≠ [] → pos = cs + str_len cur) → word_char c → opens c && bool_decide (cur = []) = false →
  pending (cur ++ [c]) ∧ (cur ++ [c] ≠ [] → pos + char_len c = (if bool_decide (cur = []) then pos else cs) + str_len (cur ++ [c])).
Proof.
  intros [Hc Hf] Hp Hw Ho. assert (str_len [c] = char_len c) as El by (rewrite str_len_cons; change (str_len []) with 0; lia). split; [split|].
  - apply Forall_app. split; [done|by constructor].
  - destruct cur as [|x cur]; [|done]. cbn [app]. by rewrite bool_decide_eq_true_2, andb_true_r in Ho.
  - intros _. rewrite str_len_app, El. case_bool_decide as Hn; [subst cur; change (str_len []) with 0; lia|]. rewrite (Hp Hn). lia.
Qed.
Lemma lex_reads fuel : ∀ rest pos cur cs toks ts, lex_loop fuel rest pos cur cs toks = Some (Ok ts) → pending cur →
  (cur ≠ [] → pos = cs + str_len cur) → ∃ ts', ts = toks ++ ts' ∧ from_word cur cs pos rest ts'.
Proof.
  induction fuel as [|fuel IH]; intros rest pos cur cs toks ts; (destruct rest as [|c t]; cbn [lex_loop];
    [intros [= <-] Hc Hp; destruct (flush_reads cur cs pos [] [] toks Hc Hp I (reads_end pos [] ltac:(constructor))) as (ts' & E & H); rewrite app_nil_r in E; eauto|done + idtac]).
  destruct (any_quote c) eqn:Eq.
  { destruct (cut_at c t) as [[text r]|] eqn:Ec; [|done]. intros H Hc Hp. apply IH in H as (ts1 & -> & H1%from_nil); [|exact pending_nil|done].
    apply cut_at_split in Ec as [-> Hn]. apply (flush_then cur cs pos _ ts1 toks (quoted c text pos)); [done|done|by apply quote_not_word|by apply quoted_reads]. }
  destruct (opens c && bool_decide (cur = [])) eqn:Eo.
  { apply andb_true_iff in Eo as [Eo ->%bool_decide_eq_true]. destruct (scan_json scan0 (c :: t)) as [[text r]|] eqn:Ec; [|done].
    intros H _ _. apply IH in H as (ts1 & -> & H1%from_nil); [|exact pending_nil|done]. exists (json_text text pos :: ts1). rewrite <- app_assoc.
    split; [done|]. apply from_nil. by eapply json_reads. }
  destruct (separator c) eqn:Esep.
  { intros H Hc Hp. apply IH in H as (ts1 & -> & H1%from_nil); [|exact pending_nil|done].
    apply (flush_then cur cs pos _ ts1 toks (sep_token c pos)); [done|done|by apply sep_not_word|by apply sep_reads]. }
  destruct (is_whitespace c) eqn:Ew.
  { intros H Hc Hp. apply IH in H as (ts1 & -> & H1%from_nil); [|exact pending_nil|done].
    apply flush_reads; [done|done|by apply blank_not_word|by apply reads_blank]. }
  intros H Hc Hp. destruct (pending_snoc cur cs pos c Hc Hp (proj2 (word_tests c) (conj Eq (conj Esep Ew))) Eo) as [Hc' Hp'].
  apply IH in H as (ts1 & -> & H1); [|done|done]. exists ts1. split; [done|]. unfold from_word in *. rewrite bool_decide_eq_false_2 in H1 by (by destruct cur).
  rewrite <- app_assoc in H1. cbn [app] in H1. case_bool_decide as Hn; [by subst cur|done].
Qed.

(** ** A reading is what the loop makes *)
Lemma blank_tests c : is_whitespace c = true → any_quote c = false ∧ opens c = false ∧ separator c = false.
Proof.
  intros H. repeat split; apply not_true_is_false; intros E;
    [apply quote_cases in E as [-> | [-> | ->]]|apply opens_cases in E as [-> | ->]|apply sep_cases in E as [-> | [-> | ->]]]; done.
Qed.
Lemma lex_blank gap : blank gap → ∀ fuel rest pos cs toks, (length (gap ++ rest) ≤ fuel)%nat →
  ∃ fuel', (length rest ≤ fuel')%nat ∧ lex_loop fuel (gap ++ rest) pos [] cs toks = lex_loop fuel' rest (pos + str_len gap) [] cs toks.
Proof.
  induction 1 as [|c gap Hc _ IH]; intros fuel rest pos cs toks Hf; cbn [app] in *.
  - exists fuel. split; [done|]. f_equal. change (str_len []) with 0. lia.
  - destruct fuel as [|fuel]; [cbn in Hf; lia|]. destruct (blank_tests c Hc) as (Eq & Eo & Es). cbn [lex_loop]. rewrite Eq, Eo, Es, Hc. cbn [andb].
    destruct (IH fuel rest (pos + char_len c) cs toks) as (fuel' & Hf' & E); [cbn in Hf; lia|]. exists fuel'. split; [done|].
    change (flush [] cs pos toks) with toks. rewrite E, str_len_cons. f_equal. lia.
Qed.
Lemma lex_word w : Forall word_char w → ∀ fuel rest pos cur cs toks, (length (w ++ rest) ≤ fuel)%nat → cur ≠ [] →
  ∃ fuel', (length rest ≤ fuel')%nat ∧ lex_loop fuel (w ++ rest) pos cur cs toks = lex_loop fuel' rest (pos + str_len w) (cur ++ w) cs toks.
Proof.
  induction 1 as [|c w Hc _ IH]; intros fuel rest pos cur cs toks Hf Hn; cbn [app] in *.
  - exists fuel. split; [done|]. rewrite app_nil_r. f_equal. change (str_len []) with 0. lia.
  - destruct fuel as [|fuel]; [cbn in Hf; lia|]. apply word_tests in Hc as (Eq & Es & Ew). cbn [lex_loop]. rewrite Eq, Es, Ew, (bool_decide_eq_false_2 (cur = [])), andb_false_r by done.
    destruct (IH fuel rest (pos + char_len c) (cur ++ [c]) cs toks) as (fuel' & Hf' & E); [cbn in Hf; lia|by destruct cur|]. exists fuel'. split; [done|].
    rewrite E, str_len_cons, <- app_assoc. f_equal. lia.
Qed.
(** After a word, the loop goes on as if the word had ended before. *)
Lemma lex_flush fuel rest pos cur cs toks : word_ends rest → lex_loop fuel rest pos cur cs toks = lex_loop fuel rest pos [] cs (flush cur cs pos toks).
Proof.
  intros Hw. destruct rest as [|c t]; [by destruct fuel|]. destruct fuel as [|fuel]; [done|]. cbn [lex_loop]. change (flush [] cs pos ?l) with l.
  destruct (any_quote c) eqn:Eq; [done|]. destruct (separator c) eqn:Es.
  - destruct (opens c) eqn:Eo; [|done]. by destruct (sep_cases c Es) as [-> | [-> | ->]].
  - destruct (is_whitespace c) eqn:Ew; [|exfalso; by apply Hw, word_tests]. destruct (opens c) eqn:Eo; [|done]. by destruct (opens_cases c Eo) as [-> | ->].
Qed.
Lemma lex_quoted q text rest fuel start cs toks : any_quote q = true → q ∉ text → (length (q :: (text ++ [q]) ++ rest) ≤ S fuel)%nat →
  ∃ fuel' cs', (length rest ≤ fuel')%nat ∧ lex_loop (S fuel) (q :: (text ++ [q]) ++ rest) start [] cs toks =
    lex_loop fuel' rest (start + str_len (q :: text ++ [q])) [] cs' (toks ++ [{| t_text := text; kind := quote_kind q; t_start := start; t_end := start + str_len (q :: text ++ [q]) |}]).
Proof.
  intros Hq Hn Hf. exists fuel, cs. cbn [length] in Hf. rewrite !length_app in Hf. split; [lia|]. rewrite <- app_assoc. cbn [app lex_loop].
  rewrite Hq, cut_at_app by done. change (flush [] cs start toks) with toks. assert (str_len (q :: text ++ [q]) = 1 + str_len text + 1) as ->.
  { rewrite str_len_cons, str_len_app, str_len_cons. change (str_len []) with 0. destruct (quote_cases q Hq) as [-> | [-> | ->]]; [change (char_len 34) with 1|change (char_len 39) with 1|change (char_len 96) with 1]; lia. }
  f_equal; [lia|]. do 3 f_equal. lia.
Qed.
Lemma lex_token t rest fuel cs toks : token_ok t → t_end t = t_start t + str_len (source t) → (kind t = Bare → word_ends rest) →
  (length (source t ++ rest) ≤ fuel)%nat →
  ∃ fuel' cs', (length rest ≤ fuel')%nat ∧ lex_loop fuel (source t ++ rest) (t_start t) [] cs toks = lex_loop fuel' rest (t_end t) [] cs' (toks ++ [t]).
Proof.
  destruct t as [text k start end_]. unfold source, token_ok. cbn [kind t_text t_start t_end]. intros Ht -> Hw Hf.
  destruct fuel as [|fuel]; [exfalso; destruct k, text; cbn in *; try (lia || done || by destruct Ht); by destruct Ht as (o & x & c & E & _)|].
  destruct k; cbn [quote_of app] in *; rewrite ?app_nil_r in *.
  - destruct Ht as [Hc Hf1]. destruct text as [|c w]; [done|]. apply Forall_cons in Hc as [(Eq & Es & Ew)%word_tests Hc]. apply not_opens in Hf1. cbn [app lex_loop]. rewrite Eq, Hf1, Es, Ew. cbn [andb].
    rewrite bool_decide_eq_true_2 by done. destruct (lex_word w Hc fuel rest (start + char_len c) [c] start toks) as (fuel' & Hf' & E); [cbn in Hf; lia|done|].
    exists fuel', start. split; [done|]. rewrite E, lex_flush by auto. rewrite str_len_cons. f_equal; [lia|].
    unfold flush. rewrite bool_decide_eq_false_2 by done. do 3 f_equal; lia.
  - exact (lex_quoted 34 text rest fuel start cs toks eq_refl Ht Hf).
  - exact (lex_quoted 39 text rest fuel start cs toks eq_refl Ht Hf).
  - exact (lex_quoted 96 text rest fuel start cs toks eq_refl Ht Hf).
  - pose proof (scan_literal text rest Ht) as E. destruct Ht as (c & x & k & Et & Hc%opens_in & _). set (w := x ++ [k]) in Et. clearbody w. subst text.
    exists fuel, cs. split; [cbn in Hf; rewrite length_app in Hf; lia|]. cbn [app lex_loop] in *. assert (any_quote c = false) as -> by (by destruct (opens_cases c Hc) as [-> | ->]).
    rewrite Hc. cbn [andb]. rewrite bool_decide_eq_true_2 by done. by rewrite E.
  - subst text. exists fuel, cs. split; [cbn in Hf; lia|]. done.
  - subst text. exists fuel, cs. split; [cbn in Hf; lia|]. done.
  - subst text. exists fuel, cs. split; [cbn in Hf; lia|]. done.
Qed.
Lemma reads_lex pos s ts : reads pos s ts → ∀ fuel cs toks, (length s ≤ fuel)%nat → lex_loop fuel s pos [] cs toks = Some (Ok (toks ++ ts)).
Proof.
  induction 1 as [pos s Hb|pos gap t rest ts Hg Ht Hs He Hw _ IH]; intros fuel cs toks Hf.
  - destruct (lex_blank s Hb fuel [] pos cs toks) as (f & _ & E); [by rewrite app_nil_r|]. rewrite app_nil_r in E. rewrite E, app_nil_r. by destruct f.
  - destruct (lex_blank gap Hg fuel (source t ++ rest) pos cs toks Hf) as (f1 & Hf1 & E1). rewrite E1, <- Hs.
    destruct (lex_token t rest f1 cs toks Ht He Hw Hf1) as (f2 & cs' & Hf2 & E2). rewrite E2, (IH f2 cs' _ Hf2), <- app_assoc. done.
Qed.
Lemma lex_ends fuel : ∀ s pos cur cs toks, (length s ≤ fuel)%nat → ∃ r, lex_loop fuel s pos cur cs toks = Some r.
Proof.
  induction fuel as [|fuel IH]; intros [|c t] pos cur cs toks Hf; cbn [lex_loop]; try by eexists.
  { cbn in Hf. lia. }
  cbn in Hf. destruct (any_quote c).
  { destruct (cut_at c t) as [[a b]|] eqn:E; [|by eexists]. apply IH. apply cut_at_length in E. lia. }
  destruct (opens c && _).
  { destruct (scan_json scan0 (c :: t)) as [[a b]|] eqn:E; [|by eexists]. apply IH. pose proof (scan_json_split _ _ _ _ E) as Es.
    destruct a as [|x a]; [|injection Es as _ ->; rewrite length_app in Hf; lia]. exfalso. cbn [scan_json] in E. destruct (scan_ends _ c); [done|]. by destruct (scan_json _ t) as [[??]|]. }
  destruct (separator c); [apply IH; lia|]. destruct (is_whitespace c); apply IH; lia.
Qed.
(** C35: reading a command always ends, and gives the tokens [ts] exactly when
    the command is those tokens in their order, each at the bytes it says, with
    nothing but blanks around them; a word that is not quoted is as long as
    can be, a quoted text holds anything but its quote, and a JSON literal is
    what lies from its first bracket to the one that matches it: brackets
    nest, those inside JSON texts do not count, and a backslash in such a text
    takes the character after it. *)
Theorem tokenize_exact s : (∃ r, tokenize s = Some r) ∧ ∀ ts, tokenize s = Some (Ok ts) ↔ reads 0 s ts.
Proof.
  split; [by apply lex_ends|]. intros ts. split.
  - intros H. apply lex_reads in H as (ts' & -> & H); [|exact pending_nil|done]. by apply from_nil in H.
  - intros H. by apply (reads_lex _ _ _ H).
Qed.

(** A chain is its commands, which are not empty, between the words [and]. *)
Lemma split_loop_spec tokens : ∀ cur groups, Forall (fun t => is_kw (lit "and") t = false) cur →
  ∃ gs, split_loop tokens cur groups = groups ++ gs ∧ List.concat gs = cur ++ List.filter (fun t => negb (is_kw (lit "and") t)) tokens ∧
  Forall (fun g => g ≠ [] ∧ Forall (fun t => is_kw (lit "and") t = false) g) gs.
Proof.
  induction tokens as [|t tokens IH]; intros cur groups Hc; cbn [split_loop List.filter].
  - case_bool_decide as Hn; [exists []; subst cur; by rewrite app_nil_r|]. exists [cur]. cbn. rewrite !app_nil_r. by repeat constructor.
  - destruct (is_kw _ t) eqn:Et; cbn [negb].
    + case_bool_decide as Hn; [subst cur; by apply IH|]. destruct (IH [] (groups ++ [cur])) as (gs & E & Ec & Hg); [constructor|].
      exists (cur :: gs). cbn. rewrite E, Ec, <- app_assoc. cbn. by repeat constructor.
    + destruct (IH (cur ++ [t]) groups) as (gs & E & Ec & Hg); [apply Forall_app; by repeat constructor|]. exists gs.
      rewrite E, Ec, <- app_assoc. done.
Qed.
Lemma split_by_and_spec tokens : List.concat (split_by_and tokens) = List.filter (fun t => negb (is_kw (lit "and") t)) tokens ∧
  Forall (fun g => g ≠ [] ∧ Forall (fun t => is_kw (lit "and") t = false) g) (split_by_and tokens).
Proof. destruct (split_loop_spec tokens [] []) as (gs & E & Ec & Hg); [constructor|]. unfold split_by_and. by rewrite E. Qed.

Example sample_tokens : List.map (fun t => (t_text t, kind t)) <$> match tokenize (lit "set a:1 {'x': [1]} and get b") with Some (Ok l) => Some l | _ => None end =
  Some [(lit "set", Bare); (lit "a:1", Bare); (lit "{'x': [1]}", JsonText); (lit "and", Bare); (lit "get", Bare); (lit "b", Bare)].
Proof. vm_compute. reflexivity. Qed.
