(* ===== verification/Kva.v ===== *)
(** * [src/kva.rs]: commands over several lines, and files of commands *)
From S2P Require Import Prelude Utf8 Text Paths Lexer.

(** ** Whether a command goes on *)
Record OpenState := { o_depth : Z; o_quote : option Z; in_json_string : bool; o_escaped : bool; word_start : bool }.
Definition open_char (st : OpenState) (c : Z) : OpenState :=
  if 0 <? o_depth st then
    if in_json_string st then
      {| o_depth := o_depth st; o_quote := o_quote st;
         in_json_string := if o_escaped st then true else if c =? 92 then true else negb (c =? 34);
         o_escaped := if o_escaped st then false else c =? 92; word_start := word_start st |}
    else
      let depth := if c =? 34 then o_depth st else if opens c then o_depth st + 1 else if closes c then o_depth st - 1 else o_depth st in
      {| o_depth := depth; o_quote := o_quote st; in_json_string := c =? 34; o_escaped := o_escaped st;
         word_start := if depth =? 0 then false else word_start st |}
  else
    match o_quote st with
    | Some q =>
      {| o_depth := o_depth st; o_quote := if c =? q then None else Some q; in_json_string := in_json_string st;
         o_escaped := o_escaped st; word_start := word_start st |}
    | None =>
      let st' depth quote word_start :=
        {| o_depth := depth; o_quote := quote; in_json_string := in_json_string st; o_escaped := o_escaped st; word_start := word_start |} in
      if any_quote c then st' (o_depth st) (Some c) false
      else if opens c && word_start st then st' 1 None false
      else if is_whitespace c || separator c then st' (o_depth st) None true
      else st' (o_depth st) None false
    end.
Definition open0 : OpenState := {| o_depth := 0; o_quote := None; in_json_string := false; o_escaped := false; word_start := true |}.
Definition is_open (text : str) : bool := 0 <? o_depth (List.fold_left open_char text open0).

(** ** A file of commands *)
Record Statement := { line : Z; st_text : str }.
Fixpoint starts_with (p s : str) : bool :=
  match p, s with [], _ => true | x :: p, y :: s => (x =? y) && starts_with p s | _, [] => false end.
Definition is_comment (l : str) : bool := let t := trim_start l in starts_with (lit "#") t || starts_with (lit "--") t.
Fixpoint skip_cr (r : str) : str := match r with c :: r' => if c =? 13 then skip_cr r' else r | [] => [] end.
(** [trim_end_matches('\r')] *)
Definition trim_cr (l : str) : str := rev (skip_cr (rev l)).
Definition NL : Z := 10.
Definition NEVER_CLOSED : msg := "this command opens a { or [ that is never closed"%string.
Definition skipped (l : str) : bool := bool_decide (trim l = []) || is_comment l.

Fixpoint split_loop (i : Z) (rows : list str) (out : list Statement) (pending : option Statement) : result (Z * msg) (list Statement) :=
  match rows with
  | [] => match pending with Some p => Err (line p, NEVER_CLOSED) | None => Ok out end
  | raw :: rows =>
    let l := trim_cr raw in
    let pending :=
      match pending with
      | Some p => Some {| line := line p; st_text := st_text p ++ NL :: l |}
      | None => if skipped l then None else Some {| line := i + 1; st_text := trim_start l |}
      end in
    match pending with
    | Some p => if is_open (st_text p) then split_loop (i + 1) rows out (Some p) else split_loop (i + 1) rows (out ++ [p]) None
    | None => split_loop (i + 1) rows out None
    end
  end.
Definition split (source : str) : result (Z * msg) (list Statement) := split_loop 0 (lines source) [] None.

(** ** The text of a file *)
(** [String::from_utf16] *)
Fixpoint from_utf16 (units : list Z) : option str :=
  match units with
  | [] => Some []
  | u :: us =>
    if (0xD800 <=? u) && (u <? 0xE000) then
      if 0xDC00 <=? u then None
      else match us with
           | v :: vs =>
             if (0xDC00 <=? v) && (v <? 0xE000) then cons (0x10000 + (u - 0xD800) * 0x400 + (v - 0xDC00)) <$> from_utf16 vs
             else None
           | [] => None
           end
    else cons u <$> from_utf16 us
  end.
Fixpoint pairs (b : bytes) : list (list Z) * bytes :=
  match b with x :: y :: b => let '(ps, odd) := pairs b in ([x; y] :: ps, odd) | odd => ([], odd) end.
Definition utf16 (rest : bytes) (unit_of : bytes → Z) : result msg str :=
  let '(ps, odd) := pairs rest in
  if negb (bool_decide (odd = [])) then Err "it starts as UTF-16 text but has an odd number of bytes"%string
  else ok_or (from_utf16 (List.map unit_of ps)) "it starts as UTF-16 text but is not valid UTF-16"%string.
Definition decode (b : bytes) : result msg str :=
  match b with
  | 0xEF :: 0xBB :: 0xBF :: rest => ok_or (from_utf8 rest) "{e}"%string
  | 0xFF :: 0xFE :: rest => utf16 rest le_val
  | 0xFE :: 0xFF :: rest => utf16 rest be_val
  | _ => ok_or (from_utf8 b) "it is not UTF-8 text (save it as UTF-8, or as UTF-16 with a byte order mark)"%string
  end.
(** [load], of the bytes of the file. *)
Definition load (b : bytes) : result msg (list Statement) :=
  match decode b with
  | Err e => Err "cannot read {path}: {e}"%string
  | Ok text => match split text with Ok l => Ok l | Err _ => Err "{path}:{line}: {msg}"%string end
  end.

(** ** The lexer as a machine on characters *)
(** Where the lexer is: between words or in one, after a token that closed
    ([glued]), in quotes, or in a JSON literal. *)
Inductive place := POut (word glued : bool) | PQuote (q : Z) | PJson (s : Scan).
Definition place_char (p : place) (c : Z) : place :=
  match p with
  | POut word _ =>
    if any_quote c then PQuote c
    else if opens c && negb word then PJson (scan_char scan0 c)
    else POut (negb (separator c) && negb (is_whitespace c)) false
  | PQuote q => if c =? q then POut false true else PQuote q
  | PJson s => if scan_ends s c then POut false true else PJson (scan_char s c)
  end.
Definition places (p : place) (s : str) : place := List.fold_left place_char s p.
Definition in_json (p : place) : bool := match p with PJson _ => true | _ => false end.
(** No bracket comes right after a quoted text or a document. *)
Fixpoint glue_free (p : place) (s : str) : bool :=
  match s with
  | [] => true
  | c :: s => negb (match p with POut false true => opens c | _ => false end) && glue_free (place_char p c) s
  end.

Lemma cut_places q l : places (PQuote q) l = match cut_at q l with Some (_, b) => places (POut false true) b | None => PQuote q end.
Proof.
  induction l as [|x l IH]; [done|]. cbn [places List.fold_left cut_at place_char]. destruct (x =? q); [done|].
  change (List.fold_left place_char l (PQuote q)) with (places (PQuote q) l). rewrite IH. by destruct (cut_at q l) as [[a b]|].
Qed.
Lemma scan_places l : ∀ s, match scan_json s l with Some (_, b) => places (PJson s) l = places (POut false true) b | None => in_json (places (PJson s) l) = true end.
Proof.
  induction l as [|x l IH]; intros s; [done|]. cbn [places List.fold_left scan_json place_char]. destruct (scan_ends s x); [done|].
  specialize (IH (scan_char s x)). destruct (scan_json _ l) as [[a b]|]; exact IH.
Qed.
Lemma scan_first c : opens c = true → scan_ends scan0 c = false.
Proof. intros Hc. by destruct (opens_cases c Hc) as [-> | ->]. Qed.
(** The lexer complains of a bracket when it ends in a JSON literal. *)
Lemma lex_places fuel : ∀ rest pos cur cs toks g r, lex_loop fuel rest pos cur cs toks = Some r →
  (r = Err UNCLOSED_BRACKET ↔ in_json (places (POut (negb (bool_decide (cur = []))) g) rest) = true).
Proof.
  induction fuel as [|fuel IH]; intros [|c t] pos cur cs toks g r; cbn [lex_loop]; [by intros [= <-]|done|by intros [= <-]|].
  cbn [places List.fold_left place_char]. destruct (any_quote c) eqn:Eq.
  { pose proof (cut_places c t) as Hp. unfold places in Hp. rewrite Hp. destruct (cut_at c t) as [[a b]|]; [by apply IH|]. by intros [= <-]. }
  rewrite negb_involutive. destruct (opens c && bool_decide (cur = [])) eqn:Eo.
  { apply andb_true_iff in Eo as [Eo _]. pose proof (scan_places (c :: t) scan0) as Hp. cbn [places List.fold_left place_char] in Hp. rewrite (scan_first c Eo) in Hp.
    destruct (scan_json scan0 (c :: t)) as [[a b]|]; [unfold places in Hp; rewrite Hp; by apply IH|]. intros [= <-]. by rewrite Hp. }
  destruct (separator c) eqn:Es; [by apply IH|]. destruct (is_whitespace c) eqn:Ew; [by apply IH|]. intros H. apply (IH _ _ _ _ _ false) in H.
  by rewrite bool_decide_eq_false_2 in H by (by destruct cur).
Qed.

(** The reader of files follows the lexer. *)
Definition follows (p : place) (st : OpenState) : Prop :=
  match p with
  | POut word glued => st = {| o_depth := 0; o_quote := None; in_json_string := false; o_escaped := false; word_start := negb word && negb glued |}
  | PQuote q => st = {| o_depth := 0; o_quote := Some q; in_json_string := false; o_escaped := false; word_start := false |}
  | PJson s =>
    0 < depth s ∧ (in_str s = false → escaped s = false) ∧
    st = {| o_depth := depth s; o_quote := None; in_json_string := in_str s; o_escaped := escaped s; word_start := false |}
  end.
Lemma opens_not c : opens c = true → closes c = false ∧ (c =? 34) = false.
Proof. intros Hc. by destruct (opens_cases c Hc) as [-> | ->]. Qed.
Lemma follows_char p st c : follows p st → match p with POut false true => opens c | _ => false end = false → follows (place_char p c) (open_char st c).
Proof.
  destruct p as [word glued|q|s]; cbn [follows place_char].
  - intros -> Hg. unfold open_char. cbn [o_depth o_quote in_json_string o_escaped word_start Z.ltb Z.compare]. destruct (any_quote c); [done|].
    assert (opens c && (negb word && negb glued) = opens c && negb word) as -> by (by destruct (opens c), word, glued).
    destruct (opens c && negb word) eqn:Eo.
    + apply andb_true_iff in Eo as [Eo _]. destruct (opens_cases c Eo) as [-> | ->]; cbn; by repeat split.
    + cbn [follows]. by destruct (separator c), (is_whitespace c).
  - intros -> _. unfold open_char. cbn [o_depth o_quote in_json_string o_escaped word_start Z.ltb Z.compare]. by destruct (c =? q).
  - intros (Hd & He & ->) _. unfold open_char, scan_ends, scan_char. cbn [o_depth o_quote in_json_string o_escaped word_start]. rewrite (proj2 (Z.ltb_lt _ _)) by done.
    destruct s as [d i e]. cbn [depth in_str escaped scan_char] in *. destruct i; cbn [negb andb].
    + destruct e; [by repeat split|]. destruct (c =? 92); cbn [follows depth in_str escaped]; by repeat split.
    + rewrite (He eq_refl) in *. destruct (opens c) eqn:Eo; cbn [andb].
      * destruct (opens_not c Eo) as [-> ->]. cbn [andb]. cbn [follows depth in_str escaped]. split; [lia|]. split; [done|]. f_equal. case_match; [lia|done].
      * destruct (closes c) eqn:Ec; cbn [andb].
        -- assert ((c =? 34) = false) as -> by (unfold closes in Ec; apply orb_true_iff in Ec as [->%Z.eqb_eq | ->%Z.eqb_eq]; done).
           replace (d - 1) with (d + -1) by lia. cbn [depth]. destruct (Z.eqb_spec (d + -1) 0) as [E|E]; cbn [follows depth in_str escaped]; [by rewrite E|].
           split; [lia|]. by split.
        -- cbn [follows depth in_str escaped]. replace (d + 0) with d by lia. split; [done|]. split; [done|].
           destruct (c =? 34); destruct (Z.eqb_spec d 0); (lia || done).
Qed.
Lemma follows_run s : ∀ p st, follows p st → glue_free p s = true → follows (places p s) (List.fold_left open_char s st).
Proof.
  induction s as [|c s IH]; intros p st Hf; [done|]. cbn [glue_free places List.fold_left]. rewrite andb_true_iff, negb_true_iff. intros [H1 H2].
  apply IH; [by apply follows_char|done].
Qed.
(** A command goes on in the next line exactly when the lexer would
    complain of a bracket that is not closed, as long as no bracket comes
    right after a quoted text or after a document. *)
Theorem is_open_exact s : glue_free (POut false false) s = true → (is_open s = true ↔ tokenize s = Some (Err UNCLOSED_BRACKET)).
Proof.
  intros Hg. destruct (lex_ends (length s) s 0 [] 0 [] ltac:(done)) as [r Hr]. pose proof (lex_places _ _ _ _ _ _ false r Hr) as H.
  unfold tokenize. rewrite Hr. rewrite (inj_iff Some), H. cbn [negb bool_decide decide_rel].
  pose proof (follows_run s (POut false false) open0 eq_refl Hg) as Hf. unfold is_open. rewrite bool_decide_eq_true_2 by done. cbn [negb].
  destruct (places _ s) as [w g|q|sc]; cbn [follows in_json] in *; [by rewrite Hf|by rewrite Hf|].
  destruct Hf as (Hd & _ & ->). cbn [o_depth]. by rewrite Z.ltb_lt.
Qed.
Lemma is_open_exact_witness : glue_free (POut false false) (lit "set user:1 {") = true ∧
  (is_open (lit "set user:1 {") = true ↔ tokenize (lit "set user:1 {") = Some (Err UNCLOSED_BRACKET)).
Proof. split; [reflexivity|]. apply is_open_exact. reflexivity. Defined.
(** Without that: the lexer starts a document right after a quoted text, the
    reader of files does not, and ends the command there. *)
Lemma glued_document : is_open (lit "set k 'a'{") = false ∧ tokenize (lit "set k 'a'{") = Some (Err UNCLOSED_BRACKET).
Proof. by split. Qed.

(** ** Splitting *)
(** A command over the rows [l :: ms]: its text, which no shorter run of rows
    closes. *)
Fixpoint still_open (text : str) (rows : list str) : Prop :=
  match rows with [] => True | l :: rows => is_open text = true ∧ still_open (text ++ NL :: trim_cr l) rows end.
Definition joined (text : str) (rows : list str) : str := List.fold_left (fun t l => t ++ NL :: trim_cr l) rows text.
Inductive commands : Z → list str → list Statement → Prop :=
| commands_end i : commands i [] []
| commands_skip i l rows sts : skipped (trim_cr l) = true → commands (i + 1) rows sts → commands i (l :: rows) sts
| commands_one i l ms rows sts :
    skipped (trim_cr l) = false → still_open (trim_start (trim_cr l)) ms → is_open (joined (trim_start (trim_cr l)) ms) = false →
    commands (i + 1 + len ms) rows sts →
    commands i (l :: ms ++ rows) ({| line := i + 1; st_text := joined (trim_start (trim_cr l)) ms |} :: sts).
(** What is left after the last command closed: one that never does. *)
Inductive unclosed : Z → list str → Z → Prop :=
| unclosed_skip i l rows n : skipped (trim_cr l) = true → unclosed (i + 1) rows n → unclosed i (l :: rows) n
| unclosed_one i l ms rows n :
    skipped (trim_cr l) = false → still_open (trim_start (trim_cr l)) ms → is_open (joined (trim_start (trim_cr l)) ms) = false →
    unclosed (i + 1 + len ms) rows n → unclosed i (l :: ms ++ rows) n
| unclosed_here i l ms :
    skipped (trim_cr l) = false → still_open (trim_start (trim_cr l)) ms → is_open (joined (trim_start (trim_cr l)) ms) = true →
    unclosed i (l :: ms) (i + 1).

Lemma split_loop_ok rows : ∀ i out,
  (match split_loop i rows out None with Ok sts => ∃ new, sts = out ++ new ∧ commands i rows new | Err (n, m) => m = NEVER_CLOSED ∧ unclosed i rows n end) ∧
  (∀ p, is_open (st_text p) = true →
   match split_loop i rows out (Some p) with
   | Ok sts => ∃ ms rest new, rows = ms ++ rest ∧ still_open (st_text p) ms ∧ is_open (joined (st_text p) ms) = false ∧
       sts = out ++ {| line := line p; st_text := joined (st_text p) ms |} :: new ∧ commands (i + len ms) rest new
   | Err (n, m) => m = NEVER_CLOSED ∧
       ((n = line p ∧ still_open (st_text p) rows ∧ is_open (joined (st_text p) rows) = true) ∨
        ∃ ms rest, rows = ms ++ rest ∧ still_open (st_text p) ms ∧ is_open (joined (st_text p) ms) = false ∧ unclosed (i + len ms) rest n)
   end).
Proof.
  induction rows as [|l rows IH]; intros i out; cbn [split_loop].
  { split; [exists []; rewrite app_nil_r; split; [done|constructor]|]. intros p Hp. split; [done|]. left. by repeat split. }
  split.
  - destruct (skipped (trim_cr l)) eqn:Es.
    { destruct (IH (i + 1) out) as [H _]. destruct (split_loop _ rows out None) as [sts|[n m]].
      - destruct H as (new & -> & H). exists new. split; [done|]. by constructor.
      - destruct H as [-> H]. split; [done|]. by constructor. }
    set (p := {| line := i + 1; st_text := trim_start (trim_cr l) |}). destruct (is_open (st_text p)) eqn:Eo.
    + destruct (IH (i + 1) out) as [_ H]. specialize (H p Eo). destruct (split_loop _ rows out (Some p)) as [sts|[n m]].
      * destruct H as (ms & rest & new & -> & Ho & Hc & -> & Hn). eexists. split; [done|]. by apply commands_one.
      * destruct H as [-> [(-> & Ho & Hc)|(ms & rest & -> & Ho & Hc & Hu)]]; (split; [done|]); [by apply unclosed_here|by apply unclosed_one].
    + destruct (IH (i + 1) (out ++ [p])) as [H _]. destruct (split_loop _ rows (out ++ [p]) None) as [sts|[n m]].
      * destruct H as (new & -> & H). exists (p :: new). rewrite <- app_assoc. split; [done|]. apply (commands_one i l [] rows new); [done..|by rewrite Z.add_0_r].
      * destruct H as [-> H]. split; [done|]. apply (unclosed_one i l [] rows n); [done..|by rewrite Z.add_0_r].
  - intros p Hp. set (q := {| line := line p; st_text := st_text p ++ NL :: trim_cr l |}). destruct (is_open (st_text q)) eqn:Eo.
    + destruct (IH (i + 1) out) as [_ H]. specialize (H q Eo). destruct (split_loop _ rows out (Some q)) as [sts|[n m]].
      * destruct H as (ms & rest & new & -> & Ho & Hc & -> & Hn). exists (l :: ms), rest, new. rewrite len_cons, Z.add_assoc. by repeat split.
      * destruct H as [-> [(-> & Ho & Hc)|(ms & rest & -> & Ho & Hc & Hu)]]; (split; [done|]); [left; by repeat split|].
        right. exists (l :: ms), rest. rewrite len_cons, Z.add_assoc. by repeat split.
    + destruct (IH (i + 1) (out ++ [q])) as [H _]. destruct (split_loop _ rows (out ++ [q]) None) as [sts|[n m]].
      * destruct H as (new & -> & H). exists [l], rows, new. rewrite <- app_assoc. by repeat split.
      * destruct H as [-> H]. split; [done|]. right. exists [l], rows. by repeat split.
Qed.
(** A file is its commands in their order, each on the rows from its first
    to the one that closes its document, comments and blank rows between them
    left out; the only error is a last command that never closes, reported at
    the row where it starts. *)
Theorem split_exact source : match split source with
  | Ok sts => commands 0 (lines source) sts
  | Err (n, m) => m = NEVER_CLOSED ∧ unclosed 0 (lines source) n
  end.
Proof.
  destruct (split_loop_ok (lines source) 0 []) as [H _]. unfold split. destruct (split_loop _ _ _ _) as [sts|[n m]]; [|done].
  by destruct H as (new & -> & H).
Qed.

(** ** Decoding *)
(** The units of a text in UTF-16, and its bytes in an order. *)
Definition units_of (c : Z) : list Z :=
  if c <? 0x10000 then [c] else [0xD800 + (c - 0x10000) / 0x400; 0xDC00 + (c - 0x10000) mod 0x400].
Definition utf16_bytes (put : Z → bytes) (s : str) : bytes := List.flat_map put (List.flat_map units_of s).
Lemma from_utf16_units s : valid_str s → from_utf16 (List.flat_map units_of s) = Some s.
Proof.
  induction 1 as [|c s Hc _ IH]; [done|]. cbn [List.flat_map]. unfold units_of at 1. unfold is_scalar in Hc. destruct (Z.ltb_spec c 0x10000) as [Hl|Hl]; cbn [app from_utf16].
  - assert ((0xD800 <=? c) && (c <? 0xE000) = false) as ->. { destruct (Z.leb_spec 0xD800 c), (Z.ltb_spec c 0xE000); cbn; (lia || done). }
    by rewrite IH.
  - pose proof (Z.mod_pos_bound (c - 0x10000) 0x400). pose proof (Z.div_pos (c - 0x10000) 0x400). pose proof (Z.div_lt_upper_bound (c - 0x10000) 0x400 0x400).
    rewrite !leb_t, !ltb_t, leb_f by lia. cbn [andb]. rewrite leb_t by lia. cbn [andb]. rewrite IH. cbn. do 2 f_equal.
    pose proof (Z.div_mod (c - 0x10000) 0x400). lia.
Qed.
Lemma utf16_pairs put unit_of us : (∀ u, u ∈ us → ∃ x y, put u = [x; y] ∧ unit_of [x; y] = u) →
  utf16 (List.flat_map put us) unit_of = ok_or (from_utf16 us) "it starts as UTF-16 text but is not valid UTF-16"%string.
Proof.
  intros Hu. assert (∃ ps, pairs (List.flat_map put us) = (ps, []) ∧ List.map unit_of ps = us) as (ps & E & Em); [|unfold utf16; by rewrite E, Em].
  induction us as [|u us IH]; [by exists []|]. destruct (Hu u) as (x & y & Ep & Ex); [left|]. destruct IH as (ps & E & Em); [intros; apply Hu; by right|].
  exists ([x; y] :: ps). cbn [List.flat_map]. rewrite Ep. cbn [app pairs]. rewrite E. cbn. by rewrite Ex, Em.
Qed.
Lemma units_word s u : valid_str s → u ∈ List.flat_map units_of s → in_u 16 u.
Proof.
  intros Hs (c & Hc & Hu)%list_elem_of_In%in_flat_map. rewrite List.Forall_forall in Hs. specialize (Hs c Hc). unfold units_of, is_scalar, in_u in *.
  pose proof (Z.mod_pos_bound (c - 0x10000) 0x400). pose proof (Z.div_pos (c - 0x10000) 0x400). pose proof (Z.div_lt_upper_bound (c - 0x10000) 0x400 0x400).
  destruct (Z.ltb_spec c 0x10000); destruct Hu as [<-|Hu]; [lia|done|lia|]. destruct Hu as [<-|[]]. lia.
Qed.
(** The text of a file is read from its bytes however they are encoded: in
    UTF-8 with a byte order mark, or in UTF-16 with one, in either order. *)
Theorem decode_roundtrip s : valid_str s →
  decode (0xEF :: 0xBB :: 0xBF :: utf8 s) = Ok s ∧ decode (0xFF :: 0xFE :: utf16_bytes (le_bytes 2) s) = Ok s ∧
  decode (0xFE :: 0xFF :: utf16_bytes (be_bytes 2) s) = Ok s.
Proof.
  intros Hs. split; [|split]; cbn [decode].
  - by rewrite from_utf8_utf8.
  - unfold utf16_bytes. rewrite utf16_pairs; [by rewrite from_utf16_units|]. intros u Hu%units_word; [|done]. do 2 eexists. split; [done|]. by apply (le_val_u16 u).
  - unfold utf16_bytes. rewrite utf16_pairs; [by rewrite from_utf16_units|]. intros u Hu%units_word; [|done]. do 2 eexists. split; [done|].
    unfold be_val. cbn [be_bytes rev le_bytes app]. by apply (le_val_u16 u).
Qed.
Lemma decode_roundtrip_witness : valid_str [0x1F600] ∧ decode [0xFF; 0xFE; 0x3D; 0xD8; 0; 0xDE] = Ok [0x1F600].
Proof.
  assert (valid_str [0x1F600]) as H by (repeat constructor; unfold is_scalar; lia). split; [exact H|]. exact (proj1 (proj2 (decode_roundtrip [0x1F600] H))).
Defined.
