(* ===== verification/Times.v ===== *)
(** * [src/time.rs]: time zones, and the formats in which dates are shown and read

    Days, times of day and instants are those of [chrono] (a parameter, with
    its documented conversions); an offset is its seconds east of UTC. The
    zone and the formats of a session, which the code keeps by thread, are
    arguments. *)
From S2P Require Import Prelude Utf8 Text Kdoc.

Class Calendar `{Chrono} := {
  year : NaiveDate → Z;
  month : NaiveDate → Z;
  day : NaiveDate → Z;
  from_ymd_opt : Z → Z → Z → option NaiveDate;
  from_hms_milli_opt : Z → Z → Z → Z → option NaiveTime;
  naive_utc : DateTime → NaiveDate * NaiveTime;
  and_utc : NaiveDate * NaiveTime → DateTime;
  add_seconds : NaiveDate * NaiveTime → Z → NaiveDate * NaiveTime;
  from_local_datetime : Z → NaiveDate * NaiveTime → option DateTime;
  offset_text : Z → str;
  Tz : Type;
  tz_local : Tz;
  tz_parse : str → option Tz;
  tz_name : Tz → str;
  offset_from_utc : Tz → DateTime → Z;
  from_local_earliest : Tz → NaiveDate * NaiveTime → option DateTime;
  format_date : str → NaiveDate → str;
  format_time : str → NaiveTime → str;
  date_from_str : str → str → option NaiveDate;
  time_from_str : str → str → option NaiveTime;
}.
Definition hour `{Chrono} (t : NaiveTime) : Z := num_seconds_from_midnight t / 3600.
Definition minute `{Chrono} (t : NaiveTime) : Z := num_seconds_from_midnight t / 60 mod 60.
Definition second `{Chrono} (t : NaiveTime) : Z := num_seconds_from_midnight t mod 60.
Definition YMD : str := lit "%Y-%m-%d".
Definition HMS : str := lit "%H:%M:%S".
Definition HMS3 : str := lit "%H:%M:%S%.3f".
Definition HMSF : str := lit "%H:%M:%S%.f".
Definition HM : str := lit "%H:%M".
(** Hours and minutes of an offset, as [chrono] writes them. *)
Definition hhmm (o : Z) : str := (if o <? 0 then 45 else 43) :: pad_text 2 (Z.abs o / 3600) ++ 58 :: pad_text 2 (Z.abs o / 60 mod 60).
(** Documented: the parts of a day and of a time determine them; an offset is
    added to a wall clock and taken away; an offset of whole minutes is
    written [+01:00]; what is written in ISO form is read back. *)
Class CalendarLaws `{Calendar} : Prop := {
  month_range d : 1 ≤ month d ≤ 12;
  day_range d : 1 ≤ day d ≤ 31;
  from_ymd d : from_ymd_opt (year d) (month d) (day d) = Some d;
  from_hms_milli t : t_nanosecond t < 1000000000 → t_nanosecond t mod 1000000 = 0 →
    from_hms_milli_opt (hour t) (minute t) (second t) (t_nanosecond t / 1000000) = Some t;
  and_utc_naive t : and_utc (naive_utc t) = t;
  add_zero w : add_seconds w 0 = w;
  from_local o t : from_local_datetime o (add_seconds (naive_utc t) o) = Some t;
  offset_whole o : Z.abs o < 86400 → o mod 60 = 0 → offset_text o = hhmm o;
  date_ascii f d : Forall is_ascii f → Forall is_ascii (format_date f d);
  time_ascii f t : Forall is_ascii f → Forall is_ascii (format_time f t);
  iso_date d : date_from_str YMD (Utf8.trim (format_date YMD d)) = Some d;
  iso_time_ms t : t_nanosecond t < 1000000000 → t_nanosecond t mod 1000000 = 0 →
    time_from_str HMSF (Utf8.trim (format_time HMS3 t)) = Some t;
  iso_time_s t : t_nanosecond t = 0 → time_from_str HMSF (Utf8.trim (format_time HMS t)) = Some t;
}.

Abbreviation msg := String.string (only parsing).
(** What a call gives, or the panic it ends in. *)
Inductive outcome (A : Type) := Done (a : A) | Panic.
Arguments Done {A} a.
Arguments Panic {A}.
#[export] Instance outcome_ret : MRet outcome := fun A a => Done a.
#[export] Instance outcome_bind : MBind outcome := fun A B f m => match m with Done a => f a | Panic => Panic end.

(** ** Offsets *)
Definition is_digitb (c : Z) : bool := (48 <=? c) && (c <=? 57).
(** [s[1..]] of a text in UTF-8: a panic when a character goes over its first
    byte. *)
Definition after_first (s : bytes) : outcome bytes :=
  match s with
  | [] => Panic
  | [_] => Done []
  | _ :: c :: t => if is_cont c then Panic else Done (c :: t)
  end.
Definition parse_offset (s : bytes) : outcome (option Z) :=
  let sign := match s with c :: _ => if c =? 45 then -1 else 1 | [] => 1 end in
  t ← after_first s;
  let digits := List.filter (fun c => negb (c =? 58)) t in
  if negb (forallb is_digitb digits) then Done None
  else
    let hm :=
      match length digits with
      | 2%nat => h ← read_digits 0 digits; Some (h, 0)
      | 4%nat => h ← read_digits 0 (take 2 digits); m ← read_digits 0 (drop 2 digits); Some (h, m)
      | _ => None
      end in
    Done (match hm with
          | Some (h, m) => if (14 <? h) || (59 <? m) then None else Some (sign * (h * 3600 + m * 60))
          | None => None
          end).

(** ** Formats *)
Inductive FormatKind := FDate | FTime | FDateTime.
Inductive Part := Year | Month | Day | Hour | Minute | Second | Millis | Offset | Sep (c : Z).
#[export] Instance part_eq_dec : EqDecision Part.
Proof. solve_decision. Defined.
Definition TOKENS : list (str * Part) :=
  [(lit "YYYY", Year); (lit "SSS", Millis); (lit "XXX", Offset); (lit "MM", Month); (lit "DD", Day); (lit "HH", Hour);
   (lit "mm", Minute); (lit "ss", Second)].
Definition SEPARATORS : str := lit "-/.: T".
Record Pattern := { text : str; parts : list Part }.
Record Fields := {
  f_year : option Z; f_month : option Z; f_day : option Z; f_hour : option Z; f_minute : option Z; f_second : option Z;
  f_millis : option Z; f_offset : option Z }.
Definition no_fields : Fields := {| f_year := None; f_month := None; f_day := None; f_hour := None; f_minute := None;
  f_second := None; f_millis := None; f_offset := None |}.

Definition strip_prefix (p s : str) : option str := if bool_decide (take (length p) s = p) then Some (drop (length p) s) else None.
Fixpoint next_token (tokens : list (str * Part)) (rest : str) : option (Part * str) :=
  match tokens with
  | [] => None
  | (token, part) :: tokens =>
    match strip_prefix token rest with Some r => Some (part, r) | None => next_token tokens rest end
  end.
(** One unit of fuel a character at most. *)
Fixpoint parse_parts (fuel : nat) (rest : str) (acc : list Part) : option (result msg (list Part)) :=
  match rest with
  | [] => Some (Ok acc)
  | c :: t =>
    match fuel with
    | O => None
    | S fuel =>
      match next_token TOKENS rest with
      | Some (part, r) => parse_parts fuel r (acc ++ [part])
      | None =>
        if bool_decide (take 2 rest = lit "YY") then Some (Err "the year has four digits, YYYY"%string)
        else if negb (bool_decide (c ∈ SEPARATORS)) then Some (Err "'{c}' is not one of the {TOKEN_HELP}"%string)
        else parse_parts fuel t (acc ++ [Sep c])
      end
    end
  end.
Definition is_sep (p : Part) : bool := match p with Sep _ => true | _ => false end.
Fixpoint pos_of (p : Part) (fields : list Part) : option nat :=
  match fields with [] => None | q :: fields => if decide (q = p) then Some O else S <$> pos_of p fields end.
Definition ordered (fields : list Part) (a b : Part) : bool :=
  match pos_of a fields, pos_of b fields with Some x, Some y => Nat.ltb x y | _, _ => true end.
Definition needed (kind : FormatKind) : list Part :=
  match kind with FDate => [Year; Month; Day] | FTime => [Hour; Minute] | FDateTime => [Year; Month; Day; Hour; Minute] end.
Definition allowed (kind : FormatKind) : list Part :=
  match kind with
  | FDate => [Year; Month; Day]
  | FTime => [Hour; Minute; Second; Millis]
  | FDateTime => [Year; Month; Day; Hour; Minute; Second; Millis; Offset]
  end.
Definition count_of (p : Part) (fields : list Part) : nat := length (List.filter (fun q => bool_decide (q = p)) fields).
(** The checks of a format, in the order they are made. *)
Definition check_fields (kind : FormatKind) (fields : list Part) : result msg unit :=
  let pos p := pos_of p fields in
  if negb (forallb (fun p => Nat.leb (count_of p fields) 1) fields) then Err "{token} is there twice"%string
  else if negb (forallb (fun p => bool_decide (is_Some (pos p))) (needed kind)) then Err "{token} is missing"%string
  else if negb (forallb (fun p => bool_decide (p ∈ allowed kind)) fields) then Err "a {kind} has no {token}"%string
  else if negb (ordered fields Hour Minute) || negb (ordered fields Minute Second) || negb (ordered fields Second Millis) then
    Err "the time is written HH, mm, then ss, then SSS"%string
  else if bool_decide (is_Some (pos Millis)) && bool_decide (pos Second = None) then Err "SSS needs ss before it"%string
  else if match pos Offset with Some p => negb (Nat.eqb (S p) (length fields)) | None => false end then Err "XXX comes last"%string
  else if bool_decide (pos Year = Some O) && negb (ordered fields Month Day) then
    Err "with the year first, the month comes before the day, as in ISO"%string
  else Ok tt.
Definition parse (kind : FormatKind) (text : str) : option (result msg Pattern) :=
  match parse_parts (length text) text [] with
  | None => None
  | Some (Err e) => Some (Err e)
  | Some (Ok parts) =>
    Some (_ ← check_fields kind (List.filter (fun p => negb (is_sep p)) parts); Ok {| text := text; parts := parts |})
  end.
(** [None] inside: the forms of ISO. *)
Definition parse_format (kind : FormatKind) (text : str) : option (result msg (option Pattern)) :=
  if bool_decide (lower (Utf8.trim text) = lit "iso") || bool_decide (Utf8.trim text = []) then Some (Ok None)
  else match parse kind (Utf8.trim text) with
       | None => None
       | Some (Err e) => Some (Err e)
       | Some (Ok p) => Some (Ok (Some p))
       end.

Section times.
  Context `{HC : Chrono} `{HK : !Calendar}.

(** ** Zones *)
Inductive Zone := Utc | Local | Named (tz : Tz) | Fixed (offset : Z).
Definition zone_parse (name : str) : outcome (result msg Zone) :=
  let s := Utf8.trim name in
  if bool_decide (lower s = lit "utc") || bool_decide (s = lit "Z") then Done (Ok Utc)
  else if bool_decide (lower s = lit "local") then Done (Ok Local)
  else if match s with c :: _ => (c =? 43) || (c =? 45) | [] => false end then
    o ← parse_offset (utf8 s); Done (match o with Some o => Ok (Fixed o) | None => Err "'{name}' is not a time zone"%string end)
  else Done (match tz_parse s with Some tz => Ok (Named tz) | None => Err "'{name}' is not a time zone"%string end).
Definition zone_name (z : Zone) : str :=
  match z with Utc => lit "UTC" | Local => lit "local" | Named tz => tz_name tz | Fixed f => offset_text f end.
Definition offset_at (z : Zone) (instant : DateTime) : Z :=
  match z with Utc => 0 | Local => offset_from_utc tz_local instant | Named tz => offset_from_utc tz instant | Fixed f => f end.
Definition wall (z : Zone) (instant : DateTime) : NaiveDate * NaiveTime := add_seconds (naive_utc instant) (offset_at z instant).
Definition instant (z : Zone) (w : NaiveDate * NaiveTime) : option DateTime :=
  match z with
  | Utc => Some (and_utc w)
  | Local => from_local_earliest tz_local w
  | Named tz => from_local_earliest tz w
  | Fixed f => from_local_datetime f w
  end.

(** ** Reading a text that follows a format *)
Definition number (w : nat) (rest : bytes) : option (Z * bytes) :=
  if Nat.ltb (length rest) w then None else n ← read_digits 0 (take w rest); Some (n, drop w rest).
Definition set_field (p : Part) (n : Z) (f : Fields) : Fields :=
  let 'Build_Fields y mo d h mi s ms o := f in
  match p with
  | Year => Build_Fields (Some n) mo d h mi s ms o
  | Month => Build_Fields y (Some n) d h mi s ms o
  | Day => Build_Fields y mo (Some n) h mi s ms o
  | Hour => Build_Fields y mo d (Some n) mi s ms o
  | Minute => Build_Fields y mo d h (Some n) s ms o
  | Second => Build_Fields y mo d h mi (Some n) ms o
  | Millis => Build_Fields y mo d h mi s (Some n) o
  | Offset => Build_Fields y mo d h mi s ms (Some n)
  | Sep _ => f
  end.
Definition width (p : Part) : nat := match p with Year => 4 | Millis => 3 | _ => 2 end.
Definition only_offset_left (ps : list Part) : bool := forallb (fun p => is_sep p || bool_decide (p = Offset)) ps.
Definition read_offset (rest : bytes) : outcome (option (Z * bytes)) :=
  match rest with
  | c :: t =>
    if (c =? 90) || (c =? 122) then Done (Some (0, t))
    else if Nat.ltb (length rest) 6 then Done None
    else
      match from_utf8 (take 6 rest) with
      | None => Done None
      | Some _ => o ← parse_offset (take 6 rest); Done (match o with Some o => Some (o, drop 6 rest) | None => None end)
      end
  | [] => Done None
  end.
Fixpoint read_parts (ps : list Part) (rest : bytes) (f : Fields) : outcome (option (Fields * bytes)) :=
  match ps with
  | [] => Done (Some (f, rest))
  | p :: ps' =>
    if bool_decide (rest = []) && only_offset_left ps && bool_decide (Offset ∈ ps) then Done (Some (f, rest))
    else
      match p with
      | Sep c => match rest with x :: rest => if x =? wrap 8 c then read_parts ps' rest f else Done None | [] => Done None end
      | Offset =>
        r ← read_offset rest;
        match r with Some (o, rest) => read_parts ps' rest (set_field Offset o f) | None => Done None end
      | p => match number (width p) rest with Some (n, rest) => read_parts ps' rest (set_field p n f) | None => Done None end
      end
  end.
Definition read (p : Pattern) (text : str) : outcome (option Fields) :=
  r ← read_parts (parts p) (utf8 (Utf8.trim text)) no_fields;
  Done (match r with Some (f, rest) => if bool_decide (rest = []) then Some f else None | None => None end).
Definition date_of (f : Fields) : option NaiveDate := y ← f_year f; m ← f_month f; d ← f_day f; from_ymd_opt y m d.
Definition time_of (f : Fields) : option NaiveTime :=
  h ← f_hour f; m ← f_minute f;
  t ← from_hms_milli_opt h m (default 0 (f_second f)) (default 0 (f_millis f));
  if default 0 (f_second f) <? 60 then Some t else None.
Definition read_date (p : Pattern) (text : str) : outcome (option NaiveDate) := f ← read p text; Done (f ← f; date_of f).
Definition read_time (p : Pattern) (text : str) : outcome (option NaiveTime) := f ← read p text; Done (f ← f; time_of f).
Definition read_datetime (p : Pattern) (text : str) (z : Zone) : outcome (option (result msg DateTime)) :=
  f ← read p text;
  Done (f ← f; d ← date_of f; t ← time_of f;
    Some (match f_offset f with
          | Some o => ok_or (from_local_datetime o (d, t)) "'{text}' is not a datetime"%string
          | None => ok_or (instant z (d, t)) "'{text}' does not exist in the time zone {}: the clocks went forward then"%string
          end)).

(** ** Writing *)
(** [format!("{n:04}")]: the sign is part of the width. *)
Definition pad_int (w : nat) (n : Z) : str := if n <? 0 then 45 :: pad_text (w - 1) (- n) else pad_text w n.
Definition part_text (date : option NaiveDate) (time : option NaiveTime) (offset : option Z) (p : Part) : str :=
  match p with
  | Sep c => [c]
  | Year => pad_int 4 (from_option year 0 date)
  | Month => pad_int 2 (from_option month 0 date)
  | Day => pad_int 2 (from_option day 0 date)
  | Hour => pad_int 2 (from_option hour 0 time)
  | Minute => pad_int 2 (from_option minute 0 time)
  | Second => pad_int 2 (from_option second 0 time)
  | Millis => pad_int 3 (from_option (fun t => t_nanosecond t / 1000000) 0 time)
  | Offset => match offset with Some o => if o =? 0 then [90] else offset_text o | None => [90] end
  end.
Definition write (p : Pattern) (date : option NaiveDate) (time : option NaiveTime) (offset : option Z) : str :=
  List.flat_map (part_text date time offset) (parts p).
Definition show_date (p : Pattern) (d : NaiveDate) : str := write p (Some d) None None.
Definition show_time (p : Pattern) (t : NaiveTime) : str := write p None (Some t) None.
Definition show_instant (p : Pattern) (at_ : DateTime) (z : Zone) : str :=
  let w := wall z at_ in write p (Some w.1) (Some w.2) (Some (offset_at z at_)).

(** ** What a session types and sees. [None]: ISO. *)
Definition date_text (d : NaiveDate) : str := format_date YMD d.
Definition time_text (t : NaiveTime) : str := if 1000000 <=? t_nanosecond t then format_time HMS3 t else format_time HMS t.
Definition parse_date (text : str) : result msg NaiveDate := ok_or (date_from_str YMD (Utf8.trim text)) "'{text}' is not a date"%string.
Definition parse_time (text : str) : result msg NaiveTime :=
  match time_from_str HMSF (Utf8.trim text) with
  | Some t => Ok t
  | None => ok_or (time_from_str HM (Utf8.trim text)) "'{text}' is not a time"%string
  end.
Definition session_read_date (format : option Pattern) (text : str) : outcome (result msg NaiveDate) :=
  match format with
  | None => Done (parse_date text)
  | Some p =>
    r ← read_date p text;
    Done (match r with
          | Some d => Ok d
          | None => match parse_date text with Ok d => Ok d | Err _ => Err "'{text}' is not a date under the format {} of this session"%string end
          end)
  end.
Definition session_read_time (format : option Pattern) (text : str) : outcome (result msg NaiveTime) :=
  match format with
  | None => Done (parse_time text)
  | Some p =>
    r ← read_time p text;
    Done (match r with
          | Some t => Ok t
          | None => match parse_time text with Ok t => Ok t | Err _ => Err "'{text}' is not a time under the format {} of this session"%string end
          end)
  end.
Definition shown_date (format : option Pattern) (d : NaiveDate) : str := match format with Some p => show_date p d | None => date_text d end.
Definition shown_time (format : option Pattern) (t : NaiveTime) : str := match format with Some p => show_time p t | None => time_text t end.
End times.
