(* ===== verification/TimesThm.v ===== *)
(** * What a session shows, it reads back *)
From S2P Require Import Prelude Utf8 Text Kdoc Times.

(** ** Fields of fixed width *)
Lemma pad_int_spec w n : (0 < w ≤ 20)%nat → 0 ≤ n < 10 ^ Z.of_nat w → pad_int w n = pad_text w n.
Proof. intros Hw Hn. unfold pad_int. by rewrite ltb_f by lia. Qed.
Lemma number_pad w n r : (0 < w ≤ 20)%nat → 0 ≤ n < 10 ^ Z.of_nat w → number w (pad_text w n ++ r) = Some (n, r).
Proof.
  intros Hw Hn. destruct (pad_text_spec w n) as (Hl & _ & Er); [lia..|]. unfold number. rewrite length_app, Hl.
  assert (Nat.ltb (w + length r) w = false) as -> by (apply Nat.ltb_ge; lia).
  by rewrite take_app_len, drop_app_len, Er by done.
Qed.
Lemma list_snoc_view_ {A} (x : A) l : ∃ l' y, x :: l = l' ++ [y].
Proof. destruct (x :: l) as [|y l' _] eqn:E using rev_ind; [done|]. eauto. Qed.
Lemma digits_ascii s : Forall is_digit s → Forall is_ascii s.
Proof. intros H. eapply Forall_impl; [exact H|]. unfold is_digit, is_ascii. intros; lia. Qed.
Lemma digits_forallb s : Forall is_digit s → forallb is_digitb s = true.
Proof.
  intros H. apply forallb_forall. intros c Hc. rewrite List.Forall_forall in H. apply H in Hc. unfold is_digit, is_digitb in *. by rewrite !leb_t by lia.
Qed.

(** ** Offsets *)
(** Whole minutes, 14 hours and 59 minutes at most. *)
Definition good_offset (o : Z) : Prop := o mod 60 = 0 ∧ Z.abs o ≤ 14 * 3600 + 59 * 60.
Lemma offset_parts o : good_offset o →
  0 ≤ Z.abs o / 3600 ≤ 14 ∧ 0 ≤ Z.abs o / 60 mod 60 ≤ 59 ∧ Z.abs o = Z.abs o / 3600 * 3600 + Z.abs o / 60 mod 60 * 60.
Proof.
  intros [Hm Ha]. assert (Z.abs o mod 60 = 0) as Hm'.
  { destruct (Z.abs_spec o) as [[_ ->]|[_ ->]]; [done|]. by apply Z_mod_zero_opp_full. }
  pose proof (Z.div_mod (Z.abs o) 60 ltac:(lia)) as E1. pose proof (Z.div_mod (Z.abs o / 60) 60 ltac:(lia)) as E2.
  rewrite Z.div_div in E2 by lia. change (60 * 60) with 3600 in E2. pose proof (Z.mod_pos_bound (Z.abs o / 60) 60 ltac:(lia)).
  assert (0 ≤ Z.abs o / 3600) by (apply Z.div_pos; lia). assert (Z.abs o / 3600 < 15) by (apply Z.div_lt_upper_bound; lia). lia.
Qed.
Lemma hhmm_ascii o : good_offset o → Forall is_ascii (hhmm o) ∧ length (hhmm o) = 6%nat.
Proof.
  intros (Hh & Hm & _)%offset_parts. unfold hhmm.
  destruct (pad_text_spec 2 (Z.abs o / 3600)) as (Lh & Dh & _); [lia..|]. destruct (pad_text_spec 2 (Z.abs o / 60 mod 60)) as (Lm & Dm & _); [lia..|].
  split; [|cbn [length]; rewrite length_app; cbn [length]; lia]. constructor; [unfold is_ascii; destruct (o <? 0); lia|]. apply Forall_app. split; [by apply digits_ascii|].
  constructor; [unfold is_ascii; lia|]. by apply digits_ascii.
Qed.
Lemma filter_digits s : Forall is_digit s → List.filter (fun c => negb (c =? 58)) s = s.
Proof. induction 1 as [|c s Hc _ IH]; [done|]. cbn [List.filter]. unfold is_digit in Hc. rewrite (proj2 (Z.eqb_neq c 58)) by lia. cbn [negb]. by rewrite IH. Qed.
Lemma after_first_digit s c t : is_digit c → after_first (s :: c :: t) = Done (c :: t).
Proof. intros Hc. unfold after_first, is_cont, is_digit in *. by rewrite leb_f by lia. Qed.
Lemma parse_offset_hhmm o : good_offset o → parse_offset (hhmm o) = Done (Some o).
Proof.
  intros Ho. destruct (offset_parts o Ho) as (Hh & Hm & Eo). unfold hhmm.
  destruct (pad_text_spec 2 (Z.abs o / 3600)) as (Lh & Dh & Rh); [lia..|]. destruct (pad_text_spec 2 (Z.abs o / 60 mod 60)) as (Lm & Dm & Rm); [lia..|].
  set (h := pad_text 2 (Z.abs o / 3600)) in *. set (m := pad_text 2 (Z.abs o / 60 mod 60)) in *. unfold parse_offset.
  assert (after_first ((if o <? 0 then 45 else 43) :: h ++ 58 :: m) = Done (h ++ 58 :: m)) as ->.
  { destruct h as [|c h']; [done|]. apply after_first_digit. by apply Forall_inv in Dh. }
  cbn [mbind outcome_bind]. rewrite List.filter_app. cbn [List.filter]. rewrite Z.eqb_refl. cbn [negb]. rewrite !filter_digits by done.
  rewrite digits_forallb by by apply Forall_app. rewrite length_app, Lh, Lm. cbn [negb Nat.add].
  rewrite take_app_len, drop_app_len, Rh, Rm by done. cbn [mbind option_bind]. rewrite !ltb_f by lia. cbn [orb].
  do 2 f_equal. destruct (Z.ltb_spec o 0); cbn [Z.eqb Pos.eqb]; lia.
Qed.
Definition offset_shown `{Calendar} (o : Z) : str := if o =? 0 then [90] else offset_text o.
Lemma read_offset_shown `{CalendarLaws} o r : good_offset o → read_offset (offset_shown o ++ r) = Done (Some (o, r)).
Proof.
  intros Ho. unfold offset_shown. destruct (Z.eqb_spec o 0) as [->|_]; [done|].
  rewrite offset_whole by (destruct Ho; lia). pose proof (hhmm_ascii o Ho) as [Ha Hl]. pose proof (parse_offset_hhmm o Ho) as Hp.
  destruct (hhmm o) as [|c t] eqn:E; [done|]. assert (c = 43 ∨ c = 45) as Hc.
  { unfold hhmm in E. injection E as <- _. destruct (o <? 0); auto. }
  cbn [app]. unfold read_offset. assert (((c =? 90) || (c =? 122)) = false) as -> by (destruct Hc as [-> | ->]; done).
  change (c :: t ++ r) with ((c :: t) ++ r). rewrite length_app, Hl. cbn [Nat.add].
  assert (Nat.ltb (S (S (S (S (S (S (length r))))))) 6 = false) as -> by (apply Nat.ltb_ge; lia).
  rewrite take_app_len, drop_app_len by done. rewrite <- (utf8_ascii (c :: t)) at 1 by done. rewrite from_utf8_utf8 by by apply ascii_valid.
  by rewrite Hp.
Qed.

Section parts.
  Context `{HC : Chrono} `{HK : !Calendar} `{HL : !CalendarLaws}.
  Context (date : option NaiveDate) (time : option NaiveTime) (offset : option Z).

(** ** What each part says *)
Definition part_value (p : Part) : Z :=
  match p with
  | Year => from_option year 0 date
  | Month => from_option month 0 date
  | Day => from_option day 0 date
  | Hour => from_option hour 0 time
  | Minute => from_option minute 0 time
  | Second => from_option second 0 time
  | Millis => from_option (fun t => t_nanosecond t / 1000000) 0 time
  | Offset => default 0 offset
  | Sep _ => 0
  end.
Definition part_ok (p : Part) : Prop :=
  match p with
  | Sep c => c ∈ SEPARATORS
  | Offset => good_offset (part_value p)
  | p => 0 ≤ part_value p < 10 ^ Z.of_nat (width p)
  end.
Definition set_part (f : Fields) (p : Part) : Fields := set_field p (part_value p) f.
Lemma width_range p : (0 < width p ≤ 20)%nat.
Proof. destruct p; cbn; lia. Qed.
Lemma part_text_number p : part_ok p → match p with Offset | Sep _ => True | _ => part_text date time offset p = pad_text (width p) (part_value p) end.
Proof. destruct p; cbn [part_ok part_text width part_value]; try done; intros; apply pad_int_spec; done || (cbn; lia). Qed.
Lemma part_text_offset : part_text date time offset Offset = offset_shown (part_value Offset).
Proof. unfold part_text, offset_shown, part_value. by destruct offset as [o|]. Qed.
Lemma separators_ascii c : c ∈ SEPARATORS → is_ascii c ∧ wrap 8 c = c.
Proof.
  assert (Forall (fun c => is_ascii c ∧ wrap 8 c = c) SEPARATORS) as H by (repeat constructor; unfold is_ascii; by vm_compute).
  rewrite Forall_forall in H. apply H.
Qed.
Lemma part_text_chars p : part_ok p → Forall is_ascii (part_text date time offset p) ∧ part_text date time offset p ≠ [].
Proof.
  intros Hp. destruct p as [| | | | | | | |c].
  1-7: pose proof (part_text_number _ Hp) as ->; cbn [part_ok] in Hp; match goal with |- Forall _ (pad_text (width ?p) ?v) ∧ _ =>
    pose proof (width_range p); destruct (pad_text_spec (width p) v) as (Hl & Hd & _); [lia|exact Hp|lia|]; split; [by apply digits_ascii|intros E; rewrite E in Hl; cbn in Hl; lia] end.
  - rewrite part_text_offset. unfold offset_shown. cbn [part_ok] in Hp. destruct (_ =? 0); [split; [by repeat constructor|done]|].
    rewrite offset_whole by (destruct Hp; lia). destruct (hhmm_ascii _ Hp) as [? Hl]. split; [done|]. intros E. by rewrite E in Hl.
  - cbn [part_text]. split; [|done]. repeat constructor; by apply separators_ascii.
Qed.
Lemma write_nil ps : Forall part_ok ps → Offset ∈ ps → List.flat_map (part_text date time offset) ps ≠ [].
Proof.
  intros Ho (a & b & ->)%list_elem_of_split. apply Forall_app in Ho as [_ Ho%Forall_inv]. rewrite flat_map_app. cbn [List.flat_map].
  intros [_ [E _]%app_nil]%app_nil. by apply (part_text_chars Offset Ho).
Qed.
(** A text that was written is read part by part. *)
Lemma read_write ps : ∀ f, Forall part_ok ps →
  read_parts ps (List.flat_map (part_text date time offset) ps) f = Done (Some (fold_left set_part ps f, [])).
Proof.
  induction ps as [|p ps IH]; intros f Hok; [done|]. pose proof Hok as Hall. apply Forall_cons in Hok as [Hp Hok].
  assert ((bool_decide (List.flat_map (part_text date time offset) (p :: ps) = []) && only_offset_left (p :: ps) && bool_decide (Offset ∈ p :: ps)) = false) as Hb.
  { case_bool_decide as H1; [|done]. case_bool_decide as H2; [|by rewrite andb_false_r]. by destruct (write_nil (p :: ps)). }
  cbn [read_parts]. rewrite Hb. cbn [List.flat_map fold_left]. destruct p as [| | | | | | | |c].
  1-7: pose proof (part_text_number _ Hp) as ->; cbn [part_ok] in Hp; rewrite number_pad by (apply width_range || exact Hp); by apply IH.
  - rewrite part_text_offset, read_offset_shown by done. cbn [mbind outcome_bind]. by apply IH.
  - cbn [part_text app]. cbn [part_ok] in Hp. destruct (separators_ascii c Hp) as [_ ->]. rewrite Z.eqb_refl.
    assert (set_part f (Sep c) = f) as -> by by destruct f. by apply IH.
Qed.

Definition get_field (p : Part) (f : Fields) : option Z :=
  match p with
  | Year => f_year f | Month => f_month f | Day => f_day f | Hour => f_hour f | Minute => f_minute f | Second => f_second f
  | Millis => f_millis f | Offset => f_offset f | Sep _ => None
  end.
Lemma get_set p q n f : is_sep p = false → get_field p (set_field q n f) = if decide (p = q) then Some n else get_field p f.
Proof. intros Hp. destruct f, p, q; try done; case_decide; done. Qed.
Lemma fields_read p ps f : is_sep p = false → get_field p (fold_left set_part ps f) = if decide (p ∈ ps) then Some (part_value p) else get_field p f.
Proof.
  intros Hp. revert f. induction ps as [|q ps IH]; intros f; [by rewrite decide_False by apply not_elem_of_nil|]. cbn [fold_left]. rewrite IH.
  destruct (decide (p ∈ ps)) as [Hin|Hn]; [by rewrite decide_True by by right|]. unfold set_part. rewrite get_set by done.
  destruct (decide (p = q)) as [->|Hne]; [by rewrite decide_True by left|]. rewrite decide_False; [done|]. by intros [|]%elem_of_cons.
Qed.
End parts.

(** ** What a format that was accepted is *)
Definition token_text (p : Part) : str :=
  match p with
  | Year => lit "YYYY" | Month => lit "MM" | Day => lit "DD" | Hour => lit "HH" | Minute => lit "mm" | Second => lit "ss"
  | Millis => lit "SSS" | Offset => lit "XXX" | Sep c => [c]
  end.
Lemma strip_prefix_spec p s r : strip_prefix p s = Some r → s = p ++ r.
Proof. unfold strip_prefix. case_bool_decide as E; [|done]. intros [= <-]. rewrite <- (take_drop (length p) s) at 1. by rewrite E. Qed.
Lemma next_token_spec rest p r : next_token TOKENS rest = Some (p, r) → rest = token_text p ++ r ∧ is_sep p = false.
Proof.
  assert (Forall (fun tp => tp.1 = token_text tp.2 ∧ is_sep tp.2 = false) TOKENS) as H by by repeat constructor.
  revert H. generalize TOKENS. induction 1 as [|[token part] tokens [Ht Hs] _ IH]; [done|]. cbn [next_token fst snd] in *.
  destruct (strip_prefix token rest) as [r'|] eqn:E; [|done]. intros [= <- <-]. apply strip_prefix_spec in E as ->. by subst.
Qed.
Definition sep_ok (p : Part) : Prop := match p with Sep c => c ∈ SEPARATORS | _ => True end.
Lemma parse_parts_spec fuel : ∀ rest acc ps, parse_parts fuel rest acc = Some (Ok ps) →
  ∃ new, ps = acc ++ new ∧ rest = List.flat_map token_text new ∧ Forall sep_ok new.
Proof.
  induction fuel as [|fuel IH]; intros [|c t] acc ps; cbn [parse_parts]; [by intros [= <-]; exists []; rewrite app_nil_r|done|by intros [= <-]; exists []; rewrite app_nil_r|].
  assert (∀ p r, is_sep p = false ∨ p = Sep c ∧ c ∈ SEPARATORS → c :: t = token_text p ++ r → parse_parts fuel r (acc ++ [p]) = Some (Ok ps) →
    ∃ new, ps = acc ++ new ∧ c :: t = List.flat_map token_text new ∧ Forall sep_ok new) as Hstep.
  { intros p r Hp E (new & -> & -> & Hok)%IH. exists (p :: new). rewrite <- app_assoc. split; [done|]. split; [done|].
    constructor; [|done]. destruct Hp as [Hp|[-> ?]]; [by destruct p|done]. }
  destruct (next_token TOKENS (c :: t)) as [[p r]|] eqn:En; [apply next_token_spec in En as [E Hp]; eapply Hstep; eauto|].
  case_bool_decide; [done|]. case_bool_decide as Hc; [|done]. apply Hstep; auto.
Qed.
(** Reading a format ends. *)
Lemma parse_parts_ends fuel : ∀ rest acc, (length rest ≤ fuel)%nat → is_Some (parse_parts fuel rest acc).
Proof.
  induction fuel as [|fuel IH]; intros [|c t] acc Hl; cbn [length] in Hl; try lia; [by eexists..|]. cbn [parse_parts].
  destruct (next_token TOKENS (c :: t)) as [[p r]|] eqn:En.
  - apply next_token_spec in En as [E Hp]. apply IH. apply (f_equal length) in E. rewrite length_app in E. cbn [length] in E.
    destruct p; cbn in *; lia || done.
  - case_bool_decide; [by eexists|]. case_bool_decide; [|by eexists]. apply IH. lia.
Qed.
Lemma parse_ends kind text : is_Some (parse kind text).
Proof. unfold parse. destruct (parse_parts_ends (length text) text []) as [[ps|e] ->]; [done|by eexists..]. Qed.

Lemma pos_of_in p fields : is_Some (pos_of p fields) ↔ p ∈ fields.
Proof.
  induction fields as [|q fields IH]; cbn [pos_of]; [split; [by intros []|by intros ?%not_elem_of_nil]|]. rewrite elem_of_cons.
  destruct (decide (q = p)) as [->|]; [split; eauto|]. rewrite fmap_is_Some, IH. split; [auto|by intros [|]].
Qed.
Lemma check_fields_ok kind fields : check_fields kind fields = Ok tt → (∀ p, p ∈ needed kind → p ∈ fields) ∧ (∀ p, p ∈ fields → p ∈ allowed kind).
Proof.
  unfold check_fields. destruct (forallb _ fields); [|done]. destruct (forallb _ (needed kind)) eqn:En; [|done].
  destruct (forallb (fun p => bool_decide (p ∈ allowed kind)) fields) eqn:Ea; [|done]. intros _. rewrite forallb_forall in En, Ea. split; intros p Hp.
  - apply pos_of_in. apply list_elem_of_In in Hp. apply En in Hp. by apply bool_decide_eq_true in Hp.
  - apply list_elem_of_In in Hp. apply Ea in Hp. by apply bool_decide_eq_true in Hp.
Qed.
Record accepted (kind : FormatKind) (p : Pattern) : Prop := {
  ac_needed q : q ∈ needed kind → q ∈ parts p;
  ac_allowed q : q ∈ parts p → is_sep q = false → q ∈ allowed kind;
  ac_seps : Forall sep_ok (parts p);
  ac_first q ps : parts p = q :: ps → q ≠ Sep 32;
  ac_last q ps : parts p = ps ++ [q] → q ≠ Sep 32;
}.
Lemma parse_format_accepted kind text p : parse_format kind text = Some (Ok (Some p)) → accepted kind p.
Proof.
  unfold parse_format. destruct (bool_decide _ || bool_decide _); [done|]. destruct (parse kind (Utf8.trim text)) as [[p'|e]|] eqn:E; [|done..].
  intros [= ->]. revert E. unfold parse. destruct (parse_parts _ _ _) as [[ps|e]|] eqn:Ep; [|done..].
  apply parse_parts_spec in Ep as (new & -> & Et & Hs). cbn [app]. destruct (check_fields kind _) as [[]|e] eqn:Ec; [|done]. intros [= <-].
  apply check_fields_ok in Ec as [Hn Ha]. cbn [parts]. split; cbn [parts].
  - intros q Hq%Hn. apply list_elem_of_In, filter_In in Hq as [Hq _]. by apply list_elem_of_In.
  - intros q Hq Hsep. apply Ha, list_elem_of_In, filter_In. split; [by apply list_elem_of_In|by rewrite Hsep].
  - done.
  - intros q ps -> ->. cbn [List.flat_map token_text app] in Et. by apply trim_first in Et.
  - intros q ps -> ->. rewrite flat_map_app in Et. by apply trim_last in Et.
Qed.

Section session.
  Context `{HC : Chrono} `{HK : !Calendar} `{HL : !CalendarLaws}.

Lemma part_text_solid date time offset p : part_ok date time offset p → p ≠ Sep 32 →
  Forall (fun c => is_whitespace c = false) (part_text date time offset p).
Proof.
  intros Hp Hb. assert (∀ s, Forall (fun c => 43 ≤ c < 91) s → Forall (fun c => is_whitespace c = false) s) as Hsolid.
  { intros s Hs. eapply Forall_impl; [exact Hs|]. cbn beta. intros c Hc. unfold is_whitespace.
    repeat (apply orb_false_iff; split); try (apply Z.eqb_neq; lia); apply andb_false_iff; rewrite !Z.leb_gt; lia. }
  assert (∀ s, Forall is_digit s → Forall (fun c => 43 ≤ c < 91) s) as Hdig.
  { intros s Hs. eapply Forall_impl; [exact Hs|]. unfold is_digit. intros; lia. }
  destruct p as [| | | | | | | |c].
  1-7: apply Hsolid, Hdig; pose proof (part_text_number _ _ _ _ Hp) as ->; cbn [part_ok] in Hp; match goal with |- Forall _ (pad_text (width ?p) ?v) =>
    pose proof (width_range p); destruct (pad_text_spec (width p) v) as (_ & Hd & _); [lia|exact Hp|lia|exact Hd] end.
  - rewrite part_text_offset. unfold offset_shown. cbn [part_ok] in Hp. destruct (_ =? 0); [by repeat constructor|].
    rewrite offset_whole by (destruct Hp; lia). apply offset_parts in Hp as (Hh & Hm & _). apply Hsolid. unfold hhmm.
    destruct (pad_text_spec 2 (Z.abs (part_value date time offset Offset) / 3600)) as (_ & Dh & _); [lia..|].
    destruct (pad_text_spec 2 (Z.abs (part_value date time offset Offset) / 60 mod 60)) as (_ & Dm & _); [lia..|].
    constructor; [destruct (_ <? 0); lia|]. apply Forall_app. split; [by apply Hdig|]. constructor; [lia|]. by apply Hdig.
  - cbn [part_text]. constructor; [|done]. cbn [part_ok] in Hp. assert (c ≠ 32) as Hc by congruence.
    assert (Forall (fun c => c = 32 ∨ is_whitespace c = false) SEPARATORS) as H.
    { repeat constructor; (left; done) || (right; done). }
    rewrite Forall_forall in H. destruct (H c Hp); done.
Qed.
(** A written text is read as the fields that were written. *)
Lemma read_written kind p date time offset : accepted kind p → Forall (part_ok date time offset) (parts p) → parts p ≠ [] →
  read p (write p date time offset) = Done (Some (fold_left (set_part date time offset) (parts p) no_fields)).
Proof.
  intros [_ _ _ Hf Hl] Hok Hne. unfold read, write. destruct (parts p) as [|q ps] eqn:Ep; [done|]. destruct (list_snoc_view_ q ps) as (ps' & q' & Es).
  assert (Utf8.trim (List.flat_map (part_text date time offset) (q :: ps)) = List.flat_map (part_text date time offset) (q :: ps)) as ->.
  { assert (part_ok date time offset q' ∧ q' ≠ Sep 32) as [Hq' Hb'].
    { split; [|by apply (Hl q' ps')]. rewrite Es in Hok. by apply Forall_app in Hok as [_ ?%Forall_inv]. }
    assert (part_ok date time offset q ∧ q ≠ Sep 32) as [Hq Hb] by (split; [by apply Forall_inv in Hok|by apply (Hf q ps)]).
    apply (trim_solid _ (part_text date time offset q) (List.flat_map (part_text date time offset) ps) (part_text date time offset q') (List.flat_map (part_text date time offset) ps')).
    - done.
    - rewrite Es, flat_map_app. cbn [List.flat_map]. by rewrite app_nil_r.
    - by apply part_text_chars.
    - by apply part_text_chars.
    - by apply part_text_solid.
    - by apply part_text_solid. }
  rewrite utf8_ascii.
  - rewrite read_write by done. done.
  - apply Forall_flat_map. eapply Forall_impl; [exact Hok|]. intros r Hr. by apply part_text_chars.
Qed.

(** A time of day that a format writes whole. *)
Definition precise (p : Pattern) (t : NaiveTime) : Prop :=
  0 ≤ num_seconds_from_midnight t < 86400 ∧ 0 ≤ t_nanosecond t < 1000000000 ∧ t_nanosecond t mod 1000000 = 0 ∧
  (Second ∈ parts p ∨ second t = 0) ∧ (Millis ∈ parts p ∨ t_nanosecond t = 0).
Definition four_digits (d : NaiveDate) : Prop := 0 ≤ year d < 10000.
Lemma date_parts_ok d time offset q : four_digits d → q ∈ [Year; Month; Day] → part_ok (Some d) time offset q.
Proof.
  unfold four_digits. intros Hy Hq. pose proof (month_range d). pose proof (day_range d).
  repeat (apply elem_of_cons in Hq as [-> |Hq]; [cbn [part_ok part_value from_option width]; lia|]). by apply not_elem_of_nil in Hq.
Qed.
Lemma time_parts_ok date t offset q p : precise p t → q ∈ [Hour; Minute; Second; Millis] → part_ok date (Some t) offset q.
Proof.
  intros (Hs & Hn & _) Hq. unfold hour, minute, second in *.
  assert (0 ≤ num_seconds_from_midnight t / 3600 < 100) by (split; [apply Z.div_pos|apply Z.div_lt_upper_bound]; lia).
  pose proof (Z.mod_pos_bound (num_seconds_from_midnight t / 60) 60 ltac:(lia)). pose proof (Z.mod_pos_bound (num_seconds_from_midnight t) 60 ltac:(lia)).
  assert (0 ≤ t_nanosecond t / 1000000 < 1000) by (split; [apply Z.div_pos|apply Z.div_lt_upper_bound]; lia).
  repeat (apply elem_of_cons in Hq as [-> |Hq]; [cbn [part_ok part_value from_option width]; unfold hour, minute, second; lia|]). by apply not_elem_of_nil in Hq.
Qed.
(** What the parts of a format that has a date, or a time, give back. *)
Lemma date_of_written p d time offset : Year ∈ parts p → Month ∈ parts p → Day ∈ parts p →
  date_of (fold_left (set_part (Some d) time offset) (parts p) no_fields) = Some d.
Proof.
  intros H1 H2 H3. unfold date_of. set (f := fold_left _ _ _).
  change (f_year f) with (get_field Year f). change (f_month f) with (get_field Month f). change (f_day f) with (get_field Day f).
  unfold f. rewrite !fields_read, !decide_True by done. cbn. apply from_ymd.
Qed.
Lemma time_of_written p date t offset : precise p t → Hour ∈ parts p → Minute ∈ parts p →
  time_of (fold_left (set_part date (Some t) offset) (parts p) no_fields) = Some t.
Proof.
  intros (Hs & Hn & Hm & Hsec & Hms) H1 H2. unfold time_of. set (f := fold_left _ _ _).
  change (f_hour f) with (get_field Hour f). change (f_minute f) with (get_field Minute f).
  change (f_second f) with (get_field Second f). change (f_millis f) with (get_field Millis f).
  unfold f. rewrite !fields_read by done. rewrite (decide_True (P := Hour ∈ _)), (decide_True (P := Minute ∈ _)) by done. cbn [mbind option_bind part_value from_option].
  assert (default 0 (if decide (Second ∈ parts p) then Some (second t) else get_field Second no_fields) = second t) as ->.
  { case_decide; [done|]. destruct Hsec as [|E]; [done|by rewrite E]. }
  assert (default 0 (if decide (Millis ∈ parts p) then Some (t_nanosecond t / 1000000) else get_field Millis no_fields) = t_nanosecond t / 1000000) as ->.
  { case_decide; [done|]. destruct Hms as [|E]; [done|by rewrite E]. }
  rewrite from_hms_milli by lia. cbn [mbind option_bind]. rewrite ltb_t; [done|]. unfold second. apply Z.mod_pos_bound. lia.
Qed.
Lemma parts_not_nil kind p : accepted kind p → parts p ≠ [].
Proof.
  intros Hac E. assert (∃ q, q ∈ needed kind) as [q Hq] by (destruct kind; eexists; left). apply (ac_needed _ _ Hac) in Hq. rewrite E in Hq.
  by apply not_elem_of_nil in Hq.
Qed.
(** Every part a format of the kind may have can be written. *)
Lemma parts_all_ok kind p date time offset : accepted kind p → (∀ q, q ∈ allowed kind → part_ok date time offset q) → Forall (part_ok date time offset) (parts p).
Proof.
  intros Hac Hk. apply Forall_forall. intros q Hq. destruct (is_sep q) eqn:Es; [|by apply Hk, (ac_allowed _ _ Hac)].
  pose proof (ac_seps _ _ Hac) as Hs. rewrite Forall_forall in Hs. specialize (Hs q Hq). by destruct q.
Qed.
Ltac needs Hac := apply (ac_needed _ _ Hac); cbn [needed]; set_solver.

(** C32: what a session shows, it reads back as the same value: a date of four
    digits of year, under any format of dates that the server accepts; a time
    that the format writes whole; and an instant in any zone whose offset is
    in minutes, when the format writes the offset. *)
Theorem shown_is_read kind text p : parse_format kind text = Some (Ok (Some p)) →
  match kind with
  | FDate => ∀ d, four_digits d → session_read_date (Some p) (shown_date (Some p) d) = Done (Ok d)
  | FTime => ∀ t, precise p t → session_read_time (Some p) (shown_time (Some p) t) = Done (Ok t)
  | FDateTime => ∀ at_ z z', four_digits (wall z at_).1 → precise p (wall z at_).2 → good_offset (offset_at z at_) → Offset ∈ parts p →
    read_datetime p (show_instant p at_ z) z' = Done (Some (Ok at_))
  end.
Proof.
  intros Hac%parse_format_accepted. pose proof (parts_not_nil _ _ Hac) as Hne. destruct kind.
  - intros d Hd. cbn [session_read_date shown_date]. unfold read_date, show_date.
    rewrite (read_written FDate) by (done || (apply (parts_all_ok FDate); [done|]; intros q; by apply date_parts_ok)).
    cbn [mbind outcome_bind option_bind]. rewrite date_of_written by needs Hac. done.
  - intros t Ht. cbn [session_read_time shown_time]. unfold read_time, show_time.
    rewrite (read_written FTime) by (done || (apply (parts_all_ok FTime); [done|]; intros q; by eapply time_parts_ok)).
    cbn [mbind outcome_bind option_bind]. rewrite time_of_written by (done || needs Hac). done.
  - intros at_ z z' Hd Ht Ho Hoff. unfold read_datetime, show_instant. destruct (wall z at_) as [d t] eqn:Ew. cbn [fst snd] in *.
    rewrite (read_written FDateTime).
    2: { done. }
    3: { done. }
    2: { apply (parts_all_ok FDateTime); [done|]. intros q Hq. change (allowed FDateTime) with ([Year; Month; Day] ++ [Hour; Minute; Second; Millis] ++ [Offset]) in Hq.
      apply elem_of_app in Hq as [Hq|[Hq|Hq%list_elem_of_singleton]%elem_of_app]; [by apply date_parts_ok|by eapply time_parts_ok|by subst]. }
    cbn [mbind outcome_bind option_bind]. rewrite date_of_written by needs Hac. cbn [mbind option_bind].
    rewrite time_of_written by (done || needs Hac). cbn [mbind option_bind]. set (f := fold_left _ _ _). change (f_offset f) with (get_field Offset f).
    unfold f. rewrite fields_read, decide_True by done. cbn [part_value default from_option]. do 2 f_equal. unfold wall in Ew. rewrite <- Ew, from_local. done.
Qed.
End session.

(** A text typed for a datetime can stop the session: under a format that
    writes the offset, a character of two bytes where the offset begins makes
    [parse_offset] cut a text in the middle of it. And a character other than
    a sign is read there as a plus. *)
Theorem offset_text_panics :
  match parse_format FDateTime (lit "YYYY-MM-DD HH:mm XXX") with
  | Some (Ok (Some p)) =>
    read p (lit "2026-10-27 14:30 " ++ [0xE9] ++ lit "1:00") = Panic ∧
    read p (lit "2026-10-27 14:30 901:00") = read p (lit "2026-10-27 14:30 +01:00")
  | _ => False
  end.
Proof. split; by vm_compute. Qed.

(** ** A calendar to evaluate: every month has 31 days, in a year of 372 *)
Definition DAY_MS : Z := 86400000.
Definition LO_MS : Z := - 2 ^ 31 * DAY_MS.
Definition HI_MS : Z := 2 ^ 31 * DAY_MS.
Lemma ms_bounds : LO_MS = - 185542587187200000 ∧ HI_MS = 185542587187200000 ∧ DAY_MS = 86400000.
Proof. done. Qed.
Definition clip_Z (lo hi z : Z) : Z := lo + (z - lo) mod (hi - lo).
Lemma clip_range lo hi z : lo < hi → lo ≤ clip_Z lo hi z < hi.
Proof. unfold clip_Z. pose proof (Z.mod_pos_bound (z - lo) (hi - lo)). lia. Qed.
Lemma clip_small lo hi z : lo ≤ z < hi → clip_Z lo hi z = z.
Proof. unfold clip_Z. intros H. rewrite Z.mod_small; lia. Qed.
Lemma clip_shift lo hi z k : lo < hi → clip_Z lo hi (clip_Z lo hi z + k) = clip_Z lo hi (z + k).
Proof.
  unfold clip_Z. intros H. f_equal. replace (lo + (z - lo) mod (hi - lo) + k - lo) with ((z - lo) mod (hi - lo) + k) by lia.
  rewrite Zplus_mod_idemp_l. f_equal. lia.
Qed.
Lemma clip_inb lo hi z : (lo <? hi) = true → in_rangeb lo hi (clip_Z lo hi z) = true.
Proof. intros H%Z.ltb_lt. pose proof (clip_range lo hi z H). unfold in_rangeb. rewrite leb_t, ltb_t by lia. done. Qed.
Definition clip {lo hi} (H : (lo <? hi) = true) (z : Z) : bounded lo hi := Bounded (clip_Z lo hi z) (clip_inb lo hi z H).
Abbreviation DayNumber := (bounded (- 2 ^ 31) (2 ^ 31)).
Abbreviation Instant := (bounded LO_MS HI_MS).
Abbreviation MsOfDay := (bounded 0 DAY_MS).
Definition to_day : Z → DayNumber := @clip (- 2 ^ 31) (2 ^ 31) eq_refl.
Definition to_instant : Z → Instant := @clip LO_MS HI_MS eq_refl.
Definition to_ms : Z → MsOfDay := @clip 0 DAY_MS eq_refl.
#[export] Instance plain_chrono : Chrono := {|
  NaiveDate := DayNumber; days_from_epoch := bz; epoch_plus_days := of_Z _ _; DateTime := Instant; timestamp_millis := bz;
  dt_nanosecond t := bz t mod 1000 * 1000000; from_timestamp_millis := of_Z _ _; NaiveTime := MsOfDay; num_seconds_from_midnight t := bz t / 1000;
  t_nanosecond t := bz t mod 1000 * 1000000;
  from_num_seconds s n := if (0 <=? n) && (n <? 1000000000) && (n mod 1000000 =? 0) then of_Z _ _ (s * 1000 + n / 1000000) else None |}.
Definition plain_naive (t : Instant) : DayNumber * MsOfDay := (to_day (bz t / DAY_MS), to_ms (bz t mod DAY_MS)).
Definition wall_ms (w : DayNumber * MsOfDay) : Z := bz w.1 * DAY_MS + bz w.2.
#[export] Instance plain_calendar : @Calendar plain_chrono := @Build_Calendar plain_chrono
  (fun d : DayNumber => bz d / 372) (fun d : DayNumber => bz d mod 372 / 31 + 1) (fun d : DayNumber => bz d mod 31 + 1)
  (fun y m d => if (1 <=? m) && (m <=? 12) && (1 <=? d) && (d <=? 31) then of_Z _ _ (y * 372 + (m - 1) * 31 + (d - 1)) else None)
  (fun h m s ms => of_Z 0 DAY_MS (((h * 60 + m) * 60 + s) * 1000 + ms))
  plain_naive (fun w => to_instant (wall_ms w)) (fun w o => plain_naive (to_instant (wall_ms w + o * 1000))) (fun o w => Some (to_instant (wall_ms w - o * 1000))) hhmm
  unit tt (fun _ => None) (fun _ => lit "local") (fun _ _ => 0) (fun _ w => Some (to_instant (wall_ms w)))
  (fun _ (d : DayNumber) => int_text (bz d)) (fun _ (t : MsOfDay) => int_text (bz t))
  (fun _ s => z ← parse_i64 s; of_Z _ _ z) (fun _ s => z ← parse_i64 s; of_Z _ _ z).

Lemma clip_bz lo hi (H : (lo <? hi) = true) (x : bounded lo hi) : clip H (bz x) = x.
Proof. apply bounded_eq. cbn [bz clip]. apply clip_small, bounded_range. Qed.
Lemma wall_naive t : wall_ms (plain_naive t) = bz t.
Proof.
  pose proof (bounded_range _ _ t) as Ht. pose proof ms_bounds as (El & Eh & Ed). unfold wall_ms, plain_naive, to_day, to_ms. cbn [fst snd bz clip].
  pose proof (Z.div_mod (bz t) DAY_MS ltac:(done)). pose proof (Z.mod_pos_bound (bz t) DAY_MS ltac:(done)).
  rewrite !clip_small; [lia|done|]. split; [apply Z.div_le_lower_bound|apply Z.div_lt_upper_bound]; lia.
Qed.
Lemma wall_range w : LO_MS ≤ wall_ms w < HI_MS.
Proof. destruct w as [d t]. pose proof (bounded_range _ _ d). pose proof (bounded_range _ _ t). pose proof ms_bounds. unfold wall_ms. cbn [fst snd]. lia. Qed.
Lemma naive_wall w : plain_naive (to_instant (wall_ms w)) = w.
Proof.
  pose proof (wall_range w) as Hw. unfold plain_naive. cbn [bz to_instant clip]. rewrite clip_small by done. destruct w as [d t]. unfold wall_ms. cbn [fst snd].
  pose proof (bounded_range _ _ t) as Ht. assert ((bz d * DAY_MS + bz t) / DAY_MS = bz d) as ->.
  { symmetry. apply (Z.div_unique _ _ _ (bz t)); [by left|lia]. }
  assert ((bz d * DAY_MS + bz t) mod DAY_MS = bz t) as -> by (symmetry; apply (Z.mod_unique _ _ (bz d)); [by left|lia]).
  unfold to_day, to_ms. by rewrite !clip_bz.
Qed.
Lemma int_text_read lo hi (x : bounded lo hi) : i64_min ≤ lo → hi ≤ i64_max → parse_i64 (Utf8.trim (int_text (bz x))) = Some (bz x).
Proof.
  intros Hlo Hhi. pose proof (bounded_range _ _ x) as Hx. assert (in_i64 (bz x)) as Hi by (unfold in_i64; lia).
  rewrite trim_digits; [by apply parse_i64_text|]. apply int_text_chars. unfold i64_min, i64_max in *. lia.
Qed.
Lemma int_text_ascii z : - 10 ^ 40 < z < 10 ^ 40 → Forall is_ascii (int_text z).
Proof. intros Hz. eapply Forall_impl; [by apply int_text_chars|]. unfold is_digit, is_ascii. cbn beta. intros; lia. Qed.
Lemma ms_of_day_parts z : ((z / 1000 / 3600 * 60 + z / 1000 / 60 mod 60) * 60 + z / 1000 mod 60) * 1000 + z mod 1000 = z.
Proof.
  pose proof (Z.div_mod z 1000 ltac:(done)). pose proof (Z.div_mod (z / 1000) 60 ltac:(done)). pose proof (Z.div_mod (z / 1000 / 60) 60 ltac:(done)) as E3.
  rewrite (Z.div_div (z / 1000) 60 60) in E3 by done. change (60 * 60) with 3600 in E3. lia.
Qed.
#[export] Instance plain_calendar_laws : @CalendarLaws plain_chrono plain_calendar.
Proof.
  split.
  - intros d. cbn. pose proof (Z.mod_pos_bound (bz d) 372 ltac:(done)). assert (0 ≤ bz d mod 372 / 31 < 12) by (split; [apply Z.div_pos|apply Z.div_lt_upper_bound]; lia). lia.
  - intros d. cbn. pose proof (Z.mod_pos_bound (bz d) 31 ltac:(done)). lia.
  - intros d. cbn. pose proof (Z.mod_pos_bound (bz d) 372 ltac:(done)). assert (0 ≤ bz d mod 372 / 31 < 12) by (split; [apply Z.div_pos|apply Z.div_lt_upper_bound]; lia).
    pose proof (Z.mod_pos_bound (bz d) 31 ltac:(done)). rewrite !leb_t by lia. cbn [andb]. rewrite !Z.add_simpl_r.
    pose proof (Z.div_mod (bz d) 372 ltac:(done)). pose proof (Z.div_mod (bz d mod 372) 31 ltac:(done)).
    assert (bz d mod 31 = bz d mod 372 mod 31) by (symmetry; apply Z.mod_mod_divide; by exists 12).
    assert (bz d / 372 * 372 + bz d mod 372 / 31 * 31 + bz d mod 31 = bz d) as -> by lia. apply of_Z_bz.
  - intros t Hn Hm. unfold hour, minute, second. cbn [t_nanosecond num_seconds_from_midnight from_hms_milli_opt plain_calendar plain_chrono] in *.
    rewrite Z.div_mul by done. rewrite ms_of_day_parts. apply of_Z_bz.
  - intros t. cbn [and_utc naive_utc plain_calendar]. rewrite wall_naive. apply clip_bz.
  - intros w. cbn [add_seconds plain_calendar]. rewrite Z.mul_0_l, Z.add_0_r. apply naive_wall.
  - intros o t. cbn [from_local_datetime add_seconds naive_utc plain_calendar]. rewrite !wall_naive. f_equal. apply bounded_eq. cbn [bz to_instant clip].
    unfold Z.sub at 1. rewrite clip_shift by done. rewrite <- Z.add_assoc, Z.add_opp_diag_r, Z.add_0_r. apply clip_small, bounded_range.
  - done.
  - intros f d _. pose proof (bounded_range _ _ d). apply int_text_ascii. lia.
  - intros f t _. pose proof (bounded_range _ _ t). apply int_text_ascii. unfold DAY_MS in *. lia.
  - intros d. cbn [format_date date_from_str plain_calendar]. rewrite int_text_read by (by vm_compute). apply of_Z_bz.
  - intros t _ _. cbn [format_time time_from_str plain_calendar]. rewrite int_text_read by (by vm_compute). apply of_Z_bz.
  - intros t _. cbn [format_time time_from_str plain_calendar]. rewrite int_text_read by (by vm_compute). apply of_Z_bz.
Qed.
#[export] Instance plain_chrono_laws : @ChronoLaws plain_chrono.
Proof.
  assert (∀ z, 0 ≤ z mod 1000 * 1000000 < 1000000000 ∧ z mod 1000 * 1000000 mod 1000000 = 0) as Hn.
  { intros z. pose proof (Z.mod_pos_bound z 1000 ltac:(done)). split; [lia|by apply Z.mod_mul]. }
  split; cbn [days_from_epoch epoch_plus_days timestamp_millis dt_nanosecond from_timestamp_millis num_seconds_from_midnight t_nanosecond from_num_seconds plain_chrono].
  - apply bounded_range.
  - apply of_Z_bz.
  - intros t. pose proof (bounded_range _ _ t). pose proof ms_bounds. unfold in_i64, i64_min, i64_max. lia.
  - intros t. apply Hn.
  - intros t _ _. apply of_Z_bz.
  - intros z t _. apply Hn.
  - intros t. pose proof (bounded_range _ _ t) as Ht. pose proof ms_bounds. split; [apply Z.div_pos|apply Z.div_lt_upper_bound]; lia.
  - intros t. pose proof (Hn (bz t)). lia.
  - intros t. destruct (Hn (bz t)) as [[? ?] E]. rewrite E, leb_t, ltb_t, Z.div_mul by lia. cbn [andb Z.eqb].
    replace (bz t / 1000 * 1000 + bz t mod 1000) with (bz t) by (pose proof (Z.div_mod (bz t) 1000 ltac:(done)); lia). apply of_Z_bz.
  - intros s n t. destruct (Z.leb_spec 0 n), (Z.ltb_spec n 1000000000), (Z.eqb_spec (n mod 1000000) 0) as [E|]; cbn [andb]; try done. intros ->%of_Z_inv.
    pose proof (Z.div_mod n 1000000 ltac:(done)). assert (0 ≤ n / 1000000 < 1000) by (split; [apply Z.div_pos|apply Z.div_lt_upper_bound]; lia).
    rewrite <- (Z.div_unique (s * 1000 + n / 1000000) 1000 s (n / 1000000)), <- (Z.mod_unique (s * 1000 + n / 1000000) 1000 s (n / 1000000)) by lia. lia.
Qed.

(** The 3rd of April 2026 at 14:30:15.250, an hour east of UTC. *)
Definition sample_at : @DateTime plain_chrono := to_instant (((2026 * 372 + 3 * 31 + 2) * 86400 + 13 * 3600 + 30 * 60 + 15) * 1000 + 250).
Definition sample_format : Pattern :=
  match parse_format FDateTime (lit "DD/MM/YYYY HH:mm:ss.SSS XXX") with
  | Some (Ok (Some p)) => p
  | _ => {| text := []; parts := [] |}
  end.
Lemma shown_is_read_witness :
  parse_format FDateTime (lit "DD/MM/YYYY HH:mm:ss.SSS XXX") = Some (Ok (Some sample_format)) ∧
  @show_instant plain_chrono plain_calendar sample_format sample_at (@Fixed plain_chrono plain_calendar 3600) = lit "03/04/2026 14:30:15.250 +01:00" ∧
  @read_datetime plain_chrono plain_calendar sample_format (lit "03/04/2026 14:30:15.250 +01:00") Utc = Done (Some (Ok sample_at)).
Proof.
  assert (parse_format FDateTime (lit "DD/MM/YYYY HH:mm:ss.SSS XXX") = Some (Ok (Some sample_format))) as E by by vm_compute.
  assert (@show_instant plain_chrono plain_calendar sample_format sample_at (@Fixed plain_chrono plain_calendar 3600) = lit "03/04/2026 14:30:15.250 +01:00") as Es by by vm_compute.
  split; [exact E|]. split; [exact Es|]. rewrite <- Es.
  apply (@shown_is_read plain_chrono plain_calendar plain_calendar_laws FDateTime _ _ E sample_at (@Fixed plain_chrono plain_calendar 3600) Utc).
  - unfold four_digits. by vm_compute.
  - split; [by vm_compute|]. split; [by vm_compute|]. split; [by vm_compute|]. split; left; vm_decide.
  - split; by vm_compute.
  - vm_decide.
Defined.
