(* ===== verification/Json.v ===== *)
(** * [src/doc.rs], the JSON forms of documents; documents and JSON as trees

    The JSON values are those of [serde_json] (its numbers a parameter), the
    members of an object in their order. *)
From S2P Require Import Prelude Utf8 Text DocNum Ordering Kdoc Paths Times.

(** Making numbers: [Json::from] an integer, [Number::from_f64]. *)
Class JsonMake `{JsonNumbers} := {
  num_from_i64 : Z → Number;
  num_from_u64 : Z → Number;
  num_from_f64 : Z → option Number;
  is_f64 : Number → bool;
}.
(** Documented: an integer is given back as it is, an integer above the
    signed ones as an unsigned one only, a finite float as a float only. *)
Class JsonMakeLaws `{JsonMake} : Prop := {
  from_i64_as i : in_i64 i → as_i64 (num_from_i64 i) = Some i;
  from_u64_as u : i64_max < u ≤ u64_max → as_i64 (num_from_u64 u) = None ∧ as_u64 (num_from_u64 u) = Some u;
  from_f64_as f : in_u 64 f → f_finite f = true →
    ∃ n, num_from_f64 f = Some n ∧ as_i64 n = None ∧ as_u64 n = None ∧ as_f64 n = Some f ∧ is_f64 n = true;
}.
(** The text of a decimal, and the reading of one without rounding. *)
Class DecimalText `{Decimals} := {
  is_sign_negative : Decimal → bool;
  dec_to_string : Decimal → str;
  from_str_exact : str → option Decimal;
}.
(** Documented: a decimal is written as its digits, with a point when it has
    a scale, and read back as it was; zero is written without a sign. *)
Class DecimalTextLaws `{DecimalText} : Prop := {
  dec_text_form d : ∃ w f, dec_to_string d = (if is_sign_negative d then [45] else []) ++ w ++ (match f with [] => [] | _ => 46 :: f end) ∧
    w ≠ [] ∧ Forall is_digit w ∧ Forall is_digit f;
  dec_text_read d : (mantissa d = 0 → is_sign_negative d = false) → from_str_exact (dec_to_string d) = Some d;
}.
(** The ISO texts of instants, and a time of day cut to the millisecond. *)
Class Rfc3339 `{Calendar} := {
  iso : DateTime → str;
  parse_from_rfc3339 : str → option DateTime;
  datetime_from_str : str → str → option DateTime;
  naive_from_str : str → str → option (NaiveDate * NaiveTime);
  MIN_TIME : NaiveTime;
  with_nanosecond : NaiveTime → Z → option NaiveTime;
}.
(** Documented: an instant of the years 0 to 9999, to the millisecond, is
    read back; setting the nanoseconds a time has gives that time. *)
Class Rfc3339Laws `{Rfc3339} : Prop := {
  iso_read t : 0 ≤ dt_nanosecond t < 1000000000 → dt_nanosecond t mod 1000000 = 0 → 0 ≤ year (naive_utc t).1 < 10000 →
    parse_from_rfc3339 (Utf8.trim (iso t)) = Some t;
  iso_ascii t : Forall is_ascii (iso t);
  with_same_nanosecond t : t_nanosecond t < 1000000000 → with_nanosecond t (t_nanosecond t) = Some t;
}.

Section json.
  Context `{HN : JsonNumbers}.

Inductive Json :=
| JNull
| JBool (b : bool)
| JNumber (n : Number)
| JString (s : str)
| JArray (items : list Json)
| JObject (m : list (str * Json)).
Definition is_array (j : Json) : bool := match j with JArray _ => true | _ => false end.
Definition is_object (j : Json) : bool := match j with JObject _ => true | _ => false end.
Definition as_str (j : Json) : option str := match j with JString s => Some s | _ => None end.

#[export] Instance json_tree : Tree Json.
Proof.
  refine {| view j := match j with JArray a => NArray a | JObject m => NObject m | _ => NScalar end; object := JObject; array := JArray |}; try done.
  - intros [] ?; try done. by intros [= ->].
  - intros [] ?; try done. by intros [= ->].
Defined.
(** [jsonpath::len] *)
Definition json_len (j : Json) : option Z :=
  match j with JArray a => Some (len a) | JObject m => Some (len m) | JString s => Some (len s) | _ => None end.
(** How deep arrays and objects nest. *)
Fixpoint json_depth (j : Json) : nat :=
  match j with
  | JArray a => S (foldr (fun v n => Nat.max (json_depth v) n) 0%nat a)
  | JObject m => S (foldr (fun kv n => Nat.max (json_depth kv.2) n) 0%nat m)
  | _ => 0
  end.
End json.

Section doc_json.
  Context `{HN : JsonNumbers} `{HM : !JsonMake} `{HD : Decimals} `{HF : !DecimalFrom} `{HT : !DecimalText}.
  Context `{HC : Chrono} `{HK : !Calendar} `{HR : !Rfc3339}.

#[export] Instance doc_tree : Tree Doc.
Proof.
  refine {| view d := match d with DArray a => NArray a | DObject m => NObject m | _ => NScalar end; object := DObject; array := DArray |}; try done.
  - intros [] ?; try done. by intros [= ->].
  - intros [] ?; try done. by intros [= ->].
Defined.

(** ** Plain JSON *)
Fixpoint from_json (j : Json) : Doc :=
  match j with
  | JNull => DNull
  | JBool b => DBool b
  | JNumber n =>
    match as_i64 n, as_u64 n with
    | Some i, _ => DInt i
    | None, Some u => DDecimal (dec_from_u64 u)
    | None, None => DFloat (default ZERO (as_f64 n))
    end
  | JString s => DStr s
  | JArray items => DArray (List.map from_json items)
  | JObject m => DObject (List.map (fun kv => (kv.1, from_json kv.2)) m)
  end.
Definition float_json (f : Z) : Json := from_option JNumber JNull (num_from_f64 f).
Fixpoint to_plain_json (doc : Doc) : Json :=
  match doc with
  | DNull => JNull
  | DBool b => JBool b
  | DInt i => JNumber (num_from_i64 i)
  | DFloat f => float_json f
  | DDecimal d => match u64_beyond_i64 d with Some u => JNumber (num_from_u64 u) | None => JString (dec_to_string d) end
  | DStr s => JString s
  | DDate d => JString (date_text d)
  | DDateTime t => JString (iso t)
  | DTime t => JString (time_text t)
  | DArray items => JArray (List.map to_plain_json items)
  | DObject m => JObject (List.map (fun kv => (kv.1, to_plain_json kv.2)) m)
  end.

(** ** Extended JSON *)
Definition DOLLAR : Z := 36.
Definition TAGS : list str := [lit "$decimal"; lit "$date"; lit "$time"; lit "$datetime"].
Definition tagged (tag text : str) : Json := JObject [(tag, JString text)].
Definition starts_dollar (k : str) : bool := match k with c :: _ => c =? DOLLAR | [] => false end.
Definition escape_key (k : str) : str := if starts_dollar k then DOLLAR :: k else k.
Fixpoint to_extended_json (doc : Doc) : Json :=
  match doc with
  | DDecimal d => tagged (lit "$decimal") (dec_to_string d)
  | DDate d => tagged (lit "$date") (date_text d)
  | DDateTime t => tagged (lit "$datetime") (iso t)
  | DTime t => tagged (lit "$time") (time_text t)
  | DArray items => JArray (List.map to_extended_json items)
  | DObject m => JObject (List.map (fun kv => (escape_key kv.1, to_extended_json kv.2)) m)
  | other => to_plain_json other
  end.

(** [parse_decimal] *)
Definition all_digits (p : str) : bool := negb (bool_decide (p = [])) && forallb is_digitb p.
Definition parse_decimal (text : str) : result msg Decimal :=
  let s := Utf8.trim text in
  let unsigned := match s with c :: t => if c =? 45 then t else s | [] => s end in
  let '(whole, frac) := match cut_at DOT unsigned with Some (w, f) => (w, Some f) | None => (unsigned, None) end in
  if negb (all_digits whole) || match frac with Some f => negb (all_digits f) | None => false end then
    Err "'{text}' is not a decimal: write it as 1250.50"%string
  else ok_or (from_str_exact s) "'{text}' does not fit a decimal"%string.

(** [time::parse_datetime] *)
Fixpoint first_some {A B} (f : A → option B) (l : list A) : option B :=
  match l with [] => None | x :: l => match f x with Some b => Some b | None => first_some f l end end.
Definition OFFSET_FORMATS : list str := [lit "%Y-%m-%d %H:%M:%S%.f %:z"; lit "%Y-%m-%d %H:%M %:z"; lit "%Y-%m-%dT%H:%M%:z"; lit "%Y-%m-%d %H:%M%:z"].
Definition strip_suffix (p s : str) : option str := (@rev Z) <$> strip_prefix (rev p) (rev s).
(** [s.replacen('T', " ", 1)] *)
Definition t_to_space (s : str) : str := match cut_at 84 s with Some (a, b) => a ++ 32 :: b | None => s end.
Definition wall_of (s : str) : option (NaiveDate * NaiveTime) :=
  let s := t_to_space s in
  match first_some (fun f => naive_from_str f s) [lit "%Y-%m-%d %H:%M:%S%.f"; lit "%Y-%m-%d %H:%M"] with
  | Some w => Some w
  | None => d ← date_from_str YMD s; Some (d, MIN_TIME)
  end.
Definition parse_datetime (text : str) (zone : Zone) : result msg DateTime :=
  let s := Utf8.trim text in
  match parse_from_rfc3339 s with
  | Some d => Ok d
  | None =>
    match first_some (fun f => datetime_from_str f s) OFFSET_FORMATS with
    | Some d => Ok d
    | None =>
      let '(s, zone) := match first_some (fun p => strip_suffix p s) [lit " UTC"; lit "Z"; lit "z"] with Some rest => (trim_end rest, Utc) | None => (s, zone) end in
      match wall_of s with
      | None => Err "'{text}' is not a datetime: {DATETIME_HELP}"%string
      | Some w => ok_or (instant zone w) "'{text}' does not exist in the time zone {}: the clocks went forward then"%string
      end
    end
  end.
(** The same instant. *)
Definition same_instant (a b : DateTime) : bool := (timestamp_millis a =? timestamp_millis b) && (dt_nanosecond a =? dt_nanosecond b).
Definition ELSEWHERE : Z := 3600.
Definition typed_leaf (tag text : str) : result msg Doc :=
  if bool_decide (tag = lit "$decimal") then d ← parse_decimal text; Ok (DDecimal d)
  else if bool_decide (tag = lit "$date") then d ← parse_date text; Ok (DDate d)
  else if bool_decide (tag = lit "$time") then
    t ← parse_time text; Ok (DTime (default t (with_nanosecond t (t_nanosecond t / 1000000 * 1000000))))
  else
    at_ ← parse_datetime text Utc;
    if match parse_datetime text (Fixed ELSEWHERE) with Ok e => negb (same_instant e at_) | Err _ => true end then
      Err "'{text}' has no offset: write it as 2026-10-31T15:18:00Z or with +01:00"%string
    else Ok (DDateTime (default at_ (from_timestamp_millis (timestamp_millis at_)))).
Definition unescape_key (k : str) : result msg str :=
  match k with
  | c :: k' =>
    if c =? DOLLAR then
      match k' with
      | c' :: rest => if c' =? DOLLAR then Ok (DOLLAR :: rest) else Err "'{k}' is not a tag"%string
      | [] => Err "'{k}' is not a tag"%string
      end
    else Ok k
  | [] => Ok k
  end.
(** The tag of an object that has this one member. *)
Definition tag_of (m : list (str * Json)) : option (str * Json) :=
  match m with [(tag, v)] => if bool_decide (tag ∈ TAGS) then Some (tag, v) else None | _ => None end.
Definition collect {A B} (f : A → result msg B) : list A → result msg (list B) :=
  fix go l := match l with [] => Ok [] | x :: l => y ← f x; r ← go l; Ok (y :: r) end.
Fixpoint from_extended (j : Json) (depth : Z) : result msg Doc :=
  if MAX_DEPTH <? depth then Err "a document nested deeper than {MAX_DEPTH}"%string
  else
    match j with
    | JNumber n =>
      match as_i64 n with
      | Some i => Ok (DInt i)
      | None => if is_f64 n then Ok (DFloat (default ZERO (as_f64 n))) else Err "{n} does not fit an int"%string
      end
    | JArray items => l ← collect (fun v => from_extended v (depth + 1)) items; Ok (DArray l)
    | JObject m =>
      match tag_of m with
      | Some (tag, value) => match as_str value with Some text => typed_leaf tag text | None => Err "{tag} takes a text, not {value}"%string end
      | None =>
        l ← collect (fun kv => k ← unescape_key kv.1; v ← from_extended kv.2 (depth + 1); Ok (k, v)) m;
        Ok (DObject (fold_left (fun out kv => m_insert kv.1 kv.2 out) l []))
      end
    | plain => Ok (from_json plain)
    end.
Definition from_extended_json (j : Json) : result msg Doc := from_extended j 1.
End doc_json.
