(* ===== verification/JsonThm.v ===== *)
(** * Extended JSON keeps every value of a document; plain JSON keeps those
    that JSON can hold *)
From S2P Require Import Prelude Utf8 Text DocNum Ordering Kdoc Paths Times TimesThm Json.

Lemma collect_ok {A B} (f : A → result msg B) (g : B → A) l : Forall (fun x => f (g x) = Ok x) l → collect f (List.map g l) = Ok l.
Proof. induction 1 as [|x l Hx _ IH]; [done|]. cbn [List.map collect]. rewrite Hx. cbn. rewrite IH. done. Qed.
Lemma m_insert_new {T} k (v : T) m : k ∉ List.map fst m → m_insert k v m = m ++ [(k, v)].
Proof.
  induction m as [|[k1 v1] m IH]; [done|]. cbn [List.map fst m_insert app]. intros [Hk Hm]%not_elem_of_cons. rewrite decide_False by done. by rewrite IH.
Qed.
Lemma fold_insert {T} (l : list (str * T)) : ∀ m, NoDup (List.map fst (m ++ l)) → fold_left (fun out kv => m_insert kv.1 kv.2 out) l m = m ++ l.
Proof.
  induction l as [|[k v] l IH]; intros m Hn; cbn [fold_left]; [by rewrite app_nil_r|]. cbn [fst snd]. rewrite m_insert_new.
  - rewrite IH; rewrite <- app_assoc; done.
  - rewrite map_app in Hn. apply NoDup_app in Hn as (_ & Hn & _). intros Hk. apply (Hn k Hk). left.
Qed.

(** ** Decimals *)
Section decimals.
  Context `{DecimalTextLaws}.
Lemma digits_not_dot w : Forall is_digit w → DOT ∉ w.
Proof. intros Hw Hd. rewrite Forall_forall in Hw. apply Hw in Hd. unfold is_digit, DOT in Hd. lia. Qed.
Lemma cut_at_none c l : c ∉ l → cut_at c l = None.
Proof. induction l as [|x l IH]; [done|]. intros [Hx Hl]%not_elem_of_cons. cbn [cut_at]. rewrite (proj2 (Z.eqb_neq x c)) by done. by rewrite IH. Qed.
Lemma cut_at_first c a b : c ∉ a → cut_at c (a ++ c :: b) = Some (a, b).
Proof.
  induction a as [|x a IH]; intros Hc; cbn [app cut_at]; [by rewrite Z.eqb_refl|]. apply not_elem_of_cons in Hc as [Hx Ha].
  rewrite (proj2 (Z.eqb_neq x c)) by done. by rewrite IH.
Qed.
Lemma all_digits_ok w : w ≠ [] → Forall is_digit w → all_digits w = true.
Proof. intros Hn Hw. unfold all_digits. rewrite bool_decide_eq_false_2 by done. by apply digits_forallb. Qed.
Lemma parse_decimal_text d : (mantissa d = 0 → is_sign_negative d = false) → parse_decimal (dec_to_string d) = Ok d.
Proof.
  intros Hz. pose proof (dec_text_read d Hz) as Hr. destruct (dec_text_form d) as (w & f & E & Hw & Dw & Df). unfold parse_decimal.
  assert (Utf8.trim (dec_to_string d) = dec_to_string d) as ->.
  { apply trim_none. rewrite E. assert (∀ s, Forall is_digit s → Forall (fun c => is_whitespace c = false) s) as Hsolid.
    { intros s Hs. eapply Forall_impl; [exact Hs|]. unfold is_digit. cbn beta. intros c Hc. unfold is_whitespace.
      repeat (apply orb_false_iff; split); try (apply Z.eqb_neq; lia); apply andb_false_iff; rewrite !Z.leb_gt; lia. }
    apply Forall_app. split; [destruct (is_sign_negative d); by repeat constructor|]. apply Forall_app. split; [by apply Hsolid|].
    destruct f as [|c f]; [constructor|]. constructor; [done|]. by apply Hsolid. }
  rewrite Hr. assert ((match dec_to_string d with c :: t => if c =? 45 then t else dec_to_string d | [] => dec_to_string d end) =
    w ++ match f with [] => [] | _ => 46 :: f end) as ->.
  { rewrite E. destruct (is_sign_negative d); [done|]. cbn [app]. destruct w as [|c w]; [done|]. cbn [app]. apply Forall_inv in Dw. unfold is_digit in Dw.
    by rewrite (proj2 (Z.eqb_neq c 45)) by lia. }
  destruct f as [|c f].
  - rewrite app_nil_r, cut_at_none by by apply digits_not_dot. by rewrite all_digits_ok.
  - rewrite cut_at_first by by apply digits_not_dot. by rewrite !all_digits_ok.
Qed.
End decimals.

Section roundtrip.
  Context `{HN : JsonNumbers} `{HM : !JsonMake} `{HD : Decimals} `{HF : !DecimalFrom} `{HT : !DecimalText}.
  Context `{HC : Chrono} `{HK : !Calendar} `{HR : !Rfc3339}.
  Context `{LM : !JsonMakeLaws} `{LT : !DecimalTextLaws} `{LC : !ChronoLaws} `{LK : !CalendarLaws} `{LR : !Rfc3339Laws}.

(** ** Dates and times *)
Lemma parse_date_text d : parse_date (date_text d) = Ok d.
Proof. unfold parse_date, date_text. by rewrite iso_date. Qed.
Lemma parse_time_text t : whole_ms (t_nanosecond t) = true → parse_time (time_text t) = Ok t.
Proof.
  pose proof (t_nanos_range t) as Hn. intros [Hlt Hm]%whole_ms_spec; [|lia]. unfold parse_time, time_text. destruct (Z.leb_spec 1000000 (t_nanosecond t)).
  - by rewrite iso_time_ms by lia.
  - rewrite iso_time_s; [done|]. rewrite <- Hm. symmetry. apply Z.mod_small. lia.
Qed.
Definition iso_year (t : DateTime) : Prop := 0 ≤ year (naive_utc t).1 < 10000.
Lemma parse_datetime_iso t z : whole_ms (dt_nanosecond t) = true → iso_year t → parse_datetime (iso t) z = Ok t.
Proof. intros [Hlt Hm]%whole_ms_spec Hy; [|apply dt_nanos_range]. unfold parse_datetime. by rewrite iso_read by (done || apply Hlt). Qed.
Lemma elsewhere_zone : zone_parse (lit "+01:00") = Done (Ok (Fixed ELSEWHERE)).
Proof. by vm_compute. Qed.

(** ** Extended JSON *)
(** What ISO texts and the text of a decimal can say: no negative zero, the
    years 0 to 9999. *)
Fixpoint ext_ok (d : Doc) : Prop :=
  match d with
  | DDecimal d => mantissa d = 0 → is_sign_negative d = false
  | DDateTime t => iso_year t
  | DArray items => all ext_ok items
  | DObject m => all (fun kv => ext_ok kv.2) m
  | _ => True
  end.
Lemma unescape_escape k : unescape_key (escape_key k) = Ok k.
Proof.
  unfold escape_key. destruct k as [|c k]; [done|]. cbn [starts_dollar]. destruct (c =? DOLLAR) eqn:E.
  - apply Z.eqb_eq in E as ->. done.
  - cbn [unescape_key]. by rewrite E.
Qed.
Lemma escape_not_tag k : escape_key k ∉ TAGS.
Proof.
  assert (∀ t, t ∈ TAGS → starts_dollar t = true ∧ starts_dollar (tail t) = false) as H.
  { intros t Ht. assert (Forall (fun t => starts_dollar t = true ∧ starts_dollar (tail t) = false) TAGS) as HF' by by repeat constructor.
    rewrite Forall_forall in HF'. by apply HF'. }
  intros Ht. apply H in Ht as [H1 H2]. unfold escape_key in *. destruct (starts_dollar k) eqn:Ek; [|congruence]. cbn [tail] in H2. congruence.
Qed.
Lemma tag_of_escaped {A} (m : list (str * A)) (g : A → Json) : tag_of (List.map (fun kv => (escape_key kv.1, g kv.2)) m) = None.
Proof. destruct m as [|[k v] [|kv m]]; try done. cbn [List.map tag_of fst snd]. rewrite bool_decide_eq_false_2; [done|]. apply escape_not_tag. Qed.
Lemma tagged_leaf tag text depth : depth ≤ MAX_DEPTH → tag ∈ TAGS → from_extended (tagged tag text) depth = typed_leaf tag text.
Proof. intros Hd Ht. cbn [from_extended tagged]. rewrite ltb_f by done. cbn [tag_of]. by rewrite bool_decide_eq_true_2. Qed.
Lemma check_depth d depth : check_at d depth = Ok tt → depth ≤ MAX_DEPTH.
Proof. destruct d; cbn [check_at]; destruct (Z.ltb_spec MAX_DEPTH depth); by try lia. Qed.
Ltac tag_in := unfold TAGS; repeat (left || right).
(** A leaf goes through its tag, or through plain JSON. *)
Lemma leaf_roundtrip d depth : match d with DArray _ | DObject _ => False | _ => True end → doc_ok d → ext_ok d → check_at d depth = Ok tt →
  from_extended (to_extended_json d) depth = Ok d.
Proof.
  intros Hleaf Hok He Hc. pose proof (check_depth _ _ Hc) as Hd. pose proof (ltb_f MAX_DEPTH depth Hd) as Hdb.
  destruct d as [|b|i|f|x|s|x|t|t|items|m]; cbn [to_extended_json to_plain_json]; try done.
  - cbn [from_extended]. by rewrite Hdb.
  - cbn [from_extended]. by rewrite Hdb.
  - cbn [from_extended]. rewrite Hdb, from_i64_as by done. done.
  - cbn [check_at] in Hc. rewrite Hdb in Hc. destruct (f_finite f) eqn:Ef; [|done]. destruct (from_f64_as f Hok Ef) as (n & En & E1 & _ & E3 & E4).
    unfold float_json. rewrite En. cbn [from_option from_extended]. by rewrite Hdb, E1, E4, E3.
  - rewrite tagged_leaf by (done || tag_in). cbn [typed_leaf]. unfold typed_leaf. rewrite bool_decide_eq_true_2 by done. by rewrite parse_decimal_text.
  - cbn [from_extended]. by rewrite Hdb.
  - rewrite tagged_leaf by (done || tag_in). unfold typed_leaf. rewrite bool_decide_eq_false_2, bool_decide_eq_true_2 by done. by rewrite parse_date_text.
  - rewrite tagged_leaf by (done || tag_in). unfold typed_leaf. rewrite !bool_decide_eq_false_2 by done.
    cbn [check_at] in Hc. rewrite Hdb in Hc. destruct (whole_ms (dt_nanosecond t)) eqn:Et; [|done].
    rewrite !parse_datetime_iso by done. cbn [mbind result_bind]. unfold same_instant. rewrite !Z.eqb_refl. cbn [negb andb].
    apply whole_ms_spec in Et as [? ?]; [|apply dt_nanos_range]. by rewrite from_millis.
  - rewrite tagged_leaf by (done || tag_in). unfold typed_leaf. rewrite !(bool_decide_eq_false_2 (lit "$time" = _)), bool_decide_eq_true_2 by done.
    cbn [check_at] in Hc. rewrite Hdb in Hc. destruct (whole_ms (t_nanosecond t)) eqn:Et; [|done]. rewrite parse_time_text by done. cbn [mbind result_bind].
    pose proof (t_nanos_range t). apply whole_ms_spec in Et as [Hlt Hm]; [|lia].
    assert (t_nanosecond t / 1000000 * 1000000 = t_nanosecond t) as -> by (pose proof (Z.div_mod (t_nanosecond t) 1000000 ltac:(done)); lia).
    by rewrite with_same_nanosecond by apply Hlt.
Qed.
Lemma ext_roundtrip_at d : ∀ depth, doc_ok d → ext_ok d → check_at d depth = Ok tt → from_extended (to_extended_json d) depth = Ok d.
Proof.
  induction d as [d Hl|items IH|m IH] using doc_ind'; intros depth Hok He Hc; [by apply leaf_roundtrip| |];
    pose proof (check_depth _ _ Hc) as Hd; pose proof (ltb_f MAX_DEPTH depth Hd) as Hdb; cbn [check_at] in Hc; rewrite Hdb in Hc; apply try_for_each_ok in Hc;
    cbn [to_extended_json from_extended]; rewrite Hdb.
  - cbn [doc_ok ext_ok] in *. rewrite all_Forall in Hok, He. rewrite collect_ok; [done|]. rewrite Forall_forall in *. intros x Hx. apply IH; auto.
  - cbn [doc_ok ext_ok] in *. destruct Hok as [Hn Hok]. rewrite all_Forall in Hok, He. rewrite tag_of_escaped.
    rewrite (collect_ok _ (fun kv => (escape_key kv.1, to_extended_json kv.2)) m).
    + cbn [mbind result_bind]. rewrite fold_insert; [done|]. exact Hn.
    + rewrite Forall_forall in *. intros [k v] Hx. cbn [fst snd]. rewrite unescape_escape. cbn [mbind result_bind].
      rewrite (IH (k, v) Hx); [done|by apply (Hok (k, v))|by apply (He (k, v))|by apply (Hc (k, v))].
Qed.
(** C31: a document sent to a program in extended JSON and sent back is the
    same document, type by type and member by member: a member of the data is
    never taken for a tag, a float never for an integer. *)
Theorem ext_json_roundtrip d : doc_ok d → ext_ok d → check d = Ok tt → from_extended_json (to_extended_json d) = Ok d.
Proof. apply ext_roundtrip_at. Qed.

(** ** Plain JSON *)
Context `{LD : !DecimalsLaws} `{LJ : !JsonNumbersLaws}.
(** What JSON can hold comes back from plain JSON; the integers above the
    signed ones come back as the decimal of that integer. *)
Fixpoint plain_ok (d : Doc) : Prop :=
  match d with
  | DDecimal d => ∀ u, u64_beyond_i64 d = Some u → d = dec_from_u64 u
  | DArray items => all plain_ok items
  | DObject m => all (fun kv => plain_ok kv.2) m
  | _ => True
  end.
Lemma plain_roundtrip d : ∀ depth, doc_ok d → plain_ok d → json_encodable d = true → check_at d depth = Ok tt → from_json (to_plain_json d) = d.
Proof.
  induction d as [d Hl|items IH|m IH] using doc_ind'; intros depth Hok Hp Hj Hc; pose proof (check_depth _ _ Hc) as Hd; pose proof (ltb_f MAX_DEPTH depth Hd) as Hdb.
  - destruct d as [|b|i|f|x|s|x|t|t|items|m]; try done; cbn [to_plain_json json_encodable] in *.
    + cbn [from_json]. by rewrite from_i64_as.
    + cbn [check_at] in Hc. rewrite Hdb in Hc. destruct (f_finite f) eqn:Ef; [|done]. destruct (from_f64_as f Hok Ef) as (n & En & E1 & E2 & E3 & _).
      unfold float_json. rewrite En. cbn [from_option from_json]. by rewrite E1, E2, E3.
    + destruct (u64_beyond_i64 x) as [u|] eqn:Eu; [|done]. cbn [from_json].
      assert (i64_max < u ≤ u64_max) as Hu.
      { revert Eu. unfold u64_beyond_i64. destruct (negb _); [done|]. destruct (Z.leb_spec 0 (mantissa (normalize x))), (Z.leb_spec (mantissa (normalize x)) u64_max),
          (Z.ltb_spec i64_max (mantissa (normalize x))); cbn [andb]; intros [= <-]. done. }
      destruct (from_u64_as u Hu) as [-> ->]. by rewrite (Hp u).
  - cbn [check_at] in Hc. rewrite Hdb in Hc. apply try_for_each_ok in Hc. cbn [doc_ok plain_ok json_encodable to_plain_json from_json] in *.
    rewrite all_Forall in Hok, Hp. rewrite forallb_forall in Hj. f_equal. rewrite map_map. rewrite <- (map_id items) at 2. apply map_ext_in. intros x Hx.
    pose proof Hx as Hx'%list_elem_of_In. rewrite Forall_forall in *. eapply IH; eauto.
  - cbn [check_at] in Hc. rewrite Hdb in Hc. apply try_for_each_ok in Hc. cbn [doc_ok plain_ok json_encodable to_plain_json from_json] in *. destruct Hok as [_ Hok].
    rewrite all_Forall in Hok, Hp. rewrite forallb_forall in Hj. f_equal. rewrite map_map. rewrite <- (map_id m) at 2. apply map_ext_in. intros [k x] Hx.
    pose proof Hx as Hx'%list_elem_of_In. rewrite Forall_forall in *. cbn [fst snd]. f_equal.
    eapply (IH (k, x)); [done|by apply (Hok (k, x))|by apply (Hp (k, x))|by apply (Hj (k, x))|by apply (Hc (k, x))].
Qed.
End roundtrip.

(** ** Numbers, decimals and instants to evaluate *)
Definition number_of (v : Z + Z) : sample_number :=
  match Bool.bool_dec (json_okb v) true with left H => SampleNumber v H | right _ => SampleNumber (inl 0) eq_refl end.
Lemma number_of_value v : json_okb v = true → sn_value (number_of v) = v.
Proof. intros H. unfold number_of. by destruct (Bool.bool_dec _ _). Qed.
#[export] Instance sample_make : JsonMake := {|
  num_from_i64 i := number_of (inl i); num_from_u64 u := number_of (inl u);
  num_from_f64 f := if f_finite f then Some (number_of (inr f)) else None;
  is_f64 n := match sn_value n with inl _ => false | inr _ => true end |}.
#[export] Instance sample_make_laws : JsonMakeLaws.
Proof.
  split; cbn [num_from_i64 num_from_u64 num_from_f64 is_f64 as_i64 as_u64 as_f64 sample_make sample_numbers].
  - intros i [H1 H2]. rewrite number_of_value by (cbn; unfold i64_max, u64_max in *; by rewrite !leb_t by lia). by rewrite leb_t.
  - intros u Hu. rewrite number_of_value by (cbn; unfold i64_min, i64_max, u64_max in *; by rewrite !leb_t by lia).
    unfold i64_max in *. by rewrite leb_f, leb_t by lia.
  - intros f [? ?] Hf. rewrite Hf. eexists. split; [done|]. rewrite number_of_value; [done|]. cbn. by rewrite Hf, leb_t, ltb_t by lia.
Qed.
Definition dec_whole (d : sample_dec) : Z := dec_mag d / 10 ^ dec_scale d.
Definition dec_frac (d : sample_dec) : str := if dec_scale d =? 0 then [] else pad_text (Z.to_nat (dec_scale d)) (dec_mag d mod 10 ^ dec_scale d).
Definition dec_of_text (s : str) : option Decimal :=
  let '(neg, u) := match s with c :: t => if c =? 45 then (true, t) else (false, s) | [] => (false, s) end in
  let '(w, f) := match cut_at 46 u with Some (w, f) => (w, f) | None => (u, []) end in
  n ← read_digits 0 (w ++ f); Some (dec_make neg n (len f)).
#[export] Instance sample_dec_text : DecimalText := {|
  is_sign_negative := dec_neg;
  dec_to_string d := (if dec_neg d then [45] else []) ++ nat_text (dec_whole d) ++ (match dec_frac d with [] => [] | _ => 46 :: dec_frac d end);
  from_str_exact := dec_of_text |}.
Lemma read_digits_from n f : Forall is_digit f → ∀ m, read_digits 0 f = Some m → read_digits n f = Some (n * 10 ^ len f + m).
Proof.
  assert (∀ k n, Forall is_digit f → read_digits (n + k) f = (fun m => k * 10 ^ len f + m) <$> read_digits n f) as H.
  { induction f as [|c f IH]; intros k n' Hf; [cbn [read_digits fmap option_fmap option_map]; change (10 ^ len (@nil Z)) with 1; f_equal; lia|]. apply Forall_cons in Hf as [Hc Hf]. cbn [read_digits]. rewrite digit_some by done. cbn [mbind option_bind].
    replace (10 * (n' + k) + (c - 48)) with (10 * n' + (c - 48) + 10 * k) by lia. rewrite IH by done.
    pose proof (len_nonneg f). rewrite len_cons, Z.pow_add_r by lia. change (10 ^ 1) with 10. generalize (10 ^ len f). intros p.
    destruct (read_digits _ f); cbn [fmap option_fmap option_map]; [|done]. f_equal. ring. }
  intros Hf m Hm. specialize (H n 0 Hf). rewrite Z.add_0_l in H. by rewrite H, Hm.
Qed.
Lemma dec_parts d : 0 ≤ dec_whole d < 10 ^ 40 ∧ Forall is_digit (dec_frac d) ∧ len (dec_frac d) = dec_scale d ∧
  read_digits 0 (nat_text (dec_whole d) ++ dec_frac d) = Some (dec_mag d).
Proof.
  pose proof (dec_ok d) as [Hm Hs]. unfold MAX_SCALE in Hs. assert (0 < 10 ^ dec_scale d) as Hp by (apply Z.pow_pos_nonneg; lia).
  assert (0 ≤ dec_whole d < 10 ^ 40) as Hw.
  { unfold dec_whole. split; [apply Z.div_pos; lia|]. apply Z.le_lt_trans with (dec_mag d); [|lia]. apply Z.div_le_upper_bound; nia. }
  split; [done|]. destruct (nat_text_spec _ Hw) as (Dw & Rw & _). unfold dec_frac. destruct (Z.eqb_spec (dec_scale d) 0) as [E|Hne].
  - split; [constructor|]. split; [by rewrite E|]. rewrite app_nil_r, Rw. unfold dec_whole. rewrite E. by rewrite Z.div_1_r.
  - pose proof (Z.mod_pos_bound (dec_mag d) _ Hp) as Hr. destruct (pad_text_spec (Z.to_nat (dec_scale d)) (dec_mag d mod 10 ^ dec_scale d)) as (Lf & Df & Rf);
      [lia|by rewrite Z2Nat.id by lia|lia|]. split; [done|]. assert (len (pad_text (Z.to_nat (dec_scale d)) (dec_mag d mod 10 ^ dec_scale d)) = dec_scale d) as El by (unfold len; lia).
    split; [done|]. rewrite read_digits_app, Rw. cbn [mbind option_bind]. rewrite (read_digits_from _ _ Df _ Rf), El. f_equal.
    unfold dec_whole. pose proof (Z.div_mod (dec_mag d) (10 ^ dec_scale d) ltac:(lia)). lia.
Qed.
#[export] Instance sample_dec_text_laws : DecimalTextLaws.
Proof.
  split; intros d; destruct (dec_parts d) as (Hw & Df & Lf & Rd); pose proof (nat_text_spec _ Hw) as (Dw & _ & Hl & _);
    cbn [dec_to_string is_sign_negative from_str_exact sample_dec_text mantissa sample_decimals].
  - exists (nat_text (dec_whole d)), (dec_frac d). split; [done|]. split; [|done]. intros E. rewrite E in Hl. by change (len []) with 0 in Hl.
  - intros Hz. assert (∀ u, nat_text (dec_whole d) ++ (match dec_frac d with [] => [] | _ => 46 :: dec_frac d end) = u →
      match cut_at 46 u with Some (w, f) => (w, f) | None => (u, []) end = (nat_text (dec_whole d), dec_frac d)) as Hcut.
    { intros u <-. destruct (dec_frac d) as [|c f]; [by rewrite app_nil_r, cut_at_none by (by apply digits_not_dot)|].
      by rewrite cut_at_first by (by apply digits_not_dot). }
    assert (dec_make (dec_neg d) (dec_mag d) (len (dec_frac d)) = d) as Emake.
    { rewrite Lf. unfold dec_make. destruct d as [neg mag sc Hv]. cbn [dec_neg dec_mag dec_scale]. destruct (Bool.bool_dec _ _) as [Hb|]; [|done].
      f_equal. apply Eqdep_dec.UIP_dec, Bool.bool_dec. }
    unfold dec_of_text. destruct (dec_neg d) eqn:En; cbn [app].
    + rewrite Z.eqb_refl, (Hcut _ eq_refl), Rd. cbn. by rewrite Emake.
    + destruct (nat_text (dec_whole d)) as [|c w] eqn:Ew; [by change (len []) with 0 in Hl|]. cbn [app]. apply Forall_inv in Dw. unfold is_digit in Dw.
      rewrite (proj2 (Z.eqb_neq c 45)) by lia. specialize (Hcut _ eq_refl). cbn [app] in Hcut, Rd. rewrite Hcut. cbn [app]. rewrite Rd. cbn. by rewrite Emake.
Qed.
#[export] Instance plain_rfc : @Rfc3339 plain_chrono plain_calendar := @Build_Rfc3339 plain_chrono plain_calendar
  (fun t : Instant => int_text (bz t)) (fun s => z ← parse_i64 s; of_Z _ _ z) (fun _ _ => None) (fun _ _ => None) (to_ms 0)
  (fun t n => if n =? bz t mod 1000 * 1000000 then Some t else None).
#[export] Instance plain_rfc_laws : @Rfc3339Laws plain_chrono plain_calendar plain_rfc.
Proof.
  split.
  - intros t _ _ _. cbn [iso parse_from_rfc3339 plain_rfc]. rewrite int_text_read by (by vm_compute). apply of_Z_bz.
  - intros t. pose proof (bounded_range _ _ t). pose proof ms_bounds. apply int_text_ascii. lia.
  - intros t _. cbn [with_nanosecond t_nanosecond plain_rfc plain_chrono]. by rewrite Z.eqb_refl.
Qed.
(** [{"$a": [-1, 0.5, 1.50], "at": an instant}] *)
Definition sample_ext : @Doc sample_decimals plain_chrono :=
  DObject [(lit "$a", DArray [DInt (-1); DFloat 0x3FE0000000000000; DDecimal (dec_make false 150 2 : @Decimal sample_decimals)]); (lit "at", DDateTime sample_at)].
Lemma ext_json_roundtrip_witness :
  (doc_ok sample_ext ∧ ext_ok sample_ext ∧ check sample_ext = Ok tt) ∧ from_extended_json (to_extended_json sample_ext) = Ok sample_ext.
Proof.
  assert (doc_ok sample_ext) as H1.
  { cbn [doc_ok sample_ext all]. split; [vm_decide|]. repeat split; unfold in_i64, in_u, i64_min, i64_max; try lia; vm_decide. }
  assert (ext_ok sample_ext) as H2.
  { cbn [ext_ok sample_ext all fst snd]. split; [|split; [|done]]; [split; [done|split; [done|split; [|done]]]; by vm_compute|]. unfold iso_year. by vm_compute. }
  assert (check sample_ext = Ok tt) as H3 by by vm_compute.
  split; [exact (conj H1 (conj H2 H3))|exact (ext_json_roundtrip sample_ext H1 H2 H3)].
Defined.
