(* ===== verification/Numbers.v ===== *)
(** * [src/num.rs]: sums, additions and texts of numbers, without loss *)
From Stdlib Require Import QArith_base.
From S2P Require Import Prelude Utf8 Text DocNum Floats Ordering Kdoc Paths Times Json JsonThm.
Open Scope Z_scope.

(** A JSON number as a float: its own, or the integer rounded. *)
Class JsonFloatLaws `{JsonMake} : Prop := {
  float_laws :: JsonMakeLaws;
  i64_as_f64 n i : as_i64 n = Some i → as_f64 n = Some (f_of_int i);
  u64_as_f64 n u : as_i64 n = None → as_u64 n = Some u → as_f64 n = Some (f_of_int u);
}.

Section numbers.
  Context `{HN : JsonNumbers} `{HM : !JsonMake}.

Definition int_json (i : Z) : option Json :=
  if (i64_min <=? i) && (i <=? i64_max) then Some (JNumber (num_from_i64 i))
  else if (0 <=? i) && (i <=? u64_max) then Some (JNumber (num_from_u64 i)) else None.
Definition float_of (n : Number) : Z := default ZERO (as_f64 n).
Definition add (a b : Number) : result String.string Number :=
  match exact a, exact b with
  | XInt x, XInt y => match int_json (x + y) with Some (JNumber n) => Ok n | _ => Err "the result would be beyond the 64-bit integers"%string end
  | _, _ => let s := f_add (float_of a) (float_of b) in
    if f_finite s then ok_or (num_from_f64 s) "the result would be NaN or infinite"%string else Err "the result would be NaN or infinite"%string
  end.

(** ** A running sum *)
Record Sum := { int : Z; float : Z; fractional : bool }.
Definition Sum_new : Sum := {| int := 0; float := ZERO; fractional := false |}.
Definition push (n : Number) (s : Sum) : Sum :=
  match exact n with
  | XInt i => {| int := sint 128 (int s + i); float := float s; fractional := fractional s |}
  | XFloat f =>
    if f_whole f && negb (f_lt f NEG_TWO_63) && f_lt f TWO_64
    then {| int := sint 128 (int s + clamp (- 2 ^ 127) (2 ^ 127 - 1) (f_trunc f)); float := float s; fractional := fractional s |}
    else {| int := int s; float := f_add (float s) f; fractional := true |}
  end.
Definition exact_int (s : Sum) : option Z := if fractional s then None else Some (int s).
Definition total (s : Sum) : Z := f_add (f_of_int (int s)) (float s).
(** [query::num]: whole floats as integers. *)
Definition num (f : Z) : Json :=
  if f_whole f && f_lt (f_abs f) F_9E15 then JNumber (num_from_i64 (f_trunc f))
  else if f_finite f then match num_from_f64 f with Some n => JNumber n | None => JNull end else JNull.
Definition sum_json (s : Sum) : result String.string Json :=
  if fractional s then Ok (num (total s)) else ok_or (int_json (int s)) "the sum is beyond the 64-bit integers"%string.

(** ** Texts *)
Fixpoint trim_start_zeros (s : str) : str := match s with c :: t => if c =? 48 then trim_start_zeros t else s | [] => [] end.
Fixpoint trim_signs (s : str) : str := match s with c :: t => if (c =? 45) || (c =? 43) then trim_signs t else s | [] => [] end.
(** [s.find(...)]: what is before the first such character, and after it. *)
Fixpoint split_at (p : Z → bool) (s : str) : option (str * str) :=
  match s with [] => None | c :: t => if p c then Some ([], t) else '(a, b) ← split_at p t; Some (c :: a, b) end.
Definition digits (text : str) : option (str * Z) :=
  let s := trim_signs text in
  '(mantissa, exp) ← (match split_at (fun c => (c =? 101) || (c =? 69)) s with
                     | Some (m, e) => e ← parse_i64 e; Some (m, e)
                     | None => Some (s, 0)
                     end);
  let '(whole, frac) := default (mantissa, []) (split_at (fun c => c =? 46) mantissa) in
  let all := whole ++ frac in
  let lead := str_len all - str_len (trim_start_zeros all) in
  let kept := rev (trim_start_zeros (rev (trim_start_zeros all))) in
  if bool_decide (kept = []) then Some ([], 0) else Some (kept, sint 64 (exp + str_len whole - lead - 1)).
(** [format!("{f:e}")] *)
Definition exp_text (f : Z) : str :=
  let '(c, x) := shortest (f_abs f) in
  let ds := nat_text c in
  (if f_sign f then [45] else []) ++ take 1 ds ++ (match drop 1 ds with [] => [] | r => 46 :: r end) ++ [101] ++
  int_text (if c =? 0 then 0 else x + len ds - 1).
Definition exact_f64 (text : str) : option Z :=
  f ← parse_f64 text;
  if negb (f_finite f) then None
  else
    written ← digits text;
    shown ← digits (exp_text f);
    if bool_decide (written = shown) then Some f
    else if f_whole f && f_lt (f_abs f) F_1E38 then
      shown ← digits (nat_text (Z.abs (f_trunc f)));
      if bool_decide (written = shown) then Some f else None
    else None.
Definition exact_json (text : str) : option Json :=
  match parse_i64 text with
  | Some i => Some (JNumber (num_from_i64 i))
  | None =>
    match parse_u64 text with
    | Some u => Some (JNumber (num_from_u64 u))
    | None => f ← exact_f64 text; n ← num_from_f64 f; Some (JNumber n)
    end
  end.
(** ** Integers of a JSON text, before it is parsed *)
Fixpoint skip_string (s : bytes) : bytes :=
  match s with
  | [] => []
  | c :: t => if c =? 34 then t else if c =? 92 then match t with _ :: u => skip_string u | [] => [] end else skip_string t
  end.
Definition in_number (c : Z) : bool := is_digitb c || (c =? 46) || (c =? 101) || (c =? 69) || (c =? 43) || (c =? 45).
Fixpoint number_span (s : bytes) : bytes * bytes :=
  match s with
  | c :: t => if in_number c then let '(d, r) := number_span t in (c :: d, r) else ([], s)
  | [] => ([], [])
  end.
Definition too_big (token : str) : bool :=
  negb (existsb (fun c => (c =? 46) || (c =? 101) || (c =? 69)) token) &&
  bool_decide (parse_i64 token = None) && bool_decide (parse_u64 token = None) && negb (bool_decide (token = [45])).
Fixpoint check_loop (fuel : nat) (s : bytes) : result String.string unit :=
  match fuel, s with
  | S fuel, c :: t =>
    if c =? 34 then check_loop fuel (skip_string t)
    else if (c =? 45) || is_digitb c then
      let '(d, r) := number_span t in
      if too_big (c :: d) then Err "the integer {token} is beyond the 64-bit integers"%string else check_loop fuel r
    else check_loop fuel t
  | _, _ => Ok tt
  end.
Definition check_integers (text : bytes) : result String.string unit := check_loop (length text) text.
End numbers.

(** ** What they give *)
(** The whole number a JSON number holds, if it holds one that a running sum
    adds exactly. *)
Definition whole_value `{JsonMake} (n : Number) : option Z :=
  match exact n with
  | XInt i => Some i
  | XFloat f => if f_whole f && negb (f_lt f NEG_TWO_63) && f_lt f TWO_64 then Some (f_trunc f) else None
  end.
Definition sum_of `{JsonMake} (l : list Number) : Sum := List.fold_left (fun s n => push n s) l Sum_new.
(** The exact value of a JSON number. *)
Definition number_value `{JsonNumbers} (n : Number) : Q := match exact n with XInt i => inject_Z i | XFloat f => f_value f end.

Lemma whole_split f m e : f_parts f = (m, e) → f_finite f = true → f_whole f = true → Qeq (f_value f) (inject_Z (f_trunc f)).
Proof.
  intros E Hf Hw. destruct (f_split f m e E Hf) as (D & t & r & _ & HD & _ & Hr & Ht & Hfr & Hv & _).
  unfold f_whole in Hw. rewrite Hf, Hfr in Hw. cbn [andb Qnum] in Hw. apply Z.eqb_eq in Hw. rewrite Hv, Ht. unfold Qeq, inject_Z. cbn [Qnum Qden].
  rewrite Z2Pos.id by done. destruct (f_sign f); nia.
Qed.
Lemma whole_value_float f : f_finite f = true → f_whole f = true → Qeq (f_value f) (inject_Z (f_trunc f)).
Proof. intros. destruct (f_parts f) as [m e] eqn:E. by eapply whole_split. Qed.
Lemma f_lt_int f x c : Qeq (f_value f) (inject_Z (f_trunc f)) → f_value x = Qmake c 1 → f_lt f x = (f_trunc f <? c).
Proof.
  intros Hv Hx. unfold f_lt. rewrite Hv, Hx. unfold Qcompare, inject_Z, Z.ltb. cbn [Qnum Qden]. by rewrite !Z.mul_1_r.
Qed.
Lemma f_int_lt f x c : Qeq (f_value f) (inject_Z (f_trunc f)) → f_value x = Qmake c 1 → f_lt x f = (c <? f_trunc f).
Proof.
  intros Hv Hx. unfold f_lt. rewrite Hv, Hx. unfold Qcompare, inject_Z, Z.ltb. cbn [Qnum Qden]. by rewrite !Z.mul_1_r.
Qed.
Section sums.
  Context `{HN : JsonNumbers} `{HM : !JsonMake} `{HL : !JsonNumbersLaws}.

Lemma whole_value_ok n v : whole_value n = Some v → Qeq (number_value n) (inject_Z v) ∧ - 2 ^ 63 ≤ v ≤ 2 ^ 64.
Proof.
  unfold whole_value, number_value, exact. destruct (number_cases n) as [(i & -> & Hi)|[(-> & u & -> & Hu)|(-> & -> & f & -> & _ & Hf)]].
  - intros [= <-]. split; [done|]. unfold in_i64, i64_min, i64_max in Hi. lia.
  - intros [= <-]. split; [done|]. unfold u64_max, i64_max in Hu. lia.
  - change (default ZERO (Some f)) with f. destruct (f_whole f) eqn:Hw; [|done]. pose proof (whole_value_float f Hf Hw) as Hv.
    rewrite (f_lt_int f TWO_64 (2 ^ 64)), (f_lt_int f NEG_TWO_63 (- 2 ^ 63)) by (done || vm_compute; reflexivity).
    destruct (Z.ltb_spec (f_trunc f) (- 2 ^ 63)); [done|]. destruct (Z.ltb_spec (f_trunc f) (2 ^ 64)); [|done]. cbn [negb andb].
    intros [= <-]. split; [done|lia].
Qed.
Lemma sint_bounded w x : 0 < w → - 2 ^ (w - 1) ≤ x < 2 ^ (w - 1) → sint w x = x.
Proof.
  intros Hw Hx. assert (2 ^ w = 2 * 2 ^ (w - 1)) as E by (rewrite <- Z.pow_succ_r by lia; f_equal; lia). unfold sint, wrap.
  destruct (Z.lt_ge_cases x 0).
  - assert (x mod 2 ^ w = x + 2 ^ w) as -> by (symmetry; apply (Z.mod_unique_pos _ _ (-1)); lia). rewrite ltb_f by lia. lia.
  - rewrite Z.mod_small by lia. by rewrite ltb_t by lia.
Qed.
Lemma push_whole n v s : whole_value n = Some v → Z.abs (int s) ≤ 2 ^ 126 →
  push n s = {| int := int s + v; float := float s; fractional := fractional s |}.
Proof.
  intros Hv Hs. destruct (whole_value_ok n v Hv) as [_ Hb]. revert Hv. unfold whole_value, push. destruct (exact n) as [i|f].
  - intros [= ->]. by rewrite sint_bounded by lia.
  - destruct (_ && _); [|done]. intros [= Hf]. rewrite Hf. unfold clamp. rewrite Z.min_r, Z.max_r by lia. by rewrite sint_bounded by lia.
Qed.
Lemma sum_fold l : ∀ vs s, mapM whole_value l = Some vs → Z.abs (int s) + len l * 2 ^ 64 ≤ 2 ^ 126 → fractional s = false →
  exact_int (List.fold_left (fun s n => push n s) l s) = Some (int s + foldr Z.add 0 vs).
Proof.
  induction l as [|n l IH]; intros vs s Hm Hb Hf.
  - injection Hm as <-. cbn. unfold exact_int. rewrite Hf. f_equal. lia.
  - apply mapM_Some in Hm. inversion Hm as [|? v ? vs' Hv Hvs]; subst. rewrite len_cons in Hb. pose proof (len_nonneg l). cbn [List.fold_left foldr].
    destruct (whole_value_ok n v Hv) as [_ Hvb]. rewrite (push_whole n v s) by (done || lia).
    rewrite (IH vs'); cbn [int]; [f_equal; lia|by apply mapM_Some|lia|done].
Qed.
End sums.

(** A sum of whole numbers (integers, or floats such as [1.0]) is exact,
    whatever their sizes and their order: it is given as a JSON integer when
    64 bits hold it, and refused when they do not; it is never rounded. *)
Theorem sum_exact `{JsonMake} `{!JsonNumbersLaws} l vs :
  mapM whole_value l = Some vs → len l ≤ 2 ^ 61 →
  Forall2 (fun n v => Qeq (number_value n) (inject_Z v)) l vs ∧
  let s := foldr Z.add 0 vs in
  exact_int (sum_of l) = Some s ∧
  sum_json (sum_of l) =
    if (i64_min <=? s) && (s <=? i64_max) then Ok (JNumber (num_from_i64 s))
    else if (0 <=? s) && (s <=? u64_max) then Ok (JNumber (num_from_u64 s))
    else Err "the sum is beyond the 64-bit integers"%string.
Proof.
  intros Hm Hl. split. { apply mapM_Some in Hm. eapply Forall2_impl; [exact Hm|]. intros n v Hv. by apply whole_value_ok. }
  cbv zeta. assert (exact_int (sum_of l) = Some (foldr Z.add 0 vs)) as E by (apply (sum_fold l vs Sum_new); [done|cbn [Sum_new int]; lia|done]).
  split; [done|]. unfold sum_json, exact_int in *. destruct (fractional (sum_of l)); [done|]. injection E as ->. unfold int_json. by repeat case_match.
Qed.
(** 2^53 + 1, which no float holds, with 2 and 1.0. *)
Lemma sum_exact_witness :
  let n z H : @Number sample_numbers := SampleNumber (inl z) H in
  let l : list (@Number sample_numbers) := [n 9007199254740993 eq_refl; n 2 eq_refl; SampleNumber (inr ONE) eq_refl] in
  sum_json (sum_of l) = Ok (JNumber (num_from_i64 9007199254740996)).
Proof.
  intros n l. destruct (sum_exact l [9007199254740993; 2; 1]) as (_ & _ & E); [by vm_compute|by vm_compute|]. exact E.
Defined.
