(* ===== verification/Value.v ===== *)
(** * [src/value.rs]: typed values, and their bytes

    JSON texts and MessagePack are written and read by [serde_json] and
    [rmp_serde], which are a parameter. *)
From S2P Require Import Prelude Utf8 Text Util Types Compress DocNum Ordering Kdoc Paths PathsThm Times TimesThm Json JsonThm.

Class Serde `{JsonNumbers} := {
  json_to_vec : Json → bytes;
  json_from_slice : bytes → option Json;
  rmp_to_vec : Json → option bytes;
  rmp_from_slice : bytes → option Json;
}.
(** The types of Rust: texts of characters, an object with one member a key. *)
Fixpoint json_ok `{JsonNumbers} (j : Json) : Prop :=
  match j with
  | JString s => valid_str s
  | JArray items => all json_ok items
  | JObject m => NoDup m.*1 ∧ all (fun kv => valid_str kv.1 ∧ json_ok kv.2) m
  | _ => True
  end.
(** The readers refuse what nests too deep. *)
Definition SERDE_DEPTH : nat := 128.
(** Documented: what is written is read back, under the limit of recursion;
    a text that goes over it is refused. *)
Class SerdeLaws `{Serde} : Prop := {
  json_read j : json_ok j → (json_depth j < SERDE_DEPTH)%nat → json_from_slice (json_to_vec j) = Some j;
  json_too_deep j : json_ok j → (SERDE_DEPTH ≤ json_depth j)%nat → json_from_slice (json_to_vec j) = None;
  rmp_read j b : json_ok j → (json_depth j < SERDE_DEPTH)%nat → rmp_to_vec j = Some b → rmp_from_slice b = Some j;
}.

(** ** The texts of numbers *)
Definition is_e (c : Z) : bool := (c =? 101) || (c =? 69).
Definition is_sign (c : Z) : bool := (c =? 43) || (c =? 45).
(** The first value that a [f64] rounds to infinity: halfway past the largest. *)
Definition F64_LIMIT : Z := 2 ^ 1024 - 2 ^ 970.
(** [f.is_finite()] for the [f64] nearest to [0.digits * 10^exp]. *)
Definition parses_finite (whole frac : bytes) (exp : Z) : bool :=
  match read_digits 0 (whole ++ frac) with
  | None => false
  | Some m =>
    let x := exp - len frac in
    (m =? 0) || (if 0 <=? x then m * 10 ^ x <? F64_LIMIT else m <? F64_LIMIT * 10 ^ (- x))
  end.
Definition digits_of (b : bytes) : option (bytes * bytes) := let '(d, r) := span is_digitb b in if bool_decide (d = []) then None else Some (d, r).
Definition is_valid_number (b : bytes) : bool :=
  let b := match b with c :: t => if c =? 45 then t else b | [] => b end in
  match digits_of b with
  | None => false
  | Some (whole, b) =>
    match (match b with c :: t => if c =? 46 then digits_of t else Some ([], b) | [] => Some ([], b) end) with
    | None => false
    | Some (frac, b) =>
      let exp :=
        match b with
        | c :: t =>
          if is_e c then
            let '(neg, t) := match t with s :: u => if is_sign s then (s =? 45, u) else (false, t) | [] => (false, t) end in
            '(d, r) ← digits_of t; n ← read_digits 0 d; Some (if neg : bool then - n else n, r)
          else Some (0, b)
        | [] => Some (0, b)
        end in
      match exp with
      | None => false
      | Some (exp, b) => bool_decide (b = []) && parses_finite whole frac exp
      end
    end
  end.

Section value.
  Context `{HN : JsonNumbers} `{HM : !JsonMake} `{HD : Decimals} `{HF : !DecimalFrom} `{HT : !DecimalText} `{HB : !DecimalBytes}.
  Context `{HC : Chrono} `{HK : !Calendar} `{HR : !Rfc3339} `{HS : !Serde}.

Inductive Value :=
| VStr (s : str)
| VNum (s : str)
| VBool (b : bool)
| VNull
| VDoc (j : Json)
| VTyped (d : Doc)
| VBytes (b : bytes)
| VDate (d : NaiveDate)
| VDateTime (t : DateTime)
| VTime (t : NaiveTime).

Definition ty (v : Value) : Type_ :=
  match v with
  | VStr _ => TString | VNum _ => TNumber | VBool _ => TBoolean | VNull => TNull
  | VDoc j => if is_array j then TArray else TObject
  | VTyped (DArray _) => TArray
  | VTyped _ => TObject
  | VBytes _ => TBytes | VDate _ => TDate | VDateTime _ => TDateTime | VTime _ => TTime
  end.
Definition check_document (d : Doc) : result KivaError unit :=
  match d with
  | DArray _ | DObject _ => match check d with Ok _ => Ok tt | Err e => Err (Invalid e) end
  | _ => Err (Invalid "a document is an array or an object, not a [{}]")
  end.
Definition typed (d : Doc) : result KivaError Value :=
  _ ← check_document d; Ok (if json_encodable d then VDoc (to_plain_json d) else VTyped d).
Definition json_doc (v : Value) : option Json := match v with VDoc j => Some j | VTyped d => Some (to_plain_json d) | _ => None end.
Definition encode_json (j : Json) (msgpack : bool) : result KivaError bytes :=
  if msgpack then ok_or (rmp_to_vec j) (Invalid "MessagePack encoding failed: {e}") else Ok (json_to_vec j).
Definition encode (v : Value) (msgpack : bool) : result KivaError bytes :=
  match v with
  | VTyped d => encode_json (to_plain_json d) msgpack
  | VStr s => Ok (utf8 s)
  | VNum s => Ok (utf8 s)
  | VBool b => Ok (lit (if b then "true" else "false"))
  | VNull => Ok []
  | VDoc j => encode_json j msgpack
  | VBytes b => Ok b
  | VDate d => Ok (utf8 (date_text d))
  | VDateTime t => Ok (utf8 (iso t))
  | VTime t => Ok (utf8 (time_text t))
  end.
Definition encode_doc (j : Json) (msgpack : bool) : result KivaError (bytes * DocEnc) :=
  raw ← encode_json j msgpack; Ok (raw, if msgpack then EncMsgPack else EncJson).
Definition encode_stored (v : Value) (msgpack : bool) : result KivaError (bytes * DocEnc) :=
  match v with
  | VTyped d =>
    _ ← check_document d;
    if json_encodable d then encode_doc (to_plain_json d) msgpack else Ok (Kdoc.encode d, EncKdoc)
  | VDoc j => encode_doc j msgpack
  | _ => raw ← encode v false; Ok (raw, EncJson)
  end.
Definition text_of (raw : bytes) : result KivaError str := ok_or (from_utf8 raw) (Corrupted "value is not valid UTF-8").
Definition corrupted {A} (r : result String.string A) : result KivaError A := match r with Ok a => Ok a | Err e => Err (Corrupted e) end.
Definition decode (t : Type_) (raw : bytes) (enc : DocEnc) : result KivaError Value :=
  if bool_decide (enc = EncKdoc) && negb (Type_is_doc t) then Err (Corrupted "a [{}] marked as a KDOC document")
  else
    match t with
    | TString => s ← text_of raw; Ok (VStr s)
    | TNumber => s ← text_of raw; if negb (is_valid_number (utf8 s)) then Err (Corrupted "stored number is malformed") else Ok (VNum s)
    | TBoolean =>
      if bool_decide (raw = lit "true") then Ok (VBool true)
      else if bool_decide (raw = lit "false") then Ok (VBool false)
      else Err (Corrupted "stored boolean is malformed")
    | TNull => Ok VNull
    | TArray | TObject =>
      match enc with
      | EncKdoc =>
        d ← corrupted (Kdoc.decode raw);
        let ok := match t, d with TArray, DArray _ | TObject, DObject _ => true | _, _ => false end in
        if negb ok then Err (Corrupted "document does not match its type tag")
        else Ok (if json_encodable d then VDoc (to_plain_json d) else VTyped d)
      | _ =>
        j ← (if bool_decide (enc = EncMsgPack) then ok_or (rmp_from_slice raw) (Corrupted "MessagePack document: {e}")
             else ok_or (json_from_slice raw) (Corrupted "JSON document: {e}"));
        let ok := (bool_decide (t = TArray) && is_array j) || (bool_decide (t = TObject) && is_object j) in
        if negb ok then Err (Corrupted "document does not match its type tag") else Ok (VDoc j)
      end
    | TBytes => Ok (VBytes raw)
    | TDate => s ← text_of raw; d ← corrupted (parse_date s); Ok (VDate d)
    | TDateTime => s ← text_of raw; t ← corrupted (parse_datetime s Utc); Ok (VDateTime t)
    | TTime => s ← text_of raw; t ← corrupted (parse_time s); Ok (VTime t)
    end.
(** [Value::from_json], the text of a number apart. *)
Definition BYTES_TAG : str := lit "$bytes".
Definition from_json_value (number_text : Number → str) (j : Json) : Value :=
  match j with
  | JString s => VStr s
  | JNumber n => VNum (number_text n)
  | JBool b => VBool b
  | JNull => VNull
  | JObject [(k, v)] =>
    if bool_decide (k = BYTES_TAG) then match s ← as_str v; b64_decode s with Some b => VBytes b | None => VDoc j end else VDoc j
  | other => VDoc other
  end.

(** ** What is stored is read back *)
Definition value_ok (v : Value) : Prop :=
  match v with
  | VStr s => valid_str s
  | VNum s => valid_str s ∧ is_valid_number (utf8 s) = true
  | VDoc j => json_ok j ∧ is_array j || is_object j = true ∧ (json_depth j < SERDE_DEPTH)%nat
  | VTyped d => doc_ok d ∧ json_encodable d = false ∧ len (Kdoc.encode d) ≤ u64_max
  | VDateTime t => whole_ms (dt_nanosecond t) = true ∧ iso_year t
  | VTime t => whole_ms (t_nanosecond t) = true
  | _ => True
  end.

Context `{LM : !JsonMakeLaws} `{LT : !DecimalTextLaws} `{LB : !DecimalBytesLaws} `{LC : !ChronoLaws} `{LK : !CalendarLaws} `{LR : !Rfc3339Laws} `{LS : !SerdeLaws}.
Lemma text_of_utf8 s : valid_str s → text_of (utf8 s) = Ok s.
Proof. intros Hs. unfold text_of. by rewrite from_utf8_utf8. Qed.
Lemma date_valid d : valid_str (date_text d).
Proof. apply ascii_valid. apply date_ascii. by repeat constructor. Qed.
Lemma time_valid t : valid_str (time_text t).
Proof. apply ascii_valid. unfold time_text. destruct (_ <=? _); apply time_ascii; by repeat constructor. Qed.
Lemma json_doc_roundtrip j msgpack raw enc : value_ok (VDoc j) → encode_doc j msgpack = Ok (raw, enc) → decode (ty (VDoc j)) raw enc = Ok (VDoc j).
Proof.
  intros (Hj & Hdoc & Hd). unfold encode_doc, encode_json. assert (∀ e, e ≠ EncKdoc → (if bool_decide (e = EncMsgPack) then ok_or (rmp_from_slice raw) (Corrupted "MessagePack document: {e}")
      else ok_or (json_from_slice raw) (Corrupted "JSON document: {e}")) = Ok j → decode (ty (VDoc j)) raw e = Ok (VDoc j)) as Hread.
  { intros e He E. unfold decode, ty. destruct j as [| | | |items|m]; try done; cbn [is_array] in *.
    all: destruct e; try done; cbn [bool_decide decide_rel andb]; by rewrite E. }
  destruct msgpack.
  - destruct (rmp_to_vec j) as [b|] eqn:Eb; cbn; [|done]. intros [= <- <-]. apply Hread; [done|]. by rewrite (rmp_read j b Hj Hd Eb).
  - intros [= <- <-]. apply Hread; [done|]. by rewrite json_read.
Qed.
Lemma typed_roundtrip d : value_ok (VTyped d) → check_document d = Ok tt → decode (ty (VTyped d)) (Kdoc.encode d) EncKdoc = Ok (VTyped d).
Proof.
  intros (Hd & Hj & Hl). unfold check_document. destruct d as [| | | | | | | | |items|m]; try done; (destruct (check _) as [[]|] eqn:Ec; [|done]); intros _;
    unfold decode; cbn [ty Type_is_doc bool_decide decide_rel negb andb]; rewrite decode_encode by done; cbn [corrupted mbind result_bind negb]; by rewrite Hj.
Qed.
Lemma stored_roundtrip v msgpack raw enc : value_ok v → encode_stored v msgpack = Ok (raw, enc) → decode (ty v) raw enc = Ok v.
Proof.
  intros Hv. destruct v as [s|s|b| |j|d|b|d|t|t]; cbn [encode_stored encode mbind result_bind].
  1-4,7-10: intros [= <- <-]; unfold decode; cbn [ty Type_is_doc bool_decide decide_rel negb andb].
  - by rewrite text_of_utf8.
  - destruct Hv as [Hs Hn]. rewrite text_of_utf8 by done. cbn [mbind result_bind]. by rewrite Hn.
  - by destruct b.
  - done.
  - done.
  - rewrite text_of_utf8 by apply date_valid. cbn [mbind result_bind]. by rewrite parse_date_text.
  - destruct Hv as [Hw Hy]. rewrite text_of_utf8 by (apply ascii_valid, iso_ascii). cbn [mbind result_bind]. by rewrite parse_datetime_iso.
  - rewrite text_of_utf8 by apply time_valid. cbn [mbind result_bind]. by rewrite parse_time_text.
  - by apply json_doc_roundtrip.
  - destruct (check_document d) as [[]|] eqn:Ec; [|done]. cbn [mbind result_bind]. pose proof Hv as (_ & Hj & _). rewrite Hj. intros [= <- <-].
    by apply typed_roundtrip.
Qed.
(** C30: a value is read back from its bytes as it was written, with its
    type and the digits of its number: a text, a number, a moment, a
    document as JSON, as MessagePack, or as KDOC when it holds what JSON
    cannot. It is so of the values that value_ok describes: texts of
    characters, numbers that read as numbers, JSON documents (arrays and
    objects) that nest less than 128 levels (deeper ones are written and not
    read back, deep_document_lost), typed documents with distinct keys,
    times in whole milliseconds and, for a moment, a year from 0 to 9999. *)
Theorem value_roundtrip v msgpack raw enc : value_ok v → encode_stored v msgpack = Ok (raw, enc) → decode (ty v) raw enc = Ok v.
Proof. apply stored_roundtrip. Qed.

(** A value made of a document is one that is read back, as long as it does
    not nest to the limit. *)
Lemma typed_ok d v : doc_ok d → json_ok (to_plain_json d) → (json_depth (to_plain_json d) < SERDE_DEPTH)%nat → len (Kdoc.encode d) ≤ u64_max →
  typed d = Ok v → value_ok v.
Proof.
  intros Hd Hj Hdep Hl. unfold typed. destruct (check_document d) as [[]|] eqn:Ec; [|done]. cbn [mbind result_bind]. intros [= <-].
  destruct (json_encodable d) eqn:Ej; [|done]. split; [done|]. split; [|done]. by destruct d.
Qed.

(** ** Documents made too deep *)
Fixpoint nest (k : str) (n : nat) (j : Json) : Json := match n with O => j | S n => JObject [(k, nest k n j)] end.
Lemma set_nested k n (v : Json) : set (JObject []) (repeat (Key k) (S n)) v = (Ok tt, nest k (S n) v).
Proof.
  assert (repeat (Key k) (S n) = repeat (Key k) n ++ [Key k]) as -> by apply repeat_cons.
  unfold set. rewrite (proj2 (split_last_some _ _ _) eq_refl). induction n as [|n IH]; [done|].
  cbn [repeat parent_mut view json_tree m_get default from_option object]. by rewrite IH.
Qed.
Lemma nest_ok k n j : valid_str k → json_ok j → json_ok (nest k n j).
Proof. intros Hk Hj. induction n as [|n IH]; [done|]. cbn [nest json_ok all]. split; [apply NoDup_singleton|done]. Qed.
Lemma nest_depth k n j : json_depth (nest k n j) = (n + json_depth j)%nat.
Proof. induction n as [|n IH]; [done|]. cbn [nest json_depth foldr snd]. rewrite IH. lia. Qed.
(** Setting a field at a path of 128 names makes, in an empty document, a
    document that is stored without an error and that cannot be read: the
    nesting of a JSON document is not checked when it is written, and the
    reader refuses what nests that deep. *)
Theorem deep_document_lost k n v : valid_str k → (SERDE_DEPTH ≤ S n)%nat → json_ok v →
  ∃ j raw, set (JObject []) (repeat (Key k) (S n)) v = (Ok tt, j) ∧ encode_stored (VDoc j) false = Ok (raw, EncJson) ∧
  decode (ty (VDoc j)) raw EncJson = Err (Corrupted "JSON document: {e}").
Proof.
  intros Hk Hn Hv. eexists _, _. split; [apply set_nested|]. split; [done|]. unfold decode. cbn [ty nest is_array Type_is_doc bool_decide decide_rel negb andb].
  change (JObject [(k, nest k n v)]) with (nest k (S n) v). rewrite json_too_deep; [done|by apply nest_ok|]. rewrite nest_depth. lia.
Qed.
End value.

(** ** A reader and a writer of JSON to evaluate: a tree as a number, in bits *)
Section tree_code.
  Context `{HN : JsonNumbers} `{EqDecision Number} `{Countable Number}.
  Abbreviation Leafs := (unit + bool + Number + str)%type.
Fixpoint json_tree_of (j : Json) : gen_tree Leafs :=
  match j with
  | JNull => GenLeaf (inl (inl (inl tt)))
  | JBool b => GenLeaf (inl (inl (inr b)))
  | JNumber n => GenLeaf (inl (inr n))
  | JString s => GenLeaf (inr s)
  | JArray items => GenNode 0 (List.map json_tree_of items)
  | JObject m => GenNode 1 (List.map (fun kv => GenNode 2 [GenLeaf (inr kv.1); json_tree_of kv.2]) m)
  end.
Fixpoint json_of_tree (t : gen_tree Leafs) : Json :=
  match t with
  | GenLeaf (inl (inl (inl _))) => JNull
  | GenLeaf (inl (inl (inr b))) => JBool b
  | GenLeaf (inl (inr n)) => JNumber n
  | GenLeaf (inr s) => JString s
  | GenNode 0 l => JArray (List.map json_of_tree l)
  | GenNode _ l => JObject (List.map (fun t => match t with GenNode _ [GenLeaf (inr k); v] => (k, json_of_tree v) | _ => ([], JNull) end) l)
  end.
Lemma json_of_tree_of j : json_of_tree (json_tree_of j) = j.
Proof.
  revert j. fix IHj 1. intros [| | | |items|m]; try reflexivity; cbn [json_tree_of json_of_tree]; f_equal; rewrite map_map.
  - induction items as [|x items IH]; [reflexivity|]. cbn [List.map]. f_equal; [apply IHj|exact IH].
  - induction m as [|[k x] m IH]; [reflexivity|]. cbn [List.map fst snd]. f_equal; [f_equal; apply IHj|exact IH].
Qed.
Fixpoint pos_bits (p : positive) : bytes := match p with xH => [] | xO p => 0 :: pos_bits p | xI p => 1 :: pos_bits p end.
Fixpoint bits_pos (b : bytes) : positive := match b with [] => xH | x :: b => if x =? 0 then xO (bits_pos b) else xI (bits_pos b) end.
Lemma bits_pos_bits p : bits_pos (pos_bits p) = p.
Proof. induction p as [p IH|p IH|]; cbn; by rewrite ?IH. Qed.
Definition tree_to_vec (j : Json) : bytes := pos_bits (countable.encode (json_tree_of j)).
Definition tree_from_slice (b : bytes) : option Json :=
  t ← countable.decode (bits_pos b); let j := json_of_tree t in if Nat.ltb (json_depth j) SERDE_DEPTH then Some j else None.
Lemma tree_read j : tree_from_slice (tree_to_vec j) = if Nat.ltb (json_depth j) SERDE_DEPTH then Some j else None.
Proof. unfold tree_from_slice, tree_to_vec. rewrite bits_pos_bits, countable.decode_encode. cbn [mbind option_bind]. by rewrite json_of_tree_of. Qed.
#[export] Instance tree_serde : Serde := {| json_to_vec := tree_to_vec; json_from_slice := tree_from_slice; rmp_to_vec j := Some (tree_to_vec j); rmp_from_slice := tree_from_slice |}.
#[export] Instance tree_serde_laws : SerdeLaws.
Proof.
  split; cbn [json_to_vec json_from_slice rmp_to_vec rmp_from_slice tree_serde].
  - intros j _ Hd. rewrite tree_read. by rewrite (proj2 (Nat.ltb_lt _ _)).
  - intros j _ Hd. rewrite tree_read. by rewrite (proj2 (Nat.ltb_ge _ _)).
  - intros j b _ Hd [= <-]. rewrite tree_read. by rewrite (proj2 (Nat.ltb_lt _ _)).
Qed.
End tree_code.
#[export] Instance sample_number_eq_dec : EqDecision (@Number sample_numbers).
Proof.
  intros [a Ha] [b Hb]. destruct (decide (a = b)) as [->|Hn]; [left; f_equal; apply Eqdep_dec.UIP_dec, Bool.bool_dec|right; congruence].
Defined.
#[export] Instance sample_number_countable : Countable (@Number sample_numbers).
Proof.
  refine (inj_countable (fun n => sn_value n) (fun v => match Bool.bool_dec (json_okb v) true with left H => Some (SampleNumber v H) | right _ => None end) _).
  intros [v Hv]. cbn [sn_value]. destruct (Bool.bool_dec _ _) as [Hb|]; [|done]. do 2 f_equal. apply Eqdep_dec.UIP_dec, Bool.bool_dec.
Defined.

Definition sample_value : @Value sample_numbers sample_decimals plain_chrono := VTyped sample_ext.
Lemma sample_value_ok : value_ok sample_value.
Proof.
  split; [|split; [by vm_compute|by vm_compute]]. cbn [doc_ok sample_ext all]. split; [vm_decide|].
  repeat split; unfold in_i64, in_u, i64_min, i64_max; try lia; vm_decide.
Qed.
Lemma value_roundtrip_witness :
  value_ok sample_value ∧ encode_stored sample_value true = Ok (Kdoc.encode sample_ext, EncKdoc) ∧
  decode TObject (Kdoc.encode sample_ext) EncKdoc = Ok sample_value.
Proof.
  assert (encode_stored sample_value true = Ok (Kdoc.encode sample_ext, EncKdoc)) as E by by vm_compute.
  split; [exact sample_value_ok|]. split; [exact E|]. exact (value_roundtrip sample_value true _ _ sample_value_ok E).
Defined.
Lemma deep_document_lost_witness :
  valid_str (lit "a") ∧ (SERDE_DEPTH ≤ S 127)%nat ∧ json_ok (@JNull sample_numbers) ∧
  ∃ j raw, set (JObject []) (repeat (Key (lit "a")) 128) (@JNull sample_numbers) = (Ok tt, j) ∧
  decode (ty (@VDoc sample_numbers sample_decimals plain_chrono j)) raw EncJson = Err (Corrupted "JSON document: {e}").
Proof.
  assert (valid_str (lit "a")) as H1 by (repeat constructor; vm_decide || (unfold is_scalar; left; by vm_compute)). assert (SERDE_DEPTH ≤ S 127)%nat as H2 by done.
  split; [exact H1|]. split; [exact H2|]. split; [exact I|].
  destruct (deep_document_lost (HD := sample_decimals) (HC := plain_chrono) (lit "a") 127 (@JNull sample_numbers) H1 H2 I) as (j & raw & E1 & _ & E3).
  exists j, raw. split; [exact E1|exact E3].
Defined.
