(* ===== verification/View.v ===== *)
(** * [src/view.rs], [SKey::from_leaf] of [src/engine.rs]: documents as indexes
    read them, and the values of the program as those of the engine

    [Engine] is written against two interfaces, what an index reads of a
    document ([Leaves]) and what is stored of a value ([Values]): here they
    are met by the values of [src/value.rs]. An index finds a value by its
    hash and its equality, which hold for the same values as the equality of
    the keys below: a number is the class it hashes as. *)
From Stdlib Require Import QArith_base.
From S2P Require Import Prelude Utf8 Text Util Types Compress DocNum Ordering Kdoc Paths PathsThm Times TimesThm Json JsonThm Value SecIndex Engine.
Open Scope Z_scope.

(** ** Keys of an index, up to the equality of their values *)
#[export] Instance class_eq_dec : EqDecision NumClass.
Proof. solve_decision. Defined.
#[export] Instance class_countable : Countable NumClass.
Proof.
  refine (inj_countable' (fun c => match c with CInteger i => inl i | CDecimal m s => inr (inl (m, s)) | CFloat f => inr (inr f) end)
    (fun x => match x with inl i => CInteger i | inr (inl (m, s)) => CDecimal m s | inr (inr f) => CFloat f end) _). by intros [].
Defined.
Abbreviation Scalar := (unit + bool + NumClass + str)%type.
Definition scalar_tuple (l : list (Scalar + list Scalar)) : Scalar + list Scalar :=
  inr (List.flat_map (fun k => match k with inl s => [s] | inr l => l end) l).

Section view.
  Context `{HN : JsonNumbers} `{HM : !JsonMake} `{HD : Decimals} `{HF : !DecimalFrom} `{HT : !DecimalText} `{HB : !DecimalBytes}.
  Context `{HC : Chrono} `{HK : !Calendar} `{HR : !Rfc3339} `{HS : !Serde}.

Inductive DocView := ViewJson (j : Json) | ViewTyped (d : Kdoc.Doc).
Inductive Leaf := LJson (j : Json) | LDoc (d : Kdoc.Doc).
Definition view_of (v : Value) : option DocView := match v with VDoc j => Some (ViewJson j) | VTyped d => Some (ViewTyped d) | _ => None end.
Definition view_get (v : DocView) (path : list Seg) : option Leaf :=
  match v with ViewJson j => LJson <$> Paths.get j path | ViewTyped d => LDoc <$> Paths.get d path end.
Definition view_json (v : DocView) : Json := match v with ViewJson j => j | ViewTyped d => to_plain_json d end.
Definition leaf_json (l : Leaf) : Json := match l with LJson j => j | LDoc d => to_plain_json d end.
Definition leaf_decimal (l : Leaf) : option Decimal := match l with LDoc (DDecimal d) => Some d | _ => None end.
Definition skey_from_json (j : Json) : option Ordering.SKey :=
  match j with
  | JNull => Some KNull | JBool b => Some (KBool b) | JNumber n => Some (KNum (KJson n)) | JString s => Some (KStr s) | _ => None
  end.
Definition skey_from_leaf (l : Leaf) : option Ordering.SKey :=
  match leaf_decimal l with Some d => Some (KNum (KDecimal d)) | None => skey_from_json (leaf_json l) end.
(** The key up to equality. *)
Definition canon (k : Ordering.SKey) : option Scalar :=
  match k with
  | KNull => Some (inl (inl (inl tt)))
  | KBool b => Some (inl (inl (inr b)))
  | KNum n => Some (inl (inr (num_class (with_num n))))
  | KStr s => Some (inr s)
  | KTuple _ => None
  end.
Definition doc_leaf (d : DocView) (path : list Seg) : option (Scalar + list Scalar) :=
  l ← view_get d path; k ← skey_from_leaf l; inl <$> canon k.

Context `{LD : !DecimalsLaws} `{LJ : !JsonNumbersLaws} `{LF : !DecimalFromLaws}.
Lemma num_canon a b : num_class (with_num a) = num_class (with_num b) ↔ numkey_cmp a b = Eq.
Proof.
  rewrite numkey_cmp_exact, <- Qeq_alt. unfold key_value. destruct (class_exact _ (with_num_ok a)) as [O1 V1], (class_exact _ (with_num_ok b)) as [O2 V2]. split; intros E.
  - by rewrite <- V1, E, V2.
  - apply class_inj; [done..|]. by rewrite V1, E, V2.
Qed.
Definition key_valid (k : Ordering.SKey) : Prop := match k with KStr s => valid_str s | KTuple _ => False | _ => True end.
(** Two keys of documents are one key of the index exactly when the order of
    the program finds them equal. *)
Lemma canon_exact a b : key_valid a → key_valid b → canon a = canon b ↔ skey_cmp a b = Eq.
Proof.
  destruct a as [|x|x|x|], b as [|y|y|y|]; cbn [key_valid canon skey_cmp skey_kind]; intros Ha Hb; try done.
  - rewrite Z.compare_eq_iff. split; [intros [= ->]; done|]. destruct x, y; by intros.
  - rewrite <- num_canon. split; [by intros [= ->]|by intros ->].
  - split; [|intros E%str_cmp_eq; by subst]. intros [= ->]. pose proof (oo_opp _ _ (str_ord (fun _ => True)) y y I I). by destruct (str_cmp y y).
Qed.

(** ** The interfaces of the engine *)
Class Lowercase := { to_lowercase : str → str }.
Context `{HL : !Lowercase}.
#[export] Instance doc_leaves : Leaves | 0 := {|
  Doc := DocView; Path := list Seg; SKey := (Scalar + list Scalar)%type; leaf := doc_leaf;
  lower k := match k with inl (inr s) => inl (inr (to_lowercase s)) | k => k end;
  tuple := scalar_tuple |}.
#[export] Instance program_values : @Values doc_leaves | 0 := {|
  Val := Value; v_ty := ty; encode_stored := Value.encode_stored; decode := Value.decode; as_doc := view_of |}.
Context `{LM : !JsonMakeLaws} `{LT : !DecimalTextLaws} `{LB : !DecimalBytesLaws} `{LC : !ChronoLaws} `{LK : !CalendarLaws} `{LR : !Rfc3339Laws} `{LS : !SerdeLaws}.
#[export] Instance program_values_laws : ValuesLaws.
Proof.
  refine (@Build_ValuesLaws _ _ value_ok _ _ _).
  - intros v msgpack raw enc. apply stored_roundtrip.
  - intros [| | | |j|d| | | |] [w Hw]; try done; cbn [v_ty program_values ty].
    + by destruct (is_array j).
    + by destruct d.
  - intros t raw enc v Hd [w Hw]. destruct (Type_is_doc t) eqn:Et; [done|]. cbn [decode as_doc program_values] in *. unfold Value.decode in Hd.
    assert (∀ (A : Type) (r : result KivaError A) (f : A → Value), (∀ a, view_of (f a) = None) → (a ← r; Ok (f a)) = Ok v → False) as Hno.
    { intros A [a|] f Hf; [|done]. intros [= <-]. by rewrite Hf in Hw. }
    destruct (_ && _); [done|]. destruct t; try done; repeat case_bool_decide; simp_result; try done; repeat case_match; simp_result; done.
Defined.
End view.
