(* ===== verification/Moments.v ===== *)
(** * [src/time.rs], moments in conditions: values that stand for one, how a
    field compares with it, and the parts of a date

    The zone of the session, which the code keeps by thread, is an argument. *)
From S2P Require Import Prelude Utf8 Text DocNum Ordering Kdoc Paths Times Json Value.

Section moments.
  Context `{HN : JsonNumbers} `{HM : !JsonMake} `{HC : Chrono} `{HK : !Calendar} `{HR : !Rfc3339}.

(** ** The order of instants and of times of day *)
Definition t_cmp (a b : NaiveTime) : comparison :=
  then_with (num_seconds_from_midnight a ?= num_seconds_from_midnight b) (t_nanosecond a ?= t_nanosecond b).
Definition wall_cmp (a b : NaiveDate * NaiveTime) : comparison :=
  then_with (days_from_epoch a.1 ?= days_from_epoch b.1) (t_cmp a.2 b.2).
Definition dt_cmp (a b : DateTime) : comparison := wall_cmp (naive_utc a) (naive_utc b).

(** ** Moments *)
Definition ok {A} (r : result msg A) : option A := match r with Ok a => Some a | Err _ => None end.
(** The text under [key] in an object of one member. *)
Definition only_text (key : str) (j : Json) : option str :=
  match j with JObject [kv] => v ← m_get key [kv]; as_str v | _ => None end.
Definition DATETIME : str := lit "$datetime".
Definition TIME : str := lit "$time".
Definition instant_of (zone : Zone) (j : Json) : option DateTime :=
  text ← match j with JString s => Some s | _ => only_text DATETIME j end;
  ok (parse_datetime text zone).
Definition datetime_json (instant : DateTime) : Json := Json.tagged DATETIME (iso instant).
Definition time_json (t : NaiveTime) : Json := Json.tagged TIME (time_text t).
Definition tagged (j : Json) : option (str * str) :=
  match only_text DATETIME j with
  | Some s => Some (DATETIME, s)
  | None => pair TIME <$> only_text TIME j
  end.
Definition compare_tagged (zone : Zone) (field : Json) (tag text : str) : option comparison :=
  if bool_decide (tag = DATETIME) then
    a ← instant_of zone field; b ← ok (parse_datetime text Utc); Some (dt_cmp a b)
  else if bool_decide (tag = TIME) then
    f ← match field with
        | JString s => ok (parse_time s)
        | JObject _ => '(t, s) ← tagged field; if bool_decide (t = TIME) then ok (parse_time s) else None
        | _ => None
        end;
    b ← ok (parse_time text); Some (t_cmp f b)
  else None.

(** ** Parts of a date *)
Inductive TimeFn := FYear | FMonth | FDay | FHour | FMinute | FSecond | FWeekday.
Definition TimeFn_name (f : TimeFn) : str :=
  match f with
  | FYear => lit "year" | FMonth => lit "month" | FDay => lit "day" | FHour => lit "hour" | FMinute => lit "minute"
  | FSecond => lit "second" | FWeekday => lit "weekday"
  end.
Definition ALL_FNS : list TimeFn := [FYear; FMonth; FDay; FHour; FMinute; FSecond; FWeekday].
Definition TimeFn_parse (name : str) : option TimeFn := List.find (fun f => bool_decide (lower name = TimeFn_name f)) ALL_FNS.
(** [d.weekday().number_from_monday()]: the first day of 1970 is a Thursday. *)
Definition weekday (d : NaiveDate) : Z := (days_from_epoch d + 3) mod 7 + 1.
Definition of_date (f : TimeFn) (d : NaiveDate) : option Z :=
  match f with FYear => Some (year d) | FMonth => Some (month d) | FDay => Some (day d) | FWeekday => Some (weekday d) | _ => None end.
Definition of_time (f : TimeFn) (t : NaiveTime) : option Z :=
  match f with FHour => Some (hour t) | FMinute => Some (minute t) | FSecond => Some (second t) | _ => None end.
Definition of_wall (f : TimeFn) (w : NaiveDate * NaiveTime) : option Z :=
  match of_date f w.1 with Some n => Some n | None => of_time f w.2 end.
Definition TimeFn_of (zone : Zone) (f : TimeFn) (v : Json) : option Z :=
  text ← match v with JString s => Some s | JObject _ => snd <$> tagged v | _ => None end;
  match parse_date text with
  | Ok d => of_date f d
  | Err _ =>
    match parse_time text with
    | Ok t => of_time f t
    | Err _ => at_ ← ok (parse_datetime text zone); of_wall f (wall zone at_)
    end
  end.
Definition of_value `{HS : !Serde} `{Decimals} (zone : Zone) (f : TimeFn) (v : Value) : option Z :=
  match v with
  | VDateTime i => of_wall f (wall zone i)
  | VDate d => of_date f d
  | VTime t => of_time f t
  | VStr s => TimeFn_of zone f (JString s)
  | _ => None
  end.

(** ** Durations, in nanoseconds; [None]: not a unit, or beyond an [i32] *)
Definition UNITS : list (Z * list str) :=
  [(1000000, [lit "ms"; lit "millisecond"; lit "milliseconds"]);
   (1000000000, [lit "s"; lit "sec"; lit "second"; lit "seconds"]);
   (60 * 1000000000, [lit "min"; lit "minute"; lit "minutes"]);
   (3600 * 1000000000, [lit "h"; lit "hour"; lit "hours"]);
   (86400 * 1000000000, [lit "d"; lit "day"; lit "days"]);
   (7 * 86400 * 1000000000, [lit "w"; lit "week"; lit "weeks"])].
Definition in_i32 (n : Z) : bool := (- 2 ^ 31 <=? n) && (n <? 2 ^ 31).
Definition duration (n : Z) (unit : str) : option Z :=
  per ← fst <$> List.find (fun u => bool_decide (lower unit ∈ u.2)) UNITS;
  if in_i32 n then Some (per * n) else None.

(** ** A year, from its first instant to that of the next one *)
Definition year_start (zone : Zone) (y : Z) : option DateTime :=
  if in_i32 y then d ← from_ymd_opt y 1 1; instant zone (d, MIN_TIME) else None.
Definition year_bounds (zone : Zone) (y : Z) : option (DateTime * DateTime) :=
  from ← year_start zone y; to ← year_start zone (y + 1); Some (from, to).
End moments.
