(* ===== verification/DocEq.v ===== *)
(** * Equality: [cmp_scalar] and [==] of [src/doc.rs], [==] of [src/value.rs]

    Typed documents are equal by the values of their numbers, whatever the
    kinds; JSON ones as [serde_json] compares them, a number by its kind and
    its value. Objects are equal member by member, in any order. *)
From Stdlib Require Import QArith_base.
From S2P Require Import Prelude Utf8 Text DocNum Ordering Kdoc Paths Times Json Value Moments.
Open Scope Z_scope.

Definition is_eq (c : comparison) : bool := match c with Eq => true | _ => false end.
Definition list_eqb {A} (f : A → A → bool) : list A → list A → bool :=
  fix go l m := match l, m with [], [] => true | x :: l, y :: m => f x y && go l m | _, _ => false end.
(** Members found in another object, under [f]. *)
Definition members_in {T} (f : T → T → bool) (m : list (str * T)) (l : list (str * T)) : bool :=
  forallb (fun kv => match m_get kv.1 m with Some w => f kv.2 w | None => false end) l.
Definition members_eqb {T} (f : T → T → bool) (l m : list (str * T)) : bool := (len l =? len m) && members_in f m l.

Section eq.
  Context `{HN : JsonNumbers} `{HM : !JsonMake} `{HD : Decimals} `{HF : !DecimalFrom} `{HT : !DecimalText} `{HB : !DecimalBytes}.
  Context `{HC : Chrono} `{HK : !Calendar} `{HR : !Rfc3339} `{HS : !Serde}.

(** ** Typed documents *)
Definition as_num (d : Doc) : option Num :=
  match d with DInt i => Some (NInt i) | DFloat f => Some (NFloat f) | DDecimal d => Some (NDecimal d) | _ => None end.
Definition rank (d : Doc) : Z :=
  match d with
  | DNull => 0 | DBool _ => 1 | DInt _ | DFloat _ | DDecimal _ => 2 | DDate _ => 3 | DDateTime _ => 4 | DTime _ => 5
  | DStr _ => 6 | DArray _ | DObject _ => 7
  end.
Definition within_kind (a b : Doc) : comparison :=
  match a, b with
  | DBool x, DBool y => Z.b2z x ?= Z.b2z y
  | DDate x, DDate y => days_from_epoch x ?= days_from_epoch y
  | DDateTime x, DDateTime y => dt_cmp x y
  | DTime x, DTime y => t_cmp x y
  | DStr x, DStr y => str_cmp x y
  | _, _ => match as_num a, as_num b with Some x, Some y => cmp_num x y | _, _ => Eq end
  end.
Definition cmp_scalar (a b : Doc) : option comparison :=
  if (rank a =? 7) || (rank b =? 7) then None else Some (then_with (rank a ?= rank b) (within_kind a b)).
Fixpoint doc_eqb (a b : Doc) : bool :=
  match a, b with
  | DArray x, DArray y => list_eqb doc_eqb x y
  | DObject x, DObject y => members_eqb doc_eqb x y
  | _, _ => bool_decide (cmp_scalar a b = Some Eq)
  end.

(** ** JSON documents, and values *)
Definition num_eqb (a b : Number) : bool :=
  match exact a, exact b with
  | XInt x, XInt y => x =? y
  | XFloat x, XFloat y => is_eq (Qcompare (f_value x) (f_value y))
  | _, _ => false
  end.
Fixpoint json_eqb (a b : Json) : bool :=
  match a, b with
  | JNull, JNull => true
  | JBool x, JBool y => eqb x y
  | JNumber x, JNumber y => num_eqb x y
  | JString x, JString y => bool_decide (x = y)
  | JArray x, JArray y => list_eqb json_eqb x y
  | JObject x, JObject y => members_eqb json_eqb x y
  | _, _ => false
  end.
Definition value_eqb (a b : Value) : bool :=
  match a, b with
  | VStr x, VStr y | VNum x, VNum y => bool_decide (x = y)
  | VBool x, VBool y => eqb x y
  | VNull, VNull => true
  | VDoc x, VDoc y => json_eqb x y
  | VTyped x, VTyped y => doc_eqb x y
  | VBytes x, VBytes y => bool_decide (x = y)
  | VDate x, VDate y => days_from_epoch x =? days_from_epoch y
  | VDateTime x, VDateTime y => is_eq (dt_cmp x y)
  | VTime x, VTime y => is_eq (t_cmp x y)
  | _, _ => false
  end.
End eq.

(** ** Equality is one *)
(** What a document shows of itself: members of one name, numbers that are
    numbers. *)
Section laws.
  Context `{HN : JsonNumbers} `{HM : !JsonMake} `{HD : Decimals} `{HF : !DecimalFrom} `{HT : !DecimalText} `{HB : !DecimalBytes}.
  Context `{HC : Chrono} `{HK : !Calendar} `{HR : !Rfc3339} `{HS : !Serde} `{LD : !DecimalsLaws}.

Fixpoint doc_plain (d : Doc) : Prop :=
  match d with
  | DInt i => in_i64 i
  | DFloat f => in_u 64 f ∧ f_finite f = true
  | DArray items => all doc_plain items
  | DObject m => NoDup m.*1 ∧ all (fun kv => doc_plain kv.2) m
  | _ => True
  end.
Definition scalar_num (d : Doc) : Q := match as_num d with Some n => num_value n | None => 0%Q end.
Definition wall_parts (w : NaiveDate * NaiveTime) : list Z := [days_from_epoch w.1; num_seconds_from_midnight w.2; t_nanosecond w.2].
Definition scalar_parts (d : Doc) : list Z :=
  match d with
  | DBool b => [Z.b2z b]
  | DDate d => [days_from_epoch d]
  | DDateTime t => wall_parts (naive_utc t)
  | DTime t => [num_seconds_from_midnight t; t_nanosecond t]
  | DStr s => utf8 s
  | _ => []
  end.
(** Two scalar values are one: of one kind, with the same number and parts. *)
Definition same_scalar (a b : Doc) : Prop := rank a = rank b ∧ rank a ≠ 7 ∧ (scalar_num a == scalar_num b)%Q ∧ scalar_parts a = scalar_parts b.

Lemma then_eq a b : then_with a b = Eq ↔ a = Eq ∧ b = Eq.
Proof. by destruct a; cbn [then_with]; split; intros; destruct_and?. Qed.
Lemma list_cmp_refl l : list_cmp Z.compare l l = Eq.
Proof. induction l as [|x l IH]; [done|]. cbn [list_cmp]. by rewrite Z.compare_refl. Qed.
Lemma list_cmp_same l m : list_cmp Z.compare l m = Eq ↔ l = m.
Proof. split; [apply list_cmp_eq|intros ->; apply list_cmp_refl]. Qed.
Lemma plain_num d n : doc_plain d → as_num d = Some n → num_ok n.
Proof. destruct d; cbn [doc_plain as_num]; intros Hp [= <-]; try done. Qed.
Lemma t_cmp_same a b : t_cmp a b = Eq ↔ [num_seconds_from_midnight a; t_nanosecond a] = [num_seconds_from_midnight b; t_nanosecond b].
Proof. unfold t_cmp. rewrite then_eq, !Z.compare_eq_iff. split; [by intros [-> ->]|by intros [= -> ->]]. Qed.
Lemma cmp_scalar_same a b : doc_plain a → doc_plain b → cmp_scalar a b = Some Eq ↔ same_scalar a b.
Proof.
  intros Ha Hb. unfold cmp_scalar, same_scalar.
  assert (∀ n m, as_num a = Some n → as_num b = Some m → cmp_num n m = Eq ↔ (scalar_num a == scalar_num b)%Q) as Hn.
  { intros n m En Em. unfold scalar_num. rewrite En, Em, Qeq_alt. by rewrite (cmp_num_value n m (plain_num a n Ha En) (plain_num b m Hb Em)). }
  destruct (Z.eqb_spec (rank a) 7) as [|Hra]; cbn [orb]; [split; [done|tauto]|]. destruct (Z.eqb_spec (rank b) 7) as [|Hrb]; [split; [done|lia]|].
  transitivity (then_with (rank a ?= rank b) (within_kind a b) = Eq); [split; [by intros [= ->]|by intros ->]|].
  rewrite then_eq, Z.compare_eq_iff. destruct (decide (rank a = rank b)) as [Er|]; [|tauto].
  enough (within_kind a b = Eq ↔ (scalar_num a == scalar_num b)%Q ∧ scalar_parts a = scalar_parts b) by tauto.
  destruct a, b; cbn [rank] in *; try lia; cbn [within_kind as_num scalar_parts]; try (rewrite (Hn _ _ eq_refl eq_refl); tauto).
  - unfold scalar_num. cbn. split; [by split|done].
  - rewrite Z.compare_eq_iff. unfold scalar_num. cbn. split; [by intros ->|by intros [_ [= ->]]].
  - unfold scalar_num. cbn [as_num]. unfold str_cmp. rewrite list_cmp_same. split; [by split|tauto].
  - rewrite Z.compare_eq_iff. unfold scalar_num. cbn. split; [by intros ->|by intros [_ [= ->]]].
  - unfold dt_cmp, wall_cmp. rewrite then_eq, Z.compare_eq_iff, t_cmp_same. unfold scalar_num, wall_parts. cbn [as_num].
    split; [by intros [-> [= -> ->]]|by intros [_ [= -> -> ->]]].
  - rewrite t_cmp_same. unfold scalar_num. cbn [as_num]. split; [by split|tauto].
Qed.
Lemma same_scalar_refl a : rank a ≠ 7 → same_scalar a a.
Proof. by split. Qed.
Lemma same_scalar_sym a b : same_scalar a b → same_scalar b a.
Proof. intros (E & H7 & Eq & Ep). split; [done|]. split; [congruence|]. by split; symmetry. Qed.
Lemma same_scalar_trans a b c : same_scalar a b → same_scalar b c → same_scalar a c.
Proof. intros (E & H7 & Eq & Ep) (E' & _ & Eq' & Ep'). split; [congruence|]. split; [done|]. split; [by rewrite Eq|congruence]. Qed.

(** A document is an array, an object or a scalar. *)
Lemma doc_eqb_cases a b : doc_eqb a b = true →
  (∃ x y, a = DArray x ∧ b = DArray y ∧ list_eqb doc_eqb x y = true) ∨ (∃ x y, a = DObject x ∧ b = DObject y ∧ members_eqb doc_eqb x y = true) ∨
  (rank a ≠ 7 ∧ cmp_scalar a b = Some Eq).
Proof.
  destruct (decide (rank a = 7)) as [E7|E7].
  - destruct a; try done; destruct b; cbn [doc_eqb]; intros E; try (by apply bool_decide_eq_true in E); eauto 10.
  - intros E. right; right. split; [done|]. destruct a; try done; by apply bool_decide_eq_true in E.
Qed.
Lemma doc_eqb_scalar a b : rank a ≠ 7 → doc_eqb a b = bool_decide (cmp_scalar a b = Some Eq).
Proof. by destruct a. Qed.
Lemma list_eqb_Forall2 {A} (f : A → A → bool) l m : list_eqb f l m = true ↔ Forall2 (fun x y => f x y = true) l m.
Proof.
  revert m. induction l as [|x l IH]; intros [|y m]; cbn [list_eqb].
  - split; [constructor|done].
  - split; [done|by intros ?%Forall2_nil_inv_l].
  - split; [done|by intros ?%Forall2_nil_inv_r].
  - rewrite andb_true_iff, (IH m). split; [by intros [? ?]; constructor|by inversion 1].
Qed.
Lemma m_get_In {A} k (m : list (str * A)) v : m_get k m = Some v → (k, v) ∈ m.
Proof. induction m as [|[k' w] m IH]; [done|]. cbn [m_get]. case_decide; [intros [= ->]; subst; by left|]. intros Hm. right. by apply IH. Qed.
Lemma m_get_elem {A} k (m : list (str * A)) v : NoDup m.*1 → (k, v) ∈ m → m_get k m = Some v.
Proof.
  induction m as [|[k' w] m IH]; [by intros _ ?%elem_of_nil|]. cbn [fmap list_fmap fst m_get]. intros [Hn Hd]%NoDup_cons [[= <- <-]|Hin]%elem_of_cons.
  - by rewrite decide_True.
  - rewrite decide_False; [by apply IH|]. intros ->. apply Hn, list_elem_of_fmap. by exists (k, v).
Qed.
Lemma m_get_is_Some {A} k (m : list (str * A)) : is_Some (m_get k m) ↔ k ∈ m.*1.
Proof.
  split.
  - intros [v Hv%m_get_In]. apply list_elem_of_fmap. by exists (k, v).
  - induction m as [|[k' w] m IH]; [by intros ?%elem_of_nil|]. cbn [m_get fmap list_fmap fst]. case_decide; [done|]. intros [->|Hin]%elem_of_cons; [done|by apply IH].
Qed.
Definition members_rel {A} (R : A → A → Prop) (x y : list (str * A)) : Prop :=
  ∀ k, match m_get k x, m_get k y with Some v, Some w => R v w | None, None => True | _, _ => False end.
Lemma members_eqb_rel {A} (f : A → A → bool) x y : NoDup x.*1 → NoDup y.*1 →
  members_eqb f x y = true ↔ members_rel (fun v w => f v w = true) x y.
Proof.
  intros Hx Hy. unfold members_eqb, members_in. rewrite andb_true_iff, Z.eqb_eq, forallb_forall. split.
  - intros [El Hin] k. assert (x.*1 ⊆ y.*1) as Hsub.
    { intros j (v & Hv)%m_get_is_Some. apply m_get_is_Some. apply m_get_In, list_elem_of_In, Hin in Hv. cbn [fst] in Hv. by destruct (m_get j y). }
    assert (x.*1 ≡ₚ y.*1) as Hp.
    { apply submseteq_length_Permutation; [by apply NoDup_submseteq|]. rewrite !length_fmap. unfold len in El. lia. }
    destruct (m_get k x) as [v|] eqn:Ex; destruct (m_get k y) as [w|] eqn:Ey; try done.
    + apply m_get_In, list_elem_of_In, Hin in Ex. cbn [fst snd] in Ex. by rewrite Ey in Ex.
    + assert (is_Some (m_get k y)) as [? E] by (apply m_get_is_Some; rewrite <- Hp; by apply m_get_is_Some; eexists). congruence.
    + assert (is_Some (m_get k x)) as [? E] by (apply m_get_is_Some; rewrite Hp; by apply m_get_is_Some; eexists). congruence.
  - intros Hr. split.
    + assert (x.*1 ≡ₚ y.*1) as Hp.
      { apply NoDup_Permutation; [done..|]. intros k. rewrite <- !m_get_is_Some. specialize (Hr k). destruct (m_get k x), (m_get k y); try done; split; by intros []. }
      apply Permutation_length in Hp. rewrite !length_fmap in Hp. unfold len. by rewrite Hp.
    + intros [k v] Hv. cbn [fst snd]. apply list_elem_of_In, m_get_elem in Hv; [|done]. specialize (Hr k). rewrite Hv in Hr. by destruct (m_get k y).
Qed.
Lemma plain_member k m v : doc_plain (DObject m) → m_get k m = Some v → doc_plain v.
Proof. intros [_ Hm]. intros Hv%m_get_In. apply all_Forall in Hm. rewrite Forall_forall in Hm. by apply (Hm (k, v)). Qed.

(** The equality of documents is an equivalence: of a document with
    itself, whichever way round, and through a third one, whatever the order of
    members and the kinds of numbers, which are equal by their exact values. *)
Theorem doc_eq_equivalence :
  (∀ a, doc_plain a → doc_eqb a a = true) ∧
  (∀ a b, doc_plain a → doc_plain b → doc_eqb a b = doc_eqb b a) ∧
  (∀ a b c, doc_plain a → doc_plain b → doc_plain c → doc_eqb a b = true → doc_eqb b c = true → doc_eqb a c = true) ∧
  (∀ a b x y, as_num a = Some x → as_num b = Some y → doc_plain a → doc_plain b → doc_eqb a b = true ↔ (num_value x == num_value y)%Q).
Proof.
  assert (∀ a, doc_plain a → doc_eqb a a = true) as Hrefl.
  { induction a as [a Hleaf|items IH|m IH] using doc_ind'; intros Hp.
    - rewrite doc_eqb_scalar by (by destruct a). apply bool_decide_eq_true, cmp_scalar_same; [done..|]. apply same_scalar_refl. by destruct a.
    - cbn [doc_eqb doc_plain] in *. apply list_eqb_Forall2. apply all_Forall in Hp. induction items as [|x l IHl]; [done|].
      apply Forall_cons in Hp as [? ?], IH as [? ?]. constructor; auto.
    - pose proof Hp as [Hn Hm]. cbn [doc_eqb]. apply members_eqb_rel; [done..|]. intros k. destruct (m_get k m) as [v|] eqn:E; [|done].
      rewrite Forall_forall in IH. apply (IH (k, v)); [by apply m_get_In|]. by eapply plain_member. }
  assert (∀ a b, doc_plain a → doc_plain b → doc_eqb a b = true → doc_eqb b a = true) as Hsym.
  { induction a as [a Hleaf|items IH|m IH] using doc_ind'; intros b Ha Hb Eab; apply doc_eqb_cases in Eab as [(x & y & Ea & -> & E)|[(x & y & Ea & -> & E)|[H7 E]]]; subst; try done; try (by destruct H7).
    - rewrite doc_eqb_scalar; [apply bool_decide_eq_true, cmp_scalar_same; [done..|]; by apply same_scalar_sym, cmp_scalar_same|].
      apply cmp_scalar_same in E as (Er & _); [|done..]. congruence.
    - injection Ea as ->. cbn [doc_eqb doc_plain] in *. apply list_eqb_Forall2 in E. apply list_eqb_Forall2. apply all_Forall in Ha, Hb.
      induction E; [done|]. apply Forall_cons in Ha as [? ?], Hb as [? ?], IH as [? ?]. constructor; auto.
    - injection Ea as ->. pose proof Ha as [Hn _]. pose proof Hb as [Hn' _]. cbn [doc_eqb] in *. apply members_eqb_rel in E; [|done..]. apply members_eqb_rel; [done..|].
      intros k. specialize (E k). destruct (m_get k x) as [v|] eqn:Ev, (m_get k y) as [w|] eqn:Ew; try done.
      rewrite Forall_forall in IH. apply (IH (k, v)); [by apply m_get_In|exact (plain_member k x v Ha Ev)|exact (plain_member k y w Hb Ew)|done]. }
  split; [exact Hrefl|]. split.
  { intros a b Ha Hb. destruct (doc_eqb a b) eqn:E; [symmetry; by apply Hsym|]. destruct (doc_eqb b a) eqn:E'; [|done]. apply Hsym in E'; [congruence|done..]. }
  split.
  - induction a as [a Hleaf|items IH|m IH] using doc_ind'; intros b c Ha Hb Hc Eab; apply doc_eqb_cases in Eab as [(x & y & Ea & -> & E)|[(x & y & Ea & -> & E)|[H7 E]]];
      subst; try done; try (by destruct H7); intros Ebc.
    + apply cmp_scalar_same in E; [|done..]. pose proof E as (Er & _). rewrite doc_eqb_scalar in Ebc by congruence. apply bool_decide_eq_true, cmp_scalar_same in Ebc; [|done..].
      rewrite doc_eqb_scalar by done. apply bool_decide_eq_true, cmp_scalar_same; [done..|]. by eapply same_scalar_trans.
    + injection Ea as ->. apply doc_eqb_cases in Ebc as [(x' & z & [= <-] & -> & E')|[(x' & z & ? & _)|[H7 _]]]; [|done|by destruct H7].
      cbn [doc_eqb doc_plain] in *. rewrite list_eqb_Forall2 in *. apply all_Forall in Ha, Hb, Hc. revert z E' Hc. induction E as [|v w x y Hvw E IHl]; intros z E' Hc; [by inversion E'|].
      inversion E'; subst. apply Forall_cons in Ha as [? ?], Hb as [? ?], Hc as [? ?], IH as [IHv ?]. constructor; [by eapply (IHv w)|]. by apply IHl.
    + injection Ea as ->. apply doc_eqb_cases in Ebc as [(x' & z & ? & _)|[(x' & z & [= <-] & -> & E')|[H7 _]]]; [done| |by destruct H7].
      pose proof Ha as [Hn _]. pose proof Hb as [Hn' _]. pose proof Hc as [Hn'' _]. cbn [doc_eqb] in *. apply members_eqb_rel in E, E'; [|done..]. apply members_eqb_rel; [done..|].
      intros k. specialize (E k). specialize (E' k). destruct (m_get k x) as [v|] eqn:Ev, (m_get k y) as [w|] eqn:Ew, (m_get k z) as [u|] eqn:Eu; try done.
      rewrite Forall_forall in IH. apply (IH (k, v)) with w; [by apply m_get_In|exact (plain_member k x v Ha Ev)|exact (plain_member k y w Hb Ew)|exact (plain_member k z u Hc Eu)|done|done].
  - intros a b x y Ex Ey Ha Hb. rewrite doc_eqb_scalar by (by destruct a). rewrite bool_decide_eq_true, cmp_scalar_same by done. unfold same_scalar, scalar_num. rewrite Ex, Ey.
    split; [tauto|]. intros E. destruct a, b; try done.
Qed.
End laws.
