(* ===== verification/Schema.v ===== *)
(** * [src/schema.rs]; [conformed] of [src/engine.rs]: the rules documents
    follow

    A regular expression of the [regex] crate is a parameter. The zone of the
    session is an argument. The filling of defaults, written twice in the code,
    for JSON and for typed documents, is one function over both. Error
    messages keep what does not depend on the document. *)
From Stdlib Require Import QArith_base.
From S2P Require Import Prelude Utf8 Text Util Types Compress Format Crypt Log Cache DocNum Ordering Kdoc Paths PathsThm Times Json Value SecIndex Engine View Moments DocEq.
Open Scope Z_scope.

(** [RegexBuilder] with the bounds of the code, and [is_match]. *)
Class Regexes := { Regex : Type; regex_build : str → option Regex; regex_match : Regex → str → bool }.

Definition MAX_PATTERN_LEN : Z := 1000.
Definition MAX_DEPTH : nat := 16.

(** ** Types *)
Inductive FieldType :=
  FString | FNumber | FInteger | FBoolean | FNull | FArray | FObject | FDate | FDateTime | FTime | FInt | FFloat | FDecimal | FAny.
#[export] Instance field_type_eq_dec : EqDecision FieldType.
Proof. solve_decision. Defined.
Definition FIELD_TYPES : list (str * FieldType) :=
  [(lit "string", FString); (lit "number", FNumber); (lit "integer", FInteger); (lit "boolean", FBoolean); (lit "null", FNull);
   (lit "array", FArray); (lit "object", FObject); (lit "date", FDate); (lit "datetime", FDateTime); (lit "time", FTime);
   (lit "int", FInt); (lit "float", FFloat); (lit "decimal", FDecimal); (lit "any", FAny)].
Definition FieldType_parse (s : str) : option FieldType := m_get s FIELD_TYPES.
Definition FieldType_name (t : FieldType) : str :=
  match t with
  | FString => lit "string" | FNumber => lit "number" | FInteger => lit "integer" | FBoolean => lit "boolean" | FNull => lit "null"
  | FArray => lit "array" | FObject => lit "object" | FDate => lit "date" | FDateTime => lit "datetime" | FTime => lit "time"
  | FInt => lit "int" | FFloat => lit "float" | FDecimal => lit "decimal" | FAny => lit "any"
  end.

Definition is_some {A} (o : option A) : bool := match o with Some _ => true | None => false end.
Definition KNOWN_KEYS : list str :=
  [lit "type"; lit "required"; lit "nullable"; lit "unique"; lit "min"; lit "max"; lit "minLength"; lit "maxLength"; lit "minItems";
   lit "maxItems"; lit "enum"; lit "pattern"; lit "default"; lit "properties"; lit "items"].
Definition join (prefix name : str) : str := if bool_decide (prefix = []) then name else prefix ++ [DOT] ++ name.

Section schema.
  Context `{HN : JsonNumbers} `{HM : !JsonMake} `{HD : Decimals} `{HF : !DecimalFrom} `{HT : !DecimalText} `{HB : !DecimalBytes}.
  Context `{HC : Chrono} `{HK : !Calendar} `{HR : !Rfc3339} `{HS : !Serde} `{HG : !Regexes}.
  Context (zone : Zone).

(** An ISO 8601 moment that carries its offset; [s.get(10..)] is nothing when
    the tenth byte is inside a character. *)
Definition is_instant (s : str) : bool :=
  let s := Utf8.trim s in
  let b := utf8 s in
  let tail := if Nat.leb 10 (length b) && negb (from_option is_cont false (b !! 10%nat)) then drop 10 b else [] in
  let ends c := match last s with Some l => l =? c | None => false end in
  (ends (chr "Z") || ends (chr "z") || existsb (fun c => c =? chr "+") tail || existsb (fun c => c =? chr "-") tail) &&
  is_some (ok (parse_datetime s Utc)).
Definition text_is {A} (parse : str → result msg A) (v : Json) : bool := match as_str v with Some s => is_some (ok (parse s)) | None => false end.
Definition whole_f64 (f : Z) : bool := Qnum (f_fract f) =? 0.
Definition accepts (t : FieldType) (v : Json) : bool :=
  match t with
  | FString => is_some (as_str v)
  | FNumber => match v with JNumber _ => true | _ => false end
  | FInteger => match v with JNumber n => from_option whole_f64 false (as_f64 n) | _ => false end
  | FBoolean => match v with JBool _ => true | _ => false end
  | FNull => match v with JNull => true | _ => false end
  | FArray => is_array v
  | FObject => is_object v
  | FDate => text_is parse_date v
  | FDateTime => match as_str v with Some s => is_instant s | None => false end
  | FTime => text_is parse_time v
  | FInt => match v with JNumber n => is_some (as_i64 n) | _ => false end
  | FFloat => match v with JNumber n => is_f64 n | _ => false end
  | FDecimal => match v with JNumber n => is_some (as_u64 n) && negb (is_some (as_i64 n)) | _ => false end
  | FAny => true
  end.
Definition whole_decimal (d : Decimal) : bool := mantissa d mod 10 ^ scale d =? 0.
Definition accepts_doc (t : FieldType) (d : Kdoc.Doc) : bool :=
  match t, d with
  | FAny, _ => true
  | FNumber, (DInt _ | DFloat _ | DDecimal _) => true
  | FInteger, DInt _ => true
  | FInteger, DFloat f => whole_f64 f
  | FInteger, DDecimal x => whole_decimal x
  | FInt, DInt _ | FFloat, DFloat _ | FDecimal, DDecimal _ => true
  | FDate, DDate _ | FDateTime, DDateTime _ | FTime, DTime _ => true
  | _, (DDecimal _ | DDate _ | DDateTime _ | DTime _) => false
  | FArray, DArray _ | FObject, DObject _ => true
  | _, (DArray _ | DObject _) => false
  | ty, scalar => accepts ty (to_plain_json scalar)
  end.
Definition accepts_leaf (t : FieldType) (v : Leaf) : bool := match v with LJson j => accepts t j | LDoc d => accepts_doc t d end.

(** ** Rules *)
Inductive Fill := FillValue (j : Json) | FillNow | FillToday | FillCurrentTime.
Record Basic := {
  r_ty : option FieldType; required : bool; nullable : bool; r_unique : bool; r_min : option Z; r_max : option Z;
  min_length : option Z; max_length : option Z; min_items : option Z; max_items : option Z;
  one_of : option (list Json); r_pattern : option Regex; r_default : option Fill;
}.
Inductive Rule := RuleOf (b : Basic) (properties : option (list (str * Rule))) (items : option Rule).
Abbreviation Fields := (list (str * Rule)).
Definition basic (r : Rule) : Basic := let 'RuleOf b _ _ := r in b.
Definition properties (r : Rule) : option Fields := let 'RuleOf _ p _ := r in p.
Record Schema := { s_pattern : str; spec : Json; fields : Fields }.

(** ** Checking *)
Definition leaf_is_null (v : Leaf) : bool := match v with LJson JNull | LDoc DNull => true | _ => false end.
Definition num_key (v : Leaf) : option NumKey :=
  match v with
  | LJson (JNumber n) => Some (KJson n)
  | LDoc (DDecimal d) => Some (KDecimal d)
  | LDoc ((DInt _ | DFloat _) as d) => match to_plain_json d with JNumber n => Some (KJson n) | _ => None end
  | _ => None
  end.
(** Whether the number is on that side of a bound, which is a float. *)
Definition beyond_bound (v : Leaf) (bound : option Z) (side : comparison) : bool :=
  match num_key v, bound ≫= num_from_f64 with Some n, Some m => bool_decide (cmp_json n m = side) | _, _ => false end.
Definition among (v : Leaf) (values : list Json) : bool :=
  match leaf_decimal v, num_key v with
  | Some _, Some n => existsb (fun x => match x with JNumber m => is_eq (cmp_json n m) | _ => false end) values
  | _, _ => existsb (fun x => json_eqb x (leaf_json v)) values
  end.
Definition below_count (n : Z) (m : option Z) : bool := match m with Some m => n <? m | None => false end.
Definition above_count (n : Z) (m : option Z) : bool := match m with Some m => m <? n | None => false end.
Definition check_items (b : Basic) (n : Z) : result msg unit :=
  if below_count n (min_items b) then Err "{len} items, at least {m} needed"%string
  else if above_count n (max_items b) then Err "{len} items, at most {m} allowed"%string else Ok tt.
Definition check_text (b : Basic) (s : str) : result msg unit :=
  if below_count (len s) (min_length b) then Err "{len} characters, at least {m} needed"%string
  else if above_count (len s) (max_length b) then Err "{len} characters, at most {m} allowed"%string
  else match r_pattern b with
       | Some re => if regex_match re s then Ok tt else Err "{} does not match the pattern {}"%string
       | None => Ok tt
       end.
(** The rules on the value itself; [true]: it is a null let through. *)
Definition null_allowed (b : Basic) (v : Leaf) : bool :=
  leaf_is_null v && (nullable b || bool_decide (r_ty b ∈ [None; Some FNull; Some FAny])).
Definition check_basic (b : Basic) (v : Leaf) : result msg unit :=
  if match r_ty b with Some ty => negb (accepts_leaf ty v) | None => false end then Err "expected {want}, got {}"%string
  else if beyond_bound v (r_min b) Lt then Err "{} is below the minimum {}"%string
  else if beyond_bound v (r_max b) Gt then Err "{} is above the maximum {}"%string
  else match one_of b with
       | Some values => if among v values then Ok tt else Err "{} is not one of {}"%string
       | None => Ok tt
       end.
(** The items and the members of a value. *)
Definition leaf_text (v : Leaf) : option str := match v with LJson (JString s) | LDoc (DStr s) => Some s | _ => None end.
Definition leaf_items (v : Leaf) : option (list Leaf) :=
  match v with LJson (JArray l) => Some (LJson <$> l) | LDoc (DArray l) => Some (LDoc <$> l) | _ => None end.
Definition Lookup : Type := str → option Leaf.
Definition leaf_members (v : Leaf) : option Lookup :=
  match v with
  | LJson (JObject m) => Some (fun n => LJson <$> m_get n m)
  | LDoc (DObject m) => Some (fun n => LDoc <$> m_get n m)
  | _ => None
  end.
Definition check_field (check : Rule → Leaf → result msg unit) (lookup : Lookup) (nr : str * Rule) : result msg unit :=
  match lookup nr.1 with
  | None => if required (basic nr.2) then Err "{path}: required"%string else Ok tt
  | Some v => check nr.2 v
  end.
Fixpoint check_value (r : Rule) (v : Leaf) : result msg unit :=
  let 'RuleOf b properties items := r in
  if null_allowed b v then Ok tt
  else
    _ ← check_basic b v;
    _ ← match leaf_text v with Some s => check_text b s | None => Ok tt end;
    _ ← match leaf_items v with
        | Some l => _ ← check_items b (len l); match items with Some each => try_for_each (check_value each) l | None => Ok tt end
        | None => Ok tt
        end;
    match properties, leaf_members v with
    | Some fields, Some lookup => try_for_each (check_field check_value lookup) fields
    | _, _ => Ok tt
    end.
Definition check_fields (fields : Fields) (lookup : Lookup) : result msg unit := try_for_each (check_field check_value lookup) fields.
Definition check_view (s : Schema) (doc : DocView) : result msg unit :=
  match doc with
  | ViewJson (JObject m) => check_fields (fields s) (fun n => LJson <$> m_get n m)
  | ViewTyped (DObject m) => check_fields (fields s) (fun n => LDoc <$> m_get n m)
  | _ => Err "not a JSON object but {}"%string
  end.

(** ** Filling in the defaults *)
Definition default_value (d : Fill) (now : DateTime) : Json :=
  match d with
  | FillValue v => v
  | FillNow => JString (iso now)
  | FillToday => JString (date_text (wall zone now).1)
  | FillCurrentTime => JString (format_time HMS (wall zone now).2)
  end.
(** What JSON and typed documents have in common here. *)
Class Fillable (T : Type) := { fill_tree :: Tree T; of_json : Json → T; leaf_of : T → Leaf }.
#[export] Instance json_fillable : Fillable Json := {| fill_tree := json_tree; of_json j := j; leaf_of := LJson |}.
#[export] Instance doc_fillable : Fillable Kdoc.Doc := {| fill_tree := doc_tree; of_json := Json.from_json; leaf_of := LDoc |}.

Section fill.
  Context {T : Type} `{HTree : !Fillable T} (now : DateTime).
Definition members_of (t : T) : option (list (str * T)) := match view t with NObject m => Some m | _ => None end.
Definition lookup_in (m : list (str * T)) : Lookup := fun n => leaf_of <$> m_get n m.
Definition fold_members {A B} (f : A → B → result msg B) : list A → B → result msg B :=
  fix go l m := match l with [] => Ok m | x :: l => m ← f x m; go l m end.
Definition add_default (name : str) (b : Basic) (m : list (str * T)) : list (str * T) :=
  match m_get name m, r_default b with None, Some d => m_insert name (of_json (default_value d now)) m | _, _ => m end.
(** One field: its default, then the defaults inside an object. *)
Fixpoint fill_field (r : Rule) (name : str) (m : list (str * T)) : result msg (list (str * T)) :=
  let 'RuleOf b properties _ := r in
  let m := add_default name b m in
  match properties, m_get name m ≫= members_of with
  | Some fields, Some inner =>
    inner ← fold_members (fun nr inner => fill_field nr.2 nr.1 inner) fields inner;
    _ ← check_fields fields (lookup_in inner);
    Ok (m_insert name (object inner) m)
  | _, _ => Ok m
  end.
Definition fill_and_check (fields : Fields) (m : list (str * T)) : result msg (list (str * T)) :=
  m ← fold_members (fun nr m => fill_field nr.2 nr.1 m) fields m;
  _ ← check_fields fields (lookup_in m);
  Ok m.
(** [conform] and [conform_typed] *)
Definition conform (s : Schema) (doc : T) : result msg T :=
  match members_of doc with
  | None => Err "a JSON object is expected, not {}"%string
  | Some m => m ← fill_and_check (fields s) m; Ok (object m)
  end.
End fill.

(** ** Reading a schema *)
Definition as_number_f64 (j : Json) : option Z := match j with JNumber n => as_f64 n | _ => None end.
Definition as_number_u64 (j : Json) : option Z := match j with JNumber n => as_u64 n | _ => None end.
(** The parts of a rule's object: nothing, or what a key holds, read. *)
Definition flag (m : list (str * Json)) (k : str) : result msg bool :=
  match m_get k m with None => Ok false | Some (JBool b) => Ok b | Some _ => Err "{path}: '{k}' is true or false"%string end.
Definition number_at (m : list (str * Json)) (k : str) : result msg (option Z) :=
  match m_get k m with None => Ok None | Some v => Some <$> ok_or (as_number_f64 v) "{path}: '{k}' is a number"%string end.
Definition count_at (m : list (str * Json)) (k : str) : result msg (option Z) :=
  match m_get k m with None => Ok None | Some v => Some <$> ok_or (as_number_u64 v) "{path}: '{k}' is a whole number"%string end.
Definition type_at (m : list (str * Json)) : result msg (option FieldType) :=
  match m_get (lit "type") m with
  | None => Ok None
  | Some (JString s) => Some <$> ok_or (FieldType_parse s) "{path}: unknown type '{s}'"%string
  | Some _ => Err "{path}: 'type' is a name such as {string}"%string
  end.
Definition only (m : list (str * Json)) (what : str) (good : bool) : result msg unit :=
  if is_some (m_get what m) && negb good then Err "{path}: '{what}' applies to {types}: give the field that type"%string else Ok tt.
Definition ordered_pair (lt : Z → Z → bool) (a b : option Z) : bool := match a, b with Some a, Some b => negb (lt b a) | _, _ => true end.
Definition ensure (b : bool) (e : msg) : result msg unit := if b then Ok tt else Err e.
Definition enum_at (m : list (str * Json)) : result msg (option (list Json)) :=
  match m_get (lit "enum") m with
  | None => Ok None
  | Some (JArray []) => Err "{path}: 'enum' needs at least one value"%string
  | Some (JArray values) => Ok (Some values)
  | Some _ => Err "{path}: 'enum' is a list of the values allowed"%string
  end.
Definition pattern_at (m : list (str * Json)) : result msg (option Regex) :=
  match m_get (lit "pattern") m with
  | None => Ok None
  | Some (JString p) =>
    if MAX_PATTERN_LEN <? str_len p then Err "{path}: 'pattern' is at most {MAX_PATTERN_LEN} characters"%string
    else Some <$> ok_or (regex_build p) "{path}: 'pattern' is not a usable regular expression"%string
  | Some _ => Err "{path}: 'pattern' is a regular expression, as a text"%string
  end.
Definition dynamic (ty : option FieldType) (d : Json) : option Fill :=
  match ty, d with
  | Some FDateTime, JString s => if bool_decide (s ∈ [lit "now()"; lit "current_timestamp"]) then Some FillNow else None
  | Some FDate, JString s => if bool_decide (s ∈ [lit "today()"; lit "current_date"]) then Some FillToday else None
  | Some FTime, JString s => if bool_decide (s = lit "current_time") then Some FillCurrentTime else None
  | _, _ => None
  end.
Definition set_default (b : Basic) (d : option Fill) : Basic :=
  {| r_ty := r_ty b; required := required b; nullable := nullable b; r_unique := r_unique b; r_min := r_min b; r_max := r_max b;
     min_length := min_length b; max_length := max_length b; min_items := min_items b; max_items := max_items b; one_of := one_of b;
     r_pattern := r_pattern b; r_default := d |}.
Definition default_at (m : list (str * Json)) (in_items : bool) (r : Rule) : result msg (option Fill) :=
  match m_get (lit "default") m with
  | None => Ok None
  | Some d =>
    if in_items then Err "{path}: an item of an array has no default"%string
    else match dynamic (r_ty (basic r)) d with
         | Some f => Ok (Some f)
         | None => match check_value r (LJson d) with Ok _ => Ok (Some (FillValue d)) | Err e => Err "the default does not follow the rule: {e}"%string end
         end
  end.
(** Everything of a rule but its fields, its items and its default. *)
Definition read_basic (m : list (str * Json)) (in_items : bool) : result msg Basic :=
  _ ← ensure (forallb (fun kv => bool_decide (kv.1 ∈ KNOWN_KEYS)) m) "{path}: unknown rule '{k}'"%string;
  ty ← type_at m;
  required ← flag m (lit "required"); nullable ← flag m (lit "nullable"); uniq ← flag m (lit "unique");
  lo ← number_at m (lit "min"); hi ← number_at m (lit "max");
  lo_len ← count_at m (lit "minLength"); hi_len ← count_at m (lit "maxLength");
  lo_items ← count_at m (lit "minItems"); hi_items ← count_at m (lit "maxItems");
  let numeric := bool_decide (ty ∈ [Some FNumber; Some FInteger; Some FInt; Some FFloat; Some FDecimal]) in
  _ ← only m (lit "min") numeric; _ ← only m (lit "max") numeric;
  let text := bool_decide (ty = Some FString) in
  _ ← only m (lit "minLength") text; _ ← only m (lit "maxLength") text; _ ← only m (lit "pattern") text;
  let array := bool_decide (ty = Some FArray) in
  _ ← only m (lit "minItems") array; _ ← only m (lit "maxItems") array; _ ← only m (lit "items") array;
  _ ← only m (lit "properties") (bool_decide (ty = Some FObject));
  _ ← ensure (ordered_pair f_lt lo hi) "{path}: min ({a}) is above max ({b})"%string;
  _ ← ensure (ordered_pair Z.ltb lo_len hi_len) "{path}: minLength ({a}) is above maxLength ({b})"%string;
  _ ← ensure (negb (uniq && in_items)) "{path}: 'unique' applies to a field, not to the items of an array"%string;
  _ ← ensure (negb (uniq && bool_decide (ty ∈ [Some FArray; Some FObject]))) "{path}: a unique field holds a text, a number, a boolean or a date"%string;
  values ← enum_at m;
  re ← pattern_at m;
  Ok {| r_ty := ty; required := required; nullable := nullable; r_unique := uniq; r_min := lo; r_max := hi; min_length := lo_len;
        max_length := hi_len; min_items := lo_items; max_items := hi_items; one_of := values; r_pattern := re; r_default := None |}.
(** A result for a key, when it is there. *)
Definition read_at {A} (k : str) (m : list (str * result msg A)) : result msg (option A) :=
  match m_get k m with None => Ok None | Some r => Some <$> r end.
(** Each member of a schema as a field. *)
Definition parse_members {A} (f : Json → result msg A) : list (str * Json) → result msg (list (str * A)) :=
  fix go m := match m with
    | [] => Ok []
    | (name, rule) :: m =>
      if bool_decide (name = []) then Err "a field name cannot be empty"%string
      else r ← f rule; rest ← go m; Ok ((name, r) :: rest)
    end.
(** What every member reads as is at hand; only what is asked for counts. *)
Fixpoint parse_fields (depth : nat) (spec : Json) : result msg Fields :=
  match spec with
  | JObject m =>
    if Nat.ltb MAX_DEPTH depth then Err "{prefix}: rules nest at most {MAX_DEPTH} levels deep"%string
    else parse_members (parse_rule depth false) m
  | _ => Err "a schema must be a JSON object"%string
  end
with parse_rule (depth : nat) (in_items : bool) (spec : Json) : result msg Rule :=
  match spec with
  | JObject m =>
    b ← read_basic m in_items;
    props ← read_at (lit "properties") (List.map (fun kv => (kv.1, parse_fields (S depth) kv.2)) m);
    items ← read_at (lit "items") (List.map (fun kv => (kv.1, parse_rule (S depth) true kv.2)) m);
    d ← default_at m in_items (RuleOf b props items);
    Ok (RuleOf (set_default b d) props items)
  | _ => Err "{path}: a rule is a JSON object"%string
  end.
Definition Schema_parse (pattern_ : str) (spec : Json) : result msg Schema :=
  fields ← parse_fields 0 spec;
  if bool_decide (fields = []) then Err "a schema names at least one field"%string
  else Ok {| s_pattern := pattern_; spec := spec; fields := fields |}.

(** ** Unique fields, by their paths *)
Fixpoint unique_of (name : str) (prefix : str) (r : Rule) : list str :=
  let 'RuleOf b props _ := r in
  let path := join prefix name in
  (if r_unique b then [path] else []) ++
  match props with Some fields => List.flat_map (fun nr => unique_of nr.1 path nr.2) fields | None => [] end.
Definition collect_unique (fields : Fields) (prefix : str) : list str := List.flat_map (fun nr => unique_of nr.1 prefix nr.2) fields.
Definition unique_fields (s : Schema) : list str := collect_unique (fields s) [].

(** ** A value about to be written *)
Context `{HA : Aead} `{HZ : Crc} `{HO : Codecs} `{HL : !Lowercase}.
Definition conform_value (s : Schema) (now : DateTime) (doc : Value) : result msg Value :=
  match doc with
  | VDoc j => VDoc <$> conform now s j
  | VTyped d => VTyped <$> conform now s d
  | _ => Err "a JSON object is expected, not a [{}]"%string
  end.
Definition schemas_of (schemas : list Schema) (key : str) : list Schema := List.filter (fun s => glob_match (s_pattern s) key) schemas.
Definition start_of (value : Value) : Value := match value with VDoc _ | VTyped _ => value | _ => VNull end.
(** [conformed]: [None], the value is written as it is. *)
Definition conformed (schemas : list Schema) (key : str) (value : Value) (at_ : DateTime) (now : Z) : M (option Value) := fun i =>
  match schemas_of schemas key with
  | [] => (Ok None, i)
  | mine =>
    match fold_members (fun s doc => conform_value s at_ doc) mine (start_of value) with
    | Ok doc => (Ok (if value_eqb doc value then None else Some doc), i)
    | Err _ =>
      let '(e, i) := live key now i in
      match e with
      | Some e =>
        match value_of key e i with
        | (Ok current, i) => (if value_eqb current value then Ok None else Err (SchemaErr "'{key}' not written: {e} (schema on {})"), i)
        | (Err _, i) => (Err (SchemaErr "'{key}' not written: {e} (schema on {})"), i)
        end
      | None => (Err (SchemaErr "'{key}' not written: {e} (schema on {})"), i)
      end
    end
  end.
End schema.
