(* ===== verification/Query.v ===== *)
(** * [src/query.rs]; comparisons of [src/engine.rs]: the conditions of queries

    The zone of the session is an argument. The text of a condition, for a
    user, is not modelled. *)
From Stdlib Require Import QArith_base.
From S2P Require Import Prelude Utf8 Text Maps DocNum Ordering Kdoc Paths PathText Times Json Value View Select Moments.
Open Scope Z_scope.

(** ** Operators *)
Inductive CmpOp := CEq | CNe | CGt | CGe | CLt | CLe | CIn | CLike | CILike.
#[export] Instance cmp_op_eq_dec : EqDecision CmpOp.
Proof. solve_decision. Defined.
Definition MAX_IN_VALUES : Z := 1024.
Definition CmpOp_parse (s : str) : option CmpOp :=
  if bool_decide (s ∈ [lit "="; lit "=="]) then Some CEq
  else if bool_decide (s ∈ [lit "!="; lit "<>"]) then Some CNe
  else if bool_decide (s = lit ">") then Some CGt
  else if bool_decide (s = lit ">=") then Some CGe
  else if bool_decide (s = lit "<") then Some CLt
  else if bool_decide (s = lit "<=") then Some CLe
  else if same_word s (lit "in") then Some CIn
  else if same_word s (lit "like") then Some CLike
  else if same_word s (lit "ilike") then Some CILike
  else None.
Definition CmpOp_symbol (o : CmpOp) : str :=
  match o with
  | CEq => lit "=" | CNe => lit "!=" | CGt => lit ">" | CGe => lit ">=" | CLt => lit "<" | CLe => lit "<="
  | CIn => lit "in" | CLike => lit "like" | CILike => lit "ilike"
  end.
Definition is_word (o : CmpOp) : bool := match o with CIn | CLike | CILike => true | _ => false end.

(** ** What the language leaves out *)
Inductive Unsupported := Combination | Join | Pipeline | Distributed | Operator.
Definition WORDS : list (Unsupported * list str) :=
  [(Combination, [lit "&&"; lit "||"; lit "!"; lit "xor"]);
   (Join, [lit "join"; lit "inner"; lit "outer"; lit "left"; lit "right"; lit "cross"; lit "natural"; lit "lookup"; lit "on"; lit "using"]);
   (Pipeline, [lit "group"; lit "order"; lit "sort"; lit "by"; lit "having"; lit "distinct"; lit "union"; lit "select"; lit "pipeline";
               lit "aggregate"; lit "offset"]);
   (Distributed, [lit "shard"; lit "shards"; lit "node"; lit "nodes"; lit "cluster"; lit "across"; lit "partition"; lit "distributed"]);
   (Operator, [lit "between"; lit "contains"; lit "matches"; lit "regexp"; lit "rlike"; lit "is"])].
Definition FIELDS : list (Unsupported * list str) :=
  [(Combination, [lit "and"; lit "or"; lit "not"; lit "conditions"; lit "filters"; lit "filter"]);
   (Join, [lit "join"; lit "joins"; lit "lookup"; lit "with"]);
   (Pipeline, [lit "group"; lit "groupby"; lit "order"; lit "orderby"; lit "sort"; lit "pipeline"; lit "distinct"; lit "having";
               lit "offset"; lit "skip"]);
   (Distributed, [lit "shard"; lit "shards"; lit "nodes"; lit "cluster"; lit "distributed"])].
Definition class_of (words : list (Unsupported * list str)) (w : str) : option Unsupported :=
  fst <$> List.find (fun u => bool_decide (lower w ∈ u.2)) words.
Definition unsupported_word (word : str) : option Unsupported :=
  if match word with c :: _ => c =? chr "@" | [] => false end then Some Distributed else class_of WORDS word.
Definition unsupported_request_field (name : str) : option Unsupported := class_of FIELDS name.
Definition is_field_reference (text : str) : bool :=
  match cut_at DOT text with
  | Some (target, field) =>
    existsb (fun c => (c =? chr ":") || (c =? chr "*") || (c =? chr "?")) target && negb (bool_decide (field = []))
  | None => false
  end.

Section query.
  Context `{HN : JsonNumbers} `{HM : !JsonMake} `{HD : Decimals} `{HF : !DecimalFrom} `{HT : !DecimalText} `{HB : !DecimalBytes}.
  Context `{HC : Chrono} `{HK : !Calendar} `{HR : !Rfc3339} `{HL : Lowercase}.
  Context (zone : Zone).

Definition check_request (req : Json) : result msg unit :=
  match req with
  | JObject m => if existsb (fun kv => bool_decide (is_Some (unsupported_request_field kv.1))) m then Err "{u.message()}"%string else Ok tt
  | _ => Ok tt
  end.

(** ** One comparison *)
Record Cond := { c_pattern : str; c_field : str; c_op : CmpOp; c_value : Json; c_func : option TimeFn }.
Definition cond_new (pattern field : str) (op : CmpOp) (value : Json) : Cond :=
  {| c_pattern := pattern; c_field := field; c_op := op; c_value := value; c_func := None |}.
(** [unreachable!()] for the operators answered before. *)
Definition verdict (ord : option comparison) (op : CmpOp) : bool :=
  match ord, op with
  | None, CNe => true
  | None, _ => false
  | Some o, CEq => bool_decide (o = Eq)
  | Some o, CNe => negb (bool_decide (o = Eq))
  | Some o, CGt => bool_decide (o = Gt)
  | Some o, CGe => negb (bool_decide (o = Lt))
  | Some o, CLt => bool_decide (o = Lt)
  | Some o, CLe => negb (bool_decide (o = Gt))
  | Some _, _ => false
  end.
(** Booleans compare for [=] and [!=] only. *)
Definition plain_order (a b : Json) (op : CmpOp) : option comparison :=
  match a, b with
  | JNumber x, JNumber y => Some (cmp x y)
  | JString x, JString y => Some (str_cmp x y)
  | JBool x, JBool y => if bool_decide (op ∈ [CEq; CNe]) then Some (if eqb x y then Eq else Lt) else None
  | JNull, JNull => Some Eq
  | _, _ => None
  end.
(** What is not a list, a pattern or their operators. *)
Definition compare_one (a : Json) (op : CmpOp) (b : Json) : bool :=
  verdict (match tagged b with Some (tag, text) => compare_tagged zone a tag text | None => plain_order a b op end) op.
Definition compare_json (a : Json) (op : CmpOp) (b : Json) : bool :=
  match op, a, b with
  | CIn, _, JArray l => existsb (compare_one a CEq) l
  | (CLike | CILike), JString text, JString pattern => like_match to_lowercase text pattern (bool_decide (op = CILike))
  | (CIn | CLike | CILike), _, _ => false
  | _, _, _ => compare_one a op b
  end.
Definition decimal_one (d : Decimal) (op : CmpOp) (b : Json) : bool :=
  verdict (match b with JNumber n => Some (cmp_json (KDecimal d) n) | _ => None end) op.
Definition compare_decimal (d : Decimal) (op : CmpOp) (b : Json) : bool :=
  match op, b with
  | CIn, JArray l => existsb (decimal_one d CEq) l
  | (CIn | CLike | CILike), _ => false
  | _, _ => decimal_one d op b
  end.
Definition test_json (c : Cond) (v : Json) : bool :=
  match c_func c with
  | Some f => match TimeFn_of zone f v with Some n => compare_json (JNumber (num_from_i64 n)) (c_op c) (c_value c) | None => false end
  | None => compare_json v (c_op c) (c_value c)
  end.
Definition test_leaf (c : Cond) (v : Leaf) : bool :=
  match leaf_decimal v with
  | Some d => if bool_decide (c_func c = None) then compare_decimal d (c_op c) (c_value c) else test_json c (leaf_json v)
  | None => test_json c (leaf_json v)
  end.

(** ** Reading one *)
Definition path_of (field : str) : result msg (list Seg) := default (Err "out of fuel"%string) (parse_path field).
Definition check_field (field : str) : result msg unit :=
  if existsb (fun c => (c =? chr "*") || (c =? chr "?")) field then Err "the field '{field}' contains a wildcard"%string
  else _ ← path_of field; Ok tt.
Definition split_time_fn (field : str) : option TimeFn * str :=
  match ('(name, rest) ← cut_at (chr "(") field; f ← TimeFn_parse name; inner ← strip_suffix (lit ")") rest; Some (f, inner)) with
  | Some (f, inner) => (Some f, Utf8.trim inner)
  | None => (None, field)
  end.
Definition is_scalar_value (v : Json) : bool := negb (is_array v || is_object v) || bool_decide (is_Some (tagged v)).
Definition check_value (op : CmpOp) (value : Json) : result msg unit :=
  match op with
  | CIn =>
    match value with
    | JArray l =>
      if bool_decide (l = []) then Err "'in' needs at least one value"%string
      else if MAX_IN_VALUES <? len l then Err "an 'in' list holds at most {MAX_IN_VALUES} values"%string
      else if forallb is_scalar_value l then Ok tt
      else Err "the values of an 'in' list are strings, numbers, booleans or null"%string
    | _ => Err "'in' takes a list of values"%string
    end
  | CLike | CILike => match value with JString _ => Ok tt | _ => Err "'{}' takes a quoted text pattern"%string end
  | _ => if is_scalar_value value then Ok tt else Err "a condition compares with one string, number, boolean or null"%string
  end.

(** ** Expressions *)
Record Test := { cond : Cond; t_path : list Seg }.
Inductive Expr := ETest (t : Test) | EAnd (parts : list Expr) | EOr (parts : list Expr) | ENot (e : Expr).
Definition flat_of (and : bool) (p : Expr) : list Expr :=
  match p with EAnd v => if and then v else [p] | EOr v => if and then [p] else v | _ => [p] end.
Definition join (parts : list Expr) (and : bool) : Expr :=
  match List.flat_map (flat_of and) parts with
  | [e] => e
  | flat => if and then EAnd flat else EOr flat
  end.
Definition and_ (parts : list Expr) : Expr := join parts true.
Definition or_ (parts : list Expr) : Expr := join parts false.
Definition negate (e : Expr) : Expr := match e with ENot inner => inner | e => ENot e end.

(** [Expr::test], of a comparison with no function ([year_range] gives nothing there). *)
Definition test_plain (c : Cond) : result msg Expr :=
  _ ← check_field (c_field c); _ ← check_value (c_op c) (c_value c);
  path ← path_of (c_field c); Ok (ETest {| cond := c; t_path := path |}).
(** [year(x) = 2026] as a range of instants. *)
Definition year_range (c : Cond) : result msg (option Expr) :=
  match c_func c, c_value c with
  | Some FYear, JNumber n =>
    match y ← as_i64 n; year_bounds zone y with
    | None => Ok None
    | Some (from, to) =>
      let bound op at_ := test_plain (cond_new (c_pattern c) (c_field c) op (datetime_json at_)) in
      match c_op c with
      | CEq => a ← bound CGe from; b ← bound CLt to; Ok (Some (and_ [a; b]))
      | CNe => a ← bound CLt from; b ← bound CGe to; Ok (Some (or_ [a; b]))
      | CGt => a ← bound CGe to; Ok (Some a)
      | CGe => a ← bound CGe from; Ok (Some a)
      | CLt => a ← bound CLt from; Ok (Some a)
      | CLe => a ← bound CLt to; Ok (Some a)
      | _ => Ok None
      end
    end
  | _, _ => Ok None
  end.
Definition test (c : Cond) : result msg Expr :=
  _ ← check_field (c_field c); _ ← check_value (c_op c) (c_value c);
  r ← year_range c;
  match r with
  | Some e => Ok e
  | None => path ← path_of (c_field c); Ok (ETest {| cond := c; t_path := path |})
  end.

(** ** What an expression selects *)
Fixpoint matches_view (e : Expr) (doc : DocView) : bool :=
  match e with
  | ETest t => match view_get doc (t_path t) with Some v => test_leaf (cond t) v | None => false end
  | EAnd v => forallb (fun e => matches_view e doc) v
  | EOr v => existsb (fun e => matches_view e doc) v
  | ENot e => negb (matches_view e doc)
  end.
(** Its comparisons, and whether each is under a [not]. *)
Fixpoint walk (negated : bool) (e : Expr) : list (Cond * bool) :=
  match e with
  | ETest t => [(cond t, negated)]
  | EAnd v | EOr v => List.flat_map (walk negated) v
  | ENot e => walk (negb negated) e
  end.
Definition conditions (e : Expr) : list Cond := (walk false e).*1.
Definition positive_conditions (e : Expr) : list Cond := (List.filter (fun cn => negb cn.2) (walk false e)).*1.
Fixpoint depth (e : Expr) : Z :=
  match e with
  | ETest _ => 0
  | EAnd v | EOr v => 1 + foldr (fun e n => Z.max (depth e) n) 0 v
  | ENot e => 1 + depth e
  end.
Definition MAX_CONDITIONS : Z := 64.
Definition MAX_DEPTH : Z := 16.
Definition check_size (e : Expr) : result msg unit :=
  if MAX_CONDITIONS <? len (conditions e) then Err "a query holds at most {MAX_CONDITIONS} comparisons"%string
  else if MAX_DEPTH <? depth e then Err "a query nests and / or / not at most {MAX_DEPTH} levels deep"%string
  else Ok tt.

(** ** The condition of a structured request *)
Definition SHAPE : msg := "a condition is ..."%string.
Definition leaf_of (pattern field : str) (op : CmpOp) (value : Json) : result msg Expr :=
  let '(func, field) := split_time_fn field in
  let field := default field (strip_prefix pattern field ≫= strip_prefix (lit ".")) in
  test {| c_pattern := pattern; c_field := field; c_op := op; c_value := value; c_func := func |}.
Definition LOGIC : list str := [lit "and"; lit "or"; lit "not"].
Definition op_for (v : Json) : CmpOp := if is_array v then CIn else CEq.
Definition field_of_json (pattern : str) (f : Json) (m : list (str * Json)) : result msg Expr :=
  if negb (forallb (fun kv => bool_decide (kv.1 ∈ [lit "field"; lit "cmp"; lit "value"])) m) then Err "unknown key in a condition"%string
  else
    field ← ok_or (as_str f) "'field' must be a string"%string;
    op ← ok_or (CmpOp_parse (default (lit "=") (m_get (lit "cmp") m ≫= as_str))) "cmp must be one of {}"%string;
    value ← ok_or (m_get (lit "value") m) "the condition on {field} needs a 'value'"%string;
    leaf_of pattern field op value.
(** [lvl]: how many levels it may still nest, this one included. *)
Fixpoint from_json_at (pattern : str) (lvl : nat) (j : Json) : result msg Expr :=
  match lvl with
  | O => Err "a query nests and / or / not at most {MAX_DEPTH} levels deep"%string
  | S lvl =>
    let items v :=
      match v with
      | JArray l => if bool_decide (l = []) then Err "takes a non-empty array"%string else collect (from_json_at pattern lvl) l
      | _ => Err "takes a non-empty array"%string
      end in
    match j with
    | JArray _ => l ← items j; Ok (and_ l)
    | JObject m =>
      match List.find (fun k => bool_decide (is_Some (m_get k m))) LOGIC with
      | Some k =>
        match m with
        | [(_, v)] =>
          if bool_decide (k = lit "and") then l ← items v; Ok (and_ l)
          else if bool_decide (k = lit "or") then l ← items v; Ok (or_ l)
          else e ← from_json_at pattern lvl v; Ok (negate e)
        | _ => Err "'{k}' must be alone in its object"%string
        end
      | None =>
        match m_get (lit "field") m with
        | Some f => field_of_json pattern f m
        | None =>
          if bool_decide (m = []) then Err SHAPE
          else l ← collect (fun kv => leaf_of pattern kv.1 (op_for kv.2) kv.2) m; Ok (and_ l)
        end
      end
    | _ => Err SHAPE
    end
  end.
Definition from_json (j : Json) (pattern : str) : result msg Expr :=
  e ← from_json_at pattern (Z.to_nat (MAX_DEPTH + 1)) j; _ ← check_size e; Ok e.

Record Query := { q_pattern : str; q_expr : option Expr }.
Definition single (c : Cond) : result msg Query := e ← test c; Ok {| q_pattern := c_pattern c; q_expr := Some e |}.
Definition query_matches (q : Query) (doc : DocView) : bool :=
  match q_expr q with None => true | Some e => matches_view e doc end.
End query.
