(* ===== verification/Plan.v ===== *)
(** * [src/engine.rs], the planner: what the secondary indexes give for a
    condition, and where the documents of a query come from

    An index holds its values up to their equality ([View]); their order is
    that of [SKey]. The order in which a hash table gives its values, which
    only shows in an estimate, is that of the map. Reading the order index of
    an [order by] with a limit is not modelled. *)
From Stdlib Require Import QArith_base.
From S2P Require Import Prelude Utf8 Text Util Maps DocNum Ordering Kdoc Paths Times Json Value SecIndex View Select Moments Query.
Open Scope Z_scope.

(** ** Index values in order *)
Abbreviation IKey := (Scalar + list Scalar)%type.
Definition scalar_kind (x : Scalar) : Z :=
  match x with inl (inl (inl _)) => 0 | inl (inl (inr _)) => 1 | inl (inr _) => 2 | inr _ => 3 end.
Definition scalar_cmp (a b : Scalar) : comparison :=
  match a, b with
  | inl (inl (inr x)), inl (inl (inr y)) => Z.b2z x ?= Z.b2z y
  | inl (inr c), inl (inr d) => Qcompare (class_value c) (class_value d)
  | inr s, inr t => str_cmp s t
  | _, _ => scalar_kind a ?= scalar_kind b
  end.
Definition key_kind (k : IKey) : Z := match k with inl x => scalar_kind x | inr _ => 4 end.
Definition key_cmp (a b : IKey) : comparison :=
  match a, b with
  | inl x, inl y => scalar_cmp x y
  | inr l, inr m => list_cmp scalar_cmp l m
  | _, _ => key_kind a ?= key_kind b
  end.
Definition posting_le (a b : IKey * gset str) : Prop := key_cmp a.1 b.1 ≠ Gt.
#[export] Instance posting_le_dec a b : Decision (posting_le a b).
Proof. unfold posting_le. apply _. Defined.
(** The keys of a set, in order. *)
Definition sorted_keys (s : gset str) : list str := merge_sort str_le (elements s).
Fixpoint index_where {A} (f : A → bool) (l : list A) : option nat :=
  match l with [] => None | x :: l => if f x then Some O else S <$> index_where f l end.
(** [sort_by_key], which is stable. *)
Fixpoint insert_by {A} (f : A → Z) (x : A) (l : list A) : list A :=
  match l with [] => [x] | y :: l' => if f x <=? f y then x :: l else y :: insert_by f x l' end.
Definition sort_by_key {A} (f : A → Z) (l : list A) : list A := foldr (insert_by f) [] l.
(** [split(", ")] *)
Fixpoint split_names (cur s : str) : list str :=
  match s with
  | [] => [cur]
  | c :: s' =>
    match s' with
    | d :: rest => if (c =? chr ",") && (d =? 32) then cur :: split_names [] rest else split_names (cur ++ [c]) s'
    | [] => [cur ++ [c]]
    end
  end.
Definition names_of (field : str) : list str := split_names [] field.
Definition no_wildcard (p : str) : bool := negb (existsb (fun c => (c =? STAR) || (c =? QMARK)) p).
Definition pattern_covers (index_pattern query_pattern : str) : bool :=
  bool_decide (index_pattern = query_pattern) || bool_decide (index_pattern = [STAR]) ||
  match strip_suffix [STAR] index_pattern with
  | Some prefix => no_wildcard prefix && starts_with query_pattern prefix
  | None => false
  end.
Definition serves (k : IndexKind) (op : CmpOp) : bool :=
  match k with BTree => negb (bool_decide (op = CNe)) | Hash => bool_decide (op ∈ [CEq; CIn; CLike; CILike]) end.

Section plan.
  Context `{HN : JsonNumbers} `{HM : !JsonMake} `{HD : Decimals} `{HF : !DecimalFrom} `{HT : !DecimalText} `{HB : !DecimalBytes}.
  Context `{HC : Chrono} `{HK : !Calendar} `{HR : !Rfc3339} `{HS : !Serde} `{HL : Lowercase}.
  Context (zone : Zone).

(** ** One comparison against one index *)
(** [SKey::from_json] *)
Definition index_key (j : Json) : option IKey := k ← skey_from_json j; inl <$> canon k.
Definition order_to (k : IKey) (v : Json) : option comparison :=
  match k, index_key v with
  | inl a, Some (inl b) => if scalar_kind a =? scalar_kind b then Some (scalar_cmp a b) else None
  | _, _ => None
  end.
Definition admits (c : Cond) (k : IKey) : bool :=
  if bool_decide (is_Some (tagged (c_value c))) then match k with inl (inr s) => test_json zone c (JString s) | _ => false end
  else
    let ord_is o := bool_decide (order_to k (c_value c) = Some o) in
    match c_op c with
    | CEq => ord_is Eq
    | CIn => match c_value c with JArray l => existsb (fun v => bool_decide (order_to k v = Some Eq)) l | _ => false end
    | CLike | CILike =>
      match k, c_value c with inl (inr t), JString p => like_match to_lowercase t p (bool_decide (c_op c = CILike)) | _, _ => false end
    | CGt => ord_is Gt
    | CGe => ord_is Gt || ord_is Eq
    | CLt => ord_is Lt
    | CLe => ord_is Lt || ord_is Eq
    | CNe => false
    end.
Definition indexable (c : Cond) : bool :=
  if bool_decide (is_Some (c_func c)) then false
  else match tagged (c_value c) with
       | Some (tag, _) => bool_decide (tag = DATETIME) && negb (bool_decide (c_op c ∈ [CNe; CIn; CLike; CILike]))
       | None =>
         match c_op c with
         | CNe => false
         | CIn => match c_value c with JArray l => forallb (fun v => bool_decide (is_Some (index_key v))) l | _ => false end
         | CLike | CILike => bool_decide (is_Some (as_str (c_value c)))
         | _ => bool_decide (is_Some (index_key (c_value c)))
         end
       end.
(** The index that can answer, by its place. *)
Definition usable (c : Cond) (s : SecIndex) : bool :=
  Nat.eqb (length (paths s)) 1 && negb (fold s) && serves (kind s) (c_op c) && bool_decide (field s = c_field c) &&
  pattern_covers (pattern s) (c_pattern c).
Definition kind_is (k : IndexKind) (s : SecIndex) : bool := match kind s, k with BTree, BTree | Hash, Hash => true | _, _ => false end.
Definition find_index (sec : list SecIndex) (c : Cond) : option nat :=
  if negb (indexable c) then None
  else
    let prefixed := bool_decide (c_op c = CLike) && match c_value c with JString p => negb (bool_decide (like_prefix p = [])) | _ => false end in
    if bool_decide (is_Some (tagged (c_value c))) then index_where (fun s => kind_is BTree s && usable c s) sec
    else
      let preferred := if prefixed then BTree else Hash in
      match index_where (fun s => kind_is preferred s && usable c s) sec with
      | Some n => Some n
      | None => index_where (usable c) sec
      end.

(** The postings of an index in the order they are visited. *)
Definition all_postings (s : SecIndex) : list (IKey * gset str) := 
  map_to_list (map s).
Definition postings (s : SecIndex) : list (IKey * gset str) :=
  match kind s with BTree => merge_sort posting_le (all_postings s) | Hash => all_postings s end.
Definition above (lo : option (IKey * bool)) (k : IKey) : bool :=
  match lo with
  | None => true
  | Some (b, incl) => match key_cmp k b with Gt => true | Eq => incl | Lt => false end
  end.
Definition below (hi : option (IKey * bool)) (k : IKey) : bool :=
  match hi with
  | None => true
  | Some (b, incl) => match key_cmp k b with Lt => true | Eq => incl | Gt => false end
  end.
Definition range_of (s : SecIndex) (lo hi : option (IKey * bool)) : list (IKey * gset str) :=
  List.filter (fun p => above lo p.1 && below hi p.1) (postings s).
(** The date so many days later, in text. *)
Definition day_key (at_ : DateTime) (d : Z) : IKey := inl (inr (date_text (add_seconds (naive_utc at_) (86400 * d)).1)).
Definition posting_of (s : SecIndex) (v : Json) : list (gset str) :=
  match index_key v with Some k => match map s !! k with Some set => [set] | None => [] end | None => [] end.
Definition admitted (c : Cond) (l : list (IKey * gset str)) : list (gset str) := (List.filter (fun p => admits c p.1) l).*2.
(** [visit_postings]: the sets of keys it gives, in order. *)
Definition visit_postings (s : SecIndex) (c : Cond) : list (gset str) :=
  match kind s, tagged (c_value c) with
  | BTree, Some (tag, text) =>
    if bool_decide (tag = DATETIME) then
      match parse_datetime text Utc with
      | Err _ => []
      | Ok at_ =>
        admitted c (range_of s (if bool_decide (c_op c ∈ [CGt; CGe; CEq]) then Some (day_key at_ (-2), true) else None)
                               (if bool_decide (c_op c ∈ [CLt; CLe; CEq]) then Some (day_key at_ 3, false) else None))
      end
    else []
  | _, _ =>
    match c_op c with
    | CEq => posting_of s (c_value c)
    | CIn => match c_value c with JArray l => List.flat_map (posting_of s) l | _ => [] end
    | CLike | CILike =>
      match c_value c with
      | JString p =>
        let prefix := if bool_decide (c_op c = CILike) then [] else like_prefix p in
        if kind_is BTree s && negb (bool_decide (prefix = [])) then
          admitted c (take_while (fun p => match p.1 with inl (inr t) => starts_with t prefix | _ => false end)
                        (range_of s (Some (inl (inr prefix), true)) None))
        else admitted c (postings s)
      | _ => []
      end
    | op =>
      match kind s, index_key (c_value c) with
      | BTree, Some sk =>
        let same p := key_kind p.1 =? key_kind sk in
        match op with
        | CGt | CGe => (take_while same (range_of s (Some (sk, bool_decide (op = CGe))) None)).*2
        | CLt | CLe => (take_while same (List.rev (range_of s None (Some (sk, bool_decide (op = CLe)))))).*2
        | _ => []
        end
      | _, _ => []
      end
    end
  end.
Definition index_candidates (s : SecIndex) (c : Cond) : list str := sorted_keys (⋃ visit_postings s c).
(** Counted until [cap] is reached. *)
Fixpoint count_to (cap n : Z) (sets : list (gset str)) : Z :=
  match sets with
  | [] => n
  | set :: sets => let n := n + Z.of_nat (size set) in if n <? cap then count_to cap n sets else n
  end.
Definition count_postings (s : SecIndex) (c : Cond) (cap : Z) : Z := count_to cap 0 (visit_postings s c).

(** ** The keys of a condition *)
Record IndexPlan := { p_keys : list str; used : str; indexes : Z; p_entries : Z }.
Definition index_name (s : SecIndex) : str :=
  pattern s ++ lit " (" ++ field s ++ lit ")" ++ (match kind s with Hash => lit " using hash" | BTree => [] end).
Definition one_plan (s : SecIndex) (c : Cond) : IndexPlan :=
  let keys := index_candidates s c in {| p_keys := keys; used := index_name s; indexes := 1; p_entries := len keys |}.
Definition equalities (parts : list Expr) : list Cond :=
  omap (fun p => match p with
                 | ETest t => if bool_decide (c_op (cond t) = CEq) && bool_decide (c_func (cond t) = None) then Some (cond t) else None
                 | _ => None
                 end) parts.
Definition tuple_part (s : SecIndex) (equal : list Cond) (f : str) : option IKey :=
  c ← List.find (fun c => bool_decide (c_field c = f) && pattern_covers (pattern s) (c_pattern c)) equal;
  match tagged (c_value c) with Some _ => None | None => index_key (c_value c) end.
Fixpoint find_map {A B} (f : A → option B) (l : list A) : option B :=
  match l with [] => None | x :: l => match f x with Some b => Some b | None => find_map f l end end.
Definition composite_one (equal : list Cond) (s : SecIndex) : option IndexPlan :=
  values ← mapM (tuple_part s equal) (names_of (field s));
  let keys := sorted_keys (post_get (map s) (scalar_tuple values)) in
  Some {| p_keys := keys; used := index_name s; indexes := 1; p_entries := len keys |}.
Definition composite_plan (sec : list SecIndex) (parts : list Expr) : option IndexPlan :=
  let equal := equalities parts in
  if Nat.ltb (length equal) 2 then None
  else find_map (composite_one equal) (List.filter (fun s => Nat.ltb 1 (length (paths s)) && negb (fold s)) sec).
Definition USIZE_MAX : Z := u64_max.
(** The indexed comparisons with the keys each gives, counted up to the smallest so far. *)
Fixpoint sizes (best : Z) (tests : list (SecIndex * Cond)) : list (Z * SecIndex * Cond) :=
  match tests with
  | [] => []
  | (s, c) :: tests =>
    let n := count_postings s c (Z.min USIZE_MAX (best + 1)) in (n, s, c) :: sizes (Z.min best n) tests
  end.
Definition meet (acc p : IndexPlan) : IndexPlan :=
  {| p_keys := intersect_sorted (p_keys acc) (p_keys p); used := used acc ++ lit " and " ++ used p;
     indexes := indexes acc + indexes p; p_entries := p_entries acc + p_entries p |}.
Definition check_against (acc : IndexPlan) (t : Z * SecIndex * Cond) : IndexPlan :=
  let '(_, s, c) := t in
  {| p_keys := List.filter (fun k => match rev s !! k with Some sk => admits c sk | None => false end) (p_keys acc);
     used := used acc ++ lit " and " ++ index_name s; indexes := indexes acc + 1; p_entries := p_entries acc + len (p_keys acc) |}.
Definition tests_of (sec : list SecIndex) (parts : list Expr) : list (SecIndex * Cond) :=
  omap (fun p => match p with
                 | ETest t => n ← find_index sec (cond t); s ← sec !! n; Some (s, cond t)
                 | _ => None
                 end) parts.
(** [plans]: the parts with the plan of each. *)
Definition and_plan (sec : list SecIndex) (plans : list (Expr * option IndexPlan)) : option IndexPlan :=
  let parts := plans.*1 in
  let whole := omap (fun ep => match ep.1 with ETest _ => None | _ => ep.2 end) plans ++ option_list (composite_plan sec parts) in
  let whole := sort_by_key (fun p => len (p_keys p)) whole in
  let best := match whole with p :: _ => len (p_keys p) | [] => USIZE_MAX end in
  let sized := sort_by_key (fun t => t.1.1) (sizes best (tests_of sec parts)) in
  let test_first := match sized, whole with (n, _, _) :: _, w :: _ => n <? len (p_keys w) | _ :: _, [] => true | [], _ => false end in
  '(acc, whole, sized) ←
    match test_first, sized, whole with
    | true, (_, s, c) :: sized, whole => Some (one_plan s c, whole, sized)
    | false, sized, w :: whole => Some (w, whole, sized)
    | _, _, _ => None
    end;
  Some (fold_left check_against sized (fold_left meet whole acc)).
Definition join_plans (acc p : IndexPlan) : IndexPlan :=
  {| p_keys := union_sorted (p_keys acc) (p_keys p); used := used acc ++ lit " or " ++ used p;
     indexes := indexes acc + indexes p; p_entries := p_entries acc + p_entries p |}.
Definition or_plan (plans : list (option IndexPlan)) : option IndexPlan :=
  plans ← mapM id plans;
  match plans with
  | [] => None
  | p :: plans =>
    let acc := fold_left join_plans plans p in
    Some {| p_keys := p_keys acc; used := lit "(" ++ used acc ++ lit ")"; indexes := indexes acc; p_entries := p_entries acc |}
  end.
Fixpoint index_plan (sec : list SecIndex) (e : Expr) : option IndexPlan :=
  match e with
  | ETest t => n ← find_index sec (cond t); s ← sec !! n; Some (one_plan s (cond t))
  | EAnd parts => and_plan sec (List.map (fun p => (p, index_plan sec p)) parts)
  | EOr parts => or_plan (List.map (index_plan sec) parts)
  | ENot _ => None
  end.

(** ** What a key of the indexes says of a condition *)
Inductive Probe := PAny | PTest (n : nat) (c : Cond) | PAnd (parts : list Probe) | POr (parts : list Probe).
Definition is_any_probe (p : Probe) : bool := match p with PAny => true | _ => false end.
Fixpoint probe_of (sec : list SecIndex) (e : Expr) : Probe :=
  match e with
  | ETest t => match find_index sec (cond t) with Some n => PTest n (cond t) | None => PAny end
  | EAnd parts =>
    match List.filter (fun p => negb (is_any_probe p)) (List.map (probe_of sec) parts) with [] => PAny | parts => PAnd parts end
  | EOr parts => let parts := List.map (probe_of sec) parts in if existsb is_any_probe parts then PAny else POr parts
  | ENot _ => PAny
  end.
Fixpoint passes (sec : list SecIndex) (key : str) (p : Probe) : bool :=
  match p with
  | PAny => true
  | PTest n c => match s ← sec !! n; rev s !! key with Some sk => admits c sk | None => false end
  | PAnd parts => forallb (passes sec key) parts
  | POr parts => existsb (passes sec key) parts
  end.
(** How many keys the indexes give, up to about [cap]. *)
Definition opt_min (l : list (option Z)) : option Z :=
  fold_left (fun a o => match a, o with Some a, Some n => Some (Z.min a n) | None, o => o | a, None => a end) l None.
Definition opt_sum (l : list (option Z)) : option Z := fold_right (fun o a => n ← o; m ← a; Some (n + m)) (Some 0) l.
Fixpoint estimate (sec : list SecIndex) (e : Expr) (cap : Z) : option Z :=
  match e with
  | ETest t => n ← find_index sec (cond t); s ← sec !! n; Some (count_postings s (cond t) cap)
  | EAnd parts => opt_min (List.map (fun p => estimate sec p cap) parts)
  | EOr parts => n ← opt_sum (List.map (fun p => estimate sec p cap) parts); Some (Z.min n cap)
  | ENot _ => None
  end.
End plan.
