(* ===== verification/PlanThm.v ===== *)
(** * The planner never loses a document: what the indexes give for a
    condition holds every document that passes it *)
From Stdlib Require Import QArith_base.
From S2P Require Import Prelude Utf8 Text Util Maps DocNum Ordering Kdoc Paths PathsThm Times TimesThm Json JsonThm Value SecIndex View Select Moments Query Plan.
Open Scope Z_scope.

(** ** The order of index values *)
Lemma scalar_ord : ord_laws scalar_cmp.
Proof.
  pose proof (Q_ord (fun _ => True) class_value _ (fun _ _ => eq_refl)) as Hq. pose proof (str_ord (fun _ => True)) as Hs.
  pose proof (Z_ord (fun _ => True)) as Hz. split.
  - intros [[[[]|x]|x]|x] [[[[]|y]|y]|y] _ _; try done; [by apply (oo_opp _ _ Hz)|by apply (oo_opp _ _ Hq)|by apply (oo_opp _ _ Hs)].
  - intros [[[[]|x]|x]|x] [[[[]|y]|y]|y] [[[[]|z]|z]|z] _ _ _; try done; [by apply (oo_trans _ _ Hz)|by apply (oo_trans _ _ Hq)|by apply (oo_trans _ _ Hs)].
Qed.
Lemma scalar_kind_le a b : scalar_cmp a b ≠ Gt → scalar_kind a ≤ scalar_kind b.
Proof. by destruct a as [[[[]|x]|x]|x], b as [[[[]|y]|y]|y]. Qed.
Lemma key_ord : ord_laws key_cmp.
Proof.
  pose proof scalar_ord as Hs. pose proof (list_ord _ _ Hs) as Hl. assert (∀ l : list Scalar, Forall (fun _ => True) l) as Ht by (intros; by apply Forall_true).
  assert (∀ x, 0 ≤ scalar_kind x ≤ 3) as Hk by (by intros [[[[]|x]|x]|x]). split.
  - intros [x|l] [y|m] _ _; cbn [key_cmp key_kind]; [by apply (oo_opp _ _ Hs)| | |by apply (oo_opp _ _ Hl)]; apply Z.compare_antisym.
  - intros [x|l] [y|m] [z|n] _ _ _; cbn [key_cmp key_kind]; rewrite ?Z.compare_ngt_iff; try pose proof (Hk x); try pose proof (Hk y); try pose proof (Hk z); try lia;
      [by apply (oo_trans _ _ Hs)|by apply (oo_trans _ _ Hl)].
Qed.
Lemma key_kind_le a b : key_cmp a b ≠ Gt → key_kind a ≤ key_kind b.
Proof.
  assert (∀ x, 0 ≤ scalar_kind x ≤ 3) as Hk by (by intros [[[[]|x]|x]|x]).
  destruct a as [x|l], b as [y|m]; cbn [key_cmp key_kind]; rewrite ?Z.compare_ngt_iff; try pose proof (Hk x); try pose proof (Hk y); try lia. apply scalar_kind_le.
Qed.
#[export] Instance posting_le_trans : Transitive posting_le.
Proof. intros a b c. unfold posting_le. by apply (oo_trans _ _ key_ord). Qed.
#[export] Instance posting_le_total : Total posting_le.
Proof.
  intros a b. unfold posting_le. rewrite (oo_opp _ _ key_ord a.1 b.1) by done. destruct (key_cmp a.1 b.1); cbn [CompOpp]; [by left|by left|by right].
Qed.

(** Keys of texts and of the classes of numbers. *)
Definition scalar_ok (x : Scalar) : Prop := match x with inl (inr c) => class_ok c | inr s => valid_str s | _ => True end.
Lemma scalar_eq a b : scalar_ok a → scalar_ok b → scalar_cmp a b = Eq → a = b.
Proof.
  destruct a as [[[[]|x]|x]|x], b as [[[[]|y]|y]|y]; cbn [scalar_ok scalar_cmp scalar_kind]; intros Ha Hb E; try done.
  - destruct x, y; done.
  - do 2 f_equal. apply class_inj; [done..|]. by apply Qeq_alt.
  - f_equal. by apply str_cmp_eq.
Qed.
Definition key_ok (k : IKey) : Prop := match k with inl x => scalar_ok x | inr _ => True end.

(** ** Patterns *)
Lemma strip_suffix_spec p s r : strip_suffix p s = Some r → s = r ++ p.
Proof.
  unfold strip_suffix. destruct (strip_prefix (List.rev p) (List.rev s)) as [q|] eqn:E; [|done]. cbn. intros [= <-].
  apply strip_prefix_spec in E. apply (f_equal (@List.rev Z)) in E. rewrite rev_app_distr, !rev_involutive in E. exact E.
Qed.
Lemma glob_star_all k : glob_spec [STAR] k.
Proof. induction k; [repeat constructor|by apply gs_star_take]. Qed.
Lemma glob_literal p r k : no_wildcard p = true → glob_spec (p ++ r) k → ∃ t, k = p ++ t ∧ glob_spec r t.
Proof.
  unfold no_wildcard. revert k. induction p as [|c p IH]; intros k Hp Hg; [by exists k|]. cbn [existsb] in Hp.
  apply negb_true_iff, orb_false_iff in Hp as [Hc Hp]. apply orb_false_iff in Hc as [H1%Z.eqb_neq H2%Z.eqb_neq].
  cbn [app] in Hg. inversion Hg; subst; try done. destruct (IH t) as (u & -> & Hu); [by apply negb_true_iff|done|]. by exists u.
Qed.
Lemma glob_prefixed p t : no_wildcard p = true → glob_spec (p ++ [STAR]) (p ++ t).
Proof.
  unfold no_wildcard. induction p as [|c p IH]; intros Hp; [apply glob_star_all|]. cbn [existsb app] in *.
  apply negb_true_iff, orb_false_iff in Hp as [Hc Hp]. apply orb_false_iff in Hc as [H1%Z.eqb_neq H2%Z.eqb_neq].
  constructor; [done..|]. by apply IH, negb_true_iff.
Qed.
(** An index covers the keys of a pattern, those without a star. *)
Lemma covers_glob ip qp k : pattern_covers ip qp = true → STAR ∉ k → glob_match qp k = true → glob_match ip k = true.
Proof.
  unfold pattern_covers. intros Hc Hk Hg. apply orb_true_iff in Hc as [[->%bool_decide_eq_true| ->%bool_decide_eq_true]%orb_true_iff|Hc]; [done| |].
  - apply glob_match_correct; [done|]. apply glob_star_all.
  - destruct (strip_suffix [STAR] ip) as [p|] eqn:Es; [|done]. apply strip_suffix_spec in Es as ->. apply andb_true_iff in Hc as [Hp Hq].
    apply starts_with_app in Hq as [r ->]. apply glob_match_correct in Hg; [|done]. apply (glob_literal _ _ _ Hp) in Hg as (t & -> & _).
    apply glob_match_correct; [done|]. by apply glob_prefixed.
Qed.

Section plan_thm.
  Context `{HN : JsonNumbers} `{HM : !JsonMake} `{HD : Decimals} `{HF : !DecimalFrom} `{HT : !DecimalText} `{HB : !DecimalBytes}.
  Context `{HC : Chrono} `{HK : !Calendar} `{HR : !Rfc3339} `{HS : !Serde} `{HL : Lowercase}.
  Context `{LD : !DecimalsLaws} `{LJ : !JsonNumbersLaws} `{LF : !DecimalFromLaws}.
  Context (zone : Zone).

(** ** A value that passes is admitted by an index *)
Lemma canon_cmp a b x y : canon a = Some x → canon b = Some y → skey_cmp a b = scalar_cmp x y ∧ skey_kind a = scalar_kind x.
Proof.
  destruct a as [|i|m|s|], b as [|j|n|t|]; cbn [canon]; intros [= <-] [= <-]; try done. split; [|done]. cbn [skey_cmp scalar_cmp].
  rewrite numkey_cmp_exact. destruct (class_exact _ (with_num_ok m)) as [_ V1], (class_exact _ (with_num_ok n)) as [_ V2]. unfold key_value.
  symmetry. by apply Qcompare_comp.
Qed.
Lemma skey_canon j k : skey_from_json j = Some k → ∃ x, canon k = Some x.
Proof. destruct j; intros [= <-]; by eexists. Qed.
Lemma canon_ok k x : canon k = Some x → (match k with KStr s => valid_str s | _ => True end) → scalar_ok x.
Proof. destruct k as [|i|n|s|]; cbn [canon]; intros [= <-] Hs; try done. apply (class_exact _ (with_num_ok n)). Qed.
Lemma order_key a v b x : canon a = Some x → skey_from_json v = Some b →
  order_to (inl x) v = if same_kind a b then Some (skey_cmp a b) else None.
Proof.
  intros Ha Hv. destruct (skey_canon v b Hv) as [y Hb]. unfold order_to, index_key. rewrite Hv. cbn [mbind option_bind]. rewrite Hb. cbn [fmap option_fmap option_map].
  destruct (canon_cmp a b x y Ha Hb) as [-> Ek], (canon_cmp b a y x Hb Ha) as [_ Ek']. unfold same_kind. by rewrite Ek, Ek'.
Qed.
Lemma plain_verdict a b op : verdict (plain_order a b op) op = true → op ≠ CNe →
  ∃ ka kb, skey_from_json a = Some ka ∧ skey_from_json b = Some kb ∧ same_kind ka kb = true ∧ verdict (Some (skey_cmp ka kb)) op = true.
Proof.
  intros Hv Hop. destruct a as [|x|x|x| |], b as [|y|y|y| |]; cbn [plain_order] in Hv; try (by destruct op); try (by eexists _, _).
  case_bool_decide; [|by destruct op]. eexists _, _. split; [done|]. split; [done|]. split; [done|]. cbn [skey_cmp].
  destruct op; try done; try set_solver. destruct x, y; done.
Qed.
Definition is_range (op : CmpOp) : bool := match op with CEq | CGt | CGe | CLt | CLe => true | _ => false end.
(** What [admits] answers for the operators of order. *)
Lemma admits_verdict c k : tagged (c_value c) = None → is_range (c_op c) = true →
  admits zone c k = verdict (order_to k (c_value c)) (c_op c).
Proof.
  intros Ht Hr. unfold admits. rewrite Ht, bool_decide_false by (by intros []). destruct (c_op c); try done; destruct (order_to k (c_value c)) as [[]|]; reflexivity.
Qed.
(** The value under a path as an index holds it. *)
Definition leaf_key (l : Leaf) : option Scalar := skey_from_leaf l ≫= canon.
Lemma one_admitted l op b : (match leaf_decimal l with Some d => decimal_one d op b | None => verdict (plain_order (leaf_json l) b op) op end) = true → is_range op = true →
  ∃ x, leaf_key l = Some x ∧ verdict (order_to (inl x) b) op = true.
Proof.
  unfold leaf_key, skey_from_leaf. destruct (leaf_decimal l) as [d|]; intros Hv Hr.
  - eexists. split; [done|]. unfold decimal_one in Hv. destruct b as [| |n| | |]; try (by destruct op).
    rewrite (order_key (KNum (KDecimal d)) _ (KNum (KJson n))) by done. exact Hv.
  - destruct (plain_verdict _ _ _ Hv) as (ka & kb & Ea & Eb & Es & Ev); [by destruct op|]. rewrite Ea. cbn [mbind option_bind].
    destruct (skey_canon _ _ Ea) as [x Ex]. exists x. split; [done|]. rewrite (order_key ka _ kb) by done. by rewrite Es.
Qed.
Lemma index_key_plain v : is_Some (index_key v) → tagged v = None.
Proof. by destruct v as [| | | | |[|[] []]]; intros []. Qed.
Lemma leaf_admitted c l : indexable c = true → tagged (c_value c) = None → test_leaf zone c l = true →
  ∃ x, leaf_key l = Some x ∧ admits zone c (inl x) = true.
Proof.
  intros Hi Ht Hl. unfold indexable in Hi. rewrite Ht in Hi. case_bool_decide as Ef; [done|]. apply eq_None_not_Some in Ef. cbn [negb] in Hi.
  unfold test_leaf, test_json in Hl. rewrite Ef in Hl. rewrite (bool_decide_true (None = None)) in Hl by done.
  destruct (is_range (c_op c)) eqn:Er.
  - destruct (one_admitted l (c_op c) (c_value c)) as (x & Ex & Hx); [|done|exists x; split; [done|]; by rewrite admits_verdict].
    destruct (leaf_decimal l); [by destruct (c_op c)|]. unfold compare_json, compare_one in Hl. rewrite Ht in Hl. by destruct (c_op c).
  - unfold admits. rewrite Ht, bool_decide_false by (by intros []). destruct (c_op c) eqn:Eo; try done.
    + destruct (c_value c) as [| | | |vs|]; try done. assert (∃ v, v ∈ vs ∧ ∃ x, leaf_key l = Some x ∧ verdict (order_to (inl x) v) CEq = true) as (v & Hv & x & Ex & Hx).
      { assert (∃ v, In v vs ∧ (match leaf_decimal l with Some d => decimal_one d CEq v | None => compare_one zone (leaf_json l) CEq v end) = true) as (v & Hv & E).
        { apply existsb_exists. destruct (leaf_decimal l); exact Hl. }
        exists v. split; [by apply list_elem_of_In|]. apply one_admitted; [|done]. destruct (leaf_decimal l); [done|]. unfold compare_one in E.
        rewrite forallb_forall in Hi. specialize (Hi v Hv). apply bool_decide_eq_true, index_key_plain in Hi. by rewrite Hi in E. }
      exists x. split; [done|]. apply existsb_exists. exists v. split; [by apply list_elem_of_In|]. apply bool_decide_eq_true.
      destruct (order_to (inl x) v) as [[]|]; done.
    + destruct (leaf_decimal l) as [d|] eqn:Ed; [by destruct (c_value c)|]. unfold leaf_key, skey_from_leaf. rewrite Ed.
      destruct (leaf_json l) as [| | |t| |], (c_value c) as [| | |p| |]; try done. exists (inr t). split; [done|]. exact Hl.
    + destruct (leaf_decimal l) as [d|] eqn:Ed; [by destruct (c_value c)|]. unfold leaf_key, skey_from_leaf. rewrite Ed.
      destruct (leaf_json l) as [| | |t| |], (c_value c) as [| | |p| |]; try done. exists (inr t). split; [done|]. exact Hl.
Qed.

(** ** Every posting an index admits is visited *)
Definition text_ok (v : Json) : Prop := match v with JString s => valid_str s | _ => True end.
Definition value_texts (v : Json) : Prop := match v with JArray l => Forall text_ok l | v => text_ok v end.
Lemma index_key_ok v k : text_ok v → index_key v = Some k → key_ok k.
Proof.
  unfold index_key. intros Hv E. destruct (skey_from_json v) as [b|] eqn:Eb; [|done]. cbn in E. destruct (canon b) as [x|] eqn:Ex; [|done].
  injection E as <-. apply (canon_ok b x Ex). destruct v; try done; by injection Eb as <-.
Qed.
Lemma order_eq k v : key_ok k → text_ok v → order_to k v = Some Eq → index_key v = Some k.
Proof.
  intros Hk Hv. unfold order_to. destruct k as [a|]; [|done]. destruct (index_key v) as [[b|]|] eqn:Ei; try done. destruct (_ =? _); [|done].
  intros [= E]. apply (index_key_ok v (inl b) Hv) in Ei. do 2 f_equal. symmetry. by apply scalar_eq.
Qed.
Lemma elem_postings s k set : (k, set) ∈ postings s ↔ SecIndex.map s !! k = Some set.
Proof.
  unfold postings, all_postings. destruct (kind s); [rewrite merge_sort_Permutation|]; apply elem_of_map_to_list.
Qed.
Lemma postings_sorted s : kind s = BTree → StronglySorted posting_le (postings s).
Proof. unfold postings. intros ->. apply StronglySorted_merge_sort; apply _. Qed.
Lemma elem_range s lo hi p : p ∈ range_of s lo hi ↔ p ∈ postings s ∧ above lo p.1 = true ∧ below hi p.1 = true.
Proof. unfold range_of. by rewrite list_elem_of_In, List.filter_In, <- list_elem_of_In, andb_true_iff. Qed.
Lemma elem_snd {A B} (l : list (A * B)) x y : (x, y) ∈ l → y ∈ l.*2.
Proof. intros H. apply list_elem_of_fmap. by exists (x, y). Qed.
Lemma elem_admitted c l k set : (k, set) ∈ l → admits zone c k = true → set ∈ admitted zone c l.
Proof. intros Hl Ha. apply (elem_snd _ k). apply list_elem_of_In, List.filter_In. split; [by apply list_elem_of_In|done]. Qed.
Lemma list_cmp_leb l : ∀ m, list_cmp Z.compare l m ≠ Gt ↔ bytes_leb l m = true.
Proof.
  induction l as [|x l IH]; intros [|y m]; try done. rewrite bytes_leb_cons, <- IH. cbn [list_cmp].
  destruct (Z.compare_spec x y); cbn [then_with]; [subst; naive_solver lia|naive_solver lia|naive_solver lia].
Qed.
Lemma str_cmp_leb s t : valid_str s → valid_str t → str_cmp s t ≠ Gt ↔ bytes_leb s t = true.
Proof. intros Hs Ht. unfold str_cmp. rewrite list_cmp_leb. fold (str_leb s t). by rewrite str_leb_chars. Qed.
Lemma key_cmp_opp a b : key_cmp b a = CompOpp (key_cmp a b).
Proof. by apply (oo_opp _ _ key_ord). Qed.
(** The texts that start with a prefix are next to each other. *)
Lemma prefix_between (prefix : str) (x y : IKey * gset str) : valid_str prefix → key_ok x.1 → key_ok y.1 → above (Some (inl (inr prefix), true)) x.1 = true → posting_le x y →
  (match y.1 with inl (inr t) => starts_with t prefix | _ => false end) = true → (match x.1 with inl (inr t) => starts_with t prefix | _ => false end) = true.
Proof.
  destruct x as [x sx], y as [y sy]. unfold posting_le. cbn [fst above]. intros Hp Hx Hy Ha Hle Hs. destruct y as [[|t]|]; try done.
  assert (key_cmp (inl (inr prefix)) x ≠ Gt) as Hpx by (rewrite key_cmp_opp; by destruct (key_cmp x (inl (inr prefix)))).
  pose proof (key_kind_le _ _ Hpx) as K1. pose proof (key_kind_le _ _ Hle) as K2. destruct x as [[[[[]|]|]|t']|]; cbn [key_kind scalar_kind] in K1, K2; try lia.
  cbn [key_cmp scalar_cmp] in Hpx, Hle. apply str_cmp_leb in Hpx, Hle; [|done..]. by apply (starts_with_between prefix t' t).
Qed.
(** A range read upwards or downwards while the kind of its values stays. *)
Definition same_kind_as (b : Scalar) (p : IKey * gset str) : bool := key_kind p.1 =? scalar_kind b.
Lemma range_up s a b lo set : kind s = BTree → (inl a, set) ∈ postings s → scalar_kind a = scalar_kind b → above (Some (inl b, lo)) (inl a) = true →
  set ∈ (take_while (same_kind_as b) (range_of s (Some (inl b, lo)) None)).*2.
Proof.
  intros Hkd Hm Ek Ha. rewrite (take_while_filter _ posting_le).
  - apply (elem_snd _ (inl a)), list_elem_of_In, List.filter_In. split; [|by apply Z.eqb_eq]. apply list_elem_of_In, elem_range. by split.
  - by apply sorted_filter, postings_sorted.
  - intros x y (_ & Hx & _)%elem_range _ Hle Hy%Z.eqb_eq. apply Z.eqb_eq. apply key_kind_le in Hle. rewrite Hy in Hle.
    assert (key_cmp (inl b) x.1 ≠ Gt) as Hbx by (rewrite key_cmp_opp; cbn [above] in Hx; by destruct (key_cmp x.1 (inl b))).
    apply key_kind_le in Hbx. cbn [key_kind] in *. lia.
Qed.
Lemma range_down s a b hi set : kind s = BTree → (inl a, set) ∈ postings s → scalar_kind a = scalar_kind b → below (Some (inl b, hi)) (inl a) = true →
  set ∈ (take_while (same_kind_as b) (List.rev (range_of s None (Some (inl b, hi))))).*2.
Proof.
  intros Hkd Hm Ek Ha. rewrite (take_while_filter _ (fun x y => posting_le y x)).
  - apply (elem_snd _ (inl a)), list_elem_of_In, List.filter_In. split; [|by apply Z.eqb_eq]. rewrite <- in_rev. apply list_elem_of_In, elem_range. by split.
  - by apply sorted_rev, sorted_filter, postings_sorted.
  - intros x y Hx%list_elem_of_In _ Hle Hy%Z.eqb_eq. apply Z.eqb_eq. rewrite <- in_rev, <- list_elem_of_In in Hx. apply elem_range in Hx as (_ & _ & Hx).
    apply key_kind_le in Hle. rewrite Hy in Hle. assert (key_cmp x.1 (inl b) ≠ Gt) as Hbx by (cbn [below] in Hx; by destruct (key_cmp x.1 (inl b))).
    apply key_kind_le in Hbx. cbn [key_kind] in *. lia.
Qed.
Lemma visit_range s c k set : kind s = BTree → SecIndex.map s !! k = Some set → c_op c ∈ [CGt; CGe; CLt; CLe] →
  verdict (order_to k (c_value c)) (c_op c) = true → tagged (c_value c) = None → set ∈ visit_postings zone s c.
Proof.
  intros Hkd Hm%elem_postings Hop Hv Ht. assert (c_op c ≠ CNe) as Hne by (intros E; rewrite E in Hop; set_solver).
  destruct (order_to k (c_value c)) as [o|] eqn:Eo; [|by destruct (c_op c)]. unfold order_to in Eo.
  destruct k as [a|]; [|done]. destruct (index_key (c_value c)) as [[b|]|] eqn:Ei; try done.
  destruct (Z.eqb_spec (scalar_kind a) (scalar_kind b)) as [Ek|]; [|done]. injection Eo as <-.
  unfold visit_postings. rewrite Hkd, Ht, Ei.
  destruct (c_op c); try set_solver; first [apply (range_up s a b)|apply (range_down s a b)]; try done; cbn [above below key_cmp verdict] in *; by destruct (scalar_cmp a b).
Qed.
Lemma visit_like s c (p : str) k set : SecIndex.map s !! k = Some set → c_value c = JString p → c_op c ∈ [CLike; CILike] →
  admits zone c k = true → valid_str p → (∀ k set, SecIndex.map s !! k = Some set → key_ok k) → set ∈ visit_postings zone s c.
Proof.
  intros Hm Ev Hop Ha Hp Hok. pose proof Hm as Hin%elem_postings.
  assert (set ∈ admitted zone c (postings s)) as Hall by (by apply (elem_admitted c _ k)).
  assert (visit_postings zone s c = let prefix := if bool_decide (c_op c = CILike) then [] else like_prefix p in
    if kind_is BTree s && negb (bool_decide (prefix = []))
    then admitted zone c (take_while (fun p => match p.1 with inl (inr t) => starts_with t prefix | _ => false end) (range_of s (Some (inl (inr prefix), true)) None))
    else admitted zone c (postings s)) as ->.
  { unfold visit_postings, kind_is. rewrite Ev. destruct (kind s), (c_op c); try done; set_solver. }
  cbn zeta. destruct (decide (c_op c = CILike)) as [Eop|Eop].
  { rewrite Eop. cbn. rewrite andb_false_r. exact Hall. }
  rewrite (bool_decide_false (c_op c = CILike)) by done.
  destruct (kind_is BTree s && _) eqn:Eb; [|done]. apply andb_true_iff in Eb as [Ekd _].
  assert (kind s = BTree) as Hkd by (unfold kind_is in Ekd; by destruct (kind s)).
  assert (c_op c = CLike) as Ec by (destruct (c_op c); set_solver).
  assert (∃ t, k = inl (inr t) ∧ like_spec p t) as (t & -> & Hs).
  { unfold admits in Ha. rewrite Ev, Ec in Ha. cbn in Ha. destruct k as [[|t]|]; try done. exists t. split; [done|]. by apply (like_match_correct to_lowercase t p false) in Ha. }
  pose proof (Hok _ _ Hm) as Ht. cbn in Ht. apply like_prefix_sound in Hs.
  assert (starts_with t (like_prefix p) = true) as Hst by (by apply bool_decide_eq_true).
  assert (valid_str (like_prefix p)) as Hvp by (apply starts_with_app in Hst as [r ->]; by apply Forall_app in Ht as [? _]).
  apply (elem_admitted c _ (inl (inr t))); [|done]. rewrite (take_while_filter _ posting_le).
  - apply list_elem_of_In, List.filter_In. split; [|exact Hst]. apply list_elem_of_In, elem_range. split; [done|]. split; [|done]. cbn [above key_cmp fst].
    assert (str_cmp (like_prefix p) t ≠ Gt) as Hle by (apply str_cmp_leb; [done..|]; by apply starts_with_ge).
    cbn [scalar_cmp]. rewrite (oo_opp _ _ (str_ord (fun _ => True)) (like_prefix p) t) by done. by destruct (str_cmp (like_prefix p) t).
  - by apply sorted_filter, postings_sorted.
  - intros [x sx] [y sy] (Hx & Hax & _)%elem_range (Hy & _)%elem_range Hle Hf. apply elem_postings in Hx, Hy.
    apply (prefix_between (like_prefix p) (x, sx) (y, sy)); try done; [by eapply Hok|by eapply Hok].
Qed.
Lemma visit_complete s c k set : serves (kind s) (c_op c) = true → tagged (c_value c) = None → value_texts (c_value c) →
  (∀ k set, SecIndex.map s !! k = Some set → key_ok k) → SecIndex.map s !! k = Some set → admits zone c k = true → set ∈ visit_postings zone s c.
Proof.
  intros Hsv Ht Hv Hok Hm Ha. assert (∀ v, text_ok v → order_to k v = Some Eq → posting_of s v = [set]) as Hone.
  { intros v Hvv E. apply order_eq in E; [|by eapply Hok|done]. unfold posting_of. by rewrite E, Hm. }
  assert (c_op c ∈ [CGt; CGe; CLt; CLe] → is_range (c_op c) = true → kind s = BTree → set ∈ visit_postings zone s c) as Hr.
  { intros Hop Hir Hkd. apply (visit_range s c k set); try done. by rewrite <- admits_verdict. }
  assert (c_op c ∈ [CLike; CILike] → (∃ p, c_value c = JString p) → set ∈ visit_postings zone s c) as Hl.
  { intros Hop [p Ep]. apply (visit_like s c p k); try done. by rewrite Ep in Hv. }
  unfold admits in Ha. rewrite Ht, bool_decide_false in Ha by (by intros []).
  destruct (c_op c) eqn:Eo; try (apply Hr; [vm_decide|done|by destruct (kind s)]); try (apply Hl; [vm_decide|]; destruct k as [[|t]|], (c_value c); try done; by eexists); try done.
  - apply bool_decide_eq_true in Ha. unfold visit_postings. rewrite Ht, Eo, Hone; [destruct (kind s); by left| |done]. by destruct (c_value c).
  - destruct (c_value c) as [| | | |vs|] eqn:Ev; try done. apply existsb_exists in Ha as (v & Hin & E%bool_decide_eq_true).
    assert (set ∈ flat_map (posting_of s) vs) as G; [|unfold visit_postings; rewrite Eo, Ev; by destruct (kind s)]. apply list_elem_of_In, in_flat_map. exists v. split; [done|].
    rewrite Hone; [by left| |done]. cbn [value_texts] in Hv. rewrite Forall_forall in Hv. by apply Hv, list_elem_of_In.
Qed.

(** ** The keys an index gives *)
Lemma elem_sorted_keys (k : str) (s : gset str) : k ∈ sorted_keys s ↔ k ∈ s.
Proof. unfold sorted_keys. rewrite merge_sort_Permutation. apply elem_of_elements. Qed.
Lemma sorted_keys_set (s : gset str) : (∀ k, k ∈ s → valid_str k) → key_set (sorted_keys s).
Proof.
  intros Hv. apply key_set_sorted; [apply StronglySorted_merge_sort; apply _|unfold sorted_keys; rewrite merge_sort_Permutation; apply NoDup_elements|].
  apply Forall_forall. intros k Hk. by apply Hv, elem_sorted_keys.
Qed.

(** An index of documents [docs]: it holds their values under its field. *)
Context (docs : str → option DocView) (qp : str).
Record index_ok (s : SecIndex) : Prop := {
  xo_maps : sec_ok s;
  xo_keys k x : SecIndex.rev s !! k = Some x → valid_str k;
  xo_rev k d : docs k = Some d → glob_match (SecIndex.pattern s) k = true → SecIndex.rev s !! k = SecIndex.value s d;
  xo_texts k x : SecIndex.rev s !! k = Some x → key_ok x;
  xo_names : (∃ p, paths s = [p] ∧ path_of (field s) = Ok p) ∨
    ((1 < length (paths s))%nat ∧ ∀ ps, mapM (fun f => ok (path_of f)) (names_of (field s)) = Some ps → ps = paths s);
}.
(** The texts of a document are texts. *)
Definition doc_texts (d : DocView) : Prop := ∀ path l x, view_get d path = Some l → leaf_key l = Some x → scalar_ok x.
Context (Hdocs : ∀ k d, docs k = Some d → valid_str k ∧ STAR ∉ k ∧ doc_texts d).
Lemma post_keys s x k : index_ok s → k ∈ post_get (SecIndex.map s) x → valid_str k.
Proof. intros Hs Hk. apply (so_map _ (xo_maps _ Hs)) in Hk. by apply (xo_keys _ Hs k x). Qed.
Lemma map_keys s x set : SecIndex.map s !! x = Some set → post_get (SecIndex.map s) x = set.
Proof. intros E. unfold post_get. by rewrite E. Qed.
Lemma post_some s x k : k ∈ post_get (SecIndex.map s) x → ∃ set, SecIndex.map s !! x = Some set ∧ k ∈ set.
Proof. unfold post_get. intros Hk. destruct (lookup x (SecIndex.map s)) as [set|]; [by exists set|by apply elem_of_empty in Hk]. Qed.
Lemma posting_in s x set : index_ok s → SecIndex.map s !! x = Some set → key_ok x.
Proof.
  intros Hs E. destruct (set_choose_L set) as [k Hk]; [by eapply (so_nonempty _ (xo_maps _ Hs))|].
  apply (xo_texts _ Hs k). apply (so_map _ (xo_maps _ Hs)). by rewrite (map_keys s x set).
Qed.
(** What is visited are postings. *)
Definition is_posting (s : SecIndex) (set : gset str) : Prop := ∃ x, SecIndex.map s !! x = Some set.
Lemma postings_of s f : Forall (fun p => is_posting s p.2) (List.filter f (postings s)).
Proof. apply Forall_forall. intros [x set] Hp%list_elem_of_In%List.filter_In. destruct Hp as [Hp%list_elem_of_In%elem_postings _]. by exists x. Qed.
Lemma posting_of_posting s v : Forall (is_posting s) (posting_of s v).
Proof. unfold posting_of. destruct (index_key v) as [x|]; [|done]. destruct (SecIndex.map s !! x) eqn:E; [|done]. apply Forall_singleton. by exists x. Qed.
Lemma visited s c : Forall (is_posting s) (visit_postings zone s c).
Proof.
  assert (∀ l, Forall (fun p : IKey * gset str => is_posting s p.2) l → Forall (is_posting s) l.*2) as Hsnd by (intros l Hl; by apply Forall_fmap).
  assert (∀ l, Forall (fun p : IKey * gset str => is_posting s p.2) l → Forall (is_posting s) (admitted zone c l)) as Hadm by (intros l Hl; by apply Hsnd, Forall_filter_).
  assert (Forall (fun p => is_posting s p.2) (postings s)) as Hall by (rewrite <- (filter_all (fun _ => true) (postings s)); [apply postings_of|by apply Forall_true]).
  assert (∀ lo hi, Forall (fun p => is_posting s p.2) (range_of s lo hi)) as Hr by (intros; apply postings_of).
  assert (∀ f l, Forall (fun p : IKey * gset str => is_posting s p.2) l → Forall (fun p => is_posting s p.2) (take_while f l)) as Ht by apply Forall_take_while.
  assert (∀ l, Forall (fun p : IKey * gset str => is_posting s p.2) l → Forall (fun p => is_posting s p.2) (List.rev l)) as Hrev by (intros l Hl; by apply Forall_rev).
  assert (∀ vs, Forall (is_posting s) (flat_map (posting_of s) vs)) as Hin.
  { intros vs. induction vs as [|v vs IH]; [constructor|]. cbn [flat_map]. apply Forall_app. split; [apply posting_of_posting|done]. }
  pose proof (posting_of_posting s) as Hone. unfold visit_postings. repeat case_match; auto.
Qed.
Lemma candidates_set s c : index_ok s → key_set (index_candidates zone s c).
Proof.
  intros Hs. apply sorted_keys_set. intros k (set & Hset & Hk)%elem_of_union_list. pose proof (visited s c) as Hv. rewrite Forall_forall in Hv.
  destruct (Hv set Hset) as [x Hx]. apply (post_keys s x k Hs). by rewrite (map_keys s x set).
Qed.

(** ** Every key that passes is in the plan *)
Context (sec : list SecIndex) (Hsec : Forall index_ok sec).
Definition test_ok (t : Test) : Prop :=
  c_pattern (cond t) = qp ∧ path_of (c_field (cond t)) = Ok (t_path t) ∧ value_texts (c_value (cond t)) ∧
  (tagged (c_value (cond t)) = None ∨ find_index sec (cond t) = None).
Fixpoint expr_ok (e : Expr) : Prop :=
  match e with ETest t => test_ok t | EAnd l | EOr l => Kdoc.all expr_ok l | ENot _ => True end.
(** [k] is a document of the pattern for which [e] holds. *)
Definition passes_with (e : DocView → bool) (k : str) : Prop := ∃ d, docs k = Some d ∧ glob_match qp k = true ∧ e d = true.
Definition holds_all (P : str → Prop) (l : list str) : Prop := key_set l ∧ ∀ k, P k → k ∈ l.

Lemma index_where_some {A} (f : A → bool) l n : index_where f l = Some n → ∃ x, l !! n = Some x ∧ f x = true.
Proof.
  revert n. induction l as [|x l IH]; intros n; [done|]. cbn [index_where]. destruct (f x) eqn:E; [intros [= <-]; by exists x|].
  destruct (index_where f l) as [m|]; [|done]. intros [= <-]. by apply IH.
Qed.
Lemma find_index_some c n : find_index sec c = Some n → ∃ s, sec !! n = Some s ∧ index_ok s ∧ usable c s = true ∧ indexable c = true.
Proof.
  unfold find_index. destruct (indexable c); [|done]. cbn [negb]. intros H_.
  assert (∃ s, sec !! n = Some s ∧ usable c s = true) as (s & Es & Hu).
  { destruct (bool_decide _); [apply index_where_some in H_ as (s & ? & [_ ?]%andb_true_iff); by exists s|].
    destruct (index_where _ _) as [m|] eqn:E; [|by apply index_where_some]. injection H_ as ->.
    apply index_where_some in E as (s & ? & [_ ?]%andb_true_iff). by exists s. }
  exists s. split; [done|]. split; [|done]. rewrite Forall_lookup in Hsec. by eapply Hsec.
Qed.
Lemma one_key s t k : index_ok s → usable (cond t) s = true → indexable (cond t) = true → test_ok t → tagged (c_value (cond t)) = None →
  passes_with (matches_view zone (ETest t)) k → ∃ x, SecIndex.rev s !! k = Some x ∧ admits zone (cond t) x = true.
Proof.
  intros Hs Hu Hi (Ep & Epath & _) Ht (d & Hd & Hg & Hm). unfold usable in Hu. rewrite !andb_true_iff in Hu.
  destruct Hu as [[[[Hl%Nat.eqb_eq Hf%negb_true_iff] _] Efld%bool_decide_eq_true] Hc]. rewrite Ep in Hc.
  destruct (Hdocs k d Hd) as (_ & Hstar & _). pose proof (xo_rev _ Hs k d Hd (covers_glob _ _ _ Hc Hstar Hg)) as Hrev.
  cbn [matches_view] in Hm. destruct (view_get d (t_path t)) as [l|] eqn:El; [|done].
  destruct (leaf_admitted (cond t) l Hi Ht Hm) as (x & Hx & Ha). exists (inl x). split; [|done]. etransitivity; [exact Hrev|].
  destruct (xo_names _ Hs) as [(p & Epa & Efp)|[? _]]; [|lia]. rewrite Efld, Epath in Efp. injection Efp as <-.
  unfold SecIndex.value. rewrite Epa. unfold value_one. rewrite Hf. cbn [leaf doc_leaves]. unfold doc_leaf. rewrite El.
  cbn [mbind option_bind]. unfold leaf_key in Hx. destruct (skey_from_leaf l) as [sk|]; [|done]. cbn [mbind option_bind] in *. by rewrite Hx.
Qed.
Lemma one_plan_holds s t : index_ok s → usable (cond t) s = true → indexable (cond t) = true → test_ok t → tagged (c_value (cond t)) = None →
  holds_all (passes_with (matches_view zone (ETest t))) (p_keys (one_plan zone s (cond t))).
Proof.
  intros Hs Hu Hi Hok Ht. split; [by apply candidates_set|]. intros k Hk. destruct (one_key s t k) as (x & Hx & Ha); [done..|].
  cbn [one_plan p_keys]. apply elem_sorted_keys. apply (so_map _ (xo_maps _ Hs)), post_some in Hx as (set & Em & Hx). apply elem_of_union_list. exists set. split; [|done].
  destruct Hok as (_ & _ & Hv & _). unfold usable in Hu. rewrite !andb_true_iff in Hu. apply (visit_complete s (cond t) x set); try done; [by apply Hu|].
  intros y sy Hy. by eapply posting_in.
Qed.
Lemma find_plain t n : test_ok t → find_index sec (cond t) = Some n → tagged (c_value (cond t)) = None.
Proof. intros (_ & _ & _ & [?|E]) Hn; [done|]. by rewrite E in Hn. Qed.
(** Keys checked against one more plan or one more index. *)
Lemma meet_holds P acc p : holds_all P (p_keys acc) → holds_all P (p_keys p) → holds_all P (p_keys (meet acc p)).
Proof. intros [Ha Pa] [Hp Pp]. destruct (intersect_exact _ _ Ha Hp) as [Hi Hk]. split; [done|]. intros k Hpk. apply Hk. auto. Qed.
Lemma join_holds P Q acc p : holds_all P (p_keys acc) → holds_all Q (p_keys p) → holds_all (fun k => P k ∨ Q k) (p_keys (join_plans acc p)).
Proof. intros [Ha Pa] [Hp Pp]. destruct (union_exact _ _ Ha Hp) as [Hi Hk]. split; [done|]. intros k [?|?]; apply Hk; auto. Qed.
Lemma filter_key_set f l : key_set l → key_set (List.filter f l).
Proof. intros [Hs Hv]. split; [by apply sorted_filter|by apply Forall_filter_]. Qed.
Lemma check_holds P acc n s t : holds_all P (p_keys acc) → (∀ k, P k → passes_with (matches_view zone (ETest t)) k) →
  index_ok s → usable (cond t) s = true → indexable (cond t) = true → test_ok t → tagged (c_value (cond t)) = None →
  holds_all P (p_keys (check_against zone acc (n, s, cond t))).
Proof.
  intros [Ha Pa] HP Hs Hu Hi Hok Ht. split; [by apply filter_key_set|]. intros k Hk. apply list_elem_of_In, List.filter_In. split; [by apply list_elem_of_In, Pa|].
  destruct (one_key s t k) as (x & -> & Hx); [done..|by apply HP|done].
Qed.

(** *** An index on several fields *)
Lemma tuple_part_spec s parts f y : tuple_part s (equalities parts) f = Some y → ∃ t, ETest t ∈ parts ∧ c_op (cond t) = CEq ∧ c_func (cond t) = None ∧
  c_field (cond t) = f ∧ pattern_covers (SecIndex.pattern s) (c_pattern (cond t)) = true ∧ tagged (c_value (cond t)) = None ∧ index_key (c_value (cond t)) = Some y.
Proof.
  unfold tuple_part. destruct (List.find _ _) as [c|] eqn:Ef; [|done]. cbn [mbind option_bind]. apply List.find_some in Ef as [Hin [Hf%bool_decide_eq_true Hc]%andb_true_iff].
  apply list_elem_of_In, list_elem_of_omap in Hin as (e & He & E). destruct e as [t| | |]; try done. destruct (bool_decide _ && _) eqn:Eb; [|done]. injection E as <-.
  apply andb_true_iff in Eb as [Ho%bool_decide_eq_true Hn%bool_decide_eq_true]. destruct (tagged _) eqn:Et; [done|]. intros Hy. by exists t.
Qed.
Lemma tuple_value s t d y : test_ok t → c_op (cond t) = CEq → c_func (cond t) = None → tagged (c_value (cond t)) = None → index_key (c_value (cond t)) = Some y →
  fold s = false → doc_texts d → matches_view zone (ETest t) d = true → value_one s d (t_path t) = Some y.
Proof.
  intros (_ & _ & Hv & _) Ho Hfn Ht Hy Hf Hd Hm. cbn [matches_view] in Hm. destruct (view_get d (t_path t)) as [l|] eqn:El; [|done].
  destruct (leaf_admitted (cond t) l) as (x & Hx & Ha); [|done|done|].
  { unfold indexable. rewrite Hfn, Ht, Ho, Hy. reflexivity. }
  rewrite admits_verdict in Ha by (by rewrite ?Ho). rewrite Ho in Ha. assert (order_to (inl x) (c_value (cond t)) = Some Eq) as E by (by destruct (order_to _ _) as [[]|]).
  apply order_eq in E; [|by eapply Hd|by destruct (c_value (cond t))]. unfold value_one. rewrite Hf. cbn [leaf doc_leaves]. unfold doc_leaf. rewrite El. cbn [mbind option_bind].
  unfold leaf_key in Hx. destruct (skey_from_leaf l) as [sk|]; [|done]. cbn [mbind option_bind] in *. rewrite Hx. cbn [fmap option_fmap option_map mbind option_bind]. by rewrite <- Hy, E.
Qed.
Definition all_hold (parts : list Expr) : str → Prop := passes_with (fun d => forallb (fun e => matches_view zone e d) parts).
Lemma all_hold_part parts e k : e ∈ parts → all_hold parts k → passes_with (matches_view zone e) k.
Proof. intros He (d & Hd & Hg & Hm). exists d. split; [done|]. split; [done|]. rewrite forallb_forall in Hm. by apply Hm, list_elem_of_In. Qed.
Lemma split_names_cons cur s : ∃ n ns, split_names cur s = n :: ns.
Proof.
  revert cur. induction s as [s IH] using (induction_ltof1 _ (@length Z)). intros cur. destruct s as [|c [|d rest]]; [by eexists _, _..|].
  assert (ltof str (@length Z) (d :: rest) (c :: d :: rest)) as Hl by (unfold ltof; cbn; lia).
  pose proof (IH (d :: rest) Hl (cur ++ [c])) as H_. cbn [split_names] in *. destruct ((c =? chr ",") && _); [by eexists _, _|exact H_].
Qed.
Lemma composite_one_holds s parts p : index_ok s → (1 < length (paths s))%nat → fold s = false → Forall expr_ok parts →
  composite_one (equalities parts) s = Some p → holds_all (all_hold parts) (p_keys p).
Proof.
  intros Hs Hlen Hf Hparts. unfold composite_one. destruct (mapM _ _) as [values|] eqn:Ev; [|done]. cbn [mbind option_bind]. intros [= <-]. cbn [p_keys].
  split; [apply sorted_keys_set; intros k; by apply post_keys|]. intros k (d & Hd & Hg & Hm). apply mapM_Some in Ev. apply elem_sorted_keys, (so_map _ (xo_maps _ Hs)).
  destruct (Hdocs k d Hd) as (_ & Hstar & Htext).
  assert (∀ f y, tuple_part s (equalities parts) f = Some y → ∃ q, path_of f = Ok q ∧ value_one s d q = Some y) as Hone.
  { intros f y (t & Hin & Ho & Hfn & <- & Hc & Htg & Hy)%tuple_part_spec. assert (test_ok t) as Hok by (rewrite Forall_forall in Hparts; by apply (Hparts (ETest t))).
    exists (t_path t). split; [apply Hok|]. apply (tuple_value s t d y); try done. rewrite forallb_forall in Hm. by apply (Hm (ETest t)), list_elem_of_In. }
  assert (glob_match (SecIndex.pattern s) k = true) as Hgs.
  { destruct (split_names_cons [] (field s)) as (n & ns & En). unfold names_of in Ev. rewrite En in Ev. inversion Ev as [|? y ? ? Hy]; subst.
    apply tuple_part_spec in Hy as (t & Hin & _ & _ & _ & Hc & _). rewrite Forall_forall in Hparts. destruct (Hparts _ Hin) as (Ep & _). rewrite Ep in Hc.
    by apply (covers_glob _ _ _ Hc). }
  etransitivity; [exact (xo_rev _ Hs k d Hd Hgs)|].
  assert (mapM (fun f => ok (path_of f)) (names_of (field s)) = Some (paths s) ∧ mapM (value_one s d) (paths s) = Some values) as [_ Hval].
  { destruct (xo_names _ Hs) as [(q & E & _)|[_ Hn]]; [by rewrite E in Hlen; cbn in Hlen; lia|].
    assert (∃ ps, Forall2 (fun f q => ok (path_of f) = Some q) (names_of (field s)) ps ∧ Forall2 (fun q y => value_one s d q = Some y) ps values) as (ps & H1 & H2).
    { clear -Ev Hone. induction Ev as [|f y fs ys Hy _ (ps & H1 & H2)]; [by exists []|]. destruct (Hone f y Hy) as (q & Eq & Hq). exists (q :: ps). split; constructor; try done. by rewrite Eq. }
    apply mapM_Some in H1, H2. rewrite <- (Hn ps H1). done. }
  unfold SecIndex.value. destruct (paths s) as [|q [|q' qs]]; [cbn in Hlen; lia..|]. rewrite Hval. done.
Qed.
Lemma find_map_some {A B} (f : A → option B) l b : find_map f l = Some b → ∃ x, x ∈ l ∧ f x = Some b.
Proof.
  induction l as [|x l IH]; [done|]. cbn [find_map]. destruct (f x) as [c|] eqn:E; [intros [= ->]; exists x; split; [by left|done]|].
  intros (y & Hy & Hb)%IH. exists y. split; [by right|done].
Qed.
Lemma composite_holds parts p : Forall expr_ok parts → composite_plan sec parts = Some p → holds_all (all_hold parts) (p_keys p).
Proof.
  intros Hparts. unfold composite_plan. destruct (Nat.ltb _ 2); [done|]. intros (s & Hin & Hp)%find_map_some.
  apply list_elem_of_In, List.filter_In in Hin as [Hin [Hl%Nat.ltb_lt Hf%negb_true_iff]%andb_true_iff]. rewrite Forall_forall in Hsec.
  apply (composite_one_holds s); try done. by apply Hsec, list_elem_of_In.
Qed.

(** *** Conjunctions and disjunctions *)
Lemma Forall_sort_by {A} (P : A → Prop) (f : A → Z) l : Forall P l → Forall P (sort_by_key f l).
Proof.
  assert (∀ x l, P x → Forall P l → Forall P (insert_by f x l)) as Hi.
  { intros x l' Hx. induction 1 as [|y l' Hy Hl IH]; cbn [insert_by]; [by constructor|]. destruct (_ <=? _); by repeat constructor. }
  induction 1 as [|x l' Hx _ IH]; [constructor|]. cbn [sort_by_key foldr]. by apply Hi.
Qed.
(** A comparison of [parts] and the index that answers it. *)
Definition indexed_test (parts : list Expr) (s : SecIndex) (c : Cond) : Prop :=
  ∃ t, ETest t ∈ parts ∧ c = cond t ∧ index_ok s ∧ usable c s = true ∧ indexable c = true ∧ test_ok t ∧ tagged (c_value c) = None.
Lemma find_test n t : test_ok t → find_index sec (cond t) = Some n →
  ∃ s, sec !! n = Some s ∧ index_ok s ∧ usable (cond t) s = true ∧ indexable (cond t) = true ∧ tagged (c_value (cond t)) = None.
Proof. intros Hok Hn. destruct (find_index_some _ _ Hn) as (s & ? & ? & ? & ?). exists s. repeat (split; [done|]). by eapply find_plain. Qed.
Lemma tests_indexed parts : Forall expr_ok parts → Forall (fun sc => indexed_test parts sc.1 sc.2) (tests_of sec parts).
Proof.
  intros Hp. apply Forall_forall. intros [s c] Hin. apply list_elem_of_omap in Hin as (e & He & E). destruct e as [t| | |]; try done.
  assert (test_ok t) as Hok by (rewrite Forall_forall in Hp; by apply (Hp (ETest t))). destruct (find_index sec (cond t)) as [n|] eqn:En; [|done].
  destruct (find_test n t Hok En) as (s' & Es & ? & ? & ? & ?). cbn [mbind option_bind] in E. rewrite Es in E. injection E as <- <-. exists t. by repeat (split; [done|]).
Qed.
Lemma sizes_indexed parts best tests : Forall (fun sc => indexed_test parts sc.1 sc.2) tests → Forall (fun t => indexed_test parts t.1.2 t.2) (sizes zone best tests).
Proof. intros Ht. revert best. induction Ht as [|[s c] tests Hx _ IH]; intros best; [constructor|]. cbn [sizes]. by constructor. Qed.
Lemma indexed_one parts s c : indexed_test parts s c → holds_all (all_hold parts) (p_keys (one_plan zone s c)).
Proof.
  intros (t & Hin & -> & Hs & Hu & Hi & Hok & Ht). destruct (one_plan_holds s t Hs Hu Hi Hok Ht) as [Hk Hall]. split; [done|].
  intros k Hp. by apply Hall, (all_hold_part parts).
Qed.
Lemma checks_hold parts sized acc : Forall (fun t => indexed_test parts t.1.2 t.2) sized → holds_all (all_hold parts) (p_keys acc) →
  holds_all (all_hold parts) (p_keys (fold_left (check_against zone) sized acc)).
Proof.
  intros Hs. revert acc. induction Hs as [|[[n s] c] sized (t & Hin & E & Hs & Hu & Hi & Hok & Ht) _ IH]; intros acc Ha; [done|].
  cbn [fst snd] in *. subst c.   apply IH, check_holds; try done. intros k. by apply all_hold_part.
Qed.
Lemma meets_hold P whole acc : Forall (fun p => holds_all P (p_keys p)) whole → holds_all P (p_keys acc) → holds_all P (p_keys (fold_left meet whole acc)).
Proof. intros Hw. revert acc. induction Hw as [|p whole Hp _ IH]; intros acc Ha; [done|]. by apply IH, meet_holds. Qed.
Lemma and_plan_holds plans p : Forall expr_ok plans.*1 → Forall (fun ep => ∀ p, ep.2 = Some p → holds_all (passes_with (matches_view zone ep.1)) (p_keys p)) plans →
  and_plan zone sec plans = Some p → holds_all (all_hold plans.*1) (p_keys p).
Proof.
  intros Hparts Hplans. unfold and_plan. set (parts := plans.*1) in *. set (whole := sort_by_key _ (omap _ _ ++ _)). set (sized := sort_by_key _ (sizes _ _ _)).
  assert (Forall (fun p => holds_all (all_hold parts) (p_keys p)) whole) as Hw.
  { apply Forall_sort_by, Forall_app. split; apply Forall_forall; intros q Hq.
    - apply list_elem_of_omap in Hq as ([e o] & Hin & E). rewrite Forall_forall in Hplans. destruct e; try done; cbn [fst snd] in E;
        destruct (Hplans _ Hin q E) as [Hk Hall]; (split; [done|]); intros k Hp; apply Hall, (all_hold_part parts); try done; by apply list_elem_of_fmap_2 with (f := fst) in Hin.
    - destruct (composite_plan sec parts) as [c|] eqn:Ec; [|by apply elem_of_nil in Hq]. apply list_elem_of_singleton in Hq as ->. by apply composite_holds. }
  assert (Forall (fun t => indexed_test parts t.1.2 t.2) sized) as Hs by (by apply Forall_sort_by, sizes_indexed, tests_indexed).
  clearbody whole sized. generalize (match sized, whole with (n, _, _) :: _, w :: _ => n <? len (p_keys w) | _ :: _, [] => true | [], _ => false end).
  assert (∀ whole sized acc, Forall (fun p => holds_all (all_hold parts) (p_keys p)) whole → Forall (fun t => indexed_test parts t.1.2 t.2) sized →
    holds_all (all_hold parts) (p_keys acc) → holds_all (all_hold parts) (p_keys (fold_left (check_against zone) sized (fold_left meet whole acc)))) as Hfin.
  { intros whole' sized' acc Hw' Hs' Ha. by apply checks_hold, meets_hold. }
  intros first E. assert (∃ acc whole' sized', Forall (fun p => holds_all (all_hold parts) (p_keys p)) whole' ∧ Forall (fun t => indexed_test parts t.1.2 t.2) sized' ∧
    holds_all (all_hold parts) (p_keys acc) ∧ p = fold_left (check_against zone) sized' (fold_left meet whole' acc)) as (acc & whole' & sized' & Hw' & Hs' & Ha & ->);
    [|by apply Hfin].
  destruct first.
  - destruct sized as [|[[n s] c] sized]; [by destruct whole|]. cbn [mbind option_bind] in E. injection E as <-. apply Forall_cons in Hs as [Hs1 Hs].
    eexists _, whole, sized. split; [done|]. split; [done|]. split; [|reflexivity]. by apply indexed_one.
  - destruct whole as [|w whole]; [by destruct sized|]. apply Forall_cons in Hw as [Hw1 Hw]. exists w, whole, sized. split; [done|]. split; [done|]. split; [done|].
    destruct sized; injection E as <-; reflexivity.
Qed.
Lemma or_plan_holds plans p : Forall (fun ep => ∀ p, ep.2 = Some p → holds_all (passes_with (matches_view zone ep.1)) (p_keys p)) plans →
  or_plan plans.*2 = Some p → holds_all (passes_with (fun d => existsb (fun e => matches_view zone e d) plans.*1)) (p_keys p).
Proof.
  unfold or_plan. intros Hplans. destruct (mapM id plans.*2) as [ps|] eqn:Em; [|done]. cbn [mbind option_bind]. apply mapM_Some in Em.
  assert (∀ (plans : list (Expr * option IndexPlan)) ps, Forall2 (fun x y => id x = Some y) plans.*2 ps →
    Forall (fun ep => ∀ p, ep.2 = Some p → holds_all (passes_with (matches_view zone ep.1)) (p_keys p)) plans →
    ∀ acc P, holds_all P (p_keys acc) → holds_all (fun k => P k ∨ passes_with (fun d => existsb (fun e => matches_view zone e d) plans.*1) k) (p_keys (fold_left join_plans ps acc))) as Hfold.
  { clear. intros plans. induction plans as [|[e o] plans IH]; intros ps Hf Hall acc P Ha; inversion Hf as [|? q ? qs Hq Hqs]; subst; cbn [fold_left].
    - destruct Ha as [Hk Hp]. split; [done|]. intros k [?|(d & _ & _ & Hm)]; [by apply Hp|done].
    - apply Forall_cons in Hall as [He Hall]. destruct (IH qs Hqs Hall (join_plans acc q) _ (join_holds _ _ _ _ Ha (He q Hq))) as [Hk Hp]. split; [done|].
      intros k [?|(d & Hd & Hg & Hm)]; apply Hp; [by left; left|]. cbn [List.map fst existsb] in Hm. apply orb_true_iff in Hm as [Hm|Hm]; [left; right|right]; by exists d. }
  destruct plans as [|[e o] plans]; inversion Em as [|? q ? qs Hq Hqs]; subst; intros [= <-]. cbn [p_keys].
  apply Forall_cons in Hplans as [He Hplans]. destruct (Hfold plans qs Hqs Hplans q _ (He q Hq)) as [Hk Hp]. split; [done|].
  intros k (d & Hd & Hg & Hm). apply Hp. cbn [fmap list_fmap fst existsb] in Hm. apply orb_true_iff in Hm as [Hm|Hm]; [left|right]; by exists d.
Qed.

(** *** Any condition *)
Lemma Expr_ind' (P : Expr → Prop) : (∀ t, P (ETest t)) → (∀ l, Forall P l → P (EAnd l)) → (∀ l, Forall P l → P (EOr l)) → (∀ e, P e → P (ENot e)) → ∀ e, P e.
Proof.
  intros Ht Ha Ho Hn. fix IH 1. intros [t|l|l|e]; [apply Ht|apply Ha|apply Ho|by apply Hn]; (induction l as [|e l IHl]; constructor; [apply IH|done]).
Qed.
Lemma map_pair_fst {A B} (f : A → B) l : (List.map (fun x => (x, f x)) l).*1 = l.
Proof. induction l as [|x l IH]; [done|]. cbn. by f_equal. Qed.
Lemma map_pair_snd {A B} (f : A → B) l : (List.map (fun x => (x, f x)) l).*2 = List.map f l.
Proof. induction l as [|x l IH]; [done|]. cbn. by f_equal. Qed.
Lemma index_plan_holds e : expr_ok e → ∀ p, index_plan zone sec e = Some p → holds_all (passes_with (matches_view zone e)) (p_keys p).
Proof.
  assert (∀ l, Forall (fun e => expr_ok e → ∀ p, index_plan zone sec e = Some p → holds_all (passes_with (matches_view zone e)) (p_keys p)) l → Forall expr_ok l →
    Forall (fun ep : Expr * option IndexPlan => ∀ p, ep.2 = Some p → holds_all (passes_with (matches_view zone ep.1)) (p_keys p)) (List.map (fun p => (p, index_plan zone sec p)) l)) as Hl.
  { intros l IH Hok. induction IH as [|x l Hx _ IHl]; [constructor|]. apply Forall_cons in Hok as [H1 H2]. constructor; [by apply Hx|by apply IHl]. }
  induction e as [t|l IH|l IH|e IH] using Expr_ind'; intros Hok p Hp; cbn [index_plan] in Hp; [| | |done].
  - destruct (find_index sec (cond t)) as [n|] eqn:En; [|done]. destruct (find_test n t Hok En) as (s & Es & ? & ? & ? & ?).
    cbn [mbind option_bind] in Hp. rewrite Es in Hp. injection Hp as <-. by apply one_plan_holds.
  - apply all_Forall in Hok. pose proof (and_plan_holds (List.map (fun p => (p, index_plan zone sec p)) l) p) as Hand. rewrite map_pair_fst in Hand.
    apply Hand; [exact Hok|exact (Hl l IH Hok)|exact Hp].
  - apply all_Forall in Hok. pose proof (or_plan_holds _ p (Hl l IH Hok)) as Hor. rewrite map_pair_fst, map_pair_snd in Hor. by apply Hor.
Qed.
(** A probe refuses no key of a document that passes. *)
Lemma probe_passes e k : expr_ok e → passes_with (matches_view zone e) k → passes zone sec k (probe_of sec e) = true.
Proof.
  revert k. induction e as [t|l IH|l IH|e IH] using Expr_ind'; intros k Hok Hk; cbn [probe_of]; [| | |done].
  - destruct (find_index sec (cond t)) as [n|] eqn:En; [|done]. destruct (find_test n t Hok En) as (s & Es & Hs & Hu & Hi & Ht).
    destruct (one_key s t k) as (x & Hx & Ha); [done..|]. cbn [passes]. rewrite Es. cbn [mbind option_bind]. by rewrite Hx.
  - apply all_Forall in Hok. assert (forallb (passes zone sec k) (List.map (probe_of sec) l) = true) as Hall.
    { apply forallb_forall. intros q (e & <- & He)%in_map_iff. rewrite Forall_forall in IH, Hok. apply list_elem_of_In in He. apply IH; [done|by apply Hok|].
      by apply (all_hold_part l). }
    destruct (List.filter _ _) as [|q qs] eqn:Ef; [done|]. cbn [passes]. rewrite <- Ef. apply forallb_forall. intros r [Hr _]%List.filter_In.
    rewrite forallb_forall in Hall. by apply Hall.
  - apply all_Forall in Hok. destruct (existsb is_any_probe _); [done|]. cbn [passes]. destruct Hk as (d & Hd & Hg & Hm). cbn [matches_view] in Hm.
    apply existsb_exists in Hm as (e & He & Hm). apply existsb_exists. exists (probe_of sec e). split; [by apply in_map|].
    rewrite Forall_forall in IH, Hok. apply list_elem_of_In in He. apply IH; [done|by apply Hok|by exists d].
Qed.
End plan_thm.

(** C5: an index narrows a reading and never loses a document. For any
    condition, the keys the planner takes from the indexes are in order, each
    once, and hold every document of the pattern that passes; a probe of the
    indexes refuses no such document. (The indexes hold their documents,
    whose keys have no star; no comparison with a moment is answered by an
    index.) *)
Theorem index_narrows `{HN : JsonNumbers} `{HM : !JsonMake} `{HD : Decimals} `{HF : !DecimalFrom} `{HT : !DecimalText} `{HB : !DecimalBytes}
    `{HC : Chrono} `{HK : !Calendar} `{HR : !Rfc3339} `{HS : !Serde} `{HL : Lowercase} `{LD : !DecimalsLaws} `{LJ : !JsonNumbersLaws} `{LF : !DecimalFromLaws}
    (zone : Zone) (docs : str → option DocView) (qp : str) (sec : list SecIndex) (e : Expr) :
  (∀ k d, docs k = Some d → valid_str k ∧ STAR ∉ k ∧ doc_texts d) → Forall (index_ok docs) sec → expr_ok qp sec e →
  (∀ p, index_plan zone sec e = Some p →
     key_set (p_keys p) ∧ ∀ k d, docs k = Some d → glob_match qp k = true → matches_view zone e d = true → k ∈ p_keys p) ∧
  ∀ k d, docs k = Some d → glob_match qp k = true → matches_view zone e d = true → passes zone sec k (probe_of sec e) = true.
Proof.
  intros Hdocs Hsec He. split.
  - intros p Hp. destruct (index_plan_holds zone docs qp Hdocs sec Hsec e He p Hp) as [Hk Hin]. split; [exact Hk|]. intros k d Hd Hg Hm. apply Hin. by exists d.
  - intros k d Hd Hg Hm. apply (probe_passes zone docs qp Hdocs sec Hsec e k He). by exists d.
Qed.
