(* ===== verification/Auth.v ===== *)
(** * [src/auth.rs]: accounts, grants and what they reach; the move of a
    workspace in [src/instance.rs]

    The system database is the documents it holds, by key; what makes a call
    fail on the disk is left out, but a stop between two writes is not. The
    hash of a password is a parameter. *)
From S2P Require Import Prelude Utf8 Text Maps Util DocNum Ordering Kdoc Paths Times Json.

Definition ITERATIONS : Z := 60000.
Definition MODEL : Z := 2.
Inductive Role := Admin | Editor | Viewer.
#[export] Instance role_eq_dec : EqDecision Role.
Proof. solve_decision. Defined.
Definition Role_name (r : Role) : str := match r with Admin => lit "admin" | Editor => lit "editor" | Viewer => lit "viewer" end.
Definition Role_from_name (s : str) : option Role :=
  let s := lower s in
  if bool_decide (s = lit "admin") then Some Admin
  else if bool_decide (s = lit "editor") then Some Editor
  else if bool_decide (s = lit "viewer") then Some Viewer else None.
Inductive Priv := PRead | PWrite.
#[export] Instance priv_eq_dec : EqDecision Priv.
Proof. solve_decision. Defined.
Definition Priv_name (p : Priv) : str := match p with PRead => lit "read" | PWrite => lit "write" end.
(** The derived order: reading is below writing. *)
Definition priv_max (p q : Priv) : Priv := match p with PWrite => PWrite | PRead => q end.

Record User := {
  u_name : str; role : Role; grants : gmap str Priv; default_workspace : option str; timezone : option str;
  formats : gmap str str; created : Z; salt : bytes; hash : bytes; iterations : Z;
}.
(** PBKDF2-HMAC-SHA256 of a password, 32 bytes. *)
Class Pbkdf2 := { pbkdf2 : bytes → bytes → Z → bytes }.

(** The documents of the system database. *)
Abbreviation Sys := (gmap str Json) (only parsing).

(** ** Names and scopes *)
Definition alnum (c : Z) : bool := ((48 <=? c) && (c <=? 57)) || ((65 <=? c) && (c <=? 90)) || ((97 <=? c) && (c <=? 122)).
Definition part_char (c : Z) : bool := alnum c || (c =? 95) || (c =? 45).
Definition valid_username (name : str) : bool :=
  negb (bool_decide (name = [])) && (str_len name <=? 64) && forallb (fun c => part_char c || (c =? 46)) name.
Definition valid_name_part (name : str) : bool := negb (bool_decide (name = [])) && (str_len name <=? 64) && forallb part_char name.
(** [split_once('.')] *)
Definition split_dot (s : str) : option (str * str) := cut_at DOT s.
Definition valid_workspace_name (name : str) : bool :=
  match split_dot name with Some (project, rest) => valid_name_part project && valid_name_part rest | None => valid_name_part name end.
Definition check_workspace_name (name : str) : result KivaError unit :=
  if valid_workspace_name name then Ok tt
  else Err (Invalid "workspace names may only contain letters, digits, '_' and '-', with one '.' after a project name (travel.places)").
Definition project_of (workspace : str) : option str := fst <$> split_dot workspace.
Definition ANY : str := lit "*".
Definition normalize_scope (scope : str) : result msg str :=
  let s := Utf8.trim scope in
  if bool_decide (s = ANY) || bool_decide (s = lit "*.*") || same_word s (lit "all") then Ok ANY
  else
    let ok := match split_dot s with
              | Some (p, w) => (bool_decide (p = ANY) || valid_name_part p) && (bool_decide (w = ANY) || valid_name_part w)
              | None => valid_name_part s
              end in
    if ok then Ok s else Err "'{scope}' is not a scope"%string.
Definition scope_covers (scope workspace : str) : bool :=
  if bool_decide (scope = ANY) then true
  else match split_dot scope, split_dot workspace with
       | Some (sp, sw), Some (p, w) => (bool_decide (sp = ANY) || bool_decide (sp = p)) && (bool_decide (sw = ANY) || bool_decide (sw = w))
       | None, None => bool_decide (scope = workspace)
       | _, _ => false
       end.

(** ** What a user reaches *)
(** [max] of an iterator *)
Definition max_priv (l : list Priv) : option Priv := foldr (fun p o => Some (from_option (priv_max p) p o)) None l.
Definition access (u : User) (workspace : str) : option Priv :=
  if bool_decide (role u = Admin) then Some PWrite
  else max_priv (List.map snd (List.filter (fun sp => scope_covers sp.1 workspace) (entries (grants u)))).
Definition manages_project (u : User) (project : str) : bool :=
  match role u with
  | Admin => true
  | Viewer => false
  | Editor => existsb (fun s => bool_decide (grants u !! s = Some PWrite)) [project ++ lit ".*"; ANY]
  end.
Definition manages (u : User) (workspace : str) : bool :=
  bool_decide (role u = Admin) || match project_of workspace with Some p => manages_project u p | None => false end.
Definition reaches (u : User) (w : str) : bool := match access u w with Some _ => true | None => false end.
Definition arrival (u : User) (existing : list str) : option str :=
  let by_default := match default_workspace u with
                    | Some w => if existsb (fun x => bool_decide (x = w)) existing && reaches u w then Some w else None
                    | None => None
                    end in
  match by_default with
  | Some w => Some w
  | None =>
    if bool_decide (role u = Admin) then Some (lit "default")
    else match List.filter (reaches u) existing with [only] => Some only | _ => None end
  end.

Section accounts.
  Context `{HN : JsonNumbers} `{HM : !JsonMake} `{HP : Pbkdf2}.

Definition hash_password (password : str) (salt : bytes) (iterations : Z) : bytes := pbkdf2 (utf8 password) salt iterations.
(** [random] is what the system generator gives, if anything. *)
Definition new_user (name password : str) (r : Role) (now : Z) (random : option bytes) : result KivaError User :=
  salt ← ok_or random (Other "ERR_RANDOM_UNAVAILABLE");
  Ok {| u_name := name; role := r; grants := ∅; default_workspace := None; timezone := None; formats := ∅; created := now;
        salt := salt; hash := hash_password password salt ITERATIONS; iterations := ITERATIONS |}.
(** The comparison goes over every byte. *)
Fixpoint xor_all (a b : bytes) (acc : Z) : Z :=
  match a, b with x :: a, y :: b => xor_all a b (Z.lor acc (Z.lxor x y)) | _, _ => acc end.
Definition verify (u : User) (password : str) : bool :=
  let h := hash_password password (salt u) (iterations u) in
  (len h =? len (hash u)) && (xor_all h (hash u) 0 =? 0).
Definition has_empty_password (u : User) : bool := verify u [].
Definition set_secret (salt hash : bytes) (u : User) : User :=
  {| u_name := u_name u; role := role u; grants := grants u; default_workspace := default_workspace u; timezone := timezone u;
     formats := formats u; created := created u; salt := salt; hash := hash; iterations := ITERATIONS |}.
Definition set_password (u : User) (password : str) (random : option bytes) : result KivaError unit * User :=
  match random with
  | None => (Err (Other "ERR_RANDOM_UNAVAILABLE"), u)
  | Some salt => (Ok tt, set_secret salt (hash_password password salt ITERATIONS) u)
  end.

(** *** Accounts as JSON *)
Definition opt_json (o : option str) : Json := from_option JString JNull o.
Definition to_json (u : User) : Json :=
  JObject ([(lit "salt", JString (hex_encode (salt u))); (lit "hash", JString (hex_encode (hash u)));
            (lit "iterations", JNumber (num_from_i64 (iterations u))); (lit "role", JString (Role_name (role u)));
            (lit "grants", JObject (List.map (fun kp => (kp.1, JString (Priv_name kp.2))) (entries (grants u))));
            (lit "default_workspace", opt_json (default_workspace u)); (lit "timezone", opt_json (timezone u));
            (lit "created", JNumber (num_from_i64 (created u))); (lit "model", JNumber (num_from_i64 MODEL))] ++
           (if bool_decide (formats u = ∅) then []
            else [(lit "formats", JObject (List.map (fun kv => (kv.1, JString kv.2)) (entries (formats u))))])).
(** [j[k]]: null when [j] has no field [k]. *)
Definition field (k : str) (j : Json) : Json := match j with JObject m => default JNull (m_get k m) | _ => JNull end.
(** [j.get(k).is_some()] *)
Definition has_field (k : str) (j : Json) : bool := match j with JObject m => match m_get k m with Some _ => true | None => false end | _ => false end.
Definition as_object (j : Json) : option (list (str * Json)) := match j with JObject m => Some m | _ => None end.
Definition json_i64 (j : Json) : option Z := match j with JNumber n => as_i64 n | _ => None end.
Definition json_u64 (j : Json) : option Z :=
  match j with
  | JNumber n => match as_i64 n with Some i => if 0 <=? i then Some i else None | None => as_u64 n end
  | _ => None
  end.
Definition grant_of (kv : str * Json) : option (str * Priv) :=
  match as_str kv.2 with
  | Some v => if bool_decide (v = lit "write") then Some (kv.1, PWrite) else if bool_decide (v = lit "read") then Some (kv.1, PRead) else None
  | None => None
  end.
Definition format_of (kv : str * Json) : option (str * str) := s ← as_str kv.2; Some (kv.1, s).
Definition user_from_json (name : str) (j : Json) : option User :=
  r ← as_str (field (lit "role") j); r ← Role_from_name r;
  s ← as_str (field (lit "salt") j); s ← hex_decode s;
  h ← as_str (field (lit "hash") j); h ← hex_decode h;
  n ← json_u64 (field (lit "iterations") j);
  Some {| u_name := name; role := r;
          grants := list_to_map (rev (omap grant_of (default [] (as_object (field (lit "grants") j)))));
          default_workspace := as_str (field (lit "default_workspace") j); timezone := as_str (field (lit "timezone") j);
          formats := list_to_map (rev (omap format_of (default [] (as_object (field (lit "formats") j)))));
          created := default 0 (json_i64 (field (lit "created") j));
          salt := s; hash := h; iterations := wrap 32 n |}.

(** ** The system database *)
Definition user_key (name : str) : str := lit "user:" ++ name.
Definition get_user (sys : Sys) (name : str) : option User := j ← sys !! user_key name; user_from_json name j.
Definition save_user (u : User) (sys : Sys) : Sys := <[user_key (u_name u) := to_json u]> sys.
Definition create_user (name password : str) (r : Role) (now : Z) (random : option bytes) (sys : Sys) : result KivaError User * Sys :=
  if negb (valid_username name) then (Err (Invalid "user names may only contain letters, digits, '_', '-' and '.'"), sys)
  else match get_user sys name with
       | Some _ => (Err (Exists_ "user '{name}' already exists"), sys)
       | None =>
         match new_user name password r now random with
         | Ok u => (Ok u, save_user u sys)
         | Err e => (Err e, sys)
         end
       end.
Definition delete_user (name : str) (sys : Sys) : bool * Sys := (bool_decide (is_Some (sys !! user_key name)), base.delete (user_key name) sys).
(** The keys of a pattern, in their order. *)
Definition matching (pattern : str) (sys : Sys) : list str := List.filter (glob_match pattern) (keys_of sys).
Definition USER_PREFIX : nat := 5.
Definition list_users (sys : Sys) : list User := omap (fun key => get_user sys (drop USER_PREFIX key)) (matching (lit "user:*") sys).
Definition DEFAULT_ADMIN : str := lit "kiva".
Definition rename_admin (u : User) : User :=
  {| u_name := DEFAULT_ADMIN; role := Admin; grants := grants u; default_workspace := default_workspace u; timezone := timezone u;
     formats := formats u; created := created u; salt := salt u; hash := hash u; iterations := iterations u |}.
Definition ensure_admin (now : Z) (random : option bytes) (sys : Sys) : result KivaError unit * Sys :=
  match get_user sys DEFAULT_ADMIN with
  | Some _ => (Ok tt, sys)
  | None =>
    match get_user sys (lit "root") with
    | Some legacy => (Ok tt, (delete_user (lit "root") (save_user (rename_admin legacy) sys)).2)
    | None =>
      match new_user DEFAULT_ADMIN [] Admin now random with
      | Ok u => (Ok tt, save_user u sys)
      | Err e => (Err e, sys)
      end
    end
  end.

(** *** Accounts made before grants *)
Definition set_reach (g : gmap str Priv) (d : option str) (u : User) : User :=
  {| u_name := u_name u; role := role u; grants := g; default_workspace := d; timezone := timezone u; formats := formats u;
     created := created u; salt := salt u; hash := hash u; iterations := iterations u |}.
Definition personal (u : User) : str := lit "u_" ++ u_name u.
Definition with_personal (exists_ : str → bool) (u : User) : bool * User :=
  if negb (bool_decide (role u = Admin)) && exists_ (personal u) then
    (true, set_reach (match grants u !! personal u with Some _ => grants u | None => <[personal u := PWrite]> (grants u) end)
                     (Some (default (personal u) (default_workspace u))) u)
  else (false, u).
Definition migrate_one (exists_ : str → bool) (key : str) (st : Sys * nat) : Sys * nat :=
  let '(sys, n) := st in
  match sys !! key with
  | None => st
  | Some j =>
    if has_field (lit "model") j then st
    else match user_from_json (drop USER_PREFIX key) j with
         | None => st
         | Some u => let '(b, u) := with_personal exists_ u in (save_user u sys, if b then S n else n)
         end
  end.
Definition migrate_personal_workspaces (exists_ : str → bool) (sys : Sys) : nat * Sys :=
  let '(sys, n) := List.fold_left (fun st key => migrate_one exists_ key st) (matching (lit "user:*") sys) (sys, O) in (n, sys).
End accounts.

(** ** What grants reach *)
Lemma max_priv_write l : max_priv l = Some PWrite ↔ PWrite ∈ l.
Proof.
  induction l as [|p l IH]; cbn [max_priv foldr]; [split; [done|by intros ?%elem_of_nil]|]. fold (max_priv l). rewrite elem_of_cons, <- IH.
  destruct p; [|split; [by left|by destruct (max_priv l)]]. destruct (max_priv l) as [[]|]; cbn; split; naive_solver.
Qed.
Lemma max_priv_none l : max_priv l = None ↔ l = [].
Proof. by destruct l. Qed.
Lemma covering u w p : p ∈ List.map snd (List.filter (fun sp => scope_covers sp.1 w) (entries (grants u))) ↔
  ∃ scope, grants u !! scope = Some p ∧ scope_covers scope w = true.
Proof.
  rewrite list_elem_of_In, in_map_iff. split.
  - intros ([s p'] & <- & [Hin Hc]%filter_In). exists s. split; [|done]. by apply elem_of_entries, list_elem_of_In.
  - intros (s & Hs & Hc). exists (s, p). split; [done|]. apply filter_In. split; [|done]. by apply list_elem_of_In, elem_of_entries.
Qed.
(** C39: what a user who is not an administrator can do in a workspace is the
    most that a grant covering it gives: to write when one gives it, nothing
    when none covers it, to read otherwise. *)
Theorem access_exact u w : role u ≠ Admin →
  (access u w = Some PWrite ↔ ∃ scope, grants u !! scope = Some PWrite ∧ scope_covers scope w = true) ∧
  (access u w = None ↔ ∀ scope p, grants u !! scope = Some p → scope_covers scope w = false).
Proof.
  intros Hr. unfold access. rewrite bool_decide_eq_false_2 by done. rewrite max_priv_write, covering. split; [done|].
  rewrite max_priv_none. split.
  - intros E scope p Hs. destruct (scope_covers scope w) eqn:Ec; [|done]. assert (p ∈ @nil Priv) as []%elem_of_nil. rewrite <- E. apply covering. by exists scope.
  - intros H. destruct (List.map _ _) as [|p l] eqn:E; [done|]. assert (p ∈ p :: l) as Hp by left. rewrite <- E in Hp. apply covering in Hp as (s & Hs & Hc).
    by rewrite (H s p Hs) in Hc.
Qed.
Definition sample_user : User :=
  {| u_name := lit "dev"; role := Editor; grants := {[lit "travel.*" := PWrite]}; default_workspace := None; timezone := None; formats := ∅;
     created := 0; salt := [1; 2]; hash := [3]; iterations := 60000 |}.
Lemma access_exact_witness : role sample_user ≠ Admin ∧ access sample_user (lit "travel.places") = Some PWrite ∧ access sample_user (lit "places") = None.
Proof.
  assert (role sample_user ≠ Admin) as H by done. split; [exact H|]. split.
  - apply (proj1 (access_exact _ (lit "travel.places") H)). exists (lit "travel.*"). by split.
  - apply (proj2 (access_exact _ (lit "places") H)). intros scope p Hs. change (({[lit "travel.*" := PWrite]} : gmap str Priv) !! scope = Some p) in Hs. apply lookup_singleton_Some in Hs as [<- _]. reflexivity.
Defined.

Lemma split_dot_project p : DOT ∉ p → split_dot (p ++ lit ".*") = Some (p, ANY).
Proof. intros H. exact (cut_at_app DOT p ANY H). Qed.
(** Whoever manages a workspace can write in it, and in every other
    workspace of its project. *)
Theorem manages_writes u w v p : manages u w = true → project_of w = Some p → project_of v = Some p → access u v = Some PWrite.
Proof.
  unfold manages, access. intros H Ep Ev. case_bool_decide as Hr; [done|]. cbn [orb] in H. rewrite Ep in H. apply max_priv_write, covering.
  unfold project_of in Ep, Ev. destruct (split_dot v) as [[p' r]|] eqn:Es; [|done]. injection Ev as ->. unfold split_dot in Es. pose proof (cut_at_split _ _ _ _ Es) as [_ Hp].
  unfold manages_project in H. destruct (role u); [done| |done]. cbn [existsb] in H. rewrite orb_false_r, orb_true_iff, !bool_decide_eq_true in H. destruct H as [H|H].
  - exists (p ++ lit ".*"). split; [done|]. unfold scope_covers. case_bool_decide; [done|]. rewrite split_dot_project by done. unfold split_dot. rewrite Es.
    rewrite (bool_decide_eq_true_2 (p = p)), (bool_decide_eq_true_2 (ANY = ANY)) by done. by rewrite orb_true_r.
  - exists ANY. split; [done|]. unfold scope_covers. by rewrite bool_decide_eq_true_2.
Qed.
Lemma manages_writes_witness : manages sample_user (lit "travel.cache") = true ∧ access sample_user (lit "travel.places") = Some PWrite.
Proof.
  assert (manages sample_user (lit "travel.cache") = true) as H by reflexivity. split; [exact H|].
  exact (manages_writes sample_user (lit "travel.cache") (lit "travel.places") (lit "travel") H eq_refl eq_refl).
Defined.

(** ** Accounts are read back *)
Section accounts_thm.
  Context `{HN : JsonNumbers} `{HM : !JsonMake} `{LN : !JsonNumbersLaws} `{LM : !JsonMakeLaws} `{HP : Pbkdf2}.

Record user_ok (u : User) : Prop := {
  ok_salt : all_bytes (salt u);
  ok_hash : all_bytes (hash u);
  ok_iterations : in_u 32 (iterations u);
  ok_created : in_i64 (created u);
}.
Lemma map_of_entries {A} (m : gmap str A) : list_to_map (rev (entries m)) = m.
Proof.
  rewrite <- (list_to_map_to_list m) at 2. apply list_to_map_proper.
  - rewrite List.map_rev. apply NoDup_ListNoDup, List.NoDup_rev, NoDup_ListNoDup, entries_NoDup.
  - rewrite <- Permutation_rev. apply entries_perm.
Qed.
Lemma omap_map_some {A B} (f : A → B) (g : B → option A) l : (∀ x, g (f x) = Some x) → omap g (List.map f l) = l.
Proof. intros H. induction l as [|x l IH]; [done|]. cbn. by rewrite H, IH. Qed.
Lemma role_back r : Role_from_name (Role_name r) = Some r.
Proof. by destruct r. Qed.
Lemma formats_field u : default [] (as_object (field (lit "formats") (to_json u))) = List.map (fun kv => (kv.1, JString kv.2)) (entries (formats u)).
Proof.
  unfold to_json. case_bool_decide as H; [|reflexivity]. rewrite H. unfold entries. by rewrite map_to_list_empty.
Qed.
Lemma json_u64_back n : in_u 32 n → json_u64 (JNumber (num_from_i64 n)) = Some n.
Proof. unfold in_u. intros H. cbn [json_u64]. rewrite from_i64_as by (unfold in_i64, i64_min, i64_max; lia). by rewrite leb_t by lia. Qed.
Lemma user_back u : user_ok u → user_from_json (u_name u) (to_json u) = Some u.
Proof.
  intros [Hs Hh Hi Hc]. unfold user_from_json.
  assert (field (lit "role") (to_json u) = JString (Role_name (role u))) as -> by reflexivity.
  assert (field (lit "salt") (to_json u) = JString (hex_encode (salt u))) as -> by reflexivity.
  assert (field (lit "hash") (to_json u) = JString (hex_encode (hash u))) as -> by reflexivity.
  assert (field (lit "iterations") (to_json u) = JNumber (num_from_i64 (iterations u))) as -> by reflexivity.
  assert (field (lit "created") (to_json u) = JNumber (num_from_i64 (created u))) as -> by reflexivity.
  assert (field (lit "default_workspace") (to_json u) = opt_json (default_workspace u)) as -> by reflexivity.
  assert (field (lit "timezone") (to_json u) = opt_json (timezone u)) as -> by reflexivity.
  assert (field (lit "grants") (to_json u) = JObject (List.map (fun kp => (kp.1, JString (Priv_name kp.2))) (entries (grants u)))) as -> by reflexivity.
  rewrite formats_field. cbn [as_str mbind option_bind as_object from_option json_i64 id]. unfold id.
  rewrite role_back. cbn [mbind option_bind]. rewrite !hex_roundtrip by done. cbn [mbind option_bind]. rewrite json_u64_back by done. cbn [mbind option_bind].
  rewrite from_i64_as, wrap_small by done. rewrite !omap_map_some by (by intros [? []] || by intros []). rewrite !map_of_entries.
  destruct u as [n r g [d|] [t|] fo c sa ha it]; reflexivity.
Qed.
Lemma hex_pairs_bytes b : ∀ out, hex_pairs b = Some out → all_bytes out.
Proof.
  assert (∀ c d, nib c = Some d → 0 ≤ d < 16) as Hn.
  { intros c d. unfold nib. repeat case_match; try done; intros [= <-]; rewrite ?andb_true_iff, ?Z.leb_le in *; lia. }
  assert (∀ n b out, (length b ≤ n)%nat → hex_pairs b = Some out → all_bytes out) as H; [|intros; by eapply H].
  clear b. induction n as [|n IH]; intros [|x [|y b]] out Hl; cbn in Hl; try lia; cbn [hex_pairs]; try (intros [= <-]; constructor).
  destruct (nib x) as [hi|] eqn:Ex; [|done]. destruct (nib y) as [lo|] eqn:Ey; [|done]. destruct (hex_pairs b) as [o|] eqn:Eb; [|done].
  intros [= <-]. constructor; [|apply (IH b); [lia|done]]. apply Hn in Ex, Ey. rewrite lor_shiftl_add by lia. unfold is_byte. lia.
Qed.
Lemma read_user_ok name j u : user_from_json name j = Some u → u_name u = name ∧ user_ok u.
Proof.
  unfold user_from_json. destruct (as_str (field (lit "role") j)) as [r0|]; [|done]. cbn [mbind option_bind]. destruct (Role_from_name r0); [|done]. cbn [mbind option_bind].
  destruct (as_str (field (lit "salt") j)) as [s0|]; [|done]. cbn [mbind option_bind]. destruct (hex_decode s0) as [s|] eqn:Es; [|done]. cbn [mbind option_bind].
  destruct (as_str (field (lit "hash") j)) as [h0|]; [|done]. cbn [mbind option_bind]. destruct (hex_decode h0) as [h|] eqn:Eh; [|done]. cbn [mbind option_bind].
  destruct (json_u64 _) as [n|]; [|done]. cbn [mbind option_bind]. intros [= <-]. split; [done|]. unfold hex_decode in Es, Eh.
  split; cbn [salt hash iterations created].
  - destruct (Nat.even _); [|done]. by eapply hex_pairs_bytes.
  - destruct (Nat.even (length (utf8 h0))); [|done]. by eapply hex_pairs_bytes.
  - by apply wrap_in_u.
  - destruct (json_i64 _) as [i|] eqn:Ei; cbn; [|unfold in_i64, i64_min, i64_max; lia]. destruct (field _ j); try done. cbn in Ei.
    destruct (number_cases n0) as [(i' & E & Hi)|[(E & _)|(E & _)]]; congruence.
Qed.

(** ** The accounts of the system database *)
Lemma user_key_inj a b : user_key a = user_key b → a = b.
Proof. unfold user_key. apply app_inv_head. Qed.
Lemma get_save (u : User) (name : str) (sys : Sys) : user_ok u → get_user (save_user u sys) name = if bool_decide (name = u_name u) then Some u else get_user sys name.
Proof.
  intros Hu. unfold get_user, save_user. case_bool_decide as Hn.
  - subst name. rewrite lookup_insert_eq. cbn. by apply user_back.
  - rewrite lookup_insert_ne; [done|]. intros E%user_key_inj. congruence.
Qed.
Lemma get_other (k : str) (x : option Json) (sys : Sys) (name : str) : k ≠ user_key name → get_user (match x with Some j => <[k := j]> sys | None => base.delete k sys end) name = get_user sys name.
Proof. intros Hk. unfold get_user. destruct x; [by rewrite lookup_insert_ne|by rewrite lookup_delete_ne]. Qed.
(** Making an account changes no other, and is refused for a name that is
    taken or that the system generator leaves without a salt; the account made
    opens with its password, and has no grant. *)
Theorem create_user_exact (name password : str) (r : Role) (now : Z) (random : option bytes) (sys : Sys) :
  match create_user name password r now random sys with
  | (Ok u, sys') => get_user sys name = None ∧ (∀ b, random = Some b → all_bytes b → all_bytes (hash u) → in_i64 now →
      get_user sys' name = Some u ∧ verify u password = true ∧ grants u = ∅ ∧ ∀ n, n ≠ name → get_user sys' n = get_user sys n)
  | (Err _, sys') => sys' = sys
  end.
Proof.
  unfold create_user. destruct (negb _); [done|]. destruct (get_user sys name) as [v|] eqn:Eg; [done|]. unfold new_user.
  destruct random as [b|]; cbn [ok_or mbind result_bind]; [|done]. split; [done|]. cbn [hash]. intros b' [= <-] Hb Hh Hn.
  assert (user_ok {| u_name := name; role := r; grants := ∅; default_workspace := None; timezone := None; formats := ∅; created := now;
    salt := b; hash := hash_password password b ITERATIONS; iterations := ITERATIONS |}) as Ho by (by split).
  split; [rewrite get_save by done; by rewrite bool_decide_eq_true_2|]. split; [|split; [done|]].
  - unfold verify. cbn [salt iterations hash]. rewrite Z.eqb_refl. cbn [andb]. apply Z.eqb_eq. generalize (hash_password password b ITERATIONS).
    intros l. induction l as [|x l IH]; [done|]. cbn [xor_all]. by rewrite Z.lxor_nilpotent.
  - intros n Hne. rewrite get_save by done. by rewrite bool_decide_eq_false_2.
Qed.
End accounts_thm.
