(* ===== verification/Moves.v ===== *)
(** * [src/instance.rs]: a workspace takes another name

    The move writes the system database and [kiva.conf] in several steps; a
    stop between two of them leaves a prefix of its writes, and the next start
    finishes the move or takes it back. The configuration is the directories
    of the workspaces, by name; a stop of the disk is left out. *)
From S2P Require Import Prelude Utf8 Text Maps Util DocNum Ordering Kdoc Paths Times Json JsonThm Auth.

Section moves.
  Context `{HN : JsonNumbers} `{HM : !JsonMake} `{HP : Pbkdf2}.

Record Home := { sys : Sys; dirs : gmap str str }.
(** A write that reaches the disk as a whole. *)
Inductive Write := WPut (key : str) (j : Json) | WDel (key : str) | WRename (from to : str).
Definition apply_write (h : Home) (w : Write) : Home :=
  match w with
  | WPut k j => {| sys := <[k := j]> (sys h); dirs := dirs h |}
  | WDel k => {| sys := base.delete k (sys h); dirs := dirs h |}
  | WRename from to =>
    {| sys := sys h; dirs := match dirs h !! from with Some d => <[to := d]> (base.delete from (dirs h)) | None => dirs h end |}
  end.
Definition apply_writes (ws : list Write) (h : Home) : Home := List.fold_left apply_write ws h.

Definition move_record (from : str) : str := lit "moving:" ++ from.
Definition set_grants (g : gmap str Priv) (u : User) : User := set_reach g (default_workspace u) u.
Definition save (u : User) : Write := WPut (user_key (u_name u)) (to_json u).

(** [undo_move]: the accounts are read one by one. *)
Fixpoint undo_users (to : str) (doubled : list str) (h : Home) : list Write :=
  match doubled with
  | [] => []
  | name :: doubled =>
    let ws := match get_user (sys h) name with
              | Some u => match grants u !! to with Some _ => [save (set_grants (base.delete to (grants u)) u)] | None => [] end
              | None => []
              end in
    ws ++ undo_users to doubled (apply_writes ws h)
  end.
Definition undo_move (from to : str) (doubled : list str) (h : Home) : list Write := undo_users to doubled h ++ [WDel (move_record from)].

(** [finish_move]: what an account becomes, if it changes. *)
Definition finish_user (from to : str) (u : User) : option User :=
  let old := grants u !! from in
  let g := base.delete from (grants u) in
  let g := match old with Some p => <[to := priv_max (default p (g !! to)) p]> g | None => g end in
  let is_default := bool_decide (default_workspace u = Some from) in
  let d := if is_default then Some to else default_workspace u in
  if bool_decide (is_Some old) || is_default then Some (set_reach g d u) else None.
Definition finish_move (from to : str) (h : Home) : list Write :=
  List.map save (omap (finish_user from to) (list_users (sys h))) ++ [WDel (move_record from)].

(** ** The move *)
Definition double_user (from to : str) (u : User) : option User :=
  p ← grants u !! from; Some (set_grants (<[to := p]> (grants u)) u).
Definition record_json (from to : str) (names : list str) : Json :=
  JObject [(lit "from", JString from); (lit "to", JString to); (lit "doubled", JArray (List.map JString names))].
(** The writes of a move, in their order. [in_use]: a session or a script is
    in the workspace, and it keeps its name. *)
Definition rename_workspace (from to : str) (in_use : bool) (h : Home) : result KivaError unit * list Write :=
  if bool_decide (from = lit "default") || bool_decide (to = lit "default") then (Err (Invalid "the default workspace keeps its name"), [])
  else match check_workspace_name to with
  | Err e => (Err e, [])
  | Ok _ =>
    if negb (bool_decide (is_Some (dirs h !! from))) then (Err (NotFound "workspace '{from}' does not exist"), [])
    else if bool_decide (is_Some (dirs h !! to)) then (Err (Exists_ "workspace '{to}' already exists"), [])
    else
      let doubled := omap (double_user from to) (list_users (sys h)) in
      let names := List.map u_name doubled in
      let ws1 := WPut (move_record from) (record_json from to names) :: List.map save doubled in
      let h1 := apply_writes ws1 h in
      if in_use then
        (Err (Invalid "workspace '{from}' is in use: try again when the sessions in it have left"), ws1 ++ undo_move from to names h1)
      else
        let h2 := apply_write h1 (WRename from to) in
        (Ok tt, ws1 ++ [WRename from to] ++ finish_move from to h2)
  end.

(** ** The next start *)
Definition str_items (j : Json) : list str := match j with JArray a => omap as_str a | _ => [] end.
Definition recover_one (key : str) (h : Home) : list Write :=
  match sys h !! key with
  | None => []
  | Some record =>
    match as_str (field (lit "from") record), as_str (field (lit "to") record) with
    | Some from, Some to =>
      if bool_decide (is_Some (dirs h !! to)) && negb (bool_decide (is_Some (dirs h !! from))) then finish_move from to h
      else undo_move from to (str_items (field (lit "doubled") record)) h
    | _, _ => [WDel key]
    end
  end.
Definition recover_moves (h : Home) : Home :=
  List.fold_left (fun h key => apply_writes (recover_one key h) h) (matching (lit "moving:*") (sys h)) h.
End moves.

Section moves_thm.
  Context `{HN : JsonNumbers} `{HM : !JsonMake} `{LN : !JsonNumbersLaws} `{LM : !JsonMakeLaws} `{HP : Pbkdf2}.

(** ** The accounts of a home *)
Definition account (h : Home) (name : str) : option User := get_user (sys h) name.
Definition star_free (h : Home) : Prop := ∀ key, is_Some (sys h !! key) → STAR ∉ key.
Lemma star_all t : glob_spec [STAR] t.
Proof. induction t as [|c t IH]; [by repeat constructor|by apply gs_star_take]. Qed.
Lemma glob_star p t : (∀ c, c ∈ p → c ≠ STAR ∧ c ≠ QMARK) → glob_spec (p ++ [STAR]) (p ++ t).
Proof.
  intros Hp. induction p as [|c p IH]; [apply star_all|]. cbn [app]. destruct (Hp c) as [H1 H2]; [left|]. apply gs_char; [done|done|].
  apply IH. intros c' Hc'. apply Hp. by right.
Qed.
Lemma glob_star_inv p t : (∀ c, c ∈ p → c ≠ STAR ∧ c ≠ QMARK) → glob_spec (p ++ [STAR]) t → ∃ r, t = p ++ r.
Proof.
  intros Hp. revert t. induction p as [|c p IH]; intros t H; [by exists t|]. cbn [app] in H. destruct (Hp c) as [H1 H2]; [left|].
  inversion H; subst; try done. destruct (IH ltac:(intros c' Hc'; apply Hp; by right) _ ltac:(eassumption)) as [r ->]. by exists r.
Qed.
Lemma elem_matching (p : str) (m : Sys) (key : str) : (∀ c, c ∈ p → c ≠ STAR ∧ c ≠ QMARK) → STAR ∉ key →
  key ∈ matching (p ++ [STAR]) m ↔ is_Some (m !! key) ∧ ∃ r, key = p ++ r.
Proof.
  intros Hp Hk. unfold matching. rewrite list_elem_of_In, filter_In, <- list_elem_of_In, (glob_match_correct _ _ Hk). unfold keys_of. split.
  - intros [(kv & -> & Hkv)%list_elem_of_fmap Hg]. destruct kv as [k j]. cbn in *. split; [|by apply glob_star_inv]. apply elem_of_entries in Hkv. by exists j.
  - intros [[j Hj] [r ->]]. split; [|by apply glob_star]. apply list_elem_of_fmap. exists (p ++ r, j). split; [done|]. by apply elem_of_entries.
Qed.
Lemma matching_present (p : str) (m : Sys) (key : str) : key ∈ matching p m → is_Some (m !! key).
Proof.
  unfold matching. intros H. apply list_elem_of_In, filter_In in H as [H _]. apply list_elem_of_In, list_elem_of_fmap in H as ([k j] & -> & H).
  apply elem_of_entries in H. by exists j.
Qed.
Lemma matching_NoDup (p : str) (m : Sys) : NoDup (matching p m).
Proof. unfold matching. apply NoDup_ListNoDup, List.NoDup_filter, NoDup_ListNoDup, entries_NoDup. Qed.
Lemma user_pattern : lit "user:*" = lit "user:" ++ [STAR] ∧ ∀ c, c ∈ lit "user:" → c ≠ STAR ∧ c ≠ QMARK.
Proof. split; [done|]. intros c Hc. assert (Forall (fun c => c ≠ STAR ∧ c ≠ QMARK) (lit "user:")) as H by vm_decide. rewrite Forall_forall in H. by apply H. Qed.
Lemma account_named h (name : str) u : account h name = Some u → u_name u = name ∧ user_ok u.
Proof. unfold account, get_user. destruct (sys h !! _) as [j|]; [|done]. cbn. apply read_user_ok. Qed.
(** The accounts listed are the accounts there are, each once. *)
Lemma elem_list_users h u : star_free h → u ∈ list_users (sys h) ↔ account h (u_name u) = Some u.
Proof.
  intros Hs. destruct user_pattern as [Ep Hp]. unfold list_users. rewrite list_elem_of_omap. rewrite Ep. split.
  - intros (key & Hk & Hu). assert (is_Some (sys h !! key)) as Hd by (by eapply matching_present).
    apply elem_matching in Hk as [_ [r ->]]; [|done|by apply Hs]. change (drop USER_PREFIX (lit "user:" ++ r)) with r in Hu.
    destruct (account_named h r u Hu) as [E _]. by rewrite E.
  - intros Hu. exists (user_key (u_name u)). split; [|done]. unfold account, get_user in Hu. destruct (sys h !! user_key (u_name u)) as [j|] eqn:E; [|done].
    apply elem_matching; [done|by apply Hs|]. split; [done|]. by eexists.
Qed.
Lemma list_users_names h : star_free h → NoDup (List.map u_name (list_users (sys h))).
Proof.
  intros Hs. destruct user_pattern as [Ep Hp]. unfold list_users. rewrite Ep. pose proof (matching_NoDup (lit "user:" ++ [STAR]) (sys h)) as Hn.
  assert (∀ key, key ∈ matching (lit "user:" ++ [STAR]) (sys h) → ∃ r, key = lit "user:" ++ r) as Hk.
  { intros key H. pose proof (matching_present _ _ _ H) as Hd. by apply elem_matching in H as [_ Hr]; [|done|apply Hs]. }
  revert Hn Hk. generalize (matching (lit "user:" ++ [STAR]) (sys h)). intros l. induction l as [|key l IH]; intros Hn Hk; [constructor|].
  apply NoDup_cons in Hn as [Hnot Hn]. assert (NoDup (List.map u_name (omap (fun key => get_user (sys h) (drop USER_PREFIX key)) l))) as IH'.
  { apply IH; [done|]. intros k' Hk'. apply Hk. by right. }
  cbn [omap list_omap]. destruct (get_user _ _) as [u|] eqn:Eu; [|done]. cbn [List.map]. apply NoDup_cons. split; [|done].
  intros Hin. apply list_elem_of_In, in_map_iff in Hin as (v & Ev & Hv). apply list_elem_of_In, list_elem_of_omap in Hv as (key' & Hk' & Hv).
  destruct (Hk key ltac:(left)) as [r ->]. destruct (Hk key' ltac:(by right)) as [r' ->].
  change (drop USER_PREFIX (lit "user:" ++ r)) with r in Eu. change (drop USER_PREFIX (lit "user:" ++ r')) with r' in Hv.
  apply (account_named h) in Eu as [E1 _], Hv as [E2 _]. apply Hnot. by rewrite <- E1, <- Ev, E2.
Qed.

(** ** The account of a user before, while and after the move *)
Definition moved (from to : str) (u : User) : User :=
  set_reach (match grants u !! from with Some p => <[to := p]> (base.delete from (grants u)) | None => grants u end)
            (if bool_decide (default_workspace u = Some from) then Some to else default_workspace u) u.
Definition doubled (from to : str) (u : User) : User := default u (double_user from to u).
Lemma set_reach_same u : set_reach (grants u) (default_workspace u) u = u.
Proof. by destruct u. Qed.
Lemma doubled_none from to u : grants u !! from = None → doubled from to u = u.
Proof. unfold doubled, double_user. by intros ->. Qed.
Lemma doubled_some from to u p : grants u !! from = Some p → doubled from to u = set_grants (<[to := p]> (grants u)) u.
Proof. unfold doubled, double_user. by intros ->. Qed.
Lemma finish_doubled from to u : from ≠ to → default (doubled from to u) (finish_user from to (doubled from to u)) = moved from to u.
Proof.
  intros Hne. unfold moved. destruct (grants u !! from) as [p|] eqn:Ep.
  - rewrite (doubled_some _ _ _ _ Ep). unfold finish_user. cbn [grants set_grants set_reach default_workspace]. rewrite lookup_insert_ne by done. rewrite Ep.
    rewrite (bool_decide_eq_true_2 (is_Some (Some p))) by done. cbn [orb default from_option]. unfold id. destruct u as [n r g d tz fo c sa ha it]. unfold set_reach, set_grants, set_reach. cbn [grants u_name role default_workspace timezone formats created salt hash iterations].
    f_equal. rewrite lookup_delete_ne, lookup_insert_eq by done. cbn. assert (priv_max p p = p) as -> by (by destruct p).
    rewrite delete_insert_ne by done. by rewrite insert_insert_eq.
  - rewrite doubled_none by done. unfold finish_user. rewrite Ep. rewrite (bool_decide_eq_false_2 (is_Some None)) by (by intros []). cbn [orb]. rewrite delete_id by done.
    case_bool_decide; [done|]. cbn. symmetry. apply set_reach_same.
Qed.
Lemma finish_moved from to u : from ≠ to → finish_user from to (moved from to u) = None.
Proof.
  intros Hne. unfold finish_user, moved. cbn [grants set_reach default_workspace]. assert ((match grants u !! from with Some p => <[to := p]> (base.delete from (grants u)) | None => grants u end) !! from = None) as ->.
  { destruct (grants u !! from) eqn:E; [|done]. by rewrite lookup_insert_ne, lookup_delete_eq. }
  rewrite (bool_decide_eq_false_2 (is_Some None)) by (by intros []). cbn [orb]. rewrite bool_decide_eq_false_2; [done|].
  case_bool_decide; congruence.
Qed.
Lemma undo_doubled from to u : grants u !! to = None → set_grants (base.delete to (grants (doubled from to u))) (doubled from to u) = u.
Proof.
  intros Ht. unfold doubled, double_user. destruct (grants u !! from) as [p|]; cbn; unfold set_grants; cbn; rewrite ?delete_insert_eq, ?delete_id by done; by destruct u.
Qed.

(** ** Along the writes *)
Definition always (P : Home → Prop) (h : Home) (ws : list Write) : Prop := ∀ n, P (apply_writes (take n ws) h).
Lemma always_nil P h : P h → always P h [].
Proof. intros H n. by rewrite take_nil. Qed.
Lemma always_cons P h w ws : P h → always P (apply_write h w) ws → always P h (w :: ws).
Proof. intros H Hw [|n]; [done|]. apply Hw. Qed.
Lemma apply_app ws1 ws2 h : apply_writes (ws1 ++ ws2) h = apply_writes ws2 (apply_writes ws1 h).
Proof. apply List.fold_left_app. Qed.
Lemma always_app P h ws1 ws2 : always P h ws1 → always P (apply_writes ws1 h) ws2 → always P h (ws1 ++ ws2).
Proof.
  intros H1 H2 n. rewrite take_app, apply_app. destruct (le_lt_dec (length ws1) n) as [Hn|Hn].
  - rewrite (take_ge ws1) by done. apply H2.
  - replace (n - length ws1)%nat with O by lia. rewrite take_0. apply H1.
Qed.
Lemma always_end P h ws : always P h ws → P (apply_writes ws h).
Proof. intros H. specialize (H (length ws)). by rewrite firstn_all in H. Qed.
Lemma account_save h u (name : str) : user_ok u → account (apply_write h (save u)) name = if bool_decide (name = u_name u) then Some u else account h name.
Proof. apply get_save. Qed.

Record movable (h : Home) (from to d : str) : Prop := {
  mv_from : dirs h !! from = Some d;
  mv_to : dirs h !! to = None;
  mv_star : star_free h;
  mv_name : STAR ∉ from;
  mv_none : ∀ r, sys h !! move_record r = None;
  mv_fresh : ∀ name u, account h name = Some u → grants u !! to = None;
}.
Section one_move.
  Context (h0 : Home) (from to d : str) (Hm : movable h0 from to d).
Lemma from_to : from ≠ to.
Proof. intros ->. pose proof (mv_from _ _ _ _ Hm). pose proof (mv_to _ _ _ _ Hm). congruence. Qed.
Definition doubled_users : list User := omap (double_user from to) (list_users (sys h0)).
Definition names : list str := List.map u_name doubled_users.
Lemma elem_names (name : str) : name ∈ names ↔ ∃ u, account h0 name = Some u ∧ is_Some (grants u !! from).
Proof.
  unfold names, doubled_users. rewrite list_elem_of_In, in_map_iff. split.
  - intros (v & <- & (u & Hu & Ev)%list_elem_of_In%list_elem_of_omap). apply elem_list_users in Hu; [|exact (mv_star _ _ _ _ Hm)].
    unfold double_user in Ev. destruct (grants u !! from) eqn:Eg; [|done]. injection Ev as <-. exists u. by split.
  - intros (u & Hu & p & Hp). exists (set_grants (<[to := p]> (grants u)) u). destruct (account_named h0 name u Hu) as [En _]. split; [done|].
    apply list_elem_of_In, list_elem_of_omap. exists u. split; [apply elem_list_users; [exact (mv_star _ _ _ _ Hm)|by rewrite En]|]. unfold double_user. by rewrite Hp.
Qed.
Record going (b : bool) (ds : gmap str str) (h : Home) : Prop := {
  go_dirs : dirs h = ds;
  go_star : star_free h;
  go_record : ∀ r, sys h !! move_record r = if bool_decide (r = from) && b then Some (record_json from to names) else None;
}.
(** Before the configuration changes, and after. *)
Definition before (h : Home) : Prop := ∃ b, going b (dirs h0) h ∧
  ∀ name, account h name = account h0 name ∨ (b = true ∧ account h name = doubled from to <$> account h0 name).
Definition renamed : gmap str str := <[to := d]> (base.delete from (dirs h0)).
Definition after (h : Home) : Prop := ∃ b, going b renamed h ∧
  ∀ name, account h name = moved from to <$> account h0 name ∨ (b = true ∧ account h name = doubled from to <$> account h0 name).

Lemma record_key_user r (name : str) : move_record r ≠ user_key name.
Proof. done. Qed.
Lemma going_save b ds h u : going b ds h → is_Some (account h (u_name u)) → going b ds (apply_write h (save u)).
Proof.
  intros [Hd Hs Hr] Hu. split; [done| |].
  - intros key Hk. cbn [sys apply_write save] in Hk. destruct (decide (key = user_key (u_name u))) as [->|Hne]; [|rewrite lookup_insert_ne in Hk by done; by apply Hs].
    apply Hs. destruct Hu as [v Hv]. unfold account, get_user in Hv. by destruct (sys h !! user_key (u_name u)).
  - intros r. cbn [sys apply_write save]. rewrite lookup_insert_ne; [apply Hr|]. intros E. by apply (record_key_user r (u_name u)).
Qed.
Lemma going_start h : going false (dirs h0) h → going true (dirs h0) (apply_write h (WPut (move_record from) (record_json from to names))).
Proof.
  intros [Hd Hs Hr]. split; [done| |].
  - intros key Hk. cbn [sys apply_write] in Hk. destruct (decide (key = move_record from)) as [->|Hne]; [|rewrite lookup_insert_ne in Hk by done; by apply Hs].
    unfold move_record. rewrite elem_of_app. intros [H|H]; [|by apply (mv_name _ _ _ _ Hm)]. assert (STAR ∉ lit "moving:") as Hn by vm_decide. by apply Hn.
  - intros r. cbn [sys apply_write]. case_bool_decide as E; [subst r; by rewrite lookup_insert_eq|].
    rewrite lookup_insert_ne; [rewrite Hr; by rewrite bool_decide_eq_false_2|]. intros E'%app_inv_head. congruence.
Qed.
Lemma going_end b ds h : going b ds h → going false ds (apply_write h (WDel (move_record from))).
Proof.
  intros [Hd Hs Hr]. split; [done| |].
  - intros key Hk. cbn [sys apply_write] in Hk. apply Hs. destruct Hk as [j Hj]. apply lookup_delete_Some in Hj as [_ Hj]. by exists j.
  - intros r. cbn [sys apply_write]. rewrite andb_false_r. destruct (decide (r = from)) as [->|Hne]; [by rewrite lookup_delete_eq|].
    rewrite lookup_delete_ne, Hr; [by rewrite bool_decide_eq_false_2|]. intros E%app_inv_head. congruence.
Qed.
Lemma account_record h j (name : str) : account (apply_write h (WPut (move_record from) j)) name = account h name.
Proof. exact (get_other (move_record from) (Some j) (sys h) name (record_key_user from name)). Qed.
Lemma account_no_record h (name : str) : account (apply_write h (WDel (move_record from))) name = account h name.
Proof. exact (get_other (move_record from) None (sys h) name (record_key_user from name)). Qed.
Lemma start_before : before h0 ∧ before (apply_write h0 (WPut (move_record from) (record_json from to names))).
Proof.
  assert (going false (dirs h0) h0) as Hg.
  { split; [done|exact (mv_star _ _ _ _ Hm)|]. intros r. rewrite andb_false_r. apply (mv_none _ _ _ _ Hm). }
  split; [exists false; split; [done|]; by left|]. exists true. split; [by apply going_start|]. intros name. left. apply account_record.
Qed.

(** *** The accounts are doubled *)
Definition is_double (u : User) : Prop := ∃ u0, account h0 (u_name u) = Some u0 ∧ u = doubled from to u0.
Lemma doubled_users_double : Forall is_double doubled_users.
Proof.
  apply List.Forall_forall. intros v (u & Hu & Ev)%list_elem_of_In%list_elem_of_omap. apply elem_list_users in Hu; [|exact (mv_star _ _ _ _ Hm)].
  assert (v = doubled from to u) as -> by (unfold doubled; by rewrite Ev). exists u. split; [|done].
  unfold doubled. rewrite Ev. unfold double_user in Ev. destruct (grants u !! from); [|done]. by injection Ev as <-.
Qed.
Lemma user_ok_reach g dd u : user_ok u → user_ok (set_reach g dd u).
Proof. by intros []. Qed.
Lemma doubled_ok u : user_ok u → user_ok (doubled from to u).
Proof. intros H. unfold doubled, double_user. destruct (grants u !! from); [by apply user_ok_reach|done]. Qed.
Lemma doubled_name u : u_name (doubled from to u) = u_name u.
Proof. unfold doubled, double_user. by destruct (grants u !! from). Qed.
Lemma account_some_before h (name : str) : before h → is_Some (account h0 name) → is_Some (account h name).
Proof. intros (b & _ & Ha) [u Hu]. destruct (Ha name) as [->|[_ ->]]; rewrite Hu; by eexists. Qed.
Lemma save_double h u : going true (dirs h0) h → (∀ name, account h name = account h0 name ∨ account h name = doubled from to <$> account h0 name) → is_double u →
  going true (dirs h0) (apply_write h (save u)) ∧
  ∀ name, account (apply_write h (save u)) name = if bool_decide (name = u_name u) then doubled from to <$> account h0 name else account h name.
Proof.
  intros Hg Ha (u0 & Hu & ->). destruct (account_named h0 _ u0 Hu) as [En Ho]. rewrite doubled_name in *. split.
  - apply going_save; [done|]. rewrite doubled_name. destruct (Ha (u_name u0)) as [->| ->]; rewrite Hu; by eexists.
  - intros name. rewrite account_save by (by apply doubled_ok). rewrite doubled_name. case_bool_decide; [|done]. subst name. by rewrite Hu.
Qed.
Lemma doubling us : Forall is_double us → ∀ h, going true (dirs h0) h →
  (∀ name, account h name = account h0 name ∨ account h name = doubled from to <$> account h0 name) →
  always before h (List.map save us) ∧ going true (dirs h0) (apply_writes (List.map save us) h) ∧
  ∀ name, account (apply_writes (List.map save us) h) name = if bool_decide (name ∈ List.map u_name us) then doubled from to <$> account h0 name else account h name.
Proof.
  induction 1 as [|u us Hu _ IH]; intros h Hg Ha; cbn [List.map].
  - split; [|split; [done|]].
    + apply always_nil. exists true. split; [done|]. intros name. destruct (Ha name); [by left|by right].
    + intros name. rewrite bool_decide_eq_false_2; [done|]. apply not_elem_of_nil.
  - destruct (save_double h u Hg Ha Hu) as [Hg' Ha']. destruct (IH (apply_write h (save u)) Hg') as (H1 & H2 & H3).
    { intros name. rewrite Ha'. case_bool_decide; [by right|apply Ha]. }
    split; [|split; [done|]].
    + apply always_cons; [|done]. exists true. split; [done|]. intros name. destruct (Ha name); [by left|by right].
    + intros name. change (apply_writes (save u :: List.map save us) h) with (apply_writes (List.map save us) (apply_write h (save u))). rewrite H3, Ha'.
      destruct (decide (name ∈ List.map u_name us)) as [Hin|Hin].
      * rewrite !bool_decide_eq_true_2; [done|by right|done].
      * rewrite (bool_decide_eq_false_2 (name ∈ List.map u_name us)) by done. case_bool_decide as E1; case_bool_decide as E2; try done.
        -- exfalso. apply E2. subst name. left.
        -- exfalso. apply elem_of_cons in E2 as [E2|E2]; done.
Qed.
Lemma doubled_outside (name : str) : name ∉ names → doubled from to <$> account h0 name = account h0 name.
Proof.
  intros Hn. destruct (account h0 name) as [u|] eqn:E; [|done]. cbn. f_equal. apply doubled_none. destruct (grants u !! from) as [p|] eqn:Ep; [|done].
  exfalso. apply Hn, elem_names. exists u. split; [done|]. by exists p.
Qed.
Definition first_writes : list Write := WPut (move_record from) (record_json from to names) :: List.map save doubled_users.
Lemma first_part : always before h0 first_writes ∧ going true (dirs h0) (apply_writes first_writes h0) ∧
  ∀ name, account (apply_writes first_writes h0) name = doubled from to <$> account h0 name.
Proof.
  destruct start_before as [H0 H1]. set (h1 := apply_write h0 (WPut (move_record from) (record_json from to names))) in *.
  destruct (doubling doubled_users doubled_users_double h1) as (Ha & Hg & Hacc).
  { destruct H1 as (b & Hg & _). destruct b; [done|]. exfalso. pose proof (go_record _ _ _ Hg from) as E. rewrite bool_decide_eq_true_2 in E by done. cbn [andb] in E.
    unfold h1 in E. cbn [sys apply_write] in E. by rewrite lookup_insert_eq in E. }
  { intros name. left. apply account_record. }
  split; [by apply always_cons|]. split; [done|]. intros name. change (apply_writes first_writes h0) with (apply_writes (List.map save doubled_users) h1). rewrite Hacc.
  case_bool_decide as Hn; [done|]. unfold h1. rewrite account_record. symmetry. by apply doubled_outside.
Qed.

(** *** The move is taken back *)
Lemma undo_step h (name : str) : going true (dirs h0) h → (∀ n, account h n = account h0 n ∨ account h n = doubled from to <$> account h0 n) →
  let ws := match get_user (sys h) name with
            | Some u => match grants u !! to with Some _ => [save (set_grants (base.delete to (grants u)) u)] | None => [] end
            | None => []
            end in
  always before h ws ∧ going true (dirs h0) (apply_writes ws h) ∧
  ∀ n, account (apply_writes ws h) n = if bool_decide (n = name) then account h0 n else account h n.
Proof.
  intros Hg Ha. change (get_user (sys h) name) with (account h name).
  assert (before h) as Hb. { exists true. split; [done|]. intros n. destruct (Ha n); [by left|by right]. }
  destruct (account h name) as [u|] eqn:Eu; cbn [apply_writes List.fold_left].
  2:{ split; [by apply always_nil|]. split; [done|]. intros n. case_bool_decide; [|done]. subst n. rewrite Eu. destruct (Ha name) as [E|E]; rewrite Eu in E; [done|]. by destruct (account h0 name). }
  destruct (grants u !! to) as [p|] eqn:Ep; cbn [apply_writes List.fold_left].
  - destruct (Ha name) as [E|E]; rewrite Eu in E; [exfalso; pose proof (mv_fresh _ _ _ _ Hm name u (eq_sym E)); congruence|].
    destruct (account h0 name) as [u0|] eqn:E0; [|done]. injection E as ->. rewrite undo_doubled by (by eapply mv_fresh).
    destruct (account_named h0 name u0 E0) as [En Ho]. assert (going true (dirs h0) (apply_write h (save u0))) as Hg' by (apply going_save; [done|rewrite En, Eu; by eexists]).
    assert (∀ n, account (apply_write h (save u0)) n = if bool_decide (n = name) then account h0 n else account h n) as Hacc.
    { intros n. rewrite account_save, En by done. case_bool_decide; [subst n; by rewrite E0|done]. }
    split; [|by split]. apply always_cons; [done|]. apply always_nil. exists true. split; [done|]. intros n. rewrite Hacc.
    case_bool_decide; [by left|]. destruct (Ha n); [by left|by right].
  - split; [by apply always_nil|]. split; [done|]. intros n. case_bool_decide; [|done]. subst n. destruct (Ha name) as [E|E]; [done|]. rewrite E.
    destruct (account h0 name) as [u0|] eqn:E0; [|done]. cbn. f_equal. apply doubled_none. rewrite Eu in E. injection E as ->.
    destruct (grants u0 !! from) as [q|] eqn:Eq; [|done]. rewrite (doubled_some _ _ _ _ Eq) in Ep. cbn in Ep. by rewrite lookup_insert_eq in Ep.
Qed.
Lemma undo_all l : ∀ h, going true (dirs h0) h → (∀ n, account h n = account h0 n ∨ account h n = doubled from to <$> account h0 n) →
  always before h (undo_users to l h) ∧ going true (dirs h0) (apply_writes (undo_users to l h) h) ∧
  ∀ n, account (apply_writes (undo_users to l h) h) n = if bool_decide (n ∈ l) then account h0 n else account h n.
Proof.
  induction l as [|name l IH]; intros h Hg Ha; cbn [undo_users].
  - split; [apply always_nil; exists true; split; [done|]; intros n; destruct (Ha n); [by left|by right]|]. split; [done|].
    intros n. by rewrite bool_decide_eq_false_2 by apply not_elem_of_nil.
  - destruct (undo_step h name Hg Ha) as (H1 & H2 & H3). set (ws := match get_user (sys h) name with Some u => _ | None => _ end) in *.
    destruct (IH (apply_writes ws h) H2) as (H4 & H5 & H6); [intros n; rewrite H3; case_bool_decide; [by left|apply Ha]|].
    rewrite apply_app. split; [by apply always_app|]. split; [done|]. intros n. rewrite H6, H3.
    destruct (decide (n ∈ l)) as [Hin|Hin]; [rewrite !bool_decide_eq_true_2 by (done || by right); done|].
    rewrite (bool_decide_eq_false_2 (n ∈ l)) by done. case_bool_decide as E1; case_bool_decide as E2; try done.
    + exfalso. apply E2. subst n. left.
    + exfalso. apply elem_of_cons in E2 as [E2|E2]; done.
Qed.
Lemma undone h : going true (dirs h0) h → (∀ n, account h n = account h0 n ∨ account h n = doubled from to <$> account h0 n) →
  always before h (undo_move from to names h) ∧ going false (dirs h0) (apply_writes (undo_move from to names h) h) ∧
  ∀ n, account (apply_writes (undo_move from to names h) h) n = account h0 n.
Proof.
  intros Hg Ha. destruct (undo_all names h Hg Ha) as (H1 & H2 & H3). unfold undo_move. rewrite apply_app.
  assert (∀ n, account (apply_writes (undo_users to names h) h) n = account h0 n) as H4.
  { intros n. rewrite H3. case_bool_decide as Hn; [done|]. destruct (Ha n) as [E|E]; [done|]. rewrite E. by apply doubled_outside. }
  set (h1 := apply_writes (undo_users to names h) h) in *. change (apply_writes [WDel (move_record from)] h1) with (apply_write h1 (WDel (move_record from))).
  split; [|split; [by eapply going_end|intros n; by rewrite account_no_record]]. apply always_app; [done|]. fold h1.
  apply always_cons; [exists true; split; [done|]; intros n; left; apply H4|]. apply always_nil. exists false. split; [by eapply going_end|].
  intros n. left. by rewrite account_no_record.
Qed.

(** *** The move is finished *)
Definition on_way (h : Home) : Prop := ∀ n, account h n = moved from to <$> account h0 n ∨ account h n = doubled from to <$> account h0 n.
Definition is_moved (u : User) : Prop := ∃ u0, account h0 (u_name u) = Some u0 ∧ u = moved from to u0.
Lemma on_way_after h : going true renamed h → on_way h → after h.
Proof. intros Hg Ha. exists true. split; [done|]. intros n. destruct (Ha n); [by left|by right]. Qed.
Lemma save_moved h u : going true renamed h → on_way h → is_moved u →
  going true renamed (apply_write h (save u)) ∧
  ∀ n, account (apply_write h (save u)) n = if bool_decide (n = u_name u) then moved from to <$> account h0 n else account h n.
Proof.
  intros Hg Ha (u0 & Hu & ->). destruct (account_named h0 _ u0 Hu) as [En Ho]. change (u_name (moved from to u0)) with (u_name u0) in *. split.
  - apply going_save; [done|]. destruct (Ha (u_name u0)) as [E|E]; change (u_name (moved from to u0)) with (u_name u0); rewrite E, Hu; by eexists.
  - intros n. rewrite account_save by (by apply user_ok_reach). change (u_name (moved from to u0)) with (u_name u0). case_bool_decide; [|done]. subst n. by rewrite Hu.
Qed.
Lemma finishing us : Forall is_moved us → ∀ h, going true renamed h → on_way h →
  always after h (List.map save us) ∧ going true renamed (apply_writes (List.map save us) h) ∧
  ∀ n, account (apply_writes (List.map save us) h) n = if bool_decide (n ∈ List.map u_name us) then moved from to <$> account h0 n else account h n.
Proof.
  induction 1 as [|u us Hu _ IH]; intros h Hg Ha; cbn [List.map].
  - split; [by apply always_nil, on_way_after|]. split; [done|]. intros n. by rewrite bool_decide_eq_false_2 by apply not_elem_of_nil.
  - destruct (save_moved h u Hg Ha Hu) as [Hg' Ha']. destruct (IH (apply_write h (save u)) Hg') as (H1 & H2 & H3).
    { intros n. rewrite Ha'. case_bool_decide; [by left|apply Ha]. }
    split; [apply always_cons; [by apply on_way_after|done]|]. split; [done|]. intros n.
    change (apply_writes (save u :: List.map save us) h) with (apply_writes (List.map save us) (apply_write h (save u))). rewrite H3, Ha'.
    destruct (decide (n ∈ List.map u_name us)) as [Hin|Hin]; [rewrite !bool_decide_eq_true_2 by (done || by right); done|].
    rewrite (bool_decide_eq_false_2 (n ∈ List.map u_name us)) by done. case_bool_decide as E1; case_bool_decide as E2; try done.
    + exfalso. apply E2. subst n. left.
    + exfalso. apply elem_of_cons in E2 as [E2|E2]; done.
Qed.
Lemma finished_user h (n : str) : on_way h → (λ u, default u (finish_user from to u)) <$> account h n = moved from to <$> account h0 n.
Proof.
  intros Ha. destruct (Ha n) as [E|E]; rewrite E; destruct (account h0 n) as [u0|]; try done; cbn; f_equal.
  - by rewrite finish_moved by apply from_to.
  - apply finish_doubled, from_to.
Qed.
Lemma finished h : going true renamed h → on_way h →
  always after h (finish_move from to h) ∧ going false renamed (apply_writes (finish_move from to h) h) ∧
  ∀ n, account (apply_writes (finish_move from to h) h) n = moved from to <$> account h0 n.
Proof.
  intros Hg Ha. set (us := omap (finish_user from to) (list_users (sys h))).
  assert (∀ u v, account h (u_name u) = Some u → finish_user from to u = Some v → u_name v = u_name u ∧ is_moved v) as Hv.
  { intros u v Hu Ev. assert (u_name v = u_name u) as En by (unfold finish_user in Ev; case_match; [|done]; by injection Ev as <-). split; [done|].
    pose proof (finished_user h (u_name u) Ha) as E. rewrite Hu in E. cbn in E. rewrite Ev in E. cbn in E. unfold is_moved. rewrite En.
    destruct (account h0 (u_name u)) as [u0|]; [|done]. exists u0. split; [done|]. cbn in E. by injection E. }
  assert (Forall is_moved us) as Hus.
  { apply List.Forall_forall. intros v (u & Hu & Ev)%list_elem_of_In%list_elem_of_omap. apply elem_list_users in Hu; [|exact (go_star _ _ _ Hg)]. by apply (Hv u). }
  destruct (finishing us Hus h Hg Ha) as (H1 & H2 & H3). unfold finish_move. fold us. rewrite apply_app. set (h1 := apply_writes (List.map save us) h) in *.
  assert (∀ n, account h1 n = moved from to <$> account h0 n) as H4.
  { intros n. rewrite H3. case_bool_decide as Hn; [done|]. rewrite <- (finished_user h n Ha). destruct (account h n) as [u|] eqn:Eu; [|done]. cbn. f_equal.
    destruct (finish_user from to u) as [v|] eqn:Ev; [|done]. exfalso. apply Hn. destruct (account_named h n u Eu) as [En _].
    rewrite <- En in Eu. destruct (Hv u v Eu Ev) as [En' _]. apply list_elem_of_In, in_map_iff. exists v. split; [congruence|].
    apply list_elem_of_In, list_elem_of_omap. exists u. split; [by apply elem_list_users; [exact (go_star _ _ _ Hg)|]|done]. }
  change (apply_writes [WDel (move_record from)] h1) with (apply_write h1 (WDel (move_record from))).
  split; [|split; [by eapply going_end|intros n; by rewrite account_no_record]]. apply always_app; [done|]. fold h1.
  apply always_cons; [apply on_way_after; [done|]; intros n; left; apply H4|]. apply always_nil. exists false. split; [by eapply going_end|].
  intros n. left. by rewrite account_no_record.
Qed.

(** *** The next start *)
Lemma moving_pattern : lit "moving:*" = lit "moving:" ++ [STAR] ∧ ∀ c, c ∈ lit "moving:" → c ≠ STAR ∧ c ≠ QMARK.
Proof. split; [done|]. intros c Hc. assert (Forall (fun c => c ≠ STAR ∧ c ≠ QMARK) (lit "moving:")) as H by vm_decide. rewrite Forall_forall in H. by apply H. Qed.
Lemma only_member {A} (l : list A) a : NoDup l → (∀ x, x ∈ l ↔ x = a) → l = [a].
Proof.
  intros Hn Hl. destruct l as [|x l]; [exfalso; assert (a ∈ @nil A) as []%elem_of_nil by (by apply Hl)|]. assert (x = a) as -> by (apply Hl; left).
  destruct l as [|y l]; [done|]. exfalso. assert (y = a) as -> by (apply Hl; right; left). apply NoDup_cons in Hn as [Hn _]. apply Hn. left.
Qed.
Lemma pending_moves b ds h : going b ds h → matching (lit "moving:*") (sys h) = if b then [move_record from] else [].
Proof.
  intros [_ Hs Hr]. destruct moving_pattern as [Ep Hp]. rewrite Ep.
  assert (∀ key, key ∈ matching (lit "moving:" ++ [STAR]) (sys h) → b = true ∧ key = move_record from) as Hk.
  { intros key H. pose proof (matching_present _ _ _ H) as Hd. apply elem_matching in H as [[j Hj] [r ->]]; [|done|by apply Hs].
    change (lit "moving:" ++ r) with (move_record r) in *. rewrite Hr in Hj. case_bool_decide as E; [subst r|done]. by destruct b. }
  destruct b.
  - apply only_member; [apply matching_NoDup|]. intros key. split; [by intros [_ H]%Hk|]. intros ->.
    assert (is_Some (sys h !! move_record from)) as Hd by (rewrite Hr, bool_decide_eq_true_2 by done; by eexists).
    apply elem_matching; [done|by apply Hs|]. split; [done|]. by eexists.
  - destruct (matching _ _) as [|key l]; [done|]. destruct (Hk key ltac:(left)) as [H _]. done.
Qed.
Lemma recover_one_record h b ds : going b ds h → b = true → recover_one (move_record from) h =
  if bool_decide (is_Some (ds !! to)) && negb (bool_decide (is_Some (ds !! from))) then finish_move from to h else undo_move from to names h.
Proof.
  intros Hg ->. unfold recover_one. rewrite (go_record _ _ _ Hg from), bool_decide_eq_true_2 by done. cbn [andb].
  assert (field (lit "from") (record_json from to names) = JString from) as -> by reflexivity. assert (field (lit "to") (record_json from to names) = JString to) as -> by reflexivity.
  assert (field (lit "doubled") (record_json from to names) = JArray (List.map JString names)) as -> by reflexivity. cbn [as_str str_items].
  rewrite omap_map_some by done. by rewrite (go_dirs _ _ _ Hg).
Qed.
Lemma recover_before h : before h → going false (dirs h0) (recover_moves h) ∧ ∀ n, account (recover_moves h) n = account h0 n.
Proof.
  intros (b & Hg & Ha). unfold recover_moves. rewrite (pending_moves _ _ _ Hg). destruct b; cbn [List.fold_left].
  - rewrite (recover_one_record h true _ Hg eq_refl). rewrite (mv_to _ _ _ _ Hm), bool_decide_eq_false_2 by (by intros []). cbn [andb].
    destruct (undone h Hg) as (_ & H1 & H2); [|done]. intros n. destruct (Ha n) as [E|[_ E]]; [by left|by right].
  - split; [done|]. intros n. by destruct (Ha n) as [E|[E _]].
Qed.
Lemma recover_after h : after h → going false renamed (recover_moves h) ∧ ∀ n, account (recover_moves h) n = moved from to <$> account h0 n.
Proof.
  intros (b & Hg & Ha). unfold recover_moves. rewrite (pending_moves _ _ _ Hg). destruct b; cbn [List.fold_left].
  - rewrite (recover_one_record h true _ Hg eq_refl). assert (renamed !! to = Some d ∧ renamed !! from = None) as [-> ->].
    { unfold renamed. rewrite lookup_insert_eq, lookup_insert_ne, lookup_delete_eq by apply not_eq_sym, from_to. done. }
    rewrite bool_decide_eq_true_2, bool_decide_eq_false_2 by (by eexists || by intros []). cbn [andb negb].
    destruct (finished h Hg) as (_ & H1 & H2); [|done]. intros n. destruct (Ha n) as [E|[_ E]]; [by left|by right].
  - split; [done|]. intros n. by destruct (Ha n) as [E|[E _]].
Qed.

(** *** Every stop *)
Lemma rename_cases in_use : match rename_workspace from to in_use h0 with
  | (Ok _, ws) => ∃ n0, (∀ n, (n < n0)%nat → before (apply_writes (take n ws) h0)) ∧ (n0 ≤ length ws)%nat ∧ ∀ n, (n0 ≤ n)%nat → after (apply_writes (take n ws) h0)
  | (Err _, ws) => always before h0 ws
  end.
Proof.
  destruct start_before as [H0 _]. unfold rename_workspace. destruct (_ || _); [by apply always_nil|]. destruct (check_workspace_name to); [|by apply always_nil].
  rewrite (mv_from _ _ _ _ Hm), (mv_to _ _ _ _ Hm). rewrite bool_decide_eq_true_2, bool_decide_eq_false_2 by (by eexists || by intros []). cbn [negb].
  destruct first_part as (H1 & H2 & H3). unfold first_writes, doubled_users, names, doubled_users in *.
  set (ws1 := WPut (move_record from) _ :: List.map save _) in *. set (h1 := apply_writes ws1 h0) in *. destruct in_use.
  - apply always_app; [done|]. destruct (undone h1 H2) as (Hu & _); [intros n; right; apply H3|]. exact Hu.
  - set (h2 := apply_write h1 (WRename from to)). assert (going true renamed h2) as Hg2.
    { destruct H2 as [Hd Hs Hr]. split; [|done|done]. cbn [dirs h2 apply_write]. rewrite Hd. rewrite (mv_from _ _ _ _ Hm). done. }
    destruct (finished h2 Hg2) as (Hf & _); [intros n; right; apply H3|]. exists (S (length ws1)). rewrite length_app. cbn [length app]. split; [|split; [lia|]].
    + intros n Hn. rewrite take_app_le by lia. apply H1.
    + intros n Hn. rewrite take_app, apply_app, (take_ge ws1) by lia. replace (n - length ws1)%nat with (S (n - S (length ws1)))%nat by lia. apply Hf.
Qed.
(** The name the workspace has. *)
Definition name_now (h : Home) : str := if bool_decide (is_Some (dirs h !! from)) then from else to.
Lemma kept_access h : before h ∨ after h → ∀ n u, account h0 n = Some u →
  ∃ u', account h n = Some u' ∧ ∀ p, grants u !! from = Some p → grants u' !! name_now h = Some p.
Proof.
  pose proof from_to as Hne. assert (∀ u p, grants u !! from = Some p → grants (doubled from to u) !! from = Some p ∧ grants (doubled from to u) !! to = Some p) as Hd.
  { intros u p Hp. rewrite (doubled_some _ _ _ _ Hp). cbn. by rewrite lookup_insert_ne, lookup_insert_eq by done. }
  intros [(b & [Ed _ _] & Ha)|(b & [Ed _ _] & Ha)] n u Hu; unfold name_now; rewrite Ed.
  - rewrite (mv_from _ _ _ _ Hm), bool_decide_eq_true_2 by (by eexists). destruct (Ha n) as [E|[_ E]]; rewrite E, Hu; eexists; (split; [done|]); [done|].
    intros p Hp. by apply Hd.
  - assert (renamed !! from = None) as -> by (unfold renamed; by rewrite lookup_insert_ne, lookup_delete_eq). rewrite bool_decide_eq_false_2 by (by intros []).
    destruct (Ha n) as [E|[_ E]]; rewrite E, Hu; eexists; (split; [done|]); intros p Hp; [|by apply Hd]. unfold moved. cbn. by rewrite Hp, lookup_insert_eq.
Qed.
End one_move.
(** C33: a stop at any point of a move loses nothing, as long as no account
    holds a grant on the new name beforehand (the move would write the grant
    on the old name over it) and neither the old name nor a key of the
    system database has a star in it. The accounts that reach the workspace
    reach it, under the name it has then; and the next start leaves either
    the accounts and the names as they were before the move, or the move as
    it is when nothing stops it, which is the case once it has reported
    success. The old name is registered, the new one is not, and no other
    move is being recovered. *)
Theorem rename_crash_safe h from to d in_use n r ws : movable h from to d → rename_workspace from to in_use h = (r, ws) →
  let stopped := apply_writes (take n ws) h in let started := recover_moves stopped in
  (∀ name u, account h name = Some u → ∃ u', account stopped name = Some u' ∧
     ∀ p, grants u !! from = Some p → grants u' !! name_now from to stopped = Some p) ∧
  sys started !! move_record from = None ∧
  ((dirs started = dirs h ∧ (∀ name, account started name = account h name) ∧ (r = Ok tt → (n < length ws)%nat)) ∨
   (r = Ok tt ∧ dirs started = <[to := d]> (base.delete from (dirs h)) ∧ ∀ name, account started name = moved from to <$> account h name)).
Proof.
  intros Hm Hr stopped started. pose proof (rename_cases h from to d Hm in_use) as H. rewrite Hr in H.
  assert (before h from to stopped ∧ (r = Ok tt → (n < length ws)%nat) ∨ r = Ok tt ∧ after h from to d stopped) as Hc.
  { destruct r as [[]|e]; [|left; split; [apply H|done]]. destruct H as (n0 & H1 & Hn & H2). destruct (le_lt_dec n0 n); [right; split; [done|by apply H2]|].
    left. split; [by apply H1|lia]. }
  split; [|].
  { destruct Hc as [[Hb _]|[_ Ha]]; [exact (kept_access h from to d Hm stopped (or_introl Hb))|exact (kept_access h from to d Hm stopped (or_intror Ha))]. }
  subst started. destruct Hc as [[Hb Hn]|[-> Ha]].
  - destruct (recover_before h from to d Hm stopped Hb) as [[Ed _ Er] Hacc]. split; [rewrite (Er from); by rewrite andb_false_r|]. left. by split.
  - destruct (recover_after h from to d Hm stopped Ha) as [[Ed _ Er] Hacc]. split; [rewrite (Er from); by rewrite andb_false_r|]. right. by split.
Qed.
End moves_thm.

(** ** A home to evaluate on *)
#[export] Instance plain_hash : Pbkdf2 := {| pbkdf2 p s n := [len p; len s] |}.
Definition ana : User :=
  {| u_name := lit "ana"; role := Editor; grants := {[lit "places" := PWrite]}; default_workspace := Some (lit "places"); timezone := None; formats := ∅;
     created := 0; salt := [1; 2]; hash := [3]; iterations := 60000 |}.
Definition small_home : @Home sample_numbers := {| sys := ({[user_key (lit "ana") := to_json ana]} : gmap str (@Json sample_numbers)); dirs := {[lit "places" := lit "/d"]} |}.
Lemma ana_account name u : account small_home name = Some u → name = lit "ana" ∧ u = ana.
Proof.
  unfold account, get_user. cbn [sys small_home]. destruct (({[user_key (lit "ana") := to_json ana]} : gmap str (@Json sample_numbers)) !! user_key name) as [j|] eqn:E; [|done].
  apply lookup_singleton_Some in E as [E%user_key_inj <-]. subst name. cbn [mbind option_bind]. change (lit "ana") with (u_name ana). rewrite user_back; [by intros [= <-]|].
  split; cbn; repeat constructor; unfold is_byte, in_u, in_i64, i64_min, i64_max; lia.
Qed.
Lemma small_movable : movable small_home (lit "places") (lit "travel.places") (lit "/d").
Proof.
  split; cbn [dirs sys small_home].
  - apply lookup_singleton_eq.
  - by apply lookup_singleton_ne.
  - intros key [j Hj]. cbn [sys small_home] in Hj. apply lookup_singleton_Some in Hj as [<- _]. vm_decide.
  - vm_decide.
  - intros r. by apply lookup_singleton_ne.
  - intros name u [_ ->]%ana_account. by apply lookup_singleton_ne.
Qed.
Lemma rename_crash_safe_witness : movable small_home (lit "places") (lit "travel.places") (lit "/d") ∧
  (rename_workspace (lit "places") (lit "travel.places") false small_home).1 = Ok tt ∧
  ∃ u', account (recover_moves (apply_writes (take 3 (rename_workspace (lit "places") (lit "travel.places") false small_home).2) small_home)) (lit "ana") = Some u' ∧
    (u' = ana ∨ u' = moved (lit "places") (lit "travel.places") ana).
Proof.
  assert ((rename_workspace (lit "places") (lit "travel.places") false small_home).1 = Ok tt) as Hr by (vm_compute; reflexivity).
  split; [exact small_movable|]. split; [exact Hr|].
  destruct (rename_crash_safe small_home (lit "places") (lit "travel.places") (lit "/d") false 3 _ _ small_movable (surjective_pairing _)) as (_ & _ & H).
  assert (account small_home (lit "ana") = Some ana) as E.
  { unfold account, get_user. cbn [sys small_home]. rewrite lookup_singleton_eq. cbn [mbind option_bind]. apply (user_back ana).
    split; cbn; repeat constructor; unfold is_byte, in_u, in_i64, i64_min, i64_max; lia. }
  destruct H as [(_ & H & _)|(_ & _ & H)]; specialize (H (lit "ana")); rewrite E in H; [exists ana|exists (moved (lit "places") (lit "travel.places") ana)]; split; auto.
Defined.
