(* ===== verification/Proto.v ===== *)
(** * [src/proto.rs]: the frames of the binary protocol

    What a connection brings is a list of events: bytes as they arrive, a
    timeout of the read (with what [keep_going] answers then), a call that was
    interrupted, an error. The end of the list is the end of the stream. *)
From S2P Require Import Prelude Utf8.

Definition CMD_HELLO : Z := 1.
Definition CMD_AUTH : Z := 2.
Definition CMD_EXEC : Z := 3.
Definition CMD_PING : Z := 4.
Definition CMD_GET : Z := 5.
Definition CMD_SET : Z := 6.
Definition CMD_DEL : Z := 7.
Definition CMD_REPL_SYNC : Z := 20.
Definition CMD_REPL_ACK : Z := 21.
Definition ST_OK : Z := 0.
Definition ST_ERR : Z := 1.
Definition ST_NOT_FOUND : Z := 2.
Definition ST_EVENT : Z := 9.
Definition R_SNAP_BEGIN : Z := 30.
Definition R_SET : Z := 31.
Definition R_DEL : Z := 32.
Definition R_RESET : Z := 33.
Definition R_SNAP_END : Z := 34.
Definition R_PROMOTE : Z := 35.
Definition R_PING : Z := 36.
Definition R_WORKSPACES : Z := 37.
Definition R_USE : Z := 38.
Definition R_WS_REMOVE : Z := 39.
Definition MAX_FRAME : Z := 300 * 1024 * 1024.

Definition frame (code : Z) (payload : bytes) : bytes :=
  be_bytes 4 (wrap 32 (len payload + 2)) ++ be_bytes 2 code ++ payload.

Inductive Event := Data (b : bytes) | TimedOut (keep_going : bool) | Interrupted | Broken (e : String.string).

(** [read_full]: [room] bytes, however they come; and what is left. *)
Fixpoint read_full (room : nat) (evs : list Event) : result String.string (bytes * list Event) :=
  match room with
  | O => Ok ([], evs)
  | _ =>
    match evs with
    | [] => Err "connection closed"%string
    | Data [] :: _ => Err "connection closed"%string
    | Data b :: evs =>
      if Nat.leb (length b) room then '(rest, evs) ← read_full (room - length b) evs; Ok (b ++ rest, evs)
      else Ok (take room b, Data (drop room b) :: evs)
    | TimedOut go :: evs => if go then read_full room evs else Err "stopped"%string
    | Interrupted :: evs => read_full room evs
    | Broken e :: _ => Err e
    end
  end.
Definition read_frame (evs : list Event) : result String.string (Z * bytes * list Event) :=
  '(head, evs) ← read_full 6 evs;
  let n := be_val (take 4 head) in
  if negb ((2 <=? n) && (n <=? MAX_FRAME)) then Err "invalid frame length"%string
  else
    '(payload, evs) ← read_full (Z.to_nat (n - 2)) evs;
    Ok (be_val (drop 4 head), payload, evs).

(** ** [Reader]: what is left of a payload *)
Definition take_n (n : Z) (r : bytes) : result String.string (bytes * bytes) :=
  if len r <? n then Err "truncated payload"%string else Ok (take (Z.to_nat n) r, drop (Z.to_nat n) r).
Definition read_u (n : Z) (r : bytes) : result String.string (Z * bytes) := '(b, r) ← take_n n r; Ok (be_val b, r).
Definition read_u8 := read_u 1.
Definition read_u16 := read_u 2.
Definition read_u32 := read_u 4.
Definition read_u64 := read_u 8.
Definition read_i64 (r : bytes) : result String.string (Z * bytes) := '(u, r) ← read_u64 r; Ok (sint 64 u, r).
Definition str16 (r : bytes) : result String.string (str * bytes) :=
  '(n, r) ← read_u16 r; '(b, r) ← take_n n r; s ← ok_or (from_utf8 b) "invalid UTF-8"%string; Ok (s, r).

(** ** Frames are read as they were written *)
(** The bytes of a list of events, when no error and no stop comes with them. *)
Fixpoint data_of (evs : list Event) : bytes :=
  match evs with Data b :: evs => b ++ data_of evs | _ :: evs => data_of evs | [] => [] end.
Definition quiet (e : Event) : Prop := match e with Data b => b ≠ [] | TimedOut go => go = true | Interrupted => True | Broken _ => False end.

Lemma read_full_data evs : ∀ room a b, Forall quiet evs → data_of evs = a ++ b → length a = room →
  ∃ evs', read_full room evs = Ok (a, evs') ∧ data_of evs' = b ∧ Forall quiet evs'.
Proof.
  induction evs as [|e evs IH]; intros room a b Hq E Hl.
  - destruct a; [|done]. subst room. exists []. by repeat split.
  - apply Forall_cons in Hq as [He Hq]. destruct room as [|room]; [destruct a; [|done]; exists (e :: evs); split; [done|]; by split; [|constructor]|].
    destruct e as [d|go| |m]; cbn [data_of quiet] in *; [|subst go| |done]; cbn [read_full]; [|by apply IH..].
    assert (∃ x d', d = x :: d') as (x & d' & Ed) by (destruct d; eauto; done). replace (match d with [] => _ | _ => _ end) with
      (if Nat.leb (length d) (S room) then '(rest, evs) ← read_full (S room - length d) evs; Ok (d ++ rest, evs)
       else Ok (take (S room) d, Data (drop (S room) d) :: evs)) by (by rewrite Ed).
    destruct (Nat.leb_spec (length d) (S room)) as [Hc|Hc].
    + apply app_eq_inv in E as [(k & E1 & E2)|(k & E1 & E2)].
      * apply (f_equal length) in E1 as El. rewrite length_app in El. assert (k = []) as -> by (destruct k; [done|cbn in El; lia]). rewrite app_nil_r in E1. subst.
        destruct (IH (S room - length (x :: d'))%nat [] (data_of evs)) as (evs' & E & Eb & Hq'); [done..|cbn in *; lia|]. rewrite E. exists evs'. cbn [mbind result_bind]. by rewrite app_nil_r.
      * subst a. rewrite length_app in Hl. destruct (IH (S room - length d)%nat k b) as (evs' & E & Eb & Hq'); [done..|lia|]. rewrite E. by exists evs'.
    + apply app_eq_inv in E as [(k & Ec & ->)|(k & -> & _)]; [|rewrite length_app in Hl; lia].
      exists (Data k :: evs). rewrite Ec, take_app_len, drop_app_len by done. split; [done|]. split; [done|]. constructor; [|done].
      cbn. intros ->. rewrite Ec, app_nil_r in Hc. lia.
Qed.
Lemma len_be n z : len (be_bytes n z) = Z.of_nat n.
Proof. unfold len. by rewrite be_bytes_length. Qed.
Lemma be_u n z : 0 ≤ z < 256 ^ Z.of_nat n → be_val (be_bytes n z) = z.
Proof. intros H. rewrite be_val_be_bytes. by apply Z.mod_small. Qed.
(** C40: a frame is read back from the connection, whatever pieces its bytes
    come in and however many timeouts come between them; what follows it is
    left for the next read. *)
Theorem frame_roundtrip code payload evs rest : in_u 16 code → len payload + 2 ≤ MAX_FRAME → Forall quiet evs → data_of evs = frame code payload ++ rest →
  ∃ evs', read_frame evs = Ok (code, payload, evs') ∧ data_of evs' = rest ∧ Forall quiet evs'.
Proof.
  intros Hc Hp Hq E. unfold frame in E. rewrite <- !app_assoc, (app_assoc (be_bytes 4 _)) in E. unfold MAX_FRAME in Hp. pose proof (len_nonneg payload) as H0.
  destruct (read_full_data evs 6 _ _ Hq E) as (e1 & E1 & D1 & Q1); [by rewrite length_app, !be_bytes_length|].
  unfold read_frame. rewrite E1. cbn [mbind result_bind]. rewrite take_app_len, drop_app_len by apply be_bytes_length.
  rewrite wrap_small, !be_u by (unfold in_u in *; cbn; lia). rewrite leb_t, leb_t by (unfold MAX_FRAME; lia). cbn [andb negb].
  destruct (read_full_data e1 (Z.to_nat (len payload + 2 - 2)) payload rest Q1 D1) as (e2 & E2 & D2 & Q2); [unfold len; lia|].
  rewrite E2. by exists e2.
Qed.
Lemma frame_roundtrip_witness : in_u 16 CMD_GET ∧ len (lit "a:1") + 2 ≤ MAX_FRAME ∧
  ∃ evs', read_frame [Data [0; 0]; TimedOut true; Data ([0; 5; 0; 5] ++ lit "a:1")] = Ok (CMD_GET, lit "a:1", evs').
Proof.
  assert (in_u 16 CMD_GET) as H1 by (unfold in_u, CMD_GET; lia). assert (len (lit "a:1") + 2 ≤ MAX_FRAME) as H2 by done.
  split; [exact H1|]. split; [exact H2|].
  destruct (frame_roundtrip CMD_GET (lit "a:1") [Data [0; 0]; TimedOut true; Data ([0; 5; 0; 5] ++ lit "a:1")] [] H1 H2) as (evs' & E & _);
    [by repeat constructor|done|by exists evs'].
Defined.

(** Fields of a payload are read back. *)
Lemma take_n_app n a b : len a = n → take_n n (a ++ b) = Ok (a, b).
Proof.
  intros <-. unfold take_n. rewrite len_app. pose proof (len_nonneg b). rewrite ltb_f by lia. unfold len. rewrite Nat2Z.id. by rewrite take_app_len, drop_app_len.
Qed.
Lemma read_u_app n z b : 0 ≤ z < 256 ^ Z.of_nat n → read_u (Z.of_nat n) (be_bytes n z ++ b) = Ok (z, b).
Proof. intros H. unfold read_u. rewrite take_n_app by apply len_be. cbn [mbind result_bind]. by rewrite be_u. Qed.
Lemma read_i64_app z b : in_i64 z → read_i64 (be_bytes 8 (wrap 64 z) ++ b) = Ok (z, b).
Proof.
  intros H. unfold read_i64, read_u64. rewrite (read_u_app 8) by (pose proof (wrap_in_u 64 z ltac:(lia)) as W; unfold in_u in W; exact W).
  cbn [mbind result_bind]. by rewrite sint64_wrap.
Qed.
Lemma str16_app s b : valid_str s → str_len s < 65536 → str16 (be_bytes 2 (str_len s) ++ utf8 s ++ b) = Ok (s, b).
Proof.
  intros Hs Hl. pose proof (len_nonneg (utf8 s)) as H0. unfold str16, read_u16. rewrite (read_u_app 2) by (cbn; unfold str_len in *; lia). cbn [mbind result_bind].
  rewrite take_n_app by done. cbn [mbind result_bind]. by rewrite from_utf8_utf8.
Qed.
