(* ===== verification/Repl.v ===== *)
(** * [src/repl.rs]: a master feeds a replica

    The databases of a node are items by key, for each workspace and for the
    system database; an engine does to them what [Engine] says. A master
    commits operations, and sends a replica a snapshot, then the operations of
    its queue: the two go on at once, in any order. A call that fails on the
    disk or the network ends the connection, and all starts again. *)
From S2P Require Import Prelude Utf8 Text Maps Util Types DocNum Ordering Kdoc Paths Times Json Value Auth Proto.

Definition SYSTEM : str := lit "@system".
Definition DEFAULT : str := lit "default".
(** What an engine has of a key: the type, the bytes and the encoding of its
    value, its time and its deadline. *)
Record Item := { i_ty : Type_; i_raw : bytes; i_enc : DocEnc; i_time : Z; i_exp : Z }.
Definition live (t : Z) (it : Item) : bool := negb ((0 <? i_exp it) && (i_exp it <=? t)).
Abbreviation Contents := (gmap str Item).
Inductive ROp := OSet (key : str) (it : Item) | ODel (key : str) | OReset.
Definition apply_op (o : ROp) (c : Contents) : Contents :=
  match o with OSet k it => <[k := it]> c | ODel k => base.delete k c | OReset => ∅ end.
Definition of_ws (ws : str) (m : gmap str Contents) : Contents := default ∅ (m !! ws).
Definition on_ws (ws : str) (f : Contents → Contents) (m : gmap str Contents) : gmap str Contents := <[ws := f (of_ws ws m)]> m.

(** ** Frames *)
Abbreviation Frame := (Z * bytes)%type.
Definition enc_code (e : DocEnc) : Z := match e with EncJson => 0 | EncMsgPack => 1 | EncKdoc => 2 end.
Definition set_payload (seq : Z) (key : str) (it : Item) : bytes :=
  be_bytes 8 seq ++ be_bytes 8 (wrap 64 (i_time it)) ++ be_bytes 8 (wrap 64 (i_exp it)) ++ [Type_code (i_ty it)] ++ [enc_code (i_enc it)] ++
  be_bytes 2 (wrap 16 (str_len key)) ++ utf8 key ++ i_raw it.
Definition op_frame (seq : Z) (o : ROp) : Frame :=
  match o with
  | OSet key it => (R_SET, set_payload seq key it)
  | ODel key => (R_DEL, be_bytes 8 seq ++ utf8 key)
  | OReset => (R_RESET, be_bytes 8 seq)
  end.
Definition use_frame (ws : str) : Frame := (R_USE, utf8 ws).

(** ** The master *)
Inductive RMsg := MOp (seq : Z) (ws : str) (o : ROp) | MWorkspace (ws : str) (removed : bool) | MPromote.
(** [registered]: the workspaces besides the default one. *)
Record Master := { stores : gmap str Contents; registered : gset str; m_seq : Z }.
(** Where the sending is: before the snapshot; in a workspace, with the keys
    and the workspaces left; after it. *)
Inductive Phase := PStart | PSnap (ws : str) (ks : list str) (left : list str) | PLive (current : str).
Record Serve := { phase : Phase; queue : list RMsg }.
Definition workspaces (m : Master) : list str := DEFAULT :: elements (registered m).
Fixpoint join_lines (names : list str) : str :=
  match names with [] => [] | [n] => n | n :: names => n ++ 10 :: join_lines names end.
(** What is sent for a message, and the workspace the replica is then on. *)
Definition send_msg (current : str) (msg : RMsg) : list Frame * str :=
  match msg with
  | MOp seq ws o => ((if bool_decide (ws = current) then [] else [use_frame ws]) ++ [op_frame seq o], ws)
  | MWorkspace ws false => ([use_frame ws], ws)
  | MWorkspace ws true => ([(R_WS_REMOVE, utf8 ws)], current)
  | MPromote => ([(R_PROMOTE, [])], current)
  end.
(** One more thing sent, at the time [t]. *)
Definition feed (t : Z) (m : Master) (s : Serve) : list Frame * Serve :=
  match phase s with
  | PStart =>
    ([(R_SNAP_BEGIN, []); (R_WORKSPACES, utf8 (join_lines (workspaces m)))],
     {| phase := PSnap DEFAULT [] (workspaces m ++ [SYSTEM]); queue := queue s |})
  | PSnap ws (k :: ks) todo =>
    (match of_ws ws (stores m) !! k with
     | Some it => if live t it then [op_frame 0 (OSet k it)] else []
     | None => []
     end, {| phase := PSnap ws ks todo; queue := queue s |})
  | PSnap _ [] (ws :: todo) =>
    ([use_frame ws; op_frame 0 OReset],
     {| phase := PSnap ws (List.map fst (List.filter (fun ki => live t ki.2) (entries (of_ws ws (stores m))))) todo; queue := queue s |})
  | PSnap _ [] [] => ([(R_SNAP_END, be_bytes 8 (m_seq m))], {| phase := PLive SYSTEM; queue := queue s |})
  | PLive current =>
    match queue s with
    | [] => ([], s)
    | msg :: q => let '(fs, current) := send_msg current msg in (fs, {| phase := PLive current; queue := q |})
    end
  end.
(** What happens on the master: an operation is committed and queued
    ([broadcast]), a workspace is created or removed, something is sent. *)
Inductive MAct := Commit (ws : str) (o : ROp) | Create (ws : str) | Remove (ws : str) | Feed (t : Z).
Definition enqueue (msg : RMsg) (s : Serve) : Serve := {| phase := phase s; queue := queue s ++ [msg] |}.
Definition act (a : MAct) (m : Master) (s : Serve) : list Frame * Master * Serve :=
  match a with
  | Commit ws o =>
    ([], {| stores := on_ws ws (apply_op o) (stores m); registered := registered m; m_seq := m_seq m + 1 |}, enqueue (MOp (m_seq m + 1) ws o) s)
  | Create ws => ([], {| stores := stores m; registered := {[ws]} ∪ registered m; m_seq := m_seq m |}, enqueue (MWorkspace ws false) s)
  | Remove ws => ([], {| stores := stores m; registered := registered m ∖ {[ws]}; m_seq := m_seq m |}, enqueue (MWorkspace ws true) s)
  | Feed t => let '(fs, s) := feed t m s in (fs, m, s)
  end.
Fixpoint serve (acts : list MAct) (m : Master) (s : Serve) : list Frame * Master * Serve :=
  match acts with
  | [] => ([], m, s)
  | a :: acts => let '(fs, m, s) := act a m s in let '(fs', m, s) := serve acts m s in (fs ++ fs', m, s)
  end.
Definition serve0 : Serve := {| phase := PStart; queue := [] |}.

(** ** The replica *)
Record Replica := { r_stores : gmap str Contents; r_registered : gset str; engine : str; applied_seq : Z; acks : list Z }.
Section replica.
  Context `{HN : JsonNumbers} `{HM : !JsonMake} `{HD : Decimals} `{HF : !DecimalFrom} `{HT : !DecimalText} `{HB : !DecimalBytes}.
  Context `{HC : Chrono} `{HK : !Calendar} `{HR : !Rfc3339} `{HS : !Serde}.

Definition io {A} (r : result String.string A) : result KivaError A := match r with Ok a => Ok a | Err e => Err (Io e) end.
(** [put_raw], then what the engine keeps. *)
Definition put_raw (key : str) (t : Type_) (raw : bytes) (e : DocEnc) (time exp : Z) (c : Contents) : result KivaError Contents :=
  v ← Value.decode t raw e;
  '(raw, e') ← encode_stored v (bool_decide (e = EncMsgPack));
  Ok (<[key := {| i_ty := ty v; i_raw := raw; i_enc := e'; i_time := time; i_exp := exp |}]> c).
Definition set_store (f : Contents → Contents) (r : Replica) : Replica :=
  {| r_stores := on_ws (engine r) f (r_stores r); r_registered := r_registered r; engine := engine r; applied_seq := applied_seq r; acks := acks r |}.
Definition set_engine (ws : str) (r : Replica) : Replica :=
  {| r_stores := r_stores r; r_registered := r_registered r; engine := ws; applied_seq := applied_seq r; acks := acks r |}.
Definition set_registered (g : gset str) (r : Replica) : Replica :=
  {| r_stores := r_stores r; r_registered := g; engine := engine r; applied_seq := applied_seq r; acks := acks r |}.
Definition ack (seq : Z) (r : Replica) : Replica :=
  {| r_stores := r_stores r; r_registered := r_registered r; engine := engine r; applied_seq := Z.max (applied_seq r) seq; acks := acks r ++ [seq] |}.
Definition applied (seq : Z) (r : Replica) : Replica := if 0 <? seq then ack seq r else r.
Definition ensure_workspace (ws : str) (r : Replica) : result KivaError Replica :=
  if bool_decide (ws = DEFAULT) || bool_decide (ws ∈ r_registered r) then Ok r
  else _ ← check_workspace_name ws; Ok (set_registered ({[ws]} ∪ r_registered r) r).
Fixpoint ensure_all (names : list str) (r : Replica) : result KivaError Replica :=
  match names with [] => Ok r | n :: names => r ← ensure_workspace n r; ensure_all names r end.
Definition DocEnc_of (b : Z) : result KivaError DocEnc :=
  if b =? 0 then Ok EncJson else if b =? 1 then Ok EncMsgPack else if b =? 2 then Ok EncKdoc else Err (Corrupted "bad document encoding in stream").
Definition follow_set (p : bytes) (r : Replica) : result KivaError Replica :=
  '(seq, p) ← io (read_u64 p); '(time, p) ← io (read_i64 p); '(exp, p) ← io (read_i64 p);
  '(b, p) ← io (read_u8 p); t ← ok_or (Type_from_u8 b) (Corrupted "bad type in stream");
  '(b, p) ← io (read_u8 p); e ← DocEnc_of b;
  '(key, p) ← io (str16 p);
  c ← put_raw key t p e time (expiry_to_ms exp) (of_ws (engine r) (r_stores r));
  Ok (applied seq (set_store (fun _ => c) r)).
Definition follow (f : Frame) (r : Replica) : result KivaError Replica :=
  let '(code, p) := f in
  if code =? R_SNAP_BEGIN then Ok (set_store (fun _ => ∅) (set_engine DEFAULT r))
  else if code =? R_WORKSPACES then
    let names := List.filter (fun n => negb (bool_decide (n = []))) (lines (from_utf8_lossy p)) in
    r ← ensure_all names r;
    Ok (set_registered (filter (fun n => n ∈ names) (r_registered r)) r)
  else if code =? R_USE then
    let name := from_utf8_lossy p in
    if bool_decide (name = SYSTEM) then Ok (set_engine SYSTEM r)
    else r ← ensure_workspace name r; Ok (set_engine name r)
  else if code =? R_WS_REMOVE then
    let name := from_utf8_lossy p in
    Ok (if bool_decide (name = DEFAULT) then r else set_registered (r_registered r ∖ {[name]}) r)
  else if code =? R_SET then follow_set p r
  else if code =? R_DEL then
    '(seq, p) ← io (read_u64 p); Ok (applied seq (set_store (base.delete (from_utf8_lossy p)) r))
  else if code =? R_RESET then
    '(seq, _) ← io (read_u64 p); Ok (applied seq (set_store (fun _ => ∅) r))
  else if code =? R_SNAP_END then
    '(seq, _) ← io (read_u64 p); Ok (ack seq r)
  else Ok r.
Fixpoint follow_all (fs : list Frame) (r : Replica) : result KivaError Replica :=
  match fs with [] => Ok r | f :: fs => r ← follow f r; follow_all fs r end.
End replica.
