(* ===== verification/ReplThm.v ===== *)
(** * [src/repl.rs]: a replica that received everything holds what the master
    holds; and an acknowledgement that comes too early *)
From S2P Require Import Prelude Utf8 Text Maps Util Types DocNum Ordering Kdoc Paths Times TimesThm Json JsonThm Value Auth Proto Repl.

Section repl.
  Context `{HN : JsonNumbers} `{HM : !JsonMake} `{HD : Decimals} `{HF : !DecimalFrom} `{HT : !DecimalText} `{HB : !DecimalBytes}.
  Context `{HC : Chrono} `{HK : !Calendar} `{HR : !Rfc3339} `{HS : !Serde}.
  Context `{LM : !JsonMakeLaws} `{LT : !DecimalTextLaws} `{LB : !DecimalBytesLaws} `{LC : !ChronoLaws} `{LK : !CalendarLaws} `{LR : !Rfc3339Laws} `{LS : !SerdeLaws}.

(** ** The frames of operations *)
(** An item as an engine stores it. *)
Record item_ok (it : Item) : Prop := {
  it_value : ∃ v msgpack, value_ok v ∧ encode_stored v msgpack = Ok (i_raw it, i_enc it) ∧ i_ty it = ty v;
  it_time : in_i64 (i_time it);
  it_exp : in_i64 (i_exp it);
  it_ms : expiry_to_ms (i_exp it) = i_exp it;
}.
Definition key_ok (key : str) : Prop := valid_str key ∧ str_len key < 65536.
Definition op_ok (o : ROp) : Prop := match o with OSet k it => key_ok k ∧ item_ok it | ODel k => key_ok k | OReset => True end.

Lemma encode_again v msgpack raw enc : encode_stored v msgpack = Ok (raw, enc) → encode_stored v (bool_decide (enc = EncMsgPack)) = Ok (raw, enc).
Proof.
  assert (∀ j m, encode_doc j m = Ok (raw, enc) → encode_doc j (bool_decide (enc = EncMsgPack)) = Ok (raw, enc)) as Hd.
  { intros j m. unfold encode_doc. destruct (encode_json j m) as [b|] eqn:E; [|done]. intros [= <- <-]. destruct m; [rewrite bool_decide_eq_true_2 by done|rewrite bool_decide_eq_false_2 by done]; by rewrite E. }
  destruct v; cbn [encode_stored]; try done; [by apply Hd|]. destruct (check_document d) as [[]|]; [|done]. cbn [mbind result_bind]. destruct (json_encodable d); [by apply Hd|done].
Qed.
Lemma put_raw_same key it c : item_ok it → put_raw key (i_ty it) (i_raw it) (i_enc it) (i_time it) (i_exp it) c = Ok (<[key := it]> c).
Proof.
  intros [(v & m & Hv & He & Ht) _ _ _]. unfold put_raw. rewrite Ht, (stored_roundtrip v m _ _ Hv He). cbn [mbind result_bind]. rewrite (encode_again _ _ _ _ He).
  cbn [mbind result_bind]. rewrite <- Ht. by destruct it.
Qed.
Lemma enc_back e : DocEnc_of (enc_code e) = Ok e.
Proof. by destruct e. Qed.
Lemma read_byte_app b r : 0 ≤ b < 256 → read_u8 (b :: r) = Ok (b, r).
Proof.
  intros H. unfold read_u8, read_u, take_n. rewrite len_cons. pose proof (len_nonneg r). rewrite ltb_f by lia. change (Z.to_nat 1) with 1%nat. cbn [mbind result_bind].
  unfold be_val. cbn [take drop rev app]. rewrite take_0, drop_0. cbn [rev app]. by rewrite le_val_1.
Qed.
Lemma follow_op seq o r : in_u 64 seq → op_ok o → follow (op_frame seq o) r = Ok (applied seq (set_store (apply_op o) r)).
Proof.
  intros Hs Ho. destruct o as [k it|k|]; cbn [op_frame op_ok] in *.
  - destruct Ho as [[Hk Hl] Hi]. pose proof Hi as [_ Ht He Hx]. unfold follow, R_SNAP_BEGIN, R_WORKSPACES, R_USE, R_WS_REMOVE, R_SET. cbn [Z.eqb Pos.eqb].
    unfold follow_set, set_payload. unfold read_u64. rewrite (read_u_app 8) by done. cbn [io mbind result_bind]. rewrite read_i64_app by done. cbn [io mbind result_bind].
    rewrite read_i64_app by done. cbn [io mbind result_bind]. cbn [app]. rewrite read_byte_app by (by destruct (i_ty it)). cbn [io mbind result_bind].
    rewrite Type_from_u8_code. cbn [ok_or mbind result_bind]. rewrite read_byte_app by (by destruct (i_enc it)). cbn [io mbind result_bind]. rewrite enc_back. cbn [mbind result_bind].
    pose proof (len_nonneg (utf8 k)). rewrite (wrap_small 16) by (unfold in_u, str_len in *; lia). rewrite str16_app by done. cbn [io mbind result_bind].
    rewrite Hx, put_raw_same by done. done.
  - destruct Ho as [Hk _]. unfold follow, R_SNAP_BEGIN, R_WORKSPACES, R_USE, R_WS_REMOVE, R_SET, R_DEL. cbn [Z.eqb Pos.eqb].
    unfold read_u64. rewrite (read_u_app 8) by done. cbn [io mbind result_bind]. by rewrite lossy_utf8.
  - unfold follow, R_SNAP_BEGIN, R_WORKSPACES, R_USE, R_WS_REMOVE, R_SET, R_DEL, R_RESET. cbn [Z.eqb Pos.eqb].
    unfold read_u64. rewrite <- (app_nil_r (be_bytes 8 seq)). rewrite (read_u_app 8) by done. done.
Qed.

(** ** The frames of workspaces *)
Lemma name_chars name : valid_workspace_name name = true → name ≠ [] ∧ Forall (fun c => part_char c = true ∨ c = DOT) name.
Proof.
  assert (∀ p, valid_name_part p = true → p ≠ [] ∧ Forall (fun c => part_char c = true ∨ c = DOT) p) as Hp.
  { intros p. unfold valid_name_part. rewrite !andb_true_iff, negb_true_iff, bool_decide_eq_false. intros [[Hn _] Hf]. split; [done|].
    apply List.Forall_forall. intros c Hc. left. rewrite forallb_forall in Hf. by apply Hf. }
  unfold valid_workspace_name, split_dot. destruct (cut_at DOT name) as [[p w]|] eqn:E; [|apply Hp]. apply cut_at_split in E as [-> _].
  rewrite andb_true_iff. intros [[_ H1]%Hp [_ H2]%Hp]. split; [by destruct p|]. apply Forall_app. split; [done|]. constructor; [by right|done].
Qed.
Lemma part_char_plain c : part_char c = true ∨ c = DOT → is_ascii c ∧ c ≠ 10 ∧ c ≠ 13.
Proof.
  unfold part_char, alnum, DOT, is_ascii. rewrite !orb_true_iff, !andb_true_iff, !Z.leb_le, !Z.eqb_eq. lia.
Qed.
Lemma name_plain name : valid_workspace_name name = true → Forall is_ascii name ∧ 10 ∉ name ∧ 13 ∉ name.
Proof.
  intros [_ H]%name_chars. split; [|split].
  - eapply Forall_impl; [exact H|]. intros c Hc. by apply part_char_plain.
  - intros Hin. rewrite Forall_forall in H. by apply H, part_char_plain in Hin as (_ & ? & _).
  - intros Hin. rewrite Forall_forall in H. by apply H, part_char_plain in Hin as (_ & _ & ?).
Qed.
Lemma lossy_name name : valid_workspace_name name = true → from_utf8_lossy (utf8 name) = name.
Proof. intros [Ha _]%name_plain. by apply lossy_utf8, ascii_valid. Qed.
Lemma lines_name name cur s : 10 ∉ name → lines_loop cur (name ++ s) = lines_loop (cur ++ name) s.
Proof.
  revert cur. induction name as [|c name IH]; intros cur H; [by rewrite app_nil_r|]. apply not_elem_of_cons in H as [Hc H]. cbn [app lines_loop].
  rewrite (proj2 (Z.eqb_neq c 10)) by done. rewrite IH by done. by rewrite <- app_assoc.
Qed.
Lemma strip_cr_none name : 13 ∉ name → strip_cr name = name.
Proof.
  intros H. unfold strip_cr. destruct (rev name) as [|c r] eqn:E; [done|]. destruct (Z.eqb_spec c 13) as [->|]; [|done].
  exfalso. apply H. assert (In 13 (rev name)) as Hi by (rewrite E; left; done). apply list_elem_of_In. by apply in_rev in Hi.
Qed.
Lemma lines_join names : Forall (fun n => valid_workspace_name n = true) names → lines (join_lines names) = names.
Proof.
  unfold lines. induction 1 as [|n names Hn Hns IH]; [done|]. pose proof (name_plain n Hn) as (_ & H10 & H13). apply name_chars in Hn as [Hne _].
  destruct names as [|n' names]; cbn [join_lines].
  - rewrite <- (app_nil_r n) at 1. rewrite lines_name by done. cbn [app lines_loop]. by rewrite bool_decide_eq_false_2.
  - rewrite lines_name by done. cbn [app lines_loop Z.eqb Pos.eqb]. rewrite strip_cr_none by done. f_equal. exact IH.
Qed.
Lemma join_ascii names : Forall (fun n => valid_workspace_name n = true) names → Forall is_ascii (join_lines names).
Proof.
  induction 1 as [|n names Hn Hns IH]; [constructor|]. apply name_plain in Hn as [Ha _]. cbn [join_lines]. destruct names; [done|].
  apply Forall_app. split; [done|]. constructor; [unfold is_ascii; lia|done].
Qed.
Lemma ensure_all_ok names : Forall (fun n => valid_workspace_name n = true) names → ∀ r, ∃ g, ensure_all names r = Ok (set_registered g r) ∧
  ∀ n, n ∈ g ↔ n ∈ r_registered r ∨ (n ∈ names ∧ n ≠ DEFAULT).
Proof.
  induction 1 as [|n names Hn _ IH]; intros r; cbn [ensure_all].
  - exists (r_registered r). split; [by destruct r|]. intros m. split; [by left|]. intros [?|[Hm _]]; [done|by apply elem_of_nil in Hm].
  - unfold ensure_workspace. case_bool_decide as Hd; cbn [orb]; [|case_bool_decide as Hr].
    + destruct (IH r) as (g & E & Hg). exists g. split; [done|]. intros m. rewrite Hg, elem_of_cons. naive_solver.
    + destruct (IH r) as (g & E & Hg). exists g. split; [done|]. intros m. rewrite Hg, elem_of_cons. naive_solver.
    + unfold check_workspace_name. rewrite Hn. cbn [mbind result_bind]. destruct (IH (set_registered ({[n]} ∪ r_registered r) r)) as (g & E & Hg).
      exists g. split; [done|]. intros m. rewrite Hg, elem_of_cons. cbn [set_registered r_registered]. rewrite elem_of_union, elem_of_singleton. naive_solver.
Qed.
Lemma system_name : valid_workspace_name SYSTEM = false ∧ valid_workspace_name DEFAULT = true ∧ SYSTEM ≠ DEFAULT.
Proof. done. Qed.
Lemma follow_names names r : Forall (fun n => valid_workspace_name n = true) names → ∃ g, follow (R_WORKSPACES, utf8 (join_lines names)) r = Ok (set_registered g r) ∧
  ∀ n, n ∈ names → n ≠ DEFAULT → n ∈ g.
Proof.
  intros Hn. unfold follow, R_SNAP_BEGIN, R_WORKSPACES. cbn [Z.eqb Pos.eqb]. rewrite lossy_utf8 by (by apply ascii_valid, join_ascii). rewrite lines_join by done.
  assert (List.filter (fun n => negb (bool_decide (n = []))) names = names) as ->.
  { induction Hn as [|n names H _ IH]; [done|]. cbn [List.filter]. apply name_chars in H as [H _]. rewrite bool_decide_eq_false_2 by done. cbn [negb]. by rewrite IH. }
  destruct (ensure_all_ok names Hn r) as (g & E & Hg). rewrite E. cbn [mbind result_bind]. exists (filter (fun n => n ∈ names) g). split; [done|].
  intros n Hin Hd. apply elem_of_filter. split; [done|]. apply Hg. by right.
Qed.
Lemma follow_use ws r : ws = SYSTEM ∨ (valid_workspace_name ws = true ∧ (ws = DEFAULT ∨ ws ∈ r_registered r)) → follow (use_frame ws) r = Ok (set_engine ws r).
Proof.
  intros Hw. unfold follow, use_frame, R_SNAP_BEGIN, R_WORKSPACES, R_USE. cbn [Z.eqb Pos.eqb]. destruct Hw as [->|[Hv Hr]]; [by rewrite lossy_utf8 by (by apply ascii_valid; vm_decide)|].
  rewrite lossy_name by done. rewrite bool_decide_eq_false_2 by (intros ->; destruct system_name; congruence). unfold ensure_workspace.
  assert (bool_decide (ws = DEFAULT) || bool_decide (ws ∈ r_registered r) = true) as ->; [|done]. rewrite orb_true_iff, !bool_decide_eq_true. tauto.
Qed.

(** ** What the queue will do *)
(** What an operation leaves of a key, when it changes it. *)
Definition eff (o : ROp) (k : str) : option (option Item) :=
  match o with
  | OSet k' it => if bool_decide (k' = k) then Some (Some it) else None
  | ODel k' => if bool_decide (k' = k) then Some None else None
  | OReset => Some None
  end.
Lemma apply_op_eff o c k : apply_op o c !! k = match eff o k with Some x => x | None => c !! k end.
Proof.
  destruct o as [k' it|k'|]; cbn [apply_op eff]; [| |done]; case_bool_decide as E; subst; by rewrite ?lookup_insert_eq, ?lookup_delete_eq, ?lookup_insert_ne, ?lookup_delete_ne.
Qed.
Definition msg_eff (msg : RMsg) (ws k : str) : option (option Item) :=
  match msg with MOp _ ws' o => if bool_decide (ws' = ws) then eff o k else None | _ => None end.
Fixpoint pend (q : list RMsg) (ws k : str) : option (option Item) :=
  match q with [] => None | msg :: q => match pend q ws k with Some x => Some x | None => msg_eff msg ws k end end.
Lemma pend_snoc q msg ws k : pend (q ++ [msg]) ws k = match msg_eff msg ws k with Some x => Some x | None => pend q ws k end.
Proof. induction q as [|m q IH]; cbn [app pend]; [by destruct (msg_eff msg ws k)|]. rewrite IH. by destruct (msg_eff msg ws k). Qed.
Lemma of_on ws ws' g m : of_ws ws (on_ws ws' g m) = if bool_decide (ws' = ws) then g (of_ws ws m) else of_ws ws m.
Proof. unfold of_ws, on_ws. case_bool_decide as E; [subst; by rewrite lookup_insert_eq|by rewrite lookup_insert_ne]. Qed.
(** What is seen of a key at a time. *)
Definition seen (T : Z) (c : Contents) (k : str) : option Item := it ← c !! k; if live T it then Some it else None.
Lemma live_later t T it : t ≤ T → live t it = false → live T it = false.
Proof. unfold live. rewrite !negb_false_iff, !andb_true_iff, !Z.leb_le, !Z.ltb_lt. lia. Qed.

(** ** Along the run *)
Definition scope (m : Master) (ws : str) : Prop := ws = SYSTEM ∨ ws = DEFAULT ∨ ws ∈ registered m.
Record master_ok (m : Master) : Prop := {
  ma_names : ∀ ws, ws ∈ registered m → valid_workspace_name ws = true;
  ma_items : ∀ ws k it, of_ws ws (stores m) !! k = Some it → key_ok k ∧ item_ok it;
}.
(** What a run may do: operations in its workspaces, clocks up to [T]. *)
Definition act_ok (T : Z) (m : Master) (a : MAct) : Prop :=
  match a with Commit ws o => scope m ws ∧ op_ok o | Feed t => t ≤ T | _ => False end.
Definition msg_ok (m : Master) (n : Z) (msg : RMsg) : Prop := match msg with MOp seq ws o => scope m ws ∧ op_ok o ∧ 0 ≤ seq ≤ n | _ => False end.
(** The keys not in the queue: not sent yet, or as the master has them. *)
Definition agrees (T : Z) (ph : Phase) (m : Master) (r : Replica) (ws k : str) : Prop :=
  match ph with
  | PStart => True
  | PSnap w ks todo =>
    if bool_decide (ws ∈ todo) then True
    else if bool_decide (ws = w) && bool_decide (k ∈ ks) then of_ws ws (r_stores r) !! k = None
    else seen T (of_ws ws (r_stores r)) k = seen T (of_ws ws (stores m)) k
  | PLive _ => seen T (of_ws ws (r_stores r)) k = seen T (of_ws ws (stores m)) k
  end.
Definition known (m : Master) (r : Replica) : Prop := ∀ ws, ws ∈ registered m → ws = DEFAULT ∨ ws ∈ r_registered r.
Definition placed (ph : Phase) (m : Master) (r : Replica) : Prop :=
  match ph with
  | PStart => True
  | PSnap w ks todo =>
    engine r = w ∧ NoDup ks ∧ last (w :: todo) = Some SYSTEM ∧ Forall (scope m) (w :: todo) ∧ known m r
  | PLive w => engine r = w ∧ known m r
  end.
Record in_step (T : Z) (m : Master) (s : Serve) (r : Replica) : Prop := {
  st_master : master_ok m;
  st_seq : 0 ≤ m_seq m;
  st_queue : Forall (msg_ok m (m_seq m)) (queue s);
  st_pend : ∀ ws k x, scope m ws → pend (queue s) ws k = Some x → of_ws ws (stores m) !! k = x;
  st_agrees : ∀ ws k, scope m ws → pend (queue s) ws k = None → agrees T (phase s) m r ws k;
  st_placed : placed (phase s) m r;
}.

Lemma seen_ext T c c' k : c !! k = c' !! k → seen T c k = seen T c' k.
Proof. unfold seen. by intros ->. Qed.
Lemma agrees_ext T ph m m' r ws k : of_ws ws (stores m') !! k = of_ws ws (stores m) !! k → agrees T ph m r ws k → agrees T ph m' r ws k.
Proof.
  intros E. pose proof (seen_ext T _ _ k E) as Es. destruct ph; cbn [agrees]; [done| |by rewrite Es]. do 2 (case_match; [done|]). by rewrite Es.
Qed.
Lemma msg_ok_later m n n' msg : n ≤ n' → msg_ok m n msg → msg_ok m n' msg.
Proof. intros Hn. destruct msg; cbn [msg_ok]; try done. intros (? & ? & ?). split; [done|]. split; [done|lia]. Qed.
Lemma commit_step T m s r ws o : in_step T m s r → scope m ws → op_ok o →
  in_step T {| stores := on_ws ws (apply_op o) (stores m); registered := registered m; m_seq := m_seq m + 1 |} (enqueue (MOp (m_seq m + 1) ws o) s) r.
Proof.
  intros [[Hn Hi] Hs Hq Hp Ha Hl] Hw Ho. set (m' := {| stores := _ |}).
  assert (∀ ws' k, of_ws ws' (stores m') !! k = match msg_eff (MOp (m_seq m + 1) ws o) ws' k with Some x => x | None => of_ws ws' (stores m) !! k end) as Hs'.
  { intros ws' k. cbn [stores m' msg_eff]. rewrite of_on. case_bool_decide; [|done]. subst. apply apply_op_eff. }
  split.
  - split; [exact Hn|]. intros ws' k it. rewrite Hs'. cbn [msg_eff]. case_bool_decide as E; [|by apply Hi]. subst ws'. destruct o as [k' it'|k'|]; cbn [eff]; [| |done].
    + case_bool_decide as E; [subst k'; intros [= <-]; exact Ho|by apply Hi].
    + case_bool_decide; [done|by apply Hi].
  - cbn. lia.
  - cbn [queue enqueue m_seq m']. apply Forall_app. split; [|constructor; [|constructor]].
    + eapply Forall_impl; [exact Hq|]. intros msg. apply (msg_ok_later m). lia.
    + cbn. split; [done|]. split; [done|lia].
  - intros ws' k x Hsc. cbn [queue enqueue]. rewrite pend_snoc, Hs'. destruct (msg_eff _ ws' k) as [y|]; [by intros [= ->]|]. by apply Hp.
  - intros ws' k Hsc. cbn [queue enqueue]. rewrite pend_snoc. destruct (msg_eff _ ws' k) as [y|] eqn:Ee; [done|]. intros Hn'. cbn [phase enqueue].
    apply (agrees_ext T _ m); [by rewrite Hs', Ee|]. by apply Ha.
  - cbn [phase enqueue]. by destruct (phase s).
Qed.
(** One message of the queue reaches the replica. *)
Lemma follow_msg m r cur seq ws o : master_ok m → scope m ws → op_ok o → in_u 64 seq → engine r = cur → known m r →
  ∃ r', follow_all (send_msg cur (MOp seq ws o)).1 r = Ok r' ∧ engine r' = ws ∧ r_registered r' = r_registered r ∧ r_stores r' = on_ws ws (apply_op o) (r_stores r).
Proof.
  intros [Hn _] Hw Ho Hs He Hr. assert (∀ r, engine r = ws → ∃ r', follow_all [op_frame seq o] r = Ok r' ∧ engine r' = ws ∧ r_registered r' = r_registered r ∧
    r_stores r' = on_ws ws (apply_op o) (r_stores r)) as Hop.
  { intros r0 E0. cbn [follow_all]. rewrite follow_op by (done || (unfold in_u; lia)). cbn [mbind result_bind]. eexists. split; [done|]. unfold applied. rewrite <- E0. by case_match. }
  cbn [send_msg fst]. case_bool_decide as E; cbn [app]; [apply Hop; congruence|]. cbn [follow_all]. rewrite follow_use.
  - cbn [mbind result_bind]. by apply (Hop (set_engine ws r)).
  - destruct Hw as [->|[->|Hw]]; [by left|right; split; [done|by left]|right]. split; [by apply Hn|by apply Hr].
Qed.

Lemma start_step T m s r : in_step T m s r → phase s = PStart → ∀ t, ∃ r', follow_all (feed t m s).1 r = Ok r' ∧ in_step T m (feed t m s).2 r'.
Proof.
  intros [Hm Hs Hq Hp Ha Hl] Eph t. unfold feed. rewrite Eph. cbn [fst snd follow_all]. set (r0 := set_store (fun _ => ∅) (set_engine DEFAULT r)).
  change (follow (R_SNAP_BEGIN, []) r) with (@Ok KivaError _ r0). cbn [mbind result_bind].
  assert (Forall (fun n => valid_workspace_name n = true) (workspaces m)) as Hw.
  { constructor; [done|]. apply List.Forall_forall. intros n Hn%list_elem_of_In%elem_of_elements. by apply (ma_names m). }
  destruct (follow_names (workspaces m) r0 Hw) as (g & E & Hg). rewrite E. cbn [mbind result_bind]. eexists. split; [done|].
  split; [done..| |].
  - intros ws k Hsc _. cbn [phase agrees]. rewrite bool_decide_eq_true_2; [done|]. apply elem_of_app. destruct Hsc as [->|[->|Hsc]]; [right; left|left; left|].
    left. right. by apply elem_of_elements.
  - cbn [phase placed]. split; [done|]. split; [constructor|]. split; [by rewrite app_comm_cons, last_snoc|]. split.
    + constructor; [by right; left|]. apply Forall_app. split; [|constructor; [by left|constructor]]. constructor; [by right; left|]. apply List.Forall_forall. intros n Hn%list_elem_of_In%elem_of_elements. by right; right.
    + intros ws Hws. destruct (decide (ws = DEFAULT)) as [->|Hd]; [by left|]. right. apply Hg; [right; by apply elem_of_elements|done].
Qed.
Lemma seen_none (t T : Z) (c : Contents) (k : str) : t ≤ T → (∀ it, c !! k = Some it → live t it = false) → seen T c k = None.
Proof. intros Ht H. unfold seen. destruct (c !! k) as [it|]; [|done]. cbn. by rewrite (live_later t T it Ht (H it eq_refl)). Qed.
Lemma elem_listing (t : Z) (c : Contents) (k : str) : k ∈ List.map fst (List.filter (fun ki => live t ki.2) (entries c)) ↔ ∃ it, c !! k = Some it ∧ live t it = true.
Proof.
  rewrite list_elem_of_In, in_map_iff. split.
  - intros ([k' it] & <- & [H Hl]%filter_In). exists it. split; [|done]. by apply elem_of_entries, list_elem_of_In.
  - intros (it & H & Hl). exists (k, it). split; [done|]. apply filter_In. split; [|done]. by apply list_elem_of_In, elem_of_entries.
Qed.
Lemma listing_NoDup (t : Z) (c : Contents) : NoDup (List.map fst (List.filter (fun ki => live t ki.2) (entries c))).
Proof.
  pose proof (entries_NoDup c) as H. unfold keys_of in H. revert H. induction (entries c) as [|[k it] l IH]; cbn [List.filter List.map fst snd fmap list_fmap]; [done|].
  intros [Hn H]%NoDup_cons. destruct (live t it); cbn [List.map]; [|by apply IH]. apply NoDup_cons. split; [|by apply IH]. intros Hin. apply Hn.
  apply list_elem_of_In, in_map_iff in Hin as ([k' it'] & E & [Hin _]%filter_In). cbn in E. subst k'. apply list_elem_of_fmap. exists (k, it'). split; [done|]. by apply list_elem_of_In.
Qed.
Lemma use_step T m s r w ws todo t : in_step T m s r → phase s = PSnap w [] (ws :: todo) → t ≤ T →
  ∃ r', follow_all (feed t m s).1 r = Ok r' ∧ in_step T m (feed t m s).2 r'.
Proof.
  intros [Hm Hs Hq Hp Ha Hl] Eph Ht. rewrite Eph in *. cbn [placed] in Hl. destruct Hl as (He & _ & Hlast & Hsc & Hk). unfold feed. rewrite Eph. cbn [fst snd follow_all].
  apply Forall_cons in Hsc as [_ Hsc]. inversion Hsc as [|? ? Hws Htodo]; subst. rewrite follow_use.
  2:{ destruct Hws as [->|[->|Hws]]; [by left|right; split; [done|by left]|right]. split; [by apply (ma_names m)|by apply Hk]. }
  cbn [mbind result_bind]. rewrite follow_op by (done || (unfold in_u; lia)). cbn [mbind result_bind]. eexists. split; [done|].
  split; [done..| |].
  - intros ws' k Hs' Hn. specialize (Ha ws' k Hs' Hn). cbn [phase agrees applied Z.ltb Z.compare] in *.
    destruct (decide (ws' ∈ todo)) as [H1|H1]; [by rewrite bool_decide_eq_true_2|rewrite (bool_decide_eq_false_2 (ws' ∈ todo)) by done]. cbn [set_store r_stores engine set_engine]. rewrite of_on.
    cbn [engine set_engine]. destruct (decide (ws' = ws)) as [->|H2].
    + rewrite (bool_decide_eq_true_2 (ws = ws)) by done. cbn [andb]. clear Ha. case_bool_decide as H3; [done|]. cbn [apply_op]. unfold seen at 1. rewrite lookup_empty. cbn. symmetry.
      apply (seen_none t); [done|]. intros it Hit. apply not_true_is_false. intros El. apply H3, elem_listing. by exists it.
    + rewrite (bool_decide_eq_false_2 (ws' = ws)), (bool_decide_eq_false_2 (ws = ws')) by congruence. cbn [andb]. rewrite bool_decide_eq_false_2 in Ha by (intros [?|?]%elem_of_cons; done).
      by rewrite (bool_decide_eq_false_2 (k ∈ [])), andb_false_r in Ha by apply not_elem_of_nil.
  - cbn [phase placed applied Z.ltb Z.compare]. split; [done|]. split; [apply listing_NoDup|]. split; [exact Hlast|]. by split.
Qed.
Lemma key_step T m s r w k ks todo t : in_step T m s r → phase s = PSnap w (k :: ks) todo → t ≤ T →
  ∃ r', follow_all (feed t m s).1 r = Ok r' ∧ in_step T m (feed t m s).2 r'.
Proof.
  intros [Hm Hs Hq Hp Ha Hl] Eph Ht. rewrite Eph in *. cbn [placed] in Hl. destruct Hl as (He & Hnd & Hlast & Hsc & Hk). apply NoDup_cons in Hnd as [Hnk Hnd]. unfold feed. rewrite Eph. cbn [fst snd].
  assert (∃ r', follow_all (match of_ws w (stores m) !! k with Some it => if live t it then [op_frame 0 (OSet k it)] else [] | None => [] end) r = Ok r' ∧
    engine r' = w ∧ r_registered r' = r_registered r ∧ (∀ ws' k', (ws' ≠ w ∨ k' ≠ k) → of_ws ws' (r_stores r') !! k' = of_ws ws' (r_stores r) !! k') ∧
    (of_ws w (r_stores r) !! k = None → seen T (of_ws w (r_stores r')) k = seen T (of_ws w (stores m)) k)) as (r' & E & He' & Hr' & Ho & Hk').
  { destruct (of_ws w (stores m) !! k) as [it|] eqn:Ei; [destruct (live t it) eqn:El|].
    - cbn [follow_all]. destruct (ma_items m Hm w k it Ei) as [Hko Hio]. rewrite follow_op by (done || (unfold in_u; lia)). cbn [mbind result_bind applied Z.ltb Z.compare]. eexists. split; [done|].
      cbn [set_store engine r_registered r_stores]. rewrite He. split; [done|]. split; [done|]. split.
      + intros ws' k' Hne. rewrite of_on. case_bool_decide; [|done]. subst ws'. cbn [apply_op]. rewrite lookup_insert_ne; [done|]. intros ->. by destruct Hne.
      + intros _. unfold seen. rewrite of_on, bool_decide_eq_true_2 by done. cbn [apply_op]. by rewrite lookup_insert_eq, Ei.
    - exists r. split; [done|]. split; [done|]. split; [done|]. split; [done|]. intros Hn. transitivity (@None Item); [|symmetry].
      + unfold seen. by rewrite Hn.
      + apply (seen_none t); [done|]. intros it' Hit. congruence.
    - exists r. split; [done|]. split; [done|]. split; [done|]. split; [done|]. intros Hn. unfold seen. by rewrite Hn, Ei. }
  exists r'. split; [done|]. split; [done..| |].
  - intros ws' k' Hs' Hn. specialize (Ha ws' k' Hs' Hn). cbn [phase agrees] in *.
    destruct (decide (ws' ∈ todo)) as [H1|H1]; [by rewrite bool_decide_eq_true_2|rewrite (bool_decide_eq_false_2 (ws' ∈ todo)) in * by done]. destruct (decide (ws' = w ∧ k' = k)) as [[-> ->]|Hne].
    + rewrite (bool_decide_eq_false_2 (k ∈ ks)), andb_false_r by done. rewrite (bool_decide_eq_true_2 (w = w)), (bool_decide_eq_true_2 (k ∈ k :: ks)) in Ha by (done || by left).
      by apply Hk'.
    + assert (of_ws ws' (r_stores r') !! k' = of_ws ws' (r_stores r) !! k') as Eo by (apply Ho; destruct (decide (ws' = w)); [right|left]; naive_solver).
      rewrite (seen_ext T _ _ _ Eo), Eo. assert (bool_decide (ws' = w) && bool_decide (k' ∈ k :: ks) = bool_decide (ws' = w) && bool_decide (k' ∈ ks)) as Eb; [|by rewrite Eb in Ha].
      case_bool_decide as Ew; cbn [andb]; [|done]. apply bool_decide_ext. rewrite elem_of_cons. naive_solver.
  - cbn [phase placed]. split; [done|]. split; [done|]. split; [done|]. split; [done|]. intros ws Hws. rewrite Hr'. by apply Hk.
Qed.
Lemma end_step T m s r w t : in_step T m s r → phase s = PSnap w [] [] → in_u 64 (m_seq m) →
  ∃ r', follow_all (feed t m s).1 r = Ok r' ∧ in_step T m (feed t m s).2 r'.
Proof.
  intros [Hm Hs Hq Hp Ha Hl] Eph Hu. rewrite Eph in *. cbn [placed last] in Hl. destruct Hl as (He & _ & Hlast & _ & Hk). injection Hlast as ->. unfold feed. rewrite Eph. cbn [fst snd follow_all].
  assert (follow (R_SNAP_END, be_bytes 8 (m_seq m)) r = Ok (ack (m_seq m) r)) as ->.
  { unfold follow, R_SNAP_BEGIN, R_WORKSPACES, R_USE, R_WS_REMOVE, R_SET, R_DEL, R_RESET, R_SNAP_END. cbn [Z.eqb Pos.eqb].
    unfold read_u64. rewrite <- (app_nil_r (be_bytes 8 (m_seq m))). rewrite (read_u_app 8) by done. done. }
  cbn [mbind result_bind]. eexists. split; [done|]. split; [done..| |].
  - intros ws k Hsc Hn. specialize (Ha ws k Hsc Hn). cbn [phase agrees ack r_stores] in *. rewrite (bool_decide_eq_false_2 (ws ∈ [])) in Ha by apply not_elem_of_nil.
    by rewrite (bool_decide_eq_false_2 (k ∈ [])), andb_false_r in Ha by apply not_elem_of_nil.
  - cbn [phase placed]. by split.
Qed.
Lemma live_step T m s r w t : in_step T m s r → phase s = PLive w → in_u 64 (m_seq m) →
  ∃ r', follow_all (feed t m s).1 r = Ok r' ∧ in_step T m (feed t m s).2 r'.
Proof.
  intros Hin Eph Hu. pose proof Hin as [Hm Hs Hq Hp Ha Hl]. rewrite Eph in *. cbn [placed] in Hl. destruct Hl as (He & Hk). unfold feed. rewrite Eph.
  destruct (queue s) as [|msg q] eqn:Eq; [cbn [fst snd follow_all]; by exists r|]. apply Forall_cons in Hq as [Hmsg Hq]. destruct msg as [seq ws o| |]; try done.
  destruct Hmsg as (Hw & Ho & Hseq). destruct (follow_msg m r w seq ws o Hm Hw Ho) as (r' & E & He' & Hr' & Hst); [unfold in_u in *; lia|done|done|].
  cbn [send_msg fst snd] in *. exists r'. split; [done|]. assert (∀ ws' k, of_ws ws' (r_stores r') !! k = match msg_eff (MOp seq ws o) ws' k with Some x => x | None => of_ws ws' (r_stores r) !! k end) as Hst'.
  { intros ws' k. rewrite Hst, of_on. cbn [msg_eff]. destruct (decide (ws = ws')) as [->|Hne]; [rewrite bool_decide_eq_true_2 by done; apply apply_op_eff|by rewrite bool_decide_eq_false_2]. }
  split; [done|done|done| | |].
  - intros ws' k x Hsc Hx. apply (Hp ws' k x Hsc). cbn [queue] in Hx. cbn [pend]. by rewrite Hx.
  - intros ws' k Hsc Hn. cbn [phase agrees queue] in *. destruct (msg_eff (MOp seq ws o) ws' k) as [x|] eqn:Ex.
    + apply seen_ext. rewrite Hst', Ex. symmetry. apply Hp; [done|]. cbn [pend]. by rewrite Hn, Ex.
    + rewrite (seen_ext T _ (of_ws ws' (r_stores r))) by (by rewrite Hst', Ex). apply Ha; [done|]. cbn [pend]. by rewrite Hn, Ex.
  - cbn [phase placed]. split; [done|]. intros w' Hw'. rewrite Hr'. by apply Hk.
Qed.
Lemma feed_step T m s r t : in_step T m s r → t ≤ T → in_u 64 (m_seq m) → ∃ r', follow_all (feed t m s).1 r = Ok r' ∧ in_step T m (feed t m s).2 r'.
Proof.
  intros H Ht Hu. destruct (phase s) as [|w [|k ks] [|ws todo]|w] eqn:E.
  - by eapply start_step.
  - by eapply end_step.
  - by eapply use_step.
  - by eapply key_step.
  - by eapply key_step.
  - by eapply live_step.
Qed.
Lemma follow_app fs fs' r : follow_all (fs ++ fs') r = r' ← follow_all fs r; follow_all fs' r'.
Proof. revert r. induction fs as [|f fs IH]; intros r; [done|]. cbn [app follow_all]. destruct (follow f r); [apply IH|done]. Qed.
Lemma serve_steps T acts : ∀ m s r, in_step T m s r → Forall (act_ok T m) acts → in_u 64 (m_seq m + len acts) →
  let '(fs, m', s') := serve acts m s in ∃ r', follow_all fs r = Ok r' ∧ in_step T m' s' r' ∧ registered m' = registered m.
Proof.
  induction acts as [|a acts IH]; intros m s r Hin Ha Hu; cbn [serve]; [by exists r|]. apply Forall_cons in Ha as [Ha Has]. rewrite len_cons in Hu. pose proof (len_nonneg acts) as H0. unfold in_u in Hu.
  destruct a as [ws o| | |t]; try done; cbn [act act_ok] in *.
  - destruct Ha as [Hw Ho]. pose proof (commit_step T m s r ws o Hin Hw Ho) as Hin'. set (m' := {| stores := _ |}) in *.
    specialize (IH m' _ r Hin' Has). destruct (serve acts m' _) as [[fs m2] s2]. destruct IH as (r' & E & Hin2 & Hreg); [unfold in_u; cbn; lia|].
    exists r'. by rewrite app_nil_l.
  - destruct (feed_step T m s r t Hin Ha) as (r1 & E1 & Hin1); [unfold in_u; pose proof (st_seq _ _ _ _ Hin); lia|]. destruct (feed t m s) as [fs1 s1]. cbn [fst snd] in *.
    specialize (IH m s1 r1 Hin1 Has). destruct (serve acts m s1) as [[fs m2] s2]. destruct IH as (r' & E & Hin2 & Hreg); [unfold in_u; pose proof (st_seq _ _ _ _ Hin); lia|].
    exists r'. by rewrite follow_app, E1.
Qed.
Lemma converges T m r acts fs m' s' w : master_ok m → 0 ≤ m_seq m → in_u 64 (m_seq m + len acts) → Forall (act_ok T m) acts → serve acts m serve0 = (fs, m', s') →
  phase s' = PLive w → queue s' = [] → ∃ r', follow_all fs r = Ok r' ∧ ∀ ws k, scope m ws → seen T (of_ws ws (r_stores r')) k = seen T (of_ws ws (stores m')) k.
Proof.
  intros Hm Hs Hu Ha E Hp Hq. assert (in_step T m serve0 r) as Hin by (split; [done|done|constructor|done..]).
  pose proof (serve_steps T acts m serve0 r Hin Ha Hu) as H. rewrite E in H. destruct H as (r' & Er & Hin' & Hreg). exists r'. split; [done|].
  intros ws k Hw. assert (scope m' ws) as Hw' by (unfold scope in *; by rewrite Hreg). pose proof (st_agrees _ _ _ _ Hin' ws k Hw') as H. rewrite Hp, Hq in H. by apply H.
Qed.
(** C34: while the master sends a snapshot and commits operations, in any
    order and whatever the replica held before, a replica that has received
    the snapshot and what was queued since sees, from the last moment of the
    run on, what the master holds: every key of every workspace that was
    registered at the start, and of the system database. The items hold
    values that are read back and deadlines that the format keeps (none, or
    in milliseconds from March 1973 on: the replica multiplies a smaller one
    by 1000, old_deadline_revived); creating and removing workspaces
    meanwhile is left out (registered_again_differs shows one that does not
    converge). *)
Theorem replica_converges T m r acts fs m' s' w : master_ok m → 0 ≤ m_seq m → in_u 64 (m_seq m + len acts) → Forall (act_ok T m) acts →
  serve acts m serve0 = (fs, m', s') → phase s' = PLive w → queue s' = [] →
  ∃ r', follow_all fs r = Ok r' ∧ ∀ ws k, scope m ws → seen T (of_ws ws (r_stores r')) k = seen T (of_ws ws (stores m')) k.
Proof. apply converges. Qed.
End repl.

(** ** Runs to evaluate *)
Definition str_item (s : String.string) : Item := {| i_ty := TString; i_raw := lit s; i_enc := EncJson; i_time := 1700000000; i_exp := 0 |}.
Definition small_master : Master := {| stores := {[DEFAULT := {[lit "a" := str_item "one"]}]}; registered := ∅; m_seq := 7 |}.
Definition empty_replica : Replica := {| r_stores := ∅; r_registered := ∅; engine := DEFAULT; applied_seq := 0; acks := [] |}.
(** The key is written again after the snapshot has passed it. *)
Definition small_run : list MAct := [Feed 1; Feed 1; Feed 1; Commit DEFAULT (OSet (lit "a") (str_item "two")); Feed 1; Feed 1].
(** What the replica has of a key after a run, and what it has acknowledged. *)
Definition after_run (acts : list MAct) (k : str) : option (option bytes * option bytes * list Z) :=
  let '(fs, m, s) := serve acts small_master serve0 in
  match follow_all fs empty_replica with
  | Ok r => Some (i_raw <$> of_ws DEFAULT (stores m) !! k, i_raw <$> of_ws DEFAULT (r_stores r) !! k, acks r)
  | Err _ => None
  end.
(** The end of a snapshot carries the number of the last operation
    committed, not of the last one sent: a replica acknowledges an operation
    it has not received, and one that is made a master then does not have it. *)
Theorem snapshot_ack_early : after_run small_run (lit "a") = Some (Some (lit "two"), Some (lit "one"), [8]) ∧
  m_seq (serve small_run small_master serve0).1.2 = 8.
Proof. split; vm_compute; reflexivity. Qed.
Lemma str_item_ok s : Forall is_ascii (lit s) → item_ok (str_item s).
Proof.
  intros Hs. split; [|by split|by split|done]. exists (VStr (lit s)), false. split; [by apply ascii_valid|]. split; [|done].
  cbn [encode_stored Value.encode mbind result_bind str_item i_raw i_enc]. by rewrite utf8_ascii.
Qed.
Lemma small_key_ok : key_ok (lit "a").
Proof. split; [|done]. apply ascii_valid. repeat constructor; unfold is_ascii; vm_decide. Qed.
Lemma small_master_ok : master_ok small_master.
Proof.
  split; [intros ws Hws; by apply elem_of_empty in Hws|]. intros ws k it. unfold of_ws. cbn [stores small_master]. destruct (decide (ws = DEFAULT)) as [->|Hne].
  - rewrite lookup_singleton_eq. cbn [default from_option id]. intros [<- <-]%lookup_singleton_Some. split; [exact small_key_ok|].
    apply str_item_ok. repeat constructor; unfold is_ascii; vm_decide.
  - by rewrite lookup_singleton_ne.
Qed.
Definition whole_run : list MAct := small_run ++ [Feed 2; Feed 2].
Lemma replica_converges_witness : master_ok small_master ∧ 0 ≤ m_seq small_master ∧ in_u 64 (m_seq small_master + len whole_run) ∧
  Forall (act_ok 2 small_master) whole_run ∧
  ∃ r', follow_all (serve whole_run small_master serve0).1.1 empty_replica = Ok r' ∧
    ∀ ws k, scope small_master ws → seen 2 (of_ws ws (r_stores r')) k = seen 2 (of_ws ws (stores (serve whole_run small_master serve0).1.2)) k.
Proof.
  assert (in_u 64 (m_seq small_master + len whole_run)) as Hu by (unfold in_u; vm_decide).
  assert (Forall (act_ok 2 small_master) whole_run) as Ha.
  { cbv [whole_run small_run app]. repeat (apply Forall_cons; split); try apply Forall_nil; cbn [act_ok op_ok]; try lia.
    split; [by right; left|]. split; [exact small_key_ok|]. apply str_item_ok. repeat constructor; unfold is_ascii; vm_decide. }
  split; [exact small_master_ok|]. split; [done|]. split; [exact Hu|]. split; [exact Ha|].
  destruct (serve whole_run small_master serve0) as [[fs m'] s'] eqn:E.
  assert (phase s' = PLive DEFAULT ∧ queue s' = []) as [Hp Hq].
  { assert (s' = (serve whole_run small_master serve0).2) as -> by (by rewrite E). split; vm_compute; reflexivity. }
  exact (replica_converges 2 small_master empty_replica whole_run fs m' s' DEFAULT small_master_ok ltac:(done) Hu Ha E Hp Hq).
Defined.
(** A workspace that was removed, whose files stay, and that is registered
    again once a replica has its snapshot: the replica makes it empty. *)
Definition removed_master : Master := {| stores := {[lit "w" := {[lit "a" := str_item "one"]}]}; registered := ∅; m_seq := 7 |}.
Lemma registered_again_differs :
  let '(fs, m, s) := serve [Feed 1; Feed 1; Feed 1; Feed 1; Create (lit "w"); Feed 1] removed_master serve0 in
  match follow_all fs empty_replica with
  | Ok r => lit "w" ∈ registered m ∧ lit "w" ∈ r_registered r ∧ i_raw <$> of_ws (lit "w") (stores m) !! lit "a" = Some (lit "one") ∧
      i_raw <$> of_ws (lit "w") (r_stores r) !! lit "a" = None
  | Err _ => False
  end.
Proof. vm_compute. by repeat split. Qed.
(** A deadline of July 1971, in milliseconds: the replica takes it for
    seconds, and holds until the year 3554 a key that the master never shows. *)
Definition old_item : Item := {| i_ty := TString; i_raw := lit "one"; i_enc := EncJson; i_time := 1700000000; i_exp := 50000000000 |}.
Lemma old_deadline_revived :
  let '(fs, m, s) := serve (whole_run ++ [Commit DEFAULT (OSet (lit "k") old_item); Feed 1700000000000]) small_master serve0 in
  match follow_all fs empty_replica with
  | Ok r => queue s = [] ∧ seen 1700000000000 (of_ws DEFAULT (stores m)) (lit "k") = None ∧
      i_raw <$> seen 1700000000000 (of_ws DEFAULT (r_stores r)) (lit "k") = Some (lit "one")
  | Err _ => False
  end.
Proof. vm_compute. by repeat split. Qed.
