(* ===== verification/Pubsub.v ===== *)
(** * [src/pubsub.rs]: publish and subscribe

    [glob] matches channels against patterns as Redis does. [Hub] keeps the
    listening connections; an outbox is a bounded queue, named here by the
    connection it belongs to, that another thread drains: the hub only adds to
    it ([offer]). The order in which hash maps and sets are walked is a
    parameter. *)
From S2P Require Import Prelude Utf8 Wild Maps.
Open Scope Z_scope.

(** ** Patterns, over bytes *)
Definition B_STAR : Z := 42.
Definition B_QMARK : Z := 63.
Definition B_OPEN : Z := 91.
Definition B_CLOSE : Z := 93.
Definition B_CARET : Z := 94.
Definition B_DASH : Z := 45.
Definition B_BACKSLASH : Z := 92.

(** The members of a class from [i] on: whether one is [c], and where the
    closing bracket is. *)
Fixpoint class_loop (fuel : nat) (p : bytes) (c : Z) (i : nat) (hit : bool) : bool * nat :=
  match fuel with
  | O => (hit, i)
  | S fuel =>
    match p !! i with
    | None => (hit, i)
    | Some x =>
      if x =? B_CLOSE then (hit, i)
      else
        let i := if (x =? B_BACKSLASH) && Nat.ltb (i + 1) (length p) then S i else i in
        let lo := default 0 (p !! i) in
        match p !! (i + 1)%nat, p !! (i + 2)%nat with
        | Some d, Some hi =>
          if (d =? B_DASH) && negb (hi =? B_CLOSE)
          then class_loop fuel p c (i + 3) (hit || ((Z.min lo hi <=? c) && (c <=? Z.max lo hi)))
          else class_loop fuel p c (i + 1) (hit || (lo =? c))
        | _, _ => class_loop fuel p c (i + 1) (hit || (lo =? c))
        end
    end
  end.
(** [None]: the class is not closed. *)
Definition class (p : bytes) (at_ : nat) (c : Z) : option (bool * nat) :=
  let negate := bool_decide (p !! (at_ + 1)%nat = Some B_CARET) in
  let start := if negate then (at_ + 2)%nat else (at_ + 1)%nat in
  let '(hit, i) := class_loop (length p) p c start false in
  if Nat.leb (length p) i then None else Some (xorb hit negate, S i).

Fixpoint all_stars (p : bytes) : bool := match p with [] => true | x :: p => (x =? B_STAR) && all_stars p end.
(** [star]: where to resume after the last [*], in the pattern and the text. *)
Fixpoint rglob_loop (fuel : nat) (p s : bytes) (pi si : nat) (star : option (nat * nat)) : option bool :=
  match fuel with
  | O => None
  | S fuel =>
    match s !! si with
    | None => Some (all_stars (drop pi p))
    | Some c =>
      let back :=
        match star with
        | Some (sp, ss) => rglob_loop fuel p s sp (S ss) (Some (sp, S ss))
        | None => Some false
        end in
      match p !! pi with
      | None => back
      | Some x =>
        if x =? B_STAR then rglob_loop fuel p s (S pi) si (Some (S pi, si))
        else if x =? B_QMARK then rglob_loop fuel p s (S pi) (S si) star
        else if x =? B_OPEN then
          match class p pi c with
          | Some (true, next) => rglob_loop fuel p s next (S si) star
          | _ => back
          end
        else if (x =? B_BACKSLASH) && Nat.ltb (pi + 1) (length p) then
          if default 0 (p !! (pi + 1)%nat) =? c then rglob_loop fuel p s (pi + 2) (S si) star else back
        else if x =? c then rglob_loop fuel p s (S pi) (S si) star
        else back
      end
    end
  end.
(** At most so many steps. *)
Definition rglob_fuel (p s : bytes) : nat := search_fuel (length p) s.
Definition rglob (p s : bytes) : bool :=
  match rglob_loop (rglob_fuel p s) p s 0 0 None with Some b => b | None => false end.

(** *** What a pattern means *)
(** One element of a pattern; a class is its ranges of bytes. *)
Inductive rtok := RStar | ROne | RChar (c : Z) | RClass (negate : bool) (ranges : list (Z * Z)) | RNever.
Definition in_ranges (c : Z) (l : list (Z * Z)) : bool := existsb (fun ab => (ab.1 <=? c) && (c <=? ab.2)) l.
Definition rtok_tok (t : rtok) : wtok :=
  match t with
  | RStar => WAny
  | ROne => WOne (fun _ => true)
  | RChar c => WOne (fun x => c =? x)
  | RClass negate l => WOne (fun x => xorb (in_ranges x l) negate)
  | RNever => WOne (fun _ => false)
  end.
(** The ranges up to the closing bracket, and what follows it. *)
Fixpoint read_ranges (fuel : nat) (p : bytes) : option (list (Z * Z) * bytes) :=
  match fuel, p with
  | S fuel, x :: p1 =>
    if x =? B_CLOSE then Some ([], p1)
    else
      let '(lo, q) := match p1 with y :: p2 => if x =? B_BACKSLASH then (y, p2) else (x, p1) | [] => (x, p1) end in
      let single := (fun lr => ((lo, lo) :: lr.1, lr.2)) <$> read_ranges fuel q in
      match q with
      | d :: hi :: r =>
        if (d =? B_DASH) && negb (hi =? B_CLOSE) then (fun lr => ((Z.min lo hi, Z.max lo hi) :: lr.1, lr.2)) <$> read_ranges fuel r else single
      | _ => single
      end
  | _, _ => None
  end.
Definition read_class (p : bytes) : option (bool * list (Z * Z) * bytes) :=
  match p with
  | x :: q => if x =? B_CARET then (fun lr => (true, lr.1, lr.2)) <$> read_ranges (length q) q else (fun lr => (false, lr.1, lr.2)) <$> read_ranges (length p) p
  | [] => None
  end.
Fixpoint parse (fuel : nat) (p : bytes) : list rtok :=
  match fuel, p with
  | S fuel, x :: q =>
    if x =? B_STAR then RStar :: parse fuel q
    else if x =? B_QMARK then ROne :: parse fuel q
    else if x =? B_OPEN then
      match read_class q with
      | Some (negate, l, rest) => RClass negate l :: parse fuel rest
      | None => RNever :: parse fuel q
      end
    else
      match q with
      | y :: r => if x =? B_BACKSLASH then RChar y :: parse fuel r else RChar x :: parse fuel q
      | [] => [RChar x]
      end
  | _, _ => []
  end.
Definition rglob_spec (p s : bytes) : Prop := wspec (List.map rtok_tok (parse (length p) p)) s.

(** *** Proofs *)
Lemma read_ranges_shorter fuel : ∀ p l r, read_ranges fuel p = Some (l, r) → (length r < length p)%nat.
Proof.
  induction fuel as [|fuel IH]; intros [|x p1] l r; try done. cbn [read_ranges]. destruct (x =? B_CLOSE); [intros [= _ <-]; simpl; lia|].
  assert (∀ lo q, (length q ≤ length p1)%nat → (let single := (fun lr => ((lo, lo) :: lr.1, lr.2)) <$> read_ranges fuel q in
    match q with
    | d :: hi :: r => if (d =? B_DASH) && negb (hi =? B_CLOSE) then (fun lr => ((Z.min lo hi, Z.max lo hi) :: lr.1, lr.2)) <$> read_ranges fuel r else single
    | _ => single
    end) = Some (l, r) → (length r < S (length p1))%nat) as Hq.
  { intros lo q Hlen. cbv zeta. assert (∀ q' f, (length q' ≤ length p1)%nat → (fun lr : list (Z * Z) * bytes => (f lr.1 : list (Z * Z), lr.2)) <$> read_ranges fuel q' = Some (l, r) →
      (length r < S (length p1))%nat) as Hs.
    { intros q' f Hl'. destruct (read_ranges fuel q') as [[l' r']|] eqn:E; [|done]. intros [= _ <-]. apply IH in E. lia. }
    destruct q as [|d [|hi q2]]; [apply (Hs [] (cons (lo, lo))); done|apply (Hs [d] (cons (lo, lo))); done|].
    destruct (_ && _); [apply (Hs q2 (cons (Z.min lo hi, Z.max lo hi))); simpl in Hlen; lia|apply (Hs (d :: hi :: q2) (cons (lo, lo))); done]. }
  destruct p1 as [|y p2]; [by apply (Hq x [])|]. destruct (x =? B_BACKSLASH); [apply (Hq y p2); simpl; lia|by apply (Hq x (y :: p2))].
Qed.
Lemma read_ranges_suffix fuel : ∀ p l r, read_ranges fuel p = Some (l, r) → r `suffix_of` p.
Proof.
  induction fuel as [|fuel IH]; intros [|x p1] l r; try done. cbn [read_ranges]. destruct (x =? B_CLOSE); [intros [= _ <-]; by apply suffix_cons_r|].
  assert (∀ q' f, q' `suffix_of` x :: p1 → (fun lr : list (Z * Z) * bytes => (f lr.1 : list (Z * Z), lr.2)) <$> read_ranges fuel q' = Some (l, r) → r `suffix_of` x :: p1) as Hs.
  { intros q' f Hq'. destruct (read_ranges fuel q') as [[l' r']|] eqn:E; [|done]. intros [= _ <-]. by etrans; [eapply IH|]. }
  assert (∀ lo q, q `suffix_of` x :: p1 → (let single := (fun lr => ((lo, lo) :: lr.1, lr.2)) <$> read_ranges fuel q in
    match q with
    | d :: hi :: r => if (d =? B_DASH) && negb (hi =? B_CLOSE) then (fun lr => ((Z.min lo hi, Z.max lo hi) :: lr.1, lr.2)) <$> read_ranges fuel r else single
    | _ => single
    end) = Some (l, r) → r `suffix_of` x :: p1) as Hq.
  { intros lo q Hsq. cbv zeta. destruct q as [|d [|hi q2]]; [by apply (Hs [] (cons (lo, lo)))|by apply (Hs [d] (cons (lo, lo)))|].
    destruct ((d =? B_DASH) && _); [apply (Hs q2 (cons (Z.min lo hi, Z.max lo hi))); etrans; [|exact Hsq]; by apply suffix_cons_r, suffix_cons_r|
      by apply (Hs (d :: hi :: q2) (cons (lo, lo)))]. }
  destruct p1 as [|y p2]; [apply (Hq x []); by apply suffix_cons_r|]. destruct (x =? B_BACKSLASH);
    [apply (Hq y p2); by apply suffix_cons_r, suffix_cons_r|apply (Hq x (y :: p2)); by apply suffix_cons_r].
Qed.
Lemma read_class_suffix p n l r : read_class p = Some (n, l, r) → r `suffix_of` p.
Proof.
  unfold read_class. destruct p as [|x q]; [done|]. destruct (x =? B_CARET).
  - destruct (read_ranges _ q) as [[l' r']|] eqn:E; [|done]. intros [= _ _ <-]. apply read_ranges_suffix in E. by apply suffix_cons_r.
  - destruct (read_ranges _ (x :: q)) as [[l' r']|] eqn:E; [|done]. intros [= _ _ <-]. by apply read_ranges_suffix in E.
Qed.
Lemma read_class_shorter p n l r : read_class p = Some (n, l, r) → (length r < length p)%nat.
Proof.
  unfold read_class. destruct p as [|x q]; [done|]. destruct (x =? B_CARET).
  - destruct (read_ranges _ q) as [[l' r']|] eqn:E; [|done]. intros [= _ _ <-]. apply read_ranges_shorter in E. simpl. lia.
  - destruct (read_ranges _ (x :: q)) as [[l' r']|] eqn:E; [|done]. intros [= _ _ <-]. by apply read_ranges_shorter in E.
Qed.
Lemma parse_fuel fuel : ∀ p, (length p ≤ fuel)%nat → parse fuel p = parse (length p) p.
Proof.
  induction fuel as [fuel IH] using lt_wf_ind. intros p Hp. destruct p as [|x q]; [by destruct fuel|]. destruct fuel as [|fuel]; [simpl in Hp; lia|].
  cbn [length parse] in *. assert (∀ r, (length r ≤ length q)%nat → parse fuel r = parse (length q) r) as Hr.
  { intros r Hr. rewrite (IH fuel), (IH (length q)) by lia. done. }
  rewrite Hr by done. destruct (x =? B_STAR); [done|]. destruct (x =? B_QMARK); [done|]. destruct (x =? B_OPEN).
  - destruct (read_class q) as [[[n l] rest]|] eqn:E; [|done]. apply read_class_shorter in E. rewrite Hr by lia. done.
  - destruct q as [|y r]; [done|]. destruct (x =? B_BACKSLASH); [|done]. by rewrite Hr by (simpl; lia).
Qed.
Lemma read_ranges_fuel fuel : ∀ p, (length p ≤ fuel)%nat → read_ranges fuel p = read_ranges (length p) p.
Proof.
  induction fuel as [fuel IH] using lt_wf_ind. intros p Hp. destruct p as [|x q]; [by destruct fuel|]. destruct fuel as [|fuel]; [simpl in Hp; lia|].
  cbn [length read_ranges] in *. assert (∀ r, (length r ≤ length q)%nat → read_ranges fuel r = read_ranges (length q) r) as Hr.
  { intros r Hr. rewrite (IH fuel), (IH (length q)) by lia. done. }
  destruct (x =? B_CLOSE); [done|]. destruct q as [|y p2]; [by rewrite Hr by done|].
  destruct (x =? B_BACKSLASH); [destruct p2 as [|d [|hi r]]|destruct p2 as [|hi r]]; rewrite ?Hr by (simpl; lia); done.
Qed.
Lemma drop_cons_lookup {A} (p : list A) i x q : drop i p = x :: q → p !! i = Some x ∧ drop (S i) p = q ∧ (i < length p)%nat.
Proof.
  intros E. assert (p !! i = Some x) as Hx by (rewrite <- (Nat.add_0_r i), <- lookup_drop, E; done). split; [done|].
  split; [|by apply lookup_lt_Some in Hx]. rewrite (drop_S _ _ _ Hx) in E. congruence.
Qed.
Lemma drop_nil_lookup {A} (p : list A) i : drop i p = [] → p !! i = None ∧ (length p ≤ i)%nat.
Proof. intros E. apply (f_equal length) in E. rewrite length_drop in E. simpl in E. split; [apply lookup_ge_None_2|]; lia. Qed.
(** The loop over a class reads its ranges. *)
Lemma class_loop_ranges p c fuel : ∀ i hit, (length p - i ≤ fuel)%nat →
  match read_ranges fuel (drop i p) with
  | Some (l, r) => ∃ j, class_loop fuel p c i hit = (hit || in_ranges c l, j) ∧ (j < length p)%nat ∧ r = drop (S j) p
  | None => (length p ≤ (class_loop fuel p c i hit).2)%nat
  end.
Proof.
  induction fuel as [|fuel IH]; intros i hit Hf; cbn [read_ranges class_loop]; [simpl; lia|].
  destruct (drop i p) as [|x p1] eqn:Ei; [apply drop_nil_lookup in Ei as [-> ?]; done|].
  apply drop_cons_lookup in Ei as (Hx & Ep1 & Hi). rewrite Hx. destruct (x =? B_CLOSE); [exists i; by rewrite orb_false_r|].
  assert (∀ (i' : nat) (lo : Z) (q : bytes), (i ≤ i')%nat → (i' < length p)%nat → drop (S i') p = q → 
    let res := match p !! (i' + 1)%nat, p !! (i' + 2)%nat with
      | Some d, Some hi => if (d =? B_DASH) && negb (hi =? B_CLOSE) then class_loop fuel p c (i' + 3) (hit || ((Z.min lo hi <=? c) && (c <=? Z.max lo hi)))
                           else class_loop fuel p c (i' + 1) (hit || (lo =? c))
      | _, _ => class_loop fuel p c (i' + 1) (hit || (lo =? c)) end in
    let single := (fun lr => ((lo, lo) :: lr.1, lr.2)) <$> read_ranges fuel q in
    match (match q with
      | d :: hi :: r => if (d =? B_DASH) && negb (hi =? B_CLOSE) then (fun lr => ((Z.min lo hi, Z.max lo hi) :: lr.1, lr.2)) <$> read_ranges fuel r else single
      | _ => single end) with
    | Some (l, r) => ∃ j, res = (hit || in_ranges c l, j) ∧ (j < length p)%nat ∧ r = drop (S j) p
    | None => (length p ≤ res.2)%nat
    end) as Hq.
  { intros i' lo q Hii Hi' Eq. cbv zeta.
    assert (∀ (n : nat) (a b : Z) (q' : bytes), (S i' ≤ n)%nat → drop n p = q' → match (fun lr : list (Z * Z) * bytes => ((a, b) :: lr.1, lr.2)) <$> read_ranges fuel q' with
      | Some (l, r) => ∃ j, class_loop fuel p c n (hit || ((a <=? c) && (c <=? b))) = (hit || in_ranges c l, j) ∧ (j < length p)%nat ∧ r = drop (S j) p
      | None => (length p ≤ (class_loop fuel p c n (hit || ((a <=? c) && (c <=? b))%Z)).2)%nat end) as Hstep.
    { intros n a b q' Hn <-. specialize (IH n (hit || ((a <=? c) && (c <=? b))) ltac:(lia)). destruct (read_ranges fuel (drop n p)) as [[l r]|]; [|done].
      destruct IH as (j & E & ? & ?). exists j. cbn [fst snd in_ranges existsb]. by rewrite E, orb_assoc. }
    assert ((lo =? c) = (lo <=? c) && (c <=? lo)) as Elo by (destruct (Z.eqb_spec lo c), (Z.leb_spec lo c), (Z.leb_spec c lo); cbn [andb]; lia || done).
    rewrite Elo. replace (i' + 1)%nat with (S i') by lia. replace (i' + 2)%nat with (S (S i')) by lia. replace (i' + 3)%nat with (S (S (S i'))) by lia.
    destruct q as [|d q1]; [apply drop_nil_lookup in Eq as E'; destruct E' as [-> _]; by apply Hstep|].
    apply drop_cons_lookup in Eq as E'. destruct E' as (-> & Eq1 & _). destruct q1 as [|hi r].
    - apply drop_nil_lookup in Eq1 as [-> _]. by apply Hstep.
    - apply drop_cons_lookup in Eq1 as (-> & Er & _). destruct ((d =? B_DASH) && negb (hi =? B_CLOSE)); [apply Hstep; [lia|done]|by apply Hstep]. }
  destruct p1 as [|y p2].
  - apply drop_nil_lookup in Ep1 as E'. destruct E' as [_ Hl]. rewrite (proj2 (Nat.ltb_ge _ _)) by lia. rewrite andb_false_r, Hx. cbn [default]. apply (Hq i x []); [lia|done|done].
  - apply drop_cons_lookup in Ep1 as E'. destruct E' as (Hy & Ep2 & Hl). rewrite (proj2 (Nat.ltb_lt (i + 1) _)) by lia. rewrite andb_true_r.
    destruct (x =? B_BACKSLASH).
    + rewrite Hy. cbn [default]. apply (Hq (S i) y p2); [lia|lia|done].
    + rewrite Hx. cbn [default]. apply (Hq i x (y :: p2)); [lia|done|done].
Qed.
Lemma class_reads p pi c : (pi < length p)%nat →
  class p pi c = match read_class (drop (S pi) p) with
    | Some (negate, l, r) => Some (xorb (in_ranges c l) negate, (length p - length r)%nat)
    | None => None
    end.
Proof.
  intros Hpi. unfold class, read_class. replace (pi + 1)%nat with (S pi) by lia. replace (pi + 2)%nat with (S (S pi)) by lia.
  assert (∀ s n, (S pi ≤ s)%nat → (let '(hit, i) := class_loop (length p) p c s false in if Nat.leb (length p) i then None else Some (xorb hit n, S i)) =
    match (fun lr => (n, lr.1, lr.2)) <$> read_ranges (length (drop s p)) (drop s p) with
    | Some (negate, l, r) => Some (xorb (in_ranges c l) negate, (length p - length r)%nat) | None => None end) as Hs.
  { intros s n Hs. pose proof (class_loop_ranges p c (length p) s false ltac:(lia)) as Hl.
    rewrite (read_ranges_fuel (length p)) in Hl by (rewrite length_drop; lia). destruct (class_loop (length p) p c s false) as [hit i].
    destruct (read_ranges _ (drop s p)) as [[l r]|]; cbn [fmap option_fmap option_map fst snd] in *.
    - destruct Hl as (j & [= -> ->] & Hj & ->). rewrite (proj2 (Nat.leb_gt _ _)) by lia. rewrite length_drop. cbn [orb]. do 2 f_equal. lia.
    - by rewrite (proj2 (Nat.leb_le _ _)). }
  destruct (drop (S pi) p) as [|x q] eqn:E.
  - apply drop_nil_lookup in E as E'. destruct E' as [-> _]. rewrite bool_decide_false by done. rewrite Hs by lia. by rewrite E.
  - apply drop_cons_lookup in E as E'. destruct E' as (-> & Eq & _). destruct (Z.eqb_spec x B_CARET) as [->|Hne].
    + rewrite bool_decide_true by done. rewrite Hs by lia. by rewrite Eq.
    + rewrite bool_decide_false by congruence. rewrite Hs by lia. by rewrite E.
Qed.
(** The view of a pattern at a position, and the elements left there. *)
Definition rview (p : bytes) (pi : nat) : pview :=
  match p !! pi with
  | None => VEnd
  | Some x =>
    if x =? B_STAR then VAny
    else if x =? B_QMARK then VOne (fun _ => true) (S pi)
    else if x =? B_OPEN then
      match read_class (drop (S pi) p) with
      | Some (negate, l, r) => VOne (fun c => xorb (in_ranges c l) negate) (length p - length r)
      | None => VOne (fun _ => false) (S pi)
      end
    else if (x =? B_BACKSLASH) && Nat.ltb (pi + 1) (length p) then VOne (fun c => default 0 (p !! (pi + 1)%nat) =? c) (pi + 2)
    else VOne (fun c => x =? c) (S pi)
  end.
Definition rtoks (p : bytes) (pi : nat) : list wtok := List.map rtok_tok (parse (length (drop pi p)) (drop pi p)).
Lemma suffix_drop {A} (r p : list A) : r `suffix_of` p → drop (length p - length r) p = r.
Proof. intros [k ->]. rewrite length_app. replace (length k + length r - length r)%nat with (length k) by lia. by rewrite drop_app_length. Qed.
Lemma rviews p : views (rview p) (rtoks p).
Proof.
  intros pi. unfold rview, rtoks. destruct (drop pi p) as [|x q] eqn:E; [apply drop_nil_lookup in E as [-> _]; done|].
  apply drop_cons_lookup in E as E'. destruct E' as (-> & Eq & Hl). cbn [length parse]. rewrite <- Eq in *.
  destruct (x =? B_STAR); [done|]. destruct (x =? B_QMARK); [done|]. destruct (x =? B_OPEN).
  - destruct (read_class (drop (S pi) p)) as [[[n l] r]|] eqn:Ec; [|done]. pose proof (read_class_suffix _ _ _ _ Ec) as Hs.
    assert (r `suffix_of` p) as Hsp by (etrans; [exact Hs|]; exists (take (S pi) p); by rewrite take_drop).
    rewrite (suffix_drop _ _ Hsp). cbn [List.map rtok_tok]. f_equal. f_equal. apply suffix_length in Hs. by rewrite parse_fuel.
  - destruct (drop (S pi) p) as [|y r] eqn:Er.
    + apply drop_nil_lookup in Er as E'. destruct E' as [_ Hle]. rewrite (proj2 (Nat.ltb_ge _ _)) by lia. rewrite andb_false_r, Er. done.
    + apply drop_cons_lookup in Er as E'. destruct E' as (Hy & Er' & Hlt). rewrite (proj2 (Nat.ltb_lt (pi + 1) _)) by lia. rewrite andb_true_r.
      destruct (x =? B_BACKSLASH); [|by rewrite Er]. replace (pi + 1)%nat with (S pi) by lia. replace (pi + 2)%nat with (S (S pi)) by lia.
      rewrite Hy, Er'. cbn [default List.map rtok_tok length]. f_equal. f_equal. rewrite parse_fuel by (simpl; lia). done.
Qed.
Lemma rglob_loop_search p s : ∀ fuel pi si last,
  rglob_loop fuel p s pi si ((fun am => (S am.1, am.2)) <$> last) = search (rview p) (fun pi => all_stars (drop pi p)) fuel s pi si last.
Proof.
  induction fuel as [|fuel IH]; intros pi si last; [done|]. cbn [rglob_loop search]. destruct (s !! si) as [c|]; [|done].
  assert (match (fun am : nat * nat => (S am.1, am.2)) <$> last with Some (sp, ss) => rglob_loop fuel p s sp (S ss) (Some (sp, S ss)) | None => Some false end =
    match last with Some (ap, at_) => search (rview p) (fun pi => all_stars (drop pi p)) fuel s (S ap) (S at_) (Some (ap, S at_)) | None => Some false end) as ->.
  { destruct last as [[a m]|]; [|done]. cbn [fmap option_fmap option_map fst snd]. by rewrite <- IH. }
  unfold rview. destruct (p !! pi) as [x|] eqn:Ex; [|done]. apply lookup_lt_Some in Ex.
  destruct (x =? B_STAR); [by rewrite <- IH|]. destruct (x =? B_QMARK); [by rewrite <- IH|]. destruct (x =? B_OPEN).
  - rewrite class_reads by done. destruct (read_class _) as [[[n l] r]|]; [|done]. destruct (xorb _ _); [by rewrite <- IH|done].
  - destruct (_ && _); [destruct (_ =? c); [by rewrite <- IH|done]|]. destruct (x =? c); [by rewrite <- IH|done].
Qed.
Lemma all_stars_spec p : all_stars p = true ↔ wspec (List.map rtok_tok (parse (length p) p)) [].
Proof.
  rewrite wspec_nil. induction p as [|x p IH]; [split; [constructor|done]|]. cbn [all_stars length parse]. rewrite andb_true_iff, IH, Z.eqb_eq.
  destruct (Z.eqb_spec x B_STAR) as [->|Hne]; [cbn [List.map rtok_tok]; rewrite Forall_cons; naive_solver|].
  assert (∀ t l, rtok_tok t ≠ WAny → ¬ Forall (fun y => y = WAny) (List.map rtok_tok (t :: l))) as Hn
    by (intros t l Ht Hall; cbn [List.map] in Hall; apply Forall_cons in Hall as [? _]; done).
  split; [by intros [? _]|]. intros Hall. exfalso. revert Hall. destruct (x =? B_QMARK); [by apply Hn|]. destruct (x =? B_OPEN).
  - destruct (read_class p) as [[[n l] r]|]; by apply Hn.
  - destruct p as [|y r]; [by apply Hn|]. destruct (x =? B_BACKSLASH); by apply Hn.
Qed.
(** [glob] matches as Redis does: it ends, and answers exactly what the
    pattern means: [*] any run of bytes, [?] any one, a class any byte of its
    ranges (or any other, when negated), a byte after a backslash, or any
    other, itself; a class that is not closed matches nothing. *)
Theorem rglob_correct p s : rglob p s = true ↔ rglob_spec p s.
Proof.
  unfold rglob, rglob_fuel, rglob_spec.
  destruct (search_correct (rview p) (length p) (fun pi => all_stars (drop pi p))) with (t := s) as (b & E & Hb).
  - intros pi. unfold rview. destruct (p !! pi) as [x|] eqn:Ex; [|done]. by apply lookup_lt_Some in Ex.
  - intros pi f nx. unfold rview. destruct (p !! pi) as [x|] eqn:Ex; [|done]. apply lookup_lt_Some in Ex.
    destruct (x =? B_STAR); [done|]. destruct (x =? B_QMARK); [intros [= _ <-]; lia|]. destruct (x =? B_OPEN).
    + destruct (read_class _) as [[[n l] r]|] eqn:Ec; intros [= _ <-]; [|lia]. apply read_class_shorter in Ec. rewrite length_drop in Ec. lia.
    + destruct (x =? B_BACKSLASH), (Nat.ltb_spec (pi + 1) (length p)); cbn [andb]; intros [= _ <-]; lia.
  - intros pi _. rewrite (wmatch_wspec _ _ _ _ (rviews p)). apply all_stars_spec.
  - pose proof (rglob_loop_search p s (search_fuel (length p) s) 0 0 None) as El. cbn [fmap option_fmap option_map] in El.
    rewrite El, E, Hb, (wmatch_wspec _ _ _ _ (rviews p)). done.
Qed.
Lemma rglob_patterns :
  rglob (lit "h[^a-c]llo*") (lit "hello you") = true ∧ rglob (lit "h[^a-c]llo*") (lit "hbllo") = false ∧ rglob (lit "*b*c") (lit "aXbYYc") = true.
Proof. by vm_compute. Qed.

(** ** The hub *)
Definition OUTBOX_FRAMES : Z := 65536.
(** [resp::Reply]. *)
Inductive Reply :=
| RSimple (s : str) | RError (s : str) | RInt (i : Z) | RBulk (b : option bytes) | RArray (l : option (list Reply))
| RMap (l : list (Reply * Reply)) | RPush (l : list Reply) | RDouble (bits : Z) | RSet (l : list Reply) | RSent.
Inductive Frame := FBytes (b : bytes) | FPush (r : Reply).
(** A connection's outbox: what waits in it, whether its writer still reads,
    whether the connection is open. *)
Record Box := { queue : list Frame; alive : bool; is_open : bool }.
(** A channel or pattern name, within its workspace. *)
Abbreviation Name := (str * bytes)%type.
Record Listener := { l_channels : gset Name; l_patterns : gset Name }.
Definition listener_count (l : Listener) : Z := Z.of_nat (base.size (l_channels l)) + Z.of_nat (base.size (l_patterns l)).
Record Hub := { listeners : gmap Z Listener; boxes : gmap Z Box }.

Definition notice (kind : String.string) (name : option bytes) (count : Z) : Reply :=
  RPush [RBulk (Some (lit kind)); RBulk name; RInt count].
(** Queues a frame without waiting; a full outbox closes the connection. *)
Definition offer (id : Z) (frame : Frame) (bs : gmap Z Box) : bool * gmap Z Box :=
  match bs !! id with
  | None => (false, bs)
  | Some b =>
    if negb (alive b) then (false, bs)
    else if len (queue b) <? OUTBOX_FRAMES then (true, <[id := {| queue := queue b ++ [frame]; alive := true; is_open := is_open b |}]> bs)
    else (false, <[id := {| queue := queue b; alive := true; is_open := false |}]> bs)
  end.
Definition set_names (pattern : bool) (s : gset Name) (l : Listener) : Listener :=
  if pattern then {| l_channels := l_channels l; l_patterns := s |} else {| l_channels := s; l_patterns := l_patterns l |}.
Definition names_of (pattern : bool) (l : Listener) : gset Name := if pattern then l_patterns l else l_channels l.

Fixpoint subscribe_loop (id : Z) (kind : String.string) (scope : str) (names : list bytes) (pattern : bool) (l : Listener) (overflow : bool)
    (bs : gmap Z Box) : Listener * bool * gmap Z Box :=
  match names with
  | [] => (l, overflow, bs)
  | n :: names =>
    let l := set_names pattern ({[(scope, n)]} ∪ names_of pattern l) l in
    let '(ok, bs) := offer id (FPush (notice kind (Some n) (listener_count l))) bs in
    subscribe_loop id kind scope names pattern l (overflow || negb ok) bs
  end.
(** [cloned]: whether the system duplicates the connection's handle. *)
Definition subscribe (id : Z) (cloned : bool) (scope : str) (names : list bytes) (pattern : bool) (h : Hub) : Z * Hub :=
  match (match listeners h !! id with Some l => Some l | None => if cloned then Some {| l_channels := ∅; l_patterns := ∅ |} else None end) with
  | None => (0, h)
  | Some l =>
    let kind := (if pattern then "psubscribe" else "subscribe")%string in
    let '(l, overflow, bs) := subscribe_loop id kind scope names pattern l false (boxes h) in
    (listener_count l, {| listeners := if overflow : bool then delete id (listeners h) else <[id := l]> (listeners h); boxes := bs |})
  end.

Fixpoint unsubscribe_loop (id : Z) (kind : String.string) (targets : list bytes) (pattern : bool) (l : Listener) (bs : gmap Z Box)
    : Listener * gmap Z Box :=
  match targets with
  | [] => (l, bs)
  | n :: targets =>
    let l := set_names pattern (filter (fun sn => sn.2 ≠ n) (names_of pattern l)) l in
    unsubscribe_loop id kind targets pattern l (offer id (FPush (notice kind (Some n) (listener_count l))) bs).2
  end.
Definition bytes_le (a b : bytes) : Prop := bytes_leb a b = true.
#[export] Instance bytes_le_dec a b : Decision (bytes_le a b).
Proof. unfold bytes_le. apply _. Defined.
(** [sort] and [dedup]. *)
Definition sorted_names (s : gset Name) : list bytes := merge_sort bytes_le (elements (set_map snd s : gset bytes)).
Definition unsubscribe (id : Z) (names : list bytes) (pattern : bool) (h : Hub) : Z * Hub :=
  let kind := (if pattern then "punsubscribe" else "unsubscribe")%string in
  match listeners h !! id with
  | None =>
    let bs := if bool_decide (names = []) then (offer id (FPush (notice kind None 0)) (boxes h)).2 else boxes h in
    (0, {| listeners := listeners h;
           boxes := List.fold_left (fun bs n => (offer id (FPush (notice kind (Some n) 0)) bs).2) names bs |})
  | Some l =>
    let targets := if bool_decide (names = []) then sorted_names (names_of pattern l) else names in
    let bs := if bool_decide (targets = []) then (offer id (FPush (notice kind None (listener_count l))) (boxes h)).2 else boxes h in
    let '(l, bs) := unsubscribe_loop id kind targets pattern l bs in
    let count := listener_count l in
    (count, {| listeners := if count =? 0 then delete id (listeners h) else <[id := l]> (listeners h); boxes := bs |})
  end.
Definition leave (id : Z) (h : Hub) : Hub := {| listeners := delete id (listeners h); boxes := boxes h |}.

Section publish.
  (** The order in which the maps and sets of the hub are walked. *)
  Context (order : gmap Z Listener → list (Z * Listener)) (set_order : gset Name → list Name).
Definition message_frames (scope : str) (channel message : bytes) (l : Listener) : list Reply :=
  (if bool_decide ((scope, channel) ∈ l_channels l) then [RPush [RBulk (Some (lit "message")); RBulk (Some channel); RBulk (Some message)]] else []) ++
  List.map (fun sp => RPush [RBulk (Some (lit "pmessage")); RBulk (Some sp.2); RBulk (Some channel); RBulk (Some message)])
    (List.filter (fun sp => bool_decide (sp.1 = scope) && rglob sp.2 channel) (set_order (l_patterns l))).
(** The frames of one connection, up to the first one refused. *)
Fixpoint deliver (id : Z) (dry : bool) (frames : list Reply) (bs : gmap Z Box) : Z * bool * gmap Z Box :=
  match frames with
  | [] => (0, false, bs)
  | f :: frames =>
    let '(ok, bs) := if dry then (true, bs) else offer id (FPush f) bs in
    if ok then let '(n, stuck, bs) := deliver id dry frames bs in (n + 1, stuck, bs) else (0, true, bs)
  end.
Fixpoint publish_loop (scope : str) (channel message : bytes) (dry : bool) (l : list (Z * Listener)) (bs : gmap Z Box)
    : Z * list Z * gmap Z Box :=
  match l with
  | [] => (0, [], bs)
  | (id, x) :: l =>
    let '(n, is_stuck, bs) := deliver id dry (message_frames scope channel message x) bs in
    let '(sent, stuck, bs) := publish_loop scope channel message dry l bs in
    (n + sent, (if is_stuck : bool then id :: stuck else stuck), bs)
  end.
Definition publish (scope : str) (channel message : bytes) (dry : bool) (h : Hub) : Z * Hub :=
  let '(sent, stuck, bs) := publish_loop scope channel message dry (order (listeners h)) (boxes h) in
  (sent, {| listeners := List.fold_left (fun m id => delete id m) stuck (listeners h); boxes := bs |}).
Definition channels (scope : str) (pattern : option bytes) (h : Hub) : list bytes :=
  sorted_names (list_to_set (List.filter (fun sn => bool_decide (sn.1 = scope) && match pattern with None => true | Some p => rglob p sn.2 end)
    (List.concat (List.map (fun il => set_order (l_channels il.2)) (order (listeners h)))))).
Definition numsub (scope : str) (channel : bytes) (h : Hub) : Z :=
  len (List.filter (fun il => bool_decide ((scope, channel) ∈ l_channels il.2)) (order (listeners h))).
Definition numpat (scope : str) (h : Hub) : Z :=
  len (List.filter (fun sn : Name => bool_decide (sn.1 = scope)) (List.concat (List.map (fun il => set_order (l_patterns il.2)) (order (listeners h))))).
End publish.

(** ** Who receives what *)
(** How many of the frames a box takes, and the box after them. *)
Definition room (b : Box) : nat := if alive b then Z.to_nat (OUTBOX_FRAMES - len (queue b)) else 0%nat.
Definition taken (frames : list Reply) (b : option Box) : nat := match b with Some b => Nat.min (length frames) (room b) | None => 0%nat end.
Definition all_taken (frames : list Reply) (b : option Box) : bool := Nat.eqb (taken frames b) (length frames).
Definition after_frames (frames : list Reply) (b : Box) : Box :=
  {| queue := queue b ++ take (room b) (List.map FPush frames); alive := alive b;
     is_open := is_open b && (negb (alive b) || Nat.leb (length frames) (room b)) |}.
Definition zsum {A} (f : A → Z) (l : list A) : Z := foldr (fun x n => f x + n) 0 l.
Lemma zsum_perm {A} (f : A → Z) l k : l ≡ₚ k → zsum f l = zsum f k.
Proof. induction 1; unfold zsum in *; cbn [foldr] in *; lia. Qed.
Lemma zsum_ext {A} (f g : A → Z) l : (∀ x, x ∈ l → f x = g x) → zsum f l = zsum g l.
Proof.
  induction l as [|x l IH]; intros Hfg; [done|]. unfold zsum in *. cbn [foldr]. rewrite (Hfg x) by (by left). f_equal. apply IH.
  intros y Hy. apply Hfg. by right.
Qed.

Lemma offer_spec id f bs : let '(ok, bs') := offer id (FPush f) bs in
  (ok = true ↔ ∃ b, bs !! id = Some b ∧ (0 < room b)%nat) ∧
  bs' !! id = after_frames [f] <$> bs !! id ∧ ∀ j, j ≠ id → bs' !! j = bs !! j.
Proof.
  unfold offer, after_frames, room. destruct (bs !! id) as [[q [] o]|] eqn:E; cbn [alive queue is_open negb List.map length fmap option_fmap option_map orb].
  - destruct (Z.ltb_spec (len q) OUTBOX_FRAMES).
    + rewrite lookup_insert_eq. assert (0 < Z.to_nat (OUTBOX_FRAMES - len q))%nat as Hr by lia. split; [split; [intros _; eexists; split; [done|done]|done]|].
      split; [|intros; by rewrite lookup_insert_ne]. rewrite (proj2 (Nat.leb_le _ _)), andb_true_r by lia. rewrite take_ge by (simpl; lia). done.
    + rewrite lookup_insert_eq. replace (Z.to_nat (OUTBOX_FRAMES - len q)) with 0%nat by lia. split; [split; [done|intros (b & [= <-] & Hb)]|].
      { cbn [alive queue] in Hb. lia. }
      split; [|intros; by rewrite lookup_insert_ne]. cbn [take Nat.leb]. by rewrite andb_false_r, app_nil_r.
  - split; [split; [done|intros (b & [= <-] & Hb); cbn [alive] in Hb; lia]|]. rewrite E. cbn [fmap option_fmap option_map alive take]. by rewrite andb_true_r, app_nil_r.
  - split; [split; [done|intros (b & Hb & _); congruence]|]. by rewrite E.
Qed.
Lemma after_frames_nil b : after_frames [] b = b.
Proof. destruct b as [q a o]. unfold after_frames. cbn [List.map length queue alive is_open Nat.leb]. by rewrite take_nil, app_nil_r, orb_true_r, andb_true_r. Qed.
Lemma after_frames_cons f fs b : (0 < room b)%nat → after_frames fs (after_frames [f] b) = after_frames (f :: fs) b ∧ room b = S (room (after_frames [f] b)).
Proof.
  intros Hr. assert (room b = S (room (after_frames [f] b))) as Er.
  { unfold room in *. unfold after_frames, room. cbn [queue alive List.map]. destruct (alive b); [|lia]. rewrite len_app. rewrite take_ge by (simpl; lia).
    change (len [FPush f]) with 1. lia. }
  split; [|done]. unfold after_frames at 1. unfold after_frames at 3. rewrite Er. set (r := room (after_frames [f] b)).
  unfold after_frames. cbn [queue alive is_open List.map length Nat.leb take]. rewrite Er. cbn [take Nat.leb]. rewrite take_nil, <- app_assoc. cbn [app].
  f_equal. by rewrite orb_true_r, andb_true_r.
Qed.
Lemma deliver_spec id frames : ∀ bs, let '(n, stuck, bs') := deliver id false frames bs in
  n = Z.of_nat (taken frames (bs !! id)) ∧ stuck = negb (all_taken frames (bs !! id)) ∧
  bs' !! id = after_frames frames <$> bs !! id ∧ ∀ j, j ≠ id → bs' !! j = bs !! j.
Proof.
  induction frames as [|f fs IH]; intros bs; cbn [deliver].
  { unfold all_taken, taken. destruct (bs !! id) as [b|]; cbn [length Nat.min Nat.eqb fmap option_fmap option_map]; [|done]. by rewrite after_frames_nil. }
  pose proof (offer_spec id f bs) as Ho. destruct (offer id (FPush f) bs) as [ok bs1]. destruct Ho as (Hok & Hb & Hj).
  destruct ok.
  - destruct (proj1 Hok eq_refl) as (b & Eb & Hr). destruct (after_frames_cons f fs b Hr) as [Ec Er].
    specialize (IH bs1). destruct (deliver id false fs bs1) as [[n stuck] bs2]. rewrite Hb, Eb in IH. rewrite Eb. cbn [fmap option_fmap option_map] in *.
    destruct IH as (-> & -> & Hb2 & Hj2). unfold all_taken, taken. cbn [length]. rewrite Er. split; [lia|]. split; [done|]. split; [by rewrite Hb2, Ec|].
    intros j Hne. by rewrite Hj2, Hj.
  - assert (∀ b, bs !! id = Some b → room b = 0%nat) as H0_.
    { intros b Eb. destruct (room b) eqn:E; [done|]. assert (false = true) as F; [|done]. apply Hok. exists b. split; [done|lia]. }
    unfold all_taken, taken. destruct (bs !! id) as [b|]; [|done]. specialize (H0_ b eq_refl). rewrite H0_. cbn [length Nat.min Nat.eqb negb].
    split; [done|]. split; [done|]. split; [|done]. rewrite Hb. cbn [fmap option_fmap option_map]. f_equal. unfold after_frames. rewrite H0_. done.
Qed.
Lemma deliver_dry id frames bs : deliver id true frames bs = (len frames, false, bs).
Proof. induction frames as [|f fs IH]; [done|]. cbn [deliver]. rewrite IH, len_cons. f_equal. f_equal. lia. Qed.

Section published.
  Context (order : gmap Z Listener → list (Z * Listener)) (set_order : gset Name → list Name).
  Hypothesis order_perm : ∀ m, order m ≡ₚ map_to_list m.
  Hypothesis set_order_perm : ∀ s, set_order s ≡ₚ elements s.
Lemma publish_loop_spec scope channel message l : ∀ bs, NoDup l.*1 →
  let fs := message_frames set_order scope channel message in
  let '(sent, stuck, bs') := publish_loop set_order scope channel message false l bs in
  sent = zsum (fun il => Z.of_nat (taken (fs il.2) (bs !! il.1))) l ∧
  (∀ id x, (id, x) ∈ l → bs' !! id = after_frames (fs x) <$> bs !! id ∧ (id ∈ stuck ↔ all_taken (fs x) (bs !! id) = false)) ∧
  ∀ id, id ∉ l.*1 → bs' !! id = bs !! id ∧ id ∉ stuck.
Proof.
  induction l as [|[id x] l IH]; intros bs Hnd fs; cbn [publish_loop].
  { split; [done|]. split; [by intros id x ?%elem_of_nil|]. intros id _. split; [done|apply not_elem_of_nil]. }
  cbn [fmap list_fmap fst] in Hnd. apply NoDup_cons in Hnd as [Hid Hnd].
  pose proof (deliver_spec id (message_frames set_order scope channel message x) bs) as Hd. fold fs in Hd |- *.
  destruct (deliver id false (fs x) bs) as [[n is_stuck] bs1]. destruct Hd as (-> & -> & Hb & Hj).
  specialize (IH bs1 Hnd). cbv zeta in IH. fold fs in IH. destruct (publish_loop set_order scope channel message false l bs1) as [[sent stuck] bs2].
  destruct IH as (-> & Hin & Hout).
  assert (∀ j y, (j, y) ∈ l → bs1 !! j = bs !! j) as Hsame.
  { intros j y Hy. apply Hj. intros ->. apply Hid, list_elem_of_fmap. by exists (id, y). }
  split; [|split].
  - unfold zsum. cbn [foldr fst snd]. f_equal. apply zsum_ext. intros [j y] Hy. cbn [fst snd]. by rewrite (Hsame j y Hy).
  - intros j y [[= -> ->]|Hy]%elem_of_cons.
    + destruct (Hout id Hid) as [E Hns]. rewrite E. split; [exact Hb|].
      destruct (all_taken (fs x) (bs !! id)); cbn [negb]; [split; [by intros ?%Hns|done]|split; [done|intros _; by left]].
    + destruct (Hin j y Hy) as [E Hst]. rewrite E, (Hsame j y Hy). split; [done|]. rewrite (Hsame j y Hy) in Hst. rewrite <- Hst.
      assert (j ≠ id) as Hne by (intros ->; apply Hid, list_elem_of_fmap; by exists (id, y)).
      destruct (negb _); [|done]. rewrite elem_of_cons. tauto.
  - intros j Hjl. cbn [fmap list_fmap fst] in Hjl. apply not_elem_of_cons in Hjl as [Hne Hjl]. destruct (Hout j Hjl) as [E Hns]. rewrite E.
    split; [by apply Hj|]. destruct (negb _); [|done]. by apply not_elem_of_cons.
Qed.
Lemma publish_loop_dry scope channel message l bs :
  publish_loop set_order scope channel message true l bs = (zsum (fun il => len (message_frames set_order scope channel message il.2)) l, [], bs).
Proof. induction l as [|[id x] l IH]; [done|]. cbn [publish_loop]. by rewrite deliver_dry, IH. Qed.
Lemma delete_all (stuck : list Z) : ∀ m : gmap Z Listener, ∀ id, List.fold_left (fun m id => delete id m) stuck m !! id = if decide (id ∈ stuck) then None else m !! id.
Proof.
  induction stuck as [|j stuck IH]; intros m id; cbn [List.fold_left].
  - by rewrite decide_False by apply not_elem_of_nil.
  - rewrite IH. destruct (decide (id ∈ stuck)); [by rewrite decide_True by by right|]. destruct (decide (id = j)) as [->|].
    + rewrite lookup_delete_eq. by rewrite decide_True by by left.
    + rewrite lookup_delete_ne by done. rewrite decide_False; [done|]. by apply not_elem_of_cons.
Qed.
(** C22: a message reaches those who listen, and no one else. Each listener's
    outbox receives, in order, the frame of its channel and one for each of its
    patterns that matches, in the workspace of the message only, as far as
    there is room; a listener that cannot take them all is disconnected and
    forgotten; no other outbox changes. The count returned is that of the
    frames received; a dry run counts the frames due and changes nothing. *)
Theorem publish_exact scope channel message h :
  let fs := message_frames set_order scope channel message in
  let '(sent, h') := publish order set_order scope channel message false h in
  (∀ id, boxes h' !! id = match listeners h !! id with Some l => after_frames (fs l) <$> boxes h !! id | None => boxes h !! id end) ∧
  (∀ id, listeners h' !! id = match listeners h !! id with Some l => if all_taken (fs l) (boxes h !! id) then Some l else None | None => None end) ∧
  sent = zsum (fun il => Z.of_nat (taken (fs il.2) (boxes h !! il.1))) (map_to_list (listeners h)) ∧
  (∀ l, (∀ n, n ∈ l_channels l ∪ l_patterns l → n.1 ≠ scope) → fs l = []) ∧
  publish order set_order scope channel message true h = (zsum (fun il => len (fs il.2)) (map_to_list (listeners h)), h).
Proof.
  intros fs. pose proof (order_perm (listeners h)) as Hperm.
  assert (NoDup (order (listeners h)).*1) as Hnd by (rewrite Hperm; apply NoDup_fst_map_to_list).
  assert (∀ id l, (id, l) ∈ order (listeners h) ↔ listeners h !! id = Some l) as Hin by (intros; rewrite Hperm; apply elem_of_map_to_list).
  assert (∀ id, listeners h !! id = None → id ∉ (order (listeners h)).*1) as Hout.
  { intros id Hn ([j l] & Ej & Hj)%list_elem_of_fmap. cbn [fst] in Ej. subst j. apply Hin in Hj. congruence. }
  unfold publish. rewrite publish_loop_dry. pose proof (publish_loop_spec scope channel message _ (boxes h) Hnd) as Hl. cbv zeta in Hl. fold fs in Hl.
  destruct (publish_loop set_order scope channel message false (order (listeners h)) (boxes h)) as [[sent stuck] bs]. cbn [boxes listeners].
  destruct Hl as (-> & Hl & Hn). split; [|split; [|split; [|split]]].
  - intros id. destruct (listeners h !! id) as [l|] eqn:E; [by apply Hl, Hin|by apply Hn, Hout].
  - intros id. rewrite delete_all. destruct (listeners h !! id) as [l|] eqn:E; [|by destruct (decide _)].
    destruct (Hl id l ltac:(by apply Hin)) as [_ Hs]. destruct (all_taken _ _), (decide (id ∈ stuck)); naive_solver.
  - by apply zsum_perm.
  - intros l Hne. unfold fs, message_frames. rewrite bool_decide_false by (intros Hc; by apply (Hne (scope, channel)); [set_solver|]). cbn [app].
    rewrite filter_none; [done|]. apply Forall_forall. intros [s p] Hp. rewrite set_order_perm, elem_of_elements in Hp. cbn [fst snd].
    rewrite bool_decide_false; [done|]. apply (Hne (s, p)). set_solver.
  - f_equal; [by apply zsum_perm|]. by destruct h.
Qed.
End published.

(** Three connections: one on the channel and on a pattern, one whose writer
    stopped, one of another workspace. *)
Definition sample_box (a : bool) : Box := {| queue := []; alive := a; is_open := true |}.
Definition sample_listener (scope : str) : Listener := {| l_channels := {[(scope, lit "news")]}; l_patterns := {[(scope, lit "n*")]} |}.
Definition sample_hub : Hub :=
  {| listeners := <[1 := sample_listener (lit "w")]> (<[2 := sample_listener (lit "w")]> (<[3 := sample_listener (lit "other")]> ∅));
     boxes := <[1 := sample_box true]> (<[2 := sample_box false]> (<[3 := sample_box true]> ∅)) |}.
Lemma publish_exact_witness :
  (∀ m : gmap Z Listener, map_to_list m ≡ₚ map_to_list m) ∧
  let '(sent, h) := publish map_to_list elements (lit "w") (lit "news") (lit "hi") false sample_hub in
  sent = 2 ∧ listeners h !! 2 = None ∧ (queue <$> boxes h !! 3) = Some [].
Proof.
  split; [reflexivity|]. pose proof (publish_exact map_to_list elements ltac:(reflexivity) ltac:(reflexivity) (lit "w") (lit "news") (lit "hi") sample_hub) as Hp.
  cbv zeta in Hp. destruct (publish map_to_list elements (lit "w") (lit "news") (lit "hi") false sample_hub) as [sent h].
  destruct Hp as (Hb & Hl & Hs & _). split; [rewrite Hs; vm_compute; reflexivity|]. split; [rewrite Hl; vm_compute; reflexivity|].
  rewrite Hb. vm_compute. reflexivity.
Defined.
