(* ===== verification/Resp.v ===== *)
(** * [src/resp.rs], the wire: commands read from a connection, replies written
    to it in RESP2 or RESP3

    What a connection brings is its bytes up to their end; an error of the
    socket ends it as its end does. *)
From S2P Require Import Prelude Utf8 Text DocNum Floats Pubsub.
Open Scope Z_scope.

Definition MAX_ARGS : Z := 1024 * 1024.
Definition MAX_BULK : Z := 512 * 1024 * 1024.
Definition CR : Z := 13.
Definition LF : Z := 10.
Definition crlf : bytes := [CR; LF].

(** [value::fmt_f64] *)
Definition fmt_f64 (f : Z) : str := if f_whole f && f_lt (f_abs f) F_9E15 then int_text (f_trunc f) else float_text f.

(** ** Replies *)
Definition ok : Reply := RSimple (lit "OK").
Definition nil_ : Reply := RBulk None.
Definition bulk (s : str) : Reply := RBulk (Some (utf8 s)).
Definition err (m : String.string) : Reply := RError (lit "ERR " ++ lit m).
Definition wrong_type : Reply := RError (lit "WRONGTYPE Operation against a key holding the wrong kind of value").
(** [s.replace(['\r', '\n'], " ")] *)
Definition one_line (s : str) : str := List.map (fun c => if (c =? CR) || (c =? LF) then 32 else c) s.
Definition header (mark n : Z) : bytes := mark :: int_text n ++ crlf.
Fixpoint encode (resp3 : bool) (r : Reply) : bytes :=
  match r with
  | RSimple s => 43 :: utf8 (one_line s) ++ crlf
  | RError s => 45 :: utf8 (one_line s) ++ crlf
  | RInt i => header 58 i
  | RBulk None => if resp3 then 95 :: crlf else lit "$-1" ++ crlf
  | RBulk (Some b) => header 36 (len b) ++ b ++ crlf
  | RArray None => if resp3 then 95 :: crlf else lit "*-1" ++ crlf
  | RArray (Some items) => header 42 (len items) ++ List.flat_map (encode resp3) items
  | RMap pairs =>
    (if resp3 then header 37 (len pairs) else header 42 (len pairs * 2)) ++
    List.flat_map (fun kv => encode resp3 kv.1 ++ encode resp3 kv.2) pairs
  | RPush items => header (if resp3 then 62 else 42) (len items) ++ List.flat_map (encode resp3) items
  | RDouble f =>
    if resp3 then 44 :: (if f_is_nan f then lit "nan" else fmt_f64 f) ++ crlf
    else header 36 (len (fmt_f64 f)) ++ fmt_f64 f ++ crlf
  | RSet items => header (if resp3 then 126 else 42) (len items) ++ List.flat_map (encode resp3) items
  | RSent => []
  end.

(** [impl From<KivaError> for Reply]; [starts] tells a refusal of a session
    without an account from the others. *)
Definition reply_of (e : KivaError) : Reply :=
  match e with
  | Denied m =>
    if String.prefix "authentication required" m then RError (lit "NOAUTH Authentication required.")
    else RError (lit "NOPERM " ++ lit m)
  | ReadOnly m => RError (lit "READONLY " ++ lit m)
  | Conflict m => RError (lit "EXECABORT " ++ lit m)
  | Unique m => RError (lit "UNIQUE " ++ lit m)
  | SchemaErr m => RError (lit "SCHEMA " ++ lit m)
  | Io m | Corrupted m | Locked m | Format m | Invalid m | NotFound m | Exists_ m | TypeErr m | Script m | Other m => err m
  end.

(** ** Commands *)
(** [read_until(b'\n')]: the line with its end, and what follows it. *)
Fixpoint read_until (s : bytes) : bytes * bytes :=
  match s with
  | [] => ([], [])
  | c :: s => if c =? LF then ([c], s) else let '(l, r) := read_until s in (c :: l, r)
  end.
Fixpoint drop_ends (l : bytes) : bytes := match l with c :: t => if (c =? LF) || (c =? CR) then drop_ends t else l | [] => [] end.
Definition read_line (s : bytes) : option (bytes * bytes) :=
  match s with [] => None | _ => let '(l, r) := read_until s in Some (rev (drop_ends (rev l)), r) end.
(** [s.parse::<usize>()], of bytes *)
Definition usize_of (b : bytes) : option Z := s ← from_utf8 b; parse_u64 s.
(** [u8::is_ascii_whitespace] *)
Definition is_ascii_space (c : Z) : bool := (c =? 32) || (c =? 9) || (c =? 10) || (c =? 12) || (c =? 13).
Fixpoint words_loop (cur l : bytes) : list bytes :=
  match l with
  | [] => if bool_decide (cur = []) then [] else [rev cur]
  | c :: l => if is_ascii_space c then if bool_decide (cur = []) then words_loop [] l else rev cur :: words_loop [] l else words_loop (c :: cur) l
  end.
Definition inline_args (line : bytes) : list bytes := words_loop [] line.
Definition bad {A} (m : String.string) : result String.string A := Err m.
Fixpoint read_args (n : nat) (s : bytes) : result String.string (list bytes * bytes) :=
  match n with
  | O => Ok ([], s)
  | S n =>
    '(h, s) ← ok_or (read_line s) "truncated command"%string;
    match h with
    | c :: h =>
      if c =? 36 then
        l ← ok_or (usize_of h) "bad length"%string;
        if MAX_BULK <? l then bad "argument too large"
        else if len s <? l + 2 then bad "failed to fill whole buffer"
        else
          '(args, r) ← read_args n (drop (Z.to_nat (l + 2)) s);
          Ok (take (Z.to_nat l) s :: args, r)
      else bad "expected a bulk string"
    | [] => bad "expected a bulk string"
    end
  end.
(** An empty command is skipped, each with a byte at least. *)
Fixpoint read_loop (fuel : nat) (s : bytes) : result String.string (option (list bytes) * bytes) :=
  match fuel with
  | O => Ok (None, s)
  | S fuel =>
    match s with
    | [] => Ok (None, [])
    | first :: _ =>
      if negb (first =? 42) then
        match read_line s with
        | None => Ok (None, [])
        | Some (line, r) => match inline_args line with [] => read_loop fuel r | args => Ok (Some args, r) end
        end
      else
        '(h, r) ← ok_or (read_line s) "truncated command"%string;
        n ← ok_or (usize_of (drop 1 h)) "bad array"%string;
        if MAX_ARGS <? n then bad "too many arguments"
        else
          '(args, r) ← read_args (Z.to_nat n) r;
          match args with [] => read_loop fuel r | _ => Ok (Some args, r) end
    end
  end.
Definition read_command (s : bytes) : result String.string (option (list bytes) * bytes) := read_loop (S (length s)) s.

(** ** What a client reads *)
(** The reading of a reply by the protocol, in one version or the other. *)
Inductive Wire :=
| WSimple (b : bytes) | WError (b : bytes) | WInt (i : Z) | WNull | WNullArray | WBulk (b : bytes)
| WArray (l : list Wire) | WMap (l : list Wire) | WPush (l : list Wire) | WSet (l : list Wire) | WDouble (b : bytes).
(** *** What a client finds, said without the code that writes it *)
(** The texts of a line: their characters, a space in the place of each end of
    line. *)
Definition sent (c c' : Z) : Prop := (c = 13 ∨ c = 10) ∧ c' = 32 ∨ c ≠ 13 ∧ c ≠ 10 ∧ c' = c.
Definition says_line (s : str) (b : bytes) : Prop := ∃ t, b = utf8 t ∧ Forall2 sent s t.
(** A text that any client reads as that number: equal to it, or a NaN too. *)
Definition says_float (f : Z) (b : bytes) : Prop :=
  ∃ g, parse_f64 b = Some g ∧ (f_is_nan f = true ∧ f_is_nan g = true ∨ f_eq f g = true).
Definition says_each {A} (P : A → Wire → Prop) : list A → list Wire → Prop :=
  fix go l ws := match l, ws with [], [] => True | x :: l, w :: ws => P x w ∧ go l ws | _, _ => False end.
Definition says_pairs {A} (P : A → Wire → Prop) : list (A * A) → list Wire → Prop :=
  fix go l ws := match l, ws with [], [] => True | kv :: l, k :: v :: ws => P kv.1 k ∧ P kv.2 v ∧ go l ws | _, _ => False end.
(** The maps, the pushed messages and the sets of RESP3 are arrays in RESP2, its
    doubles are texts. *)
Fixpoint says (resp3 : bool) (r : Reply) (w : Wire) : Prop :=
  match r with
  | RSimple s => ∃ b, w = WSimple b ∧ says_line s b
  | RError s => ∃ b, w = WError b ∧ says_line s b
  | RInt i => w = WInt i
  | RBulk None => w = WNull
  | RBulk (Some b) => w = WBulk b
  | RArray None => w = if resp3 then WNull else WNullArray
  | RArray (Some l) => ∃ ws, w = WArray ws ∧ says_each (says resp3) l ws
  | RMap l => ∃ ws, w = (if resp3 then WMap else WArray) ws ∧ says_pairs (says resp3) l ws
  | RPush l => ∃ ws, w = (if resp3 then WPush else WArray) ws ∧ says_each (says resp3) l ws
  | RSet l => ∃ ws, w = (if resp3 then WSet else WArray) ws ∧ says_each (says resp3) l ws
  | RDouble f => ∃ b, w = (if resp3 then WDouble else WBulk) b ∧ says_float f b
  | RSent => False
  end.
(** A line up to its carriage return and line feed. *)
Fixpoint wire_line (s : bytes) : option (bytes * bytes) :=
  match s with
  | [] => None
  | c :: s1 =>
    match s1 with
    | d :: s2 => if (c =? CR) && (d =? LF) then Some ([], s2) else '(l, r) ← wire_line s1; Some (c :: l, r)
    | [] => None
    end
  end.
Definition read_many (read : bytes → option (Wire * bytes)) : nat → bytes → option (list Wire * bytes) :=
  fix go n s := match n with O => Some ([], s) | S n => '(w, s) ← read s; '(l, s) ← go n s; Some (w :: l, s) end.
Fixpoint read_reply (fuel : nat) (s : bytes) : option (Wire * bytes) :=
  match fuel, s with
  | S fuel, mark :: s =>
    '(l, r) ← wire_line s;
    let many (k : list Wire → Wire) (times : Z) :=
      n ← parse_i64 l; '(ws, r) ← read_many (read_reply fuel) (Z.to_nat (times * n)) r; Some (k ws, r) in
    if mark =? 43 then Some (WSimple l, r)
    else if mark =? 45 then Some (WError l, r)
    else if mark =? 58 then i ← parse_i64 l; Some (WInt i, r)
    else if mark =? 95 then Some (WNull, r)
    else if mark =? 44 then Some (WDouble l, r)
    else if mark =? 36 then
      n ← parse_i64 l;
      if n =? -1 then Some (WNull, r) else Some (WBulk (take (Z.to_nat n) r), drop (Z.to_nat (n + 2)) r)
    else if mark =? 42 then n ← parse_i64 l; if n =? -1 then Some (WNullArray, r) else many WArray 1
    else if mark =? 37 then many WMap 2
    else if mark =? 62 then many WPush 1
    else if mark =? 126 then many WSet 1
    else None
  | _, _ => None
  end.
(** How deep replies nest. *)
Fixpoint reply_depth (r : Reply) : nat :=
  match r with
  | RArray (Some l) | RPush l | RSet l => S (foldr (fun r n => Nat.max (reply_depth r) n) 0%nat l)
  | RMap l => S (foldr (fun kv n => Nat.max (Nat.max (reply_depth kv.1) (reply_depth kv.2)) n) 0%nat l)
  | _ => 1%nat
  end.
(** Replies a connection sends: nothing already queued inside, texts of
    characters, machine integers and lengths. *)
Fixpoint sendable (r : Reply) : Prop :=
  match r with
  | RSimple s | RError s => valid_str s
  | RInt i => in_i64 i
  | RBulk (Some b) => len b ≤ i64_max
  | RArray (Some l) | RPush l | RSet l => len l ≤ i64_max ∧ foldr (fun r P => sendable r ∧ P) True l
  | RMap l => len l * 2 ≤ i64_max ∧ foldr (fun kv P => (sendable kv.1 ∧ sendable kv.2) ∧ P) True l
  | RDouble f => in_u 64 f
  | RSent => False
  | _ => True
  end.
