(* ===== verification/RespThm.v ===== *)
(** * The wire of [src/resp.rs]: what is written is what the other side reads *)
From Stdlib Require Import QArith_base.
From S2P Require Import Prelude Utf8 Text DocNum Floats FloatsThm Pubsub Resp.
Open Scope Z_scope.

(** ** Lines *)
Abbreviation flat := (Forall (fun c => c ≠ CR ∧ c ≠ LF)).
Lemma digits_flat s : Forall is_digit s → flat s.
Proof. intros H. eapply Forall_impl; [exact H|]. unfold is_digit, CR, LF. lia. Qed.
Lemma digits_loop_digits fuel : ∀ n acc, Forall is_digit acc → Forall is_digit (digits_loop fuel n acc).
Proof.
  induction fuel as [|fuel IH]; intros n acc Ha; [done|]. cbn [digits_loop].
  assert (Forall is_digit (48 + n mod 10 :: acc)) as H.
  { constructor; [|done]. unfold is_digit. pose proof (Z.mod_pos_bound n 10 ltac:(lia)). lia. }
  destruct (n <? 10); [done|by apply IH].
Qed.
Lemma nat_text_digits n : Forall is_digit (nat_text n).
Proof. apply digits_loop_digits. constructor. Qed.
Lemma nat_text_length n : (length (nat_text n) ≤ 40)%nat.
Proof. etransitivity; [apply digits_loop_length|simpl; lia]. Qed.
Lemma int_text_flat n : flat (int_text n).
Proof. unfold int_text. destruct (n <? 0); [constructor; [done|]|]; apply digits_flat, nat_text_digits. Qed.
Lemma int_text_length n : (length (int_text n) ≤ 41)%nat.
Proof. unfold int_text. destruct (n <? 0); cbn [length]; pose proof (nat_text_length n); pose proof (nat_text_length (- n)); lia. Qed.
Lemma wire_line_flat l r : flat l → wire_line (l ++ crlf ++ r) = Some (l, r).
Proof.
  induction 1 as [|c l [Hc _] _ IH]; [done|]. cbn [app wire_line].
  destruct (l ++ crlf ++ r) as [|d s] eqn:E; [by destruct l|]. rewrite (proj2 (Z.eqb_neq _ _) Hc). cbn [andb]. by rewrite IH.
Qed.
Lemma one_line_flat s : valid_str s → flat (utf8 (one_line s)).
Proof.
  intros H. apply Forall_forall. intros b Hb. unfold utf8 in Hb. apply list_elem_of_In, in_flat_map in Hb as (c & Hc & Hb).
  unfold one_line in Hc. apply in_map_iff in Hc as (a & <- & Ha). apply list_elem_of_In in Ha. eapply Forall_forall in H; [|exact Ha]. revert Hb.
  destruct (Z.eqb_spec a CR); [intros [<-|[]]; done|]. destruct (Z.eqb_spec a LF); [intros [<-|[]]; done|]. cbn [orb].
  unfold encode_char, is_scalar, CR, LF in *. cbn zeta.
  destruct (Z.ltb_spec a 128); [intros [<-|[]]; lia|].
  pose proof (Z.mod_pos_bound a 64 ltac:(lia)). pose proof (Z.mod_pos_bound (a / 64) 64 ltac:(lia)). pose proof (Z.mod_pos_bound (a / 4096) 64 ltac:(lia)).
  assert (0 ≤ a / 64 ∧ 0 ≤ a / 4096 ∧ 0 ≤ a / 262144) as (? & ? & ?) by (repeat split; apply Z.div_pos; lia).
  repeat case_match; intros Hb; repeat destruct Hb as [Hb|Hb]; try done; lia.
Qed.

(** ** Floats are a line, that reads back as the float *)
Lemma nat_text_flat n : flat (nat_text n).
Proof. apply digits_flat, nat_text_digits. Qed.
Lemma long_text_flat n : flat (long_text n).
Proof. apply digits_flat. unfold long_text. by apply digits_loop_digits. Qed.
Lemma zeros_flat k : flat (repeat 48 k).
Proof. apply digits_flat, zeros_digits. Qed.
Create HintDb flat.
#[local] Hint Resolve nat_text_flat long_text_flat zeros_flat Forall_take Forall_drop : flat.
Lemma decimal_text_flat c x : flat (decimal_text c x).
Proof.
  assert (flat [46]) by (repeat constructor; done). assert (flat [48; 46]) by (repeat constructor; done).
  unfold decimal_text. destruct (0 <=? x); [apply Forall_app_2; [auto with flat|destruct (c =? 0); [constructor|auto with flat]]|].
  destruct (Nat.ltb _ _); repeat (apply Forall_app_2; [auto with flat|]); auto with flat.
Qed.
Lemma decimal_text_length c x : c ≤ 2 ^ 1024 * 10 ^ 2600 + 1 → Z.abs x ≤ 10000 → len (decimal_text c x) ≤ 30000.
Proof.
  intros Hc Hx. apply long_text_length in Hc. unfold len in *. unfold decimal_text. destruct (0 <=? x).
  - rewrite length_app. destruct (c =? 0); [cbn [length]; lia|rewrite repeat_length; lia].
  - destruct (Nat.ltb _ _); rewrite !length_app; [rewrite length_take, length_drop; cbn [length]; lia|rewrite repeat_length; cbn [length]; lia].
Qed.
Lemma float_text_line f : flat (float_text f) ∧ len (float_text f) ≤ 40000.
Proof.
  unfold float_text. destruct (f_is_nan f) eqn:En; [split; [by repeat constructor|by vm_compute]|].
  cbv zeta. assert (flat (if f_sign f then [45] else []) ∧ len (if f_sign f then [45%Z] else []) ≤ 1) as [Hs Hsl] by (destruct (f_sign f); (split; [|by vm_compute]); [by repeat constructor|constructor]).
  destruct (f_is_inf f) eqn:Ei.
  { split; [|rewrite len_app; change (len (lit "inf")) with 3; lia]. apply Forall_app_2; [exact Hs|]. apply (bool_decide_unpack _). vm_compute. exact I. }
  destruct (shortest (f_abs f)) as [c x] eqn:E. split; [apply Forall_app_2; [done|apply decimal_text_flat]|]. rewrite len_app.
  destruct (shortest_of f c x) as (_ & _ & Hc & Hx); [done..|]. pose proof (decimal_text_length c x Hc ltac:(lia)). lia.
Qed.
Lemma fmt_f64_line f : flat (fmt_f64 f) ∧ len (fmt_f64 f) ≤ 40000.
Proof.
  unfold fmt_f64. destruct (_ && _).
  - split; [apply int_text_flat|]. pose proof (int_text_length (f_trunc f)). unfold len. lia.
  - apply float_text_line.
Qed.
Lemma fmt_f64_says f : in_u 64 f → says_float f (fmt_f64 f).
Proof.
  intros Hf. unfold fmt_f64. destruct (f_whole f && _) eqn:E.
  - apply andb_true_iff in E as [Hw Hl]. destruct (whole_number_read f Hf Hw Hl) as (g & Hg & He). exists g. auto.
  - unfold says_float. rewrite float_text_read by done. eexists. split; [reflexivity|]. destruct (f_is_nan f) eqn:En; [by left|]. right. by apply f_eq_refl.
Qed.
Lemma one_line_says s : says_line s (utf8 (one_line s)).
Proof.
  exists (one_line s). split; [done|]. unfold one_line. induction s as [|c s IH]; [constructor|]. constructor; [|exact IH]. unfold sent, CR, LF.
  destruct (Z.eqb_spec c 13), (Z.eqb_spec c 10); cbn [orb]; auto.
Qed.

(** What the code sends, read back: the value of [read_reply] in the proof. *)
Fixpoint wire (resp3 : bool) (r : Reply) : Wire :=
  match r with
  | RSimple s => WSimple (utf8 (one_line s))
  | RError s => WError (utf8 (one_line s))
  | RInt i => WInt i
  | RBulk None => WNull
  | RBulk (Some b) => WBulk b
  | RArray None => if resp3 then WNull else WNullArray
  | RArray (Some l) => WArray (List.map (wire resp3) l)
  | RMap l => (if resp3 then WMap else WArray) (List.flat_map (fun kv => [wire resp3 kv.1; wire resp3 kv.2]) l)
  | RPush l => (if resp3 then WPush else WArray) (List.map (wire resp3) l)
  | RSet l => (if resp3 then WSet else WArray) (List.map (wire resp3) l)
  | RDouble f => if resp3 then WDouble (if f_is_nan f then lit "nan" else fmt_f64 f) else WBulk (fmt_f64 f)
  | RSent => WNull
  end.
(** ** Replies *)
Lemma read_many_all resp3 read (l : list Reply) r :
  (∀ x s, x ∈ l → read (encode resp3 x ++ s) = Some (wire resp3 x, s)) →
  read_many read (length l) (List.flat_map (encode resp3) l ++ r) = Some (List.map (wire resp3) l, r).
Proof.
  intros H. induction l as [|x l IH]; [done|]. cbn [length List.flat_map List.map read_many]. rewrite <- app_assoc, H by left.
  cbn [mbind option_bind]. rewrite IH by (intros; apply H; by right). done.
Qed.
Lemma read_many_pairs resp3 read (l : list (Reply * Reply)) r :
  (∀ x s, x ∈ l → read (encode resp3 x.1 ++ s) = Some (wire resp3 x.1, s)) →
  (∀ x s, x ∈ l → read (encode resp3 x.2 ++ s) = Some (wire resp3 x.2, s)) →
  read_many read (2 * length l) (List.flat_map (fun kv => encode resp3 kv.1 ++ encode resp3 kv.2) l ++ r) =
  Some (List.flat_map (fun kv => [wire resp3 kv.1; wire resp3 kv.2]) l, r).
Proof.
  intros H1 H2. induction l as [|x l IH]; [done|]. cbn [length List.flat_map]. replace (2 * S (length l))%nat with (S (S (2 * length l))) by lia.
  cbn [read_many]. rewrite <- !app_assoc, H1 by left. cbn [mbind option_bind]. rewrite H2 by left. cbn [mbind option_bind].
  rewrite IH by (intros; (apply H1 || apply H2); by right). done.
Qed.
Lemma max_depth {A} (f : A → nat) l x n : x ∈ l → (foldr (fun y n => Nat.max (f y) n) 0 l ≤ n)%nat → (f x ≤ n)%nat.
Proof. induction 1 as [y l|y z l _ IH]; cbn [foldr]; [lia|]. intros. apply IH. lia. Qed.
Lemma all_sendable {A} (P : A → Prop) l x : x ∈ l → foldr (fun y Q => P y ∧ Q) True l → P x.
Proof. induction 1 as [y l|y z l _ IH]; cbn [foldr]; [tauto|]. intros [_ ?]. by apply IH. Qed.
Lemma bulk_read b rest : len b ≤ i64_max →
  (n ← parse_i64 (int_text (len b)); if n =? -1 then Some (WNull, b ++ crlf ++ rest)
   else Some (WBulk (take (Z.to_nat n) (b ++ crlf ++ rest)), drop (Z.to_nat (n + 2)) (b ++ crlf ++ rest))) = Some (WBulk b, rest).
Proof.
  intros Hb. pose proof (len_nonneg b). unfold i64_max in Hb. rewrite parse_i64_text by (unfold in_i64, i64_min, i64_max; lia). cbn [mbind option_bind].
  rewrite (proj2 (Z.eqb_neq _ _)) by lia. f_equal. f_equal.
  - f_equal. rewrite take_app_le by (unfold len; lia). apply take_ge. unfold len. lia.
  - rewrite app_assoc. apply drop_app_length'. rewrite length_app. unfold len. cbn. lia.
Qed.
(** A reply opens with its mark and a line. *)
Ltac line flat_lemma :=
  unfold header; cbn [app read_reply]; rewrite <- ?app_assoc, ?wire_line_flat by (by apply flat_lemma); cbn [mbind option_bind Z.eqb Pos.eqb].
Lemma read_reply_fuel resp3 : ∀ fuel r rest, sendable r → (reply_depth r ≤ fuel)%nat → read_reply fuel (encode resp3 r ++ rest) = Some (wire resp3 r, rest).
Proof.
  induction fuel as [|fuel IH]; intros r rest Hr Hd.
  { exfalso. destruct r as [| | | |[]| | | | |]; simpl in Hd; lia. }
  assert (∀ (l : list Reply) n, (foldr (fun r n => Nat.max (reply_depth r) n) 0 l ≤ n)%nat → n = fuel → foldr (fun r P => sendable r ∧ P) True l →
    ∀ x s, x ∈ l → read_reply fuel (encode resp3 x ++ s) = Some (wire resp3 x, s)) as Hall.
  { intros l n Hl -> Hs x s Hx. apply IH; [by eapply all_sendable|by eapply max_depth]. }
  assert (∀ l : list Reply, len l ≤ i64_max → parse_i64 (int_text (len l)) = Some (len l) ∧ (len l =? -1) = false ∧ Z.to_nat (1 * len l) = length l) as Hlen.
  { intros l Hl. pose proof (len_nonneg l). unfold i64_max in *. rewrite parse_i64_text by (unfold in_i64, i64_min, i64_max; lia).
    split; [done|]. split; [apply Z.eqb_neq; lia|]. unfold len. lia. }
  assert (∀ (l : list Reply) k, len l ≤ i64_max → foldr (fun r P => sendable r ∧ P) True l → (foldr (fun r n => Nat.max (reply_depth r) n) 0 l ≤ fuel)%nat →
    (n ← parse_i64 (int_text (len l)); '(ws, r) ← read_many (read_reply fuel) (Z.to_nat (1 * n)) (List.flat_map (encode resp3) l ++ rest); Some (k ws : Wire, r)) =
    Some (k (List.map (wire resp3) l), rest)) as Hmany.
  { intros l k Hl Hs Hm. destruct (Hlen l Hl) as (Hp & _ & Hn). rewrite Hp. cbn [mbind option_bind]. rewrite Hn.
    rewrite (read_many_all resp3) by (by eapply Hall). done. }
  destruct r as [s|s|i|[b|]|[l|]|l|l|f|l|]; cbn [encode wire sendable reply_depth] in *.
  - by line one_line_flat.
  - by line one_line_flat.
  - line int_text_flat. by rewrite parse_i64_text.
  - line int_text_flat. by apply bulk_read.
  - by destruct resp3.
  - line int_text_flat. destruct Hr as [Hl Hs]. destruct (Hlen l Hl) as (Hp & Hn & _). rewrite Hp at 1. cbn [mbind option_bind]. rewrite Hn. apply Hmany; [done|done|lia].
  - by destruct resp3.
  - destruct Hr as [Hl Hs]. pose proof (len_nonneg l). unfold i64_max in Hl.
    assert (∀ x, x ∈ l → sendable x.1 ∧ sendable x.2) as Hx by (intros x Hx; by apply (all_sendable (fun kv => sendable kv.1 ∧ sendable kv.2) l)).
    assert (∀ x, x ∈ l → (Nat.max (reply_depth x.1) (reply_depth x.2) ≤ fuel)%nat) as Hm by (intros x ?; apply (max_depth (fun kv => Nat.max (reply_depth kv.1) (reply_depth kv.2)) l); [done|lia]).
    assert (read_many (read_reply fuel) (2 * length l) (List.flat_map (fun kv => encode resp3 kv.1 ++ encode resp3 kv.2) l ++ rest) =
      Some (List.flat_map (fun kv => [wire resp3 kv.1; wire resp3 kv.2]) l, rest)) as Hp.
    { apply read_many_pairs; intros x s Hin; destruct (Hx x Hin); pose proof (Hm x Hin); apply IH; try done; lia. }
    destruct resp3; line int_text_flat; rewrite parse_i64_text by (unfold in_i64, i64_min, i64_max; lia); cbn [mbind option_bind].
    + replace (Z.to_nat (2 * len l)) with (2 * length l)%nat by (unfold len; lia). by rewrite Hp.
    + rewrite (proj2 (Z.eqb_neq _ _)) by lia. replace (Z.to_nat (1 * (len l * 2))) with (2 * length l)%nat by (unfold len; lia). by rewrite Hp.
  - destruct Hr as [Hl Hs]. destruct resp3; line int_text_flat; [apply (Hmany l WPush); [done|done|lia]|].
    destruct (Hlen l Hl) as (Hp & Hn & _). rewrite Hp at 1. cbn [mbind option_bind]. rewrite Hn. apply Hmany; [done|done|lia].
  - destruct (fmt_f64_line f) as [Hf Hl]. destruct resp3; [|line int_text_flat; apply bulk_read; unfold i64_max; lia].
    cbn [app read_reply]. rewrite <- ?app_assoc, wire_line_flat by (destruct (f_is_nan f); [by repeat constructor|done]). done.
  - destruct Hr as [Hl Hs]. destruct resp3; line int_text_flat; [apply (Hmany l WSet); [done|done|lia]|].
    destruct (Hlen l Hl) as (Hp & Hn & _). rewrite Hp at 1. cbn [mbind option_bind]. rewrite Hn. apply Hmany; [done|done|lia].
  - done.
Qed.

(** *** What is read is what the reply says *)
Lemma says_each_map {A} (P : A → Wire → Prop) (f : A → Wire) l : (∀ x, x ∈ l → P x (f x)) → says_each P l (List.map f l).
Proof. induction l as [|x l IH]; intros H; [done|]. split; [apply H; by left|]. apply IH. intros y Hy. apply H. by right. Qed.
Lemma says_pairs_map {A} (P : A → Wire → Prop) (f : A → Wire) l : (∀ x, x ∈ l → P x.1 (f x.1) ∧ P x.2 (f x.2)) →
  says_pairs P l (List.flat_map (fun kv => [f kv.1; f kv.2]) l).
Proof.
  induction l as [|x l IH]; intros H; [done|]. cbn [List.flat_map app says_pairs]. destruct (H x) as [H1 H2]; [by left|]. split; [done|]. split; [done|].
  apply IH. intros y Hy. apply H. by right.
Qed.
Lemma wire_says resp3 : ∀ fuel r, sendable r → (reply_depth r ≤ fuel)%nat → says resp3 r (wire resp3 r).
Proof.
  induction fuel as [|fuel IH]; intros r Hr Hd.
  { exfalso. destruct r as [| | | |[]| | | | |]; cbn in Hd; try lia; done. }
  assert (∀ l : list Reply, foldr (fun r P => sendable r ∧ P) True l → (foldr (fun r n => Nat.max (reply_depth r) n) 0 l ≤ fuel)%nat →
    says_each (says resp3) l (List.map (wire resp3) l)) as Hall.
  { intros l Hs Hl. apply says_each_map. intros x Hx. apply IH; [by eapply all_sendable|by eapply max_depth]. }
  destruct r as [s|s|i|[b|]|[l|]|l|l|f|l|]; cbn [wire says sendable reply_depth] in *; try done; try (eexists; split; [reflexivity|]).
  - apply one_line_says.
  - apply one_line_says.
  - destruct Hr as [_ Hs]. apply Hall; [done|lia].
  - destruct Hr as [_ Hs]. apply says_pairs_map. intros x Hx.
    destruct (all_sendable (fun kv => sendable kv.1 ∧ sendable kv.2) l x Hx Hs).
    assert (Nat.max (reply_depth x.1) (reply_depth x.2) ≤ fuel)%nat as Hm by (apply (max_depth (fun kv => Nat.max (reply_depth kv.1) (reply_depth kv.2)) l); [done|lia]).
    split; apply IH; try done; lia.
  - destruct Hr as [_ Hs]. apply Hall; [done|lia].
  - destruct resp3; (eexists; split; [reflexivity|]); [|by apply fmt_f64_says]. destruct (f_is_nan f) eqn:En; [|by apply fmt_f64_says].
    exists NAN. split; [by vm_compute|by left].
  - destruct Hr as [_ Hs]. apply Hall; [done|lia].
Qed.

(** ** Commands *)
Lemma read_until_line l r : Forall (fun c => c ≠ LF) l → read_until (l ++ LF :: r) = (l ++ [LF], r).
Proof. induction 1 as [|c l Hc _ IH]; [done|]. cbn [app read_until]. rewrite (proj2 (Z.eqb_neq _ _) Hc). by rewrite IH. Qed.
Lemma drop_ends_flat l : flat l → drop_ends (rev l) = rev l.
Proof.
  intros H. apply Forall_rev in H. destruct H as [|c t [H1 H2] _]; [done|]. cbn [drop_ends]. by rewrite (proj2 (Z.eqb_neq _ _) H2), (proj2 (Z.eqb_neq _ _) H1).
Qed.
Lemma read_line_flat l r : flat l → read_line (l ++ crlf ++ r) = Some (l, r).
Proof.
  intros H. unfold read_line. destruct (l ++ crlf ++ r) as [|x s] eqn:E; [by destruct l|]. rewrite <- E.
  change (l ++ crlf ++ r) with (l ++ [CR] ++ LF :: r). rewrite app_assoc, read_until_line.
  - f_equal. f_equal. rewrite !rev_app_distr. cbn [rev app drop_ends]. cbn. by rewrite drop_ends_flat, rev_involutive.
  - apply Forall_app. split; [eapply Forall_impl; [exact H|naive_solver]|by repeat constructor].
Qed.
Lemma usize_of_text n : 0 ≤ n ≤ u64_max → usize_of (int_text n) = Some n.
Proof.
  unfold u64_max. intros Hn. destruct (nat_text_spec n) as (Hd & Er & Hl & _); [lia|].
  assert (int_text n = nat_text n) as -> by (unfold int_text; by rewrite ltb_f by lia).
  assert (Forall is_ascii (nat_text n)) as Ha by (eapply Forall_impl; [exact Hd|]; unfold is_digit, is_ascii; lia).
  unfold usize_of. rewrite <- (utf8_ascii _ Ha) at 1. rewrite from_utf8_utf8 by (by apply ascii_valid). cbn [mbind option_bind]. unfold parse_u64.
  destruct (nat_text n) as [|c t]; [change (len []) with 0 in Hl; lia|]. apply Forall_cons in Hd as [Hc _]. unfold is_digit in Hc.
  rewrite (proj2 (Z.eqb_neq _ _)) by lia. rewrite Er. cbn. unfold u64_max. by rewrite leb_t by lia.
Qed.
Lemma header_line mark n r : mark ≠ CR → mark ≠ LF → read_line (header mark n ++ r) = Some (mark :: int_text n, r).
Proof. intros. unfold header. cbn [app]. rewrite <- app_assoc. apply (read_line_flat (mark :: int_text n)). constructor; [done|apply int_text_flat]. Qed.
Lemma read_args_all args rest : Forall (fun a => len a ≤ MAX_BULK) args →
  read_args (length args) (List.flat_map (encode false) (List.map (fun a => RBulk (Some a)) args) ++ rest) = Ok (args, rest).
Proof.
  induction 1 as [|a args Ha _ IH]; [done|]. cbn [length List.map List.flat_map encode read_args]. unfold MAX_BULK in Ha. pose proof (len_nonneg a).
  rewrite <- !app_assoc, header_line by done. cbn [ok_or mbind result_bind Z.eqb Pos.eqb].
  rewrite usize_of_text by (unfold u64_max; lia). cbn [ok_or mbind result_bind]. unfold MAX_BULK. rewrite ltb_f by lia.
  rewrite ltb_f by (rewrite !len_app; pose proof (len_nonneg rest); pose proof (len_nonneg (List.flat_map (encode false) (List.map (fun a => RBulk (Some a)) args))); change (len crlf) with 2; lia).
  assert (drop (Z.to_nat (len a + 2)) (a ++ crlf ++ List.flat_map (encode false) (List.map (fun a => RBulk (Some a)) args) ++ rest) =
    List.flat_map (encode false) (List.map (fun a => RBulk (Some a)) args) ++ rest) as ->.
  { rewrite app_assoc. apply drop_app_length'. rewrite length_app. unfold len. cbn. lia. }
  rewrite IH. cbn [mbind result_bind]. f_equal. f_equal. f_equal. rewrite take_app_le by (unfold len; lia). apply take_ge. unfold len. lia.
Qed.

(** C37: a reply is one frame of the protocol. A client that reads the bytes
    of a reply, in RESP2 or in RESP3, finds what the reply says and nothing of
    what follows it: of a text or an error, its characters, with a space in the
    place of each end of line; of a bulk text, its bytes; of an integer, that
    integer; of a double, digits that read as the same float (a NaN as a NaN);
    of an array, a map, a set or a pushed message, what each of its replies
    says, in order, at every depth. *)
Theorem reply_framed resp3 r rest : sendable r →
  ∃ w, read_reply (reply_depth r) (encode resp3 r ++ rest) = Some (w, rest) ∧ says resp3 r w.
Proof. intros Hr. exists (wire resp3 r). split; [by apply read_reply_fuel|by eapply wire_says]. Qed.
(** An error whose text has a line end and a score, inside an array. *)
Definition F_0_1 : Z := 0x3FB999999999999A.
Definition sample_reply : Reply := RArray (Some [RError (lit "ERR a" ++ [13; 10] ++ lit "b"); RInt (-5); RDouble F_0_1]).
Lemma reply_framed_witness : sendable sample_reply ∧
  ∃ w, read_reply 2 (encode true sample_reply ++ lit "rest") = Some (w, lit "rest") ∧ says true sample_reply w ∧
    w = WArray [WError (lit "ERR a  b"); WInt (-5); WDouble (lit "0.1")].
Proof.
  assert (sendable sample_reply) as Hs.
  { split; [done|]. split; [by apply ascii_valid; repeat constructor|]. by repeat split. }
  split; [exact Hs|]. destruct (reply_framed true sample_reply (lit "rest") Hs) as (w & E & Hw). exists w. split; [exact E|]. split; [exact Hw|].
  assert (read_reply 2 (encode true sample_reply ++ lit "rest") = Some (WArray [WError (lit "ERR a  b"); WInt (-5); WDouble (lit "0.1")], lit "rest")) as E' by (vm_compute; reflexivity).
  change (reply_depth sample_reply) with 2%nat in E. rewrite E in E'. by injection E' as ->.
Defined.

(** C38: a command a client writes as an array of bulk strings is read as its
    arguments, whatever bytes they hold, and what follows it is left for the
    next one; so many arguments and so long as the limits allow. *)
Theorem command_read args rest : args ≠ [] → len args ≤ MAX_ARGS → Forall (fun a => len a ≤ MAX_BULK) args →
  read_command (encode false (RArray (Some (List.map (fun a => RBulk (Some a)) args))) ++ rest) = Ok (Some args, rest).
Proof.
  intros Hne Hn Hb. unfold read_command. cbn [encode]. rewrite <- app_assoc.
  assert (len (List.map (fun a => RBulk (Some a)) args) = len args) as -> by (unfold len; by rewrite length_map).
  destruct (length _); (cbn [read_loop]; unfold header at 1; cbn [app]; cbn [Z.eqb Pos.eqb negb]).
  all: change (42 :: (int_text (len args) ++ crlf) ++ ?x) with (header 42 (len args) ++ x); rewrite header_line by done; cbn [ok_or mbind result_bind]; change (drop 1 (42 :: int_text (len args))) with (int_text (len args)).
  all: unfold MAX_ARGS in *; pose proof (len_nonneg args); rewrite usize_of_text by (unfold u64_max; lia); cbn [ok_or mbind result_bind].
  all: rewrite ltb_f by lia; replace (Z.to_nat (len args)) with (length args) by (unfold len; lia); rewrite read_args_all by done; by destruct args.
Qed.
Lemma command_read_witness :
  read_command (lit "*2" ++ crlf ++ lit "$3" ++ crlf ++ lit "GET" ++ crlf ++ lit "$2" ++ crlf ++ [13; 10] ++ crlf ++ lit "next") = Ok (Some [lit "GET"; [13; 10]], lit "next").
Proof. apply (command_read [lit "GET"; [13; 10]] (lit "next")); [done|done|]. repeat (constructor; [vm_compute; congruence|]). constructor. Defined.
