(* ===== verification/Spec.v ===== *)
(** * What the engine promises, from the first write to the reopening *)
From S2P Require Import Prelude Utf8 Util Maps Types Compress Format Crypt Log Hint Cache SecIndex Engine EngineMem EngineOk EngineThm Sample EngineBatch Recovery History Keeps.
Open Scope Z_scope.

Section spec.
  Context `{Aead} `{Crc} `{Codecs} `{Leaves} `{!Values}.

Context `{!AeadLaws} `{!CodecsLaws} `{!ValuesLaws}.

(** ** A hint and the rest of the log *)
Lemma load_hint_ok l : ∀ st, NoDup l.*1 → versions_le st →
  versions_le (load_hint st l) ∧
  ∀ k, match (load_hint st l).1 !! k with
       | Some e => (∃ e0, (k, e0) ∈ l ∧ set_version 0 e = set_version 0 e0) ∨ (st.1 !! k = Some e ∧ k ∉ l.*1)
       | None => st.1 !! k = None ∧ k ∉ l.*1
       end.
Proof.
  unfold load_hint. induction l as [|[k0 e0] l IH]; intros [a s] Hd Hv.
  { simpl. split; [done|]. intros k. destruct (a !! k); [right|]; split; try done; apply not_elem_of_nil. }
  cbn [fmap list_fmap fst snd List.fold_left] in *. apply NoDup_cons in Hd as [Hn Hd].
  destruct (IH (<[k0 := set_version (s + 1) e0]> a, s + 1) Hd) as [Hv' Hl].
  { intros k e. cbn [fst snd]. rewrite lookup_insert_Some. intros [[_ <-]|[_ E]]; [simpl; lia|]. specialize (Hv k e E). simpl in Hv. lia. }
  split; [exact Hv'|]. intros k. specialize (Hl k). cbn [fst] in Hl. destruct (_ !! k) as [e|] in Hl |- *.
  - destruct Hl as [(e1 & Hin & E)|[E Hnl]]; [left; exists e1; split; [by right|done]|].
    apply lookup_insert_Some in E as [[<- <-]|[Hne E]]; [left; exists e0; split; [by left|done]|].
    right. split; [done|]. rewrite not_elem_of_cons. done.
  - destruct Hl as [E Hnl]. apply lookup_insert_None in E as [E Hne]. split; [done|]. rewrite not_elem_of_cons. done.
Qed.
Lemma load_entries_agrees t idx scn :
  agrees t idx scn → agrees t (load_hint (∅, 0) (List.map (fun ke => (ke.1, set_version 0 ke.2)) (entries idx))).1 scn ∧
  versions_le (load_hint (∅, 0) (List.map (fun ke => (ke.1, set_version 0 ke.2)) (entries idx))).
Proof.
  intros Ha. set (l := List.map _ (entries idx)).
  assert (l.*1 = keys_of idx) as El.
  { subst l. unfold keys_of. generalize (entries idx). induction l; simpl; [done|]. by f_equal. }
  destruct (load_hint_ok l (∅, 0)) as [Hv Hl].
  { rewrite El. apply entries_NoDup. }
  { intros k e E. simpl in E. by rewrite lookup_empty in E. }
  split; [|exact Hv]. intros k. specialize (Hl k). specialize (Ha k).
  assert (∀ e0, (k, e0) ∈ l → ∃ e1, idx !! k = Some e1 ∧ e0 = set_version 0 e1) as Hin.
  { intros e0 Hin. subst l. apply list_elem_of_In, in_map_iff in Hin as ([k1 e1] & E & Hin). injection E as <- <-.
    apply list_elem_of_In, elem_of_entries in Hin. by eexists. }
  destruct (_ !! k) as [e|] in Hl |- *.
  - destruct Hl as [(e0 & Hk & E)|[E _]]; [|simpl in E; by rewrite lookup_empty in E].
    destruct (Hin e0 Hk) as (e1 & Hk1 & ->). rewrite Hk1 in Ha. destruct (scn !! k); [|done]. by rewrite E.
  - destruct Hl as [_ Hn]. destruct (idx !! k) as [e1|] eqn:E1; [|done].
    destruct Hn. rewrite El. unfold keys_of. apply list_elem_of_fmap. exists (k, e1). split; [done|]. by apply elem_of_entries.
Qed.
Lemma committed_app n cs cs' : recs_len (List.concat cs) ≤ n →
  committed n (cs ++ cs') = List.concat cs ++ committed (n - recs_len (List.concat cs)) cs'.
Proof.
  revert n. induction cs as [|c cs IH]; intros n Hn; simpl.
  { change (recs_len []) with 0. by rewrite Z.sub_0_r. }
  simpl in Hn. rewrite recs_len_app in Hn. pose proof (recs_len_nonneg (List.concat cs)). rewrite leb_t by lia.
  rewrite IH by lia. rewrite <- app_assoc, recs_len_app. do 3 f_equal. lia.
Qed.

(** Opening the file of a history, cut after a point of it, from what was
    known at that point. *)
Lemma reopen_from o id t h cs m n now new_id hint idx0 seq0 :
  opts_ok o → in_u 64 id → clocks t h → history_log o id t h cs → last_clock t h ≤ now → (m ≤ length h)%nat →
  let i0 := run (take m h) (created o id) in
  let f := take (Z.to_nat n) (file (disk (run h (created o id)))) in
  file_len i0 ≤ n → scan_from o f id hint = Some (idx0, seq0, file_len i0) → versions_le (idx0, seq0) →
  (∀ scn, agrees (last_clock t (take m h)) (index (mem i0)) scn → agrees (last_clock t (take m h)) idx0 scn) →
  ∃ i', open_ o now new_id f hint = Some (Ok i') ∧ conf i' = conf (created o id) ∧
    inv (o_require o) now (committed (n - FILE_HEADER_LEN) (List.filter nonempty cs)) [] i'.
Proof.
  intros Ho Hid Hc Hlog Hnow Hmh i0 f Hn Hsf Hver Hag.
  pose proof (hl_inv _ _ _ _ _ Hlog m Hmh) as Hi0. fold i0 in Hi0. set (rs0 := List.concat (take m cs)) in *.
  pose proof (hl_len _ _ _ _ _ Hlog) as Lcs. pose proof (hl_commits _ _ _ _ _ Hlog) as Hcs.
  pose proof (inv_file_len _ _ _ _ Hi0) as Lf0. pose proof (recs_len_nonneg rs0) as Lr0.
  pose proof (history_all _ _ _ _ _ Hlog) as Hi.
  destruct (cut_point (n - FILE_HEADER_LEN) cs ltac:(lia)) as (j & Hj & Ej & Hjm).
  pose proof (hl_inv _ _ _ _ _ Hlog j ltac:(lia)) as Hij. pose proof (hl_conf _ _ _ _ _ Hlog j ltac:(lia)) as Ecf.
  pose proof (Hjm m ltac:(lia) ltac:(fold rs0; lia)) as Hmj.
  assert (List.filter nonempty cs = List.filter nonempty (take m cs) ++ List.filter nonempty (drop m cs)) as Esplit
    by (by rewrite <- filter_app_, take_drop).
  assert (committed (n - FILE_HEADER_LEN) (List.filter nonempty cs) =
    rs0 ++ committed (n - FILE_HEADER_LEN - recs_len rs0) (List.filter nonempty (drop m cs))) as Ejj.
  { rewrite Esplit, committed_app by (rewrite concat_nonempty; fold rs0; lia). by rewrite !concat_nonempty. }
  assert (f = file_header id (format (disk (run h (created o id)))) ++ recs_bytes rs0 ++
    take (Z.to_nat (n - FILE_HEADER_LEN - recs_len rs0)) (recs_bytes (List.concat (List.filter nonempty (drop m cs))))) as Ef.
  { subst f. rewrite (iv_file _ _ _ _ _ Hi), app_nil_r, keeps_run, concat_nonempty. cbn [created start recount set_mem disk file_id].
    pose proof (file_header_len id (format (disk (run h (created o id))))) as Lh.
    rewrite take_app_ge by (unfold len in Lh; lia). f_equal.
    rewrite <- (take_drop m cs) at 1. rewrite List.concat_app, recs_bytes_app. fold rs0.
    unfold recs_len, len in *. rewrite take_app_ge by lia. do 2 f_equal. lia. }
  rewrite Lf0 in Hsf. rewrite Ef in Hsf |- *. rewrite Ejj. pose proof (last_clock_take j h t Hc).
  destruct (reopen o (o_require o) (last_clock t (take j h)) rs0 (n - FILE_HEADER_LEN - recs_len rs0) (List.filter nonempty (drop m cs))
    (run (take j h) (created o id)) id (format (disk (run h (created o id)))) idx0 seq0 hint now new_id) as (i' & Eo & Hi' & Ecf');
    [by rewrite <- Ejj, Ej|by rewrite Ecf|done|apply Ho|by apply nonempty_commits, Forall_drop|lia|done|apply (iv_fmt _ _ _ _ _ Hi)|lia|exact Hsf| |exact Hver|].
  - eapply (agrees_mono (last_clock t (take m h))); [|apply Hag, (iv_agree _ _ _ _ _ Hi0)].
    pose proof (last_clock_take m (take j h) t (clocks_take j h t Hc)) as Hl. rewrite take_take in Hl.
    by replace (m `min` j)%nat with m in Hl by lia.
  - exists i'. split; [exact Eo|]. split; [done|exact Hi'].
Qed.
(** Without a hint. *)
Lemma reopen_scan o id t h cs n now new_id :
  opts_ok o → in_u 64 id → clocks t h → history_log o id t h cs → last_clock t h ≤ now → FILE_HEADER_LEN ≤ n →
  ∃ i', open_ o now new_id (take (Z.to_nat n) (file (disk (run h (created o id))))) None = Some (Ok i') ∧ conf i' = conf (created o id) ∧
    inv (o_require o) now (committed (n - FILE_HEADER_LEN) (List.filter nonempty cs)) [] i'.
Proof.
  intros Ho Hid Hc Hlog Hnow Hn. assert (file_len (created o id) = FILE_HEADER_LEN) as Lf by apply file_header_len.
  apply (reopen_from o id t h cs 0 n now new_id None ∅ 0); try done; simpl; lia.
Qed.
Lemma history_crash o id t h n now new_id :
  opts_ok o → in_u 64 id → clocks t h → Forall (eop_pre (o_keys o)) h → FILE_HEADER_LEN ≤ n → last_clock t h ≤ now →
  let i := run h (created o id) in
  ∃ j, (j ≤ length h)%nat ∧
    (∀ m, (m ≤ length h)%nat → file_len (run (take m h) (created o id)) ≤ n → (m ≤ j)%nat) ∧
  ∃ i', open_ o now new_id (take (Z.to_nat n) (file (disk i))) None = Some (Ok i') ∧
    ∀ t' k, now ≤ t' → look t' i' k = run_view (take j h) (created o id) nothing t' k.
Proof.
  intros Ho Hid Hc Hp Hn Hnow i. destruct (history_ok o id t h Ho Hid Hc Hp) as (cs & Hlog).
  pose proof (hl_len _ _ _ _ _ Hlog) as Lcs.
  destruct (cut_point (n - FILE_HEADER_LEN) cs ltac:(lia)) as (j & Hj & Ej & Hjm). exists j. split; [lia|]. split.
  { intros m Lm Hlen. apply Hjm; [lia|]. rewrite (inv_file_len _ _ _ _ (hl_inv _ _ _ _ _ Hlog m Lm)) in Hlen. lia. }
  destruct (reopen_scan o id t h cs n now new_id Ho Hid Hc Hlog Hnow Hn) as (i' & Eo & Ecf & Hi'). exists i'. split; [exact Eo|].
  intros t' k Ht'. pose proof (last_clock_take j h t Hc). rewrite <- (hl_look _ _ _ _ _ Hlog j) by lia. rewrite Ej in Hi'.
  apply (look_of_log (o_require o) now (last_clock t (take j h)) (List.concat (take j cs)));
    [done|by apply hl_inv; [|lia]|by rewrite Ecf, (hl_conf _ _ _ _ _ Hlog) by lia|lia|lia].
Qed.

(** ** The promises *)

(** C1: durability. A new workspace goes through any history of writes,
    batches, deletions, reads, purges and transactions that clients may ask
    for, each of which may fail; then its file is cut at any byte after the
    header and opened again. The opening succeeds, and what clients see from
    then on is exactly what the first [j] operations of the history mean,
    for some [j] that comes after every operation whose bytes were in the
    part of the file that is left: nothing written is lost, no batch is
    applied in part, nothing else appears. What clients ask is what eop_pre
    says: values that their encoding gives back, keys that are texts,
    deadlines that the format keeps (none, or in milliseconds from March
    1973 on: expiry_to_ms takes a smaller one for seconds), timestamps of 64
    bits, a clock that does not go back, and batches only when the workspace
    is not encrypted (sealed_batch_lost shows what opening again does with a
    batch of an encrypted one). A write that fails is taken to be cut off
    the file, as the code does when it can. Schemas, indexed vectors and the
    change journal are left out of these operations. *)
Theorem crash_durability o id t h n now new_id :
  opts_ok o → in_u 64 id → clocks t h → Forall (eop_pre (o_keys o)) h → FILE_HEADER_LEN ≤ n → last_clock t h ≤ now →
  let i := run h (created o id) in
  ∃ j, (j ≤ length h)%nat ∧
    (∀ m, (m ≤ length h)%nat → file_len (run (take m h) (created o id)) ≤ n → (m ≤ j)%nat) ∧
  ∃ i', open_ o now new_id (take (Z.to_nat n) (file (disk i))) None = Some (Ok i') ∧
    ∀ t' k, now ≤ t' → look t' i' k = run_view (take j h) (created o id) nothing t' k.
Proof. apply history_crash. Qed.

(** C2: refinement. After any history from a new workspace of what clients
    may ask for, what they see of every key at any later time is what the
    operations mean one after the other on a map of values with deadlines:
    the operations that succeeded count in full, those that failed not at
    all. It is the running workspace that is compared, without opening it
    again. What clients ask is what eop_pre says: values that their encoding
    gives back, keys that are texts, deadlines that the format keeps (none,
    or in milliseconds from March 1973 on: expiry_to_ms takes a smaller one
    for seconds), timestamps of 64 bits, a clock that does not go back, and
    batches only when the workspace is not encrypted (sealed_batch_lost
    shows what opening again does with a batch of an encrypted one). A write
    that fails is taken to be cut off the file, as the code does when it
    can. Schemas, indexed vectors and the change journal are left out of
    these operations. *)
Theorem engine_refines_map o id t h :
  opts_ok o → in_u 64 id → clocks t h → Forall (eop_pre (o_keys o)) h →
  ∀ t' k, last_clock t h ≤ t' → look t' (run h (created o id)) k = run_view h (created o id) nothing t' k.
Proof. apply history_engine. Qed.

(** A read never fails and gives what the history means: the value and
    the deadline of a key that is there, nothing for a key that was never
    written, was deleted, or of which the time is over. *)
Theorem get_reads_history o id t h env key :
  opts_ok o → in_u 64 id → clocks t h → Forall (eop_pre (o_keys o)) h → last_clock t h ≤ now_ms env →
  ∃ r, (get_ env key (run h (created o id))).1 = Ok r ∧
    match r with Some (v, e) => Some (v, e_expires_at e) | None => None end =
    run_view h (created o id) nothing (now_ms env) key.
Proof.
  intros Ho Hid Hc Hp Hnow. rewrite <- (history_engine o id t h) by done.
  destruct (history_ok o id t h Ho Hid Hc Hp) as (cs & Hlog). pose proof (history_all _ _ _ _ _ Hlog) as Hi.
  pose proof (get_ok_ _ _ _ env _ key Hi Hnow) as Hg.
  destruct (get_ env key _) as [[[[v e]|]|err] i']; destruct Hg as (_ & _ & _ & Hg); [| |done]; eexists; by split.
Qed.

(** *** Single operations, after any history *)
Lemma update_with_ok {T} req t rs env i key (f : Val → result KivaError (option Val * T)) :
  inv req t rs [] i → t ≤ now_ms env → keys_read (keys (conf i)) req (keys (conf i)) →
  nonce_pre (keys (conf i)) (nonce env 0) →
  (∀ v exp new out, look (now_ms env) i key = Some (v, exp) → f v = Ok (Some new, out) → put_pre key new exp (now_secs env)) →
  let '(r, i') := update_with env key f i in
  match look (now_ms env) i key with
  | None => r = Ok None
  | Some (v, _) =>
    match f v with
    | Err e => r = Err e
    | Ok (None, out) => r = Ok (Some (out, false))
    | Ok (Some new, out) => r = Ok (Some (out, true)) ∨ ∃ e, r = Err e
    end
  end ∧
  ∀ t' k, now_ms env ≤ t' → look t' i' k =
    match r, look (now_ms env) i key with
    | Ok (Some (_, true)), Some (v, exp) =>
      match f v with
      | Ok (Some new, _) => if decide (key = k) then fresh t' new exp else look t' i k
      | _ => look t' i k
      end
    | _, _ => look t' i k
    end.
Proof.
  intros Hi Ht Hks Hn Hf. apply (inv_mono _ _ (now_ms env)) in Hi; [|done].
  pose proof (inv_live _ _ _ _ _ key Hi) as Hi1. pose proof (look_none _ _ _ _ _ key Hi) as Hnone.
  pose proof (fun t' k H => look_live (now_ms env) t' key i k H) as Hlook. destruct (live_frame key (now_ms env) i) as (Ec & _ & _).
  unfold update_with. unfold mbind at 1, M_bind, liveM.
  destruct (live_cases key (now_ms env) i) as [(e & El & Hk & Hx)|[[El Hk]|(e & El & Hk & Hx)]]; rewrite El in *; cbn [fst snd] in *.
  2,3: rewrite (proj2 Hnone) by done; split; [done|]; intros t' k Ht'; first [done|by apply Hlook].
  destruct (value_of_ok _ _ _ _ _ _ _ Hi1 Hk) as (v & i2 & Ev & Hsv & Hi2 & _ & Ex2 & Ec2 & _ & _ & Esv & _).
  assert (∀ t' k, look t' i2 k = look t' i k) as Hl2 by (intros; unfold look; by rewrite Ex2, Esv).
  assert (look (now_ms env) i key = Some (v, e_expires_at e)) as Hlk by (unfold look; by rewrite Hk, Hx, Hsv).
  rewrite Hlk. unfold mbind, M_bind. rewrite Ev. unfold lift, st.
  destruct (f v) as [[[new|] out]|err] eqn:Efv; [|split; [done|by intros; rewrite Hl2]..].
  specialize (Hf v _ new out Hlk Efv).
  destruct (check_unique _ _ _) as [u|err]; [|split; [right; by eexists|by intros; rewrite Hl2]].
  destruct (put_locked_ok req (now_ms env) rs env i2 key new (e_expires_at e) (has_flag (e_flags e) FLAG_MSGPACK) (now_secs env)) as (c & _ & Hput);
    [done|lia|by rewrite Ec2|by rewrite Ec2|done|].
  destruct (put_locked _ _ _ _ _ _ i2) as [[cr|err] i3]; destruct Hput as (_ & _ & _ & Hl3).
  - split; [by left|]. intros t' k Ht'. rewrite Hl3, Hl2 by done. done.
  - split; [right; by eexists|]. intros t' k Ht'. by rewrite Hl3, Hl2.
Qed.

(** C12: [update_with] is an atomic read-modify-write: the function is given
    the value that is there, the new value is written under the deadline the
    key had, and nothing else changes; when the key is missing, the function
    refuses or keeps the value, or the write fails, nothing changes at all. *)
Theorem update_with_atomic {T} o id t h env key (f : Val → result KivaError (option Val * T)) :
  opts_ok o → in_u 64 id → clocks t h → Forall (eop_pre (o_keys o)) h → last_clock t h ≤ now_ms env →
  nonce_pre (o_keys o) (nonce env 0) →
  let i := run h (created o id) in
  let seen := look (now_ms env) i key in
  (∀ v exp new out, seen = Some (v, exp) → f v = Ok (Some new, out) → put_pre key new exp (now_secs env)) →
  let '(r, i') := update_with env key f i in
  match seen with
  | None => r = Ok None
  | Some (v, _) =>
    match f v with
    | Err e => r = Err e
    | Ok (None, out) => r = Ok (Some (out, false))
    | Ok (Some new, out) => r = Ok (Some (out, true)) ∨ ∃ e, r = Err e
    end
  end ∧
  ∀ t' k, now_ms env ≤ t' → look t' i' k =
    match r, seen with
    | Ok (Some (_, true)), Some (v, exp) =>
      match f v with
      | Ok (Some new, _) => if decide (key = k) then fresh t' new exp else look t' i k
      | _ => look t' i k
      end
    | _, _ => look t' i k
    end.
Proof.
  intros Ho Hid Hc Hp Hnow Hn i seen Hf. destruct (history_ok o id t h Ho Hid Hc Hp) as (cs & Hlog).
  pose proof (hl_conf _ _ _ _ _ Hlog (length h) (le_n _)) as Ecf. rewrite firstn_all in Ecf. fold i in Ecf. destruct Ho as [_ Hk].
  apply (update_with_ok (o_require o) (last_clock t h) (List.concat cs)); [by apply history_all|done|by rewrite Ecf|by rewrite Ecf|done].
Qed.

(** A wiped workspace is a new one. *)
Lemma reset_ok req t rs i id :
  inv req t rs [] i → closed (disk i) = false → in_u 64 id →
  ∃ i', reset (Some id) i = (Ok tt, i') ∧ inv req t [] [] i' ∧ conf i' = conf i ∧ (∀ t' k, look t' i' k = None) ∧
    file (disk i') = file_header id FORMAT_V1.
Proof.
  intros Hi Hc Hid. unfold reset. rewrite Hc. eexists. split; [reflexivity|].
  assert (mem_ok (mem i)) as Hm by apply Hi. split; [|done]. split; try done; simpl.
  - apply (recount_ok (set_mem {| index := ∅; live_bytes := live_bytes (mem i); expiry := expiry (mem i); key_bytes := key_bytes (mem i);
      sec := List.map SecIndex.clear (sec (mem i)); cache := Cache.clear (cache (mem i)) |} i)); simpl.
    + apply List.Forall_forall. intros s Hin. apply in_map_iff in Hin as (s0 & <- & _). apply sec_new_ok.
    + destruct (mo_cache _ Hm) as [Hct ? ? ? ?]. split; try done.
  - apply List.Forall_forall. intros s Hin. apply in_map_iff in Hin as (s0 & <- & _). intros k. left. simpl. unfold indexed, stored_value. simpl.
    by destruct (glob_match _ _).
Qed.
(** A reset empties the workspace: whatever its history, no key is left
    to be seen, and the file that is left, opened again, holds none either. *)
Theorem reset_empties o id t h id' now new_id :
  opts_ok o → in_u 64 id → clocks t h → Forall (eop_pre (o_keys o)) h → last_clock t h ≤ now → in_u 64 id' →
  closed (disk (run h (created o id))) = false →
  ∃ i', reset (Some id') (run h (created o id)) = (Ok tt, i') ∧ (∀ t' k, look t' i' k = None) ∧
    ∃ i'', open_ o now new_id (file (disk i')) None = Some (Ok i'') ∧ ∀ t' k, now ≤ t' → look t' i'' k = None.
Proof.
  intros Ho Hid Hc Hp Hnow Hid' Hcl. destruct (history_ok o id t h Ho Hid Hc Hp) as (cs & Hlog).
  pose proof (history_all _ _ _ _ _ Hlog) as Hi.
  destruct (reset_ok _ _ _ _ id' Hi Hcl Hid') as (i' & E & Hi' & Ecf & Hl & Hf). exists i'. split; [exact E|]. split; [exact Hl|].
  destruct (history_crash o id' t [] FILE_HEADER_LEN now new_id) as (j & Hj & _ & i'' & Eo & Hl''); try done.
  { pose proof (last_clock_ge h t Hc). simpl. lia. }
  exists i''. assert (take (Z.to_nat FILE_HEADER_LEN) (file (disk (run [] (created o id')))) = file (disk i')) as Ef by done.
  rewrite Ef in Eo. split; [exact Eo|]. intros t' k Ht'. rewrite Hl'' by done. by rewrite take_nil.
Qed.

(** C6: opening with a hint is opening without. Take a hint written at any
    point of a history of what clients may ask for, and the file of the
    history cut anywhere after that point: both give a workspace in which
    clients see the same. The index the hint is written from fits its
    format: the length of the data and the number of keys are of 64 bits,
    the sizes of each key and value of 32, its records lie before the end of
    the data, the whole is no larger than a value may be, and when
    encryption is required every entry is encrypted. What clients ask is
    what eop_pre says: values that their encoding gives back, keys that are
    texts, deadlines that the format keeps (none, or in milliseconds from
    March 1973 on: expiry_to_ms takes a smaller one for seconds), timestamps
    of 64 bits, a clock that does not go back, and batches only when the
    workspace is not encrypted (sealed_batch_lost shows what opening again
    does with a batch of an encrypted one). *)
Theorem hint_opens_the_same o id t h m n now new_id nn c data :
  opts_ok o → in_u 64 id → clocks t h → Forall (eop_pre (o_keys o)) h → last_clock t h ≤ now → (m ≤ length h)%nat →
  let i0 := run (take m h) (created o id) in
  let f := take (Z.to_nat n) (file (disk (run h (created o id)))) in
  file_len i0 ≤ n → in_u 64 (file_len i0) → in_u 64 (Z.of_nat (base.size (index (mem i0)))) →
  map_Forall (hint_entry_ok (file_len i0)) (index (mem i0)) → len (hint_body (index (mem i0))) ≤ MAX_VALUE_LEN →
  keys_ok (o_keys o) nn →
  (o_require o = true → o_keys o ≠ None ∧ map_Forall (fun _ e => has_flag (e_flags e) FLAG_ENCRYPTED = true) (index (mem i0))) →
  write_hint (file_id (disk i0)) (file_len i0) (index (mem i0)) c (o_keys o) (Some nn) = Ok data →
  ∃ i1 i2, open_ o now new_id f (Some data) = Some (Ok i1) ∧ open_ o now new_id f None = Some (Ok i2) ∧
    ∀ t' k, now ≤ t' → look t' i1 k = look t' i2 k.
Proof.
  intros Ho Hid Hc Hp Hnow Hmh i0 f Hn Hl64 Hs64 Hok Hlen Hnn Hreq Hw. destruct (history_ok o id t h Ho Hid Hc Hp) as (cs & Hlog).
  pose proof (hl_inv _ _ _ _ _ Hlog m Hmh) as Hi0. fold i0 in Hi0. pose proof (history_all _ _ _ _ _ Hlog) as Hi.
  pose proof (inv_file_len _ _ _ _ Hi0) as Lf0. pose proof (recs_len_nonneg (List.concat (take m cs))).
  destruct (reopen_scan o id t h cs n now new_id Ho Hid Hc Hlog Hnow ltac:(lia)) as (i2 & Eo2 & Ecf2 & Hi2).
  assert (file_id (disk i0) = id) as Eid by apply keeps_run. rewrite Eid in Hw.
  destruct (hint_read (o_keys o) (o_keys o) nn id (file_len i0) (index (mem i0)) c) as (data' & Hw' & c' & Hr); try done.
  { destruct Ho as [_ Hk]. by destruct (o_keys o). }
  rewrite Hw in Hw'. injection Hw' as <-.
  set (l := List.map (fun ke => (ke.1, set_version 0 ke.2)) (entries (index (mem i0)))) in *.
  destruct (load_hint (∅, 0) l) as [idx0 seq0] eqn:El.
  assert (∀ scn, agrees (last_clock t (take m h)) (index (mem i0)) scn → agrees (last_clock t (take m h)) idx0 scn ∧ versions_le (idx0, seq0)) as Hload.
  { intros scn Ha. apply load_entries_agrees in Ha. fold l in Ha. by rewrite El in Ha. }
  destruct (reopen_from o id t h cs m n now new_id (Some data) idx0 seq0) as (i1 & Eo1 & Ecf1 & Hi1); try done.
  - unfold scan_from. rewrite Hr. cbn [h_file_id h_data_len h_entries].
    assert (hint_trusted o {| h_file_id := id; h_data_len := file_len i0; h_compression := c';
      h_encrypted := match o_keys o with Some _ => true | None => false end; h_entries := l |} = true) as ->.
    { unfold hint_trusted. destruct (o_require o); [|done]. destruct (Hreq eq_refl) as [Hk Hfl]. simpl.
      destruct (o_keys o) as [ks|]; [|done]. simpl. apply forallb_forall. intros [k e] Hin. subst l.
      apply in_map_iff in Hin as ([k1 e1] & E & Hin). injection E as <- <-. apply list_elem_of_In, elem_of_entries in Hin.
      exact (Hfl k1 e1 Hin). }
    rewrite Z.eqb_refl. fold i0 in Lf0 |- *. assert (file_len i0 ≤ len f) as Hlf.
    { pose proof (inv_file_len _ _ _ _ Hi) as Lf. rewrite <- (take_drop m cs), List.concat_app, recs_len_app in Lf.
      pose proof (recs_len_nonneg (List.concat (drop m cs))). subst f. unfold file_len in Lf.
      assert (file_len i0 ≤ len (file (disk (run h (created o id))))) as Hle by lia.
      revert Hn Hle. generalize (file_len i0). unfold len. rewrite length_take. lia. }
    fold f. rewrite (leb_t _ _ Hlf), leb_t by lia. cbn [andb]. by rewrite El.
  - exact (proj2 (Hload _ (iv_agree _ _ _ _ _ Hi0))).
  - intros scn Ha. by apply Hload.
  - exists i1, i2. split; [exact Eo1|]. split; [exact Eo2|]. intros t' k Ht'.
    by apply (look_of_log (o_require o) now now (committed (n - FILE_HEADER_LEN) (List.filter nonempty cs))); [..|congruence|lia|lia].
Qed.
End spec.
Definition sample_opts : EngineOptions := {| o_compression := CLz4; o_cache_bytes := 1000; o_keys := None; o_require := false |}.
Definition sealed_opts : EngineOptions :=
  {| o_compression := CLz4; o_cache_bytes := 1000; o_keys := Some (toy_keys 5); o_require := true |}.
Lemma sample_opts_ok : opts_ok sample_opts.
Proof. by split. Qed.
Lemma sealed_opts_ok : opts_ok sealed_opts.
Proof. split; [done|]. by eexists. Qed.

(** A key that expires, a batch, a write that fails, a deletion. *)
Definition sample_history : list (Env * EOp) :=
  [ (at_ms T0, EPut (lit "a") (SText (lit "one")) (T0 + 5000) false 1700000000 true);
    (at_ms (T0 + 10), EBatch [Put (lit "b") (SPair 1 2) 0 true; Put (lit "c") (SText (lit "x")) 0 false; Del (lit "a")] None []);
    (full_disk (T0 + 20), EPut (lit "d") (SText (lit "lost")) 0 false 1700000000 true);
    (at_ms (T0 + 30), EDelete (lit "b"));
    (at_ms (T0 + 40), EGet (lit "c")) ].
Lemma sample_pre : Forall (eop_pre None) sample_history.
Proof.
  unfold sample_history. repeat (apply List.Forall_cons || apply List.Forall_nil); simpl; try done.
  - split; [done|]. apply sample_put_pre; [ascii|ascii|by vm_compute..].
  - split; [done|]. split; [|by vm_compute].
    repeat (apply List.Forall_cons || apply List.Forall_nil); simpl.
    + apply sample_put_pre; [ascii|done|by vm_compute..].
    + apply sample_put_pre; [ascii|ascii|by vm_compute..].
    + split; [apply ascii_valid; ascii|by vm_compute|by vm_compute].
  - split; [done|]. apply sample_put_pre; [ascii|ascii|by vm_compute..].
  - split; [done|]. split; [|by vm_compute]. split; [apply ascii_valid; ascii|by vm_compute|by vm_compute].
Qed.

Lemma sample_clocks : clocks T0 sample_history.
Proof. repeat split; vm_decide. Qed.

(** Cut one byte before the end of the deletion: the history without it. *)
Lemma crash_durability_witness :
  Forall (eop_pre None) sample_history ∧
  ∃ j i', open_ sample_opts (T0 + 50) None (take 166 (file (disk (run sample_history (created sample_opts 77))))) None = Some (Ok i') ∧
    (3 ≤ j ≤ 5)%nat ∧
    ∀ t' k, T0 + 50 ≤ t' → look t' i' k = run_view (take j sample_history) (created sample_opts 77) nothing t' k.
Proof.
  destruct (crash_durability sample_opts 77 T0 sample_history 166 (T0 + 50) None sample_opts_ok ltac:(by vm_compute) sample_clocks sample_pre
    ltac:(by vm_compute) ltac:(vm_decide)) as (j & Hj & Hm & i' & Ho & Hl).
  split; [exact sample_pre|]. exists j, i'. split; [exact Ho|]. split; [|exact Hl]. split; [|exact Hj].
  apply Hm; [simpl; lia|vm_decide].
Defined.

Lemma engine_refines_map_witness :
  Forall (eop_pre None) sample_history ∧
  ∀ t' k, T0 + 40 ≤ t' → look t' (run sample_history (created sample_opts 77)) k =
    run_view sample_history (created sample_opts 77) nothing t' k.
Proof.
  split; [exact sample_pre|].
  exact (engine_refines_map sample_opts 77 T0 sample_history sample_opts_ok ltac:(by vm_compute) sample_clocks sample_pre).
Defined.
Lemma get_reads_history_witness :
  Forall (eop_pre None) sample_history ∧
  ∃ r, (get_ (at_ms (T0 + 50)) (lit "c") (run sample_history (created sample_opts 77))).1 = Ok r ∧
    match r with Some (v, e) => Some (v, e_expires_at e) | None => None end = Some (SText (lit "x"), 0).
Proof.
  split; [exact sample_pre|].
  exact (get_reads_history sample_opts 77 T0 sample_history (at_ms (T0 + 50)) (lit "c") sample_opts_ok ltac:(by vm_compute)
    sample_clocks sample_pre ltac:(vm_decide)).
Defined.

(** The hint of the second operation, the file of them all. *)
Lemma sample_hint_entries : map_Forall (hint_entry_ok 138) (index (mem (run (take 2 sample_history) (created sample_opts 77)))).
Proof.
  apply map_Forall_to_list. set (l := map_to_list _). vm_compute in l. subst l.
  repeat apply List.Forall_cons; [..|apply List.Forall_nil];
    (split; cbn; [unfold is_scalar; apply List.Forall_cons; [lia|apply List.Forall_nil]|..]; unfold is_byte, in_u, in_i64, i64_min, i64_max; vm_decide).
Qed.
Lemma hint_opens_the_same_witness :
  let i0 := run (take 2 sample_history) (created sample_opts 77) in
  map_Forall (hint_entry_ok (file_len i0)) (index (mem i0)) ∧
  ∃ data i1 i2, open_ sample_opts (T0 + 50) None (take 166 (file (disk (run sample_history (created sample_opts 77))))) (Some data) = Some (Ok i1) ∧
    open_ sample_opts (T0 + 50) None (take 166 (file (disk (run sample_history (created sample_opts 77))))) None = Some (Ok i2) ∧
    ∀ t' k, T0 + 50 ≤ t' → look t' i1 k = look t' i2 k.
Proof.
  intros i0. assert (file_len i0 = 138) as Hl by vm_decide.
  assert (map_Forall (hint_entry_ok (file_len i0)) (index (mem i0))) as Hok by (rewrite Hl; exact sample_hint_entries).
  split; [exact Hok|].
  assert (∃ data, write_hint (file_id (disk i0)) (file_len i0) (index (mem i0)) CLz4 None (Some toy_nonce) = Ok data) as [data Hw]
    by (eexists; vm_compute; reflexivity).
  exists data.
  apply (hint_opens_the_same sample_opts 77 T0 sample_history 2 166 (T0 + 50) None toy_nonce CLz4 data sample_opts_ok).
  - unfold in_u. vm_decide.
  - exact sample_clocks.
  - exact sample_pre.
  - vm_decide.
  - vm_decide.
  - vm_decide.
  - unfold in_u. vm_decide.
  - unfold in_u. vm_decide.
  - exact Hok.
  - vm_decide.
  - exact I.
  - discriminate.
  - exact Hw.
Defined.

Definition shout (v : SampleVal) : result KivaError (option SampleVal * unit) := Ok (Some (SText (lit "y")), tt).
Lemma update_with_atomic_witness :
  let i := run sample_history (created sample_opts 77) in
  Forall (eop_pre None) sample_history ∧
  (update_with (at_ms (T0 + 50)) (lit "c") shout i).1 = Ok (Some (tt, true)) ∧
  ∀ t' k, T0 + 50 ≤ t' → look t' (update_with (at_ms (T0 + 50)) (lit "c") shout i).2 k =
    if decide (lit "c" = k) then fresh t' (SText (lit "y")) 0 else look t' i k.
Proof.
  intros i. split; [exact sample_pre|].
  assert ((update_with (at_ms (T0 + 50)) (lit "c") shout i).1 = Ok (Some (tt, true))) as E by (vm_compute; reflexivity).
  assert (look (T0 + 50) i (lit "c") = Some (SText (lit "x"), 0)) as El by (vm_compute; reflexivity).
  split; [exact E|].
  assert (nonce_pre (o_keys sample_opts) (nonce (at_ms (T0 + 50)) 0)) as Hn by (intros x _; exact I).
  assert (∀ v exp new out, look (T0 + 50) i (lit "c") = Some (v, exp) → shout v = Ok (Some new, out) → put_pre (lit "c") new exp (now_secs (at_ms (T0 + 50)))) as Hf.
  { intros v exp new out E1 E2. rewrite El in E1. injection E1 as <- <-. injection E2 as <- <-.
    apply sample_put_pre; [ascii|ascii|unfold in_i64, i64_min, i64_max; vm_decide..]. }
  pose proof (update_with_atomic sample_opts 77 T0 sample_history (at_ms (T0 + 50)) (lit "c") shout sample_opts_ok
    ltac:(unfold in_u; vm_decide) sample_clocks sample_pre ltac:(vm_decide) Hn Hf) as Hu.
  fold i in Hu. change (now_ms (at_ms (T0 + 50))) with (T0 + 50) in Hu. rewrite El in Hu.
  destruct (update_with _ _ _ _) as [r i']. cbn [fst snd] in *. subst r. exact (proj2 Hu).
Defined.
Lemma reset_empties_witness :
  closed (disk (run sample_history (created sample_opts 77))) = false ∧
  ∃ i', reset (Some 78) (run sample_history (created sample_opts 77)) = (Ok tt, i') ∧ (∀ t' k, look t' i' k = None).
Proof.
  assert (closed (disk (run sample_history (created sample_opts 77))) = false) as Hc by (vm_compute; reflexivity).
  split; [exact Hc|].
  destruct (reset_empties sample_opts 77 T0 sample_history 78 (T0 + 50) None sample_opts_ok ltac:(unfold in_u; vm_decide)
    sample_clocks sample_pre ltac:(vm_decide) ltac:(unfold in_u; vm_decide) Hc) as (i' & E & Hl & _).
  exists i'. split; [exact E|exact Hl].
Defined.
Lemma purge_expired_exact_witness :
  let i := run (take 1 sample_history) (created sample_opts 77) in
  mem_ok (mem i) ∧ mem (recount (purge_expired (T0 + 6000) i).2) = mem (purge_expired (T0 + 6000) i).2.
Proof.
  intros i. destruct (history_ok sample_opts 77 T0 sample_history sample_opts_ok ltac:(unfold in_u; vm_decide) sample_clocks sample_pre) as (cs & Hlog).
  pose proof (iv_mem _ _ _ _ _ (hl_inv _ _ _ _ _ Hlog 1%nat ltac:(vm_decide))) as Hm. split; [exact Hm|].
  exact (proj1 (proj2 (purge_expired_exact (T0 + 6000) i Hm))).
Defined.

(** ** What expiry forgets *)
Definition put_one (t : Z) (s : str) (exp : Z) : Env * EOp := (at_ms t, EPut (lit "a") (SText s) exp false 1700000000 true).
(** A transaction begins; another session overwrites "a" with a value that
    lives for a second, and the second passes. *)
Definition before_txn : Inner := run [put_one T0 (lit "one") 0; (at_ms (T0 + 10), ETxnBegin)] (created sample_opts 77).
Definition after_others : Inner := run [put_one (T0 + 20) (lit "two") (T0 + 1020); (at_ms (T0 + 2000), EPurge)] before_txn.

(** The conflict check forgets a write whose value expired: a transaction
    that saw "a" commits its own value of "a" although another session wrote
    "a" after it began, where a write without a deadline is refused. *)
Theorem expired_write_not_a_conflict :
  let begin := (txn_begin before_txn).1 in
  let ops := [Put (lit "a") (SText (lit "mine")) 0 false] in
  (step (at_ms (T0 + 20)) (EPut (lit "a") (SText (lit "two")) (T0 + 1020) false 1700000000 true) before_txn).1 = true ∧
  (apply_batch (at_ms (T0 + 3000)) ops (Some begin) after_others).1 = Ok tt ∧
  (apply_batch (at_ms (T0 + 3000)) ops (Some begin) (run [put_one (T0 + 20) (lit "two") 0; (at_ms (T0 + 2000), EPurge)] before_txn)).1
    = Err (Conflict "key '{key}' was modified by another session").
Proof. by vm_compute. Qed.
