(* ===== verification/Session.v ===== *)
(** * [src/session.rs]: what a session may do, and its transactions

    A session works in one workspace, whose engine is [here]; it may watch keys
    of another one ([elsewhere]). What the accounts stored now say of the
    session's user, whether this node follows a master, and whether the memory
    bound leaves room for new keys ([Engine::check_room], which changes no
    data) are arguments. Counters and the audit are left out. *)
From S2P Require Import Prelude Utf8 Util Maps Types Compress Format Crypt Log Cache SecIndex Engine EngineMem EngineOk EngineThm EngineBatch Kdoc Auth.
Open Scope Z_scope.

Inductive Need := NNone | NRead | NWrite | NOwner | NAdmin | NLogin.
#[export] Instance need_eq_dec : EqDecision Need.
Proof. solve_decision. Defined.
Record UserCtx := { uc_name : str; uc_role : Role }.
Record Meta := { m_expires_at : Z; m_msgpack : bool; m_timestamp : Z }.

Section session.
  Context `{Aead} `{Crc} `{Codecs} `{Leaves} `{!Values}.

Inductive TxOp := TPut (value : Val) (expires_at : Z) (msgpack : bool) | TDel.
Abbreviation Writes := (gmap str TxOp).
Record Txn := { t_id : Z; begin_seq : Z; writes : Writes; savepoints : list (str * Writes) }.
Record Session := {
  user : option UserCtx;
  ws : str;
  ws_priv : option Priv;
  txn : option Txn;
  wrote : bool;
  s_watch : option (str * list WatchedKey);
}.
(** Outside of the session: the clock and the disk, the replication, the
    memory bound, the grants stored now, whether a key's value is msgpack. *)
Record Outside := { o_env : Env; o_replica : bool; o_room : list str → bool; o_manages : result KivaError bool }.
Record World := { here : Inner; elsewhere : gmap str Inner; sess : Session; next_id : Z }.
Definition set_sess (s : Session) (w : World) : World := {| here := here w; elsewhere := elsewhere w; sess := s; next_id := next_id w |}.
Definition set_here (i : Inner) (w : World) : World := {| here := i; elsewhere := elsewhere w; sess := sess w; next_id := next_id w |}.
Definition with_txn (t : option Txn) (s : Session) : Session :=
  {| user := user s; ws := ws s; ws_priv := ws_priv s; txn := t; wrote := wrote s; s_watch := s_watch s |}.
Definition with_wrote (b : bool) (s : Session) : Session :=
  {| user := user s; ws := ws s; ws_priv := ws_priv s; txn := txn s; wrote := b; s_watch := s_watch s |}.
Definition with_watch (l : option (str * list WatchedKey)) (s : Session) : Session :=
  {| user := user s; ws := ws s; ws_priv := ws_priv s; txn := txn s; wrote := wrote s; s_watch := l |}.

Definition SM (A : Type) : Type := World → result KivaError A * World.
#[export] Instance SM_ret : MRet SM := fun A a w => (Ok a, w).
#[export] Instance SM_bind : MBind SM := fun A B f m w =>
  match m w with (Ok a, w) => f a w | (Err e, w) => (Err e, w) end.
Definition s_lift {A} (r : result KivaError A) : SM A := fun w => (r, w).
(** A call to the engine of the workspace. *)
Definition engine {A} (m : M A) : SM A := fun w => let '(r, i) := m (here w) in (r, set_here i w).
Definition on_sess (f : Session → Session) : SM unit := fun w => (Ok tt, set_sess (f (sess w)) w).
Definition get_sess : SM Session := fun w => (Ok (sess w), w).
Definition refuse {A} (e : KivaError) : SM A := s_lift (Err e).

(** ** Permissions *)
Definition check_of (o : Outside) (s : Session) (need : Need) : result KivaError unit :=
  if bool_decide (need = NNone) then Ok tt
  else
    match user s with
    | None => Err (Denied "authentication required. Use: auth <user> <password>")
    | Some u =>
      if (bool_decide (need = NRead) || bool_decide (need = NWrite) || bool_decide (need = NOwner)) && bool_decide (ws_priv s = None)
      then Err (Denied "you are in no workspace: 'workspace list' shows the ones you can use, 'workspace switch <name>' enters one")
      else
        match need with
        | NAdmin => if negb (bool_decide (uc_role u = Admin)) then Err (Denied "this command requires the admin role") else Ok tt
        | NOwner =>
          if negb (bool_decide (uc_role u = Admin)) then
            if bool_decide (uc_role u = Viewer) then Err (Denied "the viewer role is read-only")
            else
              m ← o_manages o;
              if m : bool then Ok tt else Err (Denied "this command requires the admin role, or write access to every workspace of project '{p}'")
          else Ok tt
        | NWrite =>
          if bool_decide (uc_role u = Viewer) then Err (Denied "the viewer role is read-only")
          else if negb (bool_decide (ws_priv s = Some PWrite)) then Err (Denied "you only have read access to workspace '{}'")
          else Ok tt
        | _ => Ok tt
        end
    end.
Definition check (o : Outside) (need : Need) : SM unit := s ← get_sess; s_lift (check_of o s need).
Definition writable (o : Outside) : SM unit :=
  _ ← check o NWrite;
  if o_replica o then refuse (ReadOnly "this node is a replica of {master}; write to the master or run 'replica promote'") else mret tt.

(** ** Keys *)
Definition buffered (s : Session) (key : str) : option TxOp := t ← txn s; writes t !! key.
Definition kv_get (o : Outside) (key : str) : SM (option (Val * Meta)) :=
  _ ← check o NRead;
  s ← get_sess;
  match buffered s key with
  | Some (TPut v exp mp) => mret (Some (v, {| m_expires_at := exp; m_msgpack := mp; m_timestamp := 0 |}))
  | Some TDel => mret None
  | None =>
    r ← engine (get_ (o_env o) key);
    mret ((fun ve : Val * Entry => (ve.1, {| m_expires_at := e_expires_at ve.2; m_msgpack := bool_decide (doc_enc ve.2 = EncMsgPack); m_timestamp := e_timestamp ve.2 |})) <$> r)
  end.
Definition kv_type (o : Outside) (key : str) : SM (option Type_) :=
  _ ← check o NRead;
  s ← get_sess;
  match buffered s key with
  | Some (TPut v _ _) => mret (Some (v_ty v))
  | Some TDel => mret None
  | None => e ← engine (meta (o_env o) key); mret (e_ty <$> e)
  end.
Definition kv_exists (o : Outside) (key : str) : SM bool := t ← kv_type o key; mret (match t with Some _ => true | None => false end).
Definition put_keys (ops : list BatchOp) : list str := List.flat_map (fun op => match op with Put k _ _ _ => [k] | Del _ => [] end) ops.
Definition check_room (o : Outside) (ks : list str) : SM unit :=
  if o_room o ks then mret tt else refuse (Other "OOM: this workspace reached its memory bound ({} of {} used), so new keys are refused").
(** What an operation leaves in the buffer; the operations before one that
    is refused stay in it. *)
Fixpoint buffer (ops : list BatchOp) (w : Writes) : result KivaError unit * Writes :=
  match ops with
  | [] => (Ok tt, w)
  | Put k v exp mp :: ops =>
    if bool_decide (k = []) || (MAX_KEY_LEN <? str_len k) then (Err (Invalid "invalid key length"), w)
    else buffer ops (<[k := TPut v exp mp]> w)
  | Del k :: ops => buffer ops (<[k := TDel]> w)
  end.
Definition with_writes (ws : Writes) (t : Txn) : Txn := {| t_id := t_id t; begin_seq := begin_seq t; writes := ws; savepoints := savepoints t |}.
Definition apply (o : Outside) (ops : list BatchOp) : SM unit :=
  _ ← writable o;
  s ← get_sess;
  match txn s with
  | Some t =>
    let '(r, ws) := buffer ops (writes t) in
    _ ← on_sess (with_txn (Some (with_writes ws t)));
    s_lift r
  | None =>
    _ ← check_room o (put_keys ops);
    _ ← on_sess (with_wrote true);
    match ops with
    | [Put k v exp mp] => _ ← engine (put_ (o_env o) k v exp mp); mret tt
    | [Del k] => _ ← engine (delete_ (o_env o) k); mret tt
    | _ => engine (apply_batch (o_env o) ops None)
    end
  end.
Definition kv_put (o : Outside) (key : str) (value : Val) (expires_at : Z) (msgpack : bool) : SM unit :=
  apply o [Put key value expires_at msgpack].
Definition kv_del (o : Outside) (key : str) : SM bool :=
  existed ← kv_exists o key;
  _ ← (if existed : bool then apply o [Del key] else mret tt);
  mret existed.
(** Read, change and write; in one step of the engine out of a transaction. *)
Definition kv_modify {T} (o : Outside) (key : str) (f : Val → result KivaError (option Val * T)) : SM (option T) :=
  s ← get_sess;
  match txn s with
  | Some _ =>
    r ← kv_get o key;
    match r with
    | None => mret None
    | Some (value, m) =>
      '(new, out) ← s_lift (f value);
      _ ← (match new with Some v => kv_put o key v (m_expires_at m) (m_msgpack m) | None => mret tt end);
      mret (Some out)
    end
  | None =>
    _ ← writable o;
    r ← engine (update_with (o_env o) key f);
    match r with
    | None => mret None
    | Some (out, w) => _ ← (if w : bool then on_sess (with_wrote true) else mret tt); mret (Some out)
    end
  end.

(** ** Transactions *)
Definition begin (o : Outside) : SM Z :=
  _ ← writable o;
  s ← get_sess;
  match txn s with
  | Some _ => refuse (Invalid "a transaction is already active")
  | None => fun w =>
    let id := next_id w in
    let '(seq, i) := txn_begin (here w) in
    let t := {| t_id := id; begin_seq := seq; writes := ∅; savepoints := [] |} in
    (Ok id, {| here := i; elsewhere := elsewhere w; sess := with_txn (Some t) (sess w); next_id := id + 1 |})
  end.
Definition txop (ko : str * TxOp) : BatchOp := match ko.2 with TPut v exp mp => Put ko.1 v exp mp | TDel => Del ko.1 end.
(** The buffered writes, in the order of their keys. *)
Definition commit_ops (t : Txn) : list BatchOp := List.map txop (entries (writes t)).
Definition end_txn (w : World) : World := set_here (txn_end (here w)) w.
(** Watched keys of the same workspace are checked with the writes, those of
    another one just before. *)
Definition watched (o : Outside) (w : World) : list WatchedKey * option str * World :=
  match s_watch (sess w) with
  | None => ([], None, w)
  | Some (name, l) =>
    if bool_decide (name = ws (sess w)) then (l, None, w)
    else
      match elsewhere w !! name with
      | None => ([], None, w)
      | Some i =>
        let '(c, i) := changed (now_ms (o_env o)) l i in
        ([], c, {| here := here w; elsewhere := <[name := i]> (elsewhere w); sess := sess w; next_id := next_id w |})
      end
  end.
Definition commit (o : Outside) : SM Z := fun w0 =>
  match txn (sess w0) with
  | None => (Err (Invalid "no active transaction"), w0)
  | Some t =>
    let ops := commit_ops t in
    let '(same, other, w) := watched o (set_sess (with_txn None (sess w0)) w0) in
    let '(r, w) := (_ ← writable o; check_room o (put_keys ops)) w in
    let '(r, w) :=
      match r with
      | Err e => (Err e, w)
      | Ok _ =>
        match other with
        | Some _ => (Err (Conflict "the watched key '{}' changed"), w)
        | None => engine (apply_batch_watched (o_env o) ops (Some (begin_seq t)) same) w
        end
      end in
    let w := end_txn w in
    match r with
    | Err e => (Err e, w)
    | Ok _ => (Ok (len ops), set_sess (with_wrote (0 <? len ops) (sess w)) w)
    end
  end.
Definition rollback : SM bool := fun w =>
  match txn (sess w) with
  | Some _ => (Ok true, end_txn (set_sess (with_txn None (sess w)) w))
  | None => (Ok false, w)
  end.
Definition savepoint (name : str) : SM unit :=
  s ← get_sess;
  match txn s with
  | None => refuse (Invalid "no active transaction")
  | Some t =>
    on_sess (with_txn (Some {| t_id := t_id t; begin_seq := begin_seq t; writes := writes t; savepoints := savepoints t ++ [(name, writes t)] |}))
  end.
(** The last savepoint of a name: its place and its writes. *)
Fixpoint last_named (name : str) (l : list (str * Writes)) (i : nat) : option (nat * Writes) :=
  match l with
  | [] => None
  | (n, w) :: l =>
    match last_named name l (S i) with
    | Some r => Some r
    | None => if bool_decide (n = name) then Some (i, w) else None
    end
  end.
Definition rollback_to (name : str) : SM unit :=
  s ← get_sess;
  match txn s with
  | None => refuse (Invalid "no active transaction")
  | Some t =>
    match last_named name (savepoints t) 0 with
    | None => refuse (NotFound "savepoint '{name}' does not exist")
    | Some (pos, w) =>
      on_sess (with_txn (Some {| t_id := t_id t; begin_seq := begin_seq t; writes := w; savepoints := take (pos + 1) (savepoints t) |}))
    end
  end.

(** ** Watched keys *)
Definition unwatch : SM unit := fun w =>
  match s_watch (sess w) with
  | None => (Ok tt, w)
  | Some (name, _) =>
    let w := set_sess (with_watch None (sess w)) w in
    if bool_decide (name = ws (sess w)) then (Ok tt, end_txn w)
    else
      (Ok tt, {| here := here w; elsewhere := alter txn_end name (elsewhere w); sess := sess w; next_id := next_id w |})
  end.
Definition watch_keys (o : Outside) (ks : list str) : SM unit := fun w =>
  let start w :=
    let '(l, i) := watch (now_ms (o_env o)) ks (here w) in
    let w := set_here i w in
    (Ok tt, set_sess (with_watch (Some (ws (sess w), l)) (sess w)) w) in
  match s_watch (sess w) with
  | Some (name, l) =>
    if bool_decide (name = ws (sess w)) then
      (* Watching here already: the engine holds one watch already. *)
      let '(more, i) := watch (now_ms (o_env o)) ks (here w) in
      (Ok tt, set_sess (with_watch (Some (name, l ++ more)) (sess w)) (set_here (txn_end i) w))
    else start (unwatch w).2
  | None => start w
  end.
End session.
