(* ===== verification/SessionThm.v ===== *)
(** * Transactions of a session: isolated until they commit, and then as the
    session saw them *)
From S2P Require Import Prelude Utf8 Util Maps Types Compress Format Crypt Log Cache SecIndex Engine EngineMem EngineOk EngineThm EngineBatch Recovery History Sample Kdoc Auth Session Spec.
Open Scope Z_scope.

Section thm.
  Context `{Aead} `{Crc} `{Codecs} `{Leaves} `{!Values}.

(** What a session sees of a key at a time: its buffered write, else what
    the engine shows. *)
Definition overlay (t : Z) (o : option TxOp) (below : option (Val * Z)) : option (Val * Z) :=
  match o with Some (TPut v exp _) => fresh t v exp | Some TDel => None | None => below end.
Definition session_look (t : Z) (w : World) (k : str) : option (Val * Z) := overlay t (buffered (sess w) k) (look t (here w) k).

(** What happens during a transaction: operations of the session, and of
    other clients of the engine. *)
Inductive SOp :=
| SGet (key : str)
| SApply (ops : list BatchOp)
| SSavepoint (name : str)
| SRollbackTo (name : str)
| SOther (o : EOp).
Definition sstep (o : Outside) (op : SOp) (w : World) : World :=
  match op with
  | SGet k => (kv_get o k w).2
  | SApply ops => (apply o ops w).2
  | SSavepoint n => (savepoint n w).2
  | SRollbackTo n => (rollback_to n w).2
  | SOther e => set_here (step (o_env o) e (here w)).2 w
  end.
Fixpoint srun (h : list (Outside * SOp)) (w : World) : World := match h with [] => w | (o, op) :: h => srun h (sstep o op w) end.
(** What the others made of a view. *)
Fixpoint outer_view (h : list (Outside * SOp)) (w : World) (v : View) : View :=
  match h with
  | [] => v
  | (o, op) :: h =>
    outer_view h (sstep o op w)
      (match op with SOther e => if (step (o_env o) e (here w)).1 then eop_view e v else v | _ => v end)
  end.
Fixpoint sclocks (t : Z) (h : list (Outside * SOp)) : Prop :=
  match h with [] => True | (o, _) :: h => t ≤ now_ms (o_env o) ∧ sclocks (now_ms (o_env o)) h end.
Fixpoint slast (t : Z) (h : list (Outside * SOp)) : Z := match h with [] => t | (o, _) :: h => slast (now_ms (o_env o)) h end.

Context `{!AeadLaws} `{!CodecsLaws} `{!ValuesLaws}.
(** Writes the engine stores, whenever it does. *)
Definition storable (op : BatchOp) : Prop := ∀ now, in_i64 now → op_pre now op.
Definition sop_pre (x : Outside * SOp) : Prop :=
  match x.2 with
  | SApply ops => Forall storable ops
  | SOther e => eop_pre None (o_env x.1, e)
  | _ => True
  end.
Definition writes_ok (m : gmap str TxOp) : Prop := ∀ k x, m !! k = Some x → storable (txop (k, x)).
Definition txn_ok (t : Txn) : Prop := writes_ok (writes t) ∧ Forall (fun nw => writes_ok nw.2) (savepoints t).

Lemma writes_ok_insert m k x : writes_ok m → storable (txop (k, x)) → writes_ok (<[k := x]> m).
Proof. intros Hm Hx k' x' [[<- <-]|[_ Hk]]%lookup_insert_Some; [done|by apply Hm]. Qed.
Lemma buffer_ok ops : ∀ m, Forall storable ops → writes_ok m → writes_ok (buffer ops m).2.
Proof.
  induction ops as [|[k v e mp|k] ops IH]; intros m Ho Hm; [done|..]; apply Forall_cons in Ho as [Hx Ho]; cbn [buffer].
  - destruct (_ || _); [done|]. apply IH; [done|]. by apply writes_ok_insert.
  - apply IH; [done|]. by apply writes_ok_insert.
Qed.
Lemma last_named_ok name l : ∀ i pos w, Forall (fun nw => writes_ok nw.2) l → last_named name l i = Some (pos, w) → writes_ok w.
Proof.
  induction l as [|[n w0] l IH]; intros i pos w Hl; [done|]. apply Forall_cons in Hl as [Hw Hl]. cbn [last_named].
  destruct (last_named name l (S i)) as [[p1 w1]|] eqn:E; [intros [= <- <-]; by eapply IH|]. case_bool_decide; [|done]. by intros [= <- <-].
Qed.
Lemma elem_entries_storable m : writes_ok m → Forall storable (List.map txop (entries m)).
Proof.
  intros Hm. apply Forall_forall. intros op Hop. apply list_elem_of_In, in_map_iff in Hop as ([k x] & <- & Hin).
  apply list_elem_of_In, elem_of_entries in Hin. by apply Hm.
Qed.
Lemma check_pure o need w : (check o need w).2 = w.
Proof. done. Qed.
Lemma writable_pure o w : ∃ r, writable o w = (r, w).
Proof.
  unfold writable, check, refuse, s_lift, get_sess. cbv [mbind SM_bind]. destruct (check_of o (sess w) NWrite); [|eexists; reflexivity].
  destruct (o_replica o); eexists; reflexivity.
Qed.
Lemma kv_get_world o k w : (kv_get o k w).2 = w ∨ (kv_get o k w).2 = set_here (get_ (o_env o) k (here w)).2 w.
Proof.
  unfold kv_get, check, get_sess, s_lift, engine. cbv [mbind SM_bind mret SM_ret]. destruct (check_of o (sess w) NRead); [|by left].
  destruct (buffered (sess w) k) as [[v e mp|]|]; [by left|by left|]. right. destruct (get_ (o_env o) k (here w)) as [[x|e] i]; done.
Qed.
Lemma apply_world o ops w t : txn (sess w) = Some t →
  (apply o ops w).2 = w ∨ (apply o ops w).2 = set_sess (with_txn (Some (with_writes (buffer ops (writes t)).2 t)) (sess w)) w.
Proof.
  intros Ht. unfold apply, get_sess, on_sess, s_lift. cbv [mbind SM_bind]. destruct (writable_pure o w) as [r ->]. destruct r; [|by left].
  right. rewrite Ht. by destruct (buffer ops (writes t)).
Qed.
Lemma savepoint_world n w t : txn (sess w) = Some t →
  (savepoint n w).2 = set_sess (with_txn (Some {| t_id := t_id t; begin_seq := begin_seq t; writes := writes t; savepoints := savepoints t ++ [(n, writes t)] |}) (sess w)) w.
Proof. intros Ht. unfold savepoint, get_sess, on_sess. cbv [mbind SM_bind]. by rewrite Ht. Qed.
Lemma rollback_to_world n w t : txn (sess w) = Some t →
  (rollback_to n w).2 = w ∨ ∃ pos m, last_named n (savepoints t) 0 = Some (pos, m) ∧
  (rollback_to n w).2 = set_sess (with_txn (Some {| t_id := t_id t; begin_seq := begin_seq t; writes := m; savepoints := take (pos + 1) (savepoints t) |}) (sess w)) w.
Proof.
  intros Ht. unfold rollback_to, get_sess, on_sess, refuse, s_lift. cbv [mbind SM_bind]. rewrite Ht.
  destruct (last_named n (savepoints t) 0) as [[pos m]|]; [|by left]. right. by exists pos, m.
Qed.
(** Where a transaction stands, for an engine whose log is [rs]. *)
Record during (now : Z) (rs : list Rec) (seq : Z) (w0 w : World) : Prop := {
  du_txn : ∃ t, txn (sess w) = Some t ∧ begin_seq t = seq ∧ txn_ok t;
  du_watch : s_watch (sess w) = s_watch (sess w0);
  du_ws : ws (sess w) = ws (sess w0);
  du_inv : inv false now rs [] (here w);
  du_conf : conf (here w) = conf (here w0);
}.
Lemma during_here now now' rs rs' seq w0 w i : during now rs seq w0 w → inv false now' rs' [] i → conf i = conf (here w) → during now' rs' seq w0 (set_here i w).
Proof. intros [Ht Hw Hs Hi Hc] Hi' Hc'. split; try done. cbn [set_here here]. congruence. Qed.
Lemma during_sess now now' rs seq w0 w t : during now rs seq w0 w → now ≤ now' → begin_seq t = seq → txn_ok t →
  during now' rs seq w0 (set_sess (with_txn (Some t) (sess w)) w).
Proof. intros [Ht Hw Hs Hi Hc] Hn Hb Hok. split; try done; [by exists t|]. by eapply inv_mono. Qed.
Lemma during_mono now now' rs seq w0 w : during now rs seq w0 w → now ≤ now' → during now' rs seq w0 w.
Proof. intros [Ht Hw Hs Hi Hc] Hn. split; try done. by eapply inv_mono. Qed.

Lemma sstep_ok now rs seq w0 w o op :
  during now rs seq w0 w → keys (conf (here w0)) = None → now ≤ now_ms (o_env o) → sop_pre (o, op) →
  ∃ c, during (now_ms (o_env o)) (rs ++ c) seq w0 (sstep o op w) ∧
  ∀ t' k, now_ms (o_env o) ≤ t' → look t' (here (sstep o op w)) k =
    (match op with SOther e => if (step (o_env o) e (here w)).1 then eop_view e (fun t => look t (here w)) else fun t => look t (here w)
     | _ => fun t => look t (here w) end) t' k.
Proof.
  intros Hd Hkeys Hnow Hpre. destruct (du_txn _ _ _ _ _ Hd) as (t & Ht & Hb & Hok & Hsp).
  assert (∀ w', during (now_ms (o_env o)) rs seq w0 w' → (∀ t' k, now_ms (o_env o) ≤ t' → look t' (here w') k = look t' (here w) k) →
    ∃ c, during (now_ms (o_env o)) (rs ++ c) seq w0 w' ∧ ∀ t' k, now_ms (o_env o) ≤ t' → look t' (here w') k = look t' (here w) k) as Hsame.
  { intros w' Hw' Hl. exists []. by rewrite app_nil_r. }
  pose proof (during_mono _ _ _ _ _ _ Hd Hnow) as Hm. destruct op as [k|ops|n|n|e]; cbn [sstep].
  - apply Hsame; destruct (kv_get_world o k w) as [->| ->]; try done;
      pose proof (get_ok_ false now rs (o_env o) (here w) k (du_inv _ _ _ _ _ Hd) Hnow) as Hg;
      destruct (get_ (o_env o) k (here w)) as [r i]; destruct Hg as (Hi & Hc & Hl & _); [by eapply during_here|exact Hl].
  - apply Hsame; destruct (apply_world o ops w t Ht) as [->| ->]; try done.
    eapply during_sess; [exact Hd|done|done|]. split; [by apply buffer_ok|done].
  - apply Hsame; rewrite (savepoint_world n w t Ht); [|done]. eapply during_sess; [exact Hd|done|done|].
    split; [done|]. cbn [savepoints]. apply Forall_app. split; [done|]. by apply Forall_singleton.
  - apply Hsame; destruct (rollback_to_world n w t Ht) as [->|(pos & m & El & ->)]; try done.
    eapply during_sess; [exact Hd|done|done|]. split; [by eapply last_named_ok|]. by apply Forall_take.
  - assert (keys (conf (here w)) = None) as Hkn by (by rewrite (du_conf _ _ _ _ _ Hd)).
    destruct (step_ok false now rs (o_env o) e (here w)) as (c & _ & Hs); [apply Hd|done|by rewrite Hkn|by rewrite Hkn|].
    exists c. destruct (step (o_env o) e (here w)) as [ok i']. destruct Hs as (Hi & Hc & Hl). split; [by eapply during_here|]. exact Hl.
Qed.

(** ** The commit *)
Lemma txop_effect k x : op_effect (txop (k, x)) = (k, match x with TPut v e _ => Some (v, e) | TDel => None end).
Proof. by destruct x. Qed.
Lemma batch_list t k l : ∀ w, NoDup l.*1 →
  (∀ x, (k, x) ∈ l → batch_view (List.map txop l) w t k = overlay t (Some x) (w t k)) ∧ (k ∉ l.*1 → batch_view (List.map txop l) w t k = w t k).
Proof.
  unfold batch_view. induction l as [|[k0 x0] l IH]; intros w Hd; [split; [intros x Hx; by apply elem_of_nil in Hx|done]|].
  apply NoDup_cons in Hd as [Hn Hd]. cbn [List.map apply_effects List.fold_left fmap list_fmap fst]. rewrite txop_effect. cbn [fst snd].
  destruct (IH (view_set k0 (match x0 with TPut v e _ => Some (v, e) | TDel => None end) w) Hd) as [IH1 IH2]. unfold apply_effects in IH1, IH2. split.
  - intros x [E|Hx]%elem_of_cons.
    + injection E as <- <-. rewrite IH2 by done. unfold view_set. rewrite decide_True by done. by destruct x.
    + rewrite (IH1 x Hx). by destruct x.
  - rewrite not_elem_of_cons. intros [Hne Hk]. rewrite IH2 by done. unfold view_set. by rewrite decide_False.
Qed.
Lemma overlay_batch m w t k : batch_view (List.map txop (entries m)) w t k = overlay t (m !! k) (w t k).
Proof.
  pose proof (batch_list t k (entries m) w (entries_NoDup m)) as [Hp1 Hp2]. destruct (m !! k) as [x|] eqn:E.
  - apply Hp1. by apply elem_of_entries.
  - apply Hp2. intros Hin. apply list_elem_of_fmap in Hin as ([k' x] & -> & Hin). apply elem_of_entries in Hin. cbn in E. congruence.
Qed.
Lemma txn_end_counts i : same_but_counts i (txn_end i).
Proof. unfold txn_end. destruct (_ =? 0); split; try done; simpl; lia. Qed.
(** What a commit runs before its batch keeps the engine. *)
Lemma commit_ok now rs seq w0 w o :
  during now rs seq w0 w → keys (conf (here w0)) = None → now ≤ now_ms (o_env o) → in_i64 (now_ms (o_env o)) →
  let '(r, w3) := commit o w in
  txn (sess w3) = None ∧
  (∃ c, inv false (now_ms (o_env o)) (rs ++ c) [] (here w3)) ∧
  ∀ t' k, now_ms (o_env o) ≤ t' → look t' (here w3) k = if is_ok r then session_look t' w k else look t' (here w) k.
Proof.
  intros Hd Hkeys Hnow H64. destruct (du_txn _ _ _ _ _ Hd) as (t & Ht & Hb & Hok & Hsp). pose proof (during_mono _ _ _ _ _ _ Hd Hnow) as Hm.
  unfold commit. rewrite Ht. cbv zeta. set (w1 := set_sess (with_txn None (sess w)) w).
  assert (∃ l c w2, watched o w1 = (l, c, w2) ∧ here w2 = here w ∧ txn (sess w2) = None) as (l & c & w2 & -> & Hh & Hn).
  { unfold watched. destruct (s_watch (sess w1)) as [[name l]|]; [|by eexists _, _, _]. case_bool_decide; [by eexists _, _, _|].
    destruct (elsewhere w1 !! name) as [i|]; [|by eexists _, _, _]. destruct (changed _ _ _) as [c i']. by eexists _, _, _. }
  assert (∃ r', (_ ← writable o; check_room o (put_keys (commit_ops t))) w2 = (r', w2)) as [r' ->].
  { unfold check_room, refuse, s_lift. cbv [mbind SM_bind]. destruct (writable_pure o w2) as [rw ->]. destruct rw; [|by eexists].
    destruct (o_room o _); by eexists. }
  assert (∀ i, inv false (now_ms (o_env o)) rs [] i → (∀ t' k, now_ms (o_env o) ≤ t' → look t' i k = look t' (here w) k) →
    (∃ c, inv false (now_ms (o_env o)) (rs ++ c) [] (txn_end i)) ∧ ∀ t' k, now_ms (o_env o) ≤ t' → look t' (txn_end i) k = look t' (here w) k) as Hfail.
  { intros i Hi Hl. split; [exists []; rewrite app_nil_r; eapply inv_counts; [apply txn_end_counts|done]|].
    intros t' k Ht'. rewrite (look_counts _ _ _ _ (txn_end_counts i)). by apply Hl. }
  destruct r' as [[]|e].
  2: { cbn [is_ok end_txn set_here here sess]. split; [done|]. rewrite Hh. by apply Hfail; [apply Hm|]. }
  destruct c as [c|].
  { cbn [is_ok end_txn set_here here sess]. split; [done|]. rewrite Hh. by apply Hfail; [apply Hm|]. }
  unfold engine. assert (keys (conf (here w2)) = None) as Hk2 by (by rewrite Hh, (du_conf _ _ _ _ _ Hd)).
  assert (Forall (op_pre (now_ms (o_env o))) (commit_ops t)) as Hops.
  { eapply Forall_impl; [by apply elem_entries_storable|]. intros op Hop. by apply Hop. }
  destruct (apply_batch_ok rs now (o_env o) (commit_ops t) (Some (begin_seq t)) l (here w2) Hk2) as (cs & _ & Hbatch); [rewrite Hh; apply Hd|done|done|done|].
  destruct (apply_batch_watched _ _ _ _ _) as [[[]|e] i']; destruct Hbatch as (Hi & Hc & Hl); cbn [is_ok end_txn set_here set_sess here sess with_wrote txn].
  - split; [done|]. split; [exists cs; eapply inv_counts; [apply txn_end_counts|done]|]. intros t' k Ht'.
    rewrite (look_counts _ _ _ _ (txn_end_counts i')), Hl, Hh by done. unfold commit_ops. rewrite overlay_batch. unfold session_look, buffered. by rewrite Ht.
  - split; [done|]. destruct Hl as [-> Hl]. rewrite app_nil_r in Hi. apply (Hfail i'); [done|]. intros t' k Ht'. by rewrite Hl, Hh.
Qed.

Lemma srun_ok seq w0 h : ∀ now rs w, during now rs seq w0 w → keys (conf (here w0)) = None → sclocks now h → Forall sop_pre h →
  ∃ c, during (slast now h) (rs ++ c) seq w0 (srun h w) ∧
  ∀ v : View, (∀ t' k, now ≤ t' → look t' (here w) k = v t' k) → ∀ t' k, slast now h ≤ t' → look t' (here (srun h w)) k = outer_view h w v t' k.
Proof.
  induction h as [|[o op] h IH]; intros now rs w Hd Hk Hc Hp; [exists []; rewrite app_nil_r; done|].
  destruct Hc as [Hn Hc]. apply Forall_cons in Hp as [Hop Hp]. destruct (sstep_ok _ _ _ _ _ o op Hd Hk Hn Hop) as (c1 & Hd1 & Hl1).
  destruct (IH _ _ _ Hd1 Hk Hc Hp) as (c2 & Hd2 & Hl2). exists (c1 ++ c2). rewrite app_assoc. split; [exact Hd2|].
  intros v Hv. cbn [srun outer_view slast]. apply Hl2. intros t' k Ht'. rewrite Hl1 by done.
  destruct op as [key|ops|n|n|e]; try (by apply Hv; lia). destruct (step (o_env o) e (here w)).1; [|by apply Hv; lia].
  destruct e; cbn [eop_view]; try (by apply Hv; lia); [| |].
  all: try (unfold view_set; destruct (decide _); [done|by apply Hv; lia]).
  unfold batch_view. apply apply_effects_ext. intros k'. apply Hv. lia.
Qed.
Lemma begin_world o w id w1 : begin o w = (Ok id, w1) →
  txn (sess w) = None ∧ here w1 = (txn_begin (here w)).2 ∧
  sess w1 = with_txn (Some {| t_id := next_id w; begin_seq := (txn_begin (here w)).1; writes := ∅; savepoints := [] |}) (sess w).
Proof.
  unfold begin, get_sess, refuse, s_lift. cbv [mbind SM_bind]. destruct (writable_pure o w) as [r ->]. destruct r; [|done].
  destruct (txn (sess w)); [done|]. cbn [txn_begin]. by intros [= <- <-].
Qed.

(** A write buffered is what the session sees; going back to a savepoint
    gives back what it saw there. *)
Lemma buffer_view t k below ops : ∀ m m', buffer ops m = (Ok tt, m') →
  ∀ v : View, v t k = overlay t (m !! k) below → batch_view ops v t k = overlay t (m' !! k) below.
Proof.
  unfold batch_view. induction ops as [|[key x e mp|key] ops IH]; intros m m'; cbn [buffer].
  - by intros [= <-] v Hv.
  - destruct (_ || _); [done|]. intros Hb v Hv. cbn [List.map op_effect apply_effects List.fold_left]. eapply (IH _ _ Hb). unfold view_set. cbn [fst snd].
    destruct (decide (key = k)) as [->|Hne]; [by rewrite lookup_insert_eq|by rewrite lookup_insert_ne].
  - intros Hb v Hv. cbn [List.map op_effect apply_effects List.fold_left]. eapply (IH _ _ Hb). unfold view_set. cbn [fst snd].
    destruct (decide (key = k)) as [->|Hne]; [by rewrite lookup_insert_eq|by rewrite lookup_insert_ne].
Qed.
Lemma apply_seen o ops w t' tx k : txn (sess w) = Some tx → (apply o ops w).1 = Ok tt →
  session_look t' (apply o ops w).2 k = batch_view ops (fun t => session_look t w) t' k.
Proof.
  intros Ht. unfold apply, get_sess, on_sess, s_lift. cbv [mbind SM_bind]. destruct (writable_pure o w) as [r ->]. destruct r; [|done].
  rewrite Ht. destruct (buffer ops (writes tx)) as [rb ws'] eqn:Eb. cbn [fst snd]. intros ->.
  symmetry. unfold session_look, buffered. cbn [set_sess sess here with_txn txn with_writes writes mbind option_bind].
  eapply (buffer_view _ _ _ _ _ _ Eb). by rewrite Ht.
Qed.
Lemma last_named_app name w l : ∀ i, last_named name (l ++ [(name, w)]) i = Some ((i + length l)%nat, w).
Proof.
  induction l as [|[n0 w0] l IH]; intros i; cbn [app last_named length]; [rewrite bool_decide_true by done; by rewrite Nat.add_0_r|].
  rewrite IH. f_equal. f_equal. lia.
Qed.
Lemma savepoint_seen o n ops w t' tx k : txn (sess w) = Some tx →
  session_look t' (rollback_to n (apply o ops (savepoint n w).2).2).2 k = session_look t' w k.
Proof.
  intros Ht. rewrite (savepoint_world n w tx Ht). set (w1 := set_sess _ w).
  assert (∃ t1, txn (sess w1) = Some t1 ∧ savepoints t1 = savepoints tx ++ [(n, writes tx)]) as (t1 & Ht1 & Es) by (eexists; done).
  assert (∃ w2 t2, (apply o ops w1).2 = w2 ∧ txn (sess w2) = Some t2 ∧ savepoints t2 = savepoints tx ++ [(n, writes tx)] ∧ here w2 = here w) as (w2 & t2 & -> & Ht2 & Es2 & Eh).
  { destruct (apply_world o ops w1 t1 Ht1) as [->| ->]; [exists w1, t1; by rewrite Es|].
    eexists _, (with_writes _ t1). split; [done|]. split; [done|]. split; [exact Es|done]. }
  unfold rollback_to, get_sess, on_sess. cbv [mbind SM_bind]. rewrite Ht2, Es2, last_named_app.
  unfold session_look, buffered. cbn [snd set_sess sess here with_txn txn writes mbind option_bind]. by rewrite Ht, Eh.
Qed.

(** C36: transactions of a session, in a workspace that is not encrypted
    (the commit mark of a sealed batch is lost on opening again) and under
    no schema (the engine would fill in defaults at the commit that the
    session did not see). From its beginning to its commit, whatever the
    session reads, writes, saves and rolls back, and whatever other clients
    do meanwhile, all of it storable (as eop_pre says) and under a clock
    that does not go back: nothing of the transaction reaches the engine
    before the commit (the engine shows what the others made of it); the
    session reads its own last write of a key, else what the engine shows; a
    write it makes is what it sees from then on, and going back to a
    savepoint gives back what it saw there; a commit that succeeds makes the
    engine show, at once, exactly what the session saw of every key; one
    that fails changes nothing; and either way the transaction is over. *)
Theorem transaction_exact o0 w0 id w1 h o1 t rs :
  begin o0 w0 = (Ok id, w1) →
  keys (conf (here w0)) = None → inv false t rs [] (here w0) →
  sclocks t h → Forall sop_pre h → slast t h ≤ now_ms (o_env o1) → in_i64 (now_ms (o_env o1)) →
  let w2 := srun h w1 in
  let '(r, w3) := commit o1 w2 in
  (∀ t' k, slast t h ≤ t' → look t' (here w2) k = outer_view h w1 (fun t => look t (here w0)) t' k) ∧
  (∀ k, match (kv_get o1 k w2).1 with
        | Ok x => (fun vm => (vm.1, m_expires_at vm.2)) <$> x =
            match buffered (sess w2) k with
            | Some (TPut v exp _) => Some (v, exp) | Some TDel => None | None => look (now_ms (o_env o1)) (here w2) k
            end
        | Err e => ∃ m, e = Denied m
        end) ∧
  (∀ o ops t' k, (apply o ops w2).1 = Ok tt → session_look t' (apply o ops w2).2 k = batch_view ops (fun t => session_look t w2) t' k) ∧
  (∀ o n ops t' k, session_look t' (rollback_to n (apply o ops (savepoint n w2).2).2).2 k = session_look t' w2 k) ∧
  txn (sess w3) = None ∧
  ∀ t' k, now_ms (o_env o1) ≤ t' → look t' (here w3) k = if is_ok r then session_look t' w2 k else look t' (here w2) k.
Proof.
  intros Hb Hk Hi Hc Hp Hn H64 w2. destruct (begin_world _ _ _ _ Hb) as (Hn0 & Eh & Es).
  assert (same_but_counts (here w0) (here w1)) as Hcnt by (rewrite Eh; by split).
  assert (during t rs (txn_begin (here w0)).1 w1 w1) as Hd.
  { split; try done; [|by eapply inv_counts]. rewrite Es. eexists. split; [done|]. split; [done|]. split; [|constructor].
    intros k x Hx. cbn [writes] in Hx. by rewrite lookup_empty in Hx. }
  assert (keys (conf (here w1)) = None) as Hk1 by (by rewrite (sc_conf _ _ Hcnt)).
  destruct (srun_ok _ _ h _ _ _ Hd Hk1 Hc Hp) as (c & Hd2 & Hl2). fold w2 in Hd2, Hl2.
  pose proof (commit_ok _ _ _ _ _ o1 Hd2 Hk1 Hn H64) as Hcm. destruct (commit o1 w2) as [r w3]. destruct Hcm as (Hnone & _ & Hlook).
  destruct (du_txn _ _ _ _ _ Hd2) as (tx & Htx & _). split_and!; [..|done|done].
  - apply Hl2. intros t' k _. apply look_counts, Hcnt.
  - intros k. unfold kv_get, check, get_sess, s_lift, engine. cbv [mbind SM_bind mret SM_ret].
    destruct (check_of o1 (sess w2) NRead) as [u|e] eqn:Ek; cbn [fst].
    2: { revert Ek. unfold check_of. repeat case_match; intros [= <-]; try done; by eexists. }
    destruct (buffered (sess w2) k) as [[v e mp|]|]; [done|done|].
    pose proof (get_ok_ false _ _ (o_env o1) (here w2) k (du_inv _ _ _ _ _ Hd2) Hn) as Hg.
    destruct (get_ (o_env o1) k (here w2)) as [[[[v e]|]|err] i]; destruct Hg as (_ & _ & _ & Hg); [by rewrite Hg|by rewrite Hg|done].
  - intros o ops t' k. by apply (apply_seen o ops w2 t' tx).
  - intros o n ops t' k. by apply (savepoint_seen o n ops w2 t' tx).
Qed.
End thm.

(** A transaction that writes and deletes, and goes back to a savepoint, while
    another client writes: committed, it is what the session saw. *)
Definition sample_session : Session :=
  {| user := Some {| uc_name := lit "ana"; uc_role := Editor |}; ws := lit "shop"; ws_priv := Some PWrite; txn := None; wrote := false; s_watch := None |}.
Definition sample_outside (t : Z) : Outside := {| o_env := at_ms t; o_replica := false; o_room _ := true; o_manages := Ok false |}.
Definition sample_world : World := {| here := run sample_history (History.created sample_opts 77); elsewhere := ∅; sess := sample_session; next_id := 5 |}.
Definition sample_steps : list (Outside * SOp) :=
  [ (sample_outside (T0 + 50), SApply [Put (lit "c") (SText (lit "mine")) 0 false]);
    (sample_outside (T0 + 51), SSavepoint (lit "s"));
    (sample_outside (T0 + 52), SApply [Del (lit "c")]);
    (sample_outside (T0 + 53), SOther (EPut (lit "d") (SText (lit "theirs")) 0 false 1700000000 true));
    (sample_outside (T0 + 54), SRollbackTo (lit "s")) ].
Lemma sample_steps_pre : Forall sop_pre sample_steps.
Proof.
  unfold sample_steps. rewrite !Forall_cons, Forall_nil. unfold sop_pre, storable. cbn [snd fst]. rewrite !Forall_cons, !Forall_nil. split_and!; try exact I.
  - intros now Hnow. apply sample_put_pre; [ascii|ascii|by vm_compute|by vm_compute|].
    unfold in_i64, i64_min, i64_max in *. split; [apply Z.div_le_lower_bound; lia|apply Z.div_le_upper_bound; lia].
  - intros now _. split; [apply ascii_valid; ascii|by vm_compute|unfold in_u; vm_decide].
  - split; [intros x _; exact I|]. apply sample_put_pre; [ascii|ascii|unfold in_i64, i64_min, i64_max; vm_decide..].
Qed.
Lemma sample_world_inv : ∃ rs, inv false (T0 + 40) rs [] (here sample_world).
Proof.
  destruct (history_ok sample_opts 77 T0 sample_history sample_opts_ok ltac:(by vm_compute) sample_clocks sample_pre) as (cs & Hlog).
  eexists. exact (history_all _ _ _ _ _ Hlog).
Qed.
Lemma transaction_exact_witness :
  let w1 := (begin (sample_outside (T0 + 50)) sample_world).2 in
  let w2 := srun sample_steps w1 in
  let w3 := (commit (sample_outside (T0 + 60)) w2).2 in
  (commit (sample_outside (T0 + 60)) w2).1 = Ok 1 ∧
  look (T0 + 60) (here w2) (lit "c") = Some (SText (lit "x"), 0) ∧ look (T0 + 60) (here w3) (lit "c") = Some (SText (lit "mine"), 0) ∧
  look (T0 + 60) (here w3) (lit "d") = Some (SText (lit "theirs"), 0).
Proof.
  destruct sample_world_inv as [rs Hi]. intros w1 w2 w3.
  assert (begin (sample_outside (T0 + 50)) sample_world = (Ok 5, w1)) as Hb by reflexivity.
  pose proof (transaction_exact (sample_outside (T0 + 50)) sample_world 5 w1 sample_steps (sample_outside (T0 + 60)) (T0 + 40) rs Hb eq_refl Hi
    ltac:(repeat split; vm_decide) sample_steps_pre ltac:(vm_decide) ltac:(unfold in_i64, i64_min, i64_max; vm_decide)) as Ht.
  cbv zeta in Ht. fold w2 in Ht. assert ((commit (sample_outside (T0 + 60)) w2).1 = Ok 1) as Hr by (vm_compute; reflexivity).
  split; [exact Hr|]. split; [vm_compute; reflexivity|]. subst w3. destruct (commit (sample_outside (T0 + 60)) w2) as [r w3]. cbn [fst snd] in *. subst r.
  destruct Ht as (_ & _ & _ & _ & _ & Hl). rewrite !Hl by vm_decide. split; vm_compute; reflexivity.
Defined.
