(* ===== verification/CompactThm.v ===== *)
(** * Compaction, with the operations that run while it copies *)
From S2P Require Import Prelude Utf8 Util Maps Types Compress Format Crypt Log Hint Cache SecIndex Engine EngineMem EngineOk EngineThm Sample EngineBatch Recovery History Keeps Compact Spec.
Open Scope Z_scope.

Section compact_thm.
  Context `{Aead} `{Crc} `{Codecs} `{Leaves} `{!Values}.
  Context `{LA : !AeadLaws} `{LC : !CodecsLaws} `{LV : !ValuesLaws}.

Lemma purge_loop_ok req t rs fuel : ∀ i, inv req t rs [] i →
  inv req t rs [] (purge_loop fuel t i) ∧ disk (purge_loop fuel t i) = disk i ∧ conf (purge_loop fuel t i) = conf i ∧
  ∀ t' k, t ≤ t' → look t' (purge_loop fuel t i) k = look t' i k.
Proof.
  induction fuel as [|fuel IH]; intros i Hi; [done|]. cbn [purge_loop].
  pose proof (inv_purge _ _ _ _ _ Hi) as Hp. destruct (purge_fold (due t i) i) as (_ & Ed & _ & Ec & _).
  pose proof (fun t' k H => look_purge t t' i k (iv_mem _ _ _ _ _ Hi) H) as Hl.
  change (List.fold_left _ (due t i) i) with (purge_expired t i).2 in Ed, Ec. destruct (purge_expired t i) as [n i1]. cbn [snd] in *.
  destruct (Nat.eqb n PURGE_BATCH); [|done]. destruct (IH i1 Hp) as (? & Ed1 & Ec1 & Hl1).
  split; [done|]. split; [congruence|]. split; [congruence|]. intros. by rewrite Hl1, Hl.
Qed.
Lemma compact_begin_ok req t rs env rc i :
  inv req t rs [] i → t ≤ now_ms env →
  match compact_begin env rc i with
  | (Ok s, i1) => s = snapshot_of i1 ∧ inv req (now_ms env) rs [] i1 ∧ keys (conf i1) = keys (conf i) ∧ disk i1 = disk i ∧
      ∀ t' k, now_ms env ≤ t' → look t' i1 k = look t' i k
  | (Err _, i1) => i1 = i ∧ closed (disk i) = true
  end.
Proof.
  intros Hi Ht. apply (inv_mono _ _ (now_ms env)) in Hi; [|done]. unfold compact_begin. destruct (closed (disk i)) eqn:Ecl; [done|].
  destruct (purge_loop_ok req (now_ms env) rs (S (map_size (index (mem i)))) i Hi) as (Hp & Ed & Ec & Hl). fold (purge_all_expired (now_ms env) i) in *.
  destruct rc as [c|]; (split; [done|]).
  - split; [destruct Hp; split; try assumption|]. split; [by apply (f_equal keys) in Ec|]. by split.
  - split; [done|]. rewrite Ec. by split.
Qed.

(** The records may be copied from the file as it is at any time before the
    last phase: what the snapshot leads to does not move. *)
Lemma copied_file ks req f f' id l ms c :
  (∀ k e, (k, e) ∈ l → value_in ks f e = value_in ks f' e) → copied ks req f id l ms c → copied ks req f' id l ms c.
Proof.
  intros Hf [? ? ? ? ? Hs]. split; try done. intros k e Hin. destruct (Hs k e Hin) as (ne & s & ? & ? & ? & ? & ? & ? & ? & ?).
  exists ne, s. by rewrite <- (Hf k e Hin).
Qed.
Lemma value_in_longer ks h h' r x e : len h = FILE_HEADER_LEN → len h' = FILE_HEADER_LEN → FILE_HEADER_LEN ≤ offset e →
  is_Some (value_in ks (h ++ r) e) → value_in ks (h' ++ r ++ x) e = value_in ks (h ++ r) e.
Proof.
  intros Lh Lh' Ho [v Hv]. rewrite Hv, app_assoc. apply value_in_app; [unfold FILE_HEADER_LEN in Ho; lia|].
  by rewrite (value_in_header _ _ h) by lia.
Qed.
Lemma compact_copy_ok req t rs i1 tl fid fmt rc io id c :
  inv req t rs [] i1 → Forall movable rs → keys_read (keys (conf i1)) req (keys (conf i1)) →
  (∀ n, nonce_pre (keys (conf i1)) (io_nonce io n)) →
  compact_copy (keys (conf i1)) rc (file_header fid fmt ++ recs_bytes (rs ++ tl)) io id (snapshot_of i1) = Ok c →
  ∃ ms, copied (keys (conf i1)) req (file (disk i1)) id (snap (snapshot_of i1)) ms c.
Proof.
  intros Hi Hm Hkr Hn. unfold compact_copy. destruct (negb (io_copy io)); [done|]. rewrite recs_bytes_app.
  pose proof (iv_read _ _ _ _ _ Hi) as Hr. rewrite app_nil_r in Hr. pose proof (iv_file _ _ _ _ _ Hi) as Hf. rewrite app_nil_r in Hf.
  set (f := file_header fid fmt ++ recs_bytes rs ++ recs_bytes tl).
  assert (∀ k e, (k, e) ∈ snap (snapshot_of i1) → value_in (keys (conf i1)) f e = value_in (keys (conf i1)) (file (disk i1)) e ∧
    is_Some (value_in (keys (conf i1)) (file (disk i1)) e)) as Hv.
  { intros k e Hin%elem_of_entries. destruct (iv_vals _ _ _ _ _ Hi k e Hin) as (Ho & _ & Hs). split; [|done]. rewrite Hf in Hs |- *.
    by apply value_in_longer; rewrite ?file_header_len. }
  pose proof (copy_records_ok (keys (conf i1)) req rc fid fmt rs (recs_bytes tl) io id (snap (snapshot_of i1)) [] []
    {| c_out := file_header id FORMAT_V1; c_pos := FILE_HEADER_LEN; c_moved := ∅; c_dropped := 0; c_nonce := 0 |}) as Hc.
  cbv zeta in Hc. fold f in Hc. cbn [app] in Hc. intros E. rewrite E in Hc. destruct Hc as (ms & Hc); try done.
  - apply entries_NoDup.
  - intros k e Hin. destruct (Hv k e Hin) as [E1 E2]. rewrite E1. split; [done|]. pose proof (iv_agree _ _ _ _ _ Hi k) as Ha.
    apply elem_of_entries in Hin. rewrite Hin in Ha. fold (scanned FILE_HEADER_LEN rs) in Ha. destruct (scanned _ _ !! k) as [e'|] eqn:Es; [|done].
    apply scanned_located in Es as (pre & r & post & ? & ? & Hd); [|eapply Forall_impl; [exact Hr|]; intros r Hx; apply Hx].
    exists pre, r, post. split; [done|]. split; [done|]. by eapply describes_same.
  - split; cbn [c_out c_pos c_moved c_dropped]; try done.
    + intros k e Hin. by apply not_elem_of_nil in Hin.
  - exists ms. eapply copied_file; [|exact Hc]. intros k e Hin. by apply (Hv k e).
Qed.

(** The records of a compacted file, opened. *)
Lemma reopen_all o req t ms cs i now nid :
  inv req t (ms ++ List.concat cs) [] i → opts_ok o → keys (conf i) = o_keys o → req = o_require o →
  Forall (fun r => readable (o_keys o) req r ∧ txn r = false) ms → Forall (committed_by (o_keys o) req) cs → t ≤ now →
  ∃ i', open_ o now nid (file (disk i)) None = Some (Ok i') ∧ ∀ t' k, now ≤ t' → look t' i' k = look t' i k.
Proof.
  intros Hi Ho Hk Hreq Hms Hcs Ht. set (css := List.map (fun r => [r]) ms ++ List.filter nonempty cs).
  assert (List.concat css = ms ++ List.concat cs) as Ec.
  { subst css. rewrite List.concat_app, concat_nonempty. f_equal. clear. by induction ms as [|r ms IH]; [|cbn; rewrite IH]. }
  assert (Forall (wf_commit (o_keys o) req) css) as Hw.
  { subst css. apply Forall_app. split; [|by apply nonempty_commits]. clear - Hms.
    induction Hms as [|r ms [Hr Hx] _ IH]; cbn; [apply List.Forall_nil|]. apply List.Forall_cons; [|exact IH]. left. by exists r. }
  pose proof (recs_len_nonneg (List.concat css)) as Hl.
  assert (take (Z.to_nat (recs_len (List.concat css))) (recs_bytes (List.concat css)) = recs_bytes (List.concat css)) as Et
    by (apply take_ge; unfold recs_len, len; by rewrite Nat2Z.id).
  assert (committed (recs_len (List.concat css)) css = List.concat css) as Eall by (apply committed_all; lia).
  assert (inv req t ([] ++ committed (recs_len (List.concat css)) css) [] i) as Hi0 by (rewrite Eall, Ec; exact Hi).
  destruct (reopen o req t [] (recs_len (List.concat css)) css i (file_id (disk i)) (format (disk i)) ∅ 0 None now nid)
    as (i' & Eo & Hi' & Ecf); try done.
  - apply Ho.
  - apply (iv_id _ _ _ _ _ Hi).
  - apply (iv_fmt _ _ _ _ _ Hi).
  - assert (file (disk i) = file_header (file_id (disk i)) (format (disk i)) ++ recs_bytes [] ++
      take (Z.to_nat (recs_len (List.concat css))) (recs_bytes (List.concat css))) as Ef.
    { rewrite Et, Ec. pose proof (iv_file _ _ _ _ _ Hi) as Hf. rewrite app_nil_r in Hf. exact Hf. }
    exists i'. rewrite Ef. split; [exact Eo|]. intros t' k Ht'. cbn [app] in Hi'. rewrite Eall, Ec in Hi'.
    apply (look_of_log req now t (ms ++ List.concat cs)); try done; [|lia]. by rewrite Ecf, Hk.
Qed.
Lemma movable_commits ks req cs : Forall (committed_by ks req) cs → Forall movable (List.concat cs).
Proof. induction 1 as [|c cs [_ Hc] _ IH]; cbn; [apply List.Forall_nil|]. by apply Forall_app. Qed.

(** A compaction: what it starts from, what others do meanwhile, and when the
    records are read. *)
Lemma compaction_ok req t o i0 rs env rc s i1 h m io id c :
  inv req t rs [] i0 → opts_ok o → req = o_require o → keys (conf i0) = o_keys o → Forall movable rs →
  t ≤ now_ms env → clocks (now_ms env) h → Forall (eop_pre (o_keys o)) h → (∀ n, nonce_pre (o_keys o) (io_nonce io n)) → in_u 64 id →
  compact_begin env rc i0 = (Ok s, i1) → (m ≤ length h)%nat →
  compact_copy (o_keys o) rc (file (disk (run (take m h) i1))) io id s = Ok c →
  let i2 := run h i1 in
  match compact_end io id s c i2 with
  | (Ok r, i3) => (closed (disk i1) = true ∨ (aborted r = false ∧ dropped_corrupted r = 0 ∧ after_bytes r = file_len i3)) ∧
      (∀ t' k, last_clock (now_ms env) h ≤ t' → look t' i3 k = run_view h i1 (fun t => look t i0) t' k) ∧
      (closed (disk i1) = false → ∀ now nid, last_clock (now_ms env) h ≤ now →
        ∃ i4, open_ o now nid (file (disk i3)) None = Some (Ok i4) ∧ ∀ t' k, now ≤ t' → look t' i4 k = look t' i3 k)
  | (Err _, i3) => i3 = i2
  end.
Proof.
  intros Hi0 Ho Hreq Hk Hmov Ht Hc Hp Hn Hid Eb Hm Ecopy i2.
  pose proof (compact_begin_ok req t rs env rc i0 Hi0 Ht) as Hb. rewrite Eb in Hb. destruct Hb as (-> & Hi1 & Ek1 & Ed1 & Hl1).
  rewrite Hk in Ek1. pose proof (oo_keys _ Ho) as Hkr. rewrite <- Hreq in Hkr.
  destruct (run_ok req h (now_ms env) rs i1 Hi1 Hc) as (cs & Lcs & Hcs & Hrun); [by rewrite Ek1..|]. rewrite Ek1 in Hcs.
  destruct (Hrun m Hm) as (Him & _ & _). destruct (Hrun (length h) (le_n _)) as (Hi2 & Ecf2 & Hl2).
  rewrite firstn_all in Hi2, Ecf2, Hl2. rewrite <- Lcs, firstn_all in Hi2. fold i2 in Hi2, Ecf2, Hl2.
  pose proof (iv_file _ _ _ _ _ Him) as Hfm. rewrite app_nil_r in Hfm. rewrite Hfm, <- Ek1 in Ecopy.
  apply (compact_copy_ok req (now_ms env) _ i1 (List.concat (take m cs))) in Ecopy as (ms & Hcopied); try done; [|by rewrite Ek1..].
  pose proof (grows_run (file_len i1) h i1) as Hg. fold i2 in Hg. pose proof (inv_file_len _ _ _ _ Hi1) as Hlen.
  assert (went_on req (now_ms env) (last_clock (now_ms env) h) rs (List.concat cs) i1 i2) as Hw.
  { split; [exact Hi1|exact Hi2|by apply last_clock_ge|by rewrite Ecf2|]. rewrite <- Hlen. by apply (gr_old _ _ _ Hg). }
  pose proof (compact_end_eq _ _ _ _ _ _ _ io _ _ _ Hw Hcopied (gr_id _ _ _ Hg)) as He.
  destruct (compact_end io id (snapshot_of i1) c i2) as [[r|err] i3]; [|exact He].
  assert (∀ t' k, last_clock (now_ms env) h ≤ t' → look t' i2 k = run_view h i1 (fun t => look t i0) t' k) as Hview.
  { intros t' k Ht'. rewrite Hl2 by done. by apply (run_view_ext h i1 _ _ (now_ms env)). }
  destruct He as [(Hcl & _ & ->)|(Ha & Hd & Hsz & ->)].
  { rewrite (gr_closed _ _ _ Hg) in Hcl. split; [by left|]. split; [exact Hview|]. congruence. }
  destruct (swapped_ok _ _ _ _ _ _ _ io _ _ _ Hw Hcopied Hid) as (Hi3 & Ecf3 & Hl3).
  split; [right; split; [done|]; split; [done|]|]. { by rewrite Hsz, (inv_file_len _ _ _ _ Hi3). }
  split; [intros t' k Ht'; rewrite (proj1 (Hl3 t' k)); by apply Hview|]. intros _ now nid Hnow.
  apply (reopen_all o req (last_clock (now_ms env) h) ms cs); try done; [by rewrite Ecf3, Ecf2|].
  rewrite <- Ek1. apply Hcopied.
Qed.

(** C7: compaction changes nothing that clients see. A workspace that went
    through any history of what clients may ask for is compacted, while
    other sessions go through another one; the records are read from the
    file at any point of it. Then the compaction either fails and leaves the
    workspace as they made it, or drops nothing: clients see what the two
    histories mean, and the new file, opened again, shows the same. What
    clients ask is what eop_pre says: values that their encoding gives back,
    keys that are texts, deadlines that the format keeps (none, or in
    milliseconds from March 1973 on: expiry_to_ms takes a smaller one for
    seconds), timestamps of 64 bits, a clock that does not go back, and
    batches only when the workspace is not encrypted (sealed_batch_lost
    shows what opening again does with a batch of an encrypted one). A write
    that fails is taken to be cut off the file, as the code does when it
    can. Schemas, indexed vectors and the change journal are left out of
    these operations. *)
Theorem compaction_transparent o id t h0 env rc s i1 h m io id' c :
  opts_ok o → in_u 64 id → in_u 64 id' → clocks t h0 → last_clock t h0 ≤ now_ms env → clocks (now_ms env) h →
  Forall (eop_pre (o_keys o)) (h0 ++ h) → (∀ n, nonce_pre (o_keys o) (io_nonce io n)) →
  compact_begin env rc (run h0 (created o id)) = (Ok s, i1) → (m ≤ length h)%nat →
  compact_copy (o_keys o) rc (file (disk (run (take m h) i1))) io id' s = Ok c →
  match compact_end io id' s c (run h i1) with
  | (Ok r, i3) => aborted r = false ∧ dropped_corrupted r = 0 ∧ after_bytes r = file_len i3 ∧
      (∀ t' k, last_clock (now_ms env) h ≤ t' → look t' i3 k = run_view h i1 (run_view h0 (created o id) nothing) t' k) ∧
      ∀ now nid, last_clock (now_ms env) h ≤ now →
        ∃ i4, open_ o now nid (file (disk i3)) None = Some (Ok i4) ∧ ∀ t' k, now ≤ t' → look t' i4 k = look t' i3 k
  | (Err _, i3) => i3 = run h i1
  end.
Proof.
  intros Ho Hid Hid' Hc0 Hle Hc Hp Hn Eb Hm Ecopy. apply Forall_app in Hp as [Hp0 Hp].
  destruct (history_ok o id t h0 Ho Hid Hc0 Hp0) as (cs0 & Hlog). pose proof (history_all _ _ _ _ _ Hlog) as Hi0.
  pose proof (hl_conf _ _ _ _ _ Hlog (length h0) (le_n _)) as Ecf. rewrite firstn_all in Ecf.
  pose proof (history_engine o id t h0 Ho Hid Hc0 Hp0) as Hv0.
  pose proof (compaction_ok _ _ o _ _ env rc s i1 h m io id' c Hi0 Ho eq_refl ltac:(by rewrite Ecf)
    (movable_commits _ _ _ (hl_commits _ _ _ _ _ Hlog)) Hle Hc Hp Hn Hid' Eb Hm Ecopy) as H_. cbv zeta in H_.
  pose proof (compact_begin_ok _ _ _ env rc _ Hi0 Hle) as Hb. rewrite Eb in Hb. destruct Hb as (_ & _ & _ & Ed & _).
  assert (closed (disk i1) = false) as Hcl by (rewrite Ed, (gr_closed 0 _ _ (grows_run 0 h0 (created o id))); done).
  destruct (compact_end io id' s c (run h i1)) as [[r|err] i3]; [|exact H_].
  destruct H_ as ([E|(Ha & Hd & Hs)] & Hl & Hr); [congruence|]. repeat split; [done..| |auto].
  intros t' k Ht'. rewrite Hl by done. apply (run_view_ext h i1 _ _ (now_ms env)); [done| |done].
  intros t1 k1 Ht1. apply Hv0. lia.
Qed.

(** ** Expiry catches up *)
Lemma purge_loop_disk now fuel : ∀ i, disk (purge_loop fuel now i) = disk i.
Proof.
  induction fuel as [|fuel IH]; intros i; [done|]. cbn [purge_loop]. destruct (purge_fold (due now i) i) as (_ & Ed & _).
  unfold purge_expired. destruct (Nat.eqb _ _); [|done]. rewrite IH. exact Ed.
Qed.
Lemma purge_smaller now i : mem_ok (mem i) → (purge_expired now i).1 ≠ 0%nat →
  (base.size (dom (index (mem (purge_expired now i).2))) < base.size (dom (index (mem i))))%nat.
Proof.
  intros Hm Hn. destruct (purge_fold (due now i) i) as (_ & _ & _ & _ & Hix). unfold purge_expired in *. cbn [fst snd] in *.
  destruct (due now i) as [|k l] eqn:Ed; [done|]. destruct (due_spec now i k Hm ltac:(rewrite Ed; left)) as (e & He & _).
  apply subset_size. split.
  - intros k' [e' Hk']%elem_of_dom. rewrite Hix in Hk'. apply elem_of_dom. destruct (decide _); [done|by eexists].
  - intros Hsub. specialize (Hsub k ltac:(apply elem_of_dom; by eexists)). apply elem_of_dom in Hsub as [e' Hk']. rewrite Hix in Hk'.
    rewrite decide_True in Hk'; [done|left].
Qed.
Lemma purge_loop_complete now fuel : ∀ i, mem_ok (mem i) → (base.size (dom (index (mem i))) < fuel)%nat →
  let i' := purge_loop fuel now i in
  mem_ok (mem i') ∧ ∀ k e, index (mem i') !! k = Some e ↔ index (mem i) !! k = Some e ∧ is_expired e now = false.
Proof.
  induction fuel as [|fuel IH]; intros i Hm Hf i'; [lia|]. subst i'. cbn [purge_loop].
  pose proof (purge_pass now i Hm) as (Hm1 & _ & Hin & Hlive & Hless). pose proof (purge_smaller now i Hm) as Hsm.
  pose proof (due_length now i) as Hd. change (length (due now i)) with (purge_expired now i).1 in Hd.
  destruct (purge_expired now i) as [n i1]. cbn [fst snd] in *. destruct (Nat.eqb_spec n PURGE_BATCH) as [->|Hn].
  - destruct (IH i1 Hm1) as [Hm2 Hix]; [specialize (Hsm ltac:(discriminate)); lia|]. split; [done|].
    intros k e. rewrite Hix. split; intros [Hk Hx]; eauto.
  - split; [done|]. intros k e. split; [|intros [? ?]; by apply Hlive]. intros Hk. split; [by apply Hin|].
    apply (Hless) with k; [|done]. lia.
Qed.

(** C15: expiry catches up. Purging over and over, as many passes as there
    are keys being enough, ends with every key whose time is over gone, and
    with every other key as it was. *)
Theorem purge_all_complete now i :
  mem_ok (mem i) →
  let i' := purge_all_expired now i in
  mem_ok (mem i') ∧ disk i' = disk i ∧
  ∀ k e, index (mem i') !! k = Some e ↔ index (mem i) !! k = Some e ∧ is_expired e now = false.
Proof.
  intros Hm. unfold purge_all_expired. destruct (purge_loop_complete now (S (map_size (index (mem i)))) i Hm) as [H1_ H2_].
  { rewrite size_dom. unfold base.size. lia. }
  split; [done|]. split; [|done]. apply purge_loop_disk.
Qed.
End compact_thm.

(** A compaction that changes the algorithm, while "b" is written again and
    "c" is deleted; the records are read after the first of these. *)
Definition sample_io : CompactIo :=
  {| io_new_id := Some 78; io_nonce := fun _ => Some toy_nonce; io_copy := true; io_sync := true; io_rename := true; io_hint := true |}.
Definition sample_later : list (Env * EOp) :=
  [ (at_ms (T0 + 60), EPut (lit "b") (SText (lit "again")) 0 false 1700000001 true); (at_ms (T0 + 70), EDelete (lit "c")) ].
Lemma sample_later_pre : Forall (eop_pre None) sample_later.
Proof.
  unfold sample_later. apply List.Forall_cons; [|apply List.Forall_cons; [|apply List.Forall_nil]]; simpl.
  - split; [intros x _; exact I|]. apply sample_put_pre; [ascii|ascii|unfold in_i64, i64_min, i64_max; vm_decide..].
  - split; [intros x _; exact I|]. split; [|unfold in_i64, i64_min, i64_max; vm_decide].
    split; [apply ascii_valid; ascii|vm_decide|]. vm_decide.
Qed.
Lemma compaction_transparent_witness :
  ∃ s i1 c i3 r, compact_begin (at_ms (T0 + 50)) (Some CZlib) (run sample_history (created sample_opts 77)) = (Ok s, i1) ∧
    compact_copy (o_keys sample_opts) (Some CZlib) (file (disk (run (take 1 sample_later) i1))) sample_io 78 s = Ok c ∧
    compact_end sample_io 78 s c (run sample_later i1) = (Ok r, i3) ∧ aborted r = false ∧ dropped_corrupted r = 0 ∧
    ∃ i4, open_ sample_opts (T0 + 100) None (file (disk i3)) None = Some (Ok i4) ∧
      ∀ t' k, T0 + 100 ≤ t' → look t' i4 k = look t' i3 k.
Proof.
  destruct (compact_begin (at_ms (T0 + 50)) (Some CZlib) (run sample_history (created sample_opts 77))) as [[s|err] i1] eqn:Eb.
  2: { assert (is_ok (compact_begin (at_ms (T0 + 50)) (Some CZlib) (run sample_history (created sample_opts 77))).1 = true) as E by (vm_compute; reflexivity). rewrite Eb in E. discriminate. }
  destruct (compact_copy (o_keys sample_opts) (Some CZlib) (file (disk (run (take 1 sample_later) i1))) sample_io 78 s) as [c|err] eqn:Ec.
  2: { assert (match compact_begin (at_ms (T0 + 50)) (Some CZlib) (run sample_history (created sample_opts 77)) with
        | (Ok s, i1) => is_ok (compact_copy (o_keys sample_opts) (Some CZlib) (file (disk (run (take 1 sample_later) i1))) sample_io 78 s)
        | _ => false end = true) as E by (vm_compute; reflexivity). rewrite Eb, Ec in E. discriminate. }
  assert (match compact_begin (at_ms (T0 + 50)) (Some CZlib) (run sample_history (created sample_opts 77)) with
    | (Ok s, i1) => match compact_copy (o_keys sample_opts) (Some CZlib) (file (disk (run (take 1 sample_later) i1))) sample_io 78 s with
      | Ok c => is_ok (compact_end sample_io 78 s c (run sample_later i1)).1 | _ => false end
    | _ => false end = true) as Eok by (vm_compute; reflexivity). rewrite Eb, Ec in Eok.
  assert (Forall (eop_pre (o_keys sample_opts)) (sample_history ++ sample_later)) as Hp
    by (apply Forall_app; split; [exact sample_pre|exact sample_later_pre]).
  assert (clocks (T0 + 50) sample_later) as Hcl by (repeat split; vm_decide).
  assert (∀ n, nonce_pre (o_keys sample_opts) (io_nonce sample_io n)) as Hn by (intros n x _; exact I).
  pose proof (compaction_transparent sample_opts 77 T0 sample_history (at_ms (T0 + 50)) (Some CZlib) s i1 sample_later 1 sample_io 78 c
    sample_opts_ok ltac:(unfold in_u; vm_decide) ltac:(unfold in_u; vm_decide) sample_clocks ltac:(vm_decide) Hcl Hp Hn Eb ltac:(vm_decide) Ec) as Ht.
  destruct (compact_end _ _ _ _ _) as [[r|err] i3] eqn:Ee; [|discriminate].
  destruct Ht as (Ha & Hd & _ & _ & Hr). destruct (Hr (T0 + 100) None ltac:(vm_decide)) as (i4 & Eo & Hl).
  exists s, i1, c, i3, r. split; [reflexivity|]. split; [exact Ec|]. split; [exact Ee|]. split; [exact Ha|]. split; [exact Hd|].
  exists i4. split; [exact Eo|exact Hl].
Defined.

Lemma purge_all_complete_witness :
  let i := run (take 1 sample_history) (created sample_opts 77) in
  mem_ok (mem i) ∧ keys_of (index (mem i)) = [lit "a"] ∧ index (mem (purge_all_expired (T0 + 6000) i)) !! lit "a" = None.
Proof.
  intros i. destruct (history_ok sample_opts 77 T0 sample_history sample_opts_ok ltac:(unfold in_u; vm_decide) sample_clocks sample_pre) as (cs & Hlog).
  pose proof (iv_mem _ _ _ _ _ (hl_inv _ _ _ _ _ Hlog 1%nat ltac:(vm_decide))) as Hm. split; [exact Hm|]. split; [vm_compute; reflexivity|].
  destruct (index (mem (purge_all_expired (T0 + 6000) i)) !! lit "a") as [e|] eqn:E; [|reflexivity].
  apply (purge_all_complete (T0 + 6000) i Hm) in E as [E Hx].
  assert (match index (mem i) !! lit "a" with Some e => is_expired e (T0 + 6000) | None => true end = true) as Ex by (vm_compute; reflexivity).
  rewrite E, Hx in Ex. discriminate.
Defined.
