(* ===== verification/Indexes.v ===== *)
(** * [src/engine.rs]: secondary indexes are made and dropped

    [create_unique_index] reads the documents of the pattern into a new index;
    [rebuild_sec] is its reading. How a field is read as a path is an argument
    ([parse]); whether the side file that keeps the definitions can be written
    is another ([io_meta]). *)
From S2P Require Import Prelude Utf8 Text Util Maps Types Compress Format Crypt Log Cache SecIndex Select Engine EngineMem EngineOk EngineThm Sample EngineBatch Recovery History Keeps Spec.
Open Scope Z_scope.

Definition MAX_UNIQUE_FIELDS : Z := 8.
(** [fields.join(", ")] *)
Fixpoint join_fields (fields : list str) : str :=
  match fields with [] => [] | [f] => f | f :: fields => f ++ lit ", " ++ join_fields fields end.
(** [iter().map(f).collect::<Result<Vec<_>>>()] *)
Fixpoint parse_all {A B} (f : A → result String.string B) (l : list A) : result KivaError (list B) :=
  match l with
  | [] => Ok []
  | x :: l => match f x with Err e => Err (Invalid e) | Ok y => ys ← parse_all f l; Ok (y :: ys) end
  end.

Section indexes.
  Context `{Aead} `{Crc} `{Codecs} `{Leaves} `{!Values}.

Definition set_sec (l : list SecIndex) (i : Inner) : Inner :=
  let m := mem i in
  set_mem {| index := index m; live_bytes := live_bytes m; expiry := expiry m; key_bytes := key_bytes m; sec := l; cache := cache m |} i.
Definition named (pattern_ field_ : str) (s : SecIndex) : bool := bool_decide (pattern s = pattern_) && bool_decide (field s = field_).

(** ** Reading the documents into an index *)
Definition keys_to_read (s : SecIndex) (now : Z) (i : Inner) : list (str * Entry) :=
  let prefix := glob_prefix (pattern s) in
  List.filter (fun ke => Type_is_doc (e_ty ke.2) && negb (is_expired ke.2 now) && glob_match (pattern s) ke.1)
    (take_while (fun ke => starts_with prefix ke.1) (List.filter (fun ke => str_leb prefix ke.1) (entries (index (mem i))))).
Fixpoint read_into (l : list (str * Entry)) (s : SecIndex) (i : Inner) : SecIndex * Inner :=
  match l with
  | [] => (s, i)
  | (k, e) :: l =>
    match read_value k e i with
    | (Ok v, i) => read_into l (SecIndex.update k (as_doc v) s) i
    | (Err _, i) => read_into l s i
    end
  end.
Definition rebuild_sec (now : Z) (s : SecIndex) (i : Inner) : SecIndex * Inner :=
  let s := SecIndex.clear s in read_into (keys_to_read s now i) s i.
(** Two keys that hold one value. *)
Definition first_duplicate (s : SecIndex) : option (str * str) :=
  match List.find (fun p => Nat.ltb 1 (base.size p.2)) (map_to_list (SecIndex.map s)) with
  | Some p => match elements p.2 with a :: b :: _ => Some (a, b) | _ => None end
  | None => None
  end.

(** ** The operations *)
Definition create_unique_index (io_meta : bool) (now : Z) (parse : str → result String.string Path)
    (pattern_ : str) (fields : list str) (kind_ : IndexKind) (unique_ ignore_case : bool) : M Z :=
  if bool_decide (fields = []) || existsb (fun f => bool_decide (Utf8.trim f = [])) fields then lift (Err (Invalid "an index needs a field name"))
  else if ignore_case && negb unique_ then
    lift (Err (Invalid "'ignore case' is for unique indexes; to search without regard to capitals, use ilike"))
  else if Nat.ltb 1 (length fields) && negb unique_ then lift (Err (Invalid "an index on several fields must be unique"))
  else if MAX_UNIQUE_FIELDS <? len fields then lift (Err (Invalid "a unique index has at most {MAX_UNIQUE_FIELDS} fields"))
  else
    paths ← lift (parse_all parse fields);
    let field := join_fields fields in
    st (fun i =>
      match List.find (named pattern_ field) (sec (mem i)) with
      | Some _ => (Err (Exists_ "index on {pattern} ({field}) already exists"), i)
      | None =>
        let before := sec (mem i) in
        let '(s, i) := rebuild_sec now (SecIndex.new pattern_ field paths kind_ unique_ ignore_case) i in
        if unique_ && bool_decide (is_Some (first_duplicate s))
        then (Err (Exists_ "cannot create the unique index on {what}: {a} and {b} both hold {value}"), i)
        else
          let i := set_sec (before ++ [s]) i in
          if io_meta then (Ok (Z.of_nat (base.size (SecIndex.rev s))), i) else (Err (Io "{e}"), i)
      end).
Definition drop_index (io_meta : bool) (pattern_ field_ : str) : M bool := fun i =>
  let kept := List.filter (fun s => negb (named pattern_ field_ s)) (sec (mem i)) in
  let removed := negb (Nat.eqb (length kept) (length (sec (mem i)))) in
  if removed && negb io_meta then (Err (Io "{e}"), set_sec kept i) else (Ok removed, set_sec kept i).
End indexes.

(** ** The keys of a pattern are among those of its prefix *)
Lemma prefix_char p n c : (n < length (glob_prefix p))%nat → p !! n = Some c → c ≠ STAR ∧ c ≠ QMARK ∧ glob_prefix p !! n = Some c.
Proof.
  revert n. induction p as [|x p IH]; intros n Hn Hc; [done|]. cbn [glob_prefix] in *.
  destruct (Z.eqb_spec x STAR), (Z.eqb_spec x QMARK); cbn [orb length] in *; try lia.
  destruct n as [|n]; [by injection Hc as <-|]. apply IH; [lia|done].
Qed.
Lemma prefix_length p : (length (glob_prefix p) ≤ length p)%nat.
Proof. induction p as [|x p IH]; [done|]. cbn [glob_prefix]. destruct (_ || _); cbn [length]; lia. Qed.
Lemma glob_match_prefix p t : glob_match p t = true → take (length (glob_prefix p)) t = glob_prefix p.
Proof.
  unfold glob_match. set (q := glob_prefix p).
  assert (∀ fuel n, (n ≤ length q)%nat → take n t = take n q → glob_loop fuel p t n n None 0 = Some true → take (length q) t = q) as Hloop.
  { induction fuel as [|fuel IH]; intros n Hn Ht; [done|]. destruct (decide (n = length q)) as [->|]; [intros _; by rewrite Ht, take_ge|].
    pose proof (prefix_length p) as Hl. fold q in Hl. destruct (lookup_lt_is_Some_2 p n) as [c Hc]; [lia|].
    destruct (prefix_char p n c) as (H1 & H2 & H3); [fold q; lia|done|]. fold q in H3. cbn [glob_loop]. rewrite Hc.
    destruct (t !! n) as [tc|] eqn:Etc.
    - rewrite (proj2 (Z.eqb_neq c QMARK)), (proj2 (Z.eqb_neq c STAR)) by done. destruct (Z.eqb_spec c tc) as [->|]; cbn [orb]; [|done].
      apply IH; [lia|]. by rewrite (take_S_r _ _ _ Etc), (take_S_r _ _ _ H3), Ht.
    - intros [= Ho]. rewrite (drop_S _ _ _ Hc) in Ho. cbn [only_stars forallb] in Ho. by rewrite (proj2 (Z.eqb_neq c STAR)) in Ho. }
  destruct (glob_loop _ _ _ _ _ _ _) as [[]|] eqn:E; try done. intros _. apply (Hloop _ 0%nat) in E; [done|lia|done].
Qed.

Lemma starts_with_swap p k : starts_with p k = Select.starts_with k p.
Proof. done. Qed.
(** The keys that start with a prefix are next to each other. *)
Lemma elem_prefix_range {A} (m : gmap str A) (prefix k : str) a : (∀ k, is_Some (m !! k) → valid_str k) → valid_str prefix →
  (k, a) ∈ take_while (fun ke => starts_with prefix ke.1) (List.filter (fun ke => str_leb prefix ke.1) (entries m)) ↔
  m !! k = Some a ∧ starts_with prefix k = true.
Proof.
  intros Hm Hp.
  rewrite (take_while_filter _ entry_le).
  - rewrite !elem_filter, elem_of_entries. cbn [fst]. split; [tauto|]. intros [E Hs]. split; [|done]. split; [done|].
    rewrite str_leb_chars by (try done; apply Hm; by eexists). apply starts_with_ge. by rewrite <- starts_with_swap.
  - apply sorted_filter, entries_sorted.
  - intros [x a1] [y a2] [Hx Hle]%elem_filter [Hy _]%elem_filter Hxy Hs. cbn [fst] in *. apply elem_of_entries in Hx, Hy.
    assert (valid_str x ∧ valid_str y) as [Vx Vy] by (split; apply Hm; by eexists).
    rewrite starts_with_swap in *. apply (starts_with_between prefix x y); [|by apply char_order|done]. by rewrite str_leb_chars in Hle.
Qed.

Section indexes_thm.
  Context `{Aead} `{Crc} `{Codecs} `{Leaves} `{!Values}.
  Context `{!AeadLaws} `{!CodecsLaws} `{!ValuesLaws}.

(** The keys of the index are texts. *)
Lemma changes_valid cs (P : str → Prop) : Forall (fun c => P c.1) cs → ∀ st : Index * Z, (∀ k, is_Some (st.1 !! k) → P k) →
  ∀ k, is_Some ((apply_changes st cs).1 !! k) → P k.
Proof.
  unfold apply_changes. induction 1 as [|c cs Hc _ IH]; intros st Hst; [exact Hst|]. cbn [List.fold_left]. apply IH. destruct st as [ix sq], c as [k' [e|]]; cbn [apply_change fst snd] in *.
  - intros k. destruct (decide (k' = k)) as [<-|Hne]; [done|]. rewrite lookup_insert_ne by done. apply Hst.
  - intros k. destruct (decide (k' = k)) as [<-|Hne]; [done|]. rewrite lookup_delete_ne by done. apply Hst.
Qed.
Lemma inv_keys_valid req t rs todo i k : inv req t rs todo i → is_Some (index (mem i) !! k) → valid_str k.
Proof.
  intros Hi Hk. pose proof (iv_agree _ _ _ _ _ Hi k) as Ha. pose proof (iv_read _ _ _ _ _ Hi) as Hr. apply Forall_app in Hr as [Hr _].
  assert (is_Some ((apply_changes (∅, 0) (rec_changes FILE_HEADER_LEN rs)).1 !! k)) as Hs.
  { destruct Hk as [e He]. rewrite He in Ha. destruct ((apply_changes _ _).1 !! k); [by eexists|done]. }
  revert Hs. apply (changes_valid _ valid_str); [|intros k'; cbn [fst]; rewrite lookup_empty; by intros []].
  clear -Hr. generalize FILE_HEADER_LEN. induction Hr as [|r rs Hr _ IH]; intros pos; cbn [rec_changes]; constructor; [apply (rd_valid _ _ _ Hr)|apply IH].
Qed.

(** ** What the reading of the documents leaves in the index *)
Definition put_all (docs : str → option Doc) (l : list str) (s : SecIndex) : SecIndex := List.fold_left (fun s k => SecIndex.update k (docs k) s) l s.
Lemma update_maps k d s : ∃ m r, SecIndex.update k d s = with_maps s m r.
Proof.
  unfold SecIndex.update, SecIndex.remove. repeat case_match; cbn; by first [eexists _, _; reflexivity|exists (SecIndex.map s), (SecIndex.rev s); destruct s].
Qed.
Lemma put_all_ok docs l : ∀ s, sec_ok s →
  let s' := put_all docs l s in
  sec_ok s' ∧ (∃ m r, s' = with_maps s m r) ∧
  ∀ k, SecIndex.rev s' !! k = if bool_decide (k ∈ l) && glob_match (pattern s) k then docs k ≫= SecIndex.value s else SecIndex.rev s !! k.
Proof.
  induction l as [|x l IH]; intros s Hs; cbn [put_all List.fold_left].
  { split; [done|]. split; [exists (SecIndex.map s), (SecIndex.rev s); by destruct s|done]. }
  destruct (IH (SecIndex.update x (docs x) s) (sec_update_ok _ _ _ Hs)) as (N1 & (m & r & E) & N3). fold (put_all docs l (SecIndex.update x (docs x) s)).
  split; [exact N1|]. destruct (update_fields x (docs x) s) as (Ep & Ev & _). split.
  - rewrite E. destruct (update_maps x (docs x) s) as (m' & r' & ->). by exists m, r.
  - intros k. rewrite N3, Ep, Ev, update_rev. destruct (decide (k = x)) as [->|Hne].
    + rewrite (bool_decide_true (x ∈ x :: l)) by left. destruct (glob_match (pattern s) x); cbn [negb andb]; rewrite ?andb_false_r; [|done].
      rewrite lookup_partial_alter_eq. by destruct (_ && _).
    + rewrite (bool_decide_ext (k ∈ x :: l) (k ∈ l)) by (rewrite elem_of_cons; tauto). destruct (_ && _); [done|].
      destruct (negb _); [done|]. by rewrite lookup_partial_alter_ne.
Qed.
Lemma read_into_ok req t rs todo i l : inv req t rs todo i → Forall (fun ke => index (mem i) !! ke.1 = Some ke.2) l →
  ∀ s, read_into l s i = (put_all (fun k => stored_value i k ≫= as_doc) l.*1 s, i).
Proof.
  intros Hi. induction 1 as [|[k e] l Hk _ IH]; intros s; [done|]. cbn [read_into fmap list_fmap fst snd put_all List.fold_left] in *.
  destruct (iv_vals _ _ _ _ _ Hi k e Hk) as (_ & _ & [v Hv]). rewrite (read_value_in k e i v Hv), IH. unfold put_all.
  do 3 f_equal. unfold stored_value. by rewrite Hk, Hv.
Qed.
(** The keys read: the live documents of the pattern. *)
Lemma elem_keys_to_read req t rs todo i s k e : inv req t rs todo i → valid_str (glob_prefix (pattern s)) →
  (k, e) ∈ keys_to_read s t i ↔ index (mem i) !! k = Some e ∧ Type_is_doc (e_ty e) = true ∧ is_expired e t = false ∧ glob_match (pattern s) k = true.
Proof.
  intros Hi Hp. unfold keys_to_read. rewrite elem_filter, elem_prefix_range; [|by intros; eapply inv_keys_valid|done]. cbn [fst snd].
  rewrite !andb_true_iff, negb_true_iff. split; [tauto|]. intros (N1 & N2 & N3 & N4). repeat split; try done.
  apply bool_decide_eq_true. by apply glob_match_prefix.
Qed.
Lemma value_doc ks f e v : value_in ks f e = Some v → is_Some (as_doc v) → Type_is_doc (e_ty e) = true.
Proof.
  unfold value_in. repeat case_match; try done. intros [= <-]. by eapply decode_doc.
Qed.
(** The documents a client sees at [t]. *)
Definition live_doc (t : Z) (i : Inner) (k : str) : option Doc := look t i k ≫= fun ve => as_doc ve.1.
Lemma rebuild_ok req t rs todo i s : inv req t rs todo i → valid_str (glob_prefix (pattern s)) →
  ∃ m r, rebuild_sec t s i = (with_maps s m r, i) ∧ sec_ok (with_maps s m r) ∧
    ∀ k, r !! k = if glob_match (pattern s) k then live_doc t i k ≫= SecIndex.value s else None.
Proof.
  intros Hi Hp. unfold rebuild_sec. rewrite (read_into_ok req t rs todo); [|done|].
  2: { apply Forall_forall. intros [k e] Hk. by apply (elem_keys_to_read req t rs todo i s k e Hi Hp) in Hk as [? _]. }
  assert (sec_ok (SecIndex.clear s)) as Hc by apply sec_new_ok.
  destruct (put_all_ok (fun k => stored_value i k ≫= as_doc) (keys_to_read (SecIndex.clear s) t i).*1 _ Hc) as (N1 & (m & r & E) & N3).
  rewrite E in *. exists m, r. split; [done|]. split; [done|]. intros k. specialize (N3 k). cbn [with_maps SecIndex.rev SecIndex.clear pattern] in N3. rewrite N3, lookup_empty.
  change (SecIndex.value (SecIndex.clear s)) with (SecIndex.value s). destruct (glob_match (pattern s) k) eqn:Eg; [|by rewrite andb_false_r]. rewrite andb_true_r.
  unfold live_doc, look, stored_value. destruct (index (mem i) !! k) as [e|] eqn:Ek.
  - destruct (iv_vals _ _ _ _ _ Hi k e Ek) as (_ & _ & [v Hv]). rewrite Hv. cbn [mbind option_bind]. case_bool_decide as Hin.
    + apply list_elem_of_fmap in Hin as ([k' e'] & -> & Hin). apply (elem_keys_to_read req t rs todo i (SecIndex.clear s) _ e' Hi Hp) in Hin as (Ek' & _ & Ex & _).
      cbn [fst] in *. rewrite Ek in Ek'. injection Ek' as <-. by rewrite Ex.
    + destruct (is_expired e t) eqn:Ex; [done|]. cbn [mbind option_bind fst]. destruct (as_doc v) as [d|] eqn:Ed; [|done]. destruct Hin.
      apply list_elem_of_fmap. exists (k, e). split; [done|]. apply (elem_keys_to_read req t rs todo i (SecIndex.clear s) k e Hi Hp). split; [done|]. split; [|done].
      eapply value_doc; [exact Hv|by eexists].
  - by destruct (bool_decide _).
Qed.
Lemma glob_prefix_valid p : valid_str p → valid_str (glob_prefix p).
Proof. induction 1 as [|c p Hc _ IH]; [constructor|]. cbn [glob_prefix]. destruct (_ || _); by constructor. Qed.
Lemma inv_set_sec req t rs todo i l : inv req t rs todo i → Forall sec_ok l → Forall (sec_agrees t i) l → inv req t rs todo (set_sec l i).
Proof. intros [[? ? ? ? ?] ? ? ? ? ? ? ? ? ?] Hl Ha. split; done. Qed.
Lemma duplicate_none s : sec_ok s → first_duplicate s = None → ∀ k1 k2 x, SecIndex.rev s !! k1 = Some x → SecIndex.rev s !! k2 = Some x → k1 = k2.
Proof.
  intros Hs Hd k1 k2 x E1%(so_map _ Hs) E2%(so_map _ Hs). unfold first_duplicate in Hd. unfold post_get in E1, E2.
  destruct (lookup x (SecIndex.map s)) as [set|] eqn:Ex; [change (k1 ∈ set) in E1; change (k2 ∈ set) in E2|by apply elem_of_empty in E1].
  destruct (List.find _ _) as [[y big]|] eqn:Ef.
  - apply find_some in Ef as [_ Hb%Nat.ltb_lt]. cbn [snd] in *. change (base.size big) with (length (elements big)) in Hb.
    destruct (elements big) as [|a [|b l]]; cbn [length] in Hb; [lia..|done].
  - pose proof (find_none _ _ Ef (x, set)) as Hn. cbn [snd] in Hn. rewrite <- list_elem_of_In, elem_of_map_to_list in Hn. specialize (Hn Ex).
    apply Nat.ltb_ge in Hn. change (base.size set) with (length (elements set)) in Hn. rewrite <- elem_of_elements in E1, E2.
    destruct (elements set) as [|a [|b l]]; cbn [length] in Hn; [by apply elem_of_nil in E1| |lia]. apply list_elem_of_singleton in E1, E2. congruence.
Qed.

(** The documents read are those the index has to hold. *)
Lemma rebuilt_agrees req t rs todo i s m r : inv req t rs todo i →
  (∀ k, r !! k = if glob_match (pattern s) k then live_doc t i k ≫= SecIndex.value s else None) → sec_agrees t i (with_maps s m r).
Proof.
  intros Hi Hrev k. cbn [with_maps SecIndex.rev]. rewrite Hrev. unfold indexed, live_doc, look, stored_value. cbn [with_maps pattern].
  change (SecIndex.value (with_maps s m r)) with (SecIndex.value s).
  destruct (glob_match _ _); [|by left]. destruct (index (mem i) !! k) as [e|] eqn:Ek; [|by left]. destruct (is_expired e t) eqn:Ex; [right; split; [done|by exists e]|left].
  by destruct (value_in _ _ e).
Qed.
Lemma inv_add_sec req t rs todo i s : inv req t rs todo i → sec_ok s → sec_agrees t i s → inv req t rs todo (set_sec (sec (mem i) ++ [s]) i).
Proof.
  intros Hi Hs Ha. apply inv_set_sec; [done|apply Forall_app; split; [apply Hi|by apply Forall_singleton]|].
  apply Forall_app. split; [apply Hi|by apply Forall_singleton].
Qed.
(** C20: a new index holds exactly the documents that are there. When
    [create_unique_index] succeeds, the index it adds maps each key of its
    pattern to the value of the live document under it, and no other key; a
    unique one has no value twice. Nothing a client sees changes, the state
    stays right, and a refused index leaves the others as they were. *)
Theorem index_created req rs i io_meta now parse (pattern_ : str) fields kind_ unique_ ignore_case :
  inv req now rs [] i → valid_str pattern_ →
  let '(r, i') := create_unique_index io_meta now parse pattern_ fields kind_ unique_ ignore_case i in
  inv req now rs [] i' ∧ (∀ t k, look t i' k = look t i k) ∧
  match r with
  | Ok n => ∃ paths s,
      parse_all parse fields = Ok paths ∧ List.find (named pattern_ (join_fields fields)) (sec (mem i)) = None ∧
      sec (mem i') = sec (mem i) ++ [s] ∧ n = Z.of_nat (base.size (SecIndex.rev s)) ∧ sec_ok s ∧
      s = with_maps (SecIndex.new pattern_ (join_fields fields) paths kind_ unique_ ignore_case) (SecIndex.map s) (SecIndex.rev s) ∧
      (∀ k, SecIndex.rev s !! k = if glob_match pattern_ k then live_doc now i k ≫= SecIndex.value s else None) ∧
      (unique_ = true → ∀ k1 k2 x, SecIndex.rev s !! k1 = Some x → SecIndex.rev s !! k2 = Some x → k1 = k2)
  | Err e => e = Io "{e}" ∨ sec (mem i') = sec (mem i)
  end.
Proof.
  intros Hi Hp. assert (∀ err : KivaError, inv req now rs [] i ∧ (∀ t k, look t i k = look t i k) ∧ (err = Io "{e}" ∨ sec (mem i) = sec (mem i))) as Hno by (intros; auto).
  unfold create_unique_index. do 4 (match goal with |- context [if ?b then _ else _] => destruct b; [apply Hno|] end).
  unfold mbind, M_bind, lift, st. destruct (parse_all parse fields) as [paths|err] eqn:Ep; [|apply Hno].
  destruct (List.find _ _) as [s0|] eqn:Ef; [apply Hno|]. set (s0 := SecIndex.new _ _ _ _ _ _).
  destruct (rebuild_ok req now rs [] i s0 Hi) as (m & r & Er & Hok & Hrev); [by apply glob_prefix_valid|]. rewrite Er.
  destruct (unique_ && _) eqn:Eu; [apply Hno|].
  assert (inv req now rs [] (set_sec (sec (mem i) ++ [with_maps s0 m r]) i)) as Hi' by (apply inv_add_sec; [done..|by eapply rebuilt_agrees]).
  destruct io_meta; (split; [exact Hi'|]); (split; [done|]); [|by left].
  exists paths, (with_maps s0 m r). repeat (split; [done|]). intros ->. apply duplicate_none; [done|]. apply eq_None_not_Some.
  cbn [andb] in Eu. by apply bool_decide_eq_false in Eu.
Qed.
End indexes_thm.

(** A unique index on the first field of pairs, made after a put and a batch. *)
Definition sample_parse (f : str) : result String.string bool := Ok (bool_decide (f = lit "first")).
Lemma index_created_witness :
  let i := run (take 2 sample_history) (created sample_opts 77) in
  ∃ rs i' s, inv false (T0 + 10) rs [] i ∧ valid_str (lit "*") ∧
    create_unique_index true (T0 + 10) sample_parse (lit "*") [lit "first"] BTree true false i = (Ok 1, i') ∧
    sec (mem i') = [s] ∧ SecIndex.rev s !! lit "b" = Some [1].
Proof.
  intros i. assert (Forall (eop_pre None) (take 2 sample_history)) as Hp by apply Forall_take, sample_pre.
  destruct (history_ok sample_opts 77 T0 (take 2 sample_history) sample_opts_ok ltac:(by vm_compute) (clocks_take 2 _ _ sample_clocks) Hp) as (cs & Hlog).
  pose proof (history_all _ _ _ _ _ Hlog) as Hi. assert (valid_str (lit "*")) as Hv by (apply ascii_valid; ascii).
  pose proof (index_created _ _ _ true (T0 + 10) sample_parse (lit "*") [lit "first"] BTree true false Hi Hv) as Hc. fold i in Hi, Hc.
  destruct (create_unique_index _ _ _ _ _ _ _ _ i) as [r i'] eqn:Ec. exists (List.concat cs), i'.
  assert (r = Ok 1) as -> by (change r with (fst (r, i')); rewrite <- Ec; vm_compute; reflexivity).
  destruct Hc as (_ & _ & paths & s & Epa & _ & Es & _ & _ & Ew & Hrev & _). exists s. split; [exact Hi|]. split; [exact Hv|]. split; [done|]. split; [exact Es|].
  rewrite Hrev, Ew. injection Epa as <-. vm_compute. reflexivity.
Defined.
