(* ===== verification/SortKeys.v ===== *)
(** * [src/engine/ordering.rs]: the value a document sorts by

    Times and moments are put in one form before they are compared. How
    [chrono] writes a moment to the nanosecond is a parameter. *)
From S2P Require Import Prelude Utf8 Text Util DocNum Ordering Kdoc Paths Times Json Value View Moments.
Open Scope Z_scope.

(** [to_rfc3339_opts(SecondsFormat::Nanos, true)] *)
Class NanoText `{Chrono} := { rfc3339_nanos : DateTime → str }.

Section sort_keys.
  Context `{HN : JsonNumbers} `{HM : !JsonMake} `{HD : Decimals} `{HF : !DecimalFrom} `{HT : !DecimalText} `{HB : !DecimalBytes}.
  Context `{HC : Chrono} `{HK : !Calendar} `{HR : !Rfc3339} `{HX : !NanoText}.

Definition byte_at (b : bytes) (n : nat) : Z := default 0 (b !! n).
Definition all_digits (b : bytes) (from to : nat) : bool := forallb is_digitb (take (to - from) (drop from b)).
(** Counted from the end. *)
Definition end_digits (b : bytes) (from to : nat) : bool := all_digits b (length b - to) (length b - from).
Definition ends_with (s t : str) : bool := bool_decide (is_Some (strip_suffix t s)).
Definition has_offset (s : str) : bool :=
  let s := Utf8.trim s in
  if ends_with s (lit "Z") || ends_with s (lit "z") || ends_with s (lit " UTC") then true
  else
    let b := utf8 s in
    let n := length b in
    let signed at_ := Nat.ltb at_ n && is_sign (byte_at b (n - at_ - 1)) in
    (signed 5%nat && (byte_at b (n - 3) =? 58) && end_digits b 0 2 && end_digits b 3 5) || (signed 4%nat && end_digits b 0 4).
Definition date_prefix (s : str) : option NaiveDate :=
  let b := utf8 s in
  if Nat.ltb (length b) 10 then None
  else if negb ((byte_at b 4 =? 45) && (byte_at b 7 =? 45)) then None
  else
    let digits from to := if all_digits b from to then read_digits 0 (take (to - from) (drop from b)) else None in
    y ← digits 0%nat 4%nat; m ← digits 5%nat 7%nat; d ← digits 8%nat 10%nat; from_ymd_opt y m d.
Definition canonical (s : str) : option str :=
  let b := utf8 s in
  if Nat.leb 5 (length b) && is_digitb (byte_at b 0) && is_digitb (byte_at b 1) && (byte_at b 2 =? 58) then
    t ← ok (parse_time s); Some (format_time HMSF t)
  else
    y ← year <$> date_prefix s;
    if negb ((1001 <=? y) && (y <=? 9998)) || negb (has_offset s) then None
    else at_ ← ok (parse_datetime s Utc); Some (rfc3339_nanos at_).
(** Of a value held by an index. *)
Definition sort_key_of (v : Ordering.SKey) : option Ordering.SKey :=
  match v with
  | KNull | KTuple _ => None
  | KStr s => Some (KStr (default s (canonical s)))
  | sk => Some sk
  end.
Definition sort_key (v : option Json) : option Ordering.SKey :=
  v ← v; k ← skey_from_json v; match k with KStr s => Some (KStr (default s (canonical s))) | sk => sort_key_of sk end.
Definition sort_key_leaf (v : option Leaf) : option Ordering.SKey :=
  v ← v; match leaf_decimal v with Some d => Some (KNum (KDecimal d)) | None => sort_key (Some (leaf_json v)) end.
(** An index places a row where its document does. *)
Lemma sort_key_index l : sort_key_leaf (Some l) = skey_from_leaf l ≫= sort_key_of.
Proof.
  unfold sort_key_leaf, skey_from_leaf. cbn [mbind option_bind]. destruct (leaf_decimal l); [done|]. unfold sort_key. cbn [mbind option_bind].
  by destruct (skey_from_json (leaf_json l)) as [[]|].
Qed.
End sort_keys.
