(* ===== verification/Run.v ===== *)
(** * [src/engine.rs]: a query is run

    [examine] reads the document of one key and tests it; [read_each] and
    [read_chunks] go over the keys the indexes give, or over those of the
    prefix a few at a time; [run_by_key] gives the rows in the order of the
    keys, [run_sorted] in the order of a field. The closure the rows are given
    to is a function on a state of its own ([F]); what it had gathered is lost
    with an error. [choose] decides where the documents come from; when it
    prefers the walk of an index in the order of its values, what that walk
    offers to the rows is an argument ([walk]): it is not modelled. The
    durations of [Measured] are left out. *)
From S2P Require Import Prelude Utf8 Text Util Maps Types Compress Format Crypt Log Cache DocNum Ordering Kdoc Paths PathText Times Json Value SecIndex Engine View Select Moments Query Plan SortKeys.
Open Scope Z_scope.

Record QueryPlan := { strategy : str; q_index : option str; candidates : Z; total_keys : Z; q_order : option str }.
Record Measured := {
  index_entries : Z; keys_examined : Z; docs_read : Z; from_cache : Z; filtered_out : Z; returned : Z; sorted : Z;
}.
Definition measured (entries : Z) : Measured :=
  {| index_entries := entries; keys_examined := 0; docs_read := 0; from_cache := 0; filtered_out := 0; returned := 0; sorted := 0 |}.
Definition examined (m : Measured) : Measured :=
  {| index_entries := index_entries m; keys_examined := keys_examined m + 1; docs_read := docs_read m; from_cache := from_cache m;
     filtered_out := filtered_out m; returned := returned m; sorted := sorted m |}.
Definition doc_read (m : Measured) : Measured :=
  {| index_entries := index_entries m; keys_examined := keys_examined m; docs_read := docs_read m + 1; from_cache := from_cache m;
     filtered_out := filtered_out m; returned := returned m; sorted := sorted m |}.
Definition cache_hit (m : Measured) : Measured :=
  {| index_entries := index_entries m; keys_examined := keys_examined m; docs_read := docs_read m; from_cache := from_cache m + 1;
     filtered_out := filtered_out m; returned := returned m; sorted := sorted m |}.
Definition refused (m : Measured) : Measured :=
  {| index_entries := index_entries m; keys_examined := keys_examined m; docs_read := docs_read m; from_cache := from_cache m;
     filtered_out := filtered_out m + 1; returned := returned m; sorted := sorted m |}.
Definition counted (r s : Z) (m : Measured) : Measured :=
  {| index_entries := index_entries m; keys_examined := keys_examined m; docs_read := docs_read m; from_cache := from_cache m;
     filtered_out := filtered_out m; returned := r; sorted := s |}.
(** [partition_point] of a slice whose first part passes. *)
Definition partition_point {A} (f : A → bool) (l : list A) : nat := length (Prelude.take_while f l).

Section run.
  Context `{HA : Aead} `{HZ : Crc} `{HO : Codecs}.
  Context `{HN : JsonNumbers} `{HM : !JsonMake} `{HD : Decimals} `{HF : !DecimalFrom} `{HT : !DecimalText} `{HB : !DecimalBytes}.
  Context `{HC : Chrono} `{HK : !Calendar} `{HR : !Rfc3339} `{HS : !Serde} `{HL : Lowercase} `{HX : !NanoText}.
  Context (zone : Zone).

Inductive Source := Keys_ (l : list str) | Prefix | Walk (oi : nat) (probe : Probe).
Record Order := { o_field : str; o_path : list Seg; o_desc : bool }.
Definition order_new (field : str) (desc : bool) : result msg Order :=
  _ ← check_field field; path ← path_of field; Ok {| o_field := field; o_path := path; o_desc := desc |}.
Definition describe (o : Order) : str := o_field o ++ lit " " ++ lit (if o_desc o then "desc" else "asc").
Definition key_of (o : Order) (doc : Value) : option Ordering.SKey := d ← view_of doc; sort_key_leaf (view_get d (o_path o)).
Record ReadOpts := { limit : nat; order : option Order; after : option str; reverse : bool }.

(** ** One document *)
Definition read_counted (key : str) (e : Entry) (m : Measured) : M (Value * Measured) := fun i =>
  match Cache.get key (version e) (cache (mem i)) with
  | (Some v, c) => (Ok (v, cache_hit m), set_cache c i)
  | (None, c) =>
    (v ← read_value key e;
     _ ← modify (fun i => set_cache (Cache.put key (version e) v (raw_size e) (cache (mem i))) i);
     mret (v, m)) (set_cache c i)
  end.
Definition examine (q : Query) (key : str) (now : Z) (m : Measured) : M (option Value * Measured) :=
  let m := examined m in
  if negb (glob_match (q_pattern q) key) then mret (None, m)
  else
    e ← liveM key now;
    match e with
    | None => mret (None, m)
    | Some e =>
      if negb (Type_is_doc (e_ty e)) then mret (None, m)
      else
        '(value, m) ← read_counted key e (doc_read m);
        match view_of value with
        | None => mret (None, m)
        | Some doc => if query_matches zone q doc then mret (Some value, m) else mret (None, refused m)
        end
    end.

(** ** The keys read *)
Section reading.
  Context {S : Type} (each : S → str → Value → result KivaError (S * bool)) (q : Query) (now : Z).
Fixpoint read_each (keys : list str) (m : Measured) (s : S) : M (S * Measured * bool) :=
  match keys with
  | [] => mret (s, m, true)
  | key :: keys =>
    '(doc, m) ← examine q key now m;
    match doc with
    | None => read_each keys m s
    | Some doc => '(s, go) ← lift (each s key doc); if go : bool then read_each keys m s else mret (s, m, false)
    end
  end.
Fixpoint read_chunks (fuel : nat) (from : option str) (reverse : bool) (m : Measured) (s : S) : M (S * Measured) :=
  match fuel with
  | O => lift (Err (Other "out of fuel"))
  | Datatypes.S fuel =>
    chunk ← gets (fun i => prefix_chunk (keys_of (index (mem i))) (glob_prefix (q_pattern q)) from reverse);
    match last chunk with
    | None => mret (s, m)
    | Some last =>
      '(s, m, go) ← read_each chunk m s;
      if go : bool then read_chunks fuel (Some last) reverse m s else mret (s, m)
    end
  end.
(** The keys after (before, in reverse) a place, in the order they are read. *)
Definition page_of (keys : list str) (after : option str) (reverse : bool) : list str :=
  match after with
  | Some a =>
    if reverse then List.rev (take (partition_point (fun k => str_ltb k a) keys) keys)
    else drop (partition_point (fun k => negb (str_ltb a k)) keys) keys
  | None => if reverse then List.rev keys else keys
  end.
Definition read_source (source : Source) (after : option str) (reverse : bool) (m : Measured) (s : S) : M (S * Measured) :=
  match source with
  | Keys_ keys => '(s, m, _) ← read_each (page_of keys after reverse) m s; mret (s, m)
  | Prefix => fun i => read_chunks (Datatypes.S (length (keys_of (index (mem i))))) after reverse m s i
  | Walk _ _ => lift (Err (Other "unreachable: an order index is only chosen to sort"))
  end.
End reading.

(** ** Where the documents come from *)
Definition no_plan (pattern : str) (i : Inner) (n : Z) : QueryPlan :=
  {| strategy := if bool_decide (glob_prefix pattern = []) then lit "FULL SCAN" else lit "PREFIX SCAN"; q_index := None; candidates := n;
     total_keys := Z.of_nat (base.size (index (mem i))); q_order := None |}.
Definition scan_plan (pattern : str) (i : Inner) : QueryPlan :=
  let prefix := glob_prefix pattern in
  no_plan pattern i (len (Prelude.take_while (fun k => Engine.starts_with prefix k) (List.filter (fun k => str_leb prefix k) (keys_of (index (mem i)))))).
Definition plan_of (p : IndexPlan) (i : Inner) : QueryPlan :=
  {| strategy := if 1 <? indexes p then lit "INDEX MERGE" else lit "INDEX SCAN"; q_index := Some (used p); candidates := len (p_keys p);
     total_keys := Z.of_nat (base.size (index (mem i))); q_order := None |}.
Definition with_order (o : option Order) (limit : nat) (p : QueryPlan) : QueryPlan :=
  match o with
  | None => p
  | Some o =>
    {| strategy := strategy p; q_index := q_index p; candidates := candidates p; total_keys := total_keys p;
       q_order := Some (describe o ++ match limit with O => lit ", sorted in memory" | _ => lit ", sorted in memory (the first {n} kept while reading)" end) |}
  end.
Definition order_index (sec : list SecIndex) (pattern_ : str) (o : Order) : option nat :=
  index_where (fun s => kind_is BTree s && Nat.eqb (length (paths s)) 1 && negb (fold s) && bool_decide (field s = o_field o) &&
                        pattern_covers (pattern s) pattern_) sec.
(** How many of its documents the filter leaves, at most about [enough]: the
    square root, of a float, is exact below 2^52. *)
Definition enough (l n : Z) : Z := l + Z.sqrt (l * n / 32) + 2.
Definition walk_cheaper (l n : Z) (c : option Z) : bool :=
  match c with None => true | Some c => l + l * n / (32 * Z.max c 1) <? c end.
Fixpoint join_words (word : str) (names : list str) : str :=
  match names with [] => [] | [x] => x | x :: names => x ++ word ++ join_words word names end.
Fixpoint probe_describe (sec : list SecIndex) (p : Probe) : option str :=
  match p with
  | PAny => None
  | PTest n _ => index_name <$> sec !! n
  | PAnd [p] => probe_describe sec p
  | PAnd parts => Some (lit "(" ++ join_words (lit " and ") (omap (fun x => x) (List.map (probe_describe sec) parts)) ++ lit ")")
  | POr parts => Some (lit "(" ++ join_words (lit " or ") (omap (fun x => x) (List.map (probe_describe sec) parts)) ++ lit ")")
  end.
Definition walk_plan (i : Inner) (o : Order) (s : SecIndex) (probe : Probe) (l n : Z) (c : option Z) : QueryPlan :=
  {| strategy := lit "INDEX ORDER SCAN";
     q_index := Some (index_name s ++ match probe_describe (sec (mem i)) probe with
       | Some f => lit " for the order, " ++ f ++ lit " checked for the filter"
       | None => []
       end);
     candidates := match c with Some c => Z.min (l * n / Z.max c 1) n | None => n end;
     total_keys := Z.of_nat (base.size (index (mem i)));
     q_order := Some (describe o ++ lit ", read in the order of the index: stops after {limit}") |}.
(** The walk of an index, when there is an order, a limit and an index for
    them, and it is the cheaper reading. *)
Definition choose_walk (i : Inner) (q : Query) (opts : ReadOpts) : option (Source * QueryPlan * Z) :=
  o ← order opts;
  if Nat.eqb (limit opts) 0 then None
  else
    oi ← order_index (sec (mem i)) (q_pattern q) o;
    s ← sec (mem i) !! oi;
    let l := Z.of_nat (limit opts) in
    let n := Z.of_nat (base.size (SecIndex.rev s)) in
    let c := e ← q_expr q; estimate zone (sec (mem i)) e (enough l n mod 2 ^ 64) in
    if walk_cheaper l n c then
      let probe := match q_expr q with Some e => probe_of (sec (mem i)) e | None => PAny end in
      Some (Walk oi probe, walk_plan i o s probe l n c, 0)
    else None.
(** [estimate_]: whether the keys of a scan are counted. *)
Definition choose (i : Inner) (q : Query) (opts : ReadOpts) (estimate_ : bool) : Source * QueryPlan * Z :=
  match choose_walk i q opts with
  | Some chosen => chosen
  | None =>
    let listed := e ← q_expr q; index_plan zone (sec (mem i)) e in
    let '(source, plan, entries) :=
      match listed with
      | Some p => (Keys_ (p_keys p), plan_of p i, p_entries p)
      | None => (Prefix, if estimate_ then scan_plan (q_pattern q) i else no_plan (q_pattern q) i 0, 0)
      end in
    (source, with_order (order opts) (limit opts) plan, entries)
  end.

(** ** The rows, in the order of their keys *)
Section rows.
  Context {F : Type} (f : F → str → Value → result msg F).
Definition goes_on (limit : nat) (n : Z) : bool := Nat.eqb limit 0 || (n <? Z.of_nat limit).
Definition emit_row (limit : nat) (s : F * Z) (key : str) (doc : Value) : result KivaError (F * Z * bool) :=
  match f s.1 key doc with
  | Err e => Err (Invalid e)
  | Ok a => let n := s.2 + 1 in Ok (a, n, goes_on limit n)
  end.
Definition run_by_key (q : Query) (opts : ReadOpts) (estimate_ : bool) (now : Z) (a : F) : M (F * QueryPlan * Measured) := fun i =>
  let '(source, plan, entries) := choose i q opts estimate_ in
  ('(s, m) ← read_source (emit_row (limit opts)) q now source (after opts) (reverse opts) (measured entries) (a, 0);
   mret (s.1, plan, counted s.2 0 m)) i.

(** ** The rows, in the order of a field *)
(** What the walk of an index offers, from a place. *)
Context (walk : nat → Probe → option (option Ordering.SKey * str) → Measured → @TopK _ _ Value → M (@TopK _ _ Value * Measured)).
Definition offer_row (o : Order) (after : option (option Ordering.SKey * str)) (top : @TopK _ _ Value) (key : str) (doc : Value)
    : result KivaError (@TopK _ _ Value * bool) :=
  let sk := key_of o doc in
  let follows := match after with
    | None => true
    | Some (a, ak) => match compare sk key a ak (o_desc o) with Gt => true | _ => false end
    end in
  Ok (if follows then offer top sk key doc else top, true).
Fixpoint emit_rows (limit : nat) (rows : list (@Row _ _ Value)) (s : F * Z) : result KivaError (F * Z) :=
  match rows with
  | [] => Ok s
  | r :: rows => '(s, go) ← emit_row limit s (rkey r) (rdoc r); if go : bool then emit_rows limit rows s else Ok s
  end.
Definition EVERY : Query := {| q_pattern := [STAR]; q_expr := None |}.
Definition start_after (o : Order) (after : option str) (now : Z) : M (option (option Ordering.SKey * str)) :=
  match after with
  | None => mret None
  | Some k =>
    '(doc, _) ← examine EVERY k now (measured 0);
    match doc with
    | Some doc => mret (Some (key_of o doc, k))
    | None => lift (Err (Invalid "'after {k}': no such document, so its place in the order is unknown; page from the last key the previous page returned"))
    end
  end.
Definition run_sorted (o : Order) (q : Query) (opts : ReadOpts) (estimate_ : bool) (now : Z) (a : F) : M (F * QueryPlan * Measured) := fun i =>
  let '(source, plan, entries) := choose i q opts estimate_ in
  (if reverse opts then lift (Err (Invalid "with 'order by', say 'desc' rather than 'reverse'"))
   else
     from ← start_after o (after opts) now;
     let top := TopK_new (limit opts) (o_desc o) in
     '(top, m) ← match source with
                 | Walk oi probe => walk oi probe from (measured entries) top
                 | _ => read_source (offer_row o from) q now source None false (measured entries) top
                 end;
     '(a, n) ← lift (emit_rows (limit opts) (into_sorted top) (a, 0));
     mret (a, plan, counted n (offered top) m)) i.
Definition run_query (q : Query) (opts : ReadOpts) (estimate_ : bool) (now : Z) (a : F) : M (F * QueryPlan * Measured) :=
  match order opts with
  | None => run_by_key q opts estimate_ now a
  | Some o => run_sorted o q opts estimate_ now a
  end.
End rows.

(** [query_expr]: the documents as JSON. *)
Definition push_json (rows : list (str * Json)) (key : str) (doc : Value) : result msg (list (str * Json)) :=
  Ok (rows ++ [(key, default JNull (json_doc doc))]).
Definition query_expr (walk : nat → Probe → option (option Ordering.SKey * str) → Measured → @TopK _ _ Value → M (@TopK _ _ Value * Measured))
    (q : Query) (limit : nat) (now : Z) : M (list (str * Json) * QueryPlan) :=
  '(rows, plan, _) ← run_query push_json walk q {| limit := limit; order := None; after := None; reverse := false |} true now [];
  mret (rows, plan).
End run.
