(* ===== verification/RunThm.v ===== *)
(** * A query gives its documents, all of them, in order

    Whatever the indexes, the expired documents dropped on the way and the
    chunks the keys are read by, the rows are those of a scan of every key. *)
From S2P Require Import Prelude Utf8 Text Util Maps Types Compress Format Crypt Log Cache DocNum Ordering Kdoc Paths PathText Times Json Value SecIndex Engine EngineMem EngineOk EngineThm Indexes View Select Moments Query Plan PlanThm SortKeys Run.
Open Scope Z_scope.

Section run_thm.
  Context `{HA : Aead} `{HZ : Crc} `{HO : Codecs} `{LA : !AeadLaws} `{LO : !CodecsLaws}.
  Context `{HN : JsonNumbers} `{HM : !JsonMake} `{HD : Decimals} `{HF : !DecimalFrom} `{HT : !DecimalText} `{HB : !DecimalBytes}.
  Context `{HC : Chrono} `{HK : !Calendar} `{HR : !Rfc3339} `{HS : !Serde} `{HL : Lowercase} `{HX : !NanoText}.
  Context `{LD : !DecimalsLaws} `{LJ : !JsonNumbersLaws} `{LF : !DecimalFromLaws}.
  Context `{LM : !JsonMakeLaws} `{LT : !DecimalTextLaws} `{LB : !DecimalBytesLaws} `{LC : !ChronoLaws} `{LK : !CalendarLaws} `{LR : !Rfc3339Laws} `{LS : !SerdeLaws}.
  Context (zone : Zone).

(** ** What a query means *)
(** The document under a key, when the query selects it. *)
Definition selected (q : Query) (t : Z) (i : Inner) (k : str) : option Value :=
  if glob_match (q_pattern q) k then
    ve ← look t i k; d ← view_of ve.1; if query_matches zone q d then Some ve.1 else None
  else None.
Definition row_at (q : Query) (t : Z) (i : Inner) (k : str) : option (str * Value) := pair k <$> selected q t i k.
Definition rows_of (q : Query) (t : Z) (i : Inner) (l : list str) : list (str * Value) := omap (row_at q t i) l.
(** Its rows among the keys after a place, upwards or downwards. *)
Definition answer (q : Query) (t : Z) (i : Inner) (after : option str) (reverse : bool) : list (str * Value) :=
  rows_of q t i (keys_beyond (keys_of (index (mem i))) [] after reverse).

Lemma row_some q t i k r : row_at q t i k = Some r →
  ∃ v x d, r = (k, v) ∧ glob_match (q_pattern q) k = true ∧ look t i k = Some (v, x) ∧ view_of v = Some d ∧ query_matches zone q d = true.
Proof.
  unfold row_at, selected. destruct (glob_match _ _); [|done]. destruct (look t i k) as [[v x]|]; [|done]. cbn [mbind option_bind fst].
  destruct (view_of v) as [d|] eqn:Ed; [|done]. cbn [mbind option_bind]. destruct (query_matches zone q d) eqn:Em; [|done]. cbn. intros [= <-]. by exists v, x, d.
Qed.

(** ** Reading keeps what a client sees *)
Record reads (req : bool) (t : Z) (rs : list Rec) (i i' : Inner) : Prop := {
  rd_inv : inv req t rs [] i';
  rd_look : ∀ t' k, t ≤ t' → look t' i' k = look t' i k;
  rd_index : ∀ k, is_Some (index (mem i') !! k) → is_Some (index (mem i) !! k);
}.
Lemma reads_refl req t rs i : inv req t rs [] i → reads req t rs i i.
Proof. by split. Qed.
Lemma reads_trans req t rs i1 i2 i3 : reads req t rs i1 i2 → reads req t rs i2 i3 → reads req t rs i1 i3.
Proof. intros [? L1 I1] [? L2 I2]. split; [done|intros; by rewrite L2, L1|auto]. Qed.
Lemma reads_row req t rs q i i' k : reads req t rs i i' → row_at q t i' k = row_at q t i k.
Proof. intros Hr. unfold row_at, selected. by rewrite (rd_look _ _ _ _ _ Hr) by done. Qed.
Lemma reads_rows req t rs q i i' l : reads req t rs i i' → rows_of q t i' l = rows_of q t i l.
Proof. intros Hr. unfold rows_of. induction l as [|x l IH]; [done|]. cbn [omap list_omap]. rewrite (reads_row _ _ _ _ _ _ x Hr). by destruct (row_at q t i x); rewrite IH. Qed.
Lemma reads_live req t rs i k : inv req t rs [] i → reads req t rs i (live k t i).2.
Proof.
  intros Hi. split; [by apply inv_live|intros; by apply look_live|]. intros k'.
  destruct (live_cases k t i) as [(e & -> & _)|[[-> _]|(e & -> & _)]]; [done|done|]. cbn [snd tell_expired mem]. rewrite idx_remove_index.
  intros [e' He']. apply lookup_delete_Some in He' as [_ He']. by exists e'.
Qed.
Lemma read_counted_ok req t rs i k e m : inv req t rs [] i → index (mem i) !! k = Some e →
  ∃ v m' i', read_counted k e m i = (Ok (v, m'), i') ∧ stored_value i k = Some v ∧ reads req t rs i i'.
Proof.
  intros Hi Hk. destruct (value_of_ok _ _ _ _ _ _ _ Hi Hk) as (v & i' & Ev & Hv & Hi' & _ & Ex & _ & _ & _ & Hsv & _).
  assert (∃ m', read_counted k e m i = (Ok (v, m'), i')) as [m' E].
  { unfold read_counted. unfold value_of in Ev. destruct (Cache.get _ _ _) as [[x|] c]; [injection Ev as -> ->; by eexists|].
    unfold mbind, M_bind, mret, M_ret, modify in *. destruct (read_value k e (set_cache c i)) as [[x|] j]; [|done]. injection Ev as -> <-. by eexists. }
  exists v, m', i'. split; [exact E|]. split; [done|]. split; [done|intros; unfold look; by rewrite Ex, Hsv|by rewrite Ex].
Qed.
Lemma examine_ok req t rs i q k m : inv req t rs [] i →
  ∃ m' i', examine zone q k t m i = (Ok (selected q t i k, m'), i') ∧ reads req t rs i i'.
Proof.
  intros Hi. unfold examine, selected. destruct (glob_match _ k); cbn [negb]; [|by exists (examined m), i].
  pose proof (reads_live req t rs i k Hi) as Hr. unfold mbind at 1, M_bind, liveM.
  destruct (live_cases k t i) as [(e & El & Hk & Hx)|[[El Hk]|(e & El & Hk & Hx)]]; rewrite El in *; cbn [fst snd] in *.
  2,3: eexists _, _; split; [|exact Hr]; unfold look; rewrite Hk, ?Hx; done.
  destruct (iv_vals _ _ _ _ _ Hi k e Hk) as (_ & _ & [v0 Hv0]).
  assert (look t i k = Some (v0, e_expires_at e)) as -> by (unfold look, stored_value; by rewrite Hk, Hx, Hv0).
  cbn [mbind option_bind fst]. destruct (Type_is_doc (e_ty e)) eqn:Et; cbn [negb].
  2: { eexists _, _. split; [|exact Hr]. destruct (view_of v0) as [d|] eqn:Ed; [|done].
       pose proof (value_doc _ _ _ _ Hv0 (ltac:(by exists d) : is_Some (as_doc v0))). congruence. }
  destruct (read_counted_ok req t rs i k e (doc_read (examined m)) Hi Hk) as (v & m' & i' & E & Hv & Hr').
  assert (v = v0) as -> by (unfold stored_value in Hv; rewrite Hk in Hv; congruence).
  unfold mbind, M_bind, mret, M_ret. rewrite E. destruct (view_of v0) as [d|]; [|by eexists _, _].
  cbn [option_bind]. destruct (query_matches zone q d); by eexists _, _.
Qed.

(** ** The rows of a list of keys *)
Section reading.
  Context {S : Type} (each : S → str → Value → result KivaError (S * bool)) (q : Query).
Fixpoint feed (rows : list (str * Value)) (s : S) : result KivaError (S * bool) :=
  match rows with
  | [] => Ok (s, true)
  | (k, v) :: rows => '(s, go) ← each s k v; if go : bool then feed rows s else Ok (s, false)
  end.
Lemma feed_app rows rows' s : feed (rows ++ rows') s = '(s, go) ← feed rows s; if go : bool then feed rows' s else Ok (s, false).
Proof.
  revert s. induction rows as [|[k v] rows IH]; intros s; cbn [feed app]; [by cbn; destruct (feed rows' s) as [[]|]|].
  destruct (each s k v) as [[s' []]|]; cbn [mbind result_bind]; [apply IH|done|done].
Qed.
Lemma read_each_ok req t rs keys : ∀ i m s, inv req t rs [] i →
  ∃ m' i', read_each zone each q t keys m s i = ('(s, go) ← feed (rows_of q t i keys) s; Ok (s, m', go), i') ∧ reads req t rs i i'.
Proof.
  induction keys as [|k keys IH]; intros i m s Hi; cbn [read_each rows_of omap list_omap].
  { exists m, i. split; [done|by apply reads_refl]. }
  destruct (examine_ok req t rs i q k m Hi) as (m1 & i1 & E & Hr). unfold mbind at 1, M_bind. rewrite E.
  pose proof (fun l => reads_rows _ _ _ q _ _ l Hr) as Erow.
  change (list_omap _ _ (row_at q t i) keys) with (rows_of q t i keys). unfold row_at. destruct (selected q t i k) as [doc|]; cbn [fmap option_fmap option_map].
  - cbn [feed]. unfold mbind at 1, M_bind, lift. destruct (each s k doc) as [[s' []]|err]; cbn [mbind result_bind].
    + destruct (IH i1 m1 s' (rd_inv _ _ _ _ _ Hr)) as (m2 & i2 & E2 & Hr2). rewrite Erow in E2. exists m2, i2. split; [exact E2|by eapply reads_trans].
    + exists m1, i1. by split.
    + exists m1, i1. by split.
  - destruct (IH i1 m1 s (rd_inv _ _ _ _ _ Hr)) as (m2 & i2 & E2 & Hr2). rewrite Erow in E2. exists m2, i2. split; [exact E2|by eapply reads_trans].
Qed.
(** Rows do not depend on the keys that have none. *)
Lemma rows_filter t i l : rows_of q t i l = rows_of q t i (List.filter (fun k => bool_decide (is_Some (row_at q t i k))) l).
Proof.
  unfold rows_of. induction l as [|k l IH]; [done|]. cbn [omap list_omap List.filter]. destruct (row_at q t i k) as [r|] eqn:E; [|exact IH].
  rewrite bool_decide_true by done. cbn [omap list_omap]. rewrite E. by f_equal.
Qed.
Lemma rows_ext reverse t i l1 l2 : Forall valid_str l1 → StronglySorted (fun a b => ahead reverse a b = true) l1 →
  StronglySorted (fun a b => ahead reverse a b = true) l2 → (∀ k, is_Some (row_at q t i k) → k ∈ l1 ↔ k ∈ l2) → rows_of q t i l1 = rows_of q t i l2.
Proof.
  intros Hv Hs1 Hs2 Hk. rewrite (rows_filter t i l1), (rows_filter t i l2). f_equal. apply (ahead_unique reverse); [by apply Forall_filter_|by apply sorted_filter..|].
  intros k. rewrite !elem_filter. split; intros [Hin Hr]; (split; [|exact Hr]); apply bool_decide_eq_true in Hr; by apply Hk.
Qed.
Lemma row_key req t rs i k : inv req t rs [] i → is_Some (row_at q t i k) → is_Some (index (mem i) !! k).
Proof. intros Hi. unfold row_at, selected, look. destruct (index (mem i) !! k); [done|]. destruct (glob_match _ _); by intros []. Qed.
Lemma row_prefix t i k : is_Some (row_at q t i k) → Select.starts_with k (glob_prefix (q_pattern q)) = true.
Proof.
  unfold row_at, selected. destruct (glob_match _ _) eqn:Eg; [intros _|by intros []]. apply bool_decide_eq_true. by apply glob_match_prefix.
Qed.
Definition place_ok (from : option str) : Prop := match from with Some f => valid_str f | None => True end.
Lemma index_keys req t rs i : inv req t rs [] i → key_set (keys_of (index (mem i))).
Proof. intros Hi. apply keys_of_set. intros k. by eapply inv_keys_valid. Qed.
Lemma read_chunks_ok req t rs reverse fuel : ∀ i from m s, inv req t rs [] i → valid_str (q_pattern q) → place_ok from →
  (length (keys_beyond (keys_of (index (mem i))) (glob_prefix (q_pattern q)) from reverse) < fuel)%nat →
  ∃ m' i', read_chunks zone each q t fuel from reverse m s i =
    ('(s, _) ← feed (rows_of q t i (keys_beyond (keys_of (index (mem i))) (glob_prefix (q_pattern q)) from reverse)) s; Ok (s, m'), i') ∧ reads req t rs i i'.
Proof.
  set (prefix := glob_prefix (q_pattern q)). induction fuel as [|fuel IH]; intros i from m s Hi Hq Hf Hlen; [lia|]. cbn [read_chunks].
  assert (valid_str prefix) as Hp by (by apply glob_prefix_valid). destruct (index_keys _ _ _ _ Hi) as [Hs Hv].
  unfold mbind at 1, M_bind, gets. fold prefix. set (ks := keys_of (index (mem i))) in *.
  assert (prefix_chunk ks prefix from reverse = take CHUNK (keys_beyond ks prefix from reverse)) as ->
    by (destruct reverse; [by apply prefix_chunk_reverse|by apply prefix_chunk_forward]).
  pose proof (take_drop CHUNK (keys_beyond ks prefix from reverse)) as Etd.
  destruct (list_snoc_cases (take CHUNK (keys_beyond ks prefix from reverse))) as [E|(c & k & E)].
  { rewrite E. cbn [last]. assert (keys_beyond ks prefix from reverse = []) as -> by (destruct (keys_beyond _ _ _ _); [done|by apply (f_equal length) in E]).
    exists m, i. split; [done|by apply reads_refl]. }
  rewrite E, last_snoc. rewrite E in Etd. set (rest := drop CHUNK (keys_beyond ks prefix from reverse)) in *.
  pose proof (keys_beyond_next ks prefix Hs Hv from reverse c k rest Hf ltac:(by rewrite <- Etd, <- app_assoc)) as En.
  assert (k ∈ keys_beyond ks prefix from reverse) as Hk by (rewrite <- Etd; apply elem_of_app; left; apply elem_of_app; right; by left).
  apply elem_keys_beyond in Hk as (Hk & _ & _). pose proof (key_set_valid ks k (conj Hs Hv) Hk) as Hvk.
  destruct (read_each_ok req t rs (c ++ [k]) i m s Hi) as (m1 & i1 & E1 & Hr). unfold mbind at 1. rewrite E1.
  assert (rows_of q t i (keys_beyond ks prefix from reverse) = rows_of q t i (c ++ [k]) ++ rows_of q t i rest) as -> by (rewrite <- Etd; apply omap_app).
  rewrite feed_app. destruct (feed (rows_of q t i (c ++ [k])) s) as [[s1 []]|err]; cbn [mbind result_bind]; [|by exists m1, i1..].
  destruct (index_keys _ _ _ _ (rd_inv _ _ _ _ _ Hr)) as [Hs1 Hv1]. set (ks1 := keys_of (index (mem i1))) in *.
  pose proof (keys_beyond_sorted ks1 prefix Hs1 (Some k) reverse) as Hsk1. pose proof (keys_beyond_sorted ks prefix Hs (Some k) reverse) as Hsk.
  assert (∀ x, x ∈ ks1 → x ∈ ks) as Hsub by (intros x Hx; apply elem_keys_of, (rd_index _ _ _ _ _ Hr); by apply elem_keys_of).
  assert (Forall valid_str (keys_beyond ks1 prefix (Some k) reverse)) as Hvb1.
  { apply Forall_forall. intros x (Hx & _)%elem_keys_beyond. by apply (key_set_valid ks1). }
  assert (rows_of q t i1 (keys_beyond ks1 prefix (Some k) reverse) = rows_of q t i rest) as Erest.
  { rewrite <- En, (reads_rows _ _ _ q i i1) by exact Hr. apply (rows_ext reverse); [done..|]. intros x Hx. rewrite !elem_keys_beyond.
    assert (x ∈ ks1 ∧ x ∈ ks) as [? ?]; [|tauto]. split; apply elem_keys_of; eapply row_key; [apply Hr|by rewrite (reads_row _ _ _ _ _ _ _ Hr)|done|done]. }
  destruct (IH i1 (Some k) m1 s1 (rd_inv _ _ _ _ _ Hr) Hq Hvk) as (m2 & i2 & E2 & Hr2).
  { fold ks1. enough (length (keys_beyond ks1 prefix (Some k) reverse) ≤ length rest)%nat as Hle.
    { apply (f_equal length) in Etd. rewrite !length_app in Etd. cbn [length] in Etd. unfold ks in Hlen. fold ks in Hlen. lia. }
    rewrite <- En. apply submseteq_length, NoDup_submseteq; [by eapply ahead_NoDup|]. intros x. rewrite !elem_keys_beyond. intros (? & ? & ?). auto. }
  fold ks1 in E2. rewrite Erest in E2. exists m2, i2. split; [exact E2|by eapply reads_trans].
Qed.
(** A page of a set of keys. *)
Lemma partition_filter (f : str → bool) (l : list str) : StronglySorted str_lt l → (∀ x y, x ∈ l → y ∈ l → str_lt x y → f y = true → f x = true) →
  take (partition_point f l) l = List.filter f l ∧ drop (partition_point f l) l = List.filter (fun x => negb (f x)) l.
Proof.
  intros Hs. unfold partition_point. induction Hs as [|x l Hs IH Hx]; intros Hf; [done|]. cbn [Prelude.take_while List.filter].
  destruct (f x) eqn:E; cbn [length take drop negb].
  - destruct IH as [IH1 IH2]; [intros a b Ha Hb; apply Hf; by right|]. by rewrite IH1, IH2.
  - rewrite Forall_forall in Hx. assert (∀ y, y ∈ l → f y = false) as Hn.
    { intros y Hy. apply not_true_iff_false. intros Hfy. rewrite (Hf x y) in E; [done|by left|by right|by apply Hx|done]. }
    rewrite filter_none by (by apply Forall_forall). split; [done|]. f_equal. symmetry. apply filter_all, Forall_forall. intros y Hy. by rewrite Hn.
Qed.
Lemma page_beyond keys after reverse : key_set keys → place_ok after → page_of keys after reverse = keys_beyond keys [] after reverse.
Proof.
  intros [Hs Hv] Ha. unfold page_of, keys_beyond. assert (∀ k, Select.starts_with k [] = true) as Hnil by done.
  assert (∀ l, List.filter (fun k => Select.starts_with k [] && beyond None reverse k) l = l) as Hall by (intros l; by apply filter_all, Forall_true).
  destruct after as [a|]; [|by rewrite Hall]. rewrite Forall_forall in Hv. cbn [place_ok] in Ha. cbn [beyond]. unfold ahead. destruct reverse.
  - destruct (partition_filter (fun k => str_ltb k a) keys Hs) as [-> _]; [intros x y Hx Hy; by apply str_ltb_trans; [apply Hv|apply Hv|]|done].
  - destruct (partition_filter (fun k => negb (str_ltb a k)) keys Hs) as [_ ->].
    + intros x y Hx Hy Hxy. rewrite !negb_true_iff. intros E. apply not_true_iff_false. intros Hax.
      pose proof (str_ltb_trans a x y Ha (Hv x Hx) (Hv y Hy) Hax Hxy). congruence.
    + apply filter_ext_in. intros x _. by rewrite negb_involutive.
Qed.
Definition source_ok (src : Source) (t : Z) (i : Inner) : Prop :=
  match src with Prefix => True | Walk _ _ => False | Keys_ keys => key_set keys ∧ ∀ k, is_Some (row_at q t i k) → k ∈ keys end.
Lemma read_source_ok req t rs src after reverse i m s : inv req t rs [] i → valid_str (q_pattern q) → place_ok after → source_ok src t i →
  ∃ m' i', read_source zone each q t src after reverse m s i = ('(s, _) ← feed (answer q t i after reverse) s; Ok (s, m'), i') ∧ reads req t rs i i'.
Proof.
  intros Hi Hq Ha Hsrc. destruct (index_keys _ _ _ _ Hi) as [Hs Hv]. set (ks := keys_of (index (mem i))) in *.
  pose proof (keys_beyond_sorted ks [] Hs after reverse) as Hsk.
  assert (∀ x, is_Some (row_at q t i x) → x ∈ ks) as Hrow by (intros x Hx; apply elem_keys_of; by eapply row_key).
  assert (∀ l prefix, Forall valid_str l → Forall valid_str (keys_beyond l prefix after reverse)) as Hvb.
  { intros l prefix Hl. rewrite Forall_forall in *. intros x (Hx & _)%elem_keys_beyond. by apply Hl. }
  destruct src as [keys| |]; cbn [read_source source_ok] in *; [| |done].
  - destruct Hsrc as [Hset Hin]. rewrite (page_beyond keys after reverse Hset Ha). destruct (read_each_ok req t rs (keys_beyond keys [] after reverse) i m s Hi) as (m' & i' & E & Hr).
    assert (rows_of q t i (keys_beyond keys [] after reverse) = answer q t i after reverse) as Erow.
    { apply (rows_ext reverse); [by apply Hvb, Hset|by apply keys_beyond_sorted, Hset|exact Hsk|]. intros x Hx. rewrite !elem_keys_beyond. fold ks.
      pose proof (Hin x Hx). pose proof (Hrow x Hx). tauto. }
    rewrite Erow in E. exists m', i'. split; [|exact Hr]. unfold mbind at 1, M_bind. rewrite E. by destruct (feed _ _) as [[]|].
  - destruct (read_chunks_ok req t rs reverse (Datatypes.S (length ks)) i after m s Hi Hq Ha) as (m' & i' & E & Hr).
    { pose proof (keys_beyond_len ks (glob_prefix (q_pattern q)) after reverse). fold ks. lia. }
    fold ks in E. assert (rows_of q t i (keys_beyond ks (glob_prefix (q_pattern q)) after reverse) = answer q t i after reverse) as Erow.
    { apply (rows_ext reverse); [by apply Hvb|by apply keys_beyond_sorted|exact Hsk|]. intros x Hx. rewrite !elem_keys_beyond. fold ks.
      pose proof (row_prefix t i x Hx). assert (Select.starts_with x [] = true) by done. tauto. }
    rewrite Erow in E. by exists m', i'.
Qed.
End reading.

(** ** The rows handed out *)
Section handed.
  Context {F : Type} (f : F → str → Value → result msg F).
(** The closure over rows, up to its first error. *)
Fixpoint gather (rows : list (str * Value)) (a : F) : result msg F :=
  match rows with [] => Ok a | (k, v) :: rows => match f a k v with Err e => Err e | Ok a => gather rows a end end.
Definition left_of {A} (limit : nat) (n : Z) (rows : list A) : list A := if Nat.eqb limit 0 then rows else take (limit - Z.to_nat n) rows.
Definition handed (limit : nat) (n : Z) (rows : list (str * Value)) (a : F) : result KivaError (F * Z) :=
  match gather (left_of limit n rows) a with Err e => Err (Invalid e) | Ok b => Ok (b, n + len (left_of limit n rows)) end.
Lemma handed_cons limit n k v rows a : 0 ≤ n → goes_on limit n = true →
  handed limit n ((k, v) :: rows) a =
    match f a k v with Err e => Err (Invalid e) | Ok b => if goes_on limit (n + 1) then handed limit (n + 1) rows b else Ok (b, n + 1) end.
Proof.
  unfold handed, left_of, goes_on. intros Hn Hg. destruct (Nat.eqb_spec limit 0) as [->|Hl]; cbn [orb] in *.
  - cbn [gather]. destruct (f a k v) as [b|]; [|done]. destruct (gather rows b); [|done]. rewrite len_cons. do 2 f_equal. lia.
  - apply Z.ltb_lt in Hg. destruct (limit - Z.to_nat n)%nat as [|m] eqn:Em; [lia|]. cbn [take gather]. destruct (f a k v) as [b|]; [|done].
    replace (limit - Z.to_nat (n + 1))%nat with m by lia. destruct (Z.ltb_spec (n + 1) (Z.of_nat limit)).
    + destruct (gather (take m rows) b); [|done]. rewrite len_cons. do 2 f_equal. lia.
    + replace m with 0%nat by lia. cbn [take gather]. by rewrite len_cons.
Qed.
Lemma emit_row_eq limit a n k v : emit_row f limit (a, n) k v = match f a k v with Err e => Err (Invalid e) | Ok b => Ok (b, n + 1, goes_on limit (n + 1)) end.
Proof. done. Qed.
Lemma feed_emit limit rows : ∀ a n, 0 ≤ n → goes_on limit n = true →
  ('(s, _) ← feed (emit_row f limit) rows (a, n); Ok s) = handed limit n rows a.
Proof.
  induction rows as [|[k v] rows IH]; intros a n Hn Hg; cbn [feed].
  { unfold handed, left_of. rewrite take_nil. replace (if Nat.eqb limit 0 then [] else []) with (@nil (str * Value)) by (by destruct (Nat.eqb limit 0)).
    cbn [gather mbind result_bind]. change (len []) with 0. by rewrite Z.add_0_r. }
  rewrite handed_cons by done. rewrite emit_row_eq. destruct (f a k v) as [b|]; [|done]. cbn [mbind result_bind].
  destruct (goes_on limit (n + 1)) eqn:Eg; [|done]. apply IH; [lia|done].
Qed.
Lemma goes_on_start limit : goes_on limit 0 = true.
Proof. unfold goes_on. destruct limit; [done|]. cbn [Nat.eqb orb]. apply Z.ltb_lt. lia. Qed.
Lemma handed_start limit rows a : handed limit 0 rows a =
  match gather (take_limit limit rows) a with Err e => Err (Invalid e) | Ok b => Ok (b, len (take_limit limit rows)) end.
Proof. unfold handed, left_of, take_limit. change (Z.to_nat 0) with 0%nat. rewrite Nat.sub_0_r. by destruct (Nat.eqb limit 0). Qed.
Lemma emit_rows_feed limit rows : ∀ s, emit_rows f limit rows s = '(s, _) ← feed (emit_row f limit) (List.map (fun r => (rkey r, rdoc r)) rows) s; Ok s.
Proof.
  induction rows as [|r rows IH]; intros s; [done|]. cbn [emit_rows List.map feed]. destruct (emit_row f limit s (rkey r) (rdoc r)) as [[s' []]|]; cbn [mbind result_bind]; [apply IH|done..].
Qed.
End handed.

(** ** The indexes of the engine *)
Record workspace_ok (t : Z) (i : Inner) : Prop := {
  wo_sec : Forall (fun s => (∀ k x, SecIndex.rev s !! k = Some x → key_ok x) ∧
    ((∃ p, paths s = [p] ∧ path_of (field s) = Ok p) ∨
     ((1 < length (paths s))%nat ∧ ∀ ps, mapM (fun f => ok (path_of f)) (names_of (field s)) = Some ps → ps = paths s))) (sec (mem i));
  wo_docs : ∀ k d, live_doc t i k = Some d → STAR ∉ k ∧ doc_texts d;
}.
Definition query_ok (q : Query) (i : Inner) : Prop := match q_expr q with Some e => expr_ok (q_pattern q) (sec (mem i)) e | None => True end.
Lemma live_doc_key req t rs i k d : inv req t rs [] i → live_doc t i k = Some d → valid_str k.
Proof.
  intros Hi. unfold live_doc, look. destruct (index (mem i) !! k) as [e|] eqn:E; [intros _|done]. eapply inv_keys_valid; [exact Hi|by exists e].
Qed.
Lemma engine_index_ok req t rs i : inv req t rs [] i → workspace_ok t i → Forall (index_ok (live_doc t i)) (sec (mem i)).
Proof.
  intros Hi [Hsec _]. pose proof (mo_sec _ (iv_mem _ _ _ _ _ Hi)) as Hok. pose proof (iv_sec _ _ _ _ _ Hi) as Ha. rewrite Forall_forall in *.
  intros s Hs. destruct (Hsec s Hs) as [Hx Hn]. specialize (Ha s Hs). split; [by apply Hok| | |exact Hx|exact Hn].
  - intros k x Hk. destruct (Ha k) as [E|[E _]]; [|congruence]. rewrite Hk in E. unfold indexed, stored_value in E.
    destruct (index (mem i) !! k) as [e|] eqn:Ek; [eapply inv_keys_valid; [exact Hi|by exists e]|]. by destruct (glob_match _ _).
  - intros k d Hd Hg. unfold live_doc, look in Hd. destruct (index (mem i) !! k) as [e|] eqn:Ek; [|done]. destruct (is_expired e t) eqn:Ex; [done|].
    destruct (Ha k) as [E|(_ & e' & He' & Hx')]; [|congruence]. rewrite E. unfold indexed. rewrite Hg. destruct (stored_value i k) as [v|]; [|done].
    cbn [mbind option_bind fst] in Hd. by rewrite Hd.
Qed.
Lemma choose_ok req t rs i q opts est : inv req t rs [] i → workspace_ok t i → query_ok q i → choose_walk zone i q opts = None →
  source_ok q (choose zone i q opts est).1.1 t i.
Proof.
  intros Hi Hw Hq Hwalk. pose proof (engine_index_ok _ _ _ _ Hi Hw) as Hsec. unfold choose, query_ok in *. rewrite Hwalk. destruct (q_expr q) as [e|] eqn:Ee; [|done]. cbn [mbind option_bind].
  destruct (index_plan zone (sec (mem i)) e) as [p|] eqn:Ep; [|done]. cbn [fst source_ok].
  destruct (index_plan_holds zone (live_doc t i) (q_pattern q)) with (sec := sec (mem i)) (e := e) (p := p) as [Hk Hin]; try done.
  { intros k d Hd. split; [by eapply live_doc_key|]. by apply (wo_docs _ _ Hw). }
  split; [exact Hk|]. intros k [r (v & x & d & -> & Hg & El & Ed & Hm)%row_some]. apply Hin. unfold query_matches in Hm. rewrite Ee in Hm.
  exists d. split; [|done]. unfold live_doc. by rewrite El.
Qed.

(** ** What the readers give *)
Lemma pair_row q t i k (v : Value) : row_at q t i k = Some (k, v) ↔ selected q t i k = Some v.
Proof. unfold row_at. destruct (selected q t i k); cbn; [|done]. split; by intros [= ->]. Qed.
Lemma elem_answer req t rs i q after reverse k v : inv req t rs [] i →
  (k, v) ∈ answer q t i after reverse ↔ selected q t i k = Some v ∧ beyond after reverse k = true.
Proof.
  intros Hi. unfold answer, rows_of. rewrite list_elem_of_omap. split.
  - intros (k' & Hk & Hr). pose proof Hr as (v' & x & d & [= -> ->] & _)%row_some. apply elem_keys_beyond in Hk as (_ & _ & Hb). split; [|exact Hb]. by apply pair_row.
  - intros [Hs%pair_row Hb]. exists k. split; [|exact Hs]. apply elem_keys_beyond. split; [|split; [done|exact Hb]]. apply elem_keys_of. by eapply row_key.
Qed.
Lemma answer_sorted req t rs i q after reverse : inv req t rs [] i →
  StronglySorted (fun a b : str * Value => ahead reverse a.1 b.1 = true) (answer q t i after reverse) ∧ Forall valid_str (answer q t i after reverse).*1.
Proof.
  intros Hi. destruct (index_keys _ _ _ _ Hi) as [Hs Hv]. pose proof (keys_beyond_sorted _ [] Hs after reverse) as Hk. unfold answer, rows_of.
  assert (Forall valid_str (keys_beyond (keys_of (index (mem i))) [] after reverse)) as Hvk.
  { apply Forall_forall. intros x (Hx & _)%elem_keys_beyond. rewrite Forall_forall in Hv. by apply Hv. }
  revert Hk Hvk. generalize (keys_beyond (keys_of (index (mem i))) [] after reverse). intros l Hl Hvl.
  assert (∀ l, omap (row_at q t i) l = omap (row_at q t i) l ∧ Forall (fun r : str * Value => r.1 ∈ l) (omap (row_at q t i) l)) as Hin.
  { intros l'. split; [done|]. apply Forall_forall. intros r (k & Hk & Hr)%list_elem_of_omap. by apply row_some in Hr as (v & _ & _ & -> & _). }
  split.
  - induction Hl as [|x l Hl IH Hx]; [constructor|]. apply Forall_cons in Hvl as [_ Hvl]. cbn [omap list_omap].
    destruct (row_at q t i x) as [r|] eqn:Er; [|by apply IH]. constructor; [by apply IH|]. apply row_some in Er as (v & _ & _ & -> & _).
    eapply Forall_impl; [apply (Hin l)|]. intros r Hr. rewrite Forall_forall in Hx. by apply Hx.
  - apply Forall_fmap. rewrite Forall_forall in Hvl. eapply Forall_impl; [apply (Hin l)|]. intros r Hr. by apply Hvl.
Qed.

(** C4: a query gives exactly its documents. The reader in the order of the
    keys hands its closure the documents of the pattern that are live and
    pass the condition, all of them and each once, in the order asked for,
    from the place asked for and up to the limit, whatever the planner takes
    from the indexes; it stops at the first error of the closure, fails
    otherwise never, and changes nothing a client sees. That holds under
    these conditions (workspace_ok, query_ok). No comparison with a moment
    is answered by an index (a B-tree of texts may miss documents there, and
    a scan does not), no key has a star in it (a pattern such as user:* and
    the pattern of an index do not compare as glob_match matches such a
    key), the texts of documents, keys and conditions are texts, and each
    index has the paths its name says. *)
Theorem query_exact {F : Type} (f : F → str → Value → result msg F) walk req t rs i q opts est a :
  inv req t rs [] i → workspace_ok t i → query_ok q i → valid_str (q_pattern q) → place_ok (after opts) → order opts = None →
  let rows := answer q t i (after opts) (reverse opts) in
  let out := take_limit (limit opts) rows in
  let '(r, i') := run_query zone f walk q opts est t a i in
  match gather f out a with
  | Ok b => ∃ plan m, r = Ok (b, plan, m) ∧ returned m = len out
  | Err e => r = Err (Invalid e)
  end ∧
  StronglySorted (fun a b : str * Value => ahead (reverse opts) a.1 b.1 = true) rows ∧
  (∀ k v, (k, v) ∈ rows ↔ selected q t i k = Some v ∧ beyond (after opts) (reverse opts) k = true) ∧
  inv req t rs [] i' ∧ ∀ t' k, t ≤ t' → look t' i' k = look t' i k.
Proof.
  intros Hi Hw Hq Hp Ha Ho rows out. assert (choose_walk zone i q opts = None) as Hwalk by (unfold choose_walk; by rewrite Ho).
  pose proof (choose_ok req t rs i q opts est Hi Hw Hq Hwalk) as Hsrc. unfold run_query. rewrite Ho. unfold run_by_key.
  destruct (choose zone i q opts est) as [[src plan] entries]. cbn [fst] in Hsrc.
  destruct (read_source_ok (emit_row f (limit opts)) q req t rs src (after opts) (reverse opts) i (measured entries) (a, 0) Hi Hp Ha Hsrc) as (m' & i' & E & Hr).
  unfold mbind at 1, M_bind. rewrite E. fold rows. pose proof (feed_emit f (limit opts) rows a 0 (Z.le_refl 0) (goes_on_start _)) as Hf. rewrite handed_start in Hf. fold out in Hf.
  assert (∀ k v, (k, v) ∈ rows ↔ selected q t i k = Some v ∧ beyond (after opts) (reverse opts) k = true) as Hel by (intros; by eapply elem_answer).
  pose proof (proj1 (answer_sorted req t rs i q (after opts) (reverse opts) Hi)) as Hsort.
  destruct (feed (emit_row f (limit opts)) rows (a, 0)) as [[[b n] go]|err], (gather f out a) as [b'|e]; try done; cbn [mbind result_bind mret M_ret fst snd] in *.
  - injection Hf as -> ->. split; [by eexists _, _|]. split; [done|]. split; [done|]. split; apply Hr.
  - injection Hf as ->. split; [done|]. split; [done|]. split; [done|]. split; apply Hr.
Qed.

(** ** In the order of a field *)
Definition row_of (o : Order) (kv : str * Value) : @Row _ _ Value := {| sk := key_of o kv.2; rkey := kv.1; rdoc := kv.2 |}.
Definition follows (o : Order) (from : option (option Ordering.SKey * str)) (r : @Row _ _ Value) : bool :=
  match from with Some (a, ak) => match compare (sk r) (rkey r) a ak (o_desc o) with Gt => true | _ => false end | None => true end.
Definition sorted_rows (o : Order) (q : Query) (t : Z) (i : Inner) (from : option (option Ordering.SKey * str)) : list (@Row _ _ Value) :=
  List.filter (follows o from) (List.map (row_of o) (answer q t i None false)).
Lemma offer_row_eq o from top k v :
  offer_row o from top k v = Ok (if follows o from (row_of o (k, v)) then offer top (key_of o v) k v else top, true).
Proof. done. Qed.
Lemma feed_offers o from rows : ∀ top,
  feed (offer_row o from) rows top = Ok (offer_all top (List.filter (follows o from) (List.map (row_of o) rows)), true).
Proof.
  induction rows as [|[k v] rows IH]; intros top; [done|]. cbn [feed]. rewrite offer_row_eq. cbn [mbind result_bind]. rewrite IH. cbn [List.map List.filter].
  by destruct (follows o from (row_of o (k, v))).
Qed.
Lemma answer_reads req t rs i i' q after reverse : inv req t rs [] i → reads req t rs i i' → answer q t i' after reverse = answer q t i after reverse.
Proof.
  intros Hi Hr. destruct (index_keys _ _ _ _ Hi) as [Hs Hv], (index_keys _ _ _ _ (rd_inv _ _ _ _ _ Hr)) as [Hs1 Hv1]. unfold answer. rewrite (reads_rows _ _ _ _ i i') by done.
  apply (rows_ext q reverse); [|by apply keys_beyond_sorted..|].
  - apply Forall_forall. intros x (Hx & _)%elem_keys_beyond. rewrite Forall_forall in Hv1. by apply Hv1.
  - intros x Hx. rewrite !elem_keys_beyond. assert (x ∈ keys_of (index (mem i')) ∧ x ∈ keys_of (index (mem i))) as [? ?]; [|tauto].
    split; apply elem_keys_of; eapply row_key; [apply Hr|by rewrite (reads_row _ _ _ _ _ _ _ Hr)|done|done].
Qed.
Lemma sorted_rows_keys req t rs i q o from : inv req t rs [] i →
  NoDup (List.map rkey (sorted_rows o q t i from)) ∧ Forall (fun r => valid_str (rkey r)) (sorted_rows o q t i from).
Proof.
  intros Hi. destruct (answer_sorted req t rs i q None false Hi) as [Hs Hv]. unfold sorted_rows.
  assert (NoDup (List.map rkey (List.map (row_of o) (answer q t i None false))) ∧ Forall (fun r => valid_str (rkey r)) (List.map (row_of o) (answer q t i None false))) as [Hn Hf].
  { rewrite List.map_map. cbn [row_of rkey]. split; [|by apply Forall_map, Forall_fmap]. apply (ahead_NoDup false); [exact Hv|].
    induction Hs as [|x l _ IH Hx]; [constructor|]. apply Forall_cons in Hv as [_ Hv]. constructor; [by apply IH|]. by apply Forall_map. }
  split; [|by apply Forall_filter_]. revert Hn. generalize (List.map (row_of o) (answer q t i None false)). clear. intros l Hn.
  induction l as [|x l IH]; [constructor|]. cbn [List.map List.filter] in *. apply NoDup_cons in Hn as [Hx Hn]. destruct (follows o from x); [|by apply IH].
  cbn [List.map]. constructor; [|by apply IH]. intros Hin. apply Hx. apply list_elem_of_In, in_map_iff in Hin as (y & <- & Hy). apply list_elem_of_In, in_map_iff.
  exists y. split; [done|]. by apply List.filter_In in Hy as [? _].
Qed.
(** The place a page starts after; [None]: its document is not there. *)
Definition page_start (o : Order) (t : Z) (i : Inner) (after : option str) : option (option (option Ordering.SKey * str)) :=
  match after with
  | None => Some None
  | Some k => (fun v => Some (key_of o v, k)) <$> selected EVERY t i k
  end.
Lemma start_after_ok req t rs i o after : inv req t rs [] i →
  ∃ i', start_after zone o after t i = (match page_start o t i after with Some from => Ok from | None => Err (Invalid "'after {k}': no such document, so its place in the order is unknown; page from the last key the previous page returned") end, i') ∧
    reads req t rs i i'.
Proof.
  intros Hi. destruct after as [k|]; cbn [start_after page_start]; [|exists i; split; [done|by apply reads_refl]].
  destruct (examine_ok req t rs i EVERY k (measured 0) Hi) as (m' & i' & E & Hr). exists i'. split; [|exact Hr]. unfold mbind, M_bind. rewrite E.
  by destruct (selected EVERY t i k).
Qed.
Lemma offered_all (rows : list (@Row _ _ Value)) : ∀ t, offered (offer_all t rows) = offered t + len rows.
Proof.
  assert (∀ (t : @TopK _ _ Value) k key doc, offered (offer t k key doc) = offered t + 1) as Hone.
  { intros t k key doc. unfold offer. destruct (Nat.eqb _ _); [done|]. destruct (Nat.ltb _ _); [done|]. destruct (heap_peek _ _); [|done].
    destruct (row_cmp _ _ _); [done| |done]. by destruct (heap_pop _ _) as [[]|]. }
  induction rows as [|r rows IH]; intros t; [change (len []) with 0; cbn; lia|]. cbn [offer_all List.fold_left]. unfold offer_all in IH. rewrite IH, Hone, len_cons. lia.
Qed.
Lemma take_first_rows limit desc (rows : list (@Row _ _ Value)) : take_limit limit (first_rows limit desc rows) = first_rows limit desc rows.
Proof. unfold take_limit, first_rows. destruct (Nat.eqb limit 0); [done|]. rewrite take_take. f_equal. lia. Qed.
Lemma take_limit_map {A B} (g : A → B) limit l : take_limit limit (List.map g l) = List.map g (take_limit limit l).
Proof. unfold take_limit. destruct (Nat.eqb limit 0); [done|]. apply firstn_map. Qed.

(** C17: an ordered query that sorts gives the first rows of the order. The
    reader in the order of a field hands out, of the live documents that
    pass, those that sort after the place the page starts from, sorted by
    the value of the field and then by key, the first ones up to the limit;
    when the document at that place is gone it refuses. That holds whenever
    the planner does not choose to walk an index in the order of its values,
    and under the conditions of a query in the order of the keys. No
    comparison with a moment is answered by an index (a B-tree of texts may
    miss documents there, and a scan does not), no key has a star in it (a
    pattern such as user:* and the pattern of an index do not compare as
    glob_match matches such a key), the texts of documents, keys and
    conditions are texts, and each index has the paths its name says. *)
Theorem query_sorted {F : Type} (f : F → str → Value → result msg F) walk req t rs i o q opts est a :
  inv req t rs [] i → workspace_ok t i → query_ok q i → valid_str (q_pattern q) → reverse opts = false → order opts = Some o →
  choose_walk zone i q opts = None →
  let '(r, i') := run_query zone f walk q opts est t a i in
  match page_start o t i (after opts) with
  | None => ∃ why, r = Err (Invalid why)
  | Some from =>
    let rows := sorted_rows o q t i from in
    let out := first_rows (limit opts) (o_desc o) rows in
    match gather f (List.map (fun r => (rkey r, rdoc r)) out) a with
    | Ok b => ∃ plan m, r = Ok (b, plan, m) ∧ returned m = len out ∧ sorted m = len rows
    | Err e => r = Err (Invalid e)
    end
  end ∧
  inv req t rs [] i' ∧ ∀ t' k, t ≤ t' → look t' i' k = look t' i k.
Proof.
  intros Hi Hw Hq Hp Hrev Ho Hwalk. pose proof (choose_ok req t rs i q opts est Hi Hw Hq Hwalk) as Hsrc. unfold run_query. rewrite Ho. unfold run_sorted.
  destruct (choose zone i q opts est) as [[src plan] entries]. cbn [fst] in Hsrc. rewrite Hrev.
  destruct (start_after_ok req t rs i o (after opts) Hi) as (i1 & E1 & Hr1). unfold mbind at 1, M_bind. rewrite E1.
  destruct (page_start o t i (after opts)) as [from|]; [|split; [by eexists|]; split; apply Hr1].
  pose proof (rd_inv _ _ _ _ _ Hr1) as Hi1. assert (source_ok q src t i1) as Hsrc1.
  { destruct src as [keys| |]; [|done|done]. destruct Hsrc as [Hk Hin]. split; [exact Hk|]. intros k Hx. apply Hin. by rewrite <- (reads_row _ _ _ _ _ _ _ Hr1). }
  destruct (read_source_ok (offer_row o from) q req t rs src None false i1 (measured entries) (TopK_new (limit opts) (o_desc o)) Hi1 Hp I Hsrc1) as (m' & i2 & E2 & Hr2).
  pose proof (reads_trans _ _ _ _ _ _ Hr1 Hr2) as Hr.
  replace (match src with Walk oi probe => _ | _ => _ end) with (read_source zone (offer_row o from) q t src None false (measured entries) (TopK_new (limit opts) (o_desc o))) by (by destruct src).
  unfold mbind at 1. rewrite E2, feed_offers, (answer_reads _ _ _ i i1) by done. fold (sorted_rows o q t i from).
  cbn [mbind result_bind]. destruct (sorted_rows_keys req t rs i q o from Hi) as [Hn Hvk]. set (rows := sorted_rows o q t i from) in *. rewrite (into_sorted_offers _ _ _ Hn Hvk).
  unfold mbind at 1, lift. rewrite emit_rows_feed, (feed_emit f _ _ a 0 (Z.le_refl 0) (goes_on_start _)), handed_start, take_limit_map, take_first_rows.
  set (out := first_rows _ _ rows). destruct (gather f _ a) as [b|err]; [|split; [done|split; apply Hr]].
  cbn [mret M_ret]. split; [|split; apply Hr]. eexists _, _. split; [done|]. cbn [returned sorted counted]. split; [unfold len; by rewrite length_map|].
  rewrite offered_all. done.
Qed.
End run_thm.
