(* ===== verification/RunSample.v ===== *)
(** * A workspace of JSON documents, to run queries on

    Two documents are put, an index is made on one of their fields, and a
    query is answered from it. *)
From S2P Require Import Prelude Utf8 Text Util Maps Types Compress Format Crypt Log Cache DocNum Ordering Kdoc Paths PathsThm PathText Times TimesThm Json JsonThm Value SecIndex Engine EngineMem EngineOk EngineThm Sample EngineBatch Recovery History Spec Indexes View Select Moments DocEq Query Plan PlanThm SortKeys Run RunThm.
Open Scope Z_scope.
#[export] Instance plain_lowercase : Lowercase := {| to_lowercase := Text.lower |}.
#[export] Instance plain_nanos : @NanoText plain_chrono := {| rfc3339_nanos := @iso plain_chrono plain_calendar plain_rfc |}.

(** The texts of a JSON document are texts. *)
Section texts.
  Context `{HN : JsonNumbers} `{HM : !JsonMake} `{HD : Decimals} `{HF : !DecimalFrom} `{HT : !DecimalText} `{HB : !DecimalBytes}.
  Context `{HC : Chrono} `{HK : !Calendar} `{HR : !Rfc3339} `{HS : !Serde} `{HL : Lowercase}.
  Context `{LD : !DecimalsLaws} `{LJ : !JsonNumbersLaws} `{LF : !DecimalFromLaws}.
Lemma json_get_ok path : ∀ (j x : Json), json_ok j → Paths.get j path = Some x → json_ok x.
Proof.
  induction path as [|seg path IH]; intros j x Hj Hg; [by injection Hg as <-|]. destruct j as [|b|n|s|l|m]; cbn in Hg; try done.
  - destruct (position seg (len l) false) as [p|]; [|done]. cbn in Hg. destruct (l !! Z.to_nat p) as [d|] eqn:El; [|done]. apply (IH d); [|done].
    cbn [json_ok] in Hj. apply all_Forall in Hj. by eapply Forall_lookup_1.
  - destruct seg as [k|]; [|done]. destruct (m_get k m) as [d|] eqn:Em; [|done]. apply (IH d); [|done]. cbn [json_ok] in Hj. destruct Hj as [_ Hj].
    apply all_Forall in Hj. rewrite Forall_forall in Hj. by apply (Hj (k, d)), m_get_In.
Qed.
Lemma json_doc_texts j : json_ok j → doc_texts (ViewJson j).
Proof.
  intros Hj path l x Hg Hx. cbn [view_get] in Hg. destruct (Paths.get j path) as [y|] eqn:Ey; [|done]. injection Hg as <-.
  pose proof (json_get_ok path j y Hj Ey) as Hy. unfold leaf_key, skey_from_leaf in Hx. cbn [leaf_decimal leaf_json] in Hx.
  destruct (skey_from_json y) as [k|] eqn:Ek; [|done]. apply (canon_ok k x Hx). destruct y; cbn in Ek; by simplify_eq.
Qed.
(** An index on one field that keeps capitals holds texts of its documents. *)
Lemma value_texts_ok (s : @SecIndex doc_leaves) p d x : paths s = [p] → fold s = false → doc_texts d → SecIndex.value s d = Some x → key_ok x.
Proof.
  unfold SecIndex.value. intros -> Hf Hd. unfold value_one. rewrite Hf. cbn [leaf doc_leaves]. unfold doc_leaf.
  destruct (view_get d p) as [l|] eqn:El; [|done]. cbn [mbind option_bind]. specialize (Hd p l). unfold leaf_key in Hd.
  destruct (skey_from_leaf l) as [k|]; [|done]. cbn [mbind option_bind] in *. destruct (canon k) as [y|]; [|done]. intros [= <-]. by apply Hd.
Qed.
End texts.

(** ** Two users and an index on their ages *)
Abbreviation SValue := (@Value sample_numbers sample_decimals plain_chrono).
Definition age (n : Z) : @Json sample_numbers := JNumber (number_of (inl n)).
Definition user (n : Z) : SValue := VDoc (JObject [(lit "age", age n); (lit "role", JString (lit "dev"))]).
Definition users : list (Env * EOp) :=
  [(at_ms T0, EPut (lit "user:1") (user 30) 0 false 1700000000 true); (at_ms (T0 + 10), EPut (lit "user:2") (user 41) 0 false 1700000000 true)].
Definition two_users : Inner := run users (created sample_opts 77).
Definition age_index : @SecIndex doc_leaves := (rebuild_sec (T0 + 10) (@SecIndex.new doc_leaves (lit "user:*") (lit "age") [[Key (lit "age")]] BTree false false) two_users).1.
Definition indexed_users : Inner := set_sec [age_index] two_users.
Definition over_35 : Query :=
  {| q_pattern := lit "user:*"; q_expr := Some (ETest {| cond := cond_new (lit "user:*") (lit "age") CGt (age 35); t_path := [Key (lit "age")] |}) |}.
Definition over_20 : Query :=
  {| q_pattern := lit "user:*"; q_expr := Some (ETest {| cond := cond_new (lit "user:*") (lit "age") CGt (age 20); t_path := [Key (lit "age")] |}) |}.
(** No index is walked for these: what a walk would offer. *)
Definition no_walk (oi : nat) (probe : Probe) (from : option (option Ordering.SKey * str)) (m : Measured) (top : @TopK _ _ SValue) :
    M (@TopK _ _ SValue * Measured) := mret (top, m).
Definition all_rows : @ReadOpts := {| limit := 0; order := None; after := None; reverse := false |}.

Lemma ascii_text s : forallb (fun c => (0 <=? c) && (c <? 128)) s = true → valid_str s.
Proof.
  intros Hf. apply ascii_valid, Forall_forall. intros c Hc. rewrite forallb_forall in Hf. apply list_elem_of_In in Hc. specialize (Hf c Hc).
  apply andb_true_iff in Hf as [?%Z.leb_le ?%Z.ltb_lt]. by split.
Qed.
Lemma user_json_ok n : json_ok (JObject [(lit "age", age n); (lit "role", @JString sample_numbers (lit "dev"))]).
Proof. cbn [json_ok]. split; [vm_decide|]. repeat split; by apply ascii_text. Qed.
Lemma users_pre : Forall (eop_pre None) users.
Proof.
  unfold users. repeat (apply List.Forall_cons || apply List.Forall_nil); (split; [done|]); (split; [|by apply ascii_text|by vm_compute..]);
    (split; [apply user_json_ok|]); (split; [done|]); vm_compute; lia.
Qed.
Lemma users_clocks : clocks T0 users.
Proof. repeat split; vm_decide. Qed.

(** An equation of closed terms, by evaluation. *)
Ltac vm_refl := lazymatch goal with |- _ = ?y => vm_cast_no_check (eq_refl y) end.
Lemma live_doc_set_sec t l i k : live_doc t (set_sec l i) k = live_doc t i k.
Proof. done. Qed.
(** What is there, of the documents of an engine. *)
Lemma live_doc_stored t (i : Inner) k d : live_doc t i k = Some d → k ∈ keys_of (index (mem i)) ∧ stored_value i k ≫= view_of = Some d.
Proof.
  unfold live_doc, look. destruct (index (mem i) !! k) as [e|] eqn:Ek; [|done]. destruct (is_expired e t); [done|]. intros Hd. split.
  - apply elem_keys_of. by exists e.
  - destruct (stored_value i k) as [v|]; [exact Hd|done].
Qed.
Lemma users_docs t k d : live_doc t two_users k = Some d → STAR ∉ k ∧ ∃ n, d = ViewJson (JObject [(lit "age", age n); (lit "role", JString (lit "dev"))]).
Proof.
  intros [Hk Hs]%live_doc_stored. assert (keys_of (index (mem two_users)) = [lit "user:1"; lit "user:2"]) as E by vm_refl.
  rewrite E in Hk. clear E. assert (stored_value two_users (lit "user:1") = Some (user 30) ∧ stored_value two_users (lit "user:2") = Some (user 41)) as [E1 E2]
    by (split; vm_refl).
  revert Hs E1 E2. generalize (stored_value two_users). intros st Hs E1 E2. apply elem_of_cons in Hk as [->|Hk].
  { rewrite E1 in Hs. injection Hs as <-. split; [vm_decide|by eexists]. }
  apply list_elem_of_singleton in Hk as ->. rewrite E2 in Hs. injection Hs as <-. split; [vm_decide|by eexists].
Qed.
Lemma users_ready : ∃ rs, inv false (T0 + 20) rs [] indexed_users ∧ workspace_ok (T0 + 20) indexed_users.
Proof.
  destruct (history_ok sample_opts 77 T0 users sample_opts_ok ltac:(by vm_compute) users_clocks users_pre) as (cs & Hlog).
  pose proof (history_all _ _ _ _ _ Hlog) as Hi. fold two_users in Hi. exists (List.concat cs).
  assert (valid_str (glob_prefix (lit "user:*"))) as Hp by (by apply ascii_text).
  destruct (rebuild_ok _ _ _ _ two_users (@SecIndex.new doc_leaves (lit "user:*") (lit "age") [[Key (lit "age")]] BTree false false) Hi Hp) as (m & r & Er & Hok & Hrev).
  pose proof (rebuilt_agrees _ _ _ _ _ _ m r Hi Hrev) as Ha. pose proof (inv_add_sec _ _ _ _ _ _ Hi Hok Ha) as Hi2.
  assert (indexed_users = set_sec (sec (mem two_users) ++ [with_maps (@SecIndex.new doc_leaves (lit "user:*") (lit "age") [[Key (lit "age")]] BTree false false) m r]) two_users) as E.
  { unfold indexed_users, age_index. change (last_clock T0 users) with (T0 + 10) in Er. rewrite Er. reflexivity. }
  rewrite <- E in Hi2. split; [apply (inv_mono _ (T0 + 10)); [lia|exact Hi2]|].
  split.
  - rewrite E. apply Forall_singleton. split; [|left; exists [Key (lit "age")]; split; [done|by vm_compute]].
    intros k x Hk. cbn [with_maps SecIndex.rev] in Hk. rewrite Hrev in Hk. destruct (glob_match _ _); [|done].
    destruct (live_doc _ _ k) as [d|] eqn:Ed; [|done]. apply users_docs in Ed as (_ & n & ->). cbn [mbind option_bind] in Hk.
    eapply value_texts_ok; [..|exact Hk]; [done|done|]. apply json_doc_texts, user_json_ok.
  - intros k d Hd. unfold indexed_users in Hd. rewrite live_doc_set_sec in Hd. apply users_docs in Hd as (Hs & n & ->).
    split; [exact Hs|]. apply json_doc_texts, user_json_ok.
Qed.
Lemma over_35_ok : query_ok over_35 indexed_users.
Proof. cbn [query_ok over_35 q_expr q_pattern expr_ok]. split; [done|]. split; [by vm_compute|]. split; [exact I|]. by left. Qed.
Lemma over_20_ok : query_ok over_20 indexed_users.
Proof. cbn [query_ok over_20 q_expr q_pattern expr_ok]. split; [done|]. split; [by vm_compute|]. split; [exact I|]. by left. Qed.
Lemma user_pattern_ok : valid_str (q_pattern over_35).
Proof. by apply ascii_text. Qed.

(** Those over 35, by key: the index gives the second user alone. *)
Lemma query_exact_witness : ∃ rs, inv false (T0 + 20) rs [] indexed_users ∧ workspace_ok (T0 + 20) indexed_users ∧
  ∃ plan m, (run_query Utc push_json no_walk over_35 all_rows true (T0 + 20) [] indexed_users).1 =
    Ok ([(lit "user:2", JObject [(lit "age", age 41); (lit "role", JString (lit "dev"))])], plan, m) ∧ returned m = 1.
Proof.
  destruct users_ready as (rs & Hi & Hw). exists rs. split; [exact Hi|]. split; [exact Hw|].
  pose proof (query_exact Utc push_json no_walk false (T0 + 20) rs indexed_users over_35 all_rows true [] Hi Hw over_35_ok user_pattern_ok I eq_refl) as Hq.
  cbn zeta in Hq. destruct (run_query _ _ _ _ _ _ _ _ _) as [r i']. destruct Hq as (Hq & _). cbn [fst].
  assert (take_limit (limit all_rows) (answer Utc over_35 (T0 + 20) indexed_users (after all_rows) (reverse all_rows)) = [(lit "user:2", user 41)]) as E by vm_refl.
  rewrite E in Hq. exact Hq.
Defined.
(** Those over 20, by age, the greatest first, two at most. *)
Definition age_order : Order := {| o_field := lit "age"; o_path := [Key (lit "age")]; o_desc := true |}.
Definition first_two : ReadOpts := {| limit := 2; order := Some age_order; after := None; reverse := false |}.
Lemma query_sorted_witness : ∃ rs, inv false (T0 + 20) rs [] indexed_users ∧ workspace_ok (T0 + 20) indexed_users ∧ choose_walk Utc indexed_users over_20 first_two = None ∧
  ∃ plan m, (run_query Utc push_json no_walk over_20 first_two true (T0 + 20) [] indexed_users).1 =
    Ok ([(lit "user:2", JObject [(lit "age", age 41); (lit "role", JString (lit "dev"))]); (lit "user:1", JObject [(lit "age", age 30); (lit "role", JString (lit "dev"))])], plan, m) ∧
    returned m = 2 ∧ sorted m = 2.
Proof.
  destruct users_ready as (rs & Hi & Hw). exists rs. split; [exact Hi|]. split; [exact Hw|].
  assert (choose_walk Utc indexed_users over_20 first_two = None) as Hc by vm_refl. split; [exact Hc|].
  pose proof (query_sorted Utc push_json no_walk false (T0 + 20) rs indexed_users age_order over_20 first_two true [] Hi Hw over_20_ok user_pattern_ok eq_refl eq_refl Hc) as Hq.
  destruct (run_query _ _ _ _ _ _ _ _ _) as [r i']. destruct Hq as (Hq & _). cbn [fst page_start first_two after] in *.
  assert (sorted_rows Utc age_order over_20 (T0 + 20) indexed_users None = List.map (row_of age_order) [(lit "user:1", user 30); (lit "user:2", user 41)]) as E by vm_refl.
  cbn zeta in Hq. rewrite E in Hq.
  assert (first_rows (limit first_two) (o_desc age_order) (List.map (row_of age_order) [(lit "user:1", user 30); (lit "user:2", user 41)]) =
    List.map (row_of age_order) [(lit "user:2", user 41); (lit "user:1", user 30)]) as E2 by vm_refl.
  rewrite E2 in Hq. exact Hq.
Defined.

(** The index gives the second user alone; its probe lets it through. *)
Lemma index_narrows_witness : ∃ e p, q_expr over_35 = Some e ∧ Forall (index_ok (live_doc (T0 + 20) indexed_users)) (sec (mem indexed_users)) ∧
  index_plan Utc (sec (mem indexed_users)) e = Some p ∧ p_keys p = [lit "user:2"] ∧
  lit "user:2" ∈ p_keys p ∧ passes Utc (sec (mem indexed_users)) (lit "user:2") (probe_of (sec (mem indexed_users)) e) = true.
Proof.
  destruct users_ready as (rs & Hi & Hw). pose proof (engine_index_ok _ _ _ _ Hi Hw) as Hsec. 
  eexists _, {| p_keys := [lit "user:2"]; used := lit "user:* (age)"; indexes := 1; p_entries := 1 |}. split; [reflexivity|]. split; [exact Hsec|].
  assert (∀ k d, live_doc (T0 + 20) indexed_users k = Some d → valid_str k ∧ STAR ∉ k ∧ doc_texts d) as Hdocs.
  { intros k d Hd. split; [by eapply live_doc_key|]. by apply (wo_docs _ _ Hw). }
  destruct (index_narrows Utc (live_doc (T0 + 20) indexed_users) (lit "user:*") (sec (mem indexed_users)) _ Hdocs Hsec over_35_ok) as [Hp Hb].
  set (d := ViewJson (JObject [(lit "age", age 41); (lit "role", JString (lit "dev"))])).
  assert (live_doc (T0 + 20) indexed_users (lit "user:2") = Some d) as Hd by vm_refl.
  specialize (Hp {| p_keys := [lit "user:2"]; used := lit "user:* (age)"; indexes := 1; p_entries := 1 |} ltac:(vm_refl)) as [_ Hp].
  split; [vm_refl|]. split; [done|]. split; [apply (Hp _ d Hd); vm_refl|apply (Hb _ d Hd); vm_refl].
Defined.

(** Booleans have no order in a condition, and one in an index: a comparison
    an index answers alone gives documents that do not pass it. *)
Definition active_index : @SecIndex doc_leaves :=
  SecIndex.update (lit "u:1") (Some (ViewJson (JObject [(lit "active", @JBool sample_numbers true)])))
    (@SecIndex.new doc_leaves (lit "u:*") (lit "active") [[Key (lit "active")]] BTree false false).
Definition active_cond : Cond := cond_new (lit "u:*") (lit "active") CGt (@JBool sample_numbers false).
Theorem bool_order_index :
  index_candidates Utc active_index active_cond = [lit "u:1"] ∧ test_json Utc active_cond (JBool true) = false.
Proof. split; vm_refl. Qed.
