(* ===== verification/SchemaThm.v ===== *)
(** * Schemas: what is written follows the rules, and keeps what it held *)
From Stdlib Require Import QArith_base.
From S2P Require Import Prelude Utf8 Text Util Types Compress Format Crypt Log Cache DocNum Ordering Kdoc Paths PathsThm Times Json Value SecIndex Engine EngineMem EngineOk EngineThm Indexes View Select Moments Query Plan PlanThm SortKeys Run RunThm DocEq Schema.
Open Scope Z_scope.

(** A leaf of an object has its members. *)
Class FillableLaws `{HN : JsonNumbers} `{HD : Decimals} `{HC : Chrono} (T : Type) `{HT' : !Fillable T} : Prop := {
  leaf_object (m : list (str * T)) : leaf_members (leaf_of (object m)) = Some (lookup_in m);
}.

#[export] Instance json_fillable_laws `{JsonNumbers} `{Decimals} `{Chrono} : FillableLaws Json.
Proof. by split. Qed.
#[export] Instance doc_fillable_laws `{JsonNumbers} `{HM : !JsonMake} `{HD : Decimals} `{HF : !DecimalFrom} `{HT : !DecimalText} `{HC : Chrono} `{HK : !Calendar} `{HR : !Rfc3339} : FillableLaws Kdoc.Doc.
Proof. by split. Qed.

Section schema_thm.
  Context `{HN : JsonNumbers} `{HM : !JsonMake} `{HD : Decimals} `{HF : !DecimalFrom} `{HT : !DecimalText} `{HB : !DecimalBytes}.
  Context `{HC : Chrono} `{HK : !Calendar} `{HR : !Rfc3339} `{HS : !Serde} `{HG : !Regexes}.
  Context (zone : Zone).

(** ** Rules, by their fields *)
Section ind.
  Context (P : Rule → Prop).
  Context (Prule : ∀ b props items, (∀ fields, props = Some fields → Forall (fun nr => P nr.2) fields) → (∀ each, items = Some each → P each) → P (RuleOf b props items)).
Fixpoint rule_ind' (r : Rule) : P r :=
  match r with
  | RuleOf b props items =>
    Prule b props items
      (match props as p return ∀ fields, p = Some fields → Forall (fun nr => P nr.2) fields with
       | None => fun _ E => match E with end
       | Some l => fun fields E => match E in _ = o return match o with Some m => Forall (fun nr => P nr.2) m | None => True end with
           | eq_refl => (fix go l : Forall (fun nr => P nr.2) l :=
               match l with [] => @List.Forall_nil _ _ | (k, x) :: l => @List.Forall_cons _ _ (k, x) l (rule_ind' x) (go l) end) l
           end
       end)
      (match items as p return ∀ each, p = Some each → P each with
       | None => fun _ E => match E with end
       | Some x => fun each E => match E in _ = o return match o with Some y => P y | None => True end with eq_refl => rule_ind' x end
       end)
  end.
End ind.
(** Fields of different names, everywhere. *)
Fixpoint rule_names (r : Rule) : Prop :=
  let 'RuleOf _ props _ := r in
  match props with Some fields => NoDup fields.*1 ∧ all (fun nr => rule_names nr.2) fields | None => True end.
Definition names_ok (fields : list (str * Rule)) : Prop := NoDup fields.*1 ∧ all (fun nr => rule_names nr.2) fields.

(** ** The defaults, without the checks *)
Section fill.
  Context {T : Type} `{HT' : !Fillable T} (now : DateTime).
Fixpoint filled_value (r : Rule) (o : option T) : option T :=
  let 'RuleOf b props _ := r in
  let o := match o, r_default b with None, Some d => Some (of_json (default_value zone d now)) | o, _ => o end in
  match props, o ≫= members_of with
  | Some fields, Some inner =>
    Some (object (List.fold_left (fun m nr => match filled_value nr.2 (m_get nr.1 m) with Some v => m_insert nr.1 v m | None => m end) fields inner))
  | _, _ => o
  end.
Definition put_field (m : list (str * T)) (nr : str * Rule) : list (str * T) :=
  match filled_value nr.2 (m_get nr.1 m) with Some v => m_insert nr.1 v m | None => m end.
Definition filled (fields : list (str * Rule)) (m : list (str * T)) : list (str * T) := List.fold_left put_field fields m.

Lemma filled_value_eq b props items o : filled_value (RuleOf b props items) o =
  let o := match o, r_default b with None, Some d => Some (of_json (default_value zone d now)) | o, _ => o end in
  match props, o ≫= members_of with Some fields, Some inner => Some (object (filled fields inner)) | _, _ => o end.
Proof. done. Qed.
Lemma members_object (t : T) m : members_of t = Some m ↔ t = object m.
Proof.
  unfold members_of. split; [|intros ->; by rewrite view_object]. destruct (view t) eqn:E; [|done..]. intros [= ->]. by apply object_view.
Qed.
Lemma put_field_get m nr k : m_get k (put_field m nr) = if decide (nr.1 = k) then filled_value nr.2 (m_get k m) else m_get k m.
Proof.
  unfold put_field. destruct (filled_value nr.2 (m_get nr.1 m)) as [v|] eqn:E; [rewrite m_get_insert|]; case_decide; subst; try done.
  destruct (m_get nr.1 m) as [x|] eqn:Ex; [|by rewrite E]. exfalso. destruct nr as [k [b props items]]. cbn [fst snd] in *. rewrite filled_value_eq in E. cbn zeta in E. by repeat case_match.
Qed.
Lemma filled_cons nr fields m : filled (nr :: fields) m = filled fields (put_field m nr).
Proof. done. Qed.
(** Each field is filled on its own. *)
Lemma filled_other fields m k : k ∉ fields.*1 → m_get k (filled fields m) = m_get k m.
Proof.
  revert m. induction fields as [|nr fields IH]; intros m Hk; [done|]. rewrite filled_cons. cbn [fmap list_fmap] in Hk. apply not_elem_of_cons in Hk as [Hne Hk].
  rewrite IH, put_field_get by done. by rewrite decide_False.
Qed.
Lemma filled_get fields m name r : NoDup fields.*1 → (name, r) ∈ fields → m_get name (filled fields m) = filled_value r (m_get name m).
Proof.
  revert m. induction fields as [|nr fields IH]; intros m; [by intros _ ?%elem_of_nil|]. cbn [fmap list_fmap]. intros [Hn Hd]%NoDup_cons. rewrite filled_cons.
  intros [<-|Hin]%elem_of_cons; cbn [fst snd] in *.
  - rewrite filled_other by done. rewrite put_field_get. by rewrite decide_True.
  - rewrite IH by done. rewrite put_field_get, decide_False; [done|]. intros <-. apply Hn, list_elem_of_fmap. by exists (nr.1, r).
Qed.

(** *** Filling twice changes nothing *)
Lemma put_same fields m : (∀ nr, nr ∈ fields → filled_value nr.2 (m_get nr.1 m) = m_get nr.1 m) → filled fields m = m.
Proof.
  revert m. induction fields as [|nr fields IH]; intros m Hm; [done|]. rewrite filled_cons.
  assert (put_field m nr = m) as ->.
  { unfold put_field. rewrite Hm by left. destruct (m_get nr.1 m) eqn:E; [by apply m_insert_same|done]. }
  apply IH. intros x Hx. apply Hm. by right.
Qed.
Lemma filled_value_twice r o : rule_names r → filled_value r (filled_value r o) = filled_value r o.
Proof.
  revert o. induction r as [b props items IH _] using rule_ind'; intros o Hr. rewrite !filled_value_eq. cbn zeta.
  set (o' := match o, r_default b with None, Some d => _ | o, _ => o end).
  assert (match o', r_default b with None, Some d => Some (of_json (default_value zone d now)) | o, _ => o end = o') as Eo.
  { subst o'. by destruct o, (r_default b). }
  destruct props as [fields|]; [|by rewrite Eo]. destruct (o' ≫= members_of) as [inner|] eqn:Ei; [|rewrite Eo, Ei; done].
  cbn [mbind option_bind]. rewrite (proj2 (members_object (object (filled fields inner)) _) eq_refl). do 2 f_equal.
  destruct Hr as [Hn Ha]. apply all_Forall in Ha. specialize (IH fields eq_refl). rewrite Forall_forall in IH, Ha.
  apply put_same. intros [k r] Hin. cbn [fst snd]. rewrite (filled_get fields inner k r) by done. apply (IH (k, r)); [done|]. by apply (Ha (k, r)).
Qed.
Lemma filled_twice fields m : names_ok fields → filled fields (filled fields m) = filled fields m.
Proof.
  intros [Hn Ha]. apply all_Forall in Ha. rewrite Forall_forall in Ha. apply put_same. intros [k r] Hin. cbn [fst snd].
  rewrite (filled_get fields m k r) by done. apply filled_value_twice. by apply (Ha (k, r)).
Qed.

(** *** What the document held is still there *)
Lemma keeps_trans (a b c : T) : keeps a b → keeps b c → keeps a c.
Proof.
  intros H1 H2 ss x (y & Hy & Hxy)%H1. destruct (H2 ss y Hy) as (z & Hz & Hyz). exists z. split; [done|]. intros Hx. specialize (Hxy Hx). subst y. by apply Hyz.
Qed.
Lemma filled_keeps fields : Forall (fun nr => ∀ v v', filled_value nr.2 (Some v) = Some v' → keeps v v') fields →
  ∀ m, keeps (object m) (object (filled fields m)).
Proof.
  induction 1 as [|nr fields Hnr _ IH]; intros m; [apply keeps_refl|]. rewrite filled_cons. eapply keeps_trans; [|apply IH].
  unfold put_field. destruct (filled_value nr.2 (m_get nr.1 m)) as [v|] eqn:E; [|apply keeps_refl].
  apply keeps_member; [apply view_object|]. intros d Ed. rewrite Ed in E. by apply Hnr.
Qed.
Lemma filled_value_keeps r v v' : filled_value r (Some v) = Some v' → keeps v v'.
Proof.
  revert v v'. induction r as [b props items IH _] using rule_ind'; intros v v'. rewrite filled_value_eq. cbn zeta. cbn [mbind option_bind].
  destruct props as [fields|]; [|intros [= <-]; apply keeps_refl]. destruct (members_of v) as [inner|] eqn:E; [|intros [= <-]; apply keeps_refl].
  apply members_object in E as ->. intros [= <-]. apply filled_keeps. by apply IH.
Qed.
Lemma object_keeps fields (m : list (str * T)) : keeps (object m) (object (filled fields m)).
Proof. apply filled_keeps, Forall_true. intros nr. apply filled_value_keeps. Qed.

(** ** The checks *)
Context `{HFL : !FillableLaws T}.
Lemma members_not_null v l : leaf_members v = Some l → leaf_is_null v = false ∧ leaf_text v = None ∧ leaf_items v = None.
Proof. by destruct v as [[]|[]]. Qed.
Lemma check_value_object b fields items v lookup : leaf_members v = Some lookup →
  check_value (RuleOf b (Some fields) items) v = Ok tt ↔ check_basic b v = Ok tt ∧ check_fields fields lookup = Ok tt.
Proof.
  intros Hl. destruct (members_not_null v lookup Hl) as (Hn & Ht & Hi). cbn [check_value]. unfold null_allowed. rewrite Hn, Ht, Hi, Hl. cbn [andb]. unfold check_fields.
  destruct (check_basic b v) as [[]|e]; cbn [mbind result_bind]; [tauto|]. split; [done|by intros [? _]].
Qed.
Lemma checked_fields fields lookup : check_fields fields lookup = Ok tt ↔ Forall (fun nr => check_field check_value lookup nr = Ok tt) fields.
Proof. apply try_for_each_ok. Qed.

Lemma m_insert_insert {A} k (v w : A) m : m_insert k v (m_insert k w m) = m_insert k v m.
Proof. induction m as [|[k' x] m IH]; cbn [m_insert]; [by rewrite decide_True|]. case_decide; cbn [m_insert]; case_decide; subst; try done. by rewrite IH. Qed.
Definition with_default (b : Basic) (o : option T) : option T :=
  match o, r_default b with None, Some d => Some (of_json (default_value zone d now)) | o, _ => o end.
Lemma add_default_spec name b (m : list (str * T)) :
  m_get name (add_default zone now name b m) = with_default b (m_get name m) ∧
  (∀ v, m_insert name v (add_default zone now name b m) = m_insert name v m) ∧
  add_default zone now name b m = match with_default b (m_get name m) with Some v => m_insert name v m | None => m end.
Proof.
  unfold add_default, with_default. destruct (m_get name m) as [x|] eqn:E; [by rewrite m_insert_same|]. destruct (r_default b) as [d|]; [|done].
  rewrite m_get_insert, decide_True by done. split; [done|]. split; [|done]. intros v. apply m_insert_insert.
Qed.
Lemma fold_members_app {A B} (f : A → B → result msg B) x l m : fold_members f (x :: l) m = m ← f x m; fold_members f l m.
Proof. done. Qed.
Lemma fill_field_eq b props items name m : fill_field zone now (RuleOf b props items) name m =
  match props, with_default b (m_get name m) ≫= members_of with
  | Some fields, Some inner =>
    inner ← fold_members (fun nr inner => fill_field zone now nr.2 nr.1 inner) fields inner;
    _ ← check_fields fields (lookup_in inner);
    Ok (m_insert name (object inner) m)
  | _, _ => Ok (put_field m (name, RuleOf b None items))
  end.
Proof.
  cbn [fill_field]. destruct (add_default_spec name b m) as (Eg & Ei & Ea). rewrite Eg. unfold put_field. cbn [fst snd]. rewrite filled_value_eq. cbn zeta. fold (with_default b (m_get name m)).
  rewrite <- Ea. destruct props as [fields|]; [|done]. destruct (with_default b (m_get name m) ≫= members_of) as [inner|]; [|done].
  destruct (fold_members _ fields inner) as [inner'|]; [|done]. cbn [mbind result_bind]. destruct (check_fields _ _); [|done]. cbn [mbind result_bind]. by rewrite Ei.
Qed.
Lemma put_field_eq b props items name m : put_field m (name, RuleOf b props items) =
  match props, with_default b (m_get name m) ≫= members_of with
  | Some fields, Some inner => m_insert name (object (filled fields inner)) m
  | _, _ => put_field m (name, RuleOf b None items)
  end.
Proof.
  unfold put_field. cbn [fst snd]. rewrite !filled_value_eq. cbn zeta. fold (with_default b (m_get name m)).
  destruct props as [fields|]; [|done]. by destruct (with_default b (m_get name m) ≫= members_of).
Qed.
(** What the filling gives is the defaults. *)
Lemma fold_filled fields : Forall (fun nr => ∀ name m m', fill_field zone now nr.2 name m = Ok m' → m' = put_field m (name, nr.2)) fields →
  ∀ m m', fold_members (fun nr m => fill_field zone now nr.2 nr.1 m) fields m = Ok m' → m' = filled fields m.
Proof.
  induction 1 as [|[k r] fields Hnr _ IH]; intros m m'; [by intros [= ->]|]. rewrite fold_members_app, filled_cons. cbn [fst snd] in *.
  destruct (fill_field zone now r k m) as [m1|] eqn:E; [|done]. apply Hnr in E as ->. apply IH.
Qed.
Lemma fill_field_gives r name m m' : fill_field zone now r name m = Ok m' → m' = put_field m (name, r).
Proof.
  revert name m m'. induction r as [b props items IH _] using rule_ind'; intros name m m'. rewrite fill_field_eq, (put_field_eq b props items).
  destruct props as [fields|]; [|by intros [= ->]]. destruct (with_default b (m_get name m) ≫= members_of) as [inner|]; [|by intros [= ->]].
  destruct (fold_members _ fields inner) as [inner'|] eqn:E; [|done]. apply fold_filled in E as ->; [|by apply IH]. cbn [mbind result_bind].
  destruct (check_fields _ _); [|done]. by intros [= <-].
Qed.
(** When the result follows the rules, the filling finds no fault on the way. *)
Definition passes_at (r : Rule) (o : option T) : Prop := ∀ v, o = Some v → check_value r (leaf_of v) = Ok tt.
Lemma fold_succeeds fields : Forall (fun nr => rule_names nr.2 → ∀ name m, passes_at nr.2 (m_get name (put_field m (name, nr.2))) →
    fill_field zone now nr.2 name m = Ok (put_field m (name, nr.2))) fields →
  NoDup fields.*1 → Forall (fun nr => rule_names nr.2) fields →
  ∀ m, check_fields fields (lookup_in (filled fields m)) = Ok tt →
  fold_members (fun nr m => fill_field zone now nr.2 nr.1 m) fields m = Ok (filled fields m).
Proof.
  induction 1 as [|[k r] fields Hnr _ IH]; intros Hn Hr m Hc; [done|]. cbn [fmap list_fmap] in Hn. apply NoDup_cons in Hn as [Hk Hn]. apply Forall_cons in Hr as [Hr1 Hr].
  rewrite checked_fields in Hc. apply Forall_cons in Hc as [Hc1 Hc]. rewrite fold_members_app. rewrite filled_cons in *. cbn [fst snd] in *.
  rewrite Hnr; [cbn [mbind result_bind]; apply IH; [done..|by apply checked_fields]|done|].
  intros v Ev. unfold check_field, lookup_in in Hc1. cbn [fst snd] in Hc1. rewrite filled_other in Hc1 by done. by rewrite Ev in Hc1.
Qed.
Lemma fill_field_succeeds r : rule_names r → ∀ name m, passes_at r (m_get name (put_field m (name, r))) →
  fill_field zone now r name m = Ok (put_field m (name, r)).
Proof.
  induction r as [b props items IH _] using rule_ind'; intros Hr name m. rewrite fill_field_eq, (put_field_eq b props items).
  destruct props as [fields|]; [|done]. destruct (with_default b (m_get name m) ≫= members_of) as [inner|]; [|done].
  rewrite m_get_insert, decide_True by done. intros Hp. specialize (Hp _ eq_refl). apply (check_value_object _ _ _ _ _ (leaf_object _)) in Hp as [_ Hp].
  destruct Hr as [Hn Ha]. apply all_Forall in Ha. rewrite (fold_succeeds fields (IH fields eq_refl) Hn Ha inner Hp). cbn [mbind result_bind]. by rewrite Hp.
Qed.
Lemma fill_and_check_exact fields m m' : names_ok fields →
  fill_and_check zone now fields m = Ok m' ↔ m' = filled fields m ∧ check_fields fields (lookup_in m') = Ok tt.
Proof.
  intros [Hn Ha]. apply all_Forall in Ha. unfold fill_and_check. split.
  - destruct (fold_members _ fields m) as [m1|] eqn:E; [|done]. apply fold_filled in E as ->; [|apply Forall_true; intros nr; apply fill_field_gives].
    cbn [mbind result_bind]. destruct (check_fields _ _) as [[]|] eqn:Ec; [|done]. intros [= <-]. by split.
  - intros [-> Hc]. rewrite (fold_succeeds fields) by (done || by apply Forall_true; intros nr ?; by apply fill_field_succeeds). cbn [mbind result_bind]. by rewrite Hc.
Qed.

(** ** A document that follows the rules stays one *)
(** The default follows its own rule; an object with fields is not one of a
    list of values, which its defaults would take it out of. *)
Fixpoint default_passes (r : Rule) : Prop :=
  let 'RuleOf b props _ := r in
  match r_default b with Some d => check_value r (leaf_of (of_json (default_value zone d now))) = Ok tt | None => True end ∧
  match props with Some fields => one_of b = None ∧ all (fun nr => default_passes nr.2) fields | None => True end.
Lemma accepts_object ty v l : leaf_members v = Some l → accepts_leaf ty v = bool_decide (ty ∈ [FObject; FAny]).
Proof. by destruct v as [[]|[]], ty. Qed.
Lemma check_basic_object b v v' l l' : leaf_members v = Some l → leaf_members v' = Some l' → one_of b = None → check_basic b v = check_basic b v'.
Proof.
  intros Hv Hv' Ho. unfold check_basic. rewrite Ho. assert (∀ bound side w lw, leaf_members w = Some lw → beyond_bound w bound side = false) as Hb.
  { intros bound side w lw Hw. unfold beyond_bound. assert (num_key w = None) as -> by (by destruct w as [[]|[]]). done. }
  rewrite !(Hb _ _ v l), !(Hb _ _ v' l') by done. destruct (r_ty b); [|done]. by rewrite (accepts_object _ v l), (accepts_object _ v' l').
Qed.
Definition fill_passes (r : Rule) : Prop := ∀ v v', check_value r (leaf_of v) = Ok tt → filled_value r (Some v) = Some v' → check_value r (leaf_of v') = Ok tt.
Lemma filled_none r : filled_value r None = match r_default (basic r) with Some d => filled_value r (Some (of_json (default_value zone d now))) | None => None end.
Proof. destruct r as [b props items]. rewrite !filled_value_eq. cbn [basic]. destruct (r_default b); [done|]. cbn zeta. by destruct props. Qed.
Lemma default_of r : default_passes r → match r_default (basic r) with Some d => check_value r (leaf_of (of_json (default_value zone d now))) = Ok tt | None => True end.
Proof. destruct r as [b props items]. by intros [? _]. Qed.
Lemma filled_passes fields m : NoDup fields.*1 → Forall (fun nr => default_passes nr.2 ∧ fill_passes nr.2) fields →
  check_fields fields (lookup_in m) = Ok tt → check_fields fields (lookup_in (filled fields m)) = Ok tt.
Proof.
  intros Hn Hf. rewrite !checked_fields, !Forall_forall in *. intros Hc [k r] Hin. specialize (Hc _ Hin). destruct (Hf _ Hin) as [Hd Hp]. cbn [snd] in *.
  unfold check_field, lookup_in in *. cbn [fst snd] in *. rewrite (filled_get fields m k r) by done. destruct (m_get k m) as [v|]; cbn [fmap option_fmap option_map] in *.
  - destruct (filled_value r (Some v)) as [v'|] eqn:E; cbn [fmap option_fmap option_map]; [by apply (Hp v)|].
    destruct r as [b props items]. rewrite filled_value_eq in E. cbn zeta in E. by repeat case_match.
  - rewrite filled_none. apply default_of in Hd. destruct (r_default (basic r)) as [d|]; [|exact Hc].
    destruct (filled_value r (Some _)) as [v'|] eqn:E; cbn [fmap option_fmap option_map]; [by eapply Hp|].
    destruct r as [b props items]. rewrite filled_value_eq in E. cbn zeta in E. by repeat case_match.
Qed.
Lemma value_passes r : rule_names r → default_passes r → fill_passes r.
Proof.
  induction r as [b props items IH _] using rule_ind'; intros Hr Hd v v' Hc. rewrite filled_value_eq. cbn zeta. cbn [mbind option_bind].
  destruct props as [fields|]; [|by intros [= <-]]. destruct (members_of v) as [inner|] eqn:E; [|by intros [= <-]]. apply members_object in E as ->. intros [= <-].
  destruct Hr as [Hn Ha], Hd as (_ & Ho & Hd). apply all_Forall in Ha, Hd. specialize (IH fields eq_refl).
  apply (check_value_object _ _ _ _ _ (leaf_object _)) in Hc as [Hb Hc]. apply (check_value_object _ _ _ _ _ (leaf_object _)). split.
  - by rewrite <- (check_basic_object b (leaf_of (object inner)) _ _ _ (leaf_object _) (leaf_object _) Ho).
  - apply filled_passes; [done| |done]. rewrite !Forall_forall in *. intros nr Hin. split; [by apply Hd|]. apply IH; [done|by apply Ha|by apply Hd].
Qed.
Lemma fill_accepts fields m : names_ok fields → Forall (fun nr => default_passes nr.2) fields → check_fields fields (lookup_in m) = Ok tt →
  fill_and_check zone now fields m = Ok (filled fields m).
Proof.
  intros Hn Hd Hc. apply fill_and_check_exact; [done|]. split; [done|]. destruct Hn as [Hn Ha]. apply all_Forall in Ha. apply filled_passes; [done| |done].
  rewrite !Forall_forall in *. intros nr Hin. split; [by apply Hd|]. apply value_passes; [by apply Ha|by apply Hd].
Qed.

Lemma conform_spec s t t' : names_ok (fields s) →
  (conform zone now s t = Ok t' ↔
    ∃ m, t = object m ∧ t' = object (filled (fields s) m) ∧ check_fields (fields s) (lookup_in (filled (fields s) m)) = Ok tt) ∧
  (conform zone now s t = Ok t' → keeps t t' ∧ conform zone now s t' = Ok t').
Proof.
  intros Hn. assert (∀ u u', conform zone now s u = Ok u' ↔
    ∃ m, u = object m ∧ u' = object (filled (fields s) m) ∧ check_fields (fields s) (lookup_in (filled (fields s) m)) = Ok tt) as Hex.
  { intros u u'. unfold conform. destruct (members_of u) as [m|] eqn:E.
    - apply members_object in E as ->. split.
      + destruct (fill_and_check _ _ _ m) as [m'|] eqn:Ef; [|done]. apply fill_and_check_exact in Ef as [-> Hc]; [|done]. intros [= <-]. by exists m.
      + intros (m0 & Em & -> & Hc). apply members_object in Em. rewrite (proj2 (members_object (object m) _) eq_refl) in Em. injection Em as <-.
        by rewrite (proj2 (fill_and_check_exact (fields s) m _ Hn) (conj eq_refl Hc)).
    - split; [done|]. intros (m & -> & _). by rewrite (proj2 (members_object (object m) _) eq_refl) in E. }
  split; [apply Hex|]. intros (m & -> & -> & Hc)%Hex. split; [apply object_keeps|]. apply Hex. exists (filled (fields s) m). by rewrite filled_twice.
Qed.

(** C19: a document is written as its schema wants it. [conform] gives a
    document exactly when it is an object that follows the rules once its
    missing members have their defaults, at every depth; it gives that
    document, in which everything that was there still is, and to which
    conforming again changes nothing. *)
Theorem conform_exact s t t' : names_ok (fields s) →
  (conform zone now s t = Ok t' ↔
    ∃ m, t = object m ∧ t' = object (filled (fields s) m) ∧ check_fields (fields s) (lookup_in (filled (fields s) m)) = Ok tt) ∧
  (conform zone now s t = Ok t' → keeps t t' ∧ conform zone now s t' = Ok t').
Proof. apply conform_spec. Qed.
End fill.

(** ** What reading a schema promises *)
Fixpoint static_passes (r : Rule) : Prop :=
  let 'RuleOf b props _ := r in
  match r_default b with Some (FillValue d) => check_value r (LJson d) = Ok tt | _ => True end ∧
  match props with Some fields => all (fun nr => static_passes nr.2) fields | None => True end.
Definition rule_ok (r : Rule) : Prop := rule_names r ∧ static_passes r.
Definition fields_ok (fields : list (str * Rule)) : Prop := NoDup fields.*1 ∧ Forall (fun nr => rule_ok nr.2) fields.
Lemma parse_members_spec {A} (f : Json → result msg A) m fs : parse_members f m = Ok fs →
  fs.*1 = m.*1 ∧ Forall2 (fun kv nr => f kv.2 = Ok nr.2) m fs.
Proof.
  revert fs. induction m as [|[k j] m IH]; intros fs; cbn [parse_members]; [by intros [= <-]|]. case_bool_decide; [done|].
  destruct (f j) as [r|] eqn:E; [|done]. cbn [mbind result_bind]. fold (parse_members f m). destruct (parse_members f m) as [rest|]; [|done]. cbn [mbind result_bind].
  intros [= <-]. destruct (IH rest eq_refl) as [E1 E2]. cbn [fmap list_fmap fst]. unfold fmap in E1. split; [by f_equal|]. by constructor.
Qed.
Lemma read_at_spec {A} k (g : Json → result msg A) m o : read_at k (List.map (fun kv => (kv.1, g kv.2)) m) = Ok o →
  match o with Some x => ∃ j, (k, j) ∈ m ∧ g j = Ok x | None => True end.
Proof.
  unfold read_at. induction m as [|[k' j] m IH]; cbn [List.map m_get fst snd]; [by intros [= <-]|]. case_decide.
  - subst. destruct (g j) as [x|] eqn:E; [|done]. intros [= <-]. exists j. split; [by left|done].
  - intros Ho. specialize (IH Ho). destruct o as [x|]; [|done]. destruct IH as (j' & Hin & E). exists j'. split; [by right|done].
Qed.
Lemma check_value_default b d props items v : check_value (RuleOf (set_default b d) props items) v = check_value (RuleOf b props items) v.
Proof. done. Qed.
Lemma default_at_spec m in_items r d : default_at m in_items r = Ok (Some (FillValue d)) → check_value r (LJson d) = Ok tt.
Proof.
  unfold default_at. destruct (m_get _ m) as [j|]; [|done]. destruct in_items; [done|]. destruct (dynamic _ j) as [f|] eqn:Ed.
  - intros [= ->]. unfold dynamic in Ed. repeat case_match; done.
  - destruct (check_value r (LJson j)) as [[]|] eqn:E; [|done]. by intros [= <-].
Qed.
Section json_ind.
  Context (P : Json → Prop).
  Context (Pleaf : ∀ j, match j with JArray _ | JObject _ => False | _ => True end → P j).
  Context (Parray : ∀ items, Forall P items → P (JArray items)).
  Context (Pobject : ∀ m, Forall (fun kv => P kv.2) m → P (JObject m)).
Fixpoint json_ind' (j : Json) : P j :=
    match j with
    | JArray items =>
      Parray items ((fix go l : Forall P l := match l with [] => @List.Forall_nil _ _ | x :: l => @List.Forall_cons _ _ x l (json_ind' x) (go l) end) items)
    | JObject m =>
      Pobject m ((fix go l : Forall (fun kv => P kv.2) l :=
        match l with [] => @List.Forall_nil _ _ | (k, x) :: l => @List.Forall_cons _ _ (k, x) l (json_ind' x) (go l) end) m)
    | j => Pleaf j I
    end.
End json_ind.
Definition parses (j : Json) : Prop :=
  (∀ depth fs, parse_fields depth j = Ok fs → fields_ok fs) ∧ (∀ depth in_items r, parse_rule depth in_items j = Ok r → rule_ok r).
Lemma parse_fields_object depth m fs : Forall (fun kv => parses kv.2) m → NoDup m.*1 → parse_fields depth (JObject m) = Ok fs → fields_ok fs.
Proof.
  intros Hm Hn. cbn [parse_fields]. destruct (Nat.ltb MAX_DEPTH depth); [done|]. intros [Ek Hf]%parse_members_spec. split; [by rewrite Ek|].
  clear Ek Hn. induction Hf as [|kv nr m fs E _ IH]; [constructor|]. apply Forall_cons in Hm as [[_ Hr] Hm]. constructor; [by eapply Hr|by apply IH].
Qed.
Lemma parse_rule_object depth in_items m r : Forall (fun kv => parses kv.2) m → parse_rule depth in_items (JObject m) = Ok r → rule_ok r.
Proof.
  intros Hm. cbn [parse_rule]. destruct (read_basic m in_items) as [b|]; [|done]. cbn [mbind result_bind].
  destruct (read_at (lit "properties") _) as [props|] eqn:Ep; [|done]. destruct (read_at (lit "items") _) as [items|]; [|done]. cbn [mbind result_bind].
  destruct (default_at m in_items _) as [d|] eqn:Ed; [|done]. cbn [mbind result_bind]. intros [= <-].
  apply (read_at_spec _ (parse_fields (Datatypes.S depth))) in Ep.
  assert (match props with Some fields => fields_ok fields | None => True end) as Hp.
  { destruct props as [fields|]; [|done]. destruct Ep as (j & Hj & E). rewrite Forall_forall in Hm. by eapply (proj1 (Hm _ Hj)). }
  assert (match d with Some (FillValue d) => check_value (RuleOf (set_default b (Some (FillValue d))) props items) (LJson d) = Ok tt | _ => True end) as Hd.
  { destruct d as [[j| | |]|]; try done. rewrite check_value_default. by eapply default_at_spec. }
  split; cbn [rule_names static_passes].
  - destruct props as [fields|]; [|done]. destruct Hp as [Hn Hf]. split; [done|]. apply all_Forall. eapply Forall_impl; [exact Hf|]. by intros nr [? _].
  - split; [|destruct props as [fields|]; [|done]; destruct Hp as [Hn Hf]; apply all_Forall; eapply Forall_impl; [exact Hf|]; by intros nr [_ ?]].
    destruct d as [[j| | |]|]; exact Hd.
Qed.
Lemma json_parses j : json_ok j → parses j.
Proof.
  induction j as [j Hleaf|items _|m IH] using json_ind'; intros Hj.
  - split; [intros depth fs|intros depth ii r]; by destruct j.
  - by split.
  - destruct Hj as [Hn Ha]. apply all_Forall in Ha. assert (Forall (fun kv => parses kv.2) m) as Hm.
    { rewrite Forall_forall in *. intros kv Hin. apply IH; [done|]. by apply Ha. }
    split; [intros depth fs; by apply parse_fields_object|intros depth ii r; by apply parse_rule_object].
Qed.

(** When the defaults that are moments follow their rules too, and no object
    whose fields are described is limited to an enumeration. Reading a schema
    asks for neither (SchemaSample.accepted_and_refuses). *)
Fixpoint moments_pass (now : DateTime) (r : Rule) : Prop :=
  let 'RuleOf b props _ := r in
  match r_default b with Some (FillValue _) | None => True | Some d => check_value r (LJson (default_value zone d now)) = Ok tt end ∧
  match props with Some fields => one_of b = None ∧ all (fun nr => moments_pass now nr.2) fields | None => True end.
Lemma static_defaults now r : static_passes r → moments_pass now r → @default_passes Json _ now r.
Proof.
  induction r as [b props items IH _] using rule_ind'. cbn [static_passes moments_pass default_passes]. intros [Hd Hs] [Hm Hp]. split.
  - destruct (r_default b) as [[]|]; done.
  - destruct props as [fields|]; [|done]. destruct Hp as [Ho Hp]. split; [done|]. apply all_Forall. apply all_Forall in Hs, Hp. specialize (IH fields eq_refl).
    rewrite Forall_forall in *. intros nr Hin. apply IH; [done|by apply Hs|by apply Hp].
Qed.
Lemma parsed_fields pattern_ spec_ s : json_ok spec_ → Schema_parse pattern_ spec_ = Ok s →
  names_ok (fields s) ∧ Forall (fun nr => static_passes nr.2) (fields s) ∧ fields s ≠ [].
Proof.
  intros Hj Hp. unfold Schema_parse in Hp. destruct (parse_fields 0 spec_) as [fs|] eqn:Ef; [|done]. cbn [mbind result_bind] in Hp. case_bool_decide as Hne; [done|].
  injection Hp as <-. cbn [fields]. destruct (proj1 (json_parses _ Hj) _ _ Ef) as [Hn Hf]. split; [|split; [|done]].
  - split; [done|]. apply all_Forall. eapply Forall_impl; [exact Hf|]. by intros nr [? _].
  - eapply Forall_impl; [exact Hf|]. by intros nr [_ ?].
Qed.

(** C24: what a schema that is accepted promises. Reading a schema gives
    fields of different names, at every depth, whose written defaults follow
    their own rules. A JSON document that passes the check is then always
    written, with its defaults, and passes it with them, provided that the
    defaults that are moments (now(), today(), current_time), which reading
    does not look at, follow their rules at that moment, and that no object
    whose fields are described is limited to an enumeration. Typed documents
    are not covered. *)
Theorem schema_accepts now pattern_ spec_ s m :
  json_ok spec_ → Schema_parse pattern_ spec_ = Ok s →
  names_ok (fields s) ∧ Forall (fun nr => static_passes nr.2) (fields s) ∧ fields s ≠ [] ∧
  (Forall (fun nr => moments_pass now nr.2) (fields s) → check_view s (ViewJson (JObject m)) = Ok tt →
   conform zone now s (JObject m) = Ok (JObject (filled now (fields s) m)) ∧ check_view s (ViewJson (JObject (filled now (fields s) m))) = Ok tt).
Proof.
  intros Hj Hp. destruct (parsed_fields _ _ _ Hj Hp) as (Hok & Hst & Hne). split; [done|]. split; [done|]. split; [done|]. intros Hm Hc.
  assert (Forall (fun nr : str * Rule => @default_passes Json _ now nr.2) (fields s)) as Hd.
  { rewrite Forall_forall in *. intros nr Hin. apply static_defaults; [by apply Hst|by apply Hm]. }
  assert (FillableLaws Json) as HL by done. pose proof (fill_accepts now (fields s) m Hok Hd Hc) as Hfill.
  split; [unfold conform; change (members_of (JObject m)) with (Some m); cbn beta iota; by rewrite Hfill|].
  by destruct (proj1 (fill_and_check_exact now (fields s) m _ Hok) Hfill).
Qed.

(** ** A write under one schema *)
Section write.
  Context `{HA : Aead} `{HZ : Crc} `{HO : Codecs} `{LA : !AeadLaws} `{LO : !CodecsLaws} `{HL : !Lowercase} `{HX : !NanoText}.
  Context `{LD : !DecimalsLaws} `{LJ : !JsonNumbersLaws} `{LF : !DecimalFromLaws}.
  Context `{LM : !JsonMakeLaws} `{LT : !DecimalTextLaws} `{LB : !DecimalBytesLaws} `{LC : !ChronoLaws} `{LK : !CalendarLaws} `{LR : !Rfc3339Laws} `{LS : !SerdeLaws}.
Definition follows_schema (s : Schema) (w : Value) : Prop := ∃ d, view_of w = Some d ∧ check_view s d = Ok tt.
Definition keeps_value (v w : Value) : Prop :=
  match v, w with VDoc j, VDoc j' => keeps j j' | VTyped d, VTyped d' => keeps d d' | _, _ => False end.
Lemma conform_value_ok s now v w : names_ok (fields s) → conform_value zone s now v = Ok w → follows_schema s w ∧ keeps_value v w.
Proof.
  intros Hn. destruct v as [| | | |j|d| | | |]; try done; cbn [conform_value].
  - destruct (conform zone now s j) as [j'|] eqn:E; [|done]. intros [= <-]. destruct (conform_spec now s j j' Hn) as [H1 H2]. split; [|by apply H2].
    apply H1 in E as (m & -> & -> & Hc). by eexists.
  - destruct (conform zone now s d) as [d'|] eqn:E; [|done]. intros [= <-]. destruct (conform_spec now s d d' Hn) as [H1 H2]. split; [|by apply H2].
    apply H1 in E as (m & -> & -> & Hc). by eexists.
Qed.
Lemma start_conforms s now v : conform_value zone s now (start_of v) = conform_value zone s now v.
Proof. by destruct v. Qed.

(** C18: under a schema, a key gets what follows it, or keeps what it has. When
    one schema covers the key, [conformed] answers exactly this. If the value
    can be made to follow the schema, it is the document to write, which
    follows the schema and holds everything the one given holds; it is written
    as it is when nothing had to be filled in. If it cannot, it is written as it
    is when the key holds that very value already (a document stored before its
    schema, whose deadline is changed), and refused as against the schema when
    the key holds nothing or another value. In every case nothing a client sees
    changes. *)
Theorem conformed_exact req t rs i schemas key v at_ s :
  inv req t rs [] i → schemas_of schemas key = [s] → names_ok (fields s) →
  let '(r, i') := conformed zone schemas key v at_ t i in
  match conform_value zone s at_ v with
  | Ok w => follows_schema s w ∧ keeps_value v w ∧ r = Ok (if value_eqb w v then None else Some w)
  | Err _ =>
    match look t i key with
    | Some (c, _) => if value_eqb c v then r = Ok None else ∃ why, r = Err (SchemaErr why)
    | None => ∃ why, r = Err (SchemaErr why)
    end
  end ∧
  inv req t rs [] i' ∧ ∀ t' k, t ≤ t' → look t' i' k = look t' i k.
Proof.
  intros Hi Hs Hn. unfold conformed. rewrite Hs. cbn [fold_members]. rewrite start_conforms. destruct (conform_value zone s at_ v) as [w|why] eqn:Ew; cbn [mbind result_bind].
  { destruct (conform_value_ok s at_ v w Hn Ew) as [Hf Hk]. by split; [|split]. }
  pose proof (reads_live req t rs i key Hi) as Hr. destruct (live_cases key t i) as [(e & El & Hk & Hx)|[[El Hk]|(e & El & Hk & Hx)]]; rewrite El in *; cbn [snd] in *.
  2,3: split; [unfold look; rewrite Hk, ?Hx; by eexists|split; apply Hr].
  destruct (value_of_ok _ _ _ _ _ _ _ Hi Hk) as (c & i' & Ev & Hv & Hi' & _ & Ex & _ & _ & _ & Hsv & _). rewrite Ev.
  assert (∀ t' k, t ≤ t' → look t' i' k = look t' i k) as Hl by (intros; unfold look; by rewrite Ex, Hsv).
  assert (look t i key = Some (c, e_expires_at e)) as Hlook by (unfold look, stored_value in *; rewrite Hk, Hx in *; by rewrite Hv).
  rewrite Hlook. destruct (value_eqb c v) eqn:E; [by split; [|split]|]. split; [by eexists|by split].
Qed.
End write.
End schema_thm.
