(* ===== verification/SchemaSample.v ===== *)
(** * Schemas of users *)
From S2P Require Import Prelude Utf8 Text Util Maps Types Compress Format Crypt Log Cache DocNum Ordering Kdoc Paths PathsThm PathText Times TimesThm Json JsonThm Value SecIndex Engine EngineMem EngineOk EngineThm Sample EngineBatch Recovery History Spec Indexes View Select Moments Query Plan PlanThm SortKeys Run RunThm RunSample DocEq Schema SchemaThm.
Open Scope Z_scope.

(** A regular expression of plain characters, found as a part of the text. *)
#[export] Instance plain_regexes : Regexes := {|
  Regex := str; regex_build p := Some p;
  regex_match p s := existsb (fun n => bool_decide (take (length p) (drop n s) = p)) (seq 0 (S (length s))) |}.
Abbreviation SJson := (@Json sample_numbers).
Abbreviation SSchema := (@Schema sample_numbers plain_regexes).
Definition F150 : Z := 0x4062C00000000000.
Definition member (k : String.string) (j : SJson) : str * SJson := (lit k, j).
Definition text_ (s : String.string) : SJson := JString (lit s).
(** An age of 150 at most, a city filled in, in a place if there is one. *)
Definition users_spec : SJson :=
  JObject [member "age" (JObject [member "type" (text_ "int"); member "max" (JNumber (number_of (inr F150)))]);
           member "place" (JObject [member "type" (text_ "object"); member "properties"
             (JObject [member "city" (JObject [member "type" (text_ "string"); member "pattern" (text_ "o"); member "default" (text_ "Goma")])])])].
Definition users_schema : SSchema := match Schema_parse (lit "user:*") users_spec with Ok s => s | Err _ => {| s_pattern := []; spec := JNull; fields := [] |} end.

(** Read without a fault, as two fields. *)
Lemma users_schema_read : Schema_parse (lit "user:*") users_spec = Ok users_schema ∧ List.map fst (fields users_schema) = [lit "age"; lit "place"].
Proof. split; vm_refl. Qed.
Definition a_basic (t : FieldType) (hi : option Z) (re : option (@Regex plain_regexes)) (d : option (@Fill sample_numbers)) : @Basic sample_numbers plain_regexes :=
  {| r_ty := Some t; required := false; nullable := false; r_unique := false; r_min := None; r_max := hi; min_length := None; max_length := None;
     min_items := None; max_items := None; one_of := None; r_pattern := re; r_default := d |}.
Lemma users_fields : fields users_schema =
  [(lit "age", RuleOf (a_basic FInt (Some F150) None None) None None);
   (lit "place", RuleOf (a_basic FObject None None None) (Some [(lit "city", RuleOf (a_basic FString None (Some (lit "o")) (Some (FillValue (text_ "Goma")))) None None)]) None)].
Proof. vm_refl. Qed.
Lemma users_spec_ok : json_ok users_spec.
Proof.
  cbn. repeat split; try (by apply ascii_text); repeat (apply NoDup_cons; split; [vm_compute; set_solver|]); try apply NoDup_nil_2.
Qed.
Definition in_place (n : Z) (place : list (str * SJson)) : SJson := JObject [(lit "age", age n); (lit "place", JObject place)].

Lemma users_names : names_ok (fields users_schema).
Proof.
  destruct users_schema_read as [Hp _]. by destruct (parsed_fields (lit "user:*") users_spec users_schema users_spec_ok Hp).
Qed.
Lemma conform_exact_witness : names_ok (fields users_schema) ∧ conform Utc sample_at users_schema (in_place 50 []) = Ok (in_place 50 [(lit "city", text_ "Goma")]) ∧
  keeps (in_place 50 []) (in_place 50 [(lit "city", text_ "Goma")]) ∧
  conform Utc sample_at users_schema (in_place 50 [(lit "city", text_ "Goma")]) = Ok (in_place 50 [(lit "city", text_ "Goma")]).
Proof.
  assert (conform Utc sample_at users_schema (in_place 50 []) = Ok (in_place 50 [(lit "city", text_ "Goma")])) as E by vm_refl.
  split; [exact users_names|]. split; [exact E|]. exact (proj2 (conform_exact Utc sample_at users_schema _ _ users_names) E).
Defined.
Definition in_place_members : list (str * SJson) := [(lit "age", age 50); (lit "place", JObject [])].
Lemma schema_accepts_witness : json_ok users_spec ∧ Schema_parse (lit "user:*") users_spec = Ok users_schema ∧
  conform Utc sample_at users_schema (JObject in_place_members) = Ok (JObject (filled Utc sample_at (fields users_schema) in_place_members)).
Proof.
  destruct users_schema_read as [Hp _]. split; [exact users_spec_ok|]. split; [exact Hp|].
  destruct (schema_accepts Utc sample_at (lit "user:*") users_spec users_schema in_place_members users_spec_ok Hp) as (_ & _ & _ & Hc).
  apply Hc; [|vm_refl]. rewrite users_fields. by repeat constructor.
Defined.
(** What reading a schema does not look at: a default that is a moment, which
    the enumeration of the field does not hold, and an object filled in, which
    its enumeration holds without the defaults only. Both schemas are read
    without a fault, and refuse the document that passes them. *)
Definition moment_listed : SJson := JObject [member "at" (JObject [member "type" (text_ "datetime"); member "default" (text_ "now()");
  member "enum" (JArray [text_ "2024-01-01"])])].
Definition object_listed : SJson := JObject [member "place" (JObject [member "type" (text_ "object"); member "enum" (JArray [JObject []]);
  member "properties" (JObject [member "city" (JObject [member "type" (text_ "string"); member "default" (text_ "Goma")])])])].
Definition refuses_what_passes (spec_ doc : SJson) : bool :=
  match Schema_parse (lit "user:*") spec_ with
  | Ok s =>
    match check_view s (ViewJson doc), conform Utc sample_at s doc with Ok _, Err _ => true | _, _ => false end
  | Err _ => false
  end.
Theorem accepted_and_refuses :
  refuses_what_passes moment_listed (JObject []) = true ∧ refuses_what_passes object_listed (JObject [member "place" (JObject [])]) = true.
Proof. split; vm_refl. Qed.

Definition given : SValue := VDoc (in_place 50 []).
Lemma conformed_exact_witness : ∃ rs, inv false (T0 + 20) rs [] indexed_users ∧ schemas_of [users_schema] (lit "user:2") = [users_schema] ∧ names_ok (fields users_schema) ∧
  (conformed Utc [users_schema] (lit "user:2") given sample_at (T0 + 20) indexed_users).1 = Ok (Some (VDoc (in_place 50 [(lit "city", text_ "Goma")]))) ∧
  follows_schema users_schema (VDoc (in_place 50 [(lit "city", text_ "Goma")])).
Proof.
  destruct users_ready as (rs & Hi & _). exists rs. assert (schemas_of [users_schema] (lit "user:2") = [users_schema]) as Hs by vm_refl.
  split; [exact Hi|]. split; [exact Hs|]. split; [exact users_names|].
  pose proof (conformed_exact Utc false (T0 + 20) rs indexed_users [users_schema] (lit "user:2") given sample_at users_schema Hi Hs users_names) as Hc.
  assert (conform_value Utc users_schema sample_at given = Ok (VDoc (in_place 50 [(lit "city", text_ "Goma")]))) as E by vm_refl.
  destruct (conformed _ _ _ _ _ _ _) as [r i']. rewrite E in Hc. destruct Hc as [(Hf & _ & Er) _]. split; [|exact Hf]. rewrite Er. vm_refl.
Defined.
(** Two schemas on one key: the default of the second is not a value the
    first takes, and the document written does not follow the first. *)
Definition one_field (name ty : String.string) (dflt : list (str * SJson)) : SJson := JObject [member name (JObject (member "type" (text_ ty) :: dflt))].
Definition schema_of (p : String.string) (spec_ : SJson) : SSchema := match Schema_parse (lit p) spec_ with Ok s => s | Err _ => users_schema end.
Theorem overlapping_schemas :
  let first := schema_of "user:*" (one_field "city" "int" []) in
  let second := schema_of "*" (one_field "city" "string" [member "default" (text_ "Goma")]) in
  let written : SValue := VDoc (JObject [(lit "city", text_ "Goma")]) in
  fold_members (fun s doc => conform_value Utc s sample_at doc) [first; second] (VDoc (JObject [])) = Ok written ∧
  ∃ d, view_of written = Some d ∧ check_view first d = Err "expected {want}, got {}"%string.
Proof. intros first second written. split; [vm_refl|]. exists (ViewJson (JObject [(lit "city", text_ "Goma")])). split; [done|vm_refl]. Qed.
(** Items nest without a bound; fields do not. *)
Fixpoint nested_items (n : nat) : SJson :=
  match n with O => JObject [member "type" (text_ "any")] | S n => JObject [member "type" (text_ "array"); member "items" (nested_items n)] end.
Fixpoint nested_fields (n : nat) : SJson :=
  match n with O => JObject [member "type" (text_ "any")] | S n => JObject [member "type" (text_ "object"); member "properties" (JObject [member "x" (nested_fields n)])] end.
Definition accepted (spec_ : SJson) : bool := match Schema_parse [] (JObject [member "x" spec_]) with Ok _ => true | Err _ => false end.
Theorem items_nest_freely : accepted (nested_items 20) = true ∧ accepted (nested_fields 16) = true ∧ accepted (nested_fields 17) = false.
Proof. split; [|split]; reflexivity. Qed.
(** Equal whatever the order of members and the kinds of numbers. *)
Definition one_float : Z := 0x3FF0000000000000.
Lemma doc_eq_equivalence_witness :
  let a := @DObject sample_decimals plain_chrono [(lit "x", DInt 1); (lit "y", DNull)] in
  let b := @DObject sample_decimals plain_chrono [(lit "y", DNull); (lit "x", DFloat one_float)] in
  doc_plain a ∧ doc_plain b ∧ doc_eqb a b = true ∧ doc_eqb b a = true.
Proof.
  intros a b. assert (doc_plain a ∧ doc_plain b) as [Ha Hb].
  { split; (split; [repeat (apply NoDup_cons; split; [vm_compute; set_solver|]); apply NoDup_nil_2|]); cbn; repeat split; vm_compute; done. }
  split; [exact Ha|]. split; [exact Hb|]. assert (doc_eqb a b = true) as E by vm_refl. split; [exact E|].
  destruct doc_eq_equivalence as (_ & Hs & _). by rewrite (Hs b a Hb Ha).
Defined.
